(* ===== verification/_CoqProject ===== *)
-Q . S2P
Prelude.v
BTree.v
Text.v
Time.v
Substring.v
Metadata.v
Dag.v
Schedule.v
ReviewLoop.v
Findings.v
Convergence.v
ReviewerSelection.v
ReviewPipeline.v
Failures.v
RetryRules.v
Escalation.v
Runner.v
RunnerCorrect.v
RunnerLive.v
Model.v
Events.v
AuditExample.v
Lifecycle.v
Preservation.v
Board.v
Campaign.v
RunState.v
Kickoff.v
LoopRun.v
LoopCorrect.v
LoopSafe.v
WorkerAction.v
Guardrails.v
SecretShape.v
Thoughts.v
WorkerTools.v
WorkerConfined.v
ReceiptSummary.v
WorkerRun.v
WorkerSafe.v
Delivery.v
BoardContract.v
BoardClient.v
Ingress.v
Poller.v
PollerSafe.v
IngressRun.v
BoardMove.v
BoardMoveSafe.v
BoardQuery.v
BoardWalk.v
BoardQuerySafe.v
PrStatus.v
PrStatusSafe.v
DecisionRecord.v
Config.v
ConfigSafe.v
ToolRegistry.v
ToolRegistrySafe.v
WatchConfig.v
Watch.v
Governance.v
Supervision.v
Sqlite.v
Catalog.v
RefExpansion.v
RefExpansionSafe.v
CostLedger.v
CostLedgerSafe.v
Traced.v
PushBranch.v
PushBranchSafe.v
GhEnv.v
GhEnvSafe.v
