(* ===== verification/Prelude.v ===== *)
(** * Orchestraitor: verification of the delivery core, the campaign loop, the worker, the board, its tools and the daemon's ingress

    Orchestraitor is a harness that drives coding agents over a backlog of
    tasks.  This library models, in Rocq, the parts of it that decide what may
    run, when a review is finished, what happens after a failure and which
    states a task may take, and proves the properties those parts rely on.  The
    sources are under [src/crates]; the crates modelled here are
    [orchestraitor-delivery] (the delivery loop), [orchestraitor-lifecycle]
    (the task and session lifecycle), [orchestraitor-events] (the audit log,
    without its SQLite backend), [orchestraitor-campaign] (the one-shot pass
    and the long-running loop), [orchestraitor-board] (the GitHub Projects
    board), [orchestraitor-board-contract] (the provider contract and its
    write-through cache), [orchestraitor-worker] (the agent loop that works on
    one task), the event ingress of [orchestraitor-daemon] and the board tools of
    [orchestraitor-mcp].

    ** How the program's parts interact

    A backlog is a list of [TaskMetadata] records ([metadata.rs]).  They are
    validated and indexed into a [TaskDag] ([dag.rs]), which orders them and
    says which are eligible.  [ParallelScheduler] ([schedule.rs]) picks, among
    the eligible ones, the tasks that may start under the concurrency, domain,
    review and file-conflict limits.  [BacklogRunner] ([runner.rs]) is the loop
    on top: each tick consumes the outcomes of the attempts in flight, routes
    failures through the classification table ([failures.rs]), the retry gate
    and backoff ([retry_rules.rs]) and the escalation ladder
    ([escalation.rs]), dispatches what the scheduler selects, and stops the run
    when a stop condition holds.  A finished change set goes to
    [ReviewPipeline] ([review_pipeline.rs]): reviewers are selected once
    ([reviewer_selection.rs]) from the review configuration
    ([review_loop.rs]); each generation's findings are deduplicated in
    [FindingLedger] ([findings.rs]), and [convergence.rs] decides between
    another generation, convergence and the blocked state.  Independently,
    every task and session is an instance of the lifecycle [StateMachine]
    ([state_machine.rs]) with leases, checkpoints, recovery and cancellation
    around it.  What happens is recorded in an append-only [AuditStore]
    ([store.rs]) of hash-chained envelopes ([schema.rs], [hash.rs]), redacted on
    export ([redaction.rs]); partial results ([event_preservation.rs]) and
    reasoning steps ([reasoning.rs]) are appended to it.

    Around that core runs the campaign: the board client ([client.rs]) reads
    every page of the project, [item.rs] and [queue.rs] turn the raw items into
    the ready queue, a campaign pass ([session.rs]) picks one item, records
    exactly one decision ([decision.rs]) and hands the task to a worker.  The
    loop ([loop_run.rs]) repeats passes under a kick-off gate ([kickoff.rs]),
    budgets and guardrails ([guardrails.rs], the worker's [budget.rs]),
    supervises the workers in flight through the rows of [run_state.rs], drains
    on a stop and sweeps on a fatal error.  The board itself is an instance of
    the provider contract ([provider.rs]), whose reference implementation is
    [in_memory.rs] and which [cache.rs] wraps with a read cache.

    The worker the loop starts is itself a loop ([run.rs]): each turn calls the
    provider ([model.rs]), parses the one action of the answer ([action.rs]),
    and dispatches it through the tool executor ([tools.rs]), which confines
    paths ([paths.rs]), admits declared tools ([tooldef.rs]), refuses
    secret-shaped thoughts ([think.rs], the core's [secret_shape.rs]) and leaves
    a receipt per call; guards stop a stuck attempt ([guardrails.rs]), a failed
    attempt is re-planned with a summary of what was done
    ([receipt_summary.rs]), a declared tool may run a sub-session
    ([subsession.rs]), and a finished run is handed to the delivery sink
    ([delivery.rs]).

    What wakes the loop comes in through the daemon's ingress: the pollers
    ([poller.rs], [ci_lane.rs]) read the platform's event feed and CI runs,
    deduplicate the deliveries in a durable table ([store.rs]) and offer the new
    ones to a bounded queue ([queue.rs]) that the kick-off gate drains; issues
    opened by others are mirrored to a second table and attached to the board
    ([intake.rs]).

    Agents reach the board through the tools of the MCP gateway ([gateway.rs]):
    [board_query.rs] searches it and walks what blocks an item, [board_move.rs]
    changes one item's status under a policy, a lease and a read-back; both
    record the invocation in the audit log.  [pr_status.rs] reads one pull
    request and says whether it may be merged, [decision_record.rs] writes a
    decision of the agent to the campaign's store.  [drift.rs] fingerprints the servers
    the gateway talks to.

    Agents write to GitHub through the command line
    ([orchestraitor-cli/src/commands/github.rs]): [push_branch] lands the tree of
    a local branch as one commit that GitHub signs, by way of a temporary
    branch; [gh_env] gives a child process a freshly minted installation token.

    ** Files

    - [Prelude.v] (this file): [Result], loops and checked arithmetic
      ([outcome]: [Done], [Panic], [OutOfFuel]), saturating integers at their
      width, strings as lists of code points with [trim], the scope [orc_scope],
      the hint databases [orc] and the list lemmas the components share.
    - [BTree.v]: [BTreeMap] and [BTreeSet] as [gmap] and [gset] with iteration in
      key order.  The class [OrdKey] is the interface ([Ord]) the ordered
      containers need of a key, with instances for strings, pairs, options,
      lists and the newtypes; every component is proved against it.
    - [Text.v], [Time.v]: ASCII classes, UTF-8 length, splitting, decimal and
      hexadecimal printing; [Duration] with its saturating and checked sums.
    - [Metadata.v] ([metadata.rs]), [Dag.v] ([dag.rs]), [Schedule.v]
      ([schedule.rs]), [ReviewLoop.v] ([review_loop.rs]), [Findings.v]
      ([findings.rs]), [Convergence.v] ([convergence.rs]),
      [ReviewerSelection.v] ([reviewer_selection.rs]), [ReviewPipeline.v]
      ([review_pipeline.rs]), [Failures.v] ([failures.rs]), [RetryRules.v]
      ([retry_rules.rs]), [Escalation.v] ([escalation.rs]), [Runner.v]
      ([runner.rs]): one file per source module.  Structs are records, enums
      inductive types with the source's variants, a method that takes [&mut
      self] a function that returns the new record.
    - [RunnerCorrect.v] and [RunnerLive.v]: the theorems about the runner.  The
      reachable states ([reachable]) are those of any interleaving of [tick],
      [run], [pause] and [resume] with any reported outcomes, from a state
      [BacklogRunner::new] returned.
    - [Model.v]: the identifiers and states of [orchestraitor-model] the crates
      share.
    - [Events.v] ([schema.rs], [hash.rs], [redaction.rs], [store.rs]): the class
      [AuditStore] is the trait, [AuditStoreLaws] what its clients may rely on,
      [in_memory_laws] the proof that the in-memory store keeps it.
      [Sqlite.v] ([sqlite.rs]) is the store on disk with its cached head, among other
      connections.  [AuditExample.v] instantiates the library parameters and carries the
      examples.  [Preservation.v] ([event_preservation.rs], [reasoning.rs]): the
      clients, proved against the interface.
    - [Lifecycle.v] ([state_machine.rs] in Module [StateMachine], then
      [lease.rs], [checkpoint.rs], [recovery.rs], [cancellation.rs]).

    - [Board.v] ([item.rs], [queue.rs], [config.rs], [error.rs] of the board, and
      [secret.rs] of the core), [Campaign.v] ([session.rs], [decision.rs]),
      [RunState.v] ([run_state.rs]), [Kickoff.v] ([guardrails.rs], [kickoff.rs],
      [watch.rs], the worker's [budget.rs]).
    - [LoopRun.v] ([loop_run.rs]): the loop as a state and error monad over the
      runner, the class [World] being everything outside it.
      [LoopCorrect.v] has the weakest preconditions and the bookkeeping
      invariant of each step, [LoopSafe.v] the theorems on whole runs.
    - [BoardContract.v] ([types.rs], [provider.rs], [in_memory.rs], [cache.rs]):
      the class [BoardProvider] is the trait, [SoleWriter] what a provider no
      one else writes promises; the in-memory provider is proved to keep it and
      the cache is proved against it.
    - [BoardClient.v] ([client.rs], [cache.rs], [auth.rs] of the board): the
      client over an HTTP exchange, with a log of what was sent.

    - [Substring.v]: substring search, splitting and the byte and character
      truncations of [search.rs].
    - [WorkerAction.v] ([action.rs], the model's [tool_id.rs]), [Guardrails.v]
      ([guardrails.rs]), [SecretShape.v] ([secret_shape.rs]), [Thoughts.v]
      ([think.rs]), [ReceiptSummary.v] ([receipt_summary.rs], [prompt.rs]):
      the pure parts of the worker.
    - [WorkerTools.v] ([paths.rs], [tooldef.rs], [search.rs], [tools.rs]): the
      executor over the class [ToolHost], every access logged;
      [WorkerConfined.v] has its theorems.
    - [WorkerRun.v] ([result.rs], [prompt.rs], [model.rs], [run.rs],
      [subsession.rs]): the run over the class [WorkerHost];
      [WorkerSafe.v] the theorems on whole runs, by weakest preconditions over
      composable deltas of the state.
    - [Delivery.v] ([delivery.rs], [task.rs]): the push-branch sink over a world
      of processes.

    - [Ingress.v] ([queue.rs], [store.rs], [intake.rs] and the kick-off source of
      [ingress.rs]), [Poller.v] ([poller.rs], [ci_lane.rs]): the tables and the
      pollers over the class [IngressWorld]; [PollerSafe.v] has the transcript
      of every poll, [IngressRun.v] the daemon's rounds as a step relation (a round of a
      loop is one step, on a clock that does not go back) and
      the theorems on what it reaches.

    - [BoardMove.v] ([board_move.rs]) and [BoardQuery.v] ([board_query.rs],
      [drift.rs]), each with its driver of [gateway.rs], over any board, any
      lease registry and any audit store; [BoardMoveSafe.v], [BoardWalk.v] and
      [BoardQuerySafe.v] have their theorems, the interleavings of several moves
      as a step relation.
    - [PrStatus.v] ([pr_status.rs] and its tool) with [PrStatusSafe.v], over any
      GraphQL transport; [DecisionRecord.v] ([decision_record.rs] and its tool).

    - [Config.v] ([config/schema.rs], [config/resolver.rs], [config/parse.rs] of the
      core) with [ConfigSafe.v]; [ToolRegistry.v] ([tool.rs]) with
      [ToolRegistrySafe.v]; [WatchConfig.v] (the settings of [watch.rs] and the
      layers [main.rs] loads).
    - [RefExpansion.v] ([ref_expansion.rs]) with [RefExpansionSafe.v]: the
      references of a worker-bound payload and the blocks that replace them.
    - [CostLedger.v] ([model.rs], [budget.rs], [storage.rs] of the cost ledger) with
      [CostLedgerSafe.v].
    - [Catalog.v]: the agent catalog, roles routed to providers and models over the
      configuration, routes and detection of domains.
    - [Watch.v] (the reconcile poller of [watch.rs]), [Governance.v]
      ([governance.rs], [governance/retry.rs]), [Supervision.v] ([supervision.rs],
      [supervision/monitor.rs], [supervision/types.rs]): the rest of the daemon's
      own logic.  The tasks of the supervisor are a labelled transition system.

    - [Traced.v]: computations over an outside world with a trace of the
      exchanges, their weakest preconditions and what they can emit; over it
      [PushBranch.v] with [PushBranchSafe.v] and [GhEnv.v] with [GhEnvSafe.v],
      the two commands of [github.rs].

    Where a field or variant name is used by two types of the source, the
    second carries a short prefix ([tm_id], [Ev_Started], [Stop_Paused]).

    ** What the theorems show

    - The runner: the state invariant in every reachable state; caps and
      file-conflict freedom of the attempts in flight; completion only on
      reported evidence and in dependency order; what each outcome does; exact
      budget accounting; every stop reason is true of the backlog; a blocked
      task freezes the run; an append-only journal; progress of each tick and
      termination of the run.
    - The review pipeline: [trigger] refines the review process written as the
      inductive relation [review_loop], returns a verdict for every executor,
      starts at most [min(max_review_loops, 5)] generations, and its verdict is
      justified by the final ledger.  Below it: the exact convergence
      decision, the ledger's invariant and monotone history, the exact list of
      blocking findings, soundness of reviewer selection and its truncation.
    - The backlog: validation accepts exactly the well-formed records, the DAG
      exactly the consistent inputs; the topological sort returns on every DAG,
      its order is the lexicographically least one, and the reported cycle is
      exactly the set of tasks held up by a cycle; [select] is safe and
      work-conserving.
    - Failures: the retry gate never lets a security or approval outcome be
      retried, the backoff is exact and bounded, the ladder is walked one step
      at a time to the human, the failure ledger counts exactly.
    - The lifecycle: every history is a legal chain with unique keys and
      survives a reload, replays are idempotent, leases and checkpoints meet
      their bounds, recovery proposals compared with the edges the machine
      admits.
    - The audit log: every reachable log is a valid chain, an append succeeds
      exactly on a continuing envelope, the head hash commits to the history unless
      the two histories themselves hold a collision, the SQLite store with its cached head refines the
      in-memory one on the log it verifies and never extends a log that does not
      verify, whatever other connections write (an import that raced with one of
      them apart, until the next foreign commit), exports are sanitised valid chains that import back,
      and both clients extend the log without gaps and fail only for the stated
      reasons.

    - The loop, in every world: never more workers than the cap, one run per
      task and invocation, other invocations' rows untouched; a returned summary
      accounts for every row; once a stop is declared no row is inserted; a
      fatal exit aborts every worker that has a slot and writes exactly the rows
      whose write the database accepts; of the others at most one had no slot
      when the error struck, and an example reaches that bound.  Below it: rows finish once, recovery orphans exactly the running
      rows, the retry record counts the history, the kick-off gate and the
      decision of a pass are exact, task identifiers are valid and identify.
    - The board: nothing undecidable enters the ready queue; every page is read;
      a move is one mutation verified by read-back; an attach repairs and never
      overrides; cached ids are reused without a request; the contract cache is
      transparent over a sole writer and lets the board win over any other, and
      the reference board stays well typed.

    - The worker, with every provider, host and sink: a run is bounded by its
      budgets, asks the sink at most once and reports completion exactly when
      the sink accepted, stops at a failed mediation, bills every call once; a
      sub-session reads through its allowlist and writes nothing.  Below it:
      tools reach only checked paths below the root, quoted arguments come back
      from a shell, the guards fire exactly on their counts, thoughts and
      actions are bounded, secret shapes are found, the re-plan summary stays
      inside its fence and cap; a delivery walks one fixed plan.

    - The ingress, whatever the platform and the database answer and across
      restarts: one delivery key is not offered twice within the redelivery
      window, the queue keeps its capacity, requests stay at the configured
      origin and are bounded in number, counters are exact, the intake lane
      asks the board exactly for the attachable reports and loses none when its
      writes succeed.

    - The board tools: a refused move leaves the board as it was, an applied one
      satisfied every guard when it was checked and changed one status; two
      sessions never hold one item in any interleaving; a query changes nothing,
      returns on every board and lists exactly what blocks an item within its
      bound; every answer leaves one record.
    - The pull-request and decision tools: a pull request is reported mergeable
      exactly when one consistent snapshot passes every gate, for the configured
      repository only; a decision is stored exactly as offered, once, and never
      with a secret-shaped text.
    - Reference expansion: the references found are exactly the words of the
      grammar; a block keeps provider text inside its fence and its cap and holds no
      token or secret reference; one pass replaces each reference once, within the
      pass budget, and returns whenever the white space of the texts is ASCII.

    - The cost ledger: a session keeps one profile and no entry is lost or changed,
      whatever SQLite fails; a call is admitted exactly by the caps of its scope; the
      efficiency report counts every entry and receipt once.

    - The configuration, read through its leaves: every key but the ones the merge
      loses has the value of the highest layer that sets it, whatever the order of
      the files; conflicts within a layer are rejected exactly; a registry of
      declared tools is built from trusted layers only and its tools are valid; a
      role is routed to a configured provider only, whatever a decision provider
      proposes, and the detected domain has the largest score; the
      daemon's ingress keeps its built-in settings whatever the files say.

    - The daemon: a reconcile pass that failed part way is retried without loss or
      repetition; content leaves the machine exactly by the routing policy, with
      the meaning of its patterns, or by the enforcer's verdict; an execution with
      retries is bounded and each call has the breaker's consent, and the breaker
      is equivalent to a rule on the failures since the last success; workers use
      only the tools of the project they are bound to, restarts are bounded, also
      across a shutdown, and failures stay with the worker they befall.

    - The GitHub commands, for every answer of GitHub and of the local tools:
      a landing writes only after its gates, moves a branch only from a head it
      read there to a commit with the local tree and a valid signature, reports
      no landing that did not happen and asks for the deletion of its temporary
      branch; a minted token reaches one child, after the mode, the service
      identity and the shape of the child were decided.

    ** Integers, fuel and parameters

    [usize], [u64] and [u32] are [N] with the saturation of the source
    written out at the type's maximum; a plain subtraction is checked and
    [Panic]s below zero.  Loops that are not structural take fuel: Kahn's loop
    the number of tasks, the path trimming the length of the path, the
    generation loop [DEFAULT_HARD_LOOP_CEILING] = 5, which the convergence
    decision enforces; [topological_order_total] and [trigger_refines_process]
    prove that [OutOfFuel] and [Panic] never come out, so the fuel is enough.
    [run] takes the tick bound the source itself takes.  The loop of
    [LoopRun.v] has no bound in the source: its fuel is the number of
    iterations observed, and the theorems hold for every fuel and outcome, so
    at every iteration.  The page loop of [BoardClient.v] likewise counts the
    pages read.  The walk of [BoardQuery.v] takes [walk_fuel], which
    [blocked_walk_right] proves enough.  The redaction loop of
    [RefExpansion.v] takes the length of its text, which [redact_total] proves
    enough.  The worker needs no fuel: an attempt recurs on its turns, the
    re-plans on their budget, a call on its retries; the scans of text recur on
    the text, and the worktree is a finite snapshot.

    The review executor is a closure of the caller: a function of the request
    and of the state it captures, quantified in every theorem about the
    pipeline.  The outcomes of attempts are inputs of [tick]; termination
    assumes only that the environment reports an outcome for what is in flight
    ([answers]).  JSON serialisation, its canonical form and SHA-256 are the
    parameters [Externals]; the one law assumed, [ExternalsLaws], is that the
    canonical form ignores the order of fields, and that a line parses back is a
    hypothesis on the exported records ([line_ok]).  The clock and the identifier
    generator are inputs.  A [PathBuf] is the string its lossy conversion gives.

    A SQLite call of the campaign stores takes the error it would return, if
    any; floats are the binary64 of [SpecFloat], and [format2], [sql_sum] and
    the Unicode [to_lowercase] are parameters without laws.  Of GitHub, the
    process environment and the cache file nothing is assumed, but for the
    theorem on cached ids, which assumes that a file keeps what was written
    ([FaithfulDisk]) and that the JSON codec reads what it wrote ([codec_ok]).
    The rows of the cost ledger's queries come in any order that is a
    permutation ([RowOrderLaws]).
    The policy engine behind the data-release enforcer is the class
    [PolicyEngine], without laws; attempts of an operation, instants and exits of
    processes are inputs.  The TOML library is the class [Toml]; that the keys of a document name every
    value read from it is a hypothesis on the inputs ([keyed]).

    ** Not modelled

    Serialisation derives and [Display] texts (but for those that are stored or
    compared), opening and migrating SQLite files, the text of TOML and JSON
    documents, the length of a loop tick, the processes behind the worker's bash
    mediator, the worktrees and the lock of the watch command: these are I/O or
    the libraries' own.  The provider clients and the proxy, the adapter host and
    the Arbitraitor client drive HTTP or child processes; the context index calls
    tree-sitter and the simplification pass external tools; the RPC server, the
    terminal UI and the rest of the command line present what the modelled parts
    compute.
    Of the cost ledger, opening the file and migrating its schema are left out. *)

From Stdlib Require Import Ascii.
From Corelib Require Export ssreflect.
From stdpp Require Export base decidable option gmap strings numbers sorting relations countable.
From stdpp Require Export list.

#[global] Open Scope general_if_scope.
#[global] Set SsrOldRewriteGoalsOrder.
#[global] Open Scope N_scope.

(** ** Notation scope and hint databases of the development *)

Declare Scope orc_scope.
Delimit Scope orc_scope with orc.
Create HintDb orc.
Create Rewrite HintDb orc.

(** ** [Result<T, E>] and the [?] operator *)

Inductive result (T E : Type) : Type :=
  | Ok (t : T)
  | Err (e : E).
Arguments Ok {T E} _.
Arguments Err {T E} _.

#[export] Instance result_eq_dec `{EqDecision T, EqDecision E} : EqDecision (result T E).
Proof. solve_decision. Defined.

Definition result_bind {T U E} (r : result T E) (k : T → result U E) : result U E :=
  match r with Ok t => k t | Err e => Err e end.

Definition map_err {T E F} (f : E → F) (r : result T E) : result T F :=
  match r with Ok t => Ok t | Err e => Err (f e) end.

Definition ok_or {T E} (o : option T) (e : E) : result T E :=
  match o with Some t => Ok t | None => Err e end.

Notation "'let?' x ':=' c 'in' k" := (result_bind c (fun x => k))
  (at level 10, x pattern, c at level 100, k at level 200) : orc_scope.
#[global] Open Scope orc_scope.

Definition is_Ok {T E} (r : result T E) : Prop := ∃ t, r = Ok t.

Lemma result_bind_ok {T U E} (r : result T E) (k : T → result U E) u :
  result_bind r k = Ok u ↔ ∃ t, r = Ok t ∧ k t = Ok u.
Proof. destruct r; naive_solver. Qed.

Lemma map_err_ok {T E F} (f : E → F) (r : result T E) t :
  map_err f r = Ok t ↔ r = Ok t.
Proof. destruct r; naive_solver. Qed.

(** ** Runs of loops and checked arithmetic

    [Panic] is the arithmetic overflow of a plain [-] on an unsigned integer;
    [OutOfFuel] is the artefact of a bounded translation of a [while] or
    [loop].  Every operation that can produce one has a theorem that it does
    not. *)

Inductive outcome (A : Type) : Type :=
  | Done (a : A)
  | Panic
  | OutOfFuel.
Arguments Done {A} _.
Arguments Panic {A}.
Arguments OutOfFuel {A}.

Definition outcome_bind {A B} (o : outcome A) (k : A → outcome B) : outcome B :=
  match o with Done a => k a | Panic => Panic | OutOfFuel => OutOfFuel end.

Notation "'let!' x ':=' c 'in' k" := (outcome_bind c (fun x => k))
  (at level 10, x pattern, c at level 100, k at level 200) : orc_scope.

(** ** Unsigned machine integers

    A [u32], [u64] or [usize] value is an [N] below its bound; the
    saturating and checked operations of the standard library write the bound
    out.  Counters the code increments with plain [+] on a collection's length
    cannot reach the bound (no collection holds [usize::MAX] elements). *)

Definition u32_max : N := 4294967295.
Definition u64_max : N := 18446744073709551615.
Definition usize_max : N := u64_max.
Definition i64_max : N := 9223372036854775807.

Definition saturating_add (bound a b : N) : N := N.min (a + b) bound.
Definition saturating_mul (bound a b : N) : N := N.min (a * b) bound.
Definition saturating_sub (a b : N) : N := a - b.
Definition checked_sub (a b : N) : option N := if b <=? a then Some (a - b) else None.
Definition checked_pow (bound a n : N) : option N :=
  if a ^ n <=? bound then Some (a ^ n) else None.

(** [Vec::len] and friends. *)
Definition len {A} (l : list A) : N := N.of_nat (length l).

Lemma saturating_add_le bound a b : saturating_add bound a b ≤ bound.
Proof. unfold saturating_add. lia. Qed.

Lemma saturating_add_ge bound a b : a ≤ bound → a ≤ saturating_add bound a b.
Proof. unfold saturating_add. lia. Qed.

Lemma checked_sub_spec a b c : checked_sub a b = Some c ↔ b ≤ a ∧ c = a - b.
Proof.
  unfold checked_sub. destruct (N.leb_spec b a); split; intros; simplify_eq; naive_solver lia.
Qed.

Lemma len_nil {A} : len ([] : list A) = 0.
Proof. reflexivity. Qed.

Lemma len_cons {A} (x : A) l : len (x :: l) = 1 + len l.
Proof. unfold len. simpl. lia. Qed.

Lemma len_app {A} (l k : list A) : len (l ++ k) = len l + len k.
Proof. unfold len. rw length_app. lia. Qed.

Lemma len_0 {A} (l : list A) : len l = 0 ↔ l = [].
Proof. unfold len. destruct l; simpl; split; intros; try done; lia. Qed.

#[export] Hint Rewrite @len_nil @len_cons @len_app : orc.
#[export] Hint Resolve saturating_add_le : orc.

(** ** Strings

    A Rust [String] is the list of its Unicode scalar values.  [str::cmp]
    compares UTF-8 bytes, which is the order of the scalar values, so the
    lexicographic order on this type is the order of the code. *)

Abbreviation rstr := (list N) (only parsing).

(** An ASCII literal of the source. *)
Definition lit (s : string) : rstr :=
  (λ c, N_of_ascii c) <$> String.list_ascii_of_string s.

(** [char::is_whitespace]: the Unicode [White_Space] property. *)
Definition is_whitespace (c : N) : bool :=
  ((9 <=? c) && (c <=? 13)) || (c =? 32) || (c =? 133) || (c =? 160) || (c =? 5760)
  || ((8192 <=? c) && (c <=? 8202)) || (c =? 8232) || (c =? 8233) || (c =? 8239)
  || (c =? 8287) || (c =? 12288).

Fixpoint trim_start (s : rstr) : rstr :=
  match s with
  | [] => []
  | c :: s' => if is_whitespace c then trim_start s' else s
  end.

(** [str::trim]. *)
Definition trim (s : rstr) : rstr := reverse (trim_start (reverse (trim_start s))).

Definition is_empty {A} (l : list A) : bool := match l with [] => true | _ => false end.

(** [s.trim().is_empty()]. *)
Definition blank (s : rstr) : bool := is_empty (trim s).

(** [char::len_utf8] and [str::len], in bytes. *)
Definition len_utf8 (c : N) : N :=
  if c <? 128 then 1 else if c <? 2048 then 2 else if c <? 65536 then 3 else 4.

Definition str_len (s : rstr) : N := foldr (λ c n, len_utf8 c + n) 0 s.

Definition strip_prefix (p s : rstr) : option rstr :=
  if bool_decide (take (length p) s = p) then Some (drop (length p) s) else None.

Lemma strip_prefix_some p s t : strip_prefix p s = Some t ↔ s = p ++ t.
Proof.
  unfold strip_prefix. case_bool_decide as H.
  - split; [intros [= <-]; by rw -{1}H take_drop|]. intros ->. by rw drop_app_length.
  - split; [done|]. intros ->. by rw take_app_length in H.
Qed.

Definition ends_with (c : N) (s : rstr) : bool := bool_decide (list.last s = Some c).

(** [String::pop], the popped character dropped. *)
Definition pop (s : rstr) : rstr := take (length s - 1) s.

Lemma is_empty_spec {A} (l : list A) : is_empty l = true ↔ l = [].
Proof. destruct l; naive_solver. Qed.

Lemma is_empty_false {A} (l : list A) : is_empty l = false ↔ l ≠ [].
Proof. destruct l; naive_solver. Qed.

Lemma len_utf8_pos c : 1 ≤ len_utf8 c ≤ 4.
Proof. unfold len_utf8. repeat case_match; lia. Qed.

Lemma str_len_ge s : len s ≤ str_len s.
Proof.
  induction s as [|c s IH]; [done|]. simpl. autorewrite with orc.
  pose proof (len_utf8_pos c). lia.
Qed.

Lemma trim_start_head s c s' : trim_start s = c :: s' → is_whitespace c = false.
Proof.
  induction s as [|d s IH]; simpl; [done|].
  destruct (is_whitespace d) eqn:E; [done|]. intros; by simplify_eq.
Qed.

Lemma trim_start_id s : (∀ c s', s = c :: s' → is_whitespace c = false) → trim_start s = s.
Proof. destruct s as [|c s]; [done|]. intros H. simpl. by rw (H c s). Qed.

Lemma trim_start_idemp s : trim_start (trim_start s) = trim_start s.
Proof. apply trim_start_id. intros c s' E. by eapply trim_start_head. Qed.

(** Trimming an end keeps the other end. *)
Lemma trim_start_suffix s : ∃ p, s = p ++ trim_start s.
Proof.
  induction s as [|c s [p IH]]; simpl; [by exists []|].
  destruct (is_whitespace c); [exists (c :: p)|by exists []]. by rw {1}IH.
Qed.

Lemma trim_idemp s : trim (trim s) = trim s.
Proof.
  unfold trim. set (a := trim_start s).
  assert (trim_start (reverse (trim_start (reverse a))) = reverse (trim_start (reverse a))) as ->.
  { apply trim_start_id. intros c s' E.
    destruct (trim_start_suffix (reverse a)) as [p Hp].
    assert (a = (c :: s') ++ reverse p) as Ha.
    { rw -(reverse_involutive a) Hp reverse_app E. done. }
    eapply (trim_start_head s). unfold a in Ha. rw Ha. done. }
  by rw reverse_involutive trim_start_idemp.
Qed.

Lemma blank_trim s : blank (trim s) = blank s.
Proof. unfold blank. by rw trim_idemp. Qed.

(** ** Automation *)

(** Splits every boolean connective of the hypotheses and the goal. *)
Ltac bool_simpl :=
  repeat match goal with
  | H : _ && _ = true |- _ => apply andb_true_iff in H as [? ?]
  | H : _ || _ = false |- _ => apply orb_false_iff in H as [? ?]
  | H : negb _ = true |- _ => apply negb_true_iff in H
  | H : negb _ = false |- _ => apply negb_false_iff in H
  | H : bool_decide _ = true |- _ => apply bool_decide_eq_true_1 in H
  | H : bool_decide _ = false |- _ => apply bool_decide_eq_false_1 in H
  | H : (_ <=? _) = true |- _ => apply N.leb_le in H
  | H : (_ <=? _) = false |- _ => apply N.leb_gt in H
  | H : (_ <? _) = true |- _ => apply N.ltb_lt in H
  | H : (_ <? _) = false |- _ => apply N.ltb_ge in H
  | H : (_ =? _) = true |- _ => apply N.eqb_eq in H
  | H : (_ =? _) = false |- _ => apply N.eqb_neq in H
  | H : is_empty _ = true |- _ => apply is_empty_spec in H
  | H : is_empty _ = false |- _ => apply is_empty_false in H
  end.

(** Case analysis on the next scrutinee of a chain of early returns. *)
Ltac step_if :=
  match goal with
  | |- context [ if ?b then _ else _ ] => destruct b eqn:?
  | H : context [ if ?b then _ else _ ] |- _ => destruct b eqn:?
  end.

(** ** Lists *)

Lemma existsb_true {A} (f : A → bool) l : existsb f l = true ↔ ∃ x, x ∈ l ∧ f x = true.
Proof. rw existsb_exists. by setoid_rewrite list_elem_of_In. Qed.

Lemma existsb_false {A} (f : A → bool) l : existsb f l = false ↔ ∀ x, x ∈ l → f x = false.
Proof.
  rw -not_true_iff_false existsb_true. split.
  - intros H x Hx. destruct (f x) eqn:E; naive_solver.
  - intros H (x & Hx & E). rw H in E; done.
Qed.

Lemma forallb_true {A} (f : A → bool) l : forallb f l = true ↔ ∀ x, x ∈ l → f x = true.
Proof. rw forallb_forall. by setoid_rewrite list_elem_of_In. Qed.

Lemma elem_of_filter_bool {A} (P : A → bool) l x : x ∈ List.filter P l ↔ x ∈ l ∧ P x = true.
Proof. by rw list_elem_of_In filter_In -list_elem_of_In. Qed.

Lemma NoDup_fmap_filter {A B} (f : A → B) (P : A → bool) l :
  NoDup (f <$> l) → NoDup (f <$> List.filter P l).
Proof.
  induction l as [|x l IH]; [done|]. intros [Hx Hnd]%NoDup_cons. simpl.
  destruct (P x); [|auto]. constructor; [|auto].
  rw list_elem_of_fmap. intros (y & Hy & [Hin _]%elem_of_filter_bool). apply Hx.
  rw Hy. by apply list_elem_of_fmap_2.
Qed.

Lemma StronglySorted_impl {A} (R S : A → A → Prop) l :
  (∀ x y, R x y → S x y) → StronglySorted R l → StronglySorted S l.
Proof. induction 2 as [|x l _ IH Hx]; constructor; [done|]. eapply Forall_impl; eauto. Qed.

(** The elements of [l] that satisfy [P], counted. *)
Definition count {A} (P : A → bool) (l : list A) : N := len (List.filter P l).

Lemma count_nil {A} (P : A → bool) : count P [] = 0.
Proof. reflexivity. Qed.

Lemma count_cons {A} (P : A → bool) x l : count P (x :: l) = (if P x then 1 else 0) + count P l.
Proof. unfold count. simpl. destruct (P x); autorewrite with orc; lia. Qed.

Lemma count_app {A} (P : A → bool) l k : count P (l ++ k) = count P l + count P k.
Proof. unfold count. rw List.filter_app. apply len_app. Qed.

Lemma filter_none {A} (f : A → bool) l : (∀ x, x ∈ l → f x = false) → List.filter f l = [].
Proof.
  induction l as [|x l IH]; intros Hf; cbn [List.filter]; [done|].
  rw (Hf x); [|left]. apply IH. intros y Hy. apply Hf. by right.
Qed.

Lemma filter_all {A} (f : A → bool) l : (∀ x, x ∈ l → f x = true) → List.filter f l = l.
Proof.
  induction l as [|x l IH]; intros Hf; cbn [List.filter]; [done|].
  rw (Hf x); [|left]. f_equal. apply IH. intros y Hy. apply Hf. by right.
Qed.

Lemma count_0 {A} (P : A → bool) l : count P l = 0 ↔ ∀ x, x ∈ l → P x = false.
Proof.
  induction l as [|y l IH]; [by split; [set_solver|]|].
  rw count_cons. setoid_rewrite elem_of_cons. destruct (P y) eqn:E.
  - split; [lia|]. intros H. rw H in E; naive_solver.
  - rw N.add_0_l IH. naive_solver.
Qed.

Lemma count_pos {A} (P : A → bool) l x : x ∈ l → P x = true → 0 < count P l.
Proof.
  intros Hx Hp. destruct (N.eq_0_gt_0_cases (count P l)) as [H|]; [|done].
  by rw (proj1 (count_0 P l) H x Hx) in Hp.
Qed.

Lemma count_ext {A} (P Q : A → bool) l :
  (∀ x, x ∈ l → P x = Q x) → count P l = count Q l.
Proof.
  induction l as [|y l IH]; [done|]. intros H. rw !count_cons (H y) ?IH; set_solver.
Qed.

Lemma count_le {A} (P Q : A → bool) l :
  (∀ x, x ∈ l → P x = true → Q x = true) → count P l ≤ count Q l.
Proof.
  induction l as [|y l IH]; [done|]. intros H. rw !count_cons.
  assert (count P l ≤ count Q l) by (apply IH; set_solver).
  destruct (P y) eqn:E; [rw (H y); [lia|set_solver|done]|]. lia.
Qed.

Lemma count_perm {A} (P : A → bool) l k : l ≡ₚ k → count P l = count P k.
Proof. induction 1; rw ?count_cons; try lia; congruence. Qed.

Lemma count_unique {A} (P : A → bool) l x y : count P l ≤ 1 → x ∈ l → y ∈ l → P x = true → P y = true → x = y.
Proof.
  induction l as [|z l IH]; [by intros _ ?%not_elem_of_nil|]. rw count_cons !elem_of_cons.
  intros Hc [->|Hx] [->|Hy] Px Py; [done| | |].
  - pose proof (count_pos P l y Hy Py). rw Px in Hc. lia.
  - pose proof (count_pos P l x Hx Px). rw Py in Hc. lia.
  - apply IH; try done. destruct (P z); lia.
Qed.

Lemma filter_filter {A} (P Q : A → bool) l :
  List.filter P (List.filter Q l) = List.filter (λ x, Q x && P x) l.
Proof. induction l as [|x l IH]; cbn; [done|]. destruct (Q x); cbn; [destruct (P x)|]; by rw IH. Qed.

#[export] Hint Rewrite @count_nil @count_cons @count_app : orc.

(** A [for] loop whose body returns early with [?]. *)
Fixpoint try_for_each {A E} (f : A → result unit E) (l : list A) : result unit E :=
  match l with
  | [] => Ok tt
  | x :: l => let? _ := f x in try_for_each f l
  end.

Lemma try_for_each_ok {A E} (f : A → result unit E) l :
  try_for_each f l = Ok tt ↔ ∀ x, x ∈ l → f x = Ok tt.
Proof.
  induction l as [|x l IH]; simpl; [by split; [set_solver|]|].
  rw result_bind_ok. split.
  - intros ([] & Hx & Hl) y [->|]%elem_of_cons; [done|]. by apply IH.
  - intros H. exists tt. split; [apply H; set_solver|]. apply IH. set_solver.
Qed.

(** A chain of guarded early returns: [if c { return Err(e) }] before [k]. *)
Lemma guard_ok {T E} (c : bool) (e : E) (k : result T E) t :
  (if c then Err e else k) = Ok t ↔ c = false ∧ k = Ok t.
Proof. destruct c; naive_solver. Qed.

(** [guards_in H] turns [H : <chain of guards> = Ok _] into the list of facts it
    was accepted under; [guards] asks for them in the goal. *)
Ltac guards_in H :=
  cbv zeta in H;
  repeat lazymatch type of H with
  | (if _ then Err _ else _) = Ok _ => apply guard_ok in H as [? H]
  | result_bind _ _ = Ok _ => apply result_bind_ok in H as (? & ? & H)
  end.

Ltac guards :=
  cbv zeta;
  repeat lazymatch goal with
  | |- (if _ then Err _ else _) = Ok _ => apply guard_ok; split
  | |- result_bind _ _ = Ok _ => apply result_bind_ok; eexists; split
  end.
