(* ===== verification/BTree.v ===== *)
(** * Ordered maps and sets

    [BTreeMap<K, V>] is a [gmap K V] and [BTreeSet<K>] a [gset K]; what the
    B-tree adds to a finite map is the order of its iteration, ascending in
    [K: Ord].  [OrdKey] is the part of [Ord] the code relies on, [bt_iter],
    [bt_keys] and [bs_iter] are the iterators. *)

From S2P Require Import Prelude.

(** ** [Ord] *)

Class OrdKey (K : Type) := {
  kcmp : K → K → comparison;
  kcmp_eq x y : kcmp x y = Eq ↔ x = y;
  kcmp_opp x y : kcmp y x = CompOpp (kcmp x y);
  kcmp_trans x y z : kcmp x y = Lt → kcmp y z = Lt → kcmp x z = Lt;
}.

Definition klt `{OrdKey K} (x y : K) : Prop := kcmp x y = Lt.
Definition kle `{OrdKey K} (x y : K) : Prop := kcmp x y ≠ Gt.

(** [a < b] and [a >= b] as the code writes them. *)
Definition kltb `{OrdKey K} (x y : K) : bool := match kcmp x y with Lt => true | _ => false end.
Definition kleb `{OrdKey K} (x y : K) : bool := match kcmp x y with Gt => false | _ => true end.

Section ord.
Context `{OrdKey K}.
Implicit Types x y z : K.

#[export] Instance klt_dec : RelDecision (klt (K:=K)).
Proof. intros x y. unfold klt. apply _. Defined.

#[export] Instance kle_dec : RelDecision (kle (K:=K)).
Proof. intros x y. unfold kle. apply _. Defined.

Lemma kltb_spec x y : kltb x y = true ↔ klt x y.
Proof. unfold kltb, klt. destruct (kcmp x y); naive_solver. Qed.

Lemma kleb_spec x y : kleb x y = true ↔ kle x y.
Proof. unfold kleb, kle. destruct (kcmp x y); naive_solver. Qed.

Lemma kcmp_refl x : kcmp x x = Eq.
Proof. by apply kcmp_eq. Qed.

#[export] Instance klt_strict : StrictOrder (klt (K:=K)).
Proof.
  split.
  - intros x Hx. unfold complement, klt in *. by rw kcmp_refl in Hx.
  - intros x y z. apply kcmp_trans.
Qed.

Lemma kle_lt_eq x y : kle x y ↔ klt x y ∨ x = y.
Proof. unfold kle, klt. rw -kcmp_eq. destruct (kcmp x y); naive_solver. Qed.

Lemma kle_not_lt x y : kle x y ↔ ¬ klt y x.
Proof. unfold kle, klt. rw (kcmp_opp x y). destruct (kcmp x y); naive_solver. Qed.

Lemma klt_le x y : klt x y → kle x y.
Proof. rw kle_lt_eq. by left. Qed.

#[export] Instance kle_total : Total (kle (K:=K)).
Proof. intros x y. rw !kle_not_lt /klt (kcmp_opp x y). destruct (kcmp x y); naive_solver. Qed.

#[export] Instance kle_po : PartialOrder (kle (K:=K)).
Proof.
  split; [split|].
  - intros x. apply kle_lt_eq. by right.
  - intros x y z. rw !kle_lt_eq. intros [Hxy| ->] [Hyz| ->]; auto. left. by etrans.
  - intros x y. rw !kle_lt_eq. intros [Hxy| ->] [Hyx|]; try done.
    exfalso. eapply (irreflexivity klt x). by etrans.
Qed.
End ord.

#[export] Hint Resolve klt_le : orc.

(** A type ordered through an injection into an ordered type: the derived
    [Ord] of a newtype or of a field-less enum numbered by its variants. *)
Definition ord_key_inj {A K} `{OrdKey K} (f : A → K) (Hf : ∀ x y, f x = f y → x = y) : OrdKey A.
Proof.
  refine {| kcmp x y := kcmp (f x) (f y) |}.
  - abstract (intros x y; rw kcmp_eq; naive_solver).
  - abstract (intros; apply kcmp_opp).
  - abstract (intros x y z; apply kcmp_trans).
Defined.

#[export] Instance N_ord_key : OrdKey N.
Proof.
  refine {| kcmp := N.compare |}.
  - abstract (intros; apply N.compare_eq_iff).
  - abstract (intros; apply N.compare_antisym).
  - abstract (intros x y z; rw !N.compare_lt_iff; lia).
Defined.

(** Lexicographic order on sequences (strings) and pairs (derived [Ord] of a
    struct), and [None < Some] on options. *)
Fixpoint list_kcmp `{OrdKey K} (xs ys : list K) : comparison :=
  match xs, ys with
  | [], [] => Eq
  | [], _ :: _ => Lt
  | _ :: _, [] => Gt
  | x :: xs, y :: ys => match kcmp x y with Eq => list_kcmp xs ys | c => c end
  end.

#[export] Instance list_ord_key `{OrdKey K} : OrdKey (list K).
Proof.
  refine {| kcmp := list_kcmp |}.
  - induction x as [|a x IH]; intros [|b y]; simpl; try naive_solver.
    destruct (kcmp a b) eqn:E; [apply kcmp_eq in E as ->; rw IH; naive_solver| |];
      (split; [done|]); intros; simplify_eq; by rw kcmp_refl in E.
  - induction x as [|a x IH]; intros [|b y]; simpl; try done.
    rw (kcmp_opp a b). destruct (kcmp a b); simpl; auto.
  - induction x as [|a x IH]; intros [|b y] [|c z]; simpl; try done.
    destruct (kcmp a b) eqn:E1; destruct (kcmp b c) eqn:E2; intros; try done.
    + apply kcmp_eq in E1 as ->. rw E2. eauto.
    + apply kcmp_eq in E1 as ->. by rw E2.
    + apply kcmp_eq in E2 as ->. by rw E1.
    + by rw (kcmp_trans _ _ _ E1 E2).
Defined.

Lemma kcmp_cons `{OrdKey K} (x y : K) xs ys :
  kcmp (x :: xs) (y :: ys) = match kcmp x y with Eq => kcmp xs ys | c => c end.
Proof. reflexivity. Qed.

Definition pair_kcmp `{OrdKey A, OrdKey B} (p q : A * B) : comparison :=
  match kcmp p.1 q.1 with Eq => kcmp p.2 q.2 | c => c end.

#[export] Instance pair_ord_key `{OrdKey A, OrdKey B} : OrdKey (A * B).
Proof.
  refine {| kcmp := pair_kcmp |}; unfold pair_kcmp.
  - intros [a b] [c d]. simpl. destruct (kcmp a c) eqn:E.
    + apply kcmp_eq in E as ->. rw kcmp_eq. naive_solver.
    + split; [done|]. intros; simplify_eq. by rw kcmp_refl in E.
    + split; [done|]. intros; simplify_eq. by rw kcmp_refl in E.
  - intros [a b] [c d]. simpl. rw (kcmp_opp a c) (kcmp_opp b d).
    by destruct (kcmp a c).
  - intros [a b] [c d] [e f]. simpl.
    destruct (kcmp a c) eqn:E1; destruct (kcmp c e) eqn:E2; intros; try done.
    + apply kcmp_eq in E1 as ->. rw E2. by eapply kcmp_trans.
    + apply kcmp_eq in E1 as ->. by rw E2.
    + apply kcmp_eq in E2 as ->. by rw E1.
    + by rw (kcmp_trans _ _ _ E1 E2).
Defined.

Definition option_kcmp `{OrdKey A} (x y : option A) : comparison :=
  match x, y with
  | None, None => Eq
  | None, Some _ => Lt
  | Some _, None => Gt
  | Some a, Some b => kcmp a b
  end.

#[export] Instance option_ord_key `{OrdKey A} : OrdKey (option A).
Proof.
  refine {| kcmp := option_kcmp |}.
  - intros [a|] [b|]; simpl; try rw kcmp_eq; naive_solver.
  - intros [a|] [b|]; simpl; try done. apply kcmp_opp.
  - intros [a|] [b|] [c|]; simpl; try done. apply kcmp_trans.
Defined.

(** ** Sorted listings *)

Section sorted.
Context {A K : Type} `{OrdKey K} (f : A → K).

Definition by_key (x y : A) : Prop := kle (f x) (f y).

#[export] Instance by_key_dec : RelDecision by_key.
Proof. intros x y. unfold by_key. apply _. Defined.

#[export] Instance by_key_total : Total by_key.
Proof. intros x y. apply (total kle). Qed.

#[export] Instance by_key_refl : Reflexive by_key.
Proof. intros x. apply (reflexivity (R:=kle)). Qed.

#[export] Instance by_key_trans : Transitive by_key.
Proof. intros x y z. apply (transitivity (R:=kle)). Qed.

(** [StronglySorted] along strictly ascending keys. *)
Definition ascending (l : list A) : Prop := StronglySorted (λ x y, klt (f x) (f y)) l.

Lemma sorted_ascending l : StronglySorted by_key l → NoDup (f <$> l) → ascending l.
Proof.
  unfold ascending. induction 1 as [|x k Hk IH Hx]; intros Hnd; [constructor|].
  apply NoDup_cons in Hnd as [Hnotin Hnd]. constructor; [auto|].
  apply Forall_forall. intros y Hy. rw Forall_forall in Hx. specialize (Hx y Hy).
  apply kle_lt_eq in Hx as [|Heq]; [done|]. destruct Hnotin.
  apply list_elem_of_fmap. eauto.
Qed.

Lemma merge_sort_ascending l : NoDup (f <$> l) → ascending (merge_sort by_key l).
Proof.
  intros Hnd. apply sorted_ascending; [apply (StronglySorted_merge_sort by_key)|].
  by rw (merge_sort_Permutation by_key l).
Qed.

Lemma ascending_NoDup l : ascending l → NoDup l.
Proof.
  induction 1 as [|x l Hl IH Hx]; constructor; [|done].
  intros Hin. rw Forall_forall in Hx. apply (irreflexivity klt (f x)). auto.
Qed.

Lemma ascending_keys_NoDup l : ascending l → NoDup (f <$> l).
Proof.
  induction 1 as [|x l Hl IH Hx]; constructor; [|done].
  intros (y & E & Hin)%list_elem_of_fmap. rw Forall_forall in Hx. apply (irreflexivity klt (f x)).
  rw {2}E. auto.
Qed.

Lemma ascending_filter (P : A → bool) l : ascending l → ascending (List.filter P l).
Proof.
  induction 1 as [|x l Hl IH Hx]; simpl; [constructor|].
  destruct (P x); [|done]. constructor; [done|].
  apply Forall_forall. intros y Hy. rw Forall_forall in Hx. apply Hx.
  by apply list_elem_of_In, List.filter_In in Hy as [?%list_elem_of_In _].
Qed.

Lemma ascending_weak l : ascending l → StronglySorted (λ x y, klt (f x) (f y) ∨ x = y) l.
Proof. induction 1 as [|x l _ IH Hx]; constructor; [done|]. eapply Forall_impl; [done|]. auto. Qed.

(** An ascending listing of some elements of another is a sublist of it. *)
Lemma ascending_sublist l k :
  (∀ x, x ∈ l → x ∈ k) → ascending l → ascending k → l `sublist_of` k.
Proof.
  intros Hin Hl Hk. revert l Hin Hl. induction Hk as [|y k Hk IH Hy]; intros l Hin Hl.
  - destruct l as [|x l]; [done|]. specialize (Hin x). set_solver.
  - destruct Hl as [|x l Hl Hx]; [apply sublist_nil_l|]. rw Forall_forall in Hx. rw Forall_forall in Hy.
    assert (x ∈ y :: k) as [->|Hxk]%elem_of_cons by (apply Hin; set_solver).
    + constructor. apply IH; [|done]. intros z Hz.
      assert (z ∈ y :: k) as [->|]%elem_of_cons by (apply Hin; set_solver); [|done].
      by destruct (irreflexivity klt (f y) (Hx y Hz)).
    + constructor. apply IH; [|constructor; [done|by apply Forall_forall]]. intros z Hz.
      assert (z ∈ y :: k) as [->|]%elem_of_cons by (by apply Hin); [|done].
      exfalso. apply elem_of_cons in Hz as [->|Hz].
      * by destruct (irreflexivity klt (f x) (Hy x Hxk)).
      * destruct (irreflexivity klt (f y)). etrans; [by apply Hy|by apply Hx].
Qed.

Lemma ascending_of_sublist l k : l `sublist_of` k → ascending k → ascending l.
Proof.
  unfold ascending. induction 1 as [|x l k Hs IH|x l k Hs IH]; intros Hk; [constructor| |];
    inversion Hk as [|? ? Hk' Hx]; subst; [|auto].
  constructor; [auto|]. apply Forall_forall. rw Forall_forall in Hx. intros y Hy. apply Hx.
  by eapply elem_of_sublist.
Qed.

(** Two ascending listings of the same elements are the same list. *)
Lemma ascending_unique l k : (∀ x, x ∈ l ↔ x ∈ k) → ascending l → ascending k → l = k.
Proof.
  intros Hiff Hl Hk.
  assert (AntiSymm (=) (λ x y : A, klt (f x) (f y) ∨ x = y)) as Hanti.
  { intros x y [Hxy|] [Hyx|]; try done.
    exfalso. apply (irreflexivity klt (f x)). by etrans. }
  apply (StronglySorted_unique (λ x y, klt (f x) (f y) ∨ x = y)).
  - by apply ascending_weak.
  - by apply ascending_weak.
  - apply NoDup_Permutation; auto using ascending_NoDup.
Qed.
End sorted.

(** ** Iterators *)

Section iter.
Context {K V : Type} `{Countable K, !OrdKey K}.
Implicit Types (m : gmap K V) (s : gset K).

(** [BTreeMap::iter]. *)
Definition bt_iter m : list (K * V) := merge_sort (by_key fst) (map_to_list m).

(** [BTreeMap::keys] and [BTreeMap::values]. *)
Definition bt_keys m : list K := (bt_iter m).*1.
Definition bt_values m : list V := (bt_iter m).*2.

(** [BTreeSet::iter]. *)
Definition bs_iter s : list K := merge_sort (by_key id) (elements s).

Lemma elem_of_bt_iter m k v : (k, v) ∈ bt_iter m ↔ m !! k = Some v.
Proof. unfold bt_iter. rw (merge_sort_Permutation (by_key fst)). apply elem_of_map_to_list. Qed.

Lemma bt_iter_ascending m : ascending fst (bt_iter m).
Proof. apply merge_sort_ascending, NoDup_fst_map_to_list. Qed.

Lemma bt_iter_perm m : bt_iter m ≡ₚ map_to_list m.
Proof. apply merge_sort_Permutation. Qed.

Lemma elem_of_bt_keys m k : k ∈ bt_keys m ↔ is_Some (m !! k).
Proof.
  unfold bt_keys. rw list_elem_of_fmap. split.
  - intros ([k' v] & -> & Hin%elem_of_bt_iter). by exists v.
  - intros [v Hv]. exists (k, v). split; [done|]. by apply elem_of_bt_iter.
Qed.

Lemma bt_keys_ascending m : ascending id (bt_keys m).
Proof.
  unfold bt_keys. pose proof (bt_iter_ascending m) as Hs.
  unfold ascending in *. induction Hs as [|x l Hl IH Hx]; simpl; constructor; [done|].
  by apply Forall_fmap.
Qed.

Lemma bt_keys_NoDup m : NoDup (bt_keys m).
Proof. eapply ascending_NoDup, bt_keys_ascending. Qed.

Lemma length_bt_keys m : length (bt_keys m) = size m.
Proof. unfold bt_keys. by rw length_fmap bt_iter_perm length_map_to_list. Qed.

Lemma elem_of_bs_iter s k : k ∈ bs_iter s ↔ k ∈ s.
Proof. unfold bs_iter. rw (merge_sort_Permutation (by_key id)). apply elem_of_elements. Qed.

Lemma bs_iter_ascending s : ascending id (bs_iter s).
Proof. apply merge_sort_ascending. rw list_fmap_id. apply NoDup_elements. Qed.

Lemma bs_iter_NoDup s : NoDup (bs_iter s).
Proof. eapply ascending_NoDup, bs_iter_ascending. Qed.

Lemma length_bs_iter s : length (bs_iter s) = size s.
Proof. unfold bs_iter. by rw merge_sort_Permutation. Qed.

Lemma bs_iter_perm s : bs_iter s ≡ₚ elements s.
Proof. apply merge_sort_Permutation. Qed.

(** The smallest element, [BTreeSet::iter().next()]. *)
Lemma bs_iter_head s x l : bs_iter s = x :: l → x ∈ s ∧ ∀ y, y ∈ s → kle x y.
Proof.
  intros E. pose proof (bs_iter_ascending s) as Hs. rw E in Hs.
  inversion Hs as [|?? _ Hx]; subst. rw Forall_forall in Hx. split.
  - apply elem_of_bs_iter. rw E. set_solver.
  - intros y Hy%elem_of_bs_iter. rw E in Hy. apply elem_of_cons in Hy as [->|Hy].
    + apply kle_lt_eq. by right.
    + apply kle_lt_eq. left. by apply Hx.
Qed.

Lemma bs_iter_nil s : bs_iter s = [] ↔ s = ∅.
Proof.
  split; intros E.
  - apply set_eq. intros x. rw -elem_of_bs_iter E. set_solver.
  - subst. done.
Qed.

(** [BTreeMap::entry(k).or_insert(d)] followed by an update of the slot. *)
Definition entry_or (m : gmap K V) (k : K) (d : V) (f : V → V) : gmap K V :=
  <[k := f (default d (m !! k))]> m.

Lemma lookup_entry_or m k d f j :
  entry_or m k d f !! j = if decide (k = j) then Some (f (default d (m !! k))) else m !! j.
Proof. unfold entry_or. apply lookup_insert. Qed.
End iter.

(** ** [slice::sort_by] and [sort_by_key]

    A stable sort is determined by its order: insertion into the sorted rest,
    before every element that is not smaller. *)

Section stable_sort.
Context {A : Type} (R : A → A → Prop) `{!RelDecision R}.

Fixpoint sort_insert (x : A) (l : list A) : list A :=
  match l with
  | [] => [x]
  | y :: l' => if decide (R x y) then x :: l else y :: sort_insert x l'
  end.

Definition stable_sort (l : list A) : list A := foldr sort_insert [] l.

Lemma sort_insert_Permutation x l : sort_insert x l ≡ₚ x :: l.
Proof.
  induction l as [|y l IH]; simpl; [done|]. case_decide; [done|].
  rw IH. apply Permutation_swap.
Qed.

Lemma stable_sort_Permutation l : stable_sort l ≡ₚ l.
Proof. induction l as [|x l IH]; simpl; [done|]. by rw sort_insert_Permutation IH. Qed.

Lemma sort_insert_sorted `{!Transitive R, !Total R} x l :
  StronglySorted R l → StronglySorted R (sort_insert x l).
Proof.
  induction 1 as [|y l Hs IH Hy]; simpl; [by repeat constructor|]. case_decide as Hxy.
  - constructor; [by constructor|]. constructor; [done|].
    eapply Forall_impl; [exact Hy|]. intros z Hz. by etrans.
  - constructor; [done|]. rw sort_insert_Permutation. constructor; [|done].
    by destruct (total R x y).
Qed.

Lemma stable_sort_sorted `{!Transitive R, !Total R} l : StronglySorted R (stable_sort l).
Proof. induction l; simpl; [constructor|by apply sort_insert_sorted]. Qed.

(** Elements a class [P] cannot tell apart keep their order. *)
Lemma sort_insert_stable (P : A → bool) x l :
  (∀ a b, P a = true → P b = true → R a b) →
  List.filter P (sort_insert x l) = List.filter P (x :: l).
Proof.
  intros HP. induction l as [|y l IH]; [done|]. cbn [sort_insert]. case_decide as Hxy; [done|].
  cbn [List.filter] in IH |- *. rw IH.
  destruct (P x) eqn:Ex, (P y) eqn:Ey; try done. by destruct Hxy; apply HP.
Qed.

Lemma stable_sort_stable (P : A → bool) l :
  (∀ a b, P a = true → P b = true → R a b) →
  List.filter P (stable_sort l) = List.filter P l.
Proof.
  intros HP. induction l as [|x l IH]; [done|]. cbn [stable_sort foldr].
  rw sort_insert_stable; [|done]. cbn [List.filter]. unfold stable_sort in IH. by rw IH.
Qed.

Lemma elem_of_stable_sort x l : x ∈ stable_sort l ↔ x ∈ l.
Proof. by rw stable_sort_Permutation. Qed.
End stable_sort.
