(* ===== verification/Text.v ===== *)
(** * Text

    The functions of [str], [char] and [format!] that identifiers, labels and
    messages are built with: ASCII classes and case, splitting, UTF-8 bytes,
    and decimal and hexadecimal rendering. *)

From S2P Require Import Prelude BTree.
From Stdlib Require Import ZifyBool.

(** ** Characters *)

Definition is_ascii_digit (c : N) : bool := (48 <=? c) && (c <=? 57).
Definition is_ascii_alphabetic (c : N) : bool :=
  ((65 <=? c) && (c <=? 90)) || ((97 <=? c) && (c <=? 122)).
Definition is_ascii_alphanumeric (c : N) : bool := is_ascii_digit c || is_ascii_alphabetic c.

Definition to_ascii_lower (c : N) : N := if (65 <=? c) && (c <=? 90) then c + 32 else c.
Definition to_ascii_lowercase (s : rstr) : rstr := to_ascii_lower <$> s.
Definition eq_ignore_ascii_case (s t : rstr) : bool :=
  bool_decide (to_ascii_lowercase s = to_ascii_lowercase t).

(** [str::contains(char)] and [str::matches(char).count()]. *)
Definition contains (c : N) (s : rstr) : bool := existsb (N.eqb c) s.
Definition matches_count (c : N) (s : rstr) : N := count (N.eqb c) s.

(** [str::replace] of one character by another. *)
Definition replace (from to : N) (s : rstr) : rstr := (λ c, if c =? from then to else c) <$> s.

(** [str::split_once(char)]. *)
Fixpoint split_once (c : N) (s : rstr) : option (rstr * rstr) :=
  match s with
  | [] => None
  | x :: s' =>
      if x =? c then Some ([], s')
      else match split_once c s' with Some (a, b) => Some (x :: a, b) | None => None end
  end.

(** [str::split(char)]: one piece more than there are separators. *)
Fixpoint split (c : N) (s : rstr) : list rstr :=
  match s with
  | [] => [[]]
  | x :: s' =>
      if x =? c then [] :: split c s'
      else match split c s' with [] => [[x]] | p :: ps => (x :: p) :: ps end
  end.

(** ** UTF-8 *)

Definition utf8 (c : N) : list N :=
  if c <? 128 then [c]
  else if c <? 2048 then [192 + c / 64; 128 + c mod 64]
  else if c <? 65536 then [224 + c / 4096; 128 + (c / 64) mod 64; 128 + c mod 64]
  else [240 + c / 262144; 128 + (c / 4096) mod 64; 128 + (c / 64) mod 64; 128 + c mod 64].

(** [str::as_bytes]. *)
Definition as_bytes (s : rstr) : list N := s ≫= utf8.

Lemma as_bytes_len s : len (as_bytes s) = str_len s.
Proof.
  induction s as [|c s IH]; [done|]. unfold as_bytes in *. cbn [mbind list_bind].
  rw len_app IH. cbn [str_len foldr]. f_equal. unfold utf8, len_utf8.
  by repeat case_match.
Qed.

Definition is_ascii (c : N) : Prop := c < 128.

Lemma str_len_ascii s : Forall is_ascii s → str_len s = len s.
Proof.
  induction 1 as [|c s Hc _ IH]; [done|]. cbn [str_len foldr]. rw len_cons.
  unfold is_ascii in Hc. fold (str_len s). unfold len_utf8.
  rw (proj2 (N.ltb_lt c 128) Hc). lia.
Qed.

(** ** [{}] of an unsigned integer *)

Fixpoint dec_go (fuel : nat) (n : N) (acc : rstr) : rstr :=
  match fuel with
  | O => acc
  | Datatypes.S fuel =>
      let acc := 48 + n mod 10 :: acc in
      if n <? 10 then acc else dec_go fuel (n / 10) acc
  end.

Definition dec (n : N) : rstr := dec_go (Datatypes.S (N.to_nat (N.size n))) n [].

(** [{}] of a signed integer. *)
Definition dec_z (z : Z) : rstr :=
  match z with Zneg p => lit "-" ++ dec (Npos p) | _ => dec (Z.to_N z) end.

(** The number a digit string stands for. *)
Definition undec (s : rstr) : N := foldl (λ v c, v * 10 + (c - 48)) 0 s.

Lemma undec_cons c s : undec (c :: s) = (c - 48) * 10 ^ len s + undec s.
Proof.
  unfold undec. cbn [foldl]. rw N.mul_0_l N.add_0_l.
  generalize (c - 48). induction s as [|d s IH] using rev_ind; intros v.
  - rw len_nil. cbn. lia.
  - rw !foldl_app IH len_app len_cons len_nil. cbn [foldl].
    rw N.add_0_r N.pow_add_r N.pow_1_r. lia.
Qed.

Lemma dec_go_value fuel n acc :
  n < 2 ^ N.of_nat fuel → undec (dec_go fuel n acc) = n * 10 ^ len acc + undec acc.
Proof.
  revert n acc. induction fuel as [|fuel IH]; intros n acc Hn.
  - change (2 ^ N.of_nat 0) with 1 in Hn. assert (n = 0) as -> by lia. cbn [dec_go]. lia.
  - cbn [dec_go]. rw Nat2N.inj_succ N.pow_succ_r' in Hn.
    pose proof (N.div_mod' n 10). pose proof (N.mod_lt n 10 ltac:(lia)).
    destruct (N.ltb_spec n 10).
    + rw undec_cons. replace (48 + n mod 10 - 48) with n; [done|].
      rw N.mod_small; [lia|done].
    + rw IH; [|apply N.Div0.div_lt_upper_bound; lia].
      rw undec_cons len_cons N.pow_add_r N.pow_1_r.
      replace (48 + n mod 10 - 48) with (n mod 10) by (by rw N.add_comm N.add_sub).
      replace (n * 10 ^ len acc) with ((10 * (n / 10) + n mod 10) * 10 ^ len acc) by congruence.
      lia.
Qed.

Lemma N_size_fuel n : n < 2 ^ N.of_nat (Datatypes.S (N.to_nat (N.size n))).
Proof. rw Nat2N.inj_succ N2Nat.id N.pow_succ_r'. pose proof (N.size_gt n). lia. Qed.

Lemma undec_dec n : undec (dec n) = n.
Proof.
  unfold dec. rw dec_go_value; [|apply N_size_fuel].
  change (len []) with 0. change (undec []) with 0. lia.
Qed.

(** Rendering is injective. *)
Lemma dec_inj n m : dec n = dec m → n = m.
Proof. intros H. by rw -(undec_dec n) H undec_dec. Qed.

Lemma dec_go_digits fuel n acc :
  Forall (λ c, is_ascii_digit c = true) acc → Forall (λ c, is_ascii_digit c = true) (dec_go fuel n acc).
Proof.
  revert n acc. induction fuel as [|fuel IH]; intros n acc Ha; [done|].
  cbn [dec_go]. pose proof (N.mod_lt n 10 ltac:(lia)). pose proof (N.le_0_l (n mod 10)).
  assert (Forall (λ c, is_ascii_digit c = true) (48 + n mod 10 :: acc)).
  { constructor; [|done]. unfold is_ascii_digit. lia. }
  destruct (n <? 10); auto.
Qed.

Lemma dec_digits n : Forall (λ c, is_ascii_digit c = true) (dec n).
Proof. by apply dec_go_digits. Qed.

Lemma dec_nonempty n : dec n ≠ [].
Proof.
  unfold dec. cbn [dec_go]. assert (∀ fuel m acc, acc ≠ [] → dec_go fuel m acc ≠ []) as Hgo.
  { induction fuel as [|fuel IH]; intros m acc ?; [done|]. cbn [dec_go].
    destruct (m <? 10); [done|]. by apply IH. }
  destruct (n <? 10); [done|]. by apply Hgo.
Qed.

(** [str::parse::<u64>]: an optional plus sign, then digits that fit. *)
Definition parse_u64 (s : rstr) : option N :=
  let digits := match s with 43 :: d => d | _ => s end in
  if is_empty digits || negb (forallb is_ascii_digit digits) then None
  else if undec digits <=? u64_max then Some (undec digits) else None.

Lemma parse_u64_dec n : n ≤ u64_max → parse_u64 (dec n) = Some n.
Proof.
  intros Hn. pose proof (dec_digits n) as Hd. pose proof (dec_nonempty n) as Hne.
  assert (match dec n with 43 :: d => d | _ => dec n end = dec n) as E.
  { destruct (dec n) as [|c d]; [done|]. inversion Hd as [|? ? Hc _]; subst.
    unfold is_ascii_digit in Hc. destruct (decide (c = 43)) as [->|Hc']; [done|].
    destruct c as [|p]; [done|]. repeat (destruct p as [p|p|]; try done). }
  unfold parse_u64. cbv zeta. rw E. rw undec_dec. apply N.leb_le in Hn as ->.
  destruct (dec n) as [|c d] eqn:Ed; [done|]. cbn [is_empty orb].
  rw (proj2 (forallb_true is_ascii_digit (c :: d))); [done|]. by apply Forall_forall.
Qed.

(** A number below [10 ^ k] takes at most [k] digits. *)
Lemma dec_go_len fuel n acc k : 1 ≤ k → n < 10 ^ k → len (dec_go fuel n acc) ≤ k + len acc.
Proof.
  revert n acc k. induction fuel as [|fuel IH]; intros n acc k Hk Hn; cbn [dec_go]; [lia|].
  destruct (N.ltb_spec n 10); [rw len_cons; lia|].
  destruct (N.eq_dec k 1) as [->|]; [lia|].
  pose proof (N.Div0.div_lt_upper_bound n 10 (10 ^ (k - 1))) as Hd.
  rw -N.pow_succ_r' in Hd. replace (N.succ (k - 1)) with k in Hd by lia.
  specialize (IH (n / 10) (48 + n mod 10 :: acc) (k - 1)). rw len_cons in IH.
  specialize (IH ltac:(lia) (Hd Hn)). lia.
Qed.

Lemma dec_len_u64 n : n ≤ u64_max → len (dec n) ≤ 20.
Proof.
  intros Hn. unfold dec. etrans; [apply (dec_go_len _ _ _ 20); [lia|]|by rw len_nil].
  unfold u64_max in Hn. eapply N.le_lt_trans; [exact Hn|]. by vm_compute.
Qed.

(** ** [{:08x}] of a [u32] *)

Definition hex_digit (d : N) : N := if d <? 10 then 48 + d else 87 + d.

Definition hex8 (n : N) : rstr :=
  (λ i, hex_digit ((n / 16 ^ i) mod 16)) <$> [7; 6; 5; 4; 3; 2; 1; 0].

Lemma hex_digit_inj a b : a < 16 → b < 16 → hex_digit a = hex_digit b → a = b.
Proof. unfold hex_digit. intros. repeat case_match; lia. Qed.

Lemma hex_digit_alnum a : a < 16 → is_ascii_alphanumeric (hex_digit a) = true.
Proof.
  intros. unfold is_ascii_alphanumeric, is_ascii_digit, is_ascii_alphabetic, hex_digit.
  case_match; lia.
Qed.

Lemma hex8_alnum n : Forall (λ c, is_ascii_alphanumeric c = true) (hex8 n).
Proof.
  unfold hex8. apply Forall_fmap, Forall_forall. intros i _. apply hex_digit_alnum.
  by apply N.mod_lt.
Qed.

Lemma hex8_len n : len (hex8 n) = 8.
Proof. done. Qed.

Lemma nibble_step n i : n / 16 ^ (i + 1) * 16 + (n / 16 ^ i) mod 16 = n / 16 ^ i.
Proof.
  rw N.pow_add_r N.pow_1_r -N.Div0.div_div N.mul_comm. symmetry. apply N.div_mod'.
Qed.

Lemma u32_nibbles n : n ≤ u32_max →
  n = foldl (λ v i, v * 16 + (n / 16 ^ i) mod 16) 0 [7; 6; 5; 4; 3; 2; 1; 0].
Proof.
  intros Hn. cbn [foldl]. rw -{1}(N.div_small n (16 ^ (7 + 1))).
  - rw (nibble_step n 7) (nibble_step n 6) (nibble_step n 5) (nibble_step n 4) (nibble_step n 3)
      (nibble_step n 2) (nibble_step n 1) (nibble_step n 0). by rw N.pow_0_r N.div_1_r.
  - unfold u32_max in Hn. change (16 ^ (7 + 1)) with 4294967296. lia.
Qed.

Lemma hex8_inj n m : n ≤ u32_max → m ≤ u32_max → hex8 n = hex8 m → n = m.
Proof.
  intros Hn Hm H. rw (u32_nibbles n Hn) (u32_nibbles m Hm).
  unfold hex8 in H. cbn [fmap list_fmap] in H. simplify_eq.
  repeat match goal with
  | E : hex_digit _ = hex_digit _ |- _ =>
      apply hex_digit_inj in E; [|by apply N.mod_lt..]
  end.
  cbn [foldl]. congruence.
Qed.

(** ** Splitting *)

Lemma split_once_some c s a b :
  split_once c s = Some (a, b) ↔ s = a ++ c :: b ∧ c ∉ a.
Proof.
  revert a b. induction s as [|x s IH]; intros a b; cbn [split_once].
  { split; [done|]. intros [H _]. by destruct a. }
  destruct (N.eqb_spec x c) as [->|Hx].
  - split.
    + intros [= <- <-]. split; [done|]. set_solver.
    + intros [H Hn]. destruct a as [|y a]; simplify_eq/=; [done|]. set_solver.
  - split.
    + destruct (split_once c s) as [[a' b']|]; [|done]. intros [= <- <-].
      destruct (proj1 (IH a' b') eq_refl) as [-> ?]. split; [done|]. set_solver.
    + intros [H Hn]. destruct a as [|y a]; simplify_eq/=.
      rw (proj2 (IH a b)); [done|]. split; [done|set_solver].
Qed.

Lemma replace_inj from to s t :
  to ∉ s → to ∉ t → replace from to s = replace from to t → s = t.
Proof.
  revert t. induction s as [|x s IH]; intros [|y t] Hs Ht; try done.
  unfold replace. cbn [fmap list_fmap]. intros [= Hc Hr]. f_equal.
  - destruct (N.eqb_spec x from), (N.eqb_spec y from); set_solver.
  - apply IH; [set_solver..|done].
Qed.
