(* ===== verification/Time.v ===== *)
(** * Durations

    [std::time::Duration]: whole nanoseconds, bounded by [u64::MAX] seconds. *)

From S2P Require Import Prelude.

Definition Duration : Type := N.
Definition as_secs (d : Duration) : N := d / 1000000000.
Definition from_secs (s : N) : Duration := s * 1000000000.
Definition from_mins (m : N) : Duration := from_secs (m * 60).
Definition Duration_MAX : Duration := u64_max * 1000000000 + 999999999.

Definition duration_saturating_add (a b : Duration) : Duration := saturating_add Duration_MAX a b.
Definition duration_saturating_mul (d : Duration) (k : N) : Duration := saturating_mul Duration_MAX d k.

(** [a + b], which panics on overflow. *)
Definition duration_add (a b : Duration) : option Duration :=
  if a + b <=? Duration_MAX then Some (a + b) else None.
