(* ===== verification/Substring.v ===== *)
(** * Substrings and truncation

    [str::find], [str::contains] and [str::split] of a string pattern, and the
    bounded renderings of [crates/orchestraitor-worker/src/search.rs]. *)

From S2P Require Import Prelude BTree Text.
From Stdlib Require Import ZifyBool.

(** ** Searching *)

(** [str::starts_with(&str)]. *)
Fixpoint starts_with (p s : rstr) : bool :=
  match p, s with
  | [], _ => true
  | x :: p', y :: s' => (x =? y) && starts_with p' s'
  | _ :: _, [] => false
  end.

(** [str::find(&str)], as a number of characters. *)
Fixpoint find_str (p s : rstr) : option nat :=
  if starts_with p s then Some O
  else match s with
       | [] => None
       | _ :: s' => Datatypes.S <$> find_str p s'
       end.

(** [str::contains(&str)] and [str::ends_with(&str)]. *)
Definition contains_str (p s : rstr) : bool := bool_decide (is_Some (find_str p s)).
Definition ends_with_str (p s : rstr) : bool := starts_with (reverse p) (reverse s).

(** [str::find] with a predicate. *)
Fixpoint find_char (f : N → bool) (s : rstr) : option nat :=
  match s with
  | [] => None
  | c :: s' => if f c then Some O else Datatypes.S <$> find_char f s'
  end.

(** [str::split(&str)] for a pattern that is not empty; every piece but the
    last takes at least one character off, so the length is fuel enough. *)
Fixpoint split_str_go (fuel : nat) (p s : rstr) : list rstr :=
  match fuel with
  | O => [s]
  | Datatypes.S fuel =>
      match find_str p s with
      | Some i => take i s :: split_str_go fuel p (drop (i + length p) s)
      | None => [s]
      end
  end.

Definition split_str (p s : rstr) : list rstr := split_str_go (Datatypes.S (length s)) p s.

(** [str::split] with a predicate. *)
Fixpoint split_by (f : N → bool) (s : rstr) : list rstr :=
  match s with
  | [] => [[]]
  | c :: s' =>
      if f c then [] :: split_by f s'
      else match split_by f s' with [] => [[c]] | w :: ws => (c :: w) :: ws end
  end.

(** [str::lines]: a carriage return is dropped before a line feed only, and no
    empty line follows the last line feed. *)
Definition strip_cr (l : rstr) : rstr := if ends_with 13 l then pop l else l.

Definition lines (s : rstr) : list rstr :=
  let pieces := split 10 s in
  let last := default [] (list.last pieces) in
  (strip_cr <$> take (length pieces - 1) pieces) ++ (if is_empty last then [] else [last]).

(** [str::split_once] with a string. *)
Definition split_once_str (p s : rstr) : option (rstr * rstr) :=
  n ← find_str p s; Some (take n s, drop (n + length p) s).

(** [[str]::join]. *)
Fixpoint join (sep : rstr) (l : list rstr) : rstr :=
  match l with
  | [] => []
  | [w] => w
  | w :: l' => w ++ sep ++ join sep l'
  end.

Lemma starts_with_spec p s : starts_with p s = true ↔ ∃ t, s = p ++ t.
Proof.
  revert s. induction p as [|x p IH]; intros s; cbn [starts_with]; [split; [by exists s|done]|].
  destruct s as [|y s]; [split; [done|by intros [t ?]]|].
  rw andb_true_iff N.eqb_eq IH. split.
  - intros [-> [t ->]]. by exists t.
  - intros [t [= -> ->]]. split; [done|]. by exists t.
Qed.

Lemma ends_with_str_spec p s : ends_with_str p s = true ↔ ∃ t, s = t ++ p.
Proof.
  unfold ends_with_str. rw starts_with_spec. split; intros [t E].
  - exists (reverse t). by rw -(reverse_involutive s) E reverse_app reverse_involutive.
  - exists (reverse t). by rw E reverse_app.
Qed.

(** The first occurrence. *)
Lemma find_str_some p s i :
  find_str p s = Some i ↔
  (∃ b, s = take i s ++ p ++ b) ∧ (i ≤ length s)%nat
  ∧ ∀ a b, s = a ++ p ++ b → (i ≤ length a)%nat.
Proof.
  revert i. induction s as [|c s IH]; intros i; cbn [find_str].
  - destruct (starts_with p []) eqn:E.
    + apply starts_with_spec in E as [t Ht]. split.
      * intros [= <-]. split_and!; [by exists t|done|lia].
      * intros (_ & Hi & _). cbn in Hi. f_equal. lia.
    + split; [done|]. intros ([b Hb] & _ & _). rw take_nil in Hb. cbn in Hb.
      assert (starts_with p [] = true) by (apply starts_with_spec; by exists b). congruence.
  - destruct (starts_with p (c :: s)) eqn:E.
    + apply starts_with_spec in E as [t Ht]. split.
      * intros [= <-]. split_and!; [by exists t|lia|lia].
      * intros (_ & _ & Hmin). specialize (Hmin [] t Ht). cbn in Hmin. f_equal. lia.
    + rw fmap_Some. split.
      * intros (j & ([b Hb] & Hj & Hmin)%IH & ->). cbn [take length]. split_and!; [|lia|].
        { exists b. cbn. by f_equal. }
        intros [|x a] b' Hs; cbn in Hs.
        { exfalso. assert (starts_with p (c :: s) = true) by (apply starts_with_spec; by exists b').
          congruence. }
        injection Hs as -> Hs. cbn. specialize (Hmin a b' Hs). lia.
      * intros ([b Hb] & Hi & Hmin). destruct i as [|i].
        { exfalso. assert (starts_with p (c :: s) = true) by (apply starts_with_spec; by exists b).
          congruence. }
        exists i. split; [|done]. apply IH. cbn in Hb, Hi. injection Hb as Hb. split_and!; [by exists b|lia|].
        intros a b' Hs. specialize (Hmin (c :: a) b'). cbn in Hmin. rw Hs in Hmin.
        specialize (Hmin eq_refl). lia.
Qed.

Lemma find_str_none p s : find_str p s = None ↔ ∀ a b, s ≠ a ++ p ++ b.
Proof.
  induction s as [|c s IH]; cbn [find_str].
  - destruct (starts_with p []) eqn:E.
    + apply starts_with_spec in E as [t Ht]. split; [done|]. intros H. by destruct (H [] t).
    + split; [|done]. intros _ [|x a] b Hs; [|done]. cbn in Hs.
      assert (starts_with p [] = true) by (apply starts_with_spec; by exists b). congruence.
  - destruct (starts_with p (c :: s)) eqn:E.
    + apply starts_with_spec in E as [t Ht]. split; [done|]. intros H. by destruct (H [] t).
    + rw fmap_None IH. split.
      * intros H [|x a] b Hs; cbn in Hs.
        { assert (starts_with p (c :: s) = true) by (apply starts_with_spec; by exists b). congruence. }
        injection Hs as -> Hs. by apply (H a b).
      * intros H a b Hs. apply (H (c :: a) b). by rw Hs.
Qed.

Lemma contains_str_spec p s : contains_str p s = true ↔ ∃ a b, s = a ++ p ++ b.
Proof.
  unfold contains_str. rw bool_decide_eq_true. split.
  - intros [i ([b Hb] & _)%find_str_some]. eauto.
  - intros (a & b & ->). destruct (find_str p (a ++ p ++ b)) eqn:E; [done|].
    apply find_str_none with (a := a) (b := b) in E. done.
Qed.

Lemma starts_with_app p s t : (length p ≤ length s)%nat → starts_with p (s ++ t) = starts_with p s.
Proof.
  revert s. induction p as [|x p IH]; intros s Hl; [done|]. destruct s as [|y s]; cbn in Hl; [lia|].
  cbn. rw IH; [done|lia].
Qed.

(** What follows the first occurrence does not move it. *)
Lemma find_str_app p a b : find_str p (a ++ p) = Some (length a) → find_str p (a ++ p ++ b) = Some (length a).
Proof.
  induction a as [|c a IH].
  - intros _. change ([] ++ p ++ b) with (p ++ b).
    assert (starts_with p (p ++ b) = true) as Hs by (apply starts_with_spec; by exists b).
    destruct (p ++ b); cbn [find_str]; by rw Hs.
  - rw -!app_comm_cons. cbn [find_str]. rw app_assoc (app_comm_cons (a ++ p) b c).
    rw starts_with_app; [|cbn; rw length_app; lia].
    destruct (starts_with p (c :: a ++ p)); [done|]. cbn [length]. rw -app_assoc.
    destruct (find_str p (a ++ p)) as [j|]; [|done]. intros [= ->]. by rw IH.
Qed.

(** A search that succeeds splits the string around the first occurrence. *)
Lemma find_str_split p s i :
  find_str p s = Some i → s = take i s ++ p ++ drop (i + length p) s.
Proof.
  intros ([b Hb] & Hi & _)%find_str_some. rw {1}Hb. f_equal. f_equal. rw {1}Hb.
  rw drop_app_ge; [|rw length_take; lia]. rw length_take_le; [|done].
  replace (i + length p - i)%nat with (length p) by lia. by rw drop_app_length.
Qed.

Lemma join_split_str_go fuel p s : join p (split_str_go fuel p s) = s.
Proof.
  revert s. induction fuel as [|fuel IH]; intros s; cbn [split_str_go]; [done|].
  destruct (find_str p s) as [i|] eqn:E; [|done].
  rw {3}(find_str_split p s i E). cbn [join].
  destruct (split_str_go fuel p (drop (i + length p) s)) as [|w ws] eqn:Es.
  { destruct fuel; cbn in Es; [done|]. by destruct (find_str p (drop _ _)). }
  by rw -(IH (drop (i + length p) s)) Es.
Qed.

(** Joining the pieces gives the string back. *)
Lemma join_split_str p s : join p (split_str p s) = s.
Proof. apply join_split_str_go. Qed.

Lemma split_str_go_pieces fuel p s w :
  p ≠ [] → (length s < fuel)%nat → w ∈ split_str_go fuel p s → contains_str p w = false.
Proof.
  intros Hp. revert s. induction fuel as [|fuel IH]; intros s Hf; [lia|]. cbn [split_str_go].
  destruct (find_str p s) as [i|] eqn:E.
  - intros [->|Hw]%elem_of_cons.
    + apply not_true_iff_false. rw contains_str_spec. intros (a & b & Hab).
      pose proof E as ([b' Hb'] & Hi & Hmin)%find_str_some.
      specialize (Hmin a (b ++ p ++ b')). rw {1}Hb' Hab -!app_assoc in Hmin.
      specialize (Hmin eq_refl). apply (f_equal length) in Hab. rw !length_app length_take in Hab.
      destruct p; [done|]. cbn in Hab. lia.
    + apply (IH (drop (i + length p) s)); [|done]. rw length_drop.
      pose proof E as (_ & Hi & _)%find_str_some. destruct p; [done|]. cbn.
      pose proof (find_str_split _ _ _ E) as Hs. apply (f_equal length) in Hs.
      rw !length_app in Hs. cbn in Hs. lia.
  - intros ->%list_elem_of_singleton. apply not_true_iff_false. rw contains_str_spec.
    intros (a & b & Hab). by apply find_str_none with (a := a) (b := b) in E.
Qed.

(** No piece holds the separator. *)
Lemma split_str_pieces p s w : p ≠ [] → w ∈ split_str p s → contains_str p w = false.
Proof. intros Hp. apply split_str_go_pieces; [done|lia]. Qed.

(** ** Bounded renderings *)

(** [str::trim_matches] of a character set. *)
Fixpoint trim_start_matches (f : N → bool) (s : rstr) : rstr :=
  match s with
  | [] => []
  | c :: s' => if f c then trim_start_matches f s' else s
  end.

Definition trim_end_matches (f : N → bool) (s : rstr) : rstr := reverse (trim_start_matches f (reverse s)).

Definition trim_matches (f : N → bool) (s : rstr) : rstr :=
  trim_end_matches f (trim_start_matches f s).

Definition TRUNCATION_MARKER : rstr := 10 :: lit "[truncated]".

(** [str::is_char_boundary]. *)
Fixpoint is_char_boundary (s : rstr) (n : N) : bool :=
  (n =? 0) || match s with
              | [] => false
              | c :: s' => (len_utf8 c <=? n) && is_char_boundary s' (n - len_utf8 c)
              end.

(** The [while] that steps back to a boundary. *)
Fixpoint floor_boundary (s : rstr) (cut : nat) : nat :=
  match cut with
  | O => O
  | Datatypes.S cut' => if is_char_boundary s (N.of_nat cut) then cut else floor_boundary s cut'
  end.

(** [&s[..n]], for [n] a boundary. *)
Fixpoint byte_prefix (s : rstr) (n : N) : rstr :=
  match s with
  | [] => []
  | c :: s' => if len_utf8 c <=? n then c :: byte_prefix s' (n - len_utf8 c) else []
  end.

Definition truncate_bytes (text : rstr) (max : N) : rstr :=
  if str_len text <=? max then text
  else byte_prefix text (N.of_nat (floor_boundary text (N.to_nat max))) ++ TRUNCATION_MARKER.

Definition truncate_chars (text : rstr) (max : N) : rstr :=
  let taken := take (N.to_nat max) text in
  if is_empty (drop (N.to_nat max) text) then taken else taken ++ TRUNCATION_MARKER.

Lemma str_len_cons c s : str_len (c :: s) = len_utf8 c + str_len s.
Proof. done. Qed.

Lemma str_len_app s t : str_len (s ++ t) = str_len s + str_len t.
Proof.
  induction s as [|c s IH]; [done|]. rw -app_comm_cons !str_len_cons IH. lia.
Qed.

Lemma is_char_boundary_spec s n : is_char_boundary s n = true ↔ ∃ p t, s = p ++ t ∧ str_len p = n.
Proof.
  revert n. induction s as [|c s IH]; intros n; cbn [is_char_boundary].
  - rw orb_false_r N.eqb_eq. split.
    + intros ->. by exists [], [].
    + intros (p & t & Hs & <-). by destruct p.
  - rw orb_true_iff andb_true_iff N.eqb_eq N.leb_le IH. split.
    + intros [->|(Hc & p & t & -> & Hp)]; [by exists [], (c :: s)|].
      exists (c :: p), t. rw str_len_cons Hp. split; [done|]. lia.
    + intros ([|x p] & t & Hs & Hp); [by left|]. right. injection Hs as <- ->.
      rw str_len_cons in Hp. split; [lia|]. exists p, t. split; [done|]. lia.
Qed.

Lemma byte_prefix_prefix s n : ∃ t, s = byte_prefix s n ++ t.
Proof.
  revert n. induction s as [|c s IH]; intros n; cbn [byte_prefix]; [by exists []|].
  destruct (len_utf8 c <=? n); [|by exists (c :: s)]. destruct (IH (n - len_utf8 c)) as [t Ht].
  exists t. rw -app_comm_cons -Ht. done.
Qed.

Lemma byte_prefix_len s n : str_len (byte_prefix s n) ≤ n.
Proof.
  revert n. induction s as [|c s IH]; intros n; cbn [byte_prefix]; [cbn; lia|].
  destruct (N.leb_spec (len_utf8 c) n); [|cbn; lia]. rw str_len_cons.
  specialize (IH (n - len_utf8 c)). lia.
Qed.

(** A slice at a boundary holds every prefix that fits. *)
Lemma byte_prefix_largest s n p t : s = p ++ t → str_len p ≤ n → ∃ u, byte_prefix s n = p ++ u.
Proof.
  revert n p. induction s as [|c s IH]; intros n p Hs Hp; cbn [byte_prefix].
  - destruct p; [|done]. by exists [].
  - destruct p as [|x p]; [eexists; reflexivity|]. injection Hs as <- Hs. rw str_len_cons in Hp.
    destruct (N.leb_spec (len_utf8 c) n); [|lia].
    destruct (IH (n - len_utf8 c) p Hs) as [u Hu]; [lia|]. exists u. by rw Hu.
Qed.

Lemma floor_boundary_spec s cut :
  (floor_boundary s cut ≤ cut)%nat ∧ is_char_boundary s (N.of_nat (floor_boundary s cut)) = true
  ∧ ∀ k, (k ≤ cut)%nat → is_char_boundary s (N.of_nat k) = true → (k ≤ floor_boundary s cut)%nat.
Proof.
  induction cut as [|cut (IH1 & IH2 & IH3)]; cbn [floor_boundary].
  - split_and!; [lia| |lia]. apply is_char_boundary_spec. by exists [], s.
  - destruct (is_char_boundary s (N.of_nat (Datatypes.S cut))) eqn:E; [by split_and!|].
    split_and!; [lia|done|]. intros k Hk Hb. apply IH3; [|done].
    destruct (decide (k = Datatypes.S cut)) as [->|]; [congruence|lia].
Qed.

(** A text over its byte cap keeps the longest whole-character prefix within
    the cap, and the marker; one that fits is unchanged. *)
Lemma truncate_bytes_spec text max :
  (str_len text ≤ max ∧ truncate_bytes text max = text)
  ∨ (max < str_len text ∧ ∃ body rest,
       truncate_bytes text max = body ++ TRUNCATION_MARKER ∧ text = body ++ rest ∧ str_len body ≤ max
       ∧ ∀ p t, text = p ++ t → str_len p ≤ max → ∃ u, body = p ++ u).
Proof.
  unfold truncate_bytes. destruct (N.leb_spec (str_len text) max); [by left|]. right. split; [done|].
  pose proof (floor_boundary_spec text (N.to_nat max)) as (H1 & _ & H3).
  set (n := floor_boundary text (N.to_nat max)) in *.
  destruct (byte_prefix_prefix text (N.of_nat n)) as [rest Hrest].
  exists (byte_prefix text (N.of_nat n)), rest. split_and!; try done.
  - pose proof (byte_prefix_len text (N.of_nat n)). lia.
  - intros p t Hs Hp. apply byte_prefix_largest with (t := t); [done|].
    specialize (H3 (N.to_nat (str_len p))). rw N2Nat.id in H3.
    assert (N.to_nat (str_len p) ≤ n)%nat; [|lia]. apply H3; [lia|].
    apply is_char_boundary_spec. by exists p, t.
Qed.

Lemma truncate_bytes_len text max : str_len (truncate_bytes text max) ≤ max + 12.
Proof.
  destruct (truncate_bytes_spec text max) as [[Hl ->]|(_ & body & rest & -> & _ & Hb & _)]; [lia|].
  rw str_len_app. change (str_len TRUNCATION_MARKER) with 12. lia.
Qed.

Lemma truncate_chars_len text max : len (truncate_chars text max) ≤ max + 12.
Proof.
  unfold truncate_chars, len. destruct (is_empty _).
  - rw length_take. lia.
  - rw length_app length_take. change (length TRUNCATION_MARKER) with 12%nat. lia.
Qed.
