(* ===== verification/Metadata.v ===== *)
(** * Task metadata

    [crates/orchestraitor-delivery/src/metadata.rs]: the record every backlog
    task carries and its structural validation, and [DataSensitivity] of
    [crates/orchestraitor-model/src/enums.rs]. *)

From S2P Require Import Prelude BTree.

(** ** Identifiers: newtypes over [String] *)

Record BacklogTaskId := TaskId { BacklogTaskId_as_str : rstr }.
Record SpecRef := MkSpecRef { SpecRef_as_str : rstr }.
Record DomainId := MkDomain { DomainId_as_str : rstr }.
Record VerificationRef := MkVerification { VerificationRef_0 : rstr }.

#[export] Instance BacklogTaskId_eq_dec : EqDecision BacklogTaskId.
Proof. solve_decision. Defined.
#[export] Instance BacklogTaskId_countable : Countable BacklogTaskId :=
  inj_countable' BacklogTaskId_as_str TaskId (λ '(TaskId s), eq_refl).
#[export] Instance BacklogTaskId_ord : OrdKey BacklogTaskId.
Proof. refine (ord_key_inj BacklogTaskId_as_str _). abstract (intros [] []; naive_solver). Defined.

#[export] Instance DomainId_eq_dec : EqDecision DomainId.
Proof. solve_decision. Defined.
#[export] Instance DomainId_countable : Countable DomainId :=
  inj_countable' DomainId_as_str MkDomain (λ '(MkDomain s), eq_refl).
#[export] Instance DomainId_ord : OrdKey DomainId.
Proof. refine (ord_key_inj DomainId_as_str _). abstract (intros [] []; naive_solver). Defined.

(** ** Classifications *)

Inductive RiskClass := Risk_Low | Risk_Medium | Risk_High | Risk_Critical.

Inductive DataSensitivity := Public | Internal | Confidential | Restricted.

Inductive Autonomy := Full | Guided | Manual.

#[export] Instance RiskClass_eq_dec : EqDecision RiskClass.
Proof. solve_decision. Defined.
#[export] Instance DataSensitivity_eq_dec : EqDecision DataSensitivity.
Proof. solve_decision. Defined.

(** Discriminant of the derived [Ord]. *)
Definition DataSensitivity_rank (d : DataSensitivity) : N :=
  match d with Public => 0 | Internal => 1 | Confidential => 2 | Restricted => 3 end.

(** ** Errors *)

Inductive MetadataError :=
  | EmptyId
  | EmptyTitle
  | EmptyObjective (id : rstr)
  | NoSpecRefs (id : rstr)
  | NoAcceptanceCriteria (id : rstr)
  | EmptyDomain (id : rstr)
  | NoVerification (id : rstr)
  | NoReviewerDomains (id : rstr)
  | BlankReviewerDomain (id : rstr)
  | NoCompletionEvidence (id : rstr)
  | BlankCompletionEvidence (id : rstr)
  | EmptyRetryPolicy (id : rstr)
  | SelfDependency (id : rstr)
  | DuplicateDependency (id dep : rstr)
  | SecurityReviewRequired (id : rstr).

(** ** Completion evidence *)

Inductive CompletionEvidence :=
  | Verification (name : rstr)
  | Report (path : rstr)
  | Note (text : rstr).

Definition CompletionEvidence_payload (e : CompletionEvidence) : rstr :=
  match e with Verification name => name | Report path => path | Note text => text end.

Definition CompletionEvidence_validate (e : CompletionEvidence) (id : rstr)
    : result unit MetadataError :=
  if blank (CompletionEvidence_payload e) then Err (BlankCompletionEvidence id) else Ok tt.

(** ** The task record *)

Record TaskMetadata := {
  tm_id : BacklogTaskId;
  tm_spec_refs : list SpecRef;
  tm_title : rstr;
  tm_objective : rstr;
  tm_acceptance_criteria : list rstr;
  tm_dependencies : list BacklogTaskId;
  tm_domain : DomainId;
  tm_risk : RiskClass;
  tm_data_sensitivity : DataSensitivity;
  tm_expected_files : list rstr;
  tm_required_verification : list VerificationRef;
  tm_required_reviewer_domains : list DomainId;
  tm_autonomy : Autonomy;
  tm_routing : option rstr;
  tm_retry_policy : rstr;
  tm_completion_evidence : list CompletionEvidence;
}.

Definition security_domain : DomainId := MkDomain (lit "security").

Definition is_security_relevant (m : TaskMetadata) : bool :=
  bool_decide (tm_risk m = Risk_Critical)
  || (DataSensitivity_rank Confidential <=? DataSensitivity_rank (tm_data_sensitivity m))
  || bool_decide (DomainId_as_str (tm_domain m) = lit "security").

(** The [seen] loop over the dependency list: the first repeated entry. *)
Fixpoint first_duplicate (seen deps : list BacklogTaskId) : option BacklogTaskId :=
  match deps with
  | [] => None
  | dep :: deps =>
      if bool_decide (dep ∈ seen) then Some dep else first_duplicate (seen ++ [dep]) deps
  end.

Definition TaskMetadata_validate (m : TaskMetadata) : result unit MetadataError :=
  if blank (BacklogTaskId_as_str (tm_id m)) then Err EmptyId else
  let i := BacklogTaskId_as_str (tm_id m) in
  if blank (tm_title m) then Err EmptyTitle else
  if blank (tm_objective m) then Err (EmptyObjective i) else
  if is_empty (tm_spec_refs m) then Err (NoSpecRefs i) else
  if existsb (λ r, blank (SpecRef_as_str r)) (tm_spec_refs m) then Err (NoSpecRefs i) else
  if blank (DomainId_as_str (tm_domain m)) then Err (EmptyDomain i) else
  if is_empty (tm_acceptance_criteria m) || existsb blank (tm_acceptance_criteria m)
  then Err (NoAcceptanceCriteria i) else
  if is_empty (tm_required_verification m)
     || existsb (λ v, blank (VerificationRef_0 v)) (tm_required_verification m)
  then Err (NoVerification i) else
  if is_empty (tm_required_reviewer_domains m) then Err (NoReviewerDomains i) else
  if existsb (λ d, blank (DomainId_as_str d)) (tm_required_reviewer_domains m)
  then Err (BlankReviewerDomain i) else
  if is_empty (tm_completion_evidence m) then Err (NoCompletionEvidence i) else
  let? _ := try_for_each (λ e, CompletionEvidence_validate e i) (tm_completion_evidence m) in
  if blank (tm_retry_policy m) then Err (EmptyRetryPolicy i) else
  if bool_decide (tm_id m ∈ tm_dependencies m) then Err (SelfDependency i) else
  match first_duplicate [] (tm_dependencies m) with
  | Some dep => Err (DuplicateDependency i (BacklogTaskId_as_str dep))
  | None =>
      if is_security_relevant m
         && negb (existsb (λ d, bool_decide (DomainId_as_str d = lit "security"))
                          (tm_required_reviewer_domains m))
      then Err (SecurityReviewRequired i)
      else Ok tt
  end.

(** ** What a valid record satisfies *)

Definition all_nonblank {A} (f : A → rstr) (l : list A) : Prop :=
  l ≠ [] ∧ ∀ x, x ∈ l → blank (f x) = false.

Record metadata_wf (m : TaskMetadata) : Prop := {
  wf_id : blank (BacklogTaskId_as_str (tm_id m)) = false;
  wf_title : blank (tm_title m) = false;
  wf_objective : blank (tm_objective m) = false;
  wf_domain : blank (DomainId_as_str (tm_domain m)) = false;
  wf_retry_policy : blank (tm_retry_policy m) = false;
  wf_spec_refs : all_nonblank SpecRef_as_str (tm_spec_refs m);
  wf_acceptance : all_nonblank (λ c, c) (tm_acceptance_criteria m);
  wf_verification : all_nonblank VerificationRef_0 (tm_required_verification m);
  wf_reviewers : all_nonblank DomainId_as_str (tm_required_reviewer_domains m);
  wf_evidence : all_nonblank CompletionEvidence_payload (tm_completion_evidence m);
  wf_deps_nodup : NoDup (tm_dependencies m);
  wf_deps_irrefl : tm_id m ∉ tm_dependencies m;
  wf_security : is_security_relevant m = true → security_domain ∈ tm_required_reviewer_domains m;
}.

Lemma first_duplicate_none seen deps :
  first_duplicate seen deps = None ↔ NoDup deps ∧ ∀ d, d ∈ deps → d ∉ seen.
Proof.
  revert seen. induction deps as [|d deps IH]; intros seen; simpl.
  - split; [|done]. intros _. split; [constructor|set_solver].
  - case_bool_decide as Hd; [split; [done|set_solver]|].
    rw IH NoDup_cons. setoid_rewrite elem_of_app. setoid_rewrite elem_of_cons.
    split; [intros [? Hs]|intros [[??] Hs]]; repeat split; try done.
    + intros Hin. apply (Hs d Hin). set_solver.
    + intros e [->|He]; [done|]. intros Hin. apply (Hs e He). by left.
    + intros e He [Hin|Hin]; [naive_solver|]. set_solver.
Qed.

Lemma evidence_validate_ok e i :
  CompletionEvidence_validate e i = Ok tt ↔ blank (CompletionEvidence_payload e) = false.
Proof. unfold CompletionEvidence_validate. rw guard_ok. naive_solver. Qed.

Lemma all_nonblank_guard {A} (f : A → rstr) (l : list A) :
  is_empty l = false ∧ existsb (λ x, blank (f x)) l = false ↔ all_nonblank f l.
Proof. unfold all_nonblank. by rw is_empty_false existsb_false. Qed.

Lemma security_reviewer_guard (ds : list DomainId) :
  existsb (λ d, bool_decide (DomainId_as_str d = lit "security")) ds = true
  ↔ security_domain ∈ ds.
Proof.
  rw existsb_true. setoid_rewrite bool_decide_eq_true. unfold security_domain. split.
  - intros ([s] & Hin & Heq). simpl in Heq. by subst.
  - intros Hin. eauto.
Qed.

Lemma TaskMetadata_validate_wf m : TaskMetadata_validate m = Ok tt → metadata_wf m.
Proof.
  unfold TaskMetadata_validate. intros H. guards_in H. destruct (first_duplicate _ _) eqn:Hdup.
  { done. }
  guards_in H. apply first_duplicate_none in Hdup as [Hnd _].
  match goal with H : try_for_each _ _ = Ok ?u |- _ =>
    destruct u; pose proof (proj1 (try_for_each_ok _ _) H) as He end.
  bool_simpl. split; try done; try by apply all_nonblank_guard; split; try apply is_empty_false.
  { split; [done|]. intros e Hin. by eapply evidence_validate_ok, He. }
  intros Hrel. match goal with H : is_security_relevant m && _ = false |- _ => rw Hrel /= in H end.
  bool_simpl. by apply security_reviewer_guard.
Qed.

Lemma metadata_wf_validate m : metadata_wf m → TaskMetadata_validate m = Ok tt.
Proof.
  intros [? ? ? ? ? Hsr Ha Hv Hr [He1 He2] Hnd Hself Hsec].
  apply all_nonblank_guard in Hsr as [??], Ha as [Ha1 Ha2], Hv as [Hv1 Hv2], Hr as [??].
  unfold TaskMetadata_validate. guards; try done.
  - by rw Ha1 Ha2.
  - by rw Hv1 Hv2.
  - by apply is_empty_false.
  - apply try_for_each_ok. intros e He. apply evidence_validate_ok. auto.
  - by apply bool_decide_eq_false.
  - assert (first_duplicate [] (tm_dependencies m) = None) as ->.
    { apply first_duplicate_none. split; [done|set_solver]. }
    guards; [|done]. destruct (is_security_relevant m); [simpl|done].
    apply negb_false_iff, security_reviewer_guard. auto.
Qed.

(** [TaskMetadata::validate] accepts exactly the records that satisfy every
    structural rule: non-blank identity, title, objective, domain and retry
    policy; non-empty lists of non-blank spec references, acceptance criteria,
    verifications, reviewer domains and evidence; duplicate-free dependencies
    without a self edge; and the security reviewer on every security-relevant
    task. *)
Theorem validate_accepts_exactly_wf (m : TaskMetadata) :
  TaskMetadata_validate m = Ok tt ↔ metadata_wf m.
Proof. split; [apply TaskMetadata_validate_wf | apply metadata_wf_validate]. Qed.

(** *** A sample task, for the concrete runs of the components *)

Definition demo_id (i : string) : BacklogTaskId := TaskId (lit i).

Definition demo_task_in (dom : string) (files : list string) (i : string) (deps : list string)
    : TaskMetadata := {|
  tm_id := demo_id i;
  tm_spec_refs := [MkSpecRef (lit "9.33.3")];
  tm_title := lit "task";
  tm_objective := lit "objective";
  tm_acceptance_criteria := [lit "green"];
  tm_dependencies := demo_id <$> deps;
  tm_domain := MkDomain (lit dom);
  tm_risk := Risk_Low;
  tm_data_sensitivity := Internal;
  tm_expected_files := lit <$> files;
  tm_required_verification := [MkVerification (lit "nextest-workspace")];
  tm_required_reviewer_domains := [MkDomain (lit dom)];
  tm_autonomy := Guided;
  tm_routing := None;
  tm_retry_policy := lit "default";
  tm_completion_evidence := [Verification (lit "nextest-workspace")];
|}.

Definition demo_task : string → list string → TaskMetadata := demo_task_in "backend" [].
