(* ===== verification/Dag.v ===== *)
(** * Backlog dependency DAG

    [crates/orchestraitor-delivery/src/dag.rs]: construction-time validation,
    Kahn's topological sort with the smallest identifier first, and
    dependency-satisfied eligibility. *)

From S2P Require Import Prelude BTree Metadata.

Inductive DagError :=
  | InvalidMetadata (id : rstr) (source : MetadataError)
  | DuplicateTask (id : rstr)
  | UnknownDependency (id dep : rstr)
  | Cycle (path : list rstr).

Record TaskDag := MkDag { dag_tasks : gmap BacklogTaskId TaskMetadata }.

(** ** Construction *)

Fixpoint insert_tasks (map : gmap BacklogTaskId TaskMetadata) (tasks : list TaskMetadata)
    : result (gmap BacklogTaskId TaskMetadata) DagError :=
  match tasks with
  | [] => Ok map
  | task :: tasks =>
      let i := BacklogTaskId_as_str (tm_id task) in
      let? _ := map_err (InvalidMetadata i) (TaskMetadata_validate task) in
      match map !! tm_id task with
      | Some _ => Err (DuplicateTask i)
      | None => insert_tasks (<[tm_id task := task]> map) tasks
      end
  end.

Definition check_edge (map : gmap BacklogTaskId TaskMetadata) (i dep : BacklogTaskId)
    : result unit DagError :=
  match map !! dep with
  | Some _ => Ok tt
  | None => Err (UnknownDependency (BacklogTaskId_as_str i) (BacklogTaskId_as_str dep))
  end.

Definition TaskDag_new (tasks : list TaskMetadata) : result TaskDag DagError :=
  let? map := insert_tasks ∅ tasks in
  let? _ := try_for_each
    (λ e, try_for_each (check_edge map e.1) (tm_dependencies e.2)) (bt_iter map) in
  Ok (MkDag map).

Definition TaskDag_default : TaskDag := MkDag ∅.

Definition TaskDag_get (d : TaskDag) (i : BacklogTaskId) : option TaskMetadata := dag_tasks d !! i.
Definition TaskDag_len (d : TaskDag) : N := N.of_nat (size (dag_tasks d)).
Definition TaskDag_is_empty (d : TaskDag) : bool := bool_decide (dag_tasks d = ∅).
Definition TaskDag_iter (d : TaskDag) : list (BacklogTaskId * TaskMetadata) := bt_iter (dag_tasks d).

(** ** Kahn's algorithm *)

Abbreviation degrees := (gmap BacklogTaskId N) (only parsing).
Abbreviation adjacency := (gmap BacklogTaskId (list BacklogTaskId)) (only parsing).

(** The body of [for dep in &task.dependencies]. *)
Definition count_edge (i : BacklogTaskId) (acc : degrees * adjacency) (dep : BacklogTaskId)
    : degrees * adjacency :=
  (entry_or acc.1 i 0 (λ n, n + 1), entry_or acc.2 dep [] (λ l, l ++ [i])).

(** The body of [for (id, task) in &self.tasks]. *)
Definition count_task (acc : degrees * adjacency) (e : BacklogTaskId * TaskMetadata)
    : degrees * adjacency :=
  foldl (count_edge e.1) (entry_or acc.1 e.1 0 (λ n, n), acc.2) (tm_dependencies e.2).

Definition indegree_and_dependents (d : TaskDag) : degrees * adjacency :=
  foldl count_task (∅, ∅) (bt_iter (dag_tasks d)).

(** [for child in children]: decrement, and release at zero. *)
Fixpoint release_children (children : list BacklogTaskId) (indegree : degrees)
    (ready : gset BacklogTaskId) : outcome (degrees * gset BacklogTaskId) :=
  match children with
  | [] => Done (indegree, ready)
  | child :: children =>
      match indegree !! child with
      | None => release_children children indegree ready
      | Some deg =>
          match checked_sub deg 1 with
          | None => Panic
          | Some deg =>
              release_children children (<[child := deg]> indegree)
                (if deg =? 0 then {[child]} ∪ ready else ready)
          end
      end
  end.

(** [while let Some(id) = ready.iter().next().cloned()]. *)
Fixpoint kahn (fuel : nat) (dependents : adjacency) (ready : gset BacklogTaskId)
    (indegree : degrees) (order : list BacklogTaskId) (ordered : gset BacklogTaskId)
    : outcome (list BacklogTaskId * gset BacklogTaskId) :=
  match bs_iter ready with
  | [] => Done (order, ordered)
  | i :: _ =>
      match fuel with
      | O => OutOfFuel
      | S fuel =>
          let ready := ready ∖ {[i]} in
          let ordered := {[i]} ∪ ordered in
          let order := order ++ [i] in
          match dependents !! i with
          | None => kahn fuel dependents ready indegree order ordered
          | Some children =>
              let! (indegree, ready) := release_children children indegree ready in
              kahn fuel dependents ready indegree order ordered
          end
      end
  end.

Definition topological_order (d : TaskDag) : outcome (result (list BacklogTaskId) DagError) :=
  let '(indegree, dependents) := indegree_and_dependents d in
  let ready : gset BacklogTaskId :=
    list_to_set (List.filter (λ e, e.2 =? 0) (bt_iter indegree)).*1 in
  let! (order, ordered) := kahn (size (dag_tasks d)) dependents ready indegree [] ∅ in
  Done (if negb (len order =? TaskDag_len d)
        then Err (Cycle (BacklogTaskId_as_str <$>
               List.filter (λ i, negb (bool_decide (i ∈ ordered))) (bt_keys (dag_tasks d))))
        else Ok order).

(** ** Eligibility *)

Definition eligible (d : TaskDag) (completed : gset BacklogTaskId) : list BacklogTaskId :=
  (List.filter
     (λ e, negb (bool_decide (e.1 ∈ completed))
           && forallb (λ dep, bool_decide (dep ∈ completed)) (tm_dependencies e.2))
     (bt_iter (dag_tasks d))).*1.

(** ** Construction is exactly validation *)

(** Every task sits under its own identifier, is valid, and depends on tasks of
    the backlog only. *)
Record dag_wf (d : TaskDag) : Prop := {
  dw_key i t : dag_tasks d !! i = Some t → tm_id t = i;
  dw_valid i t : dag_tasks d !! i = Some t → metadata_wf t;
  dw_closed i t dep : dag_tasks d !! i = Some t → dep ∈ tm_dependencies t →
    is_Some (dag_tasks d !! dep);
}.

Lemma insert_tasks_inv map tasks map' :
  insert_tasks map tasks = Ok map' →
    Forall metadata_wf tasks ∧ NoDup (tm_id <$> tasks)
    ∧ (∀ t, t ∈ tasks → map !! tm_id t = None)
    ∧ ∀ i t, map' !! i = Some t ↔ map !! i = Some t ∨ (t ∈ tasks ∧ tm_id t = i).
Proof.
  revert map. induction tasks as [|t tasks IH]; intros map; simpl; intros H.
  { simplify_eq. split_and!; [constructor|constructor|set_solver|]. set_solver. }
  apply result_bind_ok in H as ([] & Hv%map_err_ok%TaskMetadata_validate_wf & H).
  destruct (map !! tm_id t) eqn:Hm; [done|].
  apply IH in H as (Hf & Hnd & Hfresh & Hl). split_and!.
  - by constructor.
  - constructor; [|done]. intros (u & Hu & Hin)%list_elem_of_fmap.
    specialize (Hfresh u Hin). by rw -Hu lookup_insert_eq in Hfresh.
  - intros u [->|Hin]%elem_of_cons; [done|]. specialize (Hfresh u Hin).
    by apply lookup_insert_None in Hfresh as [??].
  - intros i u. rw Hl lookup_insert elem_of_cons. case_decide as Heq.
    + subst i. rw Hm. naive_solver.
    + clear -Heq. naive_solver.
Qed.

Lemma insert_tasks_total map tasks :
  Forall metadata_wf tasks → NoDup (tm_id <$> tasks) →
  (∀ t, t ∈ tasks → map !! tm_id t = None) →
  ∃ map', insert_tasks map tasks = Ok map'.
Proof.
  revert map. induction tasks as [|t tasks IH]; intros map; simpl; [eauto|].
  intros [Hv Hf]%Forall_cons [Hni Hnd]%NoDup_cons Hfresh.
  rw (metadata_wf_validate _ Hv) /= (Hfresh t); last set_solver.
  apply IH; [done..|]. intros u Hu. rw lookup_insert_ne; [apply Hfresh; set_solver|].
  intros Heq. apply Hni, list_elem_of_fmap. eauto.
Qed.

Lemma check_edges_ok map :
  try_for_each (λ e, try_for_each (check_edge map e.1) (tm_dependencies e.2)) (bt_iter map)
    = Ok tt
  ↔ ∀ i t dep, map !! i = Some t → dep ∈ tm_dependencies t → is_Some (map !! dep).
Proof.
  rw try_for_each_ok. unfold check_edge. split.
  - intros H i t dep Hi Hdep. specialize (H (i, t) (proj2 (elem_of_bt_iter _ _ _) Hi)).
    pose proof (proj1 (try_for_each_ok _ _) H dep Hdep) as Hd. simpl in Hd.
    destruct (map !! dep); naive_solver.
  - intros H [i t] Hi%elem_of_bt_iter. apply try_for_each_ok. intros dep Hdep. simpl in *.
    by destruct (H i t dep Hi Hdep) as [u ->].
Qed.

Lemma TaskDag_new_inv tasks d :
  TaskDag_new tasks = Ok d →
    dag_wf d ∧ NoDup (tm_id <$> tasks) ∧ Forall metadata_wf tasks
    ∧ ∀ i t, dag_tasks d !! i = Some t ↔ t ∈ tasks ∧ tm_id t = i.
Proof.
  unfold TaskDag_new. intros H. guards_in H. simplify_eq/=.
  match goal with H : insert_tasks _ _ = _ |- _ =>
    apply insert_tasks_inv in H as (Hf & Hnd & _ & Hl) end.
  match goal with H : try_for_each _ _ = Ok ?u |- _ =>
    destruct u; pose proof (proj1 (check_edges_ok _) H) as He end.
  setoid_rewrite lookup_empty in Hl.
  assert (∀ i t, x !! i = Some t ↔ t ∈ tasks ∧ tm_id t = i) as Hl' by naive_solver.
  split_and!; [|done..]. split; simpl; [naive_solver| |done].
  intros i t [Ht _]%Hl'. rw Forall_forall in Hf. auto.
Qed.

Lemma TaskDag_new_total tasks :
  Forall metadata_wf tasks → NoDup (tm_id <$> tasks) →
  (∀ t dep, t ∈ tasks → dep ∈ tm_dependencies t → dep ∈ (tm_id <$> tasks)) →
  ∃ d, TaskDag_new tasks = Ok d.
Proof.
  intros Hf Hnd Hclosed. destruct (insert_tasks_total ∅ tasks Hf Hnd) as [map Hmap].
  { intros; apply lookup_empty. }
  exists (MkDag map). unfold TaskDag_new. rw Hmap /=.
  pose proof (insert_tasks_inv _ _ _ Hmap) as (_ & _ & _ & Hl).
  setoid_rewrite lookup_empty in Hl.
  rw (proj2 (check_edges_ok map)) //. intros i t dep Hi Hdep.
  apply Hl in Hi as [|[Ht _]]; [done|].
  specialize (Hclosed t dep Ht Hdep) as (u & Hu & Hin)%list_elem_of_fmap.
  exists u. apply Hl. auto.
Qed.

(** ** The greedy order

    [available d pre y]: [y] is not placed yet and all its dependencies are in
    [pre].  [greedy d order] builds [order] by always placing the smallest
    available task. *)

Definition deps_of (d : TaskDag) (x : BacklogTaskId) : list BacklogTaskId :=
  from_option tm_dependencies [] (dag_tasks d !! x).

Definition depends (d : TaskDag) (x p : BacklogTaskId) : Prop :=
  is_Some (dag_tasks d !! x) ∧ p ∈ deps_of d x.

Definition available (d : TaskDag) (pre : list BacklogTaskId) (y : BacklogTaskId) : Prop :=
  is_Some (dag_tasks d !! y) ∧ (y ∉ pre) ∧ ∀ p, p ∈ deps_of d y → p ∈ pre.

Inductive greedy (d : TaskDag) : list BacklogTaskId → Prop :=
  | greedy_nil : greedy d []
  | greedy_snoc order x :
      greedy d order → available d order x → (∀ y, available d order y → kle x y) →
      greedy d (order ++ [x]).

(** Dependencies of every element stand before it. *)
Definition deps_first (d : TaskDag) (order : list BacklogTaskId) : Prop :=
  ∀ pre x post, order = pre ++ x :: post → ∀ p, p ∈ deps_of d x → p ∈ pre.

Section greedy_facts.
Context (d : TaskDag).
Implicit Types order : list BacklogTaskId.

Lemma greedy_NoDup order : greedy d order → NoDup order.
Proof.
  induction 1 as [|order x _ IH Hav _]; [constructor|].
  apply NoDup_app. split_and!; [done| |apply NoDup_singleton].
  destruct Hav as (_ & Hni & _). set_solver.
Qed.

Lemma greedy_dom order x : greedy d order → x ∈ order → is_Some (dag_tasks d !! x).
Proof.
  induction 1 as [|order y _ IH Hav _]; [set_solver|].
  intros [?|Hx%list_elem_of_singleton]%elem_of_app; [auto|]. subst. apply Hav.
Qed.

Lemma greedy_prefix pre post : greedy d (pre ++ post) → greedy d pre.
Proof.
  induction post as [|x post IH] using rev_ind; [by rw app_nil_r|].
  rw app_assoc. inversion 1 as [E|order y Hg _ _ E].
  - by destruct (pre ++ post).
  - apply app_inj_tail in E as [-> ->]. auto.
Qed.

Lemma greedy_split pre x post :
  greedy d (pre ++ x :: post) → available d pre x ∧ ∀ y, available d pre y → kle x y.
Proof.
  rw (cons_middle x) app_assoc. intros Hg%greedy_prefix.
  inversion Hg as [E|order y _ Hav Hmin E].
  - by destruct pre.
  - apply app_inj_tail in E as [-> ->]. auto.
Qed.

Lemma greedy_deps_first order : greedy d order → deps_first d order.
Proof. intros Hg pre x post ->. by apply greedy_split in Hg as [(_ & _ & ?) _]. Qed.

Lemma greedy_length order : greedy d order → (length order ≤ size (dag_tasks d))%nat.
Proof.
  intros Hg. rw -length_bt_keys. apply submseteq_length, NoDup_submseteq.
  - by apply greedy_NoDup.
  - intros x Hx. apply elem_of_bt_keys. by eapply greedy_dom.
Qed.

(** Complete greedy orders list every task. *)
Lemma greedy_complete order :
  greedy d order → length order = size (dag_tasks d) → order ≡ₚ bt_keys (dag_tasks d).
Proof.
  intros Hg Hlen. apply submseteq_length_Permutation.
  - apply NoDup_submseteq; [by apply greedy_NoDup|].
    intros x Hx. apply elem_of_bt_keys. by eapply greedy_dom.
  - by rw length_bt_keys Hlen.
Qed.

(** Among all orders that put dependencies first, the greedy one is the
    lexicographically least. *)
Lemma greedy_least order other :
  greedy d order → other ≡ₚ order → deps_first d other → kle order other.
Proof.
  intros Hg Hperm Hdf.
  assert (∀ pre o1 o2, order = pre ++ o1 → other = pre ++ o2 → kle o1 o2) as H; [|by apply (H [])].
  intros pre o1. revert pre. induction o1 as [|x o1 IH]; intros pre o2 E1 E2.
  { destruct o2; done. }
  destruct o2 as [|y o2].
  { apply Permutation_length in Hperm. rw E1 E2 !length_app /= in Hperm. lia. }
  assert (available d pre y) as Hy.
  { split_and!.
    - eapply greedy_dom; [done|]. rw -Hperm E2. set_solver.
    - assert (NoDup other) as Hnd by (rw Hperm; by apply greedy_NoDup).
      rw E2 in Hnd. apply NoDup_app in Hnd as (_ & Hni & _). set_solver.
    - by eapply Hdf. }
  pose proof Hg as Hg'. rw E1 in Hg'. apply greedy_split in Hg' as [_ Hmin].
  apply Hmin in Hy. apply kle_lt_eq in Hy as [Hlt|Heq]; unfold kle; rw kcmp_cons.
  - unfold klt in Hlt. by rw Hlt.
  - subst y. rw kcmp_refl. apply (IH (pre ++ [x])); by rw -app_assoc.
Qed.

(** What a stuck greedy order leaves over is exactly what is blocked by a
    dependency cycle. *)
Definition blocked_by_cycle (x : BacklogTaskId) : Prop :=
  is_Some (dag_tasks d !! x) ∧ ∃ y, rtc (depends d) x y ∧ tc (depends d) y y.

Lemma greedy_closed order x y :
  greedy d order → x ∈ order → rtc (depends d) x y → y ∈ order.
Proof.
  intros Hg Hx Hr. induction Hr as [|x p y [_ Hp] _ IH]; [done|]. apply IH.
  apply list_elem_of_split in Hx as (pre & post & ->).
  pose proof (greedy_deps_first _ Hg _ _ _ eq_refl _ Hp). set_solver.
Qed.

(** Along a dependency path inside the order, positions decrease. *)
Lemma greedy_before pre x post y :
  greedy d (pre ++ x :: post) → tc (depends d) x y → y ∈ pre.
Proof.
  intros Hg Ht. revert pre post Hg. induction Ht as [x y [_ Hy]|x p y [_ Hp] _ IH]; intros pre post Hg.
  - by eapply (greedy_deps_first _ Hg).
  - pose proof (greedy_deps_first _ Hg _ _ _ eq_refl _ Hp) as Hin.
    apply list_elem_of_split in Hin as (pre1 & post1 & ->).
    assert (y ∈ pre1); [|set_solver]. eapply IH.
    rw -app_assoc /= in Hg. exact Hg.
Qed.

Lemma greedy_not_blocked order x : greedy d order → x ∈ order → ¬ blocked_by_cycle x.
Proof.
  intros Hg Hx (_ & y & Hr & Ht). pose proof (greedy_closed _ _ _ Hg Hx Hr) as Hy.
  apply list_elem_of_split in Hy as (pre & post & ->).
  pose proof (greedy_before _ _ _ _ Hg Ht) as Hpre.
  apply greedy_NoDup, NoDup_app in Hg as (_ & Hni & _). set_solver.
Qed.

(** In a finite set where every element depends on another, walks close up. *)
Lemma walk_closes (R V : gset BacklogTaskId) x :
  (∀ z, z ∈ R → ∃ p, p ∈ R ∧ depends d z p) →
  x ∈ R → (∀ v, v ∈ V → tc (depends d) v x) →
  ∃ y, rtc (depends d) x y ∧ tc (depends d) y y.
Proof.
  intros Hstep. remember (size (R ∖ V)) as n eqn:Hn. revert V x Hn.
  induction n as [n IH] using (well_founded_induction lt_wf). intros V x -> Hx HV.
  destruct (decide (x ∈ V)) as [HxV|HxV]; [exists x; auto using rtc_refl|].
  destruct (Hstep x Hx) as (p & Hp & Hdep).
  destruct (IH (size (R ∖ ({[x]} ∪ V)))) with (V := {[x]} ∪ V) (x := p) as (y & Hr & Ht); try done.
  - apply subset_size. split; [clear; set_solver|]. intros Hsub.
    assert (x ∈ R ∖ ({[x]} ∪ V)) as Hin by (apply Hsub; clear -Hx HxV; set_solver).
    clear -Hin. set_solver.
  - intros v Hv. apply elem_of_union in Hv as [->%elem_of_singleton|Hv]; [by constructor|].
    eapply tc_r; eauto.
  - exists y. split; [by eapply rtc_l|done].
Qed.

Lemma stuck_blocked order x :
  dag_wf d → (∀ y, ¬ available d order y) →
  is_Some (dag_tasks d !! x) → x ∉ order → blocked_by_cycle x.
Proof.
  intros Hwf Hstuck Hx Hni. split; [done|].
  set (R := dom (dag_tasks d) ∖ (list_to_set order : gset BacklogTaskId)).
  apply (walk_closes R ∅); [| |set_solver].
  - intros z [Hz Hzo]%elem_of_difference. apply elem_of_dom in Hz.
    rw elem_of_list_to_set in Hzo.
    destruct (decide (Forall (λ p, p ∈ order) (deps_of d z))) as [Hall|Hall].
    { exfalso. apply (Hstuck z). split_and!; [done..|]. by apply Forall_forall. }
    apply not_Forall_Exists, Exists_exists in Hall as (p & Hp & Hpo); [|apply _].
    exists p. split; [|by split]. destruct Hz as [t Ht]. unfold deps_of in Hp.
    rw Ht /= in Hp. apply elem_of_difference. split.
    + apply elem_of_dom. by eapply dw_closed.
    + by rw elem_of_list_to_set.
  - apply elem_of_difference. rw elem_of_dom elem_of_list_to_set. done.
Qed.
End greedy_facts.

(** ** Kahn's algorithm computes the greedy order *)

(** Multiplicity of [x] in [l], and the list stored under a key. *)
Definition mult (x : BacklogTaskId) (l : list BacklogTaskId) : N :=
  count (λ y, bool_decide (y = x)) l.

Definition children_of (m : gmap BacklogTaskId (list BacklogTaskId)) (p : BacklogTaskId)
    : list BacklogTaskId := default [] (m !! p).

Lemma count_edges_spec i deps acc :
  is_Some (acc.1 !! i) →
  (∀ x, (foldl (count_edge i) acc deps).1 !! x
        = if decide (i = x) then (λ n, n + len deps) <$> acc.1 !! i else acc.1 !! x)
  ∧ (∀ p x, mult x (children_of (foldl (count_edge i) acc deps).2 p)
        = mult x (children_of acc.2 p) + (if decide (i = x) then mult p deps else 0)).
Proof.
  revert acc. induction deps as [|dep deps IH]; intros acc Hi; simpl.
  - split; intros; case_decide; subst; autorewrite with orc; try lia.
    + destruct Hi as [n ->]. simpl. f_equal. lia.
    + done.
    + unfold mult at 3. rw count_nil. lia.
  - destruct (IH (count_edge i acc dep)) as [IH1 IH2].
    { unfold count_edge. simpl. rw lookup_entry_or decide_True //. }
    destruct Hi as [n Hn]. split.
    + intros x. rw IH1 /count_edge /= !lookup_entry_or.
      destruct (decide (i = x)); [|done]. rw decide_True // Hn /= len_cons. f_equal. lia.
    + intros p x. rw IH2 /count_edge /=.
      assert (mult x (children_of (entry_or acc.2 dep [] (λ l, l ++ [i])) p)
        = mult x (children_of acc.2 p) + (if decide (dep = p) then if decide (i = x) then 1 else 0 else 0))
        as ->.
      { unfold children_of. rw lookup_entry_or. case_decide; subst; simpl; [|lia].
        unfold mult. autorewrite with orc. case_bool_decide; case_decide; subst; try done; lia. }
      unfold mult. autorewrite with orc.
      repeat case_decide; try case_bool_decide; subst; try done; lia.
Qed.

Lemma indegree_and_dependents_spec d ind dps :
  indegree_and_dependents d = (ind, dps) →
  (∀ x, ind !! x = (λ t, len (tm_dependencies t)) <$> dag_tasks d !! x)
  ∧ (∀ p x, mult x (children_of dps p) = mult p (deps_of d x)).
Proof.
  unfold indegree_and_dependents. intros E.
  assert (∀ l, NoDup l.*1 →
    let r := foldl count_task (∅, ∅) l in
    (∀ x, r.1 !! x = (λ t, len (tm_dependencies t)) <$> (list_to_map l : gmap _ _) !! x)
    ∧ (∀ p x, mult x (children_of r.2 p)
         = mult p (from_option tm_dependencies [] ((list_to_map l : gmap _ TaskMetadata) !! x))))
    as H.
  { induction l as [|[i t] l IH] using rev_ind; [done|].
    rw fmap_app. intros (Hnd & Hni & _)%NoDup_app. specialize (IH Hnd) as [IH1 IH2].
    rw foldl_app. simpl. set (r := foldl count_task (∅, ∅) l) in *.
    assert (∀ x, (list_to_map (l ++ [(i, t)]) : gmap BacklogTaskId TaskMetadata) !! x
      = if decide (i = x) then Some t else (list_to_map l : gmap _ _) !! x) as Hlk.
    { intros x. rw list_to_map_app lookup_union /= lookup_insert. case_decide; subst.
      - assert ((list_to_map l : gmap BacklogTaskId TaskMetadata) !! x = None) as ->; [|done].
        apply not_elem_of_list_to_map_1. intros Hin. apply (Hni x Hin). set_solver.
      - rw lookup_empty. by destruct (_ !! x). }
    assert (r.1 !! i = None) as Hri.
    { rw IH1. apply fmap_None, not_elem_of_list_to_map_1. intros Hin. apply (Hni i Hin). set_solver. }
    destruct (count_edges_spec i (tm_dependencies t) (entry_or r.1 i 0 (λ n, n), r.2)) as [H1 H2].
    { simpl. by rw lookup_entry_or decide_True. }
    split.
    - intros x. unfold count_task. simpl. rw H1 /= Hlk !lookup_entry_or.
      destruct (decide (i = x)); [|apply IH1]. by rw decide_True // Hri.
    - intros p x. unfold count_task. simpl. rw H2 /= Hlk IH2. case_decide as Hx; [|lia].
      subst x. rw not_elem_of_list_to_map_1 /=; [done|]. intros Hin. apply (Hni i Hin). set_solver. }
  specialize (H (bt_iter (dag_tasks d))). simpl in H. rw E in H.
  assert ((list_to_map (bt_iter (dag_tasks d)) : gmap _ _) = dag_tasks d) as Hm.
  { rw -{2}(list_to_map_to_list (dag_tasks d)). apply list_to_map_proper.
    - apply bt_keys_NoDup.
    - apply bt_iter_perm. }
  rw Hm in H. apply H. apply bt_keys_NoDup.
Qed.

(** Dependencies of [x] that are not placed yet. *)
Definition open_deps (d : TaskDag) (pre : list BacklogTaskId) (x : BacklogTaskId) : N :=
  count (λ p, negb (bool_decide (p ∈ pre))) (deps_of d x).

Lemma open_deps_0 d pre x : open_deps d pre x = 0 ↔ ∀ p, p ∈ deps_of d x → p ∈ pre.
Proof.
  unfold open_deps. rw count_0. split; intros H p Hp; specialize (H p Hp).
  - by bool_simpl.
  - apply negb_false_iff. by apply bool_decide_eq_true.
Qed.

Lemma open_deps_snoc d pre i x :
  i ∉ pre → open_deps d pre x = open_deps d (pre ++ [i]) x + mult i (deps_of d x).
Proof.
  intros Hi. unfold open_deps, mult. induction (deps_of d x) as [|p l IH]; [done|].
  rw !count_cons IH. repeat case_bool_decide; simpl; try lia; set_solver.
Qed.

Lemma mult_pos x l : x ∈ l ↔ 0 < mult x l.
Proof.
  split; unfold mult.
  - intros Hx. eapply count_pos; [done|]. by apply bool_decide_eq_true.
  - intros H. destruct (decide (x ∈ l)) as [|Hni]; [done|].
    rw (proj2 (count_0 _ l)) in H; [lia|]. intros y Hy. apply bool_decide_eq_false. congruence.
Qed.

Lemma available_iff d pre x :
  available d pre x ↔ is_Some (dag_tasks d !! x) ∧ (x ∉ pre) ∧ open_deps d pre x = 0.
Proof. unfold available. by rw open_deps_0. Qed.

(** Releasing the children of the task just placed restores the invariant and
    never underflows. *)
Lemma release_children_spec d placed cs ind ready :
  (∀ x, ind !! x = (λ _, open_deps d placed x + mult x cs) <$> dag_tasks d !! x) →
  (∀ x, x ∈ ready ↔
     is_Some (dag_tasks d !! x) ∧ (x ∉ placed) ∧ open_deps d placed x + mult x cs = 0) →
  (∀ c, c ∈ cs → c ∉ placed) →
  ∃ ind' ready', release_children cs ind ready = Done (ind', ready')
    ∧ (∀ x, ind' !! x = (λ _, open_deps d placed x) <$> dag_tasks d !! x)
    ∧ (∀ x, x ∈ ready' ↔ available d placed x).
Proof.
  revert ind ready. induction cs as [|c cs IH]; intros ind ready Hind Hready Hcs; simpl.
  { exists ind, ready. split_and!; [done| |]; intros x.
    - rw Hind. destruct (dag_tasks d !! x); [|done]. simpl. f_equal. unfold mult. rw count_nil. lia.
    - rw Hready available_iff. unfold mult. by rw count_nil N.add_0_r. }
  assert (∀ x, mult x (c :: cs) = (if decide (c = x) then 1 else 0) + mult x cs) as Hm.
  { intros x. unfold mult. rw count_cons. case_bool_decide; case_decide; done. }
  rw Hind Hm decide_True //. destruct (dag_tasks d !! c) as [t|] eqn:Ht; simpl.
  - unfold checked_sub. rw (proj2 (N.leb_le 1 _)); [|lia]. apply IH.
    + intros x. rw lookup_insert. case_decide as Hx; [subst x|].
      * rw Ht /=. f_equal. lia.
      * rw Hind Hm decide_False //.
    + assert (∀ x, x ∈ ready ↔ is_Some (dag_tasks d !! x) ∧ (x ∉ placed)
        ∧ open_deps d placed x + mult x cs = 0 ∧ x ≠ c) as Hready'.
      { intros x. rw Hready Hm. case_decide; naive_solver lia. }
      intros x. destruct (N.eqb_spec (open_deps d placed c + (1 + mult c cs) - 1) 0) as [Hz|Hz].
      * rw elem_of_union elem_of_singleton Hready'. split.
        -- intros [->|?]; [|naive_solver]. split_and!; [eauto| |lia]. apply Hcs. set_solver.
        -- intros (?&?&?). destruct (decide (x = c)); naive_solver.
      * rw Hready'. split; [naive_solver|]. intros (?&?&?). split_and!; try done.
        intros ->. lia.
    + set_solver.
  - apply IH.
    + intros x. rw Hind Hm. case_decide; [subst x; by rw Ht|done].
    + intros x. rw Hready Hm. case_decide; [|done]. subst x. rw Ht. split; intros [[??] _]; done.
    + set_solver.
Qed.

Lemma kahn_spec d dps fuel ready ind order :
  (∀ p x, mult x (children_of dps p) = mult p (deps_of d x)) →
  greedy d order →
  (∀ x, ind !! x = (λ _, open_deps d order x) <$> dag_tasks d !! x) →
  (∀ x, x ∈ ready ↔ available d order x) →
  (size (dag_tasks d) - length order ≤ fuel)%nat →
  ∃ order', kahn fuel dps ready ind order (list_to_set order) = Done (order', list_to_set order')
    ∧ greedy d order' ∧ ∀ y, ¬ available d order' y.
Proof.
  intros Hdps. revert ready ind order. induction fuel as [|fuel IH];
    intros ready ind order Hg Hind Hready Hfuel; simpl;
    destruct (bs_iter ready) as [|i rest] eqn:Hit.
  1, 3: exists order; split_and!; [done..|]; intros y Hy%Hready%elem_of_bs_iter;
    rw Hit in Hy; set_solver.
  all: apply bs_iter_head in Hit as [Hi%Hready Hmin].
  all: assert (greedy d (order ++ [i])) as Hg' by
    (constructor; [done..|]; intros y Hy; by apply Hmin, Hready).
  { apply greedy_length in Hg'. rw length_app /= in Hg'. lia. }
  assert ({[i]} ∪ list_to_set order = (list_to_set (order ++ [i]) : gset BacklogTaskId)) as ->.
  { rw list_to_set_app_L /=. set_solver. }
  assert (size (dag_tasks d) - length (order ++ [i]) ≤ fuel)%nat as Hfuel'.
  { rw length_app /=. lia. }
  destruct Hi as (Hidom & Hiord & Hideps).
  assert (∀ x, open_deps d order x = open_deps d (order ++ [i]) x + mult x (children_of dps i)) as Hopen.
  { intros x. rw Hdps. by apply open_deps_snoc. }
  assert (∀ c, c ∈ children_of dps i → c ∉ order ++ [i]) as Hch.
  { intros c Hc%mult_pos. rw Hdps -mult_pos in Hc. intros [Hin|Heq%list_elem_of_singleton]%elem_of_app.
    - apply list_elem_of_split in Hin as (pre & post & ->).
      pose proof (greedy_deps_first _ _ Hg _ _ _ eq_refl _ Hc). set_solver.
    - subst c. by apply Hiord, Hideps. }
  assert (∃ ind' ready',
    match dps !! i with
    | None => Done (ind, ready ∖ {[i]})
    | Some cs => release_children cs ind (ready ∖ {[i]})
    end = Done (ind', ready')
    ∧ (∀ x, ind' !! x = (λ _, open_deps d (order ++ [i]) x) <$> dag_tasks d !! x)
    ∧ (∀ x, x ∈ ready' ↔ available d (order ++ [i]) x)) as (ind' & ready' & E & Hind' & Hready').
  { destruct (release_children_spec d (order ++ [i]) (children_of dps i) ind (ready ∖ {[i]}))
      as (ind' & ready' & E & ? & ?).
    - intros x. rw Hind. by rw Hopen.
    - intros x. rw elem_of_difference Hready available_iff Hopen elem_of_app.
      rw list_elem_of_singleton elem_of_singleton. naive_solver.
    - done.
    - exists ind', ready'. unfold children_of in E. by destruct (dps !! i). }
  destruct (dps !! i) as [cs|].
  - rw E /=. by apply IH.
  - simplify_eq. by apply IH.
Qed.

(** The whole function: it always finishes, and its result is the greedy order
    or the leftover. *)
Lemma topological_order_spec d :
  ∃ order, greedy d order ∧ (∀ y, ¬ available d order y)
    ∧ topological_order d = Done
        (if negb (len order =? TaskDag_len d)
         then Err (Cycle (BacklogTaskId_as_str <$>
                List.filter (λ i, negb (bool_decide (i ∈ order))) (bt_keys (dag_tasks d))))
         else Ok order).
Proof.
  unfold topological_order. destruct (indegree_and_dependents d) as [ind dps] eqn:E.
  apply indegree_and_dependents_spec in E as [Hind Hdps].
  destruct (kahn_spec d dps (size (dag_tasks d))
    (list_to_set (List.filter (λ e, e.2 =? 0) (bt_iter ind)).*1) ind [])
    as (order & E & Hg & Hstuck).
  - done.
  - constructor.
  - intros x. rw Hind /open_deps /deps_of. destruct (dag_tasks d !! x) as [t|]; [simpl|done].
    f_equal. unfold count. f_equal. induction (tm_dependencies t) as [|p l IH]; simpl; [done|].
    by rw -IH.
  - intros x. rw elem_of_list_to_set list_elem_of_fmap available_iff. split.
    + intros ([y n] & -> & [Hin Hz]%list_elem_of_In%List.filter_In). simpl in *. bool_simpl. subst.
      apply list_elem_of_In, elem_of_bt_iter in Hin. rw Hind in Hin.
      apply fmap_Some in Hin as (t & Ht & Hn). split_and!; [eauto|set_solver|].
      unfold open_deps, deps_of. rw Ht /=. symmetry in Hn. apply len_0 in Hn. by rw Hn.
    + intros ([t Ht] & _ & Hz). exists (x, 0). split; [done|].
      apply list_elem_of_In, List.filter_In. split; [|done]. apply list_elem_of_In, elem_of_bt_iter.
      rw Hind Ht /=. f_equal. rw open_deps_0 /deps_of Ht /= in Hz. apply len_0.
      destruct (tm_dependencies t); [done|]. exfalso. by eapply (not_elem_of_nil b), Hz, elem_of_cons; left.
  - lia.
  - exists order. split_and!; [done..|]. change (list_to_set [] : gset BacklogTaskId) with
      (∅ : gset BacklogTaskId) in E. rw E /=.
    f_equal. destruct (negb _); [|done]. do 3 f_equal.
    apply filter_ext. intros y. f_equal. apply bool_decide_ext. by rw elem_of_list_to_set.
Qed.

Lemma elem_of_leftover d (order : list BacklogTaskId) x :
  x ∈ List.filter (λ i, negb (bool_decide (i ∈ order))) (bt_keys (dag_tasks d))
  ↔ is_Some (dag_tasks d !! x) ∧ x ∉ order.
Proof.
  rw list_elem_of_In List.filter_In -list_elem_of_In elem_of_bt_keys.
  by rw negb_true_iff bool_decide_eq_false.
Qed.

Lemma incomplete_leftover d (order : list BacklogTaskId) :
  greedy d order → len order ≠ TaskDag_len d →
  ∃ x, is_Some (dag_tasks d !! x) ∧ x ∉ order.
Proof.
  intros Hg Hlen. destruct (decide (Forall (λ x, x ∈ order) (bt_keys (dag_tasks d)))) as [Hall|Hex].
  - exfalso. apply Hlen. unfold len, TaskDag_len. f_equal. rw -length_bt_keys.
    apply Permutation_length. apply NoDup_Permutation;
      [by eapply greedy_NoDup|apply bt_keys_NoDup|].
    intros x. rw Forall_forall in Hall. split; [|auto].
    intros Hx. apply elem_of_bt_keys. by eapply greedy_dom.
  - apply not_Forall_Exists, Exists_exists in Hex as (x & Hx & Hni); [|apply _].
    exists x. split; [by apply elem_of_bt_keys|done].
Qed.

(** ** Eligibility *)

Lemma elem_of_eligible d completed x :
  x ∈ eligible d completed ↔
    is_Some (dag_tasks d !! x) ∧ (x ∉ completed) ∧ ∀ p, p ∈ deps_of d x → p ∈ completed.
Proof.
  unfold eligible, deps_of. rw list_elem_of_fmap. setoid_rewrite list_elem_of_In.
  setoid_rewrite List.filter_In. setoid_rewrite <- list_elem_of_In. split.
  - intros ([y t] & -> & Hin%elem_of_bt_iter & Hb). simpl in *. rw Hin /=. bool_simpl.
    split_and!; [done..|]. intros p Hp.
    match goal with H : forallb _ _ = true |- _ => rw forallb_true in H; specialize (H p Hp) end.
    by bool_simpl.
  - intros ([t Ht] & Hc & Hdeps). exists (x, t). rw Ht /= in Hdeps. split; [done|].
    split; [by apply elem_of_bt_iter|]. simpl. apply andb_true_iff. split.
    + by apply negb_true_iff, bool_decide_eq_false.
    + apply forallb_true. intros p Hp. apply bool_decide_eq_true. auto.
Qed.

Lemma eligible_ascending d completed : ascending id (eligible d completed).
Proof.
  unfold eligible. pose proof (ascending_filter fst
    (λ e, negb (bool_decide (e.1 ∈ completed))
          && forallb (λ dep, bool_decide (dep ∈ completed)) (tm_dependencies e.2))
    _ (bt_iter_ascending (dag_tasks d))) as H.
  unfold ascending in *. induction H as [|e l Hl IH He]; simpl; constructor; [done|].
  by apply Forall_fmap.
Qed.

Lemma eligible_NoDup d completed : NoDup (eligible d completed).
Proof. apply (ascending_NoDup id), eligible_ascending. Qed.

(** ** Properties *)

(** [TaskDag::new] succeeds exactly when every task is valid, no two tasks
    share an identifier and every dependency names a task of the input; the DAG
    then holds exactly the given tasks, each under its own identifier, so the
    order of the input does not matter. *)
Theorem dag_new_ok_iff (tasks : list TaskMetadata) :
  (is_Ok (TaskDag_new tasks) ↔
     Forall metadata_wf tasks ∧ NoDup (tm_id <$> tasks)
     ∧ ∀ t dep, t ∈ tasks → dep ∈ tm_dependencies t → dep ∈ (tm_id <$> tasks))
  ∧ (∀ d, TaskDag_new tasks = Ok d →
       dag_wf d ∧ ∀ i t, TaskDag_get d i = Some t ↔ t ∈ tasks ∧ tm_id t = i).
Proof.
  split; [split|].
  - intros [d Hd]. pose proof (TaskDag_new_inv _ _ Hd) as (Hwf & Hnd & Hf & Hl).
    split_and!; [done..|]. intros t dep Ht Hdep.
    destruct (dw_closed _ Hwf (tm_id t) t dep) as [u Hu]; [by apply Hl|done|].
    apply Hl in Hu as [Hu <-]. apply list_elem_of_fmap. eauto.
  - intros (Hf & Hnd & Hc). destruct (TaskDag_new_total tasks) as [d Hd]; [done..|]. by exists d.
  - intros d Hd. pose proof (TaskDag_new_inv _ _ Hd) as (Hwf & _ & _ & Hl). by split.
Qed.

(** C34. A returned topological order lists every task exactly once, puts every
    task after all its dependencies, and is the lexicographically least among
    all orders that do (ties break by the smallest task identifier). *)
Theorem topological_order_correct (d : TaskDag) (order : list BacklogTaskId) :
  topological_order d = Done (Ok order) →
  order ≡ₚ bt_keys (dag_tasks d)
  ∧ deps_first d order
  ∧ ∀ other, other ≡ₚ bt_keys (dag_tasks d) → deps_first d other → kle order other.
Proof.
  intros H. destruct (topological_order_spec d) as (o & Hg & _ & E). rw E in H.
  destruct (negb _) eqn:Hlen; simplify_eq. bool_simpl.
  assert (order ≡ₚ bt_keys (dag_tasks d)) as Hperm.
  { apply greedy_complete; [done|]. unfold len, TaskDag_len in Hlen. lia. }
  split_and!; [done|by apply greedy_deps_first|].
  intros other Ho Hdf. eapply greedy_least; [done| |done]. by rw Ho Hperm.
Qed.

(** C33. On a constructed DAG, [topological_order] always returns (the Kahn loop
    ends and no in-degree ever underflows).  It fails exactly on a cyclic
    backlog, and then the reported path is, in identifier order, exactly the
    set of tasks that depend, directly or not, on a task of a cycle. *)
Theorem topological_order_total (d : TaskDag) :
  dag_wf d →
  (∃ order, topological_order d = Done (Ok order) ∧ ∀ x, ¬ blocked_by_cycle d x)
  ∨ (∃ stuck, topological_order d = Done (Err (Cycle (BacklogTaskId_as_str <$> stuck)))
       ∧ stuck ≠ [] ∧ ascending id stuck ∧ ∀ x, x ∈ stuck ↔ blocked_by_cycle d x).
Proof.
  intros Hwf. destruct (topological_order_spec d) as (o & Hg & Hstuck & ->).
  destruct (N.eqb_spec (len o) (TaskDag_len d)) as [Hlen|Hlen]; simpl; [left|right].
  - exists o. split; [done|]. intros x Hx. eapply (greedy_not_blocked d o x); [done| |done].
    rw (greedy_complete _ _ Hg). { apply elem_of_bt_keys, Hx. }
    unfold len, TaskDag_len in Hlen. lia.
  - eexists. split; [done|]. split_and!.
    + intros E. destruct (incomplete_leftover _ _ Hg Hlen) as (x & Hx).
      apply elem_of_leftover in Hx. rw E in Hx. set_solver.
    + apply ascending_filter, bt_keys_ascending.
    + intros x. rw elem_of_leftover. split.
      * intros [Hx Hni]. by eapply stuck_blocked.
      * intros Hb. split; [apply Hb|]. intros Hin. by eapply greedy_not_blocked.
Qed.

(** *** Concrete backlogs *)

Definition demo_ab : TaskDag :=
  MkDag (list_to_map ((λ t, (tm_id t, t)) <$>
    [demo_task "c" ["a"; "b"]; demo_task "a" []; demo_task "b" ["a"]])).

Definition demo_cyclic : TaskDag :=
  MkDag (list_to_map ((λ t, (tm_id t, t)) <$>
    [demo_task "a" ["c"]; demo_task "b" ["a"]; demo_task "c" ["a"]; demo_task "d" []])).

Lemma demo_cyclic_new :
  TaskDag_new [demo_task "a" ["c"]; demo_task "b" ["a"]; demo_task "c" ["a"]; demo_task "d" []]
  = Ok demo_cyclic.
Proof. vm_compute. reflexivity. Qed.

Lemma topological_order_correct_witness :
  topological_order demo_ab = Done (Ok (demo_id <$> ["a"; "b"; "c"]))
  ∧ deps_first demo_ab (demo_id <$> ["a"; "b"; "c"]).
Proof.
  assert (topological_order demo_ab = Done (Ok (demo_id <$> ["a"; "b"; "c"]))) as E.
  { vm_compute. reflexivity. }
  split; [exact E|]. apply (topological_order_correct demo_ab _ E).
Defined.

Lemma topological_order_total_witness :
  topological_order demo_cyclic = Done (Err (Cycle (lit <$> ["a"; "b"; "c"])))
  ∧ ((∃ order, topological_order demo_cyclic = Done (Ok order)
        ∧ ∀ x, ¬ blocked_by_cycle demo_cyclic x)
     ∨ ∃ stuck, topological_order demo_cyclic
                = Done (Err (Cycle (BacklogTaskId_as_str <$> stuck)))
        ∧ stuck ≠ [] ∧ ascending id stuck ∧ ∀ x, x ∈ stuck ↔ blocked_by_cycle demo_cyclic x).
Proof.
  split; [vm_compute; reflexivity|]. apply (topological_order_total demo_cyclic).
  exact (proj1 (TaskDag_new_inv _ _ demo_cyclic_new)).
Defined.
