(* ===== verification/Schedule.v ===== *)
(** * Parallel scheduling over the DAG

    [crates/orchestraitor-delivery/src/schedule.rs]: which eligible tasks may
    start now, under the global, per-domain and review caps and without two
    in-flight tasks expecting the same file. *)

From S2P Require Import Prelude BTree Metadata Dag.

Record SchedulerConfig := {
  max_concurrent : N;
  max_per_domain : option N;
  review_capacity : N;
}.

Inductive SchedulerConfigError := ZeroMaxConcurrent | ZeroMaxPerDomain | ZeroReviewCapacity.

Definition SchedulerConfig_default : SchedulerConfig :=
  {| max_concurrent := 4; max_per_domain := None; review_capacity := 8 |}.

Definition SchedulerConfig_validate (c : SchedulerConfig) : result unit SchedulerConfigError :=
  if max_concurrent c =? 0 then Err ZeroMaxConcurrent else
  if review_capacity c =? 0 then Err ZeroReviewCapacity else
  if from_option (λ cap, cap =? 0) false (max_per_domain c) then Err ZeroMaxPerDomain else
  Ok tt.

Record ParallelScheduler := ParallelScheduler_new { ps_config : SchedulerConfig }.

(** ** [ParallelScheduler::select] *)

(** Domain load and claimed files of the tasks in flight. *)
Definition claims : Type := gmap DomainId N * gset rstr.

Definition claim (acc : claims) (meta : TaskMetadata) : claims :=
  (entry_or acc.1 (tm_domain meta) 0 (λ n, n + 1), acc.2 ∪ list_to_set (tm_expected_files meta)).

(** [for id in running]. *)
Definition seed_claims (d : TaskDag) (running : list BacklogTaskId) : claims :=
  foldl (λ acc i, match TaskDag_get d i with Some meta => claim acc meta | None => acc end)
    (∅, ∅) running.

(** [for id in dag.eligible(completed)]. *)
Fixpoint select_loop (c : SchedulerConfig) (d : TaskDag) (running_set : gset BacklogTaskId)
    (candidates : list BacklogTaskId) (slots : N) (acc : claims)
    (selected : list BacklogTaskId) : list BacklogTaskId :=
  match candidates with
  | [] => selected
  | i :: candidates =>
      if slots =? 0 then selected else
      if bool_decide (i ∈ running_set)
      then select_loop c d running_set candidates slots acc selected else
      match TaskDag_get d i with
      | None => select_loop c d running_set candidates slots acc selected
      | Some meta =>
          if from_option (λ cap, cap <=? default 0 (acc.1 !! tm_domain meta)) false
               (max_per_domain c)
          then select_loop c d running_set candidates slots acc selected else
          if existsb (λ path, bool_decide (path ∈ acc.2)) (tm_expected_files meta)
          then select_loop c d running_set candidates slots acc selected else
          select_loop c d running_set candidates (slots - 1) (claim acc meta) (selected ++ [i])
      end
  end.

Definition select (s : ParallelScheduler) (d : TaskDag) (completed : gset BacklogTaskId)
    (running : list BacklogTaskId) (under_review : N) : list BacklogTaskId :=
  let c := ps_config s in
  match checked_sub (max_concurrent c) (len running) with
  | None => []
  | Some slots =>
      if slots =? 0 then [] else
      let review_headroom := saturating_sub (review_capacity c)
        (saturating_add usize_max under_review (len running)) in
      let slots := N.min slots review_headroom in
      if slots =? 0 then [] else
      select_loop c d (list_to_set running) (eligible d completed) slots
        (seed_claims d running) []
  end.

(** ** Admission *)

Definition files_of (d : TaskDag) (x : BacklogTaskId) : list rstr :=
  from_option tm_expected_files [] (dag_tasks d !! x).

Definition domain_of (d : TaskDag) (x : BacklogTaskId) : option DomainId :=
  tm_domain <$> dag_tasks d !! x.

(** Tasks of [l] in domain [dom]. *)
Definition dom_load (d : TaskDag) (dom : DomainId) (l : list BacklogTaskId) : N :=
  count (λ x, bool_decide (domain_of d x = Some dom)) l.

Definition conflict (d : TaskDag) (x y : BacklogTaskId) : Prop :=
  ∃ f, f ∈ files_of d x ∧ f ∈ files_of d y.

Definition at_domain_cap (c : SchedulerConfig) (d : TaskDag) (taken : list BacklogTaskId)
    (x : BacklogTaskId) : Prop :=
  ∃ cap dom, max_per_domain c = Some cap ∧ domain_of d x = Some dom ∧ cap ≤ dom_load d dom taken.

(** [x] may join the tasks [taken] that are running or selected already. *)
Definition admissible (c : SchedulerConfig) (d : TaskDag) (taken : list BacklogTaskId)
    (x : BacklogTaskId) : Prop :=
  is_Some (dag_tasks d !! x) ∧ ¬ at_domain_cap c d taken x
  ∧ ∀ y, y ∈ taken → ¬ conflict d x y.

(** [l] is admitted one after the other on top of [taken]. *)
Inductive admitted (c : SchedulerConfig) (d : TaskDag)
    : list BacklogTaskId → list BacklogTaskId → Prop :=
  | admitted_nil taken : admitted c d taken []
  | admitted_cons taken x l :
      admissible c d taken x → admitted c d (taken ++ [x]) l → admitted c d taken (x :: l).

(** The running totals of the loop describe [taken]. *)
Definition claims_ok (d : TaskDag) (acc : claims) (taken : list BacklogTaskId) : Prop :=
  (∀ dom, default 0 (acc.1 !! dom) = dom_load d dom taken)
  ∧ (∀ f, f ∈ acc.2 ↔ ∃ x, x ∈ taken ∧ f ∈ files_of d x).

Lemma claims_ok_nil d : claims_ok d (∅, ∅) [].
Proof. split; [done|]. set_solver. Qed.

Lemma claims_ok_snoc d acc taken x meta :
  claims_ok d acc taken → dag_tasks d !! x = Some meta →
  claims_ok d (claim acc meta) (taken ++ [x]).
Proof.
  intros [H1 H2] Hx. split; simpl.
  - intros dom. rw lookup_entry_or. unfold dom_load, domain_of. autorewrite with orc. rw Hx /=.
    specialize (H1 dom). unfold dom_load, domain_of in H1.
    case_decide; case_bool_decide; simplify_eq/=; lia.
  - intros f. rw elem_of_union elem_of_list_to_set H2. setoid_rewrite elem_of_app.
    setoid_rewrite list_elem_of_singleton.
    assert (f ∈ files_of d x ↔ f ∈ tm_expected_files meta) by (unfold files_of; by rw Hx).
    naive_solver.
Qed.

Lemma claims_ok_skip d acc taken x :
  claims_ok d acc taken → dag_tasks d !! x = None → claims_ok d acc (taken ++ [x]).
Proof.
  intros [H1 H2] Hx. split.
  - intros dom. rw H1. unfold dom_load, domain_of. autorewrite with orc.
    rw Hx /=. lia.
  - intros f. rw H2. setoid_rewrite elem_of_app. setoid_rewrite list_elem_of_singleton.
    assert (f ∉ files_of d x) by (unfold files_of; rw Hx; set_solver). naive_solver.
Qed.

Lemma seed_claims_ok d running : claims_ok d (seed_claims d running) running.
Proof.
  unfold seed_claims. induction running as [|x running IH] using rev_ind; [apply claims_ok_nil|].
  rw foldl_app /=. unfold TaskDag_get. destruct (dag_tasks d !! x) eqn:Hx.
  - by apply claims_ok_snoc.
  - by apply claims_ok_skip.
Qed.

(** The two skip conditions of the loop body are inadmissibility. *)
Lemma cap_guard c d acc taken x meta :
  claims_ok d acc taken → dag_tasks d !! x = Some meta →
  (from_option (λ cap, cap <=? default 0 (acc.1 !! tm_domain meta)) false (max_per_domain c)
   = true ↔ at_domain_cap c d taken x).
Proof.
  intros [H1 _] Hx. unfold at_domain_cap, domain_of. rw Hx /=.
  destruct (max_per_domain c) as [cap|]; simpl; [|naive_solver].
  rw H1 N.leb_le. naive_solver.
Qed.

Lemma conflict_guard d acc taken x meta :
  claims_ok d acc taken → dag_tasks d !! x = Some meta →
  (existsb (λ path, bool_decide (path ∈ acc.2)) (tm_expected_files meta) = true
   ↔ ∃ y, y ∈ taken ∧ conflict d x y).
Proof.
  intros [_ H2] Hx. rw existsb_true. setoid_rewrite bool_decide_eq_true. setoid_rewrite H2.
  unfold conflict, files_of at 2. rw Hx /=. naive_solver.
Qed.

(** The loop admits a sublist of the candidates, and whatever it leaves out is
    running, unknown, inadmissible, or past the last slot. *)
Lemma select_loop_spec c d rset cands slots acc taken selected :
  claims_ok d acc taken →
  ∃ new, select_loop c d rset cands slots acc selected = selected ++ new
    ∧ new `sublist_of` cands ∧ len new ≤ slots
    ∧ (∀ x, x ∈ new → x ∉ rset) ∧ admitted c d taken new
    ∧ ∀ x, x ∈ cands → x ∈ new ∨ x ∈ rset ∨ dag_tasks d !! x = None
        ∨ at_domain_cap c d (taken ++ new) x
        ∨ (∃ y, y ∈ taken ++ new ∧ conflict d x y) ∨ len new = slots.
Proof.
  revert slots acc taken selected.
  induction cands as [|i cands IH]; intros slots acc taken selected Hacc; simpl.
  { exists []. rw app_nil_r. split_and!; try done; [apply N.le_0_l|set_solver|constructor|set_solver]. }
  assert (∀ r, select_loop c d rset cands slots acc selected = r →
    (i ∈ rset ∨ dag_tasks d !! i = None ∨ at_domain_cap c d taken i
     ∨ ∃ y, y ∈ taken ∧ conflict d i y) →
    ∃ new, r = selected ++ new
    ∧ new `sublist_of` (i :: cands) ∧ len new ≤ slots
    ∧ (∀ x, x ∈ new → x ∉ rset) ∧ admitted c d taken new
    ∧ ∀ x, x ∈ i :: cands → x ∈ new ∨ x ∈ rset ∨ dag_tasks d !! x = None
        ∨ at_domain_cap c d (taken ++ new) x
        ∨ (∃ y, y ∈ taken ++ new ∧ conflict d x y) ∨ len new = slots) as Hskip.
  { intros r <- Hi. destruct (IH slots acc taken selected Hacc) as (new & E & Hsub & Hl & Hr & Ha & Hx).
    exists new. split_and!; try done; [by apply sublist_cons|].
    intros x [->|]%elem_of_cons; [|auto]. right.
    destruct Hi as [?|[?|[(cap & dom & ? & ? & Hle)|(y & ? & ?)]]]; [auto..| |].
    - right; right; left. exists cap, dom. split_and!; try done.
      unfold dom_load in *. rw count_app. lia.
    - do 3 right. left. exists y. split; [|done]. set_solver. }
  destruct (N.eqb_spec slots 0) as [->|Hslots].
  { exists []. rw app_nil_r. split_and!; try done; [apply sublist_nil_l|set_solver|constructor|].
    intros x _. do 5 right. done. }
  case_bool_decide as Hi; [by eapply Hskip; auto|]. unfold TaskDag_get.
  destruct (dag_tasks d !! i) as [meta|] eqn:Hd; [|by eapply Hskip; auto].
  destruct (from_option _ _ _) eqn:Hcap.
  { eapply Hskip; [done|]. right; right; left. by eapply cap_guard. }
  destruct (existsb _ _) eqn:Hconf.
  { eapply Hskip; [done|]. do 3 right. by eapply conflict_guard. }
  destruct (IH (slots - 1) (claim acc meta) (taken ++ [i]) (selected ++ [i]))
    as (new & -> & Hsub & Hl & Hr & Ha & Hx); [by apply claims_ok_snoc|].
  exists (i :: new). rw -app_assoc /=. split_and!.
  - done.
  - by apply sublist_skip.
  - rw len_cons. lia.
  - intros x [->|]%elem_of_cons; auto.
  - constructor; [|done]. split_and!; [eauto| |].
    + intros Hat. rw -(cap_guard c d acc) // in Hat. congruence.
    + intros y Hy Hc. assert (existsb (λ path, bool_decide (path ∈ acc.2)) (tm_expected_files meta) = true)
        as Ht by (eapply conflict_guard; eauto). congruence.
  - intros x [->|Hin]%elem_of_cons; [left; set_solver|].
    specialize (Hx x Hin). rw -app_assoc /= in Hx. rw len_cons.
    destruct Hx as [?|[?|[?|[?|[?|?]]]]]; [left; set_solver|tauto..|].
    do 5 right. lia.
Qed.

(** ** What admission guarantees *)

Lemma dom_load_snoc d dom l x :
  dom_load d dom (l ++ [x])
  = dom_load d dom l + (if bool_decide (domain_of d x = Some dom) then 1 else 0).
Proof. unfold dom_load. autorewrite with orc. lia. Qed.

Lemma admitted_load c d taken l dom :
  admitted c d taken l →
  match max_per_domain c with
  | Some cap => dom_load d dom (taken ++ l) ≤ N.max cap (dom_load d dom taken)
  | None => True
  end.
Proof.
  induction 1 as [taken|taken x l (Hx & Hcap & _) _ IH]; destruct (max_per_domain c) as [cap|] eqn:E;
    try done.
  { rw app_nil_r. lia. }
  rw -app_assoc /= in IH. etrans; [exact IH|]. rw dom_load_snoc.
  case_bool_decide as Hdom; [|lia].
  assert (dom_load d dom taken < cap); [|lia].
  apply N.lt_nge. intros Hle. apply Hcap. exists cap, dom. done.
Qed.

Lemma admitted_no_conflict c d taken l x y :
  admitted c d taken l → x ∈ l → y ∈ taken ++ l → x ≠ y → ¬ conflict d x y.
Proof.
  intros Ha. revert x y. induction Ha as [taken|taken z l (_ & _ & Hz) _ IH]; intros x y Hx Hy Hne.
  { set_solver. }
  rw -app_assoc /= in IH.
  assert (∀ a b, conflict d a b → conflict d b a) as Hsym by (unfold conflict; naive_solver).
  apply elem_of_cons in Hx as [->|Hx].
  - apply elem_of_app in Hy as [Hy|Hy]; [by apply Hz|].
    apply elem_of_cons in Hy as [->|Hy]; [done|].
    intros Hc%Hsym. eapply (IH y z); eauto. set_solver.
  - by apply IH.
Qed.

(** ** The scheduler's contract

    What the backlog runner relies on, as laws over any selection function. *)
Class SelectLaws (sel : ParallelScheduler → TaskDag → gset BacklogTaskId →
    list BacklogTaskId → N → list BacklogTaskId) := {
  sel_eligible s d completed running ur x :
    x ∈ sel s d completed running ur → x ∈ eligible d completed ∧ x ∉ running;
  sel_ascending s d completed running ur : ascending id (sel s d completed running ur);
  sel_cap s d completed running ur :
    sel s d completed running ur ≠ [] →
    len running + len (sel s d completed running ur) ≤ max_concurrent (ps_config s)
    ∧ (review_capacity (ps_config s) ≤ usize_max →
       ur + len running + len (sel s d completed running ur) ≤ review_capacity (ps_config s));
  sel_admitted s d completed running ur :
    admitted (ps_config s) d running (sel s d completed running ur);
  sel_maximal s d completed running ur x :
    len running < max_concurrent (ps_config s) →
    saturating_add usize_max ur (len running) < review_capacity (ps_config s) →
    x ∈ eligible d completed → x ∉ running → x ∉ sel s d completed running ur →
    at_domain_cap (ps_config s) d (running ++ sel s d completed running ur) x
    ∨ (∃ y, y ∈ running ++ sel s d completed running ur ∧ conflict d x y)
    ∨ len (sel s d completed running ur) = N.min (max_concurrent (ps_config s) - len running)
        (review_capacity (ps_config s) - saturating_add usize_max ur (len running));
}.

(** Either nothing may start, or the loop ran on a positive number of slots. *)
Lemma select_cases s d completed running ur :
  let c := ps_config s in
  let slots := N.min (max_concurrent c - len running)
    (review_capacity c - saturating_add usize_max ur (len running)) in
  (select s d completed running ur = []
   ∧ ¬ (len running < max_concurrent c
        ∧ saturating_add usize_max ur (len running) < review_capacity c))
  ∨ (len running < max_concurrent c
     ∧ saturating_add usize_max ur (len running) < review_capacity c
     ∧ select s d completed running ur
       = select_loop c d (list_to_set running) (eligible d completed) slots
           (seed_claims d running) []).
Proof.
  simpl. unfold select, checked_sub, saturating_sub.
  destruct (N.leb_spec (len running) (max_concurrent (ps_config s))); [|left; split; [done|lia]].
  destruct (N.eqb_spec (max_concurrent (ps_config s) - len running) 0); [left; split; [done|lia]|].
  destruct (N.eqb_spec (N.min (max_concurrent (ps_config s) - len running)
    (review_capacity (ps_config s) - saturating_add usize_max ur (len running))) 0);
    [left; split; [done|lia]|].
  right. split_and!; [lia..|done].
Qed.

Lemma select_spec s d completed running ur :
  let c := ps_config s in
  let sel := select s d completed running ur in
  let slots := N.min (max_concurrent c - len running)
    (review_capacity c - saturating_add usize_max ur (len running)) in
  sel `sublist_of` eligible d completed ∧ (∀ x, x ∈ sel → x ∉ running)
  ∧ admitted c d running sel ∧ len sel ≤ slots
  ∧ (len running < max_concurrent c →
     saturating_add usize_max ur (len running) < review_capacity c →
     ∀ x, x ∈ eligible d completed → x ∉ running → x ∉ sel →
     at_domain_cap c d (running ++ sel) x ∨ (∃ y, y ∈ running ++ sel ∧ conflict d x y)
     ∨ len sel = slots).
Proof.
  simpl. destruct (select_cases s d completed running ur) as [[-> Hno]|(H1 & H2 & ->)].
  - split_and!; [apply sublist_nil_l|set_solver|constructor|apply N.le_0_l|]. tauto.
  - edestruct (select_loop_spec (ps_config s) d (list_to_set running) (eligible d completed))
      as (new & -> & Hsub & Hl & Hr & Ha & Hx); [apply seed_claims_ok|]. simpl.
    split_and!; try done.
    + intros x Hin. specialize (Hr x Hin). by rw elem_of_list_to_set in Hr.
    + intros _ _ x He Hnr Hns. destruct (Hx x He) as [?|[Hrs|[Hn|[?|[?|?]]]]]; try tauto.
      * rw elem_of_list_to_set in Hrs. done.
      * apply elem_of_eligible in He as [[??] _]. congruence.
Qed.

#[export] Instance select_laws : SelectLaws select.
Proof.
  split; intros s d completed running ur;
    pose proof (select_spec s d completed running ur) as (Hsub & Hr & Ha & Hl & Hm).
  - intros x Hx. split; [|auto]. eapply elem_of_sublist; eauto.
  - eapply ascending_of_sublist; [done|]. apply eligible_ascending.
  - intros Hne. assert (0 < len (select s d completed running ur)).
    { apply N.neq_0_lt_0. by rw len_0. }
    split; [lia|]. unfold saturating_add in *. lia.
  - done.
  - auto.
Qed.

(** ** Properties *)

(** [ParallelScheduler::select] only returns dependency-satisfied tasks that
    are not running, in identifier order and without repetition.  With what is
    running they never exceed [max_concurrent], nor, with the change sets under
    review, [review_capacity]; no domain is pushed over [max_per_domain]; and no
    selected task expects a file another selected or running task expects. *)
Theorem select_safe (s : ParallelScheduler) (d : TaskDag) (completed : gset BacklogTaskId)
    (running : list BacklogTaskId) (under_review : N) :
  let c := ps_config s in
  let sel := select s d completed running under_review in
  NoDup sel ∧ ascending id sel
  ∧ (∀ x, x ∈ sel → x ∈ eligible d completed ∧ x ∉ running)
  ∧ (sel ≠ [] → len running + len sel ≤ max_concurrent c)
  ∧ (sel ≠ [] → review_capacity c ≤ usize_max →
     under_review + len running + len sel ≤ review_capacity c)
  ∧ (∀ cap dom, max_per_domain c = Some cap →
     dom_load d dom (running ++ sel) ≤ N.max cap (dom_load d dom running))
  ∧ (∀ x y, x ∈ sel → y ∈ running ++ sel → x ≠ y → ¬ conflict d x y).
Proof.
  simpl. pose proof (sel_ascending (sel:=select) s d completed running under_review) as Hasc.
  pose proof (sel_admitted (sel:=select) s d completed running under_review) as Ha.
  split_and!.
  - by apply (ascending_NoDup id).
  - done.
  - intros x. apply sel_eligible.
  - intros Hne. by apply sel_cap.
  - intros Hne. by apply sel_cap.
  - intros cap dom Hcap. pose proof (admitted_load _ _ _ _ dom Ha) as H. by rw Hcap in H.
  - intros x y. by eapply admitted_no_conflict.
Qed.

(** [select] is work-conserving: while the global and review caps leave a
    slot, an eligible task that is not running is passed over only because its
    domain is at its cap, because it conflicts on a file with a task that is
    running or selected, or because every slot was handed out. *)
Theorem select_work_conserving (s : ParallelScheduler) (d : TaskDag)
    (completed : gset BacklogTaskId) (running : list BacklogTaskId) (under_review : N)
    (x : BacklogTaskId) :
  let c := ps_config s in
  let sel := select s d completed running under_review in
  len running < max_concurrent c →
  saturating_add usize_max under_review (len running) < review_capacity c →
  x ∈ eligible d completed → x ∉ running → x ∉ sel →
  at_domain_cap c d (running ++ sel) x
  ∨ (∃ y, y ∈ running ++ sel ∧ conflict d x y)
  ∨ len sel = N.min (max_concurrent c - len running)
      (review_capacity c - saturating_add usize_max under_review (len running)).
Proof. simpl. apply sel_maximal. Qed.

(** *** A concrete selection: [b] conflicts with [a] on a file, [d] is past the
    per-domain cap. *)

Definition demo_files : TaskDag :=
  MkDag (list_to_map ((λ t, (tm_id t, t)) <$>
    [demo_task_in "backend" ["src/lib.rs"] "a" [];
     demo_task_in "docs" ["src/lib.rs"; "README.md"] "b" [];
     demo_task_in "docs" ["book.md"] "c" [];
     demo_task_in "backend" [] "d" []])).

Definition demo_scheduler : ParallelScheduler :=
  ParallelScheduler_new {| max_concurrent := 4; max_per_domain := Some 1; review_capacity := 8 |}.

Lemma select_work_conserving_witness :
  select demo_scheduler demo_files ∅ [] 0 = demo_id <$> ["a"; "c"]
  ∧ (at_domain_cap (ps_config demo_scheduler) demo_files
       ([] ++ select demo_scheduler demo_files ∅ [] 0) (demo_id "b")
     ∨ (∃ y, y ∈ [] ++ select demo_scheduler demo_files ∅ [] 0
             ∧ conflict demo_files (demo_id "b") y)
     ∨ len (select demo_scheduler demo_files ∅ [] 0) = 4).
Proof.
  split; [vm_compute; reflexivity|].
  apply (select_work_conserving demo_scheduler demo_files ∅ [] 0 (demo_id "b"));
    [vm_compute; reflexivity..| | |].
  - apply (bool_decide_unpack (demo_id "b" ∈ eligible demo_files ∅)). vm_compute. exact I.
  - intros H. inversion H.
  - apply (bool_decide_unpack (demo_id "b" ∉ select demo_scheduler demo_files ∅ [] 0)).
    vm_compute. exact I.
Defined.
