(* ===== verification/ReviewLoop.v ===== *)
(** * Review-loop configuration

    [crates/orchestraitor-delivery/src/review_loop.rs]: finding severities and
    the tunable parameters of the review loop. *)

From S2P Require Import Prelude BTree Metadata.

Inductive Severity := Minimal | Suggestion | Low | Medium | High | Critical.

#[export] Instance Severity_eq_dec : EqDecision Severity.
Proof. solve_decision. Defined.

(** The derived [Ord] compares variants in declaration order. *)
Definition Severity_rank (s : Severity) : N :=
  match s with
  | Minimal => 0 | Suggestion => 1 | Low => 2 | Medium => 3 | High => 4 | Critical => 5
  end.

#[export] Instance Severity_ord : OrdKey Severity.
Proof. refine (ord_key_inj Severity_rank _). abstract (intros [] []; naive_solver). Defined.

Definition Severity_blocks (self minimum_to_block : Severity) : bool := kleb minimum_to_block self.

Definition default_max_review_loops : N := 3.
Definition default_max_reviewers : N := 5.
Definition default_required_reviewer_domains : list DomainId := [MkDomain (lit "security")].
Definition default_minimum_severity_to_block : Severity := High.
Definition default_stop_when_no_blocking_findings : bool := true.

Inductive ReviewLoopConfigError := ZeroMaxReviewLoops | ZeroMaxReviewers | BlankRequiredDomain.

Record ReviewLoopConfig := {
  max_review_loops : N;
  max_reviewers : N;
  cfg_required_reviewer_domains : list DomainId;
  minimum_severity_to_block : Severity;
  allow_same_model : bool;
  require_provider_diversity : bool;
  require_human_review : bool;
  stop_when_no_blocking_findings : bool;
}.

Definition ReviewLoopConfig_default : ReviewLoopConfig := {|
  max_review_loops := default_max_review_loops;
  max_reviewers := default_max_reviewers;
  cfg_required_reviewer_domains := default_required_reviewer_domains;
  minimum_severity_to_block := default_minimum_severity_to_block;
  allow_same_model := false;
  require_provider_diversity := false;
  require_human_review := false;
  stop_when_no_blocking_findings := default_stop_when_no_blocking_findings;
|}.

Definition for_security_sensitive : ReviewLoopConfig := {|
  max_review_loops := max_review_loops ReviewLoopConfig_default;
  max_reviewers := max_reviewers ReviewLoopConfig_default;
  cfg_required_reviewer_domains := cfg_required_reviewer_domains ReviewLoopConfig_default;
  minimum_severity_to_block := minimum_severity_to_block ReviewLoopConfig_default;
  allow_same_model := allow_same_model ReviewLoopConfig_default;
  require_provider_diversity := require_provider_diversity ReviewLoopConfig_default;
  require_human_review := true;
  stop_when_no_blocking_findings := stop_when_no_blocking_findings ReviewLoopConfig_default;
|}.

Definition ReviewLoopConfig_validate (c : ReviewLoopConfig) : result unit ReviewLoopConfigError :=
  if max_review_loops c =? 0 then Err ZeroMaxReviewLoops else
  if max_reviewers c =? 0 then Err ZeroMaxReviewers else
  if existsb (λ d, blank (DomainId_as_str d)) (cfg_required_reviewer_domains c)
  then Err BlankRequiredDomain else
  Ok tt.

Lemma Severity_blocks_spec s m : Severity_blocks s m = true ↔ kle m s.
Proof. apply kleb_spec. Qed.

(** A higher severity blocks at least as much. *)
Lemma Severity_blocks_mono s s' m :
  kle s s' → Severity_blocks s m = true → Severity_blocks s' m = true.
Proof. rw !Severity_blocks_spec. intros ? ?. by etrans. Qed.

Lemma ReviewLoopConfig_validate_ok c :
  ReviewLoopConfig_validate c = Ok tt ↔
    1 ≤ max_review_loops c ∧ 1 ≤ max_reviewers c
    ∧ ∀ d, d ∈ cfg_required_reviewer_domains c → blank (DomainId_as_str d) = false.
Proof.
  unfold ReviewLoopConfig_validate. rw !guard_ok existsb_false !N.eqb_neq.
  split; [intros (?&?&?&_)|intros (?&?&?)]; split_and!; try done; lia.
Qed.
