(* ===== verification/Findings.v ===== *)
(** * Review findings and their ledger

    [crates/orchestraitor-delivery/src/findings.rs]: the deduplication key of a
    finding and the ledger that tracks findings across review generations. *)

From S2P Require Import Prelude BTree Metadata ReviewLoop.

(** ** Findings and their key

    A [PathBuf] is the string [to_string_lossy] gives for it. *)

Record ReviewFinding := {
  severity : Severity;
  evidence : rstr;
  affected_paths : list rstr;
  rule : rstr;
  line : option N;
  line_end : option N;
  remediation : rstr;
}.

Record FindingId := MkFindingId { fid_path : rstr; fid_line : option N; fid_rule : rstr }.

Inductive FindingError := NoAffectedPaths | BlankRule | BlankEvidence | BlankRemediation | BlankHead.

#[export] Instance FindingError_eq_dec : EqDecision FindingError.
Proof. solve_decision. Defined.

#[export] Instance FindingId_eq_dec : EqDecision FindingId.
Proof. solve_decision. Defined.

Definition FindingId_tuple (i : FindingId) : rstr * (option N * rstr) :=
  (fid_path i, (fid_line i, fid_rule i)).

#[export] Instance FindingId_countable : Countable FindingId.
Proof.
  refine (inj_countable' FindingId_tuple (λ '(p, (l, r)), MkFindingId p l r) _).
  abstract (by intros []).
Defined.

#[export] Instance FindingId_ord : OrdKey FindingId.
Proof. refine (ord_key_inj FindingId_tuple _). abstract (intros [] []; naive_solver). Defined.

(** [while let Some(rest) = s.strip_prefix("./")]. *)
Fixpoint strip_dot_slash (s : rstr) : rstr :=
  match s with
  | a :: b :: rest => if (a =? 46) && (b =? 47) then strip_dot_slash rest else s
  | _ => s
  end.

(** [while s.len() > 1 && s.ends_with('/') { s.pop(); }]. *)
Fixpoint strip_trailing_slash (fuel : nat) (s : rstr) : rstr :=
  if (1 <? str_len s) && ends_with 47 s then
    match fuel with O => s | S fuel => strip_trailing_slash fuel (pop s) end
  else s.

Definition normalize_path (path : rstr) : rstr :=
  let s := strip_dot_slash (trim path) in strip_trailing_slash (length s) s.

Definition FindingId_of (f : ReviewFinding) : result FindingId FindingError :=
  let? path := ok_or (List.find (λ p, negb (is_empty p)) (normalize_path <$> affected_paths f))
                 NoAffectedPaths in
  let r := trim (rule f) in
  if is_empty r then Err BlankRule else
  if blank (evidence f) then Err BlankEvidence else
  if blank (remediation f) then Err BlankRemediation else
  Ok (MkFindingId path (line f) r).

(** ** The ledger *)

Inductive FindingStatus := Open | Resolved.
Inductive RecordOutcome := New | ReReported | Reopened.

#[export] Instance FindingStatus_eq_dec : EqDecision FindingStatus.
Proof. solve_decision. Defined.
#[export] Instance RecordOutcome_eq_dec : EqDecision RecordOutcome.
Proof. solve_decision. Defined.

Record LedgerEntry := {
  le_id : FindingId;
  le_finding : ReviewFinding;
  first_seen_loop : N;
  last_seen_loop : N;
  occurrences : N;
  max_severity : Severity;
  heads_seen : list rstr;
  status : FindingStatus;
  stale : bool;
}.

Record FindingLedger := {
  entries : gmap FindingId LedgerEntry;
  current_head : option rstr;
}.

Definition FindingLedger_new : FindingLedger := {| entries := ∅; current_head := None |}.

Definition mark_stale (e : LedgerEntry) : LedgerEntry := {|
  le_id := le_id e; le_finding := le_finding e; first_seen_loop := first_seen_loop e;
  last_seen_loop := last_seen_loop e; occurrences := occurrences e;
  max_severity := max_severity e; heads_seen := heads_seen e;
  status := status e; stale := true |}.

Definition note_head (l : FindingLedger) (head : rstr) : FindingLedger * result unit FindingError :=
  let head := trim head in
  if is_empty head then (l, Err BlankHead) else
  if bool_decide (current_head l = Some head) then (l, Ok tt) else
  ({| entries := (λ e, if bool_decide (status e = Open) then mark_stale e else e) <$> entries l;
      current_head := Some head |}, Ok tt).

Definition re_report (e : LedgerEntry) (f : ReviewFinding) (loop_number : N)
    (head : option rstr) : LedgerEntry := {|
  le_id := le_id e;
  le_finding := f;
  first_seen_loop := first_seen_loop e;
  last_seen_loop := N.max (last_seen_loop e) loop_number;
  occurrences := saturating_add u32_max (occurrences e) 1;
  max_severity := if kltb (max_severity e) (severity f) then severity f else max_severity e;
  heads_seen :=
    match head with
    | Some h => if bool_decide (list.last (heads_seen e) = Some h) then heads_seen e
                else heads_seen e ++ [h]
    | None => heads_seen e
    end;
  status := Open;
  stale := false |}.

Definition first_report (i : FindingId) (f : ReviewFinding) (loop_number : N)
    (head : option rstr) : LedgerEntry := {|
  le_id := i;
  le_finding := f;
  first_seen_loop := loop_number;
  last_seen_loop := loop_number;
  occurrences := 1;
  max_severity := severity f;
  heads_seen := match head with Some h => [h] | None => [] end;
  status := Open;
  stale := false |}.

Definition record (l : FindingLedger) (f : ReviewFinding) (loop_number : N)
    : FindingLedger * result (FindingId * RecordOutcome) FindingError :=
  match FindingId_of f with
  | Err e => (l, Err e)
  | Ok i =>
      match entries l !! i with
      | Some e =>
          let outcome := if bool_decide (status e = Resolved) then Reopened else ReReported in
          ({| entries := <[i := re_report e f loop_number (current_head l)]> (entries l);
              current_head := current_head l |}, Ok (i, outcome))
      | None =>
          ({| entries := <[i := first_report i f loop_number (current_head l)]> (entries l);
              current_head := current_head l |}, Ok (i, New))
      end
  end.

Definition set_resolved (e : LedgerEntry) : LedgerEntry := {|
  le_id := le_id e; le_finding := le_finding e; first_seen_loop := first_seen_loop e;
  last_seen_loop := last_seen_loop e; occurrences := occurrences e;
  max_severity := max_severity e; heads_seen := heads_seen e;
  status := Resolved; stale := stale e |}.

(** [for (id, entry) in &mut self.entries], with the counter. *)
Definition resolve_unreported (l : FindingLedger) (reported : gset FindingId)
    : FindingLedger * N :=
  let '(es, resolved) := foldl
    (λ acc '(i, e),
       if bool_decide (status e = Open) && negb (bool_decide (i ∈ reported))
       then (<[i := set_resolved e]> acc.1, acc.2 + 1)
       else acc)
    (entries l, 0) (bt_iter (entries l)) in
  ({| entries := es; current_head := current_head l |}, resolved).

(** Open, confirmed against the current head, and at or above the threshold. *)
Definition entry_blocks (minimum_to_block : Severity) (e : LedgerEntry) : bool :=
  bool_decide (status e = Open) && negb (stale e)
  && Severity_blocks (max_severity e) minimum_to_block.

Definition blocking_open_count (l : FindingLedger) (minimum_to_block : Severity) : N :=
  count (entry_blocks minimum_to_block) (bt_values (entries l)).

Definition ledger_entry (l : FindingLedger) (i : FindingId) : option LedgerEntry := entries l !! i.
Definition ledger_entries (l : FindingLedger) : list LedgerEntry := bt_values (entries l).
Definition ledger_len (l : FindingLedger) : N := N.of_nat (size (entries l)).
Definition ledger_is_empty (l : FindingLedger) : bool := bool_decide (entries l = ∅).

(** ** Path normalisation *)

Lemma length_pop s : length (pop s) = (length s - 1)%nat.
Proof. unfold pop. rw length_take. lia. Qed.

(** The fuel [normalize_path] passes is enough: the loop guard is false on its
    result, whatever the path. *)
Lemma strip_trailing_slash_done fuel s :
  (length s ≤ fuel)%nat →
  (1 <? str_len (strip_trailing_slash fuel s)) && ends_with 47 (strip_trailing_slash fuel s) = false.
Proof.
  revert s. induction fuel as [|fuel IH]; intros s Hs; simpl.
  - destruct s; [done|simpl in Hs; lia].
  - destruct ((1 <? str_len s) && ends_with 47 s) eqn:E; [|done].
    apply IH. rw length_pop. lia.
Qed.

Lemma strip_dot_slash_done s : strip_prefix (lit "./") (strip_dot_slash s) = None.
Proof.
  revert s. fix IH 1. intros [|a [|b s]]; [done| |].
  - unfold strip_prefix. by rw bool_decide_false.
  - simpl. destruct ((a =? 46) && (b =? 47)) eqn:E; [apply IH|].
    unfold strip_prefix. rw bool_decide_false //. simpl. intros [= -> ->]. done.
Qed.

(** ** The steps of the ledger *)

Inductive LedgerOp :=
  | NoteHead (head : rstr)
  | Record_ (f : ReviewFinding) (loop_number : N)
  | ResolveUnreported (reported : gset FindingId).

Definition ledger_step (l : FindingLedger) (op : LedgerOp) : FindingLedger :=
  match op with
  | NoteHead h => (note_head l h).1
  | Record_ f n => (record l f n).1
  | ResolveUnreported r => (resolve_unreported l r).1
  end.

Definition ledger_run : FindingLedger → list LedgerOp → FindingLedger := foldl ledger_step.

(** *** What each operation does to an entry *)

Lemma note_head_lookup l h i :
  entries (note_head l h).1 !! i =
    if is_empty (trim h) || bool_decide (current_head l = Some (trim h)) then entries l !! i
    else (λ e, if bool_decide (status e = Open) then mark_stale e else e) <$> entries l !! i.
Proof.
  unfold note_head. destruct (is_empty (trim h)); [done|].
  case_bool_decide; [done|]. simpl. by rw lookup_fmap.
Qed.

Lemma note_head_head l h :
  current_head (note_head l h).1 = if is_empty (trim h) then current_head l else Some (trim h).
Proof. unfold note_head. destruct (is_empty (trim h)); [done|]. by case_bool_decide. Qed.

Lemma record_head l f n : current_head (record l f n).1 = current_head l.
Proof. unfold record. repeat case_match; done. Qed.

Lemma record_lookup l f n i :
  entries (record l f n).1 !! i =
    if bool_decide (FindingId_of f = Ok i) then
      Some (match entries l !! i with
            | Some e => re_report e f n (current_head l)
            | None => first_report i f n (current_head l)
            end)
    else entries l !! i.
Proof.
  unfold record. destruct (FindingId_of f) as [j|] eqn:E; [|by rw bool_decide_false].
  case_bool_decide as Hj; [simplify_eq; destruct (entries l !! i); simpl; apply lookup_insert_eq|].
  assert (j ≠ i) by congruence. destruct (entries l !! j); simpl; by apply lookup_insert_ne.
Qed.

(** The outcome names the earlier state of the entry. *)
Lemma record_outcome l f n i :
  FindingId_of f = Ok i →
  (record l f n).2 = Ok (i, match status <$> entries l !! i with
                            | None => New
                            | Some Open => ReReported
                            | Some Resolved => Reopened
                            end).
Proof.
  intros E. unfold record. rw E. destruct (entries l !! i) as [e|]; [simpl|done].
  case_bool_decide as Hs; [by rw Hs|]. by destruct (status e).
Qed.

Definition unreported (reported : gset FindingId) (i : FindingId) (e : LedgerEntry) : bool :=
  bool_decide (status e = Open) && negb (bool_decide (i ∈ reported)).

Lemma resolve_loop (reported : gset FindingId) (xs : list (FindingId * LedgerEntry))
    (m : gmap FindingId LedgerEntry) n :
  NoDup xs.*1 → (∀ i e, (i, e) ∈ xs → m !! i = Some e) →
  let r := foldl
    (λ acc '(i, e),
       if bool_decide (status e = Open) && negb (bool_decide (i ∈ reported))
       then (<[i := set_resolved e]> acc.1, acc.2 + 1) else acc) (m, n) xs in
  r.2 = n + count (λ '(i, e), unreported reported i e) xs ∧
  ∀ i, r.1 !! i = if bool_decide (i ∈ xs.*1)
                  then (λ e, if unreported reported i e then set_resolved e else e) <$> m !! i
                  else m !! i.
Proof.
  revert m n. induction xs as [|[i e] xs IH]; intros m n Hnd Hm; csimpl;
    [split; [by rw count_nil N.add_0_r|done]|].
  rw fmap_cons in Hnd. apply NoDup_cons in Hnd as [Hi Hnd]. csimpl. fold (unreported reported i e).
  assert (m !! i = Some e) as Hie by (apply Hm; set_solver).
  destruct (unreported reported i e) eqn:Hu; simpl.
  - edestruct (IH (<[i:=set_resolved e]> m) (n + 1)) as [IH2 IH1]; [done| |].
    { intros j e' Hj. rw lookup_insert_ne; [apply Hm; set_solver|].
      intros ->. apply Hi. by apply (list_elem_of_fmap_2 fst) in Hj. }
    split; [rw IH2 count_cons Hu; lia|]. intros j. rw IH1.
    destruct (decide (j = i)) as [->|Hne].
    + rw bool_decide_false // bool_decide_true; [|set_solver].
      by rw lookup_insert_eq Hie /= Hu.
    + rw lookup_insert_ne //. case_bool_decide; case_bool_decide; set_solver.
  - edestruct (IH m n) as [IH2 IH1]; [done|set_solver|].
    split; [rw IH2 count_cons Hu; lia|]. intros j. rw IH1.
    destruct (decide (j = i)) as [->|Hne].
    + rw bool_decide_false // bool_decide_true; [|set_solver]. by rw Hie /= Hu.
    + case_bool_decide; case_bool_decide; set_solver.
Qed.

Lemma resolve_unreported_spec l reported :
  (resolve_unreported l reported).2
    = count (λ '(i, e), unreported reported i e) (bt_iter (entries l)) ∧
  ∀ i, entries (resolve_unreported l reported).1 !! i
    = (λ e, if unreported reported i e then set_resolved e else e) <$> entries l !! i.
Proof.
  unfold resolve_unreported.
  pose proof (resolve_loop reported (bt_iter (entries l)) (entries l) 0
    (bt_keys_NoDup _) (λ i e, proj1 (elem_of_bt_iter _ i e))) as Hr.
  destruct (foldl _ _ _) as [es n]. simpl in *. destruct Hr as [-> Hr].
  split; [done|]. intros i. rw Hr. case_bool_decide as Hi; [done|].
  destruct (entries l !! i) eqn:E; [|done]. exfalso. apply Hi, elem_of_bt_keys. by rw E.
Qed.

Lemma resolve_unreported_head l reported :
  current_head (resolve_unreported l reported).1 = current_head l.
Proof. unfold resolve_unreported. by destruct (foldl _ _ _). Qed.

(** ** The invariant *)

Definition heads_wf (hs : list rstr) : Prop :=
  (∀ h, h ∈ hs → trim h = h ∧ h ≠ []) ∧
  (∀ k h, hs !! k = Some h → hs !! S k ≠ Some h).

Record entry_wf (head : option rstr) (i : FindingId) (e : LedgerEntry) : Prop := {
  ew_id : le_id e = i;
  ew_key : FindingId_of (le_finding e) = Ok i;
  ew_loops : first_seen_loop e ≤ last_seen_loop e;
  ew_occurrences : 1 ≤ occurrences e ≤ u32_max;
  ew_severity : kle (severity (le_finding e)) (max_severity e);
  ew_heads : heads_wf (heads_seen e);
  ew_untracked : head = None → heads_seen e = [] ∧ stale e = false;
  ew_confirmed : status e = Open → stale e = false → list.last (heads_seen e) = head;
}.

Record ledger_wf (l : FindingLedger) : Prop := {
  lw_head : ∀ h, current_head l = Some h → trim h = h ∧ h ≠ [];
  lw_entries : ∀ i e, entries l !! i = Some e → entry_wf (current_head l) i e;
}.

Lemma ledger_wf_new : ledger_wf FindingLedger_new.
Proof. split; [done|]. intros i e. simpl. by rw lookup_empty. Qed.

Lemma heads_wf_nil : heads_wf [].
Proof. split; [set_solver|]. intros k h. by rw lookup_nil. Qed.

Lemma heads_wf_snoc hs h :
  heads_wf hs → trim h = h → h ≠ [] → list.last hs ≠ Some h → heads_wf (hs ++ [h]).
Proof.
  intros [H1 H2] Ht Hne Hl. split; [set_solver|]. intros k x Hk Hk'.
  apply lookup_snoc_Some in Hk as [[Hlt Hk]|[Hk Hx]];
    apply lookup_snoc_Some in Hk' as [[Hlt' Hk']|[Heq Hx']].
  - by apply (H2 k x).
  - apply Hl. by rw last_lookup -Heq Hx'.
  - lia.
  - lia.
Qed.

Lemma first_report_wf l f n i :
  ledger_wf l → FindingId_of f = Ok i →
  entry_wf (current_head l) i (first_report i f n (current_head l)).
Proof.
  intros Hl Hf. split; simpl; try done; [|by destruct (current_head l)|by destruct (current_head l)].
  destruct (current_head l) as [h|] eqn:Eh; [|apply heads_wf_nil].
  apply (heads_wf_snoc []); [apply heads_wf_nil|by apply Hl|by apply Hl|done].
Qed.

Lemma re_report_wf l e f n i :
  ledger_wf l → FindingId_of f = Ok i → entry_wf (current_head l) i e →
  entry_wf (current_head l) i (re_report e f n (current_head l)).
Proof.
  intros Hl Hf He. split; simpl.
  - apply He.
  - done.
  - pose proof (ew_loops _ _ _ He). lia.
  - pose proof (ew_occurrences _ _ _ He). unfold saturating_add. lia.
  - destruct (kltb _ _) eqn:E; [done|]. apply kle_not_lt. rw -kltb_spec. congruence.
  - pose proof (ew_heads _ _ _ He) as Hh. destruct (current_head l) as [h|] eqn:Eh; [|done].
    case_bool_decide; [done|]. apply heads_wf_snoc; [done|by apply Hl|by apply Hl|done].
  - intros Hn. rw Hn. split; [|done]. apply He. done.
  - intros _ _. destruct (current_head l) as [h|] eqn:Eh.
    + case_bool_decide; [done|]. by rw last_snoc.
    + by rw (proj1 (ew_untracked _ _ _ He eq_refl)).
Qed.

Lemma mark_stale_wf h head i e :
  entry_wf head i e → entry_wf (Some h) i (mark_stale e).
Proof. intros []. by split. Qed.

Lemma resolved_head_wf h head i e :
  entry_wf head i e → status e ≠ Open → entry_wf (Some h) i e.
Proof. intros [] ?. by split. Qed.

Lemma set_resolved_wf head i e : entry_wf head i e → entry_wf head i (set_resolved e).
Proof. intros []. by split. Qed.

Lemma note_head_wf l h : ledger_wf l → ledger_wf (note_head l h).1.
Proof.
  intros Hl. unfold note_head. destruct (is_empty (trim h)) eqn:E; [done|].
  case_bool_decide; [done|]. bool_simpl. split; simpl.
  - intros ? [= <-]. split; [apply trim_idemp|done].
  - intros i e. rw lookup_fmap fmap_Some. intros (e0 & He0 & ->).
    apply lw_entries in He0; [|done]. case_bool_decide; eauto using mark_stale_wf, resolved_head_wf.
Qed.

Lemma record_wf l f n : ledger_wf l → ledger_wf (record l f n).1.
Proof.
  intros Hl. split; [rw record_head; apply Hl|]. intros i e. rw record_head record_lookup.
  case_bool_decide as Hf; [|by apply Hl]. intros [= <-].
  destruct (entries l !! i) eqn:E; [|by apply first_report_wf].
  apply re_report_wf; [done..|by apply Hl].
Qed.

Lemma resolve_unreported_wf l r : ledger_wf l → ledger_wf (resolve_unreported l r).1.
Proof.
  intros Hl. split; [rw resolve_unreported_head; apply Hl|]. intros i e.
  rw resolve_unreported_head (proj2 (resolve_unreported_spec l r)) fmap_Some.
  intros (e0 & He0 & ->). apply Hl in He0. case_match; [by apply set_resolved_wf|done].
Qed.

Lemma ledger_step_wf l op : ledger_wf l → ledger_wf (ledger_step l op).
Proof. destruct op; [apply note_head_wf|apply record_wf|apply resolve_unreported_wf]. Qed.

Lemma ledger_run_wf l ops : ledger_wf l → ledger_wf (ledger_run l ops).
Proof. revert l. induction ops; simpl; eauto using ledger_step_wf. Qed.

#[export] Hint Resolve ledger_wf_new note_head_wf record_wf resolve_unreported_wf : orc.

(** ** History of an entry *)

Record entry_le (e e' : LedgerEntry) : Prop := {
  el_id : le_id e' = le_id e;
  el_first : first_seen_loop e' = first_seen_loop e;
  el_last : last_seen_loop e ≤ last_seen_loop e';
  el_occurrences : occurrences e ≤ u32_max → occurrences e ≤ occurrences e' ≤ u32_max;
  el_severity : kle (max_severity e) (max_severity e');
  el_heads : heads_seen e `prefix_of` heads_seen e';
}.

#[export] Instance entry_le_preorder : PreOrder entry_le.
Proof.
  split; [split; done || lia|]. intros e1 e2 e3 [] []. split; try congruence; [lia| | |].
  - intros Ho. destruct (el_occurrences0 Ho). destruct el_occurrences1; [done|]. lia.
  - by etrans.
  - by etrans.
Qed.

Lemma mark_stale_le e : entry_le e (mark_stale e).
Proof. split; simpl; done || lia. Qed.

Lemma set_resolved_le e : entry_le e (set_resolved e).
Proof. split; simpl; done || lia. Qed.

Lemma re_report_le e f n head : entry_le e (re_report e f n head).
Proof.
  split; simpl; [done|done|lia|unfold saturating_add; lia| |].
  - destruct (kltb _ _) eqn:E; [|done]. apply klt_le. by apply kltb_spec.
  - destruct head; [case_bool_decide|]; try done. by apply prefix_app_r.
Qed.

Lemma ledger_step_le l op i e :
  entries l !! i = Some e → ∃ e', entries (ledger_step l op) !! i = Some e' ∧ entry_le e e'.
Proof.
  intros He. destruct op as [h|f n|r]; simpl.
  - rw note_head_lookup He. case_match; [by exists e|]. eexists. split; [done|].
    destruct (bool_decide (status e = Open)); [apply mark_stale_le|done].
  - rw record_lookup He. case_bool_decide; [|by exists e]. eexists. split; [done|]. apply re_report_le.
  - rw (proj2 (resolve_unreported_spec l r)) He. eexists. split; [done|]. case_match;
    [apply set_resolved_le|done].
Qed.

Lemma ledger_run_le l ops i e :
  entries l !! i = Some e → ∃ e', entries (ledger_run l ops) !! i = Some e' ∧ entry_le e e'.
Proof.
  revert l e. induction ops as [|op ops IH]; intros l e He; [by exists e|].
  destruct (ledger_step_le l op i e He) as (e1 & H1 & Hle1).
  destruct (IH _ _ H1) as (e2 & H2 & Hle2). exists e2. split; [done|]. by etrans.
Qed.

(** ** Properties *)

(** Whatever sequence of heads, reports and generation closings the ledger
    sees, every entry keeps its bookkeeping: it is stored under the key of its
    own latest report, its loop range and occurrence counter are consistent
    (the counter saturates at [u32::MAX]), its maximum severity bounds the
    latest one, its reviewed heads are non-blank and never repeat in a row, and
    an open entry that is not stale was last reported against the current
    head.  Without head tracking nothing is ever stale. *)
Theorem ledger_invariant ops : ledger_wf (ledger_run FindingLedger_new ops).
Proof. apply ledger_run_wf, ledger_wf_new. Qed.

(** Entries are never lost and their history only grows: after any further
    operations the entry is still tracked under the same key with the same
    first loop, and its last loop, occurrence count, maximum severity and list
    of reviewed heads extend what they were (severity is never downgraded). *)
Theorem ledger_history ops ops' i e :
  entries (ledger_run FindingLedger_new ops) !! i = Some e →
  ∃ e', entries (ledger_run FindingLedger_new (ops ++ ops')) !! i = Some e' ∧
    le_id e' = i ∧ first_seen_loop e' = first_seen_loop e ∧
    last_seen_loop e ≤ last_seen_loop e' ∧ occurrences e ≤ occurrences e' ∧
    kle (max_severity e) (max_severity e') ∧ heads_seen e `prefix_of` heads_seen e'.
Proof.
  intros He. pose proof (lw_entries _ (ledger_run_wf _ ops ledger_wf_new) i e He) as Hw.
  unfold ledger_run in *. rw foldl_app. destruct (ledger_run_le _ ops' i e He) as (e' & He' & Hle).
  exists e'. destruct Hle. split; [done|]. split_and!; try done.
  - rw el_id0. apply Hw.
  - apply el_occurrences0. apply Hw.
Qed.

Definition demo_finding (path : string) (s : Severity) : ReviewFinding := {|
  severity := s; evidence := lit "seen in review"; affected_paths := [lit path];
  rule := lit "R1"; line := Some 7; line_end := None; remediation := lit "fix it" |}.

Definition demo_key (path : string) : FindingId := MkFindingId (lit path) (Some 7) (lit "R1").

Lemma ledger_history_witness :
  ∃ e', entries (ledger_run FindingLedger_new
           ([NoteHead (lit " a1 "); Record_ (demo_finding "./src/a.rs/" High) 1] ++
            [NoteHead (lit "b2"); Record_ (demo_finding "src/a.rs" Low) 2;
             ResolveUnreported ∅])) !! demo_key "src/a.rs" = Some e' ∧
    le_id e' = demo_key "src/a.rs" ∧ first_seen_loop e' = 1 ∧
    1 ≤ last_seen_loop e' ∧ 1 ≤ occurrences e' ∧
    kle High (max_severity e') ∧ [lit "a1"] `prefix_of` heads_seen e'.
Proof.
  apply (ledger_history [NoteHead (lit " a1 "); Record_ (demo_finding "./src/a.rs/" High) 1] _
    (demo_key "src/a.rs") (first_report (demo_key "src/a.rs") (demo_finding "./src/a.rs/" High) 1
                             (Some (lit "a1")))).
  vm_compute. reflexivity.
Defined.

(** The documentation asks for a non-blank affected path, but the normalised
    path is only checked for emptiness: one that is whitespace after
    normalisation becomes a key. *)
Lemma blank_normalized_path_accepted :
  FindingId_of {| severity := High; evidence := lit "e"; affected_paths := [lit "./ /"];
                  rule := lit "r"; line := None; line_end := None; remediation := lit "m" |}
    = Ok (MkFindingId (lit " ") None (lit "r")) ∧ blank (lit " ") = true.
Proof. split; reflexivity. Qed.

(** The head is compared with the newest one only, so a head that comes back
    is listed again although it was already recorded. *)
Lemma returning_head_listed_twice :
  heads_seen <$> entries (ledger_run FindingLedger_new
    [NoteHead (lit "A"); Record_ (demo_finding "f" Low) 1;
     NoteHead (lit "B"); Record_ (demo_finding "f" Low) 2;
     NoteHead (lit "A"); Record_ (demo_finding "f" Low) 3]) !! demo_key "f"
    = Some [lit "A"; lit "B"; lit "A"].
Proof. vm_compute. reflexivity. Qed.
