(* ===== verification/Convergence.v ===== *)
(** * Convergence of the review loop

    [crates/orchestraitor-delivery/src/convergence.rs]: the stop / continue /
    blocked decision after a completed review generation. *)

From S2P Require Import Prelude BTree Metadata ReviewLoop Findings.

Definition DEFAULT_HARD_LOOP_CEILING : N := 5.

Inductive ConvergenceError :=
  | NoCompletedLoop
  | BlankGenerationHead
  | ZeroHardLoopCeiling
  | InvalidReviewLoopConfig (e : ReviewLoopConfigError).

Record ConvergenceInput := {
  finding_ledger : FindingLedger;
  ci_config : ReviewLoopConfig;
  completed_loop : N;
  generation_head : option rstr;
  blocking_threshold : Severity;
  hard_loop_ceiling : N;
}.

Definition ConvergenceInput_new (l : FindingLedger) (c : ReviewLoopConfig) (n : N)
    : ConvergenceInput := {|
  finding_ledger := l;
  ci_config := c;
  completed_loop := n;
  generation_head := None;
  blocking_threshold := minimum_severity_to_block c;
  hard_loop_ceiling := DEFAULT_HARD_LOOP_CEILING;
|}.

Definition with_generation_head (i : ConvergenceInput) (head : rstr) : ConvergenceInput := {|
  finding_ledger := finding_ledger i; ci_config := ci_config i;
  completed_loop := completed_loop i; generation_head := Some head;
  blocking_threshold := blocking_threshold i; hard_loop_ceiling := hard_loop_ceiling i |}.

Definition with_blocking_threshold (i : ConvergenceInput) (s : Severity) : ConvergenceInput := {|
  finding_ledger := finding_ledger i; ci_config := ci_config i;
  completed_loop := completed_loop i; generation_head := generation_head i;
  blocking_threshold := s; hard_loop_ceiling := hard_loop_ceiling i |}.

Definition with_hard_loop_ceiling (i : ConvergenceInput) (n : N) : ConvergenceInput := {|
  finding_ledger := finding_ledger i; ci_config := ci_config i;
  completed_loop := completed_loop i; generation_head := generation_head i;
  blocking_threshold := blocking_threshold i; hard_loop_ceiling := n |}.

Definition ConvergenceInput_validate (i : ConvergenceInput) : result unit ConvergenceError :=
  let? _ := map_err InvalidReviewLoopConfig (ReviewLoopConfig_validate (ci_config i)) in
  if completed_loop i =? 0 then Err NoCompletedLoop else
  if hard_loop_ceiling i =? 0 then Err ZeroHardLoopCeiling else
  if match generation_head i with Some head => blank head | None => false end
  then Err BlankGenerationHead else
  Ok tt.

Inductive BlockedReason := MaxReviewLoops | ReviewBudgetHardCeiling.

Inductive ConvergenceVerdict :=
  | Converged
  | Continue (next_loop : N)
  | Blocked (reason : BlockedReason).

(** The comparator of [sort_by]: maximum severity descending, then the key. *)
Definition blocking_cmp (a b : LedgerEntry) : comparison :=
  match kcmp (max_severity b) (max_severity a) with
  | Eq => kcmp (le_id a) (le_id b)
  | c => c
  end.

Definition blocking_le (a b : LedgerEntry) : Prop := blocking_cmp a b ≠ Gt.

#[export] Instance blocking_le_dec : RelDecision blocking_le.
Proof. intros a b. unfold blocking_le. apply _. Defined.

Definition blocking_findings (i : ConvergenceInput) : list LedgerEntry :=
  merge_sort blocking_le
    (List.filter (entry_blocks (blocking_threshold i)) (ledger_entries (finding_ledger i))).

Definition stale_blocks (threshold : Severity) (e : LedgerEntry) : bool :=
  bool_decide (status e = Open) && stale e && Severity_blocks (max_severity e) threshold.

Definition stale_blocking_count (i : ConvergenceInput) : N :=
  count (stale_blocks (blocking_threshold i)) (ledger_entries (finding_ledger i)).

Definition current_generation_confirmed (i : ConvergenceInput) : bool :=
  match trim <$> generation_head i with
  | None => true
  | Some head => bool_decide (current_head (finding_ledger i) = Some head)
  end.

Definition evaluate (i : ConvergenceInput) : ConvergenceVerdict :=
  let blocking := len (blocking_findings i) in
  if (0 <? blocking) && (hard_loop_ceiling i <=? completed_loop i)
  then Blocked ReviewBudgetHardCeiling else
  if (blocking =? 0) && stop_when_no_blocking_findings (ci_config i)
     && (1 <=? completed_loop i) && (stale_blocking_count i =? 0)
     && current_generation_confirmed i
  then Converged else
  if max_review_loops (ci_config i) <=? completed_loop i then Blocked MaxReviewLoops else
  if hard_loop_ceiling i <=? completed_loop i then Blocked ReviewBudgetHardCeiling else
  Continue (saturating_add u32_max (completed_loop i) 1).

(** ** The sort order *)

Definition blocking_key (e : LedgerEntry) : N * FindingId :=
  (5 - Severity_rank (max_severity e), le_id e).

Lemma blocking_cmp_key a b : blocking_cmp a b = kcmp (blocking_key a) (blocking_key b).
Proof.
  unfold blocking_cmp, blocking_key. cbn [kcmp pair_ord_key]. unfold pair_kcmp. cbn [fst snd].
  by destruct (max_severity a), (max_severity b).
Qed.

Lemma blocking_le_key a b : blocking_le a b ↔ by_key blocking_key a b.
Proof. unfold blocking_le, by_key, kle. by rw blocking_cmp_key. Qed.

#[export] Instance blocking_le_total : Total blocking_le.
Proof. intros a b. rw !blocking_le_key. apply (total (by_key blocking_key)). Qed.

#[export] Instance blocking_le_trans : Transitive blocking_le.
Proof. intros a b c. rw !blocking_le_key. apply (transitivity (R := by_key blocking_key)). Qed.

Lemma blocking_findings_perm i :
  blocking_findings i ≡ₚ
    List.filter (entry_blocks (blocking_threshold i)) (ledger_entries (finding_ledger i)).
Proof. apply merge_sort_Permutation. Qed.

(** The aggregation of the ledger and the list agree. *)
Lemma len_blocking_findings i :
  len (blocking_findings i) = blocking_open_count (finding_ledger i) (blocking_threshold i).
Proof. unfold len. by rw blocking_findings_perm. Qed.

Lemma elem_of_ledger_entries l e :
  e ∈ ledger_entries l ↔ ∃ i, entries l !! i = Some e.
Proof.
  unfold ledger_entries, bt_values. rw list_elem_of_fmap. setoid_rewrite <- elem_of_bt_iter.
  split; [intros ([i e'] & -> & ?); by exists i|intros [i ?]; by exists (i, e)].
Qed.

Lemma elem_of_blocking_findings i e :
  e ∈ blocking_findings i ↔
    (∃ k, entries (finding_ledger i) !! k = Some e) ∧ entry_blocks (blocking_threshold i) e = true.
Proof.
  rw blocking_findings_perm list_elem_of_In filter_In -list_elem_of_In elem_of_ledger_entries.
  done.
Qed.

(** ** No entry blocks, fresh or stale *)

Definition open_blocker (i : ConvergenceInput) (e : LedgerEntry) : Prop :=
  status e = Open ∧ kle (blocking_threshold i) (max_severity e).

Definition ledger_clean (i : ConvergenceInput) : Prop :=
  ∀ k e, entries (finding_ledger i) !! k = Some e → ¬ open_blocker i e.

Lemma open_blocker_cases i e :
  open_blocker i e ↔
    entry_blocks (blocking_threshold i) e = true ∨ stale_blocks (blocking_threshold i) e = true.
Proof.
  unfold open_blocker, entry_blocks, stale_blocks. rw !andb_true_iff !bool_decide_eq_true.
  rw negb_true_iff !Severity_blocks_spec. destruct (stale e); naive_solver.
Qed.

Lemma ledger_clean_iff i :
  ledger_clean i ↔ len (blocking_findings i) = 0 ∧ stale_blocking_count i = 0.
Proof.
  rw len_blocking_findings /blocking_open_count /stale_blocking_count !count_0.
  change (bt_values (entries (finding_ledger i))) with (ledger_entries (finding_ledger i)).
  unfold ledger_clean. setoid_rewrite open_blocker_cases. setoid_rewrite elem_of_ledger_entries.
  split.
  - intros H. split; intros e [k He]; specialize (H k e He); apply not_true_iff_false; tauto.
  - intros [H1 H2] k e He. rw (H1 e) ?(H2 e); naive_solver.
Qed.

Definition confirmed (i : ConvergenceInput) : Prop :=
  ∀ h, generation_head i = Some h → current_head (finding_ledger i) = Some (trim h).

Lemma confirmed_iff i : current_generation_confirmed i = true ↔ confirmed i.
Proof.
  unfold current_generation_confirmed, confirmed. destruct (generation_head i); simpl.
  - rw bool_decide_eq_true. naive_solver.
  - naive_solver.
Qed.

Lemma evaluate_converged i :
  evaluate i = Converged ↔
    ledger_clean i ∧ confirmed i ∧ 1 ≤ completed_loop i
    ∧ stop_when_no_blocking_findings (ci_config i) = true.
Proof.
  rw ledger_clean_iff -confirmed_iff. unfold evaluate.
  destruct (N.eqb_spec (len (blocking_findings i)) 0) as [->|Hb]; simpl.
  - destruct (stop_when_no_blocking_findings _); simpl; [|repeat case_match; naive_solver].
    destruct (N.leb_spec 1 (completed_loop i)); simpl; [|repeat case_match; naive_solver lia].
    destruct (N.eqb_spec (stale_blocking_count i) 0); simpl; [|repeat case_match; naive_solver].
    destruct (current_generation_confirmed i); [naive_solver|repeat case_match; naive_solver].
  - repeat case_match; naive_solver.
Qed.

Lemma evaluate_continue i n :
  evaluate i = Continue n →
    n = saturating_add u32_max (completed_loop i) 1
    ∧ completed_loop i < max_review_loops (ci_config i)
    ∧ completed_loop i < hard_loop_ceiling i.
Proof. unfold evaluate. repeat case_match; intros; simplify_eq; bool_simpl; naive_solver. Qed.

Lemma evaluate_blocked i r :
  evaluate i = Blocked r →
    match r with
    | MaxReviewLoops => max_review_loops (ci_config i) ≤ completed_loop i
    | ReviewBudgetHardCeiling => hard_loop_ceiling i ≤ completed_loop i
    end.
Proof. unfold evaluate. repeat case_match; intros; simplify_eq; bool_simpl; done. Qed.

(** Within both budgets the decision is never [Blocked]. *)
Lemma evaluate_in_budget i :
  completed_loop i < max_review_loops (ci_config i) → completed_loop i < hard_loop_ceiling i →
  evaluate i = Converged ∨ evaluate i = Continue (saturating_add u32_max (completed_loop i) 1).
Proof. intros. unfold evaluate. repeat case_match; bool_simpl; try lia; tauto. Qed.

Lemma validate_input_ok i :
  ConvergenceInput_validate i = Ok tt ↔
    ReviewLoopConfig_validate (ci_config i) = Ok tt ∧ 1 ≤ completed_loop i
    ∧ 1 ≤ hard_loop_ceiling i ∧ ∀ h, generation_head i = Some h → blank h = false.
Proof.
  unfold ConvergenceInput_validate. rw result_bind_ok. setoid_rewrite map_err_ok.
  split.
  - intros ([] & ? & H). rw !guard_ok !N.eqb_neq in H. destruct H as (?&?&Hb&_).
    split_and!; [done|lia|lia|]. intros h Eh. by rw Eh in Hb.
  - intros (?&?&?&Hh). exists tt. split; [done|]. rw !guard_ok !N.eqb_neq.
    split_and!; [lia|lia| |done]. destruct (generation_head i); [by apply Hh|done].
Qed.

(** ** Properties *)

(** The decision after a generation, exactly.  It converges if and only if
    no open finding at or above the threshold is left (stale ones included),
    the generation ran at the ledger's head, at least one loop completed and
    early stopping is configured.  Otherwise it schedules loop [n + 1] exactly
    when both budgets have room, and stops in the explicit blocked state that
    names the exhausted budget; there is no other outcome. *)
Theorem evaluate_decision i :
  let n := completed_loop i in
  let max := max_review_loops (ci_config i) in
  let hard := hard_loop_ceiling i in
  let converges := ledger_clean i ∧ confirmed i ∧ 1 ≤ n
                   ∧ stop_when_no_blocking_findings (ci_config i) = true in
  let fresh := blocking_open_count (finding_ledger i) (blocking_threshold i) in
  match evaluate i with
  | Converged => converges
  | Continue k => ¬ converges ∧ k = saturating_add u32_max n 1 ∧ n < max ∧ n < hard
  | Blocked MaxReviewLoops => ¬ converges ∧ max ≤ n ∧ (n < hard ∨ fresh = 0)
  | Blocked ReviewBudgetHardCeiling => ¬ converges ∧ hard ≤ n ∧ (n < max ∨ 0 < fresh)
  end.
Proof.
  intros n max hard converges fresh. pose proof (evaluate_converged i) as Hc.
  fold n converges in Hc. destruct (evaluate i) as [|k|[]] eqn:E.
  - by apply Hc.
  - apply evaluate_continue in E. naive_solver.
  - split; [naive_solver|]. unfold evaluate in E. rw len_blocking_findings in E.
    unfold n, max, hard, fresh. destruct (0 <? _) eqn:?, (hard_loop_ceiling i <=? _) eqn:?;
      simpl in E; repeat case_match; simplify_eq; bool_simpl; lia.
  - split; [naive_solver|]. unfold evaluate in E. rw len_blocking_findings in E.
    unfold n, max, hard, fresh. repeat case_match; simplify_eq; bool_simpl; lia.
Qed.

Lemma ledger_entries_ids l : ledger_wf l → le_id <$> ledger_entries l = bt_keys (entries l).
Proof.
  intros Hw. unfold ledger_entries, bt_values, bt_keys. rw -list_fmap_compose.
  apply list_fmap_ext. intros k [i e] Hk. apply list_elem_of_lookup_2 in Hk.
  apply elem_of_bt_iter, Hw in Hk. apply Hk.
Qed.

Lemma blocking_findings_ascending i :
  ledger_wf (finding_ledger i) → ascending blocking_key (blocking_findings i).
Proof.
  intros Hw. apply sorted_ascending.
  - eapply StronglySorted_impl; [intros a b; apply blocking_le_key|].
    apply (StronglySorted_merge_sort blocking_le).
  - apply (NoDup_fmap_1 snd). rw -list_fmap_compose (blocking_findings_perm i).
    change (snd ∘ blocking_key) with le_id. apply NoDup_fmap_filter.
    rw ledger_entries_ids //. apply bt_keys_NoDup.
Qed.

(** The list of blocking findings is exactly the open, non-stale entries at
    or above the threshold, each once, ordered by strictly decreasing severity
    and, within a severity, by strictly increasing key; its length is the count
    the ledger reports. *)
Theorem blocking_findings_exact i :
  ledger_wf (finding_ledger i) →
  (∀ e, e ∈ blocking_findings i ↔
     entries (finding_ledger i) !! le_id e = Some e ∧ status e = Open ∧ stale e = false
     ∧ kle (blocking_threshold i) (max_severity e)) ∧
  StronglySorted (λ a b, klt (max_severity b) (max_severity a) ∨
                         max_severity a = max_severity b ∧ klt (le_id a) (le_id b))
    (blocking_findings i) ∧
  len (blocking_findings i) = blocking_open_count (finding_ledger i) (blocking_threshold i).
Proof.
  intros Hw. split_and!; [|eapply StronglySorted_impl; [|by apply blocking_findings_ascending]
                          |apply len_blocking_findings].
  - intros e. rw elem_of_blocking_findings. unfold entry_blocks.
    rw !andb_true_iff bool_decide_eq_true negb_true_iff Severity_blocks_spec.
    split; [|naive_solver]. intros [[k Hk] ?].
    rw (ew_id _ _ _ (lw_entries _ Hw k e Hk)). naive_solver.
  - intros a b. unfold klt at 1. rw -blocking_cmp_key. unfold blocking_cmp.
    destruct (kcmp (max_severity b) (max_severity a)) eqn:E; [|by left|done].
    apply kcmp_eq in E. by right.
Qed.

Definition demo_input : ConvergenceInput :=
  ConvergenceInput_new
    (ledger_run FindingLedger_new
       [Record_ (demo_finding "b" High) 1; Record_ (demo_finding "a" High) 1;
        Record_ (demo_finding "c" Low) 1; Record_ (demo_finding "z" Critical) 1])
    ReviewLoopConfig_default 1.

Lemma blocking_findings_exact_witness :
  fid_path ∘ le_id <$> blocking_findings demo_input = [lit "z"; lit "a"; lit "b"] ∧
  len (blocking_findings demo_input) = blocking_open_count (finding_ledger demo_input) High.
Proof.
  split; [vm_compute; reflexivity|]. apply (blocking_findings_exact demo_input).
  apply ledger_run_wf, ledger_wf_new.
Defined.
