(* ===== verification/ReviewerSelection.v ===== *)
(** * Reviewer selection

    [crates/orchestraitor-delivery/src/reviewer_selection.rs]: the reviewers a
    change set gets, from its classification and the review configuration. *)

From S2P Require Import Prelude BTree Metadata ReviewLoop.

Definition GENERAL_DOMAIN : rstr := lit "general".
Definition SECURITY_DOMAIN : rstr := lit "security".
Definition TESTING_DOMAIN : rstr := lit "testing".
Definition ROLE_REVIEWING : rstr := lit "reviewing".

Inductive Language := Rust | TypeScript | JavaScript | Python | Go | Bash | Toml | Markdown | Other.

#[export] Instance Language_eq_dec : EqDecision Language.
Proof. solve_decision. Defined.

Definition Language_rank (l : Language) : N :=
  match l with
  | Rust => 0 | TypeScript => 1 | JavaScript => 2 | Python => 3 | Go => 4 | Bash => 5
  | Toml => 6 | Markdown => 7 | Other => 8
  end.

#[export] Instance Language_countable : Countable Language.
Proof.
  refine (inj_countable' Language_rank (λ n, default Other
    (nth_error [Rust; TypeScript; JavaScript; Python; Go; Bash; Toml; Markdown] (N.to_nat n))) _).
  abstract (by intros []).
Defined.

Record ChangeSetProfile := {
  changed_files : list rstr;
  languages : gset Language;
  task_domain : option DomainId;
  risk : option RiskClass;
  involves_dependencies_or_config : bool;
  involves_auth_permissions_scripts_execution : bool;
  involves_ui : bool;
  involves_coverage_or_verification : bool;
  arbitraitor_findings : bool;
}.

Definition ChangeSetProfile_new : ChangeSetProfile := {|
  changed_files := []; languages := ∅; task_domain := None; risk := None;
  involves_dependencies_or_config := false;
  involves_auth_permissions_scripts_execution := false;
  involves_ui := false;
  involves_coverage_or_verification := false;
  arbitraitor_findings := false;
|}.

(** The builder methods, one field each. *)

Definition with_changed_files (p : ChangeSetProfile) (files : list rstr) : ChangeSetProfile :=
  let '(Build_ChangeSetProfile _ la td rk dc au ui cv af) := p in
  Build_ChangeSetProfile files la td rk dc au ui cv af.

Definition with_languages (p : ChangeSetProfile) (ls : list Language) : ChangeSetProfile :=
  let '(Build_ChangeSetProfile cf _ td rk dc au ui cv af) := p in
  Build_ChangeSetProfile cf (list_to_set ls) td rk dc au ui cv af.

Definition with_task_domain (p : ChangeSetProfile) (domain : DomainId) : ChangeSetProfile :=
  let '(Build_ChangeSetProfile cf la _ rk dc au ui cv af) := p in
  Build_ChangeSetProfile cf la (Some domain) rk dc au ui cv af.

Definition with_risk (p : ChangeSetProfile) (r : RiskClass) : ChangeSetProfile :=
  let '(Build_ChangeSetProfile cf la td _ dc au ui cv af) := p in
  Build_ChangeSetProfile cf la td (Some r) dc au ui cv af.

Definition with_dependencies_or_config (p : ChangeSetProfile) (value : bool) : ChangeSetProfile :=
  let '(Build_ChangeSetProfile cf la td rk _ au ui cv af) := p in
  Build_ChangeSetProfile cf la td rk value au ui cv af.

Definition with_auth_permissions_scripts_execution (p : ChangeSetProfile) (value : bool) : ChangeSetProfile :=
  let '(Build_ChangeSetProfile cf la td rk dc _ ui cv af) := p in
  Build_ChangeSetProfile cf la td rk dc value ui cv af.

Definition with_ui (p : ChangeSetProfile) (value : bool) : ChangeSetProfile :=
  let '(Build_ChangeSetProfile cf la td rk dc au _ cv af) := p in
  Build_ChangeSetProfile cf la td rk dc au value cv af.

Definition with_coverage_or_verification (p : ChangeSetProfile) (value : bool) : ChangeSetProfile :=
  let '(Build_ChangeSetProfile cf la td rk dc au ui _ af) := p in
  Build_ChangeSetProfile cf la td rk dc au ui value af.

Definition with_arbitraitor_findings (p : ChangeSetProfile) (value : bool) : ChangeSetProfile :=
  let '(Build_ChangeSetProfile cf la td rk dc au ui cv _) := p in
  Build_ChangeSetProfile cf la td rk dc au ui cv value.

Inductive SelectionReason :=
  | GeneralBaseline | SecurityTriggered | TaskDomainMatch | LanguageMatch
  | CoverageChanged | ArbitraitorFindings | RequiredByConfig | ProjectPolicy.

Record ReviewerSlot := { slot_domain : DomainId; slot_role : rstr; slot_reason : SelectionReason }.

Definition ReviewerSlot_new (domain : DomainId) (reason : SelectionReason) : ReviewerSlot :=
  {| slot_domain := domain; slot_role := ROLE_REVIEWING; slot_reason := reason |}.

Definition with_role (s : ReviewerSlot) (role : rstr) : ReviewerSlot :=
  {| slot_domain := slot_domain s; slot_role := role; slot_reason := slot_reason s |}.

Record ReviewerSet := MkReviewerSet { slots : list ReviewerSlot }.

Definition domains (rs : ReviewerSet) : list DomainId := slot_domain <$> slots rs.
Definition contains_domain (rs : ReviewerSet) (d : DomainId) : bool :=
  existsb (λ s, bool_decide (slot_domain s = d)) (slots rs).
Definition ReviewerSet_len (rs : ReviewerSet) : N := len (slots rs).
Definition ReviewerSet_is_empty (rs : ReviewerSet) : bool := is_empty (slots rs).

Inductive ReviewerSelectionError :=
  | InvalidConfig (e : ReviewLoopConfigError)
  | ConfigUnsatisfiable (required max_reviewers : N).

Definition has_domain (ss : list ReviewerSlot) (d : DomainId) : bool :=
  existsb (λ s, bool_decide (slot_domain s = d)) ss.

Definition push_slot (ss : list ReviewerSlot) (domain : DomainId) (reason : SelectionReason)
    : list ReviewerSlot :=
  if negb (has_domain ss domain) then ss ++ [ReviewerSlot_new domain reason] else ss.

Definition security_triggered (p : ChangeSetProfile) : bool :=
  involves_auth_permissions_scripts_execution p
  || involves_dependencies_or_config p
  || bool_decide (risk p = Some Risk_Critical)
  || bool_decide (DomainId_as_str <$> task_domain p = Some SECURITY_DOMAIN).

(** Steps 1 to 5: the slots the profile triggers. *)
Definition triggered_slots (p : ChangeSetProfile) : list ReviewerSlot :=
  let ss := push_slot [] (MkDomain GENERAL_DOMAIN) GeneralBaseline in
  let ss := if security_triggered p
            then push_slot ss (MkDomain SECURITY_DOMAIN) SecurityTriggered else ss in
  let ss := if arbitraitor_findings p
            then push_slot ss (MkDomain SECURITY_DOMAIN) ArbitraitorFindings else ss in
  let ss := match task_domain p with
            | Some domain => push_slot ss domain TaskDomainMatch
            | None => ss
            end in
  if involves_coverage_or_verification p
  then push_slot ss (MkDomain TESTING_DOMAIN) CoverageChanged else ss.

(** Step 6: the required domains that are missing, in [BTreeSet] order. *)
Definition add_required (ss : list ReviewerSlot) (required : list DomainId) : list ReviewerSlot :=
  let required_missing : gset DomainId :=
    list_to_set (List.filter (λ d, negb (has_domain ss d)) required) in
  foldl (λ ss d, push_slot ss d RequiredByConfig) ss (bs_iter required_missing).

(** [slots.retain(..)], with the counter the closure captures. *)
Fixpoint retain_slots (required_set : gset DomainId) (optional_budget used_optional : N)
    (ss : list ReviewerSlot) : list ReviewerSlot :=
  match ss with
  | [] => []
  | s :: ss =>
      if bool_decide (slot_domain s ∈ required_set)
      then s :: retain_slots required_set optional_budget used_optional ss
      else if used_optional <? optional_budget
      then s :: retain_slots required_set optional_budget (used_optional + 1) ss
      else retain_slots required_set optional_budget used_optional ss
  end.

Definition select_reviewers (p : ChangeSetProfile) (c : ReviewLoopConfig)
    : outcome (result ReviewerSet ReviewerSelectionError) :=
  match ReviewLoopConfig_validate c with
  | Err e => Done (Err (InvalidConfig e))
  | Ok _ =>
      let required := len (cfg_required_reviewer_domains c) in
      if max_reviewers c <? required
      then Done (Err (ConfigUnsatisfiable required (max_reviewers c))) else
      let ss := add_required (triggered_slots p) (cfg_required_reviewer_domains c) in
      let max := max_reviewers c in
      if max <? len ss then
        let required_set : gset DomainId := list_to_set (cfg_required_reviewer_domains c) in
        match checked_sub max (N.of_nat (size required_set)) with
        | None => Panic
        | Some optional_budget => Done (Ok (MkReviewerSet (retain_slots required_set optional_budget 0 ss)))
        end
      else Done (Ok (MkReviewerSet ss))
  end.

(** ** Slots *)

Abbreviation doms ss := (slot_domain <$> ss) (only parsing).

Lemma has_domain_spec ss d : has_domain ss d = true ↔ d ∈ doms ss.
Proof.
  unfold has_domain. rw existsb_true list_elem_of_fmap. split.
  - intros (s & ? & ?). bool_simpl. by exists s.
  - intros (s & -> & ?). exists s. split; [done|]. by apply bool_decide_eq_true.
Qed.

Lemma has_domain_false ss d : has_domain ss d = false ↔ d ∉ doms ss.
Proof. rw -has_domain_spec. by destruct (has_domain ss d). Qed.

Lemma elem_of_push_slot ss d r d' : d' ∈ doms (push_slot ss d r) ↔ d' = d ∨ d' ∈ doms ss.
Proof.
  unfold push_slot. destruct (has_domain ss d) eqn:E; simpl.
  - apply has_domain_spec in E. set_solver.
  - rw fmap_app elem_of_app. set_solver.
Qed.

Lemma push_slot_NoDup ss d r : NoDup (doms ss) → NoDup (doms (push_slot ss d r)).
Proof.
  unfold push_slot. destruct (has_domain ss d) eqn:E; [done|]. apply has_domain_false in E.
  intros Hnd. simpl. rw fmap_app NoDup_app. split_and!; [done| |apply NoDup_singleton]. set_solver.
Qed.

Lemma push_slot_prefix ss d r : ss `prefix_of` push_slot ss d r.
Proof. unfold push_slot. case_match; [by apply prefix_app_r|done]. Qed.

#[export] Hint Resolve push_slot_NoDup push_slot_prefix : orc.

Lemma triggered_slots_NoDup p : NoDup (doms (triggered_slots p)).
Proof.
  assert (NoDup (doms (push_slot [] (MkDomain GENERAL_DOMAIN) GeneralBaseline))) as H0
    by apply NoDup_singleton.
  unfold triggered_slots. repeat case_match; eauto 8 with orc.
Qed.

(** The domains the profile asks for. *)
Definition wanted (p : ChangeSetProfile) (d : DomainId) : Prop :=
  d = MkDomain GENERAL_DOMAIN
  ∨ (security_triggered p = true ∨ arbitraitor_findings p = true) ∧ d = MkDomain SECURITY_DOMAIN
  ∨ task_domain p = Some d
  ∨ involves_coverage_or_verification p = true ∧ d = MkDomain TESTING_DOMAIN.

Lemma elem_of_triggered p d : d ∈ doms (triggered_slots p) ↔ wanted p d.
Proof.
  unfold triggered_slots, wanted.
  destruct (security_triggered p), (arbitraitor_findings p), (task_domain p),
    (involves_coverage_or_verification p);
    rw !elem_of_push_slot elem_of_nil; naive_solver.
Qed.

Lemma triggered_head p :
  ∃ ss, triggered_slots p = ReviewerSlot_new (MkDomain GENERAL_DOMAIN) GeneralBaseline :: ss.
Proof.
  assert (push_slot [] (MkDomain GENERAL_DOMAIN) GeneralBaseline `prefix_of` triggered_slots p)
    as [ss ->]; [|by eexists].
  unfold triggered_slots. repeat case_match;
    repeat (first [reflexivity | etrans; [|apply push_slot_prefix]]).
Qed.

Lemma security_second p :
  security_triggered p = true ∨ arbitraitor_findings p = true →
  ∃ r ss, triggered_slots p = ReviewerSlot_new (MkDomain GENERAL_DOMAIN) GeneralBaseline
                              :: ReviewerSlot_new (MkDomain SECURITY_DOMAIN) r :: ss.
Proof.
  intros H. set (base := push_slot [] (MkDomain GENERAL_DOMAIN) GeneralBaseline).
  assert (∃ r, push_slot base (MkDomain SECURITY_DOMAIN) r `prefix_of` triggered_slots p)
    as (r & ss & ->); [|by eexists _, _].
  unfold triggered_slots. fold base. destruct (security_triggered p).
  - exists SecurityTriggered. repeat case_match;
      repeat (first [reflexivity | etrans; [|apply push_slot_prefix]]).
  - destruct H as [| ->]; [done|]. exists ArbitraitorFindings. repeat case_match;
      repeat (first [reflexivity | etrans; [|apply push_slot_prefix]]).
Qed.

Lemma push_required_fold ss ds :
  NoDup (doms ss) →
  let ss' := foldl (λ ss d, push_slot ss d RequiredByConfig) ss ds in
  NoDup (doms ss') ∧ ss `prefix_of` ss' ∧ ∀ d, d ∈ doms ss' ↔ d ∈ ds ∨ d ∈ doms ss.
Proof.
  revert ss. induction ds as [|d ds IH]; intros ss Hnd; simpl; [naive_solver set_solver|].
  destruct (IH (push_slot ss d RequiredByConfig)) as (? & ? & Hd); [auto with orc|].
  split_and!; [done| |].
  - etrans; [apply push_slot_prefix|done].
  - intros d'. rw Hd elem_of_push_slot elem_of_cons. tauto.
Qed.

Definition candidates (p : ChangeSetProfile) (c : ReviewLoopConfig) : list ReviewerSlot :=
  add_required (triggered_slots p) (cfg_required_reviewer_domains c).

Lemma candidates_NoDup p c : NoDup (doms (candidates p c)).
Proof. apply push_required_fold, triggered_slots_NoDup. Qed.

Lemma candidates_prefix p c : triggered_slots p `prefix_of` candidates p c.
Proof. apply push_required_fold, triggered_slots_NoDup. Qed.

Lemma elem_of_candidates p c d :
  d ∈ doms (candidates p c) ↔ wanted p d ∨ d ∈ cfg_required_reviewer_domains c.
Proof.
  unfold candidates, add_required.
  rw (proj2 (proj2 (push_required_fold _ _ (triggered_slots_NoDup p)))).
  rw elem_of_bs_iter elem_of_list_to_set elem_of_filter_bool negb_true_iff has_domain_false.
  rw -elem_of_triggered. destruct (decide (d ∈ doms (triggered_slots p))); tauto.
Qed.

(** ** Truncation *)

Section retain.
Context (required : gset DomainId) (budget : N).

Definition is_required (s : ReviewerSlot) : bool := bool_decide (slot_domain s ∈ required).

Lemma retain_sublist used ss : retain_slots required budget used ss `sublist_of` ss.
Proof.
  revert used. induction ss as [|s ss IH]; intros used; simpl; [done|].
  repeat case_match; by constructor.
Qed.

Lemma retain_required used ss :
  List.filter is_required (retain_slots required budget used ss) = List.filter is_required ss.
Proof.
  revert used. induction ss as [|s ss IH]; intros used; simpl; [done|].
  fold (is_required s). destruct (is_required s) eqn:E; simpl; [by rw E IH|].
  case_match; simpl; rw ?E; apply IH.
Qed.

Lemma retain_optional used ss :
  List.filter (negb ∘ is_required) (retain_slots required budget used ss)
    = take (N.to_nat (budget - used)) (List.filter (negb ∘ is_required) ss).
Proof.
  revert used. induction ss as [|s ss IH]; intros used; simpl; [by rw take_nil|].
  fold (is_required s). destruct (is_required s) eqn:E; simpl; [by rw E IH|].
  destruct (N.ltb_spec used budget); simpl.
  - rw E /= IH. replace (N.to_nat (budget - used)) with (S (N.to_nat (budget - (used + 1)))) by lia.
    done.
  - rw IH. by replace (N.to_nat (budget - used)) with 0%nat by lia.
Qed.

Lemma count_split ss : len ss = count is_required ss + count (negb ∘ is_required) ss.
Proof.
  induction ss as [|s ss IH]; [done|]. rw len_cons !count_cons IH. simpl.
  destruct (is_required s); simpl; lia.
Qed.

Lemma len_retain used ss :
  len (retain_slots required budget used ss)
    = count is_required ss + N.min (budget - used) (count (negb ∘ is_required) ss).
Proof.
  rw count_split. unfold count. rw retain_required retain_optional. unfold len. rw length_take. lia.
Qed.

Lemma count_required ss :
  NoDup (doms ss) → (∀ d, d ∈ required → d ∈ doms ss) →
  count is_required ss = N.of_nat (size required).
Proof.
  intros Hnd Hin. unfold count, len. f_equal.
  assert (NoDup (doms (List.filter is_required ss))) as Hnd' by by apply NoDup_fmap_filter.
  rw -(length_fmap slot_domain) -(size_list_to_set (C := gset DomainId) _ Hnd'). f_equal.
  apply set_eq. intros d. rw elem_of_list_to_set list_elem_of_fmap.
  setoid_rewrite elem_of_filter_bool. split.
  - intros (s & -> & _ & Hs). by apply bool_decide_eq_true in Hs.
  - intros Hd. destruct (proj1 (list_elem_of_fmap _ _ _) (Hin d Hd)) as (s & -> & Hs).
    exists s. split_and!; [done..|]. by apply bool_decide_eq_true.
Qed.
End retain.

Lemma size_list_to_set_le (l : list DomainId) :
  (size (list_to_set l : gset DomainId) ≤ length l)%nat.
Proof.
  induction l as [|x l IH]; simpl; [done|].
  rw size_union_alt. rw size_singleton.
  assert (size (list_to_set l ∖ {[x]} : gset DomainId) ≤ size (list_to_set l : gset DomainId))%nat;
    [apply subseteq_size; set_solver|lia].
Qed.

(** The slots that are kept, whether or not the candidates fit. *)
Definition kept (p : ChangeSetProfile) (c : ReviewLoopConfig) : list ReviewerSlot :=
  let ss := candidates p c in
  let required_set : gset DomainId := list_to_set (cfg_required_reviewer_domains c) in
  if max_reviewers c <? len ss
  then retain_slots required_set (max_reviewers c - N.of_nat (size required_set)) 0 ss
  else ss.

Lemma required_fits c :
  len (cfg_required_reviewer_domains c) ≤ max_reviewers c →
  N.of_nat (size (list_to_set (cfg_required_reviewer_domains c) : gset DomainId))
    ≤ max_reviewers c.
Proof. pose proof (size_list_to_set_le (cfg_required_reviewer_domains c)). unfold len. lia. Qed.

(** The subtraction of the optional budget cannot underflow. *)
Lemma select_reviewers_ok p c :
  ReviewLoopConfig_validate c = Ok tt → len (cfg_required_reviewer_domains c) ≤ max_reviewers c →
  select_reviewers p c = Done (Ok (MkReviewerSet (kept p c))).
Proof.
  intros Hv Hfit. unfold select_reviewers, kept, candidates. rw Hv.
  destruct (N.ltb_spec (max_reviewers c) (len (cfg_required_reviewer_domains c))); [lia|].
  case_match; [|done]. apply required_fits in Hfit.
  by rw (proj2 (checked_sub_spec _ _ _) (conj Hfit eq_refl)).
Qed.

Lemma count_required_candidates p c :
  let req := list_to_set (cfg_required_reviewer_domains c) : gset DomainId in
  count (is_required req) (candidates p c) = N.of_nat (size req).
Proof.
  apply count_required; [apply candidates_NoDup|]. intros d Hd. apply elem_of_candidates.
  right. by apply elem_of_list_to_set in Hd.
Qed.

Lemma len_kept p c :
  len (cfg_required_reviewer_domains c) ≤ max_reviewers c →
  len (kept p c) = N.min (max_reviewers c) (len (candidates p c)).
Proof.
  intros Hfit%required_fits. pose proof (count_required_candidates p c) as Hreq. simpl in Hreq.
  unfold kept. case_match eqn:E; bool_simpl; [|lia].
  set (req := list_to_set _ : gset DomainId) in *.
  rw len_retain. pose proof (count_split req (candidates p c)). lia.
Qed.

Lemma kept_filters p c :
  len (cfg_required_reviewer_domains c) ≤ max_reviewers c →
  let req := list_to_set (cfg_required_reviewer_domains c) : gset DomainId in
  List.filter (is_required req) (kept p c) = List.filter (is_required req) (candidates p c)
  ∧ List.filter (negb ∘ is_required req) (kept p c)
    = take (N.to_nat (max_reviewers c - N.of_nat (size req)))
        (List.filter (negb ∘ is_required req) (candidates p c)).
Proof.
  intros Hfit req. unfold kept. fold req. case_match eqn:E; bool_simpl.
  - by rw retain_required retain_optional N.sub_0_r.
  - split; [done|]. rw take_ge //. pose proof (count_required_candidates p c) as Hc.
    pose proof (count_split req (candidates p c)). simpl in Hc. fold req in Hc.
    unfold count, len in *. lia.
Qed.

Lemma kept_sublist p c : kept p c `sublist_of` candidates p c.
Proof. unfold kept. case_match; [apply retain_sublist|done]. Qed.

Lemma elem_of_kept_required p c d :
  d ∈ cfg_required_reviewer_domains c → d ∈ doms (kept p c).
Proof.
  intros Hd. assert (d ∈ doms (candidates p c)) as Hc by (apply elem_of_candidates; by right).
  unfold kept. case_match; [|done]. set (req := list_to_set _ : gset DomainId).
  apply list_elem_of_fmap in Hc as (s & -> & Hs). apply list_elem_of_fmap_2.
  assert (s ∈ List.filter (is_required req) (candidates p c)) as Hf.
  { apply elem_of_filter_bool. split; [done|]. apply bool_decide_eq_true.
    by apply elem_of_list_to_set. }
  rw -(retain_required req (max_reviewers c - N.of_nat (size req)) 0) in Hf.
  by apply elem_of_filter_bool in Hf as [? _].
Qed.

Lemma select_reviewers_cases p c :
  select_reviewers p c =
    match ReviewLoopConfig_validate c with
    | Err e => Done (Err (InvalidConfig e))
    | Ok _ => if max_reviewers c <? len (cfg_required_reviewer_domains c)
              then Done (Err (ConfigUnsatisfiable (len (cfg_required_reviewer_domains c))
                                (max_reviewers c)))
              else Done (Ok (MkReviewerSet (kept p c)))
    end.
Proof.
  destruct (ReviewLoopConfig_validate c) as [[]|] eqn:E; [|by rw /select_reviewers E].
  case_match eqn:Hm; bool_simpl; [|by apply select_reviewers_ok].
  unfold select_reviewers. rw E. by rw (proj2 (N.ltb_lt _ _) Hm).
Qed.

(** ** Properties *)

(** Selection never panics and fails exactly on an invalid configuration or
    on more required domains than [max_reviewers]; otherwise the set has every
    required domain, no domain twice, between one and [max_reviewers] slots
    (as many as there are candidates for), all in the priority order of the
    candidates, and each slot is wanted by the profile or required. *)
Theorem select_reviewers_sound p c :
  match select_reviewers p c with
  | Done (Ok rs) =>
      ReviewLoopConfig_validate c = Ok tt
      ∧ len (cfg_required_reviewer_domains c) ≤ max_reviewers c
      ∧ (∀ d, d ∈ cfg_required_reviewer_domains c → contains_domain rs d = true)
      ∧ NoDup (domains rs)
      ∧ 1 ≤ ReviewerSet_len rs ∧ ReviewerSet_len rs = N.min (max_reviewers c) (len (candidates p c))
      ∧ slots rs `sublist_of` candidates p c
      ∧ (∀ d, contains_domain rs d = true → wanted p d ∨ d ∈ cfg_required_reviewer_domains c)
  | Done (Err (InvalidConfig e)) => ReviewLoopConfig_validate c = Err e
  | Done (Err (ConfigUnsatisfiable n m)) =>
      ReviewLoopConfig_validate c = Ok tt
      ∧ n = len (cfg_required_reviewer_domains c) ∧ m = max_reviewers c ∧ m < n
  | Panic | OutOfFuel => False
  end.
Proof.
  rw select_reviewers_cases. destruct (ReviewLoopConfig_validate c) as [[]|] eqn:Hv; [|done].
  destruct (N.ltb_spec (max_reviewers c) (len (cfg_required_reviewer_domains c))) as [|Hfit]; [done|].
  pose proof (kept_sublist p c) as Hsub. pose proof (len_kept p c Hfit) as Hlen.
  unfold ReviewerSet_len, domains. simpl. split_and!; try done.
  - intros d Hd. apply has_domain_spec. by apply elem_of_kept_required.
  - eapply sublist_NoDup; [apply (candidates_NoDup p c)|]. by apply fmap_sublist.
  - rw Hlen. apply ReviewLoopConfig_validate_ok in Hv.
    destruct (triggered_head p) as [ss Hss]. destruct (candidates_prefix p c) as [k ->].
    rw Hss len_app len_cons. lia.
  - intros d Hd%has_domain_spec. apply (elem_of_candidates p c).
    eapply elem_of_sublist; [done|]. by apply fmap_sublist.
Qed.

(** Which slots survive the cap: the required ones all do, and the optional
    ones that do are the first of the priority order, exactly as many as fit
    beside the required domains.  In particular a triggered security reviewer
    is kept whenever two optional slots are left, required or not. *)
Theorem truncation_by_priority p c rs :
  select_reviewers p c = Done (Ok rs) →
  let req := list_to_set (cfg_required_reviewer_domains c) : gset DomainId in
  List.filter (is_required req) (slots rs) = List.filter (is_required req) (candidates p c)
  ∧ List.filter (negb ∘ is_required req) (slots rs)
    = take (N.to_nat (max_reviewers c - N.of_nat (size req)))
        (List.filter (negb ∘ is_required req) (candidates p c))
  ∧ (security_triggered p = true ∨ arbitraitor_findings p = true →
     2 + N.of_nat (size req) ≤ max_reviewers c →
     contains_domain rs (MkDomain SECURITY_DOMAIN) = true).
Proof.
  rw select_reviewers_cases. destruct (ReviewLoopConfig_validate c) as [[]|]; [|done].
  destruct (N.ltb_spec (max_reviewers c) (len (cfg_required_reviewer_domains c))) as [|Hfit]; [done|].
  intros [= <-] req. cbn [slots].
  destruct (kept_filters p c Hfit) as [H1 H2]. fold req in H1, H2.
  split_and!; [done..|]. intros Hsec Hmax. apply has_domain_spec. simpl.
  destruct (security_second p Hsec) as (r & ss & Hss).
  destruct (candidates_prefix p c) as [k Hk]. rw Hss in Hk.
  set (s := ReviewerSlot_new (MkDomain SECURITY_DOMAIN) r) in *.
  assert (s ∈ kept p c) as Hin; [|by apply (list_elem_of_fmap_2 slot_domain) in Hin].
  destruct (is_required req s) eqn:E.
  - assert (s ∈ List.filter (is_required req) (kept p c)) as Hf.
    { rw H1 Hk. apply elem_of_filter_bool. set_solver. }
    by apply elem_of_filter_bool in Hf as [? _].
  - assert (s ∈ List.filter (negb ∘ is_required req) (kept p c)) as Hf.
    { rw H2 Hk. simpl. rw E /=.
      destruct (N.to_nat (max_reviewers c - N.of_nat (size req))) as [|[|n]] eqn:En; [lia..|].
      case_match; simpl; set_solver. }
    by apply elem_of_filter_bool in Hf as [? _].
Qed.

Definition demo_profile : ChangeSetProfile :=
  with_coverage_or_verification
    (with_auth_permissions_scripts_execution
       (with_task_domain (with_changed_files ChangeSetProfile_new [lit "src/lib.rs"])
          (MkDomain (lit "backend"))) true) true.

Definition demo_review_config (max : N) (required : list DomainId) : ReviewLoopConfig := {|
  max_review_loops := 3; max_reviewers := max; cfg_required_reviewer_domains := required;
  minimum_severity_to_block := High; allow_same_model := false;
  require_provider_diversity := false; require_human_review := false;
  stop_when_no_blocking_findings := true |}.

Lemma truncation_by_priority_witness :
  contains_domain
    (MkReviewerSet (kept demo_profile (demo_review_config 3 [MkDomain (lit "docs")])))
    (MkDomain SECURITY_DOMAIN) = true.
Proof.
  apply (truncation_by_priority demo_profile (demo_review_config 3 [MkDomain (lit "docs")])).
  - vm_compute. reflexivity.
  - by left.
  - vm_compute. discriminate.
Defined.
