(* ===== verification/ReviewPipeline.v ===== *)
(** * The change-set review pipeline

    [crates/orchestraitor-delivery/src/review_pipeline.rs]: the loop that
    selects reviewers once, runs review generations through an injected
    executor, records their findings and asks the convergence decision whether
    to go on.

    The executor [&mut dyn FnMut(&ReviewRequest) -> ReviewOutcome] is a function
    of the request and of the state the closure captures, [S]. *)

From S2P Require Import Prelude BTree Metadata ReviewLoop Findings Convergence ReviewerSelection.

Record ReviewOutcome := { oc_head : option rstr; oc_findings : list ReviewFinding }.

Record ReviewRequest := { rq_generation : N; rq_reviewers : ReviewerSet }.

Inductive ReviewFailureReason :=
  | MalformedFinding (detail : rstr)
  | BlankGenerationHead.

Inductive ReviewVerdict :=
  | SkippedEmptyChangeSet
  | StopNoBlockingFindings
  | MaxLoopsBlocked (reason : BlockedReason)
  | Failed (reason : ReviewFailureReason).

Inductive ReviewPipelineEvent :=
  | Triggered (reviewers : ReviewerSet)
  | GenerationStarted (generation : N)
  | GenerationRecorded (generation reported new_findings deduplicated resolved blocking_open : N)
  | ConvergenceEvaluated (generation : N) (verdict : ConvergenceVerdict)
  | Terminated (verdict : ReviewVerdict).

Inductive ReviewPipelineError :=
  | PipelineInvalidConfig (e : ReviewLoopConfigError)
  | Selection (e : ReviewerSelectionError)
  | AlreadyTerminated
  | Convergence (e : ConvergenceError).

(** The [Display] text of a finding error. *)
Definition FindingError_to_string (e : FindingError) : rstr :=
  lit match e with
      | NoAffectedPaths => "finding must name at least one non-blank affected path"
      | BlankRule => "finding must name the violated requirement or rule"
      | BlankEvidence => "finding must carry non-blank evidence"
      | BlankRemediation => "finding must carry a proposed remediation"
      | BlankHead => "reviewed head must be a non-blank identifier"
      end%string.

Record ReviewPipeline := {
  rp_config : ReviewLoopConfig;
  rp_reviewers : option ReviewerSet;
  rp_ledger : FindingLedger;
  rp_journal : list ReviewPipelineEvent;
  rp_verdict : option ReviewVerdict;
}.

Definition ReviewPipeline_new (c : ReviewLoopConfig)
    : outcome (result ReviewPipeline ReviewPipelineError) :=
  match ReviewLoopConfig_validate c with
  | Err e => Done (Err (PipelineInvalidConfig e))
  | Ok _ =>
      let! selected := select_reviewers ChangeSetProfile_new c in
      Done (match selected with
            | Err e => Err (Selection e)
            | Ok _ => Ok {| rp_config := c; rp_reviewers := None; rp_ledger := FindingLedger_new;
                            rp_journal := []; rp_verdict := None |}
            end)
  end.

Definition set_reviewers (rp : ReviewPipeline) (rs : ReviewerSet) : ReviewPipeline :=
  {| rp_config := rp_config rp; rp_reviewers := Some rs; rp_ledger := rp_ledger rp;
     rp_journal := rp_journal rp; rp_verdict := rp_verdict rp |}.

Definition set_ledger (rp : ReviewPipeline) (l : FindingLedger) : ReviewPipeline :=
  {| rp_config := rp_config rp; rp_reviewers := rp_reviewers rp; rp_ledger := l;
     rp_journal := rp_journal rp; rp_verdict := rp_verdict rp |}.

Definition push_event (rp : ReviewPipeline) (ev : ReviewPipelineEvent) : ReviewPipeline :=
  {| rp_config := rp_config rp; rp_reviewers := rp_reviewers rp; rp_ledger := rp_ledger rp;
     rp_journal := rp_journal rp ++ [ev]; rp_verdict := rp_verdict rp |}.

Definition terminate (rp : ReviewPipeline) (v : ReviewVerdict) : ReviewPipeline * ReviewVerdict :=
  let rp := push_event rp (Terminated v) in
  ({| rp_config := rp_config rp; rp_reviewers := rp_reviewers rp; rp_ledger := rp_ledger rp;
      rp_journal := rp_journal rp; rp_verdict := Some v |}, v).

(** [for finding in outcome.findings]: records each finding, collects the keys
    and counts the new ones; stops at the first malformed one. *)
Fixpoint record_findings (l : FindingLedger) (fs : list ReviewFinding) (completed : N)
    (reported : gset FindingId) (new_findings : N)
    : FindingLedger * result (gset FindingId * N) FindingError :=
  match fs with
  | [] => (l, Ok (reported, new_findings))
  | f :: fs =>
      match record l f completed with
      | (l, Ok (i, o)) =>
          record_findings l fs completed ({[i]} ∪ reported)
            (if bool_decide (o = New) then saturating_add usize_max new_findings 1
             else new_findings)
      | (l, Err e) => (l, Err e)
      end
  end.

Definition convergence_input (l : FindingLedger) (c : ReviewLoopConfig) (completed : N)
    (head : option rstr) : ConvergenceInput :=
  let input := ConvergenceInput_new l c completed in
  match head with
  | Some h => with_generation_head input h
  | None => input
  end.

Section executor.
Context {S : Type} (review : ReviewRequest → S → ReviewOutcome * S).

Definition stop (rp : ReviewPipeline) (s : S) (v : ReviewVerdict)
    : outcome (ReviewPipeline * S * option (result ReviewVerdict ReviewPipelineError)) :=
  let '(rp, v) := terminate rp v in Done (rp, s, Some (Ok v)).

(** The second half of an iteration, once the head is noted: the findings are
    recorded, the generation is closed and the decision is taken.  [None]
    continues with the next generation. *)
Definition record_generation (rp : ReviewPipeline) (generation : N) (oc : ReviewOutcome) (s : S)
    : outcome (ReviewPipeline * S * option (result ReviewVerdict ReviewPipelineError)) :=
  let completed := saturating_add u32_max generation 1 in
  let reported_count := len (oc_findings oc) in
  let '(l, recorded) := record_findings (rp_ledger rp) (oc_findings oc) completed ∅ 0 in
  let rp := set_ledger rp l in
  match recorded with
  | Err e => stop rp s (Failed (MalformedFinding (FindingError_to_string e)))
  | Ok (reported, new_findings) =>
      let '(l, resolved) := resolve_unreported (rp_ledger rp) reported in
      let rp := set_ledger rp l in
      let blocking_open :=
        blocking_open_count (rp_ledger rp) (minimum_severity_to_block (rp_config rp)) in
      match checked_sub reported_count new_findings with
      | None => Panic
      | Some deduplicated =>
          let rp := push_event rp (GenerationRecorded generation reported_count new_findings
                                     deduplicated resolved blocking_open) in
          let input := convergence_input (rp_ledger rp) (rp_config rp) completed (oc_head oc) in
          match ConvergenceInput_validate input with
          | Err e => Done (rp, s, Some (Err (Convergence e)))
          | Ok _ =>
              let verdict := evaluate input in
              let rp := push_event rp (ConvergenceEvaluated generation verdict) in
              match verdict with
              | Converged => stop rp s StopNoBlockingFindings
              | Blocked reason => stop rp s (MaxLoopsBlocked reason)
              | Continue _ => Done (rp, s, None)
              end
          end
      end
  end.

(** One iteration of the [loop]. *)
Definition run_generation (rp : ReviewPipeline) (reviewers : ReviewerSet) (generation : N) (s : S)
    : outcome (ReviewPipeline * S * option (result ReviewVerdict ReviewPipelineError)) :=
  let rp := push_event rp (GenerationStarted generation) in
  let '(oc, s) := review {| rq_generation := generation; rq_reviewers := reviewers |} s in
  let '(l, noted) := match oc_head oc with
                     | Some head => note_head (rp_ledger rp) head
                     | None => (rp_ledger rp, Ok tt)
                     end in
  let rp := set_ledger rp l in
  match noted with
  | Err _ => stop rp s (Failed BlankGenerationHead)
  | Ok _ => record_generation rp generation oc s
  end.

Fixpoint run_generations (fuel : nat) (rp : ReviewPipeline) (reviewers : ReviewerSet)
    (generation : N) (s : S)
    : outcome (ReviewPipeline * S * result ReviewVerdict ReviewPipelineError) :=
  match fuel with
  | O => OutOfFuel
  | Datatypes.S fuel =>
      let! (rp, s, r) := run_generation rp reviewers generation s in
      match r with
      | Some r => Done (rp, s, r)
      | None => run_generations fuel rp reviewers (saturating_add u32_max generation 1) s
      end
  end.

Definition trigger (rp : ReviewPipeline) (change_set : ChangeSetProfile) (s : S)
    : outcome (ReviewPipeline * S * result ReviewVerdict ReviewPipelineError) :=
  if bool_decide (is_Some (rp_verdict rp)) then Done (rp, s, Err AlreadyTerminated) else
  if is_empty (changed_files change_set)
  then let '(rp, v) := terminate rp SkippedEmptyChangeSet in Done (rp, s, Ok v) else
  let! selected := select_reviewers change_set (rp_config rp) in
  match selected with
  | Err e => Done (rp, s, Err (Selection e))
  | Ok reviewers =>
      let rp := push_event (set_reviewers rp reviewers) (Triggered reviewers) in
      run_generations (N.to_nat DEFAULT_HARD_LOOP_CEILING) rp reviewers 0 s
  end.
End executor.

(** ** Recording the findings of a generation *)

Definition keys (fs : list ReviewFinding) : gset FindingId :=
  list_to_set (omap (λ f, match FindingId_of f with Ok i => Some i | Err _ => None end) fs).

Lemma elem_of_keys fs i : i ∈ keys fs ↔ ∃ f, f ∈ fs ∧ FindingId_of f = Ok i.
Proof.
  unfold keys. rw elem_of_list_to_set list_elem_of_omap.
  split; intros (f & ? & Hf); exists f; split; [done| |done|by rw Hf].
  by destruct (FindingId_of f); simplify_eq.
Qed.

Lemma record_ok_inv l f n l' i o :
  record l f n = (l', Ok (i, o)) →
  FindingId_of f = Ok i ∧ (record l f n).1 = l' ∧
  N.of_nat (size (entries l')) = N.of_nat (size (entries l)) + (if bool_decide (o = New) then 1 else 0).
Proof.
  unfold record. destruct (FindingId_of f) as [j|] eqn:Ef; [|done].
  destruct (entries l !! j) as [e|] eqn:Ej; intros [= <- <- <-]; simpl.
  - split_and!; [done..|]. rw map_size_insert_Some; [|by rw Ej].
    by destruct (bool_decide (status e = Resolved)); simpl; rw N.add_0_r.
  - split_and!; [done..|]. rw map_size_insert_None //. lia.
Qed.

Lemma record_err_inv l f n l' e : record l f n = (l', Err e) → FindingId_of f = Err e ∧ l' = l.
Proof.
  unfold record. destruct (FindingId_of f) eqn:Ef; [by case_match|]. by intros [= <- <-].
Qed.

(** What the loop leaves behind, whether or not it stops early. *)
Record recorded_ledger (l l' : FindingLedger) (reported : gset FindingId) : Prop := {
  rl_head : current_head l' = current_head l;
  rl_wf : ledger_wf l → ledger_wf l';
  rl_other i : i ∉ reported → entries l' !! i = entries l !! i;
  rl_reported i : i ∈ reported →
    ∃ e, entries l' !! i = Some e ∧ status e = Open ∧ stale e = false;
}.

Lemma recorded_ledger_refl l : recorded_ledger l l ∅.
Proof. split; set_solver. Qed.

Lemma recorded_ledger_record l0 l f n reported i :
  recorded_ledger l0 l reported → FindingId_of f = Ok i →
  recorded_ledger l0 (record l f n).1 ({[i]} ∪ reported).
Proof.
  intros [Hh Hw Ho Hr] Hf. split.
  - by rw record_head.
  - intros. auto with orc.
  - intros j Hj. rw record_lookup bool_decide_false; [apply Ho; set_solver|].
    intros Hj'. assert (i = j) by congruence. set_solver.
  - intros j Hj. rw record_lookup. case_bool_decide as Hj'.
    + eexists. split; [done|]. by destruct (entries l !! j).
    + apply Hr. assert (i ≠ j) by congruence. set_solver.
Qed.

Lemma record_findings_spec l0 l fs n reported new :
  recorded_ledger l0 l reported →
  match record_findings l fs n reported new with
  | (l', Ok (reported', new')) =>
      recorded_ledger l0 l' reported' ∧ reported' = keys fs ∪ reported
      ∧ (∀ f, f ∈ fs → is_Ok (FindingId_of f))
      ∧ new' ≤ new + len fs
      ∧ (new + len fs ≤ usize_max →
         N.of_nat (size (entries l')) + new = N.of_nat (size (entries l)) + new')
  | (l', Err e) => (ledger_wf l0 → ledger_wf l') ∧ ∃ f, f ∈ fs ∧ FindingId_of f = Err e
  end.
Proof.
  revert l reported new. induction fs as [|f fs IH]; intros l reported new Hl.
  { simpl. split_and!; [done|set_solver|set_solver|lia|lia]. }
  simpl. destruct (record l f n) as [l1 [[i o]|e]] eqn:E.
  - apply record_ok_inv in E as (Hf & <- & Hsz).
    specialize (IH _ _ (if bool_decide (o = New) then saturating_add usize_max new 1 else new)
                  (recorded_ledger_record l0 l f n reported i Hl Hf)).
    assert (keys (f :: fs) = {[i]} ∪ keys fs) as Hk.
    { unfold keys. simpl. by rw Hf. }
    destruct (record_findings _ fs n _ _) as [l' [[rep' new']|e]].
    + destruct IH as (? & -> & Hok & Hnew & Hcnt). unfold saturating_add in *.
      split_and!; [done|rw Hk; set_solver| | |].
      * intros g [->|]%elem_of_cons; [by exists i|auto].
      * rw len_cons; case_bool_decide; lia.
      * rw len_cons; case_bool_decide; lia.
    + destruct IH as (? & g & ? & ?). split; [done|]. exists g. set_solver.
  - apply record_err_inv in E as [? ->]. split; [apply Hl|]. exists f. set_solver.
Qed.

(** A completed generation: exactly the reported findings are open, and all of
    them are confirmed at the current head. *)
Lemma generation_closed l0 l reported :
  recorded_ledger l0 l reported →
  ∀ i e, entries (resolve_unreported l reported).1 !! i = Some e → status e = Open →
    i ∈ reported ∧ stale e = false.
Proof.
  intros Hl i e. rw (proj2 (resolve_unreported_spec l reported)) fmap_Some.
  intros (e0 & He0 & ->). unfold unreported. case_match eqn:E; [done|]. intros Ho.
  rw bool_decide_true // in E. simpl in E. bool_simpl.
  destruct (rl_reported _ _ _ Hl i E) as (e1 & ? & ? & ?). by simplify_eq.
Qed.

(** ** The review process, abstractly

    What the loop does per generation, without the journal bookkeeping: the
    ledger a completed generation leaves, and when the process stops. *)

Record closed_generation (c : ReviewLoopConfig) (l : FindingLedger) (oc : ReviewOutcome)
    (l' : FindingLedger) (new blocking : N) : Prop := {
  cg_wellformed f : f ∈ oc_findings oc → is_Ok (FindingId_of f);
  cg_open i : (∃ e, entries l' !! i = Some e ∧ status e = Open) ↔ i ∈ keys (oc_findings oc);
  cg_fresh i e : entries l' !! i = Some e → status e = Open → stale e = false;
  cg_kept i : is_Some (entries l !! i) → is_Some (entries l' !! i);
  cg_head : current_head l' =
    match oc_head oc with Some h => Some (trim h) | None => current_head l end;
  cg_new : len (oc_findings oc) ≤ usize_max → ledger_len l' = ledger_len l + new;
  cg_dedup : new ≤ len (oc_findings oc);
  cg_blocking : blocking = blocking_open_count l' (minimum_severity_to_block c);
}.

Section process.
Context {S : Type} (review : ReviewRequest → S → ReviewOutcome * S).
Context (c : ReviewLoopConfig) (reviewers : ReviewerSet).

Definition budget_spent (r : BlockedReason) (completed : N) : Prop :=
  match r with
  | MaxReviewLoops => max_review_loops c ≤ completed
  | ReviewBudgetHardCeiling => DEFAULT_HARD_LOOP_CEILING ≤ completed
  end.

Definition recorded_event (g : N) (oc : ReviewOutcome) (new resolved blocking : N)
    : ReviewPipelineEvent :=
  GenerationRecorded g (len (oc_findings oc)) new (len (oc_findings oc) - new) resolved blocking.

Inductive review_loop : N → FindingLedger → S → list ReviewPipelineEvent → FindingLedger → S →
    ReviewVerdict → Prop :=
  | loop_blank_head g l s oc s' h :
      review {| rq_generation := g; rq_reviewers := reviewers |} s = (oc, s') →
      oc_head oc = Some h → blank h = true →
      review_loop g l s
        [GenerationStarted g; Terminated (Failed BlankGenerationHead)] l s'
        (Failed BlankGenerationHead)
  | loop_malformed g l s oc s' f e l' :
      review {| rq_generation := g; rq_reviewers := reviewers |} s = (oc, s') →
      f ∈ oc_findings oc → FindingId_of f = Err e → ledger_wf l' →
      review_loop g l s
        [GenerationStarted g;
         Terminated (Failed (MalformedFinding (FindingError_to_string e)))] l' s'
        (Failed (MalformedFinding (FindingError_to_string e)))
  | loop_converged g l s oc s' l' new resolved :
      review {| rq_generation := g; rq_reviewers := reviewers |} s = (oc, s') →
      closed_generation c l oc l' new 0 →
      stop_when_no_blocking_findings c = true →
      review_loop g l s
        [GenerationStarted g; recorded_event g oc new resolved 0;
         ConvergenceEvaluated g Converged; Terminated StopNoBlockingFindings] l' s'
        StopNoBlockingFindings
  | loop_blocked g l s oc s' l' new resolved blocking r :
      review {| rq_generation := g; rq_reviewers := reviewers |} s = (oc, s') →
      closed_generation c l oc l' new blocking →
      0 < blocking ∨ stop_when_no_blocking_findings c = false →
      budget_spent r (g + 1) →
      review_loop g l s
        [GenerationStarted g; recorded_event g oc new resolved blocking;
         ConvergenceEvaluated g (Blocked r); Terminated (MaxLoopsBlocked r)] l' s'
        (MaxLoopsBlocked r)
  | loop_next g l s oc s' l' new resolved blocking evs l'' s'' v :
      review {| rq_generation := g; rq_reviewers := reviewers |} s = (oc, s') →
      closed_generation c l oc l' new blocking →
      0 < blocking ∨ stop_when_no_blocking_findings c = false →
      g + 1 < max_review_loops c → g + 1 < DEFAULT_HARD_LOOP_CEILING →
      review_loop (g + 1) l' s' evs l'' s'' v →
      review_loop g l s
        (GenerationStarted g :: recorded_event g oc new resolved blocking
         :: ConvergenceEvaluated g (Continue (g + 2)) :: evs) l'' s'' v.

(** One iteration as a choice of the process rules. *)
Inductive generation_step (rp : ReviewPipeline) (g : N) (s : S)
    : ReviewPipeline → S → option (result ReviewVerdict ReviewPipelineError) → Prop :=
  | step_stop rp' s' evs v :
      review_loop g (rp_ledger rp) s evs (rp_ledger rp') s' v →
      rp_journal rp' = rp_journal rp ++ evs → rp_config rp' = c →
      rp_reviewers rp' = rp_reviewers rp → rp_verdict rp' = Some v →
      generation_step rp g s rp' s' (Some (Ok v))
  | step_next rp' s' oc new resolved blocking :
      review {| rq_generation := g; rq_reviewers := reviewers |} s = (oc, s') →
      closed_generation c (rp_ledger rp) oc (rp_ledger rp') new blocking →
      0 < blocking ∨ stop_when_no_blocking_findings c = false →
      g + 1 < max_review_loops c → g + 1 < DEFAULT_HARD_LOOP_CEILING →
      ledger_wf (rp_ledger rp') →
      rp_journal rp' = rp_journal rp ++
        [GenerationStarted g; recorded_event g oc new resolved blocking;
         ConvergenceEvaluated g (Continue (g + 2))] →
      rp_config rp' = c → rp_reviewers rp' = rp_reviewers rp → rp_verdict rp' = rp_verdict rp →
      generation_step rp g s rp' s' None.
End process.

(** ** The code refines the process *)

Lemma same_keys_len (l l' : FindingLedger) :
  (∀ i, is_Some (entries l' !! i) ↔ is_Some (entries l !! i)) → ledger_len l' = ledger_len l.
Proof.
  intros H. unfold ledger_len. rw -!size_dom. do 2 f_equal. apply set_eq. intros i.
  by rw !elem_of_dom.
Qed.

Lemma note_head_keys l h i :
  is_Some (entries (note_head l h).1 !! i) ↔ is_Some (entries l !! i).
Proof. rw note_head_lookup. case_match; [done|]. by rw fmap_is_Some. Qed.

Lemma resolve_keys l r i :
  is_Some (entries (resolve_unreported l r).1 !! i) ↔ is_Some (entries l !! i).
Proof. by rw (proj2 (resolve_unreported_spec l r)) fmap_is_Some. Qed.

Lemma note_head_result l h : (note_head l h).2 = if blank h then Err BlankHead else Ok tt.
Proof.
  unfold note_head, blank. destruct (is_empty (trim h)); [done|]. by case_bool_decide.
Qed.

(** The ledger after the head of a generation was noted. *)
Definition noted (l : FindingLedger) (oc : ReviewOutcome) : FindingLedger :=
  match oc_head oc with Some h => (note_head l h).1 | None => l end.

Definition head_ok (oc : ReviewOutcome) : Prop := ∀ h, oc_head oc = Some h → blank h = false.

Lemma noted_wf l oc : ledger_wf l → ledger_wf (noted l oc).
Proof. unfold noted. case_match; auto with orc. Qed.

Lemma close_generation c l oc n l2 rep new :
  ledger_wf l → head_ok oc →
  record_findings (noted l oc) (oc_findings oc) n ∅ 0 = (l2, Ok (rep, new)) →
  let l3 := (resolve_unreported l2 rep).1 in
  closed_generation c l oc l3 new (blocking_open_count l3 (minimum_severity_to_block c))
  ∧ ledger_wf l3.
Proof.
  intros Hw Hh Hrec.
  pose proof (record_findings_spec (noted l oc) (noted l oc) (oc_findings oc) n ∅ 0
                (recorded_ledger_refl _)) as H. rw Hrec in H.
  destruct H as (Hl2 & -> & Hok & Hnew & Hcnt). rw (right_id_L ∅ (∪)) in Hl2 *. intros l3.
  assert (∀ i, is_Some (entries (noted l oc) !! i) ↔ is_Some (entries l !! i)) as Hkeys.
  { intros i. unfold noted. case_match; [apply note_head_keys|done]. }
  split; [split|by apply resolve_unreported_wf, Hl2, noted_wf].
  - done.
  - intros i. split; [intros (e & He & Ho); by eapply generation_closed|].
    intros Hi. destruct (rl_reported _ _ _ Hl2 i Hi) as (e & He & Ho & _).
    exists e. unfold l3. rw (proj2 (resolve_unreported_spec l2 _)) He /=. split; [|done].
    unfold unreported. by rw (bool_decide_true (i ∈ _)) // andb_false_r.
  - intros i e He Ho. by eapply generation_closed.
  - intros i Hi. apply resolve_keys.
    destruct (decide (i ∈ keys (oc_findings oc))) as [Hin|Hout].
    + by destruct (rl_reported _ _ _ Hl2 i Hin) as (e & -> & _).
    + rw (rl_other _ _ _ Hl2 i Hout). by apply Hkeys.
  - unfold l3. rw resolve_unreported_head (rl_head _ _ _ Hl2). unfold noted.
    destruct (oc_head oc) as [h|] eqn:E; [|done]. rw note_head_head.
    specialize (Hh h E). unfold blank in Hh. by rw Hh.
  - intros Hlen. unfold l3. rw (same_keys_len _ _ (resolve_keys l2 _)).
    rw -(same_keys_len _ _ Hkeys). unfold ledger_len. lia.
  - lia.
  - done.
Qed.

Lemma convergence_input_valid l c n head :
  ReviewLoopConfig_validate c = Ok tt → 1 ≤ n → (∀ h, head = Some h → blank h = false) →
  ConvergenceInput_validate (convergence_input l c n head) = Ok tt.
Proof.
  intros Hc Hn Hh. apply validate_input_ok. unfold convergence_input.
  destruct head as [h|]; simpl; by split_and!.
Qed.

(** After a closed generation no finding is stale, so convergence is decided by
    the blocking count alone. *)
Lemma converged_after_generation c l oc l' new blocking n :
  closed_generation c l oc l' new blocking → 1 ≤ n →
  evaluate (convergence_input l' c n (oc_head oc)) = Converged ↔
    blocking = 0 ∧ stop_when_no_blocking_findings c = true.
Proof.
  intros Hg Hn. rw evaluate_converged ledger_clean_iff len_blocking_findings.
  assert (stale_blocking_count (convergence_input l' c n (oc_head oc)) = 0) as ->.
  { apply count_0. intros e [i He]%elem_of_ledger_entries. unfold stale_blocks.
    assert (entries l' !! i = Some e) as He' by by destruct (oc_head oc).
    case_bool_decide as Ho; [|done]. by rw (cg_fresh _ _ _ _ _ _ Hg i e He' Ho). }
  assert (confirmed (convergence_input l' c n (oc_head oc))) as Hconf.
  { intros h Hh. pose proof (cg_head _ _ _ _ _ _ Hg) as Hhead. unfold convergence_input in *.
    destruct (oc_head oc); simpl in *; simplify_eq; done. }
  rw (cg_blocking _ _ _ _ _ _ Hg). unfold convergence_input in *.
  destruct (oc_head oc); simpl in *; tauto.
Qed.

(** Generations stay below the ceiling, far from the saturation point. *)
Lemma small_add g : g < DEFAULT_HARD_LOOP_CEILING → saturating_add u32_max g 1 = g + 1.
Proof. unfold saturating_add, u32_max, DEFAULT_HARD_LOOP_CEILING. lia. Qed.

Section refinement.
Context {S : Type} (review : ReviewRequest → S → ReviewOutcome * S).

Lemma record_generation_refines rp reviewers g s oc s' :
  ReviewLoopConfig_validate (rp_config rp) = Ok tt → ledger_wf (rp_ledger rp) →
  g < DEFAULT_HARD_LOOP_CEILING → head_ok oc →
  review {| rq_generation := g; rq_reviewers := reviewers |} s = (oc, s') →
  ∃ rp' s'' r,
    record_generation (set_ledger (push_event rp (GenerationStarted g)) (noted (rp_ledger rp) oc))
      g oc s' = Done (rp', s'', r)
    ∧ generation_step review (rp_config rp) reviewers rp g s rp' s'' r.
Proof.
  intros Hc Hw Hg Hh Er. unfold record_generation. simpl.
  rw small_add //.
  destruct (record_findings _ _ _ _ _) as [l2 [[rep new]|e]] eqn:Hrec.
  - destruct (close_generation (rp_config rp) _ _ _ _ _ _ Hw Hh Hrec) as [Hclosed Hw3].
    destruct (resolve_unreported l2 rep) as [l3 resolved]. simpl in *.
    set (blocking := blocking_open_count l3 _) in *.
    rw (proj2 (checked_sub_spec _ _ _) (conj (cg_dedup _ _ _ _ _ _ Hclosed) eq_refl)).
    rw convergence_input_valid //; [|lia].
    pose proof (converged_after_generation _ _ _ _ _ _ (g + 1) Hclosed ltac:(lia)) as Hconv.
    set (input := convergence_input l3 (rp_config rp) (g + 1) (oc_head oc)) in *.
    assert (ci_config input = rp_config rp ∧ completed_loop input = g + 1
            ∧ hard_loop_ceiling input = DEFAULT_HARD_LOOP_CEILING) as (Ec & En & Eh).
    { unfold input, convergence_input. by destruct (oc_head oc). }
    assert (evaluate input ≠ Converged →
      0 < blocking ∨ stop_when_no_blocking_findings (rp_config rp) = false) as Hnot.
    { intros Hne. destruct (decide (blocking = 0)); [right|left; lia].
      apply not_true_iff_false. tauto. }
    destruct (evaluate input) as [|k|r] eqn:Ev; eexists _, _, _; (split; [reflexivity|]).
    + destruct (proj1 Hconv eq_refl) as [Hb Hs]. rw Hb in Hclosed *.
      eapply step_stop; [by eapply loop_converged|..]; try done. simpl. by rw -!app_assoc.
    + apply evaluate_continue in Ev as (-> & Hm & Hd). rw Ec ?En ?Eh in Hm Hd *.
      eapply (step_next _ _ _ _ _ _ _ _ oc); try done; [by apply Hnot|]. simpl.
      by rw -!app_assoc small_add // -N.add_assoc.
    + apply evaluate_blocked in Ev. rw Ec ?En ?Eh in Ev *.
      eapply step_stop; [eapply loop_blocked; [done|done|by apply Hnot|]|..]; try done.
      simpl. by rw -!app_assoc.
  - pose proof (record_findings_spec _ _ (oc_findings oc) (g + 1) ∅ 0
                  (recorded_ledger_refl (noted (rp_ledger rp) oc))) as H. rw Hrec in H.
    destruct H as (Hw' & f & Hf & He). eexists _, _, _. split; [done|].
    eapply step_stop; [eapply loop_malformed; [done..|]|..]; try done.
    + by apply Hw', noted_wf.
    + simpl. by rw -app_assoc.
Qed.

(** One iteration, from a well-formed pipeline inside both budgets. *)
Lemma run_generation_refines rp reviewers g s :
  ReviewLoopConfig_validate (rp_config rp) = Ok tt → ledger_wf (rp_ledger rp) →
  g < DEFAULT_HARD_LOOP_CEILING →
  ∃ rp' s' r, run_generation review rp reviewers g s = Done (rp', s', r) ∧
    generation_step review (rp_config rp) reviewers rp g s rp' s' r.
Proof.
  intros Hc Hw Hg. unfold run_generation.
  destruct (review _ s) as [oc s'] eqn:Er.
  assert ((∃ h, oc_head oc = Some h ∧ blank h = true) ∨ head_ok oc) as [(h & Eh & Hb)|Hh].
  { unfold head_ok. destruct (oc_head oc) as [h|] eqn:Eh; [|by right].
    destruct (blank h) eqn:Hb; [left; by exists h|right; naive_solver]. }
  - rw Eh. pose proof (note_head_result (rp_ledger rp) h) as Hn. rw Hb in Hn. simpl.
    destruct (note_head (rp_ledger rp) h) as [l' n] eqn:En. simpl in Hn. subst n.
    assert (l' = rp_ledger rp) as ->.
    { unfold note_head in En. unfold blank in Hb. rw Hb in En. by simplify_eq. }
    eexists _, _, _. split; [done|]. eapply step_stop; [by eapply loop_blank_head|..]; try done.
    simpl. by rw -app_assoc.
  - cbn [rp_ledger push_event].
    assert (match oc_head oc with Some head => note_head (rp_ledger rp) head
              | None => (rp_ledger rp, Ok tt) end = (noted (rp_ledger rp) oc, Ok tt)) as ->.
    { unfold noted. destruct (oc_head oc) as [h|] eqn:Eh; [|done].
      pose proof (note_head_result (rp_ledger rp) h) as Hn. rw (Hh h Eh) in Hn.
      destruct (note_head _ h); simpl in *; by subst. }
    by apply record_generation_refines.
Qed.

(** The whole loop, with as much fuel as generations are left to the ceiling. *)
Lemma run_generations_refines fuel rp reviewers g s :
  ReviewLoopConfig_validate (rp_config rp) = Ok tt → ledger_wf (rp_ledger rp) →
  g < DEFAULT_HARD_LOOP_CEILING → DEFAULT_HARD_LOOP_CEILING ≤ g + N.of_nat fuel →
  ∃ rp' s' v evs, run_generations review fuel rp reviewers g s = Done (rp', s', Ok v)
    ∧ review_loop review (rp_config rp) reviewers g (rp_ledger rp) s evs (rp_ledger rp') s' v
    ∧ rp_journal rp' = rp_journal rp ++ evs ∧ rp_config rp' = rp_config rp
    ∧ rp_reviewers rp' = rp_reviewers rp ∧ rp_verdict rp' = Some v.
Proof.
  revert rp g s. induction fuel as [|fuel IH]; intros rp g s Hc Hw Hg Hf; [lia|]. simpl.
  destruct (run_generation_refines rp reviewers g s Hc Hw Hg) as (rp1 & s1 & r & -> & Hstep).
  inversion Hstep as [? ? evs v|]; subst; simpl; [by exists rp1, s1, v, evs|].
  rw small_add //.
  destruct (IH rp1 (g + 1) s1) as (rp2 & s2 & v & evs & -> & Hl & Hj & Hcfg & Hr & Hv);
    [congruence|done|done|lia|].
  eexists rp2, s2, v, _. split_and!; [done| | |congruence|congruence|done].
  - eapply loop_next; [done..|]. by rename select (rp_config rp1 = _) into Ec; rw Ec in Hl.
  - rw Hj. rename select (rp_journal rp1 = _) into Ej. by rw Ej -app_assoc.
Qed.
End refinement.

Lemma ReviewPipeline_new_inv c rp :
  ReviewPipeline_new c = Done (Ok rp) →
  ReviewLoopConfig_validate c = Ok tt ∧ len (cfg_required_reviewer_domains c) ≤ max_reviewers c
  ∧ rp = {| rp_config := c; rp_reviewers := None; rp_ledger := FindingLedger_new;
            rp_journal := []; rp_verdict := None |}.
Proof.
  unfold ReviewPipeline_new. destruct (ReviewLoopConfig_validate c) as [[]|] eqn:Hv; [|done].
  rw select_reviewers_cases Hv. case_match eqn:E; [done|]. simpl. bool_simpl. naive_solver.
Qed.

Lemma trigger_run {S} (review : ReviewRequest → S → ReviewOutcome * S) c rp p s :
  ReviewPipeline_new c = Done (Ok rp) → changed_files p ≠ [] →
  ∃ rp' s' v evs, trigger review rp p s = Done (rp', s', Ok v)
    ∧ review_loop review c (MkReviewerSet (kept p c)) 0 FindingLedger_new s evs
        (rp_ledger rp') s' v
    ∧ rp_journal rp' = Triggered (MkReviewerSet (kept p c)) :: evs
    ∧ rp_reviewers rp' = Some (MkReviewerSet (kept p c)) ∧ rp_verdict rp' = Some v.
Proof.
  intros (Hc & Hfit & ->)%ReviewPipeline_new_inv Hne. unfold trigger.
  cbn [rp_verdict rp_config]. rw bool_decide_false; [|by intros [? ?]].
  destruct (is_empty (changed_files p)) eqn:E; [bool_simpl; done|].
  rw select_reviewers_ok //. cbn [outcome_bind]. set (rp1 := push_event _ _).
  destruct (run_generations_refines review (N.to_nat DEFAULT_HARD_LOOP_CEILING) rp1
              (MkReviewerSet (kept p c)) 0 s) as (rp' & s' & v & evs & -> & Hl & Hj & _ & Hr & Hv);
    [done|apply ledger_wf_new|done|done|].
  by exists rp', s', v, evs.
Qed.

(** ** Consequences of the process *)

Section consequences.
Context {S : Type} (review : ReviewRequest → S → ReviewOutcome * S).
Context (c : ReviewLoopConfig) (reviewers : ReviewerSet).

Definition is_started (ev : ReviewPipelineEvent) : bool :=
  match ev with GenerationStarted _ => true | _ => false end.

(** Generations [g], [g + 1], ... are started, one per completed loop. *)
Lemma review_loop_bound g l s evs l' s' v :
  review_loop review c reviewers g l s evs l' s' v →
  g < max_review_loops c → g < DEFAULT_HARD_LOOP_CEILING →
  1 ≤ count is_started evs
  ∧ g + count is_started evs ≤ N.min (max_review_loops c) DEFAULT_HARD_LOOP_CEILING.
Proof.
  induction 1; intros; rw !count_cons ?count_nil; simpl; lia.
Qed.

(** Final ledgers: what a verdict says about the findings. *)
Definition verdict_justified (l : FindingLedger) (v : ReviewVerdict) : Prop :=
  let open_blocker i e :=
    entries l !! i = Some e ∧ status e = Open
    ∧ kle (minimum_severity_to_block c) (max_severity e) in
  match v with
  | StopNoBlockingFindings => ∀ i e, ¬ open_blocker i e
  | MaxLoopsBlocked r =>
      (stop_when_no_blocking_findings c = true → ∃ i e, open_blocker i e ∧ stale e = false)
  | Failed _ => True
  | SkippedEmptyChangeSet => False
  end.

Lemma blocking_count_pos l m :
  0 < blocking_open_count l m →
  ∃ i e, entries l !! i = Some e ∧ status e = Open ∧ kle m (max_severity e) ∧ stale e = false.
Proof.
  intros Hpos. destruct (existsb (entry_blocks m) (ledger_entries l)) eqn:E.
  - apply existsb_true in E as (e & He & Hb). apply elem_of_ledger_entries in He as [i He].
    exists i, e. unfold entry_blocks in Hb. bool_simpl. by rw -Severity_blocks_spec.
  - assert (blocking_open_count l m = 0); [|lia]. by apply count_0, existsb_false.
Qed.

Lemma review_loop_justified g l s evs l' s' v :
  review_loop review c reviewers g l s evs l' s' v → verdict_justified l' v.
Proof.
  induction 1 as [| |g l s oc s' l' new resolved _ Hg _|g l s oc s' l' new resolved b r _ Hg Hb|];
    simpl; try done.
  - intros i e (He & Ho & Hk). pose proof (cg_blocking _ _ _ _ _ _ Hg) as Hb.
    assert (entry_blocks (minimum_severity_to_block c) e = false) as Hf.
    { apply (proj1 (count_0 _ _) (eq_sym Hb)). apply elem_of_ledger_entries. by exists i. }
    unfold entry_blocks in Hf. rw bool_decide_true // (cg_fresh _ _ _ _ _ _ Hg i e He Ho) in Hf.
    apply Severity_blocks_spec in Hk. by rw Hk in Hf.
  - intros Hs. destruct Hb as [Hb|]; [|congruence]. rw (cg_blocking _ _ _ _ _ _ Hg) in Hb.
    apply blocking_count_pos in Hb as (i & e & ? & ? & ? & ?). by exists i, e.
Qed.
End consequences.

(** ** Properties *)

(** C11. Refinement and termination.  Triggered on a non-empty change set, a
    freshly constructed pipeline returns a verdict for every executor: it never
    panics, never exhausts the loop bound and never returns one of the errors
    its documentation calls unreachable.  What it does is a run of the review
    process from generation 0 and an empty ledger; the journal is exactly the
    trigger event followed by the events of that run, and the executor is called
    exactly as the process says. *)
Theorem trigger_refines_process {S} (review : ReviewRequest → S → ReviewOutcome * S) c rp p s :
  ReviewPipeline_new c = Done (Ok rp) → changed_files p ≠ [] →
  ∃ rp' s' rs v evs, trigger review rp p s = Done (rp', s', Ok v)
    ∧ select_reviewers p c = Done (Ok rs)
    ∧ review_loop review c rs 0 FindingLedger_new s evs (rp_ledger rp') s' v
    ∧ rp_journal rp' = Triggered rs :: evs
    ∧ rp_reviewers rp' = Some rs ∧ rp_verdict rp' = Some v.
Proof.
  intros Hnew Hne. destruct (trigger_run review c rp p s Hnew Hne)
    as (rp' & s' & v & evs & Ht & Hl & Hj & Hr & Hv).
  apply ReviewPipeline_new_inv in Hnew as (Hc & Hfit & ->).
  eexists rp', s', _, v, evs. by rw (select_reviewers_ok p c Hc Hfit).
Qed.

(** Never more than [min(max_review_loops, 5)] generations are started, at
    least one is, and the verdict is justified by the final ledger: the loop
    stops without blocking only if no open finding, stale or not, reaches the
    threshold; with early stopping configured it is blocked only if an open,
    confirmed finding does; a non-empty change set is never skipped. *)
Theorem trigger_bounded_and_justified {S} (review : ReviewRequest → S → ReviewOutcome * S)
    c rp p s rp' s' v :
  ReviewPipeline_new c = Done (Ok rp) → changed_files p ≠ [] →
  trigger review rp p s = Done (rp', s', Ok v) →
  1 ≤ count is_started (rp_journal rp')
  ∧ count is_started (rp_journal rp') ≤ N.min (max_review_loops c) DEFAULT_HARD_LOOP_CEILING
  ∧ verdict_justified c (rp_ledger rp') v.
Proof.
  intros Hnew Hne Ht. destruct (trigger_run review c rp p s Hnew Hne)
    as (rp2 & s2 & v2 & evs & Ht2 & Hl & Hj & _).
  rw Ht2 in Ht. injection Ht as -> -> ->. rw Hj count_cons.
  apply ReviewPipeline_new_inv in Hnew as (Hc & _). apply ReviewLoopConfig_validate_ok in Hc.
  pose proof (review_loop_bound _ _ _ _ _ _ _ _ _ _ Hl) as Hb. simpl.
  split_and!; [| |by eapply review_loop_justified]; (destruct Hb; [lia|done|lia]).
Qed.

(** An executor that reports one high-severity finding in its first two
    generations and none afterwards, at a head that moves each time; its state
    counts the calls. *)
Definition demo_review (rq : ReviewRequest) (calls : N) : ReviewOutcome * N :=
  ({| oc_head := Some (lit "h" ++ [48 + rq_generation rq]);
      oc_findings := if rq_generation rq <? 2 then [demo_finding "src/a.rs" High] else [] |},
   calls + 1).

Definition demo_pipeline (c : ReviewLoopConfig) : ReviewPipeline :=
  {| rp_config := c; rp_reviewers := None; rp_ledger := FindingLedger_new;
     rp_journal := []; rp_verdict := None |}.

Lemma trigger_refines_process_witness :
  (∃ rp' s' rs v evs,
     trigger demo_review (demo_pipeline ReviewLoopConfig_default) demo_profile 0
       = Done (rp', s', Ok v)
     ∧ select_reviewers demo_profile ReviewLoopConfig_default = Done (Ok rs)
     ∧ review_loop demo_review ReviewLoopConfig_default rs 0 FindingLedger_new 0 evs
         (rp_ledger rp') s' v
     ∧ rp_journal rp' = Triggered rs :: evs
     ∧ rp_reviewers rp' = Some rs ∧ rp_verdict rp' = Some v)
  ∧ match trigger demo_review (demo_pipeline ReviewLoopConfig_default) demo_profile 0 with
    | Done (_, calls, r) => calls = 3 ∧ r = Ok StopNoBlockingFindings
    | _ => False
    end.
Proof.
  split; [|vm_compute; done].
  apply (trigger_refines_process demo_review ReviewLoopConfig_default
           (demo_pipeline ReviewLoopConfig_default) demo_profile 0).
  - vm_compute. reflexivity.
  - discriminate.
Defined.

Lemma trigger_bounded_and_justified_witness :
  match trigger demo_review (demo_pipeline (demo_review_config 3 [])) demo_profile 0 with
  | Done (rp', _, Ok v) => verdict_justified (demo_review_config 3 []) (rp_ledger rp') v
  | _ => False
  end.
Proof.
  destruct (trigger demo_review (demo_pipeline (demo_review_config 3 [])) demo_profile 0)
    as [[[rp' s'] [v|e]]| |] eqn:E; [|vm_compute in E; discriminate..].
  apply (trigger_bounded_and_justified demo_review (demo_review_config 3 [])
           (demo_pipeline (demo_review_config 3 [])) demo_profile 0 rp' s' v).
  - vm_compute. reflexivity.
  - discriminate.
  - exact E.
Defined.
