(* ===== verification/Failures.v ===== *)
(** * Delivery failures

    [crates/orchestraitor-delivery/src/failures.rs]: failure classes, the
    classification of a failure into the next action, and the append-only
    failure ledger. *)

From S2P Require Import Prelude BTree Metadata.

Definition DEFAULT_RETRY_DELAY_MS : N := 200.

Inductive FailureClass :=
  | TransientProviderOrNetwork | RateLimit | ToolOrProcess | Verification | MergeConflict
  | InvalidAgentOutput | PolicyDenial | ApprovalRequired | NonRetriableConfigOrSecurity.

#[export] Instance FailureClass_eq_dec : EqDecision FailureClass.
Proof. solve_decision. Defined.

Definition FailureClass_rank (c : FailureClass) : N :=
  match c with
  | TransientProviderOrNetwork => 0 | RateLimit => 1 | ToolOrProcess => 2 | Verification => 3
  | MergeConflict => 4 | InvalidAgentOutput => 5 | PolicyDenial => 6 | ApprovalRequired => 7
  | NonRetriableConfigOrSecurity => 8
  end.

#[export] Instance FailureClass_ord : OrdKey FailureClass.
Proof. refine (ord_key_inj FailureClass_rank _). abstract (intros [] []; naive_solver). Defined.

#[export] Instance FailureClass_countable : Countable FailureClass.
Proof.
  refine (inj_countable' FailureClass_rank (λ n, default NonRetriableConfigOrSecurity
    (nth_error [TransientProviderOrNetwork; RateLimit; ToolOrProcess; Verification; MergeConflict;
                InvalidAgentOutput; PolicyDenial; ApprovalRequired] (N.to_nat n))) _).
  abstract (by intros []).
Defined.

Inductive DeliveryPhase := Decompose | Implement | Verify | Review | Remediate.

Record FailureRecord := {
  fr_task : BacklogTaskId;
  fr_attempt : N;
  fr_phase : DeliveryPhase;
  fr_agent : rstr;
  fr_model : rstr;
  fr_provider : rstr;
  fr_class : FailureClass;
  fr_retriable : bool;
  fr_workspace_generation : N;
  fr_evidence : rstr;
  fr_partial_results : bool;
  fr_next_retry_ms : option N;
  fr_correlation_id : rstr;
}.

Inductive RetryDecision :=
  | Retry (delay_ms : N)
  | Hold (retry_after_ms : N)
  | FixRootCause
  | Reprompt (attempt : N)
  | AwaitUser
  | Escalate.

#[export] Instance RetryDecision_eq_dec : EqDecision RetryDecision.
Proof. solve_decision. Defined.

Definition classify (class : FailureClass) (attempt : N) (retry_after_ms : option N)
    (max_reprompt_attempts : N) : RetryDecision :=
  match class with
  | TransientProviderOrNetwork | ToolOrProcess => Retry DEFAULT_RETRY_DELAY_MS
  | RateLimit =>
      match retry_after_ms with
      | Some retry_after_ms => Hold retry_after_ms
      | None => Retry DEFAULT_RETRY_DELAY_MS
      end
  | Verification | MergeConflict => FixRootCause
  | InvalidAgentOutput =>
      if max_reprompt_attempts <=? attempt then Escalate
      else Reprompt (saturating_add u32_max attempt 1)
  | ApprovalRequired => AwaitUser
  | PolicyDenial | NonRetriableConfigOrSecurity => Escalate
  end.

(** ** The ledger *)

Record FailureLedger := MkFailureLedger { fl_records : list FailureRecord }.

Definition FailureLedger_new : FailureLedger := MkFailureLedger [].

Definition FailureLedger_record (l : FailureLedger) (r : FailureRecord) : FailureLedger :=
  MkFailureLedger (fl_records l ++ [r]).

Definition records_for_task (l : FailureLedger) (task : BacklogTaskId) : list FailureRecord :=
  List.filter (λ r, bool_decide (fr_task r = task)) (fl_records l).

Definition count_for_class (l : FailureLedger) (class : FailureClass) : N :=
  count (λ r, bool_decide (fr_class r = class)) (fl_records l).

(** [counts.entry(class).and_modify(|n| n.saturating_add(1)).or_insert(1)]. *)
Definition count_record (counts : gmap FailureClass N) (r : FailureRecord) : gmap FailureClass N :=
  match counts !! fr_class r with
  | Some n => <[fr_class r := saturating_add usize_max n 1]> counts
  | None => <[fr_class r := 1]> counts
  end.

Definition class_counts (l : FailureLedger) : gmap FailureClass N :=
  foldl count_record ∅ (fl_records l).

Definition counts (l : FailureLedger) : list (FailureClass * N) := bt_iter (class_counts l).

Definition retriable_classes (l : FailureLedger) : gset FailureClass :=
  list_to_set (fr_class <$> List.filter fr_retriable (fl_records l)).

Definition FailureLedger_len (l : FailureLedger) : N := len (fl_records l).
Definition FailureLedger_is_empty (l : FailureLedger) : bool := is_empty (fl_records l).

(** ** Lemmas *)

(** The decisions that run the operation again. *)
Definition is_retry (d : RetryDecision) : bool :=
  match d with Retry _ | Hold _ | Reprompt _ => true | _ => false end.

(** The classes that must never be retried as though they were transient. *)
Definition never_blind (c : FailureClass) : bool :=
  match c with
  | Verification | MergeConflict | PolicyDenial | ApprovalRequired
  | NonRetriableConfigOrSecurity => true
  | _ => false
  end.

Lemma count_record_lookup m r c :
  count_record m r !! c =
    if decide (fr_class r = c)
    then Some (match m !! c with Some n => saturating_add usize_max n 1 | None => 1 end)
    else m !! c.
Proof.
  unfold count_record. case_decide as Hc.
  - subst c. case_match; by rw lookup_insert_eq.
  - case_match; by rw lookup_insert_ne.
Qed.

Lemma class_counts_lookup l c :
  FailureLedger_len l ≤ usize_max →
  class_counts l !! c = if count_for_class l c =? 0 then None else Some (count_for_class l c).
Proof.
  unfold FailureLedger_len, class_counts, count_for_class. destruct l as [rs]. simpl.
  induction rs as [|r rs IH] using rev_ind; [done|].
  rw foldl_app len_app /= count_record_lookup count_app count_cons count_nil. intros Hlen.
  change (len [r]) with 1 in Hlen. rw IH; [|lia]. unfold saturating_add.
  assert (count (λ r0, bool_decide (fr_class r0 = c)) rs ≤ len rs).
  { unfold count, len. pose proof (List.filter_length_le (λ r0, bool_decide (fr_class r0 = c)) rs). lia. }
  case_decide; [rw bool_decide_true //|rw bool_decide_false //];
    destruct (N.eqb_spec (count (λ r0, bool_decide (fr_class r0 = c)) rs) 0) as [E|E].
  - by rw E.
  - rw (proj2 (N.eqb_neq _ _)); [f_equal|]; lia.
  - by rw E.
  - rw (proj2 (N.eqb_neq _ _)); [f_equal|]; lia.
Qed.

(** ** Properties *)

(** The failure ledger keeps every failure in arrival order, whatever it
    recorded before; the per-class counts list, in ascending class order and
    without saturation loss, exactly the classes seen with the number of their
    occurrences, and the retriable classes are those of a retriable record. *)
Theorem failure_ledger_accounting l rs :
  let l' := foldl FailureLedger_record l rs in
  fl_records l' = fl_records l ++ rs
  ∧ ascending fst (counts l')
  ∧ (FailureLedger_len l' ≤ usize_max →
     ∀ c n, (c, n) ∈ counts l' ↔ n = count_for_class l' c ∧ 0 < n)
  ∧ ∀ c, c ∈ retriable_classes l' ↔
      ∃ r, r ∈ fl_records l ++ rs ∧ fr_retriable r = true ∧ fr_class r = c.
Proof.
  intros l'. assert (fl_records l' = fl_records l ++ rs) as Hrs.
  { unfold l'. clear l'. revert l. induction rs as [|r rs IH]; intros l; simpl; [by rw app_nil_r|].
    rw IH /= -app_assoc. done. }
  split_and!; [done|apply bt_iter_ascending| |].
  - intros Hlen c n. unfold counts. rw elem_of_bt_iter class_counts_lookup //.
    destruct (N.eqb_spec (count_for_class l' c) 0); split.
    + done.
    + intros [-> ?]. lia.
    + intros [= <-]. split; [done|lia].
    + by intros [-> _].
  - intros c. unfold retriable_classes. rw Hrs elem_of_list_to_set list_elem_of_fmap.
    setoid_rewrite elem_of_filter_bool. naive_solver.
Qed.
