(* ===== verification/RetryRules.v ===== *)
(** * Retry gate and backoff schedule

    [crates/orchestraitor-delivery/src/retry_rules.rs]: the gate that re-asserts
    the classification before a retry runs, and the bounded exponential
    backoff. *)

From S2P Require Import Prelude BTree Metadata Failures.

Definition DEFAULT_BASE_DELAY_MS : N := DEFAULT_RETRY_DELAY_MS.
Definition DEFAULT_MAX_DELAY_MS : N := 10000.

Inductive IdempotencyProof :=
  | CheckpointResume
  | ProvenIdempotent (marker : rstr)
  | EffectsRolledBack (rollback_txn : rstr)
  | Unproven.

#[export] Instance IdempotencyProof_eq_dec : EqDecision IdempotencyProof.
Proof. solve_decision. Defined.

Definition RetryGate_evaluate (class : FailureClass) (proof : IdempotencyProof)
    (decision : RetryDecision) : RetryDecision :=
  if bool_decide (class = PolicyDenial) || bool_decide (class = NonRetriableConfigOrSecurity)
  then Escalate
  else if bool_decide (class = ApprovalRequired) then AwaitUser
  else if bool_decide (class = Verification) || bool_decide (class = MergeConflict)
          || (bool_decide (class = ToolOrProcess) && bool_decide (proof = Unproven))
  then FixRootCause
  else decision.

Inductive RetryScheduleError := ZeroBaseDelay | MaxBelowBase.

Record RetrySchedule := { base_delay_ms : N; max_delay_ms : N; rs_attempt : N }.

Definition RetrySchedule_default : RetrySchedule :=
  {| base_delay_ms := DEFAULT_BASE_DELAY_MS; max_delay_ms := DEFAULT_MAX_DELAY_MS; rs_attempt := 0 |}.

Definition next_delay (s : RetrySchedule) : N :=
  let factor := default u64_max (checked_pow u64_max 2 (rs_attempt s)) in
  N.min (saturating_mul u64_max (base_delay_ms s) factor) (max_delay_ms s).

Definition RetrySchedule_validate (s : RetrySchedule) : result unit RetryScheduleError :=
  if base_delay_ms s =? 0 then Err ZeroBaseDelay else
  if max_delay_ms s <? base_delay_ms s then Err MaxBelowBase else
  Ok tt.

(** The fields are [u64]s. *)
Definition schedule_in_range (s : RetrySchedule) : Prop :=
  base_delay_ms s ≤ u64_max ∧ max_delay_ms s ≤ u64_max.

Lemma next_delay_exact s :
  schedule_in_range s → next_delay s = N.min (base_delay_ms s * 2 ^ rs_attempt s) (max_delay_ms s).
Proof.
  intros [Hb Hm]. unfold next_delay, checked_pow, saturating_mul. simpl.
  destruct (N.leb_spec (2 ^ rs_attempt s) u64_max) as [Hp|Hp]; simpl; [lia|].
  destruct (N.eq_0_gt_0_cases (base_delay_ms s)) as [->|Hpos]; [lia|]. nia.
Qed.

Lemma RetryGate_never_blind class proof decision :
  never_blind class = true → is_retry (RetryGate_evaluate class proof decision) = false.
Proof. by destruct class. Qed.

(** ** Properties *)

(** The gate double-locks the classification: whatever decision and proof it
    is given, a policy denial, an approval requirement, a non-retriable,
    verification or merge failure is never retried and gets the answer the
    classification table names; a tool or process failure without idempotency
    evidence is sent to root-cause analysis; every other decision passes
    through unchanged, so what the classification proposed stays proposed. *)
Theorem retry_gate_decision class proof decision :
  let d := RetryGate_evaluate class proof decision in
  (never_blind class = true →
     is_retry d = false ∧ ∀ attempt after limit, d = classify class attempt after limit)
  ∧ (class = ToolOrProcess → proof = Unproven → d = FixRootCause)
  ∧ (never_blind class = false → ¬ (class = ToolOrProcess ∧ proof = Unproven) → d = decision)
  ∧ (is_retry d = true → d = decision ∧ never_blind class = false).
Proof.
  intros d. unfold d, RetryGate_evaluate. split_and!.
  - by destruct class.
  - by intros -> ->.
  - destruct class; simpl; try done. intros _ Hn. case_bool_decide; [naive_solver|done].
  - destruct class; simpl; try done. by case_bool_decide.
Qed.

(** The proposed delay is [base * 2^attempt] capped at the maximum, with no
    overflow artefact at any attempt number; for a schedule that validates it is
    at least the base, never above the cap and does not decrease with the
    attempt number. *)
Theorem next_delay_bounded_backoff s n :
  schedule_in_range s → RetrySchedule_validate s = Ok tt →
  let at_ k := {| base_delay_ms := base_delay_ms s; max_delay_ms := max_delay_ms s;
                  rs_attempt := k |} in
  next_delay (at_ n) = N.min (base_delay_ms s * 2 ^ n) (max_delay_ms s)
  ∧ base_delay_ms s ≤ next_delay (at_ n) ≤ max_delay_ms s
  ∧ 0 < next_delay (at_ n)
  ∧ ∀ m, n ≤ m → next_delay (at_ n) ≤ next_delay (at_ m).
Proof.
  intros Hr Hv at_. unfold RetrySchedule_validate in Hv. guards_in Hv. bool_simpl.
  assert (∀ k, next_delay (at_ k) = N.min (base_delay_ms s * 2 ^ k) (max_delay_ms s)) as He.
  { intros k. by rw next_delay_exact. }
  rw !He. assert (∀ k, 1 ≤ 2 ^ k) as Hpow.
  { intros k. pose proof (N.pow_nonzero 2 k ltac:(done)). lia. }
  pose proof (Hpow n). split_and!; [done|nia|lia|nia|].
  intros m Hm. rw !He. assert (2 ^ n ≤ 2 ^ m) by (by apply N.pow_le_mono_r). nia.
Qed.

Lemma next_delay_bounded_backoff_witness :
  next_delay {| base_delay_ms := 200; max_delay_ms := 10000; rs_attempt := 4294967295 |} ≤ 10000
  ∧ next_delay {| base_delay_ms := 200; max_delay_ms := 10000; rs_attempt := 3 |} = 1600.
Proof.
  split.
  - apply (next_delay_bounded_backoff RetrySchedule_default 4294967295);
      [split; vm_compute; discriminate|reflexivity].
  - reflexivity.
Defined.
