(* ===== verification/Escalation.v ===== *)
(** * Escalation ladder

    [crates/orchestraitor-delivery/src/escalation.rs]: the ordered ladder a
    repeatedly failing task walks up, and its per-task progress. *)

From S2P Require Import Prelude BTree.

Inductive EscalationStep :=
  | SameAgentFreshContext | AlternateModel | DomainExpert | RevisedPlan | HumanEscalation.

#[export] Instance EscalationStep_eq_dec : EqDecision EscalationStep.
Proof. solve_decision. Defined.

Definition EscalationStep_rank (s : EscalationStep) : N :=
  match s with
  | SameAgentFreshContext => 0 | AlternateModel => 1 | DomainExpert => 2 | RevisedPlan => 3
  | HumanEscalation => 4
  end.

#[export] Instance EscalationStep_ord : OrdKey EscalationStep.
Proof. refine (ord_key_inj EscalationStep_rank _). abstract (intros [] []; naive_solver). Defined.

Inductive EscalationPolicyError := EmptyLadder | StepsOutOfOrder | MissingHumanEscalation.

Record EscalationPolicy := MkPolicy { steps : list EscalationStep }.

Definition EscalationPolicy_default : EscalationPolicy :=
  MkPolicy [SameAgentFreshContext; AlternateModel; DomainExpert; RevisedPlan; HumanEscalation].

(** [steps.windows(2).all(|pair| pair[0] < pair[1])]. *)
Fixpoint windows_ascending (l : list EscalationStep) : bool :=
  match l with
  | a :: ((b :: _) as l') => kltb a b && windows_ascending l'
  | _ => true
  end.

Definition EscalationPolicy_validate (p : EscalationPolicy) : result unit EscalationPolicyError :=
  if is_empty (steps p) then Err EmptyLadder else
  if negb (windows_ascending (steps p)) then Err StepsOutOfOrder else
  if negb (bool_decide (list.last (steps p) = Some HumanEscalation)) then Err MissingHumanEscalation else
  Ok tt.

Record EscalationState := {
  es_policy : EscalationPolicy;
  current_step : EscalationStep;
  attempts_at_current_step : N;
  history : list EscalationStep;
}.

Definition EscalationState_new (p : EscalationPolicy) : result EscalationState EscalationPolicyError :=
  let? _ := EscalationPolicy_validate p in
  let? first := ok_or (head (steps p)) EmptyLadder in
  Ok {| es_policy := p; current_step := first; attempts_at_current_step := 0; history := [] |}.

Definition record_failure (e : EscalationState) : EscalationState :=
  {| es_policy := es_policy e; current_step := current_step e;
     attempts_at_current_step := saturating_add u32_max (attempts_at_current_step e) 1;
     history := history e |}.

(** [iter().position(|&step| step == current)]. *)
Fixpoint position (s : EscalationStep) (l : list EscalationStep) : option nat :=
  match l with
  | [] => None
  | x :: l => if bool_decide (x = s) then Some 0%nat else S <$> position s l
  end.

Definition next_step (e : EscalationState) : option EscalationStep :=
  position (current_step e) (steps (es_policy e)) ≫= λ p, steps (es_policy e) !! S p.

Definition advance (e : EscalationState) : EscalationState * option EscalationStep :=
  match next_step e with
  | None => (e, None)
  | Some next =>
      ({| es_policy := es_policy e; current_step := next; attempts_at_current_step := 0;
          history := history e ++ [current_step e] |}, Some next)
  end.

Definition exhausted (e : EscalationState) : bool := bool_decide (current_step e = HumanEscalation).

Inductive EscalationOutcome :=
  | RetryAt (step : EscalationStep)
  | OutcomeHumanEscalation.

Definition next_escalation (e : EscalationState) : EscalationOutcome :=
  if exhausted e then OutcomeHumanEscalation else RetryAt (current_step e).

(** ** The invariant: the history and the current step are a prefix of the ladder *)

Record escalation_wf (e : EscalationState) : Prop := {
  ew_policy : EscalationPolicy_validate (es_policy e) = Ok tt;
  ew_walk : history e ++ [current_step e] `prefix_of` steps (es_policy e);
  ew_attempts : attempts_at_current_step e ≤ u32_max;
}.

Lemma windows_ascending_sorted l : windows_ascending l = true ↔ ascending id l.
Proof.
  unfold ascending. induction l as [|a [|b l] IH]; simpl.
  - split; [constructor|done].
  - split; [repeat constructor|done].
  - rw andb_true_iff kltb_spec IH. split.
    + intros [Hab Hs]. constructor; [done|]. inversion Hs as [|? ? Hs' Hb]; subst.
      constructor; [done|]. eapply Forall_impl; [exact Hb|]. intros x Hx. by etrans.
    + intros Hs. inversion Hs as [|? ? Hs' Ha]; subst. inversion Ha. done.
Qed.

Lemma policy_validate_ok p :
  EscalationPolicy_validate p = Ok tt ↔
    ascending id (steps p) ∧ list.last (steps p) = Some HumanEscalation.
Proof.
  unfold EscalationPolicy_validate. rw !guard_ok is_empty_false !negb_false_iff bool_decide_eq_true.
  rw windows_ascending_sorted. split; [tauto|]. intros [? Hl]. split_and!; try done.
  by destruct (steps p).
Qed.

Lemma position_spec s l k : NoDup l → l !! k = Some s → position s l = Some k.
Proof.
  revert k. induction l as [|x l IH]; intros k Hnd Hk; [done|]. apply NoDup_cons in Hnd as [Hx Hnd].
  destruct k as [|k]; simpl in *; simplify_eq; [by rw bool_decide_true|].
  rw bool_decide_false; [by rw (IH k)|]. intros ->. apply Hx. by eapply list_elem_of_lookup_2.
Qed.

Section walk.
Context (e : EscalationState) (Hw : escalation_wf e).

Lemma ladder_ascending : ascending id (steps (es_policy e)).
Proof. apply policy_validate_ok, Hw. Qed.

Lemma current_lookup : steps (es_policy e) !! length (history e) = Some (current_step e).
Proof.
  eapply prefix_lookup_Some; [|apply Hw]. by rw lookup_app_r // Nat.sub_diag.
Qed.

Lemma next_step_lookup : next_step e = steps (es_policy e) !! S (length (history e)).
Proof.
  unfold next_step. rw (position_spec _ _ (length (history e))); [done| |apply current_lookup].
  eapply ascending_NoDup, ladder_ascending.
Qed.

(** The terminal step is the last of the ladder and only that. *)
Lemma next_step_none : next_step e = None ↔ current_step e = HumanEscalation.
Proof.
  pose proof current_lookup as Hc. rw next_step_lookup.
  pose proof (proj2 (proj1 (policy_validate_ok _) (ew_policy _ Hw))) as Hl. rw last_lookup in Hl.
  assert (NoDup (steps (es_policy e))) as Hnd by eapply ascending_NoDup, ladder_ascending.
  rw lookup_ge_None. apply lookup_lt_Some in Hc as Hlt. split.
  - intros Hge. replace (pred (length (steps (es_policy e)))) with (length (history e)) in Hl by lia.
    by simplify_eq.
  - intros Hh. rw Hh in Hc. pose proof (NoDup_lookup _ _ _ _ Hnd Hc Hl). lia.
Qed.

Lemma record_failure_wf : escalation_wf (record_failure e).
Proof. destruct Hw. split; try done. apply saturating_add_le. Qed.

Lemma advance_wf : escalation_wf (advance e).1.
Proof.
  unfold advance. destruct (next_step e) as [next|] eqn:En; [|done]. rw next_step_lookup in En.
  destruct Hw as [Hp [k Hk] Ha]. split; simpl; [done| |done].
  rw Hk in En *. rw -app_assoc lookup_app_r in En; [simpl|lia].
  replace (S (length (history e)) - length (history e))%nat with 1%nat in En by lia.
  destruct k as [|x k]; simpl in En; simplify_eq. exists k. by rw -!app_assoc.
Qed.
End walk.

(** ** Operations of the runner *)

Inductive EscalationOp := RecordFailure | Advance.

Definition escalation_step (e : EscalationState) (op : EscalationOp) : EscalationState :=
  match op with RecordFailure => record_failure e | Advance => (advance e).1 end.

Lemma escalation_new_wf p e : EscalationState_new p = Ok e → escalation_wf e.
Proof.
  unfold EscalationState_new. intros H. guards_in H. simplify_eq/=.
  destruct (steps p) as [|s l] eqn:Es; simpl in *; simplify_eq.
  split; simpl; [by destruct x|exists l; by rw Es|done].
Qed.

Lemma escalation_run_wf e ops : escalation_wf e → escalation_wf (foldl escalation_step e ops).
Proof.
  revert e. induction ops as [|[] ops IH]; intros e He; simpl; auto using record_failure_wf, advance_wf.
Qed.

Definition is_advance (op : EscalationOp) : bool := match op with Advance => true | _ => false end.

Lemma escalation_run_policy e ops : es_policy (foldl escalation_step e ops) = es_policy e.
Proof.
  revert e. induction ops as [|[] ops IH]; intros e; simpl; [done|by rw IH|].
  rw IH. unfold advance. by destruct (next_step e).
Qed.

(** Advancing moves one step up, or stays at the end. *)
Lemma escalation_run_height e ops :
  escalation_wf e →
  length (history (foldl escalation_step e ops))
    = Nat.min (length (steps (es_policy e)) - 1)
        (length (history e) + N.to_nat (count is_advance ops)).
Proof.
  revert e. induction ops as [|op ops IH]; intros e He; simpl.
  { pose proof (current_lookup e He) as Hc. apply lookup_lt_Some in Hc. rw count_nil. lia. }
  pose proof (current_lookup e He) as Hc. apply lookup_lt_Some in Hc.
  rw count_cons. destruct op; simpl.
  - rw IH; [|by apply record_failure_wf]. simpl. lia.
  - rw IH; [|by apply advance_wf]. rw (escalation_run_policy e [Advance] : es_policy (advance e).1 = _).
    pose proof (next_step_lookup e He) as Hn. unfold advance. destruct (next_step e); simpl.
    + symmetry in Hn. apply lookup_lt_Some in Hn. rw length_app. simpl. lia.
    + symmetry in Hn. apply lookup_ge_None in Hn. lia.
Qed.

(** ** Properties *)

(** A policy is accepted if and only if it is a subsequence of the
    five-step ladder that ends at human escalation; acceptance starts the walk
    at its first step with nothing recorded. *)
Theorem policy_accepts_exactly_subladders p e :
  EscalationState_new p = Ok e ↔
    steps p `sublist_of` steps EscalationPolicy_default
    ∧ list.last (steps p) = Some HumanEscalation
    ∧ head (steps p) = Some (current_step e)
    ∧ e = {| es_policy := p; current_step := current_step e; attempts_at_current_step := 0;
             history := [] |}.
Proof.
  assert (ascending id (steps EscalationPolicy_default)) as Hd by by apply windows_ascending_sorted.
  unfold EscalationState_new. split.
  - intros H. guards_in H. destruct x. rename select (EscalationPolicy_validate p = _) into Hv.
    apply policy_validate_ok in Hv as [Ha Hl]. split_and!; [|done| |].
    + eapply (ascending_sublist id); [|done..]. intros []; simpl; set_solver.
    + simplify_eq/=. by destruct (head (steps p)); simplify_eq/=.
    + by simplify_eq/=.
  - intros (Hs & Hl & Hh & ->). rw (proj2 (policy_validate_ok p)) /=; [by rw Hh|].
    split; [by eapply ascending_of_sublist|done].
Qed.

(** Walking the ladder.  After any sequence of recorded failures and
    advances the steps left behind followed by the current step are exactly the
    beginning of the ladder, one step per advance until the last; failures
    alone never move it.  The ladder is exhausted exactly when there is no next
    step, which is exactly when enough advances were made, and then the
    proposal is the human; before that it is a retry at the current step. *)
Theorem escalation_walk p e ops :
  EscalationState_new p = Ok e →
  let e' := foldl escalation_step e ops in
  let k := Nat.min (length (steps p) - 1) (N.to_nat (count is_advance ops)) in
  history e' ++ [current_step e'] = take (S k) (steps p)
  ∧ (next_step e' = None ↔ exhausted e' = true)
  ∧ (exhausted e' = true ↔ (length (steps p) ≤ S (N.to_nat (count is_advance ops)))%nat)
  ∧ next_escalation e' = (if exhausted e' then OutcomeHumanEscalation else RetryAt (current_step e'))
  ∧ (exhausted e' = true → (advance e').1 = e').
Proof.
  intros Hn e' k. pose proof (escalation_new_wf p e Hn) as Hw.
  pose proof (escalation_run_wf e ops Hw) as Hw'. fold e' in Hw'.
  pose proof (escalation_run_height e ops Hw) as Hh. fold e' in Hh.
  assert (es_policy e = p ∧ history e = []) as [Ep Eh].
  { unfold EscalationState_new in Hn. guards_in Hn. by simplify_eq/=. }
  rw Ep Eh /= in Hh. fold k in Hh.
  pose proof (escalation_run_policy e ops) as Ep'. fold e' in Ep'. rw Ep in Ep'.
  pose proof (next_step_none e' Hw') as Hnone. pose proof (next_step_lookup e' Hw') as Hlk.
  pose proof (current_lookup e' Hw') as Hc. apply lookup_lt_Some in Hc.
  rw Ep' ?Hh in Hlk Hc. unfold exhausted. rw !bool_decide_eq_true. split_and!.
  - destruct (ew_walk _ Hw') as [r Hr]. rw Ep' in Hr. rw Hr take_app_length' //.
    rw length_app Hh. simpl. lia.
  - done.
  - rw -Hnone Hlk lookup_ge_None. lia.
  - done.
  - intros Hex. unfold advance. by rw (proj2 Hnone Hex).
Qed.

Lemma escalation_walk_witness :
  match EscalationState_new EscalationPolicy_default with
  | Ok e =>
      history (foldl escalation_step e [RecordFailure; Advance; RecordFailure; Advance])
        ++ [current_step (foldl escalation_step e [RecordFailure; Advance; RecordFailure; Advance])]
      = [SameAgentFreshContext; AlternateModel; DomainExpert]
  | Err _ => False
  end.
Proof.
  exact (proj1 (escalation_walk EscalationPolicy_default
    {| es_policy := EscalationPolicy_default; current_step := SameAgentFreshContext;
       attempts_at_current_step := 0; history := [] |}
    [RecordFailure; Advance; RecordFailure; Advance] eq_refl)).
Defined.
