(* ===== verification/Runner.v ===== *)
(** * The backlog runner

    [crates/orchestraitor-delivery/src/runner.rs]: the deterministic loop that
    consumes attempt outcomes, applies the failure decisions, dispatches
    attempts under the scheduler's caps and fires the run-level stops.  The
    state is a record, each method a function on it; [tick] and [run] return the
    events they appended. *)

From S2P Require Import Prelude BTree Metadata Dag Schedule ReviewLoop Failures RetryRules Escalation.

Inductive AttemptOutcome :=
  | Out_Completed
  | Out_Failed (class : FailureClass) (retry_after_ms : option N) (proof : option IdempotencyProof)
  | Out_ApprovalRequired
  | Out_PolicyDenied
  | Out_Paused.

Inductive StopReason :=
  | Stop_BacklogEmpty | Stop_NoEligibleTasks | Stop_BudgetExhausted | Stop_ApprovalRequired
  | Stop_FailuresBlocked | Stop_SecurityBlock | Stop_Paused.

Inductive BlockReason := Block_HumanEscalation | Block_SecurityBlock | Block_ApprovalRequired.

Inductive RunnerEvent :=
  | Ev_Started (task : BacklogTaskId)
  | Ev_AttemptRecorded (task : BacklogTaskId) (attempt : N) (o : AttemptOutcome)
  | Ev_RetryScheduled (task : BacklogTaskId) (delay_ms : N)
  | Ev_RetryHeld (task : BacklogTaskId) (retry_after_ms : N)
  | Ev_FixRootCause (task : BacklogTaskId)
  | Ev_Reprompt (task : BacklogTaskId) (attempt : N)
  | Ev_EscalationStep (task : BacklogTaskId) (step : EscalationStep)
  | Ev_HumanEscalation (task : BacklogTaskId)
  | Ev_Blocked (task : BacklogTaskId) (reason : BlockReason)
  | Ev_Paused
  | Ev_Resumed
  | Ev_BudgetExhausted
  | Ev_Stopped (reason : StopReason).

Inductive RunnerError :=
  | Runner_InvalidReviewLoopConfig (e : ReviewLoopConfigError)
  | Runner_InvalidSchedulerConfig (e : SchedulerConfigError)
  | Runner_InvalidEscalationPolicy (e : EscalationPolicyError).

#[export] Instance AttemptOutcome_eq_dec : EqDecision AttemptOutcome.
Proof. solve_decision. Defined.
#[export] Instance StopReason_eq_dec : EqDecision StopReason.
Proof. solve_decision. Defined.
#[export] Instance BlockReason_eq_dec : EqDecision BlockReason.
Proof. solve_decision. Defined.
#[export] Instance RunnerEvent_eq_dec : EqDecision RunnerEvent.
Proof. solve_decision. Defined.

Record RunnerInput := {
  in_dag : TaskDag;
  in_config : ReviewLoopConfig;
  in_scheduler_config : SchedulerConfig;
  in_attempt_budget : N;
  in_max_reprompt_attempts : N;
  in_max_attempts_per_step : N;
  in_escalation_policy : EscalationPolicy;
}.

Record BacklogRunner := {
  dag : TaskDag;
  config : ReviewLoopConfig;
  scheduler : ParallelScheduler;
  budget_remaining : N;
  max_reprompt_attempts : N;
  max_attempts_per_step : N;
  journal : list RunnerEvent;
  completed : gset BacklogTaskId;
  blocked : gmap BacklogTaskId BlockReason;
  running : gset BacklogTaskId;
  pending : gset BacklogTaskId;
  attempts : gmap BacklogTaskId N;
  retry_schedules : gmap BacklogTaskId RetrySchedule;
  escalation : gmap BacklogTaskId EscalationState;
  paused : bool;
  stop_reason : option StopReason;
}.

(** Assignments to one field of [self]. *)

Definition set_budget_remaining (r : BacklogRunner) (v : N) : BacklogRunner := {|
  dag := dag r; config := config r; scheduler := scheduler r; budget_remaining := v;
  max_reprompt_attempts := max_reprompt_attempts r; max_attempts_per_step :=
  max_attempts_per_step r; journal := journal r; completed := completed r; blocked :=
  blocked r; running := running r; pending := pending r; attempts := attempts r;
  retry_schedules := retry_schedules r; escalation := escalation r; paused := paused r;
  stop_reason := stop_reason r |}.

Definition set_journal (r : BacklogRunner) (v : list RunnerEvent) : BacklogRunner := {|
  dag := dag r; config := config r; scheduler := scheduler r; budget_remaining :=
  budget_remaining r; max_reprompt_attempts := max_reprompt_attempts r;
  max_attempts_per_step := max_attempts_per_step r; journal := v; completed := completed r;
  blocked := blocked r; running := running r; pending := pending r; attempts := attempts r;
  retry_schedules := retry_schedules r; escalation := escalation r; paused := paused r;
  stop_reason := stop_reason r |}.

Definition set_completed (r : BacklogRunner) (v : gset BacklogTaskId) : BacklogRunner := {|
  dag := dag r; config := config r; scheduler := scheduler r; budget_remaining :=
  budget_remaining r; max_reprompt_attempts := max_reprompt_attempts r;
  max_attempts_per_step := max_attempts_per_step r; journal := journal r; completed := v;
  blocked := blocked r; running := running r; pending := pending r; attempts := attempts r;
  retry_schedules := retry_schedules r; escalation := escalation r; paused := paused r;
  stop_reason := stop_reason r |}.

Definition set_blocked (r : BacklogRunner) (v : gmap BacklogTaskId BlockReason) : BacklogRunner := {|
  dag := dag r; config := config r; scheduler := scheduler r; budget_remaining :=
  budget_remaining r; max_reprompt_attempts := max_reprompt_attempts r;
  max_attempts_per_step := max_attempts_per_step r; journal := journal r; completed :=
  completed r; blocked := v; running := running r; pending := pending r; attempts :=
  attempts r; retry_schedules := retry_schedules r; escalation := escalation r; paused :=
  paused r; stop_reason := stop_reason r |}.

Definition set_running (r : BacklogRunner) (v : gset BacklogTaskId) : BacklogRunner := {|
  dag := dag r; config := config r; scheduler := scheduler r; budget_remaining :=
  budget_remaining r; max_reprompt_attempts := max_reprompt_attempts r;
  max_attempts_per_step := max_attempts_per_step r; journal := journal r; completed :=
  completed r; blocked := blocked r; running := v; pending := pending r; attempts :=
  attempts r; retry_schedules := retry_schedules r; escalation := escalation r; paused :=
  paused r; stop_reason := stop_reason r |}.

Definition set_pending (r : BacklogRunner) (v : gset BacklogTaskId) : BacklogRunner := {|
  dag := dag r; config := config r; scheduler := scheduler r; budget_remaining :=
  budget_remaining r; max_reprompt_attempts := max_reprompt_attempts r;
  max_attempts_per_step := max_attempts_per_step r; journal := journal r; completed :=
  completed r; blocked := blocked r; running := running r; pending := v; attempts :=
  attempts r; retry_schedules := retry_schedules r; escalation := escalation r; paused :=
  paused r; stop_reason := stop_reason r |}.

Definition set_attempts (r : BacklogRunner) (v : gmap BacklogTaskId N) : BacklogRunner := {|
  dag := dag r; config := config r; scheduler := scheduler r; budget_remaining :=
  budget_remaining r; max_reprompt_attempts := max_reprompt_attempts r;
  max_attempts_per_step := max_attempts_per_step r; journal := journal r; completed :=
  completed r; blocked := blocked r; running := running r; pending := pending r; attempts :=
  v; retry_schedules := retry_schedules r; escalation := escalation r; paused := paused r;
  stop_reason := stop_reason r |}.

Definition set_retry_schedules (r : BacklogRunner) (v : gmap BacklogTaskId RetrySchedule) : BacklogRunner := {|
  dag := dag r; config := config r; scheduler := scheduler r; budget_remaining :=
  budget_remaining r; max_reprompt_attempts := max_reprompt_attempts r;
  max_attempts_per_step := max_attempts_per_step r; journal := journal r; completed :=
  completed r; blocked := blocked r; running := running r; pending := pending r; attempts :=
  attempts r; retry_schedules := v; escalation := escalation r; paused := paused r;
  stop_reason := stop_reason r |}.

Definition set_escalation (r : BacklogRunner) (v : gmap BacklogTaskId EscalationState) : BacklogRunner := {|
  dag := dag r; config := config r; scheduler := scheduler r; budget_remaining :=
  budget_remaining r; max_reprompt_attempts := max_reprompt_attempts r;
  max_attempts_per_step := max_attempts_per_step r; journal := journal r; completed :=
  completed r; blocked := blocked r; running := running r; pending := pending r; attempts :=
  attempts r; retry_schedules := retry_schedules r; escalation := v; paused := paused r;
  stop_reason := stop_reason r |}.

Definition set_paused (r : BacklogRunner) (v : bool) : BacklogRunner := {|
  dag := dag r; config := config r; scheduler := scheduler r; budget_remaining :=
  budget_remaining r; max_reprompt_attempts := max_reprompt_attempts r;
  max_attempts_per_step := max_attempts_per_step r; journal := journal r; completed :=
  completed r; blocked := blocked r; running := running r; pending := pending r; attempts :=
  attempts r; retry_schedules := retry_schedules r; escalation := escalation r; paused := v;
  stop_reason := stop_reason r |}.

Definition set_stop_reason (r : BacklogRunner) (v : option StopReason) : BacklogRunner := {|
  dag := dag r; config := config r; scheduler := scheduler r; budget_remaining :=
  budget_remaining r; max_reprompt_attempts := max_reprompt_attempts r;
  max_attempts_per_step := max_attempts_per_step r; journal := journal r; completed :=
  completed r; blocked := blocked r; running := running r; pending := pending r; attempts :=
  attempts r; retry_schedules := retry_schedules r; escalation := escalation r; paused :=
  paused r; stop_reason := v |}.

(** ** Construction *)

Fixpoint init_escalation (p : EscalationPolicy) (ids : list BacklogTaskId)
    (m : gmap BacklogTaskId EscalationState)
    : result (gmap BacklogTaskId EscalationState) RunnerError :=
  match ids with
  | [] => Ok m
  | i :: ids =>
      let? state := map_err Runner_InvalidEscalationPolicy (EscalationState_new p) in
      init_escalation p ids (<[i := state]> m)
  end.

Definition BacklogRunner_new (i : RunnerInput) : result BacklogRunner RunnerError :=
  let? _ := map_err Runner_InvalidReviewLoopConfig (ReviewLoopConfig_validate (in_config i)) in
  let? _ := map_err Runner_InvalidSchedulerConfig
              (SchedulerConfig_validate (in_scheduler_config i)) in
  let? _ := map_err Runner_InvalidEscalationPolicy
              (EscalationPolicy_validate (in_escalation_policy i)) in
  let? esc := init_escalation (in_escalation_policy i) (TaskDag_iter (in_dag i)).*1 ∅ in
  Ok {| dag := in_dag i;
        config := in_config i;
        scheduler := ParallelScheduler_new (in_scheduler_config i);
        budget_remaining := in_attempt_budget i;
        max_reprompt_attempts := in_max_reprompt_attempts i;
        max_attempts_per_step := in_max_attempts_per_step i;
        journal := []; completed := ∅; blocked := ∅; running := ∅; pending := ∅;
        attempts := ∅; retry_schedules := ∅; escalation := esc;
        paused := false; stop_reason := None |}.

(** ** Journal and controls *)

Definition push_event (r : BacklogRunner) (ev : RunnerEvent) : BacklogRunner :=
  set_journal r (journal r ++ [ev]).

Definition set_stop (r : BacklogRunner) (reason : StopReason) : BacklogRunner :=
  match stop_reason r with
  | Some _ => r
  | None => push_event (set_stop_reason r (Some reason)) (Ev_Stopped reason)
  end.

Definition events_since (r : BacklogRunner) (start : nat) : list RunnerEvent :=
  drop start (journal r).

Definition pause (r : BacklogRunner) : BacklogRunner :=
  if paused r then r else push_event (set_paused r true) Ev_Paused.

Definition resume (r : BacklogRunner) : BacklogRunner :=
  if negb (paused r) then r else
  let r := push_event (set_paused r false) Ev_Resumed in
  if bool_decide (stop_reason r = Some Stop_Paused) then set_stop_reason r None else r.

(** ** The failure decision chain *)

(** [self.blocked.insert(..)], the event, and the stop that goes with it. *)
Definition block (r : BacklogRunner) (task : BacklogTaskId) (reason : BlockReason)
    (stop : StopReason) : BacklogRunner :=
  let r := set_blocked r (<[task := reason]> (blocked r)) in
  let r := push_event r (Ev_Blocked task reason) in
  set_stop r stop.

Definition make_pending (r : BacklogRunner) (task : BacklogTaskId) : BacklogRunner :=
  set_pending r ({[task]} ∪ pending r).

Definition escalate (r : BacklogRunner) (task : BacklogTaskId) : BacklogRunner :=
  let '(r, advanced_to, exhausted_) :=
    match escalation r !! task with
    | Some state =>
        let '(state, next) := advance state in
        (set_escalation r (<[task := state]> (escalation r)), next, exhausted state)
    | None => (r, None, true)
    end in
  if exhausted_ then
    let r := push_event r (Ev_HumanEscalation task) in
    block r task Block_HumanEscalation Stop_FailuresBlocked
  else
    match advanced_to with
    | Some step =>
        let r := set_retry_schedules r (delete task (retry_schedules r)) in
        let r := push_event r (Ev_EscalationStep task step) in
        make_pending r task
    | None => r
    end.

(** [self.retry_schedules.entry(task).or_default()]: the delay it proposes, and
    its attempt counter bumped. *)
Definition take_delay (r : BacklogRunner) (task : BacklogTaskId) : BacklogRunner * N :=
  let schedule := default RetrySchedule_default (retry_schedules r !! task) in
  let bumped := {| base_delay_ms := base_delay_ms schedule; max_delay_ms := max_delay_ms schedule;
                   rs_attempt := saturating_add u32_max (rs_attempt schedule) 1 |} in
  (set_retry_schedules r (<[task := bumped]> (retry_schedules r)), next_delay schedule).

(** [match gated]: the runner executes the decision the gate let through. *)
Definition apply_decision (r : BacklogRunner) (task : BacklogTaskId) (class : FailureClass)
    (attempts_at_step : N) (gated : RetryDecision) : BacklogRunner :=
  match gated with
  | Retry _ =>
      if attempts_at_step <? max_attempts_per_step r then
        let '(r, delay_ms) := take_delay r task in
        make_pending (push_event r (Ev_RetryScheduled task delay_ms)) task
      else escalate r task
  | Hold retry_after_ms =>
      if attempts_at_step <? max_attempts_per_step r then
        make_pending (push_event r (Ev_RetryHeld task retry_after_ms)) task
      else escalate r task
  | FixRootCause =>
      let r := push_event r (Ev_FixRootCause task) in
      if attempts_at_step <? max_attempts_per_step r then make_pending r task
      else escalate r task
  | Reprompt attempt => make_pending (push_event r (Ev_Reprompt task attempt)) task
  | AwaitUser => block r task Block_ApprovalRequired Stop_ApprovalRequired
  | Escalate =>
      match class with
      | PolicyDenial | NonRetriableConfigOrSecurity =>
          block r task Block_SecurityBlock Stop_SecurityBlock
      | _ => escalate r task
      end
  end.

Definition handle_failure (r : BacklogRunner) (task : BacklogTaskId) (class : FailureClass)
    (retry_after_ms : option N) (proof : option IdempotencyProof) (failing_attempt : N)
    : BacklogRunner :=
  let r := match escalation r !! task with
           | Some state => set_escalation r (<[task := record_failure state]> (escalation r))
           | None => r
           end in
  let attempts_at_step :=
    from_option attempts_at_current_step u32_max (escalation r !! task) in
  let proof := default Unproven proof in
  let proposed := classify class failing_attempt retry_after_ms (max_reprompt_attempts r) in
  let gated := RetryGate_evaluate class proof proposed in
  apply_decision r task class attempts_at_step gated.

Definition consume_outcome (r : BacklogRunner) (task : BacklogTaskId) (o : AttemptOutcome)
    : BacklogRunner :=
  let attempt := default 1 (attempts r !! task) in
  let r := push_event r (Ev_AttemptRecorded task attempt o) in
  match o with
  | Out_Completed =>
      let r := set_completed r ({[task]} ∪ completed r) in
      set_retry_schedules r (delete task (retry_schedules r))
  | Out_Paused =>
      let r := set_paused r true in
      let r := push_event r Ev_Paused in
      let r := set_stop r Stop_Paused in
      set_running r ({[task]} ∪ running r)
  | Out_ApprovalRequired => block r task Block_ApprovalRequired Stop_ApprovalRequired
  | Out_PolicyDenied => block r task Block_SecurityBlock Stop_SecurityBlock
  | Out_Failed class retry_after_ms proof =>
      handle_failure r task class retry_after_ms proof attempt
  end.

(** ** The tick *)

(** [for (task, outcome) in outcomes]. *)
Fixpoint consume_outcomes (r : BacklogRunner) (os : list (BacklogTaskId * AttemptOutcome))
    : BacklogRunner :=
  match os with
  | [] => r
  | (task, o) :: os =>
      if bool_decide (is_Some (stop_reason r)) then r else
      if negb (bool_decide (task ∈ running r)) then consume_outcomes r os else
      consume_outcomes (consume_outcome (set_running r (running r ∖ {[task]})) task o) os
  end.

(** [for id in self.dag.eligible(..)]: what joins the due tasks. *)
Definition startable (r : BacklogRunner) (due : gset BacklogTaskId) : gset BacklogTaskId :=
  foldl (λ s i, if negb (bool_decide (is_Some (blocked r !! i)))
                   && negb (bool_decide (i ∈ running r))
                   && negb (bool_decide (i ∈ pending r))
                then {[i]} ∪ s else s)
    due (eligible (dag r) (completed r)).

Definition start (r : BacklogRunner) (task : BacklogTaskId) : BacklogRunner :=
  let r := set_budget_remaining r (saturating_sub (budget_remaining r) 1) in
  let r := set_attempts r (entry_or (attempts r) task 0 (λ n, saturating_add u32_max n 1)) in
  let r := set_running r ({[task]} ∪ running r) in
  push_event r (Ev_Started task).

(** [for task in &startable]. *)
Fixpoint dispatch (r : BacklogRunner) (selection : gset BacklogTaskId)
    (tasks : list BacklogTaskId) : BacklogRunner :=
  match tasks with
  | [] => r
  | task :: tasks =>
      if negb (bool_decide (task ∈ selection)) then dispatch r selection tasks else
      if budget_remaining r =? 0
      then set_stop (push_event r Ev_BudgetExhausted) Stop_BudgetExhausted
      else dispatch (start r task) selection tasks
  end.

Definition check_finished (r : BacklogRunner) : BacklogRunner :=
  if bool_decide (stop_reason r = None) && bool_decide (running r = ∅)
     && bool_decide (pending r = ∅)
  then
    if N.of_nat (size (completed r)) =? TaskDag_len (dag r) then set_stop r Stop_BacklogEmpty
    else
      let eligible_remaining :=
        count (λ i, negb (bool_decide (is_Some (blocked r !! i))))
          (eligible (dag r) (completed r)) in
      if eligible_remaining =? 0 then set_stop r Stop_NoEligibleTasks else r
  else r.

Definition tick (r : BacklogRunner) (outcomes : gmap BacklogTaskId AttemptOutcome)
    : BacklogRunner * list RunnerEvent :=
  let begin := length (journal r) in
  if bool_decide (is_Some (stop_reason r)) then (r, []) else
  if paused r then let r := set_stop r Stop_Paused in (r, events_since r begin) else
  let due := pending r in
  let r := set_pending r ∅ in
  let r := consume_outcomes r (bt_iter outcomes) in
  if bool_decide (is_Some (stop_reason r)) then
    let r := set_pending r (pending r ∪ due) in (r, events_since r begin)
  else
    let starting := startable r due in
    let selection : gset BacklogTaskId :=
      list_to_set (select (scheduler r) (dag r) (completed r) (bs_iter (running r)) 0) in
    let r := dispatch r selection (bs_iter starting) in
    let r := check_finished r in
    (r, events_since r begin).

(** [for _ in 0..max_ticks], collecting the events. *)
Fixpoint run_loop (r : BacklogRunner) (outcomes : gmap BacklogTaskId AttemptOutcome)
    (max_ticks : nat) (emitted : list RunnerEvent) : BacklogRunner * list RunnerEvent :=
  match max_ticks with
  | O => (r, emitted)
  | S max_ticks =>
      if bool_decide (is_Some (stop_reason r)) then (r, emitted) else
      let '(r, events) := tick r outcomes in
      let emitted := emitted ++ events in
      if is_empty events then (r, emitted) else run_loop r outcomes max_ticks emitted
  end.

Definition run (r : BacklogRunner) (outcomes : gmap BacklogTaskId AttemptOutcome) (max_ticks : N)
    : BacklogRunner * list RunnerEvent := run_loop r outcomes (N.to_nat max_ticks) [].
