(* ===== verification/RunnerCorrect.v ===== *)
(** * Correctness of the backlog runner

    The invariant of the runner's state, that construction establishes it and
    every method keeps it, and what it gives: caps and conflict freedom of the
    attempts in flight, dependency order of completion, budget accounting,
    blocked tasks stop the run, stops are terminal, a tick makes progress. *)

From S2P Require Import Prelude BTree Metadata Dag Schedule ReviewLoop Failures RetryRules Escalation Runner.

(** ** Sets of tasks in flight *)

Section caps.
Context (c : SchedulerConfig) (d : TaskDag).

Definition set_load (dom : DomainId) (X : gset BacklogTaskId) : N := dom_load d dom (bs_iter X).

Record caps_ok (X : gset BacklogTaskId) : Prop := {
  co_concurrent : N.of_nat (size X) ≤ max_concurrent c;
  co_review : review_capacity c ≤ usize_max → N.of_nat (size X) ≤ review_capacity c;
  co_domain cap dom : max_per_domain c = Some cap → set_load dom X ≤ cap;
  co_files x y : x ∈ X → y ∈ X → x ≠ y → ¬ conflict d x y;
}.

Lemma bs_iter_union_perm (X Y : gset BacklogTaskId) :
  X ## Y → bs_iter (X ∪ Y) ≡ₚ bs_iter X ++ bs_iter Y.
Proof.
  intros Hd. apply NoDup_Permutation; [apply bs_iter_NoDup| |].
  - apply NoDup_app. split_and!; [apply bs_iter_NoDup| |apply bs_iter_NoDup].
    intros x. rw !elem_of_bs_iter. set_solver.
  - intros x. rw elem_of_app !elem_of_bs_iter. set_solver.
Qed.

Lemma set_load_subset dom (X Y : gset BacklogTaskId) : X ⊆ Y → set_load dom X ≤ set_load dom Y.
Proof.
  intros Hs. rw (union_difference_L X Y) //. unfold set_load, dom_load.
  rw (count_perm _ _ _ (bs_iter_union_perm X (Y ∖ X) ltac:(set_solver))) count_app. lia.
Qed.

Lemma caps_ok_subset (X Y : gset BacklogTaskId) : X ⊆ Y → caps_ok Y → caps_ok X.
Proof.
  intros Hs [H1 H2 H3 H4]. pose proof (subseteq_size _ _ Hs). split.
  - lia.
  - intros Hr. specialize (H2 Hr). lia.
  - intros cap dom Hc. etrans; [by apply set_load_subset|by apply H3].
  - intros x y Hx Hy. apply H4; by apply Hs.
Qed.
End caps.

(** What the scheduler selects may all run beside what is running. *)
Lemma select_caps_ok s d comp (R : gset BacklogTaskId) :
  caps_ok (ps_config s) d R →
  caps_ok (ps_config s) d (R ∪ list_to_set (select s d comp (bs_iter R) 0)).
Proof.
  intros HR. set (sel := select s d comp (bs_iter R) 0).
  destruct (decide (sel = [])) as [->|Hne]; [by rw /= (right_id_L ∅ (∪))|].
  pose proof (sel_cap s d comp (bs_iter R) 0 Hne) as [Hc Hrev]. fold sel in Hc, Hrev.
  pose proof (sel_admitted (sel:=select) s d comp (bs_iter R) 0) as Ha. fold sel in Ha.
  assert (NoDup sel) as Hnd by apply (ascending_NoDup id), sel_ascending.
  assert (R ## list_to_set sel) as Hdisj.
  { intros x HxR Hx%elem_of_list_to_set. apply sel_eligible in Hx as [_ Hx]. apply Hx.
    by apply elem_of_bs_iter. }
  assert (bs_iter (R ∪ list_to_set sel) ≡ₚ bs_iter R ++ sel) as Hperm.
  { rw bs_iter_union_perm // (bs_iter_perm (list_to_set sel)). by rw elements_list_to_set. }
  assert (N.of_nat (size (R ∪ list_to_set sel : gset BacklogTaskId)) = len (bs_iter R) + len sel) as Hsz.
  { by rw -length_bs_iter Hperm -len_app. }
  split.
  - lia.
  - intros Hle. specialize (Hrev Hle). lia.
  - intros cap dom Hcap. unfold set_load, dom_load. rw (count_perm _ _ _ Hperm).
    pose proof (admitted_load _ _ _ _ dom Ha) as Hl. rw Hcap in Hl. etrans; [exact Hl|].
    apply N.max_lub; [done|]. by apply (co_domain _ _ _ HR).
  - intros x y Hx Hy Hxy.
    assert (∀ a b, conflict d a b → conflict d b a) as Hsym by (unfold conflict; naive_solver).
    apply elem_of_union in Hx as [Hx|Hx%elem_of_list_to_set];
      apply elem_of_union in Hy as [Hy|Hy%elem_of_list_to_set].
    + by apply (co_files _ _ _ HR).
    + intros Hcf%Hsym. revert Hcf. eapply admitted_no_conflict; [done..| |done].
      apply elem_of_app. left. by apply elem_of_bs_iter.
    + eapply admitted_no_conflict; [done..| |done]. apply elem_of_app. left. by apply elem_of_bs_iter.
    + eapply admitted_no_conflict; [done..| |done]. apply elem_of_app. by right.
Qed.

(** ** What consuming one outcome does *)

Inductive Effect :=
  | Eff_complete
  | Eff_pause
  | Eff_again
  | Eff_block (reason : BlockReason) (stop : StopReason).

(** Every block reason has its run-level stop. *)
Definition stop_for (b : BlockReason) : StopReason :=
  match b with
  | Block_HumanEscalation => Stop_FailuresBlocked
  | Block_SecurityBlock => Stop_SecurityBlock
  | Block_ApprovalRequired => Stop_ApprovalRequired
  end.

Definition is_started (ev : RunnerEvent) : bool :=
  match ev with Ev_Started _ => true | _ => false end.

Definition started_of (x : BacklogTaskId) (ev : RunnerEvent) : bool :=
  match ev with Ev_Started y => bool_decide (y = x) | _ => false end.

Definition escalations_wf (i : RunnerInput) (m : gmap BacklogTaskId EscalationState) : Prop :=
  (∀ x, is_Some (m !! x) ↔ is_Some (dag_tasks (in_dag i) !! x))
  ∧ ∀ x e, m !! x = Some e → escalation_wf e ∧ es_policy e = in_escalation_policy i.

(** The fields no method changes after construction. *)
Record same_setup (r r' : BacklogRunner) : Prop := {
  ss_dag : dag r' = dag r;
  ss_config : config r' = config r;
  ss_scheduler : scheduler r' = scheduler r;
  ss_reprompt : max_reprompt_attempts r' = max_reprompt_attempts r;
  ss_step : max_attempts_per_step r' = max_attempts_per_step r;
}.

#[export] Instance same_setup_preorder : PreOrder same_setup.
Proof. split; [done|]. intros r1 r2 r3 [] []. split; congruence. Qed.

(** [eff] applied to [task], with [evs] journaled. *)
Record consumed (r r' : BacklogRunner) (task : BacklogTaskId) (eff : Effect)
    (evs : list RunnerEvent) : Prop := {
  cs_setup : same_setup r r';
  cs_budget : budget_remaining r' = budget_remaining r;
  cs_attempts : attempts r' = attempts r;
  cs_journal : journal r' = journal r ++ evs;
  cs_quiet : ∀ ev, ev ∈ evs → is_started ev = false;
  cs_completed : completed r' =
    match eff with Eff_complete => {[task]} ∪ completed r | _ => completed r end;
  cs_blocked : blocked r' =
    match eff with Eff_block b _ => <[task := b]> (blocked r) | _ => blocked r end;
  cs_running : running r' = match eff with Eff_pause => {[task]} ∪ running r | _ => running r end;
  cs_pending : pending r' = match eff with Eff_again => {[task]} ∪ pending r | _ => pending r end;
  cs_paused : paused r' = match eff with Eff_pause => true | _ => paused r end;
  cs_stop : stop_reason r' =
    match eff with Eff_pause => Some Stop_Paused | Eff_block _ s => Some s | _ => stop_reason r end;
  cs_stop_for : match eff with Eff_block b s => s = stop_for b | _ => True end;
}.

(** One more event before, when no other field of interest differs. *)
Lemma block_consumed r task b :
  stop_reason r = None →
  consumed r (block r task b (stop_for b)) task (Eff_block b (stop_for b))
    [Ev_Blocked task b; Ev_Stopped (stop_for b)].
Proof.
  intros Hs. unfold block, set_stop. simpl. rw Hs. split; simpl; try done.
  - by rw -app_assoc.
  - intros ev Hev. repeat (apply elem_of_cons in Hev as [->|Hev]; [done|]). by apply elem_of_nil in Hev.
Qed.

Lemma make_pending_consumed r task : consumed r (make_pending r task) task Eff_again [].
Proof. split; simpl; try done; [by rw app_nil_r|set_solver]. Qed.

Lemma consumed_event r r' task eff ev evs :
  is_started ev = false → consumed (push_event r ev) r' task eff evs →
  consumed r r' task eff (ev :: evs).
Proof.
  intros Hev [[] ? ? Hj Hq ? ? ? ? ? ? ?]. split; try done.
  - rw Hj /= -app_assoc. done.
  - intros e [->|He]%elem_of_cons; [done|auto].
Qed.

Lemma consumed_schedules r r' task eff evs m :
  consumed (set_retry_schedules r m) r' task eff evs → consumed r r' task eff evs.
Proof. by intros [[]]; split. Qed.

Lemma consumed_escalation r r' task eff evs m :
  consumed (set_escalation r m) r' task eff evs → consumed r r' task eff evs.
Proof. by intros [[]]; split. Qed.

(** Escalating re-attempts at the next step of the ladder, or blocks the task
    for a human at its end; the ladder has no third outcome. *)
Lemma escalate_consumed i r task :
  escalations_wf i (escalation r) → is_Some (dag_tasks (in_dag i) !! task) → stop_reason r = None →
  ∃ eff evs, consumed r (escalate r task) task eff evs
    ∧ (eff = Eff_again ∨ eff = Eff_block Block_HumanEscalation Stop_FailuresBlocked)
    ∧ escalations_wf i (escalation (escalate r task)).
Proof.
  intros [Hdom Hwf] Hx Hs. apply Hdom in Hx as [e He]. destruct (Hwf task e He) as [Hw Hp].
  unfold escalate. rw He. pose proof (advance_wf e Hw) as Hw'.
  assert (es_policy (advance e).1 = es_policy e) as Hp'
    by (unfold advance; by destruct (next_step e)).
  pose proof (next_step_none e Hw) as Hnone.
  assert (escalations_wf i (<[task := (advance e).1]> (escalation r))) as Hwf'.
  { split.
    - intros x. rw lookup_insert_is_Some' -Hdom. split; [|tauto].
      intros [<-|]; [by exists e|done].
    - intros x e' [[<- <-]|[_ He']]%lookup_insert_Some; [by rw Hp'|by eapply Hwf]. }
  unfold exhausted, advance in *. destruct (next_step e) as [s|] eqn:En; simpl in *.
  - case_bool_decide.
    + eexists _, _. split; [|split; [by right|]].
      * eapply consumed_escalation, consumed_event, (block_consumed _ _ Block_HumanEscalation); [done|].
        done.
      * unfold block, set_stop. simpl. by rw Hs.
    + eexists _, _. split; [|split; [by left|done]].
      eapply consumed_escalation, consumed_schedules, consumed_event, make_pending_consumed. done.
  - rw bool_decide_true; [|by apply Hnone]. eexists _, _. split; [|split; [by right|]].
    * eapply consumed_escalation, consumed_event, (block_consumed _ _ Block_HumanEscalation); [done|].
      done.
    * unfold block, set_stop. simpl. by rw Hs.
Qed.

(** The effects a failure of each class may have. *)
Definition failure_effect (class : FailureClass) (eff : Effect) : Prop :=
  match class with
  | PolicyDenial | NonRetriableConfigOrSecurity =>
      eff = Eff_block Block_SecurityBlock Stop_SecurityBlock
  | ApprovalRequired => eff = Eff_block Block_ApprovalRequired Stop_ApprovalRequired
  | _ => eff = Eff_again ∨ eff = Eff_block Block_HumanEscalation Stop_FailuresBlocked
  end.

Definition outcome_effect (o : AttemptOutcome) (eff : Effect) : Prop :=
  match o with
  | Out_Completed => eff = Eff_complete
  | Out_Paused => eff = Eff_pause
  | Out_ApprovalRequired => eff = Eff_block Block_ApprovalRequired Stop_ApprovalRequired
  | Out_PolicyDenied => eff = Eff_block Block_SecurityBlock Stop_SecurityBlock
  | Out_Failed class _ _ => failure_effect class eff
  end.

Lemma record_failure_escalations i m task e :
  escalations_wf i m → m !! task = Some e →
  escalations_wf i (<[task := record_failure e]> m).
Proof.
  intros [Hdom Hwf] He. split.
  - intros x. rw lookup_insert_is_Some' -Hdom. split; [|tauto]. intros [<-|]; [by exists e|done].
  - intros x e' [[<- <-]|[_ He']]%lookup_insert_Some; [|by eapply Hwf].
    destruct (Hwf task e He). split; [by apply record_failure_wf|done].
Qed.

Definition decision_effect (class : FailureClass) (gated : RetryDecision) (eff : Effect) : Prop :=
  match gated with
  | AwaitUser => eff = Eff_block Block_ApprovalRequired Stop_ApprovalRequired
  | Reprompt _ => eff = Eff_again
  | Escalate =>
      match class with
      | PolicyDenial | NonRetriableConfigOrSecurity =>
          eff = Eff_block Block_SecurityBlock Stop_SecurityBlock
      | _ => eff = Eff_again ∨ eff = Eff_block Block_HumanEscalation Stop_FailuresBlocked
      end
  | _ => eff = Eff_again ∨ eff = Eff_block Block_HumanEscalation Stop_FailuresBlocked
  end.

Lemma gated_effect class proof attempt after limit eff :
  decision_effect class (RetryGate_evaluate class proof (classify class attempt after limit)) eff →
  failure_effect class eff.
Proof.
  unfold RetryGate_evaluate. destruct class; simpl; try done; try naive_solver.
  - by destruct after.
  - by case_bool_decide.
  - case_match; naive_solver.
Qed.

Lemma block_escalation r task b s :
  escalation (block r task b s) = escalation r.
Proof. unfold block, set_stop. by destruct (stop_reason _). Qed.

Lemma apply_decision_consumed i r task class n gated :
  escalations_wf i (escalation r) → is_Some (dag_tasks (in_dag i) !! task) → stop_reason r = None →
  ∃ eff evs, consumed r (apply_decision r task class n gated) task eff evs
    ∧ decision_effect class gated eff
    ∧ escalations_wf i (escalation (apply_decision r task class n gated)).
Proof.
  intros Hesc Hx Hs.
  assert (∀ b, ∃ eff evs, consumed r (block r task b (stop_for b)) task eff evs
    ∧ eff = Eff_block b (stop_for b)
    ∧ escalations_wf i (escalation (block r task b (stop_for b)))) as Hblock.
  { intros b. eexists _, _. split; [by apply block_consumed|]. by rw block_escalation. }
  assert (∀ ev, is_started ev = false →
    ∃ eff evs, consumed r (make_pending (push_event r ev) task) task eff evs ∧ eff = Eff_again
    ∧ escalations_wf i (escalation (make_pending (push_event r ev) task))) as Hagain.
  { intros ev Hev. eexists _, _. split; [eapply consumed_event, make_pending_consumed; done|done]. }
  pose proof (escalate_consumed i r task Hesc Hx Hs) as Hup.
  destruct gated as [d|h| |a| |]; simpl.
  - case_match; [|done]. eexists Eff_again, _. split; [|split; [by left|done]].
    eapply consumed_schedules, consumed_event, make_pending_consumed. done.
  - case_match; [|done]. destruct (Hagain (Ev_RetryHeld task h)) as (? & ? & ? & ? & ?); eauto 10.
  - case_match.
    + destruct (Hagain (Ev_FixRootCause task)) as (? & ? & ? & ? & ?); eauto 10.
    + destruct (escalate_consumed i (push_event r (Ev_FixRootCause task)) task)
        as (eff & evs & ? & ? & ?); [done..|].
      eexists eff, _. split; [by apply (consumed_event r _ task _ (Ev_FixRootCause task))|done].
  - by apply Hagain.
  - apply (Hblock Block_ApprovalRequired).
  - destruct class; try done; apply (Hblock Block_SecurityBlock).
Qed.

Lemma handle_failure_consumed i r task class after proof attempt :
  escalations_wf i (escalation r) → is_Some (dag_tasks (in_dag i) !! task) → stop_reason r = None →
  ∃ eff evs, consumed r (handle_failure r task class after proof attempt) task eff evs
    ∧ failure_effect class eff
    ∧ escalations_wf i (escalation (handle_failure r task class after proof attempt)).
Proof.
  intros Hesc Hx Hs. unfold handle_failure.
  destruct (proj2 (proj1 Hesc task) Hx) as [e He]. rw He.
  edestruct (apply_decision_consumed i
    (set_escalation r (<[task := record_failure e]> (escalation r))) task class)
    as (eff & evs & Hc & Hd & Hw); [by apply record_failure_escalations|done|done|].
  exists eff, evs. split; [|split; [|exact Hw]].
  - eapply consumed_escalation. exact Hc.
  - by eapply gated_effect.
Qed.

Lemma consume_outcome_consumed i r task o :
  escalations_wf i (escalation r) → is_Some (dag_tasks (in_dag i) !! task) → stop_reason r = None →
  ∃ eff evs,
    consumed r (consume_outcome r task o) task eff
      (Ev_AttemptRecorded task (default 1 (attempts r !! task)) o :: evs)
    ∧ outcome_effect o eff ∧ escalations_wf i (escalation (consume_outcome r task o)).
Proof.
  intros Hesc Hx Hs. unfold consume_outcome.
  set (r1 := push_event r _). assert (stop_reason r1 = None) as Hs1 by done.
  destruct o as [|class after proof| | |].
  - eexists Eff_complete, []. split; [|done].
    apply consumed_event; [done|]. split; simpl; try done; [by rw app_nil_r|set_solver].
  - destruct (handle_failure_consumed i r1 task class after proof
      (default 1 (attempts r !! task))) as (eff & evs & Hc & He & Hw); [done..|].
    exists eff, evs. split; [by apply consumed_event|done].
  - eexists _, _. split; [apply consumed_event; [done|by apply (block_consumed r1 task Block_ApprovalRequired)]|].
    split; [done|]. by rw block_escalation.
  - eexists _, _. split; [apply consumed_event; [done|by apply (block_consumed r1 task Block_SecurityBlock)]|].
    split; [done|]. by rw block_escalation.
  - eexists Eff_pause, [Ev_Paused; Ev_Stopped Stop_Paused]. unfold set_stop. simpl. rw Hs.
    split; [|done]. apply consumed_event; [done|]. split; simpl; try done.
    + by rw -!app_assoc.
    + intros ev Hev. repeat (apply elem_of_cons in Hev as [->|Hev]; [done|]). by apply elem_of_nil in Hev.
Qed.

(** ** The invariant

    [due] are the tasks a tick has taken out of the pending set; it is empty
    between ticks. *)

Definition attempts_of (r : BacklogRunner) (x : BacklogTaskId) : N := default 0 (attempts r !! x).

Record runner_inv (i : RunnerInput) (due : gset BacklogTaskId) (r : BacklogRunner) : Prop := {
  ri_dag : dag r = in_dag i;
  ri_scheduler : scheduler r = ParallelScheduler_new (in_scheduler_config i);
  ri_reprompt : max_reprompt_attempts r = in_max_reprompt_attempts i;
  ri_step : max_attempts_per_step r = in_max_attempts_per_step i;
  ri_closed x : x ∈ completed r →
    is_Some (dag_tasks (in_dag i) !! x) ∧ ∀ p, p ∈ deps_of (in_dag i) x → p ∈ completed r;
  ri_active x : x ∈ running r ∨ x ∈ pending r ∨ x ∈ due ∨ is_Some (blocked r !! x) →
    x ∈ eligible (in_dag i) (completed r);
  ri_running x : x ∈ running r → (x ∉ pending r) ∧ (x ∉ due) ∧ blocked r !! x = None;
  ri_waiting x : x ∈ pending r ∪ due → blocked r !! x = None;
  ri_pending : pending r ## due;
  ri_blocked x b : blocked r !! x = Some b → stop_reason r = Some (stop_for b);
  ri_caps : caps_ok (in_scheduler_config i) (in_dag i) (running r);
  ri_budget : budget_remaining r + count is_started (journal r) = in_attempt_budget i;
  ri_attempts x : attempts_of r x = N.min (count (started_of x) (journal r)) u32_max;
  ri_attempted x : x ∈ running r ∨ x ∈ pending r ∨ x ∈ due ∨ is_Some (blocked r !! x)
                   ∨ x ∈ completed r → 1 ≤ attempts_of r x;
  ri_escalation : escalations_wf i (escalation r);
  ri_paused : stop_reason r = Some Stop_Paused → paused r = true;
  ri_evidence x : x ∈ completed r →
    ∃ n, Ev_AttemptRecorded x n Out_Completed ∈ journal r;
}.

Lemma init_escalation_wf p ids m :
  EscalationPolicy_validate p = Ok tt →
  ∃ m', init_escalation p ids m = Ok m' ∧
    ∀ x, m' !! x = if bool_decide (x ∈ ids)
                   then match EscalationState_new p with Ok e => Some e | Err _ => None end
                   else m !! x.
Proof.
  intros Hv. assert (∃ e, EscalationState_new p = Ok e) as [e He].
  { unfold EscalationState_new. rw Hv. simpl. pose proof (proj1 (policy_validate_ok p) Hv) as [_ Hl].
    destruct (steps p); [done|]. by eexists. }
  rw He. revert m. induction ids as [|i ids IH]; intros m; simpl.
  - exists m. split; [done|]. done.
  - rw He /=. destruct (IH (<[i:=e]> m)) as (m' & -> & Hm'). exists m'. split; [done|].
    intros x. rw Hm'. destruct (decide (x = i)) as [->|Hne].
    + rw (bool_decide_true (i ∈ i :: ids)); [|set_solver]. case_bool_decide; [done|].
      by rw lookup_insert_eq.
    + rw lookup_insert_ne //. case_bool_decide; case_bool_decide; set_solver.
Qed.

Lemma runner_new_inv i r : BacklogRunner_new i = Ok r → runner_inv i ∅ r.
Proof.
  unfold BacklogRunner_new. intros H. guards_in H.
  repeat match goal with H : map_err _ _ = Ok ?u |- _ => apply map_err_ok in H; destruct u end.
  rename select (EscalationPolicy_validate _ = _) into Hv.
  rename select (init_escalation _ _ _ = Ok _) into Hi.
  destruct (init_escalation_wf _ (TaskDag_iter (in_dag i)).*1 ∅ Hv) as (m & Hm & Hlk).
  rw Hm in Hi. simplify_eq/=.
  assert (∀ x : BacklogTaskId, x ∈ (TaskDag_iter (in_dag i)).*1 ↔ is_Some (dag_tasks (in_dag i) !! x)) as Hids.
  { intros x. apply elem_of_bt_keys. }
  split; simpl; try done; try (intros x Hx; by apply elem_of_empty in Hx).
  - intros x. rw lookup_empty !elem_of_empty. intros [|[|[|[]]]]; done.
  - split; [by rw size_empty; lia|intros _; rw size_empty; lia| |].
    + intros cap dom _. unfold set_load. rw (proj2 (bs_iter_nil ∅)) // /dom_load count_nil. lia.
    + intros x y Hx. by apply elem_of_empty in Hx.
  - rw count_nil. lia.
  - intros x. rw lookup_empty !elem_of_empty. intros [|[|[|[[]|]]]]; done.
  - split.
    + intros x. rw Hlk. case_bool_decide as Hx.
      * split; [intros _; by apply Hids|]. intros _.
        unfold EscalationState_new. rw Hv /=.
        pose proof (proj1 (policy_validate_ok _) Hv) as [_ Hl].
        destruct (steps (in_escalation_policy i)); [done|]. simpl. by eexists.
      * rw lookup_empty. rw Hids in Hx. split; [by intros []|done].
    + intros x e. rw Hlk. case_bool_decide; [|by rw lookup_empty].
      destruct (EscalationState_new _) as [e'|] eqn:He; [|done]. intros [= <-].
      split; [by eapply escalation_new_wf|]. unfold EscalationState_new in He. guards_in He.
      by simplify_eq/=.
Qed.

(** ** Preservation by the methods *)

Lemma count_quiet {A} (P : A → bool) l : (∀ x, x ∈ l → P x = false) → count P l = 0.
Proof. apply count_0. Qed.

Lemma started_of_started x ev : is_started ev = false → started_of x ev = false.
Proof. by destruct ev. Qed.

(** Completing a task keeps every other eligible task eligible. *)
Lemma eligible_mono d (X : gset BacklogTaskId) t x :
  x ∈ eligible d X → x ≠ t → x ∈ eligible d ({[t]} ∪ X).
Proof. rw !elem_of_eligible. intros (? & ? & ?) ?. split_and!; set_solver. Qed.

Section consume.
Context (i : RunnerInput) (due : gset BacklogTaskId) (r : BacklogRunner) (task : BacklogTaskId).
Context (Hr : runner_inv i due r) (Hrun : task ∈ running r) (Hs : stop_reason r = None).

(** The state between [running.remove(task)] and the decision. *)
Definition taken_out : BacklogRunner := set_running r (running r ∖ {[task]}).

Lemma not_blocked x : blocked r !! x = None.
Proof.
  destruct (blocked r !! x) eqn:E; [|done]. apply (ri_blocked _ _ _ Hr) in E. congruence.
Qed.

Lemma task_eligible : task ∈ eligible (in_dag i) (completed r).
Proof. apply (ri_active _ _ _ Hr). tauto. Qed.

Section effect.
Context (r' : BacklogRunner) (eff : Effect) (evs : list RunnerEvent).
Context (Hc : consumed taken_out r' task eff evs).

Lemma consumed_completed x :
  x ∈ completed r' ↔ x ∈ completed r ∨ x = task ∧ eff = Eff_complete.
Proof. rw (cs_completed _ _ _ _ _ Hc). simpl. clear. destruct eff; set_solver. Qed.

Lemma consumed_running x : x ∈ running r' → x ∈ running r ∧ (x = task → eff = Eff_pause).
Proof. rw (cs_running _ _ _ _ _ Hc). simpl. clear -Hrun. destruct eff; set_solver. Qed.

Lemma consumed_pending x : x ∈ pending r' → x ∈ pending r ∨ x = task ∧ eff = Eff_again.
Proof. rw (cs_pending _ _ _ _ _ Hc). simpl. clear. destruct eff; set_solver. Qed.

Lemma consumed_blocked x b :
  blocked r' !! x = Some b → x = task ∧ eff = Eff_block b (stop_for b).
Proof.
  rw (cs_blocked _ _ _ _ _ Hc). pose proof (cs_stop_for _ _ _ _ _ Hc) as Hst.
  destruct eff; simpl; rw ?not_blocked //.
  intros [[-> ->]|[_ Hx]]%lookup_insert_Some; [by subst|]. by rw not_blocked in Hx.
Qed.

Lemma consumed_eligible x :
  x ∈ eligible (in_dag i) (completed r) → (x = task → eff ≠ Eff_complete) →
  x ∈ eligible (in_dag i) (completed r').
Proof.
  intros He Hx. rw (cs_completed _ _ _ _ _ Hc). simpl. destruct eff; try done.
  apply eligible_mono; [done|]. intros ->. by apply Hx.
Qed.

Lemma consumed_counts P :
  (∀ ev, is_started ev = false → P ev = false) → count P (journal r') = count P (journal r).
Proof.
  intros HP. rw (cs_journal _ _ _ _ _ Hc) count_app. simpl.
  rw (proj2 (count_0 P evs)); [lia|]. intros ev Hev. by apply HP, (cs_quiet _ _ _ _ _ Hc).
Qed.

Lemma consumed_active x :
  x ∈ running r' ∨ x ∈ pending r' ∨ x ∈ due ∨ is_Some (blocked r' !! x) →
  (x ∈ running r ∨ x ∈ pending r ∨ x ∈ due ∨ is_Some (blocked r !! x))
  ∧ (x = task → eff ≠ Eff_complete).
Proof.
  destruct (ri_running _ _ _ Hr task Hrun) as (Hnp & Hnd & _).
  intros [Hx|[Hx|[Hx|[b Hx]]]].
  - apply consumed_running in Hx as [? Hp]. split; [tauto|]. intros ->. by rw Hp.
  - apply consumed_pending in Hx as [?|[-> ->]]; [|by split; [tauto|]].
    split; [tauto|]. by intros ->.
  - split; [tauto|]. by intros ->.
  - apply consumed_blocked in Hx as [-> ->]. by split; [tauto|].
Qed.
End effect.

Lemma consumed_inv r' eff n o evs :
  consumed taken_out r' task eff (Ev_AttemptRecorded task n o :: evs) → outcome_effect o eff →
  escalations_wf i (escalation r') → runner_inv i due r'.
Proof.
  intros Hc Heff Hesc. pose proof (cs_setup _ _ _ _ _ Hc) as [].
  pose proof (cs_stop _ _ _ _ _ Hc) as Hst.
  destruct (ri_running _ _ _ Hr task Hrun) as (Hnp & Hnd & _).
  assert (∀ x, attempts_of r' x = attempts_of r x) as Hat.
  { intros x. unfold attempts_of. by rw (cs_attempts _ _ _ _ _ Hc). }
  split.
  1-4: first [rw ss_dag0|rw ss_scheduler0|rw ss_reprompt0|rw ss_step0]; apply Hr.
  - intros x Hx. setoid_rewrite (consumed_completed _ _ _ Hc). rw (consumed_completed _ _ _ Hc) in Hx.
    destruct Hx as [Hx|[-> _]].
    + destruct (ri_closed _ _ _ Hr x Hx) as [? Hd]. eauto.
    + pose proof task_eligible as (? & _ & Hd)%elem_of_eligible. eauto.
  - intros x Hx. destruct (consumed_active _ _ _ Hc x Hx) as [Hx' ?].
    apply (consumed_eligible _ _ _ Hc); [|done]. by apply (ri_active _ _ _ Hr).
  - intros x Hx. apply (consumed_running _ _ _ Hc) in Hx as [Hx Hpause].
    destruct (ri_running _ _ _ Hr x Hx) as (? & ? & ?). split_and!; [|done|].
    + intros [|[-> ->]]%(consumed_pending _ _ _ Hc); [done|]. by specialize (Hpause eq_refl).
    + destruct (blocked r' !! x) eqn:E; [|done]. apply (consumed_blocked _ _ _ Hc) in E as [-> ->].
      by specialize (Hpause eq_refl).
  - intros x Hx. destruct (blocked r' !! x) eqn:E; [|done].
    apply (consumed_blocked _ _ _ Hc) in E as [-> ->]. apply elem_of_union in Hx as [Hx|]; [|done].
    by apply (consumed_pending _ _ _ Hc) in Hx as [|[_ ?]].
  - intros x Hx Hd. apply (consumed_pending _ _ _ Hc) in Hx as [Hx|[-> _]]; [|done].
    by apply (ri_pending _ _ _ Hr x).
  - intros x b Hx. apply (consumed_blocked _ _ _ Hc) in Hx as [_ ->]. done.
  - eapply caps_ok_subset; [|apply Hr]. intros x Hx. by apply (consumed_running _ _ _ Hc) in Hx as [? _].
  - rw (consumed_counts _ _ _ Hc is_started) // (cs_budget _ _ _ _ _ Hc). apply Hr.
  - intros x. rw Hat (consumed_counts _ _ _ Hc (started_of x)); [apply Hr|]. apply started_of_started.
  - intros x Hx. rw Hat. apply (ri_attempted _ _ _ Hr). rw (consumed_completed _ _ _ Hc) in Hx.
    assert ((x ∈ running r' ∨ x ∈ pending r' ∨ x ∈ due ∨ is_Some (blocked r' !! x))
            ∨ x ∈ completed r ∨ x = task) as [Hx'|[Hx'| ->]] by (clear -Hx; tauto); [|tauto..].
    destruct (consumed_active _ _ _ Hc x Hx') as [? _]. tauto.
  - done.
  - rw Hst (cs_paused _ _ _ _ _ Hc). pose proof (cs_stop_for _ _ _ _ _ Hc) as Hsf.
    destruct eff; try done; [apply Hr..|]. intros [= ->]. by destruct reason.
  - intros x Hx. rw (cs_journal _ _ _ _ _ Hc). apply (consumed_completed _ _ _ Hc) in Hx as [Hx|[-> ->]].
    + destruct (ri_evidence _ _ _ Hr x Hx) as [k Hk]. exists k. apply elem_of_app. by left.
    + exists n. apply elem_of_app. right.
      destruct o as [|class ? ?| | |]; try done; [left|destruct class; naive_solver].
Qed.

Lemma consume_outcome_inv o : runner_inv i due (consume_outcome taken_out task o).
Proof.
  destruct (consume_outcome_consumed i taken_out task o) as (eff & evs & Hc & He & Hw).
  - apply Hr.
  - assert (task ∈ eligible (in_dag i) (completed r)) as Ht by (apply (ri_active _ _ _ Hr); tauto).
    by apply elem_of_eligible in Ht as [? _].
  - done.
  - by eapply consumed_inv.
Qed.
End consume.

Lemma consume_outcomes_inv i due r os :
  runner_inv i due r → runner_inv i due (consume_outcomes r os).
Proof.
  revert r. induction os as [|[task o] os IH]; intros r Hr; simpl; [done|].
  case_bool_decide as Hs; [done|]. case_bool_decide as Hrun; simpl; [|by apply IH].
  apply IH, consume_outcome_inv; [done..|]. by apply eq_None_not_Some.
Qed.

Lemma weaken_due i due r : runner_inv i due r → runner_inv i ∅ r.
Proof.
  intros []. split; try done.
  - intros x Hx. apply ri_active0. rw elem_of_empty in Hx. tauto.
  - intros x Hx. destruct (ri_running0 x Hx) as (? & _ & ?). split_and!; [done|set_solver|done].
  - intros x Hx. apply ri_waiting0. set_solver.
  - intros x Hx. apply ri_attempted0. rw elem_of_empty in Hx. tauto.
Qed.

Lemma quiet_event_inv i due r ev :
  is_started ev = false → runner_inv i due r → runner_inv i due (push_event r ev).
Proof.
  intros Hev []. split; simpl; try done.
  - rw count_app count_cons Hev count_nil. lia.
  - intros x. rw count_app count_cons started_of_started // count_nil !N.add_0_r.
    apply ri_attempts0.
  - intros x Hx. destruct (ri_evidence0 x Hx) as [n Hn]. exists n. apply elem_of_app. by left.
Qed.

Lemma set_stop_inv i due r reason :
  runner_inv i due r → (reason = Stop_Paused → paused r = true) →
  runner_inv i due (set_stop r reason).
Proof.
  intros Hr Hp. unfold set_stop. destruct (stop_reason r) eqn:Hs; [done|].
  apply quiet_event_inv; [done|]. pose proof (not_blocked _ _ _ Hr Hs) as Hnb.
  destruct Hr. split; simpl; try done.
  - intros x b Hx. by rw Hnb in Hx.
  - intros [= ->]. by apply Hp.
Qed.

Lemma attempts_of_start r t x :
  attempts_of (start r t) x =
    if decide (x = t) then saturating_add u32_max (attempts_of r x) 1 else attempts_of r x.
Proof.
  unfold attempts_of, start. simpl. rw lookup_entry_or.
  case_decide; case_decide; by subst.
Qed.

Lemma start_inv i r t :
  runner_inv i ∅ r → t ∈ eligible (in_dag i) (completed r) →
  t ∉ running r → t ∉ pending r → blocked r !! t = None → budget_remaining r ≠ 0 →
  caps_ok (in_scheduler_config i) (in_dag i) ({[t]} ∪ running r) →
  runner_inv i ∅ (start r t).
Proof.
  intros [] Ht Htr Htp Htb Hbud Hcaps. split; try done.
  - intros x [[->%elem_of_singleton|Hx]%elem_of_union|Hx]; [done|apply ri_active0; tauto..].
  - intros x [->%elem_of_singleton|Hx]%elem_of_union; [by split_and!; [|set_solver|]|auto].
  - simpl. rw count_app count_cons count_nil /= /saturating_sub. lia.
  - intros x. rw attempts_of_start ri_attempts0 /= count_app count_cons count_nil /=.
    unfold saturating_add. case_decide as Hx; [rw bool_decide_true // | rw bool_decide_false; [|congruence]]; lia.
  - intros x Hx. rw attempts_of_start. unfold saturating_add, u32_max. case_decide; [lia|].
    apply ri_attempted0. simpl in Hx. rw elem_of_union elem_of_singleton in Hx. tauto.
  - intros x Hx. destruct (ri_evidence0 x Hx) as [n Hn]. exists n. apply elem_of_app. by left.
Qed.

(** A task that may be dispatched in state [r]. *)
Definition may_start (i : RunnerInput) (r : BacklogRunner) (t : BacklogTaskId) : Prop :=
  t ∈ eligible (in_dag i) (completed r) ∧ (t ∉ running r) ∧ (t ∉ pending r) ∧ blocked r !! t = None.

Lemma dispatch_inv i r (selection : gset BacklogTaskId) ts :
  runner_inv i ∅ r → NoDup ts → (∀ t, t ∈ ts → may_start i r t) →
  caps_ok (in_scheduler_config i) (in_dag i) (running r ∪ selection) →
  runner_inv i ∅ (dispatch r selection ts).
Proof.
  revert r. induction ts as [|t ts IH]; intros r Hr Hnd Hts Hcaps; simpl; [done|].
  apply NoDup_cons in Hnd as [Hni Hnd].
  assert (∀ u, u ∈ ts → may_start i r u) as Hts' by (intros u Hu; apply Hts; by right).
  case_bool_decide as Hsel; simpl; [|by apply IH].
  destruct (N.eqb_spec (budget_remaining r) 0).
  { apply set_stop_inv; [by apply quiet_event_inv|done]. }
  destruct (Hts t) as (? & ? & ? & ?); [by left|].
  apply IH; [|done| |].
  - apply start_inv; [done..|]. eapply caps_ok_subset; [|done]. set_solver.
  - intros u Hu. destruct (Hts' u Hu) as (? & ? & ? & ?). split_and!; try done.
    simpl. rw elem_of_union elem_of_singleton. intros [->|]; done.
  - simpl. eapply caps_ok_subset; [|exact Hcaps]. set_solver.
Qed.

Lemma elem_of_startable r due x :
  x ∈ startable r due ↔ x ∈ due ∨ x ∈ eligible (dag r) (completed r) ∧ (x ∉ running r)
                        ∧ (x ∉ pending r) ∧ blocked r !! x = None.
Proof.
  unfold startable. generalize (eligible (dag r) (completed r)) as l. intros l. revert due.
  induction l as [|y l IH]; intros due; simpl; [set_solver|]. rw IH elem_of_cons.
  repeat case_bool_decide; simpl; rw ?elem_of_union ?elem_of_singleton ?eq_None_not_Some;
    (destruct (decide (x = y)); [subst; tauto|tauto]).
Qed.

Lemma check_finished_inv i r : runner_inv i ∅ r → runner_inv i ∅ (check_finished r).
Proof.
  intros Hr. unfold check_finished. repeat case_match; try done; by apply set_stop_inv.
Qed.

(** The pending tasks a tick takes out become its due tasks. *)
Lemma take_pending_inv i r : runner_inv i ∅ r → runner_inv i (pending r) (set_pending r ∅).
Proof.
  intros []. split; try done; simpl.
  - intros x Hx. apply ri_active0. rw elem_of_empty in Hx. tauto.
  - intros x Hx. destruct (ri_running0 x Hx) as (? & ? & ?). done.
  - intros x Hx. apply ri_waiting0. set_solver.
  - intros x Hx. apply ri_attempted0. rw elem_of_empty in Hx. tauto.
Qed.

Lemma restore_pending_inv i due r :
  runner_inv i due r → runner_inv i ∅ (set_pending r (pending r ∪ due)).
Proof.
  intros []. split; try done; simpl.
  - intros x Hx. apply ri_active0. rw elem_of_union elem_of_empty in Hx. tauto.
  - intros x Hx. destruct (ri_running0 x Hx) as (? & ? & ?). split_and!; [set_solver..|done].
  - intros x Hx. apply ri_waiting0. set_solver.
  - intros x Hx. apply ri_attempted0. rw elem_of_union elem_of_empty in Hx. tauto.
Qed.

(** What the dispatch phase of a tick does, from the state the outcomes left. *)
Definition dispatch_phase (r : BacklogRunner) (due : gset BacklogTaskId) : BacklogRunner :=
  dispatch r (list_to_set (select (scheduler r) (dag r) (completed r) (bs_iter (running r)) 0))
    (bs_iter (startable r due)).

Lemma may_start_startable i due r t :
  runner_inv i due r → t ∈ bs_iter (startable r due) → may_start i r t.
Proof.
  intros Hr Ht. rw elem_of_bs_iter elem_of_startable (ri_dag _ _ _ Hr) in Ht.
  destruct Ht as [Ht|(? & ? & ? & ?)]; [|by split_and!]. split_and!.
  - apply (ri_active _ _ _ Hr). tauto.
  - intros Hx. by destruct (ri_running _ _ _ Hr t Hx) as (_ & ? & _).
  - intros Hx. by apply (ri_pending _ _ _ Hr t).
  - apply (ri_waiting _ _ _ Hr). set_solver.
Qed.

Lemma dispatch_phase_inv i due r : runner_inv i due r → runner_inv i ∅ (dispatch_phase r due).
Proof.
  intros Hr. apply dispatch_inv.
  - by eapply weaken_due.
  - apply bs_iter_NoDup.
  - intros t. by apply may_start_startable.
  - pose proof (select_caps_ok (scheduler r) (in_dag i) (completed r) (running r)) as Hs.
    rw (ri_dag _ _ _ Hr). rw (ri_scheduler _ _ _ Hr) /= in Hs *. apply Hs, Hr.
Qed.

Lemma tick_inv i r os : runner_inv i ∅ r → runner_inv i ∅ (tick r os).1.
Proof.
  intros Hr. unfold tick. case_bool_decide; [done|]. destruct (paused r) eqn:Hp.
  { simpl. by apply set_stop_inv. }
  pose proof (consume_outcomes_inv i (pending r) _ (bt_iter os) (take_pending_inv i r Hr)) as H1.
  set (r1 := consume_outcomes _ _) in *. case_bool_decide; simpl; [by apply restore_pending_inv|].
  apply check_finished_inv. by apply dispatch_phase_inv.
Qed.

Lemma pause_inv i r : runner_inv i ∅ r → runner_inv i ∅ (pause r).
Proof.
  intros Hr. unfold pause. destruct (paused r); [done|]. apply quiet_event_inv; [done|].
  destruct Hr. by split.
Qed.

Lemma resume_inv i r : runner_inv i ∅ r → runner_inv i ∅ (resume r).
Proof.
  intros Hr. unfold resume. destruct (paused r) eqn:Hp; [|done]. simpl.
  set (ev := Ev_Resumed).
  assert (∀ r', runner_inv i ∅ r' → runner_inv i ∅ (push_event r' ev)) as Hpush
    by (intros; by apply quiet_event_inv).
  case_bool_decide as Hs.
  - assert (∀ x, blocked r !! x = None) as Hnb.
    { intros x. destruct (blocked r !! x) as [b|] eqn:E; [|done].
      apply (ri_blocked _ _ _ Hr) in E. rw Hs in E. by destruct b. }
    destruct (Hpush r Hr). split; try done. intros x b Hx. simpl in Hx. by rw Hnb in Hx.
  - destruct (Hpush r Hr). by split.
Qed.

(** ** Reachable states *)

Inductive RunnerOp :=
  | OpTick (os : gmap BacklogTaskId AttemptOutcome)
  | OpRun (os : gmap BacklogTaskId AttemptOutcome) (max_ticks : N)
  | OpPause
  | OpResume.

Definition runner_step (r : BacklogRunner) (op : RunnerOp) : BacklogRunner :=
  match op with
  | OpTick os => (tick r os).1
  | OpRun os n => (run r os n).1
  | OpPause => pause r
  | OpResume => resume r
  end.

Inductive reachable (i : RunnerInput) : BacklogRunner → Prop :=
  | reach_new r : BacklogRunner_new i = Ok r → reachable i r
  | reach_step r op : reachable i r → reachable i (runner_step r op).

Lemma run_loop_inv i r os n emitted : runner_inv i ∅ r → runner_inv i ∅ (run_loop r os n emitted).1.
Proof.
  revert r emitted. induction n as [|n IH]; intros r emitted Hr; simpl; [done|].
  case_bool_decide; [done|]. pose proof (tick_inv i r os Hr) as Ht.
  destruct (tick r os) as [r' evs]. destruct (is_empty evs); [done|]. by apply IH.
Qed.

Lemma runner_step_inv i r op : runner_inv i ∅ r → runner_inv i ∅ (runner_step r op).
Proof.
  destruct op; simpl; [apply tick_inv|apply run_loop_inv|apply pause_inv|apply resume_inv].
Qed.

Lemma reachable_inv i r : reachable i r → runner_inv i ∅ r.
Proof. induction 1; [by apply runner_new_inv|by apply runner_step_inv]. Qed.

(** ** The journal only grows, and a tick returns what it appended *)

Definition extends (r r' : BacklogRunner) : Prop := journal r `prefix_of` journal r'.

#[export] Instance extends_preorder : PreOrder extends.
Proof.
  split; [intros r; unfold extends; done|].
  intros r1 r2 r3. unfold extends. intros ? ?. by etrans.
Qed.

Lemma extends_push r r' ev : extends r r' → extends r (push_event r' ev).
Proof. intros H. etrans; [exact H|]. unfold extends. simpl. by apply prefix_app_r. Qed.

Lemma extends_set_stop r r' s : extends r r' → extends r (set_stop r' s).
Proof. intros H. unfold set_stop. case_match; [done|]. by apply (extends_push r). Qed.

Lemma consume_outcomes_extends i due r os :
  runner_inv i due r → extends r (consume_outcomes r os).
Proof.
  revert r. induction os as [|[task o] os IH]; intros r Hr; simpl; [done|].
  case_bool_decide as Hs; [done|]. case_bool_decide as Hrun; simpl; [|by apply IH].
  apply eq_None_not_Some in Hs.
  etrans; [|apply IH; by apply consume_outcome_inv].
  destruct (consume_outcome_consumed i (taken_out r task) task o) as (eff & evs & Hc & _).
  - apply Hr.
  - pose proof (task_eligible _ _ _ _ Hr Hrun) as Ht. by apply elem_of_eligible in Ht as [? _].
  - done.
  - unfold extends. unfold taken_out in Hc. rw (cs_journal _ _ _ _ _ Hc). by apply prefix_app_r.
Qed.

Lemma dispatch_extends r sel ts : extends r (dispatch r sel ts).
Proof.
  revert r. induction ts as [|t ts IH]; intros r; simpl; [done|].
  case_match; [apply IH|]. case_match; [apply extends_set_stop, extends_push; reflexivity|].
  etrans; [|apply IH]. unfold extends. simpl. by apply prefix_app_r.
Qed.

Lemma check_finished_extends r : extends r (check_finished r).
Proof.
  unfold check_finished. repeat case_match; try reflexivity; apply extends_set_stop; reflexivity.
Qed.

Lemma events_since_app r r' :
  extends r r' → journal r' = journal r ++ events_since r' (length (journal r)).
Proof. intros [evs E]. unfold events_since. by rw E drop_app_length. Qed.

Lemma tick_extends i r os :
  runner_inv i ∅ r →
  extends r (tick r os).1 ∧ (tick r os).2 = events_since (tick r os).1 (length (journal r)).
Proof.
  intros Hr. unfold tick. case_bool_decide; simpl.
  { split; [reflexivity|]. unfold events_since. by rw drop_all. }
  destruct (paused r); simpl; [split; [apply extends_set_stop; reflexivity|done]|].
  pose proof (consume_outcomes_extends i (pending r) _ (bt_iter os) (take_pending_inv i r Hr)) as H1.
  case_bool_decide; simpl; (split; [|done]); [exact H1|].
  etrans; [exact H1|]. etrans; [apply dispatch_extends|]. apply check_finished_extends.
Qed.

Lemma tick_journal i r os :
  runner_inv i ∅ r → journal (tick r os).1 = journal r ++ (tick r os).2.
Proof. intros Hr. destruct (tick_extends i r os Hr) as [He ->]. by apply events_since_app. Qed.

Lemma run_loop_journal i r os n emitted :
  runner_inv i ∅ r →
  ∃ evs, (run_loop r os n emitted).2 = emitted ++ evs
       ∧ journal (run_loop r os n emitted).1 = journal r ++ evs.
Proof.
  revert r emitted. induction n as [|n IH]; intros r emitted Hr; simpl.
  { exists []. by rw !app_nil_r. }
  case_bool_decide; [exists []; by rw !app_nil_r|].
  pose proof (tick_journal i r os Hr) as Hj. pose proof (tick_inv i r os Hr) as Ht.
  destruct (tick r os) as [r' evs]. simpl in *. destruct (is_empty evs); [by exists evs|].
  destruct (IH r' (emitted ++ evs) Ht) as (evs' & -> & ->). exists (evs ++ evs').
  by rw Hj !app_assoc.
Qed.

(** ** Stops are terminal *)

(** The part of the state that decides what happens. *)
Definition frozen (r r' : BacklogRunner) : Prop :=
  completed r' = completed r ∧ blocked r' = blocked r ∧ running r' = running r
  ∧ pending r' = pending r ∧ budget_remaining r' = budget_remaining r
  ∧ attempts r' = attempts r ∧ escalation r' = escalation r ∧ stop_reason r' = stop_reason r.

Lemma frozen_refl r : frozen r r.
Proof. by split_and!. Qed.

Lemma stopped_step_frozen r op s :
  stop_reason r = Some s → s ≠ Stop_Paused → frozen r (runner_step r op).
Proof.
  intros Hs Hne. destruct op as [os|os n| |]; simpl.
  - unfold tick. rw Hs bool_decide_true; [apply frozen_refl|done].
  - unfold run. destruct (N.to_nat n); simpl; [apply frozen_refl|].
    rw Hs bool_decide_true; [apply frozen_refl|done].
  - unfold pause. destruct (paused r); by split_and!.
  - unfold resume. destruct (paused r); simpl; [|by split_and!].
    case_bool_decide as Hb; [simpl in Hb; rw Hs in Hb; by simplify_eq|by split_and!].
Qed.

Lemma stopped_run_frozen r ops s :
  stop_reason r = Some s → s ≠ Stop_Paused → frozen r (foldl runner_step r ops).
Proof.
  revert r. induction ops as [|op ops IH]; intros r Hs Hne; simpl; [apply frozen_refl|].
  destruct (stopped_step_frozen r op s Hs Hne) as (? & ? & ? & ? & ? & ? & ? & Hs').
  destruct (IH (runner_step r op)) as (? & ? & ? & ? & ? & ? & ? & ?); [congruence|done|].
  split_and!; congruence.
Qed.

(** ** A concrete backlog *)

Definition demo_runner_input (d : TaskDag) (budget : N) : RunnerInput := {|
  in_dag := d;
  in_config := ReviewLoopConfig_default;
  in_scheduler_config := SchedulerConfig_default;
  in_attempt_budget := budget;
  in_max_reprompt_attempts := 2;
  in_max_attempts_per_step := 1;
  in_escalation_policy := EscalationPolicy_default;
|}.

Definition demo_runner (d : TaskDag) (budget : N) : BacklogRunner := {|
  dag := d;
  config := ReviewLoopConfig_default;
  scheduler := ParallelScheduler_new SchedulerConfig_default;
  budget_remaining := budget;
  max_reprompt_attempts := 2;
  max_attempts_per_step := 1;
  journal := []; completed := ∅; blocked := ∅; running := ∅; pending := ∅;
  attempts := ∅; retry_schedules := ∅;
  escalation :=
    (λ _, {| es_policy := EscalationPolicy_default; current_step := SameAgentFreshContext;
             attempts_at_current_step := 0; history := [] |}) <$> dag_tasks d;
  paused := false;
  stop_reason := None;
|}.

(** Three tasks in a chain: the first starts, completes and releases the second. *)
Definition demo_ops : list RunnerOp :=
  [OpTick ∅; OpTick {[ demo_id "a" := Out_Completed ]}].

Lemma demo_new : BacklogRunner_new (demo_runner_input demo_ab 9) = Ok (demo_runner demo_ab 9).
Proof. vm_compute. reflexivity. Qed.

Lemma reachable_run i r ops : reachable i r → reachable i (foldl runner_step r ops).
Proof. revert r. induction ops as [|op ops IH]; intros r Hr; simpl; [done|]. apply IH. by constructor. Qed.

Lemma demo_reachable ops :
  reachable (demo_runner_input demo_ab 9) (foldl runner_step (demo_runner demo_ab 9) ops).
Proof. apply reachable_run. constructor. apply demo_new. Qed.

Definition demo_state : BacklogRunner := foldl runner_step (demo_runner demo_ab 9) demo_ops.

Lemma demo_state_reachable : reachable (demo_runner_input demo_ab 9) demo_state.
Proof. apply demo_reachable. Qed.

Definition demo_denied : list RunnerOp :=
  [OpTick ∅; OpTick {[ demo_id "a" := Out_Failed PolicyDenial None (Some CheckpointResume) ]}].

Definition demo_denied_state : BacklogRunner :=
  foldl runner_step (demo_runner demo_ab 9) demo_denied.

Lemma demo_denied_reachable : reachable (demo_runner_input demo_ab 9) demo_denied_state.
Proof. apply demo_reachable. Qed.

(** ** Properties *)

(** C35. The invariant holds in every reachable state, whatever outcomes the
    environment reports and however ticks, runs, pauses and resumes are
    interleaved: a task is in at most one of running, pending, blocked and
    completed; every running, pending or blocked task has all its dependencies
    completed; attempts are counted from the journal; every task keeps a valid
    escalation ladder; a run is paused when it stopped for a pause. *)
Theorem runner_invariant i r :
  reachable i r →
  (∀ x, x ∈ running r → (x ∉ pending r) ∧ blocked r !! x = None ∧ x ∉ completed r)
  ∧ (∀ x, x ∈ pending r → blocked r !! x = None ∧ x ∉ completed r)
  ∧ (∀ x, is_Some (blocked r !! x) → x ∉ completed r)
  ∧ (∀ x, x ∈ running r ∨ x ∈ pending r ∨ is_Some (blocked r !! x) →
       is_Some (dag_tasks (in_dag i) !! x) ∧ ∀ p, p ∈ deps_of (in_dag i) x → p ∈ completed r)
  ∧ (∀ x, default 0 (attempts r !! x) = N.min (count (started_of x) (journal r)) u32_max)
  ∧ (∀ x, is_Some (escalation r !! x) ↔ is_Some (dag_tasks (in_dag i) !! x))
  ∧ (∀ x e, escalation r !! x = Some e → escalation_wf e)
  ∧ (stop_reason r = Some Stop_Paused → paused r = true).
Proof.
  intros Hr%reachable_inv.
  assert (∀ x, x ∈ running r ∨ x ∈ pending r ∨ is_Some (blocked r !! x) →
               is_Some (dag_tasks (in_dag i) !! x) ∧ (x ∉ completed r)
               ∧ ∀ p, p ∈ deps_of (in_dag i) x → p ∈ completed r) as Hact.
  { intros x Hx. apply elem_of_eligible. apply (ri_active _ _ _ Hr). tauto. }
  split_and!.
  - intros x Hx. destruct (ri_running _ _ _ Hr x Hx) as (? & _ & ?).
    destruct (Hact x) as (_ & ? & _); [tauto|done].
  - intros x Hx. destruct (Hact x) as (_ & ? & _); [tauto|]. split; [|done].
    apply (ri_waiting _ _ _ Hr). set_solver.
  - intros x Hx. by destruct (Hact x) as (_ & ? & _); [tauto|].
  - intros x Hx. by destruct (Hact x Hx) as (? & _ & ?).
  - apply Hr.
  - apply Hr.
  - intros x e He. by apply (ri_escalation _ _ _ Hr) in He as [? _].
  - apply Hr.
Qed.

Lemma runner_invariant_witness :
  default 0 (attempts demo_state !! demo_id "b") = 1
  ∧ default 0 (attempts demo_state !! demo_id "b")
    = N.min (count (started_of (demo_id "b"))
               (journal demo_state)) u32_max.
Proof.
  split; [vm_compute; reflexivity|].
  apply (runner_invariant _ _ demo_state_reachable).
Defined.

(** C8. The attempts in flight respect the scheduler's limits in every reachable
    state: at most [max_concurrent], at most [review_capacity], per domain at
    most [max_per_domain], and no two of them expect the same file. *)
Theorem in_flight_safe i r :
  reachable i r →
  N.of_nat (size (running r)) ≤ max_concurrent (in_scheduler_config i)
  ∧ (review_capacity (in_scheduler_config i) ≤ usize_max →
     N.of_nat (size (running r)) ≤ review_capacity (in_scheduler_config i))
  ∧ (∀ cap dom, max_per_domain (in_scheduler_config i) = Some cap →
     dom_load (in_dag i) dom (bs_iter (running r)) ≤ cap)
  ∧ (∀ x y, x ∈ running r → y ∈ running r → x ≠ y → ¬ conflict (in_dag i) x y).
Proof. intros Hr%reachable_inv. destruct (ri_caps _ _ _ Hr). by split_and!. Qed.

Lemma in_flight_safe_witness :
  size (running demo_state) = 1%nat
  ∧ N.of_nat (size (running demo_state))
    ≤ max_concurrent (in_scheduler_config (demo_runner_input demo_ab 9)).
Proof.
  split; [vm_compute; reflexivity|]. exact (proj1 (in_flight_safe _ _ demo_state_reachable)).
Defined.

(** C6. A task is completed only on evidence and in dependency order: it is a
    task of the backlog, all its dependencies are completed, an attempt of it
    was started, and the journal has the [Completed] outcome the environment
    reported; no failure, escalation or stop ever completes a task. *)
Theorem completion_sound i r x :
  reachable i r → x ∈ completed r →
  is_Some (dag_tasks (in_dag i) !! x)
  ∧ (∀ p, p ∈ deps_of (in_dag i) x → p ∈ completed r)
  ∧ (∃ n, Ev_AttemptRecorded x n Out_Completed ∈ journal r)
  ∧ Ev_Started x ∈ journal r.
Proof.
  intros Hr%reachable_inv Hx. destruct (ri_closed _ _ _ Hr x Hx). split_and!; [done..| |].
  - by apply (ri_evidence _ _ _ Hr).
  - pose proof (ri_attempted _ _ _ Hr x) as Ha. rw (ri_attempts _ _ _ Hr) in Ha.
    destruct (existsb (started_of x) (journal r)) eqn:E.
    + apply existsb_true in E as (ev & Hev & Hs). destruct ev; try done. simpl in Hs.
      bool_simpl. by subst.
    + rw (proj2 (count_0 _ _) (proj1 (existsb_false _ _) E)) in Ha. assert (1 ≤ 0) by (apply Ha; tauto). lia.
Qed.

Lemma completion_sound_witness :
  Ev_Started (demo_id "a") ∈ journal demo_state.
Proof.
  apply (completion_sound _ _ (demo_id "a") demo_state_reachable).
  apply (bool_decide_unpack (demo_id "a" ∈ completed demo_state)).
  vm_compute. exact I.
Defined.

(** The attempt budget is exact: every started attempt costs one unit, so
    what was started and what is left add up to the configured budget, and no
    more attempts than the budget are ever started. *)
Theorem budget_accounting i r :
  reachable i r →
  count is_started (journal r) + budget_remaining r = in_attempt_budget i
  ∧ count is_started (journal r) ≤ in_attempt_budget i.
Proof. intros Hr%reachable_inv. pose proof (ri_budget _ _ _ Hr). lia. Qed.

Lemma budget_accounting_witness :
  budget_remaining demo_state = 7
  ∧ count is_started (journal demo_state) + budget_remaining demo_state
    = in_attempt_budget (demo_runner_input demo_ab 9).
Proof.
  split; [vm_compute; reflexivity|]. exact (proj1 (budget_accounting _ _ demo_state_reachable)).
Defined.

(** A blocked task is a stopped run, for good: whenever a task is blocked the
    run has stopped with the reason paired with the block, and whatever is
    called afterwards (pause and resume included) changes neither the sets of
    tasks, the budget, the attempts and ladders nor the stop reason. *)
Theorem blocked_stops_the_run i r x b ops :
  reachable i r → blocked r !! x = Some b →
  stop_reason r = Some (stop_for b) ∧ frozen r (foldl runner_step r ops).
Proof.
  intros Hr%reachable_inv Hb. apply (ri_blocked _ _ _ Hr) in Hb. split; [done|].
  eapply stopped_run_frozen; [done|]. by destruct b.
Qed.

Lemma blocked_stops_the_run_witness :
  stop_reason demo_denied_state = Some Stop_SecurityBlock
  ∧ frozen demo_denied_state
      (foldl runner_step demo_denied_state
         [OpPause; OpResume; OpTick {[ demo_id "a" := Out_Completed ]}]).
Proof.
  apply (blocked_stops_the_run _ _ (demo_id "a") Block_SecurityBlock _ demo_denied_reachable).
  vm_compute. reflexivity.
Defined.

(** The journal is append-only and the returned events are exactly what was
    appended: for a tick, and for a run of any number of ticks. *)
Theorem journal_append_only i r os n :
  reachable i r →
  journal (tick r os).1 = journal r ++ (tick r os).2
  ∧ journal (run r os n).1 = journal r ++ (run r os n).2.
Proof.
  intros Hr%reachable_inv. split; [by eapply tick_journal|].
  destruct (run_loop_journal i r os (N.to_nat n) [] Hr) as (evs & He & Hj).
  unfold run. by rw Hj He.
Qed.

Lemma journal_append_only_witness :
  journal (tick demo_state ∅).1
  = journal demo_state
    ++ (tick demo_state ∅).2.
Proof. apply (journal_append_only _ _ ∅ 0 demo_state_reachable). Defined.

(** The decision chain, outcome by outcome.  For an attempt in flight:
    completion marks the task completed and nothing else; a pause keeps the
    attempt open and stops the run as paused; an approval or policy refusal
    blocks the task with its reason; a failure re-queues the task or, by its
    class, blocks it: never retried for policy denials, missing approvals and
    non-retriable failures, and only at the end of the escalation ladder for
    every other class.  The outcome is journaled with the attempt's number and
    no attempt is started by it. *)
Theorem outcome_decision i r task o :
  reachable i r → task ∈ running r → stop_reason r = None →
  ∃ eff evs,
    consumed (taken_out r task) (consume_outcome (taken_out r task) task o) task eff
      (Ev_AttemptRecorded task (default 1 (attempts r !! task)) o :: evs)
    ∧ outcome_effect o eff.
Proof.
  intros Hr%reachable_inv Hrun Hs.
  destruct (consume_outcome_consumed i (taken_out r task) task o) as (eff & evs & Hc & He & _).
  - apply Hr.
  - pose proof (task_eligible _ _ _ _ Hr Hrun) as Ht. by apply elem_of_eligible in Ht as [? _].
  - done.
  - by exists eff, evs.
Qed.

Lemma outcome_decision_witness :
  ∃ eff evs,
    consumed (taken_out demo_state (demo_id "b"))
      (consume_outcome (taken_out demo_state (demo_id "b"))
         (demo_id "b") (Out_Failed ToolOrProcess None None)) (demo_id "b") eff
      (Ev_AttemptRecorded (demo_id "b")
         (default 1 (attempts demo_state !! demo_id "b"))
         (Out_Failed ToolOrProcess None None) :: evs)
    ∧ outcome_effect (Out_Failed ToolOrProcess None None) eff.
Proof.
  apply (outcome_decision _ _ (demo_id "b") _ demo_state_reachable).
  - apply (bool_decide_unpack (demo_id "b" ∈ running demo_state)).
    vm_compute. exact I.
  - vm_compute. reflexivity.
Defined.
