(* ===== verification/RunnerLive.v ===== *)
(** * The backlog runner: stop reasons, progress and termination

    What each stop reason says about the backlog, that a tick with nothing to
    wait for makes progress, and that a run whose environment answers stops. *)

From S2P Require Import Prelude BTree Metadata Dag Schedule ReviewLoop Failures RetryRules Escalation Runner RunnerCorrect.

(** ** What each stop reason means *)

Definition stop_ok (i : RunnerInput) (r : BacklogRunner) : Prop :=
  match stop_reason r with
  | None | Some Stop_Paused => ∀ x, blocked r !! x = None
  | Some Stop_BacklogEmpty => ∀ x, is_Some (dag_tasks (in_dag i) !! x) → x ∈ completed r
  | Some Stop_NoEligibleTasks =>
      running r = ∅ ∧ pending r = ∅ ∧ eligible (in_dag i) (completed r) = []
      ∧ ∃ x, is_Some (dag_tasks (in_dag i) !! x) ∧ x ∉ completed r
  | Some Stop_BudgetExhausted =>
      budget_remaining r = 0 ∧ ∃ x, x ∈ eligible (in_dag i) (completed r) ∧ x ∉ running r
  | Some Stop_ApprovalRequired => ∃ x, blocked r !! x = Some Block_ApprovalRequired
  | Some Stop_FailuresBlocked => ∃ x, blocked r !! x = Some Block_HumanEscalation
  | Some Stop_SecurityBlock => ∃ x, blocked r !! x = Some Block_SecurityBlock
  end.

Lemma stop_ok_frozen i r r' : frozen r r' → stop_ok i r → stop_ok i r'.
Proof.
  intros (Hc & Hb & Hr & Hp & Hbu & _ & _ & Hs). unfold stop_ok. by rw Hc Hb Hr Hp Hbu Hs.
Qed.

(** Stops fired while outcomes are consumed. *)
Definition consume_stop (r : BacklogRunner) : Prop :=
  match stop_reason r with
  | None | Some Stop_Paused => ∀ x, blocked r !! x = None
  | Some s => ∃ x b, blocked r !! x = Some b ∧ s = stop_for b
  end.

Lemma consume_stop_ok i r : consume_stop r → stop_ok i r.
Proof.
  unfold consume_stop, stop_ok. destruct (stop_reason r) as [[]|]; try done;
    intros (x & [] & Hb & ?); (done || by exists x).
Qed.

Lemma consume_outcomes_stop i due r os :
  runner_inv i due r → stop_reason r = None → consume_stop (consume_outcomes r os).
Proof.
  revert r. induction os as [|[task o] os IH]; intros r Hr Hs; simpl.
  { unfold consume_stop. rw Hs. by eapply not_blocked. }
  rw bool_decide_false; [|by rw Hs; intros []]. case_bool_decide as Hrun; simpl; [|by apply IH].
  destruct (consume_outcome_consumed i (taken_out r task) task o) as (eff & evs & Hc & _ & He).
  { apply Hr. }
  { pose proof (task_eligible _ _ _ _ Hr Hrun) as Ht. by apply elem_of_eligible in Ht as [? _]. }
  { done. }
  pose proof (consume_outcome_inv i due r task Hr Hrun Hs o) as Hr'. fold (taken_out r task).
  pose proof (cs_stop _ _ _ _ _ Hc) as Hst. pose proof (cs_blocked _ _ _ _ _ Hc) as Hbl.
  pose proof (cs_stop_for _ _ _ _ _ Hc) as Hsf. pose proof (not_blocked _ _ _ Hr Hs) as Hnb.
  destruct eff as [| | |b s]; simpl in *.
  - apply IH; [done|congruence].
  - assert (∀ r1, stop_reason r1 = Some Stop_Paused → consume_outcomes r1 os = r1) as ->.
    { intros r1 E. destruct os as [|[? ?] ?]; [done|]. simpl. by rw E bool_decide_true. }
    + unfold consume_stop. rw Hst. intros x. rw Hbl. apply Hnb.
    + done.
  - apply IH; [done|congruence].
  - assert (∀ r1, stop_reason r1 = Some s → consume_outcomes r1 os = r1) as ->.
    { intros r1 E. destruct os as [|[? ?] ?]; [done|]. simpl. by rw E bool_decide_true. }
    + unfold consume_stop. rw Hst Hsf. assert (∃ x b', blocked (consume_outcome (taken_out r task) task o) !! x = Some b' ∧ stop_for b = stop_for b') as Hex.
      { exists task, b. rw Hbl. split; [apply lookup_insert_eq|done]. }
      by destruct b.
    + done.
Qed.

(** ** The dispatch phase *)

Lemma dispatch_running_mono r (sel : gset BacklogTaskId) ts :
  running r ⊆ running (dispatch r sel ts).
Proof.
  revert r. induction ts as [|x ts IH]; intros r; simpl; [done|].
  case_match; [apply IH|]. case_match; [unfold set_stop; by case_match|].
  etrans; [|apply IH]. simpl. set_solver.
Qed.

Lemma dispatch_facts i r (sel : gset BacklogTaskId) ts :
  NoDup ts → (∀ t, t ∈ ts → may_start i r t) → stop_reason r = None →
  let r' := dispatch r sel ts in
  completed r' = completed r ∧ blocked r' = blocked r ∧ pending r' = pending r ∧ dag r' = dag r
  ∧ paused r' = paused r
  ∧ (stop_reason r' = None ∧ (∀ t, t ∈ ts → t ∈ sel → t ∈ running r')
     ∨ stop_reason r' = Some Stop_BudgetExhausted ∧ budget_remaining r' = 0
       ∧ ∃ t, t ∈ ts ∧ t ∈ sel ∧ t ∉ running r').
Proof.
  revert r. induction ts as [|t ts IH]; intros r Hnd Hts Hs; simpl.
  { split_and!; try done. left. split; [done|]. set_solver. }
  apply NoDup_cons in Hnd as [Hni Hnd].
  case_bool_decide as Hsel; simpl.
  - destruct (N.eqb_spec (budget_remaining r) 0) as [Hb|Hb].
    { unfold set_stop. simpl. rw Hs. simpl. split_and!; try done. right. split_and!; [done..|].
      exists t. destruct (Hts t) as (_ & ? & _); [by left|]. split_and!; [by left|done|done]. }
    destruct (IH (start r t)) as (-> & -> & -> & -> & -> & Hrest); [done| |done|].
    { intros u Hu. destruct (Hts u) as (? & ? & ? & ?); [by right|]. split_and!; try done.
      simpl. rw elem_of_union elem_of_singleton. intros [->|]; done. }
    split_and!; try done. destruct Hrest as [[? Hall]|(? & ? & u & ? & ? & ?)].
    + left. split; [done|]. intros u [->|]%elem_of_cons Hu; [|by apply Hall].
      apply (dispatch_running_mono (start r t)). simpl. set_solver.
    + right. split_and!; [done..|]. exists u. split_and!; [by right|done|done].
  - destruct (IH r Hnd) as (-> & -> & -> & -> & -> & Hrest); [|done|].
    { intros u Hu. apply Hts. by right. }
    split_and!; try done. destruct Hrest as [[? Hall]|(? & ? & u & ? & ? & ?)].
    + left. split; [done|]. intros u [->|]%elem_of_cons Hu; [done|by apply Hall].
    + right. split_and!; [done..|]. exists u. split_and!; [by right|done|done].
Qed.

Lemma check_finished_stop_ok i r :
  runner_inv i ∅ r → stop_ok i r → stop_ok i (check_finished r).
Proof.
  intros Hr Hok. unfold check_finished. case_match eqn:Hc; [|done]. bool_simpl.
  rename select (stop_reason r = None) into Hs. pose proof (not_blocked _ _ _ Hr Hs) as Hnb.
  assert (completed r ⊆ dom (dag_tasks (in_dag i))) as Hsub.
  { intros x Hx. apply elem_of_dom. by apply (ri_closed _ _ _ Hr). }
  destruct (N.eqb_spec (N.of_nat (size (completed r))) (TaskDag_len (dag r))) as [Hsz|Hsz].
  - unfold set_stop, stop_ok. rw Hs. simpl. intros x Hx.
    assert (completed r = dom (dag_tasks (in_dag i))) as ->; [|by apply elem_of_dom].
    apply set_subseteq_size_eq; [done|]. rw (ri_dag _ _ _ Hr) in Hsz. unfold TaskDag_len in Hsz.
    rw size_dom. lia.
  - case_match eqn:Hel; [|done]. bool_simpl. unfold set_stop, stop_ok. rw Hs. simpl.
    rw (ri_dag _ _ _ Hr) in Hel Hsz. split_and!; [done..| |].
    + destruct (eligible _ _) as [|y l]; [done|]. pose proof (proj1 (count_0 _ _) Hel y ltac:(left)) as Hy.
      simpl in Hy. rw Hnb in Hy. done.
    + destruct (set_choose_or_empty (dom (dag_tasks (in_dag i)) ∖ completed r)) as [[x Hx]|He].
      * exists x. apply elem_of_difference in Hx as [Hx ?]. by rw -elem_of_dom.
      * exfalso. apply Hsz. unfold TaskDag_len. rw -size_dom. do 2 f_equal.
        apply (anti_symm (⊆)); [done|]. by apply empty_difference_subseteq.
Qed.

Lemma dispatch_phase_stop_ok i due r :
  runner_inv i due r → stop_reason r = None → stop_ok i (dispatch_phase r due).
Proof.
  intros Hr Hs. pose proof (dispatch_phase_inv i due r Hr) as Hr'.
  destruct (dispatch_facts i r
    (list_to_set (select (scheduler r) (dag r) (completed r) (bs_iter (running r)) 0))
    (bs_iter (startable r due)) (bs_iter_NoDup _) (λ t, may_start_startable i due r t Hr) Hs)
    as (Hc & Hb & Hp & _ & _ & [[Hs' _]|(Hs' & Hbud & t & Ht & _ & Htr)]);
    fold (dispatch_phase r due) in *; unfold stop_ok; rw Hs'.
  - by eapply not_blocked.
  - split; [done|]. exists t. split; [|done]. rw Hc.
    by destruct (may_start_startable i due r t Hr Ht) as [? _].
Qed.

Lemma tick_stop_ok i r os : runner_inv i ∅ r → stop_ok i r → stop_ok i (tick r os).1.
Proof.
  intros Hr Hok. unfold tick. case_bool_decide as Hs; [done|]. apply eq_None_not_Some in Hs.
  destruct (paused r).
  { unfold stop_ok, set_stop in *. by rw Hs in Hok *. }
  pose proof (take_pending_inv i r Hr) as Hr0.
  pose proof (consume_outcomes_inv i _ _ (bt_iter os) Hr0) as Hr1.
  pose proof (consume_outcomes_stop i _ _ (bt_iter os) Hr0 Hs) as Hcs.
  set (r1 := consume_outcomes _ _) in *. case_bool_decide as Hs1; simpl.
  - unfold consume_stop, stop_ok in *. simpl. destruct (stop_reason r1) as [[]|]; try done;
      destruct Hcs as (x & [] & Hb & ?); (done || by exists x).
  - apply eq_None_not_Some in Hs1. apply check_finished_stop_ok; [by apply dispatch_phase_inv|].
    by apply dispatch_phase_stop_ok.
Qed.

Lemma run_loop_stop_ok i r os n emitted :
  runner_inv i ∅ r → stop_ok i r → stop_ok i (run_loop r os n emitted).1.
Proof.
  revert r emitted. induction n as [|n IH]; intros r emitted Hr Hok; simpl; [done|].
  case_bool_decide; [done|]. pose proof (tick_inv i r os Hr) as Ht.
  pose proof (tick_stop_ok i r os Hr Hok) as Ht'.
  destruct (tick r os) as [r' evs]. destruct (is_empty evs); [done|]. by apply IH.
Qed.

Lemma reachable_stop_ok i r : reachable i r → stop_ok i r.
Proof.
  induction 1 as [r Hn|r op Hr IH].
  - pose proof (runner_new_inv i r Hn) as Hi. assert (stop_reason r = None) as Hs.
    { unfold BacklogRunner_new in Hn. guards_in Hn. by simplify_eq/=. }
    unfold stop_ok. rw Hs. by eapply not_blocked.
  - apply reachable_inv in Hr. destruct op as [os|os n| |]; simpl.
    + by apply tick_stop_ok.
    + by apply run_loop_stop_ok.
    + unfold pause. by destruct (paused r).
    + unfold resume. destruct (paused r); simpl; [|done]. case_bool_decide as Hs; [|done].
      simpl in Hs. unfold stop_ok in *. simpl. by rw Hs in IH.
Qed.

(** ** Progress *)

Lemma scheduler_validate_ok c :
  SchedulerConfig_validate c = Ok tt ↔
    max_concurrent c ≠ 0 ∧ review_capacity c ≠ 0 ∧ ∀ cap, max_per_domain c = Some cap → cap ≠ 0.
Proof.
  unfold SchedulerConfig_validate. rw !guard_ok !N.eqb_neq. split.
  - intros (? & ? & Hc & _). split_and!; [done..|]. intros cap E. rw E /= in Hc. by bool_simpl.
  - intros (? & ? & Hc). split_and!; [done..| |done]. destruct (max_per_domain c) as [cap|]; [|done].
    simpl. apply N.eqb_neq. by apply Hc.
Qed.

(** With nothing in flight a valid configuration never refuses every eligible
    task. *)
Lemma select_nonempty s d comp x :
  SchedulerConfig_validate (ps_config s) = Ok tt → x ∈ eligible d comp → select s d comp [] 0 ≠ [].
Proof.
  intros (Hm & Hrv & Hcap)%scheduler_validate_ok Hx Hsel.
  pose proof (sel_maximal (sel := select) s d comp [] 0 x) as H. rw Hsel in H.
  destruct H as [(cap & dom & Hc & _ & Hle)|[(y & Hy & _)|H]].
  - rw len_nil. lia.
  - unfold saturating_add. rw len_nil. lia.
  - done.
  - by apply not_elem_of_nil.
  - by apply not_elem_of_nil.
  - simpl in Hle. unfold dom_load in Hle. rw count_nil in Hle. apply (Hcap cap Hc). lia.
  - by apply elem_of_nil in Hy.
  - unfold saturating_add in H. rw len_nil in H. lia.
Qed.

Lemma extends_antisym r r1 r2 :
  extends r r1 → extends r1 r2 → journal r2 = journal r → journal r1 = journal r.
Proof.
  intros H1 H2 E. unfold extends in *. rw E in H2.
  apply prefix_length_eq; [done|]. by apply prefix_length.
Qed.

Lemma push_event_neq r ev : journal (push_event r ev) ≠ journal r.
Proof. simpl. intros E. apply (f_equal length) in E. rw length_app /= in E. lia. Qed.

Lemma set_stop_silent r s : journal (set_stop r s) = journal r → set_stop r s = r.
Proof.
  unfold set_stop. case_match; [done|]. simpl. intros E. apply (f_equal length) in E.
  rw length_app /= in E. lia.
Qed.

Lemma consume_outcomes_silent i due r os :
  runner_inv i due r → stop_reason r = None →
  journal (consume_outcomes r os) = journal r →
  consume_outcomes r os = r ∧ ∀ x o, (x, o) ∈ os → x ∉ running r.
Proof.
  revert r. induction os as [|[task o] os IH]; intros r Hr Hs; simpl; [set_solver|].
  rw bool_decide_false; [|by rw Hs; intros []]. case_bool_decide as Hrun; simpl.
  - intros Hj. exfalso.
    destruct (consume_outcome_consumed i (taken_out r task) task o) as (eff & evs & Hc & _).
    { apply Hr. }
    { pose proof (task_eligible _ _ _ _ Hr Hrun) as Ht. by apply elem_of_eligible in Ht as [? _]. }
    { done. }
    pose proof (consume_outcomes_extends i due _ os (consume_outcome_inv i due r task Hr Hrun Hs o)) as He.
    fold (taken_out r task) in Hj. unfold extends in He. rw Hj (cs_journal _ _ _ _ _ Hc) in He.
    apply prefix_length in He. rw length_app /= in He. lia.
  - intros Hj. destruct (IH r Hr Hs Hj) as [-> Hos]. split; [done|].
    intros x o' [[= -> ->]|Hin]%elem_of_cons; [done|]. by eapply Hos.
Qed.

Lemma dispatch_silent r sel ts :
  journal (dispatch r sel ts) = journal r → dispatch r sel ts = r.
Proof.
  revert r. induction ts as [|t ts IH]; intros r; simpl; [done|].
  case_match; [apply IH|]. case_match; intros Hj; exfalso.
  - apply (push_event_neq r Ev_BudgetExhausted). eapply extends_antisym; [| |exact Hj].
    + unfold extends. simpl. by apply prefix_app_r.
    + apply extends_set_stop. reflexivity.
  - assert (extends (start r t) (dispatch (start r t) sel ts)) as He by apply dispatch_extends.
    unfold extends in He. rw Hj in He. apply prefix_length in He. simpl in He. rw length_app /= in He. lia.
Qed.

Lemma check_finished_silent r : journal (check_finished r) = journal r → check_finished r = r.
Proof.
  unfold check_finished. repeat case_match; try done; apply set_stop_silent.
Qed.

(** Idle states are not stuck: the dispatch starts something, or the run stops. *)
Lemma idle_progress i due r :
  SchedulerConfig_validate (in_scheduler_config i) = Ok tt → runner_inv i due r →
  stop_reason r = None → pending r = ∅ → dispatch_phase r due = r → check_finished r = r →
  running r = ∅ → False.
Proof.
  intros Hv Hr Hs Hp Hd Hc Hrun.
  destruct (eligible (in_dag i) (completed r)) as [|x l] eqn:Hel.
  - unfold check_finished in Hc. rw !bool_decide_true // /= in Hc. rw (ri_dag _ _ _ Hr) Hel in Hc.
    rw count_nil /= in Hc. unfold set_stop in Hc. rw Hs in Hc.
    case_match; apply (f_equal stop_reason) in Hc; simpl in Hc; congruence.
  - assert (select (scheduler r) (dag r) (completed r) (bs_iter (running r)) 0 ≠ []) as Hne.
    { rw Hrun (proj2 (bs_iter_nil ∅)) //. apply (select_nonempty _ _ _ x).
      - by rw (ri_scheduler _ _ _ Hr).
      - rw (ri_dag _ _ _ Hr) Hel. by left. }
    destruct (select _ _ _ _ _) as [|y ys] eqn:Hsel; [done|].
    assert (y ∈ select (scheduler r) (dag r) (completed r) (bs_iter (running r)) 0) as Hy
      by (rw Hsel; by left).
    apply sel_eligible in Hy as [Hye Hyr].
    destruct (dispatch_facts i r (list_to_set (select (scheduler r) (dag r) (completed r)
      (bs_iter (running r)) 0)) (bs_iter (startable r due)) (bs_iter_NoDup _)
      (λ t, may_start_startable i due r t Hr) Hs) as (_ & _ & _ & _ & _ & Hrest).
    fold (dispatch_phase r due) in Hrest. rw Hd in Hrest.
    destruct Hrest as [[_ Hall]|[Hs' _]]; [|congruence].
    assert (y ∈ running r); [|by rw Hrun in H; apply elem_of_empty in H].
    apply Hall; [|rw Hsel; set_solver]. apply elem_of_bs_iter, elem_of_startable. right.
    rw Hp Hrun. split_and!; [done|set_solver|set_solver|by eapply not_blocked].
Qed.

(** A tick that appends nothing was waiting: something is in flight, and the
    environment reported nothing about it. *)
Lemma tick_silent i r os :
  SchedulerConfig_validate (in_scheduler_config i) = Ok tt → runner_inv i ∅ r →
  stop_reason r = None → (tick r os).2 = [] →
  running r ≠ ∅ ∧ ∀ x, x ∈ running r → os !! x = None.
Proof.
  intros Hv Hr Hs Hq. pose proof (tick_journal i r os Hr) as Hj. rw Hq app_nil_r in Hj.
  clear Hq. unfold tick in Hj. rw bool_decide_false in Hj; [|by rw Hs; intros []].
  destruct (paused r).
  { exfalso. simpl in Hj. apply set_stop_silent in Hj. unfold set_stop in Hj. rw Hs in Hj.
    apply (f_equal stop_reason) in Hj. simpl in Hj. congruence. }
  pose proof (take_pending_inv i r Hr) as Hr0. set (r0 := set_pending r ∅) in *.
  pose proof (consume_outcomes_extends i _ _ (bt_iter os) Hr0) as He1.
  pose proof (consume_outcomes_stop i _ _ (bt_iter os) Hr0 Hs) as Hcs.
  assert (journal (consume_outcomes r0 (bt_iter os)) = journal r0) as Hj1.
  { case_bool_decide; simpl in Hj; [done|]. eapply extends_antisym; [done| |exact Hj].
    etrans; [apply dispatch_extends|apply check_finished_extends]. }
  destruct (consume_outcomes_silent i _ _ _ Hr0 Hs Hj1) as [Hc1 Hos].
  rw Hc1 in Hj. rw bool_decide_false in Hj; [|simpl; by rw Hs; intros []]. simpl in Hj.
  change (dispatch _ _ _) with (dispatch_phase r0 (pending r)) in Hj.
  assert (journal (dispatch_phase r0 (pending r)) = journal r0) as Hj2.
  { eapply extends_antisym; [apply dispatch_extends|apply check_finished_extends|exact Hj]. }
  apply dispatch_silent in Hj2. fold (dispatch_phase r0 (pending r)) in Hj2. rw Hj2 in Hj.
  apply (check_finished_silent r0) in Hj. split.
  - intros Hrun. by eapply (idle_progress i (pending r) r0).
  - intros x Hx. destruct (os !! x) as [o|] eqn:E; [|done]. exfalso.
    apply (Hos x o); [by apply elem_of_bt_iter|done].
Qed.

(** ** Termination

    Starting an attempt spends a unit of budget, consuming its outcome takes it
    out of flight. *)

Definition work_left (r : BacklogRunner) : N := 2 * budget_remaining r + N.of_nat (size (running r)).

Definition decreases (r r' : BacklogRunner) : Prop :=
  work_left r' ≤ work_left r ∧ (journal r' ≠ journal r → work_left r' < work_left r).

Lemma decreases_trans r1 r2 r3 :
  extends r1 r2 → extends r2 r3 → decreases r1 r2 → decreases r2 r3 → decreases r1 r3.
Proof.
  intros H1 H2 [Hle1 Hlt1] [Hle2 Hlt2]. split; [lia|]. intros Hne.
  destruct (decide (journal r2 = journal r1)) as [E|E]; [|specialize (Hlt1 E); lia].
  rw -E in Hne. specialize (Hlt2 Hne). lia.
Qed.

Lemma consume_outcomes_decreases i due r os :
  runner_inv i due r → stop_reason (consume_outcomes r os) = None →
  decreases r (consume_outcomes r os).
Proof.
  revert r. induction os as [|[task o] os IH]; intros r Hr Hs; simpl in *; [by split; [lia|]|].
  case_bool_decide as Hst; [by split; [lia|]|]. apply eq_None_not_Some in Hst.
  case_bool_decide as Hrun; simpl in *; [|by apply IH].
  pose proof (consume_outcome_inv i due r task Hr Hrun Hst o) as Hr'.
  destruct (consume_outcome_consumed i (taken_out r task) task o) as (eff & evs & Hc & _).
  { apply Hr. }
  { pose proof (task_eligible _ _ _ _ Hr Hrun) as Ht. by apply elem_of_eligible in Ht as [? _]. }
  { done. }
  specialize (IH _ Hr' Hs) as [Hle _]. fold (taken_out r task) in *.
  assert (eff ≠ Eff_pause) as Hne.
  { intros ->. pose proof (cs_stop _ _ _ _ _ Hc) as E. simpl in E.
    destruct os as [|[? ?] ?]; simpl in Hs; [congruence|].
    rw bool_decide_true in Hs; [congruence|]. by rw E. }
  assert (work_left (consume_outcome (taken_out r task) task o) < work_left r) as Hlt.
  { unfold work_left. rw (cs_budget _ _ _ _ _ Hc) (cs_running _ _ _ _ _ Hc).
    assert (size (running r ∖ {[task]}) < size (running r))%nat.
    { apply subset_size. split; [set_solver|]. intros Hsub. apply Hsub in Hrun. set_solver. }
    destruct eff; simpl; try done; lia. }
  split; lia.
Qed.

Lemma dispatch_decreases r sel ts :
  NoDup ts → (∀ t, t ∈ ts → t ∉ running r) → stop_reason (dispatch r sel ts) = None →
  decreases r (dispatch r sel ts).
Proof.
  revert r. induction ts as [|t ts IH]; intros r Hnd Hts Hs; simpl in *; [by split; [lia|]|].
  apply NoDup_cons in Hnd as [Hni Hnd].
  case_match; [apply IH; [done| |done]; intros u Hu; apply Hts; by right|].
  destruct (N.eqb_spec (budget_remaining r) 0) as [|Hb].
  { unfold set_stop in Hs. by case_match; simpl in *; simplify_eq. }
  destruct (IH (start r t) Hnd) as [Hle _]; [|done|].
  { intros u Hu. simpl. rw elem_of_union elem_of_singleton. intros [->|]; [done|].
    apply (Hts u); [by right|done]. }
  assert (work_left (start r t) < work_left r) as Hlt; [|split; lia].
  assert (t ∉ running r) as Ht by (apply Hts; by left).
  unfold work_left. simpl. unfold saturating_sub. rw size_union; [rw size_singleton; lia|].
  clear -Ht. set_solver.
Qed.

Lemma tick_decreases i r os :
  runner_inv i ∅ r → stop_reason (tick r os).1 = None → decreases r (tick r os).1.
Proof.
  intros Hr. unfold tick. case_bool_decide as Hs; [by split; [simpl; lia|]|].
  apply eq_None_not_Some in Hs. destruct (paused r).
  { simpl. unfold set_stop. rw Hs. done. }
  pose proof (take_pending_inv i r Hr) as Hr0. set (r0 := set_pending r ∅) in *.
  pose proof (consume_outcomes_inv i _ _ (bt_iter os) Hr0) as Hr1.
  pose proof (consume_outcomes_extends i _ _ (bt_iter os) Hr0) as He1.
  pose proof (consume_outcomes_decreases i _ r0 (bt_iter os) Hr0) as Hd1.
  set (r1 := consume_outcomes r0 (bt_iter os)) in *.
  case_bool_decide as Hs1; simpl; [intros E; rw E in Hs1; by destruct Hs1|].
  apply eq_None_not_Some in Hs1. change (dispatch _ _ _) with (dispatch_phase r1 (pending r)).
  set (r2 := dispatch_phase r1 (pending r)). intros Hs2.
  assert (check_finished r2 = r2) as ->.
  { unfold check_finished in *. repeat case_match; try done; unfold set_stop in *; by case_match. }
  assert (decreases r1 r2) as Hd2.
  { apply dispatch_decreases; [apply bs_iter_NoDup| |].
    - intros t Ht. by destruct (may_start_startable i _ _ t Hr1 Ht) as (_ & ? & _).
    - unfold check_finished in Hs2. fold r2. repeat case_match; try done; unfold set_stop in *;
        by case_match; simplify_eq. }
  apply (decreases_trans r r1); [exact He1|apply dispatch_extends|by apply Hd1|done].
Qed.

(** An environment that, whenever something is in flight, reports an outcome for
    at least one attempt. *)
Definition answers (env : N → BacklogRunner → gmap BacklogTaskId AttemptOutcome) : Prop :=
  ∀ k r, running r ≠ ∅ → ∃ x, x ∈ running r ∧ is_Some (env k r !! x).

Fixpoint drive (env : N → BacklogRunner → gmap BacklogTaskId AttemptOutcome) (n : nat)
    (r : BacklogRunner) : BacklogRunner :=
  match n with
  | O => r
  | S n => drive env n (tick r (env (N.of_nat n) r)).1
  end.

Lemma drive_stopped env n r : is_Some (stop_reason r) → drive env n r = r.
Proof.
  revert r. induction n as [|n IH]; intros r Hs; simpl; [done|].
  unfold tick. rw bool_decide_true //. simpl. by apply IH.
Qed.

Lemma drive_stops i env n r :
  SchedulerConfig_validate (in_scheduler_config i) = Ok tt → answers env → runner_inv i ∅ r →
  work_left r < N.of_nat n → is_Some (stop_reason (drive env n r)).
Proof.
  intros Hv Ha. revert r. induction n as [|n IH]; intros r Hr Hn; [lia|]. simpl.
  destruct (stop_reason r) as [s|] eqn:Hs.
  { unfold tick. rw Hs bool_decide_true //. simpl. rw drive_stopped; by rw Hs. }
  set (os := env (N.of_nat n) r).
  destruct (stop_reason (tick r os).1) as [s'|] eqn:Hs'; [rw drive_stopped; by rw Hs'|].
  apply IH; [by apply tick_inv|].
  destruct (tick_decreases i r os Hr Hs') as [_ Hlt].
  assert (journal (tick r os).1 ≠ journal r) as Hne; [|specialize (Hlt Hne); lia].
  intros Hj. pose proof (tick_journal i r os Hr) as Hj'. rw Hj in Hj'.
  assert ((tick r os).2 = []) as Hq.
  { apply (f_equal length) in Hj'. rw length_app in Hj'. apply nil_length_inv. lia. }
  destruct (tick_silent i r os Hv Hr Hs Hq) as [Hrun Hno].
  destruct (Ha (N.of_nat n) r Hrun) as (x & Hx & [o Ho]). by rw (Hno x Hx) in Ho.
Qed.

Lemma run_loop_saturates i r os n m emitted :
  runner_inv i ∅ r → work_left r < N.of_nat n →
  run_loop r os (n + m) emitted = run_loop r os n emitted.
Proof.
  revert r emitted. induction n as [|n IH]; intros r emitted Hr Hn; [lia|]. simpl.
  case_bool_decide as Hs; [done|]. pose proof (tick_inv i r os Hr) as Ht.
  pose proof (tick_decreases i r os Hr) as Hd. pose proof (tick_journal i r os Hr) as Hj.
  destruct (tick r os) as [r' evs]. simpl in *.
  destruct evs as [|ev evs]; simpl; [done|].
  destruct (stop_reason r') as [s|] eqn:Hs'.
  - assert (∀ k em, run_loop r' os k em = (r', em)) as Hrun.
    { intros [|k] em; simpl; [done|]. by rw Hs' bool_decide_true. }
    by rw !Hrun.
  - apply IH; [done|]. destruct (Hd eq_refl) as [_ Hlt].
    assert (journal r' ≠ journal r) as Hne; [|specialize (Hlt Hne); lia].
    rw Hj. intros E. apply (f_equal length) in E. rw length_app /= in E. lia.
Qed.

Lemma reachable_scheduler_valid i r :
  reachable i r → SchedulerConfig_validate (in_scheduler_config i) = Ok tt.
Proof.
  induction 1 as [r Hn|]; [|done]. unfold BacklogRunner_new in Hn. guards_in Hn.
  repeat match goal with H : map_err _ _ = Ok ?u |- _ => apply map_err_ok in H; destruct u end.
  done.
Qed.

(** A backlog with nothing eligible and tasks left is caught in a cycle. *)
Lemma stuck_in_cycle d (done_ : gset BacklogTaskId) x :
  dag_wf d → eligible d done_ = [] → is_Some (dag_tasks d !! x) → x ∉ done_ →
  blocked_by_cycle d x.
Proof.
  intros Hwf Hel Hx Hni. apply (stuck_blocked d (elements done_)); [done| |done|by rw elem_of_elements].
  intros y (Hy & Hyn & Hdeps). assert (y ∈ eligible d done_) as Hin.
  { apply elem_of_eligible. setoid_rewrite elem_of_elements in Hdeps.
    rw elem_of_elements in Hyn. done. }
  rw Hel in Hin. by apply elem_of_nil in Hin.
Qed.

(** ** Properties *)

(** C5. Every stop reason is true of the backlog.  [BacklogEmpty]: every task is
    completed.  [NoEligibleTasks]: nothing runs or waits, and every task left is
    held up by a dependency cycle.  [BudgetExhausted]: the budget is zero while
    an eligible task is not running.  The approval, failure and security stops:
    a task is blocked for that reason.  Without a stop, or paused, nothing is
    blocked. *)
Theorem stop_reason_exact i r :
  reachable i r → dag_wf (in_dag i) →
  match stop_reason r with
  | None | Some Stop_Paused => ∀ x, blocked r !! x = None
  | Some Stop_BacklogEmpty => ∀ x, is_Some (dag_tasks (in_dag i) !! x) → x ∈ completed r
  | Some Stop_NoEligibleTasks =>
      running r = ∅ ∧ pending r = ∅
      ∧ (∃ x, is_Some (dag_tasks (in_dag i) !! x) ∧ x ∉ completed r)
      ∧ ∀ x, is_Some (dag_tasks (in_dag i) !! x) → x ∉ completed r → blocked_by_cycle (in_dag i) x
  | Some Stop_BudgetExhausted =>
      budget_remaining r = 0 ∧ ∃ x, x ∈ eligible (in_dag i) (completed r) ∧ x ∉ running r
  | Some Stop_ApprovalRequired => ∃ x, blocked r !! x = Some Block_ApprovalRequired
  | Some Stop_FailuresBlocked => ∃ x, blocked r !! x = Some Block_HumanEscalation
  | Some Stop_SecurityBlock => ∃ x, blocked r !! x = Some Block_SecurityBlock
  end.
Proof.
  intros Hok%reachable_stop_ok Hwf. unfold stop_ok in Hok.
  destruct (stop_reason r) as [[]|]; try done. destruct Hok as (? & ? & Hel & ?).
  split_and!; [done..|]. intros x Hx Hni. by eapply stuck_in_cycle.
Qed.

Definition demo_cyclic_ops : list RunnerOp :=
  [OpTick ∅; OpTick {[ demo_id "d" := Out_Completed ]}].

Definition demo_cyclic_state : BacklogRunner :=
  foldl runner_step (demo_runner demo_cyclic 9) demo_cyclic_ops.

Lemma stop_reason_exact_witness :
  stop_reason demo_cyclic_state = Some Stop_NoEligibleTasks
  ∧ ∀ x, is_Some (dag_tasks demo_cyclic !! x) → x ∉ completed demo_cyclic_state →
         blocked_by_cycle demo_cyclic x.
Proof.
  assert (stop_reason demo_cyclic_state = Some Stop_NoEligibleTasks) as E
    by (vm_compute; reflexivity).
  split; [exact E|].
  pose proof (stop_reason_exact (demo_runner_input demo_cyclic 9) demo_cyclic_state) as H.
  rw E in H. apply H.
  - apply reachable_run. constructor. vm_compute. reflexivity.
  - exact (proj1 (TaskDag_new_inv _ _ demo_cyclic_new)).
Defined.

(** Progress: a tick of a run that has not stopped appends nothing only when
    attempts are in flight and the environment reported an outcome for none of
    them; in particular an idle run is never stuck. *)
Theorem tick_progress i r os :
  reachable i r → stop_reason r = None → (tick r os).2 = [] →
  running r ≠ ∅ ∧ ∀ x, x ∈ running r → os !! x = None.
Proof.
  intros Hr. apply (tick_silent i); [by eapply reachable_scheduler_valid|by apply reachable_inv].
Qed.

Lemma tick_progress_witness :
  running demo_state ≠ ∅ ∧ ∀ x, x ∈ running demo_state →
    ({[ demo_id "zzz" := Out_Completed ]} : gmap BacklogTaskId AttemptOutcome) !! x = None.
Proof.
  apply (tick_progress _ demo_state {[ demo_id "zzz" := Out_Completed ]} demo_state_reachable);
    vm_compute; reflexivity.
Defined.

(** C1. Termination.  Driven by an environment that keeps reporting outcomes for
    what is in flight, a run stops within [2 * budget + in flight + 1] ticks,
    whatever the outcomes are. *)
Theorem runner_terminates i r env n :
  reachable i r → answers env →
  2 * budget_remaining r + N.of_nat (size (running r)) < N.of_nat n →
  is_Some (stop_reason (drive env n r)).
Proof.
  intros Hr Ha Hn. apply (drive_stops i); [by eapply reachable_scheduler_valid|done|by apply reachable_inv|done].
Qed.

(** Everything in flight completes, or everything in flight fails for lack of
    idempotency evidence. *)
Definition demo_env (o : AttemptOutcome) (k : N) (r : BacklogRunner)
    : gmap BacklogTaskId AttemptOutcome := set_to_map (λ x, (x, o)) (running r).

Lemma demo_env_answers o : answers (demo_env o).
Proof.
  intros k r Hr. apply set_choose_L in Hr as [x Hx]. exists x. split; [done|]. exists o.
  unfold demo_env. apply lookup_set_to_map; [done|]. by exists x.
Qed.

Lemma runner_terminates_witness :
  is_Some (stop_reason (drive (demo_env (Out_Failed ToolOrProcess None None)) 19
                          (demo_runner demo_ab 9)))
  ∧ stop_reason (drive (demo_env (Out_Failed ToolOrProcess None None)) 19 (demo_runner demo_ab 9))
    = Some Stop_FailuresBlocked
  ∧ stop_reason (drive (demo_env Out_Completed) 19 (demo_runner demo_ab 9)) = Some Stop_BacklogEmpty.
Proof.
  split_and!; [|vm_compute; reflexivity..].
  apply (runner_terminates (demo_runner_input demo_ab 9) (demo_runner demo_ab 9)).
  - constructor. apply demo_new.
  - apply demo_env_answers.
  - vm_compute. reflexivity.
Defined.

(** [run] never spins: with the same outcomes reported at every tick, the
    loop has ended, by a stop or by a tick without events, before
    [2 * budget + in flight + 1] ticks; a larger tick bound changes neither the
    final state nor the events. *)
Theorem run_saturates i r os n m :
  reachable i r → 2 * budget_remaining r + N.of_nat (size (running r)) < n →
  run r os (n + m) = run r os n.
Proof.
  intros Hr%reachable_inv Hn. unfold run. rw N2Nat.inj_add. eapply run_loop_saturates; [done|].
  unfold work_left. lia.
Qed.

Lemma run_saturates_witness :
  run (demo_runner demo_ab 9) {[ demo_id "a" := Out_Completed ]} (19 + 4294967276)
  = run (demo_runner demo_ab 9) {[ demo_id "a" := Out_Completed ]} 19.
Proof.
  apply (run_saturates (demo_runner_input demo_ab 9)).
  - constructor. apply demo_new.
  - vm_compute. reflexivity.
Defined.
