(* ===== verification/Model.v ===== *)
(** * Domain types shared by the crates

    The parts of [crates/orchestraitor-model/src] the modelled crates use: the
    opaque operation identifier of [ids.rs] and the lifecycle states of
    [enums.rs]. *)

From S2P Require Import Prelude BTree.

(** [id_newtype!(OperationId, ..)]: a string behind a newtype. *)
Record OperationId := MkOperationId { operation_str : rstr }.

#[export] Instance OperationId_eq_dec : EqDecision OperationId.
Proof. solve_decision. Defined.

Inductive SessionState :=
  | Queued | Running | InputRequired | ApprovalRequired | AuthenticationRequired | Paused
  | Completed | Failed | Cancelled | Rejected | Orphaned.

#[export] Instance SessionState_eq_dec : EqDecision SessionState.
Proof. solve_decision. Defined.
