(* ===== verification/Events.v ===== *)
(** * Audit events

    [crates/orchestraitor-events/src]: the event envelope and its validation
    ([schema.rs]), the hash chain ([hash.rs]), privacy redaction
    ([redaction.rs]), the [AuditStore] trait with its in-memory implementation
    ([store.rs]) and the appender of reasoning events ([reasoning.rs]), with
    [is_redacted_field] of [crates/orchestraitor-core/src/trace.rs].

    The JSON library, the canonicaliser and SHA-256 are parameters, the class
    [Externals]. *)

From S2P Require Import Prelude BTree Text Model.

(** ** JSON values

    [serde_json::Value].  A [Map] keeps insertion order, so it is the list of
    its fields; its equality, and every canonical form, ignores that order. *)

Inductive Number := PosInt (n : N) | NegInt (z : Z) | Float (bits : N).

#[warnings="-register-all"]
Inductive Value :=
  | VNull
  | VBool (b : bool)
  | VNumber (n : Number)
  | VString (s : rstr)
  | VArray (items : list Value)
  | VObject (fields : list (rstr * Value)).

#[export] Instance Number_eq_dec : EqDecision Number.
Proof. solve_decision. Defined.

Section value_ind.
Context (P : Value → Prop).
Context (Pnull : P VNull) (Pbool : ∀ b, P (VBool b)) (Pnumber : ∀ n, P (VNumber n)).
Context (Pstring : ∀ s, P (VString s)).
Context (Parray : ∀ l, (∀ v, v ∈ l → P v) → P (VArray l)).
Context (Pobject : ∀ l, (∀ k v, (k, v) ∈ l → P v) → P (VObject l)).

Fixpoint Value_nested_ind (v : Value) : P v.
Proof.
  destruct v as [|b|n|s|l|l]; [done..| |].
  - apply Parray. induction l as [|w l IH]; intros v Hv; [by destruct (not_elem_of_nil _ Hv)|].
    apply elem_of_cons in Hv as [->|Hv]; [apply Value_nested_ind|by apply IH].
  - apply Pobject. induction l as [|[j w] l IH]; intros k v Hv; [by destruct (not_elem_of_nil _ Hv)|].
    apply elem_of_cons in Hv as [[= -> ->]|Hv]; [apply Value_nested_ind|by eapply IH].
Qed.
End value_ind.

#[export] Instance Value_eq_dec : EqDecision Value.
Proof.
  refine (fix go v w := let _ : EqDecision Value := @go in
    match v, w with
    | VNull, VNull => left eq_refl
    | VBool b, VBool c => cast_if (decide (b = c))
    | VNumber m, VNumber n => cast_if (decide (m = n))
    | VString s, VString t => cast_if (decide (s = t))
    | VArray l, VArray k => cast_if (decide (l = k))
    | VObject l, VObject k => cast_if (decide (l = k))
    | _, _ => right _
    end); abstract congruence.
Defined.

(** Fields in key order, at every depth. *)
Fixpoint normalize (v : Value) : Value :=
  match v with
  | VArray l => VArray (List.map normalize l)
  | VObject l =>
      VObject (merge_sort (λ a b, kle a.1 b.1) (List.map (λ '(k, w), (k, normalize w)) l))
  | _ => v
  end.

(** ** Sensitive field names *)

Definition ends_with_str (suffix s : rstr) : bool :=
  bool_decide (drop (length s - length suffix) s = suffix).

Definition is_redacted_field (field : rstr) : bool :=
  let normalized := replace 45 95 (to_ascii_lowercase field) in
  bool_decide (normalized ∈
    lit <$> ["api_key"; "authorization"; "bearer"; "cookie"; "password"; "secret"; "token";
             "x_api_key"; "x_goog_api_key"])
  || ends_with_str (lit "_key") normalized
  || ends_with_str (lit "_secret") normalized
  || ends_with_str (lit "_token") normalized.

(** ** The envelope *)

Definition CURRENT_SCHEMA_VERSION : N := 1.

Inductive SchemaInterpretation := Interpreted | Uninterpreted.

#[export] Instance SchemaInterpretation_eq_dec : EqDecision SchemaInterpretation.
Proof. solve_decision. Defined.

Inductive EventCategory :=
  | SessionLifecycle | AdapterLifecycle | ModelRequest | ModelResponseMetadata | ContextSelection
  | ToolRequest | ActionPlan | PolicyDecision | Approval | ProcessExecution | NetworkRequest
  | SecretUse | FileObservation | GitOperation | OutputPromotion | SandboxCapability
  | ResourceUsage | Error | SecurityFinding | AgentReasoning.

#[export] Instance EventCategory_eq_dec : EqDecision EventCategory.
Proof. solve_decision. Defined.

Record HashDigest := MkDigest { digest_str : rstr }.

#[export] Instance HashDigest_eq_dec : EqDecision HashDigest.
Proof. solve_decision. Defined.

Record EventEnvelope := {
  schema_version : N;
  monotonic_seq : N;
  wall_clock_ts : rstr;
  correlation_id : OperationId;
  parent_op_id : option OperationId;
  category : EventCategory;
  payload : Value;
  prev_hash : option HashDigest;
}.

(** [EventEnvelopeInput] has the fields of the envelope it becomes. *)
Record EventEnvelopeInput := {
  inp_schema_version : N;
  inp_monotonic_seq : N;
  inp_wall_clock_ts : rstr;
  inp_correlation_id : OperationId;
  inp_parent_op_id : option OperationId;
  inp_category : EventCategory;
  inp_payload : Value;
  inp_prev_hash : option HashDigest;
}.

#[export] Instance EventEnvelope_eq_dec : EqDecision EventEnvelope.
Proof. solve_decision. Defined.

(** The errors of the libraries are carried as their text. *)
Inductive EventError :=
  | CanonicalJson (source : rstr)
  | Json (source : rstr)
  | SensitiveField (field : rstr)
  | SequenceGap (expected observed : N)
  | PreviousHashMismatch (sequence : N)
  | RecordHashMismatch (sequence : N)
  | Sqlite (source : rstr).

Fixpoint reject_sensitive_fields (value : Value) : result unit EventError :=
  match value with
  | VObject object =>
      (fix go l :=
         match l with
         | [] => Ok tt
         | (key, nested) :: l =>
             if is_redacted_field key then Err (SensitiveField key) else
             let? _ := reject_sensitive_fields nested in go l
         end) object
  | VArray items =>
      (fix go l :=
         match l with
         | [] => Ok tt
         | item :: l => let? _ := reject_sensitive_fields item in go l
         end) items
  | VNull | VBool _ | VNumber _ | VString _ => Ok tt
  end.

Definition EventEnvelope_try_new (i : EventEnvelopeInput) : result EventEnvelope EventError :=
  let? _ := reject_sensitive_fields (inp_payload i) in
  Ok {| schema_version := inp_schema_version i; monotonic_seq := inp_monotonic_seq i;
        wall_clock_ts := inp_wall_clock_ts i; correlation_id := inp_correlation_id i;
        parent_op_id := inp_parent_op_id i; category := inp_category i;
        payload := inp_payload i; prev_hash := inp_prev_hash i |}.

Definition schema_interpretation (e : EventEnvelope) : SchemaInterpretation :=
  if schema_version e <=? CURRENT_SCHEMA_VERSION then Interpreted else Uninterpreted.

(** ** Redaction *)

Inductive PrivacyExportMode := Full | Redacted.

Definition set_payload (e : EventEnvelope) (v : Value) : EventEnvelope := {|
  schema_version := schema_version e; monotonic_seq := monotonic_seq e;
  wall_clock_ts := wall_clock_ts e; correlation_id := correlation_id e;
  parent_op_id := parent_op_id e; category := category e; payload := v;
  prev_hash := prev_hash e |}.

Definition set_prev_hash (e : EventEnvelope) (h : option HashDigest) : EventEnvelope := {|
  schema_version := schema_version e; monotonic_seq := monotonic_seq e;
  wall_clock_ts := wall_clock_ts e; correlation_id := correlation_id e;
  parent_op_id := parent_op_id e; category := category e; payload := payload e;
  prev_hash := h |}.

(** [json!({"redacted": true})]. *)
Definition redacted_marker : Value := VObject [(lit "redacted", VBool true)].

Definition redacts_entire_payload (mode : PrivacyExportMode) (c : EventCategory) : bool :=
  match mode, c with
  | _, SecretUse
  | Redacted, (ModelRequest | ModelResponseMetadata | ContextSelection | ToolRequest | ActionPlan
               | FileObservation | AgentReasoning) => true
  | _, _ => false
  end.

Fixpoint redact_sensitive_fields (value : Value) : Value :=
  match value with
  | VObject object =>
      VObject (List.map
        (λ '(key, v), (key, if is_redacted_field key then redacted_marker
                            else redact_sensitive_fields v)) object)
  | VArray items => VArray (List.map redact_sensitive_fields items)
  | VNull | VBool _ | VNumber _ | VString _ => value
  end.

Record AuditRecord := { envelope : EventEnvelope; hash : HashDigest }.

#[export] Instance AuditRecord_eq_dec : EqDecision AuditRecord.
Proof. solve_decision. Defined.

Definition redact_event (r : AuditRecord) (mode : PrivacyExportMode) : EventEnvelope :=
  set_payload (envelope r)
    (if redacts_entire_payload mode (category (envelope r)) then redacted_marker
     else redact_sensitive_fields (payload (envelope r))).

(** ** The libraries the crate calls

    [serde_json_canonicalizer::to_vec] on an envelope,
    [hex::encode(Sha256::digest(..))], [serde_json_canonicalizer::to_writer] on
    a record and [serde_json::from_slice] on a line. *)
Class Externals := {
  canonical_json : EventEnvelope → result (list N) rstr;
  sha256_hex : list N → rstr;
  record_to_line : AuditRecord → result (list N) rstr;
  record_from_line : list N → result AuditRecord rstr;
}.

(** Equality up to the order of fields. *)
Definition norm_envelope (e : EventEnvelope) : EventEnvelope :=
  set_payload e (normalize (payload e)).
Definition norm_record (r : AuditRecord) : AuditRecord :=
  {| envelope := norm_envelope (envelope r); hash := hash r |}.

(** Canonical JSON does not depend on the order of fields. *)
Class ExternalsLaws `{Externals} :=
  canonical_respects e e' : norm_envelope e = norm_envelope e' → canonical_json e = canonical_json e'.

(** ** The hash chain *)

Section chain.
Context `{Externals}.

Definition hash_envelope (e : EventEnvelope) : result HashDigest EventError :=
  match canonical_json e with
  | Err source => Err (CanonicalJson source)
  | Ok canonical => Ok (MkDigest (sha256_hex canonical))
  end.

(** [for record in records]. *)
Fixpoint validate_from (expected_sequence : N) (previous_hash : option HashDigest)
    (records : list AuditRecord) : result unit EventError :=
  match records with
  | [] => Ok tt
  | r :: records =>
      let sequence := monotonic_seq (envelope r) in
      if negb (sequence =? expected_sequence)
      then Err (SequenceGap expected_sequence sequence) else
      if negb (bool_decide (prev_hash (envelope r) = previous_hash))
      then Err (PreviousHashMismatch sequence) else
      let? computed := hash_envelope (envelope r) in
      if negb (bool_decide (computed = hash r)) then Err (RecordHashMismatch sequence) else
      validate_from (saturating_add u64_max expected_sequence 1) (Some computed) records
  end.

Definition validate_hash_chain (records : list AuditRecord) : result unit EventError :=
  validate_from 1 None records.

Definition try_from_envelope (e : EventEnvelope) : result AuditRecord EventError :=
  let? h := hash_envelope e in Ok {| envelope := e; hash := h |}.

Definition validate_next_envelope (records : list AuditRecord) (e : EventEnvelope)
    : result unit EventError :=
  let expected_sequence :=
    match list.last records with
    | Some r => saturating_add u64_max (monotonic_seq (envelope r)) 1
    | None => 1
    end in
  if negb (monotonic_seq e =? expected_sequence)
  then Err (SequenceGap expected_sequence (monotonic_seq e)) else
  let expected_previous := hash <$> list.last records in
  if negb (bool_decide (prev_hash e = expected_previous))
  then Err (PreviousHashMismatch (monotonic_seq e)) else
  Ok tt.
End chain.

(** ** Stores *)

Record EventQuery := {
  q_category : option EventCategory;
  since_seq : option N;
  until_seq : option N;
  include_uninterpreted : bool;
}.

Record AuditHead := { seq_base : N; head_prev_hash : option HashDigest }.

(** The trait; a method on [&mut self] returns the new store. *)
Class AuditStore (S : Type) := {
  store_append : S → EventEnvelope → S * result AuditRecord EventError;
  store_query : S → EventQuery → result (list AuditRecord) EventError;
  store_head : S → result AuditHead EventError;
  store_export : S → PrivacyExportMode → result (list N) EventError;
  store_import : S → list N → S * result (list AuditRecord) EventError;
}.

(** The trait's default [head], by an unfiltered query. *)
Definition default_head {S : Type} `{AuditStore S} (s : S) : result AuditHead EventError :=
  let? rs := store_query s {| q_category := None; since_seq := None; until_seq := None;
                              include_uninterpreted := true |} in
  Ok {| seq_base := len rs; head_prev_hash := hash <$> list.last rs |}.

Record InMemoryAuditStore := MkStore { records : list AuditRecord }.

Definition matches_query (r : AuditRecord) (q : EventQuery) : bool :=
  from_option (λ c, bool_decide (category (envelope r) = c)) true (q_category q)
  && from_option (λ n, n <=? monotonic_seq (envelope r)) true (since_seq q)
  && from_option (λ n, monotonic_seq (envelope r) <=? n) true (until_seq q)
  && (include_uninterpreted q
      || bool_decide (schema_interpretation (envelope r) = Interpreted)).

(** [bytes.split(|byte| *byte == b'\n')]. *)
Fixpoint split_lines (line : list N) (bytes : list N) : list (list N) :=
  match bytes with
  | [] => [line]
  | b :: bytes => if b =? 10 then line :: split_lines [] bytes
                  else split_lines (line ++ [b]) bytes
  end.

Section in_memory.
Context `{Externals}.

Definition in_memory_append (s : InMemoryAuditStore) (e : EventEnvelope)
    : InMemoryAuditStore * result AuditRecord EventError :=
  match validate_next_envelope (records s) e with
  | Err x => (s, Err x)
  | Ok _ =>
      match try_from_envelope e with
      | Err x => (s, Err x)
      | Ok r => (MkStore (records s ++ [r]), Ok r)
      end
  end.

Definition in_memory_query (s : InMemoryAuditStore) (q : EventQuery)
    : result (list AuditRecord) EventError :=
  Ok (List.filter (λ r, matches_query r q) (records s)).

Definition in_memory_head (s : InMemoryAuditStore) : result AuditHead EventError :=
  Ok {| seq_base := len (records s); head_prev_hash := hash <$> list.last (records s) |}.

(** [for record in &self.records]. *)
Fixpoint export_loop (mode : PrivacyExportMode) (previous_hash : option HashDigest)
    (rs : list AuditRecord) (output : list N) : result (list N) EventError :=
  match rs with
  | [] => Ok output
  | r :: rs =>
      let? exported := try_from_envelope (set_prev_hash (redact_event r mode) previous_hash) in
      let? line := map_err CanonicalJson (record_to_line exported) in
      export_loop mode (Some (hash exported)) rs (output ++ line ++ [10])
  end.

Definition in_memory_export (s : InMemoryAuditStore) (mode : PrivacyExportMode)
    : result (list N) EventError := export_loop mode None (records s) [].

Fixpoint parse_lines (lines : list (list N)) (imported : list AuditRecord)
    : result (list AuditRecord) EventError :=
  match lines with
  | [] => Ok imported
  | line :: lines =>
      if is_empty line then parse_lines lines imported else
      let? r := map_err Json (record_from_line line) in
      parse_lines lines (imported ++ [r])
  end.

Definition in_memory_import (s : InMemoryAuditStore) (bytes : list N)
    : InMemoryAuditStore * result (list AuditRecord) EventError :=
  match parse_lines (split_lines [] bytes) [] with
  | Err x => (s, Err x)
  | Ok imported =>
      match validate_hash_chain imported with
      | Err x => (s, Err x)
      | Ok _ => (MkStore imported, Ok imported)
      end
  end.

#[export] Instance in_memory_store : AuditStore InMemoryAuditStore := {|
  store_append := in_memory_append;
  store_query := in_memory_query;
  store_head := in_memory_head;
  store_export := in_memory_export;
  store_import := in_memory_import;
|}.
End in_memory.

(** What the clients of a store rely on: a log that is always a valid chain,
    that an append extends by exactly the record of a continuing envelope and
    otherwise leaves alone, and that the head describes. *)
Class AuditStoreLaws (S : Type) `{Externals} `{AuditStore S} := {
  log : S → list AuditRecord;
  store_ok : S → Prop;
  ok_chain s : store_ok s → validate_hash_chain (log s) = Ok tt;
  append_law s e :
    store_ok s →
    store_ok (store_append s e).1
    ∧ match (store_append s e).2 with
      | Ok r => log (store_append s e).1 = log s ++ [r] ∧ envelope r = e
                ∧ validate_next_envelope (log s) e = Ok tt ∧ hash_envelope e = Ok (hash r)
      | Err _ => log (store_append s e).1 = log s
                 ∧ ¬ (validate_next_envelope (log s) e = Ok tt ∧ is_Ok (hash_envelope e))
      end;
  head_law s :
    store_ok s →
    store_head s = Ok {| seq_base := len (log s); head_prev_hash := hash <$> list.last (log s) |};
  query_law s :
    store_ok s →
    store_query s {| q_category := None; since_seq := None; until_seq := None; include_uninterpreted := true |}
    = Ok (log s);
}.

(** ** Chains *)

Section chain_lemmas.
Context `{Externals}.

(** [r] is a correct record at sequence [n] after the hash [p]. *)
Definition links (n : N) (p : option HashDigest) (r : AuditRecord) : Prop :=
  monotonic_seq (envelope r) = n ∧ prev_hash (envelope r) = p
  ∧ hash_envelope (envelope r) = Ok (hash r).

Definition last_hash (p : option HashDigest) (rs : list AuditRecord) : option HashDigest :=
  match list.last rs with Some r => Some (hash r) | None => p end.

Lemma validate_from_cons n p r rs :
  validate_from n p (r :: rs) = Ok tt ↔
    links n p r ∧ validate_from (saturating_add u64_max n 1) (Some (hash r)) rs = Ok tt.
Proof.
  simpl. rw !guard_ok result_bind_ok. setoid_rewrite guard_ok. unfold links. split.
  - intros (? & ? & h & Hh & ? & Hv). bool_simpl. by subst.
  - intros ((<- & <- & Hh) & Hv). rw N.eqb_refl bool_decide_true //.
    split_and!; [done..|]. exists (hash r). by rw bool_decide_true.
Qed.

Lemma last_hash_cons p r rs : last_hash p (r :: rs) = last_hash (Some (hash r)) rs.
Proof. unfold last_hash. rw last_cons. by destruct (list.last rs). Qed.

Lemma last_hash_none rs : last_hash None rs = hash <$> list.last rs.
Proof. unfold last_hash. by destruct (list.last rs). Qed.

Lemma validate_from_app n p rs ks :
  n ≤ u64_max →
  validate_from n p (rs ++ ks) = Ok tt ↔
    validate_from n p rs = Ok tt
    ∧ validate_from (saturating_add u64_max n (len rs)) (last_hash p rs) ks = Ok tt.
Proof.
  revert n p. induction rs as [|r rs IH]; intros n p Hn.
  { rw len_nil /saturating_add N.add_0_r N.min_l //. simpl. naive_solver. }
  rw -app_comm_cons !validate_from_cons IH; [|auto with orc].
  rw last_hash_cons len_cons.
  replace (saturating_add u64_max (saturating_add u64_max n 1) (len rs))
    with (saturating_add u64_max n (1 + len rs)) by (unfold saturating_add; lia).
  naive_solver.
Qed.

Lemma validate_snoc rs r :
  validate_hash_chain (rs ++ [r]) = Ok tt ↔
    validate_hash_chain rs = Ok tt
    ∧ links (saturating_add u64_max (len rs) 1) (hash <$> list.last rs) r.
Proof.
  unfold validate_hash_chain. rw validate_from_app // validate_from_cons last_hash_none.
  replace (saturating_add u64_max 1 (len rs)) with (saturating_add u64_max (len rs) 1)
    by (unfold saturating_add; lia).
  simpl. naive_solver.
Qed.

Lemma validate_next_ok rs e :
  validate_hash_chain rs = Ok tt →
  validate_next_envelope rs e = Ok tt ↔
    monotonic_seq e = saturating_add u64_max (len rs) 1 ∧ prev_hash e = hash <$> list.last rs.
Proof.
  intros Hv. unfold validate_next_envelope. rw !guard_ok.
  replace (match list.last rs with
           | Some r => saturating_add u64_max (monotonic_seq (envelope r)) 1
           | None => 1 end) with (saturating_add u64_max (len rs) 1).
  { split.
    - intros (? & ? & _). by bool_simpl.
    - intros (-> & ->). by rw N.eqb_refl bool_decide_true. }
  destruct rs as [|r rs _] using rev_ind; [done|].
  rw last_snoc. apply validate_snoc in Hv as (_ & -> & _).
  rw len_app len_cons len_nil. unfold saturating_add. lia.
Qed.
End chain_lemmas.

(** ** The in-memory store keeps the laws *)

Section in_memory_laws.
Context `{Externals}.

Lemma in_memory_append_law s e :
  validate_hash_chain (records s) = Ok tt →
  validate_hash_chain (records (in_memory_append s e).1) = Ok tt
  ∧ match (in_memory_append s e).2 with
    | Ok r => records (in_memory_append s e).1 = records s ++ [r] ∧ envelope r = e
              ∧ validate_next_envelope (records s) e = Ok tt ∧ hash_envelope e = Ok (hash r)
    | Err _ => records (in_memory_append s e).1 = records s
               ∧ ¬ (validate_next_envelope (records s) e = Ok tt ∧ is_Ok (hash_envelope e))
    end.
Proof.
  intros Hv. unfold in_memory_append, try_from_envelope.
  destruct (validate_next_envelope (records s) e) as [[]|x] eqn:En; simpl; [|naive_solver].
  destruct (hash_envelope e) as [h|x] eqn:Eh; simpl.
  - split; [|done]. apply validate_snoc. split; [done|].
    apply validate_next_ok in En as [??]; done.
  - split; [done|]. split; [done|]. by intros [_ [? [=]]].
Qed.

Lemma in_memory_query_all s :
  in_memory_query s {| q_category := None; since_seq := None; until_seq := None; include_uninterpreted := true |}
  = Ok (records s).
Proof.
  unfold in_memory_query. f_equal. induction (records s) as [|r rs IH]; [done|]. simpl. by rw IH.
Qed.

#[export] Instance in_memory_laws : AuditStoreLaws InMemoryAuditStore := {|
  log := records;
  store_ok s := validate_hash_chain (records s) = Ok tt;
  ok_chain s Hs := Hs;
  append_law := in_memory_append_law;
  head_law s _ := eq_refl;
  query_law s _ := in_memory_query_all s;
|}.

(** The override of [head] agrees with the default. *)
Lemma in_memory_head_default (s : InMemoryAuditStore) : default_head s = store_head s.
Proof. unfold default_head. cbn [store_query in_memory_store]. by rw in_memory_query_all. Qed.

Lemma in_memory_import_ok s bytes :
  validate_hash_chain (records s) = Ok tt →
  validate_hash_chain (records (in_memory_import s bytes).1) = Ok tt.
Proof.
  intros Hs. unfold in_memory_import. destruct (parse_lines _ _) as [rs|]; [|done].
  by destruct (validate_hash_chain rs) as [[]|] eqn:E.
Qed.

Lemma chain_lookup rs k r :
  validate_hash_chain rs = Ok tt → rs !! k = Some r →
  links (saturating_add u64_max (N.of_nat k) 1) (hash <$> list.last (take k rs)) r.
Proof.
  intros Hv Hk.
  assert (validate_hash_chain (take k rs ++ [r]) = Ok tt) as Hp.
  { rw -(take_drop_middle rs k r Hk) (cons_middle r) app_assoc in Hv.
    by apply validate_from_app in Hv as [? _]. }
  apply validate_snoc in Hp as [_ Hl].
  replace (N.of_nat k) with (len (take k rs)); [done|].
  unfold len. rw length_take_le //. apply lookup_lt_Some in Hk. lia.
Qed.

(** Every use of the store: appends and imports, in any order. *)
Inductive StoreOp := Append (e : EventEnvelope) | Import (bytes : list N).

Definition store_step (s : InMemoryAuditStore) (o : StoreOp) : InMemoryAuditStore :=
  match o with Append e => (store_append s e).1 | Import bytes => (store_import s bytes).1 end.

Lemma store_run_ok ops s :
  store_ok s → store_ok (foldl store_step s ops).
Proof.
  revert s. induction ops as [|[e|b] ops IH]; intros s Hs; [done|..]; apply IH; simpl.
  - by apply in_memory_append_law.
  - by apply in_memory_import_ok.
Qed.
End in_memory_laws.

(** ** Clients of a store *)

Section client_lemmas.
Context {S : Type} `{AuditStoreLaws S}.

Lemma continues_log s e :
  store_ok s → monotonic_seq e = saturating_add u64_max (len (log s)) 1 →
  prev_hash e = hash <$> list.last (log s) → validate_next_envelope (log s) e = Ok tt.
Proof. intros Hs Hn Hp. apply validate_next_ok; [by apply ok_chain|done]. Qed.

(** Appending an envelope that continues the log fails only if it cannot be
    hashed. *)
Lemma append_continuing s e :
  store_ok s → monotonic_seq e = saturating_add u64_max (len (log s)) 1 →
  prev_hash e = hash <$> list.last (log s) →
  store_ok (store_append s e).1
  ∧ match (store_append s e).2 with
    | Ok r => log (store_append s e).1 = log s ++ [r] ∧ envelope r = e
    | Err _ => log (store_append s e).1 = log s ∧ ¬ is_Ok (canonical_json e)
    end.
Proof.
  intros Hs Hn Hp. destruct (append_law s e Hs) as [Hok Ha]. split; [done|].
  destruct (store_append s e).2 as [r|x]; [naive_solver|]. destruct Ha as [? Ha].
  split; [done|]. intros [c Hc]. apply Ha. split; [by apply continues_log|].
  unfold hash_envelope. rw Hc. by eexists.
Qed.

Lemma try_new_ok i e :
  EventEnvelope_try_new i = Ok e →
  monotonic_seq e = inp_monotonic_seq i ∧ prev_hash e = inp_prev_hash i
  ∧ payload e = inp_payload i ∧ category e = inp_category i
  ∧ correlation_id e = inp_correlation_id i.
Proof.
  unfold EventEnvelope_try_new. intros Hi. by apply result_bind_ok in Hi as (? & _ & [= <-]).
Qed.

(** Why an event with this payload cannot be recorded. *)
Definition unrecordable (v : Value) : Prop :=
  ¬ is_Ok (reject_sensitive_fields v) ∨ ∃ e, payload e = v ∧ ¬ is_Ok (canonical_json e).

Lemma try_new_err i x : EventEnvelope_try_new i = Err x → unrecordable (inp_payload i).
Proof.
  unfold EventEnvelope_try_new. intros Ei. left. destruct (reject_sensitive_fields _); [done|]. by intros [? [=]].
Qed.

(** An envelope built to continue the log is appended, unless it is
    unrecordable. *)
Lemma append_built s i e :
  store_ok s → EventEnvelope_try_new i = Ok e → inp_monotonic_seq i = saturating_add u64_max (len (log s)) 1 →
  inp_prev_hash i = hash <$> list.last (log s) →
  store_ok (store_append s e).1
  ∧ match (store_append s e).2 with
    | Ok r => log (store_append s e).1 = log s ++ [r] ∧ payload (envelope r) = inp_payload i
        ∧ category (envelope r) = inp_category i ∧ correlation_id (envelope r) = inp_correlation_id i
    | Err _ => log (store_append s e).1 = log s ∧ unrecordable (inp_payload i)
    end.
Proof.
  intros Hs (Hn & Hp & Hv & Hc & Hi)%try_new_ok En Ep. rw -Hn in En. rw -Hp in Ep.
  destruct (append_continuing s e Hs En Ep) as [Hok Ha]. split; [done|]. destruct (store_append s e).2 as [r|x].
  - destruct Ha as [Hl ->]. by rw Hl.
  - destruct Ha as [Hl He]. split; [done|]. right. by exists e.
Qed.
End client_lemmas.

(** ** Redaction *)

(** No credential-like field carries anything but the marker. *)
Fixpoint sanitized (v : Value) : bool :=
  match v with
  | VObject l =>
      forallb (λ '(k, w), if is_redacted_field k then bool_decide (w = redacted_marker)
                          else sanitized w) l
  | VArray l => forallb sanitized l
  | _ => true
  end.

Lemma redact_sanitized v : sanitized (redact_sensitive_fields v) = true.
Proof.
  induction v as [| | | |l IH|l IH] using Value_nested_ind; simpl; [done..| |].
  - rw forallb_true. intros w (v & <- & Hv)%list_elem_of_In%in_map_iff.
    apply IH. by apply list_elem_of_In.
  - rw forallb_true. intros [k w] ([k' v] & [= <- <-] & Hv)%list_elem_of_In%in_map_iff.
    destruct (is_redacted_field k') eqn:E; [by rw bool_decide_true|].
    eapply IH. by apply list_elem_of_In.
Qed.

Lemma redact_clean v :
  reject_sensitive_fields v = Ok tt → redact_sensitive_fields v = v.
Proof.
  induction v as [| | | |l IH|l IH] using Value_nested_ind; simpl; [done..| |]; intros Hok; f_equal.
  - induction l as [|w l IHl]; [done|]. apply result_bind_ok in Hok as ([] & Hw & Hl).
    simpl. f_equal; [apply IH; set_solver|]. apply IHl; [|done]. set_solver.
  - induction l as [|[k w] l IHl]; [done|]. apply guard_ok in Hok as [Hk Hok].
    apply result_bind_ok in Hok as ([] & Hw & Hl). simpl. rw Hk. f_equal.
    + f_equal. apply (IH k); [by left|done].
    + apply IHl; [|done]. intros k' v' Hin. apply (IH k'). by right.
Qed.

(** ** Export and import *)

Section transfer.
Context `{Externals}.

(** The exported record of [r]: redacted, linked to the exported chain. *)
Definition exported (mode : PrivacyExportMode) (r x : AuditRecord) : Prop :=
  envelope x = set_prev_hash (redact_event r mode) (prev_hash (envelope x)).

(** A record's line parses back to it, up to the order of fields. *)
Definition line_ok (x : AuditRecord) : Prop :=
  ∀ b, record_to_line x = Ok b →
    b ≠ [] ∧ (10 ∉ b) ∧ ∃ x', record_from_line b = Ok x' ∧ norm_record x' = norm_record x.

Definition join_lines (lines : list (list N)) : list N := concat ((λ l, l ++ [10]) <$> lines).

Lemma export_loop_spec mode n q p rs out out' :
  validate_from n q rs = Ok tt → export_loop mode p rs out = Ok out' →
  ∃ xs lines, Forall2 (exported mode) rs xs ∧ validate_from n p xs = Ok tt
    ∧ Forall2 (λ x l, record_to_line x = Ok l) xs lines ∧ out' = out ++ join_lines lines.
Proof.
  revert n q p out. induction rs as [|r rs IH]; intros n q p out Hv Hx.
  { exists [], []. injection Hx as <-. by rw app_nil_r. }
  apply validate_from_cons in Hv as [(Hs & _ & _) Hv].
  simpl in Hx. apply result_bind_ok in Hx as (x & Hx & Hx').
  unfold try_from_envelope in Hx. apply result_bind_ok in Hx as (h & Hh & [= <-]).
  apply result_bind_ok in Hx' as (line & Hl & Hx'). apply map_err_ok in Hl.
  destruct (IH _ _ _ _ Hv Hx') as (xs & lines & Hxs & Hvx & Hls & ->).
  exists ({| envelope := set_prev_hash (redact_event r mode) p; hash := h |} :: xs), (line :: lines). split_and!; [by constructor; [reflexivity|]| |by constructor|].
  - apply validate_from_cons. split; [|done]. by split_and!.
  - unfold join_lines. rw fmap_cons. simpl. by rw !app_assoc.
Qed.

Lemma export_total mode s :
  (∀ e, is_Ok (canonical_json e)) → (∀ r, is_Ok (record_to_line r)) →
  is_Ok (in_memory_export s mode).
Proof.
  intros Hc Hl. unfold in_memory_export. generalize (@None HashDigest), (@nil N).
  induction (records s) as [|r rs IH]; intros p out; [by eexists|]. simpl.
  unfold try_from_envelope, hash_envelope.
  destruct (Hc (set_prev_hash (redact_event r mode) p)) as [c ->]. simpl.
  destruct (Hl {| envelope := set_prev_hash (redact_event r mode) p;
                  hash := MkDigest (sha256_hex c) |}) as [l ->]. apply IH.
Qed.

Lemma split_lines_line acc l rest :
  10 ∉ l → split_lines acc (l ++ 10 :: rest) = (acc ++ l) :: split_lines [] rest.
Proof.
  revert acc. induction l as [|b l IH]; intros acc Hl; simpl; [by rw app_nil_r|].
  apply not_elem_of_cons in Hl as [Hb Hl].
  destruct (N.eqb_spec b 10) as [->|]; [done|]. by rw IH // -app_assoc.
Qed.

Lemma parse_joined xs lines acc :
  Forall2 (λ x l, record_to_line x = Ok l) xs lines → Forall line_ok xs →
  ∃ ys, norm_record <$> ys = norm_record <$> xs
    ∧ parse_lines (split_lines [] (join_lines lines)) acc = Ok (acc ++ ys).
Proof.
  intros Hls. revert acc. induction Hls as [|x l xs lines Hl _ IH]; intros acc Hok.
  { exists []. by rw app_nil_r. }
  apply Forall_cons in Hok as [Hx Hok]. destruct (Hx l Hl) as (Hne & Hnl & y & Hy & Hyx).
  destruct (IH (acc ++ [y]) Hok) as (ys & Hys & Hp).
  exists (y :: ys). rw !fmap_cons Hyx Hys. split; [done|].
  unfold join_lines. rw fmap_cons. simpl. rw -app_assoc. simpl.
  rw split_lines_line //. simpl. destruct l as [|b l]; [done|]. simpl.
  rw Hy. simpl. fold (join_lines lines). by rw Hp -app_assoc.
Qed.

(** Records equal up to the order of fields are in equally valid chains. *)
Lemma links_norm `{!ExternalsLaws} n p r r' :
  norm_record r = norm_record r' → links n p r → links n p r'.
Proof.
  intros Hn (Hs & Hp & Hh).
  assert (norm_envelope (envelope r) = norm_envelope (envelope r')) as He
    by exact (f_equal envelope Hn).
  assert (hash r = hash r') as Hr by exact (f_equal hash Hn).
  assert (monotonic_seq (envelope r) = monotonic_seq (envelope r')
          ∧ prev_hash (envelope r) = prev_hash (envelope r')) as [Hs' Hp'].
  { unfold norm_envelope, set_payload in He. by injection He. }
  unfold links. rw -Hs' -Hp' -Hr. split_and!; [done..|].
  unfold hash_envelope in *. by rw -(canonical_respects _ _ He).
Qed.

Lemma validate_norm `{!ExternalsLaws} n p xs ys :
  norm_record <$> ys = norm_record <$> xs → validate_from n p xs = Ok tt →
  validate_from n p ys = Ok tt.
Proof.
  revert n p ys. induction xs as [|x xs IH]; intros n p [|y ys]; [done..|].
  rw !fmap_cons. intros Hn Hv. apply validate_from_cons in Hv as [Hx Hv].
  apply validate_from_cons. apply (inj2 cons) in Hn as [Hyx Hn].
  split; [by eapply links_norm|]. rw (f_equal hash Hyx : hash y = hash x). by eapply IH.
Qed.

(** A full export of clean events is the log itself. *)
Lemma exported_identity n p rs xs :
  validate_from n p rs = Ok tt → validate_from n p xs = Ok tt → Forall2 (exported Full) rs xs →
  (∀ r, r ∈ rs → reject_sensitive_fields (payload (envelope r)) = Ok tt
                 ∧ category (envelope r) ≠ SecretUse) →
  xs = rs.
Proof.
  intros Hv Hvx Hx. revert n p Hv Hvx. induction Hx as [|r x rs xs Hrx Hx IH]; intros n p Hv Hvx Hc.
  { done. }
  apply validate_from_cons in Hv as [(Hs & Hp & Hh) Hv].
  apply validate_from_cons in Hvx as [(Hsx & Hpx & Hhx) Hvx].
  destruct (Hc r) as [Hcl Hcat]; [by left|].
  assert (envelope x = envelope r) as He.
  { rw Hrx Hpx -Hp. unfold redact_event.
    replace (redacts_entire_payload Full (category (envelope r))) with false
      by (by destruct (category (envelope r))).
    rw redact_clean //. by destruct (envelope r). }
  assert (x = r) as ->.
  { destruct x as [ex hx], r as [er hr]. simpl in *. subst ex. f_equal. congruence. }
  f_equal. eapply IH; [done..|]. intros r' Hr'. apply Hc. by right.
Qed.
End transfer.

(** ** Properties *)

(** The audit log is always a valid chain.  After any sequence of appends
    and imports, accepted or refused, whatever the canonicaliser, the hash
    function and the parser do, validation accepts the records: record [k] has
    sequence number [k + 1], points at the hash of its predecessor and carries
    the hash of its own envelope; the reported head is the count and the last
    hash; and an append succeeds exactly for an envelope that continues the
    chain and can be hashed, adding exactly its record. *)
Theorem audit_log_invariant `{Externals} ops e :
  let s := foldl store_step (MkStore []) ops in
  validate_hash_chain (records s) = Ok tt
  ∧ (∀ k r, records s !! k = Some r →
       monotonic_seq (envelope r) = saturating_add u64_max (N.of_nat k) 1
       ∧ prev_hash (envelope r) = hash <$> list.last (take k (records s))
       ∧ hash_envelope (envelope r) = Ok (hash r))
  ∧ store_head s = Ok {| seq_base := len (records s);
                         head_prev_hash := hash <$> list.last (records s) |}
  ∧ (is_Ok (store_append s e).2 ↔
       monotonic_seq e = saturating_add u64_max (len (records s)) 1
       ∧ prev_hash e = hash <$> list.last (records s) ∧ is_Ok (hash_envelope e))
  ∧ records (store_append s e).1
    = records s ++ match (store_append s e).2 with Ok r => [r] | Err _ => [] end.
Proof.
  intros s. assert (validate_hash_chain (records s) = Ok tt) as Hs by (by apply store_run_ok).
  destruct (in_memory_append_law s e Hs) as [_ Ha].
  split_and!; [done|by intros k r; apply chain_lookup|done|..]; simpl.
  - destruct (in_memory_append s e).2 as [r|x].
    + destruct Ha as (_ & _ & [??]%validate_next_ok & Hh); [|done].
      split; [|by eexists]. intros _. split_and!; [done..|]. rw Hh. by eexists.
    + destruct Ha as [_ Ha]. split; [by intros [? [=]]|]. intros (? & ? & ?).
      destruct Ha. split; [|done]. by apply validate_next_ok.
  - destruct (in_memory_append s e).2 as [r|x]; destruct Ha as [-> _]; [done|]. by rw app_nil_r.
Qed.

(** C37. Tamper evidence.  The hash of the newest record commits to the whole
    history: two valid chains with the same head hash hold the same records (up
    to the order of JSON fields, which no canonical form sees), unless the two
    chains themselves contain a collision: at the first place, counted from the
    head, where they differ, each stores a record with the same hash although
    the two envelopes differ. *)
Theorem head_commits_to_history `{Externals} rs1 rs2 :
  validate_hash_chain rs1 = Ok tt → validate_hash_chain rs2 = Ok tt →
  hash <$> list.last rs1 = hash <$> list.last rs2 →
  norm_record <$> rs1 = norm_record <$> rs2
  ∨ ∃ k r1 r2, reverse rs1 !! k = Some r1 ∧ reverse rs2 !! k = Some r2
      ∧ norm_record <$> take k (reverse rs1) = norm_record <$> take k (reverse rs2)
      ∧ norm_envelope (envelope r1) ≠ norm_envelope (envelope r2)
      ∧ hash r1 = hash r2
      ∧ hash_envelope (envelope r1) = Ok (hash r1) ∧ hash_envelope (envelope r2) = Ok (hash r2).
Proof.
  revert rs2. induction rs1 as [|r1 rs1 IH] using rev_ind; intros rs2 Hv1 Hv2 Hh;
    destruct rs2 as [|r2 rs2 _] using rev_ind; [by left|by rw last_snoc in Hh..|].
  rw !last_snoc in Hh. injection Hh as Hh.
  apply validate_snoc in Hv1 as (Hv1 & _ & Hp1 & Hh1).
  apply validate_snoc in Hv2 as (Hv2 & _ & Hp2 & Hh2). rw !reverse_snoc.
  destruct (decide (norm_envelope (envelope r1) = norm_envelope (envelope r2))) as [He|];
    [|right; by exists 0%nat, r1, r2].
  assert (norm_record r1 = norm_record r2) as Hr by (unfold norm_record; by rw He Hh).
  destruct (IH rs2) as [Heq|(k & x1 & x2 & H1 & H2 & Ht & Hx)]; [done..| |left|right].
  - rw -Hp1 -Hp2. exact (f_equal prev_hash He).
  - rw !fmap_app Heq. simpl. by rw Hr.
  - exists (S k), x1, x2. split_and!; [done|done|cbn; by rw Hr Ht|apply Hx..].
Qed.

(** C38. Export and import.  An export succeeds whenever the canonicaliser does;
    its records mirror the log one to one with only payload and link changed,
    form a valid chain of their own, carry no credential-like field and nothing
    at all of the redacted categories.  Importing the export into any store
    succeeds and installs those records (up to the order of fields) whenever
    their lines parse back; a full export of clean events gives the log back. *)
Theorem export_import_roundtrip `{Externals} `{!ExternalsLaws} s t mode :
  store_ok s →
  ((∀ e, is_Ok (canonical_json e)) → (∀ r, is_Ok (record_to_line r)) →
     is_Ok (store_export s mode))
  ∧ ∀ bytes, store_export s mode = Ok bytes →
    ∃ xs, Forall2 (exported mode) (records s) xs ∧ validate_hash_chain xs = Ok tt
      ∧ (∀ x, x ∈ xs → sanitized (payload (envelope x)) = true
           ∧ (redacts_entire_payload mode (category (envelope x)) = true →
              payload (envelope x) = redacted_marker))
      ∧ (Forall line_ok xs →
         ∃ ys, store_import t bytes = (MkStore ys, Ok ys)
               ∧ norm_record <$> ys = norm_record <$> xs)
      ∧ (mode = Full →
         (∀ r, r ∈ records s → reject_sensitive_fields (payload (envelope r)) = Ok tt
                               ∧ category (envelope r) ≠ SecretUse) →
         xs = records s).
Proof.
  intros Hs. split; [apply export_total|]. intros bytes Hx.
  destruct (export_loop_spec _ _ _ _ _ _ _ Hs Hx) as (xs & lines & Hxs & Hv & Hls & ->).
  exists xs. split_and!; [done..| | |].
  - intros x Hin. apply list_elem_of_lookup in Hin as [k Hk].
    destruct (Forall2_lookup_r _ _ _ _ _ Hxs Hk) as (r & _ & ->). simpl.
    destruct (redacts_entire_payload _ _); [by split|]. split; [apply redact_sanitized|done].
  - intros Hok. destruct (parse_joined xs lines [] Hls Hok) as (ys & Hys & Hp).
    exists ys. split; [|done]. simpl. unfold in_memory_import. rw Hp. simpl.
    unfold validate_hash_chain. by rw (validate_norm 1 None xs ys).
  - intros -> Hc. by apply (exported_identity 1 None).
Qed.
