(* ===== verification/AuditExample.v ===== *)
(** * Concrete libraries for the audit log

    An instance of the parameters of [Events.v]: a binary encoding in place of
    canonical JSON, with a 32-bit polynomial in place of the hash function.  It shows
    that the laws the theorems assume can hold together, and carries the
    examples. *)

From S2P Require Import Prelude BTree Model Events.

(** ** Encodings *)

#[export] Instance Number_countable : Countable Number :=
  inj_countable' (λ n, match n with PosInt n => inl n | NegInt z => inr (inl z) | Float b => inr (inr b) end)
    (λ x : N + (Z + N), match x with inl n => PosInt n | inr (inl z) => NegInt z | inr (inr b) => Float b end)
    ltac:(by intros []).

Fixpoint value_to_tree (v : Value) : gen_tree (bool + (Number + list N)) :=
  match v with
  | VNull => GenNode 0 []
  | VBool b => GenLeaf (inl b)
  | VNumber n => GenLeaf (inr (inl n))
  | VString s => GenLeaf (inr (inr s))
  | VArray l => GenNode 1 (List.map value_to_tree l)
  | VObject l =>
      GenNode 2 (List.map (λ '(k, w), GenNode 3 [GenLeaf (inr (inr k)); value_to_tree w]) l)
  end.

Fixpoint value_of_tree (t : gen_tree (bool + (Number + list N))) : Value :=
  match t with
  | GenLeaf (inl b) => VBool b
  | GenLeaf (inr (inl n)) => VNumber n
  | GenLeaf (inr (inr s)) => VString s
  | GenNode 1 l => VArray (List.map value_of_tree l)
  | GenNode 2 l =>
      VObject (List.map (λ t, match t with
                              | GenNode _ [GenLeaf (inr (inr k)); w] => (k, value_of_tree w)
                              | _ => ([], VNull)
                              end) l)
  | GenNode _ _ => VNull
  end.

Lemma value_of_to_tree v : value_of_tree (value_to_tree v) = v.
Proof.
  induction v as [| | | |l IH|l IH] using Value_nested_ind; simpl; [done..| |]; f_equal.
  - rw List.map_map -{2}(List.map_id l). apply map_ext_in. intros v Hv.
    apply IH. by apply list_elem_of_In.
  - rw List.map_map -{2}(List.map_id l). apply map_ext_in. intros [k v] Hv.
    f_equal. apply (IH k). by apply list_elem_of_In.
Qed.

#[export] Instance Value_countable : Countable Value :=
  inj_countable' value_to_tree value_of_tree value_of_to_tree.

Definition categories : list EventCategory :=
  [SessionLifecycle; AdapterLifecycle; ModelRequest; ModelResponseMetadata; ContextSelection;
   ToolRequest; ActionPlan; PolicyDecision; Approval; ProcessExecution; NetworkRequest; SecretUse;
   FileObservation; GitOperation; OutputPromotion; SandboxCapability; ResourceUsage; Error;
   SecurityFinding; AgentReasoning].

Definition category_index (c : EventCategory) : nat :=
  match c with
  | SessionLifecycle => 0 | AdapterLifecycle => 1 | ModelRequest => 2 | ModelResponseMetadata => 3
  | ContextSelection => 4 | ToolRequest => 5 | ActionPlan => 6 | PolicyDecision => 7
  | Approval => 8 | ProcessExecution => 9 | NetworkRequest => 10 | SecretUse => 11
  | FileObservation => 12 | GitOperation => 13 | OutputPromotion => 14 | SandboxCapability => 15
  | ResourceUsage => 16 | Error => 17 | SecurityFinding => 18 | AgentReasoning => 19
  end.

#[export] Instance EventCategory_countable : Countable EventCategory :=
  inj_countable category_index (λ i, categories !! i) ltac:(by intros []).

Definition flat_record : Type :=
  N * N * list N * list N * option (list N) * EventCategory * Value * option (list N) * list N.

Definition record_flat (r : AuditRecord) : flat_record :=
  let e := envelope r in
  (schema_version e, monotonic_seq e, wall_clock_ts e, operation_str (correlation_id e),
   operation_str <$> parent_op_id e, category e, payload e, digest_str <$> prev_hash e,
   digest_str (hash r)).

Definition flat_to_record (x : flat_record) : AuditRecord :=
  let '(v, n, t, c, p, k, w, h, d) := x in
  {| envelope := {| schema_version := v; monotonic_seq := n; wall_clock_ts := t;
                    correlation_id := MkOperationId c; parent_op_id := MkOperationId <$> p;
                    category := k; payload := w; prev_hash := MkDigest <$> h |};
     hash := MkDigest d |}.

Lemma flat_record_inv r : flat_to_record (record_flat r) = r.
Proof. by destruct r as [[?? ?[] [[]|] ?? [[]|]] []]. Qed.

#[export] Instance AuditRecord_countable : Countable AuditRecord :=
  inj_countable' record_flat flat_to_record flat_record_inv.

(** A positive as a line of bytes that is neither empty nor broken. *)
Fixpoint bits (p : positive) : list N :=
  match p with xH => [1] | xO p => 2 :: bits p | xI p => 3 :: bits p end.

Fixpoint unbits (l : list N) : option positive :=
  match l with
  | [] => None
  | b :: l => if b =? 1 then Some xH else
              (λ p, if b =? 2 then xO p else xI p) <$> unbits l
  end.

Lemma unbits_bits p : unbits (bits p) = Some p.
Proof. induction p as [p IH|p IH|]; simpl; by rw ?IH. Qed.

Lemma bits_line p : bits p ≠ [] ∧ 10 ∉ bits p.
Proof. induction p; simpl; split; set_solver. Qed.

(** ** The instance *)

#[export] Instance example_externals : Externals := {|
  canonical_json e :=
    Ok (bits (encode {| envelope := norm_envelope e; hash := MkDigest [] |}));
  sha256_hex bytes := [foldl (λ h b, (h * 31 + b) mod 4294967296) 7 bytes];
  record_to_line r := Ok (bits (encode r));
  record_from_line line := ok_or (unbits line ≫= decode) (lit "malformed");
|}.

#[export] Instance example_externals_laws : ExternalsLaws.
Proof. intros e e' He. simpl. by rw He. Qed.

Lemma example_line_ok r : line_ok r.
Proof.
  intros b [= <-]. destruct (bits_line (encode r)) as [??]. split_and!; [done..|].
  exists r. simpl. by rw unbits_bits /= decode_encode.
Qed.

(** ** A log of two events *)

Definition example_event (seq : N) (c : EventCategory) (v : Value) (p : option HashDigest)
    : EventEnvelope := {|
  schema_version := CURRENT_SCHEMA_VERSION; monotonic_seq := seq; wall_clock_ts := lit "t";
  correlation_id := MkOperationId (lit "o"); parent_op_id := None; category := c; payload := v;
  prev_hash := p |}.

Definition first_event : EventEnvelope :=
  example_event 1 Approval (VObject [(lit "b", VNull); (lit "a", VBool true)]) None.

Definition first_digest : option HashDigest :=
  match hash_envelope first_event with Ok h => Some h | Err _ => None end.

Definition example_store : InMemoryAuditStore :=
  foldl store_step (MkStore [])
    [Append first_event; Append (example_event 2 ToolRequest (VArray []) first_digest)].

(** The same log with the fields of the first payload swapped. *)
Definition reordered_store : InMemoryAuditStore :=
  foldl store_step (MkStore [])
    [Append (example_event 1 Approval (VObject [(lit "a", VBool true); (lit "b", VNull)]) None);
     Append (example_event 2 ToolRequest (VArray []) first_digest)].

Lemma same_at {A B} (f : A → B) (xs ys : list A) k x y :
  f <$> xs = f <$> ys → xs !! k = Some x → ys !! k = Some y → f x = f y.
Proof. intros He Hx Hy. apply (f_equal (lookup k)) in He. rw !list_lookup_fmap Hx Hy in He. by injection He. Qed.

(** The two logs differ only in the order of fields, so there is no collision. *)
Lemma head_commits_to_history_witness :
  length (records example_store) = 2%nat ∧ records example_store ≠ records reordered_store
  ∧ norm_record <$> records example_store = norm_record <$> records reordered_store.
Proof.
  split; [vm_compute; reflexivity|]. split.
  { apply (bool_decide_unpack (¬ records example_store = records reordered_store)). vm_compute. exact I. }
  assert (norm_envelope ∘ envelope <$> reverse (records example_store)
          = norm_envelope ∘ envelope <$> reverse (records reordered_store)) as He by (vm_compute; reflexivity).
  destruct (head_commits_to_history (records example_store) (records reordered_store))
    as [H|(k & r1 & r2 & H1 & H2 & _ & Hne & _)]; [vm_compute; reflexivity..|exact H|].
  destruct Hne. exact (same_at (norm_envelope ∘ envelope) _ _ k r1 r2 He H1 H2).
Defined.

Lemma export_import_roundtrip_witness :
  ∃ xs bytes, store_export example_store Redacted = Ok bytes
    ∧ Forall2 (exported Redacted) (records example_store) xs
    ∧ ∃ ys, store_import (MkStore []) bytes = (MkStore ys, Ok ys)
            ∧ norm_record <$> ys = norm_record <$> xs.
Proof.
  destruct (export_import_roundtrip example_store (MkStore []) Redacted) as [Hok Hx];
    [vm_compute; reflexivity|].
  destruct Hok as [bytes Hb]; [intros e; by eexists|intros r; by eexists|].
  destruct (Hx bytes Hb) as (xs & Hxs & _ & _ & Himp & _).
  exists xs, bytes. split; [exact Hb|]. split; [exact Hxs|]. apply Himp.
  apply Forall_forall. intros x _. apply example_line_ok.
Defined.
