(* ===== verification/Lifecycle.v ===== *)
(** * Task and session lifecycle

    [crates/orchestraitor-lifecycle/src]: the replay-safe state machine
    ([state_machine.rs]), leases ([lease.rs]), checkpoints ([checkpoint.rs]),
    restart and lease recovery ([recovery.rs]) and cancellation accounting
    ([cancellation.rs]); the states are [SessionState] of
    [crates/orchestraitor-model/src/enums.rs]. *)

From S2P Require Import Prelude Time BTree Model Events.

(** The idempotency key is a string behind a newtype. *)
Record IdempotencyKey := MkIdempotencyKey { key_str : rstr }.

#[export] Instance IdempotencyKey_eq_dec : EqDecision IdempotencyKey.
Proof. solve_decision. Defined.
#[export] Instance IdempotencyKey_countable : Countable IdempotencyKey :=
  inj_countable' key_str MkIdempotencyKey (λ '(MkIdempotencyKey s), eq_refl).

(** ** The state machine *)

Module StateMachine.

Record TransitionAttempt := {
  at_operation_id : OperationId;
  at_idempotency_key : IdempotencyKey;
  at_to : SessionState;
  at_reason : rstr;
}.

Record TransitionRecord := {
  tr_operation_id : OperationId;
  tr_idempotency_key : IdempotencyKey;
  tr_from : SessionState;
  tr_to : SessionState;
  tr_reason : rstr;
}.

Record LifecycleRecord := { state : SessionState; transitions : list TransitionRecord }.

Definition LifecycleRecord_new (s : SessionState) : LifecycleRecord :=
  {| state := s; transitions := [] |}.

Inductive LifecycleError :=
  | InvalidTransition (from to : SessionState) (reason : rstr)
  | IdempotencyConflict (key : IdempotencyKey)
  | EventStore (e : EventError)
  | ClockBeforeUnixEpoch.

Record StateMachine := {
  record : LifecycleRecord;
  applied : gmap IdempotencyKey TransitionRecord;
}.

(** Collecting into a [HashMap]: a later entry replaces an earlier one. *)
Definition index (ts : list TransitionRecord) : gmap IdempotencyKey TransitionRecord :=
  foldl (λ m t, <[tr_idempotency_key t := t]> m) ∅ ts.

Definition from_record (r : LifecycleRecord) : StateMachine :=
  {| record := r; applied := index (transitions r) |}.

Definition queued : StateMachine := from_record (LifecycleRecord_new Queued).

Definition transition_allowed (from to : SessionState) : bool :=
  match from with
  | Queued => match to with Running | Paused | Cancelled | Rejected => true | _ => false end
  | Running =>
      match to with
      | InputRequired | ApprovalRequired | AuthenticationRequired | Paused | Completed | Failed
      | Cancelled | Orphaned => true
      | _ => false
      end
  | InputRequired | ApprovalRequired | AuthenticationRequired | Paused =>
      match to with Running | Cancelled | Rejected => true | _ => false end
  | Orphaned => match to with Running | Paused | Failed | Cancelled => true | _ => false end
  | Completed | Failed | Cancelled | Rejected => false
  end.

Definition invalid_reason (from : SessionState) : rstr :=
  lit match from with
      | Queued => "queued tasks may run, pause, cancel, or be rejected before execution"
      | Running => "running tasks may pause, wait, complete, fail, cancel, or orphan"
      | InputRequired | ApprovalRequired | AuthenticationRequired | Paused =>
          "waiting tasks may resume, cancel, or be rejected"
      | Orphaned => "orphaned tasks may resume, pause for reconnect, fail, or cancel"
      | Completed | Failed | Cancelled | Rejected => "terminal states cannot transition"
      end%string.

Definition validate_transition (from to : SessionState) : result unit LifecycleError :=
  if transition_allowed from to then Ok tt
  else Err (InvalidTransition from to (invalid_reason from)).

Definition replay (m : StateMachine) (a : TransitionAttempt)
    : result TransitionRecord LifecycleError :=
  match applied m !! at_idempotency_key a with
  | None => Err (IdempotencyConflict (at_idempotency_key a))
  | Some r =>
      if bool_decide (tr_operation_id r = at_operation_id a)
         && bool_decide (tr_to r = at_to a) && bool_decide (tr_reason r = at_reason a)
      then Ok r else Err (IdempotencyConflict (at_idempotency_key a))
  end.

Definition make_record (from : SessionState) (a : TransitionAttempt) : TransitionRecord :=
  {| tr_operation_id := at_operation_id a; tr_idempotency_key := at_idempotency_key a;
     tr_from := from; tr_to := at_to a; tr_reason := at_reason a |}.

Definition transition (m : StateMachine) (a : TransitionAttempt)
    : StateMachine * result TransitionRecord LifecycleError :=
  if bool_decide (is_Some (applied m !! at_idempotency_key a)) then (m, replay m a) else
  let from := state (record m) in
  match validate_transition from (at_to a) with
  | Err e => (m, Err e)
  | Ok _ =>
      let r := make_record from a in
      ({| record := {| state := tr_to r; transitions := transitions (record m) ++ [r] |};
          applied := <[tr_idempotency_key r := r]> (applied m) |}, Ok r)
  end.

(** ** The invariant *)

Definition terminal (s : SessionState) : bool :=
  match s with Completed | Failed | Cancelled | Rejected => true | _ => false end.

(** [ts] is a chain of allowed transitions from [s] to [s']. *)
Inductive chain : SessionState → list TransitionRecord → SessionState → Prop :=
  | chain_nil s : chain s [] s
  | chain_cons s t ts s' :
      tr_from t = s → transition_allowed s (tr_to t) = true → chain (tr_to t) ts s' →
      chain s (t :: ts) s'.

Record machine_wf (init : SessionState) (m : StateMachine) : Prop := {
  mw_chain : chain init (transitions (record m)) (state (record m));
  mw_keys : NoDup (tr_idempotency_key <$> transitions (record m));
  mw_applied : applied m = index (transitions (record m));
}.

Definition run : StateMachine → list TransitionAttempt → StateMachine :=
  foldl (λ m a, (transition m a).1).

Lemma chain_snoc s ts s1 t :
  chain s ts s1 → tr_from t = s1 → transition_allowed s1 (tr_to t) = true →
  chain s (ts ++ [t]) (tr_to t).
Proof. induction 1; intros; simpl; repeat constructor; auto. Qed.

Lemma index_snoc ts t : index (ts ++ [t]) = <[tr_idempotency_key t := t]> (index ts).
Proof. unfold index. by rw foldl_app. Qed.

Lemma index_lookup ts k t :
  NoDup (tr_idempotency_key <$> ts) →
  index ts !! k = Some t ↔ t ∈ ts ∧ tr_idempotency_key t = k.
Proof.
  induction ts as [|u ts IH] using rev_ind; intros Hnd.
  { unfold index. simpl. rw lookup_empty. set_solver. }
  rw index_snoc lookup_insert_Some elem_of_app list_elem_of_singleton.
  rw fmap_app in Hnd. apply NoDup_app in Hnd as (Hnd & Hni & _). rw (IH Hnd).
  assert (t ∈ ts → tr_idempotency_key t ≠ tr_idempotency_key u) as Hne.
  { intros Ht E. apply (Hni (tr_idempotency_key t)); [by apply list_elem_of_fmap_2|]. rw E. set_solver. }
  split; [intros [[<- ->]|[? [? ?]]]; auto|]. intros [[Ht| ->] <-]; [|by left]. right.
  split; [|done]. intros E. by apply Hne.
Qed.

Lemma index_none ts k : index ts !! k = None ↔ k ∉ tr_idempotency_key <$> ts.
Proof.
  induction ts as [|u ts IH] using rev_ind.
  { unfold index. simpl. rw lookup_empty. set_solver. }
  rw index_snoc lookup_insert_None fmap_app elem_of_app IH. set_solver.
Qed.

Lemma from_record_wf init r :
  chain init (transitions r) (state r) → NoDup (tr_idempotency_key <$> transitions r) →
  machine_wf init (from_record r).
Proof. by split. Qed.

(** The three ways a transition goes. *)
Lemma transition_cases m a :
  (is_Some (applied m !! at_idempotency_key a) ∧ transition m a = (m, replay m a))
  ∨ (applied m !! at_idempotency_key a = None
     ∧ transition_allowed (state (record m)) (at_to a) = false
     ∧ transition m a = (m, Err (InvalidTransition (state (record m)) (at_to a)
                                   (invalid_reason (state (record m))))))
  ∨ (applied m !! at_idempotency_key a = None
     ∧ transition_allowed (state (record m)) (at_to a) = true
     ∧ transition m a =
       ({| record := {| state := at_to a;
                        transitions := transitions (record m)
                                       ++ [make_record (state (record m)) a] |};
           applied := <[at_idempotency_key a := make_record (state (record m)) a]> (applied m) |},
        Ok (make_record (state (record m)) a))).
Proof.
  unfold transition, validate_transition. case_bool_decide as Hk; [by left|].
  apply eq_None_not_Some in Hk. right.
  destruct (transition_allowed _ _) eqn:E; [by right|by left].
Qed.

Lemma transition_wf init m a : machine_wf init m → machine_wf init (transition m a).1.
Proof.
  intros Hw. destruct (transition_cases m a) as [[_ ->]|[(_ & _ & ->)|(Hk & Ha & ->)]]; [done..|].
  destruct Hw as [Hc Hnd Hap]. split; simpl.
  - by apply (chain_snoc _ _ _ (make_record (state (record m)) a) Hc).
  - rw Hap index_none in Hk. rw fmap_app. apply NoDup_app. split_and!; [done| |apply NoDup_singleton].
    intros k Hk' Hin. simpl in Hin. apply list_elem_of_singleton in Hin as ->. done.
  - by rw index_snoc Hap.
Qed.

Lemma run_wf init m atts : machine_wf init m → machine_wf init (run m atts).
Proof. revert m. induction atts; simpl; eauto using transition_wf. Qed.

(** Applied keys stay applied, with their record. *)
Lemma transition_applied m a k r :
  applied m !! k = Some r → applied (transition m a).1 !! k = Some r.
Proof.
  intros Hk. destruct (transition_cases m a) as [[_ ->]|[(_ & _ & ->)|(Hn & _ & ->)]]; [done..|].
  simpl. rw lookup_insert_ne; [done|]. intros <-. congruence.
Qed.

Lemma run_applied m atts k r : applied m !! k = Some r → applied (run m atts) !! k = Some r.
Proof. revert m. induction atts; simpl; eauto using transition_applied. Qed.

Lemma transition_ok_applied m a r :
  (transition m a).2 = Ok r →
  applied (transition m a).1 !! at_idempotency_key a = Some r
  ∧ tr_operation_id r = at_operation_id a ∧ tr_to r = at_to a ∧ tr_reason r = at_reason a.
Proof.
  destruct (transition_cases m a) as [[[r0 Hr0] ->]|[(_ & _ & ->)|(Hn & _ & ->)]]; simpl; [|done|].
  - unfold replay. rw Hr0. case_match eqn:E; [|done]. intros [= <-]. bool_simpl. done.
  - intros [= <-]. by rw lookup_insert_eq.
Qed.

Lemma terminal_stuck s to : terminal s = true → transition_allowed s to = false.
Proof. by destruct s. Qed.

Lemma run_terminal m atts :
  terminal (state (record m)) = true → run m atts = m.
Proof.
  revert m. induction atts as [|a atts IH]; intros m Ht; simpl; [done|].
  assert ((transition m a).1 = m) as ->; [|by apply IH].
  destruct (transition_cases m a) as [[_ ->]|[(_ & _ & ->)|(_ & Ha & _)]]; [done..|].
  by rw terminal_stuck in Ha.
Qed.

(** ** Properties *)

(** C40. Every history the machine builds is legal.  Whatever attempts are made on
    a new task, its recorded transitions form a chain of allowed edges from
    [queued] to the current state, no idempotency key is recorded twice, and the
    replay index is the one a restart rebuilds from the durable record, so
    reloading the record gives back the same machine. *)
Theorem history_is_legal_and_durable atts :
  let m := run queued atts in
  chain Queued (transitions (record m)) (state (record m))
  ∧ NoDup (tr_idempotency_key <$> transitions (record m))
  ∧ (∀ k t, applied m !! k = Some t ↔ t ∈ transitions (record m) ∧ tr_idempotency_key t = k)
  ∧ from_record (record m) = m.
Proof.
  intros m. assert (machine_wf Queued m) as [Hc Hnd Ha].
  { apply run_wf, from_record_wf; constructor. }
  split_and!; [done..| |].
  - intros k t. rw Ha. by apply index_lookup.
  - unfold from_record. rw -Ha. by destruct m.
Qed.

(** Replay safety.  Once an attempt succeeded, repeating it, no matter how
    many other transitions were attempted since, returns the very same record
    and changes nothing; reusing its key for another operation, target or
    reason is refused and changes nothing either. *)
Theorem replay_is_idempotent m a r atts a' :
  (transition m a).2 = Ok r →
  let m' := run (transition m a).1 atts in
  transition m' a = (m', Ok r)
  ∧ (at_idempotency_key a' = at_idempotency_key a →
     (at_operation_id a', at_to a', at_reason a') ≠ (at_operation_id a, at_to a, at_reason a) →
     transition m' a' = (m', Err (IdempotencyConflict (at_idempotency_key a)))).
Proof.
  intros H m'. apply transition_ok_applied in H as (Hk & Ho & Ht & Hr).
  assert (applied m' !! at_idempotency_key a = Some r) as Hk' by by apply run_applied.
  split.
  - unfold transition, replay. rw Hk' bool_decide_true //. by rw Ho Ht Hr !bool_decide_true.
  - intros E Hne. unfold transition, replay. rw E Hk' bool_decide_true //. rw Ho Ht Hr.
    repeat case_bool_decide; simpl; congruence.
Qed.

Definition demo_attempt (k : string) (to : SessionState) : TransitionAttempt :=
  {| at_operation_id := MkOperationId (lit k); at_idempotency_key := MkIdempotencyKey (lit k);
     at_to := to; at_reason := lit "test" |}.

Lemma replay_is_idempotent_witness :
  (let m' := run (transition queued (demo_attempt "k1" Running)).1 [demo_attempt "k2" Completed] in
   transition m' (demo_attempt "k1" Running)
   = (m', Ok (make_record Queued (demo_attempt "k1" Running))))
  ∧ state (record (run (transition queued (demo_attempt "k1" Running)).1
                     [demo_attempt "k2" Completed])) = Completed.
Proof.
  split; [|vm_compute; reflexivity].
  apply (replay_is_idempotent queued (demo_attempt "k1" Running)
           (make_record Queued (demo_attempt "k1" Running)) [demo_attempt "k2" Completed]
           (demo_attempt "k1" Running)).
  vm_compute. reflexivity.
Defined.

(** What one transition does, on every branch: a fresh key takes an allowed
    edge, which appends exactly one record and moves to its target; a fresh key
    on any other edge is refused with the reason of the current state; a known
    key never changes the machine.  From a terminal state no sequence of
    attempts changes anything. *)
Theorem transition_spec m a atts :
  match transition m a with
  | (m', Ok r) =>
      (m' = m ∧ applied m !! at_idempotency_key a = Some r)
      ∨ (applied m !! at_idempotency_key a = None
         ∧ transition_allowed (state (record m)) (at_to a) = true
         ∧ r = make_record (state (record m)) a
         ∧ state (record m') = at_to a
         ∧ transitions (record m') = transitions (record m) ++ [r])
  | (m', Err (InvalidTransition from to why)) =>
      m' = m ∧ applied m !! at_idempotency_key a = None
      ∧ from = state (record m) ∧ to = at_to a ∧ why = invalid_reason from
      ∧ transition_allowed from to = false
  | (m', Err (IdempotencyConflict k)) =>
      m' = m ∧ k = at_idempotency_key a
      ∧ ∃ r, applied m !! k = Some r
             ∧ ¬ (tr_operation_id r = at_operation_id a ∧ tr_to r = at_to a ∧ tr_reason r = at_reason a)
  | (_, Err (EventStore _ | ClockBeforeUnixEpoch)) => False
  end
  ∧ (terminal (state (record m)) = true → run m atts = m).
Proof.
  split; [|apply run_terminal].
  destruct (transition_cases m a) as [[[r0 Hr0] ->]|[(Hk & Ha & ->)|(Hk & Ha & ->)]].
  - unfold replay. rw Hr0. destruct (_ && _) eqn:E; simpl.
    + by left.
    + split_and!; [done..|]. exists r0. split; [done|]. intros (? & ? & ?).
      by rw !bool_decide_true in E.
  - by split_and!.
  - right. by split_and!.
Qed.

(** The documentation of [Rejected] says the task never ran; a task that ran and
    was paused can be rejected. *)
Lemma rejected_after_running :
  tr_to <$> transitions (record (run queued
    [demo_attempt "1" Running; demo_attempt "2" Paused; demo_attempt "3" Rejected]))
  = [Running; Paused; Rejected].
Proof. vm_compute. reflexivity. Qed.
End StateMachine.

(** ** Leases *)

Record LeaseTtl := MkTtl { ttl_secs : N }.
Definition LeaseTtl_from_duration (d : Duration) : LeaseTtl := MkTtl (as_secs d).
Definition default_one_hour : LeaseTtl := MkTtl (60 * 60).

Record Lease := { acquired_at_unix_secs : N; ttl : LeaseTtl }.
Definition Lease_new (t : N) : Lease := {| acquired_at_unix_secs := t; ttl := default_one_hour |}.
Definition Lease_with_ttl (t : N) (l : LeaseTtl) : Lease :=
  {| acquired_at_unix_secs := t; ttl := l |}.

Definition expires_at_unix_secs (l : Lease) : N :=
  saturating_add u64_max (acquired_at_unix_secs l) (ttl_secs (ttl l)).

Definition is_expired_at (l : Lease) (now : N) : bool := expires_at_unix_secs l <=? now.

(** ** Checkpoints *)

Record CheckpointPolicy := { after_tool_calls : N; after_seconds : N }.
Definition CheckpointPolicy_new (n : N) (after : Duration) : CheckpointPolicy :=
  {| after_tool_calls := n; after_seconds := as_secs after |}.

Inductive CheckpointTrigger := ToolCalls | TimeBudget.

Record CheckpointCursor := { tool_calls_since_checkpoint : N; last_checkpoint_unix_secs : N }.
Definition CheckpointCursor_new (t : N) : CheckpointCursor :=
  {| tool_calls_since_checkpoint := 0; last_checkpoint_unix_secs := t |}.

Definition reset (c : CheckpointCursor) (now : N) : CheckpointCursor :=
  {| tool_calls_since_checkpoint := 0; last_checkpoint_unix_secs := now |}.

Definition check_time_budget (c : CheckpointCursor) (now : N) (p : CheckpointPolicy)
    : CheckpointCursor * option CheckpointTrigger :=
  let elapsed := saturating_sub now (last_checkpoint_unix_secs c) in
  if negb (after_seconds p =? 0) && (after_seconds p <=? elapsed)
  then (reset c now, Some TimeBudget) else (c, None).

Definition record_tool_call (c : CheckpointCursor) (now : N) (p : CheckpointPolicy)
    : CheckpointCursor * option CheckpointTrigger :=
  let c := {| tool_calls_since_checkpoint :=
                saturating_add u32_max (tool_calls_since_checkpoint c) 1;
              last_checkpoint_unix_secs := last_checkpoint_unix_secs c |} in
  if negb (after_tool_calls p =? 0) && (after_tool_calls p <=? tool_calls_since_checkpoint c)
  then (reset c now, Some ToolCalls) else check_time_budget c now p.

Record Checkpoint := {
  cp_checkpoint_id : OperationId;
  cp_state : SessionState;
  cp_completed_tool_calls : list OperationId;
  cp_model_responses : list OperationId;
  cp_partial_patches : list OperationId;
}.

Record ReplayPlan := {
  rp_checkpoint_id : OperationId;
  rp_resume_state : SessionState;
  rp_completed_tool_calls : list OperationId;
  rp_model_responses : list OperationId;
  rp_partial_patches : list OperationId;
}.

Definition ReplayPlan_from_checkpoint (c : Checkpoint) : ReplayPlan := {|
  rp_checkpoint_id := cp_checkpoint_id c;
  rp_resume_state := cp_state c;
  rp_completed_tool_calls := cp_completed_tool_calls c;
  rp_model_responses := cp_model_responses c;
  rp_partial_patches := cp_partial_patches c;
|}.

(** ** Recovery *)

Record LifecycleConfig := {
  orphan_recovery_after : Duration;
  default_lease_ttl : Duration;
  cancellation_grace_period : Duration;
  checkpoint_after_tool_calls : N;
  checkpoint_after : Duration;
}.

Definition LifecycleConfig_default : LifecycleConfig := {|
  orphan_recovery_after := from_secs 30;
  default_lease_ttl := from_secs (60 * 60);
  cancellation_grace_period := from_secs 10;
  checkpoint_after_tool_calls := 10;
  checkpoint_after := from_secs 300;
|}.

Inductive RecoveryAction := Keep | MarkOrphaned | LeaseExpired.

Record RecoveryDecision := {
  rd_before : SessionState;
  rd_after : SessionState;
  rd_action : RecoveryAction;
}.

Definition after_restart (r : StateMachine.LifecycleRecord) : RecoveryDecision :=
  let s := StateMachine.state r in
  match s with
  | Running => {| rd_before := s; rd_after := Orphaned; rd_action := MarkOrphaned |}
  | _ => {| rd_before := s; rd_after := s; rd_action := Keep |}
  end.

Definition lease_expiry_orphans (s : SessionState) : bool :=
  match s with
  | Queued | Running | InputRequired | ApprovalRequired | AuthenticationRequired | Paused
  | Orphaned => true
  | Completed | Failed | Cancelled | Rejected => false
  end.

Definition after_lease_check (r : StateMachine.LifecycleRecord) (l : Lease) (now : N)
    : RecoveryDecision :=
  let s := StateMachine.state r in
  if is_expired_at l now && lease_expiry_orphans s
  then {| rd_before := s; rd_after := Orphaned; rd_action := LeaseExpired |}
  else {| rd_before := s; rd_after := s; rd_action := Keep |}.

Definition orphan_recovery_due (orphaned_for : Duration) (c : LifecycleConfig) : bool :=
  orphan_recovery_after c <=? orphaned_for.

(** ** Cancellation

    The cleanup future is what [tokio::time::timeout] makes of it: [Some] report
    when it finished inside the grace period, [None] when the period elapsed. *)

Record CleanupReport := { released : list rstr; unreleased : list rstr }.
Record CancellationReport := { completed_within_grace : bool; cleanup : CleanupReport }.
Inductive CancellationOutcome := Released | GraceExpired.

(** The flag the watch channel holds, and the grace period. *)
Record CancellationController := { cancel_requested : bool; grace_period : Duration }.

Definition CancellationController_new (grace : Duration) : CancellationController :=
  {| cancel_requested := false; grace_period := grace |}.

(** A token is a subscription to the flag of its controller. *)
Definition is_cancelled (c : CancellationController) : bool := cancel_requested c.

Definition cancel_with_cleanup (c : CancellationController) (tracked : list rstr)
    (within_grace : Duration → option CleanupReport)
    : CancellationController * (CancellationOutcome * CancellationReport) :=
  let c := {| cancel_requested := true; grace_period := grace_period c |} in
  match within_grace (grace_period c) with
  | Some report => (c, (Released, {| completed_within_grace := true; cleanup := report |}))
  | None =>
      (c, (GraceExpired,
           {| completed_within_grace := false;
              cleanup := {| released := []; unreleased := tracked |} |}))
  end.

(** ** Lemmas *)

Definition cursor_ok (p : CheckpointPolicy) (now : N) (c : CheckpointCursor) : Prop :=
  (after_tool_calls p ≠ 0 → tool_calls_since_checkpoint c < after_tool_calls p)
  ∧ (after_seconds p ≠ 0 → now - last_checkpoint_unix_secs c < after_seconds p).

Lemma check_time_budget_ok p now c :
  (after_tool_calls p ≠ 0 → tool_calls_since_checkpoint c < after_tool_calls p) →
  cursor_ok p now (check_time_budget c now p).1.
Proof.
  intros Hc. unfold check_time_budget, cursor_ok, saturating_sub. case_match eqn:E; simpl.
  - bool_simpl. split; lia.
  - split; [done|]. intros Hs. apply andb_false_iff in E as [E|E]; bool_simpl; [lia|done].
Qed.

Lemma record_tool_call_ok p now c : cursor_ok p now (record_tool_call c now p).1.
Proof.
  unfold record_tool_call. case_match eqn:E; simpl.
  - bool_simpl. split; simpl; lia.
  - apply check_time_budget_ok. simpl. intros Hn.
    apply andb_false_iff in E as [E|E]; bool_simpl; [lia|done].
Qed.

Lemma record_tool_call_quiet p now c c' :
  record_tool_call c now p = (c', None) →
  tool_calls_since_checkpoint c' = saturating_add u32_max (tool_calls_since_checkpoint c) 1.
Proof.
  unfold record_tool_call, check_time_budget. intros E. repeat case_match; by simplify_eq/=.
Qed.

(** A sequence of tool calls at the given times, with the triggers they gave. *)
Fixpoint tool_calls (c : CheckpointCursor) (p : CheckpointPolicy) (times : list N)
    : CheckpointCursor * list (option CheckpointTrigger) :=
  match times with
  | [] => (c, [])
  | now :: times =>
      let '(c, t) := record_tool_call c now p in
      let '(c, ts) := tool_calls c p times in (c, t :: ts)
  end.

Definition is_trigger (t : option CheckpointTrigger) : bool :=
  match t with Some _ => true | None => false end.

(** While nothing triggers, the calls pile up below the threshold. *)
Lemma quiet_calls p times c :
  existsb is_trigger (tool_calls c p times).2 = false → times ≠ [] → after_tool_calls p ≠ 0 →
  after_tool_calls p ≤ u32_max →
  tool_calls_since_checkpoint c + len times < after_tool_calls p.
Proof.
  intros Hq Hne Hn Hmax. revert c Hq.
  induction times as [|t times IH]; intros c Hq; [done|]. simpl in Hq.
  pose proof (record_tool_call_ok p t c) as [Hok _]. specialize (Hok Hn).
  destruct (record_tool_call c t p) as [c1 tr] eqn:E.
  destruct (tool_calls c1 p times) as [c2 trs] eqn:E2. simpl in *.
  apply orb_false_iff in Hq as [Htr Hq]. destruct tr; [done|].
  apply record_tool_call_quiet in E. unfold saturating_add in E. rw len_cons.
  destruct times as [|u times]; [rw len_nil; lia|].
  specialize (IH ltac:(done) c1). rw E2 in IH. specialize (IH Hq). lia.
Qed.

(** ** Properties *)

(** No unbounded work between checkpoints: after every recorded tool call,
    with the thresholds enabled, fewer than [after_tool_calls] calls are
    outstanding and the last checkpoint is less than [after_seconds] old at the
    time of the call; and any [after_tool_calls] consecutive calls trigger a
    checkpoint. *)
Theorem checkpoint_bounds_work c p now times :
  cursor_ok p now (record_tool_call c now p).1
  ∧ (after_tool_calls p ≠ 0 → after_tool_calls p ≤ u32_max → after_tool_calls p ≤ len times →
     existsb is_trigger (tool_calls c p times).2 = true).
Proof.
  split; [apply record_tool_call_ok|]. intros Hn Hmax Hlen.
  destruct (existsb is_trigger (tool_calls c p times).2) eqn:E; [done|]. exfalso.
  assert (times ≠ []) as Hne by (intros ->; rw len_nil in Hlen; lia).
  pose proof (quiet_calls p times c E Hne Hn Hmax). lia.
Qed.

(** Lease expiry is exact up to saturation and permanent: before the end of
    time a lease is expired exactly when its TTL has passed since it was
    acquired, and once expired it stays expired.  The expiry check orphans a
    non-terminal task and nothing else: it never fails a task, and it leaves
    terminal states and live leases alone. *)
Theorem lease_expiry_orphans_only l r now later :
  (now < u64_max →
   is_expired_at l now = true ↔ acquired_at_unix_secs l + ttl_secs (ttl l) ≤ now)
  ∧ (now ≤ later → is_expired_at l now = true → is_expired_at l later = true)
  ∧ (let d := after_lease_check r l now in
     rd_before d = StateMachine.state r
     ∧ (rd_action d = LeaseExpired ∧ rd_after d = Orphaned ∧ is_expired_at l now = true
        ∧ StateMachine.terminal (rd_before d) = false
        ∨ rd_action d = Keep ∧ rd_after d = rd_before d
          ∧ (is_expired_at l now = false ∨ StateMachine.terminal (rd_before d) = true))).
Proof.
  split_and!.
  - intros Hnow. unfold is_expired_at, expires_at_unix_secs, saturating_add. rw N.leb_le. lia.
  - unfold is_expired_at. rw !N.leb_le. lia.
  - unfold after_lease_check. destruct (is_expired_at l now), (StateMachine.state r); simpl; auto 10.
Qed.

(** Restart recovery.  Every state but [running] survives a restart
    unchanged; a running task is marked orphaned, and the machine reloaded from
    the durable record accepts that transition under any key it has not seen,
    after which the task is orphaned and can be resumed. *)
Theorem restart_recovery_is_admissible m a b :
  let d := after_restart (StateMachine.record m) in
  let m0 := StateMachine.from_record (StateMachine.record m) in
  let '(m1, r1) := StateMachine.transition m0 a in
  rd_before d = StateMachine.state (StateMachine.record m)
  ∧ (rd_before d ≠ Running → rd_action d = Keep ∧ rd_after d = rd_before d)
  ∧ (rd_before d = Running →
     rd_action d = MarkOrphaned ∧ rd_after d = Orphaned
     ∧ (StateMachine.applied m0 !! StateMachine.at_idempotency_key a = None →
        StateMachine.at_to a = rd_after d →
        r1 = Ok (StateMachine.make_record Running a)
        ∧ StateMachine.state (StateMachine.record m1) = Orphaned
        ∧ (StateMachine.applied m1 !! StateMachine.at_idempotency_key b = None →
           StateMachine.at_to b = Running →
           StateMachine.state (StateMachine.record (StateMachine.transition m1 b).1) = Running))).
Proof.
  intros d m0. destruct (StateMachine.transition m0 a) as [m1 r1] eqn:E.
  assert (rd_before d = StateMachine.state (StateMachine.record m)) as Hb.
  { unfold d, after_restart. by destruct (StateMachine.state _). }
  rw Hb. split_and!; [done|unfold d, after_restart; by destruct (StateMachine.state _)|].
  intros Hrun. unfold d, after_restart. rw Hrun. simpl. split_and!; [done..|]. intros Hk Hto.
  unfold StateMachine.transition in E. rw Hk bool_decide_false in E; [|by intros []].
  simpl in E. rw Hrun Hto /= in E. injection E as <- <-. simpl. split_and!; [done..|].
  intros Hkb Hbto. unfold StateMachine.transition. simpl. rw Hkb bool_decide_false; [|by intros []].
  by rw Hbto.
Qed.

(** What the lease check proposes, the state machine admits from [running]
    only: when an expired lease asks for the move to [orphaned] under a key the
    machine has not seen, the move succeeds exactly if the task is running, and
    is refused in every other non-terminal state with the machine unchanged. *)
Theorem lease_orphaning_refused m l now a :
  let s := StateMachine.state (StateMachine.record m) in
  let d := after_lease_check (StateMachine.record m) l now in
  rd_action d = LeaseExpired →
  StateMachine.applied m !! StateMachine.at_idempotency_key a = None →
  StateMachine.at_to a = rd_after d →
  (s = Running ∧ (StateMachine.transition m a).2 = Ok (StateMachine.make_record Running a))
  ∨ (s ∈ [Queued; InputRequired; ApprovalRequired; AuthenticationRequired; Paused; Orphaned]
     ∧ StateMachine.transition m a
       = (m, Err (StateMachine.InvalidTransition s Orphaned (StateMachine.invalid_reason s)))).
Proof.
  simpl. unfold after_lease_check. case_match eqn:Hexp; [|done]. intros _ Hfresh Hto.
  apply andb_prop in Hexp as [_ Hs]. simpl in Hto.
  unfold StateMachine.transition. rw Hfresh Hto.
  destruct (StateMachine.state (StateMachine.record m)); try done; [right|by left|right..];
    (split; [set_solver|done]).
Qed.

Lemma lease_orphaning_refused_witness :
  let m := StateMachine.queued in
  let a := StateMachine.demo_attempt "lease" Orphaned in
  (StateMachine.state (StateMachine.record m) = Running
   ∧ (StateMachine.transition m a).2 = Ok (StateMachine.make_record Running a))
  ∨ (StateMachine.state (StateMachine.record m)
       ∈ [Queued; InputRequired; ApprovalRequired; AuthenticationRequired; Paused; Orphaned]
     ∧ StateMachine.transition m a
       = (m, Err (StateMachine.InvalidTransition Queued Orphaned (StateMachine.invalid_reason Queued)))).
Proof.
  apply (lease_orphaning_refused StateMachine.queued (Lease_new 0) 3600
           (StateMachine.demo_attempt "lease" Orphaned)); vm_compute; reflexivity.
Defined.

(** Cancellation always sets the flag the tokens observe and accounts for
    every tracked resource: the cleanup report is passed on unchanged when it
    arrives within the grace period, and otherwise every tracked resource is
    reported as unreleased and none as released. *)
Lemma cancellation_accounts_for_resources c tracked within_grace :
  let '(c', (o, report)) := cancel_with_cleanup c tracked within_grace in
  is_cancelled c' = true ∧ grace_period c' = grace_period c
  ∧ match within_grace (grace_period c) with
    | Some cleaned => o = Released ∧ completed_within_grace report = true ∧ cleanup report = cleaned
    | None => o = GraceExpired ∧ completed_within_grace report = false
              ∧ released (cleanup report) = [] ∧ unreleased (cleanup report) = tracked
    end.
Proof. unfold cancel_with_cleanup. simpl. by destruct (within_grace (grace_period c)). Qed.
