(* ===== verification/Preservation.v ===== *)
(** * Clients of the audit store

    [crates/orchestraitor-lifecycle/src/event_preservation.rs]: partial results
    appended to the event store through a cursor; and
    [crates/orchestraitor-events/src/reasoning.rs]: the appender of reasoning
    events.  Both are proved against the interface [AuditStoreLaws], for every
    store that keeps it.

    The clock and the generator of operation identifiers are inputs. *)

From stdpp Require Import pretty.
From S2P Require Import Prelude BTree Model Events AuditExample Lifecycle.

(** ** Partial results *)

Inductive PartialResultKind := PartialPatch | CompletedToolCall | ModelResponse.

Record PartialResult := {
  pr_operation_id : OperationId;
  pr_idempotency_key : IdempotencyKey;
  pr_kind : PartialResultKind;
  pr_partial : bool;
  pr_payload : Value;
}.

Record EventCursor := { next_sequence : N; previous_hash : option HashDigest }.

Definition EventCursor_empty : EventCursor := {| next_sequence := 1; previous_hash := None |}.

(** The cursor's store is borrowed: both are threaded. *)
Record PartialResultStore (S : Type) := MkPartialStore { prs_store : S; prs_cursor : EventCursor }.
Arguments MkPartialStore {S} _ _.
Arguments prs_store {S} _.
Arguments prs_cursor {S} _.

Definition event_category (k : PartialResultKind) : EventCategory :=
  match k with
  | PartialPatch => OutputPromotion
  | CompletedToolCall => ToolRequest
  | ModelResponse => ModelResponseMetadata
  end.

(** [#[serde(rename_all = "snake_case")]]. *)
Definition kind_value (k : PartialResultKind) : Value :=
  VString (match k with
           | PartialPatch => lit "partial_patch"
           | CompletedToolCall => lit "completed_tool_call"
           | ModelResponse => lit "model_response"
           end).

(** [now] is the time since the Unix epoch, or [None] before it. *)
Definition unix_timestamp_string (now : option N) : result rstr StateMachine.LifecycleError :=
  match now with
  | None => Err StateMachine.ClockBeforeUnixEpoch
  | Some secs => Ok (lit (pretty secs))
  end.

Definition result_payload (r : PartialResult) : Value :=
  VObject [(lit "idempotency", VString (key_str (pr_idempotency_key r)));
           (lit "kind", kind_value (pr_kind r));
           (lit "partial", VBool (pr_partial r));
           (lit "result", pr_payload r)].

Section preserve.
Context {S : Type} `{AuditStore S}.

Definition preserve (p : PartialResultStore S) (now : option N) (r : PartialResult)
    : PartialResultStore S * result OperationId StateMachine.LifecycleError :=
  let built :=
    let? ts := unix_timestamp_string now in
    map_err StateMachine.EventStore (EventEnvelope_try_new {|
      inp_schema_version := CURRENT_SCHEMA_VERSION;
      inp_monotonic_seq := next_sequence (prs_cursor p);
      inp_wall_clock_ts := ts;
      inp_correlation_id := pr_operation_id r;
      inp_parent_op_id := None;
      inp_category := event_category (pr_kind r);
      inp_payload := result_payload r;
      inp_prev_hash := previous_hash (prs_cursor p) |}) in
  match built with
  | Err e => (p, Err e)
  | Ok e =>
      let '(s, appended) := store_append (prs_store p) e in
      match appended with
      | Err x => (MkPartialStore s (prs_cursor p), Err (StateMachine.EventStore x))
      | Ok record =>
          (MkPartialStore s
             {| next_sequence := saturating_add u64_max (next_sequence (prs_cursor p)) 1;
                previous_hash := Some (hash record) |}, Ok (pr_operation_id r))
      end
  end.
End preserve.

(** ** Reasoning events *)

(** The accessors of the trait. *)
Record ReasoningEvent := {
  accepted : bool;
  refusal_reason : option rstr;
  thought_number : N;
  total_thoughts : N;
  next_thought_needed : bool;
  is_revision : bool;
  revises_thought : option N;
  thought_chars : N;
  sequence_id : N;
  thought_text : option rstr;
}.

Definition opt_value {A} (f : A → Value) (o : option A) : Value := from_option f VNull o.
Definition num (n : N) : Value := VNumber (PosInt n).

Definition reasoning_payload (task_id : rstr) (r : ReasoningEvent) (record_payloads : bool) : Value :=
  let text := if record_payloads then thought_text r else None in
  VObject [(lit "event", VString (lit "agent-reasoning"));
           (lit "task_id", VString task_id);
           (lit "accepted", VBool (accepted r));
           (lit "refusal_reason", opt_value VString (refusal_reason r));
           (lit "thought_number", num (thought_number r));
           (lit "total_thoughts", num (total_thoughts r));
           (lit "next_thought_needed", VBool (next_thought_needed r));
           (lit "is_revision", VBool (is_revision r));
           (lit "revises_thought", opt_value num (revises_thought r));
           (lit "thought_chars", num (thought_chars r));
           (lit "sequence_id", num (sequence_id r));
           (lit "thought_text", opt_value VString text)].

(** [Mutex<S>]. *)
Record Mutex (S : Type) := MkMutex { guarded : S; poisoned : bool }.
Arguments MkMutex {S} _ _.
Arguments guarded {S} _.
Arguments poisoned {S} _.

Section reasoning.
Context {S : Type} `{AuditStore S}.

(** [for record in records]; each comes with the timestamp and the identifier
    generated for it. *)
Fixpoint append_reasoning_loop (s : S) (task_id : rstr)
    (rs : list (ReasoningEvent * (rstr * OperationId))) (record_payloads : bool)
    : S * result unit EventError :=
  match rs with
  | [] => (s, Ok tt)
  | (r, (ts, id)) :: rs =>
      match store_head s with
      | Err x => (s, Err x)
      | Ok head =>
          match EventEnvelope_try_new {|
            inp_schema_version := CURRENT_SCHEMA_VERSION;
            inp_monotonic_seq := saturating_add u64_max (seq_base head) 1;
            inp_wall_clock_ts := ts;
            inp_correlation_id := id;
            inp_parent_op_id := None;
            inp_category := AgentReasoning;
            inp_payload := reasoning_payload task_id r record_payloads;
            inp_prev_hash := head_prev_hash head |} with
          | Err x => (s, Err x)
          | Ok e =>
              let '(s, appended) := store_append s e in
              match appended with
              | Err x => (s, Err x)
              | Ok _ => append_reasoning_loop s task_id rs record_payloads
              end
          end
      end
  end.

Definition append_reasoning_events (events : Mutex S) (task_id : rstr)
    (rs : list (ReasoningEvent * (rstr * OperationId))) (record_payloads : bool)
    : Mutex S * result unit EventError :=
  if poisoned events then (events, Err (Sqlite (lit "reasoning event store lock poisoned"))) else
  let '(s, res) := append_reasoning_loop (guarded events) task_id rs record_payloads in
  (MkMutex s false, res).
End reasoning.

(** ** The cursor follows the log *)

Section client_laws.
Context {S : Type} `{AuditStoreLaws S}.

Definition synced (p : PartialResultStore S) : Prop :=
  store_ok (prs_store p)
  ∧ next_sequence (prs_cursor p) = saturating_add u64_max (len (log (prs_store p))) 1
  ∧ previous_hash (prs_cursor p) = hash <$> list.last (log (prs_store p)).

(** Why a result could not be preserved. *)
Definition unpreservable (now : option N) (r : PartialResult) : Prop :=
  now = None ∨ ¬ is_Ok (reject_sensitive_fields (pr_payload r))
  ∨ ∃ e, payload e = result_payload r ∧ ¬ is_Ok (canonical_json e).

Lemma result_payload_clean r :
  reject_sensitive_fields (result_payload r) = reject_sensitive_fields (pr_payload r).
Proof. simpl. by destruct (reject_sensitive_fields (pr_payload r)) as [[]|]. Qed.

Lemma preserve_step p now r :
  synced p →
  synced (preserve p now r).1
  ∧ match (preserve p now r).2 with
    | Ok id => id = pr_operation_id r
        ∧ ∃ x, log (prs_store (preserve p now r).1) = log (prs_store p) ++ [x]
               ∧ payload (envelope x) = result_payload r
               ∧ category (envelope x) = event_category (pr_kind r)
               ∧ correlation_id (envelope x) = id
    | Err _ => log (prs_store (preserve p now r).1) = log (prs_store p)
               ∧ prs_cursor (preserve p now r).1 = prs_cursor p ∧ unpreservable now r
    end.
Proof.
  intros Hsync. unfold preserve. destruct now as [secs|]; cbn [unix_timestamp_string result_bind fst snd];
    [|by split; [|split_and!; [..|left]]].
  destruct (EventEnvelope_try_new _) as [e|x] eqn:Ee; cbn [map_err fst snd].
  2: { split; [done|]. split_and!; [done..|]. right; left. rw -result_payload_clean.
       unfold EventEnvelope_try_new in Ee. cbn [inp_payload] in Ee.
       destruct (reject_sensitive_fields _); [done|]. by intros [? [=]]. }
  apply try_new_ok in Ee as (Hn & Hp & Hv & Hc & Hi). cbn in Hn, Hp, Hv, Hc, Hi.
  destruct Hsync as (Hs & Hcn & Hcp).
  destruct (append_continuing (prs_store p) e) as [Hok Ha]; [done|congruence..|].
  destruct (store_append (prs_store p) e) as [s [x|err]]; cbn in Hok, Ha |- *.
  - destruct Ha as [Hl He]. split.
    + split_and!; [done|..]; cbn; rw Hl ?last_snoc ?len_app ?len_cons ?len_nil //.
      rw Hcn. unfold saturating_add. lia.
    + split; [done|]. exists x. by rw He.
  - destruct Ha as [Hl Hx]. split; [by split_and!; cbn; rw ?Hl|].
    split_and!; [done..|]. right; right. by exists e.
Qed.

(** Results preserved one after the other, with what each call returned. *)
Fixpoint preserve_all (p : PartialResultStore S) (rs : list (option N * PartialResult))
    : PartialResultStore S * list (result OperationId StateMachine.LifecycleError) :=
  match rs with
  | [] => (p, [])
  | (now, r) :: rs =>
      let '(p, out) := preserve p now r in
      let '(p, outs) := preserve_all p rs in (p, out :: outs)
  end.

(** The results whose call succeeded. *)
Fixpoint preserved (rs : list (option N * PartialResult))
    (outs : list (result OperationId StateMachine.LifecycleError)) : list PartialResult :=
  match rs, outs with
  | (_, r) :: rs, Ok _ :: outs => r :: preserved rs outs
  | _ :: rs, _ :: outs => preserved rs outs
  | _, _ => []
  end.

(** ** Reasoning events *)

Lemma reasoning_payload_clean task r consent :
  reject_sensitive_fields (reasoning_payload task r consent) = Ok tt.
Proof. destruct r as [? [] ???? [] ?? []], consent; vm_compute; reflexivity. Qed.

Definition reasoning_record (task : rstr) (consent : bool) (r : ReasoningEvent * (rstr * OperationId))
    (x : AuditRecord) : Prop :=
  category (envelope x) = AgentReasoning
  ∧ payload (envelope x) = reasoning_payload task r.1 consent
  ∧ wall_clock_ts (envelope x) = r.2.1 ∧ correlation_id (envelope x) = r.2.2.

Lemma append_reasoning_spec s task rs consent :
  store_ok s →
  let '(s', res) := append_reasoning_loop s task rs consent in
  store_ok s' ∧ ∃ k new, log s' = log s ++ new ∧ Forall2 (reasoning_record task consent) (take k rs) new
    ∧ (res = Ok tt → (length rs ≤ k)%nat)
    ∧ (res ≠ Ok tt → ∃ e, category e = AgentReasoning ∧ ¬ is_Ok (canonical_json e)).
Proof.
  revert s. induction rs as [|[r [ts id]] rs IH]; intros s Hs.
  { split; [done|]. exists 0%nat, []. by rw app_nil_r. }
  cbn [append_reasoning_loop]. rw (head_law s Hs). cbn [seq_base head_prev_hash].
  unfold EventEnvelope_try_new at 1. cbn [inp_payload].
  rw reasoning_payload_clean. cbn -[reasoning_payload].
  match goal with |- context [store_append s ?e'] => set (e := e') end.
  destruct (append_continuing s e) as [Hok Ha]; [done..|].
  destruct (store_append s e) as [s' [x|err]]; cbn in Hok, Ha.
  - destruct Ha as [Hl He]. specialize (IH s' Hok).
    destruct (append_reasoning_loop s' task rs consent) as [s'' res].
    destruct IH as (Hok'' & k & new & Hl'' & Hnew & Hk & Herr). split; [done|].
    exists (Datatypes.S k), (x :: new). rw Hl'' Hl -app_assoc. split_and!; [done| |naive_solver lia|done].
    constructor; [|done]. unfold reasoning_record. by rw He.
  - destruct Ha as [Hl Hx]. split; [done|]. exists 0%nat, []. rw app_nil_r.
    split_and!; [done|constructor|done|]. intros _. by exists e.
Qed.
End client_laws.

(** ** Properties *)

(** Partial results are preserved without gaps.  With any store that keeps
    the interface, a cursor that describes its log keeps describing it, whatever
    is preserved and whichever calls fail: the log grows by exactly one record
    per successful call, in order, carrying that result under the operation
    identifier the call returned; a failed call changes nothing, and a call
    fails only before the epoch, on a credential-like field or on an event that
    cannot be canonicalised, never on the chain. *)
Theorem partial_results_preserved {S} `{AuditStoreLaws S} (p : PartialResultStore S) rs :
  synced p →
  let '(p', outs) := preserve_all p rs in
  synced p'
  ∧ (∃ new, log (prs_store p') = log (prs_store p) ++ new
       ∧ Forall2 (λ r x, payload (envelope x) = result_payload r
                         ∧ category (envelope x) = event_category (pr_kind r)
                         ∧ correlation_id (envelope x) = pr_operation_id r)
           (preserved rs outs) new)
  ∧ Forall2 (λ '(now, r) out, match out with
                              | Ok id => id = pr_operation_id r
                              | Err _ => unpreservable now r
                              end) rs outs.
Proof.
  revert p. induction rs as [|[now r] rs IH]; intros p Hp; simpl.
  { split_and!; [done| |constructor]. exists []. by rw app_nil_r. }
  destruct (preserve_step p now r Hp) as [Hp1 Hstep].
  destruct (preserve p now r) as [p1 out]. simpl in Hp1, Hstep.
  specialize (IH p1 Hp1). destruct (preserve_all p1 rs) as [p' outs].
  destruct IH as (Hp' & (new & Hl & Hnew) & Hall). split; [done|].
  destruct out as [id|x].
  - destruct Hstep as (-> & y & Hy & ?). split; [|by constructor].
    exists (y :: new). rw Hl Hy -app_assoc. split; [done|]. by constructor.
  - destruct Hstep as (Hy & _ & ?). split; [|by constructor]. exists new. by rw Hl Hy.
Qed.

(** Reasoning events are recorded in order and without text unless
    recording was consented to.  With any store that keeps the interface the log
    grows by the records of a prefix of the batch, all of it on success; each
    carries its step's metadata; without consent the text field is null; and
    the only failures are a poisoned lock, which changes nothing, and an event
    that cannot be canonicalised. *)
Theorem reasoning_events_recorded {S} `{AuditStoreLaws S} (m : Mutex S) task rs consent :
  store_ok (guarded m) →
  let '(m', res) := append_reasoning_events m task rs consent in
  store_ok (guarded m')
  ∧ (∃ k new, log (guarded m') = log (guarded m) ++ new
       ∧ Forall2 (reasoning_record task consent) (take k rs) new
       ∧ (res = Ok tt → (length rs ≤ k)%nat)
       ∧ (consent = false →
          ∀ x, x ∈ new → ∃ fields, payload (envelope x) = VObject fields
                                   ∧ ∀ v, (lit "thought_text", v) ∈ fields → v = VNull))
  ∧ (res ≠ Ok tt → (poisoned m = true ∧ m' = m)
       ∨ ∃ e, category e = AgentReasoning ∧ ¬ is_Ok (canonical_json e)).
Proof.
  intros Hs. unfold append_reasoning_events. destruct (poisoned m) eqn:Hm.
  { split; [done|]. split; [|by left]. exists 0%nat, []. rw app_nil_r.
    split_and!; [done|constructor|done|]. intros _ x Hx. by apply not_elem_of_nil in Hx. }
  pose proof (append_reasoning_spec (guarded m) task rs consent Hs) as Hspec.
  destruct (append_reasoning_loop (guarded m) task rs consent) as [s' res].
  destruct Hspec as (Hok & k & new & Hl & Hnew & Hk & Herr). split; [done|].
  split; [|by right; apply Herr]. exists k, new. split_and!; [done..|].
  intros -> x Hx. apply list_elem_of_lookup in Hx as [j Hj].
  destruct (Forall2_lookup_r _ _ _ _ _ Hnew Hj) as (r & _ & _ & -> & _).
  eexists. split; [reflexivity|]. intros v Hv.
  repeat (apply elem_of_cons in Hv as [Hv|Hv];
    [first [by apply (f_equal fst) in Hv; vm_compute in Hv | exact (f_equal snd Hv)]|]).
  by apply not_elem_of_nil in Hv.
Qed.

(** ** Examples on the in-memory store *)

Definition example_result (v : Value) : PartialResult := {|
  pr_operation_id := MkOperationId (lit "o"); pr_idempotency_key := MkIdempotencyKey (lit "k");
  pr_kind := CompletedToolCall; pr_partial := true; pr_payload := v |}.

Definition example_results : list (option N * PartialResult) :=
  [(Some 5, example_result VNull); (None, example_result VNull);
   (Some 6, example_result (VObject [(lit "api-key", VNull)])); (Some 7, example_result (VBool true))].

Definition example_start : PartialResultStore InMemoryAuditStore :=
  MkPartialStore (MkStore []) EventCursor_empty.
Definition example_mutex : Mutex InMemoryAuditStore := MkMutex (MkStore []) false.

Lemma partial_results_preserved_witness :
  let '(p', outs) := preserve_all example_start example_results in
  synced p'
  ∧ (∃ new, log (prs_store p') = log (prs_store example_start) ++ new
       ∧ Forall2 (λ r x, payload (envelope x) = result_payload r
                         ∧ category (envelope x) = event_category (pr_kind r)
                         ∧ correlation_id (envelope x) = pr_operation_id r)
           (preserved example_results outs) new)
  ∧ Forall2 (λ '(now, r) out, match out with
                              | Ok id => id = pr_operation_id r
                              | Err _ => unpreservable now r
                              end) example_results outs.
Proof.
  apply (partial_results_preserved example_start example_results).
  split_and!; reflexivity.
Defined.

Definition example_step : ReasoningEvent := {|
  accepted := true; refusal_reason := None; thought_number := 1; total_thoughts := 2;
  next_thought_needed := true; is_revision := false; revises_thought := None; thought_chars := 3;
  sequence_id := 1; thought_text := Some (lit "abc") |}.

Definition example_batch : list (ReasoningEvent * (rstr * OperationId)) :=
  [(example_step, (lit "t", MkOperationId (lit "o")))].

Lemma reasoning_events_recorded_witness :
  let '(m', res) := append_reasoning_events example_mutex (lit "task") example_batch false in
  store_ok (guarded m')
  ∧ (∃ k new, log (guarded m') = log (guarded example_mutex) ++ new
       ∧ Forall2 (reasoning_record (lit "task") false) (take k example_batch) new
       ∧ (res = Ok tt → (length example_batch ≤ k)%nat)
       ∧ (false = false →
          ∀ x, x ∈ new → ∃ fields, payload (envelope x) = VObject fields
                                   ∧ ∀ v, (lit "thought_text", v) ∈ fields → v = VNull))
  ∧ (res ≠ Ok tt → (poisoned example_mutex = true ∧ m' = example_mutex)
       ∨ ∃ e, category e = AgentReasoning ∧ ¬ is_Ok (canonical_json e)).
Proof.
  apply (reasoning_events_recorded example_mutex (lit "task") example_batch false).
  reflexivity.
Defined.
