(* ===== verification/Board.v ===== *)
(** * Board reads

    [crates/orchestraitor-board/src]: the conversion of raw project items into
    trusted facts ([item.rs]), the ready-queue predicate over them
    ([queue.rs]), the configuration that names the fields ([config.rs]) and the
    reads and the verified status write of the client ([client.rs]).  The
    secret references of [crates/orchestraitor-core/src/secret.rs] the
    configuration names are here too.

    [str::to_lowercase] (the Unicode case tables) is the parameter
    [to_lowercase]; the GraphQL endpoint is the sequence of answers it gives. *)

From S2P Require Import Prelude BTree Text.

(** ** Secret references *)

Inductive SecretStore := Keyring | Env.

Record SecretUri := MkSecretUri { su_store : SecretStore; su_id : rstr }.

#[export] Instance SecretStore_eq_dec : EqDecision SecretStore.
Proof. solve_decision. Defined.
#[export] Instance SecretUri_eq_dec : EqDecision SecretUri.
Proof. solve_decision. Defined.

(** [ConfigError::SecretUri], the only error of the parser. *)
Inductive SecretUriError := ConfigError_SecretUri.

Definition parse_id (store : SecretStore) (id : rstr) : result SecretUri SecretUriError :=
  if is_empty id || contains 47 id then Err ConfigError_SecretUri
  else Ok (MkSecretUri store id).

Definition parse_env (id : rstr) : result SecretUri SecretUriError :=
  if is_empty id || contains 47 id
     || negb (forallb (λ c, (c =? 95) || is_ascii_alphanumeric c) id)
  then Err ConfigError_SecretUri
  else Ok (MkSecretUri Env id).

Definition SecretUri_parse (input : rstr) : result SecretUri SecretUriError :=
  match strip_prefix (lit "secret://keyring/") input with
  | Some id => parse_id Keyring id
  | None =>
  match strip_prefix (lit "secret://env/") input with
  | Some id => parse_env id
  | None =>
  match strip_prefix (lit "env:") input with
  | Some id => parse_env id
  | None => Err ConfigError_SecretUri
  end end end.

Definition as_uri (u : SecretUri) : rstr :=
  match su_store u with
  | Keyring => lit "secret://keyring/" ++ su_id u
  | Env => lit "secret://env/" ++ su_id u
  end.

(** ** Wire shapes *)

Record PageInfo := MkPageInfo { has_next_page : bool; end_cursor : option rstr }.

(** [nodes] and [totalCount] of a GraphQL connection. *)
Record Connection (A : Type) := MkConnection { conn_nodes : list A; conn_total : N }.
Arguments MkConnection {A}.
Arguments conn_nodes {A}.
Arguments conn_total {A}.

Record FieldValue := MkFieldValue {
  fv_name : option rstr;
  fv_field : option (option rstr);
}.

Record ItemContent := MkItemContent {
  typename : rstr;
  ic_number : option N;
  ic_state : option rstr;
  ic_title : option rstr;
  ic_url : option rstr;
  ic_repository : option rstr;
  ic_issue_type : option rstr;
  ic_labels : option (Connection rstr);
  ic_blocked_by : option (Connection rstr);
}.

Record RawItem := MkRawItem {
  ri_id : rstr;
  ri_content : option ItemContent;
  field_values : Connection FieldValue;
}.

Record ItemPage := MkItemPage { page_info : PageInfo; ip_nodes : list RawItem }.

Inductive ItemSkip := Malformed (reason : rstr) | Truncated (window : rstr) | NotOpen.

Record ItemFacts := MkItemFacts {
  item_node_id : rstr;
  if_repo : rstr;
  if_number : N;
  if_title : rstr;
  if_url : rstr;
  if_issue_type : option rstr;
  if_labels : list rstr;
  open_blockers : N;
  if_target : option rstr;
  if_status : option rstr;
  if_priority : option rstr;
}.

#[export] Instance ItemSkip_eq_dec : EqDecision ItemSkip.
Proof. solve_decision. Defined.
#[export] Instance ItemFacts_eq_dec : EqDecision ItemFacts.
Proof. solve_decision. Defined.

(** ** Configuration *)

Record BoardProjectConfig := MkBoardProjectConfig {
  organization : rstr;
  project_number : N;
  repos : list rstr;
  leaf_types : list rstr;
  target_field : rstr;
  target_value : rstr;
  ready_field : rstr;
  ready_value : rstr;
  token_uri : option SecretUri;
  priority_field : rstr;
  require_target : bool;
}.

Record RawProject := MkRawProject {
  rp_organization : option rstr;
  rp_number : option N;
  rp_repos : option (list rstr);
}.

Record RawMvp := MkRawMvp {
  rm_target_field : option rstr;
  rm_target_value : option rstr;
  rm_ready_field : option rstr;
  rm_ready_value : option rstr;
  rm_priority_field : option rstr;
  rm_require_target : option bool;
}.

(** [RawIssueTypes] and [RawAuth] have one optional member each. *)
Record RawConfig := MkRawConfig {
  rc_project : option RawProject;
  rc_issue_types : option (option (list rstr));
  rc_mvp : option RawMvp;
  rc_auth : option (option rstr);
}.

(** [BoardError]; the wrapped source errors are not carried. *)
Inductive BoardError :=
| ConfigNotFound (searched_from : rstr)
| ConfigIo (path : rstr)
| ConfigParse (path : rstr)
| ConfigInvalid (reason : rstr)
| AuthNotConfigured
| AuthSecretUri
| AuthEnvVar (var : rstr)
| AuthKeyringUnavailable
| AuthTokenInvalid
| HttpClient
| TransportFailed
| HttpStatus (status : N)
| ResponseTooLarge (limit : N)
| GraphQl (messages : list rstr)
| ResponseShape (context : rstr)
| ProjectNotFound (org : rstr) (number : N)
| FieldNotFound (name : rstr)
| IssueTypeNotFound (name : rstr)
| OptionNotFound (field option : rstr)
| IssueNotFound (number : N)
| AmbiguousItemReference (number : N) (repos : list rstr)
| TruncatedConnection (window : rstr)
| ItemNotOnBoard (number : N)
| StatusVerification (field expected : rstr)
| CacheIo (path : rstr).

Definition required (value : option rstr) (key : rstr) : result rstr BoardError :=
  match value with
  | Some text => if blank text then Err (ConfigInvalid (key ++ lit " is required")) else Ok (trim text)
  | None => Err (ConfigInvalid (key ++ lit " is required"))
  end.

(** ** Conversion of one item *)

Definition truncated (nodes_len total_count : N) : bool := negb (nodes_len =? total_count).

Definition conn_truncated {A} (c : Connection A) : bool := truncated (len (conn_nodes c)) (conn_total c).

(** The last value of the list wins for each of the three fields; a field that
    bears two of the configured names is read under the first of them. *)
Fixpoint single_select_values (nodes : list FieldValue) (target ready priority : rstr)
    (acc : option rstr * option rstr * option rstr) : option rstr * option rstr * option rstr :=
  match nodes with
  | [] => acc
  | node :: nodes =>
      single_select_values nodes target ready priority
        match mjoin (fv_field node), fv_name node with
        | Some field, Some value =>
            let '(t, s, p) := acc in
            if bool_decide (field = target) then (Some value, s, p)
            else if bool_decide (field = ready) then (t, Some value, p)
            else if bool_decide (field = priority) then (t, s, Some value)
            else acc
        | _, _ => acc
        end
  end.

Section board.
Context (to_lowercase : rstr → rstr).

Definition is_repo_slug (repo : rstr) : bool :=
  (matches_count 47 repo =? 1) && negb (existsb is_empty (split 47 repo)).

Definition into_config (raw : RawConfig) : result BoardProjectConfig BoardError :=
  let? project := ok_or (rc_project raw) (ConfigInvalid (lit "[project] table is required")) in
  let? organization := required (rp_organization project) (lit "[project].organization") in
  let? project_number :=
    ok_or (rp_number project) (ConfigInvalid (lit "[project].number is required")) in
  let repos := List.filter (λ r, negb (is_empty r))
                 (List.map (λ r, to_lowercase (trim r)) (default [] (rp_repos project))) in
  if is_empty repos then
    Err (ConfigInvalid (lit "[project].repos must list at least one repository"))
  else if existsb (λ r, negb (is_repo_slug r)) repos then
    Err (ConfigInvalid (lit "[project].repos entries must be `org/name`"))
  else
  let leaf_types := List.filter (λ n, negb (is_empty n))
                      (List.map trim (default [] (mjoin (rc_issue_types raw)))) in
  if is_empty leaf_types then
    Err (ConfigInvalid (lit "[issue_types].leaf_implementable is required"))
  else
  let? mvp := ok_or (rc_mvp raw) (ConfigInvalid (lit "[mvp] table is required")) in
  let? target_field := required (rm_target_field mvp) (lit "[mvp].target_field") in
  let? target_value := required (rm_target_value mvp) (lit "[mvp].target_value") in
  let? ready_field := required (rm_ready_field mvp) (lit "[mvp].ready_field") in
  let? ready_value := required (rm_ready_value mvp) (lit "[mvp].ready_value") in
  let? token_uri :=
    match mjoin (rc_auth raw) with
    | Some token =>
        if blank token then Ok None
        else match SecretUri_parse (trim token) with
             | Ok u => Ok (Some u)
             | Err _ => Err (ConfigInvalid (lit "[auth].token must be a `secret://` URI"))
             end
    | None => Ok None
    end in
  Ok {| organization := organization; project_number := project_number; repos := repos;
        leaf_types := leaf_types; target_field := target_field; target_value := target_value;
        ready_field := ready_field; ready_value := ready_value; token_uri := token_uri;
        priority_field :=
          match rm_priority_field mvp with
          | Some field => if blank field then lit "Priority" else field
          | None => lit "Priority"
          end;
        require_target := default true (rm_require_target mvp) |}.

Definition includes_repo (config : BoardProjectConfig) (repo : rstr) : bool :=
  existsb (λ known, bool_decide (known = to_lowercase repo)) (repos config).

Definition facts (raw : RawItem) (repos : list rstr) (target_field ready_field priority_field : rstr)
    : result (option ItemFacts) ItemSkip :=
  if conn_truncated (field_values raw) then Err (Truncated (lit "fieldValues"))
  else match ri_content raw with
  | None => Err (Malformed (lit "missing content"))
  | Some content =>
  if negb (bool_decide (typename content = lit "Issue")) then Ok None
  else
  let? name_with_owner := ok_or (ic_repository content) (Malformed (lit "issue has no repository")) in
  let repo := to_lowercase name_with_owner in
  if negb (existsb (λ known, bool_decide (known = repo)) repos) then Ok None
  else
  let? number := ok_or (ic_number content) (Malformed (lit "issue has no number")) in
  let? state := ok_or (ic_state content) (Malformed (lit "issue has no state")) in
  if negb (bool_decide (state = lit "OPEN")) then Err NotOpen
  else
  let? title := ok_or (ic_title content) (Malformed (lit "issue has no title")) in
  let? url := ok_or (ic_url content) (Malformed (lit "issue has no url")) in
  let? labels :=
    match ic_labels content with
    | Some l => if conn_truncated l then Err (Truncated (lit "labels")) else Ok (conn_nodes l)
    | None => Ok []
    end in
  let? open_blockers :=
    match ic_blocked_by content with
    | Some b =>
        if conn_truncated b then Err (Truncated (lit "blockedBy"))
        else Ok (count (λ state, negb (bool_decide (state = lit "CLOSED"))) (conn_nodes b))
    | None => Ok 0
    end in
  let '(target, status, priority) :=
    single_select_values (conn_nodes (field_values raw)) target_field ready_field priority_field
      (None, None, None) in
  Ok (Some {| item_node_id := ri_id raw; if_repo := repo; if_number := number; if_title := title;
              if_url := url; if_issue_type := ic_issue_type content; if_labels := labels;
              open_blockers := open_blockers; if_target := target; if_status := status;
              if_priority := priority |})
  end.
End board.

(** ** The ready queue *)

Definition LEAF_FALLBACK_LABELS : list rstr := [lit "task"; lit "bug"].

Record ReadyItem := MkReadyItem {
  r_number : N;
  r_title : rstr;
  r_url : rstr;
  r_repo : rstr;
  r_item_id : rstr;
}.

#[export] Instance ReadyItem_eq_dec : EqDecision ReadyItem.
Proof. solve_decision. Defined.

Inductive WarningKind := WNotOpen | WMalformed | WTruncated.

#[export] Instance WarningKind_eq_dec : EqDecision WarningKind.
Proof. solve_decision. Defined.

Record SkipWarning := MkSkipWarning {
  sw_number : option N;
  sw_reason : rstr;
  sw_kind : WarningKind;
}.

#[export] Instance SkipWarning_eq_dec : EqDecision SkipWarning.
Proof. solve_decision. Defined.

Definition matches_leaf_mvp_ready (f : ItemFacts) (config : BoardProjectConfig) : bool :=
  let leaf :=
    match if_issue_type f with
    | Some native => existsb (λ leaf, bool_decide (leaf = native)) (leaf_types config)
    | None =>
        existsb (λ label, existsb (λ fallback, bool_decide (label = fallback)) LEAF_FALLBACK_LABELS)
          (if_labels f)
    end in
  leaf && (negb (require_target config) || bool_decide (if_target f = Some (target_value config)))
  && bool_decide (if_status f = Some (ready_value config)).

Definition is_eligible (f : ItemFacts) (config : BoardProjectConfig) : bool :=
  matches_leaf_mvp_ready f config && (open_blockers f =? 0).

(** The struct literal of [ready_queue] and [blocked_candidates]. *)
Definition ready_item (f : ItemFacts) : ReadyItem :=
  {| r_number := if_number f; r_title := if_title f; r_url := if_url f; r_repo := if_repo f;
     r_item_id := item_node_id f |}.

Definition ready_queue (all : list ItemFacts) (config : BoardProjectConfig) : list ReadyItem :=
  stable_sort (by_key r_number)
    (List.map ready_item (List.filter (λ f, is_eligible f config) all)).

Definition blocked_candidates (all : list ItemFacts) (config : BoardProjectConfig) : list ReadyItem :=
  stable_sort (by_key (λ i, (r_repo i, r_number i)))
    (List.map ready_item
       (List.filter (λ f, matches_leaf_mvp_ready f config && (0 <? open_blockers f)) all)).

Definition skip_warning (raw : RawItem) (skip : ItemSkip) : SkipWarning :=
  let '(reason, kind) :=
    match skip with
    | Malformed reason => (lit "malformed item: " ++ reason, WMalformed)
    | Truncated window => (lit "truncated `" ++ window ++ lit "` window; failing closed", WTruncated)
    | NotOpen => (lit "issue is not OPEN; closed issues never enter the ready queue", WNotOpen)
    end in
  {| sw_number := ri_content raw ≫= ic_number; sw_reason := reason; sw_kind := kind |}.

(** The loop of [item_facts] over the items of one page. *)
Definition read_items (to_lowercase : rstr → rstr) (config : BoardProjectConfig) (nodes : list RawItem)
    (acc : list ItemFacts * list SkipWarning) : list ItemFacts * list SkipWarning :=
  foldl (λ '(all, warnings) raw,
    match facts to_lowercase raw (repos config) (target_field config) (ready_field config)
            (priority_field config) with
    | Ok (Some f) => (all ++ [f], warnings)
    | Ok None => (all, warnings)
    | Err skip => (all, warnings ++ [skip_warning raw skip])
    end) acc nodes.

(** ** What a converted item guarantees *)

(** The value an item carries for a single-select field: its last one. *)
Definition select_value (name : rstr) (nodes : list FieldValue) : option rstr :=
  list.last (omap (λ n, if bool_decide (mjoin (fv_field n) = Some name) then fv_name n else None) nodes).

Lemma select_value_cons name n nodes o :
  from_option Some o (select_value name (n :: nodes))
  = from_option Some
      (match mjoin (fv_field n), fv_name n with
       | Some f, Some v => if bool_decide (f = name) then Some v else o
       | _, _ => o
       end) (select_value name nodes).
Proof.
  unfold select_value. cbn [omap list_omap].
  destruct (mjoin (fv_field n)) as [f|], (fv_name n) as [v|]; repeat case_bool_decide;
    simplify_eq; try done.
  by rw last_cons; destruct (list.last _).
Qed.

Lemma single_select_values_acc nodes t r p a b c :
  single_select_values nodes t r p (a, b, c)
  = (from_option Some a (select_value t nodes),
     if bool_decide (r = t) then b else from_option Some b (select_value r nodes),
     if bool_decide (p = t ∨ p = r) then c else from_option Some c (select_value p nodes)).
Proof.
  revert a b c. induction nodes as [|n nodes IH]; intros a b c.
  { cbn. by repeat case_bool_decide. }
  cbn [single_select_values]. rw !select_value_cons.
  destruct (mjoin (fv_field n)) as [f|]; [|apply IH]. destruct (fv_name n) as [v|]; [|apply IH].
  repeat case_bool_decide; simplify_eq; try tauto; rw IH; repeat case_bool_decide; tauto.
Qed.

(** One loop over the values reads the last value of each field. *)
Lemma single_select_values_spec nodes t r p :
  single_select_values nodes t r p (None, None, None)
  = (select_value t nodes,
     if bool_decide (r = t) then None else select_value r nodes,
     if bool_decide (p = t ∨ p = r) then None else select_value p nodes).
Proof.
  rw single_select_values_acc.
  destruct (select_value t nodes), (select_value r nodes), (select_value p nodes);
    by repeat case_bool_decide.
Qed.

(** What puts an item on the ready queue, stated on the raw item: an open
    issue of a repository in scope, every connection window complete, every
    blocker closed, a leaf type, and the configured field values. *)
Record ready_leaf (to_lowercase : rstr → rstr) (config : BoardProjectConfig) (raw : RawItem)
    (content : ItemContent) (r : ReadyItem) : Prop := {
  rl_content : ri_content raw = Some content;
  rl_issue : typename content = lit "Issue";
  rl_repo : ∃ name, ic_repository content = Some name ∧ r_repo r = to_lowercase name;
  rl_scope : r_repo r ∈ repos config;
  rl_fields : ic_number content = Some (r_number r) ∧ ic_title content = Some (r_title r)
              ∧ ic_url content = Some (r_url r) ∧ ri_id raw = r_item_id r;
  rl_open : ic_state content = Some (lit "OPEN");
  rl_values_complete : len (conn_nodes (field_values raw)) = conn_total (field_values raw);
  rl_labels_complete : ∀ l, ic_labels content = Some l → len (conn_nodes l) = conn_total l;
  rl_blockers_complete : ∀ b, ic_blocked_by content = Some b → len (conn_nodes b) = conn_total b;
  rl_blockers_closed : ∀ b, ic_blocked_by content = Some b → Forall (eq (lit "CLOSED")) (conn_nodes b);
  rl_leaf : match ic_issue_type content with
            | Some t => t ∈ leaf_types config
            | None => ∃ l, ic_labels content = Some l
                      ∧ (lit "task" ∈ conn_nodes l ∨ lit "bug" ∈ conn_nodes l)
            end;
  rl_target : require_target config = true →
              select_value (target_field config) (conn_nodes (field_values raw))
              = Some (target_value config);
  rl_status : ready_field config ≠ target_field config
              ∧ select_value (ready_field config) (conn_nodes (field_values raw))
                = Some (ready_value config);
}.

Lemma existsb_elem {A} `{EqDecision A} (x : A) l :
  existsb (λ y, bool_decide (y = x)) l = true ↔ x ∈ l.
Proof.
  rw existsb_true. split; [by intros (y & ? & ->%bool_decide_eq_true_1)|].
  intros. exists x. by rw bool_decide_eq_true_2.
Qed.

Lemma conn_truncated_false {A} (c : Connection A) :
  conn_truncated c = false ↔ len (conn_nodes c) = conn_total c.
Proof. unfold conn_truncated, truncated. by rw negb_false_iff N.eqb_eq. Qed.

Lemma no_open_blockers nodes :
  count (λ state, negb (bool_decide (state = lit "CLOSED"))) nodes = 0 ↔ Forall (eq (lit "CLOSED")) nodes.
Proof.
  rw count_0 Forall_forall. split; intros H x Hx; specialize (H x Hx).
  - by apply negb_false_iff, bool_decide_eq_true_1 in H.
  - rw -H. by rw bool_decide_eq_true_2.
Qed.

Lemma fallback_label labels :
  existsb (λ label, existsb (λ fallback, bool_decide (label = fallback)) LEAF_FALLBACK_LABELS) labels
    = true ↔ lit "task" ∈ labels ∨ lit "bug" ∈ labels.
Proof.
  unfold LEAF_FALLBACK_LABELS. rw existsb_true. split.
  - intros (x & Hx & Hl). cbn [existsb] in Hl. rw orb_false_r orb_true_iff !bool_decide_eq_true in Hl.
    destruct Hl as [-> | ->]; auto.
  - intros [H|H]; eexists; (split; [exact H|]); cbn [existsb];
      rw orb_true_iff !bool_decide_eq_true; auto.
Qed.

Section conversion.
Context (lower : rstr → rstr) (config : BoardProjectConfig).

Let convert (raw : RawItem) : result (option ItemFacts) ItemSkip :=
  facts lower raw (repos config) (target_field config) (ready_field config) (priority_field config).

Lemma facts_trusted raw f :
  convert raw = Ok (Some f) →
  ∃ content name, ri_content raw = Some content
  ∧ conn_truncated (field_values raw) = false
  ∧ typename content = lit "Issue"
  ∧ ic_repository content = Some name ∧ lower name ∈ repos config
  ∧ ic_state content = Some (lit "OPEN")
  ∧ (∀ l, ic_labels content = Some l → conn_truncated l = false)
  ∧ (∀ b, ic_blocked_by content = Some b → conn_truncated b = false)
  ∧ ic_number content = Some (if_number f) ∧ ic_title content = Some (if_title f)
  ∧ ic_url content = Some (if_url f)
  ∧ item_node_id f = ri_id raw ∧ if_repo f = lower name ∧ if_issue_type f = ic_issue_type content
  ∧ if_labels f = from_option conn_nodes [] (ic_labels content)
  ∧ open_blockers f = count (λ state, negb (bool_decide (state = lit "CLOSED")))
                        (from_option conn_nodes [] (ic_blocked_by content))
  ∧ (if_target f, if_status f, if_priority f)
    = single_select_values (conn_nodes (field_values raw)) (target_field config) (ready_field config)
        (priority_field config) (None, None, None).
Proof.
  unfold convert, facts. intros Hf.
  destruct (conn_truncated (field_values raw)) eqn:Et; [done|].
  destruct (ri_content raw) as [content|] eqn:Ec; [|done].
  destruct (bool_decide (typename content = lit "Issue")) eqn:Ety; [|done]. cbn [negb] in Hf.
  destruct (ic_repository content) as [name|] eqn:Er; [|done]. cbn [ok_or result_bind] in Hf.
  destruct (existsb _ (repos config)) eqn:Esc; [|done]. cbn [negb] in Hf.
  destruct (ic_number content) as [number|] eqn:En; [|done]. cbn [ok_or result_bind] in Hf.
  destruct (ic_state content) as [state|] eqn:Est; [|done]. cbn [ok_or result_bind] in Hf.
  destruct (bool_decide (state = _)) eqn:Eo; [|done]. cbn [negb] in Hf.
  destruct (ic_title content) as [title|] eqn:Eti; [|done]. cbn [ok_or result_bind] in Hf.
  destruct (ic_url content) as [url|] eqn:Eu; [|done]. cbn [ok_or result_bind] in Hf.
  apply result_bind_ok in Hf as (labels & Hl & Hf).
  apply result_bind_ok in Hf as (blockers & Hb & Hf).
  destruct (single_select_values _ _ _ _ _) as [[t s] p]. simplify_eq. bool_simpl. subst.
  apply existsb_elem in Esc. exists content, name.
  cbn [if_number if_title if_url item_node_id if_repo if_issue_type if_labels open_blockers if_target
       if_status if_priority].
  split_and!; try done.
  - intros l Hc. rw Hc in Hl. by destruct (conn_truncated l).
  - intros b Hc. rw Hc in Hb. by destruct (conn_truncated b).
  - destruct (ic_labels content) as [l|]; [|by simplify_eq]. destruct (conn_truncated l); by simplify_eq.
  - destruct (ic_blocked_by content) as [b|]; [|by simplify_eq].
    destruct (conn_truncated b); by simplify_eq.
Qed.

Lemma matches_leaf_mvp_ready_iff f :
  matches_leaf_mvp_ready f config = true ↔
  (match if_issue_type f with
   | Some t => t ∈ leaf_types config
   | None => lit "task" ∈ if_labels f ∨ lit "bug" ∈ if_labels f
   end)
  ∧ (require_target config = true → if_target f = Some (target_value config))
  ∧ if_status f = Some (ready_value config).
Proof.
  unfold matches_leaf_mvp_ready. rw !andb_true_iff orb_true_iff negb_true_iff !bool_decide_eq_true.
  assert (∀ P : Prop, (require_target config = false ∨ P) ↔ (require_target config = true → P)) as ->.
  { intros P. destruct (require_target config); naive_solver. }
  rw and_assoc. do 2 apply and_iff_compat_r.
  destruct (if_issue_type f); [apply existsb_elem|apply fallback_label].
Qed.

Lemma convert_eligible raw f :
  convert raw = Ok (Some f) → is_eligible f config = true →
  ∃ content, ready_leaf lower config raw content (ready_item f).
Proof.
  intros (content & name & Hc & Ht & Hty & Hr & Hsc & Ho & Hl & Hb & Hn & Hti & Hu & Hid & Hre & Hit
          & Hla & Hob & Hsel)%facts_trusted.
  unfold is_eligible. rw andb_true_iff matches_leaf_mvp_ready_iff N.eqb_eq Hob Hit Hla.
  rw single_select_values_spec in Hsel. injection Hsel as -> -> _.
  intros [(Hleaf & Htg & Hst) Hcl]. apply no_open_blockers in Hcl.
  exists content.
  split; cbn [ready_item r_number r_title r_url r_repo r_item_id]; rw ?Hre; try done; eauto.
  - by apply conn_truncated_false.
  - intros l E. by apply conn_truncated_false, Hl.
  - intros b E. by apply conn_truncated_false, Hb.
  - intros b E. by rw E in Hcl.
  - destruct (ic_issue_type content); [done|].
    destruct (ic_labels content) as [l|]; [by eauto|]. cbn in Hleaf. set_solver.
  - by case_bool_decide.
Qed.

Lemma ready_leaf_converts raw content r :
  ready_leaf lower config raw content r →
  ∃ f, convert raw = Ok (Some f) ∧ is_eligible f config = true ∧ ready_item f = r.
Proof.
  intros [Hc Hty (name & Hr & Hre) Hsc (Hn & Hti & Hu & Hid) Ho Hv Hl Hb Hcl Hleaf Htg [Hne Hst]].
  apply conn_truncated_false in Hv. rw Hre in Hsc.
  unfold convert, facts. rw Hv Hc Hty bool_decide_eq_true_2; [|done]. cbn [negb].
  rw Hr. cbn [ok_or result_bind]. rw (proj2 (existsb_elem _ _) Hsc) Hn Ho. cbn [negb ok_or result_bind].
  rw bool_decide_eq_true_2; [|done]. rw Hti Hu. cbn [negb ok_or result_bind].
  rw single_select_values_spec.
  assert ((match ic_labels content with
           | Some l => if conn_truncated l then Err (Truncated (lit "labels")) else Ok (conn_nodes l)
           | None => Ok []
           end) = Ok (from_option conn_nodes [] (ic_labels content))) as ->.
  { destruct (ic_labels content) as [l|]; [|done]. by rw (proj2 (conn_truncated_false l) (Hl l eq_refl)). }
  cbn [result_bind].
  assert ((match ic_blocked_by content with
           | Some b => if conn_truncated b then Err (Truncated (lit "blockedBy"))
                       else Ok (count (λ s, negb (bool_decide (s = lit "CLOSED"))) (conn_nodes b))
           | None => Ok 0
           end) = Ok 0) as ->.
  { destruct (ic_blocked_by content) as [b|]; [|done].
    rw (proj2 (conn_truncated_false b) (Hb b eq_refl)). f_equal. by apply no_open_blockers, Hcl. }
  cbn [result_bind]. eexists. split; [done|]. split.
  - unfold is_eligible. rw andb_true_iff matches_leaf_mvp_ready_iff.
    cbn [if_issue_type if_labels if_target if_status open_blockers]. split_and!; try done.
    + destruct (ic_issue_type content); [done|]. by destruct Hleaf as (l & -> & Hx).
    + by rw bool_decide_eq_false_2.
  - destruct r. cbn in *. by subst.
Qed.

(** The loop keeps the order of the items. *)
Lemma read_items_spec raws all warnings :
  read_items lower config raws (all, warnings)
  = (all ++ omap (λ raw, match convert raw with Ok (Some f) => Some f | _ => None end) raws,
     warnings ++ omap (λ raw, match convert raw with Err k => Some (skip_warning raw k) | _ => None end)
                   raws).
Proof.
  revert all warnings. induction raws as [|raw raws IH]; intros all warnings.
  { by rw !app_nil_r. }
  unfold read_items in *. cbn [foldl omap list_omap]. fold (convert raw).
  destruct (convert raw) as [[f|]|k]; rw IH; by rw -?app_assoc.
Qed.
End conversion.

(** The ready queue fails closed and is exact: after reading any items, an
    entry is on the queue if and only if one of the items is an open issue of a
    configured repository whose field-value, label and blocker windows are all
    complete, whose blockers are all closed, whose native type is a leaf type
    (or, with none set, which is labelled task or bug) and whose last status and
    target values are the configured ones.  The queue is sorted by issue number,
    and issues with one number keep their board order. *)
Theorem ready_queue_fail_closed lower config raws all warnings :
  read_items lower config raws ([], []) = (all, warnings) →
  (∀ r, r ∈ ready_queue all config ↔ ∃ raw content, raw ∈ raws ∧ ready_leaf lower config raw content r)
  ∧ StronglySorted (by_key r_number) (ready_queue all config)
  ∧ (∀ n, List.filter (λ r, r_number r =? n) (ready_queue all config)
          = List.filter (λ r, r_number r =? n)
              (List.map ready_item (List.filter (λ f, is_eligible f config) all))).
Proof.
  rw read_items_spec. intros [= <- _]. split_and!.
  - intros r. unfold ready_queue. rw elem_of_stable_sort list_elem_of_In in_map_iff. split.
    + intros (f & <- & (Hf & He)%list_elem_of_In%elem_of_filter_bool).
      apply list_elem_of_omap in Hf as (raw & Hraw & Hf).
      destruct (facts lower raw _ _ _ _) as [[f'|]|] eqn:E; simplify_eq.
      destruct (convert_eligible lower config raw f E He) as [content Hc]. eauto.
    + intros (raw & content & Hraw & Hleaf).
      destruct (ready_leaf_converts lower config raw content r Hleaf) as (f & Hf & He & <-).
      exists f. split; [done|]. apply list_elem_of_In, elem_of_filter_bool. split; [|done].
      apply list_elem_of_omap. exists raw. by rw Hf.
  - apply stable_sort_sorted; apply _.
  - intros n. apply stable_sort_stable. intros a b. unfold by_key, kle.
    rw !N.eqb_eq. intros -> ->. by rw kcmp_refl.
Qed.

Definition example_config : BoardProjectConfig :=
  {| organization := lit "arbsec"; project_number := 1; repos := [lit "arbsec/orchestraitor"];
     leaf_types := [lit "Task"; lit "Bug"]; target_field := lit "Target"; target_value := lit "MVP";
     ready_field := lit "Status"; ready_value := lit "Ready"; token_uri := None;
     priority_field := lit "Priority"; require_target := true |}.

Definition example_item (number : N) (blocker : rstr) : RawItem :=
  {| ri_id := lit "PVTI";
     ri_content := Some {| typename := lit "Issue"; ic_number := Some number;
       ic_state := Some (lit "OPEN"); ic_title := Some (lit "item"); ic_url := Some (lit "url");
       ic_repository := Some (lit "arbsec/Orchestraitor"); ic_issue_type := Some (lit "Task");
       ic_labels := None; ic_blocked_by := Some (MkConnection [blocker] 1) |};
     field_values := MkConnection
       [MkFieldValue (Some (lit "MVP")) (Some (Some (lit "Target")));
        MkFieldValue (Some (lit "Ready")) (Some (Some (lit "Status")))] 2 |}.

Definition example_raws : list RawItem :=
  [example_item 30 (lit "CLOSED"); example_item 20 (lit "OPEN"); example_item 10 (lit "CLOSED")].

Lemma ready_queue_fail_closed_witness :
  let all := (read_items to_ascii_lowercase example_config example_raws ([], [])).1 in
  (r_number <$> ready_queue all example_config = [10; 30])
  ∧ StronglySorted (by_key r_number) (ready_queue all example_config).
Proof.
  cbv zeta. split; [by vm_compute|].
  destruct (read_items to_ascii_lowercase example_config example_raws ([], [])) as [all ws] eqn:E.
  exact (proj1 (proj2 (ready_queue_fail_closed to_ascii_lowercase example_config example_raws all ws E))).
Defined.

(** ** Configuration and secret references *)


(** A parsed secret reference survives rendering: the canonical URI of any
    reference the parser accepts (in the short environment form too) parses
    back to that reference. *)
Theorem secret_uri_roundtrip s u :
  SecretUri_parse s = Ok u → SecretUri_parse (as_uri u) = Ok u.
Proof.
  assert (∀ id u, parse_env id = Ok u → u = MkSecretUri Env id ∧ parse_env (su_id u) = Ok u) as Henv.
  { intros id v. unfold parse_env. destruct (_ || _ || _) eqn:E; [done|]. intros [= <-].
    split; [done|]. cbn [su_id]. by rw E. }
  assert (∀ id, SecretUri_parse (lit "secret://env/" ++ id) = parse_env id) as Hpe.
  { intros id. unfold SecretUri_parse. rw (proj2 (strip_prefix_some (lit "secret://env/") _ id) eq_refl).
    destruct (strip_prefix (lit "secret://keyring/") _) eqn:E; [|done]. by apply strip_prefix_some in E. }
  assert (∀ id, parse_env id = Ok u → SecretUri_parse (as_uri u) = Ok u) as Hdone.
  { intros id [Hu Hp]%Henv. rw -Hp -Hpe. by rw Hu. }
  unfold SecretUri_parse at 1.
  destruct (strip_prefix (lit "secret://keyring/") s) as [id|].
  { unfold parse_id. destruct (_ || _) eqn:E; [done|]. intros [= <-].
    unfold SecretUri_parse, as_uri. cbn [su_store su_id].
    rw (proj2 (strip_prefix_some (lit "secret://keyring/") _ id) eq_refl).
    unfold parse_id. by rw E. }
  destruct (strip_prefix (lit "secret://env/") s) as [id|]; [apply Hdone|].
  destruct (strip_prefix (lit "env:") s) as [id|]; [apply Hdone|done].
Qed.

Lemma secret_uri_roundtrip_witness :
  SecretUri_parse (lit "env:GH_TOKEN") = Ok (MkSecretUri Env (lit "GH_TOKEN"))
  ∧ SecretUri_parse (as_uri (MkSecretUri Env (lit "GH_TOKEN"))) = Ok (MkSecretUri Env (lit "GH_TOKEN")).
Proof.
  split; [by vm_compute|]. apply (secret_uri_roundtrip (lit "env:GH_TOKEN")). by vm_compute.
Defined.

(** What a loaded configuration guarantees to the reads. *)
Record config_wf (lower : rstr → rstr) (c : BoardProjectConfig) : Prop := {
  cw_repos : repos c ≠ [];
  cw_slugs : ∀ r, r ∈ repos c → is_repo_slug r = true;
  cw_lower : ∀ r, r ∈ repos c → ∃ s, r = lower s;
  cw_leaf : leaf_types c ≠ [] ∧ ∀ t, t ∈ leaf_types c → t ≠ [] ∧ trim t = t;
  cw_fields : ∀ t, t ∈ [organization c; target_field c; target_value c; ready_field c; ready_value c] →
              t ≠ [] ∧ trim t = t;
  cw_priority : blank (priority_field c) = false;
  cw_token : ∀ u, token_uri c = Some u → ∃ s, SecretUri_parse s = Ok u;
}.

Lemma required_ok value key t : required value key = Ok t → t ≠ [] ∧ trim t = t.
Proof.
  unfold required. destruct value as [text|]; [|done]. destruct (blank text) eqn:E; [done|].
  intros [= <-]. unfold blank in E. bool_simpl. split; [done|]. apply trim_idemp.
Qed.

Lemma into_config_wf lower raw c : into_config lower raw = Ok c → config_wf lower c.
Proof.
  unfold into_config. intros H.
  apply result_bind_ok in H as (project & _ & H).
  apply result_bind_ok in H as (org & Horg%required_ok & H).
  apply result_bind_ok in H as (num & _ & H).
  destruct (is_empty _) eqn:Hne in H; [done|]. bool_simpl.
  destruct (existsb _ _) eqn:Hslug in H; [done|].
  destruct (is_empty _) eqn:Hleaf in H; [done|]. bool_simpl.
  apply result_bind_ok in H as (mvp & _ & H).
  apply result_bind_ok in H as (tf & Htf%required_ok & H).
  apply result_bind_ok in H as (tv & Htv%required_ok & H).
  apply result_bind_ok in H as (rf & Hrf%required_ok & H).
  apply result_bind_ok in H as (rv & Hrv%required_ok & H).
  apply result_bind_ok in H as (tok & Htok & H). simplify_eq.
  split; cbn [repos leaf_types organization target_field target_value ready_field ready_value
              priority_field token_uri]; try done.
  - intros r Hr. rw existsb_false in Hslug. apply Hslug in Hr. by bool_simpl.
  - intros r (Hr & _)%elem_of_filter_bool. apply list_elem_of_In, in_map_iff in Hr as (s & <- & _). eauto.
  - split; [done|]. intros t (Ht & Hte)%elem_of_filter_bool. bool_simpl.
    apply list_elem_of_In, in_map_iff in Ht as (s & <- & _). split; [done|]. apply trim_idemp.
  - intros t Ht. set_unfold in Ht. by destruct Ht as [->|[->|[->|[->|[->|[]]]]]].
  - destruct (rm_priority_field mvp) as [field|]; [|done]. by destruct (blank field) eqn:?.
  - intros u ->. destruct (mjoin (rc_auth raw)) as [token|]; [|done]. destruct (blank token); [done|].
    destruct (SecretUri_parse (trim token)) as [v|] eqn:E; [|done]. simplify_eq. eauto.
Qed.
