(* ===== verification/Campaign.v ===== *)
(** * The campaign pass

    [crates/orchestraitor-campaign/src/session.rs] and [decision.rs]: the task
    id of a board item, the order of the ready queue, the one decision record a
    pass writes, and the one-shot run; with the task-id check of
    [crates/orchestraitor-worker/src/task.rs] the ids must pass.

    A decision provider is its id and its answer to a list of ready ids; a
    consultation that outlives its bound is the answer [TimedOut].  [f64] values
    are only rendered here, by the parameter [format2] ([{:.2}]).  A row's
    [payload] column is the decision itself: serde writes and reads it back. *)

From S2P Require Import Prelude BTree Text Board.

(** ** Task ids *)

Definition TASK_ID_MAX_LEN : N := 64.

Definition wrapping_mul_u32 (a b : N) : N := (a * b) mod 4294967296.

Definition fnv1a (value : rstr) : N :=
  foldl (λ hash byte, wrapping_mul_u32 (N.lxor hash byte) 16777619) 2166136261 (as_bytes value).

Definition clean_char (c : N) : bool := is_ascii_alphanumeric c || (c =? 45).
Definition charset_clean (part : rstr) : bool := negb (is_empty part) && forallb clean_char part.

(** [64 - "board--<number>".len()], at least 37 for a [u64]. *)
Definition task_id_budget (number : N) : N :=
  saturating_sub TASK_ID_MAX_LEN (str_len (lit "board--" ++ dec number)).

Definition task_id_for (repo : rstr) (number : N) : rstr :=
  let budget := task_id_budget number in
  let fallback :=
    let slug := (λ c, if clean_char c then c else 45) <$> repo in
    let digest := hex8 (fnv1a repo) in
    let truncated := take (N.to_nat (saturating_sub budget 9)) slug in
    lit "board-" ++ truncated ++ lit "-" ++ digest ++ lit "-" ++ dec number in
  match split_once 47 repo with
  | Some (owner, name) =>
      if charset_clean owner && charset_clean name then
        let owner_name := replace 47 95 repo in
        if str_len owner_name <=? budget then lit "board-" ++ owner_name ++ lit "-" ++ dec number
        else fallback
      else fallback
  | None => fallback
  end.

Inductive TaskLoadError := InvalidId (reason : rstr) | UnknownTask | MalformedTask (reason : rstr).

Definition validate_task_id (task_id : rstr) : result unit TaskLoadError :=
  if is_empty task_id then Err (InvalidId (lit "empty"))
  else if 64 <? str_len task_id then Err (InvalidId (lit "too-long"))
  else match task_id with
  | [] => Err (InvalidId (lit "empty"))
  | first :: chars =>
      if negb (is_ascii_alphanumeric first) then Err (InvalidId (lit "bad-characters"))
      else if negb (forallb (λ c, is_ascii_alphanumeric c || (c =? 46) || (c =? 95) || (c =? 45)) chars)
      then Err (InvalidId (lit "bad-characters"))
      else Ok tt
  end.

(** ** Records *)

Record RoleRoutingDecision := MkRouting {
  rr_role : rstr;
  rr_provider : rstr;
  rr_model : rstr;
  rr_precedence_path : rstr;
  rr_fallback_reason : option rstr;
}.

Record SkipRecord := MkSkipRecord { sr_number : option N; sr_kind : rstr; sr_reason : rstr }.

Record BlockedNode := MkBlockedNode {
  bn_repo : rstr;
  bn_number : N;
  bn_title : rstr;
  bn_open_blockers : N;
  bn_target : option rstr;
  bn_status : option rstr;
}.

Record SelectedTask := MkSelectedTask {
  st_repo : rstr;
  st_number : N;
  st_title : rstr;
  st_url : rstr;
  st_item_node_id : rstr;
  st_task_id : rstr;
}.

Inductive NoOpReason := EmptyQueue | AllBlocked | EpicExhausted | KickoffGate.
Inductive DecisionKind := Selected | NoOp.

#[export] Instance NoOpReason_eq_dec : EqDecision NoOpReason.
Proof. solve_decision. Defined.
#[export] Instance DecisionKind_eq_dec : EqDecision DecisionKind.
Proof. solve_decision. Defined.
#[export] Instance SelectedTask_eq_dec : EqDecision SelectedTask.
Proof. solve_decision. Defined.

Record CampaignDecision := MkCampaignDecision {
  cd_kind : DecisionKind;
  no_op_reason : option NoOpReason;
  selected : option SelectedTask;
  cd_role : rstr;
  cd_provider : rstr;
  cd_model : rstr;
  precedence_path : rstr;
  fallback_reason : option rstr;
  worker_args : list rstr;
  rationale : rstr;
  alternatives : list BlockedNode;
  blocked_graph : list BlockedNode;
  skipped : list SkipRecord;
}.

Record StoredCampaignDecision := MkStored {
  sd_id : N;
  sd_created_at : rstr;
  sd_decision : CampaignDecision;
}.

(** A store failure carries the message of its [rusqlite::Error]. *)
Inductive CampaignError :=
| Store (source : rstr)
| Spawn (task_id message : rstr)
| Role (message : rstr)
| Loop (message : rstr).

Record BoardSnapshot := MkSnapshot {
  bs_open : list ItemFacts;
  bs_ready : list ReadyItem;
  bs_blocked_candidates : list ReadyItem;
  bs_warnings : list SkipWarning;
}.

(** ** The order of the ready queue *)

Definition facts_for (open : list ItemFacts) (repo : rstr) (number : N) : option ItemFacts :=
  List.find (λ f, bool_decide (if_repo f = repo) && (if_number f =? number)) open.

Definition is_p0 (open : list ItemFacts) (item : ReadyItem) : bool :=
  match facts_for open (r_repo item) (r_number item) with
  | Some f => match if_priority f with Some p => eq_ignore_ascii_case p (lit "p0") | None => false end
  | None => false
  end.

Definition selection_key (open : list ItemFacts) (item : ReadyItem) : N * (rstr * N) :=
  (if is_p0 open item then 0 else 1, (r_repo item, r_number item)).

Definition compute_selection (ready : list ReadyItem) (open : list ItemFacts) : list ReadyItem :=
  stable_sort (by_key (selection_key open)) ready.

Definition task_id_of (item : ReadyItem) : rstr := task_id_for (r_repo item) (r_number item).

(** ** The decision *)

Definition warning_note (warnings : list SkipWarning) : rstr :=
  if is_empty warnings then []
  else if forallb (λ w, bool_decide (sw_kind w = WNotOpen)) warnings then
    lit "; " ++ dec (len warnings) ++ lit " item(s) recorded as closed"
  else lit "; " ++ dec (len warnings) ++ lit " item(s) skipped as unevaluable (fail-closed)".

Definition no_op_classification (snapshot : BoardSnapshot) : NoOpReason * rstr :=
  let note := warning_note (bs_warnings snapshot) in
  if is_empty (bs_open snapshot) then
    if negb (is_empty (bs_warnings snapshot))
       && forallb (λ w, bool_decide (sw_kind w = WNotOpen)) (bs_warnings snapshot)
    then (EpicExhausted, lit "every tracked item is closed; nothing open remains" ++ note)
    else (EmptyQueue, lit "no open board items in the configured repositories" ++ note)
  else if is_empty (bs_blocked_candidates snapshot) then
    (EmptyQueue,
     dec (len (bs_open snapshot))
     ++ lit " open item(s), none eligible under the ready predicate and none blocked" ++ note)
  else
    (AllBlocked,
     dec (len (bs_blocked_candidates snapshot))
     ++ lit " eligible candidate(s) blocked by unresolved dependencies; blocked graph attached" ++ note).

Definition warning_kind_str (k : WarningKind) : rstr :=
  match k with
  | WNotOpen => lit "not-open"
  | WMalformed => lit "malformed"
  | WTruncated => lit "truncated"
  end.

Definition skipped_records (snapshot : BoardSnapshot) : list SkipRecord :=
  stable_sort (by_key (λ r, (sr_number r, sr_kind r)))
    (List.map (λ w, MkSkipRecord (sw_number w) (warning_kind_str (sw_kind w)) (sw_reason w))
       (bs_warnings snapshot)).

(** The literal [BlockedNode { .. }] of the alternatives and of the blocked graph. *)
Definition blocked_node (snapshot : BoardSnapshot) (item : ReadyItem) : BlockedNode :=
  let f := facts_for (bs_open snapshot) (r_repo item) (r_number item) in
  {| bn_repo := r_repo item; bn_number := r_number item; bn_title := r_title item;
     bn_open_blockers := from_option open_blockers 0 f;
     bn_target := f ≫= if_target; bn_status := f ≫= if_status |}.

Definition blocked_candidate_nodes (snapshot : BoardSnapshot) : list BlockedNode :=
  List.map (blocked_node snapshot) (bs_blocked_candidates snapshot).

Definition worker_args_for (task_id : rstr) : list rstr :=
  [lit "worker"; lit "run"; lit "--task"; task_id; lit "--json"].

Section decision.
Context {f64 : Type} (format2 : f64 → rstr).

Record SelectorDecision := MkSelectorDecision { sel_task_id : rstr; sel_confidence : option f64 }.

(** What the bounded provider call comes back with. *)
Inductive ProviderAnswer :=
| Selection (task_id : rstr) (confidence : f64)
| ProviderError (error : rstr)
| TimedOut.

(** A [DecisionProvider]: its id and its task-selection surface. *)
Record DecisionProvider := MkProvider {
  dp_id : rstr;
  propose_task_selection : list rstr → ProviderAnswer;
}.

Definition consult_task_selection (provider : DecisionProvider) (ready_task_ids : list rstr)
    : result SelectorDecision rstr :=
  match propose_task_selection provider ready_task_ids with
  | Selection task_id confidence => Ok (MkSelectorDecision task_id (Some confidence))
  | ProviderError error => Err error
  | TimedOut =>
      Err (lit "decision provider did not answer within 10s; fell back to the deterministic selector")
  end.

Definition selection_attribution (ordered : list ReadyItem) (task_id : rstr)
    (routing : RoleRoutingDecision) (consulted : option (rstr * result SelectorDecision rstr))
    : rstr * rstr :=
  match consulted with
  | Some (provider_id, Ok selection) =>
      if existsb (λ item, bool_decide (task_id_of item = sel_task_id selection)) ordered then
        (lit "decision-provider:" ++ provider_id
           ++ from_option (λ v, lit " (confidence " ++ format2 v ++ lit ")") [] (sel_confidence selection),
         lit "decision provider selected '" ++ task_id
           ++ lit "' among the eligible ready items (spec 30-model-routing.md " ++ [167] ++ lit "9.45)")
      else
        (rr_precedence_path routing,
         lit "decision provider '" ++ provider_id ++ lit "' proposed '" ++ sel_task_id selection
           ++ lit "' outside the eligible ready set; fell back to the first eligible item in P0-first ready order (spec 30-model-routing.md "
           ++ [167] ++ lit "9.45)")
  | Some (provider_id, Err reason) =>
      (rr_precedence_path routing,
       lit "decision provider '" ++ provider_id ++ lit "' unavailable (" ++ reason
         ++ lit "); fell back to the first eligible item in P0-first ready order (spec 30-model-routing.md "
         ++ [167] ++ lit "9.45)")
  | None =>
      (rr_precedence_path routing,
       lit "first eligible item in P0-first ready order (spec 10-orchestrator.md " ++ [167] ++ lit "9.35)")
  end.

Definition campaign_decision (snapshot : BoardSnapshot) (routing : RoleRoutingDecision)
    (consulted : option (rstr * result SelectorDecision rstr)) : CampaignDecision :=
  let ordered := compute_selection (bs_ready snapshot) (bs_open snapshot) in
  let skipped := skipped_records snapshot in
  let proposed :=
    match consulted with
    | Some (_, Ok selection) =>
        List.find (λ item, bool_decide (task_id_of item = sel_task_id selection)) ordered
    | _ => None
    end in
  match (match proposed with Some item => Some item | None => head ordered end) with
  | Some choice =>
      let task_id := task_id_of choice in
      let '(path, why) := selection_attribution ordered task_id routing consulted in
      {| cd_kind := Selected; no_op_reason := None;
         selected := Some {| st_repo := r_repo choice; st_number := r_number choice;
                             st_title := r_title choice; st_url := r_url choice;
                             st_item_node_id := r_item_id choice; st_task_id := task_id |};
         cd_role := rr_role routing; cd_provider := rr_provider routing; cd_model := rr_model routing;
         precedence_path := path; fallback_reason := rr_fallback_reason routing;
         worker_args := worker_args_for task_id; rationale := why;
         alternatives := List.map (blocked_node snapshot)
           (List.filter (λ item, negb (bool_decide (task_id_of item = task_id))) ordered);
         blocked_graph := []; skipped := skipped |}
  | None =>
      let '(reason, why) := no_op_classification snapshot in
      {| cd_kind := NoOp; no_op_reason := Some reason; selected := None;
         cd_role := rr_role routing; cd_provider := rr_provider routing; cd_model := rr_model routing;
         precedence_path := rr_precedence_path routing; fallback_reason := rr_fallback_reason routing;
         worker_args := []; rationale := why; alternatives := [];
         blocked_graph := blocked_candidate_nodes snapshot; skipped := skipped |}
  end.

(** [campaign_decision_sync] and [campaign_decision_async]: the provider is
    consulted only when there is something to select. *)
Definition campaign_decision_with (snapshot : BoardSnapshot) (routing : RoleRoutingDecision)
    (selector : option DecisionProvider) : CampaignDecision :=
  let ordered := compute_selection (bs_ready snapshot) (bs_open snapshot) in
  let consulted :=
    match selector with
    | Some provider =>
        if is_empty ordered then None
        else Some (dp_id provider, consult_task_selection provider (task_id_of <$> ordered))
    | None => None
    end in
  campaign_decision snapshot routing consulted.
End decision.
Arguments SelectorDecision f64 : clear implicits.
Arguments ProviderAnswer f64 : clear implicits.
Arguments DecisionProvider f64 : clear implicits.

(** ** Guard skips *)

Inductive TaskSkipReason := AttemptBudget | Backoff.

#[export] Instance TaskSkipReason_eq_dec : EqDecision TaskSkipReason.
Proof. solve_decision. Defined.

Definition TaskSkipReason_fmt (r : TaskSkipReason) : rstr :=
  match r with AttemptBudget => lit "attempt-budget" | Backoff => lit "backoff" end.

Definition append_budget_skips_str (why : rstr) (budget_skips : list (rstr * TaskSkipReason)) : rstr :=
  if is_empty budget_skips then why
  else
    let note := foldl (λ note '(task_id, reason),
                  note ++ [32] ++ task_id ++ [40] ++ TaskSkipReason_fmt reason ++ lit ");")
                  (lit "task budget skips:") budget_skips in
    why ++ lit " [" ++ note ++ lit "]".

Definition set_rationale (d : CampaignDecision) (why : rstr) : CampaignDecision :=
  {| cd_kind := cd_kind d; no_op_reason := no_op_reason d; selected := selected d;
     cd_role := cd_role d; cd_provider := cd_provider d; cd_model := cd_model d;
     precedence_path := precedence_path d; fallback_reason := fallback_reason d;
     worker_args := worker_args d; rationale := why; alternatives := alternatives d;
     blocked_graph := blocked_graph d; skipped := skipped d |}.

Definition append_budget_skips (d : CampaignDecision) (budget_skips : list (rstr * TaskSkipReason))
    : CampaignDecision :=
  if is_empty budget_skips then d
  else set_rationale d (append_budget_skips_str (rationale d) budget_skips).

(** ** The decision store

    The rows of [campaign_decisions] in id order.  [INTEGER PRIMARY KEY] gives
    a new row the largest id plus one, an empty table the id one. *)

Definition CampaignDecisionStore := list StoredCampaignDecision.

Definition number_to_i64 (number : N) : result N CampaignError :=
  if number <=? i64_max then Ok number
  else Err (Store (lit "out of range integral type conversion attempted")).

Definition next_rowid (ids : list N) : N := foldr N.max 0 ids + 1.

Definition by_id (store : CampaignDecisionStore) (id : N) : result StoredCampaignDecision CampaignError :=
  ok_or (List.find (λ row, sd_id row =? id) store) (Store (lit "Query returned no rows")).

(** [db] is what SQLite answers to the insert: its clock, or an error. *)
Definition record (store : CampaignDecisionStore) (d : CampaignDecision) (db : result rstr rstr)
    : CampaignDecisionStore * result StoredCampaignDecision CampaignError :=
  match (match selected d with
         | Some task => let? _ := number_to_i64 (st_number task) in Ok tt
         | None => Ok tt
         end) with
  | Err e => (store, Err e)
  | Ok _ =>
  match db with
  | Err source => (store, Err (Store source))
  | Ok now =>
      let id := next_rowid (sd_id <$> store) in
      let store := store ++ [MkStored id now d] in
      (store, by_id store id)
  end
  end.

Definition list_decisions (store : CampaignDecisionStore) : list StoredCampaignDecision :=
  merge_sort (by_key sd_id) store.

(** ** Passes *)

Section passes.
Context {f64 : Type} (format2 : f64 → rstr) {WorkerRun : Type}.

(** [plan_pass_with_selector]; [plan_pass] has no selector. *)
Definition plan_pass_with_selector (snapshot : BoardSnapshot) (routing : RoleRoutingDecision)
    (store : CampaignDecisionStore) (selector : option (DecisionProvider f64)) (db : result rstr rstr)
    : CampaignDecisionStore * result StoredCampaignDecision CampaignError :=
  record store (campaign_decision_with format2 snapshot routing selector) db.

Definition plan_pass_with_skips (snapshot : BoardSnapshot) (routing : RoleRoutingDecision)
    (store : CampaignDecisionStore) (selector : option (DecisionProvider f64))
    (budget_skips : list (rstr * TaskSkipReason)) (db : result rstr rstr)
    : CampaignDecisionStore * result StoredCampaignDecision CampaignError :=
  record store
    (append_budget_skips (campaign_decision_with format2 snapshot routing selector) budget_skips) db.

Record CampaignOutcome := MkOutcome {
  co_decision : StoredCampaignDecision;
  co_worker : option WorkerRun;
}.

(** [WorkerSpawner::spawn]. *)
Definition WorkerSpawner := rstr → RoleRoutingDecision → result WorkerRun CampaignError.

Definition run_once_with_selector (snapshot : BoardSnapshot) (routing : RoleRoutingDecision)
    (store : CampaignDecisionStore) (spawn : WorkerSpawner) (selector : option (DecisionProvider f64))
    (db : result rstr rstr) : CampaignDecisionStore * result CampaignOutcome CampaignError :=
  let '(store, stored) := plan_pass_with_selector snapshot routing store selector db in
  (store,
   let? stored := stored in
   match selected (sd_decision stored) with
   | Some task =>
       let? run := spawn (st_task_id task) routing in
       Ok (MkOutcome stored (Some run))
   | None => Ok (MkOutcome stored None)
   end).
End passes.

(** ** Task ids: lemmas *)

Definition readable (repo : rstr) (number : N) : bool :=
  match split_once 47 repo with
  | Some (owner, name) =>
      charset_clean owner && charset_clean name
      && (str_len (replace 47 95 repo) <=? task_id_budget number)
  | None => false
  end.

Definition digest_slug (repo : rstr) (number : N) : rstr :=
  take (N.to_nat (saturating_sub (task_id_budget number) 9))
    ((λ c, if clean_char c then c else 45) <$> repo) ++ 45 :: hex8 (fnv1a repo).

(** Either form is [board-<body>-<number>]. *)
Lemma task_id_for_eq repo number :
  task_id_for repo number
  = lit "board-" ++ (if readable repo number then replace 47 95 repo else digest_slug repo number)
    ++ 45 :: dec number.
Proof.
  unfold task_id_for, readable, digest_slug.
  destruct (split_once 47 repo) as [[owner name]|]; [|by rw -app_assoc].
  destruct (charset_clean owner && charset_clean name); [|by rw -app_assoc].
  cbn [andb]. destruct (_ <=? _); [done|by rw -app_assoc].
Qed.

Lemma clean_char_ascii c : clean_char c = true → c < 128 ∧ c ≠ 47 ∧ c ≠ 95.
Proof.
  unfold clean_char, is_ascii_alphanumeric, is_ascii_digit, is_ascii_alphabetic. lia.
Qed.

Lemma charset_clean_forall s : charset_clean s = true → Forall (λ c, clean_char c = true) s.
Proof.
  unfold charset_clean. intros [_ H]%andb_true_iff. apply Forall_forall, forallb_true, H.
Qed.

Lemma readable_spec repo number :
  readable repo number = true →
  ∃ owner name, repo = owner ++ 47 :: name
  ∧ Forall (λ c, clean_char c = true) owner ∧ Forall (λ c, clean_char c = true) name
  ∧ replace 47 95 repo = owner ++ 95 :: name
  ∧ len (owner ++ 95 :: name) ≤ task_id_budget number.
Proof.
  unfold readable. destruct (split_once 47 repo) as [[owner name]|] eqn:E; [|done].
  apply split_once_some in E as [-> _]. intros H.
  apply andb_true_iff in H as [[Ho%charset_clean_forall Hn%charset_clean_forall]%andb_true_iff Hl].
  bool_simpl. exists owner, name.
  assert (∀ s, Forall (λ c, clean_char c = true) s → replace 47 95 s = s) as Hid.
  { induction 1 as [|c s Hc _ IH]; [done|]. unfold replace in *. cbn [fmap list_fmap].
    rw IH. apply clean_char_ascii in Hc as (_ & Hc & _). by rw (proj2 (N.eqb_neq c 47) Hc). }
  assert (replace 47 95 (owner ++ 47 :: name) = owner ++ 95 :: name) as Hr.
  { pose proof (Hid owner Ho) as Eo. pose proof (Hid name Hn) as En.
    unfold replace in *. rw fmap_app fmap_cons Eo En. done. }
  rw Hr in Hl |- *. split_and!; try done. rw -str_len_ascii; [done|].
  apply Forall_app; split; [|constructor; [done|]]; (eapply Forall_impl; [eassumption|]);
    intros c Hc; by apply clean_char_ascii.
Qed.

(** Splitting at the last separator is unambiguous. *)
Lemma app_sep_inj {A} (x : A) p q a b :
  x ∉ a → x ∉ b → p ++ x :: a = q ++ x :: b → p = q ∧ a = b.
Proof.
  intros Ha Hb H. apply (f_equal reverse) in H.
  rw !reverse_app !reverse_cons -!app_assoc in H. cbn [app] in H.
  assert (∀ u v r s : list A, x ∉ u → x ∉ v → u ++ x :: r = v ++ x :: s → u = v ∧ r = s) as Hgo.
  { clear. induction u as [|y u IH]; intros [|z v] r s Hu Hv E; cbn [app] in E.
    - by simplify_eq.
    - injection E as -> _. by apply not_elem_of_cons in Hv as [? _].
    - injection E as -> _. by apply not_elem_of_cons in Hu as [? _].
    - apply not_elem_of_cons in Hu as [_ Hu], Hv as [_ Hv]. injection E as -> E.
      by destruct (IH v r s Hu Hv E) as [-> ->]. }
  apply Hgo in H as [E1 E2]; [|by rw elem_of_reverse..].
  split; by apply (inj reverse).
Qed.

Lemma digit_not_dash s : Forall (λ c, is_ascii_digit c = true) s → 45 ∉ s.
Proof. intros H Hin. rw Forall_forall in H. by apply H in Hin. Qed.

Lemma alnum_not_in c s : is_ascii_alphanumeric c = false →
  Forall (λ c, is_ascii_alphanumeric c = true) s → c ∉ s.
Proof. intros Hc H Hin. rw Forall_forall in H. apply H in Hin. congruence. Qed.

Lemma digest_slug_clean repo number : Forall (λ c, clean_char c = true) (digest_slug repo number).
Proof.
  unfold digest_slug. apply Forall_app. split; [apply Forall_take|constructor; [done|]].
  - apply Forall_fmap, Forall_true. intros c. cbn. by destruct (clean_char c) eqn:E.
  - eapply Forall_impl; [apply hex8_alnum|]. intros c Hc. unfold clean_char. by rw Hc.
Qed.

Lemma task_id_budget_eq number :
  number ≤ u64_max → task_id_budget number = 57 - len (dec number) ∧ 37 ≤ task_id_budget number.
Proof.
  intros Hn%dec_len_u64. unfold task_id_budget, TASK_ID_MAX_LEN, saturating_sub.
  rw str_len_ascii; [rw len_app; change (len (lit "board--")) with 7; lia|].
  apply Forall_app. split; [by repeat constructor|]. eapply Forall_impl; [apply dec_digits|].
  intros c. unfold is_ascii, is_ascii_digit. lia.
Qed.

Definition id_char (c : N) : bool := is_ascii_alphanumeric c || (c =? 46) || (c =? 95) || (c =? 45).

Lemma id_char_ascii c : id_char c = true → is_ascii c.
Proof. unfold id_char, is_ascii, is_ascii_alphanumeric, is_ascii_digit, is_ascii_alphabetic. lia. Qed.

Lemma clean_id_char c : clean_char c = true → id_char c = true.
Proof. unfold clean_char, id_char. lia. Qed.

Lemma validate_task_id_ok c s :
  is_ascii_alphanumeric c = true → Forall (λ c, id_char c = true) s → len (c :: s) ≤ 64 →
  validate_task_id (c :: s) = Ok tt.
Proof.
  intros Hc Hs Hl. unfold validate_task_id. cbn [is_empty].
  rw str_len_ascii; [|constructor].
  - rw (proj2 (N.ltb_ge 64 (len (c :: s))) Hl) Hc. cbn [negb].
    rw (proj2 (forallb_true id_char s)); [done|]. by apply Forall_forall.
  - apply id_char_ascii. unfold id_char. by rw Hc.
  - eapply Forall_impl; [exact Hs|]. apply id_char_ascii.
Qed.

(** Every task id the campaign derives is one the worker accepts: for any
    repository string and any [u64] issue number the id is at most 64 bytes, in
    the file-name alphabet, and passes [validate_task_id]. *)
Theorem task_id_is_valid repo number :
  number ≤ u64_max → validate_task_id (task_id_for repo number) = Ok tt.
Proof.
  intros Hn. destruct (task_id_budget_eq number Hn) as [Hb Hb37].
  assert (Forall (λ c, id_char c = true) (dec number)) as Hd.
  { eapply Forall_impl; [apply dec_digits|]. intros c. unfold id_char, is_ascii_alphanumeric. lia. }
  pose proof (dec_len_u64 number Hn) as Hd20.
  rw task_id_for_eq. change (lit "board-") with (98 :: lit "oard-"). cbn [app].
  apply validate_task_id_ok; [done|..].
  - apply Forall_app. split; [by repeat constructor|]. apply Forall_app. split; [|by constructor].
    destruct (readable repo number) eqn:E.
    + apply readable_spec in E as (owner & name & _ & Ho & Hm & -> & _).
      apply Forall_app; split; [|constructor; [done|]]; (eapply Forall_impl; [eassumption|]);
        apply clean_id_char.
    + eapply Forall_impl; [apply digest_slug_clean|]. apply clean_id_char.
  - rw len_cons !len_app len_cons. change (len (lit "oard-")) with 5.
    destruct (readable repo number) eqn:E.
    + apply readable_spec in E as (owner & name & _ & _ & _ & -> & Hl). lia.
    + unfold digest_slug, saturating_sub. rw len_app len_cons hex8_len. unfold len at 1.
      rw length_take. lia.
Qed.

Lemma task_id_is_valid_witness :
  validate_task_id (task_id_for (lit "arbsec/orchestraitor") 314) = Ok tt
  ∧ task_id_for (lit "arbsec/orchestraitor") 314 = lit "board-arbsec_orchestraitor-314".
Proof. split; [apply task_id_is_valid; by vm_compute|by vm_compute]. Defined.

Lemma fnv1a_u32 s : fnv1a s ≤ u32_max.
Proof.
  unfold fnv1a. destruct (as_bytes s) as [|b l] using rev_ind; [by vm_compute|].
  rw foldl_app. cbn [foldl]. unfold wrapping_mul_u32, u32_max.
  pose proof (N.mod_lt (N.lxor (foldl (λ hash byte, wrapping_mul_u32 (N.lxor hash byte) 16777619)
    2166136261 l) b * 16777619) 4294967296 ltac:(lia)) as H.
  unfold wrapping_mul_u32 in H. lia.
Qed.

(** Task ids identify board items: two items with one id have one issue
    number, and the same repository unless both ids are digest ids of
    repositories with the same 32-bit digest.  In particular a readable id
    determines its repository and never equals a digest id. *)
Theorem task_id_identifies repo number repo' number' :
  task_id_for repo number = task_id_for repo' number' →
  number = number'
  ∧ (repo = repo' ∨ (readable repo number = false ∧ readable repo' number' = false
                     ∧ fnv1a repo = fnv1a repo')).
Proof.
  rw !task_id_for_eq. intros H%app_inv_head.
  apply app_sep_inj in H as [Hbody Hnum%dec_inj]; [|apply digit_not_dash, dec_digits..].
  split; [done|]. subst number'.
  assert (∀ r r', readable r number = true → replace 47 95 r ≠ digest_slug r' number) as Hdisj.
  { intros r r' (owner & name & _ & _ & _ & -> & _)%readable_spec E.
    pose proof (digest_slug_clean r' number) as Hc. rw -E Forall_forall in Hc.
    specialize (Hc 95 ltac:(set_solver)). by apply clean_char_ascii in Hc as (_ & _ & ?). }
  destruct (readable repo number) eqn:E1, (readable repo' number) eqn:E2.
  - left. apply readable_spec in E1 as (o1 & n1 & -> & Ho1 & Hn1 & Hr1 & _).
    apply readable_spec in E2 as (o2 & n2 & -> & Ho2 & Hn2 & Hr2 & _).
    apply (replace_inj 47 95); [..|done]; intros Hin;
      apply elem_of_app in Hin as [Hin|[?|Hin]%elem_of_cons]; try done;
      match goal with
      | F : Forall _ ?l, I : 95 ∈ ?l |- _ =>
          rw Forall_forall in F; apply F, clean_char_ascii in I; naive_solver
      end.
  - by apply Hdisj in Hbody.
  - symmetry in Hbody. by apply Hdisj in Hbody.
  - right. split_and!; try done. unfold digest_slug in Hbody.
    apply app_sep_inj in Hbody as [_ Hh]; [|by apply alnum_not_in; [|apply hex8_alnum]..].
    apply hex8_inj in Hh; [done|apply fnv1a_u32..].
Qed.

Lemma task_id_identifies_witness :
  task_id_for (lit "foo/bar-baz") 7 ≠ task_id_for (lit "foo-bar/baz") 7
  ∧ lit "foo/bar-baz" = lit "foo/bar-baz".
Proof.
  split; [by vm_compute|].
  destruct (task_id_identifies (lit "foo/bar-baz") 7 (lit "foo/bar-baz") 7 eq_refl) as [_ [H|(H & _)]].
  - exact H.
  - by vm_compute in H.
Defined.

(** ** The decision: theorems *)

Lemma sorted_head_least {A} (R : A → A → Prop) `{!Reflexive R} x l y :
  StronglySorted R (x :: l) → y ∈ x :: l → R x y.
Proof.
  intros [_ H]%StronglySorted_inv [->|Hy]%elem_of_cons; [done|]. rw Forall_forall in H. by apply H.
Qed.

Section decision_facts.
Context {f64 : Type} (format2 : f64 → rstr) (snapshot : BoardSnapshot) (routing : RoleRoutingDecision).

Let ordered := compute_selection (bs_ready snapshot) (bs_open snapshot).

Lemma elem_of_ordered item : item ∈ ordered ↔ item ∈ bs_ready snapshot.
Proof. apply elem_of_stable_sort. Qed.

Lemma ordered_nil : ordered = [] ↔ bs_ready snapshot = [].
Proof.
  pose proof (stable_sort_Permutation (by_key (selection_key (bs_open snapshot))) (bs_ready snapshot)) as H.
  unfold ordered, compute_selection. split; intros E; rw E in H.
  - by apply Permutation_nil in H.
  - by rw E.
Qed.

(** The item a pass selects: the provider's proposal when it names a ready
    item, the first of the P0-first order otherwise. *)
Definition choice (consulted : option (rstr * result (SelectorDecision f64) rstr)) : option ReadyItem :=
  match (match consulted with
         | Some (_, Ok selection) =>
             List.find (λ item, bool_decide (task_id_of item = sel_task_id selection)) ordered
         | _ => None
         end) with
  | Some item => Some item
  | None => head ordered
  end.

Lemma choice_ready consulted item : choice consulted = Some item → item ∈ bs_ready snapshot.
Proof.
  rw -elem_of_ordered. unfold choice. destruct (match consulted with Some (_, Ok _) => _ | _ => _ end)
    as [i|] eqn:E.
  - intros [= ->]. destruct consulted as [[? [sel|]]|]; try done.
    apply find_some in E as [? _]. by apply list_elem_of_In.
  - destruct ordered; [done|]. intros [= ->]. left.
Qed.

Lemma choice_none consulted : choice consulted = None ↔ bs_ready snapshot = [].
Proof.
  rw -ordered_nil. unfold choice. destruct (match consulted with Some (_, Ok _) => _ | _ => _ end)
    as [i|] eqn:E.
  - split; [done|]. intros H. destruct consulted as [[? [sel|]]|]; try done.
    by rw H in E.
  - by destruct ordered.
Qed.

Lemma choice_proposed pid sel c item :
  item ∈ bs_ready snapshot → task_id_of item = sel →
  ∃ item', choice (Some (pid, Ok (MkSelectorDecision sel c))) = Some item'
           ∧ task_id_of item' = sel ∧ item' ∈ bs_ready snapshot.
Proof.
  intros Hin Hid. destruct (choice (Some (pid, Ok (MkSelectorDecision sel c)))) as [item'|] eqn:E.
  - exists item'. split; [done|]. split; [|by eapply choice_ready].
    unfold choice in E. cbn [sel_task_id] in E. destruct (List.find _ ordered) as [i|] eqn:F.
    + apply find_some in F as [_ F]. bool_simpl. by simplify_eq.
    + apply elem_of_ordered, list_elem_of_In in Hin. eapply find_none in F; [|exact Hin].
      cbn in F. bool_simpl. congruence.
  - apply choice_none in E. rw E in Hin. by apply not_elem_of_nil in Hin.
Qed.

Lemma choice_least consulted item other :
  choice consulted = Some item →
  (∀ pid sel, consulted = Some (pid, Ok sel) → ∀ i, i ∈ bs_ready snapshot → task_id_of i ≠ sel_task_id sel) →
  other ∈ bs_ready snapshot →
  kle (selection_key (bs_open snapshot) item) (selection_key (bs_open snapshot) other).
Proof.
  intros Hc Hno Ho. apply elem_of_ordered in Ho.
  assert (head ordered = Some item) as Hh.
  { unfold choice in Hc. destruct consulted as [[pid [sel|]]|]; [|done..].
    destruct (List.find _ ordered) as [i|] eqn:F; [|done].
    apply find_some in F as [Fi F]. bool_simpl. exfalso. apply (Hno pid sel eq_refl i); [|done].
    by apply elem_of_ordered, list_elem_of_In. }
  pose proof (stable_sort_sorted (by_key (selection_key (bs_open snapshot))) (bs_ready snapshot)) as Hs.
  fold (compute_selection (bs_ready snapshot) (bs_open snapshot)) in Hs. fold ordered in Hs.
  destruct ordered as [|x l]; [done|]. simplify_eq/=.
  apply (sorted_head_least (by_key (selection_key (bs_open snapshot))) item l other); done.
Qed.

Lemma campaign_decision_some consulted item :
  choice consulted = Some item →
  let d := campaign_decision format2 snapshot routing consulted in
  cd_kind d = Selected ∧ no_op_reason d = None
  ∧ selected d = Some (MkSelectedTask (r_repo item) (r_number item) (r_title item) (r_url item)
                         (r_item_id item) (task_id_of item))
  ∧ worker_args d = worker_args_for (task_id_of item)
  ∧ alternatives d = List.map (blocked_node snapshot)
      (List.filter (λ i, negb (bool_decide (task_id_of i = task_id_of item))) ordered)
  ∧ blocked_graph d = [].
Proof.
  intros H. unfold campaign_decision. cbv zeta. fold ordered. unfold choice in H. rw H.
  by destruct (selection_attribution _ _ _ _ _).
Qed.

Lemma campaign_decision_none consulted :
  choice consulted = None →
  let d := campaign_decision format2 snapshot routing consulted in
  cd_kind d = NoOp ∧ no_op_reason d = Some (no_op_classification snapshot).1
  ∧ selected d = None ∧ worker_args d = [] ∧ alternatives d = []
  ∧ blocked_graph d = blocked_candidate_nodes snapshot.
Proof.
  intros H. unfold campaign_decision. cbv zeta. fold ordered. unfold choice in H. rw H.
  by destruct (no_op_classification snapshot).
Qed.
End decision_facts.

Lemma no_op_classification_exact s :
  ((no_op_classification s).1 = EpicExhausted ↔
     bs_open s = [] ∧ bs_warnings s ≠ [] ∧ ∀ w, w ∈ bs_warnings s → sw_kind w = WNotOpen)
  ∧ ((no_op_classification s).1 = AllBlocked ↔ bs_open s ≠ [] ∧ bs_blocked_candidates s ≠ [])
  ∧ (no_op_classification s).1 ≠ KickoffGate.
Proof.
  unfold no_op_classification.
  assert (forallb (λ w, bool_decide (sw_kind w = WNotOpen)) (bs_warnings s) = true
          ↔ ∀ w, w ∈ bs_warnings s → sw_kind w = WNotOpen) as Hf.
  { rw forallb_true. by setoid_rewrite bool_decide_eq_true. }
  destruct (is_empty (bs_open s)) eqn:Eo; bool_simpl.
  - destruct (_ && _) eqn:E; cbn [fst].
    + bool_simpl. naive_solver.
    + apply andb_false_iff in E. rw negb_false_iff is_empty_spec -not_true_iff_false Hf in E. naive_solver.
  - destruct (is_empty (bs_blocked_candidates s)) eqn:Eb; bool_simpl; cbn [fst]; naive_solver.
Qed.

(** The consultation a pass makes. *)
Definition consulted_by {f64} (snapshot : BoardSnapshot) (selector : option (DecisionProvider f64))
    : option (rstr * result (SelectorDecision f64) rstr) :=
  let ordered := compute_selection (bs_ready snapshot) (bs_open snapshot) in
  match selector with
  | Some provider =>
      if is_empty ordered then None
      else Some (dp_id provider, consult_task_selection provider (task_id_of <$> ordered))
  | None => None
  end.

(** The answer of a configured provider names a ready item. *)
Definition proposes {f64} (snapshot : BoardSnapshot) (selector : option (DecisionProvider f64)) (id : rstr)
    : Prop :=
  ∃ provider c, selector = Some provider
  ∧ propose_task_selection provider
      (task_id_of <$> compute_selection (bs_ready snapshot) (bs_open snapshot)) = Selection id c
  ∧ ∃ item, item ∈ bs_ready snapshot ∧ task_id_of item = id.

(** One pass decides exactly: it selects if and only if the ready queue is
    not empty, always a ready item together with its derived task id and worker
    arguments; the item is the one a configured provider proposed when the
    proposal names a ready item, and otherwise (no provider, an error, a
    timeout, a proposal outside the queue) a least item of the P0-first,
    repository, issue-number order.  A no-op carries the reason the snapshot
    dictates: all closed, all blocked, or nothing eligible. *)
Theorem pass_decision_exact {f64} (format2 : f64 → rstr) snapshot routing selector :
  let d := campaign_decision_with format2 snapshot routing selector in
  (bs_ready snapshot = [] ↔ selected d = None)
  ∧ (cd_kind d = NoOp ↔ selected d = None) ∧ (is_Some (no_op_reason d) ↔ selected d = None)
  ∧ (∀ task, selected d = Some task →
      ∃ item, item ∈ bs_ready snapshot
      ∧ task = MkSelectedTask (r_repo item) (r_number item) (r_title item) (r_url item) (r_item_id item)
                 (task_id_of item)
      ∧ worker_args d = worker_args_for (task_id_of item)
      ∧ (∀ id, proposes snapshot selector id → task_id_of item = id)
      ∧ ((∀ id, ¬ proposes snapshot selector id) → ∀ other, other ∈ bs_ready snapshot →
           kle (selection_key (bs_open snapshot) item) (selection_key (bs_open snapshot) other)))
  ∧ (selected d = None →
      (no_op_reason d = Some EpicExhausted ↔ bs_open snapshot = [] ∧ bs_warnings snapshot ≠ []
         ∧ ∀ w, w ∈ bs_warnings snapshot → sw_kind w = WNotOpen)
      ∧ (no_op_reason d = Some AllBlocked ↔
           bs_open snapshot ≠ [] ∧ bs_blocked_candidates snapshot ≠ [])
      ∧ no_op_reason d ≠ Some KickoffGate
      ∧ blocked_graph d = blocked_candidate_nodes snapshot).
Proof.
  cbv zeta. change (campaign_decision_with format2 snapshot routing selector)
    with (campaign_decision format2 snapshot routing (consulted_by snapshot selector)).
  destruct (choice snapshot (consulted_by snapshot selector)) as [item|] eqn:Ec.
  - destruct (campaign_decision_some format2 snapshot routing _ _ Ec) as (-> & -> & -> & -> & _).
    pose proof (choice_ready _ _ _ Ec) as Hin. split_and!; try done.
    + split; [|done]. intros E. rw E in Hin. by apply not_elem_of_nil in Hin.
    + intros task [= <-]. exists item. split_and!; try done.
      * intros id (provider & c & -> & Hp & i & Hi & Hid). unfold consulted_by in Ec.
        destruct (is_empty _) eqn:Ee in Ec.
        { bool_simpl. apply ordered_nil in Ee. rw Ee in Hi. by apply not_elem_of_nil in Hi. }
        unfold consult_task_selection in Ec. rw Hp in Ec.
        destruct (choice_proposed snapshot (dp_id provider) id (Some c) i Hi Hid) as (i' & E & ? & _).
        rw E in Ec. by simplify_eq.
      * intros Hno other Ho. apply (choice_least snapshot _ _ _ Ec); [|done].
        intros pid sel Hc i Hi Hid. unfold consulted_by in Hc. destruct selector as [provider|]; [|done].
        destruct (is_empty _) in Hc; [done|]. unfold consult_task_selection in Hc.
        destruct (propose_task_selection provider _) as [tid conf| |] eqn:Ep in Hc; simplify_eq.
        apply (Hno tid). exists provider, conf. split_and!; try done. by exists i.
  - destruct (campaign_decision_none format2 snapshot routing _ Ec) as (-> & -> & -> & _ & _ & ->).
    apply choice_none in Ec. destruct (no_op_classification_exact snapshot) as (H1 & H2 & H3).
    split; [done|]. split; [done|]. split; [by split; intros; eexists|]. split; [done|].
    intros _. rw -H1 -H2.
    split; [|split; [|split]]; [split; [by intros [= ->]|by intros ->]..| |done].
    by intros [= E].
Qed.

(** What a pass selects is on the ready queue. *)
Lemma selected_ready {f64} (format2 : f64 → rstr) snapshot routing selector task :
  selected (campaign_decision_with format2 snapshot routing selector) = Some task →
  ∃ item, item ∈ bs_ready snapshot ∧ st_task_id task = task_id_of item.
Proof.
  change (campaign_decision_with format2 snapshot routing selector)
    with (campaign_decision format2 snapshot routing (consulted_by snapshot selector)).
  destruct (choice snapshot (consulted_by snapshot selector)) as [item|] eqn:Ec.
  - destruct (campaign_decision_some format2 snapshot routing _ _ Ec) as (_ & _ & -> & _).
    intros [= <-]. exists item. split; [by eapply choice_ready|done].
  - by destruct (campaign_decision_none format2 snapshot routing _ Ec) as (_ & _ & -> & _).
Qed.

(** The store: ids are distinct, every pass appends one row. *)
Lemma next_rowid_fresh ids id : id ∈ ids → id < next_rowid ids.
Proof.
  unfold next_rowid. induction ids as [|x ids IH]; [by intros ?%not_elem_of_nil|].
  intros [->|H]%elem_of_cons; cbn [foldr]; [lia|]. apply IH in H. lia.
Qed.

Lemma find_fresh {A} (f : A → N) l x :
  (∀ y, y ∈ l → f y < f x) → List.find (λ y, f y =? f x) (l ++ [x]) = Some x.
Proof.
  induction l as [|y l IH]; intros H; cbn [app List.find]; [by rw N.eqb_refl|].
  assert (f y < f x) as Hy by (apply H; left).
  rw (proj2 (N.eqb_neq (f y) (f x))); [|lia]. apply IH. intros z Hz. apply H. by right.
Qed.

Lemma record_spec store d db :
  (∃ now, db = Ok now
    ∧ let row := MkStored (next_rowid (sd_id <$> store)) now d in
      record store d db = (store ++ [row], Ok row))
  ∨ (∃ e, record store d db = (store, Err (Store e))
     ∧ (db = Err e ∨ ∃ task, selected d = Some task ∧ i64_max < st_number task)).
Proof.
  unfold record. destruct (selected d) as [task|] eqn:Es.
  - unfold number_to_i64. destruct (N.leb_spec (st_number task) i64_max); cbn [result_bind].
    + destruct db as [now|e]; [left|right; eauto]. exists now. split; [done|]. cbv zeta. f_equal.
      unfold by_id. rw (find_fresh sd_id store (MkStored _ now d)); [done|].
      intros y Hy. apply next_rowid_fresh. by apply list_elem_of_fmap_2.
    + right. eauto 6.
  - destruct db as [now|e]; [left|right; eauto]. exists now. split; [done|]. cbv zeta. f_equal.
    unfold by_id. rw (find_fresh sd_id store (MkStored _ now d)); [done|].
    intros y Hy. apply next_rowid_fresh. by apply list_elem_of_fmap_2.
Qed.

(** A one-shot run writes exactly one record, before any worker runs: either
    the store is unchanged, no worker is spawned and the error is the store's;
    or exactly one row is appended, under an id larger than every earlier one,
    and the worker runs exactly for the task that row selected, whose failure
    to start is the run's error with the row kept. *)
Theorem run_once_records_once {f64 WorkerRun} (format2 : f64 → rstr) snapshot routing store
    (spawn : WorkerSpawner (WorkerRun:=WorkerRun)) selector db :
  let d := campaign_decision_with format2 snapshot routing selector in
  let r := run_once_with_selector format2 snapshot routing store spawn selector db in
  (∃ e, r = (store, Err (Store e)))
  ∨ (∃ row, r.1 = store ++ [row] ∧ sd_decision row = d
     ∧ (∀ old, old ∈ store → sd_id old < sd_id row)
     ∧ r.2 = match selected d with
             | Some task => match spawn (st_task_id task) routing with
                            | Ok run => Ok (MkOutcome row (Some run))
                            | Err e => Err e
                            end
             | None => Ok (MkOutcome row None)
             end).
Proof.
  cbv zeta. unfold run_once_with_selector, plan_pass_with_selector.
  destruct (record_spec store (campaign_decision_with format2 snapshot routing selector) db)
    as [(now & -> & E)|(e & E & _)]; cbv zeta in E; rw E.
  - right. eexists. split; [done|]. split_and!; [done|..].
    + intros old Hold. apply next_rowid_fresh. by apply list_elem_of_fmap_2.
    + cbn [snd result_bind sd_decision]. destruct (selected _) as [task|]; [|done].
      by destruct (spawn _ _).
  - left. by eexists.
Qed.
