(* ===== verification/RunState.v ===== *)
(** * Loop run state

    [crates/orchestraitor-campaign/src/run_state.rs]: the rows of the worker
    runs a loop started, their one transition to a terminal status, restart
    recovery, and the retry record each task keeps across invocations.

    A store is the rows of [loop_worker_runs] in id order and the table
    [task_retry_state] keyed by task id.  Every SQL statement may fail: an
    operation takes the [fault] SQLite reports, and then changes nothing.
    [f64] is the IEEE binary64 of [SpecFloat]; SQLite's [SUM] is the parameter
    [sql_sum]. *)

From S2P Require Import Prelude BTree Text Board Campaign.
From Stdlib Require Export Floats.SpecFloat.

Abbreviation f64 := spec_float (only parsing).

Definition f64_zero : f64 := S754_zero false.
Definition f64_add : f64 → f64 → f64 := SFadd 53 1024.
Definition f64_mul : f64 → f64 → f64 := SFmul 53 1024.
Definition f64_ge (x y : f64) : bool := SFleb y x.

(** ** Rows *)

Inductive RunRowStatus :=
| Running | Completed | Failed | Stalled | TimedOutRun | AbortedShutdown | Stuck | Orphaned | Paused.

#[export] Instance RunRowStatus_eq_dec : EqDecision RunRowStatus.
Proof. solve_decision. Defined.

Definition is_terminal (s : RunRowStatus) : bool :=
  match s with Running | Paused => false | _ => true end.

Definition as_str (s : RunRowStatus) : rstr :=
  match s with
  | Running => lit "running" | Completed => lit "completed" | Failed => lit "failed"
  | Stalled => lit "stalled" | TimedOutRun => lit "timed-out"
  | AbortedShutdown => lit "aborted-shutdown" | Stuck => lit "stuck" | Orphaned => lit "orphaned"
  | Paused => lit "paused"
  end.

Definition parse (value : rstr) : option RunRowStatus :=
  if bool_decide (value = lit "running") then Some Running
  else if bool_decide (value = lit "completed") then Some Completed
  else if bool_decide (value = lit "failed") then Some Failed
  else if bool_decide (value = lit "stalled") then Some Stalled
  else if bool_decide (value = lit "timed-out") then Some TimedOutRun
  else if bool_decide (value = lit "aborted-shutdown") then Some AbortedShutdown
  else if bool_decide (value = lit "stuck") then Some Stuck
  else if bool_decide (value = lit "orphaned") then Some Orphaned
  else if bool_decide (value = lit "paused") then Some Paused
  else None.

Record RunRow := MkRunRow {
  row_id : N;
  row_invocation : rstr;
  row_decision : N;
  row_task : rstr;
  row_repo : rstr;
  row_number : N;
  row_status : RunRowStatus;
  started_at_secs : N;
  heartbeat_turn : N;
  heartbeat_at_secs : N;
  finished_at_secs : option N;
  spend_usd : f64;
  row_detail : rstr;
}.

Record TaskRetryState := MkTaskRetryState {
  tr_task : rstr;
  attempts_total : N;
  last_failure_class : option rstr;
  consecutive_no_progress : N;
  backoff_until_secs : option N;
}.

Record StartRun := MkStartRun {
  sr_invocation : rstr;
  sr_decision : N;
  sr_task : rstr;
  sr_repo : rstr;
  sr_issue : N;
  sr_started_at : N;
}.

Record LoopRunStore := MkLoopRunStore {
  runs : list RunRow;
  retry_states : gmap rstr TaskRetryState;
}.

Definition empty_store : LoopRunStore := MkLoopRunStore [] ∅.

(** ** Operations *)

(** What SQLite answers to one statement: it is carried out, or fails. *)
Abbreviation fault := (option rstr) (only parsing).

Definition secs_i64 (value : N) : result N CampaignError :=
  if value <=? i64_max then Ok value
  else Err (Store (lit "out of range integral type conversion attempted")).

Definition number_i64 (value : N) : result N CampaignError := secs_i64 value.

Definition no_such_running_row : CampaignError := Store (lit "Query returned no rows").

(** One SQL statement: [commit] is the store it leaves. *)
Definition sql {A} (f : fault) (s : LoopRunStore) (commit : LoopRunStore * result A CampaignError)
    : LoopRunStore * result A CampaignError :=
  match f with Some e => (s, Err (Store e)) | None => commit end.

Definition run_by_id (s : LoopRunStore) (id : N) (f : fault) : result RunRow CampaignError :=
  match f with
  | Some e => Err (Store e)
  | None => ok_or (List.find (λ r, row_id r =? id) (runs s)) no_such_running_row
  end.

Definition start (s : LoopRunStore) (request : StartRun) (f read_fault : fault)
    : LoopRunStore * result RunRow CampaignError :=
  match (let? number := number_i64 (sr_issue request) in
         let? started := secs_i64 (sr_started_at request) in
         Ok (number, started)) with
  | Err e => (s, Err e)
  | Ok (number, started) =>
      sql f s
        (let row := {| row_id := next_rowid (row_id <$> runs s); row_invocation := sr_invocation request;
                       row_decision := sr_decision request; row_task := sr_task request;
                       row_repo := sr_repo request; row_number := number; row_status := Running;
                       started_at_secs := started; heartbeat_turn := 0; heartbeat_at_secs := started;
                       finished_at_secs := None; spend_usd := f64_zero; row_detail := [] |} in
         let s' := MkLoopRunStore (runs s ++ [row]) (retry_states s) in
         (s', run_by_id s' (row_id row) read_fault))
  end.

(** [WHERE id = ?1 AND status = 'running']. *)
Definition is_running_row (id : N) (r : RunRow) : bool :=
  (row_id r =? id) && bool_decide (row_status r = Running).

(** [UPDATE .. WHERE P], with the number of changed rows. *)
Definition update_where (P : RunRow → bool) (g : RunRow → RunRow) (s : LoopRunStore)
    : LoopRunStore * N :=
  (MkLoopRunStore (List.map (λ r, if P r then g r else r) (runs s)) (retry_states s), count P (runs s)).

Definition beat_row (beat now_secs : N) (r : RunRow) : RunRow :=
  {| row_id := row_id r; row_invocation := row_invocation r; row_decision := row_decision r;
     row_task := row_task r; row_repo := row_repo r; row_number := row_number r;
     row_status := row_status r; started_at_secs := started_at_secs r; heartbeat_turn := beat;
     heartbeat_at_secs := now_secs; finished_at_secs := finished_at_secs r;
     spend_usd := spend_usd r; row_detail := row_detail r |}.

Definition finish_row (status : RunRowStatus) (now_secs : N) (spend : f64) (detail : rstr) (r : RunRow)
    : RunRow :=
  {| row_id := row_id r; row_invocation := row_invocation r; row_decision := row_decision r;
     row_task := row_task r; row_repo := row_repo r; row_number := row_number r;
     row_status := status; started_at_secs := started_at_secs r; heartbeat_turn := heartbeat_turn r;
     heartbeat_at_secs := heartbeat_at_secs r; finished_at_secs := Some now_secs;
     spend_usd := spend; row_detail := detail |}.

Definition heartbeat (s : LoopRunStore) (run_id beat now_secs : N) (f : fault)
    : LoopRunStore * result unit CampaignError :=
  match (let? b := secs_i64 beat in let? n := secs_i64 now_secs in Ok (b, n)) with
  | Err e => (s, Err e)
  | Ok (b, n) =>
      sql f s
        (let '(s', changed) := update_where (is_running_row run_id) (beat_row b n) s in
         if changed =? 0 then (s', Err no_such_running_row) else (s', Ok tt))
  end.

(** SQLite stores a NaN as NULL, which the column refuses. *)
Definition finish (s : LoopRunStore) (run_id : N) (status : RunRowStatus) (now_secs : N) (spend : f64)
    (detail : rstr) (f : fault) : LoopRunStore * result unit CampaignError :=
  if negb (is_terminal status) then (s, Err (Store (lit "finish requires a terminal status")))
  else match secs_i64 now_secs with
  | Err e => (s, Err e)
  | Ok n =>
      sql f s
        (let '(s', changed) := update_where (is_running_row run_id) (finish_row status n spend detail) s in
         if changed =? 0 then (s', Err no_such_running_row)
         else match spend with
              | S754_nan => (s, Err (Store (lit "NOT NULL constraint failed: loop_worker_runs.spend_usd")))
              | _ => (s', Ok tt)
              end)
  end.

Definition runs_for_invocation (s : LoopRunStore) (invocation : rstr) (f : fault)
    : result (list RunRow) CampaignError :=
  match f with
  | Some e => Err (Store e)
  | None => Ok (List.filter (λ r, bool_decide (row_invocation r = invocation)) (runs s))
  end.

Definition running_rows (s : LoopRunStore) (f : fault) : result (list RunRow) CampaignError :=
  match f with
  | Some e => Err (Store e)
  | None => Ok (List.filter (λ r, bool_decide (row_status r = Running)) (runs s))
  end.

Definition daily_spend (sql_sum : list f64 → f64) (s : LoopRunStore) (now_secs : N) (f : fault)
    : result f64 CampaignError :=
  let? day_start := secs_i64 (now_secs - now_secs mod 86400) in
  let day_end := saturating_add i64_max day_start 86400 in
  match f with
  | Some e => Err (Store e)
  | None =>
      let today := List.filter (λ r, (day_start <=? started_at_secs r) && (started_at_secs r <? day_end))
                     (runs s) in
      Ok (if is_empty today then f64_zero else sql_sum (spend_usd <$> today))
  end.

Definition RECOVERY_DETAIL : rstr :=
  lit "restart-recovery: supervisor did not reach a terminal status".

(** One transaction: on a fault of any of its statements nothing is changed.
    [read_fault] is the re-read after the commit. *)
Definition recover_running_rows (s : LoopRunStore) (now_secs : N) (f read_fault : fault)
    : LoopRunStore * result (list RunRow) CampaignError :=
  sql f s
    (let ids := row_id <$> List.filter (λ r, bool_decide (row_status r = Running)) (runs s) in
     match (if is_empty ids then Ok now_secs else secs_i64 now_secs) with
     | Err e => (s, Err e)
     | Ok n =>
         let s' := foldl (λ s id, (update_where (is_running_row id)
                                     (finish_row Orphaned n f64_zero RECOVERY_DETAIL) s).1) s ids in
         (s', match read_fault, ids with
              | Some e, _ :: _ => Err (Store e)
              | _, _ => foldr (λ id acc, let? r := run_by_id s' id None in
                                         let? rs := acc in Ok (r :: rs)) (Ok []) ids
              end)
     end).

Definition task_retry_state (s : LoopRunStore) (task_id : rstr) (f : fault)
    : result (option TaskRetryState) CampaignError :=
  match f with Some e => Err (Store e) | None => Ok (retry_states s !! task_id) end.

Definition failed_state (prev : option TaskRetryState) (task_id failure_class : rstr) (no_progress : bool)
    (backoff : option N) : TaskRetryState :=
  match prev with
  | None => MkTaskRetryState task_id 1 (Some failure_class) (if no_progress then 1 else 0) backoff
  | Some t =>
      MkTaskRetryState task_id (attempts_total t + 1) (Some failure_class)
        (if no_progress then consecutive_no_progress t + 1 else 0) backoff
  end.

Definition record_task_failure (s : LoopRunStore) (task_id failure_class : rstr) (no_progress : bool)
    (backoff : option N) (f : fault) : LoopRunStore * result unit CampaignError :=
  match (match backoff with Some secs => let? n := secs_i64 secs in Ok (Some n) | None => Ok None end) with
  | Err e => (s, Err e)
  | Ok backoff =>
      sql f s
        (MkLoopRunStore (runs s)
           (<[task_id := failed_state (retry_states s !! task_id) task_id failure_class no_progress backoff]>
              (retry_states s)), Ok tt)
  end.

Definition record_task_success (s : LoopRunStore) (task_id : rstr) (f : fault)
    : LoopRunStore * result unit CampaignError :=
  sql f s
    (MkLoopRunStore (runs s)
       (alter (λ t, MkTaskRetryState (tr_task t) (attempts_total t) (last_failure_class t) 0 None) task_id
          (retry_states s)), Ok tt).

Definition all_task_retry_states (s : LoopRunStore) (f : fault)
    : result (list TaskRetryState) CampaignError :=
  match f with Some e => Err (Store e) | None => Ok (snd <$> bt_iter (retry_states s)) end.

(** ** Histories *)

Inductive StoreOp :=
| OStart (request : StartRun) (f read_fault : fault)
| OHeartbeat (run_id beat now_secs : N) (f : fault)
| OFinish (run_id : N) (status : RunRowStatus) (now_secs : N) (spend : f64) (detail : rstr) (f : fault)
| ORecover (now_secs : N) (f read_fault : fault)
| OFailure (task_id failure_class : rstr) (no_progress : bool) (backoff : option N) (f : fault)
| OSuccess (task_id : rstr) (f : fault).

Definition apply_op (s : LoopRunStore) (op : StoreOp) : LoopRunStore :=
  match op with
  | OStart request f rf => (start s request f rf).1
  | OHeartbeat id beat now f => (heartbeat s id beat now f).1
  | OFinish id status now spend detail f => (finish s id status now spend detail f).1
  | ORecover now f rf => (recover_running_rows s now f rf).1
  | OFailure t c np b f => (record_task_failure s t c np b f).1
  | OSuccess t f => (record_task_success s t f).1
  end.

(** ** Lemmas on rows *)

(** The columns no operation writes after the insert. *)
Definition row_identity (r : RunRow) : N * rstr * N * rstr * rstr * N * N :=
  (row_id r, row_invocation r, row_decision r, row_task r, row_repo r, row_number r, started_at_secs r).

(** What one operation may do to a row. *)
Definition row_step (r r' : RunRow) : Prop :=
  row_identity r' = row_identity r
  ∧ (row_status r ≠ Running → r' = r)
  ∧ (row_status r' = Running → finished_at_secs r' = finished_at_secs r)
  ∧ (row_status r = Running → row_status r' ≠ Running →
       is_terminal (row_status r') = true ∧ is_Some (finished_at_secs r')).

#[export] Instance row_step_refl : Reflexive row_step.
Proof. intros r. repeat split; try done. Qed.

#[export] Instance row_step_trans : Transitive row_step.
Proof.
  intros a b c (I1 & N1 & R1 & F1) (I2 & N2 & R2 & F2). split; [congruence|]. split_and!.
  - intros Ha. rw N2; [by apply N1|]. by rw N1.
  - intros Hc. destruct (decide (row_status b = Running)) as [Hb|Hb].
    + rw R2; [by apply R1|done].
    + rw (N2 Hb) in Hc. done.
  - intros Ha Hc. destruct (decide (row_status b = Running)) as [Hb|Hb]; [by apply F2|].
    rw (N2 Hb). by apply F1.
Qed.

Definition row_wf (r : RunRow) : Prop := finished_at_secs r = None ↔ is_terminal (row_status r) = false.

Record store_wf (s : LoopRunStore) : Prop := {
  ids_ascending : ascending row_id (runs s);
  rows_wf : Forall row_wf (runs s);
}.

Lemma empty_store_wf : store_wf empty_store.
Proof. split; constructor. Qed.

Lemma beat_row_step b n r : row_status r = Running → row_step r (beat_row b n r).
Proof. intros H. split; [done|]. by split_and!. Qed.

Lemma finish_row_step st n sp d r :
  row_status r = Running → is_terminal st = true → row_step r (finish_row st n sp d r).
Proof.
  intros H Ht. split; [done|]. cbn [finish_row row_status finished_at_secs]. split_and!; try done.
  by intros ->.
Qed.

Lemma row_wf_step r r' : row_wf r → row_step r r' → row_wf r'.
Proof.
  unfold row_wf. intros Hw (_ & Hn & Hr & Hf).
  destruct (decide (row_status r = Running)) as [Hs|Hs]; [|by rw (Hn Hs)].
  destruct (decide (row_status r' = Running)) as [Hs'|Hs'].
  - rw Hs' (Hr Hs') Hw Hs. done.
  - destruct (Hf Hs Hs') as [-> [x ->]]. done.
Qed.

(** An update that steps each matching row steps the table. *)
Lemma update_where_step P g s :
  (∀ r, P r = true → row_step r (g r)) →
  Forall2 row_step (runs s) (runs (update_where P g s).1).
Proof.
  intros H. unfold update_where. cbn [fst runs].
  induction (runs s) as [|r l IH]; cbn [List.map]; constructor; [|done].
  destruct (P r) eqn:E; [by apply H|reflexivity].
Qed.

Lemma is_running_row_spec id r : is_running_row id r = true ↔ row_id r = id ∧ row_status r = Running.
Proof. unfold is_running_row. by rw andb_true_iff N.eqb_eq bool_decide_eq_true. Qed.

Lemma Forall2_row_step_ids l k : Forall2 row_step l k → row_id <$> k = row_id <$> l.
Proof.
  induction 1 as [|r r' l k (Hi & _) _ IH]; [done|]. cbn [fmap list_fmap]. f_equal; [|done].
  unfold row_identity in Hi. by simplify_eq.
Qed.

Lemma ascending_ids l k : row_id <$> k = row_id <$> l → ascending row_id l → ascending row_id k.
Proof.
  unfold ascending. revert k. induction l as [|r l IH]; intros [|r' k] E Hl; try done.
  cbn [fmap list_fmap] in E. injection E as E1 E2. apply StronglySorted_inv in Hl as [Hl Hr].
  constructor; [by apply IH|]. apply (Forall_fmap row_id (klt (row_id r'))).
  rw E2 E1. by apply Forall_fmap.
Qed.

Lemma rows_step_wf l k :
  Forall2 row_step l k → ascending row_id l → Forall row_wf l → ascending row_id k ∧ Forall row_wf k.
Proof.
  intros Hst Ha Hw. split; [eapply ascending_ids; [by apply Forall2_row_step_ids|done]|].
  clear Ha. induction Hst as [|r r' l k Hr _ IH]; [constructor|].
  apply Forall_cons in Hw as [Hw1 Hw2]. constructor; [by eapply row_wf_step|auto].
Qed.

Lemma update_where_wf P g s :
  (∀ r, P r = true → row_step r (g r)) → store_wf s → store_wf (update_where P g s).1.
Proof.
  intros H [Ha Hw]. by destruct (rows_step_wf _ _ (update_where_step P g s H) Ha Hw).
Qed.

(** The table after one operation: the rows found, stepped, and at most one
    new running row. *)
Definition rows_evolve (l k : list RunRow) : Prop :=
  ∃ old new, k = old ++ new ∧ Forall2 row_step l old
  ∧ (new = [] ∨ ∃ r, new = [r] ∧ row_id r = next_rowid (row_id <$> l) ∧ row_status r = Running
                     ∧ finished_at_secs r = None).

Lemma rows_evolve_step l k : Forall2 row_step l k → rows_evolve l k.
Proof. intros H. exists k, []. rw app_nil_r. split_and!; [done|done|by left]. Qed.

Lemma rows_evolve_same l : rows_evolve l l.
Proof. by apply rows_evolve_step. Qed.

Lemma apply_op_rows s op : rows_evolve (runs s) (runs (apply_op s op)).
Proof.
  destruct op as [req f rf|id b n f|id st n sp d f|n f rf|t c np bo f|t f]; cbn [apply_op].
  - unfold start. destruct (result_bind _ _) as [[num st]|e]; [|by apply rows_evolve_same].
    unfold sql. destruct f; [by apply rows_evolve_same|]. cbn [fst runs].
    eexists _, _. split; [done|]. split; [reflexivity|]. right. by eexists.
  - unfold heartbeat. destruct (result_bind _ _) as [[b' n']|e]; [|by apply rows_evolve_same].
    unfold sql. destruct f; [by apply rows_evolve_same|].
    pose proof (update_where_step (is_running_row id) (beat_row b' n') s) as Hu.
    destruct (update_where _ _ s) as [s' ch]. destruct (ch =? 0); apply rows_evolve_step, Hu;
      intros r [_ Hr]%is_running_row_spec; by apply beat_row_step.
  - unfold finish. destruct (is_terminal st) eqn:Et; cbn [negb]; [|by apply rows_evolve_same].
    destruct (secs_i64 n) as [n'|e]; [|by apply rows_evolve_same]. unfold sql. destruct f; [by apply rows_evolve_same|].
    pose proof (update_where_step (is_running_row id) (finish_row st n' sp d) s) as Hu.
    destruct (update_where _ _ s) as [s' ch]. destruct (ch =? 0); [|destruct sp; [..|by apply rows_evolve_same|]];
      apply rows_evolve_step, Hu; intros r [_ Hr]%is_running_row_spec; by apply finish_row_step.
  - unfold recover_running_rows, sql. destruct f; [by apply rows_evolve_same|].
    destruct (if is_empty _ then _ else _) as [n'|e]; [|by apply rows_evolve_same]. cbn [fst]. apply rows_evolve_step.
    generalize (row_id <$> List.filter (λ r, bool_decide (row_status r = Running)) (runs s)) as ids.
    intros ids. generalize s. induction ids as [|id ids IH]; intros s0; [reflexivity|]. cbn [foldl].
    etrans; [|apply IH]. apply update_where_step. intros r [_ Hr]%is_running_row_spec.
    by apply finish_row_step.
  - unfold record_task_failure. destruct (match bo with Some _ => _ | None => _ end); [|by apply rows_evolve_same].
    unfold sql. destruct f; by apply rows_evolve_same.
  - unfold record_task_success, sql. destruct f; by apply rows_evolve_same.
Qed.

Lemma apply_op_wf s op : store_wf s → store_wf (apply_op s op).
Proof.
  intros [Ha Hw]. destruct (apply_op_rows s op) as (old & new & E & Hst & Hnew).
  pose proof (Forall2_row_step_ids _ _ Hst) as Hids.
  destruct (rows_step_wf _ _ Hst Ha Hw) as [Hold Hwold].
  destruct Hnew as [->|(r & -> & Hid & Hrun & Hfin)]; rw ?app_nil_r in E; split; rw E; try done.
  - apply StronglySorted_app_2; try done; [|by repeat constructor].
    intros x y Hx ->%list_elem_of_singleton. unfold klt. rw Hid. apply N.compare_lt_iff.
    apply next_rowid_fresh. rw -Hids. by apply list_elem_of_fmap_2.
  - apply Forall_app. split; [done|]. constructor; [|constructor]. unfold row_wf. by rw Hfin Hrun.
Qed.

Lemma apply_ops_wf s ops : store_wf s → store_wf (foldl apply_op s ops).
Proof. revert s. induction ops as [|op ops IH]; intros s Hw; [done|]. by apply IH, apply_op_wf. Qed.

Lemma apply_ops_rows s ops i r :
  runs s !! i = Some r → ∃ r', runs (foldl apply_op s ops) !! i = Some r' ∧ row_step r r'.
Proof.
  revert s r. induction ops as [|op ops IH]; intros s r Hr; cbn [foldl]; [by exists r|].
  destruct (apply_op_rows s op) as (old & new & E & Hst & _).
  destruct (Forall2_lookup_l _ _ _ _ _ Hst Hr) as (r1 & Hr1 & Hs1).
  destruct (IH (apply_op s op) r1) as (r2 & Hr2 & Hs2).
  { rw E. by apply lookup_app_l_Some. }
  exists r2. split; [done|]. by etrans.
Qed.

(** A run row leaves [running] at most once.  Whatever sequence of
    operations is applied to a well-formed store, with statements failing at
    will, no row is lost or reordered, its identity never changes, a row that is
    terminal or paused is never touched again, a row that left [running] is
    terminal and carries its finish time, and ids stay strictly ascending with
    a finish time exactly on the terminal rows. *)
Theorem run_rows_finish_once s ops :
  store_wf s →
  let s' := foldl apply_op s ops in
  store_wf s'
  ∧ ∀ i r, runs s !! i = Some r →
    ∃ r', runs s' !! i = Some r' ∧ row_identity r' = row_identity r
    ∧ (row_status r ≠ Running → r' = r)
    ∧ (row_status r = Running → row_status r' ≠ Running →
         is_terminal (row_status r') = true ∧ is_Some (finished_at_secs r')).
Proof.
  intros Hw. cbv zeta. split; [by apply apply_ops_wf|]. intros i r Hr.
  destruct (apply_ops_rows s ops i r Hr) as (r' & Hr' & Hid & Hn & _ & Hf). by exists r'.
Qed.

Definition example_request : StartRun :=
  MkStartRun (lit "inv") 1 (lit "board-a_b-1") (lit "a/b") 1 100.

Definition example_ops : list StoreOp :=
  [OStart example_request None None; OHeartbeat 1 2 101 None;
   OFinish 1 Completed 102 f64_zero (lit "done") None; OFinish 1 Failed 103 f64_zero (lit "late") None].

Lemma run_rows_finish_once_witness :
  let s' := foldl apply_op empty_store example_ops in
  store_wf s' ∧ (λ r, (row_status r, finished_at_secs r)) <$> runs s' = [(Completed, Some 102)].
Proof.
  cbv zeta. split; [|by vm_compute].
  exact (proj1 (run_rows_finish_once empty_store example_ops empty_store_wf)).
Defined.

(** ** Restart recovery *)

Definition orphan (n : N) (r : RunRow) : RunRow :=
  if bool_decide (row_status r = Running) then finish_row Orphaned n f64_zero RECOVERY_DETAIL r else r.

Lemma recover_updates n ids s :
  foldl (λ s id, (update_where (is_running_row id)
                    (finish_row Orphaned n f64_zero RECOVERY_DETAIL) s).1) s ids
  = MkLoopRunStore (List.map (λ r, if bool_decide (row_id r ∈ ids) then orphan n r else r) (runs s))
      (retry_states s).
Proof.
  revert s. induction ids as [|id ids IH]; intros s; cbn [foldl].
  - destruct s as [l m]. f_equal. cbn [runs]. symmetry. rw -{2}(map_id l). apply map_ext. intros r.
    by rw bool_decide_eq_false_2; [|apply not_elem_of_nil].
  - rw IH. unfold update_where. cbn [fst runs retry_states]. f_equal. rw map_map. apply map_ext. intros r.
    unfold is_running_row, orphan. destruct (N.eqb_spec (row_id r) id) as [->|Hne]; cbn [andb].
    + rw (bool_decide_eq_true_2 (id ∈ id :: ids)); [|by left].
      destruct (decide (row_status r = Running)) as [Hr|Hr];
        [rw (bool_decide_eq_true_2 _ Hr)|rw !(bool_decide_eq_false_2 _ Hr)];
        cbn [row_status row_id finish_row];
        [rw (bool_decide_eq_false_2 (Orphaned = Running)); [|done]|];
        by destruct (bool_decide (row_id r ∈ ids)).
    + rw (bool_decide_ext (row_id r ∈ id :: ids) (row_id r ∈ ids)); [done|].
      rw elem_of_cons. tauto.
Qed.

Lemma recover_all n l :
  List.map (λ r, if bool_decide (row_id r ∈
      row_id <$> List.filter (λ r, bool_decide (row_status r = Running)) l) then orphan n r else r) l
  = List.map (orphan n) l.
Proof.
  apply map_ext_in. intros r Hr%list_elem_of_In. case_bool_decide as H; [done|].
  unfold orphan. case_bool_decide as Hrun; [|done]. exfalso. apply H, list_elem_of_fmap_2.
  apply elem_of_filter_bool. split; [done|]. by apply bool_decide_eq_true_2.
Qed.

Lemma recover_reads n l m ids :
  ascending row_id l →
  ids = row_id <$> List.filter (λ r, bool_decide (row_status r = Running)) l →
  foldr (λ id acc, let? r := run_by_id (MkLoopRunStore (List.map (orphan n) l) m) id None in
                   let? rs := acc in Ok (r :: rs)) (Ok []) ids
  = Ok (orphan n <$> List.filter (λ r, bool_decide (row_status r = Running)) l).
Proof.
  intros Ha ->.
  assert (∀ k, (∀ r, r ∈ k → r ∈ l) →
    foldr (λ id acc, let? r := run_by_id (MkLoopRunStore (List.map (orphan n) l) m) id None in
                     let? rs := acc in Ok (r :: rs)) (Ok []) (row_id <$> k) = Ok (orphan n <$> k)) as H.
  { induction k as [|r k IH]; intros Hk; [done|]. cbn [fmap list_fmap foldr].
    rw IH; [|intros x Hx; apply Hk; by right]. unfold run_by_id. cbn [runs].
    assert (List.find (λ x, row_id x =? row_id r) (List.map (orphan n) l) = Some (orphan n r)) as ->; [|done].
    specialize (Hk r ltac:(left)). clear -Ha Hk. unfold ascending in Ha.
    assert (∀ x, row_id (orphan n x) = row_id x) as Hid.
    { intros x. unfold orphan. by case_bool_decide. }
    induction Ha as [|x l _ IH Hx]; [by apply not_elem_of_nil in Hk|]. cbn [List.map List.find]. rw Hid.
    apply elem_of_cons in Hk as [->|Hk]; [by rw N.eqb_refl|].
    rw Forall_forall in Hx. specialize (Hx r Hk). change (row_id x < row_id r) in Hx.
    rw (proj2 (N.eqb_neq (row_id x) (row_id r))); [by apply IH|lia]. }
  apply H. intros r [? _]%elem_of_filter_bool. done.
Qed.

(** Restart recovery is complete, selective, idempotent and atomic: it
    orphans every running row and touches nothing else (paused and terminal rows
    stay as they are), returns the orphaned rows in id order, leaves no row
    running, and a second recovery finds nothing and changes nothing; a failing
    statement or an unrepresentable clock leaves the store as it was. *)
Theorem recovery_orphans_running s now f :
  store_wf s →
  (∀ e rf, recover_running_rows s now (Some e) rf = (s, Err (Store e)))
  ∧ (i64_max < now → (∃ r, r ∈ runs s ∧ row_status r = Running) →
       (recover_running_rows s now None f).1 = s ∧ ∃ e, (recover_running_rows s now None f).2 = Err e)
  ∧ (now ≤ i64_max →
      let s' := MkLoopRunStore (List.map (orphan now) (runs s)) (retry_states s) in
      recover_running_rows s now None None
        = (s', Ok (orphan now <$> List.filter (λ r, bool_decide (row_status r = Running)) (runs s)))
      ∧ (∀ r, r ∈ runs s' → row_status r ≠ Running)
      ∧ (∀ later, recover_running_rows s' later None None = (s', Ok []))).
Proof.
  intros [Ha _]. split; [done|].
  assert (∀ t now n, (if is_empty (row_id <$> List.filter (λ r, bool_decide (row_status r = Running)) (runs t))
                    then Ok now else secs_i64 now) = Ok n → now = n) as Hn.
  { intros t m n. destruct (is_empty _); [by intros [= ->]|]. unfold secs_i64.
    destruct (m <=? i64_max); [by intros [= ->]|done]. }
  split.
  - intros Hbig (r & Hr & Hrun). unfold recover_running_rows, sql.
    destruct (is_empty (row_id <$> _)) eqn:Ee.
    { bool_simpl. apply fmap_nil_inv in Ee.
      assert (r ∈ List.filter (λ r, bool_decide (row_status r = Running)) (runs s)) as Hin.
      { apply elem_of_filter_bool. split; [done|]. by apply bool_decide_eq_true_2. }
      rw Ee in Hin. by apply not_elem_of_nil in Hin. }
    unfold secs_i64. rw (proj2 (N.leb_gt now i64_max) Hbig). cbn [fst snd]. eauto.
  - intros Hle. cbv zeta.
    assert (∀ r, r ∈ List.map (orphan now) (runs s) → row_status r ≠ Running) as Hnone.
    { intros r Hr%list_elem_of_In. apply in_map_iff in Hr as (x & <- & _). unfold orphan.
      by case_bool_decide. }
    assert (List.filter (λ r, bool_decide (row_status r = Running)) (List.map (orphan now) (runs s)) = [])
      as Hnil.
    { apply elem_of_nil_inv. intros r [Hr Hb]%elem_of_filter_bool. bool_simpl. by apply (Hnone r). }
    split_and!; [|done|].
    + unfold recover_running_rows, sql.
      destruct (if is_empty _ then _ else _) as [n|e] eqn:E.
      * apply Hn in E as <-. rw recover_updates recover_all. f_equal. by apply recover_reads.
      * destruct (is_empty _); [done|]. unfold secs_i64 in E. by rw (proj2 (N.leb_le now i64_max) Hle) in E.
    + intros later. unfold recover_running_rows, sql. cbn [runs]. rw Hnil. done.
Qed.

Lemma recovery_orphans_running_witness :
  let s := foldl apply_op empty_store [OStart example_request None None] in
  row_status <$> runs s = [Running]
  ∧ row_status <$> runs (recover_running_rows s 500 None None).1 = [Orphaned]
  ∧ store_wf s
  ∧ recover_running_rows s 500 (Some (lit "disk full")) None = (s, Err (Store (lit "disk full"))).
Proof.
  cbv zeta. split; [by vm_compute|]. split; [by vm_compute|].
  assert (store_wf (foldl apply_op empty_store [OStart example_request None None])) as Hw
    by apply apply_ops_wf, empty_store_wf.
  split; [exact Hw|].
  exact (proj1 (recovery_orphans_running _ 500 None Hw) (lit "disk full") None).
Defined.

(** ** Retry records *)

Lemma status_roundtrip st : parse (as_str st) = Some st.
Proof. by destruct st; vm_compute. Qed.

(** A backoff bound SQLite can hold. *)
Definition storable (b : option N) : bool := from_option (λ n, n <=? i64_max) true b.

(** The failures and successes of a task, oldest first: [Some np] a recorded
    failure (with or without progress), [None] a success. *)
Definition task_events (t : rstr) (ops : list StoreOp) : list (option bool) :=
  omap (λ op, match op with
              | OFailure t' _ np b None =>
                  if bool_decide (t' = t) && storable b
                  then Some (Some np) else None
              | OSuccess t' None => if bool_decide (t' = t) then Some None else None
              | _ => None
              end) ops.

(** The failures without progress at the end of a history. *)
Definition no_progress_streak (events : list (option bool)) : N :=
  foldl (λ n e, if bool_decide (e = Some true) then n + 1 else 0) 0 events.

Definition recorded_attempts (o : option TaskRetryState) : N := from_option attempts_total 0 o.
Definition recorded_streak (o : option TaskRetryState) : N := from_option consecutive_no_progress 0 o.

Lemma apply_op_retry s op t :
  retry_states (apply_op s op) !! t
  = match op with
    | OFailure t' c np b None =>
        if bool_decide (t' = t) && storable b
        then Some (failed_state (retry_states s !! t) t c np b) else retry_states s !! t
    | OSuccess t' None =>
        if bool_decide (t' = t)
        then (λ r, MkTaskRetryState (tr_task r) (attempts_total r) (last_failure_class r) 0 None)
               <$> retry_states s !! t
        else retry_states s !! t
    | _ => retry_states s !! t
    end.
Proof.
  destruct op as [req f rf|id b n f|id st n sp d f|n f rf|t' c np b f|t' f]; cbn [apply_op].
  - unfold start. destruct (result_bind _ _) as [[]|]; [|done]. by destruct f.
  - unfold heartbeat. destruct (result_bind _ _) as [[]|]; [|done]. destruct f; [done|].
    unfold sql, update_where. by destruct (_ =? 0).
  - unfold finish. destruct (negb _); [done|]. destruct (secs_i64 n); [|done]. destruct f; [done|].
    unfold sql, update_where. destruct (_ =? 0); [done|]. by destruct sp.
  - unfold recover_running_rows. destruct f; [done|]. unfold sql.
    destruct (if is_empty _ then _ else _); [|done]. cbn [fst]. by rw recover_updates.
  - unfold record_task_failure, sql.
    assert ((match b with Some secs => let? n := secs_i64 secs in Ok (Some n) | None => Ok None end)
            = if storable b then Ok b else Err (Store (lit "out of range integral type conversion attempted")))
      as ->.
    { destruct b as [secs|]; [|done]. unfold secs_i64, storable. cbn. by destruct (secs <=? i64_max). }
    destruct (storable b); [|by rw andb_false_r; destruct f]. rw andb_true_r. destruct f; [done|].
    cbn [fst retry_states]. destruct (decide (t' = t)) as [->|Hne].
    + by rw lookup_insert_eq bool_decide_eq_true_2.
    + by rw lookup_insert_ne; [rw bool_decide_eq_false_2|].
  - unfold record_task_success, sql. destruct f; [done|]. cbn [fst retry_states].
    destruct (decide (t' = t)) as [->|Hne].
    + by rw lookup_alter_eq bool_decide_eq_true_2.
    + by rw lookup_alter_ne; [rw bool_decide_eq_false_2|].
Qed.

(** A task's retry record counts its history across every invocation: from
    the empty store, after any operations in any order, the attempts are the
    failures recorded for the task, and the no-progress streak is the number of
    failures without progress since its last success or its last failure with
    progress; operations on other tasks and on rows do not disturb it. *)
Theorem retry_record_counts_history ops t :
  let s := foldl apply_op empty_store ops in
  recorded_attempts (retry_states s !! t) = count (λ e, bool_decide (e ≠ None)) (task_events t ops)
  ∧ recorded_streak (retry_states s !! t) = no_progress_streak (task_events t ops).
Proof.
  cbv zeta. induction ops as [|op ops IH] using rev_ind; [done|].
  rw foldl_app. cbn [foldl]. rw apply_op_retry.
  assert (task_events t (ops ++ [op]) = task_events t ops ++ task_events t [op]) as ->.
  { unfold task_events. by rw omap_app. }
  unfold no_progress_streak in *. rw count_app foldl_app. destruct IH as [IH1 IH2]. revert IH1 IH2.
  generalize (retry_states (foldl apply_op empty_store ops) !! t) as o. intros o <- <-.
  destruct op as [| | | |t' c np b [f|]|t' [f|]]; unfold task_events; cbn [omap list_omap];
    try (cbn [foldl]; rw count_nil; split; [lia|done]).
  - destruct (bool_decide (t' = t) && storable b); cbn [foldl]; rw ?count_cons ?count_nil;
      [|split; [lia|done]].
    rw bool_decide_eq_true_2; [|done]. unfold recorded_attempts, recorded_streak, failed_state.
    destruct o as [r|], np; cbn; (split; [lia|]); by case_bool_decide.
  - destruct (bool_decide (t' = t)); cbn [foldl]; rw ?count_cons ?count_nil; [|split; [lia|done]].
    unfold recorded_attempts, recorded_streak. destruct o as [r|]; cbn; (split; [lia|]);
      by case_bool_decide.
Qed.
