(* ===== verification/Kickoff.v ===== *)
(** * Guards and triggers of the loop

    [crates/orchestraitor-campaign/src]: the guard thresholds
    ([guardrails.rs]), the kick-off conditions ([kickoff.rs]) and the watch
    daemon's reconcile pass ([watch.rs]); with the worker budgets of
    [crates/orchestraitor-worker/src/budget.rs] they are resolved against. *)

From S2P Require Import Prelude BTree Text Time Board Campaign RunState.

(** ** Worker budgets *)

Record WorkerBudgets := MkWorkerBudgets {
  max_attempts : N;
  max_replans : N;
  worker_timeout : Duration;
  max_concurrent_workers : N;
  stall_timeout : Duration;
  retry_base_delay : Duration;
  retry_max_delay : Duration;
  max_provider_retries : N;
  daily_spend_soft_cap_usd : f64;
  run_budget : Duration;
  max_turns_per_attempt : N;
  max_consecutive_format_errors : N;
  usd_per_token_estimate : f64;
}.

(** [10.0_f64], the binary64 [5 * 2^1 = 5629499534213120 * 2^-49]. *)
Definition f64_ten : f64 := S754_finite false 5629499534213120 (-49).

Definition bootstrap_defaults : WorkerBudgets :=
  {| max_attempts := 3; max_replans := 2; worker_timeout := from_mins 45; max_concurrent_workers := 2;
     stall_timeout := from_mins 10; retry_base_delay := from_secs 10; retry_max_delay := from_mins 5;
     max_provider_retries := 3; daily_spend_soft_cap_usd := f64_ten; run_budget := from_mins (4 * 60);
     max_turns_per_attempt := 100; max_consecutive_format_errors := 3;
     usd_per_token_estimate := f64_zero |}.

Definition run_deadline (b : WorkerBudgets) : Duration := N.min (worker_timeout b) (run_budget b).

(** [2_u32.saturating_pow(n)]. *)
Definition saturating_pow_u32 (a n : N) : N := N.min (a ^ n) u32_max.

Definition backoff_delay (b : WorkerBudgets) (retry_index : N) : Duration :=
  let factor := saturating_pow_u32 2 (N.min retry_index 31) in
  N.min (duration_saturating_mul (retry_base_delay b) factor) (retry_max_delay b).

Definition set_max_turns (b : WorkerBudgets) (bound : N) : WorkerBudgets :=
  {| max_attempts := max_attempts b; max_replans := max_replans b; worker_timeout := worker_timeout b;
     max_concurrent_workers := max_concurrent_workers b; stall_timeout := stall_timeout b;
     retry_base_delay := retry_base_delay b; retry_max_delay := retry_max_delay b;
     max_provider_retries := max_provider_retries b;
     daily_spend_soft_cap_usd := daily_spend_soft_cap_usd b; run_budget := run_budget b;
     max_turns_per_attempt := bound; max_consecutive_format_errors := max_consecutive_format_errors b;
     usd_per_token_estimate := usd_per_token_estimate b |}.

(** ** Guard thresholds *)

Record GuardrailsConfigValues := MkGuardrailsConfigValues {
  cfg_no_progress_turns : option N;
  cfg_tool_repeat_count : option N;
  cfg_tool_repeat_window : option N;
  cfg_ci_poll_budget_secs : option N;
  cfg_max_task_attempts : option N;
  cfg_task_retry_backoff_secs : option N;
  cfg_max_turns_per_attempt : option N;
}.

Record GuardrailsSettings := MkGuardrailsSettings {
  gs_no_progress_turns : N;
  gs_tool_repeat_count : N;
  gs_tool_repeat_window : N;
  gs_ci_poll_budget : Duration;
  gs_max_task_attempts : N;
  gs_task_retry_backoff : Duration;
  gs_max_turns_per_attempt : option N;
}.

Definition GuardrailsSettings_default : GuardrailsSettings :=
  {| gs_no_progress_turns := 5; gs_tool_repeat_count := 4; gs_tool_repeat_window := 8;
     gs_ci_poll_budget := from_mins 30; gs_max_task_attempts := 3;
     gs_task_retry_backoff := from_mins 15; gs_max_turns_per_attempt := None |}.

(** [if let Some(value)]: the configured value with its opt-out warning, or the
    default. *)
Definition guard_value {A} (config : option N) (dflt : A) (set : N → A) (warn : N → list rstr)
    : A * list rstr :=
  match config with Some value => (set value, warn value) | None => (dflt, []) end.

Definition warn_zero (message : string) (value : N) : list rstr :=
  if value =? 0 then [lit message] else [].

Definition from_config (config : option GuardrailsConfigValues) : GuardrailsSettings * list rstr :=
  let d := GuardrailsSettings_default in
  match config with
  | None => (d, [])
  | Some c =>
      let '(npt, w1) := guard_value (cfg_no_progress_turns c) (gs_no_progress_turns d) id
        (warn_zero "loop.no_progress_turns = 0 disables the no-progress guard; this is a deliberate opt-out") in
      let '(trc, w2) := guard_value (cfg_tool_repeat_count c) (gs_tool_repeat_count d) id
        (λ v, if v =? 0 then
                [lit "loop.tool_repeat_count = 0 disables the tool-loop churn guard; this is a deliberate opt-out"]
              else if v =? 1 then
                [lit "loop.tool_repeat_count = 1 disables the tool-loop churn guard (a single call can never be a loop); treat it as 0"]
              else []) in
      let '(trw, w3) := guard_value (cfg_tool_repeat_window c) (gs_tool_repeat_window d) id
        (warn_zero "loop.tool_repeat_window = 0 disables the tool-loop churn guard; this is a deliberate opt-out") in
      let '(cpb, w4) := guard_value (cfg_ci_poll_budget_secs c) (gs_ci_poll_budget d) from_secs
        (warn_zero "loop.ci_poll_budget_secs = 0 disables the CI-poll budget; this is a deliberate opt-out") in
      let '(mta, w5) := guard_value (cfg_max_task_attempts c) (gs_max_task_attempts d) id
        (warn_zero "loop.max_task_attempts = 0 disables the cross-invocation task retry budget; this is a deliberate opt-out") in
      let '(trb, w6) := guard_value (cfg_task_retry_backoff_secs c) (gs_task_retry_backoff d) from_secs
        (warn_zero "loop.task_retry_backoff_secs = 0 disables the task re-selection backoff; this is a deliberate opt-out") in
      ({| gs_no_progress_turns := npt; gs_tool_repeat_count := trc; gs_tool_repeat_window := trw;
          gs_ci_poll_budget := cpb; gs_max_task_attempts := mta; gs_task_retry_backoff := trb;
          gs_max_turns_per_attempt := cfg_max_turns_per_attempt c |},
       w1 ++ w2 ++ w3 ++ w4 ++ w5 ++ w6)
  end.

(** ** Kick-off *)

Inductive KickoffCondition :=
| NewEligibleWork | UnblockedPromotion | SlotReleased | BudgetWindowReset | ExternalEvent.

#[export] Instance KickoffCondition_eq_dec : EqDecision KickoffCondition.
Proof. solve_decision. Defined.

Definition KickoffCondition_as_str (c : KickoffCondition) : rstr :=
  match c with
  | NewEligibleWork => lit "new-eligible-work"
  | UnblockedPromotion => lit "unblocked-promotion"
  | SlotReleased => lit "slot-released"
  | BudgetWindowReset => lit "budget-window-reset"
  | ExternalEvent => lit "external-event"
  end.

Record KickoffSettings := MkKickoffSettings {
  new_eligible_work : bool;
  unblocked_promotion : bool;
  slot_released_armed : bool;
  budget_window_reset_armed : bool;
  external_event : bool;
}.

Definition builtin_defaults : KickoffSettings := MkKickoffSettings true true true true false.

(** An external event is its id. *)
Record KickoffObservation := MkKickoffObservation {
  ready_ids : gset rstr;
  previous_ready_ids : gset rstr;
  previous_blocked_ids : gset rstr;
  ob_slot_released : bool;
  ob_budget_window_reset : bool;
  external_events : list rstr;
}.

Definition evaluate (settings : KickoffSettings) (o : KickoffObservation) : list KickoffCondition :=
  (if new_eligible_work settings
      && existsb (λ id, negb (bool_decide (id ∈ previous_ready_ids o))) (elements (ready_ids o))
   then [NewEligibleWork] else [])
  ++ (if unblocked_promotion settings
         && existsb (λ id, bool_decide (id ∈ previous_blocked_ids o)) (elements (ready_ids o))
      then [UnblockedPromotion] else [])
  ++ (if slot_released_armed settings && ob_slot_released o then [SlotReleased] else [])
  ++ (if budget_window_reset_armed settings && ob_budget_window_reset o then [BudgetWindowReset] else [])
  ++ (if external_event settings && negb (is_empty (external_events o)) then [ExternalEvent] else []).

Definition kick_off (fired : list KickoffCondition) : bool := negb (is_empty fired).

(** ** Reconcile *)

Inductive ReconcileEvent :=
| BoardDiverged (task_id : rstr) (local_status : RunRowStatus)
| UnblockedTaskPromoted (task_id : rstr) (number : N) (repo : rstr).

Record ReconcileOutcome := MkReconcileOutcome {
  rec_events : list ReconcileEvent;
  rec_ready_task_ids : list rstr;
}.

Definition reconcile (snapshot : BoardSnapshot) (previous_blocked : list ReadyItem)
    (recovered_orphaned : list RunRow) : ReconcileOutcome :=
  let open_task_ids : gset rstr :=
    list_to_set ((λ f, task_id_for (if_repo f) (if_number f)) <$> bs_open snapshot) in
  let ready_ids : gset rstr := list_to_set (task_id_of <$> bs_ready snapshot) in
  {| rec_events :=
       omap (λ row, if bool_decide (row_task row ∈ open_task_ids) then None
                    else Some (BoardDiverged (row_task row) (row_status row))) recovered_orphaned
       ++ omap (λ c, if bool_decide (task_id_of c ∈ ready_ids)
                     then Some (UnblockedTaskPromoted (task_id_of c) (r_number c) (r_repo c))
                     else None) previous_blocked;
     rec_ready_task_ids := task_id_of <$> bs_ready snapshot |}.

(** ** Theorems *)

(** The observation that makes a condition hold, and its switch. *)
Definition holds (o : KickoffObservation) (c : KickoffCondition) : Prop :=
  match c with
  | NewEligibleWork => ∃ id, id ∈ ready_ids o ∧ id ∉ previous_ready_ids o
  | UnblockedPromotion => ∃ id, id ∈ ready_ids o ∧ id ∈ previous_blocked_ids o
  | SlotReleased => ob_slot_released o = true
  | BudgetWindowReset => ob_budget_window_reset o = true
  | ExternalEvent => external_events o ≠ []
  end.

Definition armed (s : KickoffSettings) (c : KickoffCondition) : bool :=
  match c with
  | NewEligibleWork => new_eligible_work s
  | UnblockedPromotion => unblocked_promotion s
  | SlotReleased => slot_released_armed s
  | BudgetWindowReset => budget_window_reset_armed s
  | ExternalEvent => external_event s
  end.

Lemma existsb_elements (f : rstr → bool) (X : gset rstr) :
  existsb f (elements X) = true ↔ ∃ id, id ∈ X ∧ f id = true.
Proof. rw existsb_true. by setoid_rewrite elem_of_elements. Qed.

Lemma elem_of_if {A} (b : bool) (x y : A) : x ∈ (if b then [y] else []) ↔ b = true ∧ x = y.
Proof. destruct b; set_solver. Qed.

(** A kick-off condition fires exactly when it is armed and its observation
    holds; so a pass is kicked off exactly when some armed condition holds. *)
Theorem kickoff_fires_exactly settings o :
  (∀ c, c ∈ evaluate settings o ↔ armed settings c = true ∧ holds o c)
  ∧ (kick_off (evaluate settings o) = true ↔ ∃ c, armed settings c = true ∧ holds o c).
Proof.
  assert (∀ c, c ∈ evaluate settings o ↔ armed settings c = true ∧ holds o c) as H.
  { intros c. unfold evaluate. rw !elem_of_app !elem_of_if !andb_true_iff !existsb_elements.
    setoid_rewrite negb_true_iff. setoid_rewrite bool_decide_eq_false. setoid_rewrite bool_decide_eq_true.
    rw is_empty_false. destruct c; cbn [armed holds]; naive_solver. }
  split; [done|]. unfold kick_off. rw negb_true_iff is_empty_false. split.
  - intros Hne. destruct (evaluate settings o) as [|c l]; [done|]. exists c. apply H. by left.
  - intros (c & Hc%H) E. rw E in Hc. by apply not_elem_of_nil in Hc.
Qed.

(** The backoff grows to its cap. *)
Lemma backoff_delay_bounds b i :
  backoff_delay b i ≤ retry_max_delay b
  ∧ (∀ j, i ≤ j → backoff_delay b i ≤ backoff_delay b j)
  ∧ (retry_base_delay b * 2 ^ i ≤ retry_max_delay b → i ≤ 31 → retry_max_delay b ≤ Duration_MAX →
       backoff_delay b i = retry_base_delay b * 2 ^ i).
Proof.
  unfold backoff_delay, duration_saturating_mul, saturating_mul, saturating_pow_u32. split_and!.
  - lia.
  - intros j Hij. assert (2 ^ N.min i 31 ≤ 2 ^ N.min j 31) by (apply N.pow_le_mono_r; lia).
    assert (retry_base_delay b * N.min (2 ^ N.min i 31) u32_max
            ≤ retry_base_delay b * N.min (2 ^ N.min j 31) u32_max) by (apply N.mul_le_mono_l; lia).
    lia.
  - intros H Hi Hd. rw (N.min_l i 31); [|done].
    rw (N.min_l (2 ^ i) u32_max); [lia|].
    assert (2 ^ i ≤ 2 ^ 31) by (apply N.pow_le_mono_r; lia). unfold u32_max.
    change (2 ^ 31) with 2147483648 in *. lia.
Qed.
