(* ===== verification/LoopRun.v ===== *)
(** * The loop runner

    [crates/orchestraitor-campaign/src/loop_run.rs]: poll the board, run one
    campaign pass, supervise the workers in flight, drain and stop.

    The runner is a state monad over [Runner] whose failures keep the state
    they reached, as an early return with [?] does.  [Duration] addition
    panics on overflow ([RPanic]); [run] is cut off by fuel ([RFuel]).

    The environment is any type [W] with the operations of [World]: the clock,
    SQLite's answers, the board poll raced against the signal and the budget,
    the shutdown channel, the decision provider, the external event source and
    the worker processes.  Nothing is assumed of it: each operation gives some
    answer and a next world.  [tick_interval] only sets how long a tick sleeps,
    and is part of [w_tick]. *)

From S2P Require Import Prelude BTree Text Time Board Campaign RunState Kickoff.

(** ** Configuration *)

Record LoopConfig := MkLoopConfig {
  budgets : WorkerBudgets;
  shutdown_budget : Duration;
  max_cycles : option N;
  min_poll_interval : option Duration;
  guardrails : GuardrailsSettings;
  kickoff : KickoffSettings;
}.

Definition is_finite (x : f64) : bool :=
  match x with S754_zero _ | S754_finite _ _ _ => true | _ => false end.

Definition f64_lt (x y : f64) : bool := SFltb x y.

Definition LoopConfig_validate (c : LoopConfig) : result unit CampaignError :=
  if max_concurrent_workers (budgets c) =? 0 then
    Err (Loop (lit "guard-weakening rejected: concurrency cap must be at least 1"))
  else if stall_timeout (budgets c) =? 0 then
    Err (Loop (lit "guard-weakening rejected: stall timeout must be positive"))
  else if shutdown_budget c =? 0 then
    Err (Loop (lit "guard-weakening rejected: shutdown budget must be positive"))
  else if negb (is_finite (daily_spend_soft_cap_usd (budgets c)))
          || f64_lt (daily_spend_soft_cap_usd (budgets c)) f64_zero then
    Err (Loop (lit "guard-weakening rejected: daily spend soft cap must be finite and non-negative"))
  else if run_deadline (budgets c) =? 0 then
    Err (Loop (lit "guard-weakening rejected: worker run deadline must be positive"))
  else if max_turns_per_attempt (budgets c) =? 0 then
    Err (Loop (lit "guard-weakening rejected: max turns per attempt must be at least 1 (loop.max_turns_per_attempt = 0 would stop every attempt before its first turn)"))
  else if (match gs_max_turns_per_attempt (guardrails c) with
           | Some configured => negb (max_turns_per_attempt (budgets c) =? configured)
           | None => false
           end) then
    Err (Loop (lit "guard-weakening rejected: loop.max_turns_per_attempt must equal the enforced WorkerBudgets bound (one source, no drift)"))
  else if (match min_poll_interval c with Some i => i =? 0 | None => false end) then
    Err (Loop (lit "guard-weakening rejected: poll cadence must be positive when set"))
  else Ok tt.

(** The configured turn bound pins the enforced one. *)
Definition thread_max_turns (c : LoopConfig) : LoopConfig :=
  match gs_max_turns_per_attempt (guardrails c) with
  | Some bound =>
      MkLoopConfig (set_max_turns (budgets c) bound) (shutdown_budget c) (max_cycles c)
        (min_poll_interval c) (guardrails c) (kickoff c)
  | None => c
  end.

Definition with_guardrails (b : WorkerBudgets) (shutdown : Duration) (cycles : option N)
    (g : GuardrailsSettings) : result LoopConfig CampaignError :=
  let config := thread_max_turns (MkLoopConfig b shutdown cycles None g builtin_defaults) in
  let? _ := LoopConfig_validate config in Ok config.

Definition LoopConfig_new (b : WorkerBudgets) (shutdown : Duration) (cycles : option N)
    : result LoopConfig CampaignError :=
  with_guardrails b shutdown cycles GuardrailsSettings_default.

Definition with_cadence (b : WorkerBudgets) (shutdown : Duration) (cycles : option N)
    (interval : option Duration) : result LoopConfig CampaignError :=
  let config :=
    thread_max_turns (MkLoopConfig b shutdown cycles interval GuardrailsSettings_default builtin_defaults) in
  let? _ := LoopConfig_validate config in Ok config.

Definition with_min_poll_interval (c : LoopConfig) (interval : option Duration) : LoopConfig :=
  MkLoopConfig (budgets c) (shutdown_budget c) (max_cycles c) interval (guardrails c) (kickoff c).

Definition with_kickoff (c : LoopConfig) (k : KickoffSettings) : LoopConfig :=
  MkLoopConfig (budgets c) (shutdown_budget c) (max_cycles c) (min_poll_interval c) (guardrails c) k.

(** ** Outcomes and events *)

Inductive StopReason :=
| RunBudgetExhausted | SpendSoftCap | CycleBudget | Shutdown | GuardrailsExhausted.

#[export] Instance StopReason_eq_dec : EqDecision StopReason.
Proof. solve_decision. Defined.

Inductive LoopEvent :=
| PassPlanned (decision_id : N) (selected : bool) (no_op_reason : option NoOpReason)
    (task_id : option rstr)
| WorkerSpawned (run_id : N) (task_id : rstr)
| WorkerFinished (run_id : N) (task_id : rstr) (completed : bool)
| WorkerStallKilled (run_id : N) (task_id : rstr)
| WorkerTimedOut (run_id : N) (task_id : rstr)
| WorkerAbortedOnStop (run_id : N) (task_id : rstr) (shutdown : bool)
| PollFailedEvent (message : rstr)
| BackingOff (index delay_secs : N)
| KickoffSkipped (fired : list KickoffCondition).

Inductive StopIntent := Stall | WorkerTimeoutIntent | Drain (reason : StopReason) | Drained.

Definition drain_detail (r : StopReason) : rstr :=
  match r with
  | Shutdown => lit "shutdown-abort"
  | RunBudgetExhausted => lit "run-budget-abort"
  | CycleBudget => lit "cycle-budget-abort"
  | SpendSoftCap => lit "spend-cap-abort"
  | GuardrailsExhausted => lit "guardrails-abort"
  end.

(** The parts of a [WorkerRun] the loop reads. *)
Inductive RunStatus := RunCompleted | RunFailed.

Inductive FailureClass :=
| AttemptBudgetExhausted | ReplanBudgetExhausted | WorkerTimeoutClass | StalledClass
| TurnBudgetExhausted | FormatErrorsExhausted | ToolLoopChurn | NoProgress | PollBudgetExhausted
| ProviderErrorClass | MediationRefused | TaskNotCompleted | DeliveryFailed
| SubsessionBudgetExhausted | SubsessionDepthExceeded | SubsessionFailed.

(** The derived [Debug] of a field-less variant is its name. *)
Definition FailureClass_debug (c : FailureClass) : rstr :=
  match c with
  | AttemptBudgetExhausted => lit "AttemptBudgetExhausted"
  | ReplanBudgetExhausted => lit "ReplanBudgetExhausted"
  | WorkerTimeoutClass => lit "WorkerTimeout"
  | StalledClass => lit "Stalled"
  | TurnBudgetExhausted => lit "TurnBudgetExhausted"
  | FormatErrorsExhausted => lit "FormatErrorsExhausted"
  | ToolLoopChurn => lit "ToolLoopChurn"
  | NoProgress => lit "NoProgress"
  | PollBudgetExhausted => lit "PollBudgetExhausted"
  | ProviderErrorClass => lit "ProviderError"
  | MediationRefused => lit "MediationRefused"
  | TaskNotCompleted => lit "TaskNotCompleted"
  | DeliveryFailed => lit "DeliveryFailed"
  | SubsessionBudgetExhausted => lit "SubsessionBudgetExhausted"
  | SubsessionDepthExceeded => lit "SubsessionDepthExceeded"
  | SubsessionFailed => lit "SubsessionFailed"
  end.

Record WorkerRun := MkWorkerRun {
  wr_status : RunStatus;
  wr_failure : option (FailureClass * rstr);
  input_tokens : N;
  output_tokens : N;
}.

(** [Result<Result<WorkerRun, WorkerError>, JoinError>]. *)
Inductive JoinOutcome :=
| Joined (run : WorkerRun)
| NoRun (error : rstr)
| JoinCancelled
| JoinPanicked.

(** [u64 as f64]: rounded to nearest even. *)
Definition f64_of_u64 (n : N) : f64 := binary_normalize 53 1024 (Z.of_N n) 0 false.

Definition spend_of (b : WorkerBudgets) (outcome : JoinOutcome) : f64 :=
  let tokens := match outcome with
                | Joined run => (input_tokens run + output_tokens run) mod 18446744073709551616
                | _ => 0
                end in
  f64_mul (f64_of_u64 tokens) (usd_per_token_estimate b).

Fixpoint kebab_go (index : N) (s : rstr) : rstr :=
  match s with
  | [] => []
  | c :: s' =>
      (if (65 <=? c) && (c <=? 90) then (if 0 <? index then [45] else []) ++ [to_ascii_lower c] else [c])
      ++ kebab_go (index + 1) s'
  end.

Definition kebab_failure_class (debug : rstr) : rstr := kebab_go 0 debug.

(** The arbitration table: status, detail and completed flag of a joined run. *)
Definition arbitrate (outcome : JoinOutcome) (intent : option StopIntent) : RunRowStatus * rstr * bool :=
  match outcome with
  | Joined run =>
      match wr_status run with
      | RunCompleted => (Completed, lit "natural-completion", true)
      | RunFailed =>
          (Failed, match wr_failure run with
                   | Some (class, reason) => FailureClass_debug class ++ lit ":" ++ reason
                   | None => lit "typed-failure"
                   end, false)
      end
  | NoRun error => (Failed, lit "worker-loop-unusable: " ++ error, false)
  | JoinCancelled =>
      match intent with
      | Some Stall => (Stalled, lit "stall-timeout", false)
      | Some WorkerTimeoutIntent => (TimedOutRun, lit "worker-timeout", false)
      | Some (Drain reason) => (AbortedShutdown, drain_detail reason, false)
      | Some Drained => (AbortedShutdown, lit "unattributed-drain-abort", false)
      | None => (Failed, lit "aborted-without-intent", false)
      end
  | JoinPanicked => (Failed, lit "worker-panicked", false)
  end.

(** The failure class and no-progress flag the retry record takes. *)
Definition failure_of (status : RunRowStatus) (detail : rstr) : rstr * bool :=
  match status with
  | Failed =>
      let class := default (lit "unknown") (head (split 58 detail)) in
      (kebab_failure_class class, bool_decide (class = lit "NoProgress"))
  | Stalled => (lit "stalled", false)
  | TimedOutRun => (lit "worker-timeout", false)
  | _ => (lit "unknown", false)
  end.

(** The journal entry of a reaped run. *)
Definition reap_event (run_id : N) (task_id : rstr) (status : RunRowStatus) (detail : rstr)
    (completed_flag : bool) : LoopEvent :=
  match status with
  | Completed | Failed => WorkerFinished run_id task_id completed_flag
  | Stalled => WorkerStallKilled run_id task_id
  | TimedOutRun => WorkerTimedOut run_id task_id
  | AbortedShutdown => WorkerAbortedOnStop run_id task_id (bool_decide (detail = lit "shutdown-abort"))
  | Stuck | Running | Orphaned | Paused => WorkerFinished run_id task_id false
  end.

(** ** State *)

Record Slot := MkSlot {
  slot_run_id : N;
  slot_task_id : rstr;
  slot_process : N;
  last_beat_elapsed : Duration;
  started_elapsed : Duration;
  slot_intent : option StopIntent;
}.

Record Counters := MkCounters {
  cycles : N;
  spawns : N;
  n_completed : N;
  n_failed : N;
  n_stalled : N;
  n_timed_out : N;
  aborted_on_stop : N;
  poll_failures : N;
  n_stuck : N;
  task_budget_skips : N;
}.

Definition Counters_default : Counters := MkCounters 0 0 0 0 0 0 0 0 0 0.

Definition note (c : Counters) (status : RunRowStatus) : Counters :=
  let '(MkCounters cy sp co fa st ti ab po sk bu) := c in
  match status with
  | Completed => MkCounters cy sp (co + 1) fa st ti ab po sk bu
  | Failed => MkCounters cy sp co (fa + 1) st ti ab po sk bu
  | Stalled => MkCounters cy sp co fa (st + 1) ti ab po sk bu
  | TimedOutRun => MkCounters cy sp co fa st (ti + 1) ab po sk bu
  | AbortedShutdown => MkCounters cy sp co fa st ti (ab + 1) po sk bu
  | Stuck => MkCounters cy sp co fa st ti ab po (sk + 1) bu
  | Orphaned | Paused | Running => c
  end.

(** What the poll race observed. *)
Inductive PassPoll :=
| PollSnapshot (snapshot : BoardSnapshot)
| PollFailed (message : rstr)
| PollShutdown
| PollBudgetExpired.

(** What one tick wait observed. *)
Inductive TickObservation := TickElapsed | TickSignalled | TickSourceGone.

Class World (W : Type) := {
  w_clock : W → W * Duration;
  w_fault : W → W * fault;
  w_insert : W → W * result rstr rstr;
  w_poll : W → W * PassPoll;
  w_signal_pending : W → W * bool;
  w_mark_pass_seen : W → W;
  w_mark_main_seen : W → W;
  w_tick : W → W * TickObservation;
  w_consult : W → list rstr → W * ProviderAnswer f64;
  w_pending_events : W → W * list rstr;
  w_drain_events : W → list rstr → W;
  w_start : W → SelectedTask → f64 → W * result N CampaignError;
  w_is_finished : W → N → W * bool;
  w_join : W → N → W * JoinOutcome;
  w_beat : W → N → W * option N;
  w_abort : W → N → W;
}.

(** [backoff_index], [next_pass_allowed_at] and [next_poll_allowed_at]. *)
Record Pacing := MkPacing {
  backoff_index : N;
  next_pass_allowed_at : Duration;
  next_poll_allowed_at : Duration;
}.

(** What the last pass leaves for the next kick-off evaluation. *)
Record GateState := MkGateState {
  g_previous_ready_ids : gset rstr;
  g_previous_blocked_ids : gset rstr;
  slot_released_since_pass : bool;
  last_pass_day : option N;
}.

(** [stop], [drain_reason] and [drain_deadline], the locals of [run]. *)
Record Stopping := MkStopping {
  stop : option StopReason;
  drain_reason : option StopReason;
  drain_deadline : Duration;
}.

(** The runner with the locals of [run]. *)
Record Runner (W : Type) := MkRunner {
  world : W;
  run_store : LoopRunStore;
  decision_store : CampaignDecisionStore;
  slots : list Slot;
  pacing : Pacing;
  gate_state : GateState;
  counters : Counters;
  events : list LoopEvent;
  stopping : Stopping;
  signal_source_gone : bool;
}.
Arguments MkRunner {W}.
Arguments world {W}.
Arguments run_store {W}.
Arguments decision_store {W}.
Arguments slots {W}.
Arguments pacing {W}.
Arguments gate_state {W}.
Arguments counters {W}.
Arguments events {W}.
Arguments stopping {W}.
Arguments signal_source_gone {W}.

(** ** The monad *)

Inductive res (A : Type) := ROk (a : A) | RErr (e : CampaignError) | RPanic | RFuel.
Arguments ROk {A}.
Arguments RErr {A}.
Arguments RPanic {A}.
Arguments RFuel {A}.

Section monad.
Context {W : Type}.

Definition M (A : Type) : Type := Runner W → Runner W * res A.

Definition ret {A} (a : A) : M A := λ r, (r, ROk a).
Definition fail {A} (e : CampaignError) : M A := λ r, (r, RErr e).
Definition panic {A} : M A := λ r, (r, RPanic).
Definition out_of_fuel {A} : M A := λ r, (r, RFuel).

Definition bind {A B} (m : M A) (k : A → M B) : M B :=
  λ r, match m r with
       | (r', ROk a) => k a r'
       | (r', RErr e) => (r', RErr e)
       | (r', RPanic) => (r', RPanic)
       | (r', RFuel) => (r', RFuel)
       end.

Definition gets {A} (f : Runner W → A) : M A := λ r, (r, ROk (f r)).

(** Assignments to one field. *)
Definition put_world (w : W) : M unit := λ r,
  (MkRunner w (run_store r) (decision_store r) (slots r) (pacing r) (gate_state r) (counters r) (events r) (stopping r) (signal_source_gone r), ROk tt).
Definition put_run_store (rs : LoopRunStore) : M unit := λ r,
  (MkRunner (world r) rs (decision_store r) (slots r) (pacing r) (gate_state r) (counters r) (events r) (stopping r) (signal_source_gone r), ROk tt).
Definition put_decision_store (ds : CampaignDecisionStore) : M unit := λ r,
  (MkRunner (world r) (run_store r) ds (slots r) (pacing r) (gate_state r) (counters r) (events r) (stopping r) (signal_source_gone r), ROk tt).
Definition put_slots (sl : list Slot) : M unit := λ r,
  (MkRunner (world r) (run_store r) (decision_store r) sl (pacing r) (gate_state r) (counters r) (events r) (stopping r) (signal_source_gone r), ROk tt).
Definition put_pacing (pa : Pacing) : M unit := λ r,
  (MkRunner (world r) (run_store r) (decision_store r) (slots r) pa (gate_state r) (counters r) (events r) (stopping r) (signal_source_gone r), ROk tt).
Definition put_gate (ga : GateState) : M unit := λ r,
  (MkRunner (world r) (run_store r) (decision_store r) (slots r) (pacing r) ga (counters r) (events r) (stopping r) (signal_source_gone r), ROk tt).
Definition put_counters (co : Counters) : M unit := λ r,
  (MkRunner (world r) (run_store r) (decision_store r) (slots r) (pacing r) (gate_state r) co (events r) (stopping r) (signal_source_gone r), ROk tt).
Definition push_event (e : LoopEvent) : M unit := λ r,
  (MkRunner (world r) (run_store r) (decision_store r) (slots r) (pacing r) (gate_state r) (counters r) (events r ++ [e]) (stopping r) (signal_source_gone r), ROk tt).
Definition put_stopping (st : Stopping) : M unit := λ r,
  (MkRunner (world r) (run_store r) (decision_store r) (slots r) (pacing r) (gate_state r) (counters r) (events r) st (signal_source_gone r), ROk tt).
Definition put_source_gone (b : bool) : M unit := λ r,
  (MkRunner (world r) (run_store r) (decision_store r) (slots r) (pacing r) (gate_state r) (counters r) (events r) (stopping r) b, ROk tt).

(** [?]. *)
Definition lift {A} (x : result A CampaignError) : M A :=
  match x with Ok a => ret a | Err e => fail e end.
End monad.
Arguments M W A : clear implicits.

Notation "'let*' x ':=' c 'in' k" := (bind c (fun x => k))
  (at level 10, x pattern, c at level 200, k at level 200) : orc_scope.
Notation "c ;; k" := (bind c (fun _ => k)) (at level 100, k at level 200, right associativity) : orc_scope.

(** ** Operations *)

Section runner.
Context {W : Type} `{World W}.
Context (config : LoopConfig) (invocation_id : rstr) (routing : RoleRoutingDecision)
  (start_unix_secs : N) (task_selector : option rstr) (has_event_source : bool)
  (format2 : f64 → rstr) (sql_sum : list f64 → f64).

Abbreviation M := (M W).

(** Asking the world. *)
Definition ask {A} (f : W → W * A) : M A :=
  let* w := gets world in
  let '(w', a) := f w in
  put_world w' ;; ret a.

Definition tell (f : W → W) : M unit := let* w := gets world in put_world (f w).

Definition elapsed : M Duration := ask w_clock.

Definition now_secs (e : Duration) : M N :=
  let n := start_unix_secs + as_secs e in
  if n <=? u64_max then ret n
  else fail (Loop (lit "clock overflow: loop start plus elapsed exceeds u64")).

(** [a + b] on durations. *)
Definition dur_add (a b : Duration) : M Duration :=
  match duration_add a b with Some d => ret d | None => panic end.

(** One call into the run store. *)
Definition on_store {A} (f : LoopRunStore → fault → LoopRunStore * result A CampaignError) : M A :=
  let* fl := ask w_fault in
  let* s := gets run_store in
  let '(s', x) := f s fl in
  put_run_store s' ;; lift x.

Definition read_store {A} (f : LoopRunStore → fault → result A CampaignError) : M A :=
  let* fl := ask w_fault in
  let* s := gets run_store in
  lift (f s fl).

Definition record_task_outcome (task_id : rstr) (status : RunRowStatus) (failure_class : rstr)
    (no_progress : bool) (now : N) : M (option RunRowStatus) :=
  let g := guardrails config in
  match status with
  | Completed => on_store (λ s f, record_task_success s task_id f) ;; ret None
  | Failed | Stalled | TimedOutRun =>
      let backoff_until :=
        if gs_task_retry_backoff g =? 0 then None
        else let n := now + as_secs (gs_task_retry_backoff g) in
             if n <=? u64_max then Some n else None in
      on_store (λ s f, record_task_failure s task_id failure_class no_progress backoff_until f) ;;
      if 0 <? gs_max_task_attempts g then
        let* state := read_store (λ s f, task_retry_state s task_id f) in
        ret (match state with
             | Some st => if gs_max_task_attempts g <=? attempts_total st then Some Stuck else None
             | None => None
             end)
      else ret None
  | AbortedShutdown | Stuck | Running | Orphaned | Paused => ret None
  end.

(** One iteration of [reap_finished], after the slot was removed. *)
Definition reap_one (slot : Slot) : M (LoopEvent * RunRowStatus) :=
  let* outcome := ask (λ w, w_join w (slot_process slot)) in
  let spend := spend_of (budgets config) outcome in
  let '(status, detail, completed_flag) := arbitrate outcome (slot_intent slot) in
  let* e := elapsed in
  let* now := now_secs e in
  let '(failure_class, no_progress) := failure_of status detail in
  let* exhausted := record_task_outcome (slot_task_id slot) status failure_class no_progress now in
  let status := default status exhausted in
  on_store (λ s f, finish s (slot_run_id slot) status now spend detail f) ;;
  ret (reap_event (slot_run_id slot) (slot_task_id slot) status detail completed_flag, status).

(** The index loop: [kept] are the slots before the index, [rest] those from it. *)
Fixpoint reap_loop (kept rest : list Slot) : M (list (LoopEvent * RunRowStatus)) :=
  match rest with
  | [] => ret []
  | slot :: rest =>
      let* finished := ask (λ w, w_is_finished w (slot_process slot)) in
      if negb finished then reap_loop (kept ++ [slot]) rest
      else
        put_slots (kept ++ rest) ;;
        let* reaped := reap_one slot in
        let* more := reap_loop kept rest in
        ret (reaped :: more)
  end.

Definition reap_finished : M (list (LoopEvent * RunRowStatus)) :=
  let* sl := gets slots in reap_loop [] sl.

Fixpoint note_reaps (reaped : list (LoopEvent * RunRowStatus)) : M unit :=
  match reaped with
  | [] => ret tt
  | (event, status) :: reaped =>
      let* c := gets counters in
      put_counters (note c status) ;;
      let* g := gets gate_state in
      put_gate (MkGateState (g_previous_ready_ids g) (g_previous_blocked_ids g) true (last_pass_day g)) ;;
      push_event event ;;
      note_reaps reaped
  end.

Definition record_reaps : M unit := let* reaped := reap_finished in note_reaps reaped.

Definition set_intent (i : StopIntent) (s : Slot) : Slot :=
  MkSlot (slot_run_id s) (slot_task_id s) (slot_process s) (last_beat_elapsed s) (started_elapsed s)
    (Some i).

Fixpoint kill_loop (predicate : Slot → bool) (intent : StopIntent) (done rest : list Slot) : M unit :=
  match rest with
  | [] => ret tt
  | slot :: rest =>
      if predicate slot then
        put_slots (done ++ set_intent intent slot :: rest) ;;
        tell (λ w, w_abort w (slot_process slot)) ;;
        kill_loop predicate intent (done ++ [set_intent intent slot]) rest
      else kill_loop predicate intent (done ++ [slot]) rest
  end.

Definition kill_where (predicate : Slot → Duration → bool) (intent : StopIntent) : M unit :=
  let* e := elapsed in
  let* sl := gets slots in
  kill_loop (λ s, predicate s e) intent [] sl.

Definition no_intent (s : Slot) : bool := match slot_intent s with None => true | Some _ => false end.

(** The beats seen since the last step, and the slots stamped with them. *)
Fixpoint observe_beats (e : Duration) (done rest : list Slot) : M (list (N * N)) :=
  match rest with
  | [] => ret []
  | slot :: rest =>
      let* beat := ask (λ w, w_beat w (slot_process slot)) in
      match beat with
      | Some b =>
          let slot' := MkSlot (slot_run_id slot) (slot_task_id slot) (slot_process slot) e
                         (started_elapsed slot) (slot_intent slot) in
          put_slots (done ++ slot' :: rest) ;;
          let* more := observe_beats e (done ++ [slot']) rest in
          ret ((slot_run_id slot, b) :: more)
      | None => observe_beats e (done ++ [slot]) rest
      end
  end.

Fixpoint persist_beats (secs : N) (beats : list (N * N)) : M unit :=
  match beats with
  | [] => ret tt
  | (run_id, beat) :: beats =>
      on_store (λ s f, heartbeat s run_id beat secs f) ;; persist_beats secs beats
  end.

Definition supervise : M unit :=
  record_reaps ;;
  let* e := elapsed in
  let* sl := gets slots in
  let* fresh_beats := observe_beats e [] sl in
  let* beat_secs := now_secs e in
  persist_beats beat_secs fresh_beats ;;
  kill_where (λ s e, no_intent s && (stall_timeout (budgets config) <=? saturating_sub e (last_beat_elapsed s)))
    Stall ;;
  kill_where (λ s e, no_intent s && (worker_timeout (budgets config) <=? saturating_sub e (started_elapsed s)))
    WorkerTimeoutIntent ;;
  record_reaps.

Definition drain_step : M unit :=
  let* e := elapsed in
  let* st := gets stopping in
  let* sl := gets slots in
  if is_empty sl || (drain_deadline st <=? e) then
    kill_where (λ s _, no_intent s)
      (match drain_reason st with Some reason => Drain reason | None => Drained end) ;;
    record_reaps ;;
    let* sl := gets slots in
    if is_empty sl then ret tt
    else
      let* d := dur_add e (shutdown_budget config) in
      put_stopping (MkStopping (stop st) (drain_reason st) d)
  else ret tt.

(** [shutdown_from_pass], and the two budget arms of [pass]. *)
Definition declare_stop (reason : StopReason) : M unit :=
  let* st := gets stopping in
  put_stopping (MkStopping (Some reason) (Some reason) (drain_deadline st)) ;;
  let* e := elapsed in
  let* d := dur_add e (shutdown_budget config) in
  put_stopping (MkStopping (Some reason) (Some reason) d).

Definition pace_no_spawn (e : Duration) : M unit :=
  let* p := gets pacing in
  let delay := backoff_delay (budgets config) (backoff_index p) in
  put_pacing (MkPacing (saturating_add u32_max (backoff_index p) 1) (duration_saturating_add e delay)
                (next_poll_allowed_at p)) ;;
  push_event (BackingOff (backoff_index p) (as_secs delay)).

Record TaskExclusions := MkTaskExclusions {
  excluded : gset rstr;
  budget_skips : list (rstr * TaskSkipReason);
}.

Fixpoint exclude_retries (now : N) (states : list TaskRetryState) (acc : TaskExclusions) : TaskExclusions :=
  let g := guardrails config in
  match states with
  | [] => acc
  | row :: states =>
      exclude_retries now states
        (if bool_decide (tr_task row ∈ excluded acc) then acc
         else if (0 <? gs_max_task_attempts g) && (gs_max_task_attempts g <=? attempts_total row) then
           MkTaskExclusions ({[tr_task row]} ∪ excluded acc)
             (budget_skips acc ++ [(tr_task row, AttemptBudget)])
         else if negb (gs_task_retry_backoff g =? 0)
                 && from_option (λ until, now <? until) false (backoff_until_secs row) then
           MkTaskExclusions ({[tr_task row]} ∪ excluded acc) (budget_skips acc ++ [(tr_task row, Backoff)])
         else acc)
  end.

Definition excluded_tasks (now : N) : M TaskExclusions :=
  let* sl := gets slots in
  let* rows := read_store (λ s f, runs_for_invocation s invocation_id f) in
  let acc := MkTaskExclusions (list_to_set (slot_task_id <$> sl) ∪ list_to_set (row_task <$> rows)) [] in
  let g := guardrails config in
  if (0 <? gs_max_task_attempts g) || negb (gs_task_retry_backoff g =? 0) then
    let* states := read_store (λ s f, all_task_retry_states s f) in
    ret (exclude_retries now states acc)
  else ret acc.

(** [budget_window_reset]: the flag and the day it leaves. *)
Definition budget_window_reset (now : N) (last : option N) : bool * option N :=
  let day := now - now mod 86400 in
  (match last with Some previous => negb (day =? previous) | None => false end, Some day).

Inductive KickoffGateResult := Proceed (peeked_ids : list rstr) | Skipped (o : KickoffObservation).

Definition kickoff_gate (now : N) (snapshot : BoardSnapshot) (excl : gset rstr) : M KickoffGateResult :=
  let* sl := gets slots in
  let campaign_in_flight := negb (is_empty sl) in
  let* peeked := if has_event_source && external_event (kickoff config) && negb campaign_in_flight
                 then ask w_pending_events else ret [] in
  let* g := gets gate_state in
  let '(reset, day) := budget_window_reset now (last_pass_day g) in
  let observation :=
    {| ready_ids := list_to_set (List.filter (λ id, negb (bool_decide (id ∈ excl)))
                                   (task_id_of <$> bs_ready snapshot));
       previous_ready_ids := g_previous_ready_ids g;
       previous_blocked_ids := g_previous_blocked_ids g;
       ob_slot_released := slot_released_since_pass g;
       ob_budget_window_reset := reset;
       external_events := peeked |} in
  let fired := evaluate (kickoff config) observation in
  put_gate (MkGateState (ready_ids observation)
              (list_to_set (task_id_of <$> bs_blocked_candidates snapshot)) false day) ;;
  if negb campaign_in_flight && negb (kick_off fired) then ret (Skipped observation)
  else ret (Proceed peeked).

Definition bool_str (b : bool) : rstr := if b then lit "true" else lit "false".

Definition join_commas (l : list rstr) : rstr :=
  match l with [] => [] | x :: l => foldl (λ acc y, acc ++ lit "," ++ y) x l end.

Definition kick_off_rationale (fired : list KickoffCondition) (o : KickoffObservation) : rstr :=
  lit "kick-off gate: no campaign in flight and no armed condition mandated a spawn (conditions held: "
  ++ (if is_empty fired then lit "none" else join_commas (KickoffCondition_as_str <$> fired))
  ++ lit "; ready queue: " ++ dec (N.of_nat (size (ready_ids o))) ++ lit " item(s); slot released: "
  ++ bool_str (ob_slot_released o) ++ lit "; budget window reset: " ++ bool_str (ob_budget_window_reset o)
  ++ lit "; external events: " ++ dec (len (external_events o)) ++ lit ")".

Definition record_decision (d : CampaignDecision) : M StoredCampaignDecision :=
  let* db := ask w_insert in
  let* ds := gets decision_store in
  let '(ds', x) := record ds d db in
  put_decision_store ds' ;; lift x.

Definition record_kickoff_skip (e : Duration) (o : KickoffObservation)
    (skips : list (rstr * TaskSkipReason)) : M unit :=
  let fired := evaluate (kickoff config) o in
  let why := append_budget_skips_str (kick_off_rationale fired o) skips in
  let* stored := record_decision
    {| cd_kind := NoOp; no_op_reason := Some KickoffGate; selected := None; cd_role := rr_role routing;
       cd_provider := rr_provider routing; cd_model := rr_model routing;
       precedence_path := lit "kick-off-gate"; fallback_reason := rr_fallback_reason routing;
       worker_args := []; rationale := why; alternatives := []; blocked_graph := []; skipped := [] |} in
  push_event (PassPlanned (sd_id stored) false (Some KickoffGate) None) ;;
  push_event (KickoffSkipped fired) ;;
  pace_no_spawn e.

(** The consultation of the configured provider, when there is a ready item. *)
Definition consult (snapshot : BoardSnapshot) : M (option (DecisionProvider f64)) :=
  match task_selector with
  | None => ret None
  | Some id =>
      let ordered := compute_selection (bs_ready snapshot) (bs_open snapshot) in
      if is_empty ordered then ret None
      else
        let* answer := ask (λ w, w_consult w (task_id_of <$> ordered)) in
        ret (Some (MkProvider id (λ _, answer)))
  end.

Definition set_ready (s : BoardSnapshot) (ready : list ReadyItem) : BoardSnapshot :=
  MkSnapshot (bs_open s) ready (bs_blocked_candidates s) (bs_warnings s).

(** The spawn of a selected task. *)
Definition spawn_selected (decision_id : N) (task : SelectedTask) (e : Duration) (now : N) : M unit :=
  let* spend := read_store (λ s f, daily_spend sql_sum s now f) in
  let* read_fault := ask w_fault in
  let* row := on_store (λ s f, start s (MkStartRun invocation_id decision_id (st_task_id task)
                                          (st_repo task) (st_number task) now) f read_fault) in
  let* started := ask (λ w, w_start w task spend) in
  match started with
  | Ok process =>
      let* sl := gets slots in
      put_slots (sl ++ [MkSlot (row_id row) (st_task_id task) process e e None]) ;;
      let* c := gets counters in
      put_counters (MkCounters (cycles c) (spawns c + 1) (n_completed c) (n_failed c) (n_stalled c)
                      (n_timed_out c) (aborted_on_stop c) (poll_failures c) (n_stuck c)
                      (task_budget_skips c)) ;;
      let* p := gets pacing in
      put_pacing (MkPacing 0 e (next_poll_allowed_at p)) ;;
      push_event (WorkerSpawned (row_id row) (st_task_id task))
  | Err (Spawn _ message) =>
      let* exhausted :=
        record_task_outcome (st_task_id task) Failed (lit "spawn-failed") false now in
      on_store (λ s f, finish s (row_id row) (default Failed exhausted) now f64_zero message f) ;;
      let* c := gets counters in
      put_counters (note c (match exhausted with Some _ => Stuck | None => Failed end)) ;;
      push_event (WorkerFinished (row_id row) (st_task_id task) false) ;;
      let* g := gets gate_state in
      put_gate (MkGateState {[st_task_id task]} (g_previous_blocked_ids g) (slot_released_since_pass g)
                  (last_pass_day g)) ;;
      let* e := elapsed in
      pace_no_spawn e
  | Err error => fail error
  end.

Definition plan_and_spawn (e : Duration) (now : N) (snapshot : BoardSnapshot) : M bool :=
  let* excl := excluded_tasks now in
  let* c := gets counters in
  put_counters (MkCounters (cycles c) (spawns c) (n_completed c) (n_failed c) (n_stalled c)
                  (n_timed_out c) (aborted_on_stop c) (poll_failures c) (n_stuck c)
                  (task_budget_skips c + len (budget_skips excl))) ;;
  let* gate := kickoff_gate now snapshot (excluded excl) in
  match gate with
  | Skipped observation => record_kickoff_skip e observation (budget_skips excl) ;; ret false
  | Proceed peeked_ids =>
      let snapshot := set_ready snapshot
        (List.filter (λ i, negb (bool_decide (task_id_of i ∈ excluded excl))) (bs_ready snapshot)) in
      let* selector := consult snapshot in
      let* stored := record_decision
        (append_budget_skips (campaign_decision_with format2 snapshot routing selector)
           (budget_skips excl)) in
      let choice := selected (sd_decision stored) in
      push_event (PassPlanned (sd_id stored) (match choice with Some _ => true | None => false end)
                    (no_op_reason (sd_decision stored)) (st_task_id <$> choice)) ;;
      (if negb (is_empty peeked_ids) && has_event_source
       then tell (λ w, w_drain_events w peeked_ids) else ret tt) ;;
      match choice with
      | Some task => spawn_selected (sd_id stored) task e now ;; ret false
      | None => pace_no_spawn e ;; ret false
      end
  end.

Definition pass (e : Duration) : M bool :=
  let* sl := gets slots in
  let* p := gets pacing in
  if (max_concurrent_workers (budgets config) <=? len sl) || (e <? next_pass_allowed_at p)
     || (e <? next_poll_allowed_at p)
  then ret false
  else
    let* c := gets counters in
    put_counters (MkCounters (cycles c + 1) (spawns c) (n_completed c) (n_failed c) (n_stalled c)
                    (n_timed_out c) (aborted_on_stop c) (poll_failures c) (n_stuck c)
                    (task_budget_skips c)) ;;
    put_pacing (MkPacing (backoff_index p) (next_pass_allowed_at p)
                  (duration_saturating_add (N.max (next_poll_allowed_at p) e)
                     (default 0 (min_poll_interval config)))) ;;
    let* polled := ask w_poll in
    match polled with
    | PollSnapshot snapshot =>
        let* after := elapsed in
        if run_budget (budgets config) <=? after then declare_stop RunBudgetExhausted ;; ret false
        else
          let* pending := ask w_signal_pending in
          if (pending : bool) then declare_stop Shutdown ;; ret true
          else
            let* e := elapsed in
            let* now := now_secs e in
            plan_and_spawn e now snapshot
    | PollFailed message =>
        let* c := gets counters in
        put_counters (MkCounters (cycles c) (spawns c) (n_completed c) (n_failed c) (n_stalled c)
                        (n_timed_out c) (aborted_on_stop c) (poll_failures c + 1) (n_stuck c)
                        (task_budget_skips c)) ;;
        push_event (PollFailedEvent message) ;;
        let* e := elapsed in
        pace_no_spawn e ;; ret false
    | PollShutdown => tell w_mark_pass_seen ;; declare_stop Shutdown ;; ret true
    | PollBudgetExpired => declare_stop RunBudgetExhausted ;; ret false
    end.

(** [apply_signal] with the recording of its [Begin] effect. *)
Definition apply_signal (e : Duration) : M unit :=
  let* st := gets stopping in
  match stop st with
  | Some Shutdown => put_stopping (MkStopping (stop st) (drain_reason st) e)
  | Some _ =>
      let* d := dur_add e (shutdown_budget config) in
      put_stopping (MkStopping (stop st) ((λ _, Shutdown) <$> drain_reason st)
                      (N.min (drain_deadline st) d))
  | None =>
      let* d := dur_add e (shutdown_budget config) in
      put_stopping (MkStopping (Some Shutdown) (Some Shutdown) d)
  end.

Definition wait_tick : M unit :=
  let* gone := gets signal_source_gone in
  let* observed := ask w_tick in
  if (gone : bool) then ret tt
  else match observed with
       | TickElapsed => ret tt
       | TickSignalled => tell w_mark_main_seen ;; let* e := elapsed in apply_signal e
       | TickSourceGone => put_source_gone true
       end.

(** One iteration of the loop; [true] breaks. *)
Definition loop_body : M bool :=
  let* e := elapsed in
  let* now := now_secs e in
  supervise ;;
  let* st := gets stopping in
  let* broke :=
    match stop st with
    | Some _ => drain_step ;; let* sl := gets slots in ret (is_empty sl)
    | None =>
        if run_budget (budgets config) <=? e then
          let* d := dur_add e (shutdown_budget config) in
          put_stopping (MkStopping (Some RunBudgetExhausted) (Some RunBudgetExhausted) d) ;; ret false
        else
          let* daily := read_store (λ s f, daily_spend sql_sum s now f) in
          if f64_ge daily (daily_spend_soft_cap_usd (budgets config)) then
            put_stopping (MkStopping (Some SpendSoftCap) (Some SpendSoftCap) Duration_MAX) ;; ret false
          else
            let* c := gets counters in
            if from_option (λ max, max <=? cycles c) false (max_cycles config) then
              let* d := dur_add e (shutdown_budget config) in
              put_stopping (MkStopping (Some CycleBudget) (Some CycleBudget) d) ;; ret false
            else
              let* consumed := pass e in
              (if (consumed : bool) then tell w_mark_main_seen else ret tt) ;; ret false
    end in
  if (broke : bool) then ret true else wait_tick ;; ret false.

Fixpoint run_loop (fuel : nat) : M unit :=
  match fuel with
  | O => out_of_fuel
  | Datatypes.S fuel =>
      let* broke := loop_body in
      if (broke : bool) then ret tt else run_loop fuel
  end.

(** The fatal-exit sweep: every slot is aborted, awaited and finished, the
    failure of a terminal write ignored. *)
Fixpoint sweep (stranded : list Slot) : M unit :=
  match stranded with
  | [] => ret tt
  | slot :: stranded =>
      ask (λ w, w_join w (slot_process slot)) ;;
      let* e := elapsed in
      let n := start_unix_secs + as_secs e in
      let stamp := N.min (if n <=? u64_max then n else i64_max) i64_max in
      let* fl := ask w_fault in
      let* s := gets run_store in
      put_run_store (finish s (slot_run_id slot) AbortedShutdown stamp f64_zero
                       (lit "unattributed-drain-abort") fl).1 ;;
      let* c := gets counters in
      put_counters (note c AbortedShutdown) ;;
      push_event (WorkerAbortedOnStop (slot_run_id slot) (slot_task_id slot) false) ;;
      sweep stranded
  end.

Definition fatal_exit : M unit :=
  let* sl := gets slots in
  if is_empty sl then ret tt
  else
    kill_where (λ s _, no_intent s) Drained ;;
    let* sl := gets slots in
    put_slots [] ;;
    sweep sl.

Record LoopSummary := MkLoopSummary {
  ls_stop_reason : StopReason;
  ls_counters : Counters;
  ls_elapsed_secs : N;
  final_budget_day : option N;
  ls_events : list LoopEvent;
}.

Definition run (fuel : nat) : M LoopSummary :=
  lift (LoopConfig_validate config) ;;
  λ r, match run_loop fuel r with
       | (r', RErr error) =>
           match fatal_exit r' with
           | (r'', _) => (r'', RErr error)
           end
       | (r', RPanic) => (r', RPanic)
       | (r', RFuel) => (r', RFuel)
       | (r', ROk _) =>
           (let* e := elapsed in
            let* st := gets stopping in
            let* c := gets counters in
            let* g := gets gate_state in
            let* ev := gets events in
            ret (MkLoopSummary (default Shutdown (stop st)) c (as_secs e) (last_pass_day g) ev)) r'
       end.
End runner.

(** A fresh runner: [LoopRunner::new] with the day [with_previous_budget_day]
    seeds, and the locals [run] starts from. *)
Definition fresh {W} (w : W) (rs : LoopRunStore) (ds : CampaignDecisionStore) (day : option N) : Runner W :=
  MkRunner w rs ds [] (MkPacing 0 0 0) (MkGateState ∅ ∅ false day) Counters_default []
    (MkStopping None None Duration_MAX) false.
