(* ===== verification/LoopCorrect.v ===== *)
(** * The loop runner keeps its books

    Properties of [LoopRun] that hold in every world: whatever the clock, the
    database, the board, the signals and the workers do.

    [wp m Q E r] says that running [m] from [r] ends in [Q] when it returns and
    leaves a state in [E] when it fails, panics or is cut off. *)

From S2P Require Import Prelude BTree Text Time Board Campaign RunState Kickoff LoopRun.

(** ** Weakest preconditions *)

Section wp.
Context {W : Type}.

Definition wp {A} (m : M W A) (Q : A → Runner W → Prop) (E : Runner W → Prop) (r : Runner W) : Prop :=
  match m r with
  | (r', ROk a) => Q a r'
  | (r', _) => E r'
  end.

Lemma wp_bind {A B} (m : M W A) (k : A → M W B) Q E r :
  wp m (λ a, wp (k a) Q E) E r → wp (bind m k) Q E r.
Proof. unfold wp, bind. by destruct (m r) as [r' [a|e| |]]. Qed.

Lemma wp_mono {A} (m : M W A) (Q Q' : A → Runner W → Prop) (E E' : Runner W → Prop) r :
  wp m Q E r → (∀ a r', Q a r' → Q' a r') → (∀ r', E r' → E' r') → wp m Q' E' r.
Proof. unfold wp. destruct (m r) as [r' [a|e| |]]; auto. Qed.

Lemma wp_conj {A} (m : M W A) (Q Q' : A → Runner W → Prop) (E E' : Runner W → Prop) r :
  wp m Q E r → wp m Q' E' r → wp m (λ a r', Q a r' ∧ Q' a r') (λ r', E r' ∧ E' r') r.
Proof. unfold wp. destruct (m r) as [r' [a|e| |]]; auto. Qed.

Lemma wp_lift {A} (x : result A CampaignError) Q E r :
  (∀ a, x = Ok a → Q a r) → ((∃ e, x = Err e) → E r) → wp (lift x) Q E r.
Proof. intros HQ HE. destruct x as [a|e]; [by apply HQ|]. apply HE. by exists e. Qed.

Definition set_world (w : W) (r : Runner W) : Runner W :=
  MkRunner w (run_store r) (decision_store r) (slots r) (pacing r) (gate_state r) (counters r) (events r)
    (stopping r) (signal_source_gone r).

Definition set_store (w : W) (s : LoopRunStore) (r : Runner W) : Runner W :=
  MkRunner w s (decision_store r) (slots r) (pacing r) (gate_state r) (counters r) (events r)
    (stopping r) (signal_source_gone r).

Definition set_slots (sl : list Slot) (r : Runner W) : Runner W :=
  MkRunner (world r) (run_store r) (decision_store r) sl (pacing r) (gate_state r) (counters r) (events r)
    (stopping r) (signal_source_gone r).

Lemma wp_ask {A} (f : W → W * A) Q E r :
  (∀ w a, f (world r) = (w, a) → Q a (set_world w r)) → wp (ask f) Q E r.
Proof.
  unfold wp, ask, bind, gets. intros HQ. destruct (f (world r)) as [w a]. apply (HQ w a eq_refl).
Qed.

Lemma wp_tell (f : W → W) Q E r : Q tt (set_world (f (world r)) r) → wp (tell f) Q E r.
Proof. by unfold wp, tell, bind, gets. Qed.
End wp.

(** Peels one command off a [wp] goal. *)
Ltac wp_step :=
  lazymatch goal with
  | |- wp (bind _ _) _ _ _ => apply wp_bind
  | |- wp (ask _) _ _ _ => apply wp_ask; intros ? ? ?
  | |- wp elapsed _ _ _ => apply wp_ask; intros ? ? ?
  | |- wp (tell _) _ _ _ => apply wp_tell
  | |- wp (ret ?a) ?Q _ ?r => change (Q a r); cbv beta
  | |- wp (gets ?f) ?Q _ ?r => change (Q (f r) r); cbv beta
  | |- wp (fail _) _ ?E ?r => change (E r); cbv beta
  | |- wp panic _ ?E ?r => change (E r); cbv beta
  | |- wp out_of_fuel _ ?E ?r => change (E r); cbv beta
  | |- wp (put_world ?x) ?Q _ ?r => change (Q tt (put_world x r).1); cbv beta
  | |- wp (put_run_store ?x) ?Q _ ?r => change (Q tt (put_run_store x r).1); cbv beta
  | |- wp (put_decision_store ?x) ?Q _ ?r => change (Q tt (put_decision_store x r).1); cbv beta
  | |- wp (put_slots ?x) ?Q _ ?r => change (Q tt (put_slots x r).1); cbv beta
  | |- wp (put_pacing ?x) ?Q _ ?r => change (Q tt (put_pacing x r).1); cbv beta
  | |- wp (put_gate ?x) ?Q _ ?r => change (Q tt (put_gate x r).1); cbv beta
  | |- wp (put_counters ?x) ?Q _ ?r => change (Q tt (put_counters x r).1); cbv beta
  | |- wp (push_event ?x) ?Q _ ?r => change (Q tt (push_event x r).1); cbv beta
  | |- wp (put_stopping ?x) ?Q _ ?r => change (Q tt (put_stopping x r).1); cbv beta
  | |- wp (put_source_gone ?x) ?Q _ ?r => change (Q tt (put_source_gone x r).1); cbv beta
  end.

(** Reduces the projections of an assigned state. *)
Ltac fields :=
  cbn [put_world put_run_store put_decision_store put_slots put_pacing put_gate put_counters push_event
       put_stopping put_source_gone set_world set_store set_slots fst snd world run_store decision_store
       slots pacing gate_state counters events stopping signal_source_gone] in *.

(** ** The rows of one invocation *)

Section rows.
Context (inv : rstr).

Definition mine (r : RunRow) : bool := bool_decide (row_invocation r = inv).
Definition live (r : RunRow) : bool := mine r && bool_decide (row_status r = Running).

(** The running rows, as id and task. *)
Definition live_runs (s : LoopRunStore) : list (N * rstr) :=
  (λ r, (row_id r, row_task r)) <$> List.filter live (runs s).

Definition tally (st : RunRowStatus) (s : LoopRunStore) : N :=
  count (λ r, mine r && bool_decide (row_status r = st)) (runs s).

Definition my_tasks (s : LoopRunStore) : list rstr := row_task <$> List.filter mine (runs s).

Definition foreign_rows (s : LoopRunStore) : list RunRow := List.filter (λ r, negb (mine r)) (runs s).

(** An id that occurs once splits the table. *)
Lemma store_split s id t :
  store_wf s → (id, t) ∈ live_runs s →
  ∃ l1 row l2, runs s = l1 ++ row :: l2 ∧ row_id row = id ∧ row_task row = t ∧ mine row = true
  ∧ row_status row = Running ∧ ∀ x, x ∈ l1 ++ l2 → row_id x ≠ id.
Proof.
  intros [Ha _] Hin. unfold live_runs in Hin. apply list_elem_of_fmap in Hin as (row & [= -> ->] & Hrow).
  apply elem_of_filter_bool in Hrow as [Hrow Hl]. unfold live in Hl. bool_simpl.
  apply list_elem_of_split in Hrow as (l1 & l2 & E). exists l1, row, l2. split_and!; try done.
  assert (NoDup (row_id <$> runs s)) as Hnd by by apply ascending_keys_NoDup.
  rw E fmap_app fmap_cons in Hnd. apply NoDup_app in Hnd as (_ & H1 & [H2 _]%NoDup_cons).
  intros x [Hx|Hx]%elem_of_app Hid.
  - apply (H1 (row_id x)); [by apply list_elem_of_fmap_2|]. rw Hid. left.
  - apply H2. rw -Hid. by apply list_elem_of_fmap_2.
Qed.

Lemma update_where_split s id l1 row l2 g :
  runs s = l1 ++ row :: l2 → row_id row = id → row_status row = Running →
  (∀ x, x ∈ l1 ++ l2 → row_id x ≠ id) →
  update_where (is_running_row id) g s = (MkLoopRunStore (l1 ++ g row :: l2) (retry_states s), 1).
Proof.
  intros E Hid Hrun Hne. unfold update_where. rw E.
  assert (∀ l, (∀ x, x ∈ l → row_id x ≠ id) →
    List.map (λ r, if is_running_row id r then g r else r) l = l ∧ count (is_running_row id) l = 0) as Hl.
  { intros l Hx. assert (∀ x, x ∈ l → is_running_row id x = false) as Hf.
    { intros x Hin. apply not_true_iff_false. rw is_running_row_spec. intros [? _]. by apply (Hx x). }
    split; [|by apply count_0]. rw -{2}(map_id l). apply map_ext_in. intros x Hin%list_elem_of_In.
    by rw (Hf x Hin). }
  destruct (Hl l1) as [M1 C1]; [set_solver|]. destruct (Hl l2) as [M2 C2]; [set_solver|].
  rw map_app count_app count_cons C1 C2. cbn [List.map]. rw M1 M2.
  assert (is_running_row id row = true) as -> by by apply is_running_row_spec. done.
Qed.

Lemma live_runs_app l1 l2 m : live_runs (MkLoopRunStore (l1 ++ l2) m)
  = live_runs (MkLoopRunStore l1 m) ++ live_runs (MkLoopRunStore l2 m).
Proof. unfold live_runs. cbn [runs]. by rw List.filter_app fmap_app. Qed.

(** A beat leaves every observation of the rows as it was. *)
Lemma heartbeat_observes s id t b n s' :
  store_wf s → (id, t) ∈ live_runs s → s' = (update_where (is_running_row id) (beat_row b n) s).1 →
  live_runs s' = live_runs s ∧ (∀ st, tally st s' = tally st s) ∧ my_tasks s' = my_tasks s
  ∧ foreign_rows s' = foreign_rows s.
Proof.
  intros Hw Hin ->. destruct (store_split s id t Hw Hin) as (l1 & row & l2 & E & Hid & Ht & Hm & Hr & Hne).
  rw (update_where_split s id l1 row l2 _ E Hid Hr Hne). cbn [fst].
  unfold live_runs, tally, my_tasks, foreign_rows. cbn [runs]. rw E.
  assert (mine (beat_row b n row) = true) as Hm' by done.
  assert (live (beat_row b n row) = live row) as Hl' by done.
  rw !List.filter_app. cbn [List.filter]. rw Hm' Hm Hl'. cbn [negb]. split_and!; try done.
  - rw !fmap_app. f_equal. by destruct (live row).
  - intros st. by rw !count_app !count_cons Hm Hm'.
  - by rw !fmap_app.
Qed.

(** A finish moves one live row to its terminal status. *)
Lemma finish_observes s id t st n sp d s' :
  store_wf s → (id, t) ∈ live_runs s → is_terminal st = true →
  s' = (update_where (is_running_row id) (finish_row st n sp d) s).1 →
  live_runs s ≡ₚ (id, t) :: live_runs s'
  ∧ (∀ st', st' ≠ Running → tally st' s' = tally st' s + (if bool_decide (st' = st) then 1 else 0))
  ∧ my_tasks s' = my_tasks s ∧ foreign_rows s' = foreign_rows s.
Proof.
  intros Hw Hin Hst ->.
  destruct (store_split s id t Hw Hin) as (l1 & row & l2 & E & Hid & Ht & Hm & Hr & Hne).
  rw (update_where_split s id l1 row l2 _ E Hid Hr Hne). cbn [fst].
  unfold live_runs, tally, my_tasks, foreign_rows. cbn [runs]. rw E.
  assert (mine (finish_row st n sp d row) = true) as Hm' by done.
  assert (live row = true) as Hl. { unfold live. by rw Hm Hr. }
  assert (live (finish_row st n sp d row) = false) as Hl'.
  { unfold live. rw Hm'. cbn [andb row_status finish_row]. apply bool_decide_eq_false_2. by intros ->. }
  rw !List.filter_app. cbn [List.filter]. rw Hm' Hm Hl Hl'. cbn [negb]. split_and!; try done.
  - rw !fmap_app !fmap_cons Hid Ht. symmetry. apply Permutation_middle.
  - intros st' Hst'. rw !count_app !count_cons Hm Hm' Hr. cbn [andb row_status finish_row].
    rw (bool_decide_eq_false_2 (Running = st')); [|done].
    repeat case_bool_decide; subst; try done; lia.
  - by rw !fmap_app !fmap_cons.
Qed.
End rows.

(** ** The invariant *)

Definition counter_of (c : Counters) (st : RunRowStatus) : N :=
  match st with
  | Completed => n_completed c
  | Failed => n_failed c
  | Stalled => n_stalled c
  | TimedOutRun => n_timed_out c
  | AbortedShutdown => aborted_on_stop c
  | Stuck => n_stuck c
  | Running | Orphaned | Paused => 0
  end.

(** Of the statuses a run may end with. *)
Definition reapable (st : RunRowStatus) : bool :=
  match st with Running | Orphaned | Paused => false | _ => true end.

Lemma counter_of_note c st st' :
  reapable st = true →
  counter_of (note c st) st' = counter_of c st' + (if bool_decide (st' = st) then 1 else 0).
Proof. destruct c, st, st'; try done; intros _; case_bool_decide; try done; cbn; lia. Qed.

Definition slot_run (s : Slot) : N * rstr := (slot_run_id s, slot_task_id s).

Section invariant.
Context (inv : rstr) (base : list RunRow).

(** The live rows of the invocation are those of the slots and of [hole]. *)
Record core (s : LoopRunStore) (sl : list Slot) (hole : list (N * rstr)) : Prop := {
  c_wf : store_wf s;
  c_live : live_runs inv s ≡ₚ (slot_run <$> sl) ++ hole;
  c_tasks : NoDup (my_tasks inv s);
  c_foreign : foreign_rows inv s = base;
}.

(** The counters, with the statuses reaped but not yet counted. *)
Definition counted (s : LoopRunStore) (c : Counters) (pending : list RunRowStatus) : Prop :=
  ∀ st, st ≠ Running → tally inv st s = counter_of c st + count (λ x, bool_decide (x = st)) pending.

Lemma core_perm s sl sl' hole hole' :
  (slot_run <$> sl) ++ hole ≡ₚ (slot_run <$> sl') ++ hole' → core s sl hole → core s sl' hole'.
Proof. intros Hp [Hw Hl Ht Hf]. split; try done. by rw Hl. Qed.

Lemma core_heartbeat s sl hole x b n :
  core s sl hole → x ∈ (slot_run <$> sl) ++ hole →
  core (update_where (is_running_row x.1) (beat_row b n) s).1 sl hole
  ∧ (∀ st, tally inv st (update_where (is_running_row x.1) (beat_row b n) s).1 = tally inv st s)
  ∧ (update_where (is_running_row x.1) (beat_row b n) s).2 ≠ 0.
Proof.
  intros [Hw Hl Ht Hf] Hx. destruct x as [id t]. cbn [fst]. rw -Hl in Hx.
  destruct (heartbeat_observes inv s id t b n _ Hw Hx eq_refl) as (H1 & H2 & H3 & H4).
  destruct (store_split inv s id t Hw Hx) as (l1 & row & l2 & E & Hid & _ & _ & Hr & Hne).
  split_and!; [split; [|by rw H1|by rw H3|by rw H4]|done|by rw (update_where_split s id l1 row l2 _ E Hid Hr Hne)].
  apply update_where_wf; [|done]. intros r [_ ?]%is_running_row_spec. by apply beat_row_step.
Qed.

Lemma core_finish s sl id t st n sp d hole :
  core s sl ((id, t) :: hole) → is_terminal st = true →
  core (update_where (is_running_row id) (finish_row st n sp d) s).1 sl hole
  ∧ (∀ st', st' ≠ Running → tally inv st' (update_where (is_running_row id) (finish_row st n sp d) s).1
                            = tally inv st' s + (if bool_decide (st' = st) then 1 else 0))
  ∧ (update_where (is_running_row id) (finish_row st n sp d) s).2 ≠ 0.
Proof.
  intros [Hw Hl Ht Hf] Hst. assert ((id, t) ∈ live_runs inv s) as Hx.
  { rw Hl. apply elem_of_app. right. left. }
  destruct (finish_observes inv s id t st n sp d _ Hw Hx Hst eq_refl) as (H1 & H2 & H3 & H4).
  destruct (store_split inv s id t Hw Hx) as (l1 & row & l2 & E & Hid & _ & _ & Hr & Hne).
  split_and!; [split; [| |by rw H3|by rw H4]|done|by rw (update_where_split s id l1 row l2 _ E Hid Hr Hne)].
  - apply update_where_wf; [|done]. intros r [_ ?]%is_running_row_spec. by apply finish_row_step.
  - rw H1 in Hl. apply (inj (cons (id, t))). rw Hl. symmetry. apply Permutation_middle.
Qed.

Lemma core_start s sl row :
  core s sl [] → row_id row = next_rowid (row_id <$> runs s) → row_invocation row = inv →
  row_status row = Running → finished_at_secs row = None → row_task row ∉ my_tasks inv s →
  core (MkLoopRunStore (runs s ++ [row]) (retry_states s)) sl [(row_id row, row_task row)]
  ∧ ∀ st, st ≠ Running → tally inv st (MkLoopRunStore (runs s ++ [row]) (retry_states s)) = tally inv st s.
Proof.
  intros [[Ha Hw] Hl Ht Hf] Hid Hinv Hrun Hfin Hnew.
  assert (mine inv row = true) as Hm by by apply bool_decide_eq_true_2.
  assert (live inv row = true) as Hli by (unfold live; by rw Hm Hrun).
  split; [split; [split| | |]|]; unfold live_runs, my_tasks, foreign_rows, tally in *; cbn [runs].
  - apply StronglySorted_app_2; try done; [|by repeat constructor].
    intros x y Hx ->%list_elem_of_singleton. unfold klt. rw Hid. apply N.compare_lt_iff.
    apply next_rowid_fresh. by apply list_elem_of_fmap_2.
  - apply Forall_app. split; [done|]. constructor; [|constructor]. unfold row_wf. by rw Hfin Hrun.
  - rw List.filter_app fmap_app. cbn [List.filter]. rw Hli. by rw Hl app_nil_r.
  - rw List.filter_app fmap_app. cbn [List.filter]. rw Hm. apply NoDup_app. split_and!; [done| |].
    + by intros x Hx ->%list_elem_of_singleton.
    + apply NoDup_singleton.
  - rw List.filter_app. cbn [List.filter]. rw Hm. cbn [negb]. by rw app_nil_r.
  - intros st Hst. rw count_app count_cons count_nil Hm Hrun. cbn [andb].
    rw bool_decide_eq_false_2; [lia|done].
Qed.

(** Operations on the retry table leave the rows. *)
Lemma core_runs s s' sl hole : runs s' = runs s → core s sl hole → core s' sl hole.
Proof.
  intros E [[Ha Hw] Hl Ht Hf]. unfold live_runs, my_tasks, foreign_rows in *.
  split; [split|..]; unfold live_runs, my_tasks, foreign_rows; by rw E.
Qed.

Lemma counted_runs s s' c p : runs s' = runs s → counted s c p → counted s' c p.
Proof. intros E H st Hst. unfold tally. rw E. by apply H. Qed.
End invariant.

(** ** Specifications of the operations *)

Section specs.
Context {W : Type} `{World W}.
Context (config : LoopConfig) (inv : rstr) (routing : RoleRoutingDecision) (start_unix_secs : N)
  (task_selector : option rstr) (has_event_source : bool) (format2 : f64 → rstr)
  (sql_sum : list f64 → f64) (base : list RunRow).
Implicit Types r : Runner W.

Abbreviation cap := (max_concurrent_workers (budgets config)).

Lemma wp_on_store {A} (f : LoopRunStore → fault → LoopRunStore * result A CampaignError) Q E r :
  (∀ w fl s' x, f (run_store r) fl = (s', x) →
     match x with Ok a => Q a (set_store w s' r) | Err _ => E (set_store w s' r) end) →
  wp (on_store f) Q E r.
Proof.
  intros Hf. unfold on_store. wp_step. wp_step. wp_step. wp_step. cbn [run_store set_world].
  destruct (f (run_store r) a) as [s' x] eqn:Ex. specialize (Hf w a s' x Ex).
  wp_step. wp_step. by destruct x.
Qed.

Lemma wp_read_store {A} (f : LoopRunStore → fault → result A CampaignError) Q E r :
  (∀ w fl, match f (run_store r) fl with Ok a => Q a (set_world w r) | Err _ => E (set_world w r) end) →
  wp (read_store f) Q E r.
Proof.
  intros Hf. unfold read_store. wp_step. wp_step. wp_step. wp_step. cbn [run_store set_world].
  specialize (Hf w a). by destruct (f (run_store r) a).
Qed.

(** Only the world moves. *)
Lemma wp_now_secs e Q E r : (∀ n, Q n r) → E r → wp (now_secs start_unix_secs e) Q E r.
Proof. intros HQ HE. unfold now_secs. case_match; [apply HQ|exact HE]. Qed.

Lemma wp_dur_add a b Q (E : Runner W → Prop) r : (∀ d, Q d r) → E r → wp (dur_add a b) Q E r.
Proof. intros HQ HE. unfold dur_add. case_match; [apply HQ|exact HE]. Qed.

(** [r'] differs from [r] outside the slots, the counters and the stop. *)
Definition frame r r' : Prop :=
  slots r' = slots r ∧ counters r' = counters r ∧ stopping r' = stopping r.

Lemma frame_refl r : frame r r.
Proof. done. Qed.

Lemma frame_trans r1 r2 r3 : frame r1 r2 → frame r2 r3 → frame r1 r3.
Proof. unfold frame. intros (-> & -> & ->) (-> & -> & ->). done. Qed.

Lemma record_task_failure_runs s t c np b f s' x :
  record_task_failure s t c np b f = (s', x) → runs s' = runs s.
Proof.
  unfold record_task_failure, sql. intros E. repeat case_match; by simplify_eq.
Qed.

Lemma record_task_success_runs s t f s' x : record_task_success s t f = (s', x) → runs s' = runs s.
Proof. unfold record_task_success, sql. intros E. case_match; by simplify_eq. Qed.

Lemma wp_record_task_outcome t st c np now r :
  wp (record_task_outcome config t st c np now)
    (λ x r', runs (run_store r') = runs (run_store r) ∧ frame r r' ∧ (x = None ∨ x = Some Stuck))
    (λ r', runs (run_store r') = runs (run_store r) ∧ frame r r') r.
Proof.
  assert (∀ b, wp (on_store (λ s f, record_task_failure s t c np b f) ;;
      if 0 <? gs_max_task_attempts (guardrails config) then
        let* state := read_store (λ s f, task_retry_state s t f) in
        ret (match state with
             | Some st => if gs_max_task_attempts (guardrails config) <=? attempts_total st
                          then Some Stuck else None
             | None => None
             end)
      else ret None)
    (λ x r', runs (run_store r') = runs (run_store r) ∧ frame r r' ∧ (x = None ∨ x = Some Stuck))
    (λ r', runs (run_store r') = runs (run_store r) ∧ frame r r') r) as Hfail.
  { intros b. wp_step. apply wp_on_store. intros w fl s' x E%record_task_failure_runs.
    destruct x as [[]|]; [|by split]. case_match; [|wp_step; split_and!; try done; by left].
    wp_step. apply wp_read_store. intros w' fl'. unfold task_retry_state. case_match; [|by split].
    wp_step. split_and!; try done. repeat case_match; auto. }
  unfold record_task_outcome.
  destruct st; try apply Hfail; try (wp_step; split_and!; by auto).
  wp_step. apply wp_on_store. intros w fl s' x E%record_task_success_runs.
  destruct x as [[]|]; [|by split]. wp_step. split_and!; try done. by left.
Qed.

Lemma arbitrate_reapable outcome intent : reapable (arbitrate outcome intent).1.1 = true.
Proof. destruct outcome as [[[] ? ? ?]| | |]; try done. by destruct intent as [[]|]. Qed.

Lemma reapable_terminal st : reapable st = true → is_terminal st = true ∧ st ≠ Running.
Proof. by destruct st. Qed.

(** A finish of a row without a slot. *)
Lemma finish_cases {hole} s sl id t st now spend d fl s' x :
  core inv base s sl ((id, t) :: hole) → reapable st = true →
  finish s id st now spend d fl = (s', x) →
  (∃ e, x = Err e ∧ s' = s)
  ∨ (x = Ok tt ∧ core inv base s' sl hole
     ∧ ∀ st', st' ≠ Running → tally inv st' s' = tally inv st' s + (if bool_decide (st' = st) then 1 else 0)).
Proof.
  intros Hc [Ht Hr]%reapable_terminal E. unfold finish in E. rw Ht in E. cbn [negb] in E.
  destruct (secs_i64 now) as [n|e]; [|simplify_eq; left; eauto].
  unfold sql in E. destruct fl as [e|]; [simplify_eq; left; eauto|].
  destruct (core_finish inv base s sl id t st n spend d hole Hc Ht) as (H1 & H2 & H3).
  destruct (update_where _ _ s) as [s1 ch]. cbn [fst snd] in *.
  rw (proj2 (N.eqb_neq ch 0) H3) in E. destruct spend; simplify_eq; (right; by split_and!) || (left; eauto).
Qed.

Lemma wp_reap_one slot c pending r :
  core inv base (run_store r) (slots r) [slot_run slot] → counted inv (run_store r) c pending →
  wp (reap_one config start_unix_secs slot)
    (λ x r', core inv base (run_store r') (slots r') [] ∧ counted inv (run_store r') c (pending ++ [x.2])
             ∧ reapable x.2 = true ∧ frame r r')
    (λ r', core inv base (run_store r') (slots r') [slot_run slot] ∧ frame r r') r.
Proof.
  intros Hc Hk. unfold reap_one. wp_step. wp_step.
  pose proof (arbitrate_reapable a (slot_intent slot)) as Har.
  destruct (arbitrate a (slot_intent slot)) as [[st d] flag]. cbn [fst] in Har.
  wp_step. wp_step. wp_step. apply wp_now_secs; [|done]. intros now.
  destruct (failure_of st d) as [cl np]. wp_step.
  eapply wp_mono; [apply wp_record_task_outcome|..].
  2: { intros r' (Hr & Hf). split; [|done]. destruct Hf as (-> & _ & _). by eapply core_runs. }
  intros ex r1 (Hr & Hf & Hex). cbn [set_world run_store slots counters stopping] in Hr, Hf.
  assert (core inv base (run_store r1) (slots r1) [slot_run slot]) as Hc1.
  { destruct Hf as (-> & _ & _). by eapply core_runs. }
  assert (counted inv (run_store r1) c pending) as Hk1 by by eapply counted_runs.
  assert (reapable (default st ex) = true) as Hre by (destruct Hex as [-> | ->]; done).
  wp_step. apply wp_on_store. intros w' fl s' x E.
  destruct (finish_cases _ _ _ _ _ _ _ _ _ _ _ Hc1 Hre E) as [(e & -> & ->)|(-> & Hc2 & Hk2)].
  - split; [done|]. done.
  - wp_step. fields. split_and!; try done.
    intros st' Hst'. rw (Hk2 st' Hst') (Hk1 st' Hst') count_app count_cons count_nil.
    rw (bool_decide_ext (default st ex = st') (st' = default st ex)); [|by split]. lia.
Qed.

Definition good r : Prop :=
  core inv base (run_store r) (slots r) [] ∧ counted inv (run_store r) (counters r) []
  ∧ len (slots r) ≤ cap.

(** After a failure at most one live row has no slot. *)
Definition stranded r : Prop :=
  ∃ hole, (length hole ≤ 1)%nat ∧ core inv base (run_store r) (slots r) hole ∧ len (slots r) ≤ cap.

Lemma good_stranded r : good r → stranded r.
Proof. intros (Hc & _ & Hl). exists []. split_and!; [cbn; lia|done|done]. Qed.

Lemma wp_reap_loop rest : ∀ kept c pending r,
  slots r = kept ++ rest → core inv base (run_store r) (slots r) [] →
  counted inv (run_store r) c pending → len (slots r) ≤ cap →
  wp (reap_loop config start_unix_secs kept rest)
    (λ l r', core inv base (run_store r') (slots r') [] ∧ counted inv (run_store r') c (pending ++ l.*2)
             ∧ Forall (λ x, reapable x = true) l.*2
             ∧ len (slots r') ≤ len (slots r) ∧ counters r' = counters r ∧ stopping r' = stopping r)
    (λ r', stranded r' ∧ stopping r' = stopping r) r.
Proof.
  induction rest as [|slot rest IH]; intros kept c pending r Hsl Hc Hk Hcap; cbn [reap_loop].
  { wp_step. cbn [fmap list_fmap]. rw app_nil_r. by split_and!. }
  wp_step. wp_step. destruct a; cbn [negb].
  2: { refine (IH (kept ++ [slot]) c pending (set_world w r) _ Hc Hk Hcap). fields. by rw -app_assoc. }
  wp_step. wp_step. wp_step.
  assert (core inv base (run_store r) (kept ++ rest) [slot_run slot]) as Hc1.
  { eapply core_perm; [|exact Hc]. rw Hsl !fmap_app fmap_cons app_nil_r -app_assoc. f_equiv.
    apply Permutation_cons_append. }
  assert (len (kept ++ rest) + 1 = len (slots r)) as Hlen.
  { rw Hsl !len_app len_cons. lia. }
  eapply wp_mono; [apply (wp_reap_one slot c pending); fields; [exact Hc1|exact Hk]|..].
  2: { intros r' (Hc2 & Hf1 & Hf2 & Hf3). fields. rw Hf1 in Hc2. split; [|by rw Hf3].
       exists [slot_run slot]. rw Hf1. split_and!; [done|done|lia]. }
  intros x r1 (Hc2 & Hk2 & Hx & Hf1 & Hf2 & Hf3). fields. wp_step.
  eapply wp_mono; [apply (IH kept c (pending ++ [x.2]) r1 Hf1 Hc2 Hk2); rw Hf1; lia|..].
  - intros l r2 (Hc3 & Hk3 & Hl3 & Hs3 & Hco3 & Hst3). wp_step. cbn [fmap list_fmap].
    rw Hf1 in Hs3. rw Hco3 Hst3 Hf2 Hf3. split_and!; try done.
    + by rw -app_assoc in Hk3.
    + by constructor.
    + lia.
  - intros r2 [? ->]. done.
Qed.

Lemma wp_note_reaps l : ∀ r,
  core inv base (run_store r) (slots r) [] → counted inv (run_store r) (counters r) l.*2 →
  Forall (λ x, reapable x = true) l.*2 → len (slots r) ≤ cap →
  wp (note_reaps l) (λ _ r', good r' ∧ slots r' = slots r ∧ stopping r' = stopping r) (λ _, False) r.
Proof.
  induction l as [|[ev st] l IH]; intros r Hc Hk Hl Hcap; cbn [note_reaps]; [by wp_step|].
  cbn [fmap list_fmap snd] in Hk, Hl. apply Forall_cons in Hl as [Hst Hl].
  do 10 wp_step. eapply wp_mono; [apply IH; fields; try done|done|done]. intros st' Hst'.
  rw (Hk st' Hst') counter_of_note; [|done]. rw count_cons.
  rw (bool_decide_ext (st = st') (st' = st)); [|by split]. lia.
Qed.

Lemma wp_record_reaps r :
  good r →
  wp (record_reaps config start_unix_secs)
    (λ _ r', good r' ∧ len (slots r') ≤ len (slots r) ∧ stopping r' = stopping r)
    (λ r', stranded r' ∧ stopping r' = stopping r) r.
Proof.
  intros (Hc & Hk & Hcap). unfold record_reaps, reap_finished. wp_step. wp_step. wp_step.
  eapply wp_mono; [by apply (wp_reap_loop _ [] (counters r) [])|..]; [|done].
  intros l r1 (Hc1 & Hk1 & Hl1 & Hs1 & Hco1 & Hst1). cbn [app] in Hk1. rw -Hco1 in Hk1.
  eapply wp_mono; [by apply wp_note_reaps; [..|lia]| |done].
  intros _ r2 (Hg & Hs2 & Hst2). rw Hs2 Hst2 Hst1. done.
Qed.

(** Marking a slot keeps its run. *)
Lemma wp_kill_loop predicate intent rest : ∀ done r,
  slots r = done ++ rest →
  wp (kill_loop predicate intent done rest)
    (λ _ r', slot_run <$> slots r' = slot_run <$> slots r ∧ run_store r' = run_store r
             ∧ counters r' = counters r ∧ stopping r' = stopping r) (λ _, False) r.
Proof.
  induction rest as [|slot rest IH]; intros done r Hsl; cbn [kill_loop]; [by wp_step|].
  destruct (predicate slot).
  - do 4 wp_step. eapply wp_mono; [apply IH; fields; by rw -app_assoc| |done].
    intros _ r' (H1 & H2 & H3 & H4). fields. rw H1 H2 H3 H4 Hsl !fmap_app. done.
  - eapply wp_mono; [apply (IH (done ++ [slot])); by rw -app_assoc| |done]. done.
Qed.

Lemma good_slots r r' :
  slot_run <$> slots r' = slot_run <$> slots r → run_store r' = run_store r → counters r' = counters r →
  good r → good r'.
Proof.
  intros Hs Hr Hco (Hc & Hk & Hcap). unfold good. rw Hr Hco. split_and!.
  - eapply core_perm; [|exact Hc]. by rw Hs.
  - done.
  - apply (f_equal length) in Hs. rw !length_fmap in Hs. unfold len in *. by rw Hs.
Qed.

Lemma wp_kill_where predicate intent r :
  good r →
  wp (kill_where predicate intent)
    (λ _ r', good r' ∧ len (slots r') = len (slots r) ∧ stopping r' = stopping r) (λ _, False) r.
Proof.
  intros Hg. unfold kill_where. wp_step. wp_step. wp_step. wp_step.
  eapply wp_mono; [by apply wp_kill_loop|..]; [|done].
  intros _ r' (H1 & H2 & H3 & H4). fields. split_and!; [by eapply good_slots| |done].
  apply (f_equal length) in H1. rw !length_fmap in H1. unfold len. by rw H1.
Qed.

Lemma wp_observe_beats e rest : ∀ done r,
  slots r = done ++ rest →
  wp (observe_beats e done rest)
    (λ l r', slot_run <$> slots r' = slot_run <$> slots r ∧ run_store r' = run_store r
             ∧ counters r' = counters r ∧ stopping r' = stopping r
             ∧ ∀ id b, (id, b) ∈ l → ∃ t, (id, t) ∈ slot_run <$> slots r) (λ _, False) r.
Proof.
  induction rest as [|slot rest IH]; intros done r Hsl; cbn [observe_beats].
  { wp_step. split_and!; try done. by intros id b ?%not_elem_of_nil. }
  assert (slot_run slot ∈ slot_run <$> slots r) as Hin.
  { rw Hsl fmap_app fmap_cons. apply elem_of_app. right. left. }
  wp_step. wp_step. destruct a as [b|].
  - do 3 wp_step. eapply wp_mono; [apply IH; fields; by rw -app_assoc| |done].
    intros l r' (H1 & H2 & H3 & H4 & H5). fields. wp_step.
    assert (slot_run <$> done ++ MkSlot (slot_run_id slot) (slot_task_id slot) (slot_process slot) e
              (started_elapsed slot) (slot_intent slot) :: rest = slot_run <$> slots r) as Heq
      by by rw Hsl !fmap_app.
    rw Heq in H1, H5. split_and!; try done.
    intros id b' [[= -> ->]|Hb]%elem_of_cons; [by exists (slot_task_id slot)|by eapply H5].
  - eapply wp_mono; [apply (IH (done ++ [slot])); fields; by rw -app_assoc| |done].
    intros l r' (H1 & H2 & H3 & H4 & H5). done.
Qed.

Lemma heartbeat_cases s sl id t b n fl s' x :
  core inv base s sl [] → (id, t) ∈ slot_run <$> sl → heartbeat s id b n fl = (s', x) →
  (∃ e, x = Err e ∧ s' = s)
  ∨ (x = Ok tt ∧ core inv base s' sl [] ∧ ∀ st, tally inv st s' = tally inv st s).
Proof.
  intros Hc Hin E. unfold heartbeat in E.
  destruct (result_bind _ _) as [[b' n']|e]; [|simplify_eq; left; eauto].
  unfold sql in E. destruct fl as [e|]; [simplify_eq; left; eauto|].
  destruct (core_heartbeat inv base s sl [] (id, t) b' n' Hc) as (H1 & H2 & H3).
  { by rw app_nil_r. }
  cbn [fst] in *. destruct (update_where _ _ s) as [s1 ch]. cbn [fst snd] in *.
  rw (proj2 (N.eqb_neq ch 0) H3) in E. simplify_eq. right. by split_and!.
Qed.

Lemma wp_persist_beats secs beats : ∀ r,
  good r → (∀ id b, (id, b) ∈ beats → ∃ t, (id, t) ∈ slot_run <$> slots r) →
  wp (persist_beats secs beats) (λ _ r', good r' ∧ frame r r') (λ r', good r' ∧ frame r r') r.
Proof.
  induction beats as [|[id b] beats IH]; intros r Hg Hb; cbn [persist_beats]; [by wp_step|].
  wp_step. apply wp_on_store. intros w fl s' x E. destruct Hg as (Hc & Hk & Hcap).
  destruct (Hb id b) as [t Ht]; [left|].
  destruct (heartbeat_cases _ _ _ _ _ _ _ _ _ Hc Ht E) as [(e & -> & ->)|(-> & Hc' & Htl)]; [done|].
  eapply wp_mono; [apply IH|done|done].
  - split_and!; fields; try done. intros st Hst. by rw Htl (Hk st Hst).
  - intros id' b' Hin. apply (Hb id' b'). by right.
Qed.

(** The slots only shrink, and the stop stays. *)
Lemma wp_supervise r :
  good r →
  wp (supervise config start_unix_secs)
    (λ _ r', good r' ∧ len (slots r') ≤ len (slots r) ∧ stopping r' = stopping r)
    (λ r', stranded r' ∧ stopping r' = stopping r) r.
Proof.
  intros Hg. unfold supervise. wp_step.
  eapply wp_mono; [by apply wp_record_reaps| |done]. intros _ r1 (Hg1 & Hl1 & Hs1).
  do 5 wp_step. eapply wp_mono; [by apply wp_observe_beats| |done].
  intros beats r2 (H1 & H2 & H3 & H4 & H5). fields.
  assert (good r2) as Hg2 by by eapply good_slots.
  assert (len (slots r2) = len (slots r1)) as Hl2.
  { apply (f_equal length) in H1. rw !length_fmap in H1. unfold len. by rw H1. }
  wp_step. apply wp_now_secs; [|by rw H4; auto using good_stranded]. intros secs.
  wp_step. eapply wp_mono; [apply wp_persist_beats; [done|by rw H1]|..].
  2: { intros r3 (Hg3 & _ & _ & Hs3). rw Hs3 H4. auto using good_stranded. }
  intros _ r3 (Hg3 & Hl3 & _ & Hs3). wp_step.
  eapply wp_mono; [by apply wp_kill_where| |done]. intros _ r4 (Hg4 & Hl4 & Hs4). wp_step.
  eapply wp_mono; [by apply wp_kill_where| |done]. intros _ r5 (Hg5 & Hl5 & Hs5).
  eapply wp_mono; [by apply wp_record_reaps|..].
  - intros _ r6 (Hg6 & Hl6 & Hs6). rw Hl3 in Hl4. split_and!; [done|lia|congruence].
  - intros r6 (Hg6 & Hs6). split; [done|congruence].
Qed.

Definition same_stop r r' : Prop := stop (stopping r') = stop (stopping r).

Lemma wp_drain_step r :
  good r →
  wp (drain_step config start_unix_secs)
    (λ _ r', good r' ∧ len (slots r') ≤ len (slots r) ∧ same_stop r r')
    (λ r', stranded r' ∧ same_stop r r') r.
Proof.
  intros Hg. unfold drain_step, same_stop. do 6 wp_step. fields.
  destruct (_ || _); [|by wp_step]. wp_step.
  eapply wp_mono; [apply wp_kill_where; exact Hg| |done]. intros _ r1 (Hg1 & Hl1 & Hs1). fields. wp_step.
  eapply wp_mono; [by apply wp_record_reaps|..].
  2: { intros r2 (Hg2 & Hs2). split; [done|]. by rw Hs2 Hs1. }
  intros _ r2 (Hg2 & Hl2 & Hs2). do 2 wp_step.
  destruct (is_empty (slots r2)); [wp_step; split_and!; [done|lia|by rw Hs2 Hs1]|].
  wp_step. apply wp_dur_add.
  - intros d. wp_step. fields. split_and!; [done|lia|done].
  - split; [by apply good_stranded|]. by rw Hs2 Hs1.
Qed.

(** *** The pass *)

(** Neither the run rows nor what [frame] covers changed. *)
Definition quiet r r' : Prop := frame r r' ∧ run_store r' = run_store r.

Lemma quiet_good r r' : quiet r r' → good r → good r'.
Proof. intros ((H1 & H2 & _) & H3). unfold good. by rw H1 H2 H3. Qed.

Lemma wp_pace_no_spawn e r : wp (pace_no_spawn config e) (λ _ r', quiet r r') (λ _, False) r.
Proof. unfold pace_no_spawn. by do 5 wp_step. Qed.

Lemma wp_record_decision d r :
  wp (record_decision d) (λ x r', sd_decision x = d ∧ quiet r r') (λ r', quiet r r') r.
Proof.
  unfold record_decision. do 4 wp_step. fields.
  destruct (record_spec (decision_store r) d a) as [(now & -> & E)|(e & E & _)]; cbv zeta in E; rw E;
    cbv beta iota; do 2 wp_step; cbn [lift]; by wp_step.
Qed.

Lemma exclude_retries_grows now states acc : excluded acc ⊆ excluded (exclude_retries config now states acc).
Proof.
  revert acc. induction states as [|row states IH]; intros acc; cbn [exclude_retries]; [done|].
  etrans; [|apply IH]. repeat case_match; cbn [excluded]; set_solver.
Qed.

Lemma wp_excluded_tasks now r :
  wp (excluded_tasks config inv now)
    (λ x r', quiet r r' ∧ ∀ t, t ∈ my_tasks inv (run_store r) → t ∈ excluded x) (λ r', quiet r r') r.
Proof.
  unfold excluded_tasks. do 3 wp_step. apply wp_read_store. intros w fl. unfold runs_for_invocation.
  destruct fl; [done|].
  assert (∀ t, t ∈ my_tasks inv (run_store r) → t ∈ (list_to_set (slot_task_id <$> slots r)
    ∪ list_to_set (row_task <$> List.filter (λ x, bool_decide (row_invocation x = inv))
                     (runs (run_store r))) : gset rstr)) as Hin.
  { intros t Ht. apply elem_of_union_r, elem_of_list_to_set. exact Ht. }
  case_match; [|wp_step; done]. wp_step. apply wp_read_store. intros w' fl'. unfold all_task_retry_states.
  destruct fl'; [done|]. wp_step. split; [done|]. intros t Ht. apply exclude_retries_grows. by apply Hin.
Qed.

Lemma wp_kickoff_gate now snapshot excl r :
  wp (kickoff_gate config has_event_source now snapshot excl) (λ _ r', quiet r r') (λ _, False) r.
Proof.
  unfold kickoff_gate. do 3 wp_step. fields.
  assert (∀ p w, wp (let* g := gets gate_state in
    let '(reset, day) := budget_window_reset now (last_pass_day g) in
    let observation :=
      {| ready_ids := list_to_set (List.filter (λ id, negb (bool_decide (id ∈ excl)))
                                     (task_id_of <$> bs_ready snapshot));
         previous_ready_ids := g_previous_ready_ids g; previous_blocked_ids := g_previous_blocked_ids g;
         ob_slot_released := slot_released_since_pass g; ob_budget_window_reset := reset;
         external_events := p |} in
    let fired := evaluate (kickoff config) observation in
    put_gate (MkGateState (ready_ids observation)
                (list_to_set (task_id_of <$> bs_blocked_candidates snapshot)) false day) ;;
    if negb (negb (is_empty (slots r))) && negb (kick_off fired) then ret (Skipped observation)
    else ret (Proceed p)) (λ _ r', quiet r r') (λ _, False) (set_world w r)) as Hrest.
  { intros p w. do 2 wp_step. unfold budget_window_reset. cbv zeta. do 2 wp_step. by case_match; wp_step. }
  case_match; [wp_step; apply Hrest|]. wp_step. specialize (Hrest [] (world r)). by destruct r.
Qed.

Lemma wp_declare_stop reason r :
  wp (declare_stop config reason)
    (λ _ r', slots r' = slots r ∧ counters r' = counters r ∧ run_store r' = run_store r)
    (λ r', slots r' = slots r ∧ counters r' = counters r ∧ run_store r' = run_store r) r.
Proof. unfold declare_stop. do 7 wp_step. apply wp_dur_add; [|done]. intros d. by wp_step. Qed.

Lemma wp_consult snapshot r :
  wp (consult task_selector snapshot) (λ _ r', quiet r r') (λ _, False) r.
Proof.
  unfold consult. case_match; [|by wp_step]. case_match; [by wp_step|]. wp_step. wp_step. by wp_step.
Qed.

Lemma start_cases s sl req fl rf s' x :
  core inv base s sl [] → sr_invocation req = inv → sr_task req ∉ my_tasks inv s →
  start s req fl rf = (s', x) →
  (∃ e, x = Err e ∧ s' = s)
  ∨ ∃ row, row_task row = sr_task req ∧ core inv base s' sl [(row_id row, row_task row)]
    ∧ (∀ st, st ≠ Running → tally inv st s' = tally inv st s) ∧ (x = Ok row ∨ ∃ e, x = Err e).
Proof.
  intros Hc Hinv Ht E. unfold start in E.
  destruct (result_bind _ _) as [[num st]|e]; [|simplify_eq; left; eauto].
  unfold sql in E. destruct fl as [e|]; [simplify_eq; left; eauto|]. right.
  match type of E with (?s1, _) = _ => match s1 with MkLoopRunStore (_ ++ [?row]) _ => set (row0 := row) in E end end.
  exists row0. split; [done|].
  destruct (core_start inv base s sl row0 Hc) as [H1 H2]; try done.
  unfold run_by_id in E. cbn [runs] in E. change (next_rowid (row_id <$> runs s)) with (row_id row0) in E.
  rw (find_fresh row_id (runs s) row0) in E.
  - destruct rf; simplify_eq; (split; [done|split; [done|]]); [right; eauto|by left].
  - intros y Hy. apply next_rowid_fresh. by apply list_elem_of_fmap_2.
Qed.

Lemma wp_spawn_selected did task e now r :
  good r → len (slots r) < cap → st_task_id task ∉ my_tasks inv (run_store r) →
  wp (spawn_selected config inv sql_sum did task e now) (λ _ r', good r') stranded r.
Proof.
  intros Hg Hlt Hnew. unfold spawn_selected. wp_step. apply wp_read_store. intros w fl.
  destruct (daily_spend sql_sum (run_store r) now fl); [|by apply good_stranded].
  do 3 wp_step. apply wp_on_store. intros w1 fl1 s' x E. fields. destruct Hg as (Hc & Hk & Hcap).
  destruct (start_cases _ _ (MkStartRun inv did (st_task_id task) (st_repo task) (st_number task) now)
              _ _ _ _ Hc eq_refl Hnew E) as [(er & -> & ->)|(row & Hrt & Hc1 & Hk1 & Hx)].
  { by apply good_stranded. }
  assert (stranded (set_store w1 s' (set_world w0 (set_world w r)))) as Hstr.
  { exists [(row_id row, row_task row)]. by split_and!. }
  destruct Hx as [-> | (er & ->)]; [|done]. clear E.
  do 2 wp_step. destruct a0 as [process|err].
  - do 9 wp_step. fields. split_and!.
    + eapply core_perm; [|exact Hc1]. rw fmap_app app_nil_r. cbn [fmap list_fmap slot_run slot_run_id slot_task_id].
      by rw Hrt.
    + intros st Hst. rw (Hk1 st Hst) (Hk st Hst). by destruct (counters r), st.
    + rw len_app len_cons len_nil. lia.
  - destruct err as [| tid message| |]; [by wp_step| |by wp_step..]. wp_step.
    eapply wp_mono; [apply wp_record_task_outcome|..].
    2: { intros r' (Hr & Hf1 & _ & _). fields. exists [(row_id row, row_task row)]. rw Hf1.
         split_and!; [done|by eapply core_runs|done]. }
    intros ex r1 (Hr & (Hf1 & Hf2 & Hf3) & Hex). fields.
    assert (core inv base (run_store r1) (slots r1) [(row_id row, row_task row)]) as Hc2.
    { rw Hf1. by eapply core_runs. }
    assert (reapable (default Failed ex) = true) as Hre by (destruct Hex as [-> | ->]; done).
    wp_step. apply wp_on_store. intros w3 fl3 s3 x3 E3.
    destruct (finish_cases _ _ _ _ _ _ _ _ _ _ _ Hc2 Hre E3) as [(er & -> & ->)|(-> & Hc3 & Hk3)].
    { exists [(row_id row, row_task row)]. fields. rw Hf1 in Hc2 |- *. by split_and!. }
    repeat wp_step. fields. eapply wp_mono; [apply wp_pace_no_spawn| |done].
    intros ? r4 Hq. eapply quiet_good; [exact Hq|]. clear Hq. split_and!; fields; [done| |by rw Hf1].
    intros st Hst. rw counter_of_note; [|by destruct Hex as [-> | ->]].
    assert (tally inv st (run_store r1) = counter_of (counters r) st) as Htl.
    { unfold tally. rw Hr. fold (tally inv st s'). rw (Hk1 st Hst) (Hk st Hst) count_nil. lia. }
    rw (Hk3 st Hst) Htl Hf2 count_nil N.add_0_r. by destruct Hex as [-> | ->].
Qed.

Lemma append_budget_skips_selected d l : selected (append_budget_skips d l) = selected d.
Proof. unfold append_budget_skips. by case_match. Qed.

Lemma wp_plan_and_spawn e now snapshot r :
  good r → len (slots r) < cap →
  wp (plan_and_spawn config inv routing task_selector has_event_source format2 sql_sum e now snapshot)
    (λ _ r', good r') stranded r.
Proof.
  intros Hg Hlt. unfold plan_and_spawn. wp_step.
  eapply wp_mono; [apply wp_excluded_tasks|..].
  2: { intros r' Hq. by eapply good_stranded, quiet_good. }
  intros x r1 [Hq1 Hex]. do 5 wp_step. fields.
  assert (good r1) as Hg1 by by eapply quiet_good.
  destruct Hq1 as [(Hs1 & _ & _) Hr1]. rw -Hr1 in Hex. rw -Hs1 in Hlt.
  match goal with |- wp _ _ _ ?r => assert (good r) as Hg2 end.
  { destruct Hg1 as (Hc & Hk & Hcap). by split_and!. }
  eapply wp_mono; [apply wp_kickoff_gate| |done]. intros gate r3 Hq3.
  pose proof (quiet_good _ _ Hq3 Hg2) as Hg3. destruct Hq3 as [(Hs3 & _ & _) Hr3]. fields.
  rw -Hr3 in Hex. rw -Hs3 in Hlt. clear dependent r1. destruct gate as [peeked|o].
  2: { wp_step. unfold record_kickoff_skip. wp_step.
       eapply wp_mono; [apply wp_record_decision|..].
       2: { intros r' Hq. by eapply good_stranded, quiet_good. }
       intros d r4 [_ Hq4]. do 4 wp_step. eapply wp_mono; [apply wp_pace_no_spawn| |done].
       intros ? r5 Hq5. wp_step. eapply quiet_good; [exact Hq5|]. by eapply quiet_good in Hq4. }
  wp_step. eapply wp_mono; [apply wp_consult| |done]. intros sel r4 Hq4.
  pose proof (quiet_good _ _ Hq4 Hg3) as Hg4. destruct Hq4 as [(Hs4 & _ & _) Hr4].
  rw -Hr4 in Hex. rw -Hs4 in Hlt. wp_step.
  eapply wp_mono; [apply wp_record_decision|..].
  2: { intros r' Hq. by eapply good_stranded, quiet_good. }
  intros stored r5 [Hd Hq5]. pose proof (quiet_good _ _ Hq5 Hg4) as Hg5.
  destruct Hq5 as [(Hs5 & _ & _) Hr5]. rw -Hr5 in Hex. rw -Hs5 in Hlt. do 3 wp_step.
  match goal with |- wp (if ?b then _ else _) _ _ ?r =>
    assert (wp (if b then tell (λ w, w_drain_events w peeked) else ret tt)
              (λ _ r', quiet r5 r') (λ _, False) r) as Hdr by (destruct b; by wp_step) end.
  eapply wp_mono; [exact Hdr| |done]. intros ? r6 Hq6.
  pose proof (quiet_good _ _ Hq6 Hg5) as Hg6. destruct Hq6 as [(Hs6 & _ & _) Hr6].
  destruct (selected (sd_decision stored)) as [task|] eqn:Esel.
  - wp_step. eapply wp_mono; [apply wp_spawn_selected; [done|by rw Hs6|]| |done].
    + rw Hd append_budget_skips_selected in Esel. apply selected_ready in Esel as (item & Hin & ->).
      cbn [set_ready bs_ready] in Hin. apply elem_of_filter_bool in Hin as [_ Hn]. bool_simpl.
      rw Hr6. intros Ht. by apply Hn, Hex.
    + intros ? r7 Hg7. by wp_step.
  - wp_step. eapply wp_mono; [apply wp_pace_no_spawn| |done]. intros ? r7 Hq7. wp_step.
    exact (quiet_good _ _ Hq7 Hg6).
Qed.

Lemma good_eq r r' :
  slots r' = slots r → counters r' = counters r → run_store r' = run_store r → good r → good r'.
Proof. intros H1 H2 H3. unfold good. by rw H1 H2 H3. Qed.

Lemma wp_declare_stop_good reason b r :
  good r → wp (declare_stop config reason ;; ret (b : bool)) (λ _ r', good r') stranded r.
Proof.
  intros Hg. wp_step. eapply wp_mono; [apply wp_declare_stop|..].
  - intros ? r' (H1 & H2 & H3). wp_step. by eapply good_eq.
  - intros r' (H1 & H2 & H3). by eapply good_stranded, good_eq.
Qed.

Lemma wp_pass e r :
  good r →
  wp (pass config inv routing start_unix_secs task_selector has_event_source format2 sql_sum e)
    (λ _ r', good r') stranded r.
Proof.
  intros Hg. unfold pass. do 4 wp_step. destruct (_ || _ || _) eqn:Eg; [by wp_step|].
  apply orb_false_iff in Eg as [[Hlt%N.leb_gt _]%orb_false_iff _]. do 8 wp_step.
  match goal with |- wp _ _ _ ?r => assert (good r) as Hg1 end.
  { destruct Hg as (Hc & Hk & Hcap). split_and!; [done| |done]. intros st Hst. fields. rw (Hk st Hst). by destruct st. }
  match goal with |- wp _ _ _ ?r => assert (len (slots r) < cap) as Hlt1 by done end.
  destruct a as [snapshot|message| |].
  - do 2 wp_step. case_match; [by apply wp_declare_stop_good|]. do 2 wp_step.
    case_match; [by apply wp_declare_stop_good|]. do 3 wp_step. apply wp_now_secs; [|by apply good_stranded].
    intros now. by apply wp_plan_and_spawn.
  - do 9 wp_step. eapply wp_mono; [apply wp_pace_no_spawn| |done]. intros ? r2 Hq. wp_step.
    eapply quiet_good; [exact Hq|]. destruct Hg1 as (Hc & Hk & Hcap). split_and!; [done| |done].
    intros st Hst. fields. rw (Hk st Hst). by destruct st.
  - do 2 wp_step. by apply wp_declare_stop_good.
  - by apply wp_declare_stop_good.
Qed.

Lemma wp_apply_signal e r :
  wp (apply_signal config e)
    (λ _ r', slots r' = slots r ∧ counters r' = counters r ∧ run_store r' = run_store r)
    (λ r', slots r' = slots r ∧ counters r' = counters r ∧ run_store r' = run_store r) r.
Proof.
  unfold apply_signal. do 2 wp_step. repeat case_match; try (by wp_step).
  all: wp_step; apply wp_dur_add; [|done]; intros d; by wp_step.
Qed.

Lemma wp_wait_tick r : good r → wp (wait_tick config) (λ _ r', good r') stranded r.
Proof.
  intros Hg. unfold wait_tick. do 4 wp_step. destruct (signal_source_gone r); [by wp_step|]. destruct a; [by wp_step| |by wp_step].
  do 4 wp_step. eapply wp_mono; [apply wp_apply_signal|..].
  - intros ? r' (Hs1 & Hs2 & Hs3). by eapply good_eq.
  - intros r' (Hs1 & Hs2 & Hs3). by eapply good_stranded, good_eq.
Qed.

Lemma wp_loop_body r :
  good r →
  wp (loop_body config inv routing start_unix_secs task_selector has_event_source format2 sql_sum)
    (λ broke r', good r' ∧ (broke = true → slots r' = [] ∧ is_Some (stop (stopping r')))) stranded r.
Proof.
  intros Hg. unfold loop_body. do 3 wp_step. apply wp_now_secs; [|by apply good_stranded]. intros now.
  wp_step. eapply wp_mono; [by apply wp_supervise|..]; [|by intros r' [? _]].
  intros _ r1 (Hg1 & _ & _). do 2 wp_step. wp_step.
  apply (wp_mono _ (λ broke r', good r' ∧ (broke = true → slots r' = [] ∧ is_Some (stop (stopping r'))))
           _ stranded); [| |done].
  - destruct (stop (stopping r1)) eqn:Est.
    + wp_step. eapply wp_mono; [by apply wp_drain_step|..]; [|by intros r' [? _]].
      intros _ r2 (Hg2 & _ & Hs2). do 3 wp_step. split; [done|]. intros He.
      split; [by destruct (slots r2)|]. by rw Hs2 Est.
    + case_match; [wp_step; apply wp_dur_add; [intros; by do 2 wp_step|by apply good_stranded]|].
      wp_step. apply wp_read_store. intros w' fl.
      destruct (daily_spend sql_sum (run_store r1) now fl); [|by apply good_stranded].
      case_match; [by do 2 wp_step|]. do 2 wp_step.
      case_match; [wp_step; apply wp_dur_add; [intros; by do 2 wp_step|by apply good_stranded]|].
      wp_step. eapply wp_mono; [by apply wp_pass| |done]. intros consumed r2 Hg2.
      destruct consumed; by do 2 wp_step.
  - intros broke r2 [Hg2 Hb]. destruct broke; [by wp_step|]. wp_step.
    eapply wp_mono; [by apply wp_wait_tick| |done]. intros ? r3 Hg3. by wp_step.
Qed.

Lemma wp_run_loop fuel : ∀ r,
  good r →
  wp (run_loop config inv routing start_unix_secs task_selector has_event_source format2 sql_sum fuel)
    (λ _ r', good r' ∧ slots r' = [] ∧ is_Some (stop (stopping r'))) stranded r.
Proof.
  induction fuel as [|fuel IH]; intros r Hg; cbn [run_loop]; [by apply good_stranded|].
  wp_step. eapply wp_mono; [by apply wp_loop_body| |done]. intros broke r1 [Hg1 Hb].
  destruct broke; [wp_step; split; [done|by apply Hb]|by apply IH].
Qed.

(** *** The fatal exit *)

(** The terminal write of a swept slot, whose stamp is clamped. *)
Lemma sweep_finish s id t hole n fl :
  core inv base s [] ((id, t) :: hole) →
  core inv base (finish s id AbortedShutdown (N.min n i64_max) f64_zero
                   (lit "unattributed-drain-abort") fl).1 []
    ((if fl is Some _ then [(id, t)] else []) ++ hole).
Proof.
  intros Hc. unfold finish. cbn [is_terminal negb]. unfold secs_i64.
  rw (proj2 (N.leb_le _ _) (N.le_min_r n i64_max)). unfold sql. destruct fl as [e|]; [done|]. cbn [app].
  destruct (core_finish inv base s [] id t AbortedShutdown (N.min n i64_max) f64_zero
    (lit "unattributed-drain-abort") hole Hc eq_refl) as (H1 & _ & Hn).
  destruct (update_where _ _ s) as [s1 ch]. cbn [fst snd] in *. by rw (proj2 (N.eqb_neq ch 0) Hn).
Qed.

Lemma wp_sweep sl : ∀ hole r,
  core inv base (run_store r) [] ((slot_run <$> sl) ++ hole) → slots r = [] →
  wp (sweep start_unix_secs sl)
    (λ _ r', slots r' = [] ∧ ∃ hole', core inv base (run_store r') [] hole') (λ _, False) r.
Proof.
  induction sl as [|slot sl IH]; intros hole r Hc Hs; cbn [sweep].
  { wp_step. eauto. }
  do 5 wp_step. apply wp_ask. intros w1 fl Hfl. do 8 wp_step. fields.
  pose proof (sweep_finish _ _ _ _ (if start_unix_secs + as_secs a0 <=? u64_max then
      start_unix_secs + as_secs a0 else i64_max) fl Hc) as Hc'.
  apply (IH ((if fl is Some _ then [slot_run slot] else []) ++ hole)); fields; [|done].
  eapply core_perm; [|exact Hc']. cbn [fmap list_fmap app]. apply Permutation_app_swap_app.
Qed.

(** After a fatal exit no slot is left. *)
Lemma wp_fatal_exit r :
  stranded r →
  wp (fatal_exit start_unix_secs)
    (λ _ r', slots r' = [] ∧ ∃ hole, core inv base (run_store r') [] hole) (λ _, False) r.
Proof.
  intros (hole & Hh & Hc & _). unfold fatal_exit. do 2 wp_step.
  destruct (slots r) as [|s0 sl0] eqn:Es; cbn [is_empty]; [wp_step; eauto|]. rw -Es in Hc.
  unfold kill_where. do 5 wp_step. eapply wp_mono; [by apply wp_kill_loop| |done].
  intros _ r1 (H1 & H2 & _ & _). fields. do 4 wp_step. fields.
  apply (wp_sweep _ hole); fields; [|done]. eapply core_perm; [|rw H2; exact Hc]. by rw H1.
Qed.
End specs.
