(* ===== verification/LoopSafe.v ===== *)
(** * What a loop run guarantees

    The theorems on [LoopRun.run], for every world, every configuration and
    every number of iterations, from the lemmas of [LoopCorrect].  A run cut
    off by fuel is a run observed at an iteration boundary, so a statement
    over every [fuel] and every outcome speaks of each of them. *)

From S2P Require Import Prelude BTree Text Time Board Campaign RunState Kickoff LoopRun LoopCorrect.

(** ** A sealed intake *)

Section sealed.
Context {W : Type} `{World W}.
Context (config : LoopConfig) (inv : rstr) (routing : RoleRoutingDecision) (start_unix_secs : N)
  (task_selector : option rstr) (has_event_source : bool) (format2 : f64 → rstr)
  (sql_sum : list f64 → f64).
Implicit Types r : Runner W.

(** The rows by the columns fixed at their insert. *)
Definition row_ids r := row_identity <$> runs (run_store r).

(** No row was inserted or dropped, and a declared stop is the same. *)
Definition steady r r' : Prop :=
  row_ids r' = row_ids r ∧ (is_Some (stop (stopping r)) → stop (stopping r') = stop (stopping r)).

#[local] Instance steady_preorder : PreOrder steady.
Proof.
  split; [done|]. intros r1 r2 r3 [H1 H2] [H3 H4]. split; [congruence|]. intros Hs.
  rw H4; [by apply H2|]. by rw (H2 Hs).
Qed.

Definition keeps {A} (m : M W A) : Prop := ∀ r, steady r (m r).1.

Lemma keeps_wp {A} (m : M W A) : (∀ r, wp m (λ _, steady r) (steady r) r) → keeps m.
Proof. intros Hm r. specialize (Hm r). unfold wp in Hm. by destruct (m r) as [r' []]. Qed.

Lemma wp_keeps {A} (m : M W A) r : keeps m → wp m (λ _, steady r) (steady r) r.
Proof. intros Hm. specialize (Hm r). unfold wp. by destruct (m r) as [r' []]. Qed.

Lemma keeps_bind {A B} (m : M W A) (k : A → M W B) : keeps m → (∀ a, keeps (k a)) → keeps (bind m k).
Proof.
  intros Hm Hk r. specialize (Hm r). unfold bind. destruct (m r) as [r' [a|e| |]]; try done.
  etrans; [exact Hm|apply Hk].
Qed.

Lemma keeps_ask {A} (f : W → W * A) : keeps (ask f).
Proof. apply keeps_wp. intros r. by wp_step. Qed.

Lemma keeps_on_store {A} (f : LoopRunStore → fault → LoopRunStore * result A CampaignError) :
  (∀ s fl, row_identity <$> runs (f s fl).1 = row_identity <$> runs s) → keeps (on_store f).
Proof.
  intros Hf. apply keeps_wp. intros r. apply wp_on_store. intros w fl s' x E.
  specialize (Hf (run_store r) fl). rw E in Hf. destruct x; by split.
Qed.

Lemma keeps_read_store {A} (f : LoopRunStore → fault → result A CampaignError) : keeps (read_store f).
Proof. apply keeps_wp. intros r. apply wp_read_store. intros w fl. by destruct (f _ _). Qed.

Lemma keeps_now_secs e : keeps (now_secs start_unix_secs e).
Proof. intros r. unfold now_secs. by case_match. Qed.

Lemma keeps_dur_add a b : keeps (dur_add a b).
Proof. intros r. unfold dur_add. by case_match. Qed.

Lemma update_where_ids P g s :
  (∀ x, row_identity (g x) = row_identity x) →
  row_identity <$> runs (update_where P g s).1 = row_identity <$> runs s.
Proof.
  intros Hg. unfold update_where. cbn [fst runs]. rw -list_fmap_compose. apply list_fmap_ext.
  intros i x _. cbn. case_match; [apply Hg|done].
Qed.

Lemma finish_ids s id st n sp d fl :
  row_identity <$> runs (finish s id st n sp d fl).1 = row_identity <$> runs s.
Proof.
  unfold finish, sql. repeat case_match; try done.
  all: match goal with E : update_where ?P ?g ?s = _ |- _ =>
         pose proof (update_where_ids P g s) as Hu; rw E in Hu; cbn [fst] in *; by apply Hu end.
Qed.

Lemma heartbeat_ids s id b n fl : row_identity <$> runs (heartbeat s id b n fl).1 = row_identity <$> runs s.
Proof.
  unfold heartbeat, sql. repeat case_match; try done.
  all: match goal with E : update_where ?P ?g ?s = _ |- _ =>
         pose proof (update_where_ids P g s) as Hu; rw E in Hu; cbn [fst] in *; by apply Hu end.
Qed.

Lemma record_task_failure_ids s t c np b f :
  row_identity <$> runs (record_task_failure s t c np b f).1 = row_identity <$> runs s.
Proof.
  destruct (record_task_failure s t c np b f) as [s' x] eqn:E.
  apply record_task_failure_runs in E. cbn [fst]. by rw E.
Qed.

Lemma record_task_success_ids s t f :
  row_identity <$> runs (record_task_success s t f).1 = row_identity <$> runs s.
Proof.
  destruct (record_task_success s t f) as [s' x] eqn:E.
  apply record_task_success_runs in E. cbn [fst]. by rw E.
Qed.

Ltac keep :=
  repeat lazymatch goal with
  | |- keeps (bind _ _) => apply keeps_bind; [|intros ?]
  | |- keeps (ask _) => apply keeps_ask
  | |- keeps elapsed => apply keeps_ask
  | |- keeps (now_secs _ _) => apply keeps_now_secs
  | |- keeps (dur_add _ _) => apply keeps_dur_add
  | |- keeps (read_store _) => apply keeps_read_store
  | |- keeps (on_store _) => apply keeps_on_store; intros ? ?
  | |- keeps (match ?x with _ => _ end) => destruct x
  | |- keeps _ => solve [auto | by intros ?]
  | |- _ => auto using finish_ids, heartbeat_ids, record_task_failure_ids, record_task_success_ids
  end.

Lemma keeps_record_task_outcome t st c np now : keeps (record_task_outcome config t st c np now).
Proof. unfold record_task_outcome. keep. Qed.
Hint Resolve keeps_record_task_outcome : core.

Lemma keeps_reap_one slot : keeps (reap_one config start_unix_secs slot).
Proof. unfold reap_one. keep. Qed.
Hint Resolve keeps_reap_one : core.

Lemma keeps_reap_loop rest : ∀ kept, keeps (reap_loop config start_unix_secs kept rest).
Proof. induction rest; intros kept; cbn [reap_loop]; keep. Qed.
Hint Resolve keeps_reap_loop : core.

Lemma keeps_note_reaps l : keeps (note_reaps l).
Proof. induction l as [|[ev st] l IH]; cbn [note_reaps]; keep. Qed.
Hint Resolve keeps_note_reaps : core.

Lemma keeps_record_reaps : keeps (record_reaps config start_unix_secs).
Proof. unfold record_reaps, reap_finished. keep. Qed.
Hint Resolve keeps_record_reaps : core.

Lemma keeps_kill_loop p i rest : ∀ done, keeps (kill_loop p i done rest).
Proof. induction rest; intros done; cbn [kill_loop]; keep. Qed.
Hint Resolve keeps_kill_loop : core.

Lemma keeps_kill_where p i : keeps (kill_where p i).
Proof. unfold kill_where. keep. Qed.
Hint Resolve keeps_kill_where : core.

Lemma keeps_observe_beats e rest : ∀ done, keeps (observe_beats e done rest).
Proof. induction rest; intros done; cbn [observe_beats]; keep. Qed.
Hint Resolve keeps_observe_beats : core.

Lemma keeps_persist_beats secs l : keeps (persist_beats secs l).
Proof. induction l as [|[id b] l IH]; cbn [persist_beats]; keep. Qed.
Hint Resolve keeps_persist_beats : core.

Lemma keeps_supervise : keeps (supervise config start_unix_secs).
Proof. unfold supervise. keep. Qed.

Lemma keeps_drain_step : keeps (drain_step config start_unix_secs).
Proof.
  apply keeps_wp. intros r. unfold drain_step. do 6 wp_step. fields. destruct (_ || _); [|by wp_step].
  wp_step. eapply wp_mono; [apply wp_keeps, keeps_kill_where| |done]. intros ? r1 H1. wp_step.
  eapply wp_mono; [apply wp_keeps, keeps_record_reaps| |].
  2: { intros r2 H2. etrans; [exact H1|exact H2]. }
  intros ? r2 H2. assert (steady r r2) as Hs by (etrans; [exact H1|exact H2]).
  do 2 wp_step. case_match; [by wp_step|]. wp_step. apply wp_dur_add; [|done]. intros d. wp_step.
  fields. split; [apply Hs|done].
Qed.

Lemma keeps_wait_tick : keeps (wait_tick config).
Proof.
  unfold wait_tick. keep. apply keeps_wp. intros r. unfold apply_signal. do 2 wp_step.
  destruct (stop (stopping r)) as [[]|] eqn:Es.
  all: repeat (first [by wp_step|wp_step; apply wp_dur_add; [intros d|done]]).
  all: wp_step; fields; split; [done|]; rw Es; try done; by intros [].
Qed.

Abbreviation body :=
  (loop_body config inv routing start_unix_secs task_selector has_event_source format2 sql_sum).
Abbreviation loop :=
  (run_loop config inv routing start_unix_secs task_selector has_event_source format2 sql_sum).

(** An iteration under a declared stop. *)
Lemma loop_body_sealed r : is_Some (stop (stopping r)) → steady r (body r).1.
Proof.
  intros Hs. enough (wp body (λ _, steady r) (steady r) r) as Hw.
  { unfold wp in Hw. by destruct (body r) as [r' []]. }
  unfold loop_body. do 3 wp_step. apply wp_now_secs; [|done]. intros now. wp_step.
  eapply wp_mono; [apply wp_keeps, keeps_supervise| |done]. intros ? r1 H1. do 3 wp_step.
  assert (is_Some (stop (stopping r1))) as [reason Er] by (destruct H1 as [_ H1]; by rw H1).
  rw Er. wp_step. eapply wp_mono; [apply wp_keeps, keeps_drain_step| |].
  2: { intros r2 H2. etrans; [exact H1|exact H2]. }
  intros ? r2 H2. assert (steady r r2) as H12 by (etrans; [exact H1|exact H2]). do 3 wp_step.
  case_match; [by wp_step|]. wp_step. eapply wp_mono; [apply wp_keeps, keeps_wait_tick| |].
  - intros ? r3 H23. wp_step. etrans; [exact H12|exact H23].
  - intros r3 H23. etrans; [exact H12|exact H23].
Qed.

(** Once a stop is declared the intake is sealed: however many iterations
    the drain takes and whatever the world answers meanwhile, no run row is
    inserted or dropped, no row's identity (task, issue, decision, start)
    changes, and the declared reason is the one the run will report; a later
    signal only moves the drain deadline and the recorded drain reason. *)
Theorem stop_seals_intake r fuel :
  is_Some (stop (stopping r)) →
  row_identity <$> runs (run_store (loop fuel r).1) = row_identity <$> runs (run_store r)
  ∧ stop (stopping (loop fuel r).1) = stop (stopping r).
Proof.
  revert r. induction fuel as [|fuel IH]; intros r Hs; cbn [run_loop]; [done|].
  pose proof (loop_body_sealed r Hs) as [H1 H2]. specialize (H2 Hs). unfold bind.
  destruct (body r) as [r' [[]|e| |]]; try done. cbn [fst] in *.
  rw -H2 in Hs. destruct (IH r' Hs) as [H3 H4]. by rw H3 H4.
Qed.

(** ** The run *)

Abbreviation full_run :=
  (run config inv routing start_unix_secs task_selector has_event_source format2 sql_sum).

(** Nothing of this invocation is in the store. *)
Definition unseen (s : LoopRunStore) : Prop := List.filter (mine inv) (runs s) = [].

Lemma fresh_good w rs ds day :
  store_wf rs → unseen rs → good config inv (runs rs) (fresh w rs ds day : Runner W).
Proof.
  intros Hw Hu. assert (∀ x, x ∈ runs rs → mine inv x = false) as Hf.
  { intros x Hx. apply not_true_iff_false. intros Hm. apply (not_elem_of_nil x). rw -Hu.
    by apply elem_of_filter_bool. }
  split_and!; [split|..]; cbn [run_store slots counters fresh].
  - done.
  - unfold live_runs. assert (List.filter (live inv) (runs rs) = []) as ->; [|done].
    apply filter_none. intros x Hx. unfold live. by rw (Hf x Hx).
  - unfold my_tasks. rw Hu. apply NoDup_nil_2.
  - unfold foreign_rows. apply filter_all. intros x Hx. by rw (Hf x Hx).
  - intros st _. unfold tally. rw count_nil (proj2 (count_0 _ _)); [by destruct st|].
    intros x Hx. by rw (Hf x Hx).
  - rw len_nil. apply N.le_0_l.
Qed.

(** What the loop leaves, by outcome. *)
Lemma loop_outcome fuel w rs ds day :
  store_wf rs → unseen rs →
  match loop fuel (fresh w rs ds day) with
  | (r, ROk _) => good config inv (runs rs) r ∧ slots r = [] ∧ is_Some (stop (stopping r))
  | (r, _) => stranded config inv (runs rs) r
  end.
Proof.
  intros Hw Hu. pose proof (wp_run_loop config inv routing start_unix_secs task_selector has_event_source
    format2 sql_sum (runs rs) fuel (fresh w rs ds day) (fresh_good w rs ds day Hw Hu)) as Hl.
  unfold wp in Hl. by destruct (loop fuel (fresh w rs ds day)) as [r []].
Qed.

Lemma run_unfold fuel r :
  full_run fuel r =
  match LoopConfig_validate config with
  | Err e => (r, RErr e)
  | Ok _ =>
      match loop fuel r with
      | (r', RErr error) => ((fatal_exit start_unix_secs r').1, RErr error)
      | (r', RPanic) => (r', RPanic)
      | (r', RFuel) => (r', RFuel)
      | (r', ROk _) =>
          let '(w, e) := w_clock (world r') in
          (set_world w r', ROk (MkLoopSummary (default Shutdown (stop (stopping r'))) (counters r')
                                  (as_secs e) (last_pass_day (gate_state r')) (events r')))
      end
  end.
Proof.
  unfold run, lift, bind. destruct (LoopConfig_validate config); [|done]. unfold ret.
  destruct (loop fuel r) as [r' [a|e| |]]; try done.
  - unfold elapsed, ask, bind, gets, put_world, ret. by destruct (w_clock (world r')).
  - by destruct (fatal_exit start_unix_secs r').
Qed.

(** C2. Safety of the whole run, in every world and at every iteration: the
    run never holds more workers than the concurrency cap, starts at most one
    run per task in an invocation, leaves the rows of other invocations
    exactly as it found them, and keeps the table well formed (ids ascending,
    a terminal row stamped and a running one not); whether it ends in a
    summary, a fatal error, an arithmetic panic or is still going. *)
Theorem run_is_safe fuel w rs ds day :
  store_wf rs → unseen rs →
  let r := (full_run fuel (fresh w rs ds day)).1 in
  len (slots r) ≤ max_concurrent_workers (budgets config)
  ∧ NoDup (my_tasks inv (run_store r))
  ∧ foreign_rows inv (run_store r) = runs rs
  ∧ store_wf (run_store r).
Proof.
  intros Hw Hu. cbv zeta. rw run_unfold.
  assert (∀ r, stranded config inv (runs rs) r →
    len (slots r) ≤ max_concurrent_workers (budgets config) ∧ NoDup (my_tasks inv (run_store r))
    ∧ foreign_rows inv (run_store r) = runs rs ∧ store_wf (run_store r)) as Hst.
  { intros r (hole & _ & [] & Hcap). by split_and!. }
  destruct (LoopConfig_validate config).
  2: { apply Hst, good_stranded. by apply fresh_good. }
  pose proof (loop_outcome fuel w rs ds day Hw Hu) as Hl.
  destruct (loop fuel (fresh w rs ds day)) as [r [u|e| |]]; cbn [fst]; [|..|by apply Hst|by apply Hst].
  - destruct (w_clock (world r)) as [w' e']. cbn [fst]. apply (Hst (set_world w' r)), good_stranded, Hl.
  - pose proof (wp_fatal_exit config inv start_unix_secs (runs rs) r Hl) as Hf. unfold wp in Hf.
    destruct (fatal_exit start_unix_secs r) as [r' [u'|e'| |]]; try done. cbn [fst].
    destruct Hf as [Hs (hole & [])]. rw Hs. split_and!; try done. rw len_nil. apply N.le_0_l.
Qed.

(** C7. The summary of a run that returns accounts for every row it wrote: no
    worker is left and no row of the invocation is running, each counter of
    the summary is the number of rows that ended with that status, and the
    reason is the stop that was declared. *)
Theorem summary_accounts fuel w rs ds day r summary :
  store_wf rs → unseen rs →
  full_run fuel (fresh w rs ds day) = (r, ROk summary) →
  slots r = [] ∧ live_runs inv (run_store r) = []
  ∧ (∀ st, st ≠ Running → tally inv st (run_store r) = counter_of (ls_counters summary) st)
  ∧ stop (stopping r) = Some (ls_stop_reason summary).
Proof.
  intros Hw Hu E. rw run_unfold in E. destruct (LoopConfig_validate config); [|done].
  pose proof (loop_outcome fuel w rs ds day Hw Hu) as Hl.
  destruct (loop fuel (fresh w rs ds day)) as [r0 [u|e| |]]; try done.
  destruct Hl as ((Hc & Hk & _) & Hs & [reason Er]). destruct (w_clock (world r0)) as [w' e'].
  injection E as <- <-. cbn [ls_counters ls_stop_reason]. fields. rw Er. split_and!; try done.
  - destruct Hc as [_ Hl _ _]. rw Hs in Hl. by apply Permutation_nil_r in Hl.
  - intros st Hst. rw (Hk st Hst) count_nil. lia.
Qed.

(** *** The fatal exit *)

(** The world after the sweep's aborts, and what the database then answers to its
    terminal writes, in order. *)
Definition abort_all (sl : list Slot) (w : W) : W :=
  foldl (λ w slot, if no_intent slot then w_abort w (slot_process slot) else w) w sl.

Fixpoint write_answers (sl : list Slot) (w : W) : list fault :=
  match sl with
  | [] => []
  | slot :: sl =>
      let w := (w_clock (w_join w (slot_process slot)).1).1 in
      (w_fault w).2 :: write_answers sl (w_fault w).1
  end.

(** The slots of a runner with the answers to their writes. *)
Definition swept r : list (Slot * fault) :=
  zip (slots r) (write_answers (slots r) (abort_all (slots r) (w_clock (world r)).1)).

Definition accepted (p : Slot * fault) : bool := match p.2 with None => true | Some _ => false end.

(** The row is running and a write to it is accepted. *)
Definition written (l : list (Slot * fault)) (x : RunRow) : bool :=
  existsb (λ p, accepted p && is_running_row (slot_run_id p.1) x) l.

(** What the sweep makes of a row. *)
Definition swept_row (l : list (Slot * fault)) (x y : RunRow) : Prop :=
  if written l x
  then ∃ stamp, stamp ≤ i64_max
         ∧ y = finish_row AbortedShutdown stamp f64_zero (lit "unattributed-drain-abort") x
  else y = x.

Definition abort_event (slot : Slot) : LoopEvent := WorkerAbortedOnStop (slot_run_id slot) (slot_task_id slot) false.

(** One terminal write of the sweep. *)
Lemma sweep_write slot l fl n s s' x :
  finish s (slot_run_id slot) AbortedShutdown (N.min n i64_max) f64_zero (lit "unattributed-drain-abort") fl = (s', x) →
  ∀ rows, Forall2 (swept_row l) (runs s') rows → Forall2 (swept_row ((slot, fl) :: l)) (runs s) rows.
Proof.
  unfold finish. cbn [is_terminal negb]. unfold secs_i64. rw (proj2 (N.leb_le _ _) (N.le_min_r n i64_max)).
  unfold sql. destruct fl as [e|].
  { intros [= <- _] rows Hr. eapply Forall2_impl; [exact Hr|]. done. }
  unfold update_where. intros E rows Hr.
  assert (runs s' = (λ x, if is_running_row (slot_run_id slot) x
    then finish_row AbortedShutdown (N.min n i64_max) f64_zero (lit "unattributed-drain-abort") x else x) <$> runs s) as Hs.
  { unfold f64_zero at 1 2 in E. destruct (_ =? 0); by injection E as <- _. }
  rw Hs in Hr. clear E Hs. apply (proj1 (Forall2_fmap_l _ _ _ _)) in Hr. eapply Forall2_impl; [exact Hr|]. intros z y. cbn beta.
  unfold compose, swept_row, written. cbn [existsb fst snd]. change (accepted (slot, None)) with true. cbn [andb].
  destruct (is_running_row (slot_run_id slot) z) eqn:Er; cbn [orb]; [|done].
  intros Hy. exists (N.min n i64_max). split; [apply N.le_min_r|].
  destruct (existsb _ l) eqn:El; [|done]. apply existsb_true in El as (p & _ & Hp).
  apply andb_true_iff in Hp as [_ Hp]. unfold is_running_row in Hp. cbn [row_status finish_row] in Hp.
  rw andb_false_r in Hp. done.
Qed.

(** The whole sweep. *)
Lemma sweep_effect sl : ∀ r,
  wp (sweep start_unix_secs sl)
    (λ _ r', Forall2 (swept_row (zip sl (write_answers sl (world r)))) (runs (run_store r)) (runs (run_store r'))
             ∧ events r' = events r ++ (abort_event <$> sl)) (λ _, False) r.
Proof.
  induction sl as [|slot sl IH]; intros r; cbn [sweep].
  { wp_step. rw app_nil_r. split; [|done]. by induction (runs (run_store r)); constructor. }
  cbn [write_answers zip_with fmap list_fmap].
  wp_step. apply wp_ask. intros w1 j ->. wp_step. apply wp_ask. fields. intros w2 e ->.
  wp_step. apply wp_ask. fields. intros w3 fl ->. do 8 wp_step. fields. cbn [fst snd].
  destruct (finish _ _ _ _ _ _ _) as [s' x] eqn:E. cbn [fst].
  eapply wp_mono; [apply IH| |done]. fields. intros _ r' [Hr He].
  split; [by eapply sweep_write|]. by rw He -app_assoc.
Qed.

(** What it leaves running. *)
Definition refused (l : list (Slot * fault)) : list (N * rstr) :=
  slot_run <$> (List.filter (λ p, negb (accepted p)) l).*1.

Lemma sweep_leaves base sl : ∀ hole r,
  core inv base (run_store r) [] ((slot_run <$> sl) ++ hole) →
  wp (sweep start_unix_secs sl)
    (λ _ r', slots r' = slots r
             ∧ core inv base (run_store r') [] (refused (zip sl (write_answers sl (world r))) ++ hole)) (λ _, False) r.
Proof.
  induction sl as [|slot sl IH]; intros hole r Hc; cbn [sweep]; [by wp_step|].
  cbn [write_answers zip_with]. wp_step. apply wp_ask. intros w1 j ->. wp_step. apply wp_ask. fields. intros w2 e ->.
  wp_step. apply wp_ask. fields. intros w3 fl ->. do 8 wp_step. fields. cbn [fst snd].
  pose proof (sweep_finish _ _ _ _ _ _ (if start_unix_secs + as_secs e <=? u64_max then
      start_unix_secs + as_secs e else i64_max) fl Hc) as Hc'.
  eapply wp_mono; [apply (IH ((if fl is Some _ then [slot_run slot] else []) ++ hole)); fields| |done].
  - eapply core_perm; [|exact Hc']. cbn [fmap list_fmap app]. apply Permutation_app_swap_app.
  - fields. intros _ r' [Hs Hr]. split; [done|]. eapply core_perm; [|exact Hr]. unfold refused. cbn [List.filter].
    unfold accepted at 2. cbn [snd]. destruct fl; cbn; [symmetry; apply Permutation_middle|done].
Qed.

(** The aborts before it. *)
Definition drained (slot : Slot) : Slot := if no_intent slot then set_intent Drained slot else slot.

Lemma kill_effect rest : ∀ done r, slots r = done ++ rest →
  wp (kill_loop no_intent Drained done rest)
    (λ _ r', world r' = abort_all rest (world r) ∧ run_store r' = run_store r ∧ events r' = events r
             ∧ slots r' = done ++ (drained <$> rest))
    (λ _, False) r.
Proof.
  induction rest as [|slot rest IH]; intros done r Hsl; cbn [kill_loop]; [by wp_step|].
  unfold abort_all, drained. cbn [foldl fmap list_fmap]. fold (abort_all rest) drained.
  destruct (no_intent slot).
  - do 4 wp_step. eapply wp_mono; [apply IH; fields; by rw -app_assoc| |done].
    intros _ r' (H1 & H2 & H3 & H4). fields. by rw H1 H2 H3 H4 -app_assoc.
  - eapply wp_mono; [apply (IH (done ++ [slot])); by rw -app_assoc| |done].
    intros _ r' (H1 & H2 & H3 & H4). by rw H1 H2 H3 H4 -app_assoc.
Qed.

Lemma drained_same slot :
  slot_run_id (drained slot) = slot_run_id slot ∧ slot_task_id (drained slot) = slot_task_id slot
  ∧ slot_process (drained slot) = slot_process slot.
Proof. unfold drained. by destruct (no_intent slot). Qed.

Lemma write_answers_drained sl : ∀ w, write_answers (drained <$> sl) w = write_answers sl w.
Proof.
  induction sl as [|slot sl IH]; intros w; [done|]. cbn [fmap list_fmap write_answers].
  by rw (proj2 (proj2 (drained_same slot))) IH.
Qed.

Lemma slot_run_drained slot : slot_run (drained slot) = slot_run slot.
Proof. unfold slot_run. by destruct (drained_same slot) as (-> & -> & _). Qed.

Lemma refused_drained sl : ∀ l, refused (zip (drained <$> sl) l) = refused (zip sl l).
Proof.
  unfold refused. induction sl as [|slot sl IH]; intros [|f l]; [done..|]. cbn [fmap list_fmap zip_with List.filter].
  specialize (IH l). unfold accepted at 1 3. cbn [snd]. destruct f; cbn; [|done]. by rw slot_run_drained IH.
Qed.

Lemma written_drained sl x : ∀ l, written (zip (drained <$> sl) l) x = written (zip sl l) x.
Proof.
  unfold written. induction sl as [|slot sl IH]; intros [|f l]; [done..|]. cbn. rw IH.
  by rw (proj1 (drained_same slot)).
Qed.

Lemma abort_events_drained (sl : list Slot) : abort_event <$> (drained <$> sl) = abort_event <$> sl.
Proof.
  rw -list_fmap_compose. apply list_fmap_ext. intros i slot _. unfold abort_event. cbn.
  by destruct (drained_same slot) as (-> & -> & _).
Qed.

(** The whole fatal exit. *)
Lemma fatal_exit_effect base r hole :
  core inv base (run_store r) (slots r) hole →
  wp (fatal_exit start_unix_secs)
    (λ _ r', slots r' = [] ∧ events r' = events r ++ (abort_event <$> slots r)
             ∧ Forall2 (swept_row (swept r)) (runs (run_store r)) (runs (run_store r'))
             ∧ core inv base (run_store r') [] (refused (swept r) ++ hole)) (λ _, False) r.
Proof.
  intros Hc. unfold fatal_exit, swept. do 2 wp_step. destruct (slots r) as [|s0 sl0] eqn:Es; cbn [is_empty].
  { wp_step. rw Es app_nil_r. split_and!; try done. by induction (runs (run_store r)); constructor. }
  rw -Es in Hc |- *. clear Es. unfold kill_where. wp_step. wp_step. apply wp_ask. intros w e Ew. do 2 wp_step. fields.
  eapply wp_mono; [by apply (kill_effect _ [])| |done]. fields. intros _ r1 (Hw & Hr & He & Hs). do 4 wp_step.
  rw Ew. cbn [fst].
  assert (core inv base (run_store r1) [] ((slot_run <$> slots r1) ++ hole)) as Hc1.
  { rw Hr. eapply core_perm; [|exact Hc]. rw Hs app_nil_l -list_fmap_compose. cbn [fmap list_fmap app].
    by rw (list_fmap_ext (slot_run ∘ drained) slot_run (slots r)) // => i slot _; apply slot_run_drained. }
  pose proof (sweep_effect (slots r1) (put_slots [] r1).1) as H1.
  pose proof (sweep_leaves base (slots r1) hole (put_slots [] r1).1 Hc1) as H2.
  unfold wp in H1, H2 |- *. destruct (sweep start_unix_secs (slots r1) (put_slots [] r1).1) as [r2 [u| | |]]; try done.
  fields. destruct H1 as [Hf Hev], H2 as [Hsl Hc2].
  rw Hs app_nil_l Hw write_answers_drained in Hf, Hc2. rw refused_drained in Hc2.
  rw Hs app_nil_l He abort_events_drained in Hev. split_and!; [done|done| |done].
  rw Hr in Hf. eapply Forall2_impl; [exact Hf|]. intros x y. unfold swept_row. by rw written_drained.
Qed.

(** C32. The fatal exit.  When the loop ends in an error, the run returns that error
    and no slot is left; every worker that still had a slot is reported aborted, in
    order, and nothing else is.  The sweep writes to the table exactly the rows of
    those slots whose terminal write the database accepts, as aborted with a zero
    spend and a stamp that fits SQLite's integers; every other row is as the error
    found it.  So the rows still running afterwards are those of the slots whose
    write was refused and at most one more: one that had no slot when the error
    struck (its slot was already given up, or not yet made). *)
Theorem fatal_exit_sweeps fuel w rs ds day r0 error :
  store_wf rs → unseen rs → LoopConfig_validate config = Ok tt →
  loop fuel (fresh w rs ds day) = (r0, RErr error) →
  ∃ r, full_run fuel (fresh w rs ds day) = (r, RErr error)
  ∧ slots r = [] ∧ events r = events r0 ++ (abort_event <$> slots r0)
  ∧ Forall2 (swept_row (swept r0)) (runs (run_store r0)) (runs (run_store r))
  ∧ ∃ hole, (length hole ≤ 1)%nat
      ∧ live_runs inv (run_store r0) ≡ₚ (slot_run <$> slots r0) ++ hole
      ∧ live_runs inv (run_store r) ≡ₚ refused (swept r0) ++ hole.
Proof.
  intros Hw Hu Hv E. pose proof (loop_outcome fuel w rs ds day Hw Hu) as Hl. rw E in Hl.
  destruct Hl as (hole & Hh & Hc & _).
  rw run_unfold Hv E. pose proof (fatal_exit_effect (runs rs) r0 hole Hc) as Hf. unfold wp in Hf.
  destruct (fatal_exit start_unix_secs r0) as [r [u|e| |]]; try done. exists r.
  destruct Hf as (Hs & He & Hr & Hc'). split_and!; [done..|]. exists hole. split_and!; [done|apply Hc|apply Hc'].
Qed.
End sealed.

(** ** A concrete world *)

(** The clock advances a second per reading, the database answers, the board
    always shows one ready issue, the starter and the workers answer as told. *)
Record Script := MkScript {
  sc_time : Duration;
  sc_starter : result N CampaignError;
  sc_outcome : JoinOutcome;
}.

Definition example_ready : ReadyItem :=
  MkReadyItem 7 (lit "Fix the parser") (lit "https://github.com/acme/tool/issues/7") (lit "acme/tool")
    (lit "PVTI_7").

Definition example_facts : ItemFacts :=
  MkItemFacts (lit "PVTI_7") (lit "acme/tool") 7 (lit "Fix the parser")
    (lit "https://github.com/acme/tool/issues/7") None [] 0 None None None.

#[export] Instance ScriptWorld : World Script := {
  w_clock w := let t := sc_time w + from_secs 1 in (MkScript t (sc_starter w) (sc_outcome w), t);
  w_fault w := (w, None);
  w_insert w := (w, Ok (lit "2026-01-01 00:00:00"));
  w_poll w := (w, PollSnapshot (MkSnapshot [example_facts] [example_ready] [] []));
  w_signal_pending w := (w, false);
  w_mark_pass_seen w := w;
  w_mark_main_seen w := w;
  w_tick w := (w, TickElapsed);
  w_consult w _ := (w, TimedOut);
  w_pending_events w := (w, []);
  w_drain_events w _ := w;
  w_start w _ _ := (w, sc_starter w);
  w_is_finished w _ := (w, true);
  w_join w _ := (w, sc_outcome w);
  w_beat w _ := (w, None);
  w_abort w _ := w;
}.

(** The worker completes. *)
Definition completing : Script :=
  MkScript 0 (Ok 1) (Joined (MkWorkerRun RunCompleted None 10 20)).

(** The starter fails with an error that is not a spawn failure. *)
Definition refusing : Script := MkScript 0 (Err (Store (lit "disk full"))) JoinCancelled.

Definition example_loop_config : LoopConfig :=
  MkLoopConfig bootstrap_defaults (from_secs 60) (Some 1) None GuardrailsSettings_default builtin_defaults.

Definition example_routing : RoleRoutingDecision :=
  MkRouting (lit "engineer") (lit "local") (lit "small") (lit "default") None.

Abbreviation example_run w fuel :=
  (run example_loop_config (lit "inv-1") example_routing 1000 None false (λ _, []) (foldl f64_add f64_zero)
     fuel (fresh w empty_store [] None)).

Lemma completing_ok :
  ∃ r s, example_run completing 4 = (r, ROk s)
  ∧ ls_stop_reason s = CycleBudget ∧ n_completed (ls_counters s) = 1
  ∧ row_status <$> runs (run_store r) = [Completed].
Proof.
  assert (match example_run completing 4 with
          | (r, ROk s) => ls_stop_reason s = CycleBudget ∧ n_completed (ls_counters s) = 1
                          ∧ row_status <$> runs (run_store r) = [Completed]
          | _ => False
          end) as He by by vm_compute.
  destruct (example_run completing 4) as [r [s|e| |]]; try done. by exists r, s.
Qed.

Lemma run_is_safe_witness :
  let r := (example_run completing 2).1 in
  len (slots r) ≤ 2 ∧ my_tasks (lit "inv-1") (run_store r) = [task_id_of example_ready].
Proof.
  split; [|by vm_compute].
  refine (proj1 (run_is_safe example_loop_config (lit "inv-1") example_routing 1000 None false (λ _, [])
    (foldl f64_add f64_zero) 2 completing empty_store [] None empty_store_wf _)).
  done.
Defined.

Lemma summary_accounts_witness :
  ∃ r s, example_run completing 4 = (r, ROk s)
  ∧ tally (lit "inv-1") Completed (run_store r) = 1 ∧ slots r = [].
Proof.
  destruct completing_ok as (r & s & E & _ & Hn & _). exists r, s. split; [exact E|].
  destruct (summary_accounts example_loop_config (lit "inv-1") example_routing 1000 None false (λ _, [])
    (foldl f64_add f64_zero) 4 completing empty_store [] None r s empty_store_wf eq_refl E)
    as (Hs & _ & Ht & _).
  split; [|exact Hs]. rw (Ht Completed); done.
Defined.

(** The bound is reached: the row of a start that fails with another error
    than a spawn failure has no slot, and the sweep misses it. *)
Lemma refusing_leaves_row_running :
  ∃ r e, example_run refusing 4 = (r, RErr e)
  ∧ row_status <$> runs (run_store r) = [Running].
Proof.
  assert (match example_run refusing 4 with
          | (r, RErr _) => row_status <$> runs (run_store r) = [Running]
          | _ => False
          end) as He by by vm_compute.
  destruct (example_run refusing 4) as [r [s|e| |]]; try done. by exists r, e.
Qed.

(** A world whose worker never finishes and whose database answers as told, then
    always. *)
Record Outage := MkOutage { ou_time : Duration; ou_answers : list fault }.

#[export] Instance OutageWorld : World Outage := {
  w_clock w := let t := ou_time w + from_secs 1 in (MkOutage t (ou_answers w), t);
  w_fault w := match ou_answers w with f :: l => (MkOutage (ou_time w) l, f) | [] => (w, None) end;
  w_insert w := (w, Ok (lit "2026-01-01 00:00:00"));
  w_poll w := (w, PollSnapshot (MkSnapshot [example_facts] [example_ready] [] []));
  w_signal_pending w := (w, false);
  w_mark_pass_seen w := w;
  w_mark_main_seen w := w;
  w_tick w := (w, TickElapsed);
  w_consult w _ := (w, TimedOut);
  w_pending_events w := (w, []);
  w_drain_events w _ := w;
  w_start w _ _ := (w, Ok 1);
  w_is_finished w _ := (w, false);
  w_join w _ := (w, JoinCancelled);
  w_beat w _ := (w, None);
  w_abort w _ := w;
}.

(** The seventh statement fails, with a worker in flight. *)
Definition outage (later : list fault) : Outage := MkOutage 0 (replicate 6 None ++ Some (lit "disk full") :: later).

Abbreviation outage_loop later :=
  (run_loop example_loop_config (lit "inv-1") example_routing 1000 None false (λ _, []) (foldl f64_add f64_zero)
     4 (fresh (outage later) empty_store [] None)).

(** The row of the worker ends aborted if the database takes the sweep's write, and
    stays running if it refuses. *)
Lemma fatal_exit_sweeps_witness :
  Forall (λ answer : fault, ∃ r0 error r, outage_loop [answer] = (r0, RErr error) ∧ length (slots r0) = 1%nat
    ∧ example_run (outage [answer]) 4 = (r, RErr error) ∧ slots r = [] ∧ length (events r) = S (length (events r0))
    ∧ row_status <$> runs (run_store r) = [if answer is Some _ then Running else AbortedShutdown])
    [None; Some (lit "disk full")].
Proof.
  apply Forall_forall. intros answer Ha.
  assert (match outage_loop [answer] with
          | (r0, RErr _) => length (slots r0) = 1%nat ∧ row_status <$> runs (run_store r0) = [Running]
              ∧ written (swept r0) <$> runs (run_store r0) = [if answer is Some _ then false else true]
          | _ => False
          end) as He.
  { apply elem_of_cons in Ha as [->|Ha]; [by vm_compute|]. apply list_elem_of_singleton in Ha as ->. by vm_compute. }
  clear Ha. revert He. case_eq (outage_loop [answer]). intros r0 x E He.
  destruct x as [u|error| |]; [destruct He| |destruct He..]. destruct He as (Hs & Hr & Hw).
  destruct (fatal_exit_sweeps example_loop_config (lit "inv-1") example_routing 1000 None false (λ _, [])
    (foldl f64_add f64_zero) 4 (outage [answer]) empty_store [] None r0 error empty_store_wf eq_refl eq_refl E)
    as (r & Hrun & Hsl & Hev & Hf & _).
  exists r0, error, r. split; [reflexivity|]. split; [exact Hs|]. split; [exact Hrun|]. split; [exact Hsl|]. clear E Hrun.
  split; [rw Hev length_app length_fmap Hs; lia|].
  destruct (runs (run_store r0)) as [|x [|]]; try discriminate Hr. injection Hr as Hr. injection Hw as Hw.
  apply Forall2_cons_inv_l in Hf as (y & rows & Hy & Hn & ->).
  apply Forall2_nil_inv_l in Hn as ->. unfold swept_row in Hy. rw Hw in Hy.
  destruct answer; [by rw Hy -Hr|]. by destruct Hy as (stamp & _ & ->).
Defined.

(** The state of the completing run when its stop is declared. *)
Definition stopped : Runner Script :=
  (run_loop example_loop_config (lit "inv-1") example_routing 1000 None false (λ _, [])
     (foldl f64_add f64_zero) 2 (fresh completing empty_store [] None)).1.

Lemma stop_seals_intake_witness :
  stop (stopping stopped) = Some CycleBudget
  ∧ stop (stopping (run_loop example_loop_config (lit "inv-1") example_routing 1000 None false (λ _, [])
                      (foldl f64_add f64_zero) 9 stopped).1) = stop (stopping stopped).
Proof.
  assert (stop (stopping stopped) = Some CycleBudget) as Hs by by vm_compute. split; [exact Hs|].
  refine (proj2 (stop_seals_intake example_loop_config (lit "inv-1") example_routing 1000 None false (λ _, [])
    (foldl f64_add f64_zero) stopped 9 _)).
  rw Hs. by eexists.
Defined.

(** A stall kill counts against the attempt budget like a failure of the task:
    with a budget of one attempt it ends the task as stuck. *)
Lemma stall_kill_exhausts :
  let config := MkLoopConfig bootstrap_defaults (from_secs 60) None None
    (let g := GuardrailsSettings_default in
     MkGuardrailsSettings (gs_no_progress_turns g) (gs_tool_repeat_count g) (gs_tool_repeat_window g)
       (gs_ci_poll_budget g) 1 (gs_task_retry_backoff g) (gs_max_turns_per_attempt g)) builtin_defaults in
  let slot := MkSlot 1 (lit "t") 1 0 0 (Some Stall) in
  let row := MkRunRow 1 (lit "inv-1") 1 (lit "t") (lit "acme/tool") 7 Running 1000 0 1000 None f64_zero [] in
  snd <$> (match reap_one config 1000 slot
                   (MkRunner (MkScript 0 (Ok 1) JoinCancelled) (MkLoopRunStore [row] ∅) [] [] (MkPacing 0 0 0)
                      (MkGateState ∅ ∅ false None) Counters_default [] (MkStopping None None 0) false) with
           | (_, ROk x) => Some x
           | _ => None
           end) = Some Stuck.
Proof. by vm_compute. Qed.
