(* ===== verification/WorkerAction.v ===== *)
(** * The worker's action protocol

    [crates/orchestraitor-worker/src/action.rs] and the tool-id rules of
    [crates/orchestraitor-model/src/tool_id.rs]: a model response is turned
    into one action, or rejected.  [serde_json::from_str] is a parameter; a
    [serde_json::Value] is the type [Json]. *)

From S2P Require Import Prelude BTree Text Substring RunState.
From Stdlib Require Import ZifyBool.

(** ** JSON values *)

Inductive JsonNumber := PosInt (n : N) | NegInt (z : Z) | Float (x : f64).

#[local] Unset Elimination Schemes.
Inductive Json :=
| JNull
| JBool (b : bool)
| JNumber (n : JsonNumber)
| JString (s : rstr)
| JArray (l : list Json)
| JObject (fields : list (rstr * Json)).
#[local] Set Elimination Schemes.

(** [Value::get]: the keys of an object are distinct. *)
Fixpoint field_of (fields : list (rstr * Json)) (k : rstr) : option Json :=
  match fields with
  | [] => None
  | (k', v) :: fields' => if bool_decide (k' = k) then Some v else field_of fields' k
  end.

Definition json_get (v : Json) (k : rstr) : option Json :=
  match v with JObject fields => field_of fields k | _ => None end.

Definition as_str (v : Json) : option rstr := match v with JString s => Some s | _ => None end.
Definition as_bool (v : Json) : option bool := match v with JBool b => Some b | _ => None end.
Definition as_u64 (v : Json) : option N :=
  match v with JNumber (PosInt n) => if n <=? u64_max then Some n else None | _ => None end.

(** ** Tool ids *)

Definition MAX_TOOL_ID_CHARS : N := 64.

Definition is_ascii_lowercase (c : N) : bool := (97 <=? c) && (c <=? 122).

Definition is_valid_tool_id (tool_id : rstr) : bool :=
  if (len tool_id =? 0) || (MAX_TOOL_ID_CHARS <? len tool_id) then false
  else match tool_id with
       | [] => false
       | first :: chars =>
           (is_ascii_lowercase first || is_ascii_digit first)
           && forallb (λ c, is_ascii_lowercase c || is_ascii_digit c || (c =? 45) || (c =? 95)) chars
       end.

Definition is_reserved_tool_id (tool_id : rstr) : bool :=
  bool_decide (tool_id ∈ (lit <$> ["read_file"; "write_file"; "search"; "bash"; "finish"; "think";
    "board.query"; "board.move"; "decision.record"; "router.consult"; "worker.delegate"; "budget.check";
    "capability.check"]%string)).

(** ** Actions *)

Definition MAX_TOOL_NAME_CHARS : N := 64.
Definition MAX_SCRIPT_BYTES : N := 64 * 1024.
Definition MAX_WRITE_CONTENT_BYTES : N := 1024 * 1024.
Definition MAX_PATTERN_CHARS : N := 512.
Definition MAX_QUESTION_CHARS : N := 8 * 1024.
Definition MAX_THOUGHT_CHARS : N := 8 * 1024.

Inductive WorkerAction :=
| ReadFile (path : rstr)
| WriteFile (path content : rstr)
| Search (pattern : rstr) (path : option rstr)
| Bash (script : rstr)
| Think (thought : rstr) (thought_number total_thoughts : N) (next_thought_needed is_revision : bool)
    (revises_thought branch_from_thought : option N) (branch_id : option rstr)
| DeclaredTool (tool_id : rstr) (question : option rstr)
| Finish (summary : rstr) (success : bool).

Inductive ActionRejection :=
| Malformed (reason : rstr)
| UnknownTool (name : rstr).

Definition malformed {A} (reason : rstr) : result A ActionRejection := Err (Malformed reason).

Definition required_string (value : Json) (field : rstr) : result rstr ActionRejection :=
  match json_get value field with
  | None => malformed (lit "missing-field")
  | Some (JString text) => Ok text
  | Some _ => malformed (lit "wrong-field-type")
  end.

Definition required_u32 (value : Json) (field : rstr) : result N ActionRejection :=
  match json_get value field with
  | None => malformed (lit "missing-field")
  | Some v =>
      match as_u64 v with
      | Some n => if n <=? u32_max then Ok n else malformed (lit "wrong-field-type")
      | None => malformed (lit "wrong-field-type")
      end
  end.

Definition optional_u32 (value : Json) (field : rstr) : result (option N) ActionRejection :=
  match json_get value field with
  | None | Some JNull => Ok None
  | Some _ => let? n := required_u32 value field in Ok (Some n)
  end.

(** [value.get(field).and_then(as_bool).ok_or(missing-field)]. *)
Definition required_bool (value : Json) (field : rstr) : result bool ActionRejection :=
  ok_or (json_get value field ≫= as_bool) (Malformed (lit "missing-field")).

(** A field that may be absent or [null], and is a string otherwise. *)
Definition optional_string (value : Json) (field : rstr) : result (option rstr) ActionRejection :=
  match json_get value field with
  | None | Some JNull => Ok None
  | Some (JString s) => Ok (Some s)
  | Some _ => malformed (lit "wrong-field-type")
  end.

Definition parse_think (value : Json) : result WorkerAction ActionRejection :=
  let? thought := required_string value (lit "thought") in
  let? thought_number := required_u32 value (lit "thought_number") in
  let? total_thoughts := required_u32 value (lit "total_thoughts") in
  let? next_thought_needed := required_bool value (lit "next_thought_needed") in
  let? is_revision := match json_get value (lit "is_revision") with
                      | None | Some JNull => Ok false
                      | Some (JBool flag) => Ok flag
                      | Some _ => malformed (lit "wrong-field-type")
                      end in
  let? revises_thought := optional_u32 value (lit "revises_thought") in
  let? branch_from_thought := optional_u32 value (lit "branch_from_thought") in
  if 4 * MAX_THOUGHT_CHARS <? len thought then malformed (lit "field-too-large") else
  let? branch_id := optional_string value (lit "branch_id") in
  if from_option (λ id, MAX_TOOL_NAME_CHARS <? len id) false branch_id then malformed (lit "field-too-large")
  else if (thought_number =? 0) || (total_thoughts =? 0) then malformed (lit "invalid-field-value")
  else Ok (Think thought thought_number total_thoughts next_thought_needed is_revision revises_thought
             branch_from_thought branch_id).

(** [char::is_ascii_graphic]. *)
Definition is_ascii_graphic (c : N) : bool := (33 <=? c) && (c <=? 126).

Definition sanitize_tool_name (name : rstr) : rstr :=
  take (N.to_nat MAX_TOOL_NAME_CHARS) (List.filter (λ c, is_ascii_graphic c || (c =? 32)) name).

(** ** Receipts *)

(** One tool call; [outcome] is [completed], [refused] or [failed]. *)
Record ToolReceipt := MkToolReceipt {
  rc_sequence : N;
  rc_tool : rstr;
  rc_admitted : bool;
  rc_outcome : rstr;
  rc_reason : option rstr;
  rc_exit_code : option Z;
}.

(** ** Fenced blocks *)

Definition FENCE : rstr := lit "```".
Definition FENCE_JSON : rstr := lit "```json".

(** Each block takes at least a fence off the rest. *)
Fixpoint fenced_go (fuel : nat) (rest : rstr) : list rstr :=
  match fuel with
  | O => []
  | Datatypes.S fuel =>
      match find_str FENCE_JSON rest with
      | None => []
      | Some start =>
          let after_open := drop (start + length FENCE_JSON) rest in
          match find_str FENCE after_open with
          | None => []
          | Some end_ => trim (take end_ after_open) :: fenced_go fuel (drop (end_ + length FENCE) after_open)
          end
      end
  end.

Definition fenced_json_blocks (text : rstr) : list rstr := fenced_go (length text) text.

Section parse.
Context (from_str : rstr → option Json).

(** The action object a block selects. *)
Definition select_action (value : Json) : result WorkerAction ActionRejection :=
  let? tool := ok_or (json_get value (lit "tool") ≫= as_str) (Malformed (lit "missing-tool-field")) in
  if bool_decide (tool = lit "read_file") then
    let? path := required_string value (lit "path") in Ok (ReadFile path)
  else if bool_decide (tool = lit "write_file") then
    let? content := required_string value (lit "content") in
    if MAX_WRITE_CONTENT_BYTES <? str_len content then malformed (lit "field-too-large")
    else let? path := required_string value (lit "path") in Ok (WriteFile path content)
  else if bool_decide (tool = lit "search") then
    let? pattern := required_string value (lit "pattern") in
    if is_empty pattern then malformed (lit "empty-field")
    else if MAX_PATTERN_CHARS <? len pattern then malformed (lit "field-too-large")
    else let? path := optional_string value (lit "path") in Ok (Search pattern path)
  else if bool_decide (tool = lit "bash") then
    let? script := required_string value (lit "script") in
    if MAX_SCRIPT_BYTES <? str_len script then malformed (lit "field-too-large") else Ok (Bash script)
  else if bool_decide (tool = lit "think") then parse_think value
  else if bool_decide (tool = lit "finish") then
    let? summary := required_string value (lit "summary") in
    let? success := required_bool value (lit "success") in
    Ok (Finish summary success)
  else if negb (is_valid_tool_id tool) || is_reserved_tool_id tool then
    Err (UnknownTool (sanitize_tool_name tool))
  else
    match json_get value (lit "question") with
    | None | Some JNull => Ok (DeclaredTool tool None)
    | Some (JString text) =>
        if MAX_QUESTION_CHARS <? len text then malformed (lit "field-too-large")
        else if is_empty text then malformed (lit "empty-field")
        else Ok (DeclaredTool tool (Some text))
    | Some _ => malformed (lit "wrong-field-type")
    end.

Definition parse_action (text : rstr) : result WorkerAction ActionRejection :=
  match head (fenced_json_blocks text) with
  | None => malformed (lit "no-action-block")
  | Some block =>
      let? value := ok_or (from_str block) (Malformed (lit "invalid-json")) in
      select_action value
  end.
End parse.

(** ** What the parser admits *)

(** The bounds of an action's fields. *)
Definition admissible (a : WorkerAction) : Prop :=
  match a with
  | ReadFile _ => True
  | WriteFile _ content => str_len content ≤ MAX_WRITE_CONTENT_BYTES
  | Search pattern _ => pattern ≠ [] ∧ len pattern ≤ MAX_PATTERN_CHARS
  | Bash script => str_len script ≤ MAX_SCRIPT_BYTES
  | Think thought n total _ _ revises branch branch_id =>
      len thought ≤ 4 * MAX_THOUGHT_CHARS ∧ 1 ≤ n ≤ u32_max ∧ 1 ≤ total ≤ u32_max
      ∧ (∀ r, revises = Some r → r ≤ u32_max) ∧ (∀ r, branch = Some r → r ≤ u32_max)
      ∧ (∀ id, branch_id = Some id → len id ≤ MAX_TOOL_NAME_CHARS)
  | DeclaredTool id question =>
      is_valid_tool_id id = true ∧ is_reserved_tool_id id = false
      ∧ ∀ q, question = Some q → 1 ≤ len q ≤ MAX_QUESTION_CHARS
  | Finish _ _ => True
  end.

Lemma required_u32_bound v f n : required_u32 v f = Ok n → n ≤ u32_max.
Proof. unfold required_u32, malformed. repeat case_match; intros; simplify_eq; bool_simpl; lia. Qed.

Lemma optional_u32_bound v f o r : optional_u32 v f = Ok o → o = Some r → r ≤ u32_max.
Proof.
  unfold optional_u32. intros H ->. repeat case_match; simplify_eq;
    apply result_bind_ok in H as (m & Hm%required_u32_bound & [= <-]); done.
Qed.

Lemma parse_think_admits v a : parse_think v = Ok a → admissible a.
Proof.
  unfold parse_think. intros (thought & _ & H)%result_bind_ok.
  apply result_bind_ok in H as (n & Hn%required_u32_bound & H).
  apply result_bind_ok in H as (total & Ht%required_u32_bound & H).
  apply result_bind_ok in H as (next & _ & H). apply result_bind_ok in H as (rev & _ & H).
  apply result_bind_ok in H as (revises & Hr & H). apply result_bind_ok in H as (branch & Hb & H).
  step_if; [done|]. apply result_bind_ok in H as (id & _ & H). step_if; [done|]. step_if; [done|].
  injection H as <-. bool_simpl. cbn [admissible]. split_and!; try lia.
  - intros r. by apply (optional_u32_bound _ _ _ _ Hr).
  - intros r. by apply (optional_u32_bound _ _ _ _ Hb).
  - intros i ->. cbn [from_option] in *. bool_simpl. lia.
Qed.

Lemma select_action_admits v a : select_action v = Ok a → admissible a.
Proof.
  unfold select_action. intros (tool & _ & H)%result_bind_ok. repeat (step_if; cbn [negb orb] in H).
  all: try (by apply parse_think_admits in H).
  all: try done.
  all: bool_simpl.
  all: repeat match goal with H : result_bind _ _ = Ok _ |- _ =>
    apply result_bind_ok in H as (? & _ & H) end.
  all: repeat (step_if; try done); bool_simpl.
  all: repeat match goal with H : result_bind _ _ = Ok _ |- _ =>
    apply result_bind_ok in H as (? & _ & H) end.
  all: simplify_eq; cbn [admissible]; try done.
  - destruct (json_get v (lit "question")) as [[]|]; simplify_eq; cbn [admissible];
      repeat (step_if; try done); simplify_eq; cbn [admissible]; bool_simpl; split_and!; try done;
      intros q Hq; simplify_eq. destruct q; [done|]. rw len_cons in Heqb5 |- *. lia.
Qed.

(** Whatever text the model sends, an action the parser hands on keeps its
    bounds: the size caps of scripts, contents, patterns, thoughts and
    questions, counters from 1 that fit a [u32], and a declared tool id of the
    permitted shape that is no built-in or coordinator name. *)
Theorem parse_action_admits from_str text a : parse_action from_str text = Ok a → admissible a.
Proof.
  unfold parse_action. destruct (head _) as [block|]; [|done].
  intros (v & _ & H)%result_bind_ok. by apply select_action_admits in H.
Qed.

(** A refused tool is echoed as at most 64 printable ASCII characters. *)
Lemma sanitize_tool_name_bounded name :
  len (sanitize_tool_name name) ≤ 64
  ∧ ∀ c, c ∈ sanitize_tool_name name → 32 ≤ c ≤ 126.
Proof.
  unfold sanitize_tool_name. split.
  - unfold len. rw length_take. change (N.to_nat MAX_TOOL_NAME_CHARS) with 64%nat. lia.
  - intros c [i Hi]%list_elem_of_lookup. apply lookup_take_Some in Hi as [Hi _].
    apply list_elem_of_lookup_2, elem_of_filter_bool in Hi as [_ Hc].
    unfold is_ascii_graphic in Hc. lia.
Qed.

(** The first fenced block is the action: what precedes it, what follows
    its closing fence and any further block are not read. *)
Theorem first_block_decides from_str pre body post :
  find_str FENCE_JSON (pre ++ FENCE_JSON) = Some (length pre) →
  find_str FENCE (body ++ FENCE) = Some (length body) →
  parse_action from_str (pre ++ FENCE_JSON ++ body ++ FENCE ++ post)
  = (let? value := ok_or (from_str (trim body)) (Malformed (lit "invalid-json")) in select_action value).
Proof.
  intros H1 H2. unfold parse_action, fenced_json_blocks.
  destruct (length (pre ++ FENCE_JSON ++ body ++ FENCE ++ post)) as [|n] eqn:El.
  { exfalso. rw !length_app in El. change (length FENCE) with 3%nat in El. lia. }
  cbn [fenced_go]. rw (find_str_app _ _ _ H1).
  replace (drop (length pre + length FENCE_JSON) (pre ++ FENCE_JSON ++ body ++ FENCE ++ post))
    with (body ++ FENCE ++ post).
  2: { by rw (app_assoc pre) -length_app drop_app_length. }
  rw (find_str_app _ _ _ H2) take_app_length. done.
Qed.

Definition sample_json (s : rstr) : option Json :=
  if bool_decide (s = lit "{bash}") then
    Some (JObject [(lit "tool", JString (lit "bash")); (lit "script", JString (lit "ls"))])
  else None.

Abbreviation sample_response :=
  (lit "I will list.\n" ++ FENCE_JSON ++ lit " {bash} " ++ FENCE ++ lit " then ```json {other} ```").

Lemma parse_action_admits_witness :
  parse_action sample_json sample_response = Ok (Bash (lit "ls")) ∧ admissible (Bash (lit "ls")).
Proof.
  split; [by vm_compute|]. apply (parse_action_admits sample_json sample_response). by vm_compute.
Defined.

Lemma first_block_decides_witness :
  parse_action sample_json sample_response = Ok (Bash (lit "ls")).
Proof.
  etrans; [apply (first_block_decides sample_json (lit "I will list.\n") (lit " {bash} ")); by vm_compute|].
  by vm_compute.
Defined.
