(* ===== verification/Guardrails.v ===== *)
(** * Anti-stuck guards of a worker attempt

    [crates/orchestraitor-worker/src/guardrails.rs]: the sliding window over
    tool-call shapes, the streak of unchanged worktree fingerprints, and the
    wall-clock budget of commands that wait on CI. *)

From S2P Require Import Prelude BTree Text Time Substring RunState WorkerAction.
From Stdlib Require Import ZifyBool.

Record GuardrailsConfig := MkGuardrailsConfig {
  no_progress_turns : N;
  tool_repeat_count : N;
  tool_repeat_window : N;
  ci_poll_budget : Duration;
}.

Definition GuardrailsConfig_bootstrap_defaults : GuardrailsConfig :=
  MkGuardrailsConfig 5 4 8 (from_mins 30).

Definition no_progress_enabled (c : GuardrailsConfig) : bool := 0 <? no_progress_turns c.
Definition churn_enabled (c : GuardrailsConfig) : bool :=
  (1 <? tool_repeat_count c) && (0 <? tool_repeat_window c).
Definition poll_budget_enabled (c : GuardrailsConfig) : bool := negb (ci_poll_budget c =? 0).

(** ** Shapes of tool calls *)

Inductive ExitClass := ExitOk | ExitNonZero | ExitNone.

#[export] Instance ExitClass_eq_dec : EqDecision ExitClass.
Proof. solve_decision. Defined.

Record ToolCallShape := MkToolCallShape { sh_tool : rstr; arg_shape : rstr; exit_class : ExitClass }.

#[export] Instance ToolCallShape_eq_dec : EqDecision ToolCallShape.
Proof. solve_decision. Defined.

(** The [while size < 64 && chars > size] doubling: six steps reach 64. *)
Fixpoint bucket_go (fuel : nat) (size chars : N) : N :=
  match fuel with
  | O => size
  | Datatypes.S fuel => if (size <? 64) && (size <? chars) then bucket_go fuel (size * 2) chars else size
  end.

Definition pattern_bucket (chars : N) : N := bucket_go 6 1 (N.min chars u64_max).

(** The [while let Some(eq) = rest.find('=')] of [bash_first_word]; an
    assignment that is skipped is at least two characters long. *)
Fixpoint skip_assignments (fuel : nat) (rest : rstr) : rstr :=
  match fuel with
  | O => rest
  | Datatypes.S fuel =>
      match find_char (N.eqb 61) rest with
      | None => rest
      | Some eq =>
          let name := take eq rest in
          if is_empty name || negb (forallb (λ c, is_ascii_alphanumeric c || (c =? 95)) name)
             || from_option is_ascii_digit false (head name)
          then rest
          else match find_char is_whitespace rest with
               | None => rest
               | Some space => skip_assignments fuel (trim_start (drop space rest))
               end
      end
  end.

Definition bash_first_word (script : rstr) : rstr :=
  let rest := skip_assignments (length script) (trim_start script) in
  take 64 (trim_matches (λ c, (c =? 39) || (c =? 34)) (default [] (head (split_by is_whitespace rest)))).

Definition tool_call_shape (action : WorkerAction) (receipt : ToolReceipt) : ToolCallShape :=
  let exit_class := match rc_exit_code receipt with
                    | Some 0%Z => ExitOk
                    | Some _ => ExitNonZero
                    | None => if bool_decide (rc_outcome receipt = lit "completed") then ExitOk else ExitNone
                    end in
  let arg_shape := match action with
                   | Bash script => lit "bash:" ++ bash_first_word script
                   | ReadFile path | WriteFile path _ => lit "path:" ++ path
                   | Search pattern _ => lit "pattern:" ++ dec (pattern_bucket (len pattern))
                   | DeclaredTool tool_id _ => lit "declared:" ++ tool_id
                   | Think _ n _ _ _ _ _ _ => lit "think-step:" ++ dec n
                   | Finish _ _ => lit "finish"
                   end in
  MkToolCallShape (rc_tool receipt) arg_shape exit_class.

(** ** The churn window *)

Record ChurnWindow := MkChurnWindow { cw_window : N; repeat_count : N; shapes : list ToolCallShape }.

Definition ChurnWindow_new (c : GuardrailsConfig) : ChurnWindow :=
  MkChurnWindow (if churn_enabled c then tool_repeat_window c else 0) (N.max (tool_repeat_count c) 2) [].

(** [while shapes.len() > window { shapes.pop_front() }]. *)
Fixpoint pop_to (window : N) (l : list ToolCallShape) : list ToolCallShape :=
  match l with
  | [] => []
  | _ :: l' => if window <? len l then pop_to window l' else l
  end.

Definition churn_observe (w : ChurnWindow) (shape : ToolCallShape) : ChurnWindow * bool :=
  if cw_window w =? 0 then (w, false)
  else
    let l := pop_to (cw_window w) (shapes w ++ [shape]) in
    let w' := MkChurnWindow (cw_window w) (repeat_count w) l in
    match list.last l with
    | None => (w', false)
    | Some newest => (w', repeat_count w <=? count (λ s, bool_decide (s = newest)) l)
    end.

(** ** The progress fingerprint *)

(** A snapshot of the worktree.  [None] is a directory that cannot be read, an
    entry whose type cannot be read, or a file whose metadata cannot be read;
    the metadata are the length and the modification time in seconds. *)
#[local] Unset Elimination Schemes.
Inductive Entry :=
| EntryUnknown
| EntryDir (name : rstr) (contents : option (list Entry))
| EntryFile (name : rstr) (metadata : option (N * N)).
#[local] Set Elimination Schemes.

Definition u64_wrap (n : N) : N := n mod 18446744073709551616.

Definition fold_bytes (hash : N) (bytes : list N) : N :=
  foldl (λ h b, u64_wrap (N.lxor h b * 16777619)) hash bytes.

(** [u64::to_le_bytes]. *)
Definition to_le_bytes (n : N) : list N := (λ i, (n / 256 ^ i) mod 256) <$> [0; 1; 2; 3; 4; 5; 6; 7].

Definition skipped_dir (name : rstr) : bool :=
  bool_decide (name ∈ [lit ".git"; lit "target"; lit "node_modules"]).

(** A path relative to the root; the root itself is the empty path. *)
Definition join_path (dir name : rstr) : rstr := if is_empty dir then name else dir ++ lit "/" ++ name.

Section walk.
Context (absorb : N → list N → N).

(** One pass over a directory: the hash and the directories pushed, in order. *)
Fixpoint scan_entries (dir : rstr) (entries : list Entry) (hash : N)
    : N * list (rstr * option (list Entry)) :=
  match entries with
  | [] => (hash, [])
  | EntryUnknown :: es => scan_entries dir es (absorb hash (as_bytes (lit "|stat-failed")))
  | EntryDir name contents :: es =>
      if skipped_dir name then scan_entries dir es hash
      else let '(h, pushed) := scan_entries dir es hash in (h, (join_path dir name, contents) :: pushed)
  | EntryFile name None :: es => scan_entries dir es (absorb hash (as_bytes (lit "|stat-failed")))
  | EntryFile name (Some (size, mtime)) :: es =>
      scan_entries dir es
        (absorb (absorb (absorb hash (as_bytes (join_path dir name))) (to_le_bytes size))
           (to_le_bytes mtime))
  end.

(** The [while let Some(dir) = stack.pop()] loop; the stack's top is the head. *)
Fixpoint walk (fuel : nat) (stack : list (rstr * option (list Entry))) (hash : N) : option N :=
  match stack with
  | [] => Some hash
  | (dir, contents) :: stack' =>
      match fuel with
      | O => None
      | Datatypes.S fuel =>
          match contents with
          | None => walk fuel stack' (absorb hash (as_bytes (lit "|unreadable")))
          | Some entries =>
              let '(h, pushed) := scan_entries dir entries hash in
              walk fuel (reverse pushed ++ stack') h
          end
      end
  end.

End walk.

Definition fold_writes (hash : N) (writes : list rstr) : N :=
  foldl (λ h w, fold_bytes (fold_bytes h (as_bytes (lit "|w:"))) (as_bytes w)) hash writes.

(** The directories of a snapshot, which bound the walk. *)
Fixpoint entry_dirs (e : Entry) : nat :=
  match e with
  | EntryDir _ (Some es) => Datatypes.S (sum_list_with entry_dirs es)
  | EntryDir _ None => 1
  | _ => 0
  end.

Definition dirs_of (c : option (list Entry)) : nat := from_option (sum_list_with entry_dirs) O c.

Definition progress_fingerprint (root : option (list Entry)) (untrusted_writes : list rstr) : N :=
  let hash := fold_bytes 2166136261 (as_bytes (lit "v1")) in
  fold_writes (default hash (walk fold_bytes (Datatypes.S (dirs_of root)) [([], root)] hash)) untrusted_writes.

(** ** Streaks *)

Record NoProgressGuard := MkNoProgressGuard { np_threshold : N; streak : N; np_last : option N }.

Definition NoProgressGuard_new (c : GuardrailsConfig) : NoProgressGuard :=
  MkNoProgressGuard (no_progress_turns c) 0 None.

Definition no_progress_observe (g : NoProgressGuard) (fingerprint : N) : NoProgressGuard * bool :=
  if np_threshold g =? 0 then (g, false)
  else
    let g' := if bool_decide (np_last g = Some fingerprint)
              then MkNoProgressGuard (np_threshold g) (streak g + 1) (np_last g)
              else MkNoProgressGuard (np_threshold g) 1 (Some fingerprint) in
    (g', np_threshold g <=? streak g').

(** ** Waiting on CI *)

Definition poll_shaped (script : rstr) : bool :=
  let rest := to_ascii_lowercase script in
  let ci_wait := existsb (λ needle, contains_str needle rest)
                   (lit <$> ["gh pr checks"; "gh run watch"; "gh run list"; "gh pr view"; "--watch"]%string) in
  if negb ci_wait then false
  else bool_decide (lit "sleep" ∈ split_by (λ c, is_whitespace c || (c =? 59) || (c =? 38)) rest)
       || contains_str (lit "gh run watch") rest || contains_str (lit "--watch") rest.

Record PollBudget := MkPollBudget { pb_budget : Duration; spent : Duration }.

Definition PollBudget_new (c : GuardrailsConfig) : PollBudget := MkPollBudget (ci_poll_budget c) 0.

Definition charge (b : PollBudget) (elapsed : Duration) : PollBudget * bool :=
  if pb_budget b =? 0 then (b, false)
  else
    let s := duration_saturating_add (spent b) elapsed in
    (MkPollBudget (pb_budget b) s, pb_budget b <? s).

Definition remaining (b : PollBudget) : option Duration :=
  if pb_budget b =? 0 then None else Some (saturating_sub (pb_budget b) (spent b)).

(** ** The loops end *)

Lemma bucket_go_spec fuel size chars :
  size * 2 ^ N.of_nat fuel = 64 → 64 ≤ bucket_go fuel size chars ∨ chars ≤ bucket_go fuel size chars.
Proof.
  revert size. induction fuel as [|fuel IH]; intros size Hs; cbn [bucket_go].
  - rw N.pow_0_r in Hs. lia.
  - destruct ((size <? 64) && (size <? chars)) eqn:E; [|lia]. apply IH.
    rw -Hs Nat2N.inj_succ N.pow_succ_r'. lia.
Qed.

(** The doubling stops because its condition fails, not because it is cut. *)
Lemma pattern_bucket_spec chars : 64 ≤ pattern_bucket chars ∨ N.min chars u64_max ≤ pattern_bucket chars.
Proof. by apply bucket_go_spec. Qed.

Lemma find_char_some f s i :
  find_char f s = Some i →
  (∃ c t, s = take i s ++ c :: t ∧ f c = true) ∧ (∀ c, c ∈ take i s → f c = false) ∧ (i < length s)%nat.
Proof.
  revert i. induction s as [|c s IH]; intros i; cbn [find_char]; [done|]. destruct (f c) eqn:E.
  - intros [= <-]. cbn [take]. split_and!; [by exists c, s|by intros ? ?%elem_of_nil|cbn; lia].
  - destruct (find_char f s) as [j|]; [|done]. intros [= <-].
    destruct (IH j eq_refl) as ((d & t & Hs & Hd) & Hn & Hl). cbn [take]. split_and!.
    + exists d, t. cbn. by rw -Hs.
    + intros x [->|Hx]%elem_of_cons; auto.
    + cbn. lia.
Qed.

Lemma trim_start_length s : (length (trim_start s) ≤ length s)%nat.
Proof. destruct (trim_start_suffix s) as [p Hp]. rw {2}Hp length_app. lia. Qed.

(** Fuel for every character is fuel enough. *)
Lemma skip_assignments_fuel fuel rest :
  (length rest ≤ fuel)%nat → skip_assignments (Datatypes.S fuel) rest = skip_assignments fuel rest.
Proof.
  revert rest. induction fuel as [|fuel IH]; intros rest Hl.
  - by destruct rest; [|cbn in Hl; lia].
  - cbn [skip_assignments] in *. destruct (find_char (N.eqb 61) rest) as [eq|]; [|done].
    step_if; [done|]. destruct (find_char is_whitespace rest) as [space|] eqn:Es; [|done].
    bool_simpl. apply find_char_some in Es as ((c & t & Hs & Hc) & _ & Hsp). apply IH.
    pose proof (trim_start_length (drop space rest)) as Ht. rw length_drop in Ht.
    destruct space as [|space]; [|lia]. exfalso. rw take_0 in Hs. cbn [app] in Hs. subst rest.
    destruct eq as [|eq]; [done|]. cbn [take forallb] in *. bool_simpl.
    unfold is_ascii_alphanumeric, is_ascii_digit, is_ascii_alphabetic in *. unfold is_whitespace in Hc. lia.
Qed.

Section walk_facts.
Context (absorb : N → list N → N).

(** The walk visits every directory of the snapshot once. *)
Definition stack_dirs (stack : list (rstr * option (list Entry))) : nat :=
  sum_list_with (λ d, Datatypes.S (dirs_of d.2)) stack.

Lemma stack_dirs_app s t : stack_dirs (s ++ t) = (stack_dirs s + stack_dirs t)%nat.
Proof. apply sum_list_with_app. Qed.

Lemma stack_dirs_reverse s : stack_dirs (reverse s) = stack_dirs s.
Proof. apply sum_list_with_reverse. Qed.

Lemma scan_entries_pushed dir es hash :
  (stack_dirs (scan_entries absorb dir es hash).2 ≤ sum_list_with entry_dirs es)%nat.
Proof.
  revert hash. induction es as [|e es IH]; intros hash; [done|].
  destruct e as [|name [c|]|name [[size mtime]|]]; cbn [scan_entries sum_list_with entry_dirs]; try apply IH.
  all: destruct (skipped_dir name); [specialize (IH hash); lia|].
  all: specialize (IH hash); destruct (scan_entries absorb dir es hash) as [h pushed].
  all: cbn [snd stack_dirs sum_list_with dirs_of from_option] in *; unfold stack_dirs in IH; lia.
Qed.

Lemma walk_total fuel stack hash : (stack_dirs stack ≤ fuel)%nat → is_Some (walk absorb fuel stack hash).
Proof.
  revert stack hash. induction fuel as [|fuel IH]; intros [|[dir contents] stack] hash Hf; cbn [walk]; eauto.
  - cbn in Hf. lia.
  - cbn [stack_dirs sum_list_with snd] in Hf. destruct contents as [es|]; cbn [dirs_of from_option] in Hf.
    + pose proof (scan_entries_pushed dir es hash) as Hp.
      destruct (scan_entries absorb dir es hash) as [h pushed]. cbn [snd] in Hp. apply IH.
      rw stack_dirs_app stack_dirs_reverse. unfold stack_dirs in *. lia.
    + apply IH. unfold stack_dirs. lia.
Qed.

(** ** What is not progress *)

(** Drops build output and version-control state, at every depth. *)
Fixpoint prune (e : Entry) : list Entry :=
  match e with
  | EntryDir name (Some es) => if skipped_dir name then [] else [EntryDir name (Some (es ≫= prune))]
  | EntryDir name None => if skipped_dir name then [] else [e]
  | _ => [e]
  end.

Definition prune_all (c : option (list Entry)) : option (list Entry) := (λ es, es ≫= prune) <$> c.
Definition prune_dir (d : rstr * option (list Entry)) : rstr * option (list Entry) := (d.1, prune_all d.2).

Lemma scan_entries_prune dir es hash :
  scan_entries absorb dir (es ≫= prune) hash
  = ((scan_entries absorb dir es hash).1, prune_dir <$> (scan_entries absorb dir es hash).2).
Proof.
  revert hash. induction es as [|e es IH]; intros hash; [done|]. rw bind_cons.
  destruct e as [|name [c|]|name [[size mtime]|]]; cbn [prune app scan_entries]; try apply IH.
  all: destruct (skipped_dir name) eqn:E; [apply IH|]; cbn [app scan_entries]; rw E (IH hash).
  all: by destruct (scan_entries absorb dir es hash) as [h pushed].
Qed.

Lemma walk_prune fuel stack hash : walk absorb fuel (prune_dir <$> stack) hash = walk absorb fuel stack hash.
Proof.
  revert stack hash. induction fuel as [|fuel IH]; intros [|[dir contents] stack] hash; try done.
  rw fmap_cons. cbn [walk prune_dir fst snd]. destruct contents as [es|]; cbn [prune_all fmap option_fmap option_map].
  - rw scan_entries_prune. destruct (scan_entries absorb dir es hash) as [h pushed]. cbn [fst snd].
    rw -fmap_reverse -fmap_app. apply IH.
  - apply IH.
Qed.

Lemma walk_mono fuel fuel' stack hash h :
  walk absorb fuel stack hash = Some h → (fuel ≤ fuel')%nat → walk absorb fuel' stack hash = Some h.
Proof.
  revert fuel' stack hash. induction fuel as [|fuel IH]; intros fuel' [|[dir contents] stack] hash Hw Hf;
    cbn [walk] in Hw; try done; destruct fuel' as [|fuel']; try done; try lia; cbn [walk].
  destruct contents as [es|]; [|apply IH; [done|lia]].
  destruct (scan_entries absorb dir es hash) as [h' pushed]. apply IH; [done|lia].
Qed.

(** The walk of a whole snapshot ends, with one result whatever the fuel. *)
Lemma walk_root root hash : is_Some (walk absorb (Datatypes.S (dirs_of root)) [([], root)] hash).
Proof. apply walk_total. unfold stack_dirs. cbn [sum_list_with snd]. lia. Qed.

Lemma walk_det fuel fuel' stack hash h h' :
  walk absorb fuel stack hash = Some h → walk absorb fuel' stack hash = Some h' → h = h'.
Proof.
  intros H H'. apply (walk_mono _ (fuel + fuel')) in H; [|lia]. apply (walk_mono _ (fuel + fuel')) in H'; [|lia].
  congruence.
Qed.

End walk_facts.

(** Nothing below [.git], [target] or [node_modules] counts as progress. *)
Lemma fingerprint_ignores_build_output root writes :
  progress_fingerprint (prune_all root) writes = progress_fingerprint root writes.
Proof.
  unfold progress_fingerprint. f_equal. set (hash := fold_bytes _ _).
  pose proof (walk_prune fold_bytes (Datatypes.S (dirs_of root)) [([], root)] hash) as Hp.
  change (prune_dir <$> [([], root)]) with [([] : rstr, prune_all root)] in Hp.
  destruct (walk_root fold_bytes root hash) as [h Hh]. destruct (walk_root fold_bytes (prune_all root) hash) as [h' Hh'].
  rw Hh' Hh. cbn [default]. rw Hh in Hp. by apply (walk_det fold_bytes _ _ _ _ _ _ Hh' Hp).
Qed.

(** ** When the guards fire *)

(** The last [n] elements. *)
Definition lastn {A} (n : N) (l : list A) : list A := drop (length l - N.to_nat n) l.

Lemma pop_to_lastn w l : pop_to w l = lastn w l.
Proof.
  induction l as [|x l IH]; [done|]. cbn [pop_to]. unfold lastn in *. destruct (N.ltb_spec w (len (x :: l))) as [H|H].
  - rw IH. unfold len in H. cbn [length] in *.
    by replace (Datatypes.S (length l) - N.to_nat w)%nat with (Datatypes.S (length l - N.to_nat w)) by lia.
  - unfold len in H. by replace (length (x :: l) - N.to_nat w)%nat with O by lia.
Qed.

Lemma lastn_lastn {A} n (l : list A) x : 0 < n → lastn n (lastn n l ++ [x]) = lastn n (l ++ [x]).
Proof.
  intros Hn. unfold lastn. rw !length_app length_drop. cbn [length].
  rw !drop_app_le; [|rw ?length_drop; lia..]. f_equal. rw drop_drop. f_equal. lia.
Qed.

Lemma lastn_snoc {A} n (l : list A) x : 0 < n → ∃ k, lastn n (l ++ [x]) = k ++ [x].
Proof.
  intros Hn. unfold lastn. rw length_app. cbn [length]. rw drop_app_le; [eauto|lia].
Qed.

(** The state after a history of observations. *)
Definition churn_after (c : GuardrailsConfig) (history : list ToolCallShape) : ChurnWindow :=
  foldl (λ w s, (churn_observe w s).1) (ChurnWindow_new c) history.

Definition no_progress_after (c : GuardrailsConfig) (history : list N) : NoProgressGuard :=
  foldl (λ g f, (no_progress_observe g f).1) (NoProgressGuard_new c) history.

Definition poll_after (c : GuardrailsConfig) (history : list Duration) : PollBudget :=
  foldl (λ b d, (charge b d).1) (PollBudget_new c) history.

Lemma churn_after_shapes c history :
  churn_enabled c = true →
  churn_after c history = MkChurnWindow (tool_repeat_window c) (N.max (tool_repeat_count c) 2)
                            (lastn (tool_repeat_window c) history).
Proof.
  intros He. induction history as [|s h IH] using rev_ind.
  - unfold churn_after, ChurnWindow_new. cbn [foldl]. by rw He.
  - unfold churn_after in *. rw foldl_app IH. cbn [foldl]. unfold churn_observe. cbn [cw_window shapes repeat_count].
    unfold churn_enabled in He. bool_simpl. destruct (N.eqb_spec (tool_repeat_window c) 0); [lia|].
    rw pop_to_lastn lastn_lastn; [|lia].
    by destruct (list.last _).
Qed.

Lemma churn_fires c history s :
  (churn_observe (churn_after c history) s).2 = true ↔
  churn_enabled c = true
  ∧ tool_repeat_count c ≤ count (λ x, bool_decide (x = s)) (lastn (tool_repeat_window c) (history ++ [s])).
Proof.
  destruct (churn_enabled c) eqn:He.
  - rw churn_after_shapes; [|done]. unfold churn_observe. cbn [cw_window shapes repeat_count].
    unfold churn_enabled in He. bool_simpl. destruct (N.eqb_spec (tool_repeat_window c) 0); [lia|].
    rw pop_to_lastn lastn_lastn; [|lia].
    destruct (lastn_snoc (tool_repeat_window c) history s) as [k Hk]; [lia|]. rw Hk last_snoc. cbn [snd].
    rw N.leb_le. split; [|intros [_ ?]; lia]. intros ?. split; [done|]. lia.
  - assert (churn_after c history = ChurnWindow_new c) as ->.
    { unfold churn_after, ChurnWindow_new. rw He. induction history; [done|]. cbn [foldl]. done. }
    unfold ChurnWindow_new, churn_observe. rw He. cbn. split; [done|by intros [? _]].
Qed.

(** The length of the constant run that ends a history. *)
Fixpoint run_length (f : N) (rev_history : list N) : N :=
  match rev_history with
  | [] => 0
  | x :: h => if x =? f then 1 + run_length f h else 0
  end.

Lemma run_length_spec f h n :
  n ≤ run_length f h ↔ n ≤ len h ∧ ∀ x, x ∈ take (N.to_nat n) h → x = f.
Proof.
  revert n. induction h as [|y h IH]; intros n; cbn [run_length].
  - rw len_nil. split; [|by intros [? _]]. intros ?. split; [done|]. rw take_nil. by intros ? ?%elem_of_nil.
  - rw len_cons. destruct (N.eqb_spec y f) as [->|Hne].
    + destruct (decide (n = 0)) as [->|Hn].
      { split; [|lia]. intros _. split; [lia|]. by intros ? ?%elem_of_nil. }
      specialize (IH (n - 1)). replace (N.to_nat n) with (Datatypes.S (N.to_nat (n - 1))) by lia.
      cbn [take]. split.
      * intros H. destruct IH as [IH _]. destruct IH as [Hl Hx]; [lia|]. split; [lia|].
        intros x [->|Hin]%elem_of_cons; auto.
      * intros [Hl Hx]. assert (n - 1 ≤ run_length f h); [|lia]. apply IH. split; [lia|].
        intros x Hin. apply Hx. by right.
    + split; [|]. * intros H. assert (n = 0) as -> by lia. split; [lia|]. by intros ? ?%elem_of_nil.
      * intros [Hl Hx]. destruct (decide (n = 0)) as [->|Hn]; [lia|]. exfalso. apply Hne, Hx.
        replace (N.to_nat n) with (Datatypes.S (N.to_nat (n - 1))) by lia. cbn [take]. by left.
Qed.

Lemma no_progress_after_streak c history f :
  0 < no_progress_turns c →
  no_progress_after c (history ++ [f])
  = MkNoProgressGuard (no_progress_turns c) (run_length f (reverse (history ++ [f]))) (Some f).
Proof.
  intros He. revert f. induction history as [|g h IH] using rev_ind; intros f.
  - unfold no_progress_after, no_progress_observe, NoProgressGuard_new. cbn [foldl app np_threshold].
    destruct (N.eqb_spec (no_progress_turns c) 0); [lia|]. cbn [np_last fst].
    rw bool_decide_eq_false_2; [|done]. rw reverse_singleton. cbn [run_length]. by rw N.eqb_refl.
  - unfold no_progress_after in *. rw foldl_app IH. cbn [foldl]. unfold no_progress_observe. cbn [np_threshold np_last streak].
    destruct (N.eqb_spec (no_progress_turns c) 0); [lia|]. cbn [fst].
    rw (reverse_snoc (h ++ [g]) f). cbn [run_length]. rw N.eqb_refl.
    destruct (decide (g = f)) as [->|Hne].
    + rw bool_decide_eq_true_2; [|done]. f_equal. lia.
    + rw bool_decide_eq_false_2; [|congruence]. rw reverse_snoc. cbn [run_length].
      destruct (N.eqb_spec g f); [done|]. done.
Qed.

Lemma np_threshold_after c history : np_threshold (no_progress_after c history) = no_progress_turns c.
Proof.
  unfold no_progress_after. induction history as [|g h IH] using rev_ind; [done|]. rw foldl_app. cbn [foldl].
  rw -IH. unfold no_progress_observe. step_if; [done|]. by case_bool_decide.
Qed.

Lemma no_progress_fires c history f :
  (no_progress_observe (no_progress_after c history) f).2 = true ↔
  no_progress_enabled c = true
  ∧ no_progress_turns c ≤ len (history ++ [f])
  ∧ ∀ x, x ∈ take (N.to_nat (no_progress_turns c)) (reverse (history ++ [f])) → x = f.
Proof.
  unfold no_progress_enabled. rw N.ltb_lt. destruct (decide (no_progress_turns c = 0)) as [Hz|Hz].
  - assert (np_threshold (no_progress_after c history) = 0) as Ht.
    { by rw np_threshold_after. }
    unfold no_progress_observe. rw Ht. cbn. lia.
  - assert (no_progress_after c (history ++ [f]) = (no_progress_observe (no_progress_after c history) f).1) as E.
    { unfold no_progress_after. by rw foldl_app. }
    rw no_progress_after_streak in E; [|lia]. pose proof (run_length_spec f (reverse (history ++ [f])) (no_progress_turns c)) as Hr.
    rw {1}/len length_reverse in Hr. change (N.of_nat (length (history ++ [f]))) with (len (history ++ [f])) in Hr.
    assert ((no_progress_observe (no_progress_after c history) f).2
            = (no_progress_turns c <=? run_length f (reverse (history ++ [f])))) as ->.
    { unfold no_progress_observe in *. destruct (np_threshold _ =? 0) eqn:Ez; cbn [fst snd] in *.
      - rw -E in Ez. cbn in Ez. bool_simpl. lia.
      - rw -E. cbn [streak]. f_equal. by case_bool_decide; cbn in E; simplify_eq. }
    rw N.leb_le Hr. split; [intros ?; split; [lia|done]|by intros [_ ?]].
Qed.

Lemma poll_after_spent c history :
  ci_poll_budget c ≠ 0 →
  poll_after c history = MkPollBudget (ci_poll_budget c) (N.min (foldr N.add 0 history) Duration_MAX).
Proof.
  intros Hb. induction history as [|d h IH] using rev_ind; [done|].
  unfold poll_after in *. rw foldl_app IH. cbn [foldl]. unfold charge. cbn [pb_budget spent].
  destruct (N.eqb_spec (ci_poll_budget c) 0); [done|]. cbn [fst]. f_equal.
  unfold duration_saturating_add, saturating_add. rw foldr_app. cbn [foldr].
  assert (foldr N.add (d + 0) h = foldr N.add 0 h + d) as ->; [|lia].
  clear. induction h as [|x h IH]; cbn; lia.
Qed.

Lemma poll_fires c history d :
  (charge (poll_after c history) d).2 = true ↔
  poll_budget_enabled c = true ∧ ci_poll_budget c < N.min (foldr N.add 0 (history ++ [d])) Duration_MAX.
Proof.
  unfold poll_budget_enabled. rw negb_true_iff N.eqb_neq.
  destruct (decide (ci_poll_budget c = 0)) as [Hz|Hz].
  - assert (poll_after c history = PollBudget_new c) as ->.
    { unfold poll_after. induction history as [|x h IH]; [done|]. cbn [foldl].
      assert ((charge (PollBudget_new c) x).1 = PollBudget_new c) as ->; [|done].
      unfold charge, PollBudget_new. cbn [pb_budget]. by rw Hz. }
    unfold charge, PollBudget_new. cbn [pb_budget]. rw Hz. cbn. split; [done|by intros [? _]].
  - assert ((charge (poll_after c history) d).2 = (ci_poll_budget c <? spent (poll_after c (history ++ [d])))) as ->.
    { assert (poll_after c (history ++ [d]) = (charge (poll_after c history) d).1) as ->.
      { unfold poll_after. by rw foldl_app. }
      rw (poll_after_spent c history Hz). unfold charge. cbn [pb_budget spent].
      by destruct (N.eqb_spec (ci_poll_budget c) 0). }
    rw (poll_after_spent c (history ++ [d]) Hz). cbn [spent]. rw N.ltb_lt.
    split; [by split|by intros [_ ?]].
Qed.

(** Over any history of observations, each guard fires on exactly the turns
    it documents: churn when the newest shape occurs [tool_repeat_count] times
    among the last [tool_repeat_window]; no progress when the last
    [no_progress_turns] fingerprints are equal; the poll budget when the
    charged time exceeds it; and none when its threshold is zero. *)
Theorem guards_fire_exactly c shapes_ fingerprints charges s f d :
  ((churn_observe (churn_after c shapes_) s).2 = true ↔
     churn_enabled c = true
     ∧ tool_repeat_count c
       ≤ count (λ x, bool_decide (x = s)) (lastn (tool_repeat_window c) (shapes_ ++ [s])))
  ∧ ((no_progress_observe (no_progress_after c fingerprints) f).2 = true ↔
     no_progress_enabled c = true ∧ no_progress_turns c ≤ len (fingerprints ++ [f])
     ∧ ∀ x, x ∈ take (N.to_nat (no_progress_turns c)) (reverse (fingerprints ++ [f])) → x = f)
  ∧ ((charge (poll_after c charges) d).2 = true ↔
     poll_budget_enabled c = true
     ∧ ci_poll_budget c < N.min (foldr N.add 0 (charges ++ [d])) Duration_MAX).
Proof. split_and!; [apply churn_fires|apply no_progress_fires|apply poll_fires]. Qed.

(** A loop that sleeps between two checks waits on CI; a build does not. *)
Example poll_shaped_examples :
  poll_shaped (lit "while true; do sleep 60; gh pr checks 12; done") = true
  ∧ poll_shaped (lit "gh run watch 7") = true ∧ poll_shaped (lit "gh pr view 12") = false
  ∧ poll_shaped (lit "cargo build && sleep 1") = false
  ∧ bash_first_word (lit "  FOO=1 BAR=x 'cargo' test") = lit "cargo".
Proof. by vm_compute. Qed.
