(* ===== verification/SecretShape.v ===== *)
(** * Secret-shaped text

    [crates/orchestraitor-core/src/secret_shape.rs]: the heuristic that refuses
    text before it is recorded. *)

From S2P Require Import Prelude BTree Text Substring.
From Stdlib Require Import ZifyBool.

(** The rests after the occurrences of [p], as [str::match_indices] finds them. *)
Fixpoint after_matches_go (fuel : nat) (p s : rstr) : list rstr :=
  match fuel with
  | O => []
  | Datatypes.S fuel =>
      match find_str p s with
      | None => []
      | Some i => let rest := drop (i + length p) s in rest :: after_matches_go fuel p rest
      end
  end.

Definition after_matches (p s : rstr) : list rstr := after_matches_go (length s) p s.

Fixpoint take_while (f : N → bool) (s : rstr) : rstr :=
  match s with
  | [] => []
  | c :: s' => if f c then c :: take_while f s' else []
  end.

Fixpoint drop_while (f : N → bool) (s : rstr) : rstr :=
  match s with
  | [] => []
  | c :: s' => if f c then drop_while f s' else s
  end.

Definition is_token_char (c : N) : bool := is_ascii_alphanumeric c || (c =? 95) || (c =? 45).

Definition is_auth_scheme_word (word : rstr) : bool :=
  bool_decide (word ∈ (lit <$> ["basic"; "bearer"; "token"; "digest"; "negotiate"; "ntlm"; "oauth"]%string)).

Definition long_token_after (lower marker : rstr) : bool :=
  existsb (λ after,
    let rest := drop_while (λ c, is_whitespace c || (c =? 34) || (c =? 58)) after in
    let words := List.filter (λ w, negb (is_empty w))
                   (split_by (λ c, is_whitespace c || (c =? 34) || (c =? 39)) rest) in
    let credential := match words with
                      | first :: others => if is_auth_scheme_word first then head others else Some first
                      | [] => None
                      end in
    from_option (λ word, 16 <=? len word) false credential) (after_matches marker lower).

Definition is_ascii_hexdigit (c : N) : bool :=
  is_ascii_digit c || ((65 <=? c) && (c <=? 70)) || ((97 <=? c) && (c <=? 102)).

Fixpoint hex_runs_go (current : N) (s : rstr) : list N :=
  match s with
  | [] => if 0 <? current then [current] else []
  | c :: s' =>
      if is_ascii_hexdigit c then hex_runs_go (current + 1) s'
      else (if 0 <? current then [current] else []) ++ hex_runs_go 0 s'
  end.

Definition hex_runs (value : rstr) : list N := hex_runs_go 0 value.

Definition in_base64_alphabet (c : N) : bool :=
  is_ascii_alphanumeric c || (c =? 43) || (c =? 47) || (c =? 61) || (c =? 45) || (c =? 95).

Fixpoint base64_go (run_chars : N) (has_letter has_digit : bool) (s : rstr) : bool :=
  match s with
  | [] => false
  | c :: s' =>
      let '(n, l, d) := if in_base64_alphabet c
                        then (run_chars + 1, has_letter || is_ascii_alphabetic c, has_digit || is_ascii_digit c)
                        else (0, false, false) in
      if (43 <=? n) && l && d then true else base64_go n l d s'
  end.

Definition is_long_base64_run (value : rstr) : bool := base64_go 0 false false value.

Definition GITHUB_PREFIXES : list rstr :=
  lit <$> ["ghp_"; "gho_"; "ghu_"; "ghs_"; "ghr_"; "github_pat_"]%string.

Definition contains_secret_shaped (value : rstr) : bool :=
  let lower := to_ascii_lowercase value in
  if contains_str (lit "secret://") lower then true
  else if existsb (λ prefix, contains_str prefix lower) GITHUB_PREFIXES then true
  else if existsb (λ after, 16 <=? len (take_while is_token_char after)) (after_matches (lit "sk-") lower) then true
  else if contains_str (lit "bearer") lower && long_token_after lower (lit "bearer") then true
  else if existsb (long_token_after lower) (lit <$> ["authorization:"; "x-api-key:"; "x-goog-api-key:"]%string) then true
  else if existsb (λ run, 32 <=? run) (hex_runs value) then true
  else is_long_base64_run value.

(** ** Every occurrence is looked at *)

(** No proper prefix of the pattern is a suffix of it, so occurrences do not
    overlap. *)
Definition borderless (p : rstr) : Prop :=
  ∀ k, (0 < k < length p)%nat → take k p ≠ drop (length p - k) p.

Lemma occurrences_apart p s a b i :
  borderless p → s = a ++ p ++ b → find_str p s = Some i → i = length a ∨ (i + length p ≤ length a)%nat.
Proof.
  intros Hp Hs Hi. pose proof Hi as (_ & _ & Hmin)%find_str_some. pose proof (Hmin a b Hs) as Hle.
  destruct (decide (i = length a)); [by left|]. destruct (decide (i + length p ≤ length a)%nat); [by right|].
  exfalso. apply (Hp (i + length p - length a)%nat); [lia|].
  pose proof (find_str_split _ _ _ Hi) as Hf.
  assert (length (take i s) = i) as Hti. { rw length_take_le; [done|]. apply find_str_some in Hi. naive_solver. }
  assert (drop (length a) s = p ++ b) as E1 by (by rw Hs drop_app_length).
  assert (drop (length a) s = drop (length a - i) p ++ drop (i + length p) s) as E2.
  { rw {1}Hf drop_app_ge; [|lia]. rw Hti drop_app_le; [done|lia]. }
  rw E1 in E2. apply (f_equal (take (i + length p - length a))) in E2.
  rw take_app_le in E2; [|lia]. rw E2. rw take_app_length'; [f_equal; lia|rw length_drop; lia].
Qed.

Lemma after_matches_complete p a b :
  borderless p → p ≠ [] → b ∈ after_matches p (a ++ p ++ b).
Proof.
  intros Hp Hne. unfold after_matches. remember (length (a ++ p ++ b)) as fuel eqn:Ef.
  assert (length (a ++ p ++ b) ≤ fuel)%nat as Hl by lia. clear Ef. revert a Hl.
  induction fuel as [|fuel IH]; intros a Hl.
  { rw !length_app in Hl. destruct p; [done|]. cbn in Hl. lia. }
  cbn [after_matches_go]. destruct (find_str p (a ++ p ++ b)) as [i|] eqn:Ei.
  2: { by apply find_str_none with (a := a) (b := b) in Ei. }
  destruct (occurrences_apart p _ a b i Hp eq_refl Ei) as [->|Hle].
  - rw (app_assoc a) -length_app drop_app_length. left.
  - right. rw drop_app_le; [|done]. apply IH. rw length_app length_drop. rw length_app in Hl.
    destruct p; [done|]. cbn in *. lia.
Qed.

Lemma take_while_app f w b : (∀ c, c ∈ w → f c = true) → take_while f (w ++ b) = w ++ take_while f b.
Proof.
  induction w as [|c w IH]; intros Hw; [done|]. cbn. rw (Hw c) ?IH; [done|set_solver..].
Qed.

Lemma hex_runs_prefix w b n :
  (∀ c, c ∈ w → is_ascii_hexdigit c = true) → 0 < n + len w →
  ∃ r, r ∈ hex_runs_go n (w ++ b) ∧ n + len w ≤ r.
Proof.
  revert n. induction w as [|c w IH]; intros n Hw Hn.
  - rw len_nil in Hn. rw len_nil. cbn [app]. revert n Hn. induction b as [|c b IH]; intros n Hn; cbn [hex_runs_go].
    + destruct (N.ltb_spec 0 n); [|lia]. exists n. split; [left|lia].
    + destruct (is_ascii_hexdigit c).
      * destruct (IH (n + 1)) as (r & Hr & ?); [lia|]. exists r. split; [done|lia].
      * destruct (N.ltb_spec 0 n); [|lia]. exists n. split; [left|lia].
  - rw -app_comm_cons. cbn [hex_runs_go]. rw (Hw c); [|left]. rw len_cons.
    destruct (IH (n + 1)) as (r & Hr & Hle); [set_solver|lia|]. exists r. split; [done|lia].
Qed.

Lemma hex_runs_infix a w b n :
  (∀ c, c ∈ w → is_ascii_hexdigit c = true) → 0 < len w →
  ∃ r, r ∈ hex_runs_go n (a ++ w ++ b) ∧ len w ≤ r.
Proof.
  intros Hw Hl. revert n. induction a as [|c a IH]; intros n.
  - destruct (hex_runs_prefix w b n Hw) as (r & Hr & ?); [lia|]. exists r. split; [done|lia].
  - rw -app_comm_cons. cbn [hex_runs_go]. destruct (is_ascii_hexdigit c); [apply IH|].
    destruct (IH 0) as (r & Hr & ?). exists r. split; [|done]. apply elem_of_app. by right.
Qed.

Lemma base64_prefix w b n l d :
  (∀ c, c ∈ w → in_base64_alphabet c = true) → 0 < len w → 43 ≤ n + len w →
  l || existsb is_ascii_alphabetic w = true → d || existsb is_ascii_digit w = true →
  base64_go n l d (w ++ b) = true.
Proof.
  revert n l d. induction w as [|c w IH]; intros n l d Hw Hl Hn Hle Hd; [done|].
  rw -app_comm_cons. cbn [base64_go]. rw (Hw c); [|left].
  cbn [existsb] in *. rw (orb_assoc l) in Hle. rw (orb_assoc d) in Hd. rw len_cons in Hn.
  destruct ((43 <=? n + 1) && _ && _) eqn:E; [done|].
  destruct w as [|c' w]; [|apply IH; [set_solver|rw len_cons; lia|lia|done..]].
  exfalso. rw len_nil in Hn. cbn [existsb] in Hle, Hd. rw orb_false_r in Hle. rw orb_false_r in Hd.
  rw Hle Hd !andb_true_r in E. lia.
Qed.

Lemma base64_infix a w b n l d :
  (∀ c, c ∈ w → in_base64_alphabet c = true) → 43 ≤ len w →
  existsb is_ascii_alphabetic w = true → existsb is_ascii_digit w = true →
  base64_go n l d (a ++ w ++ b) = true.
Proof.
  intros Hw Hn Hl Hd. revert n l d. induction a as [|c a IH]; intros n l d.
  - apply (base64_prefix w); [done|lia|lia|by rw Hl orb_true_r|by rw Hd orb_true_r].
  - rw -app_comm_cons. cbn [base64_go]. destruct (if in_base64_alphabet c then _ else _) as [[n' l'] d'].
    step_if; [done|apply IH].
Qed.

Lemma sk_borderless : borderless (lit "sk-").
Proof. intros [|[|[|k]]] Hk; cbn in Hk; try lia; by vm_compute. Qed.

Lemma lowercase_app s t : to_ascii_lowercase (s ++ t) = to_ascii_lowercase s ++ to_ascii_lowercase t.
Proof. apply fmap_app. Qed.

Lemma lower_token_char c : is_token_char c = true → is_token_char (to_ascii_lower c) = true.
Proof.
  unfold is_token_char, is_ascii_alphanumeric, is_ascii_digit, is_ascii_alphabetic, to_ascii_lower.
  step_if; lia.
Qed.

(** The shapes of the heuristic whose match does not depend on context. *)
Inductive secret_shape : rstr → Prop :=
| shape_uri s : to_ascii_lowercase s = lit "secret://" → secret_shape s
| shape_github s : to_ascii_lowercase s ∈ GITHUB_PREFIXES → secret_shape s
| shape_sk s key :
    to_ascii_lowercase s = lit "sk-" → (∀ c, c ∈ key → is_token_char c = true) → 16 ≤ len key →
    secret_shape (s ++ key)
| shape_hex s : (∀ c, c ∈ s → is_ascii_hexdigit c = true) → 32 ≤ len s → secret_shape s
| shape_base64 s :
    (∀ c, c ∈ s → in_base64_alphabet c = true) → 43 ≤ len s →
    existsb is_ascii_alphabetic s = true → existsb is_ascii_digit s = true → secret_shape s.

(** A secret URI, a GitHub token prefix, an [sk-] key, a long hex run or a
    long base64 run is found wherever it stands in the text: nothing before or
    after it, and no earlier harmless [sk-], hides it. *)
Theorem secret_shapes_found a s b : secret_shape s → contains_secret_shaped (a ++ s ++ b) = true.
Proof.
  intros Hs. unfold contains_secret_shaped. rw !lowercase_app.
  destruct Hs as [s Hs|s Hs|s key Hs Hk Hl|s Hs Hl|s Hs Hl Ha Hd].
  - rw (proj2 (contains_str_spec (lit "secret://") _)); [done|]. rw Hs. eauto.
  - step_if; [done|]. rw (proj2 (existsb_true _ GITHUB_PREFIXES)); [done|].
    exists (to_ascii_lowercase s). split; [done|]. apply contains_str_spec. eauto.
  - do 2 (step_if; [done|]). rw (proj2 (existsb_true _ (after_matches _ _))); [done|].
    exists (to_ascii_lowercase key ++ to_ascii_lowercase b). split.
    + rw lowercase_app Hs -app_assoc. apply after_matches_complete; [apply sk_borderless|done].
    + apply N.leb_le. rw take_while_app.
      * rw len_app. unfold len at 1. unfold to_ascii_lowercase at 1. rw length_fmap.
        change (N.of_nat (length key)) with (len key). lia.
      * intros c (x & -> & Hx)%list_elem_of_fmap. by apply lower_token_char, Hk.
  - do 5 (step_if; [done|]). rw (proj2 (existsb_true _ (hex_runs _))); [done|].
    destruct (hex_runs_infix a s b 0 Hs) as (r & Hr & Hle); [lia|]. exists r. split; [done|]. lia.
  - do 6 (step_if; [done|]). by apply base64_infix.
Qed.

Lemma secret_shapes_found_witness :
  contains_secret_shaped (lit "use sk-short first, then " ++ (lit "SK-" ++ lit "abcdef0123456789") ++ lit " ok") = true.
Proof.
  apply secret_shapes_found. apply shape_sk; [by vm_compute| |by vm_compute].
  apply forallb_true. by vm_compute.
Defined.
