(* ===== verification/Thoughts.v ===== *)
(** * The thought chain

    [crates/orchestraitor-worker/src/think.rs]: the counters behind the budgets
    and the ordering rules of the [think] tool. *)

From S2P Require Import Prelude BTree Text.
From Stdlib Require Import ZifyBool.

Definition REASON_THOUGHT_EMPTY : rstr := lit "thought-empty".
Definition REASON_THOUGHT_TOO_LARGE : rstr := lit "thought-too-large".
Definition REASON_THOUGHT_NUMBER_REGRESSED : rstr := lit "thought-number-regressed".
Definition REASON_REVISION_TARGET_UNKNOWN : rstr := lit "revision-target-unknown".
Definition REASON_THOUGHT_BUDGET_EXHAUSTED : rstr := lit "thought-budget-exhausted".
Definition REASON_SECRET_SHAPED_CONTENT : rstr := lit "secret-shaped-content".
Definition REASON_BRANCHING_NOT_SUPPORTED : rstr := lit "branching-not-supported-in-v1".

Definition MAX_THOUGHTS_PER_SEQUENCE : N := 256.
Definition MAX_THOUGHTS_PER_RUN : N := 512.

Record ReasoningRecord := MkReasoningRecord {
  rr_accepted : bool;
  refusal_reason : option rstr;
  rr_thought_number : N;
  rr_total_thoughts : N;
  rr_next_thought_needed : bool;
  rr_is_revision : bool;
  rr_revises_thought : option N;
  thought_chars : N;
  rr_sequence_id : N;
  thought_text : option rstr;
}.

Record ThoughtChain := MkThoughtChain {
  highest_number : N;
  sequence_count : N;
  run_count : N;
  sequence_id : N;
  sequence_closed : bool;
}.

Definition ThoughtChain_new : ThoughtChain := MkThoughtChain 0 0 0 1 false.

Definition validate (c : ThoughtChain) (thought_number total_thoughts : N) (is_revision : bool)
    (revises_thought : option N) : result unit rstr :=
  if MAX_THOUGHTS_PER_RUN <=? run_count c then Err REASON_THOUGHT_BUDGET_EXHAUSTED
  else if is_revision then
    match revises_thought with
    | None => Err REASON_REVISION_TARGET_UNKNOWN
    | Some target =>
        if MAX_THOUGHTS_PER_SEQUENCE <=? sequence_count c then Err REASON_THOUGHT_BUDGET_EXHAUSTED
        else if (target =? 0) || (highest_number c =? 0) || (highest_number c <? target)
                || (thought_number =? 0) || (highest_number c <? thought_number)
                || (MAX_THOUGHTS_PER_SEQUENCE <? thought_number)
        then Err REASON_REVISION_TARGET_UNKNOWN
        else Ok tt
    end
  else if total_thoughts =? 0 then Err REASON_THOUGHT_NUMBER_REGRESSED
  else if (thought_number =? 1) && sequence_closed c then Ok tt
  else if MAX_THOUGHTS_PER_SEQUENCE <? thought_number then Err REASON_THOUGHT_BUDGET_EXHAUSTED
  else if thought_number <=? highest_number c then Err REASON_THOUGHT_NUMBER_REGRESSED
  else Ok tt.

Definition accept (c : ThoughtChain) (thought_number : N) (next_thought_needed is_revision : bool)
    : ThoughtChain :=
  let fresh := negb is_revision && (thought_number =? 1) && sequence_closed c in
  MkThoughtChain
    (N.max (if fresh then 0 else highest_number c) thought_number)
    (saturating_add u32_max (if fresh then 0 else sequence_count c) 1)
    (saturating_add u32_max (run_count c) 1)
    (if fresh then saturating_add u32_max (sequence_id c) 1 else sequence_id c)
    (negb next_thought_needed).

(** ** Runs of calls *)

Record ThoughtCall := MkThoughtCall {
  tc_number : N;
  tc_total : N;
  tc_next : bool;
  tc_revision : bool;
  tc_revises : option N;
}.

(** A call is accepted when it is valid, and leaves the chain alone otherwise. *)
Definition offer (c : ThoughtChain) (call : ThoughtCall) : ThoughtChain * bool :=
  match validate c (tc_number call) (tc_total call) (tc_revision call) (tc_revises call) with
  | Ok _ => (accept c (tc_number call) (tc_next call) (tc_revision call), true)
  | Err _ => (c, false)
  end.

(** The accepted calls of a run, oldest first, with the sequence each joined. *)
Fixpoint accepted_calls (c : ThoughtChain) (calls : list ThoughtCall) : list (N * ThoughtCall) :=
  match calls with
  | [] => []
  | call :: calls' =>
      let '(c', ok) := offer c call in
      (if ok then [(sequence_id c', call)] else []) ++ accepted_calls c' calls'
  end.

Definition chain_after (c : ThoughtChain) (calls : list ThoughtCall) : ThoughtChain :=
  foldl (λ c call, (offer c call).1) c calls.

(** ** The budget *)

Record chain_ok (c : ThoughtChain) : Prop := {
  ok_run : run_count c ≤ MAX_THOUGHTS_PER_RUN;
  ok_highest : highest_number c ≤ MAX_THOUGHTS_PER_SEQUENCE;
  ok_sequence : sequence_count c ≤ run_count c;
  ok_id : 1 ≤ sequence_id c ≤ 1 + run_count c;
}.

Lemma chain_ok_new : chain_ok ThoughtChain_new.
Proof. by split. Qed.

Ltac unfold_budgets := unfold MAX_THOUGHTS_PER_RUN, MAX_THOUGHTS_PER_SEQUENCE, saturating_add, u32_max in *.

Lemma offer_ok c call : chain_ok c → chain_ok (offer c call).1.
Proof.
  intros []. unfold offer. destruct (validate _ _ _ _ _) as [[]|] eqn:E; [|by split].
  unfold validate in E. unfold_budgets.
  step_if; [done|]. cbn [fst]. unfold accept.
  destruct (tc_revision call); cbn [negb andb].
  - destruct (tc_revises call); [|done]. do 2 (step_if; [done|]). bool_simpl. split; cbn; unfold_budgets; lia.
  - do 2 (step_if; [|]; try done).
    + split; cbn; unfold_budgets; lia.
    + do 2 (step_if; [done|]). split; cbn; unfold_budgets; lia.
Qed.

(** A call is accepted exactly when the run's count goes up. *)
Lemma offer_count c call :
  chain_ok c → run_count (offer c call).1 = run_count c + (if (offer c call).2 then 1 else 0).
Proof.
  intros []. unfold offer. destruct (validate _ _ _ _ _) eqn:E; cbn [fst snd]; [|lia].
  cbn [accept run_count]. unfold_budgets. lia.
Qed.

Lemma accepted_calls_count c calls :
  chain_ok c → run_count (chain_after c calls) = run_count c + len (accepted_calls c calls)
  ∧ chain_ok (chain_after c calls).
Proof.
  revert c. induction calls as [|call calls IH]; intros c Hc; cbn [accepted_calls chain_after foldl].
  { rw len_nil. split; [lia|done]. }
  pose proof (offer_count c call Hc) as Hn. pose proof (offer_ok c call Hc) as Hok.
  destruct (offer c call) as [c' ok]. cbn [fst snd] in *. destruct (IH c' Hok) as [IH1 IH2].
  split; [|done]. unfold chain_after in IH1. rw IH1 Hn len_app. destruct ok; rw ?len_cons len_nil; lia.
Qed.

(** ** The order *)

(** Within a sequence, thoughts that are not revisions advance. *)
Definition advances (a b : N * ThoughtCall) : Prop :=
  a.1 ≤ b.1 ∧ (tc_revision a.2 = false → tc_revision b.2 = false → a.1 = b.1 → tc_number a.2 < tc_number b.2).

(** Case analysis on the condition a hypothesis branches on. *)
Ltac step_in H := match type of H with context [ if ?b then _ else _ ] => destruct b eqn:? end.

(** What an accepted call does to the chain. *)
Lemma offer_accepted c call :
  chain_ok c → (offer c call).2 = true →
  let c' := (offer c call).1 in
  1 ≤ tc_number call ≤ MAX_THOUGHTS_PER_SEQUENCE
  ∧ tc_number call ≤ highest_number c'
  ∧ ((sequence_id c' = sequence_id c ∧ highest_number c ≤ highest_number c'
      ∧ (tc_revision call = false → highest_number c < tc_number call))
     ∨ sequence_id c' = sequence_id c + 1).
Proof.
  intros []. unfold offer. destruct (validate _ _ _ _ _) as [[]|] eqn:E; [|done]. intros _. cbn [fst].
  unfold validate in E. unfold_budgets. step_in E; [done|]. unfold accept.
  destruct (tc_revision call); cbn [negb andb].
  - destruct (tc_revises call); [|done]. do 2 (step_in E; [done|]). cbn. split_and!; try lia.
  - step_in E; [done|]. destruct ((tc_number call =? 1) && sequence_closed c) eqn:Ef.
    + cbn. unfold_budgets. lia.
    + do 2 (step_in E; [done|]). cbn. lia.
Qed.

Lemma accepted_calls_from c calls :
  chain_ok c →
  StronglySorted advances (accepted_calls c calls)
  ∧ ∀ x, x ∈ accepted_calls c calls →
      1 ≤ tc_number x.2 ≤ MAX_THOUGHTS_PER_SEQUENCE ∧ sequence_id c ≤ x.1
      ∧ (tc_revision x.2 = false → x.1 = sequence_id c → highest_number c < tc_number x.2).
Proof.
  revert c. induction calls as [|call calls IH]; intros c Hc; cbn [accepted_calls].
  { split; [constructor|]. by intros x ?%elem_of_nil. }
  pose proof (offer_accepted c call Hc) as Hacc. pose proof (offer_ok c call Hc) as Hok.
  assert ((offer c call).2 = false → (offer c call).1 = c) as Hrej.
  { unfold offer. by destruct (validate _ _ _ _ _). }
  destruct (offer c call) as [c' ok]. cbn [fst snd] in *. destruct (IH c' Hok) as [IHs IHx].
  destruct ok; [|rw -(Hrej eq_refl); by split].
  destruct (Hacc eq_refl) as (Hn & Hh & Hcase). cbn [app]. split.
  - constructor; [done|]. apply Forall_forall. intros x Hx. destruct (IHx x Hx) as (_ & H1 & H2).
    split; cbn [fst snd]; [done|]. intros _ Hr Hid. specialize (H2 Hr). lia.
  - intros x [->|Hx]%elem_of_cons; cbn [fst snd].
    + split_and!; lia.
    + destruct (IHx x Hx) as (Hb & H1 & H2). split_and!; lia.
Qed.

(** However the model calls the [think] tool, a run accepts at most 512
    thoughts, each numbered between 1 and 256, sequence ids never go back, and
    within a sequence the thoughts that are not revisions are numbered in
    strictly increasing order. *)
Theorem thoughts_bounded_and_ordered calls :
  len (accepted_calls ThoughtChain_new calls) ≤ MAX_THOUGHTS_PER_RUN
  ∧ Forall (λ x, 1 ≤ tc_number x.2 ≤ MAX_THOUGHTS_PER_SEQUENCE) (accepted_calls ThoughtChain_new calls)
  ∧ StronglySorted advances (accepted_calls ThoughtChain_new calls).
Proof.
  destruct (accepted_calls_count ThoughtChain_new calls chain_ok_new) as [Hc Hok].
  destruct (accepted_calls_from ThoughtChain_new calls chain_ok_new) as [Hs Hx]. split_and!; [|by apply Forall_forall; intros x Hin; apply Hx|done].
  pose proof (ok_run _ Hok) as Hr. rw Hc in Hr. cbn in Hr. lia.
Qed.

(** The ceiling of 256 thoughts to a sequence binds the numbers and the
    revisions, not the count: one thought, 255 revisions of it and the thoughts
    2 to 256 are 511 accepted thoughts of one sequence. *)
Abbreviation revising_run :=
  (MkThoughtCall 1 256 true false None
   :: replicate 255 (MkThoughtCall 1 256 true true (Some 1))
   ++ ((λ i, MkThoughtCall (N.of_nat i) 256 true false None) <$> seq 2 255)).

Lemma sequence_outgrows_ceiling :
  sequence_count (chain_after ThoughtChain_new revising_run) = 511
  ∧ sequence_id (chain_after ThoughtChain_new revising_run) = 1.
Proof. by vm_compute. Qed.
