(* ===== verification/WorkerTools.v ===== *)
(** * The worker's tools

    [crates/orchestraitor-worker/src]: path confinement ([paths.rs]), content
    search ([search.rs]), declared tools ([tooldef.rs]) and the executor
    ([tools.rs]).

    The executor is a state monad.  The environment is any type [W] with the
    operations of [ToolHost]: the file system below the worktree and the
    mediated interpreter, each answering as it likes.  File contents and
    interpreter output are given as decoded text.  [accesses] logs what was
    asked of the environment, with the answers that matter. *)

From S2P Require Import Prelude BTree Text Time Substring SecretShape RunState WorkerAction Thoughts.
From Stdlib Require Import ZifyBool.

(** ** Paths *)

(** An absolute path is the list of its components. *)
Abbreviation path := (list rstr) (only parsing).

Inductive Component := RootDir | CurDir | ParentDir | Normal (part : rstr).

Fixpoint piece_components (first : bool) (pieces : list rstr) : list Component :=
  match pieces with
  | [] => []
  | p :: ps =>
      (if is_empty p then []
       else if bool_decide (p = lit ".") then (if first then [CurDir] else [])
       else if bool_decide (p = lit "..") then [ParentDir]
       else [Normal p]) ++ piece_components false ps
  end.

(** [Path::components] of a Unix path. *)
Definition components (s : rstr) : list Component :=
  let absolute := bool_decide (head s = Some 47) in
  (if absolute then [RootDir] else []) ++ piece_components (negb absolute) (split 47 s).

Inductive PathRejection := PathEmpty | Absolute | EscapesWorktree | SymlinkComponent | Inaccessible.

Definition reason_code (r : PathRejection) : rstr :=
  match r with
  | PathEmpty => lit "path-empty"
  | Absolute => lit "path-absolute"
  | EscapesWorktree => lit "path-escape"
  | SymlinkComponent => lit "path-symlink"
  | Inaccessible => lit "path-inaccessible"
  end.

Fixpoint normalize_go (parts : list rstr) (cs : list Component) : result (list rstr) PathRejection :=
  match cs with
  | [] => Ok parts
  | CurDir :: cs' => normalize_go parts cs'
  | Normal part :: cs' => normalize_go (parts ++ [part]) cs'
  | ParentDir :: cs' =>
      match parts with
      | [] => Err EscapesWorktree
      | _ => normalize_go (take (length parts - 1) parts) cs'
      end
  | RootDir :: _ => Err Absolute
  end.

Definition normalize_relative (relative : rstr) : result (list rstr) PathRejection :=
  if is_empty relative then Err PathEmpty
  else
    let? parts := normalize_go [] (components relative) in
    if is_empty parts then Err PathEmpty else Ok parts.

(** ** Declared tools *)

Inductive InternalTool := ItReadFile | ItSearch | ItBash | ItThink.

#[export] Instance InternalTool_eq_dec : EqDecision InternalTool.
Proof. solve_decision. Defined.

Definition tool_name (t : InternalTool) : rstr :=
  match t with
  | ItReadFile => lit "read_file"
  | ItSearch => lit "search"
  | ItBash => lit "bash"
  | ItThink => lit "think"
  end.

(** The derived order of the enum, that a [BTreeSet] of tools iterates in. *)
Definition all_internal_tools : list InternalTool := [ItReadFile; ItSearch; ItBash; ItThink].

Inductive ToolMechanism :=
| Command (argv : list rstr)
| Subagent (role : rstr) (internal_tools : list InternalTool) (instructions : option rstr).

Record ToolBudget := MkToolBudget {
  tb_max_turns : N;
  tb_wall_clock_secs : option N;
  tb_max_result_bytes : N;
  tb_structured_summary : bool;
}.

Definition ToolBudget_bootstrap_defaults : ToolBudget := MkToolBudget 12 None (8 * 1024) false.

Inductive ReasoningEffort := Low | Medium | High.

Record ToolDefinition := MkToolDefinition {
  td_id : rstr;
  mechanism : ToolMechanism;
  td_budget : ToolBudget;
  visible_to : list rstr;
  td_effort : option ReasoningEffort;
  td_max_summary_bytes : option N;
  td_structured_summary : option bool;
}.

Definition is_visible_to (t : ToolDefinition) (role : rstr) : bool := bool_decide (role ∈ visible_to t).

Record ToolPolicy := MkToolPolicy {
  declared : list ToolDefinition;
  allowed_internal : list InternalTool;
  subsession_depth : N;
  think_enabled : bool;
  record_payloads : bool;
}.

Definition built_ins_only : ToolPolicy := MkToolPolicy [] [] 0 true false.

Definition policy_find (p : ToolPolicy) (tool_id : rstr) : option ToolDefinition :=
  List.find (λ t, bool_decide (td_id t = tool_id)) (declared p).

(** ** Quoting *)

Definition quote_arg (arg : rstr) : rstr :=
  lit "'" ++ (arg ≫= λ c, if c =? 39 then lit "'\''" else [c]) ++ lit "'".

Definition quote_argv (argv : list rstr) : rstr :=
  lit "exec" ++ (argv ≫= λ arg, lit " " ++ quote_arg arg).

(** ** Content search *)

Inductive FileText := TextUnreadable | TextInvalid | TextOf (s : rstr).

(** A snapshot of a directory; [None] is a directory that cannot be read. *)
#[local] Unset Elimination Schemes.
Inductive Found :=
| FoundUnknown
| FoundSymlink
| FoundOther
| FoundDir (name : rstr) (contents : option (list Found))
| FoundFile (name : rstr) (size : option N) (text : FileText).
#[local] Set Elimination Schemes.

Definition MAX_SEARCH_FILE_BYTES : N := 1024 * 1024.
Definition MAX_SEARCH_FILES : N := 500.
Definition MAX_SEARCH_MATCHES : N := 50.
Definition MAX_MATCH_LINE_CHARS : N := 200.

Record SearchFile := MkSearchFile { sf_path : path; sf_size : option N; sf_text : FileText }.

(** One directory: the files found and the directories pushed. *)
Fixpoint collect_entries (dir : path) (entries : list Found)
    : list SearchFile * list (path * option (list Found)) :=
  match entries with
  | [] => ([], [])
  | e :: es =>
      let '(files, pushed) := collect_entries dir es in
      match e with
      | FoundUnknown | FoundSymlink | FoundOther => (files, pushed)
      | FoundDir name contents =>
          if bool_decide (name = lit ".git") then (files, pushed)
          else (files, (dir ++ [name], contents) :: pushed)
      | FoundFile name size text => (MkSearchFile (dir ++ [name]) size text :: files, pushed)
      end
  end.

Fixpoint search_walk (fuel : nat) (stack : list (path * option (list Found))) (files : list SearchFile)
    : list SearchFile :=
  match fuel, stack with
  | Datatypes.S fuel, (dir, contents) :: stack' =>
      match contents with
      | None => search_walk fuel stack' files
      | Some entries =>
          let '(found, pushed) := collect_entries dir entries in
          let files' := files ++ found in
          if MAX_SEARCH_FILES <=? len files' then files'
          else search_walk fuel (reverse pushed ++ stack') files'
      end
  | _, _ => files
  end.

Fixpoint found_dirs (e : Found) : nat :=
  match e with
  | FoundDir _ (Some es) => Datatypes.S (sum_list_with found_dirs es)
  | FoundDir _ None => 1
  | _ => 0
  end.

Definition display (p : path) : rstr := join (lit "/") p.

(** The matching lines of one file, appended up to the cap. *)
Fixpoint match_lines (relative pattern : rstr) (index : N) (ls : list rstr) (matches : list rstr) : list rstr :=
  match ls with
  | [] => matches
  | l :: ls' =>
      if MAX_SEARCH_MATCHES <=? len matches then matches
      else
        match_lines relative pattern (index + 1) ls'
          (if contains_str pattern l
           then matches ++ [relative ++ lit ":" ++ dec (index + 1) ++ lit ": "
                            ++ truncate_chars l MAX_MATCH_LINE_CHARS]
           else matches)
  end.

Fixpoint match_files (pattern : rstr) (files : list SearchFile) (matches : list rstr) : list rstr :=
  match files with
  | [] => matches
  | f :: fs =>
      if MAX_SEARCH_MATCHES <=? len matches then matches
      else
        match sf_size f, sf_text f with
        | Some size, TextOf content =>
            if MAX_SEARCH_FILE_BYTES <? size then match_files pattern fs matches
            else match_files pattern fs (match_lines (display (sf_path f)) pattern 0 (lines content) matches)
        | _, _ => match_files pattern fs matches
        end
  end.

(** [base] is relative to the worktree root. *)
Definition search_files (base : path) (tree : option (list Found)) (pattern : rstr) : list rstr :=
  let fuel := Datatypes.S (from_option (sum_list_with found_dirs) O tree) in
  match_files pattern (merge_sort (by_key sf_path) (search_walk fuel [(base, tree)] [])) [].

(** ** The executor *)

Inductive Lstat := LSymlink | LPlain | LNotFound | LDenied.

Record FileMeta := MkFileMeta { fm_is_file : bool; fm_len : N }.

Record MediatedRun := MkMediatedRun { mr_exit_code : option Z; mr_stdout : rstr; mr_stderr : rstr }.

Inductive MediationError :=
| UnsupportedPlatform (platform : rstr)
| UnavailableControls (platform missing : rstr)
| MediationContext (reason : rstr)
| MediationBash (reason : rstr).

Definition mediation_reason (e : MediationError) : rstr :=
  match e with
  | UnsupportedPlatform _ => lit "mediation-unsupported-platform"
  | UnavailableControls _ _ => lit "mediation-unavailable-controls"
  | MediationContext _ => lit "mediation-context"
  | MediationBash _ => lit "mediation-bash"
  end.

(** [host_bash_within] is the call raced against a timer: [None] when the timer
    wins, with the interpreter killed. *)
Class ToolHost (W : Type) := {
  host_lstat : W → path → W * Lstat;
  host_metadata : W → path → W * option FileMeta;
  host_read : W → path → W * FileText;
  host_is_dir : W → path → W * bool;
  host_tree : W → path → W * option (list Found);
  host_mkdirs : W → path → W * bool;
  host_write : W → path → rstr → W * bool;
  host_bash : W → rstr → W * result MediatedRun MediationError;
  host_bash_within : W → Duration → rstr → W * option (result MediatedRun MediationError);
}.

Inductive Access :=
| ALstat (p : path) (answer : Lstat)
| AMetadata (p : path)
| ARead (p : path)
| AIsDir (p : path)
| ATree (p : path)
| AMkdirs (p : path) (done : bool)
| AWrite (p : path) (content : rstr) (done : bool)
| ABash (script : rstr).

Record ToolTurn := MkToolTurn { observation : rstr; mediation_failure : option rstr }.

Definition MAX_READ_BYTES : N := 1024 * 1024.
Definition MAX_WRITE_BYTES : N := 1024 * 1024.
Definition MAX_OBSERVATION_CHARS : N := 8 * 1024.

Record Executor (W : Type) := MkExecutor {
  ex_host : W;
  accesses : list Access;
  receipts : list ToolReceipt;
  untrusted_writes : list rstr;
  thoughts : ThoughtChain;
  reasoning_records : list ReasoningRecord;
}.
Arguments MkExecutor {W}.
Arguments ex_host {W}.
Arguments accesses {W}.
Arguments receipts {W}.
Arguments untrusted_writes {W}.
Arguments thoughts {W}.
Arguments reasoning_records {W}.

Definition Executor_new {W} (w : W) : Executor W := MkExecutor w [] [] [] ThoughtChain_new [].

Section executor.
Context {W : Type} `{ToolHost W} (root : path) (policy : ToolPolicy).

Definition tool (A : Type) : Type := Executor W → Executor W * A.

Definition tret {A} (a : A) : tool A := λ x, (x, a).
Definition tbind {A B} (m : tool A) (k : A → tool B) : tool B := λ x, let '(x', a) := m x in k a x'.

#[local] Notation "'let*' x ':=' c 'in' k" := (tbind c (fun x => k))
  (at level 10, x pattern, c at level 200, k at level 200).
#[local] Notation "c ;; k" := (tbind c (fun _ => k)) (at level 100, k at level 200, right associativity).

(** Asks the environment and logs the access. *)
Definition query {A} (f : W → W * A) (entry : A → Access) : tool A :=
  λ x, let '(w, a) := f (ex_host x) in
       (MkExecutor w (accesses x ++ [entry a]) (receipts x) (untrusted_writes x) (thoughts x) (reasoning_records x), a).

Definition push_receipt (tool_ : rstr) (admitted : bool) (outcome : rstr) (reason : option rstr)
    (exit_code : option Z) : tool unit :=
  λ x, (MkExecutor (ex_host x) (accesses x)
          (receipts x ++ [MkToolReceipt (len (receipts x) + 1) tool_ admitted outcome reason exit_code])
          (untrusted_writes x) (thoughts x) (reasoning_records x), tt).

Definition push_write (p : rstr) : tool unit :=
  λ x, (MkExecutor (ex_host x) (accesses x) (receipts x) (untrusted_writes x ++ [p]) (thoughts x)
          (reasoning_records x), tt).

Definition push_reasoning (r : ReasoningRecord) : tool unit :=
  λ x, (MkExecutor (ex_host x) (accesses x) (receipts x) (untrusted_writes x) (thoughts x)
          (reasoning_records x ++ [r]), tt).

Definition get_thoughts : tool ThoughtChain := λ x, (x, thoughts x).
Definition put_thoughts (c : ThoughtChain) : tool unit :=
  λ x, (MkExecutor (ex_host x) (accesses x) (receipts x) (untrusted_writes x) c (reasoning_records x), tt).

(** [record_refusal], [admitted_refusal], [push_refusal], [declared_refusal]:
    one receipt, and the reason as the observation. *)
Definition refuse (tool_ : rstr) (admitted : bool) (reason : rstr) : tool ToolTurn :=
  push_receipt tool_ admitted (lit "refused") (Some reason) None ;;
  tret (MkToolTurn (lit "tool call refused: " ++ reason) None).

Definition record_refusal (tool_ reason : rstr) : tool ToolTurn := refuse tool_ false reason.
Definition admitted_refusal (tool_ reason : rstr) : tool ToolTurn := refuse tool_ true reason.
Definition declared_refusal (tool_id reason : rstr) : tool ToolTurn := refuse tool_id true reason.

Definition record_subagent_completion (tool_id : rstr) (completed : bool) : tool unit :=
  if completed then push_receipt tool_id true (lit "completed") None None
  else push_receipt tool_id true (lit "failed") (Some (lit "subsession-failed")) None.

Definition record_subagent_refusal (tool_id reason : rstr) : tool unit :=
  push_receipt tool_id true (lit "refused") (Some reason) None.

Definition record_child_write (p : rstr) : tool unit := push_write p.

(** ** Confinement *)

Fixpoint refuse_symlink_components (current : path) (parts : list rstr) : tool (result unit PathRejection) :=
  match parts with
  | [] => tret (Ok tt)
  | part :: parts' =>
      let p := current ++ [part] in
      let* answer := query (λ w, host_lstat w p) (ALstat p) in
      match answer with
      | LSymlink => tret (Err SymlinkComponent)
      | LPlain => refuse_symlink_components p parts'
      | LNotFound => tret (Ok tt)
      | LDenied => tret (Err Inaccessible)
      end
  end.

Definition resolve_confined (relative : rstr) : tool (result path PathRejection) :=
  match normalize_relative relative with
  | Err r => tret (Err r)
  | Ok parts =>
      let* checked := refuse_symlink_components root parts in
      match checked with
      | Err r => tret (Err r)
      | Ok _ => tret (Ok (root ++ parts))
      end
  end.

(** [resolve]: a rejected path is receipted as not admitted. *)
Definition resolve (tool_ relative : rstr) (k : path → tool ToolTurn) : tool ToolTurn :=
  let* resolved := resolve_confined relative in
  match resolved with
  | Ok p => k p
  | Err rejection => refuse tool_ false (reason_code rejection)
  end.

(** ** The file tools *)

Definition read_file (relative : rstr) : tool ToolTurn :=
  resolve (lit "read_file") relative (λ p,
    let* metadata := query (λ w, host_metadata w p) (λ _, AMetadata p) in
    match metadata with
    | None => admitted_refusal (lit "read_file") (lit "not-a-file")
    | Some m =>
        if negb (fm_is_file m) then admitted_refusal (lit "read_file") (lit "not-a-file")
        else if MAX_READ_BYTES <? fm_len m then admitted_refusal (lit "read_file") (lit "file-too-large")
        else
          let* text := query (λ w, host_read w p) (λ _, ARead p) in
          match text with
          | TextUnreadable => admitted_refusal (lit "read_file") (lit "io")
          | TextInvalid => admitted_refusal (lit "read_file") (lit "non-utf8")
          | TextOf content =>
              push_receipt (lit "read_file") true (lit "completed") None None ;;
              tret (MkToolTurn (lit "[read_file " ++ relative ++ lit "]" ++ [10]
                                ++ truncate_chars content MAX_OBSERVATION_CHARS) None)
          end
    end).

Definition search_in (base : path) (pattern : rstr) : tool ToolTurn :=
  let* dir := query (λ w, host_is_dir w base) (λ _, AIsDir base) in
  if negb dir then admitted_refusal (lit "search") (lit "search-root-invalid")
  else
    let* tree := query (λ w, host_tree w base) (λ _, ATree base) in
    let matches := search_files (drop (length root) base) tree pattern in
    push_receipt (lit "search") true (lit "completed") None None ;;
    tret (MkToolTurn
      (if is_empty matches then lit "[search] no matches"
       else lit "[search] " ++ dec (len matches) ++ lit " match(es)" ++ [10]
            ++ truncate_chars (join [10] matches) MAX_OBSERVATION_CHARS) None).

Definition search (pattern : rstr) (relative : option rstr) : tool ToolTurn :=
  match relative with
  | Some r => resolve (lit "search") r (λ p, search_in p pattern)
  | None => search_in root pattern
  end.

Definition write_file (relative content : rstr) : tool ToolTurn :=
  if MAX_WRITE_BYTES <? str_len content then admitted_refusal (lit "write_file") (lit "content-too-large")
  else
    resolve (lit "write_file") relative (λ p,
      let parent := take (length p - 1) p in
      let* parent_ok := query (λ w, host_mkdirs w parent) (AMkdirs parent) in
      if negb parent_ok then admitted_refusal (lit "write_file") (lit "io")
      else
        let* written := query (λ w, host_write w p content) (AWrite p content) in
        if negb written then admitted_refusal (lit "write_file") (lit "io")
        else
          push_write relative ;;
          push_receipt (lit "write_file") true (lit "completed") None None ;;
          tret (MkToolTurn (lit "[write_file " ++ relative ++ lit "] wrote " ++ dec (str_len content)
                            ++ lit " bytes") None)).

(** ** Bash *)

Definition bash_turn (outcome : result MediatedRun MediationError) : tool ToolTurn :=
  match outcome with
  | Ok run =>
      let exit_text := from_option dec_z (lit "signal") (mr_exit_code run) in
      push_receipt (lit "bash") true (lit "completed") None (mr_exit_code run) ;;
      tret (MkToolTurn (lit "[bash exit " ++ exit_text ++ lit "]" ++ [10] ++ lit "--- stdout ---" ++ [10]
                        ++ truncate_chars (mr_stdout run) MAX_OBSERVATION_CHARS ++ [10]
                        ++ lit "--- stderr ---" ++ [10]
                        ++ truncate_chars (mr_stderr run) MAX_OBSERVATION_CHARS) None)
  | Err error =>
      let reason := mediation_reason error in
      push_receipt (lit "bash") true (lit "failed") (Some reason) None ;;
      tret (MkToolTurn (lit "mediated bash failed closed: " ++ reason) (Some reason))
  end.

Definition bash (script : rstr) : tool ToolTurn :=
  let* outcome := query (λ w, host_bash w script) (λ _, ABash script) in bash_turn outcome.

(** The last receipt takes the declared tool's id when [bash] pushed it. *)
Definition relabel_last (tool_id : rstr) : tool unit :=
  λ x, (match reverse (receipts x) with
        | r :: rs =>
            if bool_decide (rc_tool r = lit "bash")
            then MkExecutor (ex_host x) (accesses x)
                   (reverse (MkToolReceipt (rc_sequence r) tool_id (rc_admitted r) (rc_outcome r) (rc_reason r)
                               (rc_exit_code r) :: rs))
                   (untrusted_writes x) (thoughts x) (reasoning_records x)
            else x
        | [] => x
        end, tt).

Definition cap_turn (cap : N) (turn : ToolTurn) : ToolTurn :=
  if cap <? str_len (observation turn)
  then MkToolTurn (truncate_bytes (observation turn) (saturating_sub cap (str_len TRUNCATION_MARKER)))
         (mediation_failure turn)
  else turn.

Definition declared_command (tool_id : rstr) (argv : list rstr) : tool ToolTurn :=
  let script := quote_argv argv in
  let definition := policy_find policy tool_id in
  let finish turn :=
    relabel_last tool_id ;;
    tret (cap_turn (from_option (λ t, N.min (tb_max_result_bytes (td_budget t)) usize_max) usize_max definition) turn) in
  match definition ≫= λ t, tb_wall_clock_secs (td_budget t) with
  | Some secs =>
      let* raced := query (λ w, host_bash_within w (from_secs secs) script) (λ _, ABash script) in
      match raced with
      | Some outcome => let* turn := bash_turn outcome in finish turn
      | None => declared_refusal tool_id (lit "declared-tool-timeout")
      end
  | None => let* turn := bash script in finish turn
  end.

Definition dispatch_declared (tool_id : rstr) : tool ToolTurn :=
  if 0 <? subsession_depth policy then declared_refusal tool_id (lit "subsession-depth-exceeded")
  else match mechanism <$> policy_find policy tool_id with
       | None => declared_refusal tool_id (lit "tool-not-allowed")
       | Some (Command argv) => declared_command tool_id argv
       | Some (Subagent _ _ _) => declared_refusal tool_id (lit "declared-tool-execution-unwired")
       end.

(** ** Think *)

Definition think_refusal (reason thought : rstr) (n total : N) (next revision : bool) (revises : option N)
    : tool ToolTurn :=
  let* chain := get_thoughts in
  push_reasoning (MkReasoningRecord false (Some reason) n total next revision
                    (if revision then revises else None) (len thought) (sequence_id chain) None) ;;
  push_receipt (lit "think") true (lit "refused") (Some reason) None ;;
  tret (MkToolTurn (lit "[think refused: " ++ reason ++ lit "]") None).

Definition bool_str (b : bool) : rstr := if b then lit "true" else lit "false".

Definition think (thought : rstr) (n total : N) (next revision : bool) (revises : option N)
    (branching_supplied : bool) : tool ToolTurn :=
  if branching_supplied then think_refusal REASON_BRANCHING_NOT_SUPPORTED thought n total next revision revises
  else if is_empty thought then think_refusal REASON_THOUGHT_EMPTY thought n total next revision revises
  else if MAX_THOUGHT_CHARS <? len thought then
    think_refusal REASON_THOUGHT_TOO_LARGE thought n total next revision revises
  else
    let* chain := get_thoughts in
    match validate chain n total revision revises with
    | Err reason =>
        let* turn := think_refusal reason thought n total next revision revises in
        tret (if bool_decide (reason = REASON_THOUGHT_BUDGET_EXHAUSTED) && (MAX_THOUGHTS_PER_SEQUENCE <? n)
              then MkToolTurn (lit "[think refused: " ++ reason ++ lit "] the sequence ceiling of "
                                 ++ dec MAX_THOUGHTS_PER_SEQUENCE
                                 ++ lit " thoughts is reached: conclude now, then finish the task")
                     (mediation_failure turn)
              else turn)
    | Ok _ =>
        if contains_secret_shaped thought then
          think_refusal REASON_SECRET_SHAPED_CONTENT thought n total next revision revises
        else
          put_thoughts (accept chain n next revision) ;;
          let* chain' := get_thoughts in
          push_reasoning (MkReasoningRecord true None n total next revision
                            (if revision then revises else None) (len thought) (sequence_id chain')
                            (if record_payloads policy then Some thought else None)) ;;
          push_receipt (lit "think") true (lit "completed") None None ;;
          tret (MkToolTurn (lit "[think " ++ dec n ++ lit "/" ++ dec total ++ lit " next=" ++ bool_str next
                            ++ lit "] sequence=" ++ dec (sequence_id chain') ++ lit " thoughts="
                            ++ dec (run_count chain') ++ lit " budget=" ++ dec MAX_THOUGHTS_PER_SEQUENCE) None)
    end.

(** ** Dispatch *)

Inductive InternalAction :=
| Allowed (t : InternalTool)
| NeverAdmissible (name : rstr)
| NotInternal.

Definition internal_action_of (a : WorkerAction) : InternalAction :=
  match a with
  | ReadFile _ => Allowed ItReadFile
  | Search _ _ => Allowed ItSearch
  | Bash _ => Allowed ItBash
  | Think _ _ _ _ _ _ _ _ => Allowed ItThink
  | WriteFile _ _ => NeverAdmissible (lit "write_file")
  | DeclaredTool _ _ | Finish _ _ => NotInternal
  end.

Definition is_think (a : WorkerAction) : bool :=
  match a with Think _ _ _ _ _ _ _ _ => true | _ => false end.

(** The name of the tool an action is refused under, when it is. *)
Definition admit_internal (a : WorkerAction) : option rstr :=
  if negb (think_enabled policy) && is_think a then Some (lit "think")
  else if subsession_depth policy =? 0 then None
  else match internal_action_of a with
       | NotInternal => None
       | NeverAdmissible name => Some name
       | Allowed t => if bool_decide (t ∈ allowed_internal policy) then None else Some (tool_name t)
       end.

Definition dispatch (a : WorkerAction) : tool ToolTurn :=
  match admit_internal a with
  | Some name => refuse name true (lit "tool-not-allowed")
  | None =>
      match a with
      | ReadFile p => read_file p
      | Search pattern p => search pattern p
      | WriteFile p content => write_file p content
      | Bash script => bash script
      | Think thought n total next revision revises branch branch_id =>
          think thought n total next revision revises
            (bool_decide (is_Some branch) || bool_decide (is_Some branch_id))
      | DeclaredTool tool_id _ => dispatch_declared tool_id
      | Finish _ _ => record_refusal (lit "finish") (lit "misrouted-finish")
      end
  end.
End executor.
