(* ===== verification/WorkerConfined.v ===== *)
(** * What a tool call touches

    Properties of the executor of [WorkerTools] that hold on every host: the
    file tools stay inside the worktree and behind the symlink check, a
    sub-session keeps to its allowlist, and every call leaves one receipt. *)

From S2P Require Import Prelude BTree Text Time Substring SecretShape RunState WorkerAction Thoughts WorkerTools.
From Stdlib Require Import ZifyBool.

(** ** Normal paths *)

(** A component that names an entry of the directory it is looked up in. *)
Definition clean (part : rstr) : Prop := part ≠ [] ∧ part ≠ lit "." ∧ part ≠ lit ".." ∧ 47 ∉ part.

Lemma split_pieces c s p : p ∈ split c s → c ∉ p.
Proof.
  revert p. induction s as [|x s IH]; intros p; cbn [split].
  - intros ->%list_elem_of_singleton. apply not_elem_of_nil.
  - destruct (N.eqb_spec x c) as [->|Hx].
    + intros [->|Hp]%elem_of_cons; [apply not_elem_of_nil|by apply IH].
    + destruct (split c s) as [|q qs] eqn:E.
      * intros ->%list_elem_of_singleton. set_solver.
      * intros [->|Hp]%elem_of_cons; [|apply IH; set_solver].
        intros [->|Hin]%elem_of_cons; [done|]. by apply (IH q); [left|].
Qed.

Lemma piece_components_clean first pieces part :
  (∀ p, p ∈ pieces → 47 ∉ p) → Normal part ∈ piece_components first pieces → clean part.
Proof.
  revert first. induction pieces as [|p ps IH]; intros first Hs; cbn [piece_components];
    [by intros ?%elem_of_nil|].
  intros [Hp|Hp]%elem_of_app; [|apply (IH false); [set_solver|done]].
  repeat (step_if; try (by apply elem_of_nil in Hp)).
  all: apply list_elem_of_singleton in Hp; simplify_eq. bool_simpl. split_and!; try done. apply Hs. left.
Qed.

Lemma normalize_go_clean cs parts parts' :
  (∀ p, Normal p ∈ cs → clean p) → Forall clean parts → normalize_go parts cs = Ok parts' → Forall clean parts'.
Proof.
  revert parts. induction cs as [|c cs IH]; intros parts Hc Hp; cbn [normalize_go]; [by intros [= <-]|].
  destruct c as [| | |part]; [done|..].
  - apply IH; [set_solver|done].
  - destruct parts as [|x xs] eqn:E; [done|]. apply IH; [set_solver|]. rw -E in Hp |- *. by apply Forall_take.
  - apply IH; [set_solver|]. apply Forall_app. split; [done|]. apply Forall_singleton, Hc. left.
Qed.

(** A path the tools accept is a non-empty list of entry names: no [..], no
    separator, nothing absolute. *)
Lemma normalize_relative_clean relative parts :
  normalize_relative relative = Ok parts → parts ≠ [] ∧ Forall clean parts.
Proof.
  unfold normalize_relative. step_if; [done|]. intros (ps & Hn & H)%result_bind_ok. step_if; [done|].
  injection H as <-. bool_simpl. split; [done|]. eapply normalize_go_clean; [|by apply Forall_nil|exact Hn].
  intros p. unfold components. intros [Hp|Hp]%elem_of_app.
  - step_if; [by apply list_elem_of_singleton in Hp|by apply elem_of_nil in Hp].
  - eapply piece_components_clean; [|exact Hp]. intros q. apply split_pieces.
Qed.

(** ** Quoting *)

(** How a POSIX shell reads a line into words: unquoted blanks separate, single
    quotes and a backslash make what they cover literal; a character with a
    meaning of its own outside quotes ([None]) would not be literal. *)
Inductive ShMode := Plain | Quoted | Escaped.

Definition sh_literal (c : N) : bool :=
  is_ascii_alphanumeric c || bool_decide (c ∈ lit "_-./:,+@%").

Fixpoint sh_words (mode : ShMode) (word : option rstr) (s : rstr) : option (list rstr) :=
  match s with
  | [] => match mode with
          | Plain => Some (option_list word)
          | _ => None
          end
  | c :: s' =>
      match mode with
      | Quoted => if c =? 39 then sh_words Plain word s' else sh_words Quoted (Some (default [] word ++ [c])) s'
      | Escaped => sh_words Plain (Some (default [] word ++ [c])) s'
      | Plain =>
          if c =? 32 then (λ ws, option_list word ++ ws) <$> sh_words Plain None s'
          else if c =? 39 then sh_words Quoted (Some (default [] word)) s'
          else if c =? 92 then sh_words Escaped (Some (default [] word)) s'
          else if sh_literal c then sh_words Plain (Some (default [] word ++ [c])) s'
          else None
      end
  end.

Lemma sh_quoted_body arg word rest :
  sh_words Quoted (Some word) ((arg ≫= λ c, if c =? 39 then lit "'\''" else [c]) ++ lit "'" ++ rest)
  = sh_words Plain (Some (word ++ arg)) rest.
Proof.
  revert word. induction arg as [|c arg IH]; intros word; [by rw app_nil_r|]. rw bind_cons -app_assoc.
  destruct (N.eqb_spec c 39) as [->|Hc].
  - change (lit "'\''") with [39; 92; 39; 39]. cbn [app sh_words]. cbn [N.eqb Pos.eqb default].
    rw IH. by rw -app_assoc.
  - cbn [app sh_words]. destruct (N.eqb_spec c 39); [done|]. cbn [default]. rw IH. by rw -app_assoc.
Qed.

Lemma sh_quote_arg arg rest :
  sh_words Plain None (quote_arg arg ++ rest) = sh_words Plain (Some arg) rest.
Proof.
  unfold quote_arg. rw -!app_assoc. change (lit "'" ++ ?t) with (39 :: t). cbn [sh_words].
  cbn [N.eqb Pos.eqb default]. apply sh_quoted_body.
Qed.

Lemma sh_argv word argv :
  sh_words Plain (Some word) (argv ≫= λ arg, lit " " ++ quote_arg arg) = Some (word :: argv).
Proof.
  revert word. induction argv as [|arg argv IH]; intros word; [done|]. rw bind_cons -app_assoc.
  change (lit " " ++ ?t) with (32 :: t). cbn [sh_words N.eqb Pos.eqb]. by rw sh_quote_arg IH.
Qed.

(** A shell reads the line built for a declared command back as [exec] and
    exactly the configured arguments, whatever characters they hold. *)
Theorem quote_argv_roundtrip argv : sh_words Plain None (quote_argv argv) = Some (lit "exec" :: argv).
Proof. unfold quote_argv. change (lit "exec") with [101; 120; 101; 99]. apply (sh_argv [101; 120; 101; 99]). Qed.

(** ** Traces *)

(** The symlink check along [parts] below [current], and its verdict: every
    component answered as no link, up to the end or to one that is missing. *)
Inductive checked (current : path) : list rstr → list Access → result unit PathRejection → Prop :=
| checked_done : checked current [] [] (Ok tt)
| checked_link part parts : checked current (part :: parts) [ALstat (current ++ [part]) LSymlink] (Err SymlinkComponent)
| checked_missing part parts : checked current (part :: parts) [ALstat (current ++ [part]) LNotFound] (Ok tt)
| checked_denied part parts : checked current (part :: parts) [ALstat (current ++ [part]) LDenied] (Err Inaccessible)
| checked_step part parts acc r :
    checked (current ++ [part]) parts acc r →
    checked current (part :: parts) (ALstat (current ++ [part]) LPlain :: acc) r.

(** What one tool call may do to the host, below the worktree [root]. *)
Inductive tool_trace (root : path) (policy : ToolPolicy) : WorkerAction → list Access → Prop :=
| trace_nothing a : tool_trace root policy a []
| trace_refused a parts checks rejection :
    parts ≠ [] → Forall clean parts → checked root parts checks (Err rejection) → tool_trace root policy a checks
| trace_metadata relative parts checks :
    parts ≠ [] → Forall clean parts → checked root parts checks (Ok tt) →
    tool_trace root policy (ReadFile relative) (checks ++ [AMetadata (root ++ parts)])
| trace_read relative parts checks :
    parts ≠ [] → Forall clean parts → checked root parts checks (Ok tt) →
    tool_trace root policy (ReadFile relative) (checks ++ [AMetadata (root ++ parts); ARead (root ++ parts)])
| trace_no_dir pattern relative parts checks :
    Forall clean parts → checked root parts checks (Ok tt) →
    tool_trace root policy (Search pattern relative) (checks ++ [AIsDir (root ++ parts)])
| trace_search pattern relative parts checks :
    Forall clean parts → checked root parts checks (Ok tt) →
    tool_trace root policy (Search pattern relative) (checks ++ [AIsDir (root ++ parts); ATree (root ++ parts)])
| trace_no_parent relative content parts checks :
    parts ≠ [] → Forall clean parts → checked root parts checks (Ok tt) →
    tool_trace root policy (WriteFile relative content)
      (checks ++ [AMkdirs (root ++ take (length parts - 1) parts) false])
| trace_write relative content parts checks done :
    parts ≠ [] → Forall clean parts → checked root parts checks (Ok tt) →
    tool_trace root policy (WriteFile relative content)
      (checks ++ [AMkdirs (root ++ take (length parts - 1) parts) true; AWrite (root ++ parts) content done])
| trace_bash script : tool_trace root policy (Bash script) [ABash script]
| trace_declared tool_id question argv :
    subsession_depth policy = 0 → mechanism <$> policy_find policy tool_id = Some (Command argv) →
    tool_trace root policy (DeclaredTool tool_id question) [ABash (quote_argv argv)].

(** The paths a call adds to the untrusted output. *)
Definition written (acc : list Access) : bool :=
  existsb (λ e, match e with AWrite _ _ true => true | _ => false end) acc.

Definition recorded (a : WorkerAction) (acc : list Access) : list rstr :=
  match a with WriteFile relative _ => if written acc then [relative] else [] | _ => [] end.

Lemma checked_not_written current parts acc r : checked current parts acc r → written acc = false.
Proof. by induction 1. Qed.

Lemma written_app acc acc' : written (acc ++ acc') = written acc || written acc'.
Proof. apply existsb_app. Qed.

(** What a think call records: the text only when it is accepted and the run
    records payloads. *)
Definition reasoning_ok (policy : ToolPolicy) (thought : rstr) (r : ReasoningRecord) : Prop :=
  thought_chars r = len thought
  ∧ (rr_accepted r = true ↔ refusal_reason r = None)
  ∧ (∀ t, thought_text r = Some t →
       t = thought ∧ rr_accepted r = true ∧ record_payloads policy = true ∧ contains_secret_shaped t = false).

Definition reasoning_of (policy : ToolPolicy) (a : WorkerAction) (rs : list ReasoningRecord) : Prop :=
  match a with
  | Think thought _ _ _ _ _ _ _ => Forall (reasoning_ok policy thought) rs ∧ (length rs ≤ 1)%nat
  | _ => rs = []
  end.

(** The failure a turn carries is the one its receipt records. *)
Definition failure_of_receipt (r : ToolReceipt) : option rstr :=
  if bool_decide (rc_outcome r = lit "failed") then rc_reason r else None.

Section confined.
Context {W : Type} `{ToolHost W} (root : path) (policy : ToolPolicy).
Implicit Types x : Executor W.

(** The host answered [acc]; nothing else changed. *)
Definition after x w acc : Executor W :=
  MkExecutor w (accesses x ++ acc) (receipts x) (untrusted_writes x) (thoughts x) (reasoning_records x).

Lemma after_after x w acc w' acc' : after (after x w acc) w' acc' = after x w' (acc ++ acc').
Proof. unfold after. cbn. by rw -app_assoc. Qed.

Lemma after_nil x : after x (ex_host x) [] = x.
Proof. destruct x. unfold after. cbn. by rw app_nil_r. Qed.

Lemma query_after {A} (f : W → W * A) entry x :
  query f entry x = (after x (f (ex_host x)).1 [entry (f (ex_host x)).2], (f (ex_host x)).2).
Proof. unfold query. by destruct (f (ex_host x)). Qed.

Lemma symlink_check_spec current parts x :
  ∃ w acc r, refuse_symlink_components current parts x = (after x w acc, r) ∧ checked current parts acc r.
Proof.
  revert current x. induction parts as [|part parts IH]; intros current x; cbn [refuse_symlink_components].
  { exists (ex_host x), [], (Ok tt). rw after_nil. split; [done|constructor]. }
  unfold tbind. rw query_after. destruct (host_lstat (ex_host x) (current ++ [part])) as [w answer]. cbn [fst snd].
  destruct answer.
  - eexists _, _, _. split; [done|constructor].
  - destruct (IH (current ++ [part]) (after x w [ALstat (current ++ [part]) LPlain])) as (w' & acc & r & E & Hc).
    eexists _, _, _. split; [rw E after_after; done|]. by constructor.
  - eexists _, _, _. split; [done|constructor].
  - eexists _, _, _. split; [done|constructor].
Qed.

(** [resolve] runs its continuation behind a check that passed, or leaves one
    refusal. *)
Lemma resolve_spec tool_ relative (k : path → tool ToolTurn) x :
  (∃ w acc reason, resolve root tool_ relative k x = refuse tool_ false reason (after x w acc)
     ∧ (acc = [] ∨ ∃ parts rejection, parts ≠ [] ∧ Forall clean parts ∧ checked root parts acc (Err rejection)))
  ∨ (∃ w acc parts, resolve root tool_ relative k x = k (root ++ parts) (after x w acc)
     ∧ parts ≠ [] ∧ Forall clean parts ∧ checked root parts acc (Ok tt)).
Proof.
  unfold resolve, tbind, resolve_confined. destruct (normalize_relative relative) as [parts|rej] eqn:En.
  - apply normalize_relative_clean in En as [Hne Hcl]. unfold tbind.
    destruct (symlink_check_spec root parts x) as (w & acc & r & E & Hc). rw E. destruct r as [[]|rej].
    + right. exists w, acc, parts. split_and!; done.
    + left. exists w, acc, (reason_code rej). split; [done|]. right. eauto.
  - left. exists (ex_host x), [], (reason_code rej). rw after_nil. split; [done|]. by left.
Qed.

(** The whole effect of a call. *)
Definition effects (a : WorkerAction) x (res : Executor W * ToolTurn) : Prop :=
  ∃ acc r rs,
    accesses res.1 = accesses x ++ acc ∧ tool_trace root policy a acc
    ∧ receipts res.1 = receipts x ++ [r] ∧ rc_sequence r = len (receipts x) + 1
    ∧ mediation_failure res.2 = failure_of_receipt r
    ∧ untrusted_writes res.1 = untrusted_writes x ++ recorded a acc
    ∧ reasoning_records res.1 = reasoning_records x ++ rs ∧ reasoning_of policy a rs.

Lemma reasoning_of_nil a : reasoning_of policy a [].
Proof. destruct a; try done. split; [done|cbn; lia]. Qed.

Lemma recorded_nil a acc : written acc = false → recorded a acc = [].
Proof. intros E. destruct a; cbn; by rw ?E. Qed.

Lemma refuse_effects a x w acc t adm reason :
  tool_trace root policy a acc → written acc = false → effects a x (refuse t adm reason (after x w acc)).
Proof.
  intros Ht Hw. exists acc, (MkToolReceipt (len (receipts x) + 1) t adm (lit "refused") (Some reason) None), [].
  rw recorded_nil; [|done]. cbn. rw !app_nil_r. split_and!; try done. apply reasoning_of_nil.
Qed.

(** A completed call that touched [acc] and wrote nothing. *)
Lemma completed_effects a x w acc t outcome reason code obs :
  tool_trace root policy a acc → written acc = false →
  effects a x ((push_receipt t true outcome reason code (after x w acc)).1,
               MkToolTurn obs (failure_of_receipt (MkToolReceipt 0 t true outcome reason code))).
Proof.
  intros Ht Hw. exists acc, (MkToolReceipt (len (receipts x) + 1) t true outcome reason code), [].
  rw recorded_nil; [|done]. cbn. rw !app_nil_r. split_and!; try done. apply reasoning_of_nil.
Qed.

(** A call behind [resolve]. *)
Lemma resolve_effects a x tool_ relative (k : path → tool ToolTurn) :
  (∀ w acc parts, parts ≠ [] → Forall clean parts → checked root parts acc (Ok tt) →
     effects a x (k (root ++ parts) (after x w acc))) →
  effects a x (resolve root tool_ relative k x).
Proof.
  intros Hk. destruct (resolve_spec tool_ relative k x)
    as [(w & acc & reason & -> & Hacc)|(w & acc & parts & -> & Hne & Hcl & Hc)]; [|by apply Hk].
  destruct Hacc as [->|(parts & rej & Hne & Hcl & Hc)].
  - apply refuse_effects; [constructor|done].
  - apply refuse_effects; [by eapply trace_refused|by eapply checked_not_written].
Qed.

Lemma read_file_effects x relative : effects (ReadFile relative) x (read_file root relative x).
Proof.
  unfold read_file. apply resolve_effects. intros w acc parts Hne Hcl Hc. pose proof (checked_not_written _ _ _ _ Hc) as Hw.
  unfold tbind at 1. rw query_after after_after. cbn [after ex_host].
  destruct (host_metadata w (root ++ parts)) as [w1 md]. cbn [fst snd].
  assert (tool_trace root policy (ReadFile relative) (acc ++ [AMetadata (root ++ parts)])) as Ht by by constructor.
  assert (written (acc ++ [AMetadata (root ++ parts)]) = false) as Hw1 by by rw written_app Hw.
  destruct md as [m|]; [|by apply refuse_effects].
  do 2 (step_if; [by apply refuse_effects|]).
  unfold tbind at 1. rw query_after after_after. cbn [after ex_host].
  destruct (host_read w1 (root ++ parts)) as [w2 text]. cbn [fst snd]. rw -app_assoc. cbn [app].
  assert (tool_trace root policy (ReadFile relative) (acc ++ [AMetadata (root ++ parts); ARead (root ++ parts)])) as Ht2 by by constructor.
  assert (written (acc ++ [AMetadata (root ++ parts); ARead (root ++ parts)]) = false) as Hw2 by by rw written_app Hw.
  destruct text; [by apply refuse_effects..|]. by apply completed_effects.
Qed.

Lemma search_in_effects x pattern relative w acc parts :
  Forall clean parts → checked root parts acc (Ok tt) →
  effects (Search pattern relative) x (search_in root (root ++ parts) pattern (after x w acc)).
Proof.
  intros Hcl Hc. pose proof (checked_not_written _ _ _ _ Hc) as Hw. unfold search_in.
  unfold tbind at 1. rw query_after after_after. cbn [after ex_host].
  destruct (host_is_dir w (root ++ parts)) as [w1 dir]. cbn [fst snd]. step_if.
  - apply refuse_effects; [by constructor|by rw written_app Hw].
  - unfold tbind at 1. rw query_after after_after. cbn [after ex_host].
    destruct (host_tree w1 (root ++ parts)) as [w2 tree]. cbn [fst snd]. rw -app_assoc. cbn [app].
    apply completed_effects; [by constructor|by rw written_app Hw].
Qed.

Lemma search_effects x pattern relative : effects (Search pattern relative) x (search root pattern relative x).
Proof.
  unfold search. destruct relative as [r|].
  - apply resolve_effects. intros w acc parts _ Hcl Hc. by apply search_in_effects.
  - rw -{2}(app_nil_r root) -{2}(after_nil x). apply search_in_effects; constructor.
Qed.

Lemma write_file_effects x relative content :
  effects (WriteFile relative content) x (write_file root relative content x).
Proof.
  unfold write_file. step_if.
  { rw -{2}(after_nil x). apply refuse_effects; [constructor|done]. }
  apply resolve_effects. intros w acc parts Hne Hcl Hc. pose proof (checked_not_written _ _ _ _ Hc) as Hw.
  assert (take (length (root ++ parts) - 1) (root ++ parts) = root ++ take (length parts - 1) parts) as Ep.
  { rw length_app. destruct parts as [|q qs]; [done|]. rw take_app_ge; [|cbn; lia]. do 2 f_equal. cbn. lia. }
  cbv zeta. rw Ep. unfold tbind at 1. rw query_after after_after. cbn [after ex_host].
  destruct (host_mkdirs w _) as [w1 ok]. cbn [fst snd]. destruct ok; cbn [negb].
  2: { apply refuse_effects; [by constructor|by rw written_app Hw]. }
  unfold tbind at 1. rw query_after after_after. cbn [after ex_host].
  destruct (host_write w1 _ _) as [w2 ok]. cbn [fst snd]. rw -app_assoc. cbn [app]. destruct ok; cbn [negb].
  2: { apply refuse_effects; [by constructor|by rw written_app Hw]. }
  eexists _, _, []. split_and!; [reflexivity|by apply trace_write|reflexivity|done|done| |by cbn; rw app_nil_r|done].
  cbn. by rw written_app orb_true_r.
Qed.

Lemma bash_turn_effects a x w acc outcome :
  tool_trace root policy a acc → written acc = false → effects a x (bash_turn outcome (after x w acc)).
Proof. intros Ht Hw. destruct outcome as [run|e]; by apply completed_effects. Qed.

Lemma bash_effects x script : effects (Bash script) x (bash script x).
Proof.
  unfold bash. unfold tbind at 1. rw query_after. destruct (host_bash _ _) as [w outcome]. cbn [fst snd].
  apply bash_turn_effects; [constructor|done].
Qed.

(** Relabelling and capping keep the effect: the receipt keeps its number and
    outcome, the turn its failure. *)
Lemma finish_effects a x res tool_id cap :
  effects a x res → effects a x ((relabel_last tool_id res.1).1, cap_turn cap res.2).
Proof.
  intros (acc & r & rs & Ha & Ht & Hr & Hq & Hm & Hu & Hs & Ho).
  exists acc, (if bool_decide (rc_tool r = lit "bash")
          then MkToolReceipt (rc_sequence r) tool_id (rc_admitted r) (rc_outcome r) (rc_reason r) (rc_exit_code r)
          else r), rs.
  unfold relabel_last. rw Hr reverse_snoc. cbn [fst snd]. unfold cap_turn.
  case_bool_decide; cbn [accesses receipts untrusted_writes reasoning_records rc_sequence]; split_and!; try done.
  - by rw reverse_cons reverse_involutive.
  - by step_if.
  - by step_if.
Qed.

Lemma capped_bash_effects a x w acc outcome tool_id cap :
  tool_trace root policy a acc → written acc = false →
  effects a x (tbind (bash_turn outcome)
                 (λ turn, tbind (relabel_last tool_id) (λ _, tret (cap_turn cap turn))) (after x w acc)).
Proof.
  intros Ht Hw. pose proof (finish_effects _ _ _ tool_id cap (bash_turn_effects a x w acc outcome Ht Hw)) as Hf.
  unfold tbind. destruct (bash_turn outcome _) as [x' turn]. cbn [fst snd] in Hf.
  by destruct (relabel_last tool_id x') as [x'' []].
Qed.

Lemma declared_command_effects x tool_id question argv :
  subsession_depth policy = 0 → mechanism <$> policy_find policy tool_id = Some (Command argv) →
  effects (DeclaredTool tool_id question) x (declared_command policy tool_id argv x).
Proof.
  intros Hd Hm. unfold declared_command. destruct (_ ≫= _) as [secs|].
  - unfold tbind at 1. rw query_after. destruct (host_bash_within _ _ _) as [w raced]. cbn [fst snd].
    destruct raced as [outcome|]; [|apply refuse_effects; [by constructor|done]].
    apply capped_bash_effects; [by constructor|done].
  - unfold bash. unfold tbind at 1. unfold tbind at 1. rw query_after.
    destruct (host_bash _ _) as [w outcome]. cbn [fst snd].
    apply (capped_bash_effects (DeclaredTool tool_id question) x w [ABash (quote_argv argv)] outcome);
      [by constructor|done].
Qed.

Lemma plain_refuse_effects a x t adm reason : effects a x (refuse t adm reason x).
Proof. rw -{2}(after_nil x). apply refuse_effects; [constructor|done]. Qed.

(** The think calls that only record. *)
Lemma think_refusal_effects x reason thought n total next revision revises branch branch_id next' :
  effects (Think thought n total next revision revises branch branch_id) x
    (think_refusal reason thought n total next' revision revises x).
Proof.
  eexists [], _, [_]. split_and!; [by cbn; rw app_nil_r|constructor|reflexivity|done|done|by cbn; rw app_nil_r|reflexivity|].
  split; [|cbn; lia]. apply Forall_singleton. by split_and!.
Qed.

Lemma think_effects x thought n total next revision revises branch branch_id supplied :
  effects (Think thought n total next revision revises branch branch_id) x
    (think policy thought n total next revision revises supplied x).
Proof.
  unfold think. do 3 (step_if; [apply think_refusal_effects|]). unfold tbind at 1. cbn [get_thoughts].
  destruct (validate _ _ _ _ _) as [[]|reason].
  - step_if; [apply think_refusal_effects|].
    eexists [], _, [_]. split_and!; [by cbn; rw app_nil_r|constructor|reflexivity|done|done|by cbn; rw app_nil_r|reflexivity|].
    split; [|cbn; lia]. apply Forall_singleton. split_and!; [done|done|].
    cbn. intros t Ht. destruct (record_payloads policy); by simplify_eq.
  - pose proof (think_refusal_effects x reason thought n total next revision revises branch branch_id next) as Hr.
    unfold tbind. destruct (think_refusal _ _ _ _ _ _ _ x) as [x' turn].
    destruct Hr as (acc & r & rs & Ha & Ht & Hr & Hq & Hm & Hu & Hs & Ho). exists acc, r, rs.
    split_and!; try done. cbn [snd tret]. by step_if.
Qed.

Lemma dispatch_declared_effects x tool_id question :
  effects (DeclaredTool tool_id question) x (dispatch_declared policy tool_id x).
Proof.
  unfold dispatch_declared. destruct (N.ltb_spec 0 (subsession_depth policy)); [apply plain_refuse_effects|].
  destruct (mechanism <$> _) as [[argv|]|] eqn:Em; [|apply plain_refuse_effects..].
  apply declared_command_effects; [lia|done].
Qed.

(** A dispatched action leaves one receipt and a permitted trace. *)
Lemma dispatch_effects a x : effects a x (dispatch root policy a x).
Proof.
  unfold dispatch. destruct (admit_internal policy a); [apply plain_refuse_effects|].
  destruct a; [apply read_file_effects|apply write_file_effects|apply search_effects|apply bash_effects
    |apply think_effects|apply dispatch_declared_effects|apply plain_refuse_effects].
Qed.
End confined.

(** ** Confinement *)

Definition below (root p : path) : Prop := ∃ parts, p = root ++ parts ∧ Forall clean parts.

(** The script an action gives to the mediated shell: the one of a bash action,
    or the line of a declared command, which a shell reads as [exec] and exactly
    the words the policy declares for the tool. *)
Definition shell_script (policy : ToolPolicy) (a : WorkerAction) (script : rstr) : Prop :=
  match a with
  | Bash s => script = s
  | DeclaredTool tool_id _ =>
      subsession_depth policy = 0
      ∧ ∃ argv, mechanism <$> policy_find policy tool_id = Some (Command argv)
          ∧ sh_words Plain None script = Some (lit "exec" :: argv)
  | _ => False
  end.

(** The path of an access is inside the worktree; a script is the action's. *)
Definition confined (root : path) (policy : ToolPolicy) (a : WorkerAction) (e : Access) : Prop :=
  match e with
  | ALstat p _ | AMetadata p | ARead p | AIsDir p | ATree p | AMkdirs p _ | AWrite p _ _ => below root p
  | ABash script => shell_script policy a script
  end.

Lemma checked_confined root0 policy a current parts acc r e :
  checked current parts acc r → below root0 current → Forall clean parts → e ∈ acc → confined root0 policy a e.
Proof.
  intros Hc. induction Hc as [|current part parts|current part parts|current part parts|current part parts acc r Hc IH];
    intros [pre [-> Hpre]] Hcl He; [by apply elem_of_nil in He|..].
  all: apply Forall_cons in Hcl as [Hp Hcl].
  all: assert (below root0 ((root0 ++ pre) ++ [part])) as Hb
    by (exists (pre ++ [part]); rw -app_assoc; split; [done|by apply Forall_app, conj, Forall_singleton]).
  1-3: by apply list_elem_of_singleton in He as ->.
  apply elem_of_cons in He as [->|He]; [done|]. by apply IH.
Qed.

Lemma tool_trace_confined root policy a acc e : tool_trace root policy a acc → e ∈ acc → confined root policy a e.
Proof.
  assert (below root root) as Hroot by (exists []; by rw app_nil_r).
  intros Ht He. destruct Ht; try (by apply elem_of_nil in He);
    try (apply elem_of_app in He as [He|He]; [by eapply checked_confined|]);
    try (by eapply checked_confined).
  all: repeat (apply elem_of_cons in He as [->|He]); try (by apply elem_of_nil in He); cbn [confined]; try done.
  all: try (split; [done|]; eexists; split; [done|apply quote_argv_roundtrip]).
  all: eexists; split; [reflexivity|]; try done; by apply Forall_take.
Qed.

Definition is_script (e : Access) : bool := match e with ABash _ => true | _ => false end.

Lemma checked_scripts current parts acc r : checked current parts acc r → List.filter is_script acc = [].
Proof. by induction 1. Qed.

Lemma tool_trace_scripts root policy a acc : tool_trace root policy a acc → (length (List.filter is_script acc) ≤ 1)%nat.
Proof.
  intros Ht. destruct Ht; try (cbn; lia); try (erewrite checked_scripts; [cbn; lia|done]);
    rw List.filter_app; (erewrite checked_scripts; [cbn; lia|done]).
Qed.

(** What tool of a sub-session's allowlist an access belongs to. *)
Definition tool_of_access (e : Access) : option InternalTool :=
  match e with
  | ABash _ => Some ItBash
  | AMetadata _ | ARead _ => Some ItReadFile
  | AIsDir _ | ATree _ => Some ItSearch
  | ALstat _ _ | AMkdirs _ _ | AWrite _ _ _ => None
  end.

Definition mutates (e : Access) : bool :=
  match e with AMkdirs _ _ | AWrite _ _ _ => true | _ => false end.

Lemma checked_lstats current parts acc r e : checked current parts acc r → e ∈ acc → ∃ p l, e = ALstat p l.
Proof.
  induction 1; intros He; try (by apply elem_of_nil in He); try (apply list_elem_of_singleton in He; by eauto).
  apply elem_of_cons in He as [->|He]; eauto.
Qed.

(** Outside a write and a declared command, a trace belongs to the action's
    own tool and changes nothing. *)
Lemma tool_trace_kind root policy a acc e :
  tool_trace root policy a acc → e ∈ acc →
  match a with
  | WriteFile _ _ | DeclaredTool _ _ => True
  | _ => mutates e = false ∧ ∀ t, tool_of_access e = Some t → internal_action_of a = Allowed t
  end.
Proof.
  intros Ht He. destruct Ht; try (by apply elem_of_nil in He); try done;
    try (apply elem_of_app in He as [He|He]);
    try (by eapply checked_lstats in He as (? & ? & ->); [|done]; destruct a || idtac; split).
  all: repeat (apply elem_of_cons in He as [->|He]); try (by apply elem_of_nil in He); cbn; split; try done;
    by intros ? [= <-].
Qed.

(** ** The theorems *)

Section theorems.
Context {W : Type} `{ToolHost W} (root : path) (policy : ToolPolicy).
Implicit Types x : Executor W.

(** C9. On any host, what one tool call touches.  Every path that is checked,
    read, listed, created or written lies below the worktree and every component
    walked is a plain entry name; the symlink check covers the path before
    anything is read, listed, created or written, and a check that meets a link or
    an unreadable component is followed by nothing.  The shell, which no path
    confines here (its sandbox does), gets at most one script per call and only
    from two actions: the script of a bash action as it is, and outside
    sub-sessions a line that reads as [exec] and exactly the argument list the
    policy declares for the tool. *)
Theorem tools_confined a x :
  ∃ acc, accesses (dispatch root policy a x).1 = accesses x ++ acc
  ∧ tool_trace root policy a acc ∧ Forall (confined root policy a) acc
  ∧ (length (List.filter is_script acc) ≤ 1)%nat.
Proof.
  destruct (dispatch_effects root policy a x) as (acc & r & rs & Ha & Ht & _). exists acc.
  split_and!; [done..| |by eapply tool_trace_scripts]. apply Forall_forall. intros e. by apply tool_trace_confined.
Qed.

(** Inside a sub-session, an internal action is refused or on the allowlist. *)
Lemma admission_cases a :
  0 < subsession_depth policy →
  (∃ n, admit_internal policy a = Some n) ∨ internal_action_of a = NotInternal
  ∨ ∃ t, internal_action_of a = Allowed t ∧ t ∈ allowed_internal policy.
Proof.
  intros Hd. unfold admit_internal. step_if; [eauto|]. destruct (N.eqb_spec (subsession_depth policy) 0); [lia|].
  destruct (internal_action_of a); eauto. case_bool_decide; eauto.
Qed.

Lemma allowlist_effects a x :
  0 < subsession_depth policy →
  ∃ acc, accesses (dispatch root policy a x).1 = accesses x ++ acc
  ∧ untrusted_writes (dispatch root policy a x).1 = untrusted_writes x
  ∧ Forall (λ e, mutates e = false ∧ ∀ t, tool_of_access e = Some t → t ∈ allowed_internal policy) acc.
Proof.
  intros Hd. destruct (admission_cases a Hd) as [[n Hn]|[Hni|(t & Ht & Hin)]].
  - exists []. unfold dispatch. rw Hn. cbn. by rw app_nil_r.
  - exists []. destruct a; try done; unfold dispatch, admit_internal; cbn [is_think internal_action_of];
      rw andb_false_r; destruct (N.eqb_spec (subsession_depth policy) 0); try lia.
    + unfold dispatch_declared. destruct (N.ltb_spec 0 (subsession_depth policy)); [|lia]. cbn. by rw app_nil_r.
    + cbn. by rw app_nil_r.
  - destruct (dispatch_effects root policy a x) as (acc & r & rs & Ha & Htr & _ & _ & _ & Hu & _).
    exists acc. split_and!; [done|rw Hu; destruct a; try done; by rw app_nil_r|].
    apply Forall_forall. intros e He. pose proof (tool_trace_kind _ _ _ _ _ Htr He) as Hk.
    destruct a; try done; destruct Hk as [Hm Hk]; (split; [done|]); intros t' Et; specialize (Hk t' Et);
      cbn in *; by simplify_eq.
Qed.

End theorems.
