(* ===== verification/WorkerRun.v ===== *)
(** * The worker loop

    [crates/orchestraitor-worker/src]: the run configuration and result
    ([result.rs]), the system prompt ([prompt.rs]), the model call
    ([model.rs]), the attempt loop ([run.rs]) and sub-sessions
    ([subsession.rs]).

    The loop is a state monad over [RunState].  No loop has fuel: an attempt
    recurs on the turns it has left, the re-plan loop on the re-plans, a model
    call on the retries.  The environment adds the clock, the provider and the
    worktree snapshot to the tools' host; the delivery sink is an argument, as
    a sub-session has its own.  The calls of the sink and the cost rows are
    logged. *)

From S2P Require Import Prelude BTree Text Time Substring RunState Kickoff LoopRun WorkerAction Guardrails Thoughts WorkerTools ReceiptSummary.

(** ** Configuration *)

Record CostAttribution := MkCostAttribution {
  ca_agent_domain_id : rstr;
  ca_role : rstr;
  ca_project : rstr;
  ca_session : rstr;
  ca_repository : rstr;
}.

Record RoleRoutingEvidence := MkRoleRoutingEvidence {
  re_role : rstr;
  re_provider : rstr;
  re_model : rstr;
  precedence_path : rstr;
  fallback_reason : option rstr;
}.

(** [cost_sink] and [progress] are handles: whether they are set. *)
Record WorkerConfig := MkWorkerConfig {
  wc_provider_id : rstr;
  wc_model_id : rstr;
  wc_budgets : WorkerBudgets;
  prior_daily_spend_usd : f64;
  wc_progress : bool;
  wc_guardrails : GuardrailsConfig;
  attribution : option CostAttribution;
  cost_sink : bool;
  wc_tools : list ToolDefinition;
  wc_subsession_depth : N;
  subsession_allowed_internal : list InternalTool;
  subsession_routing : list (rstr * RoleRoutingEvidence);
  wc_effort : option ReasoningEffort;
  wc_profile : option rstr;
  wc_structured_summary : bool;
  wc_think_enabled : bool;
  wc_record_payloads : bool;
  worktree_branch : option rstr;
}.

Definition WorkerConfig_new (provider model : rstr) (b : WorkerBudgets) : WorkerConfig :=
  {| wc_provider_id := provider; wc_model_id := model; wc_budgets := b; prior_daily_spend_usd := f64_zero;
     wc_progress := false; wc_guardrails := GuardrailsConfig_bootstrap_defaults; attribution := None;
     cost_sink := false; wc_tools := []; wc_subsession_depth := 0; subsession_allowed_internal := [];
     subsession_routing := []; wc_effort := None; wc_profile := None; wc_structured_summary := false;
     wc_think_enabled := true; wc_record_payloads := false; worktree_branch := None |}.

(** ** The system prompt *)

(** A literal in which [~] stands for the double quote. *)
Definition qlit (s : string) : rstr := replace 126 34 (lit s).

Definition PROMPT_HEAD : rstr :=
  lit "You are Orchestraitor's bootstrap worker operating on a task worktree." ++ [10]
  ++ lit "Every response MUST contain exactly one fenced ```json block selecting one of the ".

Definition READ_LINE : rstr := qlit "{~tool~: ~read_file~, ~path~: ~<worktree-relative path>~}".
Definition WRITE_LINE : rstr :=
  qlit "{~tool~: ~write_file~, ~path~: ~<worktree-relative path>~, ~content~: ~<full file content>~}".
Definition SEARCH_LINE : rstr :=
  qlit "{~tool~: ~search~, ~pattern~: ~<plain text>~, ~path~: ~<optional worktree-relative dir>~}".
Definition BASH_LINE : rstr := qlit "{~tool~: ~bash~, ~script~: ~<bash script>~}".

Definition FOUR_TOOLS : rstr :=
  [10; 10] ++ READ_LINE ++ [10] ++ WRITE_LINE ++ [10] ++ SEARCH_LINE ++ [10] ++ BASH_LINE ++ [10].

Definition PROMPT_THINK : rstr :=
  lit "five tools:" ++ FOUR_TOOLS
  ++ qlit "{~tool~: ~think~, ~thought~: ~<this step's deliberation>~, ~thought_number~: <n>, ~total_thoughts~: <n>, ~next_thought_needed~: <bool>}"
  ++ [10; 10] ++ lit "Use `think` before complex work: estimate the step count, reason one step at" ++ [10]
  ++ qlit "a time, revise explicitly (set ~is_revision~: true with ~revises_thought~: <n>)," ++ [10]
  ++ lit "and stop calling it when done. `think` performs no action " ++ [8212] ++ lit " it only records" ++ [10]
  ++ lit "your deliberation." ++ [10].

Definition PROMPT_NO_THINK : rstr := lit "four tools:" ++ FOUR_TOOLS ++ [10].

Definition FINISH_LINE : rstr :=
  qlit "Terminate with {~tool~: ~finish~, ~summary~: ~<what was done>~, ~success~: true}" ++ [10]
  ++ lit "or success=false when the task cannot be completed. Any tool not listed" ++ [10].

Definition PROMPT_TAIL : rstr :=
  FINISH_LINE ++ lit "above (and not listed as a declared tool) is refused and recorded.".

Definition prompt_line (t : ToolDefinition) : rstr :=
  let shape := match mechanism t with
               | Command _ => lit "run a fixed configured command"
               | Subagent _ tools _ =>
                   lit "spawn a scoped sub-session (tools: "
                   ++ join (lit ", ") (tool_name <$> List.filter (λ i, bool_decide (i ∈ tools)) all_internal_tools)
                   ++ lit ")"
               end in
  qlit "{~tool~: ~" ++ td_id t ++ qlit "~} " ++ [8212] ++ lit " declared tool: " ++ shape
  ++ lit "; question (optional, capped)".

Definition subsession_tool_line (t : InternalTool) : rstr :=
  match t with
  | ItReadFile => READ_LINE
  | ItSearch => SEARCH_LINE
  | ItBash => BASH_LINE
  | ItThink =>
      qlit "{~tool~: ~think~, ~thought~: ~<this step's deliberation>~, ~thought_number~: <n " ++ [8805]
      ++ qlit " 1>, ~total_thoughts~: <n " ++ [8805]
      ++ qlit " 1>, ~next_thought_needed~: <bool>, ~is_revision~: <bool>, ~revises_thought~: <optional n>}"
  end.

(** The tools a sub-session's prompt lists. *)
Definition advertised (c : WorkerConfig) : list InternalTool :=
  List.filter (λ t, bool_decide (t ∈ subsession_allowed_internal c)
                    && (wc_think_enabled c || negb (bool_decide (t = ItThink)))) all_internal_tools.

Definition system_prompt (c : WorkerConfig) : rstr :=
  if 0 <? wc_subsession_depth c then
    lit "You are an Orchestraitor sub-session worker operating on a task worktree." ++ [10]
    ++ lit "Every response MUST contain exactly one fenced ```json block selecting one of the allowed tools:" ++ [10; 10]
    ++ (advertised c ≫= λ t, subsession_tool_line t ++ [10])
    ++ [10] ++ FINISH_LINE ++ lit "above is refused and recorded."
    ++ (if wc_structured_summary c
        then [10; 10] ++ lit "The summary MUST be a compact fielded payload (machine-readable" ++ [10]
             ++ lit "key: value lines, one fact per line) " ++ [8212] ++ lit " never prose narrative."
        else [])
  else
    PROMPT_HEAD ++ (if wc_think_enabled c then PROMPT_THINK else PROMPT_NO_THINK) ++ PROMPT_TAIL
    ++ (if is_empty (wc_tools c) then []
        else [10; 10] ++ lit "Declared tools available to you (invoked like any other tool):" ++ [10]
             ++ (wc_tools c ≫= λ t, prompt_line t ++ [10])).

(** ** The provider *)

Inductive MessageRole := System | User | Assistant.
Definition ModelMessage : Type := MessageRole * rstr.

(** The request of one call; the fields that never vary are [stream = false],
    no temperature, no structured output and no tool choice. *)
Record ModelRequest := MkModelRequest {
  mq_provider_id : rstr;
  mq_model_id : rstr;
  messages : list ModelMessage;
  max_output_tokens : N;
  reasoning : option ReasoningEffort;
}.

Definition build_request (c : WorkerConfig) (ms : list ModelMessage) : ModelRequest :=
  MkModelRequest (wc_provider_id c) (wc_model_id c) ms 8192 (wc_effort c).

Record TokenCount := MkTokenCount {
  tk_input : N;
  tk_output : N;
  cached_tokens : N;
  reasoning_tokens : N;
}.

Inductive ModelEvent :=
| Started
| TextDelta (text : rstr)
| ToolCall (id name : rstr) (arguments : Json)
| Usage (count : TokenCount)
| CompletedEvent.

Inductive ProviderTransportError :=
| RequestFailed (provider : rstr)
| InvalidEvent
| CapabilityUnavailable (provider capability : rstr).

Record TypedFailure := MkTypedFailure { class : FailureClass; reason : rstr }.

(** Folds a stream into text and usage; a failure keeps the usage seen. *)
Fixpoint collect_go (text : rstr) (usage : option TokenCount) (completed : bool)
    (events : list (result ModelEvent ProviderTransportError))
    : result (rstr * option TokenCount) (TypedFailure * option TokenCount) :=
  match events with
  | [] =>
      if completed then Ok (text, usage)
      else Err (MkTypedFailure ProviderErrorClass (lit "provider-invalid-event"), usage)
  | Err _ :: _ => Err (MkTypedFailure ProviderErrorClass (lit "provider-invalid-event"), usage)
  | Ok Started :: es => collect_go text usage completed es
  | Ok CompletedEvent :: es => collect_go text usage true es
  | Ok (TextDelta delta) :: es => collect_go (text ++ delta) usage completed es
  | Ok (Usage count) :: es => collect_go text (Some count) completed es
  | Ok (ToolCall _ _ _) :: _ =>
      Err (MkTypedFailure ProviderErrorClass (lit "provider-unexpected-tool-call"), usage)
  end.

Definition collect_events (events : list (result ModelEvent ProviderTransportError)) :=
  collect_go [] None false events.

(** ** Delivery, costs and events *)

Record DeliveryRequest := MkDeliveryRequest {
  dr_task_id : rstr;
  dr_summary : rstr;
  dr_untrusted_writes : list rstr;
  dr_worktree : option path;
  dr_worktree_branch : option rstr;
}.

Inductive DeliveryOutcome := PrOpened (reference : rstr) | Pending (reason : rstr).

(** One row of the cost ledger; a call counts one request, its cache writes are
    zero and its monetary fields unset. *)
Record CostEntry := MkCostEntry {
  ce_model : rstr;
  ce_provider : rstr;
  ce_attribution : CostAttribution;
  ce_input_tokens : N;
  ce_output_tokens : N;
  ce_reasoning_tokens : N;
  ce_cache_read_tokens : N;
  ce_request_id : rstr;
  ce_started_at : N;
  ce_completed_at : N;
  ce_wall_ms : N;
  ce_routing_decision : rstr;
  ce_profile : option rstr;
}.

Record UsageTotals := MkUsageTotals { u_input : N; u_output : N }.

Inductive SubsessionEvent :=
| SubsessionRan (tool_id role provider model : rstr) (status : RunStatus) (usage : UsageTotals)
    (routing : RoleRoutingEvidence) (effort : option ReasoningEffort) (max_summary_bytes : option N)
    (structured_summary : option bool)
| SubsessionRefused (tool_id reason : rstr).

(** [WorkerRun]. *)
Record WorkerResult := MkWorkerResult {
  wres_task_id : rstr;
  wres_status : RunStatus;
  exit_code : N;
  wres_summary : option rstr;
  wres_failure : option TypedFailure;
  wres_delivery : option DeliveryOutcome;
  wres_attempts : N;
  wres_replans : N;
  wres_turns : N;
  wres_model_calls : N;
  wres_usage : UsageTotals;
  wres_soft_cap_exceeded : bool;
  wres_untrusted_writes : list rstr;
  wres_receipts : list ToolReceipt;
  wres_subsession_events : list SubsessionEvent;
  wres_reasoning_events : list ReasoningRecord;
}.

(** What the loop runner reads of it. *)
Definition loop_view (r : WorkerResult) : WorkerRun :=
  MkWorkerRun (wres_status r) ((λ f, (class f, reason f)) <$> wres_failure r) (u_input (wres_usage r))
    (u_output (wres_usage r)).

(** ** State *)

Class WorkerHost (W : Type) := {
  wh_tools :: ToolHost W;
  wh_now : W → W * Duration;
  wh_utc : W → W * N;
  wh_sleep : W → Duration → W;
  wh_stream : W → ModelRequest → W * result (list (result ModelEvent ProviderTransportError)) ProviderTransportError;
  wh_snapshot : W → W * option (list Entry);
  wh_exists : W → path → W * bool;
  wh_canonicalize : W → path → W * option path;
}.

Definition DeliverySink (W : Type) : Type := W → DeliveryRequest → W * result DeliveryOutcome rstr.

(** [turns], [model_calls], [usage] and [spend_soft_cap_exceeded]. *)
Record Tallies := MkTallies { turns : N; model_calls : N; usage : UsageTotals; soft_cap_exceeded : bool }.

(** [channel] is the value the progress channel holds, [call_sequence] the
    counter of the configuration. *)
Record RunState (W : Type) := MkRunState {
  exec : Executor W;
  tallies : Tallies;
  progress_beat : N;
  channel : N;
  subsession_events : list SubsessionEvent;
  call_sequence : N;
  cost_rows : list CostEntry;
  deliveries : list DeliveryRequest;
}.
Arguments MkRunState {W}.
Arguments exec {W}.
Arguments tallies {W}.
Arguments progress_beat {W}.
Arguments channel {W}.
Arguments subsession_events {W}.
Arguments call_sequence {W}.
Arguments cost_rows {W}.
Arguments deliveries {W}.

Definition with_host {W} (x : Executor W) (w : W) : Executor W :=
  MkExecutor w (accesses x) (receipts x) (untrusted_writes x) (thoughts x) (reasoning_records x).

(** ** Sub-sessions *)

Record SubsessionParent := MkSubsessionParent {
  sp_worktree_root : path;
  sp_remaining : Duration;
  sp_depth : N;
  sp_prior_daily_spend_usd : f64;
  sp_role : rstr;
  sp_project : rstr;
  sp_repository : rstr;
  sp_session_id : rstr;
  spawn_seq : N;
  sp_attribution : option CostAttribution;
  sp_profile : option rstr;
  sp_cost_sink : bool;
}.

Record SubsessionOutcome := MkSubsessionOutcome {
  so_tool_id : rstr;
  so_status : RunStatus;
  so_summary : option rstr;
  so_failure : option TypedFailure;
  so_usage : UsageTotals;
  so_receipts : list ToolReceipt;
  so_untrusted_writes : list rstr;
  so_routing : RoleRoutingEvidence;
}.

Inductive SubsessionError := NotSubagent (tool_id : rstr) | ChildWorktreeRoot (reason : rstr).

Definition SubsessionError_display (e : SubsessionError) : rstr :=
  match e with
  | NotSubagent tool_id => lit "tool `" ++ tool_id ++ lit "` is not a subagent tool"
  | ChildWorktreeRoot r => lit "sub-session worktree root is unusable: " ++ r
  end.

Definition guardrail_child_class : FailureClass := SubsessionFailed.

Definition parent_failure_class (child : FailureClass) : FailureClass :=
  match child with
  | AttemptBudgetExhausted | ReplanBudgetExhausted | TurnBudgetExhausted | WorkerTimeoutClass
  | StalledClass => SubsessionBudgetExhausted
  | SubsessionBudgetExhausted | SubsessionDepthExceeded | SubsessionFailed => child
  | FormatErrorsExhausted | ProviderErrorClass | MediationRefused | TaskNotCompleted
  | DeliveryFailed => SubsessionFailed
  | ToolLoopChurn | NoProgress | PollBudgetExhausted => guardrail_child_class
  end.

Definition allowlist_of (def : ToolDefinition) : list InternalTool :=
  match mechanism def with Subagent _ tools _ => tools | Command _ => [] end.

Definition default_internal_tools : list InternalTool := [ItReadFile; ItSearch].

Definition child_worker_config (parent : SubsessionParent) (def : ToolDefinition) (role : rstr)
    (routed : RoleRoutingEvidence) (b : WorkerBudgets) (allowed : list InternalTool) (progress : bool)
    : WorkerConfig :=
  let base := WorkerConfig_new (re_provider routed) (re_model routed) b in
  let tracked := match sp_attribution parent with Some a => if sp_cost_sink parent then Some a else None | None => None end in
  {| wc_provider_id := wc_provider_id base; wc_model_id := wc_model_id base; wc_budgets := b;
     prior_daily_spend_usd := sp_prior_daily_spend_usd parent; wc_progress := progress;
     wc_guardrails := wc_guardrails base;
     attribution :=
       (λ a, MkCostAttribution (ca_agent_domain_id a) role (sp_project parent)
               (ca_session a ++ lit "/tool-" ++ td_id def ++ lit "-" ++ dec (spawn_seq parent))
               (sp_repository parent)) <$> tracked;
     cost_sink := bool_decide (is_Some tracked); wc_tools := wc_tools base;
     wc_subsession_depth := saturating_add 255 (sp_depth parent) 1; subsession_allowed_internal := allowed;
     subsession_routing := subsession_routing base; wc_effort := td_effort def;
     wc_profile := sp_profile parent;
     wc_structured_summary := tb_structured_summary (td_budget def) || default false (td_structured_summary def);
     wc_think_enabled := wc_think_enabled base; wc_record_payloads := wc_record_payloads base;
     worktree_branch := worktree_branch base |}.

(** The budgets carved for a child: one attempt, no re-plan, its own turns, and
    the lesser of its wall clock and what the parent has left. *)
Definition child_budgets (parent : SubsessionParent) (def : ToolDefinition) : WorkerBudgets :=
  let wall_clock := from_option (λ secs, N.min (from_secs secs) (sp_remaining parent)) (sp_remaining parent)
                      (tb_wall_clock_secs (td_budget def)) in
  let b := bootstrap_defaults in
  {| max_attempts := 1; max_replans := 0; worker_timeout := wall_clock;
     max_concurrent_workers := max_concurrent_workers b; stall_timeout := stall_timeout b;
     retry_base_delay := retry_base_delay b; retry_max_delay := retry_max_delay b;
     max_provider_retries := max_provider_retries b;
     daily_spend_soft_cap_usd := daily_spend_soft_cap_usd b; run_budget := wall_clock;
     max_turns_per_attempt := N.max (tb_max_turns (td_budget def)) 1;
     max_consecutive_format_errors := max_consecutive_format_errors b;
     usd_per_token_estimate := usd_per_token_estimate b |}.

Definition child_task (def : ToolDefinition) (instructions question : option rstr) : WorkerTask :=
  MkWorkerTask (lit "tool." ++ td_id def) (lit "tool-" ++ td_id def)
    (from_option (λ i, i ++ [10; 10]) [] instructions
     ++ from_option (λ q, lit "Question from the parent session:" ++ [10] ++ q ++ [10])
          (lit "Complete the task your instructions define." ++ [10]) question).

Definition outcome_from_run (tool_id : rstr) (routed : RoleRoutingEvidence) (max_result_bytes : N)
    (run : WorkerResult) : SubsessionOutcome :=
  let failure := (λ f, MkTypedFailure (parent_failure_class (class f)) (reason f)) <$> wres_failure run in
  {| so_tool_id := tool_id; so_status := wres_status run;
     so_summary := (λ s, truncate_bytes s (N.min max_result_bytes usize_max)) <$> wres_summary run;
     so_failure := match wres_status run with RunFailed => failure | RunCompleted => None end;
     so_usage := wres_usage run; so_receipts := wres_receipts run;
     so_untrusted_writes := wres_untrusted_writes run; so_routing := routed |}.

Definition render_subsession_summary (tool_id : rstr) (max_result_bytes : N) (outcome : SubsessionOutcome) : rstr :=
  let marker := TRUNCATION_MARKER in
  let cap := N.min max_result_bytes usize_max in
  let rendered :=
    match so_summary outcome with
    | Some summary =>
        let prefix := lit "[subsession '" ++ tool_id ++ lit "' completed]" ++ [10] in
        if str_len prefix + str_len summary <=? cap then prefix ++ summary
        else
          let body_budget := saturating_sub cap (str_len prefix + str_len marker) in
          prefix ++ truncate_bytes summary body_budget ++ marker
    | None =>
        let prefix := lit "[subsession '" ++ tool_id ++ lit "' failed: " in
        let r := from_option reason (lit "none") (so_failure outcome) in
        if str_len prefix + str_len r <? cap then prefix ++ r ++ lit "]"
        else
          let reason_budget := saturating_sub cap (str_len prefix + 1 + str_len marker) in
          prefix ++ truncate_bytes r reason_budget ++ lit "]" ++ marker
    end in
  if cap <? str_len rendered then
    let cut := floor_boundary rendered (N.to_nat (saturating_sub cap (str_len marker))) in
    byte_prefix rendered (N.of_nat cut) ++ marker
  else rendered.

(** ** The run *)

(** What a run shares with the runs around it. *)
Record Env (W : Type) := MkEnv {
  env_host : W;
  env_accesses : list Access;
  env_channel : N;
  env_costs : list CostEntry;
}.
Arguments MkEnv {W}.
Arguments env_host {W}.
Arguments env_accesses {W}.
Arguments env_channel {W}.
Arguments env_costs {W}.

Inductive AttemptOutcome :=
| AttemptCompleted (summary : rstr) (delivery : DeliveryOutcome)
| AttemptFailed (failure : TypedFailure).

Definition u64_next (n : N) : N := (n + 1) mod 18446744073709551616.
Definition u64_add (a b : N) : N := (a + b) mod 18446744073709551616.

Section run.
Context {W : Type} `{WorkerHost W} (from_str : rstr → option Json).

Definition M (A : Type) : Type := RunState W → RunState W * A.

Definition ret {A} (a : A) : M A := λ s, (s, a).
Definition bind {A B} (m : M A) (k : A → M B) : M B := λ s, let '(s', a) := m s in k a s'.

#[local] Notation "'let*' x ':=' c 'in' k" := (bind c (fun x => k))
  (at level 10, x pattern, c at level 200, k at level 200).
#[local] Notation "c ;; k" := (bind c (fun _ => k)) (at level 100, k at level 200, right associativity).

Definition gets {A} (f : RunState W → A) : M A := λ s, (s, f s).

Definition put_exec (x : Executor W) : M unit := λ s,
  (MkRunState x (tallies s) (progress_beat s) (channel s) (subsession_events s) (call_sequence s) (cost_rows s)
     (deliveries s), tt).
Definition put_tallies (t : Tallies) : M unit := λ s,
  (MkRunState (exec s) t (progress_beat s) (channel s) (subsession_events s) (call_sequence s) (cost_rows s)
     (deliveries s), tt).
Definition put_beat (beat chan : N) : M unit := λ s,
  (MkRunState (exec s) (tallies s) beat chan (subsession_events s) (call_sequence s) (cost_rows s)
     (deliveries s), tt).
Definition push_event (e : SubsessionEvent) : M unit := λ s,
  (MkRunState (exec s) (tallies s) (progress_beat s) (channel s) (subsession_events s ++ [e]) (call_sequence s)
     (cost_rows s) (deliveries s), tt).
Definition push_cost (e : CostEntry) : M unit := λ s,
  (MkRunState (exec s) (tallies s) (progress_beat s) (channel s) (subsession_events s) (call_sequence s + 1)
     (cost_rows s ++ [e]) (deliveries s), tt).
Definition push_delivery (d : DeliveryRequest) : M unit := λ s,
  (MkRunState (exec s) (tallies s) (progress_beat s) (channel s) (subsession_events s) (call_sequence s)
     (cost_rows s) (deliveries s ++ [d]), tt).

Definition on_exec {A} (m : tool A) : M A := λ s, let '(x, a) := m (exec s) in ((put_exec x s).1, a).

Definition host {A} (f : W → W * A) : M A :=
  let* x := gets exec in
  let '(w, a) := f (ex_host x) in
  put_exec (with_host x w) ;; ret a.

Definition now : M Duration := host wh_now.
Definition elapsed_since (start : Duration) : M Duration := let* t := now in ret (saturating_sub t start).

Definition emit_beat (c : WorkerConfig) : M unit :=
  if wc_progress c then
    let* chan := gets channel in put_beat (u64_next chan) (u64_next chan)
  else
    let* beat := gets progress_beat in let* chan := gets channel in put_beat (u64_next beat) chan.

(** ** The model call *)

Definition accrue_usage_and_check_cap (c : WorkerConfig) (input output : N) : M unit :=
  let* t := gets tallies in
  let u := MkUsageTotals (u64_add (u_input (usage t)) input) (u64_add (u_output (usage t)) output) in
  let total := u64_add (u_input u) (u_output u) in
  let estimated := f64_mul (f64_of_u64 total) (usd_per_token_estimate (wc_budgets c)) in
  let spent := f64_add (prior_daily_spend_usd c) estimated in
  put_tallies (MkTallies (turns t) (model_calls t) u
                 (soft_cap_exceeded t || f64_lt (daily_spend_soft_cap_usd (wc_budgets c)) spent)).

Definition accumulate_usage (c : WorkerConfig) (u : option TokenCount) : M unit :=
  let '(i, o) := from_option (λ t, (tk_input t, tk_output t)) (0, 0) u in
  accrue_usage_and_check_cap c i o.

Definition call_label (completed : bool) : rstr :=
  if completed then lit "worker-bootstrap" else lit "worker-bootstrap-failed".

Definition record_call_cost (c : WorkerConfig) (q : ModelRequest) (u : option TokenCount) (completed : bool)
    (started : Duration) (started_at : N) : M unit :=
  match attribution c with
  | Some a =>
      if cost_sink c then
        let* sequence := gets call_sequence in
        let* completed_at := host wh_utc in
        let* wall := elapsed_since started in
        push_cost
          {| ce_model := mq_model_id q; ce_provider := mq_provider_id q; ce_attribution := a;
             ce_input_tokens := from_option tk_input 0 u; ce_output_tokens := from_option tk_output 0 u;
             ce_reasoning_tokens := from_option reasoning_tokens 0 u;
             ce_cache_read_tokens := from_option cached_tokens 0 u;
             ce_request_id := ca_session a ++ lit "/call-" ++ dec (sequence + 1);
             ce_started_at := started_at; ce_completed_at := completed_at;
             ce_wall_ms := N.min (wall / 1000000) u64_max; ce_routing_decision := call_label completed;
             ce_profile := wc_profile c |}
      else ret tt
  | None => ret tt
  end.

Definition count_call : M unit :=
  let* t := gets tallies in
  put_tallies (MkTallies (turns t) (model_calls t + 1) (usage t) (soft_cap_exceeded t)).

(** [left] is [max_provider_retries - retries]. *)
Fixpoint call_go (c : WorkerConfig) (q : ModelRequest) (left : nat) (retries : N) : M (result rstr TypedFailure) :=
  count_call ;;
  let* started := now in
  let* started_at := host wh_utc in
  let* answer := host (λ w, wh_stream w q) in
  match answer with
  | Ok events =>
      match collect_events events with
      | Ok (text, u) =>
          accumulate_usage c u ;; record_call_cost c q u true started started_at ;; ret (Ok text)
      | Err (failure, u) => record_call_cost c q u false started started_at ;; ret (Err failure)
      end
  | Err (RequestFailed _) =>
      record_call_cost c q None false started started_at ;;
      match left with
      | O => ret (Err (MkTypedFailure ProviderErrorClass (lit "provider-request-failed")))
      | Datatypes.S left' =>
          host (λ w, (wh_sleep w (backoff_delay (wc_budgets c) retries), tt)) ;;
          call_go c q left' (retries + 1)
      end
  | Err InvalidEvent =>
      record_call_cost c q None false started started_at ;;
      ret (Err (MkTypedFailure ProviderErrorClass (lit "provider-invalid-event")))
  | Err (CapabilityUnavailable _ _) =>
      record_call_cost c q None false started started_at ;;
      ret (Err (MkTypedFailure ProviderErrorClass (lit "provider-capability-unavailable")))
  end.

Definition call_model (c : WorkerConfig) (ms : list ModelMessage) : M (result rstr TypedFailure) :=
  call_go c (build_request c ms) (N.to_nat (max_provider_retries (wc_budgets c))) 0.

(** ** Sub-agent dispatch *)

(** The child's run as the parent makes it: [None] for a child that may not be
    started. *)
Definition Spawn : Type :=
  SubsessionParent → ToolDefinition → option rstr → RoleRoutingEvidence → bool →
  Env W → Env W * result SubsessionOutcome SubsessionError.

Definition env_of (s : RunState W) : Env W :=
  MkEnv (ex_host (exec s)) (accesses (exec s)) (channel s) (cost_rows s).

(** The parent's state with what the child changed of the shared part. *)
Definition rejoin (s : RunState W) (e : Env W) : RunState W :=
  MkRunState
    (MkExecutor (env_host e) (env_accesses e) (receipts (exec s)) (untrusted_writes (exec s)) (thoughts (exec s))
       (reasoning_records (exec s)))
    (tallies s) (progress_beat s) (env_channel e) (subsession_events s) (call_sequence s) (env_costs e) (deliveries s).

Definition refuse_subagent (tool_id reason : rstr) : M unit :=
  push_event (SubsessionRefused tool_id reason) ;; on_exec (record_subagent_refusal tool_id reason).

Definition routing_get (c : WorkerConfig) (role : rstr) : option RoleRoutingEvidence :=
  snd <$> List.find (λ p, bool_decide (p.1 = role)) (subsession_routing c).

Fixpoint record_child_writes (paths : list rstr) : M unit :=
  match paths with
  | [] => ret tt
  | p :: ps => on_exec (record_child_write p) ;; record_child_writes ps
  end.

Definition dispatch_subagent (spawn : Spawn) (c : WorkerConfig) (root : path) (repository session : rstr)
    (started : Duration) (tool_id : rstr) (question : option rstr) : M rstr :=
  if 0 <? wc_subsession_depth c then
    refuse_subagent tool_id (lit "subsession-depth-exceeded") ;;
    ret (lit "tool call refused: subsession-depth-exceeded")
  else
    match List.find (λ t, bool_decide (td_id t = tool_id)) (wc_tools c) with
    | None =>
        refuse_subagent tool_id (lit "tool-not-allowed") ;; ret (lit "tool call refused: tool-not-allowed")
    | Some def =>
        match mechanism def with
        | Command _ =>
            refuse_subagent tool_id (lit "not-a-subagent-tool") ;;
            ret (lit "tool call refused: not-a-subagent-tool")
        | Subagent role _ _ =>
            match routing_get c role with
            | None =>
                refuse_subagent tool_id (lit "subsession-role-unrouted") ;;
                ret (lit "tool call refused: subsession-role-unrouted (" ++ role ++ lit ")")
            | Some evidence =>
                let* spent := elapsed_since started in
                let* spawned := gets (λ s, len (subsession_events s)) in
                let parent :=
                  {| sp_worktree_root := root;
                     sp_remaining := saturating_sub (run_deadline (wc_budgets c)) spent;
                     sp_depth := wc_subsession_depth c; sp_prior_daily_spend_usd := prior_daily_spend_usd c;
                     sp_role := role; sp_project := lit "local"; sp_repository := repository;
                     sp_session_id := session; spawn_seq := spawned; sp_attribution := attribution c;
                     sp_profile := wc_profile c; sp_cost_sink := cost_sink c |} in
                let* child := λ s, let '(e, r) := spawn parent def question evidence (wc_progress c) (env_of s) in
                                   (rejoin s e, r) in
                match child with
                | Ok outcome =>
                    on_exec (record_subagent_completion tool_id
                               (match so_status outcome with RunCompleted => true | RunFailed => false end)) ;;
                    push_event (SubsessionRan tool_id role (re_provider evidence) (re_model evidence)
                                  (so_status outcome) (so_usage outcome) (so_routing outcome) (td_effort def)
                                  (td_max_summary_bytes def) (td_structured_summary def)) ;;
                    accrue_usage_and_check_cap c (u_input (so_usage outcome)) (u_output (so_usage outcome)) ;;
                    record_child_writes (so_untrusted_writes outcome) ;;
                    ret (render_subsession_summary tool_id (tb_max_result_bytes (td_budget def)) outcome)
                | Err error =>
                    on_exec (record_subagent_refusal tool_id (lit "subsession-spawn-failed")) ;;
                    push_event (SubsessionRefused tool_id (lit "subsession-spawn-failed")) ;;
                    ret (lit "subsession spawn failed closed: " ++ SubsessionError_display error)
                end
            end
        end
    end.

(** ** One attempt *)

Definition attempt_failure (c : FailureClass) (r : rstr) : M AttemptOutcome :=
  ret (AttemptFailed (MkTypedFailure c r)).

Definition begin_turn : M unit :=
  let* t := gets tallies in
  put_tallies (MkTallies (turns t + 1) (model_calls t) (usage t) (soft_cap_exceeded t)).

(** The guards' state within an attempt. *)
Record Guards := MkGuards { g_churn : ChurnWindow; g_no_progress : NoProgressGuard; g_poll : PollBudget }.

Definition Guards_new (g : GuardrailsConfig) : Guards :=
  MkGuards (ChurnWindow_new g) (NoProgressGuard_new g) (PollBudget_new g).

(** The checks after a dispatch: the guards as they are left, and the failure
    of the one that fires. *)
Definition post_dispatch (c : WorkerConfig) (action : WorkerAction) (g : Guards)
    : M (Guards * option TypedFailure) :=
  let* receipt := gets (λ s, list.last (receipts (exec s))) in
  match receipt with
  | None => ret (g, None)
  | Some r =>
      let '(churn, churned) :=
        if churn_enabled (wc_guardrails c) then churn_observe (g_churn g) (tool_call_shape action r)
        else (g_churn g, false) in
      if churned then
        ret (MkGuards churn (g_no_progress g) (g_poll g),
             Some (MkTypedFailure ToolLoopChurn (lit "tool-loop-churn")))
      else if no_progress_enabled (wc_guardrails c) then
        let* snapshot := host wh_snapshot in
        let* writes := gets (λ s, untrusted_writes (exec s)) in
        let '(np, stuck) := no_progress_observe (g_no_progress g) (progress_fingerprint snapshot writes) in
        ret (MkGuards churn np (g_poll g),
             if stuck then Some (MkTypedFailure NoProgress (lit "no-progress")) else None)
      else ret (MkGuards churn (g_no_progress g) (g_poll g), None)
  end.

(** Charges a dispatch that waited on CI; [true] when the budget fires. *)
Definition charge_poll (c : WorkerConfig) (action : WorkerAction) (dispatch_started : Duration) (g : Guards)
    : M (Guards * bool) :=
  match action with
  | Bash script =>
      if poll_budget_enabled (wc_guardrails c) && poll_shaped script then
        let* spent := elapsed_since dispatch_started in
        let '(poll, fired) := charge (g_poll g) spent in
        ret (MkGuards (g_churn g) (g_no_progress g) poll, fired)
      else ret (g, false)
  | _ => ret (g, false)
  end.

Definition policy_of (c : WorkerConfig) : ToolPolicy :=
  MkToolPolicy (wc_tools c) (subsession_allowed_internal c) (wc_subsession_depth c) (wc_think_enabled c)
    (wc_record_payloads c).

Section attempt.
Context (spawn : Spawn) (deliver : DeliverySink W) (c : WorkerConfig) (task : WorkerTask) (root : path)
  (repository session : rstr) (started : Duration).

Definition is_subagent (tool_id : rstr) : bool :=
  match mechanism <$> List.find (λ t, bool_decide (td_id t = tool_id)) (wc_tools c) with
  | Some (Subagent _ _ _) => true
  | _ => false
  end.

(** [left] is [max_turns_per_attempt - turns_this_attempt]. *)
Fixpoint attempt_loop (left : nat) (ms : list ModelMessage) (format_errors : N) (last_progress : Duration)
    (g : Guards) : M AttemptOutcome :=
  let* dispatch_started := now in
  let* run_elapsed := elapsed_since started in
  if run_deadline (wc_budgets c) <? run_elapsed then attempt_failure WorkerTimeoutClass (lit "worker-timeout") else
  let* idle := elapsed_since last_progress in
  if stall_timeout (wc_budgets c) <? idle then attempt_failure StalledClass (lit "stall-timeout") else
  match left with
  | O => attempt_failure TurnBudgetExhausted (lit "turn-budget")
  | Datatypes.S left' =>
      begin_turn ;;
      emit_beat c ;;
      let* answer := call_model c ms in
      match answer with
      | Err failure => ret (AttemptFailed failure)
      | Ok text =>
          let ms := ms ++ [(Assistant, text)] in
          match parse_action from_str text with
          | Err (Malformed r) =>
              let format_errors := format_errors + 1 in
              if max_consecutive_format_errors (wc_budgets c) <? format_errors
              then attempt_failure FormatErrorsExhausted r
              else attempt_loop left'
                     (ms ++ [(User, lit "response rejected: " ++ r
                                    ++ lit "; respond with exactly one fenced json action block")])
                     format_errors last_progress g
          | Err (UnknownTool name) =>
              let* turn := on_exec (record_refusal name (lit "unknown-tool")) in
              attempt_loop left' (ms ++ [(User, observation turn)]) format_errors last_progress g
          | Ok (Finish summary success) =>
              if negb success then attempt_failure TaskNotCompleted (lit "task-not-completed")
              else
                let* writes := gets (λ s, untrusted_writes (exec s)) in
                let request := MkDeliveryRequest (task_id task) summary writes (Some root) (worktree_branch c) in
                push_delivery request ;;
                let* delivered := host (λ w, deliver w request) in
                match delivered with
                | Ok outcome => ret (AttemptCompleted summary outcome)
                | Err r => attempt_failure DeliveryFailed r
                end
          | Ok (DeclaredTool tool_id question) =>
              emit_beat c ;;
              let* turn :=
                (if is_subagent tool_id then
                   let* obs := dispatch_subagent spawn c root repository session started tool_id question in
                   ret (MkToolTurn obs None)
                 else on_exec (dispatch root (policy_of c) (DeclaredTool tool_id question))) in
              let* progressed := now in
              match mediation_failure turn with
              | Some r => attempt_failure MediationRefused r
              | None => attempt_loop left' (ms ++ [(User, observation turn)]) 0 progressed g
              end
          | Ok action =>
              emit_beat c ;;
              let* turn := on_exec (dispatch root (policy_of c) action) in
              let* (g, poll_fired) := charge_poll c action dispatch_started g in
              if poll_fired then attempt_failure PollBudgetExhausted (lit "ci-poll-budget-exhausted")
              else
                let* progressed := now in
                match mediation_failure turn with
                | Some r => attempt_failure MediationRefused r
                | None =>
                    let* (g, stuck) := post_dispatch c action g in
                    match stuck with
                    | Some failure => ret (AttemptFailed failure)
                    | None => attempt_loop left' (ms ++ [(User, observation turn)]) 0 progressed g
                    end
                end
          end
      end
  end.

Definition run_attempt (replan_note replan_summary : option rstr) : M AttemptOutcome :=
  let* last_progress := now in
  attempt_loop (N.to_nat (max_turns_per_attempt (wc_budgets c)))
    [(System, system_prompt c); (User, task_prompt task replan_note replan_summary)]
    0 last_progress (Guards_new (wc_guardrails c)).

(** ** Attempts and re-plans *)

(** The failures no re-plan can repair. *)
Definition replan_fatal (f : FailureClass) : bool :=
  match f with
  | MediationRefused | DeliveryFailed | ToolLoopChurn | NoProgress | PollBudgetExhausted => true
  | _ => false
  end.

(** [left] is [max_replans - replans]; the result carries both counters. *)
Fixpoint attempts_loop (left : nat) (attempts replans : N) (replan_note replan_summary : option rstr)
    : M (AttemptOutcome * N * N) :=
  let attempts := attempts + 1 in
  let* attempt := run_attempt replan_note replan_summary in
  match attempt with
  | AttemptCompleted _ _ => ret (attempt, attempts, replans)
  | AttemptFailed failure =>
      if replan_fatal (class failure) then ret (AttemptFailed failure, attempts, replans)
      else if max_attempts (wc_budgets c) <=? attempts then
        ret (AttemptFailed (MkTypedFailure AttemptBudgetExhausted (reason failure)), attempts, replans)
      else
        match left with
        | O => ret (AttemptFailed (MkTypedFailure ReplanBudgetExhausted (reason failure)), attempts, replans)
        | Datatypes.S left' =>
            let* run_elapsed := elapsed_since started in
            if run_deadline (wc_budgets c) <? run_elapsed then
              ret (AttemptFailed (MkTypedFailure WorkerTimeoutClass (lit "worker-timeout")), attempts, replans + 1)
            else
              let* x := gets exec in
              attempts_loop left' attempts (replans + 1) (Some (reason failure))
                (for_replan (receipts x) (untrusted_writes x))
        end
  end.

Definition build_result (outcome : AttemptOutcome) (attempts replans : N) (s : RunState W) : WorkerResult :=
  let result status code summary failure delivery :=
    {| wres_task_id := task_id task; wres_status := status; exit_code := code; wres_summary := summary;
       wres_failure := failure; wres_delivery := delivery; wres_attempts := attempts; wres_replans := replans;
       wres_turns := turns (tallies s); wres_model_calls := model_calls (tallies s);
       wres_usage := usage (tallies s); wres_soft_cap_exceeded := soft_cap_exceeded (tallies s);
       wres_untrusted_writes := untrusted_writes (exec s); wres_receipts := receipts (exec s);
       wres_subsession_events := subsession_events s;
       wres_reasoning_events := reasoning_records (exec s) |} in
  match outcome with
  | AttemptCompleted summary delivery => result RunCompleted 0 (Some summary) None (Some delivery)
  | AttemptFailed failure => result RunFailed 1 None (Some failure) None
  end.

Definition run_started : M (AttemptOutcome * N * N) :=
  attempts_loop (N.to_nat (max_replans (wc_budgets c))) 0 0 None None.
End attempt.

(** ** The run *)

Inductive WorkerError := WorktreeRoot (reason : rstr).

Definition init_state (e : Env W) : RunState W :=
  {| exec := MkExecutor (env_host e) (env_accesses e) [] [] ThoughtChain_new [];
     tallies := MkTallies 0 0 (MkUsageTotals 0 0) false; progress_beat := 0; channel := env_channel e;
     subsession_events := []; call_sequence := 0; cost_rows := env_costs e; deliveries := [] |}.

Definition canonical_root (w : W) (worktree : path) : W * result path WorkerError :=
  let '(w, exists_) := wh_exists w worktree in
  if negb exists_ then (w, Err (WorktreeRoot (lit "missing")))
  else
    let '(w, dir) := host_is_dir w worktree in
    if negb dir then (w, Err (WorktreeRoot (lit "not-a-directory")))
    else
      let '(w, canonical) := wh_canonicalize w worktree in
      (w, ok_or canonical (WorktreeRoot (lit "canonicalize-io"))).

(** The state the run ends in, with its outcome and counters. *)
Definition run_from (spawn : Spawn) (deliver : DeliverySink W) (task : WorkerTask) (c : WorkerConfig)
    (root : path) (e : Env W) : RunState W * (AttemptOutcome * N * N) :=
  (let* started := now in
   run_started spawn deliver c task root (lit "/" ++ display root) (lit "run-" ++ task_id task) started)
    (init_state e).

Definition run_with (spawn : Spawn) (deliver : DeliverySink W) (task : WorkerTask) (worktree : path)
    (c : WorkerConfig) (e : Env W) : Env W * result WorkerResult WorkerError :=
  let '(w, root) := canonical_root (env_host e) worktree in
  let e := MkEnv w (env_accesses e) (env_channel e) (env_costs e) in
  match root with
  | Err error => (e, Err error)
  | Ok root =>
      let '(s, (outcome, attempts, replans)) := run_from spawn deliver task c root e in
      (env_of s, Ok (build_result task outcome attempts replans s))
  end.
End run.

(** ** The knot *)

(** [ReadOnlyBashStub]: the host with no interpreter. *)
Definition read_only_tools {W} (h : ToolHost W) : ToolHost W :=
  {| host_lstat := host_lstat; host_metadata := host_metadata; host_read := host_read; host_is_dir := host_is_dir;
     host_tree := host_tree; host_mkdirs := host_mkdirs; host_write := host_write;
     host_bash := λ w _, (w, Err (MediationContext (lit "subsession-bash-not-allowed")));
     host_bash_within := λ w _ _, (w, Some (Err (MediationContext (lit "subsession-bash-not-allowed")))) |}.

Definition read_only_host {W} (h : WorkerHost W) : WorkerHost W :=
  {| wh_tools := read_only_tools wh_tools; wh_now := wh_now; wh_utc := wh_utc; wh_sleep := wh_sleep;
     wh_stream := wh_stream; wh_snapshot := wh_snapshot; wh_exists := wh_exists; wh_canonicalize := wh_canonicalize |}.

Definition pending_delivery {W} : DeliverySink W :=
  λ w _, (w, Ok (Pending (lit "delivery-path-not-wired"))).

(** What a child's own dispatch would call: it is never reached, as a child's
    depth refuses it. *)
Definition no_spawn {W} : Spawn (W := W) := λ _ def _ _ _ e, (e, Err (NotSubagent (td_id def))).

Definition beat {W} (progress : bool) (e : Env W) : Env W :=
  if progress then MkEnv (env_host e) (env_accesses e) (u64_next (env_channel e)) (env_costs e) else e.

Section knot.
Context {W : Type} (h : WorkerHost W) (from_str : rstr → option Json).

Definition run_subsession : Spawn (W := W) := λ parent def question routed progress e,
  match mechanism def with
  | Command _ => (e, Err (NotSubagent (td_id def)))
  | Subagent role tools instructions =>
      let allowed := allowlist_of def in
      let child_host := if bool_decide (ItBash ∈ allowed) then h else read_only_host h in
      let config := child_worker_config parent def role routed (child_budgets parent def) allowed progress in
      let e := beat progress e in
      let '(e, run) :=
        run_with (H := child_host) from_str no_spawn pending_delivery (child_task def instructions question)
          (sp_worktree_root parent) config e in
      let e := beat progress e in
      match run with
      | Err (WorktreeRoot r) => (e, Err (ChildWorktreeRoot r))
      | Ok run =>
          (e, Ok (outcome_from_run (td_id def) routed
                    (default (tb_max_result_bytes (td_budget def)) (td_max_summary_bytes def)) run))
      end
  end.

Definition run_worker (deliver : DeliverySink W) (task : WorkerTask) (worktree : path) (c : WorkerConfig)
    (e : Env W) : Env W * result WorkerResult WorkerError :=
  run_with from_str run_subsession deliver task worktree c e.
End knot.
