(* ===== verification/WorkerSafe.v ===== *)
(** * What a worker run does

    Properties of [WorkerRun] on every host, provider and delivery sink.  Each
    step of the loop is described by [delta]: the turns begun, the provider
    calls made, the receipts pushed and the deliveries requested between two
    states, and the calls billed; deltas compose. *)

From S2P Require Import Prelude BTree Text Time Substring RunState Kickoff LoopRun WorkerAction Guardrails Thoughts WorkerTools WorkerConfined ReceiptSummary WorkerRun.

(** ** Weakest preconditions *)

Section wp.
Context {W : Type}.

Definition wpr {A} (m : M (W := W) A) (Q : A → RunState W → Prop) (s : RunState W) : Prop := Q (m s).2 (m s).1.

Lemma wpr_bind {A B} (m : M A) (k : A → M B) Q s : wpr m (λ a, wpr (k a) Q) s → wpr (bind m k) Q s.
Proof. unfold wpr, bind. by destruct (m s). Qed.

Lemma wpr_mono {A} (m : M A) (Q Q' : A → RunState W → Prop) s :
  wpr m Q s → (∀ a s', Q a s' → Q' a s') → wpr m Q' s.
Proof. unfold wpr. auto. Qed.

Lemma wpr_ret {A} (a : A) (Q : A → RunState W → Prop) s : Q a s → wpr (ret a) Q s.
Proof. done. Qed.

Lemma wpr_gets {A} (f : RunState W → A) (Q : A → RunState W → Prop) s : Q (f s) s → wpr (gets f) Q s.
Proof. done. Qed.
End wp.

(** ** Deltas *)

(** Receipts numbered on from [k]. *)
Fixpoint numbered_from (k : N) (rs : list ToolReceipt) : Prop :=
  match rs with
  | [] => True
  | r :: rs' => rc_sequence r = k + 1 ∧ numbered_from (k + 1) rs'
  end.

Lemma numbered_from_app k rs rs' :
  numbered_from k rs → numbered_from (k + len rs) rs' → numbered_from k (rs ++ rs').
Proof.
  revert k. induction rs as [|r rs IH]; intros k; [by rw len_nil N.add_0_r|].
  rw len_cons -app_comm_cons. cbn [numbered_from]. intros [Hr Hrs] Hrs'. split; [done|].
  apply IH; [done|]. by replace (k + 1 + len rs) with (k + (1 + len rs)) by lia.
Qed.

(** The session whose calls are billed, if they are. *)
Definition billed_session (c : WorkerConfig) : option rstr :=
  match attribution c with Some a => if cost_sink c then Some (ca_session a) else None | None => None end.

Fixpoint call_ids (session : rstr) (k : N) (n : nat) : list rstr :=
  match n with
  | O => []
  | Datatypes.S n => (session ++ lit "/call-" ++ dec (k + 1)) :: call_ids session (k + 1) n
  end.

Lemma call_ids_app session k n m :
  call_ids session k (n + m) = call_ids session k n ++ call_ids session (k + N.of_nat n) m.
Proof.
  revert k. induction n as [|n IH]; intros k; cbn [call_ids Nat.add app]; [by rw N.add_0_r|].
  rw IH. do 3 f_equal. lia.
Qed.

(** The request ids of one session among some rows. *)
Definition ids_of (session : rstr) (rows : list CostEntry) : list rstr :=
  ce_request_id <$> List.filter (λ e, bool_decide (ca_session (ce_attribution e) = session)) rows.

Lemma ids_of_app session rows rows' : ids_of session (rows ++ rows') = ids_of session rows ++ ids_of session rows'.
Proof. unfold ids_of. by rw List.filter_app fmap_app. Qed.

(** An access a sub-session with this allowlist may make. *)
Definition child_access (allowed : list InternalTool) (e : Access) : Prop :=
  mutates e = false ∧ ∀ t, tool_of_access e = Some t → t ∈ allowed.

Section delta.
Context {W : Type} (c : WorkerConfig).
Implicit Types s : RunState W.

Record delta (t n b : nat) (rs : list ToolReceipt) (ds : list DeliveryRequest) s s' : Prop := {
  d_turns : turns (tallies s') = turns (tallies s) + N.of_nat t;
  d_calls : model_calls (tallies s') = model_calls (tallies s) + N.of_nat n;
  d_receipts : receipts (exec s') = receipts (exec s) ++ rs;
  d_numbered : numbered_from (len (receipts (exec s))) rs;
  d_deliveries : deliveries s' = deliveries s ++ ds;
  d_accesses : ∃ acc, accesses (exec s') = accesses (exec s) ++ acc
    ∧ (0 < wc_subsession_depth c → Forall (child_access (subsession_allowed_internal c)) acc);
  d_writes : 0 < wc_subsession_depth c → untrusted_writes (exec s') = untrusted_writes (exec s);
  d_rows : ∀ session, billed_session c = Some session →
    call_sequence s' = call_sequence s + N.of_nat b
    ∧ ∃ rows, cost_rows s' = cost_rows s ++ rows ∧ ids_of session rows = call_ids session (call_sequence s) b
      ∧ (0 < wc_subsession_depth c → Forall (λ e, ca_session (ce_attribution e) = session) rows);
}.

Lemma delta_refl s : delta 0 0 0 [] [] s s.
Proof.
  split; try done; try (by rw ?N.add_0_r ?app_nil_r).
  - exists []. by rw app_nil_r.
  - intros session _. split; [by rw N.add_0_r|]. exists []. by rw app_nil_r.
Qed.

Lemma delta_trans t n b rs ds t' n' b' rs' ds' s s1 s2 :
  delta t n b rs ds s s1 → delta t' n' b' rs' ds' s1 s2 →
  delta (t + t') (n + n') (b + b') (rs ++ rs') (ds ++ ds') s s2.
Proof.
  intros [] []. split.
  - lia.
  - lia.
  - by rw d_receipts1 d_receipts0 app_assoc.
  - apply numbered_from_app; [done|]. by rw -len_app -d_receipts0.
  - by rw d_deliveries1 d_deliveries0 app_assoc.
  - destruct d_accesses0 as (acc & E & Hc), d_accesses1 as (acc' & E' & Hc').
    exists (acc ++ acc'). rw E' E app_assoc. split; [done|]. intros Hd. apply Forall_app. auto.
  - intros Hd. by rw d_writes1 ?d_writes0.
  - intros session Hs. destruct (d_rows0 session Hs) as (E & rows & Er & Hi & Hf), (d_rows1 session Hs) as (E' & rows' & Er' & Hi' & Hf').
    split; [lia|]. exists (rows ++ rows'). rw Er' Er app_assoc ids_of_app Hi Hi' call_ids_app E.
    split_and!; try done. intros Hd. apply Forall_app. auto.
Qed.

(** A step that changes only the host, the beats, the events or the usage. *)
Definition quiet s s' : Prop := delta 0 0 0 [] [] s s'.

Lemma quiet_trans_l t n b rs ds s s1 s2 : quiet s s1 → delta t n b rs ds s1 s2 → delta t n b rs ds s s2.
Proof. apply (delta_trans 0 0 0 [] []). Qed.

Lemma quiet_trans_r t n b rs ds s s1 s2 : delta t n b rs ds s s1 → quiet s1 s2 → delta t n b rs ds s s2.
Proof.
  intros H1 H2. pose proof (delta_trans _ _ _ _ _ _ _ _ _ _ _ _ _ H1 H2) as H.
  by rw !Nat.add_0_r !app_nil_r in H.
Qed.

Lemma quiet_same s s' :
  turns (tallies s') = turns (tallies s) → model_calls (tallies s') = model_calls (tallies s) →
  receipts (exec s') = receipts (exec s) → deliveries s' = deliveries s →
  accesses (exec s') = accesses (exec s) → untrusted_writes (exec s') = untrusted_writes (exec s) →
  call_sequence s' = call_sequence s → cost_rows s' = cost_rows s → quiet s s'.
Proof.
  intros H1 H2 H3 H4 H5 H6 H7 H8. split; try (by rw ?H1 ?H2 ?H3 ?H4 ?N.add_0_r ?app_nil_r).
  - exists []. by rw H5 app_nil_r.
  - intros session _. rw H7 H8. split; [by rw N.add_0_r|]. exists []. by rw app_nil_r.
Qed.
End delta.

(** Splits a [quiet] goal on an updated state into reflexivities. *)
Ltac quiet := apply quiet_same; reflexivity.

Section steps.
Context {W : Type} `{WorkerHost W} (c : WorkerConfig).
Implicit Types s : RunState W.

Lemma wpr_host {A} (f : W → W * A) (Q : A → RunState W → Prop) s :
  (∀ a s', quiet c s s' → Q a s') → wpr (host f) Q s.
Proof.
  intros HQ. unfold wpr, host, bind, gets. destruct (f (ex_host (exec s))) as [w a]. apply HQ. quiet.
Qed.

Lemma wpr_elapsed t0 (Q : Duration → RunState W → Prop) s :
  (∀ a s', quiet c s s' → Q a s') → wpr (elapsed_since t0) Q s.
Proof. intros HQ. apply wpr_bind, wpr_host. intros a s' Hq. by apply wpr_ret, HQ. Qed.

Lemma wpr_beat (Q : unit → RunState W → Prop) s : (∀ s', quiet c s s' → Q tt s') → wpr (emit_beat c) Q s.
Proof. intros HQ. unfold emit_beat. destruct (wc_progress c); apply HQ; quiet. Qed.

Lemma wpr_accrue i o (Q : unit → RunState W → Prop) s :
  (∀ s', quiet c s s' → Q tt s') → wpr (accrue_usage_and_check_cap c i o) Q s.
Proof. intros HQ. apply HQ. quiet. Qed.

Lemma wpr_push_event e (Q : unit → RunState W → Prop) s :
  (∀ s', quiet c s s' → Q tt s') → wpr (push_event e) Q s.
Proof. intros HQ. apply HQ. quiet. Qed.

(** One call is counted, and billed once under the next number. *)
Lemma wpr_count_call (Q : unit → RunState W → Prop) s :
  (∀ s', delta c 0 1 0 [] [] s s' → Q tt s') → wpr count_call Q s.
Proof.
  intros HQ. apply HQ. split; cbn; try (by rw ?N.add_0_r ?app_nil_r); try done.
  - exists []. by rw app_nil_r.
  - intros session _. split; [by rw N.add_0_r|]. exists []. by rw app_nil_r.
Qed.

Lemma unbilled s : billed_session c = None → delta c 0 0 1 [] [] s s.
Proof. intros Hb. destruct (delta_refl c s). split; try done. intros session E. by rw Hb in E. Qed.

Lemma wpr_record_cost q u ok t0 at0 (Q : unit → RunState W → Prop) s :
  (∀ s', delta c 0 0 1 [] [] s s' → Q tt s') → wpr (record_call_cost c q u ok t0 at0) Q s.
Proof.
  intros HQ. unfold record_call_cost.
  destruct (attribution c) as [a|] eqn:Ea; [|by apply wpr_ret, HQ, unbilled; unfold billed_session; rw Ea].
  destruct (cost_sink c) eqn:Es; [|by apply wpr_ret, HQ, unbilled; unfold billed_session; rw Ea Es].
  apply wpr_bind, wpr_gets, wpr_bind, wpr_host. intros completed_at s1 H1.
  apply wpr_bind, wpr_elapsed. intros wall s2 H2. apply HQ.
  pose proof (quiet_trans_r _ _ _ _ _ _ _ _ _ H1 H2) as [].
  split; cbn; try done. intros session Hb. destruct (d_rows0 session Hb) as (E & rows & Er & Hi & Hf).
  unfold billed_session in Hb. rw Ea Es in Hb. injection Hb as <-. split; [rw E; lia|].
  eexists. rw Er -app_assoc. split; [reflexivity|]. rw ids_of_app Hi. split.
  - unfold ids_of. cbn [List.filter ce_attribution]. by rw bool_decide_eq_true_2.
  - intros Hd. apply Forall_app. auto.
Qed.

Lemma collect_go_failure txt u done events f u' :
  collect_go txt u done events = Err (f, u') → class f = ProviderErrorClass.
Proof.
  revert txt u done. induction events as [|[[| | | |]|] events IH]; intros txt u done; cbn [collect_go]; eauto;
    try (by intros [= <- _]). by destruct done; [|intros [= <- _]].
Qed.

(** A model call makes one to [left + 1] provider calls, each billed. *)
Lemma wpr_call_go q left retries (Q : result rstr TypedFailure → RunState W → Prop) s :
  (∀ r n s', (1 ≤ n ≤ Datatypes.S left)%nat → delta c 0 n n [] [] s s' →
     (∀ f, r = Err f → class f = ProviderErrorClass) → Q r s') →
  wpr (call_go c q left retries) Q s.
Proof.
  revert retries Q s. induction left as [left IH] using lt_wf_ind; intros retries Q s HQ.
  assert (∀ r u ok t0 at0 s1 s2, (∀ f, r = Err f → class f = ProviderErrorClass) →
    delta c 0 1 0 [] [] s s1 → quiet c s1 s2 →
    wpr (bind (record_call_cost c q u ok t0 at0) (λ _, ret r)) Q s2) as Hend.
  { intros r u ok t0 at0 s1 s2 Hf H1 H2. apply wpr_bind, wpr_record_cost. intros s3 H3. apply wpr_ret.
    apply (HQ r 1%nat); [lia| |done].
    exact (delta_trans _ _ _ _ _ _ _ _ _ _ _ _ _ _ (quiet_trans_r _ _ _ _ _ _ _ _ _ H1 H2) H3). }
  destruct left as [|left]; cbn [call_go].
  all: apply wpr_bind, wpr_count_call; intros s1 H1; apply wpr_bind, wpr_host; intros started s2 H2.
  all: apply wpr_bind, wpr_host; intros started_at s3 H3; apply wpr_bind, wpr_host; intros answer s4 H4.
  all: pose proof (quiet_trans_r _ _ _ _ _ _ _ _ _ (quiet_trans_r _ _ _ _ _ _ _ _ _ H2 H3) H4) as Hq.
  all: destruct answer as [events|[p| |p cap]].
  all: try (destruct (collect_events events) as [[text u]|[failure u]] eqn:Ec).
  all: try (by eapply Hend; [intros f [= <-]|exact H1|exact Hq]).
  all: try (by eapply Hend; [intros f [= <-]; by eapply collect_go_failure|exact H1|exact Hq]).
  all: try (apply wpr_bind; unfold accumulate_usage; destruct (from_option _ _ u) as [i o]; apply wpr_accrue;
    intros s6 H6; eapply Hend; [done|exact H1|exact (quiet_trans_r _ _ _ _ _ _ _ _ _ Hq H6)]).
  apply wpr_bind, wpr_record_cost. intros s6 H6. apply wpr_bind, wpr_host. intros [] s7 H7.
  apply (IH left ltac:(lia)). intros r n s' Hn Hd Hf. apply (HQ r (Datatypes.S n)); [lia| |done].
  pose proof (delta_trans _ _ _ _ _ _ _ _ _ _ _ _ _ _ (quiet_trans_r _ _ _ _ _ _ _ _ _ H1 Hq) H6) as H8.
  exact (delta_trans _ _ _ _ _ _ _ _ _ _ _ _ _ _ (quiet_trans_r _ _ _ _ _ _ _ _ _ H8 H7) Hd).
Qed.

(** ** Dispatches *)

(** A dispatched tool leaves one receipt, which carries the turn's failure. *)
Lemma wpr_dispatch root a (Q : ToolTurn → RunState W → Prop) s :
  (∀ turn r s', delta c 0 0 0 [r] [] s s' → mediation_failure turn = failure_of_receipt r → Q turn s') →
  wpr (on_exec (dispatch root (policy_of c) a)) Q s.
Proof.
  intros HQ. unfold wpr, on_exec. pose proof (dispatch_effects root (policy_of c) a (exec s)) as He.
  pose proof (allowlist_effects root (policy_of c) a (exec s)) as Hal.
  destruct (dispatch root (policy_of c) a (exec s)) as [x turn].
  destruct He as (acc & r & rs & Ha & _ & Hr & Hn & Hm & _). cbn [fst snd] in *.
  apply (HQ turn r); [|done]. split; cbn; try (by rw ?N.add_0_r ?app_nil_r); try done.
  - exists acc. split; [done|]. intros Hd. destruct (Hal Hd) as (acc' & Ha' & _ & Hf).
    rw Ha in Ha'. by apply app_inv_head in Ha' as ->.
  - intros Hd. by destruct (Hal Hd) as (_ & _ & Hw & _).
  - intros session _. split; [by rw N.add_0_r|]. exists []. by rw app_nil_r.
Qed.

(** A receipt pushed by the loop itself. *)
Lemma push_receipt_delta tool_ adm outcome reason_ code s :
  delta c 0 0 0 [MkToolReceipt (len (receipts (exec s)) + 1) tool_ adm outcome reason_ code] []
    s (on_exec (push_receipt tool_ adm outcome reason_ code) s).1.
Proof.
  split; cbn; try (by rw ?N.add_0_r ?app_nil_r); try done.
  - exists []. by rw app_nil_r.
  - intros session _. split; [by rw N.add_0_r|]. exists []. by rw app_nil_r.
Qed.

Lemma wpr_record_refusal tool_ reason_ (Q : ToolTurn → RunState W → Prop) s :
  (∀ turn r s', delta c 0 0 0 [r] [] s s' → failure_of_receipt r = None → Q turn s') →
  wpr (on_exec (record_refusal tool_ reason_)) Q s.
Proof. intros HQ. eapply HQ; [apply push_receipt_delta|done]. Qed.

(** The environment a child hands back: the log and the ledger only grow, and
    the rows it adds are of its own session. *)
Definition spawn_ok (spawn : Spawn (W := W)) : Prop :=
  ∀ parent def question routed progress e session,
    sp_attribution parent = attribution c → sp_cost_sink parent = cost_sink c →
    billed_session c = Some session →
    ∃ rows, env_costs (spawn parent def question routed progress e).1 = env_costs e ++ rows
    ∧ ids_of session rows = [].

Definition spawn_logs (spawn : Spawn (W := W)) : Prop :=
  ∀ parent def question routed progress e,
    ∃ acc, env_accesses (spawn parent def question routed progress e).1 = env_accesses e ++ acc.

Lemma record_child_writes_quiet paths s :
  ¬ 0 < wc_subsession_depth c → quiet c s (record_child_writes paths s).1.
Proof.
  intros Hd. revert s. induction paths as [|p ps IH]; intros s; [apply delta_refl|].
  cbn [record_child_writes]. unfold bind. eapply quiet_trans_l; [|apply IH].
  split; cbn; try (by rw ?N.add_0_r ?app_nil_r); try done.
  - exists []. by rw app_nil_r.
  - intros session _. split; [by rw N.add_0_r|]. exists []. by rw app_nil_r.
Qed.

(** The failure of a receipt the loop pushes for a sub-session. *)
Definition calm (r : ToolReceipt) : Prop :=
  failure_of_receipt r = None ∨ failure_of_receipt r = Some (lit "subsession-failed").

Lemma wpr_refuse_subagent tool_id reason_ (Q : unit → RunState W → Prop) s :
  (∀ r s', delta c 0 0 0 [r] [] s s' → calm r → Q tt s') → wpr (refuse_subagent tool_id reason_) Q s.
Proof.
  intros HQ. apply wpr_bind, wpr_push_event. intros s1 H1.
  eapply HQ; [eapply quiet_trans_l; [exact H1|apply push_receipt_delta]|by left].
Qed.

Lemma wpr_dispatch_subagent spawn root repository session started tool_id question
    (Q : rstr → RunState W → Prop) s :
  spawn_ok spawn → spawn_logs spawn →
  (∀ obs r s', delta c 0 0 0 [r] [] s s' → calm r → Q obs s') →
  wpr (dispatch_subagent spawn c root repository session started tool_id question) Q s.
Proof.
  intros Hok Hlog HQ. unfold dispatch_subagent.
  assert (∀ t reason_ obs, wpr (bind (refuse_subagent t reason_) (λ _, ret obs)) Q s) as Href.
  { intros t reason_ obs. apply wpr_bind, wpr_refuse_subagent. intros r s' Hd Hc. by apply wpr_ret, (HQ _ r). }
  destruct (0 <? wc_subsession_depth c) eqn:Ed; [apply Href|]. apply N.ltb_ge in Ed.
  destruct (List.find _ (wc_tools c)) as [def|]; [|apply Href].
  destruct (mechanism def) as [argv|role tools instr]; [apply Href|].
  destruct (routing_get c role) as [ev|]; [|apply Href].
  apply wpr_bind, wpr_elapsed. intros spent s1 H1. apply wpr_bind, wpr_gets. cbv zeta.
  set (parent := MkSubsessionParent _ _ _ _ _ _ _ _ _ _ _ _).
  apply wpr_bind. unfold wpr at 1.
  destruct (spawn parent def question ev (wc_progress c) (env_of s1)) as [e child] eqn:Esp. cbn [fst snd].
  assert (quiet c s1 (rejoin s1 e)) as H2.
  { destruct (Hlog parent def question ev (wc_progress c) (env_of s1)) as [acc Ha]. rw Esp in Ha.
    split; cbn; try (by rw ?N.add_0_r ?app_nil_r); try done.
    - exists acc. split; [done|lia].
    - intros sess Hb. destruct (Hok parent def question ev (wc_progress c) (env_of s1) sess) as (rows & Hr & Hi); try done.
      rw Esp in Hr. split; [by rw N.add_0_r|]. exists rows. split_and!; [done|done|lia]. }
  pose proof (quiet_trans_r _ _ _ _ _ _ _ _ _ H1 H2) as H3. destruct child as [outcome|error].
  - apply wpr_bind. unfold record_subagent_completion.
    assert (∃ r, calm r ∧ delta c 0 0 0 [r] [] (rejoin s1 e) (on_exec (record_subagent_completion tool_id
      (match so_status outcome with RunCompleted => true | RunFailed => false end)) (rejoin s1 e)).1) as (r & Hc & H4).
    { destruct (so_status outcome); (eexists; split; [|apply push_receipt_delta]); [by left|by right]. }
    apply wpr_bind, wpr_push_event. intros s5 H5. apply wpr_bind, wpr_accrue. intros s6 H6.
    apply wpr_bind. pose proof (record_child_writes_quiet (so_untrusted_writes outcome) s6 ltac:(lia)) as H7.
    apply wpr_ret, (HQ _ r); [|done]. eapply quiet_trans_r; [|exact H7]. eapply quiet_trans_r; [|exact H6].
    eapply quiet_trans_r; [|exact H5]. eapply quiet_trans_l; [exact H3|exact H4].
  - apply wpr_bind. pose proof (push_receipt_delta tool_id true (lit "refused") (Some (lit "subsession-spawn-failed")) None (rejoin s1 e)) as H4.
    apply wpr_bind, wpr_push_event. intros s5 H5. apply wpr_ret.
    eapply HQ; [eapply quiet_trans_r; [eapply quiet_trans_l; [exact H3|exact H4]|exact H5]|by left].
Qed.

(** ** The guards *)

Definition guard_class (f : FailureClass) : Prop := f = ToolLoopChurn ∨ f = NoProgress.

Lemma wpr_post_dispatch a g (Q : Guards * option TypedFailure → RunState W → Prop) s :
  (∀ g' o s', quiet c s s' → (∀ f, o = Some f → guard_class (class f)) → Q (g', o) s') →
  wpr (post_dispatch c a g) Q s.
Proof.
  intros HQ. unfold post_dispatch. apply wpr_bind, wpr_gets.
  destruct (list.last _) as [r|]; [|apply wpr_ret, HQ; [apply delta_refl|done]].
  destruct (if churn_enabled _ then _ else _) as [churn churned].
  destruct churned. { apply wpr_ret, HQ; [apply delta_refl|]. intros f [= <-]. by left. }
  destruct (no_progress_enabled _); [|apply wpr_ret, HQ; [apply delta_refl|done]].
  apply wpr_bind, wpr_host. intros snap s1 H1. apply wpr_bind, wpr_gets.
  destruct (no_progress_observe _ _) as [np stuck]. apply wpr_ret, HQ; [done|].
  intros f Hf. destruct stuck; [|done]. injection Hf as <-. by right.
Qed.

Lemma wpr_charge_poll a t0 g (Q : Guards * bool → RunState W → Prop) s :
  (∀ g' fired s', quiet c s s' → Q (g', fired) s') → wpr (charge_poll c a t0 g) Q s.
Proof.
  intros HQ. unfold charge_poll. destruct a; try (apply wpr_ret, HQ, delta_refl).
  destruct (_ && _); [|apply wpr_ret, HQ, delta_refl].
  apply wpr_bind, wpr_elapsed. intros spent s1 H1. destruct (charge _ _) as [poll fired]. by apply wpr_ret, HQ.
Qed.

(** ** One attempt *)

Lemma wpr_begin_turn (Q : unit → RunState W → Prop) s :
  (∀ s', delta c 1 0 0 [] [] s s' → Q tt s') → wpr begin_turn Q s.
Proof.
  intros HQ. apply HQ. split; cbn; try (by rw ?N.add_0_r ?app_nil_r); try done.
  - exists []. by rw app_nil_r.
  - intros session _. split; [by rw N.add_0_r|]. exists []. by rw app_nil_r.
Qed.
End steps.

(** Calm up to the last receipt, which satisfies [Q]. *)
Definition last_receipt (Q : ToolReceipt → Prop) (rs : list ToolReceipt) : Prop :=
  ∃ rs0 r, rs = rs0 ++ [r] ∧ Forall calm rs0 ∧ Q r.

(** What an outcome says of the receipts pushed and the deliveries requested on
    the way to it: the sink is asked once, at the end, or never; a failed
    mediation is the last thing that happened. *)
Definition outcome_says {W} (deliver : DeliverySink W) (task : WorkerTask) (o : AttemptOutcome)
    (rs : list ToolReceipt) (ds : list DeliveryRequest) (writes : list rstr) : Prop :=
  match o with
  | AttemptCompleted summary d =>
      Forall calm rs ∧ ∃ req w, ds = [req] ∧ dr_task_id req = task_id task ∧ dr_summary req = summary
        ∧ dr_untrusted_writes req = writes ∧ (deliver w req).2 = Ok d
  | AttemptFailed f =>
      match class f with
      | DeliveryFailed =>
          Forall calm rs ∧ ∃ req w, ds = [req] ∧ dr_untrusted_writes req = writes
            ∧ (deliver w req).2 = Err (reason f)
      | MediationRefused => last_receipt (λ r, failure_of_receipt r = Some (reason f)) rs ∧ ds = []
      | PollBudgetExhausted => last_receipt (λ _, True) rs ∧ ds = []
      | _ => Forall calm rs ∧ ds = []
      end
  end.

Lemma calm_after rs0 rs (P : Prop) : Forall calm rs0 → Forall calm rs ∧ P → Forall calm (rs0 ++ rs) ∧ P.
Proof. intros H0 [H1 HP]. by rw Forall_app. Qed.

Lemma last_after Q rs0 rs (P : Prop) : Forall calm rs0 → last_receipt Q rs ∧ P → last_receipt Q (rs0 ++ rs) ∧ P.
Proof.
  intros H0 [(rs1 & r & -> & H1 & Hr) HP]. split; [|done]. exists (rs0 ++ rs1), r. by rw app_assoc Forall_app.
Qed.

Lemma outcome_says_after {W} (deliver : DeliverySink W) task o rs0 rs ds writes :
  Forall calm rs0 → outcome_says deliver task o rs ds writes → outcome_says deliver task o (rs0 ++ rs) ds writes.
Proof.
  intros H0. unfold outcome_says. destruct o as [summary d|f]; [by apply calm_after|].
  destruct (class f); first [by apply calm_after|by apply last_after].
Qed.

(** The classes an attempt gives up with, and may be re-planned. *)
Definition quiet_class (f : FailureClass) : Prop :=
  match f with DeliveryFailed | MediationRefused | PollBudgetExhausted => False | _ => True end.

Lemma quiet_failure {W} (deliver : DeliverySink W) task f rs writes :
  quiet_class (class f) → Forall calm rs → outcome_says deliver task (AttemptFailed f) rs [] writes.
Proof. intros Hc Hrs. unfold outcome_says. by destruct (class f). Qed.

Section attempts.
Context {W : Type} `{WorkerHost W} (from_str : rstr → option Json) (spawn : Spawn (W := W))
  (deliver : DeliverySink W) (c : WorkerConfig) (task : WorkerTask) (root : path) (repository session : rstr)
  (started : Duration) (Hok : spawn_ok c spawn) (Hlog : spawn_logs spawn).
Implicit Types s : RunState W.

#[local] Abbreviation loop := (attempt_loop from_str spawn deliver c task root repository session started).
#[local] Abbreviation tries := (N.to_nat (max_provider_retries (wc_budgets c)) + 1)%nat.

(** How an attempt ends: within its turns, each of at most [tries] calls. *)
Definition attempt_ends (left : nat) (o : AttemptOutcome) s s' : Prop :=
  ∃ t n rs ds, (t ≤ left)%nat ∧ (n ≤ t * tries)%nat ∧ delta c t n n rs ds s s'
    ∧ outcome_says deliver task o rs ds (untrusted_writes (exec s')).

Lemma attempt_ends_after left n rs o s s1 s2 :
  (n ≤ tries)%nat → delta c 1 n n rs [] s s1 → Forall calm rs →
  attempt_ends left o s1 s2 → attempt_ends (Datatypes.S left) o s s2.
Proof.
  intros Hn Hd Hc (t & n' & rs' & ds & Ht & Hn' & Hd' & Ho).
  exists (1 + t)%nat, (n + n')%nat, (rs ++ rs'), ds. split_and!; [lia|lia| |by apply outcome_says_after].
  exact (delta_trans _ _ _ _ _ _ _ _ _ _ _ _ _ _ Hd Hd').
Qed.

(** An attempt that ends in its last turn. *)
Lemma attempt_ends_now left n rs ds o s s1 :
  (n ≤ tries)%nat → delta c 1 n n rs ds s s1 → outcome_says deliver task o rs ds (untrusted_writes (exec s1)) →
  attempt_ends (Datatypes.S left) o s s1.
Proof. intros Hn Hd Ho. exists 1%nat, n, rs, ds. split_and!; [lia|lia|done|done]. Qed.

Lemma attempt_ends_quiet left f s s' :
  quiet c s s' → quiet_class (class f) → attempt_ends left (AttemptFailed f) s s'.
Proof.
  intros Hq Hc. exists 0%nat, 0%nat, [], []. split_and!; [lia|lia|done|by apply quiet_failure].
Qed.

Lemma wpr_deliver request (Q : result DeliveryOutcome rstr → RunState W → Prop) s :
  (∀ w s', delta c 0 0 0 [] [request] s s' → untrusted_writes (exec s') = untrusted_writes (exec s) →
     Q (deliver w request).2 s') →
  wpr (bind (push_delivery request) (λ _, host (λ w, deliver w request))) Q s.
Proof.
  intros HQ. unfold wpr, bind, push_delivery, host, gets. cbn.
  destruct (deliver (ex_host (exec s)) request) as [w r] eqn:Ed. cbn.
  specialize (HQ (ex_host (exec s))). rw Ed in HQ. apply HQ; [|done].
  split; cbn; try (by rw ?N.add_0_r ?app_nil_r); try done.
  - exists []. by rw app_nil_r.
  - intros sess _. split; [by rw N.add_0_r|]. exists []. by rw app_nil_r.
Qed.

(** A turn that has its answer, from where the attempt's state was [s0]. *)
Section turn.
Context (left : nat) (s0 : RunState W) (n : nat) (Hn : (n ≤ tries)%nat)
  (IH : ∀ ms fe lp g s, wpr (loop left ms fe lp g) (λ o s', attempt_ends left o s s') s).

#[local] Abbreviation ends := (λ o s', attempt_ends (Datatypes.S left) o s0 s').

Lemma turn_next rs ms fe lp g s :
  delta c 1 n n rs [] s0 s → Forall calm rs → wpr (loop left ms fe lp g) ends s.
Proof. intros Hd Hc. eapply wpr_mono; [apply IH|]. intros o s' He. by eapply attempt_ends_after. Qed.

Lemma turn_stop cl r rs s :
  delta c 1 n n rs [] s0 s → Forall calm rs → quiet_class cl → wpr (attempt_failure cl r) ends s.
Proof. intros Hd Hc Hq. apply wpr_ret. eapply attempt_ends_now; [done|exact Hd|by apply quiet_failure]. Qed.

(** The end of a dispatch: a mediation failure stops the run. *)
Lemma turn_mediated (turn : ToolTurn) r s k :
  delta c 1 n n [r] [] s0 s → mediation_failure turn = failure_of_receipt r →
  (failure_of_receipt r = None → wpr k ends s) →
  wpr (match mediation_failure turn with Some r => attempt_failure MediationRefused r | None => k end) ends s.
Proof.
  intros Hd Em Hk. rw Em. destruct (failure_of_receipt r) as [m|] eqn:Ef; [|by apply Hk].
  apply wpr_ret. eapply attempt_ends_now; [done|exact Hd|]. split; [|done]. by exists [], r.
Qed.

Lemma turn_finish summary success s :
  delta c 1 n n [] [] s0 s →
  wpr (if negb success then attempt_failure TaskNotCompleted (lit "task-not-completed")
       else bind (gets (λ s, untrusted_writes (exec s))) (λ writes,
         let request := MkDeliveryRequest (task_id task) summary writes (Some root) (worktree_branch c) in
         bind (push_delivery request) (λ _,
         bind (host (λ w, deliver w request)) (λ delivered,
         match delivered with
         | Ok outcome => ret (AttemptCompleted summary outcome)
         | Err r => attempt_failure DeliveryFailed r
         end)))) ends s.
Proof.
  intros Hd. destruct success; [|by eapply turn_stop]. apply wpr_bind, wpr_gets. cbv zeta.
  set (request := MkDeliveryRequest _ _ _ _ _).
  pose proof (wpr_deliver request (λ r s', wpr (match r with
    | Ok outcome => ret (AttemptCompleted summary outcome) | Err r => attempt_failure DeliveryFailed r end) ends s') s) as Hw.
  unfold wpr, bind in *. destruct (push_delivery request s) as [s1 []]. destruct (host _ s1) as [s2 delivered].
  apply Hw. clear Hw. intros w s' Hd' Ew. pose proof (delta_trans _ _ _ _ _ _ _ _ _ _ _ _ _ _ Hd Hd') as H1.
  rw !Nat.add_0_r in H1.
  destruct (deliver w request).2 as [outcome|r] eqn:Ed; (eapply attempt_ends_now; [done|exact H1|]);
    (split; [done|]); exists request, w; by rw Ew.
Qed.

(** A tool dispatched by the loop, the guards after it. *)
Lemma turn_dispatch a ms t0 g s :
  delta c 1 n n [] [] s0 s →
  wpr (bind (emit_beat c) (λ _,
       bind (on_exec (dispatch root (policy_of c) a)) (λ turn,
       bind (charge_poll c a t0 g) (λ '(g, poll_fired),
       if poll_fired then attempt_failure PollBudgetExhausted (lit "ci-poll-budget-exhausted")
       else bind now (λ progressed,
         match mediation_failure turn with
         | Some r => attempt_failure MediationRefused r
         | None =>
             bind (post_dispatch c a g) (λ '(g, stuck),
             match stuck with
             | Some failure => ret (AttemptFailed failure)
             | None => loop left (ms ++ [(User, observation turn)]) 0 progressed g
             end)
         end))))) ends s.
Proof.
  intros Hd. apply wpr_bind, wpr_beat. intros s1 H1. apply wpr_bind, wpr_dispatch. intros turn r s2 H2 Em.
  apply wpr_bind, wpr_charge_poll. intros g1 fired s3 H3.
  assert (delta c 1 n n [r] [] s0 s3) as Hd3.
  { pose proof (delta_trans _ _ _ _ _ _ _ _ _ _ _ _ _ _ (quiet_trans_r _ _ _ _ _ _ _ _ _ Hd H1) H2) as Hd2.
    rw !Nat.add_0_r in Hd2. exact (quiet_trans_r _ _ _ _ _ _ _ _ _ Hd2 H3). }
  destruct fired.
  { apply wpr_ret. eapply attempt_ends_now; [done|exact Hd3|]. split; [|done]. by exists [], r. }
  apply wpr_bind, (wpr_host c). intros progressed s4 H4.
  pose proof (quiet_trans_r _ _ _ _ _ _ _ _ _ Hd3 H4) as Hd4.
  eapply turn_mediated; [exact Hd4|exact Em|]. intros Hcalm.
  assert (Forall calm [r]) as Hc by (apply Forall_singleton; by left).
  apply wpr_bind, wpr_post_dispatch. intros g2 stuck s5 H5 Hg.
  pose proof (quiet_trans_r _ _ _ _ _ _ _ _ _ Hd4 H5) as Hd5. destruct stuck as [f|].
  - apply wpr_ret. eapply attempt_ends_now; [done|exact Hd5|]. apply quiet_failure; [|done].
    by destruct (Hg f eq_refl) as [->| ->].
  - by eapply turn_next.
Qed.

Lemma turn_declared tool_id question ms g s :
  delta c 1 n n [] [] s0 s →
  wpr (bind (emit_beat c) (λ _,
       bind (if is_subagent c tool_id
             then bind (dispatch_subagent spawn c root repository session started tool_id question)
                    (λ obs, ret (MkToolTurn obs None))
             else on_exec (dispatch root (policy_of c) (DeclaredTool tool_id question))) (λ turn,
       bind now (λ progressed,
         match mediation_failure turn with
         | Some r => attempt_failure MediationRefused r
         | None => loop left (ms ++ [(User, observation turn)]) 0 progressed g
         end)))) ends s.
Proof.
  intros Hd. apply wpr_bind, wpr_beat. intros s1 H1. pose proof (quiet_trans_r _ _ _ _ _ _ _ _ _ Hd H1) as Hd1.
  apply wpr_bind.
  assert (∀ r s2 s3, delta c 0 0 0 [r] [] s1 s2 → quiet c s2 s3 → delta c 1 n n [r] [] s0 s3) as Hrec.
  { intros r s2 s3 H2 H3. pose proof (delta_trans _ _ _ _ _ _ _ _ _ _ _ _ _ _ Hd1 H2) as Hd2.
    rw !Nat.add_0_r in Hd2. exact (quiet_trans_r _ _ _ _ _ _ _ _ _ Hd2 H3). }
  destruct (is_subagent c tool_id).
  - apply wpr_bind, wpr_dispatch_subagent; [done..|]. intros obs r s2 H2 Hc. apply wpr_ret, wpr_bind, (wpr_host c).
    intros progressed s3 H3. eapply turn_next; [by eapply Hrec|by apply Forall_singleton].
  - apply wpr_dispatch. intros turn r s2 H2 Em. apply wpr_bind, (wpr_host c). intros progressed s3 H3.
    eapply turn_mediated; [by eapply Hrec|exact Em|]. intros Hcalm.
    eapply turn_next; [by eapply Hrec|]. apply Forall_singleton. by left.
Qed.
End turn.

Lemma wpr_attempt_loop left ms fe lp g s : wpr (loop left ms fe lp g) (λ o s', attempt_ends left o s s') s.
Proof.
  revert ms fe lp g s. induction left as [|left IH]; intros ms fe lp g s; cbn [attempt_loop].
  all: apply wpr_bind, (wpr_host c); intros t0 s1 H1; apply wpr_bind, (wpr_elapsed c); intros el s2 H2.
  all: pose proof (quiet_trans_r _ _ _ _ _ _ _ _ _ H1 H2) as H12.
  all: destruct (run_deadline _ <? _); [apply wpr_ret; by apply attempt_ends_quiet|].
  all: apply wpr_bind, (wpr_elapsed c); intros idle s3 H3; pose proof (quiet_trans_r _ _ _ _ _ _ _ _ _ H12 H3) as H123.
  all: destruct (stall_timeout _ <? _); [apply wpr_ret; by apply attempt_ends_quiet|].
  { apply wpr_ret. by apply attempt_ends_quiet. }
  apply wpr_bind, (wpr_begin_turn c). intros s4 H4. apply wpr_bind, wpr_beat. intros s5 H5.
  pose proof (quiet_trans_r _ _ _ _ _ _ _ _ _ (quiet_trans_l _ _ _ _ _ _ _ _ _ H123 H4) H5) as H15.
  apply wpr_bind, wpr_call_go. intros answer n s6 Hn H6 Hf.
  pose proof (delta_trans _ _ _ _ _ _ _ _ _ _ _ _ _ _ H15 H6) as Hd. cbn [Nat.add app] in Hd.
  assert (n ≤ tries)%nat as Hn' by lia.
  destruct answer as [text|f].
  2:{ apply wpr_ret. eapply attempt_ends_now; [exact Hn'|exact Hd|]. apply quiet_failure; [by rw Hf|done]. }
  destruct (parse_action from_str text) as [a|[r|name]].
  - destruct a; first [by eapply turn_finish|by eapply turn_declared|by eapply turn_dispatch].
  - cbv zeta. destruct (_ <? fe + 1); [by eapply turn_stop|]. by eapply turn_next.
  - apply wpr_bind, (wpr_record_refusal c). intros turn r s7 H7 Hr.
    pose proof (delta_trans _ _ _ _ _ _ _ _ _ _ _ _ _ _ Hd H7) as Hd7. rw !Nat.add_0_r in Hd7.
    eapply turn_next; [done|exact IH|exact Hd7|]. apply Forall_singleton. by left.
Qed.

(** ** Attempts and re-plans *)

(** The classes a run fails with after some attempts: the last two are reached
    only with attempts to spare. *)
Definition run_class (attempts : N) (f : FailureClass) : Prop :=
  replan_fatal f = true ∨ f = AttemptBudgetExhausted
  ∨ (f = ReplanBudgetExhausted ∨ f = WorkerTimeoutClass) ∧ attempts < max_attempts (wc_budgets c).

Definition max_turns : nat := N.to_nat (max_turns_per_attempt (wc_budgets c)).

Definition run_ends (left : nat) (a r : N) (res : AttemptOutcome * N * N) s s' : Prop :=
  let '(o, a', r') := res in
  ∃ t n rs ds, (t ≤ N.to_nat (a' - a) * max_turns)%nat ∧ (n ≤ t * tries)%nat ∧ delta c t n n rs ds s s'
    ∧ outcome_says deliver task o rs ds (untrusted_writes (exec s'))
    ∧ a < a' ≤ N.max (a + 1) (max_attempts (wc_budgets c))
    ∧ r ≤ r' ≤ r + N.of_nat left ∧ a' - a ≤ r' - r + 1 ≤ a' - a + 1
    ∧ (∀ f, o = AttemptFailed f → run_class a' (class f)).

#[local] Abbreviation attempts := (attempts_loop from_str spawn deliver c task root repository session started).

Lemma wpr_run_attempt note summ s :
  wpr (run_attempt from_str spawn deliver c task root repository session started note summ)
    (λ o s', attempt_ends max_turns o s s') s.
Proof.
  apply wpr_bind, (wpr_host c). intros lp s1 H1. eapply wpr_mono; [apply wpr_attempt_loop|].
  intros o s' (t & n & rs & ds & Ht & Hn & Hd & Ho). exists t, n, rs, ds. split_and!; try done.
  by eapply quiet_trans_l.
Qed.

Lemma says_quiet o f rs ds writes :
  o = AttemptFailed f → replan_fatal (class f) = false → outcome_says deliver task o rs ds writes →
  Forall calm rs ∧ ds = [].
Proof. intros -> Hc. unfold outcome_says. by destruct (class f). Qed.

(** A run that ends with this attempt. *)
Lemma run_ends_now left a r r' o t n rs ds s s' :
  (t ≤ max_turns)%nat → (n ≤ t * tries)%nat → delta c t n n rs ds s s' →
  outcome_says deliver task o rs ds (untrusted_writes (exec s')) →
  r ≤ r' ≤ r + 1 → r' ≤ r + N.of_nat left → (∀ f, o = AttemptFailed f → run_class (a + 1) (class f)) →
  run_ends left a r (o, a + 1, r') s s'.
Proof.
  intros Ht Hn Hd Ho Hr Hl Hc. exists t, n, rs, ds. replace (N.to_nat (a + 1 - a)) with 1%nat by lia.
  split_and!; try lia; try done.
Qed.

Lemma run_ends_after left a r res t n rs s s1 s2 :
  (t ≤ max_turns)%nat → (n ≤ t * tries)%nat → delta c t n n rs [] s s1 → Forall calm rs →
  a + 1 < max_attempts (wc_budgets c) →
  run_ends left (a + 1) (r + 1) res s1 s2 → run_ends (Datatypes.S left) a r res s s2.
Proof.
  intros Ht Hn Hd Hc Ha. destruct res as [[o a'] r'].
  intros (t' & n' & rs' & ds & Ht' & Hn' & Hd' & Ho & Ha' & Hr' & Hb & Hf).
  exists (t + t')%nat, (n + n')%nat, (rs ++ rs'), ds.
  replace (N.to_nat (a' - a)) with (1 + N.to_nat (a' - (a + 1)))%nat by lia.
  split_and!; try lia; [exact (delta_trans _ _ _ _ _ _ _ _ _ _ _ _ _ _ Hd Hd')|by apply outcome_says_after|done].
Qed.

Lemma wpr_attempts left a r note summ s :
  wpr (attempts left a r note summ) (λ res s', run_ends left a r res s s') s.
Proof.
  revert a r note summ s. induction left as [|left IH]; intros a r note summ s; cbn [attempts_loop]; cbv zeta.
  all: apply wpr_bind; (eapply wpr_mono; [apply wpr_run_attempt|]); intros o s1 (t & n & rs & ds & Ht & Hn & Hd & Ho).
  all: destruct o as [summary d|f]; [apply wpr_ret; eapply run_ends_now; try done; lia|].
  all: destruct (replan_fatal (class f)) eqn:Ef;
    [apply wpr_ret; eapply run_ends_now; try done; [lia|lia|]; intros f' [= <-]; by left|].
  all: destruct (says_quiet _ _ _ _ _ eq_refl Ef Ho) as [Hc ->].
  all: destruct (_ <=? a + 1) eqn:Ea;
    [apply wpr_ret; eapply run_ends_now; try done; [lia|lia|]; intros f' [= <-]; right; by left|].
  { apply wpr_ret. eapply run_ends_now; try done; [lia|lia|]. intros f' [= <-]. apply N.leb_gt in Ea. do 2 right. split; [by left|done]. }
  apply wpr_bind, (wpr_elapsed c). intros el s2 H2. pose proof (quiet_trans_r _ _ _ _ _ _ _ _ _ Hd H2) as Hd2.
  destruct (run_deadline _ <? _).
  { apply wpr_ret. eapply run_ends_now; try done; [lia|lia|]. intros f' [= <-]. apply N.leb_gt in Ea. do 2 right. split; [by right|done]. }
  apply wpr_bind, wpr_gets. eapply wpr_mono; [apply IH|]. intros res s3 Hres.
  apply N.leb_gt in Ea. by eapply run_ends_after.
Qed.
End attempts.

(** ** Runs *)

Section runs.
Context {W : Type} `{WorkerHost W} (from_str : rstr → option Json).

Lemma run_from_ends spawn deliver task c root (e : Env W) :
  spawn_ok c spawn → spawn_logs spawn →
  run_ends deliver c task (N.to_nat (max_replans (wc_budgets c))) 0 0
    (run_from from_str spawn deliver task c root e).2 (init_state e) (run_from from_str spawn deliver task c root e).1.
Proof.
  intros Hok Hlog.
  assert (wpr (bind now (λ started, run_started from_str spawn deliver c task root (lit "/" ++ display root)
    (lit "run-" ++ task_id task) started))
    (λ res s', run_ends deliver c task (N.to_nat (max_replans (wc_budgets c))) 0 0 res (init_state e) s')
    (init_state e)) as Hw; [|exact Hw].
  apply wpr_bind, (wpr_host c). intros t0 s1 H1. eapply wpr_mono; [by apply wpr_attempts|].
  intros [[o a] r] s' (t & n & rs & ds & Ht & Hn & Hd & Hrest). exists t, n, rs, ds.
  split_and!; try apply Hrest; try done. by eapply quiet_trans_l.
Qed.

Lemma no_spawn_ok c : spawn_ok c (no_spawn (W := W)).
Proof. intros ??????????. exists []. by rw app_nil_r. Qed.

Lemma no_spawn_logs : spawn_logs (no_spawn (W := W)).
Proof. intros ??????. exists []. by rw app_nil_r. Qed.
End runs.

(** A child's run: its own rows and accesses, and how it ends. *)
Lemma child_run_ends {W} (h : WorkerHost W) from_str task c worktree (e : Env W) :
  0 < wc_subsession_depth c →
  let '(e', run) := run_with from_str no_spawn pending_delivery task worktree c e in
  (∃ acc, env_accesses e' = env_accesses e ++ acc ∧ Forall (child_access (subsession_allowed_internal c)) acc)
  ∧ (∀ session, billed_session c = Some session →
       ∃ rows, env_costs e' = env_costs e ++ rows ∧ Forall (λ r, ca_session (ce_attribution r) = session) rows)
  ∧ ∀ r, run = Ok r → wres_untrusted_writes r = []
      ∧ ∀ f, wres_failure r = Some f →
          run_class c (wres_attempts r) (class f) ∧ class f ≠ DeliveryFailed ∧ 0 < wres_attempts r.
Proof.
  intros Hd. unfold run_with. destruct (canonical_root (env_host e) worktree) as [w [root|err]].
  2:{ split_and!; [exists []; by rw app_nil_r|intros ? _; exists []; by rw app_nil_r|done]. }
  set (e1 := MkEnv w _ _ _).
  pose proof (run_from_ends from_str no_spawn pending_delivery task c root e1 (no_spawn_ok c) no_spawn_logs) as Hr.
  destruct (run_from _ _ _ _ _ _ e1) as [s [[o a] r]]. cbn [fst snd] in Hr.
  destruct Hr as (t & n & rs & ds & _ & _ & [] & Ho & Ha & _ & _ & Hc). split_and!.
  - destruct d_accesses0 as (acc & E & Hf). exists acc. split; [exact E|auto].
  - intros session Hb. destruct (d_rows0 session Hb) as (_ & rows & E & _ & Hf). exists rows. split; [exact E|auto].
  - intros res [= <-]. split. { destruct o; exact (d_writes0 Hd). }
    intros f Hf. destruct o as [summary d|f']; [done|]. injection Hf as <-. cbn. split_and!; [by apply Hc| |lia].
    intros E. unfold outcome_says in Ho. rw E in Ho. by destruct Ho as [_ (req & w' & _ & _ & ?)].
Qed.

(** A child's allowance of one attempt leaves two ways to fail. *)
Lemma one_attempt_class c a f : max_attempts (wc_budgets c) = 1 → 0 < a → run_class c a f →
  replan_fatal f = true ∨ f = AttemptBudgetExhausted.
Proof. intros Em Ha [?|[?|[_ ?]]]; [by left|by right|lia]. Qed.

Lemma child_depth parent def role routed b allowed progress :
  0 < wc_subsession_depth (child_worker_config parent def role routed b allowed progress).
Proof. cbn. unfold saturating_add. lia. Qed.

Section subsession.
Context {W : Type} (h : WorkerHost W) (from_str : rstr → option Json).

Definition child_host (allowed : list InternalTool) : WorkerHost W :=
  if bool_decide (ItBash ∈ allowed) then h else read_only_host h.

(** A sub-session that ran, by its child's run. *)
Lemma run_subsession_cases parent def question routed progress e :
  let '(e', res) := run_subsession h from_str parent def question routed progress e in
  (e' = e ∧ res = Err (NotSubagent (td_id def)))
  ∨ ∃ role tools instr, mechanism def = Subagent role tools instr
    ∧ let c := child_worker_config parent def role routed (child_budgets parent def) (allowlist_of def) progress in
      let '(e1, run) := run_with (H := child_host (allowlist_of def)) from_str no_spawn pending_delivery
                          (child_task def instr question) (sp_worktree_root parent) c (beat progress e) in
      env_accesses e' = env_accesses e1 ∧ env_costs e' = env_costs e1
      ∧ match run with
        | Ok run => res = Ok (outcome_from_run (td_id def) routed
                                (default (tb_max_result_bytes (td_budget def)) (td_max_summary_bytes def)) run)
        | Err (WorktreeRoot r) => res = Err (ChildWorktreeRoot r)
        end.
Proof.
  unfold run_subsession. destruct (mechanism def) as [argv|role tools instr]; [by left|].
  change (if bool_decide _ then h else _) with (child_host (allowlist_of def)).
  destruct (run_with _ _ _ _ _ _ (beat progress e)) as [e1 run] eqn:Er.
  assert (env_accesses (beat progress e1) = env_accesses e1 ∧ env_costs (beat progress e1) = env_costs e1) as [Ea Ec].
  { by destruct progress. }
  destruct run as [run|[r]]; right; exists role, tools, instr; cbv zeta; by rw Er.
Qed.

(** The session a child's calls are billed to. *)
Definition child_session (parent : SubsessionParent) (def : ToolDefinition) (a : CostAttribution) : rstr :=
  ca_session a ++ lit "/tool-" ++ td_id def ++ lit "-" ++ dec (spawn_seq parent).

(** The ways a child's run can fail. *)
Definition child_classes : list FailureClass :=
  [AttemptBudgetExhausted; MediationRefused; ToolLoopChurn; NoProgress; PollBudgetExhausted].

Lemma child_class_in c a f : max_attempts (wc_budgets c) = 1 → 0 < a → run_class c a f → f ≠ DeliveryFailed →
  f ∈ child_classes.
Proof. intros Em Ha Hc Hn. destruct (one_attempt_class _ _ _ Em Ha Hc) as [Hf| ->]; [|set_solver]. destruct f; set_solver. Qed.

Definition subsession_effects (parent : SubsessionParent) (def : ToolDefinition) (e e' : Env W)
    (res : result SubsessionOutcome SubsessionError) : Prop :=
  (∃ acc, env_accesses e' = env_accesses e ++ acc ∧ Forall (child_access (allowlist_of def)) acc)
  ∧ (∀ a, sp_attribution parent = Some a → sp_cost_sink parent = true →
       ∃ rows, env_costs e' = env_costs e ++ rows
       ∧ Forall (λ r, ca_session (ce_attribution r) = child_session parent def a) rows)
  ∧ ∀ o, res = Ok o → so_untrusted_writes o = []
      ∧ ∀ f, so_failure o = Some f → ∃ child, child ∈ child_classes ∧ class f = parent_failure_class child.

Lemma subsession_ends parent def question routed progress e :
  let '(e', res) := run_subsession h from_str parent def question routed progress e in
  subsession_effects parent def e e' res.
Proof.
  pose proof (run_subsession_cases parent def question routed progress e) as Hc.
  destruct (run_subsession _ _ _ _ _ _ _ e) as [e' res].
  destruct Hc as [[-> ->]|(role & tools & instr & _ & Hr)].
  { split_and!; [exists []; by rw app_nil_r|intros ? _ _; exists []; by rw app_nil_r|done]. }
  set (c := child_worker_config _ _ _ _ _ _ _) in Hr. cbv zeta in Hr.
  pose proof (child_run_ends (child_host (allowlist_of def)) from_str (child_task def instr question) c
    (sp_worktree_root parent) (beat progress e) (child_depth _ _ _ _ _ _ _)) as Hx.
  destruct (run_with _ _ _ _ _ _ _) as [e1 run]. destruct Hr as (Ea & Ec & Hres), Hx as ((acc & E & Hacc) & Hrows & Hrun).
  split_and!.
  - exists acc. rw Ea E. by destruct progress.
  - intros a Hpa Hps. destruct (Hrows (child_session parent def a)) as (rows & Er & Hf).
    { unfold billed_session, c. cbn. by rw Hpa Hps. }
    exists rows. rw Ec Er. by destruct progress.
  - intros o ->. destruct run as [run|[r]]; [|done]. injection Hres as ->. destruct (Hrun run eq_refl) as [Hw Hf].
    split; [done|]. cbn. intros f Ef. destruct (wres_status run); [done|].
    destruct (wres_failure run) as [cf|] eqn:Ecf; [|done]. injection Ef as <-. exists (class cf).
    destruct (Hf cf eq_refl) as (Hcl & Hn & Ha). split; [|done]. by apply (child_class_in c (wres_attempts run)).
Qed.

Lemma run_subsession_logs : spawn_logs (run_subsession h from_str).
Proof.
  intros parent def question routed progress e. pose proof (subsession_ends parent def question routed progress e) as Hs.
  destruct (run_subsession _ _ _ _ _ _ _ e) as [e' res]. destruct Hs as ((acc & E & _) & _). by exists acc.
Qed.

Lemma ids_of_other session rows : Forall (λ r, ca_session (ce_attribution r) ≠ session) rows → ids_of session rows = [].
Proof.
  intros Hf. unfold ids_of. induction Hf as [|r rows Hr _ IH]; [done|]. cbn [List.filter].
  by rw bool_decide_eq_false_2.
Qed.

Lemma run_subsession_ok c : spawn_ok c (run_subsession h from_str).
Proof.
  intros parent def question routed progress e session Hpa Hps Hb.
  pose proof (subsession_ends parent def question routed progress e) as Hs.
  destruct (run_subsession _ _ _ _ _ _ _ e) as [e' res]. destruct Hs as (_ & Hrows & _). cbn.
  unfold billed_session in Hb. destruct (attribution c) as [a|] eqn:Ea; [|done]. destruct (cost_sink c); [|done].
  injection Hb as <-. destruct (Hrows a Hpa Hps) as (rows & E & Hf). exists rows. split; [done|].
  apply ids_of_other. eapply Forall_impl; [exact Hf|]. intros r -> Heq. apply (f_equal length) in Heq.
  unfold child_session in Heq. rw !length_app in Heq. cbn in Heq. lia.
Qed.

(** A run of the worker, as the loop left it. *)
Lemma run_worker_ends (deliver : DeliverySink W) task worktree c (e : Env W) :
  let '(e', run) := run_worker h from_str deliver task worktree c e in
  ∃ w, let e1 := MkEnv w (env_accesses e) (env_channel e) (env_costs e) in
  match run with
  | Err _ => e' = e1
  | Ok r => ∃ s o a rp, e' = env_of s ∧ r = build_result task o a rp s
      ∧ run_ends deliver c task (N.to_nat (max_replans (wc_budgets c))) 0 0 (o, a, rp) (init_state e1) s
  end.
Proof.
  unfold run_worker, run_with. destruct (canonical_root (env_host e) worktree) as [w [root|err]]; [|by exists w].
  pose proof (run_from_ends from_str (run_subsession h from_str) deliver task c root
    (MkEnv w (env_accesses e) (env_channel e) (env_costs e)) (run_subsession_ok c) run_subsession_logs) as Hr.
  destruct (run_from _ _ _ _ _ _ _) as [s [[o a] r]]. exists w. by exists s, o, a, r.
Qed.

(** C4. Every run of the worker is bounded, whatever the provider, the tools
    and the sink answer: it makes at least one attempt and at most
    [max_attempts], at most [max_replans] re-plans (one fewer than the attempts,
    or as many when the deadline passed after the last one), at most
    [max_turns_per_attempt] turns per attempt and at most
    [max_provider_retries + 1] provider calls per turn; its receipts are
    numbered from 1 without a gap.  A run whose worktree root is unusable
    touches nothing: no access, no cost row, no beat. *)
Theorem worker_run_bounded (deliver : DeliverySink W) task worktree c (e : Env W) :
  let b := wc_budgets c in
  match run_worker h from_str deliver task worktree c e with
  | (e', Err _) => env_accesses e' = env_accesses e ∧ env_costs e' = env_costs e ∧ env_channel e' = env_channel e
  | (_, Ok r) =>
      1 ≤ wres_attempts r ≤ N.max 1 (max_attempts b) ∧ wres_replans r ≤ max_replans b
      ∧ wres_replans r ≤ wres_attempts r ≤ wres_replans r + 1
      ∧ wres_turns r ≤ wres_attempts r * max_turns_per_attempt b
      ∧ wres_model_calls r ≤ wres_turns r * (max_provider_retries b + 1)
      ∧ numbered_from 0 (wres_receipts r)
  end.
Proof.
  cbv zeta. pose proof (run_worker_ends deliver task worktree c e) as Hw.
  destruct (run_worker _ _ _ _ _ _ e) as [e' [r|err]]; destruct Hw as [w Hw]; cbv zeta in Hw; [|by subst e'].
  destruct Hw as (s & o & a & rp & _ & -> & t & n & rs & ds & Ht & Hn & [] & _ & Ha & Hrp & Hb & _).
  unfold max_turns in Ht. cbn in *.
  assert (receipts (exec s) = rs) as Ers by done. rw len_nil in d_numbered0.
  destruct o; cbn; rw Ers; (split_and!; try done; nia).
Qed.

(** C3. The delivery sink is asked at most once and only at the end of a run.
    A run is completed (exit code 0) exactly when the sink accepted the one
    request of the run, which carries the summary of the finishing action and
    all the untrusted writes; every receipt is then calm: no mediated call
    failed on the way.  A failed run (exit code 1) has asked the sink only when
    it was refused; a mediation failure is the last receipt of the run, and its
    reason the run's; and no other failure leaves a failed mediation behind,
    the CI poll budget's excepted, which is charged before it is looked at. *)
Theorem worker_delivers_once (deliver : DeliverySink W) task c root (e : Env W) :
  let '(s, (o, attempts, replans)) := run_from from_str (run_subsession h from_str) deliver task c root e in
  let r := build_result task o attempts replans s in
  match wres_status r with
  | RunCompleted =>
      exit_code r = 0 ∧ wres_failure r = None ∧ Forall calm (wres_receipts r)
      ∧ ∃ req w d, deliveries s = [req] ∧ (deliver w req).2 = Ok d ∧ wres_delivery r = Some d
        ∧ dr_task_id req = task_id task ∧ wres_summary r = Some (dr_summary req)
        ∧ dr_untrusted_writes req = wres_untrusted_writes r
  | RunFailed =>
      exit_code r = 1 ∧ wres_delivery r = None ∧ wres_summary r = None
      ∧ ∃ f, wres_failure r = Some f ∧ run_class c attempts (class f)
        ∧ match class f with
          | DeliveryFailed =>
              Forall calm (wres_receipts r)
              ∧ ∃ req w, deliveries s = [req] ∧ dr_untrusted_writes req = wres_untrusted_writes r
                ∧ (deliver w req).2 = Err (reason f)
          | MediationRefused =>
              last_receipt (λ x, failure_of_receipt x = Some (reason f)) (wres_receipts r) ∧ deliveries s = []
          | PollBudgetExhausted => last_receipt (λ _, True) (wres_receipts r) ∧ deliveries s = []
          | _ => Forall calm (wres_receipts r) ∧ deliveries s = []
          end
  end.
Proof.
  pose proof (run_from_ends from_str (run_subsession h from_str) deliver task c root e (run_subsession_ok c)
    run_subsession_logs) as Hr.
  destruct (run_from _ _ _ _ _ _ e) as [s [[o a] r]]. cbn [fst snd] in Hr.
  destruct Hr as (t & n & rs & ds & _ & _ & [] & Ho & _ & _ & _ & Hc). cbn in d_receipts0, d_deliveries0.
  subst rs ds. destruct o as [summary d|f]; cbn in Ho |- *.
  - destruct Ho as (Hcalm & req & w & Ed & Et & <- & Ew & Eo). split_and!; try done. exists req, w, d. done.
  - split_and!; try done. exists f. split_and!; [done|by apply Hc|exact Ho].
Qed.

(** Every provider call is billed exactly once, the failed and the retried
    ones too: the rows a billed run adds to the ledger under its own session
    are numbered [session/call-1] to [session/call-n] in order, with [n] the
    provider calls the run reports; a sub-session's rows carry another
    session. *)
Theorem worker_calls_billed_once (deliver : DeliverySink W) task worktree c (e : Env W) session :
  billed_session c = Some session →
  match run_worker h from_str deliver task worktree c e with
  | (e', Err _) => env_costs e' = env_costs e
  | (e', Ok r) => ∃ rows, env_costs e' = env_costs e ++ rows
      ∧ ids_of session rows = call_ids session 0 (N.to_nat (wres_model_calls r))
  end.
Proof.
  intros Hb. pose proof (run_worker_ends deliver task worktree c e) as Hw.
  destruct (run_worker _ _ _ _ _ _ e) as [e' [r|err]]; destruct Hw as [w Hw]; cbv zeta in Hw; [|by subst e'].
  destruct Hw as (s & o & a & rp & -> & -> & t & n & rs & ds & _ & _ & [] & _). destruct (d_rows0 session Hb) as (_ & rows & E & Hi & _).
  exists rows. split; [exact E|]. rw Hi. cbn in d_calls0. destruct o; cbn; rw d_calls0; by rw Nat2N.id.
Qed.

(** C10. A sub-session is contained: every host access of its whole run reads
    or runs a tool of the definition's allowlist (never a write), it reports no
    untrusted writes, its calls are billed to a session of its own, and its one
    attempt can only fail as a budget, a mediation or a guardrail. *)
Theorem subsession_contained parent def question routed progress (e : Env W) :
  let '(e', res) := run_subsession h from_str parent def question routed progress e in
  (∃ acc, env_accesses e' = env_accesses e ++ acc ∧ Forall (child_access (allowlist_of def)) acc)
  ∧ (∀ a, sp_attribution parent = Some a → sp_cost_sink parent = true →
       ∃ rows, env_costs e' = env_costs e ++ rows
       ∧ Forall (λ r, ca_session (ce_attribution r) = child_session parent def a) rows)
  ∧ ∀ o, res = Ok o → so_untrusted_writes o = []
      ∧ ∀ f, so_failure o = Some f → ∃ child, child ∈ child_classes ∧ class f = parent_failure_class child.
Proof. apply subsession_ends. Qed.
End subsession.

(** ** A run end to end *)

(** The host's state counts the provider's calls; the first one fails, the next
    one finishes the task. *)
#[local] Instance sample_tools : ToolHost N := {
  host_lstat := λ w _, (w, LNotFound);
  host_metadata := λ w _, (w, None);
  host_read := λ w _, (w, TextUnreadable);
  host_is_dir := λ w _, (w, true);
  host_tree := λ w _, (w, None);
  host_mkdirs := λ w _, (w, true);
  host_write := λ w _ _, (w, true);
  host_bash := λ w _, (w, Err (MediationContext (lit "no-bash")));
  host_bash_within := λ w _ _, (w, None);
}.

Definition sample_stream (w : N) (q : ModelRequest)
    : N * result (list (result ModelEvent ProviderTransportError)) ProviderTransportError :=
  (w + 1, if w =? 0 then Err (RequestFailed (lit "demo"))
          else Ok [Ok Started; Ok (TextDelta (lit "```json {finish} ```"));
                   Ok (Usage (MkTokenCount 7 3 0 0)); Ok CompletedEvent]).

#[local] Instance sample_host : WorkerHost N := {
  wh_tools := sample_tools;
  wh_now := λ w, (w, 0);
  wh_utc := λ w, (w, 0);
  wh_sleep := λ w _, w;
  wh_stream := sample_stream;
  wh_snapshot := λ w, (w, None);
  wh_exists := λ w _, (w, true);
  wh_canonicalize := λ w p, (w, Some p);
}.

Definition sample_parse (block : rstr) : option Json :=
  Some (JObject [(lit "tool", JString (lit "finish")); (lit "summary", JString (lit "done"));
                 (lit "success", JBool true)]).

Definition sample_config : WorkerConfig :=
  let c := WorkerConfig_new (lit "demo") (lit "model") bootstrap_defaults in
  MkWorkerConfig (wc_provider_id c) (wc_model_id c) (wc_budgets c) (prior_daily_spend_usd c) true (wc_guardrails c)
    (Some (MkCostAttribution (lit "worker") (lit "builder") (lit "local") (lit "run-t1") (lit "/wt"))) true
    (wc_tools c) 0 [] [] None None false true false None.

Abbreviation sample_run :=
  (run_worker sample_host sample_parse pending_delivery (MkWorkerTask (lit "t1") (lit "Task") (lit "Do it."))
     [lit "wt"] sample_config (MkEnv 0 [] 0 [])).

Lemma worker_calls_billed_once_witness :
  match sample_run with
  | (e', Err _) => env_costs e' = []
  | (e', Ok r) => ∃ rows, env_costs e' = [] ++ rows
      ∧ ids_of (lit "run-t1") rows = call_ids (lit "run-t1") 0 (N.to_nat (wres_model_calls r))
  end.
Proof. apply (worker_calls_billed_once sample_host sample_parse _ _ _ sample_config). reflexivity. Defined.

(** The run above completes in one attempt and one turn of two calls. *)
Example sample_run_completes :
  match sample_run with
  | (e, Ok r) => wres_status r = RunCompleted ∧ wres_turns r = 1 ∧ wres_model_calls r = 2
      ∧ wres_usage r = MkUsageTotals 7 3 ∧ env_channel e = 1
      ∧ (ce_request_id <$> env_costs e) = [lit "run-t1/call-1"; lit "run-t1/call-2"]
  | _ => False
  end.
Proof. by vm_compute. Qed.
