(* ===== verification/Delivery.v ===== *)
(** * Delivering a completed run

    [delivery.rs] of the worker: the sink that commits the worktree, lands the
    branch through [orc github push-branch] and opens the pull request; and the
    fixture task source of [task.rs].  The processes are a world that answers
    each invocation as it likes; the sink's state keeps the conversation. *)

From S2P Require Import Prelude BTree Text Time Substring RunState Kickoff LoopRun Campaign WorkerAction WorkerTools ReceiptSummary WorkerRun.

(** ** Tasks *)

Inductive FileAnswer := FileMissing | FileUnreadable | FileBytes (bytes : rstr).

(** [FixtureTaskSource::load]; [read] is the file system below the directory,
    [from_slice] the JSON reader. *)
Definition load (read : rstr → FileAnswer) (from_slice : rstr → option WorkerTask) (id : rstr)
    : result WorkerTask TaskLoadError :=
  let? _ := validate_task_id id in
  match read (id ++ lit ".json") with
  | FileMissing => Err UnknownTask
  | FileUnreadable => Err (MalformedTask (lit "read-io"))
  | FileBytes bytes =>
      let? task := ok_or (from_slice bytes) (MalformedTask (lit "invalid-json")) in
      if negb (bool_decide (task_id task = id)) then Err (MalformedTask (lit "id-mismatch"))
      else
        match validate_task_id (slug task) with
        | Ok _ => Ok task
        | Err _ => Err (MalformedTask (lit "invalid-slug"))
        end
  end.

Lemma load_trusted read from_slice id task :
  load read from_slice id = Ok task →
  task_id task = id ∧ validate_task_id id = Ok tt ∧ validate_task_id (slug task) = Ok tt.
Proof.
  unfold load. destruct (validate_task_id id) as [[]|] eqn:Ei; [|done]. cbn.
  destruct (read _) as [| |bytes]; try done. destruct (from_slice bytes) as [t|]; [|done]. cbn.
  destruct (bool_decide (task_id t = id)) eqn:Et; [|done]. apply bool_decide_eq_true in Et. cbn.
  destruct (validate_task_id (slug t)) as [[]|] eqn:Es; [|done]. by intros [= <-].
Qed.

(** ** Processes *)

Record Invocation := MkInvocation {
  iv_program : rstr;
  iv_dir : path;
  iv_args : list rstr;
  iv_env_removed : list rstr;
}.

(** The output's texts as [from_utf8_lossy] gives them. *)
Record Output := MkOutput { success : bool; stdout : rstr; stderr : rstr }.

(** [None] is a process that could not be run, or did not end in time. *)
Class Processes (W : Type) := { output : W → Invocation → W * option Output }.

Definition Conversation : Type := list (Invocation * option Output).

(** [str::split_whitespace]. *)
Fixpoint words_go (word : rstr) (s : rstr) : list rstr :=
  match s with
  | [] => if is_empty word then [] else [reverse word]
  | c :: s' =>
      if is_whitespace c then (if is_empty word then [] else [reverse word]) ++ words_go [] s'
      else words_go (c :: word) s'
  end.

Definition split_whitespace (s : rstr) : list rstr := words_go [] s.

(** ** The sink *)

Definition DELIVERY_NO_WORKTREE : rstr := lit "delivery-no-worktree".
Definition DELIVERY_BRANCH_STATE_FAILED : rstr := lit "delivery-branch-state-failed".
Definition DELIVERY_PUSH_FAILED : rstr := lit "delivery-push-failed".
Definition DELIVERY_PR_OPEN_FAILED : rstr := lit "delivery-pr-open-failed".
Definition DELIVERY_EMPTY_DIFF : rstr := lit "delivery-empty-diff".
Definition DELIVERY_REPO_INVALID : rstr := lit "delivery-repo-invalid".
Definition DELIVERY_ORC_BIN_MISSING : rstr := lit "delivery-orc-bin-missing".

Record PushBranchDeliverySink := MkPushBranchDeliverySink { orc_bin : rstr; base_branch : rstr; repo : rstr }.

Definition PushBranchDeliverySink_new (is_file : rstr → bool) (orc_bin repo base_branch : rstr)
    : result PushBranchDeliverySink rstr :=
  match split 47 repo with
  | [owner; name] =>
      if negb (is_empty owner) && negb (is_empty name) then
        if negb (is_file orc_bin) then Err DELIVERY_ORC_BIN_MISSING
        else Ok (MkPushBranchDeliverySink orc_bin base_branch repo)
      else Err DELIVERY_REPO_INVALID
  | _ => Err DELIVERY_REPO_INVALID
  end.

Definition git_invocation (dir : path) (args : list rstr) : Invocation :=
  MkInvocation (lit "git") dir args [lit "GIT_DIR"; lit "GIT_WORK_TREE"; lit "GIT_INDEX_FILE"].

Definition orc_invocation (sink : PushBranchDeliverySink) (dir : path) (args : list rstr) : Invocation :=
  MkInvocation (orc_bin sink) dir args [].

Definition head_invocation (worktree : path) : Invocation :=
  git_invocation worktree [lit "rev-parse"; lit "--abbrev-ref"; lit "HEAD"].

Definition add_invocation (worktree : path) : Invocation := git_invocation worktree [lit "add"; lit "-A"].

Definition commit_invocation (worktree : path) (request : DeliveryRequest) : Invocation :=
  git_invocation worktree
    [lit "-c"; lit "user.name=arbsec-agent[bot]"; lit "-c";
     lit "user.email=334074867+arbsec-agent[bot]@users.noreply.github.com"; lit "commit"; lit "-m";
     lit "feat(loop): task " ++ dr_task_id request ++ lit " work"].

Definition landing_invocation (sink : PushBranchDeliverySink) (worktree : path) (branch remote_branch : rstr)
    (request : DeliveryRequest) : Invocation :=
  orc_invocation sink worktree
    [lit "github"; lit "push-branch"; lit "--branch"; branch; lit "--remote-branch"; remote_branch;
     lit "--base"; base_branch sink; lit "--message"; lit "feat(loop): land task " ++ dr_task_id request;
     lit "--owner"; default [] (split 47 (repo sink) !! 0%nat); lit "--repo"; default [] (split 47 (repo sink) !! 1%nat)].

Definition pr_invocation (sink : PushBranchDeliverySink) (worktree : path) (remote_branch : rstr)
    (request : DeliveryRequest) : Invocation :=
  orc_invocation sink worktree
    [lit "github"; lit "gh-env-pr-create-chain"; repo sink; lit "--"; lit "gh"; lit "pr"; lit "create"; lit "--repo";
     repo sink; lit "--head"; remote_branch; lit "--base"; base_branch sink; lit "--title";
     lit "feat(loop): task " ++ dr_task_id request; lit "--body"; dr_summary request].

Definition lookup_invocation (sink : PushBranchDeliverySink) (worktree : path) (remote_branch : rstr) : Invocation :=
  orc_invocation sink worktree
    [lit "github"; lit "gh-env"; lit "--"; lit "gh"; lit "pr"; lit "view"; remote_branch; lit "--repo"; repo sink;
     lit "--json"; lit "url,state"; lit "--jq"; qlit "~\(.url) \(.state)~"].

Section sink.
Context {W : Type} `{Processes W}.

Definition step (A : Type) : Type := W * Conversation → (W * Conversation) * result A rstr.

#[local] Notation "'let>' x ':=' c 'in' k" :=
  (λ s, match c s with (s', Ok x) => k s' | (s', Err e) => (s', Err e) end)
  (at level 10, x pattern, c at level 200, k at level 200).

Definition answer {A} (r : result A rstr) : step A := λ s, (s, r).

(** Runs a process; [failed] is the code of one that gives no output. *)
Definition run_process (i : Invocation) (failed : rstr) : step Output := λ '(w, log),
  let '(w, o) := output w i in ((w, log ++ [(i, o)]), ok_or o failed).

Definition commit_worktree_state (worktree : path) (branch : rstr) (request : DeliveryRequest) : step unit :=
  let> current := run_process (head_invocation worktree) DELIVERY_BRANCH_STATE_FAILED in
  if negb (success current) then answer (Err DELIVERY_BRANCH_STATE_FAILED)
  else if negb (bool_decide (trim (stdout current) = branch)) then answer (Err DELIVERY_BRANCH_STATE_FAILED)
  else
    let> added := run_process (add_invocation worktree) DELIVERY_BRANCH_STATE_FAILED in
    if negb (success added) then answer (Err DELIVERY_BRANCH_STATE_FAILED)
    else
      let> commit := run_process (commit_invocation worktree request) DELIVERY_BRANCH_STATE_FAILED in
      if negb (success commit) && negb (contains_str (lit "nothing to commit") (stderr commit))
      then answer (Err DELIVERY_BRANCH_STATE_FAILED)
      else answer (Ok tt).

Definition push_branch_landing (sink : PushBranchDeliverySink) (worktree : path) (branch remote_branch : rstr)
    (request : DeliveryRequest) : step unit :=
  let> landing := run_process (landing_invocation sink worktree branch remote_branch request) DELIVERY_PUSH_FAILED in
  if negb (success landing) then
    if contains_str (lit "nothing to land") (stderr landing) then answer (Err DELIVERY_EMPTY_DIFF)
    else answer (Err DELIVERY_PUSH_FAILED)
  else answer (Ok tt).

Definition open_pr (sink : PushBranchDeliverySink) (worktree : path) (remote_branch : rstr)
    (request : DeliveryRequest) : step rstr :=
  let> pr := run_process (pr_invocation sink worktree remote_branch request) DELIVERY_PR_OPEN_FAILED in
  if negb (success pr) then
    if contains_str (lit "already exists") (stderr pr) then
      let> found := run_process (lookup_invocation sink worktree remote_branch) DELIVERY_PR_OPEN_FAILED in
      if negb (success found) then answer (Err DELIVERY_PR_OPEN_FAILED)
      else
        match split_whitespace (trim (stdout found)) with
        | reference :: state :: _ =>
            if negb (bool_decide (state = lit "OPEN")) then answer (Err DELIVERY_PR_OPEN_FAILED)
            else answer (Ok reference)
        | _ => answer (Err DELIVERY_PR_OPEN_FAILED)
        end
    else answer (Err DELIVERY_PR_OPEN_FAILED)
  else
    let pr_url := trim (stdout pr) in
    if is_empty pr_url then answer (Err DELIVERY_PR_OPEN_FAILED) else answer (Ok pr_url).

Definition push_branch_deliver (sink : PushBranchDeliverySink) : DeliverySink (W * Conversation) := λ s request,
  match dr_worktree request, dr_worktree_branch request with
  | Some worktree, Some branch =>
      let remote_branch := lit "orc-delivery/" ++ dr_task_id request in
      (let> _ := commit_worktree_state worktree branch request in
       let> _ := push_branch_landing sink worktree branch remote_branch request in
       let> pr_url := open_pr sink worktree remote_branch request in
       answer (Ok (PrOpened pr_url))) s
  | _, _ => (s, Err DELIVERY_NO_WORKTREE)
  end.
End sink.

(** ** What the sink does *)

(** The conversation's plan, in order. *)
Definition plan (sink : PushBranchDeliverySink) (worktree : path) (branch : rstr) (request : DeliveryRequest)
    : list Invocation :=
  let remote_branch := lit "orc-delivery/" ++ dr_task_id request in
  [head_invocation worktree; add_invocation worktree; commit_invocation worktree request;
   landing_invocation sink worktree branch remote_branch request; pr_invocation sink worktree remote_branch request;
   lookup_invocation sink worktree remote_branch].

Definition succeeded (o : option Output) : bool := match o with Some o => success o | None => false end.

Definition failed_saying (text : rstr) (o : option Output) : bool :=
  match o with Some o => negb (success o) && contains_str text (stderr o) | None => false end.

(** The answer to step [i] after which the next step is taken. *)
Definition goes_on (branch : rstr) (i : nat) (o : option Output) : bool :=
  match i with
  | 0%nat => succeeded o && bool_decide (trim <$> (stdout <$> o) = Some branch)
  | 1%nat | 3%nat => succeeded o
  | 2%nat => succeeded o || failed_saying (lit "nothing to commit") o
  | 4%nat => failed_saying (lit "already exists") o
  | _ => false
  end.

(** What the answer to the last step makes of the delivery. *)
Definition verdict (i : nat) (o : option Output) : result DeliveryOutcome rstr :=
  match i with
  | 0%nat | 1%nat | 2%nat => Err DELIVERY_BRANCH_STATE_FAILED
  | 3%nat => Err (if failed_saying (lit "nothing to land") o then DELIVERY_EMPTY_DIFF else DELIVERY_PUSH_FAILED)
  | 4%nat =>
      let url := trim (from_option stdout [] o) in
      if succeeded o && negb (is_empty url) then Ok (PrOpened url) else Err DELIVERY_PR_OPEN_FAILED
  | _ =>
      match split_whitespace (trim (from_option stdout [] o)) with
      | reference :: state :: _ =>
          if succeeded o && bool_decide (state = lit "OPEN") then Ok (PrOpened reference)
          else Err DELIVERY_PR_OPEN_FAILED
      | _ => Err DELIVERY_PR_OPEN_FAILED
      end
  end.

Section theorems.
Context {W : Type} `{Processes W} (sink : PushBranchDeliverySink).

(** The conversation of a delivery, as a walk along the plan. *)
Fixpoint follow (branch : rstr) (steps : list Invocation) (i : nat) (w : W) (log : Conversation)
    : (W * Conversation) * result DeliveryOutcome rstr :=
  match steps with
  | [] => ((w, log), Err [])
  | inv :: steps =>
      let '(w, o) := output w inv in
      if goes_on branch i o then follow branch steps (Datatypes.S i) w (log ++ [(inv, o)])
      else ((w, log ++ [(inv, o)]), verdict i o)
  end.

#[local] Arguments lit : simpl never.
#[local] Arguments contains_str : simpl never.
#[local] Arguments trim : simpl never.
#[local] Arguments split_whitespace : simpl never.
#[local] Arguments output : simpl never.

(** One process of the sink, against the same step of the walk. *)
Ltac walk_step :=
  match goal with |- context [output ?w ?i] => destruct (output w i) as [? [[[] ? ?]|]] end; cbn.

Lemma deliver_follows worktree branch request w log :
  dr_worktree request = Some worktree → dr_worktree_branch request = Some branch →
  push_branch_deliver sink (w, log) request = follow branch (plan sink worktree branch request) 0 w log.
Proof.
  intros Ew Eb. unfold push_branch_deliver. rw Ew Eb. unfold plan, commit_worktree_state, push_branch_landing, open_pr.
  unfold run_process, answer. cbn [follow goes_on verdict]. cbv zeta.
  walk_step; [|done|done]. rw (bool_decide_ext (Some (trim _) = Some branch) (trim stdout0 = branch)); [|naive_solver].
  destruct (bool_decide (trim _ = branch)); cbn; [|done].
  walk_step; [|done|done]. walk_step; [|destruct (contains_str _ _); cbn; [|done]|done].
  all: walk_step; [|by destruct (contains_str _ _)|done].
  all: walk_step; [by destruct (is_empty _)|destruct (contains_str _ _); cbn; [|done]|done].
  all: walk_step; [|by destruct (split_whitespace _) as [|? [|? ?]]|done].
  all: destruct (split_whitespace _) as [|reference [|state rest]]; try done; by destruct (bool_decide _).
Qed.

(** A walk answers a prefix of its steps: each but the last goes on, and the
    last one decides. *)
Lemma follow_prefix branch steps i w log :
  steps ≠ [] → (i + length steps = 6)%nat →
  ∃ answers o, (follow branch steps i w log).1.2 = log ++ zip steps (answers ++ [o])
  ∧ (length answers < length steps)%nat
  ∧ (∀ k a, answers !! k = Some a → goes_on branch (i + k) a = true)
  ∧ goes_on branch (i + length answers) o = false
  ∧ (follow branch steps i w log).2 = verdict (i + length answers) o.
Proof.
  revert i w log. induction steps as [|inv steps IH]; intros i w log Hne Hl; [done|]. cbn [follow].
  destruct (output w inv) as [w' o]. destruct (goes_on branch i o) eqn:Eg.
  - destruct steps as [|inv' steps]. { cbn in Hl. assert (i = 5%nat) as -> by lia. done. }
    destruct (IH (Datatypes.S i) w' (log ++ [(inv, o)])) as (answers & o' & E & Hlt & Hk & Hn & Hv);
      [done|cbn in *; lia|]. exists (o :: answers), o'. rw E Hv -app_assoc. cbn [length app zip_with].
    replace (i + Datatypes.S (length answers))%nat with (Datatypes.S i + length answers)%nat by lia.
    split_and!; [done|cbn in *; lia| |done|done].
    intros [|k] a Ha; [by simplify_eq/=; rw Nat.add_0_r|].
    replace (i + Datatypes.S k)%nat with (Datatypes.S i + k)%nat by lia. by apply Hk.
  - exists [], o. cbn. rw Nat.add_0_r zip_with_nil_r. split_and!; [done|lia|done|done|done].
Qed.

(** A delivery is a walk along one fixed plan, whatever the processes
    answer: check the branch that is checked out, stage everything, commit,
    land the branch, open the pull request, and look up an existing one.  The
    conversation is a prefix of the plan; every step but the last was answered
    as the next step requires (so nothing is staged on another branch than the
    run's, nothing landed uncommitted, no pull request opened for a branch that
    did not land), and the answer to the last step alone decides the outcome: a
    pull request is reported opened only on the URL its creation printed or on
    a lookup that says it is open, and every failure has its reason code.  A
    request without a worktree or branch runs nothing. *)
Theorem delivery_follows_plan request w log :
  match dr_worktree request, dr_worktree_branch request with
  | Some worktree, Some branch =>
      ∃ answers o, (push_branch_deliver sink (w, log) request).1.2
                   = log ++ zip (plan sink worktree branch request) (answers ++ [o])
      ∧ (length answers < 6)%nat
      ∧ (∀ k a, answers !! k = Some a → goes_on branch k a = true)
      ∧ goes_on branch (length answers) o = false
      ∧ (push_branch_deliver sink (w, log) request).2 = verdict (length answers) o
  | _, _ => push_branch_deliver sink (w, log) request = ((w, log), Err DELIVERY_NO_WORKTREE)
  end.
Proof.
  destruct (dr_worktree request) as [worktree|] eqn:Ew, (dr_worktree_branch request) as [branch|] eqn:Eb.
  2-4: unfold push_branch_deliver; by rw Ew ?Eb.
  rw (deliver_follows worktree branch); [|done..]. by apply follow_prefix.
Qed.
End theorems.

(** A sink that was built names a repository of two non-empty parts and an
    existing binary. *)
Lemma sink_new_ok is_file bin r base sink :
  PushBranchDeliverySink_new is_file bin r base = Ok sink →
  is_file bin = true ∧ sink = MkPushBranchDeliverySink bin base r
  ∧ ∃ owner name, split 47 r = [owner; name] ∧ owner ≠ [] ∧ name ≠ [].
Proof.
  unfold PushBranchDeliverySink_new. destruct (split 47 r) as [|owner [|name [|]]] eqn:Es; try done.
  destruct owner; [done|]. destruct name; [done|]. destruct (is_file bin); [|done]. intros [= <-].
  split_and!; [done|done|]. eexists _, _. by split_and!.
Qed.

(** [git commit] reports an unchanged tree on its standard output, where the
    sink does not look: the delivery fails instead of reaching the landing. *)
#[local] Instance unchanged_tree : Processes unit := {
  output := λ _ i, (tt, Some
    (if bool_decide (lit "rev-parse" ∈ iv_args i) then MkOutput true (lit "orc-loop/t1") []
     else if bool_decide (lit "commit" ∈ iv_args i)
     then MkOutput false (lit "nothing to commit, working tree clean") []
     else MkOutput true [] []));
}.

Example unchanged_tree_fails :
  (push_branch_deliver (MkPushBranchDeliverySink (lit "orc") (lit "main") (lit "a/b")) (tt, [])
     (MkDeliveryRequest (lit "t1") (lit "done") [] (Some [lit "wt"]) (Some (lit "orc-loop/t1")))).2
  = Err DELIVERY_BRANCH_STATE_FAILED.
Proof. by vm_compute. Qed.
