(* ===== verification/BoardContract.v ===== *)
(** * The board contract

    [crates/orchestraitor-board-contract]: the types of [types.rs] and
    [error.rs], the trait [BoardProvider] of [provider.rs] as a class over the
    provider's state, the deterministic reference provider of [in_memory.rs]
    and the write-through read cache of [cache.rs], which is a provider over
    any provider.

    An [async] method on [&self] with interior mutability is a function that
    also returns the next state.  A provider may do anything between two
    calls: only [SoleWriter] says that what was written is read back.  A
    mutex is its poison flag; [unix_millis] reads the clock [wall], whose
    n-th reading is [wall n]. *)

From S2P Require Import Prelude BTree Text.

(** ** Types *)

Definition BoardItemId : Type := rstr.

Inductive BoardContractError :=
| InvalidItemId
| ItemNotFound (id : rstr)
| StatusNotFound (name : rstr)
| FieldNotFound (name : rstr)
| FieldTypeMismatch (field expected actual : rstr)
| DuplicateEdge (blocked blocks : rstr)
| CrossReferenceNotFound (from to : rstr)
| WriteRejected (operation : rstr)
| Transport (operation : rstr).

Definition BoardItemId_new (raw : rstr) : result BoardItemId BoardContractError :=
  if blank raw then Err InvalidItemId else Ok raw.

Inductive BoardItemType := TaskItem | BugItem | EpicItem | FeatureItem.

Definition BoardItemType_as_str (t : BoardItemType) : rstr :=
  match t with
  | TaskItem => lit "task" | BugItem => lit "bug" | EpicItem => lit "epic" | FeatureItem => lit "feature"
  end.

#[export] Instance BoardItemType_eq_dec : EqDecision BoardItemType.
Proof. solve_decision. Defined.

Record BoardItem := MkBoardItem {
  bi_id : BoardItemId;
  bi_type : BoardItemType;
  bi_title : rstr;
  bi_body : rstr;
  bi_status : rstr;
}.

Record BoardStatus := MkBoardStatus { bst_id : BoardItemId; bst_name : rstr }.

Inductive BoardFieldKind := SingleSelectKind | TextKind | NumberKind | DateKind.

#[export] Instance BoardFieldKind_eq_dec : EqDecision BoardFieldKind.
Proof. solve_decision. Defined.

Record BoardField := MkBoardField { bf_id : BoardItemId; bf_name : rstr; bf_kind : BoardFieldKind }.

Inductive BoardFieldValue :=
| SingleSelect (option : rstr)
| TextValue (value : rstr)
| NumberValue (value : N)
| DateValue (value : rstr).

#[export] Instance BoardFieldValue_eq_dec : EqDecision BoardFieldValue.
Proof. solve_decision. Defined.

Definition value_kind (v : BoardFieldValue) : BoardFieldKind :=
  match v with
  | SingleSelect _ => SingleSelectKind
  | TextValue _ => TextKind
  | NumberValue _ => NumberKind
  | DateValue _ => DateKind
  end.

(** [blocked], then [blocks]. *)
Definition DependencyEdge : Type := BoardItemId * BoardItemId.

Record CrossReference := MkCrossReference { xr_from : BoardItemId; xr_to : rstr }.

Record BoardSearch := MkBoardSearch {
  s_item_type : option BoardItemType;
  s_status : option rstr;
  s_fields : list (rstr * BoardFieldValue);
}.

Definition BoardSearch_new : BoardSearch := MkBoardSearch None None [].
Definition with_type (s : BoardSearch) (t : BoardItemType) : BoardSearch :=
  MkBoardSearch (Some t) (s_status s) (s_fields s).
Definition with_status (s : BoardSearch) (status : rstr) : BoardSearch :=
  MkBoardSearch (s_item_type s) (Some status) (s_fields s).
Definition with_field (s : BoardSearch) (name : rstr) (v : BoardFieldValue) : BoardSearch :=
  MkBoardSearch (s_item_type s) (s_status s) (s_fields s ++ [(name, v)]).

(** ** The trait *)

(** What a method on a provider of state [P] returns. *)
Definition io (P A : Type) : Type := P * result A BoardContractError.

(** [?] after a call that moved the state. *)
Definition io_bind {P A B} (c : io P A) (k : P → A → io P B) : io P B :=
  match c with
  | (p, Ok a) => k p a
  | (p, Err e) => (p, Err e)
  end.

Notation "'let@' p , a ':=' c 'in' k" := (io_bind c (fun p a => k))
  (at level 10, p name, a name, c at level 200, k at level 200) : orc_scope.

Class BoardProvider (P : Type) := {
  item : P → BoardItemId → io P BoardItem;
  items : P → io P (list BoardItem);
  create_item : P → BoardItemType → rstr → rstr → io P BoardItemId;
  update_item_body : P → BoardItemId → rstr → rstr → io P unit;
  statuses : P → io P (list BoardStatus);
  set_item_status : P → BoardItemId → rstr → io P unit;
  fields : P → io P (list BoardField);
  field_value : P → BoardItemId → rstr → io P (option BoardFieldValue);
  set_field_value : P → BoardItemId → rstr → BoardFieldValue → io P unit;
  dependency_edges : P → io P (list DependencyEdge);
  add_dependency_edge : P → BoardItemId → BoardItemId → io P unit;
  remove_dependency_edge : P → BoardItemId → BoardItemId → io P unit;
  cross_references : P → BoardItemId → io P (list CrossReference);
  add_cross_reference : P → BoardItemId → rstr → io P unit;
  search : P → BoardSearch → io P (list BoardItem);
}.

(** ** The in-memory provider *)

Module InMemory.

Record BoardState := MkBoardState {
  m_items : gmap BoardItemId BoardItem;
  m_statuses : list BoardStatus;
  m_fields : list BoardField;
  m_field_values : gmap (BoardItemId * rstr) BoardFieldValue;
  m_edges : gset DependencyEdge;
  m_cross_references : gmap BoardItemId (list CrossReference);
  next_id : N;
}.

Definition default_state : BoardState := MkBoardState ∅ [] [] ∅ ∅ ∅ 0.

Record InMemoryBoardProvider := MkInMemory { m_state : BoardState; m_poisoned : bool }.

(** *** Setup *)

Definition fresh_id (raw fallback : rstr) : BoardItemId :=
  match BoardItemId_new raw with Ok id => id | Err _ => fallback end.

Definition setup_status (name : rstr) (s : BoardState) : BoardState :=
  MkBoardState (m_items s)
    (m_statuses s ++ [MkBoardStatus (fresh_id (lit "status-" ++ dec (len (m_statuses s))) (lit "status")) name])
    (m_fields s) (m_field_values s) (m_edges s) (m_cross_references s) (next_id s).

Definition setup_field (name : rstr) (kind : BoardFieldKind) (s : BoardState) : BoardState :=
  MkBoardState (m_items s) (m_statuses s)
    (m_fields s ++ [MkBoardField (fresh_id (lit "field-" ++ dec (len (m_fields s))) (lit "field")) name kind])
    (m_field_values s) (m_edges s) (m_cross_references s) (next_id s).

Definition setup_item (id : rstr) (item_type : BoardItemType) (title body status : rstr)
    (values : list (rstr * BoardFieldValue)) (s : BoardState) : BoardState :=
  let item_id := fresh_id id id in
  MkBoardState (<[item_id := MkBoardItem item_id item_type title body status]> (m_items s))
    (m_statuses s) (m_fields s)
    (foldl (λ m fv, <[(item_id, fv.1) := fv.2]> m) (m_field_values s) values)
    (m_edges s) (m_cross_references s) (next_id s).

Definition setup_edge (blocked blocks : rstr) (s : BoardState) : BoardState :=
  match BoardItemId_new blocked, BoardItemId_new blocks with
  | Ok blocked, Ok blocks =>
      MkBoardState (m_items s) (m_statuses s) (m_fields s) (m_field_values s)
        ({[(blocked, blocks)]} ∪ m_edges s) (m_cross_references s) (next_id s)
  | _, _ => s
  end.

Definition InMemory_new (setup : BoardState → BoardState) : InMemoryBoardProvider :=
  MkInMemory (setup default_state) false.

(** *** Operations *)

Definition kind_name (k : BoardFieldKind) : rstr :=
  match k with
  | SingleSelectKind => lit "single-select"
  | TextKind => lit "text"
  | NumberKind => lit "number"
  | DateKind => lit "date"
  end.

(** A method that locks for [operation], then reads or rewrites the state. *)
Definition locked {A} (p : InMemoryBoardProvider) (operation : rstr)
    (f : BoardState → BoardState * result A BoardContractError) : io InMemoryBoardProvider A :=
  if m_poisoned p then (p, Err (Transport operation))
  else let '(s, x) := f (m_state p) in (MkInMemory s (m_poisoned p), x).

Definition contains_key (s : BoardState) (id : BoardItemId) : bool := bool_decide (is_Some (m_items s !! id)).

Definition item (p : InMemoryBoardProvider) (id : BoardItemId) : io InMemoryBoardProvider BoardItem :=
  locked p (lit "item read") (λ s,
    (s, match m_items s !! id with Some i => Ok i | None => Err (ItemNotFound id) end)).

Definition items (p : InMemoryBoardProvider) : io InMemoryBoardProvider (list BoardItem) :=
  locked p (lit "items read") (λ s, (s, Ok (bt_values (m_items s)))).

Definition create_item (p : InMemoryBoardProvider) (t : BoardItemType) (title body : rstr)
    : io InMemoryBoardProvider BoardItemId :=
  locked p (lit "item create") (λ s,
    let n := (next_id s + 1) mod 18446744073709551616 in
    let s := MkBoardState (m_items s) (m_statuses s) (m_fields s) (m_field_values s) (m_edges s)
               (m_cross_references s) n in
    match BoardItemId_new (lit "item-" ++ dec n) with
    | Err e => (s, Err e)
    | Ok id =>
        (MkBoardState (<[id := MkBoardItem id t title body []]> (m_items s)) (m_statuses s) (m_fields s)
           (m_field_values s) (m_edges s) (m_cross_references s) n, Ok id)
    end).

Definition set_items (s : BoardState) (m : gmap BoardItemId BoardItem) : BoardState :=
  MkBoardState m (m_statuses s) (m_fields s) (m_field_values s) (m_edges s) (m_cross_references s) (next_id s).

Definition update_item_body (p : InMemoryBoardProvider) (id : BoardItemId) (title body : rstr)
    : io InMemoryBoardProvider unit :=
  locked p (lit "item update") (λ s,
    match m_items s !! id with
    | None => (s, Err (ItemNotFound id))
    | Some i =>
        (set_items s (<[id := MkBoardItem (bi_id i) (bi_type i) title body (bi_status i)]> (m_items s)), Ok tt)
    end).

Definition statuses (p : InMemoryBoardProvider) : io InMemoryBoardProvider (list BoardStatus) :=
  locked p (lit "statuses read") (λ s, (s, Ok (m_statuses s))).

Definition set_item_status (p : InMemoryBoardProvider) (id : BoardItemId) (status : rstr)
    : io InMemoryBoardProvider unit :=
  locked p (lit "status write") (λ s,
    if negb (contains_key s id) then (s, Err (ItemNotFound id))
    else if negb (existsb (λ known, bool_decide (bst_name known = status)) (m_statuses s)) then
      (s, Err (StatusNotFound status))
    else match m_items s !! id with
         | Some i =>
             (set_items s (<[id := MkBoardItem (bi_id i) (bi_type i) (bi_title i) (bi_body i) status]>
                             (m_items s)), Ok tt)
         | None => (s, Ok tt)
         end).

Definition fields (p : InMemoryBoardProvider) : io InMemoryBoardProvider (list BoardField) :=
  locked p (lit "fields read") (λ s, (s, Ok (m_fields s))).

Definition field_value (p : InMemoryBoardProvider) (id : BoardItemId) (field : rstr)
    : io InMemoryBoardProvider (option BoardFieldValue) :=
  locked p (lit "field value read") (λ s,
    if negb (contains_key s id) then (s, Err (ItemNotFound id))
    else if negb (existsb (λ known, bool_decide (bf_name known = field)) (m_fields s)) then
      (s, Err (FieldNotFound field))
    else (s, Ok (m_field_values s !! (id, field)))).

Definition set_field_value (p : InMemoryBoardProvider) (id : BoardItemId) (field : rstr)
    (value : BoardFieldValue) : io InMemoryBoardProvider unit :=
  locked p (lit "field value write") (λ s,
    if negb (contains_key s id) then (s, Err (ItemNotFound id))
    else match List.find (λ known, bool_decide (bf_name known = field)) (m_fields s) with
         | None => (s, Err (FieldNotFound field))
         | Some known =>
             if negb (bool_decide (bf_kind known = value_kind value)) then
               (s, Err (FieldTypeMismatch field (kind_name (bf_kind known)) (kind_name (value_kind value))))
             else
               (MkBoardState (m_items s) (m_statuses s) (m_fields s)
                  (<[(id, field) := value]> (m_field_values s)) (m_edges s) (m_cross_references s)
                  (next_id s), Ok tt)
         end).

Definition dependency_edges (p : InMemoryBoardProvider) : io InMemoryBoardProvider (list DependencyEdge) :=
  locked p (lit "edges read") (λ s, (s, Ok (bs_iter (m_edges s)))).

(** The endpoint check of the edge operations. *)
Definition unknown_endpoint (s : BoardState) (blocked blocks : BoardItemId) : option BoardItemId :=
  List.find (λ id, negb (contains_key s id)) [blocked; blocks].

Definition set_edges (s : BoardState) (e : gset DependencyEdge) : BoardState :=
  MkBoardState (m_items s) (m_statuses s) (m_fields s) (m_field_values s) e (m_cross_references s) (next_id s).

Definition add_dependency_edge (p : InMemoryBoardProvider) (blocked blocks : BoardItemId)
    : io InMemoryBoardProvider unit :=
  locked p (lit "edge add") (λ s,
    match unknown_endpoint s blocked blocks with
    | Some id => (s, Err (ItemNotFound id))
    | None =>
        if bool_decide ((blocked, blocks) ∈ m_edges s) then (s, Err (DuplicateEdge blocked blocks))
        else (set_edges s ({[(blocked, blocks)]} ∪ m_edges s), Ok tt)
    end).

Definition remove_dependency_edge (p : InMemoryBoardProvider) (blocked blocks : BoardItemId)
    : io InMemoryBoardProvider unit :=
  locked p (lit "edge remove") (λ s,
    match unknown_endpoint s blocked blocks with
    | Some id => (s, Err (ItemNotFound id))
    | None => (set_edges s (m_edges s ∖ {[(blocked, blocks)]}), Ok tt)
    end).

Definition cross_references (p : InMemoryBoardProvider) (id : BoardItemId)
    : io InMemoryBoardProvider (list CrossReference) :=
  locked p (lit "cross-references read") (λ s,
    if negb (contains_key s id) then (s, Err (ItemNotFound id))
    else (s, Ok (default [] (m_cross_references s !! id)))).

Definition add_cross_reference (p : InMemoryBoardProvider) (from : BoardItemId) (to : rstr)
    : io InMemoryBoardProvider unit :=
  locked p (lit "cross-reference add") (λ s,
    if negb (contains_key s from) then (s, Err (ItemNotFound from))
    else
      let references := default [] (m_cross_references s !! from) in
      let references := if existsb (λ r, bool_decide (xr_to r = to)) references then references
                        else references ++ [MkCrossReference from to] in
      (MkBoardState (m_items s) (m_statuses s) (m_fields s) (m_field_values s) (m_edges s)
         (<[from := references]> (m_cross_references s)) (next_id s), Ok tt)).

(** The conjunctive filter. *)
Definition matches (s : BoardState) (filter : BoardSearch) (i : BoardItem) : bool :=
  negb (from_option (λ wanted, negb (bool_decide (bi_type i = wanted))) false (s_item_type filter))
  && negb (from_option (λ wanted, negb (bool_decide (bi_status i = wanted))) false (s_status filter))
  && forallb (λ nv, bool_decide (m_field_values s !! (bi_id i, nv.1) = Some nv.2)) (s_fields filter).

Definition search (p : InMemoryBoardProvider) (filter : BoardSearch)
    : io InMemoryBoardProvider (list BoardItem) :=
  locked p (lit "search") (λ s, (s, Ok (List.filter (matches s filter) (bt_values (m_items s))))).

#[global] Instance InMemory_provider : BoardProvider InMemoryBoardProvider := {
  BoardContract.item := item;
  BoardContract.items := items;
  BoardContract.create_item := create_item;
  BoardContract.update_item_body := update_item_body;
  BoardContract.statuses := statuses;
  BoardContract.set_item_status := set_item_status;
  BoardContract.fields := fields;
  BoardContract.field_value := field_value;
  BoardContract.set_field_value := set_field_value;
  BoardContract.dependency_edges := dependency_edges;
  BoardContract.add_dependency_edge := add_dependency_edge;
  BoardContract.remove_dependency_edge := remove_dependency_edge;
  BoardContract.cross_references := cross_references;
  BoardContract.add_cross_reference := add_cross_reference;
  BoardContract.search := search;
}.
End InMemory.

(** ** The write-through cache *)

Module Cache.

Inductive Divergence :=
| DivStatus (status : rstr)
| DivField (field : rstr) (value : BoardFieldValue)
| DivFieldCleared (field : rstr)
| DivBody (version : N)
| DivTitle (title : rstr).

Inductive CacheEvent := BoardDiverged (item : BoardItemId) (expected actual : Divergence).

Record CachedItem := MkCachedItem { ci_item : BoardItem; last_synced_ms : N }.

Definition wrapping_mul_u64 (a b : N) : N := (a * b) mod 18446744073709551616.

Definition fnv1a64 (bytes : list N) : N :=
  foldl (λ hash byte, wrapping_mul_u64 (N.lxor hash byte) 1099511628211) 14695981039346656037 bytes.

Definition body_version (i : BoardItem) : N := fnv1a64 (as_bytes (bi_body i)).
Definition expected_body_version (written_body : rstr) : N := fnv1a64 (as_bytes written_body).

(** The cache with its provider; [c_clock] counts the clock readings. *)
Record CachedBoard (P : Type) := MkCachedBoard {
  provider : P;
  c_items : gmap BoardItemId CachedItem;
  provider_body_versions : gmap BoardItemId N;
  pending_events : list CacheEvent;
  refresh_generation : N;
  c_poisoned : bool;
  c_clock : N;
}.
Arguments MkCachedBoard {P}.
Arguments provider {P}.
Arguments c_items {P}.
Arguments provider_body_versions {P}.
Arguments pending_events {P}.
Arguments refresh_generation {P}.
Arguments c_poisoned {P}.
Arguments c_clock {P}.

Section cache.
Context {P : Type} `{BoardProvider P} (wall : N → N).
Implicit Types c : CachedBoard P.

Definition CachedBoard_new (p : P) : CachedBoard P := MkCachedBoard p ∅ ∅ [] 0 false 0.

(** A call on the wrapped provider. *)
Definition through {A} c (call : P → io P A) : io (CachedBoard P) A :=
  let '(p, x) := call (provider c) in
  (MkCachedBoard p (c_items c) (provider_body_versions c) (pending_events c) (refresh_generation c)
     (c_poisoned c) (c_clock c), x).

(** [fetch_add(1)]. *)
Definition bump (n : N) : N := (n + 1) mod 18446744073709551616.

(** The clock is read, the generation counted, and, under the lock, the entry
    of [id] and its body version replaced. *)
Definition store_entry c (operation : rstr) (id : BoardItemId) (actual : BoardItem)
    : io (CachedBoard P) N :=
  let stamp := wall (c_clock c) in
  if c_poisoned c then
    (MkCachedBoard (provider c) (c_items c) (provider_body_versions c) (pending_events c)
       (bump (refresh_generation c)) (c_poisoned c) (c_clock c + 1), Err (Transport operation))
  else
    (MkCachedBoard (provider c) (<[id := MkCachedItem actual stamp]> (c_items c))
       (<[id := body_version actual]> (provider_body_versions c)) (pending_events c)
       (bump (refresh_generation c)) (c_poisoned c) (c_clock c + 1), Ok stamp).

Definition cached_item c (id : BoardItemId) : io (CachedBoard P) CachedItem :=
  let@ c, actual := through c (λ p, item p id) in
  let@ c, stamp := store_entry c (lit "cache read") id actual in
  (c, Ok (MkCachedItem actual stamp)).

Definition last_synced c (id : BoardItemId) : result (option N) BoardContractError :=
  if c_poisoned c then Err (Transport (lit "cache stamp read"))
  else Ok (last_synced_ms <$> c_items c !! id).

Definition drain_events c : io (CachedBoard P) (list CacheEvent) :=
  if c_poisoned c then (c, Err (Transport (lit "cache event drain")))
  else (MkCachedBoard (provider c) (c_items c) (provider_body_versions c) [] (refresh_generation c)
          (c_poisoned c) (c_clock c), Ok (pending_events c)).

Definition refresh c (id : BoardItemId) : io (CachedBoard P) BoardItem :=
  let@ c, actual := through c (λ p, item p id) in
  let@ c, _stamp := store_entry c (lit "cache refresh") id actual in
  (c, Ok actual).

Definition record_divergence c (event : CacheEvent) (actual : BoardItem) : io (CachedBoard P) unit :=
  let stamp := wall (c_clock c) in
  if c_poisoned c then
    (MkCachedBoard (provider c) (c_items c) (provider_body_versions c) (pending_events c)
       (refresh_generation c) (c_poisoned c) (c_clock c + 1), Err (Transport (lit "cache reconcile")))
  else
    (MkCachedBoard (provider c) (<[bi_id actual := MkCachedItem actual stamp]> (c_items c))
       (<[bi_id actual := body_version actual]> (provider_body_versions c)) (pending_events c ++ [event])
       (bump (refresh_generation c)) (c_poisoned c) (c_clock c + 1), Ok tt).

Definition observed_body_version c (id : BoardItemId) : option N :=
  if c_poisoned c then None else provider_body_versions c !! id.

Definition update_item_body c (id : BoardItemId) (title body : rstr) : io (CachedBoard P) unit :=
  let observed_before := observed_body_version c id in
  let@ c, _u := through c (λ p, update_item_body p id title body) in
  let@ c, actual := refresh c id in
  let observed_after := body_version actual in
  let expected_version := expected_body_version body in
  let@ c, _u := (match observed_before with
               | Some _ =>
                   if negb (observed_after =? expected_version) then
                     record_divergence c (BoardDiverged id (DivBody expected_version) (DivBody observed_after))
                       actual
                   else (c, Ok tt)
               | None => (c, Ok tt)
               end) in
  if negb (bool_decide (bi_title actual = title)) then
    record_divergence c (BoardDiverged id (DivTitle title) (DivTitle (bi_title actual))) actual
  else (c, Ok tt).

Definition set_item_status c (id : BoardItemId) (status : rstr) : io (CachedBoard P) unit :=
  let@ c, _u := through c (λ p, set_item_status p id status) in
  let@ c, actual := refresh c id in
  if negb (bool_decide (bi_status actual = status)) then
    record_divergence c (BoardDiverged id (DivStatus status) (DivStatus (bi_status actual))) actual
  else (c, Ok tt).

Definition set_field_value c (id : BoardItemId) (field : rstr) (value : BoardFieldValue)
    : io (CachedBoard P) unit :=
  let@ c, _u := through c (λ p, set_field_value p id field value) in
  let@ c, actual := refresh c id in
  let@ c, provider_value := through c (λ p, field_value p id field) in
  if negb (bool_decide (provider_value = Some value)) then
    let actual_divergence :=
      match provider_value with
      | Some actual_value => DivField field actual_value
      | None => DivFieldCleared field
      end in
    record_divergence c (BoardDiverged id (DivField field value) actual_divergence) actual
  else (c, Ok tt).

(** Reads, creation, edges and references go straight through. *)
#[global] Instance CachedBoard_provider : BoardProvider (CachedBoard P) := {
  BoardContract.item c id := through c (λ p, item p id);
  BoardContract.items c := through c items;
  BoardContract.create_item c t title body := through c (λ p, create_item p t title body);
  BoardContract.update_item_body := update_item_body;
  BoardContract.statuses c := through c statuses;
  BoardContract.set_item_status := set_item_status;
  BoardContract.fields c := through c fields;
  BoardContract.field_value c id f := through c (λ p, field_value p id f);
  BoardContract.set_field_value := set_field_value;
  BoardContract.dependency_edges c := through c dependency_edges;
  BoardContract.add_dependency_edge c a b := through c (λ p, add_dependency_edge p a b);
  BoardContract.remove_dependency_edge c a b := through c (λ p, remove_dependency_edge p a b);
  BoardContract.cross_references c id := through c (λ p, cross_references p id);
  BoardContract.add_cross_reference c a b := through c (λ p, add_cross_reference p a b);
  BoardContract.search c f := through c (λ p, search p f);
}.
End cache.
End Cache.

(** ** Sequences of contract calls *)

Inductive BoardOp :=
| OpItem (id : BoardItemId)
| OpItems
| OpCreate (t : BoardItemType) (title body : rstr)
| OpUpdateBody (id : BoardItemId) (title body : rstr)
| OpStatuses
| OpSetStatus (id : BoardItemId) (status : rstr)
| OpFields
| OpFieldValue (id : BoardItemId) (field : rstr)
| OpSetFieldValue (id : BoardItemId) (field : rstr) (value : BoardFieldValue)
| OpEdges
| OpAddEdge (blocked blocks : BoardItemId)
| OpRemoveEdge (blocked blocks : BoardItemId)
| OpCrossReferences (id : BoardItemId)
| OpAddCrossReference (from : BoardItemId) (to : rstr)
| OpSearch (filter : BoardSearch).

Inductive Reply :=
| RItem (x : result BoardItem BoardContractError)
| RItems (x : result (list BoardItem) BoardContractError)
| RId (x : result BoardItemId BoardContractError)
| RUnit (x : result unit BoardContractError)
| RStatuses (x : result (list BoardStatus) BoardContractError)
| RFields (x : result (list BoardField) BoardContractError)
| RValue (x : result (option BoardFieldValue) BoardContractError)
| REdges (x : result (list DependencyEdge) BoardContractError)
| RReferences (x : result (list CrossReference) BoardContractError).

Section calls.
Context {P : Type} `{BoardProvider P}.

Definition answered {A} (f : result A BoardContractError → Reply) (x : io P A) : P * Reply := (x.1, f x.2).

Definition exec (p : P) (o : BoardOp) : P * Reply :=
  match o with
  | OpItem id => answered RItem (item p id)
  | OpItems => answered RItems (items p)
  | OpCreate t title body => answered RId (create_item p t title body)
  | OpUpdateBody id title body => answered RUnit (update_item_body p id title body)
  | OpStatuses => answered RStatuses (statuses p)
  | OpSetStatus id s => answered RUnit (set_item_status p id s)
  | OpFields => answered RFields (fields p)
  | OpFieldValue id f => answered RValue (field_value p id f)
  | OpSetFieldValue id f v => answered RUnit (set_field_value p id f v)
  | OpEdges => answered REdges (dependency_edges p)
  | OpAddEdge a b => answered RUnit (add_dependency_edge p a b)
  | OpRemoveEdge a b => answered RUnit (remove_dependency_edge p a b)
  | OpCrossReferences id => answered RReferences (cross_references p id)
  | OpAddCrossReference a b => answered RUnit (add_cross_reference p a b)
  | OpSearch f => answered RItems (search p f)
  end.

Fixpoint exec_all (p : P) (ops : list BoardOp) : P * list Reply :=
  match ops with
  | [] => (p, [])
  | o :: ops => let '(p, r) := exec p o in let '(p, rs) := exec_all p ops in (p, r :: rs)
  end.
End calls.

(** ** The contract of a sole writer *)

(** Reads leave the provider as it is, and what a successful write wrote is
    what the next read returns: no one else writes the board. *)
Class SoleWriter (P : Type) `{BoardProvider P} : Prop := {
  item_pure p id : (item p id).1 = p;
  field_value_pure p id f : (field_value p id f).1 = p;
  status_readback p id s p' :
    set_item_status p id s = (p', Ok tt) → ∃ i, item p' id = (p', Ok i) ∧ bi_status i = s;
  body_readback p id title body p' :
    update_item_body p id title body = (p', Ok tt) →
    ∃ i, item p' id = (p', Ok i) ∧ bi_title i = title ∧ bi_body i = body;
  field_readback p id f v p' :
    set_field_value p id f v = (p', Ok tt) →
    (∃ i, item p' id = (p', Ok i)) ∧ field_value p' id f = (p', Ok (Some v));
}.

#[export] Instance InMemory_sole_writer : SoleWriter InMemory.InMemoryBoardProvider.
Proof.
  split; cbn [item field_value set_item_status update_item_body set_field_value InMemory.InMemory_provider];
    unfold InMemory.item, InMemory.field_value, InMemory.set_item_status, InMemory.update_item_body,
      InMemory.set_field_value, InMemory.locked; intros [s [|]]; cbn [InMemory.m_poisoned InMemory.m_state];
    try done.
  - intros id f. do 2 (destruct (negb _); [done|]). done.
  - intros id st p' E. destruct (negb (InMemory.contains_key s id)) eqn:Ek; [done|].
    destruct (negb (existsb _ _)); [done|]. apply negb_false_iff in Ek.
    unfold InMemory.contains_key in Ek. apply bool_decide_eq_true in Ek as [i Hi]. rw Hi in E.
    injection E as <-. cbn [InMemory.m_items InMemory.set_items InMemory.m_state InMemory.m_poisoned].
    rw lookup_insert_eq. eauto.
  - intros id title body p' E. destruct (InMemory.m_items s !! id) as [i|]; [|done].
    injection E as <-. cbn [InMemory.m_items InMemory.set_items InMemory.m_state InMemory.m_poisoned].
    rw lookup_insert_eq. eauto.
  - intros id f v p' E. destruct (negb (InMemory.contains_key s id)) eqn:Ek; [done|].
    destruct (List.find _ _) as [known|] eqn:Ef; [|done]. 
    destruct (bool_decide (bf_kind known = value_kind v)); [|done]. injection E as <-.
    cbn [InMemory.m_items InMemory.m_fields InMemory.m_field_values InMemory.m_state InMemory.m_poisoned].
    unfold InMemory.contains_key in *. cbn [InMemory.m_items]. rw Ek.
    apply negb_false_iff, bool_decide_eq_true in Ek as [i Hi]. rw Hi. split; [eauto|].
    assert (existsb (λ known, bool_decide (bf_name known = f)) (InMemory.m_fields s) = true) as ->.
    { apply existsb_exists. apply find_some in Ef. eauto. }
    cbn [negb]. by rw lookup_insert_eq.
Qed.

(** ** The cache is transparent over a sole writer *)

Section transparent.
Context {P : Type} `{BoardProvider P} (wall : N → N).
Implicit Types c : Cache.CachedBoard P.

#[local] Existing Instance Cache.CachedBoard_provider.
Abbreviation cexec := (exec (H := Cache.CachedBoard_provider wall)).

(** What a caller sees of the cache besides its entries. *)
Definition seen c (p : P) (ev : list Cache.CacheEvent) : Prop :=
  Cache.provider c = p ∧ Cache.c_poisoned c = false ∧ Cache.pending_events c = ev.

Lemma through_seen {A} c p ev (call : P → io P A) p' x :
  seen c p ev → call p = (p', x) → ∃ c', Cache.through c call = (c', x) ∧ seen c' p' ev
    ∧ Cache.c_items c' = Cache.c_items c
    ∧ Cache.provider_body_versions c' = Cache.provider_body_versions c.
Proof. intros (<- & Hp & He) E. unfold Cache.through. rw E. eexists. split; [done|]. by split_and!. Qed.

Lemma refresh_seen c p ev id p' i :
  seen c p ev → item p id = (p', Ok i) →
  ∃ c' stamp, Cache.refresh wall c id = (c', Ok i) ∧ seen c' p' ev
    ∧ Cache.c_items c' = <[id := Cache.MkCachedItem i stamp]> (Cache.c_items c)
    ∧ Cache.provider_body_versions c' = <[id := Cache.body_version i]> (Cache.provider_body_versions c).
Proof.
  intros Hs E. unfold Cache.refresh.
  destruct (through_seen c p ev (λ p, item p id) p' (Ok i) Hs E) as (c1 & -> & (Hp1 & Hq1 & He1) & Hi1 & Hv1).
  cbn [io_bind]. unfold Cache.store_entry. rw Hq1. cbn [io_bind].
  eexists _, _. split; [done|]. cbn [Cache.c_items Cache.provider_body_versions].
  split; [by split_and!|]. by rw Hi1 Hv1.
Qed.

Lemma exec_transparent `{!SoleWriter P} c p ev o :
  seen c p ev → seen (cexec c o).1 (exec p o).1 ev ∧ (cexec c o).2 = (exec p o).2.
Proof.
  intros Hs.
  assert (∀ {A} (f : result A BoardContractError → Reply) (call : P → io P A),
    seen (answered f (Cache.through c call)).1 (answered f (call p)).1 ev
    ∧ (answered f (Cache.through c call)).2 = (answered f (call p)).2) as Hthrough.
  { intros A f call. destruct (call p) as [p' x] eqn:E.
    by destruct (through_seen c p ev call p' x Hs E) as (c' & -> & ? & _). }
  destruct o; try apply Hthrough; unfold answered; cbn [exec Cache.CachedBoard_provider update_item_body
    set_item_status set_field_value answered fst snd].
  - unfold Cache.update_item_body. destruct (update_item_body p id title body) as [p1 x] eqn:E.
    destruct (through_seen c p ev (λ p, update_item_body p id title body) p1 x Hs E) as (c1 & -> & Hs1 & _).
    destruct x as [[]|e]; [|done]. cbn [io_bind].
    destruct (body_readback _ _ _ _ _ E) as (i & Hi & Ht & Hb).
    destruct (refresh_seen c1 p1 ev id p1 i Hs1 Hi) as (c2 & stamp & -> & Hs2 & _). cbn [io_bind].
    unfold Cache.body_version, Cache.expected_body_version. rw Hb N.eqb_refl. cbn [negb].
    rw (bool_decide_eq_true_2 _ Ht). cbn [negb]. by destruct (Cache.observed_body_version c id).
  - unfold Cache.set_item_status. destruct (set_item_status p id status) as [p1 x] eqn:E.
    destruct (through_seen c p ev (λ p, set_item_status p id status) p1 x Hs E) as (c1 & -> & Hs1 & _).
    destruct x as [[]|e]; [|done]. cbn [io_bind].
    destruct (status_readback _ _ _ _ E) as (i & Hi & Ht).
    destruct (refresh_seen c1 p1 ev id p1 i Hs1 Hi) as (c2 & stamp & -> & Hs2 & _). cbn [io_bind].
    by rw (bool_decide_eq_true_2 _ Ht).
  - unfold Cache.set_field_value. destruct (set_field_value p id field value) as [p1 x] eqn:E.
    destruct (through_seen c p ev (λ p, set_field_value p id field value) p1 x Hs E) as (c1 & -> & Hs1 & _).
    destruct x as [[]|e]; [|done]. cbn [io_bind].
    destruct (field_readback _ _ _ _ _ E) as [(i & Hi) Hv].
    destruct (refresh_seen c1 p1 ev id p1 i Hs1 Hi) as (c2 & stamp & -> & Hs2 & _). cbn [io_bind].
    destruct (through_seen c2 p1 ev (λ p, field_value p id field) p1 _ Hs2 Hv) as (c3 & -> & Hs3 & _).
    cbn [io_bind]. by rw bool_decide_eq_true_2.
Qed.

(** C13. The write-through cache refines its provider: over a provider whose
    writes are read back (the in-memory reference is one), any sequence of
    contract calls through a [CachedBoard] returns exactly what the same calls
    on the provider return, errors included, leaves the provider in the same
    state, and records no divergence. *)
Theorem cached_board_transparent `{!SoleWriter P} (ops : list BoardOp) (p : P) :
  let c := exec_all (H := Cache.CachedBoard_provider wall) (Cache.CachedBoard_new p) ops in
  c.2 = (exec_all p ops).2 ∧ Cache.provider c.1 = (exec_all p ops).1 ∧ Cache.pending_events c.1 = [].
Proof.
  cbv zeta. assert (seen (Cache.CachedBoard_new p) p []) as Hs by done.
  revert Hs. generalize (Cache.CachedBoard_new p) as c. revert p.
  induction ops as [|o ops IH]; intros p c Hs; cbn [exec_all]; [by destruct Hs as (? & _ & ?)|].
  destruct (exec_transparent c p [] o Hs) as [Hs' Hr].
  destruct (cexec c o) as [c1 r1]. destruct (exec p o) as [p1 r2]. cbn [fst snd] in Hs', Hr. subst r2.
  specialize (IH p1 c1 Hs'). destruct (exec_all c1 ops), (exec_all p1 ops). cbn [fst snd] in *.
  destruct IH as (-> & ? & ?). done.
Qed.
End transparent.

(** ** Board wins over any provider *)

(** The divergences of a write whose read-back returned [actual] and, for a
    field, [value]; [observed] is the body version known before the write. *)
Definition divergences (observed : option N) (o : BoardOp) (actual : BoardItem)
    (value : option BoardFieldValue) : list Cache.CacheEvent :=
  match o with
  | OpSetStatus id s =>
      if bool_decide (bi_status actual = s) then []
      else [Cache.BoardDiverged id (Cache.DivStatus s) (Cache.DivStatus (bi_status actual))]
  | OpUpdateBody id title body =>
      (if observed is Some _ then
         if Cache.body_version actual =? Cache.expected_body_version body then []
         else [Cache.BoardDiverged id (Cache.DivBody (Cache.expected_body_version body))
                 (Cache.DivBody (Cache.body_version actual))]
       else [])
      ++ (if bool_decide (bi_title actual = title) then []
          else [Cache.BoardDiverged id (Cache.DivTitle title) (Cache.DivTitle (bi_title actual))])
  | OpSetFieldValue id f v =>
      if bool_decide (value = Some v) then []
      else [Cache.BoardDiverged id (Cache.DivField f v)
              (if value is Some a then Cache.DivField f a else Cache.DivFieldCleared f)]
  | _ => []
  end.

(** The item a reconciled write is about. *)
Definition written_item (o : BoardOp) : option BoardItemId :=
  match o with
  | OpSetStatus id _ | OpUpdateBody id _ _ | OpSetFieldValue id _ _ => Some id
  | _ => None
  end.

Section board_wins.
Context {P : Type} `{BoardProvider P} (wall : N → N).
Implicit Types c : Cache.CachedBoard P.
Abbreviation cexec := (exec (H := Cache.CachedBoard_provider wall)).

(** The entry and the version of [id] are those of [actual]. *)
Definition holds c (id : BoardItemId) (actual : BoardItem) : Prop :=
  Cache.ci_item <$> Cache.c_items c !! id = Some actual
  ∧ Cache.provider_body_versions c !! id = Some (Cache.body_version actual).

Lemma record_divergence_ok c p ev event actual id :
  seen c p ev → holds c id actual →
  ∃ c', Cache.record_divergence wall c event actual = (c', Ok tt) ∧ seen c' p (ev ++ [event])
    ∧ holds c' id actual.
Proof.
  intros (Hp & Hq & He) [Hi Hv]. unfold Cache.record_divergence. rw Hq. eexists. split; [done|].
  split; [by split_and!; [..|rw -He]|].
  split; cbn [Cache.c_items Cache.provider_body_versions]; rw lookup_insert; by case_decide.
Qed.

(** One divergence check after a refresh. *)
Lemma check_divergence c p ev event actual id (b : bool) c' :
  seen c p ev → holds c id actual →
  (if negb b then Cache.record_divergence wall c event actual else (c, Ok tt)) = (c', Ok tt) →
  seen c' p (ev ++ if b then [] else [event]) ∧ holds c' id actual.
Proof.
  intros Hs Hh E. destruct b; cbn [negb] in E.
  - simplify_eq. by rw app_nil_r.
  - destruct (record_divergence_ok c p ev event actual id Hs Hh) as (c1 & E1 & Hs1 & Hh1). rw E1 in E.
    simplify_eq. auto.
Qed.

(** The common prefix of the writes: write through, then refresh. *)
Lemma write_refresh c id (write : P → io P unit) (k : Cache.CachedBoard P → BoardItem → io (Cache.CachedBoard P) unit) c' :
  Cache.c_poisoned c = false →
  (let@ c, _u := Cache.through c write in let@ c, actual := Cache.refresh wall c id in k c actual) = (c', Ok tt) →
  ∃ p1 p2 c2 actual, item p1 id = (p2, Ok actual) ∧ seen c2 p2 (Cache.pending_events c) ∧ holds c2 id actual
    ∧ k c2 actual = (c', Ok tt).
Proof.
  intros Hq E. assert (seen c (Cache.provider c) (Cache.pending_events c)) as Hs by done.
  destruct (write (Cache.provider c)) as [p1 x] eqn:Ew.
  destruct (through_seen c _ _ write p1 x Hs Ew) as (c1 & Et & Hs1 & _). rw Et in E.
  destruct x as [[]|e]; [|done]. cbn [io_bind] in E.
  destruct (item p1 id) as [p2 [actual|e]] eqn:Ei.
  - destruct (refresh_seen wall c1 p1 _ id p2 actual Hs1 Ei) as (c2 & stamp & Er & Hs2 & Hi & Hv).
    rw Er in E. cbn [io_bind] in E. exists p1, p2, c2, actual. split_and!; try done.
    unfold holds. rw Hi Hv. by rw !lookup_insert_eq.
  - destruct (through_seen c1 p1 _ (λ p, item p id) p2 (Err e) Hs1 Ei) as (c2 & E2 & _).
    unfold Cache.refresh in E. by rw E2 in E.
Qed.

(** Board wins, over any provider, drifting ones included: when a status,
    body or field write through the cache succeeds, the cache then holds
    exactly the item the provider returned after the write, never the written
    one, with its body digest, and the events it recorded are exactly the axes
    on which that read-back differs from what was written. *)
Theorem cached_write_board_wins c o id c' :
  Cache.c_poisoned c = false → written_item o = Some id →
  cexec c o = (c', RUnit (Ok tt)) →
  ∃ p1 p2 actual value,
    item p1 id = (p2, Ok actual) ∧ holds c' id actual
    ∧ Cache.pending_events c'
      = Cache.pending_events c ++ divergences (Cache.observed_body_version c id) o actual value
    ∧ (∀ f v, o = OpSetFieldValue id f v → ∃ p3, field_value p2 id f = (p3, Ok value)).
Proof.
  intros Hq Hw E.
  destruct o; try done; injection Hw as ->; unfold answered in E; cbn [exec Cache.CachedBoard_provider
    update_item_body set_item_status set_field_value answered fst snd] in E; injection E as E1 E2.
  all: match type of E1 with (?x).1 = _ => destruct x as [c0 x0] eqn:E end; cbn [fst snd] in E1, E2;
    subst c0 x0; apply write_refresh in E as (p1 & p2 & c2 & actual & Ei & Hs2 & Hh2 & E); [|done].
  - exists p1, p2, actual, None. split; [done|]. cbn [divergences].
    destruct (Cache.observed_body_version c id) as [n|]; cbn [io_bind] in E.
    + match type of E with io_bind ?m _ = _ => destruct m as [c3 [[]|]] eqn:E3; [|done] end. cbn [io_bind] in E.
      apply (check_divergence _ _ _ _ _ _ _ _ Hs2 Hh2) in E3 as [Hs3 Hh3].
      apply (check_divergence _ _ _ _ _ _ _ _ Hs3 Hh3) in E as [(_ & _ & He) Hh4]. by rw He -app_assoc.
    + by apply (check_divergence _ _ _ _ _ _ _ _ Hs2 Hh2) in E as [(_ & _ & He) Hh4].
  - exists p1, p2, actual, None. split; [done|].
    by apply (check_divergence _ _ _ _ _ _ _ _ Hs2 Hh2) in E as [(_ & _ & He) Hh4].
  - destruct (field_value p2 id field) as [p3 y] eqn:Ef.
    destruct (through_seen c2 _ _ (λ p, field_value p id field) p3 y Hs2 Ef) as (c3 & Et & Hs3 & Hi3 & Hv3).
    rw Et in E. destruct y as [y|e]; [|done]. cbn [io_bind] in E.
    assert (holds c3 id actual) as Hh3 by (unfold holds; by rw Hi3 Hv3).
    apply (check_divergence _ _ _ _ _ _ _ _ Hs3 Hh3) in E as [(_ & _ & He) Hh4].
    exists p1, p2, actual, y. split_and!; [done..|]. intros f v [= -> ->]. eauto.
Qed.
End board_wins.

(** ** The reference board is well typed *)

Section typed.
Import InMemory.

(** A field is declared by its first entry of that name. *)
Definition declared (fs : list BoardField) (name : rstr) : option BoardField :=
  List.find (λ known, bool_decide (bf_name known = name)) fs.

(** A well-formed board.  The target of a cross reference is opaque to the provider:
    only its source is an item. *)
Record board_wf (s : BoardState) : Prop := {
  wf_keys id i : m_items s !! id = Some i → bi_id i = id;
  wf_status id i : m_items s !! id = Some i → bi_status i = [] ∨ bi_status i ∈ bst_name <$> m_statuses s;
  wf_values id f v : m_field_values s !! (id, f) = Some v →
    is_Some (m_items s !! id) ∧ bf_kind <$> declared (m_fields s) f = Some (value_kind v);
  wf_edges a b : (a, b) ∈ m_edges s → is_Some (m_items s !! a) ∧ is_Some (m_items s !! b);
  wf_refs id l : m_cross_references s !! id = Some l →
    is_Some (m_items s !! id) ∧ NoDup (xr_to <$> l) ∧ Forall (λ r, xr_from r = id) l;
}.

(** Replacing or adding an item keeps the board well formed. *)
Lemma insert_item_wf s id i n :
  board_wf s → bi_id i = id → bi_status i = [] ∨ bi_status i ∈ bst_name <$> m_statuses s →
  board_wf (MkBoardState (<[id := i]> (m_items s)) (m_statuses s) (m_fields s) (m_field_values s) (m_edges s)
              (m_cross_references s) n).
Proof.
  intros [H1 H2 H3 H4 H5] Hid Hst.
  assert (∀ j, is_Some (m_items s !! j) → is_Some (<[id := i]> (m_items s) !! j)) as Hmono.
  { intros j Hj. rw lookup_insert. case_decide; eauto. }
  split; cbn [m_items m_statuses m_fields m_field_values m_edges m_cross_references].
  - intros j k. rw lookup_insert. case_decide; [by intros [= <-]; subst|apply H1].
  - intros j k. rw lookup_insert. case_decide; [by intros [= <-]|apply H2].
  - intros j f v Hv. destruct (H3 _ _ _ Hv). auto.
  - intros a b Hab. destruct (H4 _ _ Hab). auto.
  - intros j l Hl. destruct (H5 _ _ Hl) as (? & ? & ?). auto.
Qed.

Lemma contains_key_true s id : negb (contains_key s id) = false → is_Some (m_items s !! id).
Proof. unfold contains_key. intros E. by apply negb_false_iff, bool_decide_eq_true in E. Qed.

Lemma unknown_endpoint_None s a b :
  unknown_endpoint s a b = None → is_Some (m_items s !! a) ∧ is_Some (m_items s !! b).
Proof.
  unfold unknown_endpoint. cbn [List.find].
  destruct (negb (contains_key s a)) eqn:Ea; [done|]. destruct (negb (contains_key s b)) eqn:Eb; [done|].
  auto using contains_key_true.
Qed.

Lemma set_edges_wf s e :
  board_wf s → (∀ a b, (a, b) ∈ e → is_Some (m_items s !! a) ∧ is_Some (m_items s !! b)) →
  board_wf (set_edges s e).
Proof. intros [H1 H2 H3 H4 H5] He. by split. Qed.

Lemma set_field_value_wf p id f v :
  board_wf (m_state p) → board_wf (m_state (InMemory.set_field_value p id f v).1).
Proof.
  intros Hw. unfold InMemory.set_field_value, locked. destruct (m_poisoned p); [done|].
  destruct (negb (contains_key _ id)) eqn:Ek; [done|]. apply contains_key_true in Ek.
  fold (declared (m_fields (m_state p)) f).
  destruct (declared _ f) as [known|] eqn:Ef; [|done].
  destruct (bool_decide_reflect (bf_kind known = value_kind v)) as [Hk|]; [|done]. cbn [negb fst m_state].
  destruct Hw as [H1 H2 H3 H4 H5]. split; try done.
  cbn [m_items m_fields m_field_values]. intros j g w. rw lookup_insert. case_decide as Hd; [|apply H3].
  injection Hd as <- <-. intros [= <-]. split; [done|]. rw Ef. cbn. by rw Hk.
Qed.

Lemma add_cross_reference_wf p from to :
  board_wf (m_state p) → board_wf (m_state (InMemory.add_cross_reference p from to).1).
Proof.
  intros Hw. unfold InMemory.add_cross_reference, locked. destruct (m_poisoned p); [done|].
  destruct (negb (contains_key _ from)) eqn:Ek; [done|]. apply contains_key_true in Ek. cbn [fst m_state].
  destruct Hw as [H1 H2 H3 H4 H5]. split; try done.
  cbn [m_items m_cross_references]. intros j l. rw lookup_insert. case_decide as Hd; [|apply H5].
  subst j. intros [= <-]. split; [done|].
  assert (NoDup (xr_to <$> default [] (m_cross_references (m_state p) !! from))
    ∧ Forall (λ r, xr_from r = from) (default [] (m_cross_references (m_state p) !! from))) as [Hn Hf].
  { destruct (m_cross_references (m_state p) !! from) as [l|] eqn:El; cbn [default from_option id];
      [by destruct (H5 _ _ El)|]. split; [apply NoDup_nil_2|done]. }
  destruct (existsb _ _) eqn:Ee; [done|]. rw fmap_app. split.
  - apply NoDup_app. split_and!; [done| |apply NoDup_singleton].
    intros x Hx Hs%list_elem_of_singleton. cbn [xr_to] in Hs. subst x.
    apply not_true_iff_false in Ee. apply Ee, existsb_exists.
    apply list_elem_of_fmap in Hx as (r & Hx & Hr). exists r. split; [by apply list_elem_of_In|].
    by apply bool_decide_eq_true_2.
  - apply Forall_app. split; [done|]. by repeat constructor.
Qed.

Lemma set_item_status_wf p id st :
  board_wf (m_state p) → board_wf (m_state (InMemory.set_item_status p id st).1).
Proof.
  intros Hw. unfold InMemory.set_item_status, locked. destruct (m_poisoned p); [done|].
  destruct (negb (contains_key _ id)); [done|].
  destruct (existsb _ _) eqn:Ee; [|done]. cbn [negb]. destruct (m_items (m_state p) !! id) as [i|] eqn:Ei; [|done].
  cbn [fst m_state]. apply insert_item_wf; [done|by eapply wf_keys in Ei|]. right. cbn [bi_status].
  apply existsb_exists in Ee as (known & Hin & Hn%bool_decide_eq_true). subst st.
  apply list_elem_of_fmap_2. by apply list_elem_of_In.
Qed.

Lemma exec_wf (p : InMemoryBoardProvider) o :
  board_wf (m_state p) →
  board_wf (m_state (exec p o).1) ∧ m_fields (m_state (exec p o).1) = m_fields (m_state p).
Proof.
  intros Hw. assert (∀ {A} op (f : BoardState → result A BoardContractError),
    m_state (locked p op (λ s, (s, f s))).1 = m_state p) as Hread.
  { intros A op f. unfold locked. by destruct (m_poisoned p). }
  destruct o; unfold answered; cbn [exec InMemory_provider fst BoardContract.item BoardContract.items
    BoardContract.create_item BoardContract.update_item_body BoardContract.statuses
    BoardContract.set_item_status BoardContract.fields BoardContract.field_value BoardContract.set_field_value
    BoardContract.dependency_edges BoardContract.add_dependency_edge BoardContract.remove_dependency_edge
    BoardContract.cross_references BoardContract.add_cross_reference BoardContract.search].
  - unfold InMemory.item. by rw Hread.
  - unfold InMemory.items. by rw Hread.
  - unfold InMemory.create_item, locked. destruct (m_poisoned p); [done|]. cbv zeta.
    destruct (BoardItemId_new _) eqn:En; cbn [fst m_state]; [|by destruct Hw; split].
    split; [|done]. apply (insert_item_wf (m_state p)); [exact Hw|done|by left].
  - unfold InMemory.update_item_body, locked. destruct (m_poisoned p); [done|].
    destruct (m_items (m_state p) !! id) as [i|] eqn:Ei; [|done]. cbn [fst m_state]. split; [|done].
    apply insert_item_wf; [done|by eapply wf_keys in Ei|by eapply wf_status in Ei].
  - unfold InMemory.statuses. by rw Hread.
  - split; [by apply set_item_status_wf|]. unfold InMemory.set_item_status, locked. by repeat case_match; simplify_eq.
  - unfold InMemory.fields. by rw Hread.
  - unfold InMemory.field_value, locked. repeat case_match; by simplify_eq.
  - split; [by apply set_field_value_wf|]. unfold InMemory.set_field_value, locked. by repeat case_match; simplify_eq.
  - unfold InMemory.dependency_edges. by rw Hread.
  - unfold InMemory.add_dependency_edge, locked. destruct (m_poisoned p); [done|].
    destruct (unknown_endpoint _ _ _) eqn:Eu; [done|]. apply unknown_endpoint_None in Eu as [Ha Hb].
    destruct (bool_decide _); [done|]. cbn [fst m_state]. split; [|done]. apply set_edges_wf; [done|].
    intros a b [[= -> ->]%elem_of_singleton|Hab]%elem_of_union; [done|]. by eapply wf_edges.
  - unfold InMemory.remove_dependency_edge, locked. destruct (m_poisoned p); [done|].
    destruct (unknown_endpoint _ _ _) eqn:Eu; [done|]. cbn [fst m_state]. split; [|done].
    apply set_edges_wf; [done|]. intros a b [Hab _]%elem_of_difference. by eapply wf_edges.
  - unfold InMemory.cross_references, locked. repeat case_match; by simplify_eq.
  - split; [by apply add_cross_reference_wf|]. unfold InMemory.add_cross_reference, locked.
    by repeat case_match; simplify_eq.
  - unfold InMemory.search. by rw Hread.
Qed.

(** C39. The reference board stays well typed under every sequence of contract
    calls: items sit under their own id and in a known (or no) status, every
    stored field value belongs to a known item and has the kind its field
    declares, edges join known items, references start at known items (what
    they point at is an opaque string nothing checks) and no reference is
    stored twice; so a field read never returns a value of another kind than
    the field's declaration, whatever was written before. *)
Theorem board_well_typed (p : InMemoryBoardProvider) (ops : list BoardOp) :
  board_wf (m_state p) →
  let q := (exec_all p ops).1 in
  board_wf (m_state q)
  ∧ ∀ id f v, (BoardContract.field_value q id f).2 = Ok (Some v) →
      bf_kind <$> declared (m_fields (m_state p)) f = Some (value_kind v).
Proof.
  intros Hw. cbv zeta.
  assert (board_wf (m_state (exec_all p ops).1)
    ∧ m_fields (m_state (exec_all p ops).1) = m_fields (m_state p)) as [Hq Hf].
  { revert p Hw. induction ops as [|o ops IH]; intros p Hw; cbn [exec_all]; [done|].
    destruct (exec_wf p o Hw) as [Hw1 Hf1]. destruct (exec p o) as [p1 r]. cbn [fst] in *.
    destruct (IH p1 Hw1) as [Hw2 Hf2]. destruct (exec_all p1 ops) as [p2 rs]. cbn [fst] in *.
    by rw Hf2 Hf1. }
  split; [done|]. intros id f v Hv. rw -Hf. revert Hv. generalize (exec_all p ops).1 as q, Hq.
  intros q Hwq. cbn [BoardContract.field_value InMemory_provider]. unfold InMemory.field_value, locked.
  destruct (m_poisoned q); [done|]. destruct (negb _); [done|]. destruct (negb _); [done|]. cbn [snd].
  intros [= Hv]. by eapply wf_values in Hv as [_ ?].
Qed.
End typed.

(** ** Examples *)

Definition example_setup (s : InMemory.BoardState) : InMemory.BoardState :=
  InMemory.setup_edge (lit "item-1") (lit "item-2")
    (InMemory.setup_item (lit "item-2") BugItem (lit "Crash") [] (lit "Todo") []
       (InMemory.setup_item (lit "item-1") TaskItem (lit "Parser") (lit "Fix it") (lit "Todo")
          [(lit "Priority", SingleSelect (lit "P0"))]
          (InMemory.setup_field (lit "Priority") SingleSelectKind
             (InMemory.setup_status (lit "Done") (InMemory.setup_status (lit "Todo") s))))).

Definition example_board : InMemory.InMemoryBoardProvider := InMemory.InMemory_new example_setup.

Lemma example_board_wf : board_wf (InMemory.m_state example_board).
Proof.
  split.
  - apply (map_Forall_to_list (λ id i, bi_id i = id)). vm_compute. repeat constructor.
  - apply (map_Forall_to_list (λ id i, bi_status i = [] ∨ bi_status i ∈ _)). vm_compute.
    repeat constructor; right; left.
  - intros id f v Hv. revert id f v Hv.
    assert (map_Forall (λ k v, is_Some (InMemory.m_items (InMemory.m_state example_board) !! k.1)
      ∧ bf_kind <$> declared (InMemory.m_fields (InMemory.m_state example_board)) k.2 = Some (value_kind v))
      (InMemory.m_field_values (InMemory.m_state example_board))) as Hm.
    { apply map_Forall_to_list. vm_compute. repeat constructor. by eexists. }
    intros id f v Hv. exact (Hm (id, f) v Hv).
  - intros a b Hab.
    assert ((a, b) ∈ elements (InMemory.m_edges (InMemory.m_state example_board))) as He by by apply elem_of_elements.
    vm_compute in He. apply list_elem_of_singleton in He as [= -> ->]. split; vm_compute; by eexists.
  - intros id l Hl. by vm_compute in Hl.
Qed.

Lemma board_well_typed_witness :
  let q := (exec_all example_board
              [OpSetFieldValue (lit "item-2") (lit "Priority") (NumberValue 3);
               OpSetFieldValue (lit "item-2") (lit "Priority") (SingleSelect (lit "P1"))]).1 in
  (field_value q (lit "item-2") (lit "Priority")).2 = Ok (Some (SingleSelect (lit "P1")))
  ∧ board_wf (InMemory.m_state q).
Proof.
  split; [by vm_compute|]. exact (proj1 (board_well_typed example_board _ example_board_wf)).
Defined.

Lemma cached_board_transparent_witness :
  (exec_all (H := Cache.CachedBoard_provider (λ n, n)) (Cache.CachedBoard_new example_board)
     [OpSetStatus (lit "item-1") (lit "Done"); OpSetStatus (lit "item-1") (lit "Lost")]).2
  = [RUnit (Ok tt); RUnit (Err (StatusNotFound (lit "Lost")))].
Proof.
  rw (proj1 (cached_board_transparent (λ n, n)
    [OpSetStatus (lit "item-1") (lit "Done"); OpSetStatus (lit "item-1") (lit "Lost")] example_board)).
  by vm_compute.
Defined.

(** A board someone else also works on: a card moved to [Done] is at once
    moved back. *)
Definition drifting_provider : BoardProvider InMemory.InMemoryBoardProvider := {|
  item := InMemory.item;
  items := InMemory.items;
  create_item := InMemory.create_item;
  update_item_body := InMemory.update_item_body;
  statuses := InMemory.statuses;
  set_item_status p id s :=
    let@ p, _u := InMemory.set_item_status p id s in InMemory.set_item_status p id (lit "Todo");
  fields := InMemory.fields;
  field_value := InMemory.field_value;
  set_field_value := InMemory.set_field_value;
  dependency_edges := InMemory.dependency_edges;
  add_dependency_edge := InMemory.add_dependency_edge;
  remove_dependency_edge := InMemory.remove_dependency_edge;
  cross_references := InMemory.cross_references;
  add_cross_reference := InMemory.add_cross_reference;
  search := InMemory.search;
|}.

(** The id is not reserved: a seeded [item-1] is overwritten by the first
    creation. *)
Lemma create_item_overwrites :
  bi_title <$> InMemory.m_items (InMemory.m_state example_board) !! lit "item-1" = Some (lit "Parser")
  ∧ let '(p, x) := create_item example_board BugItem (lit "New") [] in
    x = Ok (lit "item-1") ∧ bi_title <$> InMemory.m_items (InMemory.m_state p) !! lit "item-1" = Some (lit "New")
    ∧ size (InMemory.m_items (InMemory.m_state p)) = 2%nat.
Proof. by vm_compute. Qed.

Lemma cached_write_board_wins_witness :
  ∃ c', exec (H := Cache.CachedBoard_provider (H := drifting_provider) (λ n, n))
          (Cache.CachedBoard_new example_board) (OpSetStatus (lit "item-1") (lit "Done")) = (c', RUnit (Ok tt))
  ∧ ∃ actual, holds c' (lit "item-1") actual
    ∧ Cache.pending_events c' = divergences None (OpSetStatus (lit "item-1") (lit "Done")) actual None.
Proof.
  destruct (exec (H := Cache.CachedBoard_provider (H := drifting_provider) (λ n, n))
    (Cache.CachedBoard_new example_board) (OpSetStatus (lit "item-1") (lit "Done"))) as [c' x] eqn:E.
  assert (x = RUnit (Ok tt)) as ->.
  { change x with (c', x).2. rw -E. by vm_compute. }
  exists c'. split; [done|].
  destruct (cached_write_board_wins (H := drifting_provider) (λ n, n) (Cache.CachedBoard_new example_board)
    (OpSetStatus (lit "item-1") (lit "Done")) (lit "item-1") c' eq_refl eq_refl E)
    as (p1 & p2 & actual & value & _ & Hh & He & _).
  exists actual. split; [exact Hh|exact He].
Defined.
