(* ===== verification/BoardClient.v ===== *)
(** * The GitHub Projects board client

    [crates/orchestraitor-board]: [client.rs] (queries, pagination, verified
    writes, the intake attach), [cache.rs] (the node-id cache) and [auth.rs].

    The environment is any type [S] with the operations of [GitHub]: the token
    source, the HTTP exchange, the process environment and the cache file.
    Each answers as it likes.  [serde_json] is a set of parameters: the
    envelope parser, the decoder of each query's [data] and the codec of the
    cache file.  A [Request] is a GraphQL operation with its variables and the
    shape its answer is decoded to; [sent] logs every request that left, with
    its outcome. *)

From S2P Require Import Prelude BTree Text Board.

(** ** Node ids and their cache file *)

Record FieldNodeIds := MkFieldNodeIds { field_id : rstr; f_options : gmap rstr rstr }.
Record ProjectNodeIds := MkProjectNodeIds { project_id : rstr; p_fields : gmap rstr FieldNodeIds }.
Record NodeIdCacheFile := MkCacheFile { cf_version : N; cf_projects : gmap rstr ProjectNodeIds }.

Definition CACHE_FORMAT_VERSION : N := 1.
Definition NodeIdCacheFile_default : NodeIdCacheFile := MkCacheFile CACHE_FORMAT_VERSION ∅.

Definition cache_key (organization : rstr) (number : N) : rstr := organization ++ lit "/" ++ dec number.

Definition cache_project (c : NodeIdCacheFile) (organization : rstr) (number : N) : option ProjectNodeIds :=
  cf_projects c !! cache_key organization number.

Definition cache_upsert (c : NodeIdCacheFile) (organization : rstr) (number : N) (ids : ProjectNodeIds)
    : NodeIdCacheFile :=
  MkCacheFile (cf_version c) (<[cache_key organization number := ids]> (cf_projects c)).

(** ** Requests and answers *)

Inductive Request :=
| QProject (org : rstr) (num : N)
| QFields (id : rstr)
| QItems (id : rstr) (after : option rstr)
| QFindItem (owner name : rstr) (number : N)
| QFindContent (owner name : rstr) (number : N)
| QIssueBody (owner name : rstr) (number : N)
| QIssueTypes (org name : rstr)
| QLabel (owner name label : rstr)
| QRepositoryId (owner name : rstr)
| QReadBack (id name : rstr)
| QItemFieldValues (id : rstr) (first : N)
| MUpdateField (project item field option : rstr)
| MAddItem (project content : rstr)
| MSetIssueType (issue type : rstr)
| MCreateLabel (repository label : rstr)
| MAddLabels (labelable : rstr) (labels : list rstr).

Definition is_mutation (q : Request) : bool :=
  match q with
  | MUpdateField _ _ _ _ | MAddItem _ _ | MSetIssueType _ _ | MCreateLabel _ _ | MAddLabels _ _ => true
  | _ => false
  end.

Record FieldNode := MkFieldNode {
  fn_id : option rstr;
  fn_name : option rstr;
  fn_options : option (list (rstr * rstr));  (* name, id *)
}.

(** An item of an issue: its id and the id of its project. *)
Definition ProjectItemRef : Type := rstr * rstr.

Record IssueWithContent := MkIssueWithContent {
  iw_id : rstr;
  iw_type : option rstr;
  iw_project_items : Connection ProjectItemRef;
}.

Record IssueBody := MkIssueBody { ib_title : option rstr; ib_body : rstr }.
Record IssueTypeNode := MkIssueTypeNode { it_id : option rstr; it_name : option rstr }.

(** The decoded [data] of each operation; a struct with one optional field is
    the option, a mutation whose answer is ignored has none. *)
Definition reply (q : Request) : Type :=
  match q with
  | QProject _ _ => option (option rstr)
  | QFields _ => option (list FieldNode)
  | QItems _ _ => option ItemPage
  | QFindItem _ _ _ => option (option (Connection ProjectItemRef))
  | QFindContent _ _ _ => option (option IssueWithContent)
  | QIssueBody _ _ _ => option (option IssueBody)
  | QIssueTypes _ _ =>
      option (option (option (list IssueTypeNode))) * option (option (option (list IssueTypeNode)))
  | QLabel _ _ _ => option (option (option rstr))
  | QRepositoryId _ _ => option (option rstr)
  | QReadBack _ _ => option (option (option rstr))
  | QItemFieldValues _ _ => option (Connection FieldValue)
  | MAddItem _ _ => option (option rstr)
  | MCreateLabel _ _ => option (option (option rstr))
  | MUpdateField _ _ _ _ | MSetIssueType _ _ | MAddLabels _ _ => unit
  end.

(** The context string of the decoding error. *)
Definition context (q : Request) (single_select : bool) : rstr :=
  match q with
  | QProject _ _ => lit "project id resolution"
  | QFields _ => lit "field id resolution"
  | QItems _ _ => lit "board items query"
  | QFindItem _ _ _ | QFindContent _ _ _ => lit "issue lookup"
  | QIssueBody _ _ _ => lit "issue body fetch"
  | QIssueTypes _ _ => lit "issue type resolution"
  | QLabel _ _ _ => lit "label resolution"
  | QRepositoryId _ _ => lit "repository id"
  | QReadBack _ _ => if single_select then lit "single-select read-back" else lit "status read-back"
  | QItemFieldValues _ _ => lit "item field values"
  | MAddItem _ _ => lit "project item add"
  | MCreateLabel _ _ => lit "label create"
  | MUpdateField _ _ _ _ | MSetIssueType _ _ | MAddLabels _ _ => []
  end.

(** ** The environment *)

Record HttpReply := MkHttpReply {
  hr_status : N;
  hr_content_length : option N;
  hr_bytes : option (list N);   (* [None] when reading the body failed *)
}.

Inductive FileRead := FileMissing | FileUnreadable | FileBytes (bytes : list N).

Class GitHub (S : Type) := {
  env_var : S → rstr → S * option rstr;
  http_post : S → rstr → Request → S * option HttpReply;
  read_file : S → rstr → S * FileRead;
  write_file : S → rstr → list N → S * bool;
}.

Record GraphQlEnvelope (Json : Type) := MkEnvelope { e_errors : option (list rstr); e_data : option Json }.
Arguments MkEnvelope {Json}.
Arguments e_errors {Json}.
Arguments e_data {Json}.

Definition MAX_RESPONSE_BYTES : N := 8 * 1024 * 1024.

Record MoveOutcome := MkMoveOutcome { mo_number : N; mo_item_id : rstr; mo_status : rstr }.
Record IssueContent := MkIssueContent { isc_title : rstr; isc_body : rstr }.
Record IntakeFields := MkIntakeFields { in_item_type : rstr; in_status : rstr; in_priority : rstr; in_label : rstr }.

(** [split_repo]. *)
Definition split_repo (repo : rstr) : option (rstr * rstr) :=
  match split_once 47 repo with
  | Some (owner, name) =>
      if is_empty owner || is_empty name || bool_decide (47 ∈ name) then None else Some (owner, name)
  | None => None
  end.

(** ** The client *)

Section client.
Context {S : Type} `{GitHub S} {Json : Type}.
Context (from_slice : list N → option (GraphQlEnvelope Json)) (decode_json : ∀ q, Json → option (reply q))
  (parse_cache : list N → option NodeIdCacheFile) (print_cache : NodeIdCacheFile → list N)
  (header_ok : rstr → bool) (to_lowercase : rstr → rstr).
Context (uri : SecretUri) (cache_path : option rstr).

(** The environment and the log of the requests sent with what came back. *)
Record World := MkWorld { w_env : S; sent : list (Request * result Json BoardError) }.

Definition api (A : Type) : Type := World → World * result A BoardError.

Definition ret {A} (a : A) : api A := λ w, (w, Ok a).
Definition throw {A} (e : BoardError) : api A := λ w, (w, Err e).
Definition bind {A B} (m : api A) (k : A → api B) : api B :=
  λ w, match m w with (w', Ok a) => k a w' | (w', Err e) => (w', Err e) end.
Definition lift {A} (x : result A BoardError) : api A := λ w, (w, x).

#[local] Notation "'let*' x ':=' c 'in' k" := (bind c (fun x => k))
  (at level 10, x pattern, c at level 200, k at level 200).
#[local] Notation "c ;; k" := (bind c (fun _ => k)) (at level 100, k at level 200, right associativity).

Definition ask {A} (f : S → S * A) : api A :=
  λ w, let '(s, a) := f (w_env w) in (MkWorld s (sent w), Ok a).

(** [SecretUriAuth::bearer_token]. *)
Definition bearer_token : api rstr :=
  match su_store uri with
  | Env =>
      let* value := ask (λ s, env_var s (su_id uri)) in
      match value with
      | Some v => if is_empty v then throw (AuthEnvVar (su_id uri)) else ret v
      | None => throw (AuthEnvVar (su_id uri))
      end
  | Keyring => throw AuthKeyringUnavailable
  end.

Definition bearer_header (token : rstr) : result rstr BoardError :=
  let value := lit "Bearer " ++ token in
  if header_ok value then Ok value else Err AuthTokenInvalid.

(** What [execute] makes of an HTTP answer. *)
Definition interpret (r : HttpReply) : result Json BoardError :=
  if negb ((200 <=? hr_status r) && (hr_status r <=? 299)) then Err (HttpStatus (hr_status r))
  else if from_option (λ n, MAX_RESPONSE_BYTES <? n) false (hr_content_length r) then
    Err (ResponseTooLarge MAX_RESPONSE_BYTES)
  else match hr_bytes r with
       | None => Err TransportFailed
       | Some bytes =>
           if MAX_RESPONSE_BYTES <? len bytes then Err (ResponseTooLarge MAX_RESPONSE_BYTES)
           else match from_slice bytes with
                | None => Err (ResponseShape (lit "envelope decoding"))
                | Some envelope =>
                    match e_errors envelope with
                    | Some (e :: errors) => Err (GraphQl (e :: errors))
                    | _ =>
                        match e_data envelope with
                        | Some data => Ok data
                        | None => Err (GraphQl [lit "response carried errors: no data payload"])
                        end
                    end
                end
       end.

Definition execute (q : Request) : api Json :=
  let* token := bearer_token in
  let* header := lift (bearer_header token) in
  λ w, let '(s, answer) := http_post (w_env w) header q in
       let x := match answer with None => Err TransportFailed | Some r => interpret r end in
       (MkWorld s (sent w ++ [(q, x)]), x).

(** [execute] then [decode]. *)
Definition query (q : Request) (single_select : bool) : api (reply q) :=
  let* data := execute q in
  match decode_json q data with
  | Some r => ret r
  | None => throw (ResponseShape (context q single_select))
  end.

(** *** Node ids *)

Definition cache_load (path : rstr) : api NodeIdCacheFile :=
  let* read := ask (λ s, read_file s path) in
  match read with
  | FileMissing => ret NodeIdCacheFile_default
  | FileUnreadable => throw (CacheIo path)
  | FileBytes bytes =>
      ret (match parse_cache bytes with
           | Some cache => if cf_version cache =? CACHE_FORMAT_VERSION then cache else NodeIdCacheFile_default
           | None => NodeIdCacheFile_default
           end)
  end.

Definition cache_store (path : rstr) (cache : NodeIdCacheFile) : api unit :=
  let* ok := ask (λ s, write_file s path (print_cache cache ++ [10])) in
  if (ok : bool) then ret tt else throw (CacheIo path).

(** One resolved field; a node without id or name is skipped. *)
Definition insert_field (fields : gmap rstr FieldNodeIds) (node : FieldNode) : gmap rstr FieldNodeIds :=
  match fn_id node, fn_name node with
  | Some id, Some name =>
      <[name := MkFieldNodeIds id
                  (foldl (λ m o, <[o.1 := o.2]> m) ∅ (default [] (fn_options node)))]> fields
  | _, _ => fields
  end.

Definition resolve_project (config : BoardProjectConfig) : api ProjectNodeIds :=
  let missing := ProjectNotFound (organization config) (project_number config) in
  let* response := query (QProject (organization config) (project_number config)) false in
  match mjoin response with
  | None => throw missing
  | Some id =>
      let* response := query (QFields id) false in
      match response with
      | None => throw missing
      | Some nodes => ret (MkProjectNodeIds id (foldl insert_field ∅ nodes))
      end
  end.

Definition contains_field (ids : ProjectNodeIds) (name : rstr) : bool :=
  bool_decide (is_Some (p_fields ids !! name)).

(** The entry the cache may answer with. *)
Definition usable (config : BoardProjectConfig) (cache : NodeIdCacheFile) : option ProjectNodeIds :=
  match cache_project cache (organization config) (project_number config) with
  | Some ids =>
      if contains_field ids (ready_field config) && contains_field ids (target_field config)
      then Some ids else None
  | None => None
  end.

Definition resolved_ids (config : BoardProjectConfig) : api ProjectNodeIds :=
  let* hit := (match cache_path with
               | Some path => let* cache := cache_load path in ret (usable config cache)
               | None => ret None
               end) in
  match hit with
  | Some ids => ret ids
  | None =>
      let* ids := resolve_project config in
      (match cache_path with
       | Some path =>
           let* cache := cache_load path in
           cache_store path (cache_upsert cache (organization config) (project_number config) ids)
       | None => ret tt
       end) ;;
      ret ids
  end.

(** *** Reads *)

(** The page loop of [item_facts]. *)
Fixpoint page_loop (fuel : nat) (config : BoardProjectConfig) (id : rstr) (after : option rstr)
    (acc : list ItemFacts * list SkipWarning) : api (option (list ItemFacts * list SkipWarning)) :=
  match fuel with
  | O => ret None
  | Datatypes.S fuel =>
      let* response := query (QItems id after) false in
      match response with
      | None => throw (ProjectNotFound (organization config) (project_number config))
      | Some page =>
          let acc := read_items to_lowercase config (ip_nodes page) acc in
          if negb (has_next_page (page_info page)) then ret (Some acc)
          else match end_cursor (page_info page) with
               | None => throw (TruncatedConnection (lit "items"))
               | Some cursor => page_loop fuel config id (Some cursor) acc
               end
      end
  end.

(** [None] when the server still offers a page after [fuel] of them. *)
Definition item_facts (fuel : nat) (config : BoardProjectConfig)
    : api (option (list ItemFacts * list SkipWarning)) :=
  let* ids := resolved_ids config in
  page_loop fuel config (project_id ids) None ([], []).

Definition ready_items (fuel : nat) (config : BoardProjectConfig)
    : api (option (list ReadyItem * list SkipWarning)) :=
  let* facts := item_facts fuel config in
  ret ((λ '(all, warnings), (ready_queue all config, warnings)) <$> facts).

Definition issue_body (repo : rstr) (number : N) : api IssueContent :=
  match split_once 47 repo with
  | None => throw (IssueNotFound number)
  | Some (owner, name) =>
      if is_empty owner || is_empty name || bool_decide (47 ∈ name) then throw (IssueNotFound number)
      else
        let* response := query (QIssueBody owner name number) false in
        match mjoin response with
        | None => throw (IssueNotFound number)
        | Some issue => ret (MkIssueContent (default [] (ib_title issue)) (ib_body issue))
        end
  end.

(** The repository walk of [find_item]: the matches and whether an issue was
    seen. *)
Fixpoint find_walk (project : rstr) (number : N) (repos : list rstr)
    (matches : list (rstr * rstr)) (seen : bool) : api (list (rstr * rstr) * bool) :=
  match repos with
  | [] => ret (matches, seen)
  | repo :: repos =>
      match split_once 47 repo with
      | None => find_walk project number repos matches seen
      | Some (owner, name) =>
          let* response := query (QFindItem owner name number) false in
          match mjoin response with
          | None => find_walk project number repos matches seen
          | Some items =>
              if conn_truncated items then throw (TruncatedConnection (lit "projectItems"))
              else
                find_walk project number repos
                  (matches ++ ((λ i, (repo, i.1)) <$>
                     List.filter (λ i, bool_decide (i.2 = project)) (conn_nodes items))) true
          end
      end
  end.

Definition find_item (config : BoardProjectConfig) (ids : ProjectNodeIds) (number : N) : api rstr :=
  let* found := find_walk (project_id ids) number (repos config) [] false in
  let '(matches, seen) := found in
  match matches with
  | _ :: _ :: _ => throw (AmbiguousItemReference number matches.*1)
  | [(_, item_id)] => ret item_id
  | [] => if seen then throw (ItemNotOnBoard number) else throw (IssueNotFound number)
  end.

(** *** Writes *)

Definition move_item (config : BoardProjectConfig) (number : N) (status : rstr) : api MoveOutcome :=
  let* ids := resolved_ids config in
  match p_fields ids !! ready_field config with
  | None => throw (FieldNotFound (ready_field config))
  | Some field =>
      match f_options field !! status with
      | None => throw (OptionNotFound (ready_field config) status)
      | Some option_id =>
          let* item_id := find_item config ids number in
          execute (MUpdateField (project_id ids) item_id (field_id field) option_id) ;;
          let* response := query (QReadBack item_id (ready_field config)) false in
          if negb (bool_decide (mjoin (mjoin response) = Some status)) then
            throw (StatusVerification (ready_field config) status)
          else ret (MkMoveOutcome number item_id status)
      end
  end.

Definition current_single_selects (item_id : rstr) : api (gmap rstr rstr) :=
  let* response := query (QItemFieldValues item_id 25) false in
  match response with
  | None => throw (ResponseShape (lit "item field values"))
  | Some connection =>
      if conn_truncated connection then throw (TruncatedConnection (lit "fieldValues"))
      else ret (foldl (λ m v, match mjoin (fv_field v), fv_name v with
                              | Some field, Some name => <[field := name]> m
                              | _, _ => m
                              end) ∅ (conn_nodes connection))
  end.

Definition set_single_select (ids : ProjectNodeIds) (item_id field_name value : rstr) : api unit :=
  match p_fields ids !! field_name with
  | None => throw (FieldNotFound field_name)
  | Some field =>
      match f_options field !! value with
      | None => throw (OptionNotFound field_name value)
      | Some option_id =>
          execute (MUpdateField (project_id ids) item_id (field_id field) option_id) ;;
          let* response := query (QReadBack item_id field_name) true in
          if negb (bool_decide (mjoin (mjoin response) = Some value)) then
            throw (StatusVerification field_name value)
          else ret tt
      end
  end.

Definition set_issue_type (repo issue_id type_name : rstr) : api unit :=
  match split_repo repo with
  | None => throw (IssueNotFound 0)
  | Some (owner, name) =>
      let* response := query (QIssueTypes owner name) false in
      let nodes := default [] (mjoin (mjoin response.1)) ++ default [] (mjoin (mjoin response.2)) in
      match List.find (λ n, bool_decide (it_name n = Some type_name)) nodes ≫= it_id with
      | None => throw (IssueTypeNotFound type_name)
      | Some type_id => execute (MSetIssueType issue_id type_id) ;; ret tt
      end
  end.

Definition apply_label (repo issue_id label_name : rstr) : api unit :=
  match split_repo repo with
  | None => throw (IssueNotFound 0)
  | Some (owner, name) =>
      let* response := query (QLabel owner name label_name) false in
      let* label_id :=
        (match mjoin (mjoin response) with
         | Some label_id => ret label_id
         | None =>
             let* response := query (QRepositoryId owner name) false in
             match mjoin response with
             | None => throw (IssueNotFound 0)
             | Some repository_id =>
                 let* response := query (MCreateLabel repository_id label_name) false in
                 match mjoin (mjoin response) with
                 | None => throw (ResponseShape (lit "label create"))
                 | Some label_id => ret label_id
                 end
             end
         end) in
      execute (MAddLabels issue_id [label_id]) ;; ret tt
  end.

(** The intake attach: the add of a new item, or the fields an attached one
    already has. *)
Definition attach_target (ids : ProjectNodeIds) (issue : IssueWithContent)
    : api (rstr * option (gmap rstr rstr)) :=
  match List.find (λ i, bool_decide (i.2 = project_id ids)) (conn_nodes (iw_project_items issue)) with
  | Some (item_id, _) =>
      let* fields := current_single_selects item_id in ret (item_id, Some fields)
  | None =>
      let* response := query (MAddItem (project_id ids) (iw_id issue)) false in
      match mjoin response with
      | None => throw (ResponseShape (lit "project item add"))
      | Some item_id => ret (item_id, None)
      end
  end.

(** A field is written on a new item, or where it is unset. *)
Definition needs (current : option (gmap rstr rstr)) (field : rstr) : bool :=
  match current with
  | None => true
  | Some fields => negb (bool_decide (is_Some (fields !! field)))
  end.

Definition when (b : bool) (m : api unit) : api unit := if b then m else ret tt.

Definition attach_issue (config : BoardProjectConfig) (repo : rstr) (number : N) (fields : IntakeFields)
    : api bool :=
  let* ids := resolved_ids config in
  match split_repo repo with
  | None => throw (IssueNotFound number)
  | Some (owner, name) =>
      let* response := query (QFindContent owner name number) false in
      match mjoin response with
      | None => throw (IssueNotFound number)
      | Some issue =>
          if conn_truncated (iw_project_items issue) then throw (TruncatedConnection (lit "projectItems"))
          else
            let* target := attach_target ids issue in
            let '(item_id, current) := target in
            when (needs current (ready_field config))
              (set_single_select ids item_id (ready_field config) (in_status fields)) ;;
            when (needs current (priority_field config))
              (set_single_select ids item_id (priority_field config) (in_priority fields)) ;;
            when (match iw_type issue with Some t => is_empty t | None => true end)
              (set_issue_type repo (iw_id issue) (in_item_type fields)) ;;
            apply_label repo (iw_id issue) (in_label fields) ;;
            ret (match current with None => true | Some _ => false end)
      end
  end.

(** ** Reasoning about what was sent *)

Abbreviation exchange := (Request * result Json BoardError)%type.

(** Whatever the environment does, [m] extends the log by some [l] and returns
    some [x] with [Q l x]. *)
Definition wpl {A} (m : api A) (Q : list exchange → result A BoardError → Prop) : Prop :=
  ∀ w w' x, m w = (w', x) → ∃ l, sent w' = sent w ++ l ∧ Q l x.

Lemma wpl_mono {A} (m : api A) (Q Q' : list exchange → result A BoardError → Prop) :
  wpl m Q → (∀ l x, Q l x → Q' l x) → wpl m Q'.
Proof. intros Hm HQ w w' x E. destruct (Hm w w' x E) as (l & ? & ?). eauto. Qed.

Lemma wpl_lift {A} (x : result A BoardError) (Q : list exchange → result A BoardError → Prop) :
  Q [] x → wpl (lift x) Q.
Proof. intros HQ w w' y [= <- <-]. exists []. by rw app_nil_r. Qed.

Lemma wpl_ret {A} (a : A) (Q : list exchange → result A BoardError → Prop) : Q [] (Ok a) → wpl (ret a) Q.
Proof. apply (wpl_lift (Ok a)). Qed.

Lemma wpl_throw {A} e (Q : list exchange → result A BoardError → Prop) : Q [] (Err e) → wpl (throw e) Q.
Proof. apply (wpl_lift (Err e)). Qed.

Lemma wpl_bind {A B} (m : api A) (k : A → api B) Q :
  wpl m (λ l x, match x with Ok a => wpl (k a) (λ l', Q (l ++ l')) | Err e => Q l (Err e) end) →
  wpl (bind m k) Q.
Proof.
  intros Hm w w' x E. unfold bind in E. destruct (m w) as [w1 y] eqn:E1.
  destruct (Hm w w1 y E1) as (l & Hl & Hy). destruct y as [a|e].
  - destruct (Hy w1 w' x E) as (l' & Hl' & HQ). exists (l ++ l'). by rw Hl' Hl -app_assoc.
  - injection E as <- <-. eauto.
Qed.

Lemma wpl_ask {A} (f : S → S * A) Q : (∀ a, Q [] (Ok a)) → wpl (ask f) Q.
Proof.
  intros HQ w w' x E. unfold ask in E. destruct (f (w_env w)) as [s a]. injection E as <- <-.
  exists []. by rw app_nil_r.
Qed.

Lemma wpl_bearer_token Q : (∀ x, Q [] x) → wpl bearer_token Q.
Proof.
  intros HQ. unfold bearer_token. destruct (su_store uri); [by apply wpl_throw|]. apply wpl_bind, wpl_ask.
  intros [v|]; [|by apply wpl_throw]. destruct (is_empty v); [by apply wpl_throw|by apply wpl_ret].
Qed.

Lemma wpl_execute q Q : (∀ e, Q [] (Err e)) → (∀ x, Q [(q, x)] x) → wpl (execute q) Q.
Proof.
  intros HE HQ. unfold execute. apply wpl_bind, wpl_bearer_token. intros [token|e]; [|apply HE].
  apply wpl_bind, wpl_lift. destruct (bearer_header token) as [header|e]; [|apply HE].
  intros w w' x E. destruct (http_post (w_env w) header q) as [s answer]. injection E as <- <-. eauto.
Qed.

Lemma wpl_query q b Q :
  (∀ e, Q [] (Err e)) → (∀ y e, Q [(q, y)] (Err e)) →
  (∀ j r, decode_json q j = Some r → Q [(q, Ok j)] (Ok r)) → wpl (query q b) Q.
Proof.
  intros HE HE' HQ. unfold query. apply wpl_bind, wpl_execute; [done|]. intros [j|e]; [|apply HE'].
  destruct (decode_json q j) as [r|] eqn:E; [|by apply wpl_throw, HE']. by apply wpl_ret, HQ.
Qed.

(** The answer [q] got. *)
Definition answer (l : list exchange) (q : Request) (r : reply q) : Prop :=
  ∃ j, (q, Ok j) ∈ l ∧ decode_json q j = Some r.

Definition mutations (l : list exchange) : list Request := List.filter is_mutation l.*1.

Lemma mutations_app l l' : mutations (l ++ l') = mutations l ++ mutations l'.
Proof. unfold mutations. by rw fmap_app List.filter_app. Qed.

(** A request of the node-id resolution. *)
Definition is_setup (q : Request) : bool :=
  match q with QProject _ _ | QFields _ => true | _ => false end.

Definition setup_only (l : list exchange) : Prop := Forall (λ e, is_setup e.1 = true) l.

Lemma setup_only_app l l' : setup_only l → setup_only l' → setup_only (l ++ l').
Proof. intros. by apply Forall_app. Qed.

Lemma setup_no_mutations l : setup_only l → mutations l = [].
Proof.
  intros Hs. unfold mutations. apply filter_none. intros q Hq.
  apply list_elem_of_fmap in Hq as ([q' x] & -> & Hin). apply (proj1 (Forall_forall _ _) Hs) in Hin.
  by destruct q'.
Qed.

Lemma wpl_cache_load path (Q : list exchange → result NodeIdCacheFile BoardError → Prop) :
  (∀ x, Q [] x) → wpl (cache_load path) Q.
Proof.
  intros HQ. unfold cache_load. apply wpl_bind, wpl_ask. intros [| |bytes];
    [by apply wpl_ret|by apply wpl_throw|by apply wpl_ret].
Qed.

Lemma wpl_resolve_project config :
  wpl (resolve_project config) (λ l _, setup_only l).
Proof.
  unfold resolve_project. apply wpl_bind, wpl_query; try by repeat constructor.
  intros j r Hr. destruct (mjoin r) as [id|]; [|by apply wpl_throw; repeat constructor].
  apply wpl_bind, wpl_query; try by repeat constructor.
  intros j' [nodes|] Hr'; [apply wpl_ret|apply wpl_throw]; by repeat constructor.
Qed.

Lemma wpl_resolved_ids config :
  wpl (resolved_ids config)
    (λ l _, setup_only l).
Proof.
  unfold resolved_ids. apply wpl_bind. eapply (wpl_mono _ (λ l _, l = [])).
  { destruct cache_path as [path|]; [|by apply wpl_ret]. apply wpl_bind, wpl_cache_load.
    intros [c|e]; [by apply wpl_ret|done]. }
  intros l [hit|e] ->; [|constructor]. destruct hit as [ids|]; [by apply wpl_ret; repeat constructor|].
  apply wpl_bind. eapply wpl_mono; [apply wpl_resolve_project|]. intros l [ids|e] Hl; [|done].
  apply wpl_bind. eapply (wpl_mono _ (λ l _, l = [])).
  { destruct cache_path as [path|]; [|by apply wpl_ret]. apply wpl_bind, wpl_cache_load.
    intros [c|e]; [|done]. unfold cache_store. apply wpl_bind, wpl_ask. intros [|];
      [by apply wpl_ret|by apply wpl_throw]. }
  intros l' [u|e] ->; [apply wpl_ret|]; by rw !app_nil_r.
Qed.

(** *** The item of an issue *)

(** The items of [project] the answers of [l] show. *)
Definition found (project : rstr) (l : list exchange) : list rstr :=
  l ≫= λ e,
    match e.1, e.2 with
    | QFindItem o n k, Ok j =>
        match decode_json (QFindItem o n k) j with
        | Some (Some (Some items)) => (List.filter (λ i, bool_decide (i.2 = project)) (conn_nodes items)).*1
        | _ => []
        end
    | _, _ => []
    end.

Lemma found_app project l l' : found project (l ++ l') = found project l ++ found project l'.
Proof. apply bind_app. Qed.

Lemma found_lookup project o n k j (r : option (option (Connection ProjectItemRef))) :
  decode_json (QFindItem o n k) j = Some r →
  found project [(QFindItem o n k, Ok j)]
  = (if r is Some (Some items) then
       (List.filter (λ i, bool_decide (i.2 = project)) (conn_nodes items)).*1 else []).
Proof.
  intros Hr. unfold found. cbn [mbind list_bind fst snd]. rw app_nil_r. rw Hr. by destruct r as [[|]|].
Qed.

Lemma found_setup project l : setup_only l → found project l = [].
Proof.
  induction 1 as [|[q x] l Hq Hl IH]; [done|]. unfold found in *. cbn [mbind list_bind]. rw IH app_nil_r.
  by destruct q.
Qed.

(** The lookups of the configured repositories, in order. *)
Definition lookups (number : N) (rs : list rstr) : list Request :=
  omap (λ repo, match split_once 47 repo with
                | Some (owner, name) => Some (QFindItem owner name number)
                | None => None
                end) rs.

Lemma mjoin_Some2 {A} (x : option (option A)) a : mjoin x = Some a ↔ x = Some (Some a).
Proof. destruct x as [[|]|]; naive_solver. Qed.

Lemma wpl_find_walk project number rs : ∀ ms seen,
  wpl (find_walk project number rs ms seen)
    (λ l x, mutations l = [] ∧
      ∀ ms' b, x = Ok (ms', b) → ms'.*2 = ms.*2 ++ found project l ∧ l.*1 = lookups number rs).
Proof.
  induction rs as [|repo rs IH]; intros ms seen; cbn [find_walk].
  { apply wpl_ret. split; [done|]. intros ms' b [= <- <-]. by rw app_nil_r. }
  unfold lookups. cbn [omap list_omap]. destruct (split_once 47 repo) as [[owner name]|]; [|apply IH].
  apply wpl_bind, wpl_query; try done. intros j r Hr.
  match goal with |- wpl (match ?m with _ => _ end) _ => destruct m as [items|] eqn:Ei end.
  - destruct (conn_truncated items); [by apply wpl_throw|]. eapply wpl_mono; [apply IH|].
    intros l x [Hm Hx]. split; [done|]. intros ms' b ->. destruct (Hx ms' b eq_refl) as [-> Hl].
    split; [|by cbn; rw Hl]. apply mjoin_Some2 in Ei as ->.
    rw fmap_app -app_assoc found_app (found_lookup _ _ _ _ _ _ Hr) -list_fmap_compose. done.
  - eapply wpl_mono; [apply IH|]. intros l x [Hm Hx]. split; [done|]. intros ms' b ->.
    destruct (Hx ms' b eq_refl) as [-> Hl]. split; [|by cbn; rw Hl].
    rw found_app (found_lookup _ _ _ _ _ _ Hr). by destruct r as [[|]|].
Qed.

Lemma wpl_find_item config ids number :
  wpl (find_item config ids number)
    (λ l x, mutations l = [] ∧
      ∀ id, x = Ok id → found (project_id ids) l = [id] ∧ l.*1 = lookups number (repos config)).
Proof.
  unfold find_item. apply wpl_bind. eapply wpl_mono; [apply wpl_find_walk|].
  intros l [[ms b]|e] [Hm Hx]; [|done]. destruct (Hx ms b eq_refl) as [Hms Hl]. clear Hx.
  destruct ms as [|[r1 i1] [|m2 ms]].
  - destruct b; apply wpl_throw; rw app_nil_r; done.
  - apply wpl_ret. rw app_nil_r. split; [done|]. intros id [= <-]. done.
  - apply wpl_throw. rw app_nil_r. done.
Qed.

(** What a move may have sent, and what its success means. *)
Definition verified_move (config : BoardProjectConfig) (number : N) (status : rstr) (l : list exchange)
    (x : result MoveOutcome BoardError) : Prop :=
  (mutations l = [] ∨ ∃ project field option item,
     mutations l = [MUpdateField project item field option] ∧ found project l = [item]
     ∧ ∀ q, q ∈ lookups number (repos config) → q ∈ l.*1)
  ∧ ∀ o, x = Ok o →
      mo_number o = number ∧ mo_status o = status
      ∧ ∃ project field option l0 j,
          mutations l = [MUpdateField project (mo_item_id o) field option]
          ∧ l = l0 ++ [(QReadBack (mo_item_id o) (ready_field config), Ok j)]
          ∧ decode_json (QReadBack (mo_item_id o) (ready_field config)) j = Some (Some (Some (Some status))).

(** The exchanges of a move that came to its update. *)
Lemma move_exchanges config number ids field opt item l0 l1 y l2 :
  setup_only l0 → mutations l1 = [] → found (project_id ids) l1 = [item] →
  l1.*1 = lookups number (repos config) → Forall (λ e, is_mutation e.1 = false) l2 →
  found (project_id ids) l2 = [] →
  let upd := MUpdateField (project_id ids) item (field_id field) opt in
  let l := l0 ++ l1 ++ (upd, y) :: l2 in
  mutations l = [upd] ∧ found (project_id ids) l = [item] ∧ ∀ q, q ∈ lookups number (repos config) → q ∈ l.*1.
Proof.
  intros Hl0 Hm1 Hf1 Hl1 Hm2 Hf2. cbv zeta. rw !mutations_app !found_app (setup_no_mutations _ Hl0) Hm1
    (found_setup _ _ Hl0) Hf1. split_and!.
  - unfold mutations. cbn [fmap list_fmap fst List.filter is_mutation app]. f_equal. apply filter_none.
    intros q (e & -> & He)%list_elem_of_fmap. by apply (proj1 (Forall_forall _ _) Hm2).
  - change (found (project_id ids) ((?[u], y) :: l2)) with ([] ++ found (project_id ids) l2). by rw Hf2.
  - intros q Hq. rw -Hl1 in Hq. rw !fmap_app. apply elem_of_app. right. apply elem_of_app. by left.
Qed.

Lemma wpl_move_item config number status :
  wpl (move_item config number status) (verified_move config number status).
Proof.
  unfold move_item. apply wpl_bind. eapply wpl_mono; [apply wpl_resolved_ids|].
  intros l0 [ids|e] Hl0; pose proof (setup_no_mutations _ Hl0) as Hm0; [|by split; [left|]].
  destruct (p_fields ids !! ready_field config) as [field|]; [|apply wpl_throw; rw app_nil_r; by split; [left|]].
  destruct (f_options field !! status) as [opt|]; [|apply wpl_throw; rw app_nil_r; by split; [left|]].
  apply wpl_bind. eapply wpl_mono; [apply wpl_find_item|].
  intros l1 [item|e] [Hm1 Hx]; [|split; [left; by rw mutations_app Hm0 Hm1|done]].
  destruct (Hx item eq_refl) as [Hf1 Hl1]. clear Hx.
  assert (∀ y l2 e, Forall (λ e, is_mutation e.1 = false) l2 → found (project_id ids) l2 = [] →
    verified_move config number status
      (l0 ++ l1 ++ (MUpdateField (project_id ids) item (field_id field) opt, y) :: l2) (Err e)) as Herr.
  { intros y l2 e Hm2 Hf2. split; [|done]. right. exists (project_id ids), (field_id field), opt, item.
    by apply move_exchanges. }
  apply wpl_bind, wpl_execute.
  { intros e. rw app_nil_r. split; [left; by rw mutations_app Hm0 Hm1|done]. }
  intros [j|e]; [|by apply Herr]. apply wpl_bind, wpl_query.
  - intros e. rw app_nil_r. by apply Herr.
  - intros y e. by apply (Herr _ [(_, y)]); [repeat constructor|].
  - intros j' r Hr. destruct (bool_decide_reflect (mjoin (mjoin r) = Some status)) as [Hs|]; cbn [negb].
    2: { apply wpl_throw. rw app_nil_r. by apply (Herr _ [(_, Ok j')]); [repeat constructor|]. }
    apply wpl_ret. rw app_nil_r. apply mjoin_Some2, mjoin_Some2 in Hs as ->.
    assert (Forall (λ e : exchange, is_mutation e.1 = false) [(QReadBack item (ready_field config), Ok j')]) as Hm2
      by by repeat constructor.
    destruct (move_exchanges config number ids field opt item l0 l1 (Ok j) _ Hl0 Hm1 Hf1 Hl1 Hm2 eq_refl)
      as (H1 & H2 & H3).
    split; [right; by exists (project_id ids), (field_id field), opt, item|]. intros o [= <-].
    split_and!; [done..|]. exists (project_id ids), (field_id field), opt.
    eexists (l0 ++ l1 ++ [_]), j'. split_and!; [done| |done]. by rw -!app_assoc.
Qed.

(** A move is verified: [move_item] sends at most one mutation, the update of
    the one item of the project that the answers for all configured
    repositories show, and only after every repository was asked; when it
    returns success, that update was sent and the last exchange is the
    read-back that showed the requested status. *)
Theorem move_item_verified config number status w w' x :
  move_item config number status w = (w', x) →
  ∃ l, sent w' = sent w ++ l ∧ verified_move config number status l x.
Proof. apply wpl_move_item. Qed.

(** *** The intake attach *)

(** Every mutation of [m] is one [P] allows, whatever it returns. *)
Definition only {A} (m : api A) (P : Request → Prop) : Prop := wpl m (λ l _, Forall P (mutations l)).

Lemma only_bind {A B} (m : api A) (k : A → api B) P : only m P → (∀ a, only (k a) P) → only (bind m k) P.
Proof.
  intros Hm Hk. apply wpl_bind. eapply wpl_mono; [exact Hm|]. intros l [a|e] Hl; [|done].
  eapply wpl_mono; [apply Hk|]. intros l' x Hl'. rw mutations_app. by apply Forall_app.
Qed.

Lemma only_ret {A} (a : A) P : only (ret a) P.
Proof. by apply wpl_ret. Qed.

Lemma only_throw {A} e P : only (throw e : api A) P.
Proof. by apply wpl_throw. Qed.

Lemma mutations_singleton (P : Request → Prop) q x :
  (is_mutation q = true → P q) → Forall P (mutations [(q, x)]).
Proof. intros Hq. unfold mutations. cbn. destruct (is_mutation q) eqn:E; repeat constructor. by apply Hq. Qed.

Lemma only_execute q (P : Request → Prop) : (is_mutation q = true → P q) → only (execute q) P.
Proof. intros Hq. apply wpl_execute; [constructor|]. intros x. by apply mutations_singleton. Qed.

Lemma only_query q b (P : Request → Prop) : (is_mutation q = true → P q) → only (query q b) P.
Proof. intros Hq. apply wpl_query; [constructor|..]; intros; by apply mutations_singleton. Qed.

(** A mutation that completes an intake item: a field on the item of [item]
    that [current] leaves unset, the type of an issue without one, or the
    label. *)
Definition repair (config : BoardProjectConfig) (ids : ProjectNodeIds) (issue : IssueWithContent)
    (item : rstr) (current : option (gmap rstr rstr)) (m : Request) : Prop :=
  match m with
  | MUpdateField p i f _ =>
      p = project_id ids ∧ i = item
      ∧ ∃ name, (name = ready_field config ∨ name = priority_field config)
                ∧ match current with None => True | Some fields => fields !! name = None end
                ∧ field_id <$> p_fields ids !! name = Some f
  | MSetIssueType id _ => id = iw_id issue ∧ (iw_type issue = None ∨ iw_type issue = Some [])
  | MCreateLabel _ _ => True
  | MAddLabels id _ => id = iw_id issue
  | _ => False
  end.

Lemma only_set_single_select ids item name value (P : Request → Prop) :
  (∀ f o, field_id <$> p_fields ids !! name = Some f → P (MUpdateField (project_id ids) item f o)) →
  only (set_single_select ids item name value) P.
Proof.
  intros HP. unfold set_single_select. destruct (p_fields ids !! name) as [f|]; [|apply only_throw].
  destruct (f_options f !! value); [|apply only_throw]. apply only_bind; [apply only_execute; intros _; by apply HP|].
  intros _. apply only_bind; [by apply only_query|]. intros r. destruct (negb _); [apply only_throw|apply only_ret].
Qed.

Lemma only_set_issue_type repo issue name (P : Request → Prop) :
  (∀ t, P (MSetIssueType issue t)) → only (set_issue_type repo issue name) P.
Proof.
  intros HP. unfold set_issue_type. destruct (split_repo repo) as [[o n]|]; [|apply only_throw].
  apply only_bind; [by apply only_query|]. intros r. case_match; [|apply only_throw].
  apply only_bind; [by apply only_execute|]. intros _. apply only_ret.
Qed.

Lemma only_apply_label repo issue name (P : Request → Prop) :
  (∀ r l, P (MCreateLabel r l)) → (∀ ls, P (MAddLabels issue ls)) → only (apply_label repo issue name) P.
Proof.
  intros HC HA. unfold apply_label. destruct (split_repo repo) as [[o n]|]; [|apply only_throw].
  apply only_bind; [by apply only_query|]. intros r. apply only_bind.
  - case_match; [apply only_ret|]. apply only_bind; [by apply only_query|]. intros r'.
    case_match; [|apply only_throw]. apply only_bind; [by apply only_query|]. intros r''.
    case_match; [apply only_ret|apply only_throw].
  - intros id. apply only_bind; [by apply only_execute|]. intros _. apply only_ret.
Qed.

Lemma only_when b m P : (b = true → only m P) → only (when b m) P.
Proof. intros Hm. unfold when. destruct b; [by apply Hm|apply only_ret]. Qed.

(** The field writes, the type write and the label of an attach. *)
Definition completion (config : BoardProjectConfig) (repo : rstr) (ids : ProjectNodeIds)
    (issue : IssueWithContent) (fields : IntakeFields) (item : rstr) (current : option (gmap rstr rstr)) : api bool :=
  when (needs current (ready_field config))
    (set_single_select ids item (ready_field config) (in_status fields)) ;;
  when (needs current (priority_field config))
    (set_single_select ids item (priority_field config) (in_priority fields)) ;;
  when (match iw_type issue with Some t => is_empty t | None => true end)
    (set_issue_type repo (iw_id issue) (in_item_type fields)) ;;
  apply_label repo (iw_id issue) (in_label fields) ;;
  ret (match current with None => true | Some _ => false end).

Lemma needs_unset current name :
  needs current name = true → match current with None => True | Some fields => fields !! name = None end.
Proof.
  unfold needs. destruct current as [fields|]; [|done]. intros Hn%negb_true_iff%bool_decide_eq_false.
  by apply eq_None_not_Some.
Qed.

Lemma only_completion config repo ids issue fields item current :
  only (completion config repo ids issue fields item current) (repair config ids issue item current).
Proof.
  unfold completion. apply only_bind; [|intros _; apply only_bind; [|intros _; apply only_bind; [|intros _;
    apply only_bind; [|intros _; apply only_ret]]]].
  - apply only_when. intros Hn%needs_unset. apply only_set_single_select. intros f o Hf. split_and!; eauto.
  - apply only_when. intros Hn%needs_unset. apply only_set_single_select. intros f o Hf. split_and!; eauto.
  - apply only_when. intros Ht. apply only_set_issue_type. intros t. split; [done|].
    destruct (iw_type issue) as [[|]|]; [by right|done|by left].
  - by apply only_apply_label.
Qed.

Lemma completion_result config repo ids issue fields item current w w' b :
  completion config repo ids issue fields item current w = (w', Ok b) → b = true ↔ current = None.
Proof.
  unfold completion, bind, ret. intros E.
  repeat match type of E with (let (_, _) := ?m in _) = _ => destruct m as [? [?|?]]; [|done] end.
  injection E as _ <-. by destruct current.
Qed.

(** The fields [current_single_selects] reads off a window. *)
Definition set_fields (c : Connection FieldValue) : gmap rstr rstr :=
  foldl (λ m v, match mjoin (fv_field v), fv_name v with
                | Some field, Some name => <[field := name]> m
                | _, _ => m
                end) ∅ (conn_nodes c).

(** What [attach_target] sent: the add of an issue no item of which is on the
    project, or the read of the item it has there. *)
Definition target_found (ids : ProjectNodeIds) (issue : IssueWithContent) (l : list exchange) : Prop :=
  (mutations l = [MAddItem (project_id ids) (iw_id issue)]
   ∧ ∀ i, i ∈ conn_nodes (iw_project_items issue) → i.2 ≠ project_id ids)
  ∨ mutations l = [].

Lemma wpl_attach_target ids issue :
  wpl (attach_target ids issue) (λ l x,
    target_found ids issue l
    ∧ ∀ item current, x = Ok (item, current) →
        match current with
        | None => mutations l ≠ []
        | Some fields =>
            mutations l = [] ∧ (item, project_id ids) ∈ conn_nodes (iw_project_items issue)
            ∧ ∃ c, answer l (QItemFieldValues item 25) (Some c) ∧ conn_truncated c = false ∧ fields = set_fields c
        end).
Proof.
  unfold attach_target. destruct (List.find _ _) as [[item p]|] eqn:Ef.
  - apply find_some in Ef as [Hin Hp%bool_decide_eq_true]. cbn [snd] in Hp. subst p.
    apply list_elem_of_In in Hin. unfold current_single_selects. apply wpl_bind, wpl_bind, wpl_query.
    1-2: intros; split; [by right|done].
    intros j [c|] Hr; [|apply wpl_throw; split; [by right|done]].
    destruct (conn_truncated c) eqn:Et; [apply wpl_throw; split; [by right|done]|]. apply wpl_ret, wpl_ret.
    split; [by right|]. intros item' current [= <- <-]. split_and!; [done|done|]. exists c. split_and!; try done.
    exists j. split; [left|done].
  - assert (∀ i, i ∈ conn_nodes (iw_project_items issue) → i.2 ≠ project_id ids) as Hno.
    { intros i Hi%list_elem_of_In Hp. by eapply find_none in Ef; [|exact Hi]; apply bool_decide_eq_false in Ef. }
    apply wpl_bind, wpl_query; [intros; split; [by right|done]|intros; split; [by left|done]|].
    intros j r Hr. match goal with |- wpl (match ?m with _ => _ end) _ => destruct m as [item|] end;
      [apply wpl_ret|apply wpl_throw]; (split; [by left|]); [|done]. by intros item' current [= <- <-].
Qed.

(** What an attach may have sent. *)
Definition attached (config : BoardProjectConfig) (number : N) (l : list exchange)
    (x : result bool BoardError) : Prop :=
  mutations l = [] ∧ (∀ b, x ≠ Ok b)
  ∨ ∃ ids owner name issue item current adds repairs,
      answer l (QFindContent owner name number) (Some (Some issue))
      ∧ conn_truncated (iw_project_items issue) = false
      ∧ mutations l = adds ++ repairs
      ∧ Forall (repair config ids issue item current) repairs
      ∧ (current = None ∧ adds = [MAddItem (project_id ids) (iw_id issue)]
           ∧ (∀ i, i ∈ conn_nodes (iw_project_items issue) → i.2 ≠ project_id ids)
         ∨ ∃ c, current = Some (set_fields c) ∧ adds = []
             ∧ (item, project_id ids) ∈ conn_nodes (iw_project_items issue)
             ∧ answer l (QItemFieldValues item 25) (Some c) ∧ conn_truncated c = false)
      ∧ ∀ b, x = Ok b → b = true ↔ current = None.

Lemma answer_app_l l l' q r : answer l q r → answer (l ++ l') q r.
Proof. intros (j & Hj & ?). exists j. split; [|done]. apply elem_of_app. by left. Qed.

Lemma answer_app_r l l' q r : answer l' q r → answer (l ++ l') q r.
Proof. intros (j & Hj & ?). exists j. split; [|done]. apply elem_of_app. by right. Qed.

Lemma wpl_attach_issue config repo number fields :
  wpl (attach_issue config repo number fields) (attached config number).
Proof.
  unfold attach_issue. apply wpl_bind. eapply wpl_mono; [apply wpl_resolved_ids|].
  intros l0 [ids|e] Hl0; pose proof (setup_no_mutations _ Hl0) as Hm0; [|by left].
  destruct (split_repo repo) as [[owner name]|]; [|apply wpl_throw; rw app_nil_r; by left].
  apply wpl_bind, wpl_query.
  { intros e. rw app_nil_r. by left. }
  { intros y e. left. by rw mutations_app Hm0. }
  intros j r Hr. match goal with |- wpl (match ?m with _ => _ end) _ => destruct m as [issue|] eqn:Ei end.
  2: { apply wpl_throw. left. by rw app_nil_r mutations_app Hm0. }
  apply mjoin_Some2 in Ei as ->. destruct (conn_truncated (iw_project_items issue)) eqn:Et.
  { apply wpl_throw. left. by rw app_nil_r mutations_app Hm0. }
  pose (l1 := l0 ++ [(QFindContent owner name number, Ok j)]).
  assert (answer l1 (QFindContent owner name number) (Some (Some issue))) as Ha.
  { apply answer_app_r. exists j. split; [left|done]. }
  assert (mutations l1 = []) as Hm1 by (unfold l1; by rw mutations_app Hm0).
  apply wpl_bind. eapply wpl_mono; [apply wpl_attach_target|]. intros l2 x [Ht Hx].
  destruct x as [[item current]|e].
  - intros w w' x E. fold (completion config repo ids issue fields item current) in E.
    destruct (only_completion config repo ids issue fields item current w w' x E) as (l3 & Hl3 & Hr3).
    exists l3. split; [done|]. specialize (Hx item current eq_refl). rw !app_assoc. fold l1. right.
    exists ids, owner, name, issue, item, current, (mutations l2), (mutations l3). split_and!; try done.
    + by apply answer_app_l, answer_app_l.
    + by rw !mutations_app Hm0.
    + destruct current as [fs|].
      * right. destruct Hx as (Hm2 & Hin & c & Hc & Htc & ->). exists c. split_and!; try done.
        by apply answer_app_l, answer_app_r.
      * left. destruct Ht as [[Hm2 Hno]|Hm2]; [done|]. by rw Hm2 in Hx.
    + intros b ->. by eapply completion_result.
  - rw app_assoc. fold l1. destruct Ht as [[Hm2 Hno]|Hm2].
    + right. exists ids, owner, name, issue, [], None, (mutations l2), []. split_and!; try done.
      * by apply answer_app_l.
      * by rw !mutations_app Hm0 app_nil_r.
      * by left.
    + left. by rw !mutations_app Hm0 Hm2.
Qed.

(** The intake attach repairs, it never overrides: it adds the issue to the
    project only when the complete (untruncated) list of the issue's items has
    none there, and then once; on an issue already attached it writes Status
    or Priority only where the complete field window read in this call shows
    the field unset, and it writes the native type only on an issue without
    one; everything else it sends is the label.  It reports true exactly when
    it added the item. *)
Theorem attach_issue_repairs_only config repo number fields w w' x :
  attach_issue config repo number fields w = (w', x) →
  ∃ l, sent w' = sent w ++ l ∧ attached config number l x.
Proof. apply wpl_attach_issue. Qed.

(** *** Pagination *)

(** The exchanges that follow the cursors of [pages] from [after] to the page
    without a next one. *)
Inductive walk (id : rstr) : option rstr → list exchange → list ItemPage → Prop :=
| walk_last after j page :
    decode_json (QItems id after) j = Some (Some page) → has_next_page (page_info page) = false →
    walk id after [(QItems id after, Ok j)] [page]
| walk_next after j page cursor l pages :
    decode_json (QItems id after) j = Some (Some page) → has_next_page (page_info page) = true →
    end_cursor (page_info page) = Some cursor → walk id (Some cursor) l pages →
    walk id after ((QItems id after, Ok j) :: l) (page :: pages).

Lemma wpl_page_loop fuel config id : ∀ after acc,
  wpl (page_loop fuel config id after acc) (λ l x,
    (x = Ok None → length l = fuel)
    ∧ ∀ r, x = Ok (Some r) → ∃ pages, walk id after l pages
        ∧ r = read_items to_lowercase config (concat (ip_nodes <$> pages)) acc).
Proof.
  induction fuel as [|fuel IH]; intros after acc; cbn [page_loop]; [by apply wpl_ret|].
  apply wpl_bind, wpl_query; try done. intros j [page|] Hr; [|by apply wpl_throw].
  destruct (has_next_page (page_info page)) eqn:En; cbn [negb].
  - destruct (end_cursor (page_info page)) as [cursor|] eqn:Ec; [|by apply wpl_throw].
    eapply wpl_mono; [apply IH|]. intros l x [H1 H2]. split; [intros Hx; cbn; by rw (H1 Hx)|].
    intros r Hx. destruct (H2 r Hx) as (pages & Hw & ->). exists (page :: pages).
    split; [by eapply walk_next|]. cbn [fmap list_fmap concat]. unfold read_items. by rw foldl_app.
  - apply wpl_ret. split; [done|]. intros r [= <-]. exists [page]. split; [by apply walk_last|].
    cbn [fmap list_fmap concat]. by rw app_nil_r.
Qed.

(** The board is read whole: a result of [item_facts] is what the items of
    all pages give, the pages being those the cursors lead through from the
    first to one without a successor; a page with a successor but no cursor is
    refused, and a run cut off after [fuel] pages had a successor on each. *)
Theorem item_facts_reads_all_pages fuel config w w' x :
  item_facts fuel config w = (w', x) →
  ∃ l0 l, sent w' = sent w ++ l0 ++ l ∧ setup_only l0
  ∧ (x = Ok None → length l = fuel)
  ∧ ∀ r, x = Ok (Some r) →
      ∃ id pages, walk id None l pages
      ∧ r = read_items to_lowercase config (concat (ip_nodes <$> pages)) ([], []).
Proof.
  intros E. unfold item_facts, bind in E. destruct (resolved_ids config w) as [w1 y] eqn:E1.
  destruct (wpl_resolved_ids config w w1 y E1) as (l0 & Hl0 & Hs). destruct y as [ids|e].
  - destruct (wpl_page_loop fuel config (project_id ids) None ([], []) w1 w' x E) as (l & Hl & Hn & Hr).
    exists l0, l. rw app_assoc -Hl0 Hl. split_and!; try done. intros r Hx. destruct (Hr r Hx) as (pages & ? & ?). eauto.
  - injection E as <- <-. exists l0, []. by rw app_nil_r.
Qed.

(** *** The node-id cache *)

(** A file keeps what was written to it, and reading does not change it. *)
Class FaithfulDisk : Prop := {
  read_back (s : S) path bytes s' : write_file s path bytes = (s', true) → (read_file s' path).2 = FileBytes bytes;
  read_stable (s : S) path s' r : read_file s path = (s', r) → (read_file s' path).2 = r;
}.

(** [serde_json] reads what it wrote, with the newline the file ends in. *)
Definition codec_ok : Prop := ∀ c, parse_cache (print_cache c ++ [10]) = Some c.

Lemma cache_load_version path w w' c :
  cache_load path w = (w', Ok c) → cf_version c = CACHE_FORMAT_VERSION.
Proof.
  unfold cache_load, bind, ask, ret, throw. destruct (read_file (w_env w) path) as [s [| |bytes]]; intros E; simplify_eq; [done|].
  destruct (parse_cache bytes) as [c'|]; [|done]. by destruct (N.eqb_spec (cf_version c') CACHE_FORMAT_VERSION).
Qed.

(** Loading again gives the same file. *)
Lemma cache_load_again `{!FaithfulDisk} path w w' c :
  cache_load path w = (w', Ok c) → ∃ w'', cache_load path w' = (w'', Ok c) ∧ sent w'' = sent w' ∧ sent w' = sent w.
Proof.
  unfold cache_load, bind, ask, ret, throw. destruct (read_file (w_env w) path) as [s r] eqn:E.
  pose proof (read_stable _ _ _ _ E) as Hr. intros E1.
  destruct r as [| |bytes]; injection E1 as <- <- || done; cbn [w_env sent];
    destruct (read_file s path) as [s' r']; cbn [snd] in Hr; subst r'; eauto.
Qed.

Lemma cache_load_stored `{!FaithfulDisk} path w w' c :
  codec_ok → cf_version c = CACHE_FORMAT_VERSION → cache_store path c w = (w', Ok tt) →
  ∃ w'', cache_load path w' = (w'', Ok c) ∧ sent w'' = sent w' ∧ sent w' = sent w.
Proof.
  intros Hcodec Hv E. unfold cache_store, bind, ask in E.
  destruct (write_file (w_env w) path (print_cache c ++ [10])) as [s [|]] eqn:Ew; [|done]. injection E as <-.
  unfold cache_load, bind, ask. cbn [w_env sent]. pose proof (read_back _ _ _ _ Ew) as Hr.
  destruct (read_file s path) as [s' r']. cbn [snd] in Hr. subst r'. rw Hcodec Hv. eauto.
Qed.

(** The node-id cache works: once [resolved_ids] has answered with the ready
    and target fields, asking again (the file kept, the codec sound) gives the
    same ids without sending anything. *)
Theorem resolved_ids_cached `{!FaithfulDisk} path config w w' ids :
  cache_path = Some path → codec_ok →
  contains_field ids (ready_field config) && contains_field ids (target_field config) = true →
  resolved_ids config w = (w', Ok ids) →
  ∃ w'', resolved_ids config w' = (w'', Ok ids) ∧ sent w'' = sent w'.
Proof.
  intros Hp Hcodec Hf E.
  enough (∃ w'' c, cache_load path w' = (w'', Ok c) ∧ sent w'' = sent w' ∧ usable config c = Some ids)
    as (w'' & c & Hc & Hs & Hu).
  { exists w''. split; [|done]. unfold resolved_ids. rw Hp. unfold bind, ret. by rw Hc Hu. }
  unfold resolved_ids in E. rw Hp in E. unfold bind at 1 2 in E. destruct (cache_load path w) as [w1 [c|]] eqn:E1; [|done].
  unfold ret at 1 in E. destruct (usable config c) as [hit|] eqn:Eu.
  { injection E as <- <-. destruct (cache_load_again _ _ _ _ E1) as (w'' & ? & ? & ?). eauto. }
  unfold bind at 1 in E. destruct (resolve_project config w1) as [w2 [ids'|]]; [|done].
  unfold bind at 1 2 in E. destruct (cache_load path w2) as [w3 [c'|]] eqn:E3; [|done].
  destruct (cache_store _ _ w3) as [w4 [[]|]] eqn:E4; [|done]. injection E as <- <-.
  pose proof (cache_load_version _ _ _ _ E3 : cf_version (cache_upsert c' (organization config)
    (project_number config) ids') = _) as Hv.
  destruct (cache_load_stored _ _ _ _ Hcodec Hv E4) as (w'' & Hc & Hs & _).
  eexists w'', _. split_and!; [done|done|]. unfold usable, cache_project, cache_upsert. cbn [cf_projects].
  by rw lookup_insert_eq Hf.
Qed.
End client.

(** ** A concrete board *)

(** The [data] of the demonstration server. *)
Inductive DemoData :=
| DemoProject (id : rstr)
| DemoFields
| DemoIssue
| DemoValues
| DemoStatus (name : rstr)
| DemoLabel
| DemoPage (last : bool)
| DemoNone.

Definition demo_ids : ProjectNodeIds :=
  MkProjectNodeIds (lit "P1")
    {[ lit "Status" := MkFieldNodeIds (lit "F1") {[ lit "Todo" := lit "O1"; lit "Done" := lit "O2" ]};
       lit "Target" := MkFieldNodeIds (lit "F2") ∅ ]}.

Definition demo_fields : list FieldNode :=
  [MkFieldNode (Some (lit "F1")) (Some (lit "Status")) (Some [(lit "Todo", lit "O1"); (lit "Done", lit "O2")]);
   MkFieldNode (Some (lit "F2")) (Some (lit "Target")) None; MkFieldNode None None None].

Definition demo_items : Connection ProjectItemRef := MkConnection [(lit "I9", lit "P0"); (lit "I7", lit "P1")] 2.

Definition demo_decode (q : Request) (d : DemoData) : option (reply q) :=
  match q, d with
  | QProject _ _, DemoProject id => Some (Some (Some id))
  | QFields _, DemoFields => Some (Some demo_fields)
  | QFindItem _ _ _, DemoIssue => Some (Some (Some demo_items))
  | QFindContent _ _ _, DemoIssue =>
      Some (Some (Some (MkIssueWithContent (lit "ISSUE") (Some (lit "Feature")) demo_items)))
  | QItemFieldValues _ _, DemoValues =>
      Some (Some (MkConnection [MkFieldValue (Some (lit "P2")) (Some (Some (lit "Priority")))] 1))
  | QReadBack _ _, DemoStatus name => Some (Some (Some (Some name)))
  | QLabel _ _ _, DemoLabel => Some (Some (Some (Some (lit "L1"))))
  | QItems _ _, DemoPage last =>
      Some (Some (MkItemPage (MkPageInfo (negb last) (Some (lit "next"))) []))
  | _, _ => None
  end.

(** The body is a tag and a payload. *)
Definition demo_slice (bytes : list N) : option (GraphQlEnvelope DemoData) :=
  match bytes with
  | tag :: rest =>
      Some (MkEnvelope None (Some (match tag with
        | 0 => DemoProject rest | 1 => DemoFields | 2 => DemoIssue | 3 => DemoValues | 4 => DemoStatus rest
        | 5 => DemoLabel | 6 => DemoPage false | 7 => DemoPage true | _ => DemoNone end)))
  | [] => None
  end.

(** The card's status, and the cache file. *)
Record Demo := MkDemo { d_status : rstr; d_file : option (list N) }.

#[export] Instance DemoGitHub : GitHub Demo := {
  env_var s _ := (s, Some (lit "token"));
  http_post s _ q :=
    let answer tag rest := Some (MkHttpReply 200 None (Some (tag :: rest))) in
    match q with
    | QProject _ _ => (s, answer 0 (lit "P1"))
    | QFields _ => (s, answer 1 [])
    | QFindItem _ _ _ | QFindContent _ _ _ => (s, answer 2 [])
    | QItemFieldValues _ _ => (s, answer 3 [])
    | QReadBack _ _ => (s, answer 4 (d_status s))
    | QLabel _ _ _ => (s, answer 5 [])
    | QItems _ None => (s, answer 6 [])
    | QItems _ (Some _) => (s, answer 7 [])
    | MUpdateField _ _ _ o =>
        (MkDemo (if bool_decide (o = lit "O2") then lit "Done" else lit "Todo") (d_file s), answer 8 [])
    | _ => (s, answer 8 [])
    end;
  read_file s _ := (s, match d_file s with Some b => FileBytes b | None => FileMissing end);
  write_file s _ b := (MkDemo (d_status s) (Some b), true);
}.

(** A codec for the cache file: any countable encoding. *)
#[export] Instance FieldNodeIds_eq_dec : EqDecision FieldNodeIds.
Proof. solve_decision. Defined.
#[export] Instance FieldNodeIds_countable : Countable FieldNodeIds.
Proof. refine (inj_countable' (λ f, (field_id f, f_options f)) (λ '(i, o), MkFieldNodeIds i o) _). by intros []. Defined.
#[export] Instance ProjectNodeIds_eq_dec : EqDecision ProjectNodeIds.
Proof. solve_decision. Defined.
#[export] Instance ProjectNodeIds_countable : Countable ProjectNodeIds.
Proof. refine (inj_countable' (λ p, (project_id p, p_fields p)) (λ '(i, o), MkProjectNodeIds i o) _). by intros []. Defined.

Definition demo_print (c : NodeIdCacheFile) : list N := [Npos (encode (cf_version c, cf_projects c))].
Definition demo_parse (bytes : list N) : option NodeIdCacheFile :=
  match bytes with
  | Npos p :: _ => (λ '(v, m), MkCacheFile v m) <$> decode p
  | _ => None
  end.

Lemma demo_codec : codec_ok demo_parse demo_print.
Proof. intros [v m]. unfold demo_parse, demo_print. cbn [app]. by rw decode_encode. Qed.

#[export] Instance demo_disk : FaithfulDisk (S := Demo).
Proof.
  split; intros s path.
  - by intros bytes s' [= <-].
  - by intros s' r [= <- <-].
Qed.

Definition demo_uri : SecretUri := MkSecretUri Env (lit "BOARD_TOKEN").
Definition demo_world : World (S := Demo) (Json := DemoData) := MkWorld (MkDemo (lit "Todo") None) [].

Lemma move_item_verified_witness :
  ∃ w' o, move_item demo_slice demo_decode demo_parse demo_print (λ _, true) demo_uri (Some (lit "ids.json"))
            example_config 7 (lit "Done") demo_world = (w', Ok o)
  ∧ mo_item_id o = lit "I7" ∧ verified_move demo_decode example_config 7 (lit "Done") (sent w') (Ok o).
Proof.
  destruct (move_item demo_slice demo_decode demo_parse demo_print (λ _, true) demo_uri (Some (lit "ids.json"))
            example_config 7 (lit "Done") demo_world) as [w' x] eqn:E.
  assert (x = Ok (MkMoveOutcome 7 (lit "I7") (lit "Done"))) as ->.
  { change x with (w', x).2. rw -E. by vm_compute. }
  exists w', (MkMoveOutcome 7 (lit "I7") (lit "Done")). split_and!; [done|done|].
  destruct (move_item_verified _ _ _ _ _ _ _ _ _ _ _ _ _ E) as (l & Hl & Hv).
  cbn [demo_world sent app] in Hl. by rw Hl.
Defined.

Lemma attach_issue_repairs_only_witness :
  ∃ w', attach_issue demo_slice demo_decode demo_parse demo_print (λ _, true) demo_uri None
          example_config (lit "arbsec/orchestraitor") 7
          (MkIntakeFields (lit "Bug") (lit "Todo") (lit "P1") (lit "intake")) demo_world = (w', Ok false)
  ∧ mutations (sent w') = [MUpdateField (lit "P1") (lit "I7") (lit "F1") (lit "O1");
                           MAddLabels (lit "ISSUE") [lit "L1"]]
  ∧ attached demo_decode example_config 7 (sent w') (Ok false).
Proof.
  destruct (attach_issue demo_slice demo_decode demo_parse demo_print (λ _, true) demo_uri None
          example_config (lit "arbsec/orchestraitor") 7
          (MkIntakeFields (lit "Bug") (lit "Todo") (lit "P1") (lit "intake")) demo_world) as [w' x] eqn:E.
  assert (x = Ok false) as ->.
  { change x with (w', x).2. rw -E. by vm_compute. }
  exists w'. split; [done|]. split.
  { change w' with (w', Ok false : result bool BoardError).1. rw -E. by vm_compute. }
  destruct (attach_issue_repairs_only _ _ _ _ _ _ _ _ _ _ _ _ _ _ E) as (l & Hl & Hv).
  cbn [demo_world sent app] in Hl. by rw Hl.
Defined.

Lemma item_facts_reads_all_pages_witness :
  ∃ w', item_facts demo_slice demo_decode demo_parse demo_print (λ _, true) to_ascii_lowercase demo_uri None 5
          example_config demo_world = (w', Ok (Some ([], [])))
  ∧ length (sent w') = 4%nat ∧ ∃ id l pages, walk demo_decode id None l pages.
Proof.
  destruct (item_facts demo_slice demo_decode demo_parse demo_print (λ _, true) to_ascii_lowercase demo_uri None 5
            example_config demo_world) as [w' x] eqn:E.
  assert (x = Ok (Some ([], []))) as ->.
  { change x with (w', x).2. rw -E. by vm_compute. }
  exists w'. split; [done|]. split.
  { change w' with (w', Ok (Some ([], [])) : result (option (list ItemFacts * list SkipWarning)) BoardError).1.
    rw -E. by vm_compute. }
  destruct (item_facts_reads_all_pages _ _ _ _ _ _ _ _ _ _ _ _ _ E) as (l0 & l & _ & _ & _ & Hr).
  destruct (Hr _ eq_refl) as (id & pages & Hw & _). eauto.
Defined.

Lemma resolved_ids_cached_witness :
  ∃ w' w'', resolved_ids demo_slice demo_decode demo_parse demo_print (λ _, true) demo_uri
              (Some (lit "ids.json")) example_config demo_world = (w', Ok demo_ids)
  ∧ length (sent w') = 2%nat
  ∧ resolved_ids demo_slice demo_decode demo_parse demo_print (λ _, true) demo_uri
      (Some (lit "ids.json")) example_config w' = (w'', Ok demo_ids)
  ∧ sent w'' = sent w'.
Proof.
  destruct (resolved_ids demo_slice demo_decode demo_parse demo_print (λ _, true) demo_uri
    (Some (lit "ids.json")) example_config demo_world) as [w' x] eqn:E.
  assert (x = Ok demo_ids) as ->.
  { change x with (w', x).2. rw -E. by vm_compute. }
  destruct (resolved_ids_cached demo_slice demo_decode demo_parse demo_print (λ _, true) demo_uri
    (Some (lit "ids.json")) (lit "ids.json") example_config demo_world w' demo_ids eq_refl demo_codec
    ltac:(by vm_compute) E) as (w'' & E' & Hs).
  exists w', w''. split_and!; [done| |exact E'|exact Hs].
  change w' with (w', Ok demo_ids : result ProjectNodeIds BoardError).1. rw -E. by vm_compute.
Defined.

(** A cached project answers with the fields it was resolved with: the check
    before a cache hit asks for the ready and target fields only, so an attach
    that needs the priority field, added to the board since, does not find it. *)
Lemma cached_ids_hide_new_field :
  usable example_config (MkCacheFile 1 {[ cache_key (lit "arbsec") 1 := demo_ids ]}) = Some demo_ids
  ∧ p_fields demo_ids !! priority_field example_config = None.
Proof. by vm_compute. Qed.
