(* ===== verification/Ingress.v ===== *)
(** * Event ingress of the daemon

    [ingress/queue.rs], [ingress/store.rs], [ingress/intake.rs] and the
    kick-off source of [ingress.rs]: the bounded queue, the deduplication table
    and the bookkeeping of the endpoints, and the lane that attaches reported
    issues to the board.

    A table is a finite map on its primary key.  The functions on tables are
    the statements that succeed; that a call to SQLite fails is the world's
    choice where the pollers make it, and leaves the table as it was, as the
    deduplication is one transaction. *)

From S2P Require Import Prelude BTree Text Time Substring.

(** ** Events *)

Record IngressEvent := MkIngressEvent {
  ev_delivery_key : rstr;
  ev_repo : rstr;
  ev_event_type : rstr;
  ev_head_sha : option rstr;
  ev_number : N;
  ev_author_login : option rstr;
  ev_author_is_bot : option bool;
  ev_accepted_at_secs : N;
}.

(** ** The bounded queue *)

Definition DEFAULT_QUEUE_CAPACITY : N := 256.
Definition DEGRADED_QUIET_WINDOW : N := 300.

Inductive PushOutcome := Accepted | Duplicate | Dropped.

(** [queue_events] is the state behind the mutex with [degraded_at]. *)
Record IngressQueue := MkIngressQueue {
  queue_capacity : N;
  queue_events : list IngressEvent;
  degraded_at : option N;
}.

Inductive DaemonError := WatchConfig (reason : rstr) | IngressStoreError.

Definition IngressQueue_new (capacity : N) : result IngressQueue DaemonError :=
  if capacity =? 0 then Err (WatchConfig (lit "watch.ingress.queue_capacity must be at least 1 (got 0)"))
  else Ok (MkIngressQueue capacity [] None).

Definition push (q : IngressQueue) (event : IngressEvent) (now_secs : N) : IngressQueue * PushOutcome :=
  if queue_capacity q <=? len (queue_events q)
  then (MkIngressQueue (queue_capacity q) (queue_events q) (Some now_secs), Dropped)
  else (MkIngressQueue (queue_capacity q) (queue_events q ++ [event]) (degraded_at q), Accepted).

Definition peek (q : IngressQueue) : list IngressEvent := queue_events q.

Definition take_all (q : IngressQueue) : IngressQueue * list IngressEvent :=
  (MkIngressQueue (queue_capacity q) [] (degraded_at q), queue_events q).

(** [retain] with its side effect on [drained]. *)
Fixpoint take_matching (ids : list rstr) (events : list IngressEvent) : list IngressEvent * list IngressEvent :=
  match events with
  | [] => ([], [])
  | e :: es =>
      let '(kept, drained) := take_matching ids es in
      if bool_decide (ev_delivery_key e ∈ ids) then (kept, e :: drained) else (e :: kept, drained)
  end.

Definition take_by_ids (q : IngressQueue) (ids : list rstr) : IngressQueue * list IngressEvent :=
  let '(kept, drained) := take_matching ids (queue_events q) in
  (MkIngressQueue (queue_capacity q) kept (degraded_at q), drained).

Definition degraded (q : IngressQueue) (now_secs : N) : IngressQueue * bool :=
  match degraded_at q with
  | Some at_ =>
      if DEGRADED_QUIET_WINDOW <=? saturating_sub now_secs at_
      then (MkIngressQueue (queue_capacity q) (queue_events q) None, false)
      else (q, true)
  | None => (q, false)
  end.

(** [KickoffIngressSource]: the identifiers of the events. *)
Definition pending (q : IngressQueue) : list rstr := ev_delivery_key <$> peek q.

Definition drain_pending (q : IngressQueue) (ids : list rstr) : IngressQueue * list rstr :=
  let '(q, drained) := take_by_ids q ids in (q, ev_delivery_key <$> drained).

(** ** The store *)

Definition REDELIVERY_WINDOW_SECS : N := 30 * 24 * 60 * 60.

Record EndpointRow := MkEndpointRow {
  er_etag : option rstr;
  er_poll_after_secs : N;
  er_not_modified : bool;
  er_ever_baselined : bool;
  er_last_seen_raw_id : N;
}.

Definition EndpointRow_default : EndpointRow := MkEndpointRow None 0 false false 0.

Record IngressStore := MkIngressStore {
  deliveries : gmap rstr N;
  endpoints : gmap rstr EndpointRow;
}.

Definition delivery_key (delivery_id repo event_type : rstr) (head_sha : option rstr) : rstr :=
  delivery_id ++ lit "|" ++ repo ++ lit "|" ++ event_type ++ lit "|" ++ default [] head_sha.

(** [i64::try_from] of a [u64]. *)
Definition to_i64 (n : N) : result N DaemonError := if n <=? i64_max then Ok n else Err IngressStoreError.

(** The rows older than the window go, then [INSERT OR IGNORE]; [true] when the
    row was inserted. *)
Definition record_delivery (s : IngressStore) (key : rstr) (now_secs : N) : result (IngressStore * bool) DaemonError :=
  let? now := to_i64 now_secs in
  let kept := filter (λ '(_, first_seen), ¬ (first_seen + REDELIVERY_WINDOW_SECS < now)) (deliveries s) in
  match kept !! key with
  | Some _ => Ok (MkIngressStore kept (endpoints s), false)
  | None => Ok (MkIngressStore (<[key := now]> kept) (endpoints s), true)
  end.

Definition delivery_seen_within_window (s : IngressStore) (key : rstr) (now_secs : N) : result bool DaemonError :=
  let? now := to_i64 now_secs in
  Ok (match deliveries s !! key with
      | Some first_seen => now <=? first_seen + REDELIVERY_WINDOW_SECS
      | None => false
      end).

(** [INSERT … ON CONFLICT(endpoint) DO UPDATE]. *)
Definition upsert_endpoint (s : IngressStore) (endpoint : rstr) (f : EndpointRow → EndpointRow) : IngressStore :=
  MkIngressStore (deliveries s)
    (<[endpoint := f (default EndpointRow_default (endpoints s !! endpoint))]> (endpoints s)).

Definition record_max_raw_id (s : IngressStore) (endpoint : rstr) (raw_id : N) : IngressStore :=
  upsert_endpoint s endpoint (λ r,
    MkEndpointRow (er_etag r) (er_poll_after_secs r) (er_not_modified r) (er_ever_baselined r)
      (N.max (er_last_seen_raw_id r) (N.min raw_id i64_max))).

Definition max_raw_id (s : IngressStore) (endpoint : rstr) : option N :=
  match endpoints s !! endpoint with
  | Some r => if 0 <? er_last_seen_raw_id r then Some (er_last_seen_raw_id r) else None
  | None => None
  end.

Definition mark_baselined (s : IngressStore) (endpoint : rstr) : IngressStore :=
  upsert_endpoint s endpoint (λ r,
    MkEndpointRow (er_etag r) (er_poll_after_secs r) (er_not_modified r) true (er_last_seen_raw_id r)).

Definition is_baselined (s : IngressStore) (endpoint : rstr) : bool :=
  from_option er_ever_baselined false (endpoints s !! endpoint).

Definition record_conditional (s : IngressStore) (endpoint : rstr) (etag : option rstr) (poll_after_secs : N)
    (not_modified : bool) : result IngressStore DaemonError :=
  let? poll_after := to_i64 poll_after_secs in
  Ok (upsert_endpoint s endpoint (λ r,
        MkEndpointRow etag poll_after not_modified (er_ever_baselined r) (er_last_seen_raw_id r))).

Definition etag_for (s : IngressStore) (endpoint : rstr) : option rstr := endpoints s !! endpoint ≫= er_etag.

Definition not_modified (s : IngressStore) (endpoint : rstr) : bool :=
  from_option er_not_modified false (endpoints s !! endpoint).

Definition poll_after_secs (s : IngressStore) (endpoint : rstr) : N :=
  from_option er_poll_after_secs 0 (endpoints s !! endpoint).

(** The order of the scan is unspecified; the rows go in key order. *)
Definition all_endpoints (s : IngressStore) : list rstr := bt_keys (endpoints s).

Definition doomed (s : IngressStore) (prefix : rstr) (keep : list rstr) : list rstr :=
  List.filter (λ e, starts_with prefix e && negb (bool_decide (e ∈ keep))) (all_endpoints s).

Definition delete_endpoint (s : IngressStore) (endpoint : rstr) : IngressStore :=
  MkIngressStore (deliveries s) (delete endpoint (endpoints s)).

Definition prune_endpoints (s : IngressStore) (prefix : rstr) (keep : list rstr) : IngressStore :=
  foldl delete_endpoint s (doomed s prefix keep).

(** ** Intake *)

Inductive AuthorClass := Human | Bot | Agent.

#[export] Instance AuthorClass_eq_dec : EqDecision AuthorClass.
Proof. solve_decision. Defined.

Definition AuthorClass_label (c : AuthorClass) : rstr :=
  match c with Human => lit "intake:human" | Bot => lit "intake:bot" | Agent => lit "intake:agent" end.

Definition strip_suffix (p s : rstr) : option rstr :=
  if ends_with_str p s then Some (take (length s - length p) s) else None.

Section classify.
Context (to_lowercase : rstr → rstr).

Definition classify_author_opt (login : rstr) (platform_bot : option bool) (service_identities : list rstr)
    : AuthorClass :=
  let normalized := to_lowercase (trim login) in
  let stripped := default normalized (strip_suffix (lit "[bot]") normalized) in
  if existsb (λ slug, bool_decide (to_lowercase (trim slug) = stripped)) service_identities then Agent
  else if negb (bool_decide (stripped = normalized)) then Bot
  else if default true platform_bot then Bot
  else Human.

Definition classify_author (login : rstr) (platform_bot : bool) (service_identities : list rstr) : AuthorClass :=
  classify_author_opt login (Some platform_bot) service_identities.
End classify.

Record IntakeAttachment := MkIntakeAttachment {
  at_repo : rstr;
  at_number : N;
  at_status : rstr;
  at_item_type : rstr;
  at_priority : rstr;
  at_label : rstr;
  at_author_class : AuthorClass;
}.

Definition intake_attachment (event : IngressEvent) (author_class : AuthorClass) : option IntakeAttachment :=
  if negb (bool_decide (ev_event_type event = lit "issues-opened")) then None
  else if bool_decide (author_class = Agent) then None
  else Some (MkIntakeAttachment (ev_repo event) (ev_number event) (lit "Triage") (lit "Bug") (lit "P1")
               (AuthorClass_label author_class) author_class).

(** The columns of [intake_events]; the key is the map's. *)
Record IntakeRow := MkIntakeRow {
  ir_repo : rstr;
  ir_number : N;
  ir_author_login : option rstr;
  ir_author_is_bot : option bool;
  ir_accepted_secs : N;
}.

Definition IntakeTable : Type := gmap rstr IntakeRow.

Definition row_of (event : IngressEvent) : IntakeRow :=
  MkIntakeRow (ev_repo event) (N.min (ev_number event) i64_max) (ev_author_login event) (ev_author_is_bot event)
    (N.min (ev_accepted_at_secs event) i64_max).

(** [INSERT OR IGNORE]. *)
Definition put_sync (t : IntakeTable) (event : IngressEvent) : IntakeTable :=
  match t !! ev_delivery_key event with
  | Some _ => t
  | None => <[ev_delivery_key event := row_of event]> t
  end.

Definition event_of (key : rstr) (r : IntakeRow) : IngressEvent :=
  MkIngressEvent key (ir_repo r) (lit "issues-opened") None (ir_number r) (ir_author_login r) (ir_author_is_bot r)
    (ir_accepted_secs r).

(** [ORDER BY accepted_secs, delivery_key]. *)
Definition intake_order (t : IntakeTable) : list IngressEvent :=
  merge_sort (by_key (λ e, (ev_accepted_at_secs e, ev_delivery_key e)))
    ((λ '(k, r), event_of k r) <$> map_to_list t).

Definition take_sync (t : IntakeTable) (limit : N) : IntakeTable * list IngressEvent :=
  let events := take (N.to_nat (N.min limit i64_max)) (intake_order t) in
  (foldl (λ t e, delete (ev_delivery_key e) t) t events, events).

Record IntakeOutcome := MkIntakeOutcome {
  io_attached : N;
  io_already_attached : N;
  io_skipped : N;
  io_missing_author : N;
  io_failed : N;
  io_failed_events : list IngressEvent;
}.

Definition IntakeOutcome_default : IntakeOutcome := MkIntakeOutcome 0 0 0 0 0 [].

(** [IntakeBoard::attach]: [true] for an item newly attached. *)
Class IntakeBoard (W : Type) := {
  board_attach : W → rstr → N → rstr → rstr → rstr → rstr → W * result bool rstr;
}.

Section attacher.
Context {W : Type} `{IntakeBoard W} (to_lowercase : rstr → rstr) (service_identities : list rstr).

(** One event of [process]. *)
Definition process_event (w : W) (outcome : IntakeOutcome) (event : IngressEvent) : W * IntakeOutcome :=
  let '(MkIntakeOutcome attached already skipped missing failed failed_events) := outcome in
  match ev_author_login event with
  | None => (w, MkIntakeOutcome attached already skipped (missing + 1) failed failed_events)
  | Some login =>
      match intake_attachment event
              (classify_author_opt to_lowercase login (ev_author_is_bot event) service_identities) with
      | None => (w, MkIntakeOutcome attached already (skipped + 1) missing failed failed_events)
      | Some a =>
          let '(w, r) := board_attach w (at_repo a) (at_number a) (at_item_type a) (at_status a) (at_priority a)
                           (at_label a) in
          (w, match r with
              | Ok true => MkIntakeOutcome (attached + 1) already skipped missing failed failed_events
              | Ok false => MkIntakeOutcome attached (already + 1) skipped missing failed failed_events
              | Err _ => MkIntakeOutcome attached already skipped missing (failed + 1) (failed_events ++ [event])
              end)
      end
  end.

Definition process (w : W) (events : list IngressEvent) : W * IntakeOutcome :=
  foldl (λ '(w, o) e, process_event w o e) (w, IntakeOutcome_default) events.

Definition INTAKE_TICK_LIMIT : N := 32.

(** One turn of [intake_attach_loop]: [reput_fails] says which of the writes
    back fail. *)
Fixpoint reput (t : IntakeTable) (events : list IngressEvent) (fails : list bool) : IntakeTable :=
  match events with
  | [] => t
  | e :: es => reput (if default false (head fails) then t else put_sync t e) es (tail fails)
  end.

Definition attach_tick (w : W) (t : IntakeTable) (take_fails : bool) (reput_fails : list bool) : W * IntakeTable :=
  if take_fails then (w, t)
  else
    let '(t, events) := take_sync t INTAKE_TICK_LIMIT in
    if is_empty events then (w, t)
    else let '(w, outcome) := process w events in (w, reput t (io_failed_events outcome) reput_fails).
End attacher.
