(* ===== verification/Poller.v ===== *)
(** * The pollers of the event ingress

    [ingress/poller.rs] (the repository event feed) and [ingress/ci_lane.rs]
    (check runs and workflow runs), over the shared store and queue of
    [Ingress].

    GitHub, the secret store and SQLite are a world: it answers a request with
    any response or none, and makes any database call fail.  The JSON readers,
    the URL parser and the check of a header value are parameters.  The state
    logs the requests made and the events offered to the queue. *)

From S2P Require Import Prelude BTree Text Time Substring RunState WorkerAction Ingress.

(** ** Requests and responses *)

Record HttpGet := MkHttpGet { get_url : rstr; if_none_match : option rstr; get_bearer : rstr }.

(** A header that is present has a text unless it is not visible ASCII; the body
    is its bytes, none when reading it fails. *)
Record HttpResponse := MkHttpResponse {
  rs_status : N;
  rs_header : rstr → option (option rstr);
  rs_content_length : option N;
  rs_body : option (list N);
}.

Definition header_text (r : HttpResponse) (name : rstr) : option rstr := mjoin (rs_header r name).
Definition is_success (r : HttpResponse) : bool := (200 <=? rs_status r) && (rs_status r <? 300).

Definition DEFAULT_POLL_AFTER_SECS : N := 60.
Definition RATE_LIMIT_FALLBACK_SECS : N := 300.
Definition MAX_RESPONSE_BYTES : N := 8 * 1024 * 1024.
Definition MAX_PAGES_PER_POLL : nat := 10.

Record Url := MkUrl { url_scheme : rstr; url_host : option rstr; url_port : option N }.

#[export] Instance Url_eq_dec : EqDecision Url.
Proof. solve_decision. Defined.

(** ** The feed's items *)

Record RestUser := MkRestUser { ru_login : option rstr; ru_user_type : option rstr }.

Record RestIssueRef := MkRestIssueRef {
  ri_number : N;
  ri_pull_request : option Json;
  ri_user : option RestUser;
}.

Record RestPullRef := MkRestPullRef {
  rp_number : N;
  rp_head : option (option rstr);
  rp_user : option RestUser;
}.

Record RestPayload := MkRestPayload {
  rp_action : option rstr;
  rp_issue : option RestIssueRef;
  rp_pull_request : option RestPullRef;
}.

(** [ri_actor] is the login of the actor. *)
Record RestEventItem := MkRestEventItem {
  ri_id : option Json;
  ri_kind : rstr;
  ri_actor : option (option rstr);
  ri_payload : option RestPayload;
}.

(** [pr_numbers]: the numbers of the associated pull requests. *)
Record WorkflowRunItem := MkWorkflowRunItem {
  wr_id : option Json;
  wr_status : option rstr;
  wr_conclusion : option rstr;
  wr_event : option rstr;
  wr_head_sha : option rstr;
  wr_run_attempt : option N;
  wr_pull_requests : list (option N);
}.

Record CheckRunItem := MkCheckRunItem {
  cr_id : option Json;
  cr_status : option rstr;
  cr_conclusion : option rstr;
  cr_pull_requests : list (option N);
}.

(** What the libraries compute: readers of JSON, the text of a float, the URL
    parser, [HeaderValue::from_str]. *)
Record IngressCodec := MkIngressCodec {
  ic_page : list N → option (list Json);
  ic_event : Json → option RestEventItem;
  ic_runs : list N → option (list WorkflowRunItem);
  ic_checks : list N → option (list CheckRunItem);
  ic_float : f64 → rstr;
  ic_url : rstr → option Url;
  ic_header_ok : rstr → bool;
}.

Record PollTarget := MkPollTarget { pt_url : rstr; pt_key : rstr; pt_repo : rstr }.

Definition poll_targets (repos : list rstr) (base_url : rstr) : list PollTarget :=
  let base := trim_end_matches (N.eqb 47) base_url in
  (λ repo, MkPollTarget (base ++ lit "/repos/" ++ repo ++ lit "/events") (repo ++ lit "/events") repo) <$> repos.

Section derive.
Context (codec : IngressCodec).

Definition number_to_string (n : JsonNumber) : rstr :=
  match n with PosInt n => dec n | NegInt z => dec_z z | Float x => ic_float codec x end.

Definition value_to_id (value : Json) : option rstr :=
  match value with
  | JNumber number => Some (number_to_string number)
  | JString text => if is_empty text then None else Some text
  | _ => None
  end.

(** The numeric platform identifier of an item. *)
Definition raw_id (item : RestEventItem) : option N := (ri_id item ≫= value_to_id) ≫= parse_u64.

Definition same_origin (next base : rstr) : bool :=
  match ic_url codec next, ic_url codec base with
  | Some n, Some b => bool_decide (n = b)
  | _, _ => false
  end.

Definition is_next_param (param : rstr) : bool :=
  match strip_prefix (lit "rel=") (trim param) with
  | Some rel => bool_decide (trim_matches (N.eqb 34) rel = lit "next")
  | None => false
  end.

(** One part of the header: its URL when it is the next page. *)
Definition next_of_part (part : rstr) : option rstr :=
  match split 59 part with
  | [] => None
  | url_part :: params =>
      let url := trim_end_matches (N.eqb 62) (trim_start_matches (N.eqb 60) (trim url_part)) in
      if existsb is_next_param params then Some url else None
  end.

Fixpoint next_link_go (parts : list rstr) : option rstr :=
  match parts with
  | [] => None
  | part :: parts' => match next_of_part part with Some url => Some url | None => next_link_go parts' end
  end.

Definition next_link (link_header : rstr) : option rstr := next_link_go (split 44 link_header).

Definition normalize_event_type (kind : rstr) (issue_marks_pull : bool) (action : option rstr) : option rstr :=
  if bool_decide (kind = lit "IssuesEvent") && bool_decide (action = Some (lit "opened")) && negb issue_marks_pull
  then Some (lit "issues-opened")
  else if bool_decide (kind = lit "IssueCommentEvent") && bool_decide (action = Some (lit "created"))
  then Some (if issue_marks_pull then lit "pr-commented" else lit "issue-commented")
  else None.

Definition non_empty (s : rstr) : option rstr := if is_empty s then None else Some s.

Definition author_facts (payload_user : option RestUser) (actor : option (option rstr))
    : option rstr * option bool :=
  match payload_user with
  | Some user =>
      (ru_login user ≫= non_empty, (λ t, bool_decide (t = lit "Bot")) <$> ru_user_type user)
  | None =>
      match mjoin actor ≫= non_empty with
      | Some login => (Some login, None)
      | None => (None, None)
      end
  end.

Record DerivedItem := MkDerivedItem {
  di_delivery_key : rstr;
  di_event_type : rstr;
  di_head_sha : option rstr;
  di_number : N;
  di_author_login : option rstr;
  di_author_is_bot : option bool;
}.

Definition is_pull (item : RestEventItem) : bool :=
  match ri_payload item with
  | Some p =>
      bool_decide (is_Some (rp_pull_request p))
      || from_option (λ i, bool_decide (is_Some (ri_pull_request i))) false (rp_issue p)
  | None => false
  end.

Definition item_derived (item : RestEventItem) (target : PollTarget) : option DerivedItem :=
  let pull := is_pull item in
  let payload := ri_payload item in
  let pull_ref := payload ≫= rp_pull_request in
  let issue_ref := payload ≫= rp_issue in
  event_type ← normalize_event_type (ri_kind item) pull (payload ≫= rp_action);
  delivery_id ← ri_id item ≫= value_to_id;
  let head_sha := if pull then pull_ref ≫= (λ pr, mjoin (rp_head pr)) else None in
  let issue_number := ri_number <$> issue_ref in
  number ← (if pull then
              match rp_number <$> pull_ref with Some n => Some n | None => issue_number end
            else issue_number);
  let '(author_login, author_is_bot) :=
    author_facts (if pull then pull_ref ≫= rp_user else issue_ref ≫= ri_user)
      (ri_actor item) in
  Some (MkDerivedItem (delivery_key delivery_id (pt_repo target) event_type head_sha) event_type head_sha number
          author_login author_is_bot).
End derive.

(** ** CI runs *)

Definition MAX_TRACKED_HEAD_SHAS : nat := 16.
Definition PER_PAGE : rstr := lit "100".
Definition CHECK_RUN_COMPLETED : rstr := lit "check-run-completed".
Definition WORKFLOW_RUN_COMPLETED : rstr := lit "workflow-run-completed".

Record CiRepoTarget := MkCiRepoTarget { ct_repo : rstr; runs_url : rstr; runs_key : rstr; ct_base_url : rstr }.

Definition ci_targets (repos : list rstr) (base_url : rstr) : list CiRepoTarget :=
  let base := trim_end_matches (N.eqb 47) base_url in
  (λ repo, MkCiRepoTarget repo
             (base ++ lit "/repos/" ++ repo ++ lit "/actions/runs?event=pull_request&per_page=" ++ PER_PAGE)
             (repo ++ lit "/actions-runs") base) <$> repos.

Record DerivedCiEvent := MkDerivedCiEvent {
  dc_delivery_key : rstr;
  dc_event_type : rstr;
  dc_head_sha : option rstr;
  dc_number : N;
}.

Fixpoint first_pr_number (pull_requests : list (option N)) : option N :=
  match pull_requests with
  | [] => None
  | Some n :: _ => Some n
  | None :: rest => first_pr_number rest
  end.

Definition completed : option rstr := Some (lit "completed").

Definition workflow_run_event (codec : IngressCodec) (item : WorkflowRunItem) (target : CiRepoTarget)
    : option DerivedCiEvent :=
  if negb (bool_decide (wr_status item = completed)) then None
  else if negb (bool_decide (wr_event item = Some (lit "pull_request"))) then None
  else
    id ← wr_id item ≫= value_to_id codec;
    let attempt := default 1 (wr_run_attempt item) in
    let conclusion := default (lit "unknown") (wr_conclusion item) in
    let head_sha := wr_head_sha item ≫= non_empty in
    number ← first_pr_number (wr_pull_requests item);
    let delivery_id := id ++ lit ":" ++ dec attempt ++ lit ":" ++ conclusion in
    Some (MkDerivedCiEvent (delivery_key delivery_id (ct_repo target) WORKFLOW_RUN_COMPLETED head_sha)
            WORKFLOW_RUN_COMPLETED head_sha number).

Definition check_run_event (codec : IngressCodec) (item : CheckRunItem) (target : CiRepoTarget) (head_sha : rstr)
    : option DerivedCiEvent :=
  if negb (bool_decide (cr_status item = completed)) then None
  else
    id ← cr_id item ≫= value_to_id codec;
    let conclusion := default (lit "unknown") (cr_conclusion item) in
    number ← first_pr_number (cr_pull_requests item);
    let delivery_id := id ++ lit ":" ++ conclusion in
    Some (MkDerivedCiEvent (delivery_key delivery_id (ct_repo target) CHECK_RUN_COMPLETED (Some head_sha))
            CHECK_RUN_COMPLETED (Some head_sha) number).

Definition is_in_flight (status : option rstr) : bool := negb (bool_decide (status = completed)).

Definition check_runs_key (repo head_sha : rstr) : rstr := lit "check-runs|" ++ repo ++ lit "/" ++ head_sha.

(** The elements not seen before, in order. *)
Fixpoint dedup_first (seen : list rstr) (l : list rstr) : list rstr :=
  match l with
  | [] => []
  | x :: l' => if bool_decide (x ∈ seen) then dedup_first seen l' else x :: dedup_first (x :: seen) l'
  end.

Definition in_flight_shas (runs : list WorkflowRunItem) : list rstr :=
  take MAX_TRACKED_HEAD_SHAS
    (dedup_first []
       (omap (λ run, wr_head_sha run ≫= non_empty)
          (List.filter (λ run, bool_decide (wr_event run = Some (lit "pull_request")))
             (List.filter (λ run, is_in_flight (wr_status run)) runs)))).

(** The SHAs in flight, then those tracked before, the oldest evicted. *)
Definition union_tracked (in_flight previous : list rstr) : list rstr :=
  take MAX_TRACKED_HEAD_SHAS
    (foldl (λ union sha, if bool_decide (sha ∈ union) then union else union ++ [sha]) in_flight previous).

(** ** State *)

(** The lane's own sets, per repository. *)
Record CiLane := MkCiLane {
  runs_initialized : gset rstr;
  last_snapshot : gmap rstr (list rstr);
  tracked : gmap rstr (list rstr);
}.

(** [ps_intake] is [None] when the lane is disabled; [ps_offered] logs the
    events that passed the deduplication. *)
Record PollState (W : Type) := MkPollState {
  ps_world : W;
  ps_store : IngressStore;
  ps_queue : IngressQueue;
  ps_intake : option IntakeTable;
  ps_lane : CiLane;
  ps_requests : list HttpGet;
  ps_offered : list IngressEvent;
}.
Arguments MkPollState {W}.
Arguments ps_world {W}.
Arguments ps_store {W}.
Arguments ps_queue {W}.
Arguments ps_intake {W}.
Arguments ps_lane {W}.
Arguments ps_requests {W}.
Arguments ps_offered {W}.

Class IngressWorld (W : Type) := {
  iw_get : W → HttpGet → W * option HttpResponse;
  iw_token : W → W * option rstr;
  iw_database_fails : W → W * bool;
}.

Inductive PollError := RateLimited (retry_after_secs : N) | PollFailed.

Record PollOutcome := MkPollOutcome {
  po_accepted : N;
  po_duplicates : N;
  po_dropped : N;
  po_intake_mirror_failed : N;
  po_poll_after_secs : N;
}.

Definition quiet_outcome (poll_after : N) : PollOutcome := MkPollOutcome 0 0 0 0 poll_after.

Section poller.
Context {W : Type} `{IngressWorld W} (codec : IngressCodec).

Definition P (E A : Type) : Type := PollState W → PollState W * result A E.

Definition ret {E A} (a : A) : P E A := λ s, (s, Ok a).
Definition throw {E A} (e : E) : P E A := λ s, (s, Err e).
Definition bind {E A B} (m : P E A) (k : A → P E B) : P E B := λ s,
  let '(s', r) := m s in match r with Ok a => k a s' | Err e => (s', Err e) end.

#[local] Notation "'let*' x ':=' c 'in' k" := (bind c (fun x => k))
  (at level 10, x pattern, c at level 200, k at level 200).
#[local] Notation "c ;; k" := (bind c (fun _ => k)) (at level 100, k at level 200, right associativity).

Definition get_state {E A} (f : PollState W → A) : P E A := λ s, (s, Ok (f s)).

Definition put_world (s : PollState W) (w : W) : PollState W :=
  MkPollState w (ps_store s) (ps_queue s) (ps_intake s) (ps_lane s) (ps_requests s) (ps_offered s).
Definition put_store (s : PollState W) (st : IngressStore) : PollState W :=
  MkPollState (ps_world s) st (ps_queue s) (ps_intake s) (ps_lane s) (ps_requests s) (ps_offered s).
Definition put_lane (s : PollState W) (l : CiLane) : PollState W :=
  MkPollState (ps_world s) (ps_store s) (ps_queue s) (ps_intake s) l (ps_requests s) (ps_offered s).
Definition put_intake (s : PollState W) (t : option IntakeTable) : PollState W :=
  MkPollState (ps_world s) (ps_store s) (ps_queue s) t (ps_lane s) (ps_requests s) (ps_offered s).

Definition database_fails {E} : P E bool := λ s,
  let '(w, fails) := iw_database_fails (ps_world s) in (put_world s w, Ok fails).

(** A statement on the store: [e] is what its failure becomes. *)
Definition on_store {E A} (e : E) (f : IngressStore → result (IngressStore * A) DaemonError) : P E A :=
  let* fails := database_fails in
  if (fails : bool) then throw e
  else λ s, match f (ps_store s) with Ok (st, a) => (put_store s st, Ok a) | Err _ => (s, Err e) end.

Definition read_store {E A} (e : E) (f : IngressStore → A) : P E A := on_store e (λ st, Ok (st, f st)).
Definition write_store {E} (e : E) (f : IngressStore → IngressStore) : P E unit := on_store e (λ st, Ok (f st, tt)).

Definition update_conditional {E} (e : E) (key : rstr) (etag : option rstr) (poll_after : N) (unmodified : bool)
    : P E unit :=
  on_store e (λ st, let? st := record_conditional st key etag poll_after unmodified in Ok (st, tt)).

Definition note_delivery (key : rstr) (now_secs : N) : P PollError bool :=
  on_store PollFailed (λ st, record_delivery st key now_secs).

Definition bearer_token : P PollError rstr := λ s,
  let '(w, token) := iw_token (ps_world s) in (put_world s w, ok_or token PollFailed).

Definition send (request : HttpGet) : P PollError HttpResponse := λ s,
  let '(w, response) := iw_get (ps_world s) request in
  (MkPollState w (ps_store s) (ps_queue s) (ps_intake s) (ps_lane s) (ps_requests s ++ [request]) (ps_offered s),
   ok_or response PollFailed).

(** A conditional request with the token; an etag that is no header value fails
    after the token was read. *)
Definition send_conditional (url : rstr) (etag : option rstr) : P PollError HttpResponse :=
  let* token := bearer_token in
  if from_option (ic_header_ok codec) true etag then send (MkHttpGet url etag token) else throw PollFailed.

(** The event and the queue's answer. *)
Definition offer (event : IngressEvent) (now_secs : N) : P PollError PushOutcome := λ s,
  let '(q, outcome) := push (ps_queue s) event now_secs in
  (MkPollState (ps_world s) (ps_store s) q (ps_intake s) (ps_lane s) (ps_requests s) (ps_offered s ++ [event]),
   Ok outcome).

(** [intake.put]: whether the event is mirrored. *)
Definition mirror (event : IngressEvent) : P PollError bool :=
  let* table := get_state ps_intake in
  match table with
  | None => ret true
  | Some t =>
      let* fails := database_fails in
      if (fails : bool) then ret false else λ s, (put_intake s (Some (put_sync t event)), Ok true)
  end.

(** ** Rate limits *)

Definition poll_interval_of (r : HttpResponse) : N :=
  default DEFAULT_POLL_AFTER_SECS (header_text r (lit "X-Poll-Interval") ≫= parse_u64).

Definition limited (r : HttpResponse) : bool :=
  (rs_status r =? 429)
  || (rs_status r =? 403)
     && (bool_decide (header_text r (lit "X-RateLimit-Remaining") = Some (lit "0"))
         || bool_decide (is_Some (rs_header r (lit "Retry-After")))).

Definition rate_limit_wait_secs (r : HttpResponse) (now_secs : N) : N :=
  match header_text r (lit "Retry-After") ≫= parse_u64, header_text r (lit "X-RateLimit-Reset") ≫= parse_u64 with
  | Some after, _ => after
  | None, Some reset_epoch => N.max (saturating_sub reset_epoch now_secs) DEFAULT_POLL_AFTER_SECS
  | None, None => RATE_LIMIT_FALLBACK_SECS
  end.

Definition rate_limit_wait (r : HttpResponse) (now_secs : N) : option N :=
  if limited r then Some (rate_limit_wait_secs r now_secs) else None.

(** The body within the bound. *)
Definition read_bounded (r : HttpResponse) : P PollError (list N) :=
  if from_option (N.ltb MAX_RESPONSE_BYTES) false (rs_content_length r) then throw PollFailed
  else
    match rs_body r with
    | None => throw PollFailed
    | Some body => if MAX_RESPONSE_BYTES <? len body then throw PollFailed else ret body
    end.

(** ** The event feed *)

Definition omax (a : option N) (b : N) : option N := Some (from_option (λ x, N.max x b) b a).

(** The pages from [response] on, [left] more at most; the items read and the
    largest identifier. *)
Fixpoint page_loop (target : PollTarget) (left : nat) (last_seen : option N) (response : HttpResponse)
    (items : list RestEventItem) (max_id : option N) : P PollError (list RestEventItem * option N) :=
  let link := header_text response (lit "Link") in
  let* body := read_bounded response in
  match ic_page codec body with
  | None => throw PollFailed
  | Some raw_items =>
      let page_items := omap (ic_event codec) raw_items in
      let ids := omap (raw_id codec) page_items in
      let reached :=
        negb (is_empty page_items)
        && forallb (λ item, match raw_id codec item, last_seen with
                            | Some id, Some last => id <=? last
                            | _, _ => false
                            end) page_items in
      let max_id := foldl omax max_id ids in
      let items := items ++ page_items in
      if reached then ret (items, max_id)
      else
        match left with
        | O => ret (items, max_id)
        | Datatypes.S left' =>
            match link ≫= next_link with
            | Some next =>
                if negb (is_empty next) && same_origin codec next (pt_url target) then
                  let* token := bearer_token in
                  let* next_response := send (MkHttpGet next None token) in
                  if negb (is_success next_response) then throw PollFailed
                  else page_loop target left' last_seen next_response items max_id
                else ret (items, max_id)
            | None => ret (items, max_id)
            end
        end
  end.

(** The first poll of an endpoint registers what it reads and offers nothing. *)
Fixpoint register_keys (keys : list rstr) (now_secs : N) : P PollError unit :=
  match keys with
  | [] => ret tt
  | key :: keys' => note_delivery key now_secs ;; register_keys keys' now_secs
  end.

Fixpoint register_ids (endpoint : rstr) (ids : list N) : P PollError unit :=
  match ids with
  | [] => ret tt
  | id :: ids' => write_store PollFailed (λ st, record_max_raw_id st endpoint id) ;; register_ids endpoint ids'
  end.

Definition ingress_event (target : PollTarget) (d : DerivedItem) (now_secs : N) : IngressEvent :=
  MkIngressEvent (di_delivery_key d) (pt_repo target) (di_event_type d) (di_head_sha d) (di_number d)
    (di_author_login d) (di_author_is_bot d) now_secs.

(** Items at or below the boundary are history. *)
Definition below_boundary (last_seen : option N) (item : RestEventItem) : bool :=
  match raw_id codec item, last_seen with Some id, Some last => id <=? last | _, _ => false end.

Definition count_push (o : PollOutcome) (p : PushOutcome) : PollOutcome :=
  let '(MkPollOutcome accepted duplicates dropped mirror_failed after) := o in
  match p with
  | Accepted => MkPollOutcome (accepted + 1) duplicates dropped mirror_failed after
  | Duplicate => MkPollOutcome accepted (duplicates + 1) dropped mirror_failed after
  | Dropped => MkPollOutcome accepted duplicates (dropped + 1) mirror_failed after
  end.

Definition count_duplicate (o : PollOutcome) : PollOutcome := count_push o Duplicate.

Definition count_unmirrored (o : PollOutcome) : PollOutcome :=
  MkPollOutcome (po_accepted o) (po_duplicates o) (po_dropped o) (po_intake_mirror_failed o + 1)
    (po_poll_after_secs o).

Fixpoint process_items (items : list RestEventItem) (target : PollTarget) (now_secs : N) (last_seen : option N)
    (counts : PollOutcome) : P PollError PollOutcome :=
  match items with
  | [] => ret counts
  | item :: items' =>
      match item_derived codec item target with
      | None => process_items items' target now_secs last_seen counts
      | Some derived =>
          if below_boundary last_seen item then process_items items' target now_secs last_seen counts
          else
            let* is_new := note_delivery (di_delivery_key derived) now_secs in
            if negb is_new then process_items items' target now_secs last_seen (count_duplicate counts)
            else
              let event := ingress_event target derived now_secs in
              let* mirrored := (if bool_decide (ev_event_type event = lit "issues-opened") then mirror event
                                else ret true) in
              let counts := if (mirrored : bool) then counts else count_unmirrored counts in
              let* pushed := offer event now_secs in
              process_items items' target now_secs last_seen (count_push counts pushed)
      end
  end.

Definition poll_one (target : PollTarget) (now_secs : N) : P PollError PollOutcome :=
  let key := pt_key target in
  let* etag := read_store PollFailed (λ st, etag_for st key) in
  let* response := send_conditional (pt_url target) etag in
  let poll_after := poll_interval_of response in
  if rs_status response =? 304 then
    update_conditional PollFailed key etag poll_after true ;; ret (quiet_outcome poll_after)
  else if limited response then
    let wait := rate_limit_wait_secs response now_secs in
    update_conditional PollFailed key etag wait false ;; throw (RateLimited wait)
  else if negb (is_success response) then
    update_conditional PollFailed key etag poll_after false ;; throw PollFailed
  else
    let new_etag := header_text response (lit "ETag") in
    let* baselined := read_store PollFailed (λ st, is_baselined st key) in
    let* last_seen := read_store PollFailed (λ st, max_raw_id st key) in
    let* (items, max_id) := page_loop target (MAX_PAGES_PER_POLL - 1) last_seen response [] last_seen in
    if negb baselined then
      register_keys (omap (λ item, di_delivery_key <$> item_derived codec item target) items) now_secs ;;
      register_ids key (omap (raw_id codec) items) ;;
      write_store PollFailed (λ st, mark_baselined st key) ;;
      update_conditional PollFailed key new_etag poll_after false ;;
      ret (quiet_outcome poll_after)
    else
      let* counts := process_items items target now_secs last_seen (quiet_outcome 0) in
      match max_id with
      | Some id => write_store PollFailed (λ st, record_max_raw_id st key id)
      | None => ret tt
      end ;;
      update_conditional PollFailed key new_etag poll_after false ;;
      ret (MkPollOutcome (po_accepted counts) (po_duplicates counts) (po_dropped counts)
             (po_intake_mirror_failed counts) poll_after).

(** A failed poll is a value of the round. *)
Definition attempt {A} (m : P PollError A) : P DaemonError (result A PollError) := λ s,
  let '(s', r) := m s in (s', Ok r).

Fixpoint poll_all (targets : list PollTarget) (now_secs : N) : P DaemonError (list (result PollOutcome PollError)) :=
  match targets with
  | [] => ret []
  | target :: targets' =>
      let* outcome := attempt (poll_one target now_secs) in
      let* outcomes := poll_all targets' now_secs in
      ret (outcome :: outcomes)
  end.

Fixpoint next_poll_wait (keys : list rstr) (max_secs : N) : P DaemonError N :=
  match keys with
  | [] => ret max_secs
  | key :: keys' =>
      let* secs := read_store IngressStoreError (λ st, poll_after_secs st key) in
      next_poll_wait keys' (N.max max_secs secs)
  end.

(** ** The CI lane *)

Definition ci_event (d : DerivedCiEvent) (now_secs : N) : IngressEvent :=
  MkIngressEvent (dc_delivery_key d) (default [] (split 124 (dc_delivery_key d) !! 1%nat)) (dc_event_type d)
    (dc_head_sha d) (dc_number d) None None now_secs.

Fixpoint process_events (events : list DerivedCiEvent) (now_secs : N) (counts : PollOutcome)
    : P PollError PollOutcome :=
  match events with
  | [] => ret counts
  | event :: events' =>
      let* is_new := note_delivery (dc_delivery_key event) now_secs in
      if negb is_new then process_events events' now_secs (count_duplicate counts)
      else
        let* pushed := offer (ci_event event now_secs) now_secs in
        process_events events' now_secs (count_push counts pushed)
  end.

Definition take_tracked {E} (target : CiRepoTarget) : P E (list rstr) :=
  get_state (λ s, default [] (tracked (ps_lane s) !! ct_repo target)).

Definition set_tracked {E} (target : CiRepoTarget) (shas : list rstr) : P E unit := λ s,
  let l := ps_lane s in
  (put_lane s (MkCiLane (runs_initialized l) (last_snapshot l) (<[ct_repo target := shas]> (tracked l))), Ok tt).

Definition set_initialized {E} (key : rstr) : P E unit := λ s,
  let l := ps_lane s in
  (put_lane s (MkCiLane ({[key]} ∪ runs_initialized l) (last_snapshot l) (tracked l)), Ok tt).

Definition set_snapshot {E} (target : CiRepoTarget) (shas : list rstr) : P E unit := λ s,
  let l := ps_lane s in
  (put_lane s (MkCiLane (runs_initialized l) (<[ct_repo target := shas]> (last_snapshot l)) (tracked l)), Ok tt).

(** The arms of a response that is not a page. *)
Definition refused (key : rstr) (etag : option rstr) (response : HttpResponse) (now_secs : N) : P PollError unit :=
  match rate_limit_wait response now_secs with
  | Some wait => update_conditional PollFailed key etag wait false ;; throw (RateLimited wait)
  | None =>
      if negb (is_success response) then
        update_conditional PollFailed key etag (poll_interval_of response) false ;; throw PollFailed
      else ret tt
  end.

Definition poll_runs (target : CiRepoTarget) (previous_tracked : list rstr) (bypass_etag : bool) (now_secs : N)
    : P PollError (PollOutcome * option (list rstr)) :=
  let key := runs_key target in
  let* etag := (if bypass_etag then ret None else read_store PollFailed (λ st, etag_for st key)) in
  let* response := send_conditional (runs_url target) etag in
  let poll_after := poll_interval_of response in
  if rs_status response =? 304 then
    update_conditional PollFailed key etag poll_after true ;;
    set_tracked target previous_tracked ;;
    let* snapshot := get_state (λ s, last_snapshot (ps_lane s) !! ct_repo target) in
    ret (quiet_outcome poll_after, snapshot)
  else
    refused key etag response now_secs ;;
    let new_etag := header_text response (lit "ETag") in
    let* body := read_bounded response in
    match ic_runs codec body with
    | None => throw PollFailed
    | Some runs =>
        let in_flight := in_flight_shas runs in
        let* outcome := process_events (omap (λ run, workflow_run_event codec run target) runs) now_secs
                          (quiet_outcome 0) in
        update_conditional PollFailed key new_etag poll_after false ;;
        set_initialized key ;;
        set_tracked target (union_tracked in_flight previous_tracked) ;;
        set_snapshot target in_flight ;;
        ret (outcome, Some in_flight)
    end.

Definition poll_check_runs (target : CiRepoTarget) (head_sha : rstr) (now_secs : N) : P PollError PollOutcome :=
  let key := check_runs_key (ct_repo target) head_sha in
  let url := ct_base_url target ++ lit "/repos/" ++ ct_repo target ++ lit "/commits/" ++ head_sha
             ++ lit "/check-runs?per_page=" ++ PER_PAGE in
  let* etag := read_store PollFailed (λ st, etag_for st key) in
  let* response := send_conditional url etag in
  let poll_after := poll_interval_of response in
  if rs_status response =? 304 then
    update_conditional PollFailed key etag poll_after true ;; ret (quiet_outcome poll_after)
  else
    refused key etag response now_secs ;;
    let new_etag := header_text response (lit "ETag") in
    let* body := read_bounded response in
    match ic_checks codec body with
    | None => throw PollFailed
    | Some checks =>
        let derived := omap (λ run, check_run_event codec run target head_sha) checks in
        let* baselined := read_store PollFailed (λ st, is_baselined st key) in
        if negb baselined then
          register_keys (dc_delivery_key <$> derived) now_secs ;;
          write_store PollFailed (λ st, mark_baselined st key) ;;
          update_conditional PollFailed key new_etag poll_after false ;;
          ret (quiet_outcome poll_after)
        else
          let* outcome := process_events derived now_secs (quiet_outcome 0) in
          update_conditional PollFailed key new_etag poll_after false ;;
          ret outcome
    end.

(** The check-run polls of a round: their outcomes, and the SHAs found quiet. *)
Fixpoint poll_tracked (target : CiRepoTarget) (in_flight : option (list rstr)) (shas : list rstr) (now_secs : N)
    : P DaemonError (list (result PollOutcome PollError) * list rstr) :=
  match shas with
  | [] => ret ([], [])
  | sha :: shas' =>
      let* outcome := attempt (poll_check_runs target sha now_secs) in
      let* quiet :=
        (match outcome with
         | Ok _ =>
             if from_option (λ l, negb (bool_decide (sha ∈ l))) false in_flight
             then read_store IngressStoreError (λ st, not_modified st (check_runs_key (ct_repo target) sha))
             else ret false
         | Err _ => ret false
         end) in
      let* (outcomes, quiets) := poll_tracked target in_flight shas' now_secs in
      ret (outcome :: outcomes, if (quiet : bool) then sha :: quiets else quiets)
  end.

Fixpoint delete_endpoints (endpoints : list rstr) : P DaemonError unit :=
  match endpoints with
  | [] => ret tt
  | e :: es => write_store IngressStoreError (λ st, delete_endpoint st e) ;; delete_endpoints es
  end.

Definition prune (prefix : rstr) (keep : list rstr) : P DaemonError unit :=
  let* gone := read_store IngressStoreError (λ st, doomed st prefix keep) in
  delete_endpoints gone.

Definition poll_repo (target : CiRepoTarget) (now_secs : N) : P DaemonError (list (result PollOutcome PollError)) :=
  let* previous := take_tracked target in
  let* initialized := get_state (λ s, runs_initialized (ps_lane s)) in
  let bypass_etag := negb (bool_decide (runs_key target ∈ initialized)) in
  let* runs := attempt (poll_runs target previous bypass_etag now_secs) in
  let in_flight := match runs with Ok (_, snapshot) => snapshot | Err _ => None end in
  let first := match runs with Ok (outcome, _) => Ok outcome | Err e => Err e end in
  let* tracked_after_runs := take_tracked target in
  let* (outcomes, quiet) := poll_tracked target in_flight tracked_after_runs now_secs in
  let kept := List.filter (λ sha, negb (bool_decide (sha ∈ quiet))) tracked_after_runs in
  prune (lit "check-runs|" ++ ct_repo target ++ lit "/") (check_runs_key (ct_repo target) <$> kept) ;;
  (if is_empty quiet then ret tt
   else
     let* shas := get_state (λ s, tracked (ps_lane s) !! ct_repo target) in
     match shas with
     | Some l => set_tracked target (List.filter (λ sha, negb (bool_decide (sha ∈ quiet))) l)
     | None => ret tt
     end) ;;
  ret (first :: outcomes).
End poller.

(** The wait of a poll loop ([ingress_poll_loop], [ci_lane_poll_loop]) after a
    round. *)
Definition round_wait (outcomes : list (result PollOutcome PollError)) : N :=
  N.max DEFAULT_POLL_AFTER_SECS
    (foldr (λ o w, N.max w (match o with
                            | Ok outcome => po_poll_after_secs outcome
                            | Err (RateLimited after) => after
                            | Err PollFailed => 0
                            end)) 0 outcomes).
