(* ===== verification/PollerSafe.v ===== *)
(** * What the pollers do

    Properties of [Poller] in every world.  A step is described by [polled]:
    the requests sent, the events offered to the queue and those it accepted
    between two states; such steps compose. *)

From S2P Require Import Prelude BTree Text Time Substring RunState WorkerAction Ingress Poller.

(** ** The deduplication *)

(** Two offers of one key are more than the window apart. *)
Definition spaced (offered : list IngressEvent) : Prop :=
  ∀ i j e e', (i < j)%nat → offered !! i = Some e → offered !! j = Some e' →
    ev_delivery_key e = ev_delivery_key e' →
    ev_accepted_at_secs e + REDELIVERY_WINDOW_SECS < ev_accepted_at_secs e'.

(** At time [now] the table still knows every offer of the last window. *)
Definition remembered (now : N) (rows : gmap rstr N) (e : IngressEvent) : Prop :=
  ev_accepted_at_secs e ≤ now
  ∧ (now ≤ ev_accepted_at_secs e + REDELIVERY_WINDOW_SECS →
     ∃ first_seen, rows !! ev_delivery_key e = Some first_seen ∧ ev_accepted_at_secs e ≤ first_seen).

Definition dedup_ok (now : N) (rows : gmap rstr N) (offered : list IngressEvent) : Prop :=
  spaced offered ∧ Forall (remembered now rows) offered.

(** A key that may be offered at [now]. *)
Definition fresh (now : N) (rows : gmap rstr N) (offered : list IngressEvent) (key : rstr) : Prop :=
  rows !! key = Some now
  ∧ Forall (λ e, ev_delivery_key e = key → ev_accepted_at_secs e + REDELIVERY_WINDOW_SECS < now) offered.

Lemma dedup_ok_later now now' rows offered : now ≤ now' → dedup_ok now rows offered → dedup_ok now' rows offered.
Proof.
  intros Hn [Hs Hr]. split; [done|]. eapply Forall_impl; [exact Hr|]. intros e [Ht Hw].
  split; [lia|]. intros Hl. apply Hw. lia.
Qed.

Lemma dedup_ok_nil now rows : dedup_ok now rows [].
Proof. split; [|by constructor]. by intros i j e e' _ Hi. Qed.

Lemma record_delivery_ok st key now st' is_new offered :
  record_delivery st key now = Ok (st', is_new) → dedup_ok now (deliveries st) offered →
  dedup_ok now (deliveries st') offered ∧ (is_new = true → fresh now (deliveries st') offered key).
Proof.
  unfold record_delivery, to_i64. destruct (now <=? i64_max); [|done]. cbn [result_bind].
  set (kept := filter _ (deliveries st)). intros Hr [Hs Hf].
  assert (Forall (remembered now kept) offered) as Hk.
  { eapply Forall_impl; [exact Hf|]. intros e [Ht Hw]. split; [done|]. intros Hl.
    destruct (Hw Hl) as (t' & E & Hle). exists t'. split; [|done]. apply map_lookup_filter_Some. split; [done|]. lia. }
  destruct (kept !! key) as [t|] eqn:Ek; injection Hr as <- <-; cbn [deliveries]; [by split|].
  split.
  - split; [done|]. eapply Forall_impl; [exact Hk|]. intros e [Ht Hw]. split; [done|]. intros Hl.
    destruct (Hw Hl) as (t' & E & Hle). exists t'. split; [|done].
    rw lookup_insert_ne; [done|]. intros ->. by rw E in Ek.
  - intros _. split; [apply lookup_insert_eq|]. eapply Forall_impl; [exact Hk|]. intros e [Ht Hw] <-.
    destruct (decide (now ≤ ev_accepted_at_secs e + REDELIVERY_WINDOW_SECS)) as [Hl|]; [|lia].
    destruct (Hw Hl) as (t' & E & _). by rw E in Ek.
Qed.

Lemma spaced_snoc offered e :
  spaced offered →
  Forall (λ e', ev_delivery_key e' = ev_delivery_key e →
    ev_accepted_at_secs e' + REDELIVERY_WINDOW_SECS < ev_accepted_at_secs e) offered →
  spaced (offered ++ [e]).
Proof.
  intros Hs Hf i j a b Hij Ha Hb Hk.
  destruct (decide (j < length offered)%nat) as [Hj|Hj].
  - rw lookup_app_l in Ha; [|lia]. rw lookup_app_l in Hb; [|lia]. by eapply (Hs i j).
  - apply lookup_app_Some in Hb as [Hb|[Hl Hb]]; [by apply lookup_lt_Some in Hb|].
    apply list_lookup_singleton_Some in Hb as [Ej <-]. rw lookup_app_l in Ha; [|lia].
    rw Forall_lookup in Hf. by apply (Hf i).
Qed.

Lemma offer_dedup_ok now rows offered e :
  dedup_ok now rows offered → fresh now rows offered (ev_delivery_key e) → ev_accepted_at_secs e = now →
  dedup_ok now rows (offered ++ [e]).
Proof.
  intros [Hs Hr] [Ek Hf] Ea. split; [apply spaced_snoc; [done|]; by rw Ea|].
  apply Forall_app. split; [done|]. apply Forall_singleton. split; [lia|]. intros _. exists now. split; [done|lia].
Qed.

(** ** The tracked revisions *)

Definition tracked_ok (shas : list rstr) : Prop := (length shas ≤ MAX_TRACKED_HEAD_SHAS)%nat ∧ NoDup shas.

Definition lane_ok (l : CiLane) : Prop :=
  map_Forall (λ _, tracked_ok) (tracked l) ∧ map_Forall (λ _, tracked_ok) (last_snapshot l).

Lemma tracked_ok_nil : tracked_ok [].
Proof. split; [cbn; lia|constructor]. Qed.

Lemma tracked_ok_take shas : NoDup shas → tracked_ok (take MAX_TRACKED_HEAD_SHAS shas).
Proof.
  intros Hn. split; [rw length_take; lia|]. eapply sublist_NoDup; [exact Hn|apply sublist_take].
Qed.

Lemma tracked_ok_filter (f : rstr → bool) shas : tracked_ok shas → tracked_ok (List.filter f shas).
Proof.
  intros [Hl Hn]. split; [|apply NoDup_ListNoDup, List.NoDup_filter; by apply NoDup_ListNoDup].
  pose proof (List.filter_length_le f shas). lia.
Qed.

Lemma dedup_first_fresh seen l x : x ∈ dedup_first seen l → (x ∉ seen) ∧ x ∈ l.
Proof.
  revert seen. induction l as [|y l IH]; intros seen; cbn; [by intros ?%not_elem_of_nil|].
  case_bool_decide as Hy; [intros [? ?]%IH; split; [done|by right]|].
  intros [->|[Hn ?]%IH]%elem_of_cons; [split; [done|by left]|]. split; [|by right].
  intros Hx. apply Hn. by right.
Qed.

Lemma dedup_first_NoDup seen l : NoDup (dedup_first seen l).
Proof.
  revert seen. induction l as [|y l IH]; intros seen; cbn; [constructor|]. case_bool_decide; [done|].
  constructor; [|done]. intros [Hn _]%dedup_first_fresh. apply Hn. by left.
Qed.

Lemma in_flight_shas_ok runs : tracked_ok (in_flight_shas runs).
Proof. apply tracked_ok_take, dedup_first_NoDup. Qed.

Lemma union_tracked_ok in_flight previous : NoDup in_flight → tracked_ok (union_tracked in_flight previous).
Proof.
  intros Hn. apply tracked_ok_take. revert in_flight Hn. induction previous as [|sha previous IH]; intros u Hn; cbn; [done|].
  apply IH. case_bool_decide; [done|]. apply NoDup_app. split; [done|]. split; [|apply NoDup_singleton].
  by intros x Hx ->%list_elem_of_singleton.
Qed.

(** ** Steps *)

Section polled.
Context {W : Type} (now : N).
Implicit Types s : PollState W.

Record polled (reqs : list HttpGet) (offs acc : list IngressEvent) s s' : Prop := {
  pl_requests : ps_requests s' = ps_requests s ++ reqs;
  pl_offered : ps_offered s' = ps_offered s ++ offs;
  pl_capacity : queue_capacity (ps_queue s') = queue_capacity (ps_queue s);
  pl_accepted : queue_events (ps_queue s') = queue_events (ps_queue s) ++ acc;
  pl_sublist : sublist acc offs;
  pl_degraded : degraded_at (ps_queue s') =
    if bool_decide (length acc = length offs) then degraded_at (ps_queue s) else Some now;
  pl_bounded : len (queue_events (ps_queue s)) ≤ queue_capacity (ps_queue s) →
    len (queue_events (ps_queue s')) ≤ queue_capacity (ps_queue s');
  pl_dedup : dedup_ok now (deliveries (ps_store s)) (ps_offered s) →
    dedup_ok now (deliveries (ps_store s')) (ps_offered s');
  pl_lane : lane_ok (ps_lane s) → lane_ok (ps_lane s');
}.

Lemma polled_refl s : polled [] [] [] s s.
Proof. by split; rw ?app_nil_r. Qed.

Lemma polled_trans r o a r' o' a' s s1 s2 :
  polled r o a s s1 → polled r' o' a' s1 s2 → polled (r ++ r') (o ++ o') (a ++ a') s s2.
Proof.
  intros [] []. split; [| |congruence| | | |auto|auto|auto].
  - by rw pl_requests1 pl_requests0 app_assoc.
  - by rw pl_offered1 pl_offered0 app_assoc.
  - by rw pl_accepted1 pl_accepted0 app_assoc.
  - by apply sublist_app.
  - apply sublist_length in pl_sublist0, pl_sublist1. rw pl_degraded1 pl_degraded0 !length_app.
    repeat case_bool_decide; try done; lia.
Qed.

(** A step that sends and offers nothing. *)
Definition silent s s' : Prop := polled [] [] [] s s'.

Lemma silent_l r o a s s1 s2 : silent s s1 → polled r o a s1 s2 → polled r o a s s2.
Proof. apply (polled_trans [] [] []). Qed.

Lemma silent_r r o a s s1 s2 : polled r o a s s1 → silent s1 s2 → polled r o a s s2.
Proof.
  intros H1 H2. pose proof (polled_trans _ _ _ _ _ _ _ _ _ H1 H2) as H. by rw !app_nil_r in H.
Qed.

Lemma silent_same s s' :
  ps_requests s' = ps_requests s → ps_offered s' = ps_offered s → ps_queue s' = ps_queue s →
  (dedup_ok now (deliveries (ps_store s)) (ps_offered s) →
   dedup_ok now (deliveries (ps_store s')) (ps_offered s)) →
  (lane_ok (ps_lane s) → lane_ok (ps_lane s')) → silent s s'.
Proof.
  intros E1 E2 E3 Hd Hl. by split; rw ?E1 ?E2 ?E3 ?app_nil_r.
Qed.
End polled.

(** ** Computations *)

(** A transcript relates what a computation did to its result. *)
Definition Transcript (E A : Type) : Type :=
  list HttpGet → list IngressEvent → list IngressEvent → result A E → Prop.

Section emits.
Context {W : Type} `{IngressWorld W} (codec : IngressCodec) (now : N).
Implicit Types s : PollState W.

Definition emits {E A} (m : P (W := W) E A) (T : Transcript E A) : Prop :=
  ∀ s, lane_ok (ps_lane s) → ∃ r o a, polled now r o a s (m s).1 ∧ T r o a (m s).2.

(** Nothing sent, nothing offered. *)
Definition quietly {E A} (R : result A E → Prop) : Transcript E A :=
  λ r o a res, r = [] ∧ o = [] ∧ a = [] ∧ R res.

(** What is left to do after [r0], [o0], [a0]. *)
Definition after {E A} (r0 : list HttpGet) (o0 a0 : list IngressEvent) (T : Transcript E A) : Transcript E A :=
  λ r o a res, T (r0 ++ r) (o0 ++ o) (a0 ++ a) res.

Lemma emits_mono {E A} (m : P E A) (T T' : Transcript E A) :
  emits m T → (∀ r o a res, T r o a res → T' r o a res) → emits m T'.
Proof. intros Hm HT s Hl. destruct (Hm s Hl) as (r & o & a & Hp & Ht). eauto 7. Qed.

Lemma emits_ret {E A} (x : A) (T : Transcript E A) : T [] [] [] (Ok x) → emits (ret x) T.
Proof. intros HT s _. exists [], [], []. split; [apply polled_refl|done]. Qed.

Lemma emits_throw {E A} (e : E) (T : Transcript E A) : T [] [] [] (Err e) → emits (throw e) T.
Proof. intros HT s _. exists [], [], []. split; [apply polled_refl|done]. Qed.

Lemma emits_get {E A} (f : PollState W → A) (T : Transcript E A) :
  (∀ s, lane_ok (ps_lane s) → T [] [] [] (Ok (f s))) → emits (get_state f) T.
Proof. intros HT s Hl. exists [], [], []. split; [apply polled_refl|by apply HT]. Qed.

Lemma emits_bind {E A B} (m : P E A) (k : A → P E B) (T : Transcript E A) (T' : Transcript E B) :
  emits m T → (∀ r o a x, T r o a (Ok x) → emits (k x) (after r o a T')) →
  (∀ r o a e, T r o a (Err e) → T' r o a (Err e)) → emits (bind m k) T'.
Proof.
  intros Hm Hk He s Hl. unfold bind. destruct (Hm s Hl) as (r & o & a & Hp & Ht).
  destruct (m s) as [s1 [x|e]]; cbn [fst snd] in *; [|by exists r, o, a; auto].
  destruct (Hk r o a x Ht s1 (pl_lane _ _ _ _ _ _ Hp Hl)) as (r' & o' & a' & Hp' & Ht').
  exists (r ++ r'), (o ++ o'), (a ++ a'). split; [by eapply polled_trans|done].
Qed.

(** A quiet prefix leaves the rest to do. *)
Lemma emits_quiet_bind {E A B} (R : result A E → Prop) (m : P E A) (k : A → P E B) (T : Transcript E B) :
  emits m (quietly R) → (∀ x, R (Ok x) → emits (k x) T) → (∀ e, R (Err e) → T [] [] [] (Err e)) → emits (bind m k) T.
Proof.
  intros Hm Hk He. eapply emits_bind; [exact Hm| |].
  - intros r o a x (-> & -> & -> & HR). by apply Hk.
  - intros r o a e (-> & -> & -> & HR). by apply He.
Qed.

Lemma emits_attempt {A} (m : P PollError A) (T : Transcript PollError A) (T' : Transcript DaemonError (result A PollError)) :
  emits m T → (∀ r o a res, T r o a res → T' r o a (Ok res)) → emits (attempt m) T'.
Proof.
  intros Hm HT s Hl. unfold attempt. destruct (Hm s Hl) as (r & o & a & Hp & Ht).
  destruct (m s) as [s1 res]. cbn [fst snd] in *. eauto 6.
Qed.

(** *** Primitives *)

Definition anything {E A} : result A E → Prop := λ _, True.
Definition only_err {E A} (e : E) : result A E → Prop := λ r, match r with Ok _ => True | Err e' => e' = e end.

Lemma emits_database_fails {E} : emits (E := E) database_fails (quietly (λ r, ∃ b, r = Ok b)).
Proof.
  intros s _. unfold database_fails. destruct (iw_database_fails (ps_world s)) as [w b]. cbn [fst snd].
  exists [], [], []. split; [by apply silent_same|by do 3 (split; [done|]); exists b].
Qed.

Lemma emits_on_store {E A} (e : E) (f : IngressStore → result (IngressStore * A) DaemonError) :
  (∀ st st' x offered, f st = Ok (st', x) → dedup_ok now (deliveries st) offered → dedup_ok now (deliveries st') offered) →
  emits (on_store e f) (quietly (only_err e)).
Proof.
  intros Hf. eapply emits_quiet_bind; [apply emits_database_fails| |by intros ? []].
  intros [] _; [by apply emits_throw|]. intros s _.
  destruct (f (ps_store s)) as [[st x]|err] eqn:Ef; exists [], [], []; (split; [|done]).
  - apply silent_same; try done. intros Hd. by eapply Hf.
  - apply polled_refl.
Qed.

Lemma emits_read_store {E A} (e : E) (f : IngressStore → A) : emits (read_store e f) (quietly (only_err e)).
Proof. apply emits_on_store. by intros st st' x offered [= <- _]. Qed.

Lemma emits_write_store {E} (e : E) (f : IngressStore → IngressStore) :
  (∀ st, deliveries (f st) = deliveries st) → emits (write_store e f) (quietly (only_err e)).
Proof. intros Hf. apply emits_on_store. intros st st' x offered [= <- _]. by rw Hf. Qed.

Lemma emits_update_conditional {E} (e : E) key etag poll_after unmodified :
  emits (update_conditional e key etag poll_after unmodified) (quietly (only_err e)).
Proof.
  apply emits_on_store. intros st st' x offered. unfold record_conditional.
  destruct (to_i64 poll_after); [|done]. by intros [= <- _].
Qed.

Lemma emits_note_delivery key : emits (note_delivery key now) (quietly (only_err PollFailed)).
Proof. apply emits_on_store. intros st st' x offered Hr Hd. by destruct (record_delivery_ok _ _ _ _ _ _ Hr Hd). Qed.

Lemma emits_bearer_token : emits bearer_token (quietly (only_err PollFailed)).
Proof.
  intros s _. unfold bearer_token. destruct (iw_token (ps_world s)) as [w t]. cbn [fst snd].
  exists [], [], []. split; [by apply silent_same|]. by destruct t.
Qed.

Lemma emits_read_bounded response : emits (read_bounded response) (quietly (only_err PollFailed)).
Proof. unfold read_bounded. repeat case_match; (by apply emits_throw) || by apply emits_ret. Qed.

(** Requests only. *)
Definition asking {E A} (R : list HttpGet → result A E → Prop) : Transcript E A :=
  λ r o a res, o = [] ∧ a = [] ∧ R r res.

Lemma emits_send request : emits (send request) (asking (λ r res, r = [request] ∧ only_err PollFailed res)).
Proof.
  intros s _. unfold send. destruct (iw_get (ps_world s) request) as [w response]. cbn [fst snd].
  exists [request], [], []. split; [by split; cbn; rw ?app_nil_r|]. by destruct response.
Qed.

(** At most one request, for [url]. *)
Definition at_most_one {A} (url : rstr) (r : list HttpGet) (res : result A PollError) : Prop :=
  (length r ≤ 1)%nat ∧ Forall (λ q, get_url q = url) r ∧ only_err PollFailed res.

Lemma at_most_one_nil {A} url (res : result A PollError) :
  only_err PollFailed res → asking (at_most_one url) [] [] [] res.
Proof. do 3 (split; [done || cbn; lia|]). by split; [constructor|]. Qed.

Lemma emits_send_conditional url etag : emits (send_conditional codec url etag) (asking (at_most_one url)).
Proof.
  eapply emits_quiet_bind; [apply emits_bearer_token| |by intros; apply at_most_one_nil]. intros token _. case_match.
  - eapply emits_mono; [apply emits_send|]. intros r o a res (-> & -> & -> & He). split; [done|]. split; [done|].
    split; [cbn; lia|]. by split; [apply Forall_singleton|].
  - by apply emits_throw, at_most_one_nil.
Qed.

(** *** Deliveries *)

Lemma note_delivery_fresh key s :
  let '(s', r) := note_delivery key now s in
  silent now s s' ∧ ps_offered s' = ps_offered s
  ∧ (r = Ok true → dedup_ok now (deliveries (ps_store s)) (ps_offered s) →
     fresh now (deliveries (ps_store s')) (ps_offered s') key).
Proof.
  unfold note_delivery, on_store, bind, database_fails, throw.
  destruct (iw_database_fails (ps_world s)) as [w []]; cbn; [split; [by apply silent_same|done]|].
  destruct (record_delivery (ps_store s) key now) as [[st x]|err] eqn:Er; cbn.
  - split; [|split; [done|]].
    + apply silent_same; try done. intros Hd. by destruct (record_delivery_ok _ _ _ _ _ _ Er Hd).
    + intros [= ->] Hd. by apply (record_delivery_ok _ _ _ _ _ _ Er Hd).
  - split; [by apply silent_same|done].
Qed.

Definition accepted_part (ev : IngressEvent) (p : PushOutcome) : list IngressEvent :=
  match p with Accepted => [ev] | _ => [] end.

Lemma offer_polled ev s s1 :
  silent now s s1 → ps_offered s1 = ps_offered s →
  (dedup_ok now (deliveries (ps_store s)) (ps_offered s) →
   fresh now (deliveries (ps_store s1)) (ps_offered s1) (ev_delivery_key ev)) →
  ev_accepted_at_secs ev = now →
  ∃ p, (offer ev now s1).2 = Ok p ∧ p ≠ Duplicate ∧ polled now [] [ev] (accepted_part ev p) s (offer ev now s1).1.
Proof.
  intros Hs Eo Hf Ea. unfold offer, push. destruct Hs. rw !app_nil_r in pl_requests0 pl_offered0 pl_accepted0. cbn in pl_degraded0.
  assert (dedup_ok now (deliveries (ps_store s)) (ps_offered s) →
    dedup_ok now (deliveries (ps_store s1)) (ps_offered s1 ++ [ev])) as Hd.
  { intros Hd. apply offer_dedup_ok; auto. }
  destruct (queue_capacity (ps_queue s1) <=? len (queue_events (ps_queue s1))) eqn:Ef; cbn [fst snd];
    eexists; (split; [done|]); (split; [done|]); cbn [accepted_part].
  - split; cbn; rw ?app_nil_r; auto; [by rw pl_offered0|apply sublist_nil_l].
  - apply N.leb_gt in Ef. split; cbn; rw ?app_nil_r; auto; [by rw pl_offered0|by rw pl_accepted0|].
    intros _. rw len_app. unfold len in *. cbn. lia.
Qed.

(** A step beside the store, the queue and the logs that always succeeds. *)
Definition aside {A} (m : P (W := W) PollError A) : Prop :=
  ∀ s, let '(s', r) := m s in
    ps_requests s' = ps_requests s ∧ ps_offered s' = ps_offered s ∧ ps_queue s' = ps_queue s
    ∧ ps_store s' = ps_store s ∧ ps_lane s' = ps_lane s ∧ ∃ x, r = Ok x.

Lemma aside_ret {A} (x : A) : aside (ret x).
Proof. intros s. cbn. eauto 7. Qed.

Lemma aside_mirror ev : aside (mirror ev).
Proof.
  intros s. unfold mirror, bind, get_state, database_fails, ret. destruct (ps_intake s); [|eauto 7].
  destruct (iw_database_fails (ps_world s)) as [w []]; cbn; eauto 7.
Qed.

(** An event goes to the queue once its key is noted as new. *)
Lemma emits_deliver {A B} key ev (k_seen : P PollError A) (m : P PollError B) k (T : Transcript PollError A) :
  ev_delivery_key ev = key → ev_accepted_at_secs ev = now → aside m → T [] [] [] (Err PollFailed) → emits k_seen T →
  (∀ x p, p ≠ Duplicate → emits (k x p) (after [] [ev] (accepted_part ev p) T)) →
  emits (bind (note_delivery key now)
           (λ is_new, if negb is_new then k_seen else bind m (λ x, bind (offer ev now) (k x)))) T.
Proof.
  intros <- Ea Hm HT Hseen Hk s Hl. pose proof (note_delivery_fresh (ev_delivery_key ev) s) as Hn.
  pose proof (emits_note_delivery (ev_delivery_key ev) s Hl) as (? & ? & ? & _ & -> & -> & -> & He).
  unfold bind. destruct (note_delivery _ now s) as [s1 [[]|e]]; destruct Hn as (Hs & Eo & Hf); cbn [negb fst snd] in *.
  - specialize (Hm s1). destruct (m s1) as [s2 r]. destruct Hm as (E1 & E2 & E3 & E4 & E5 & x & ->).
    destruct (offer_polled ev s s2) as (p & Ep & Hp & Hpl); [|congruence| |done|].
    { eapply silent_r; [exact Hs|]. apply silent_same; congruence. }
    { rw E2 E4. auto. }
    destruct (offer ev now s2) as [s3 r]. cbn [fst snd] in *. subst r.
    destruct (Hk x p Hp s3 (pl_lane _ _ _ _ _ _ Hpl Hl)) as (r' & o' & a' & Hp' & Ht').
    exists ([] ++ r'), ([ev] ++ o'), (accepted_part ev p ++ a'). split; [by eapply polled_trans|done].
  - destruct (Hseen s1 (pl_lane _ _ _ _ _ _ Hs Hl)) as (r' & o' & a' & Hp' & Ht'). exists r', o', a'. split; [by eapply silent_l|done].
  - cbn in He. subst e. by exists [], [], [].
Qed.

(** *** Counting *)

(** What was offered at [now], and how the counters moved. *)
Definition counted (good : IngressEvent → Prop) (counts : PollOutcome) : Transcript PollError PollOutcome :=
  λ r o a res, r = [] ∧ Forall (λ e, ev_accepted_at_secs e = now ∧ good e) o ∧
    match res with
    | Ok c =>
        po_accepted c = po_accepted counts + len a
        ∧ po_dropped c + len a = po_dropped counts + len o
        ∧ po_poll_after_secs c = po_poll_after_secs counts
    | Err e => e = PollFailed
    end.

Lemma counted_nil good counts : counted good counts [] [] [] (Ok counts).
Proof. split; [done|]. split; [by constructor|]. unfold len. cbn. lia. Qed.

Lemma counted_failed good counts : counted good counts [] [] [] (Err PollFailed).
Proof. split; [done|]. by split; [constructor|]. Qed.

Lemma counted_same good c c' r o a res :
  po_accepted c = po_accepted c' → po_dropped c = po_dropped c' → po_poll_after_secs c = po_poll_after_secs c' →
  counted good c r o a res → counted good c' r o a res.
Proof. intros E1 E2 E3 (Er & Ho & Hc). split; [done|]. split; [done|]. destruct res; [|done]. rw -E1 -E2 -E3. done. Qed.

Lemma counted_push good c p ev r o a res :
  p ≠ Duplicate → ev_accepted_at_secs ev = now → good ev → counted good (count_push c p) r o a res →
  after [] [ev] (accepted_part ev p) (counted good c) r o a res.
Proof.
  intros Hp Ea Hg (Er & Ho & Hc). split; [done|]. split; [by constructor|]. destruct res as [c'|]; [|done].
  destruct c, p; cbn in *; rw ?len_cons; done || lia.
Qed.

Lemma emits_process_events (good : IngressEvent → Prop) events counts :
  (∀ d, d ∈ events → good (ci_event d now)) → emits (process_events events now counts) (counted good counts).
Proof.
  revert counts. induction events as [|d events IH]; intros counts Hg; cbn [process_events].
  { apply emits_ret, counted_nil. }
  assert (∀ c, emits (process_events events now c) (counted good c)) as IH'.
  { intros c. apply IH. intros d' Hd. apply Hg. by right. }
  refine (emits_deliver _ (ci_event d now) _ (ret tt) (λ _ p, _) _ eq_refl eq_refl (aside_ret tt) (counted_failed _ _) _ _).
  - eapply emits_mono; [apply IH'|]. intros r o a res. by apply counted_same; destruct counts.
  - intros _ p Hp. eapply emits_mono; [apply IH'|]. intros r o a res. apply counted_push; [done|done|].
    apply Hg. by left.
Qed.

Lemma emits_process_items items target last_seen counts :
  emits (process_items codec items target now last_seen counts)
    (counted (λ e, ∃ item d, item ∈ items ∧ item_derived codec item target = Some d ∧ ¬ below_boundary codec last_seen item
                            ∧ e = ingress_event target d now) counts).
Proof.
  revert counts. induction items as [|item items IH]; intros counts; cbn [process_items].
  { apply emits_ret, counted_nil. }
  set (good := λ e, _).
  assert (∀ c, emits (process_items codec items target now last_seen c) (counted good c)) as IH'.
  { intros c. eapply emits_mono; [apply IH|]. intros r o a res (Er & Ho & Hc). split; [done|]. split; [|done].
    eapply Forall_impl; [exact Ho|]. intros e (Ea & i & d & Hi & Hr). split; [done|]. exists i, d. by split; [right|]. }
  destruct (item_derived codec item target) as [d|] eqn:Ed; [|apply IH'].
  destruct (below_boundary codec last_seen item) eqn:Eb; [apply IH'|].
  apply (emits_deliver _ (ingress_event target d now)); [done|done| |apply counted_failed| |].
  - case_bool_decide; [apply aside_mirror|apply aside_ret].
  - eapply emits_mono; [apply IH'|]. intros r o a res. by apply counted_same; destruct counts.
  - intros x p Hp. eapply emits_mono; [apply IH'|]. intros r o a res Hc. eapply counted_push; [done|done| |].
    + exists item, d. rw Eb. split; [by left|]. naive_solver.
    + eapply counted_same; [| | |exact Hc]; destruct x, counts, p; done.
Qed.

Lemma emits_register_keys keys : emits (register_keys keys now) (quietly (only_err PollFailed)).
Proof.
  induction keys as [|key keys IH]; cbn [register_keys]; [by apply emits_ret|].
  eapply emits_quiet_bind; [apply emits_note_delivery|done|]. by intros e He.
Qed.

Lemma emits_register_ids endpoint ids : emits (register_ids endpoint ids) (quietly (only_err PollFailed)).
Proof.
  induction ids as [|id ids IH]; cbn [register_ids]; [by apply emits_ret|].
  eapply emits_quiet_bind; [by apply emits_write_store|done|]. by intros e He.
Qed.

(** *** Pages *)

(** A page after the first is at the target's origin. *)
Definition next_page (target : PollTarget) (q : HttpGet) : Prop :=
  same_origin codec (get_url q) (pt_url target) = true ∧ if_none_match q = None.

Lemma emits_page_loop target left last_seen response items max_id :
  emits (page_loop codec target left last_seen response items max_id)
    (asking (λ r res, (length r ≤ left)%nat ∧ Forall (next_page target) r ∧ only_err PollFailed res)).
Proof.
  assert (∀ n (res : result (list RestEventItem * option N) PollError), only_err PollFailed res →
    asking (λ r res, (length r ≤ n)%nat ∧ Forall (next_page target) r ∧ only_err PollFailed res) [] [] [] res) as Hnil.
  { intros n res Hr. do 2 (split; [done|]). split; [cbn; lia|]. by split; [constructor|]. }
  revert response items max_id. induction left as [|left IH]; intros response items max_id; cbn [page_loop];
    (eapply emits_quiet_bind; [apply emits_read_bounded|intros body _|by intros e He; apply Hnil]);
    (destruct (ic_page codec body) as [raw|]; [|by apply emits_throw, Hnil]); destruct (_ && _);
    try by apply emits_ret, Hnil.
  destruct (header_text response _ ≫= next_link) as [next|]; [|by apply emits_ret, Hnil].
  destruct (negb (is_empty next) && same_origin codec next (pt_url target)) eqn:Eo; [|by apply emits_ret, Hnil].
  apply andb_prop in Eo as [_ Eo].
  eapply emits_quiet_bind; [apply emits_bearer_token|intros token _|by intros e He; apply Hnil].
  assert (next_page target (MkHttpGet next None token)) as Hq by done.
  eapply emits_bind; [apply emits_send| |].
  - intros r o a x (-> & -> & -> & _). destruct (negb (is_success x)).
    + apply emits_throw. do 2 (split; [done|]). split; [cbn; lia|]. split; [by apply Forall_singleton|done].
    + eapply emits_mono; [apply IH|]. intros r o a res (-> & -> & Hl & Hf & He). do 2 (split; [done|]).
      split; [cbn; lia|]. by split; [constructor|].
  - intros r o a e (-> & -> & -> & He). do 2 (split; [done|]). split; [cbn; lia|].
    by split; [apply Forall_singleton|].
Qed.

(** *** Polls *)

(** At most [n] requests, all [asked]; only [good] events offered; counters as
    the queue answered. *)
Definition polls {A} (out : A → PollOutcome) (n : nat) (asked : HttpGet → Prop) (good : IngressEvent → Prop)
    : Transcript PollError A :=
  λ r o a res, (length r ≤ n)%nat ∧ Forall asked r ∧ Forall (λ e, ev_accepted_at_secs e = now ∧ good e) o
    ∧ match res with Ok c => po_accepted (out c) = len a ∧ po_dropped (out c) + len a = len o | Err _ => True end.

Section polls.
Context {X : Type} (out : X → PollOutcome) (asked : HttpGet → Prop) (good : IngressEvent → Prop).

Lemma polls_quiet n x wait : out x = quiet_outcome wait → polls out n asked good [] [] [] (Ok x).
Proof. intros Ex. split; [cbn; lia|]. do 2 (split; [constructor|]). by rw Ex. Qed.

Lemma polls_err n e : polls out n asked good [] [] [] (Err e).
Proof. split; [cbn; lia|]. by do 2 (split; [constructor|]). Qed.

(** Some requests, then the rest of the poll. *)
Lemma polls_after n m r r' o a res :
  (length r ≤ m)%nat → Forall asked r → polls out n asked good r' o a res →
  after r [] [] (polls out (m + n) asked good) r' o a res.
Proof. intros Hl Hf (Hl' & Hf' & Hr). split; [rw length_app; lia|]. split; [by apply Forall_app|done]. Qed.

Lemma emits_quiet_polls {A} n (m : P PollError A) k R :
  emits m (quietly R) → (∀ x, emits (k x) (polls out n asked good)) → emits (bind m k) (polls out n asked good).
Proof. intros Hm Hk. eapply emits_quiet_bind; [exact Hm|by intros x _|]. intros e _. apply polls_err. Qed.

Lemma emits_asking_polls {A} n m (c : P PollError A) k (R : list HttpGet → result A PollError → Prop) :
  emits c (asking R) → (∀ r res, R r res → (length r ≤ m)%nat ∧ Forall asked r) →
  (∀ x, emits (k x) (polls out n asked good)) → emits (bind c k) (polls out (m + n) asked good).
Proof.
  intros Hm HR Hk. eapply emits_bind; [exact Hm| |].
  - intros r o a x (-> & -> & HRr). destruct (HR _ _ HRr). eapply emits_mono; [apply Hk|].
    intros. by apply polls_after.
  - intros r o a e (-> & -> & HRr). destruct (HR _ _ HRr). split; [lia|]. by do 2 (split; [done || constructor|]).
Qed.

(** The counted part, then bookkeeping. *)
Lemma emits_counted_polls n wait (c : P PollError PollOutcome) k :
  emits c (counted good (quiet_outcome wait)) →
  (∀ x, emits (k x) (quietly (λ res, match res with
    | Ok y => po_accepted (out y) = po_accepted x ∧ po_dropped (out y) = po_dropped x
    | Err _ => True end))) → emits (bind c k) (polls out n asked good).
Proof.
  intros Hm Hk. eapply emits_bind; [exact Hm| |].
  - intros r o a x (-> & Ho & Ea & Ed & _). cbn in Ea, Ed. eapply emits_mono; [apply Hk|].
    intros r' o' a' res (-> & -> & -> & Hr). unfold after. rw !app_nil_r. split; [cbn; lia|]. split; [constructor|].
    split; [done|]. destruct res; [|done]. lia.
  - intros r o a e (-> & Ho & He). split; [cbn; lia|]. split; [constructor|done].
Qed.

Lemma emits_refused n key etag response (k : unit → P PollError X) :
  (∀ x, emits (k x) (polls out n asked good)) →
  emits (bind (refused key etag response now) k) (polls out n asked good).
Proof.
  intros Hk. apply (emits_quiet_polls _ _ _ anything); [|done]. unfold refused.
  assert (∀ wait e, emits (bind (update_conditional PollFailed key etag wait false) (λ _, throw (A := unit) e))
    (quietly anything)) as Hu.
  { intros. eapply emits_quiet_bind; [apply emits_update_conditional|intros _ _; by apply emits_throw|done]. }
  destruct (rate_limit_wait response now); [apply Hu|]. destruct (negb _); [apply Hu|by apply emits_ret].
Qed.
End polls.

Definition feed_request (target : PollTarget) (q : HttpGet) : Prop :=
  get_url q = pt_url target ∨ next_page target q.

Definition feed_event (target : PollTarget) (e : IngressEvent) : Prop :=
  ∃ item d, item_derived codec item target = Some d ∧ e = ingress_event target d now.

Lemma emits_poll_one target :
  emits (poll_one codec target now) (polls id MAX_PAGES_PER_POLL (feed_request target) (feed_event target)).
Proof.
  eapply emits_quiet_polls; [apply emits_read_store|]. intros etag.
  apply (emits_asking_polls _ _ _ 9 1 _ _ _ (emits_send_conditional _ _)).
  { intros r res (Hl & Hf & _). split; [done|]. eapply Forall_impl; [exact Hf|]. by left. }
  intros response. case_match; [|case_match; [|case_match]].
  - eapply emits_quiet_polls; [apply emits_update_conditional|]. intros _. by eapply emits_ret, polls_quiet.
  - eapply emits_quiet_polls; [apply emits_update_conditional|]. intros _. apply emits_throw, polls_err.
  - eapply emits_quiet_polls; [apply emits_update_conditional|]. intros _. apply emits_throw, polls_err.
  - eapply emits_quiet_polls; [apply emits_read_store|]. intros baselined.
    eapply emits_quiet_polls; [apply emits_read_store|]. intros last_seen.
    apply (emits_asking_polls _ _ _ 0 9 _ _ _ (emits_page_loop _ _ _ _ _ _)).
    { intros r res (Hl & Hf & _). split; [done|]. eapply Forall_impl; [exact Hf|]. by right. }
    intros [items max_id]. destruct baselined; cbn [negb].
    + eapply emits_counted_polls.
      { eapply emits_mono; [apply emits_process_items|]. intros r o a res (-> & Ho & Hc). split; [done|].
        split; [|exact Hc]. eapply Forall_impl; [exact Ho|]. intros e (Ea & i & d & _ & Hd & _ & He).
        split; [done|]. by exists i, d. }
      intros counts. eapply (emits_quiet_bind anything).
      { destruct max_id; [eapply emits_mono; [by apply emits_write_store|by intros ???? (-> & -> & -> & _)]|by apply emits_ret]. }
      { intros _ _. eapply emits_quiet_bind; [apply emits_update_conditional|intros _ _; by apply emits_ret|done]. }
      done.
    + eapply emits_quiet_polls; [apply emits_register_keys|intros _].
      eapply emits_quiet_polls; [apply emits_register_ids|intros _].
      eapply emits_quiet_polls; [by apply emits_write_store|intros _].
      eapply emits_quiet_polls; [apply emits_update_conditional|intros _]. by eapply emits_ret, polls_quiet.
Qed.

(** *** The CI lane *)

Lemma emits_lane {E} (f : PollState W → CiLane) :
  (∀ s, lane_ok (ps_lane s) → lane_ok (f s)) → emits (E := E) (λ s, (put_lane s (f s), Ok tt)) (quietly anything).
Proof. intros Hf s _. exists [], [], []. split; [by apply silent_same; cbn; auto|done]. Qed.

Lemma emits_set_tracked {E} target shas : tracked_ok shas → emits (E := E) (set_tracked target shas) (quietly anything).
Proof. intros Hs. apply emits_lane. intros s [Ht Hl]. split; [by apply map_Forall_insert_2|done]. Qed.

Lemma emits_set_snapshot {E} target shas : tracked_ok shas → emits (E := E) (set_snapshot target shas) (quietly anything).
Proof. intros Hs. apply emits_lane. intros s [Ht Hl]. split; [done|by apply map_Forall_insert_2]. Qed.

Lemma emits_set_initialized {E} key : emits (E := E) (set_initialized key) (quietly anything).
Proof. by apply emits_lane. Qed.

Definition run_event (target : CiRepoTarget) (e : IngressEvent) : Prop :=
  ∃ run d, workflow_run_event codec run target = Some d ∧ e = ci_event d now.

Definition check_event (target : CiRepoTarget) (e : IngressEvent) : Prop :=
  ∃ run sha d, check_run_event codec run target sha = Some d ∧ e = ci_event d now.

Definition check_url (target : CiRepoTarget) (sha : rstr) : rstr :=
  ct_base_url target ++ lit "/repos/" ++ ct_repo target ++ lit "/commits/" ++ sha
  ++ lit "/check-runs?per_page=" ++ PER_PAGE.

Lemma emits_poll_runs target previous bypass :
  tracked_ok previous → emits (poll_runs codec target previous bypass now)
    (polls fst 1 (λ q, get_url q = runs_url target) (run_event target)).
Proof.
  intros Hprev. apply (emits_quiet_polls _ _ _ _ _ _ (only_err PollFailed)).
  { destruct bypass; [by apply emits_ret|apply emits_read_store]. }
  intros etag. apply (emits_asking_polls _ _ _ 0 1 _ _ _ (emits_send_conditional _ _)); [by intros r res (? & ? & _)|].
  intros response. case_match.
  { eapply emits_quiet_polls; [apply emits_update_conditional|intros _].
    eapply emits_quiet_polls; [by apply emits_set_tracked|intros _].
    eapply (emits_quiet_polls _ _ _ _ _ _ anything); [by apply emits_get|intros snapshot].
    by eapply emits_ret, polls_quiet. }
  apply emits_refused. intros _. eapply emits_quiet_polls; [apply emits_read_bounded|intros body].
  destruct (ic_runs codec body) as [runs|]; [|apply emits_throw, polls_err].
  eapply emits_counted_polls; [apply emits_process_events|].
  { intros d Hd. apply list_elem_of_omap in Hd as (run & _ & Hd). by exists run, d. }
  intros outcome. eapply emits_quiet_bind; [apply emits_update_conditional|intros _ _|done].
  eapply emits_quiet_bind; [apply emits_set_initialized|intros _ _|done].
  eapply emits_quiet_bind; [apply emits_set_tracked, union_tracked_ok, in_flight_shas_ok|intros _ _|done].
  eapply emits_quiet_bind; [apply emits_set_snapshot, in_flight_shas_ok|intros _ _; by apply emits_ret|done].
Qed.

Lemma emits_poll_check_runs target sha :
  emits (poll_check_runs codec target sha now) (polls id 1 (λ q, get_url q = check_url target sha) (check_event target)).
Proof.
  eapply emits_quiet_polls; [apply emits_read_store|]. intros etag.
  apply (emits_asking_polls _ _ _ 0 1 _ _ _ (emits_send_conditional _ _)); [by intros r res (? & ? & _)|].
  intros response. case_match.
  { eapply emits_quiet_polls; [apply emits_update_conditional|intros _]. by eapply emits_ret, polls_quiet. }
  apply emits_refused. intros _. eapply emits_quiet_polls; [apply emits_read_bounded|intros body].
  destruct (ic_checks codec body) as [checks|]; [|apply emits_throw, polls_err].
  eapply emits_quiet_polls; [apply emits_read_store|]. intros []; cbn [negb].
  - eapply emits_counted_polls; [apply emits_process_events|].
    { intros d Hd. apply list_elem_of_omap in Hd as (run & _ & Hd). by exists run, sha, d. }
    intros outcome. eapply emits_quiet_bind; [apply emits_update_conditional|intros _ _; by apply emits_ret|done].
  - eapply emits_quiet_polls; [apply emits_register_keys|intros _].
    eapply emits_quiet_polls; [by apply emits_write_store|intros _].
    eapply emits_quiet_polls; [apply emits_update_conditional|intros _]. by eapply emits_ret, polls_quiet.
Qed.

(** *** Rounds *)

(** At most [n] requests, all [asked], and only [good] events offered. *)
Definition rounds {E A} (n : nat) (asked : HttpGet → Prop) (good : IngressEvent → Prop) : Transcript E A :=
  λ r o a _, (length r ≤ n)%nat ∧ Forall asked r ∧ Forall (λ e, ev_accepted_at_secs e = now ∧ good e) o.

Section rounds.
Context (asked : HttpGet → Prop) (good : IngressEvent → Prop).

Lemma rounds_nil {E A} n (res : result A E) : rounds n asked good [] [] [] res.
Proof. split; [cbn; lia|]. by split; constructor. Qed.

Lemma rounds_mono {E A} n n' (asked' : HttpGet → Prop) (good' : IngressEvent → Prop) r o a (res res' : result A E) :
  (n' ≤ n)%nat → (∀ q, asked' q → asked q) → (∀ e, good' e → good e) →
  rounds n' asked' good' r o a res → rounds n asked good r o a res'.
Proof.
  intros Hn Ha Hg (Hl & Hr & Ho). split; [lia|]. split; [by eapply Forall_impl|]. eapply Forall_impl; [exact Ho|naive_solver].
Qed.

Lemma emits_rounds_bind {E A B} n m (c : P E A) (k : A → P E B) :
  emits c (rounds n asked good) → (∀ x, emits (k x) (rounds m asked good)) →
  emits (bind c k) (rounds (n + m) asked good).
Proof.
  intros Hc Hk. eapply emits_bind; [exact Hc| |].
  - intros r o a x (Hl & Hr & Ho). eapply emits_mono; [apply Hk|]. intros r' o' a' res (Hl' & Hr' & Ho').
    split; [rw length_app; lia|]. by split; apply Forall_app.
  - intros r o a e (Hl & Hr & Ho). split; [lia|done].
Qed.

Lemma emits_quiet_rounds {E A B} n (m : P E A) (k : A → P E B) (R : result A E → Prop) :
  emits m (quietly R) → (∀ x, R (Ok x) → emits (k x) (rounds n asked good)) → emits (bind m k) (rounds n asked good).
Proof. intros Hm Hk. eapply emits_quiet_bind; [exact Hm|done|]. intros e _. apply rounds_nil. Qed.

Lemma emits_attempt_rounds {A} (out : A → PollOutcome) n (m : P PollError A) :
  emits m (polls out n asked good) → emits (attempt m) (rounds n asked good).
Proof. intros Hm. eapply emits_attempt; [exact Hm|]. intros r o a res (Hl & Hr & Ho & _). done. Qed.
End rounds.

Lemma polls_mono {A} (out : A → PollOutcome) n (asked asked' : HttpGet → Prop) (good good' : IngressEvent → Prop) r o a res :
  (∀ q, asked' q → asked q) → (∀ e, good' e → good e) → polls out n asked' good' r o a res → polls out n asked good r o a res.
Proof.
  intros Ha Hg (Hl & Hr & Ho & Hc). split; [done|]. split; [by eapply Forall_impl|]. split; [|done].
  eapply Forall_impl; [exact Ho|naive_solver].
Qed.

Lemma emits_poll_all targets :
  emits (poll_all codec targets now)
    (rounds (length targets * MAX_PAGES_PER_POLL) (λ q, ∃ t, t ∈ targets ∧ feed_request t q)
       (λ e, ∃ t, t ∈ targets ∧ feed_event t e)).
Proof.
  induction targets as [|t targets IH]; cbn [poll_all length Nat.mul]; [apply emits_ret, rounds_nil|].
  apply emits_rounds_bind.
  - apply (emits_attempt_rounds _ _ id). eapply emits_mono; [apply emits_poll_one|]. intros r o a res.
    apply polls_mono; intros x Hx; exists t; (split; [by left|done]).
  - intros outcome. rw -(Nat.add_0_r (length targets * _)). apply emits_rounds_bind; [|intros; apply emits_ret, rounds_nil].
    eapply emits_mono; [apply IH|]. intros r o a res. apply rounds_mono; [done| |]; intros x (t' & Ht & Hx); exists t'; (split; [by right|done]).
Qed.

(** The requests and events of a repository's CI. *)
Definition ci_request (target : CiRepoTarget) (q : HttpGet) : Prop :=
  get_url q = runs_url target ∨ ∃ sha, get_url q = check_url target sha.

Definition ci_good (target : CiRepoTarget) (e : IngressEvent) : Prop := run_event target e ∨ check_event target e.

Lemma emits_poll_tracked target in_flight shas :
  emits (poll_tracked codec target in_flight shas now) (rounds (length shas) (ci_request target) (ci_good target)).
Proof.
  induction shas as [|sha shas IH]; cbn [poll_tracked]; [apply emits_ret, rounds_nil|].
  change (length (sha :: shas)) with (1 + length shas)%nat. apply emits_rounds_bind.
  - apply (emits_attempt_rounds _ _ id). eapply emits_mono; [apply emits_poll_check_runs|]. intros r o a res.
    apply polls_mono; intros x Hx; right; eauto.
  - intros outcome. eapply (emits_quiet_rounds _ _ _ _ _ anything).
    { destruct outcome; [|by apply emits_ret]. destruct (from_option _ _ _); [|by apply emits_ret].
      eapply emits_mono; [apply emits_read_store|]. by intros r o a res (-> & -> & -> & _). }
    intros quiet _. rw -(Nat.add_0_r (length shas)). apply emits_rounds_bind; [done|].
    intros [outcomes quiets]. apply emits_ret, rounds_nil.
Qed.

Lemma emits_prune prefix keep : emits (prune prefix keep) (quietly (only_err IngressStoreError)).
Proof.
  eapply emits_quiet_bind; [apply emits_read_store|intros gone _|done].
  induction gone as [|e gone IH]; cbn [delete_endpoints]; [by apply emits_ret|].
  eapply emits_quiet_bind; [by apply emits_write_store|by intros|done].
Qed.

Lemma emits_take_tracked {E} target : emits (E := E) (take_tracked target) (quietly (λ r, ∃ l, r = Ok l ∧ tracked_ok l)).
Proof.
  apply emits_get. intros s [Ht _]. do 3 (split; [done|]). eexists. split; [done|].
  destruct (tracked (ps_lane s) !! ct_repo target) eqn:Es; [by eapply (Ht (ct_repo target))|apply tracked_ok_nil].
Qed.

Lemma emits_poll_repo target :
  emits (poll_repo codec target now) (rounds (1 + MAX_TRACKED_HEAD_SHAS) (ci_request target) (ci_good target)).
Proof.
  eapply emits_quiet_rounds; [apply emits_take_tracked|]. intros previous (? & [= <-] & Hprev).
  eapply (emits_quiet_rounds _ _ _ _ _ anything); [by apply emits_get|intros initialized _].
  apply emits_rounds_bind.
  { eapply emits_attempt_rounds. eapply emits_mono; [by apply emits_poll_runs|]. intros r o a res.
    apply polls_mono; intros x Hx; by left. }
  intros runs. eapply emits_quiet_rounds; [apply emits_take_tracked|]. intros shas (? & [= <-] & Hshas).
  rw -(Nat.add_0_r MAX_TRACKED_HEAD_SHAS). apply emits_rounds_bind.
  { eapply emits_mono; [apply emits_poll_tracked|]. intros r o a res. apply rounds_mono; try done. apply Hshas. }
  intros [outcomes quiet]. eapply emits_quiet_rounds; [apply emits_prune|intros _ _].
  eapply (emits_quiet_rounds _ _ _ _ _ anything); [|intros _ _; apply emits_ret, rounds_nil].
  destruct (is_empty quiet); [by apply emits_ret|].
  eapply (emits_quiet_bind (λ r, ∃ l, r = Ok l ∧ from_option tracked_ok True l)).
  - apply emits_get. intros s [Ht _]. do 3 (split; [done|]). eexists. split; [done|].
    destruct (tracked (ps_lane s) !! ct_repo target) eqn:Es; [by eapply (Ht (ct_repo target))|done].
  - intros [l|] (? & [= <-] & Hl); [|by apply emits_ret]. by apply emits_set_tracked, tracked_ok_filter.
  - by intros e (? & ? & _).
Qed.
End emits.
