(* ===== verification/IngressRun.v ===== *)
(** * The event ingress over a daemon's life

    The daemon's rounds (the pollers, the loop draining the queue, the intake
    lane, restarts) as steps on one state, and what holds in every state they
    reach.  Then the intake lane: what it writes to the board and that it loses
    no report. *)

From S2P Require Import Prelude BTree Text Time Substring RunState WorkerAction Ingress Poller PollerSafe.

Section run.
Context {W : Type} `{IngressWorld W} `{IntakeBoard W}.
Context (codec : IngressCodec) (to_lowercase : rstr → rstr) (service_identities : list rstr).
Context (repos : list rstr) (base_url : rstr).
Implicit Types s : PollState W.

Definition lane_new : CiLane := MkCiLane ∅ ∅ ∅.

Definition put_queue s (q : IngressQueue) : PollState W :=
  MkPollState (ps_world s) (ps_store s) q (ps_intake s) (ps_lane s) (ps_requests s) (ps_offered s).

(** One round of the daemon at time [now].  A restart loses the queue and the
    lane's sets and keeps the database; the logs are the history's. *)
Inductive ingress_step (now : N) : PollState W → PollState W → Prop :=
| step_feed s : ingress_step now s (poll_all codec (poll_targets repos base_url) now s).1
| step_ci s target : target ∈ ci_targets repos base_url → ingress_step now s (poll_repo codec target now s).1
| step_drain s ids : ingress_step now s (put_queue s (drain_pending (ps_queue s) ids).1)
| step_take_all s : ingress_step now s (put_queue s (take_all (ps_queue s)).1)
| step_status s : ingress_step now s (put_queue s (degraded (ps_queue s) now).1)
| step_intake s t take_fails reput_fails w t' :
    ps_intake s = Some t →
    attach_tick to_lowercase service_identities (ps_world s) t take_fails reput_fails = (w, t') →
    ingress_step now s (put_intake (put_world s w) (Some t'))
| step_restart s w capacity q intake :
    IngressQueue_new capacity = Ok q →
    ingress_step now s (MkPollState w (ps_store s) q intake lane_new (ps_requests s) (ps_offered s)).

(** The states of a daemon whose clock does not go back, from any database. *)
Inductive reachable : N → PollState W → Prop :=
| reach_start now w st capacity q intake :
    IngressQueue_new capacity = Ok q → reachable now (MkPollState w st q intake lane_new [] [])
| reach_later now now' s : now ≤ now' → reachable now s → reachable now' s
| reach_step now s s' : reachable now s → ingress_step now s s' → reachable now s'.

(** A request stays under the configured base, or at its origin. *)
Definition at_base (q : HttpGet) : Prop :=
  starts_with (trim_end_matches (N.eqb 47) base_url ++ lit "/repos/") (get_url q) = true
  ∨ ∃ t, t ∈ poll_targets repos base_url ∧ same_origin codec (get_url q) (pt_url t) = true.

Record ingress_ok (now : N) s : Prop := {
  ok_dedup : dedup_ok now (deliveries (ps_store s)) (ps_offered s);
  ok_bounded : len (queue_events (ps_queue s)) ≤ queue_capacity (ps_queue s);
  ok_lane : lane_ok (ps_lane s);
  ok_requests : Forall at_base (ps_requests s);
}.

Lemma polled_ok {E A} now (m : P E A) n asked good s :
  emits now m (rounds now n asked good) → (∀ q, asked q → at_base q) → ingress_ok now s → ingress_ok now (m s).1.
Proof.
  intros Hm Ha []. destruct (Hm s ok_lane0) as (r & o & a & [] & _ & Hr & _). split; [auto|auto|auto|].
  rw pl_requests. apply Forall_app. split; [done|]. by eapply Forall_impl.
Qed.

Lemma take_matching_len ids events : len (take_matching ids events).1 ≤ len events.
Proof.
  unfold len. induction events as [|e events IH]; cbn; [done|].
  destruct (take_matching ids events) as [kept drained]. case_bool_decide; cbn in *; lia.
Qed.

Lemma put_queue_ok now s q :
  queue_capacity q = queue_capacity (ps_queue s) → len (queue_events q) ≤ len (queue_events (ps_queue s)) →
  ingress_ok now s → ingress_ok now (put_queue s q).
Proof. intros Ec El []. split; cbn; [done|lia|done|done]. Qed.

Lemma IngressQueue_new_ok capacity q : IngressQueue_new capacity = Ok q → len (queue_events q) ≤ queue_capacity q.
Proof. unfold IngressQueue_new. case_match; [done|]. intros [= <-]. apply N.le_0_l. Qed.

Lemma lane_new_ok : lane_ok lane_new.
Proof. split; apply map_Forall_empty. Qed.

Lemma base_request url rest : url = trim_end_matches (N.eqb 47) base_url ++ lit "/repos/" ++ rest →
  ∀ q, get_url q = url → at_base q.
Proof. intros -> q Hq. left. rw Hq. apply starts_with_spec. exists rest. by rw -app_assoc. Qed.

Lemma feed_at_base q t : t ∈ poll_targets repos base_url → feed_request codec t q → at_base q.
Proof.
  intros Ht [Hq|[Hq _]]; [|by right; exists t].
  pose proof Ht as (repo & -> & _)%list_elem_of_fmap. by eapply base_request.
Qed.

Lemma ci_at_base q t : t ∈ ci_targets repos base_url → ci_request t q → at_base q.
Proof.
  intros (repo & -> & _)%list_elem_of_fmap [Hq|[sha Hq]]; by eapply base_request.
Qed.

Lemma ingress_step_ok now s s' : ingress_ok now s → ingress_step now s s' → ingress_ok now s'.
Proof.
  intros Hok Hst. destruct Hst as [s|s target Ht|s ids|s|s|s t tf rf w t' Et Ek|s w capacity q intake Eq].
  - eapply polled_ok; [apply emits_poll_all| |done]. intros q (t & Ht & Hq). by eapply feed_at_base.
  - eapply polled_ok; [apply emits_poll_repo| |done]. intros q Hq. by eapply ci_at_base.
  - unfold drain_pending, take_by_ids. pose proof (take_matching_len ids (queue_events (ps_queue s))) as Hl.
    destruct (take_matching ids _) as [kept drained]. by apply put_queue_ok.
  - apply put_queue_ok; [done|apply N.le_0_l|done].
  - unfold degraded. repeat case_match; by apply put_queue_ok.
  - by destruct Hok.
  - destruct Hok. split; [done|by eapply IngressQueue_new_ok|apply lane_new_ok|done].
Qed.

Lemma reachable_ok now s : reachable now s → ingress_ok now s.
Proof.
  induction 1 as [now w st capacity q intake Eq|now now' s Hle _ []|now s s' _ IH Hst].
  - split; [apply dedup_ok_nil|by eapply IngressQueue_new_ok|apply lane_new_ok|constructor].
  - split; [by eapply dedup_ok_later|done|done|done].
  - by eapply ingress_step_ok.
Qed.

(** C12. Whatever the platform answers, whichever database calls fail, and across
    restarts: between two offers of one delivery key to the queue more than the
    redelivery window passes, so no event starts work twice within it, and the
    queue never holds more than its capacity. *)
Theorem ingress_no_second_kickoff now s :
  reachable now s →
  (∀ i j e e', (i < j)%nat → ps_offered s !! i = Some e → ps_offered s !! j = Some e' →
     ev_delivery_key e = ev_delivery_key e' → ev_accepted_at_secs e + REDELIVERY_WINDOW_SECS < ev_accepted_at_secs e')
  ∧ len (queue_events (ps_queue s)) ≤ queue_capacity (ps_queue s).
Proof. intros [[Hs _] Hb _ _]%reachable_ok. by split. Qed.

(** Every request of the pollers goes to a URL under the configured base or
    to a next page with the scheme, host and port of a polled endpoint; one feed
    poll sends at most ten requests, one CI round at most seventeen, and no
    repository has more than sixteen revisions tracked. *)
Theorem ingress_requests_confined now s :
  reachable now s →
  Forall at_base (ps_requests s)
  ∧ (∀ target, ∃ rs, ps_requests (poll_one codec target now s).1 = ps_requests s ++ rs
       ∧ (length rs ≤ MAX_PAGES_PER_POLL)%nat
       ∧ Forall (λ q, get_url q = pt_url target ∨ same_origin codec (get_url q) (pt_url target) = true) rs)
  ∧ (∀ target, ∃ rs, ps_requests (poll_repo codec target now s).1 = ps_requests s ++ rs
       ∧ (length rs ≤ 1 + MAX_TRACKED_HEAD_SHAS)%nat)
  ∧ (∀ repo shas, tracked (ps_lane s) !! repo = Some shas → (length shas ≤ MAX_TRACKED_HEAD_SHAS)%nat ∧ NoDup shas).
Proof.
  intros [_ _ Hl Hr]%reachable_ok. split; [done|]. split; [|split].
  - intros target. destruct (emits_poll_one codec now target s Hl) as (r & o & a & [] & Hn & Hq & _).
    exists r. split; [done|]. split; [done|]. eapply Forall_impl; [exact Hq|]. intros q [|[]]; auto.
  - intros target. destruct (emits_poll_repo codec now target s Hl) as (r & o & a & [] & Hn & _). by exists r.
  - intros repo shas E. destruct Hl as [Ht _]. by apply (Ht repo).
Qed.

(** *** The first poll *)

(** A step that keeps [J] and ends with [R]. *)
Definition holding {E A} (J : PollState W → Prop) (R : A → Prop) (m : P (W := W) E A) : Prop :=
  ∀ s, J s → J (m s).1 ∧ match (m s).2 with Ok x => R x | Err _ => True end.

Section unseen.
Context (now : N) (key : rstr) (offered : list IngressEvent).

(** Nothing new was offered, and the endpoint [key] is not baselined. *)
Definition unseen s : Prop :=
  lane_ok (ps_lane s) ∧ ps_offered s = offered ∧ is_baselined (ps_store s) key = false.

Definition unoffered s : Prop := ps_offered s = offered.

Lemma holding_read {E A} (e : E) (f : IngressStore → A) (R : A → Prop) :
  (∀ st, is_baselined st key = false → R (f st)) → holding unseen R (read_store e f).
Proof.
  intros Hf s (Hl & Ho & Hb). unfold read_store, on_store, bind, database_fails, throw.
  destruct (iw_database_fails (ps_world s)) as [w []]; cbn; (split; [done|]); auto.
Qed.

Lemma holding_send_conditional url etag : holding unseen (λ _, True) (send_conditional codec url etag).
Proof.
  intros s Hs. unfold send_conditional, bind, bearer_token, send, throw. destruct (iw_token (ps_world s)) as [w [t|]]; cbn; [|done].
  destruct (from_option _ _ _); [|done]. cbn. destruct (iw_get w _) as [w' resp]. cbn. split; [done|]. by destruct resp.
Qed.

(** The last step may baseline the endpoint. *)
Lemma asking_unoffered {E A} (m : P E A) s : emits now m (asking (λ _ _, True)) → unseen s → unoffered (m s).1.
Proof.
  intros Hm (Hl & Ho & _). destruct (Hm s Hl) as (r & o & a & [] & -> & _). unfold unoffered.
  by rw pl_offered app_nil_r.
Qed.

Lemma unseen_bind {E A B} (R : A → Prop) (m : P E A) (k : A → P E B) s :
  holding unseen R m → (∀ x s, R x → unseen s → unoffered (k x s).1) → unseen s → unoffered (bind m k s).1.
Proof.
  intros Hm Hk Hs. unfold bind. destruct (Hm s Hs) as [Hj Hr]. destruct (m s) as [s1 [x|e]]; [by apply Hk|].
  by destruct Hj as (_ & Ho & _).
Qed.
End unseen.

(** The first poll of an endpoint takes what it reads as history. *)
Lemma first_poll_offers_nothing now s target :
  lane_ok (ps_lane s) → is_baselined (ps_store s) (pt_key target) = false →
  ps_offered (poll_one codec target now s).1 = ps_offered s.
Proof.
  intros Hl Hb. assert (unseen (pt_key target) (ps_offered s) s) as Hs by done. revert Hs. unfold poll_one.
  apply (unseen_bind _ _ (λ _, True)); [by apply holding_read|]. intros etag s1 _.
  apply (unseen_bind _ _ (λ _, True)); [apply holding_send_conditional|]. intros response s2 _.
  destruct (rs_status response =? 304); [|destruct (limited response); [|destruct (negb (is_success response))]].
  1,2,3: apply (asking_unoffered now); (eapply emits_quiet_bind; [apply emits_update_conditional| |done]);
    intros _ _; by apply emits_ret || by apply emits_throw.
  apply (unseen_bind _ _ (λ b, b = false)); [by apply holding_read|]. intros b s3 ->.
  apply (asking_unoffered now). eapply emits_quiet_bind; [apply emits_read_store|intros last_seen _|done].
  eapply emits_bind; [apply emits_page_loop| |by intros ???? (-> & -> & _)].
  intros r o a [items max_id] (-> & -> & _). cbn [negb]. apply (emits_mono _ _ (asking (λ _ _, True))).
  2:{ by intros r' o' a' res (-> & -> & _). }
  eapply emits_quiet_bind; [apply emits_register_keys|intros _ _|done].
  eapply emits_quiet_bind; [apply emits_register_ids|intros _ _|done].
  eapply emits_quiet_bind; [by apply emits_write_store|intros _ _|done].
  eapply emits_quiet_bind; [apply emits_update_conditional|intros _ _; by apply emits_ret|done].
Qed.

(** The counters of a poll are what the queue did: [accepted] events were
    appended in order, [dropped] were refused by the full queue, and a drop
    leaves the queue marked degraded; the first poll of an endpoint offers
    nothing. *)
Theorem poll_outcome_exact now s s' target out :
  reachable now s → poll_one codec target now s = (s', Ok out) →
  ∃ offered accepted,
    ps_offered s' = ps_offered s ++ offered
    ∧ queue_events (ps_queue s') = queue_events (ps_queue s) ++ accepted
    ∧ sublist accepted offered
    ∧ po_accepted out = len accepted ∧ po_dropped out + len accepted = len offered
    ∧ (0 < po_dropped out → degraded (ps_queue s') now = (ps_queue s', true))
    ∧ Forall (λ e, ev_repo e = pt_repo target ∧ ev_accepted_at_secs e = now) offered
    ∧ (is_baselined (ps_store s) (pt_key target) = false → offered = []).
Proof.
  intros [_ _ Hl _]%reachable_ok Hp. destruct (emits_poll_one codec now target s Hl) as (r & o & a & [] & _ & _ & Ho & Hc).
  rw Hp in pl_offered pl_accepted pl_degraded Hc. cbn [fst snd id] in *. destruct Hc as [Ha Hd]. exists o, a.
  do 5 (split; [done|]). split; [|split].
  - intros Hpos. rw bool_decide_eq_false_2 in pl_degraded; [|unfold len in *; lia]. unfold degraded. rw pl_degraded.
    unfold saturating_sub. by rw N.sub_diag.
  - eapply Forall_impl; [exact Ho|]. by intros e (Ea & i & d & _ & ->).
  - intros Hb. pose proof (first_poll_offers_nothing now s target Hl Hb) as E. rw Hp in E. cbn in E.
    rw pl_offered in E. by apply (app_inv_head (ps_offered s)); rw app_nil_r.
Qed.
End run.

(** ** The intake lane *)

Record AttachCall := MkAttachCall {
  ac_repo : rstr; ac_number : N; ac_item_type : rstr; ac_status : rstr; ac_priority : rstr; ac_label : rstr;
}.

(** A board that logs the calls made to it. *)
#[export] Instance logging_board {W} `{IntakeBoard W} : IntakeBoard (W * list AttachCall) := {
  board_attach := λ '(w, log) repo number item_type status priority label,
    let '(w', r) := board_attach w repo number item_type status priority label in
    ((w', log ++ [MkAttachCall repo number item_type status priority label]), r);
}.

Section intake.
Context {W : Type} `{IntakeBoard W} (to_lowercase : rstr → rstr) (service_identities : list rstr).

(** The board item an event asks for. *)
Definition attachment_of (event : IngressEvent) : option IntakeAttachment :=
  login ← ev_author_login event;
  intake_attachment event (classify_author_opt to_lowercase login (ev_author_is_bot event) service_identities).

Definition call_of (a : IntakeAttachment) : AttachCall :=
  MkAttachCall (at_repo a) (at_number a) (at_item_type a) (at_status a) (at_priority a) (at_label a).

Definition io_total (o : IntakeOutcome) : N :=
  io_attached o + io_already_attached o + io_skipped o + io_missing_author o + io_failed o.

Definition intake_progress (o : IntakeOutcome) (events failed : list IngressEvent) (o' : IntakeOutcome) : Prop :=
  io_total o' = io_total o + len events
  ∧ io_failed_events o' = io_failed_events o ++ failed
  ∧ io_failed o' = io_failed o + len failed
  ∧ sublist failed (List.filter (λ e, bool_decide (is_Some (attachment_of e))) events).

Lemma process_event_ok (w : W) log o e w' log' o' :
  process_event to_lowercase service_identities (w, log) o e = ((w', log'), o') →
  log' = log ++ from_option (λ a, [call_of a]) [] (attachment_of e)
  ∧ ∃ failed, intake_progress o [e] failed o'.
Proof.
  assert (∀ failed o', io_total o' = io_total o + 1 → io_failed_events o' = io_failed_events o ++ failed →
    io_failed o' = io_failed o + len failed →
    sublist failed (if bool_decide (is_Some (attachment_of e)) then [e] else []) →
    ∃ failed, intake_progress o [e] failed o') as Hone by (intros failed; by exists failed).
  unfold process_event. destruct o as [at_ al sk mi fa fe].
  destruct (ev_author_login e) as [login|] eqn:El.
  2:{ assert (attachment_of e = None) as -> by (unfold attachment_of; by rw El). intros [= <- <- <-].
      rw app_nil_r. split; [done|]. apply (Hone []); unfold io_total, len; cbn -[N.add]; rw ?app_nil_r; done || lia || apply sublist_nil_l. }
  assert (attachment_of e = intake_attachment e
    (classify_author_opt to_lowercase login (ev_author_is_bot e) service_identities)) as Ex by (unfold attachment_of; by rw El).
  destruct (intake_attachment e _) as [a|] eqn:Ea; rw Ex; rw Ex in Hone.
  2:{ intros [= <- <- <-]. rw app_nil_r. split; [done|].
      apply (Hone []); unfold io_total, len; cbn -[N.add]; rw ?app_nil_r; done || lia || apply sublist_nil_l. }
  unfold board_attach at 1, logging_board. destruct (board_attach w _ _ _ _ _ _) as [w1 r] eqn:Eb.
  intros [= <- <- <-]. split; [done|].
  destruct r as [[]|err]; [apply (Hone [])|apply (Hone [])|apply (Hone [e])]; unfold io_total, len; cbn -[N.add];
    rw ?app_nil_r; done || lia || apply sublist_nil_l.
Qed.

Lemma intake_progress_trans o es fs o1 es' fs' o2 :
  intake_progress o es fs o1 → intake_progress o1 es' fs' o2 → intake_progress o (es ++ es') (fs ++ fs') o2.
Proof.
  intros (A1 & A2 & A3 & A4) (B1 & B2 & B3 & B4). unfold intake_progress. rw !len_app List.filter_app.
  split; [lia|]. split; [by rw B2 A2 app_assoc|]. split; [lia|]. by apply sublist_app.
Qed.

Lemma process_ok (w : W) log events w' log' o' :
  process to_lowercase service_identities (w, log) events = ((w', log'), o') →
  log' = log ++ (call_of <$> omap attachment_of events)
  ∧ ∃ failed, intake_progress IntakeOutcome_default events failed o'.
Proof.
  unfold process. intros Hp.
  assert (∀ es w log o w' log' o',
    foldl (λ '(w, o) e, process_event to_lowercase service_identities w o e) ((w, log), o) es = ((w', log'), o') →
    log' = log ++ (call_of <$> omap attachment_of es) ∧ ∃ failed, intake_progress o es failed o') as Hgo; [|by eapply Hgo].
  clear. induction es as [|e es IH]; intros w log o w' log' o'; cbn [foldl].
  { intros [= <- <- <-]. cbn. rw app_nil_r. split; [done|]. exists []. unfold intake_progress, len. cbn.
    rw app_nil_r !N.add_0_r. by repeat split. }
  destruct (process_event _ _ (w, log) o e) as [[w1 log1] o1] eqn:Ee. intros Hr.
  apply process_event_ok in Ee as (-> & f1 & H1). apply IH in Hr as (-> & f2 & H2). split.
  - cbn. destruct (attachment_of e); cbn; by rw -?app_assoc /=.
  - exists (f1 ++ f2). exact (intake_progress_trans _ [e] _ _ es _ _ H1 H2).
Qed.

Lemma attachment_of_shape e a :
  attachment_of e = Some a →
  at_repo a = ev_repo e ∧ at_number a = ev_number e ∧ at_status a = lit "Triage" ∧ at_item_type a = lit "Bug"
  ∧ at_priority a = lit "P1" ∧ ev_event_type e = lit "issues-opened"
  ∧ (at_label a = lit "intake:human" ∨ at_label a = lit "intake:bot").
Proof.
  unfold attachment_of, intake_attachment. destruct (ev_author_login e); cbn [mbind option_bind]; [|done].
  case_bool_decide as Et; cbn [negb]; [|done]. case_bool_decide as Ea; [done|]. intros [= <-]. cbn.
  do 6 (split; [done|]). destruct (classify_author_opt _ _ _ _); auto. done.
Qed.

(** The intake lane asks the board exactly for the attachable events, once
    each and in order, always as a triage bug of priority P1 labelled human or
    bot (never for a service identity's own issue); every event is counted in
    one bucket, and the failed ones are those kept for the next turn. *)
Theorem intake_attaches_exactly (w w' : W) events log' out :
  process to_lowercase service_identities (w, []) events = ((w', log'), out) →
  log' = call_of <$> omap attachment_of events
  ∧ Forall (λ c, ac_status c = lit "Triage" ∧ ac_item_type c = lit "Bug" ∧ ac_priority c = lit "P1"
                 ∧ (ac_label c = lit "intake:human" ∨ ac_label c = lit "intake:bot")) log'
  ∧ io_total out = len events
  ∧ io_failed out = len (io_failed_events out)
  ∧ sublist (io_failed_events out) (List.filter (λ e, bool_decide (is_Some (attachment_of e))) events).
Proof.
  intros (-> & failed & Ht & Hf & Hn & Hs)%process_ok. cbn in *. split; [done|]. split.
  - apply Forall_fmap, Forall_forall. intros a (e & _ & Ha)%list_elem_of_omap.
    apply attachment_of_shape in Ha. cbn. tauto.
  - rw Hf Hn. split; [rw Ht|]; [unfold io_total; cbn; lia|]. split; [lia|done].
Qed.

(** *** The table *)

(** The columns are SQLite integers. *)
Definition rows_ok (t : IntakeTable) : Prop :=
  map_Forall (λ _ r, ir_number r ≤ i64_max ∧ ir_accepted_secs r ≤ i64_max) t.

Lemma put_sync_rows_ok t e : rows_ok t → rows_ok (put_sync t e).
Proof. intros Ht. unfold put_sync. case_match; [done|]. apply map_Forall_insert_2; [cbn; lia|done]. Qed.

Lemma row_of_event_of k r : ir_number r ≤ i64_max → ir_accepted_secs r ≤ i64_max → row_of (event_of k r) = r.
Proof. intros Hn Ha. destruct r. unfold row_of. cbn in *. by rw !N.min_l. Qed.

Lemma intake_order_elem t e : e ∈ intake_order t ↔ ∃ r, t !! ev_delivery_key e = Some r ∧ e = event_of (ev_delivery_key e) r.
Proof.
  unfold intake_order. rw (merge_sort_Permutation (by_key _)) list_elem_of_fmap. split.
  - intros ([k r] & -> & Hk%elem_of_map_to_list). by exists r.
  - intros (r & Hr & He). exists (ev_delivery_key e, r). split; [done|]. by apply elem_of_map_to_list.
Qed.

Lemma delete_keys_lookup (t : IntakeTable) (events : list IngressEvent) k :
  foldl (λ t e, delete (ev_delivery_key e) t) t events !! k
  = if bool_decide (k ∈ ev_delivery_key <$> events) then None else t !! k.
Proof.
  revert t. induction events as [|e events IH]; intros t; cbn [foldl fmap list_fmap].
  { rw bool_decide_eq_false_2; [done|apply not_elem_of_nil]. }
  rw IH. destruct (decide (k = ev_delivery_key e)) as [->|Hne].
  - rw lookup_delete_eq (bool_decide_eq_true_2 (_ ∈ _ :: _)); [by case_bool_decide|by left].
  - rw lookup_delete_ne; [|done]. case_bool_decide as H1; case_bool_decide as H2; try done; rw elem_of_cons in H2; naive_solver.
Qed.

Lemma take_sync_elem t limit e :
  e ∈ (take_sync t limit).2 → ∃ r, t !! ev_delivery_key e = Some r ∧ e = event_of (ev_delivery_key e) r.
Proof. cbn. intros He. apply intake_order_elem. eapply elem_of_sublist; [exact He|apply sublist_take]. Qed.

Lemma reput_lookup (t t1 : IntakeTable) events fails k :
  rows_ok t → (∀ e, e ∈ events → ∃ r, t !! ev_delivery_key e = Some r ∧ e = event_of (ev_delivery_key e) r) →
  (∀ k r, t1 !! k = Some r → t !! k = Some r) → Forall (λ b, b = false) fails →
  reput t1 events fails !! k = if bool_decide (k ∈ ev_delivery_key <$> events) then t !! k else t1 !! k.
Proof.
  intros Hok. revert t1 fails. induction events as [|e events IH]; intros t1 fails Hev Hsub Hf; cbn [reput fmap list_fmap].
  { rw bool_decide_eq_false_2; [done|apply not_elem_of_nil]. }
  assert (default false (head fails) = false) as -> by (by destruct Hf as [|? ? ->]).
  destruct (Hev e) as (r & Hr & He); [by left|].
  assert (put_sync t1 e = <[ev_delivery_key e := r]> t1) as ->.
  { unfold put_sync. destruct (t1 !! ev_delivery_key e) as [r'|] eqn:E1.
    - pose proof (Hsub _ _ E1) as E2. rw Hr in E2. injection E2 as ->. by rw insert_id.
    - rw He. cbn. rw row_of_event_of; [done|by apply (Hok _ _ Hr)|by apply (Hok _ _ Hr)]. }
  rw IH; [|intros e' He'; apply Hev; by right| |by destruct Hf].
  2:{ intros k' r'. rw lookup_insert_Some. intros [[<- <-]|[_ ?]]; auto. }
  destruct (decide (k = ev_delivery_key e)) as [->|Hne].
  - rw lookup_insert_eq (bool_decide_eq_true_2 (_ ∈ _ :: _)); [by case_bool_decide|by left].
  - rw lookup_insert_ne; [|done]. case_bool_decide as H1; case_bool_decide as H2; try done; rw elem_of_cons in H2; naive_solver.
Qed.

Lemma failed_events_sub (w : W) events :
  sublist (io_failed_events (process to_lowercase service_identities w events).2) events.
Proof.
  unfold process. assert (∀ es o w, ∃ f, sublist f es ∧
    io_failed_events (foldl (λ '(w, o) e, process_event to_lowercase service_identities w o e) (w, o) es).2
    = io_failed_events o ++ f) as Hgo; [|by destruct (Hgo events IntakeOutcome_default w) as (f & Hf & ->)].
  clear. induction es as [|e es IH]; intros o w; cbn [foldl]; [exists []; by rw app_nil_r|].
  destruct (process_event _ _ w o e) as [w1 o1] eqn:Ee. destruct (IH o1 w1) as (f & Hf & ->).
  assert (io_failed_events o1 = io_failed_events o ∨ io_failed_events o1 = io_failed_events o ++ [e]) as [-> | ->].
  { revert Ee. unfold process_event. destruct o. repeat case_match; intros [= <- <-]; cbn; auto. }
  - exists f. split; [by constructor|done].
  - exists (e :: f). split; [by constructor|]. by rw -app_assoc.
Qed.

Lemma take_sync_oldest t limit e e' :
  e ∈ (take_sync t limit).2 → e' ∈ intake_order t → e' ∉ (take_sync t limit).2 →
  by_key (λ e, (ev_accepted_at_secs e, ev_delivery_key e)) e e'.
Proof.
  cbn. set (n := N.to_nat _). intros He He' Hn.
  pose proof (StronglySorted_merge_sort (by_key (λ e, (ev_accepted_at_secs e, ev_delivery_key e)))
    ((λ '(k, r), event_of k r) <$> map_to_list t)) as Hs. fold (intake_order t) in Hs.
  rw -(take_drop n (intake_order t)) in Hs. eapply StronglySorted_app_1_elem_of; [exact Hs|done|].
  rw -(take_drop n (intake_order t)) in He'. by apply elem_of_app in He' as [|].
Qed.

(** One turn of the intake lane, when its writes back succeed: at most 32
    reports leave the table, the oldest first, and exactly those whose board
    call did not fail are gone; every other row is as it was. *)
Theorem attach_tick_loses_nothing (w w' : W) t t' fails :
  rows_ok t → Forall (λ b, b = false) fails →
  attach_tick to_lowercase service_identities w t false fails = (w', t') →
  let events := (take_sync t INTAKE_TICK_LIMIT).2 in
  let failed := io_failed_events (process to_lowercase service_identities w events).2 in
  (length events ≤ 32)%nat ∧ sublist failed events
  ∧ (∀ e e', e ∈ events → e' ∈ intake_order t → e' ∉ events →
       by_key (λ e, (ev_accepted_at_secs e, ev_delivery_key e)) e e')
  ∧ ∀ k, t' !! k = if bool_decide (k ∈ ev_delivery_key <$> events) && negb (bool_decide (k ∈ ev_delivery_key <$> failed))
                   then None else t !! k.
Proof.
  intros Hok Hf Ht. cbv zeta. unfold attach_tick in Ht. destruct (take_sync t INTAKE_TICK_LIMIT) as [t1 events] eqn:Et.
  cbn [snd]. pose proof (failed_events_sub w events) as Hsub.
  destruct (process to_lowercase service_identities w events) as [w1 out] eqn:Ep. cbn [snd] in *.
  assert (∀ k, t1 !! k = if bool_decide (k ∈ ev_delivery_key <$> events) then None else t !! k) as Hl.
  { intros k. injection Et as <- <-. apply delete_keys_lookup. }
  split; [injection Et as _ <-; rw length_take; apply Nat.le_min_l|]. split; [done|]. split.
  { intros e e' He He' Hn. apply (take_sync_oldest t INTAKE_TICK_LIMIT); [by rw Et|done|by rw Et]. }
  intros k. destruct (is_empty events) eqn:Ee.
  { destruct events; [|done]. injection Ht as _ <-. by rw Hl. }
  injection Ht as _ <-.
  rw (reput_lookup t); [|done| | |done].
  - rw Hl. case_bool_decide; by case_bool_decide.
  - intros e He. eapply (take_sync_elem _ INTAKE_TICK_LIMIT). rw Et. by eapply elem_of_sublist.
  - intros k' r. rw Hl. by case_bool_decide.
Qed.
End intake.

(** ** Witnesses *)

Section witnesses.

(** A platform that sends canned bodies; each byte of a body is an opened issue
    with that number as its id. *)
Definition demo_issue (n : N) : RestEventItem :=
  MkRestEventItem (Some (JNumber (PosInt n))) (lit "IssuesEvent") None
    (Some (MkRestPayload (Some (lit "opened"))
             (Some (MkRestIssueRef n None (Some (MkRestUser (Some (lit "ann")) (Some (lit "User")))))) None)).

Definition demo_codec : IngressCodec :=
  MkIngressCodec (λ body, Some ((λ n, JNumber (PosInt n)) <$> body))
    (λ j, match j with JNumber (PosInt n) => Some (demo_issue n) | _ => None end)
    (λ _, None) (λ _, None) (λ _, []) (λ _, Some (MkUrl (lit "https") (Some (lit "api")) (Some 443))) (λ _, true).

#[local] Instance demo_world : IngressWorld (list (list N)) := {
  iw_get := λ w _, (tail w, (λ body, MkHttpResponse 200 (λ _, None) None (Some body)) <$> head w);
  iw_token := λ w, (w, Some (lit "t"));
  iw_database_fails := λ w, (w, false);
}.

#[local] Instance demo_board : IntakeBoard (list (list N)) := {
  board_attach := λ w _ n _ _ _ _, (w, if n =? 7 then Err [] else Ok true);
}.

Definition demo_repos : list rstr := [lit "o/r"].
Definition demo_base : rstr := lit "https://api/".
Definition demo_start : PollState (list (list N)) :=
  MkPollState [[5]; [6; 5]; [7]] (MkIngressStore ∅ ∅) (MkIngressQueue 1 [] None) (Some ∅) lane_new [] [].
Definition demo_round (now : N) (s : PollState (list (list N))) : PollState (list (list N)) :=
  (poll_all demo_codec (poll_targets demo_repos demo_base) now s).1.

Lemma demo_rounds_reachable : reachable demo_codec id [] demo_repos demo_base 200 (demo_round 200 (demo_round 100 demo_start)).
Proof.
  eapply reach_step; [|apply step_feed]. apply (reach_later _ _ _ _ _ 100); [done|].
  eapply reach_step; [|apply step_feed]. by apply (reach_start _ _ _ _ _ _ _ _ 1).
Qed.

Lemma ingress_no_second_kickoff_witness :
  let s := demo_round 200 (demo_round 100 demo_start) in
  ev_number <$> ps_offered s = [6]
  ∧ (∀ i j e e', (i < j)%nat → ps_offered s !! i = Some e → ps_offered s !! j = Some e' →
     ev_delivery_key e = ev_delivery_key e' → ev_accepted_at_secs e + REDELIVERY_WINDOW_SECS < ev_accepted_at_secs e').
Proof.
  split; [vm_compute; reflexivity|].
  apply (ingress_no_second_kickoff demo_codec id [] demo_repos demo_base 200), demo_rounds_reachable.
Defined.

Lemma ingress_requests_confined_witness :
  let s := demo_round 200 (demo_round 100 demo_start) in
  length (ps_requests s) = 2%nat ∧ Forall (at_base demo_codec demo_repos demo_base) (ps_requests s).
Proof.
  split; [vm_compute; reflexivity|].
  apply (ingress_requests_confined demo_codec id [] demo_repos demo_base 200), demo_rounds_reachable.
Defined.

(** The queue of one is full: the next event is dropped. *)
Lemma poll_outcome_exact_witness :
  let s := demo_round 200 (demo_round 100 demo_start) in
  let target := MkPollTarget (lit "https://api/repos/o/r/events") (lit "o/r/events") (lit "o/r") in
  degraded (ps_queue (poll_one demo_codec target 200 s).1) 200 = (ps_queue (poll_one demo_codec target 200 s).1, true).
Proof.
  intros s target.
  destruct (poll_outcome_exact demo_codec id [] demo_repos demo_base 200 s (poll_one demo_codec target 200 s).1 target
    (MkPollOutcome 0 0 1 0 60) demo_rounds_reachable) as (offered & accepted & _ & _ & _ & _ & _ & Hd & _).
  - vm_compute. reflexivity.
  - by apply Hd.
Defined.

Definition demo_event (n : N) (login : rstr) : IngressEvent :=
  MkIngressEvent (lit "k" ++ dec n) (lit "o/r") (lit "issues-opened") None n (Some login) (Some false) n.

Lemma intake_attaches_exactly_witness :
  let events := [demo_event 7 (lit "ann"); demo_event 8 (lit "bob"); demo_event 9 (lit "our-app[bot]")] in
  let '((w', log'), out) := process id [lit "our-app"] ([] : list (list N), []) events in
  (ac_number <$> log') = [7; 8] ∧ io_total out = 3 ∧ io_failed out = len (io_failed_events out).
Proof.
  intros events. destruct (process id [lit "our-app"] ([] : list (list N), []) events) as [[w' log'] out] eqn:E.
  destruct (intake_attaches_exactly id [lit "our-app"] _ _ _ _ _ E) as (-> & _ & Ht & Hf & _).
  split; [vm_compute; reflexivity|]. split; [by rw Ht|done].
Defined.

Lemma attach_tick_loses_nothing_witness :
  let t := put_sync (put_sync ∅ (demo_event 7 (lit "ann"))) (demo_event 8 (lit "bob")) in
  let '(w', t') := attach_tick id [] ([] : list (list N)) t false [] in
  t' !! lit "k7" = t !! lit "k7" ∧ t' !! lit "k8" = None.
Proof.
  intros t. destruct (attach_tick id [] ([] : list (list N)) t false []) as [w' t'] eqn:E.
  assert (rows_ok t) as Hok by (do 2 apply put_sync_rows_ok; apply map_Forall_empty).
  destruct (attach_tick_loses_nothing id [] _ _ t t' [] Hok (Forall_nil_2 _) E) as (_ & _ & _ & Hl).
  rw !Hl. split; vm_compute; reflexivity.
Defined.
End witnesses.
