(* ===== verification/BoardMove.v ===== *)
(** * The guarded board move

    [crates/orchestraitor-mcp/src/board_move.rs] and its driver in [gateway.rs]:
    the workflow-policy matrix, the session leases, the guarded write and the
    record of every invocation.  The board is any [BoardProvider], the audit
    store any [AuditStore], the leases any [LeaseRegistry]; the registry the
    gateway shares is the in-memory one.

    The wall clock and the generator of identifiers are inputs; the claim reads
    the clock twice, once for the expiry it asks for and once in the
    registry. *)

From S2P Require Import Prelude BTree Text Model Events BoardContract.

(** ** Statuses *)

Inductive StatusClass := Triage | Ready | InProgress | Held | ClassDone | Retired | Other.

#[export] Instance StatusClass_eq_dec : EqDecision StatusClass.
Proof. solve_decision. Defined.

Definition StatusClass_of (status : rstr) : StatusClass :=
  if bool_decide (status = lit "Triage") then Triage
  else if bool_decide (status = lit "Ready") then Ready
  else if bool_decide (status = lit "In Progress") then InProgress
  else if bool_decide (status ∈ [lit "Blocked"; lit "Approval Required"; lit "Input Required"]) then Held
  else if bool_decide (status = lit "Done") then ClassDone
  else if bool_decide (status ∈ [lit "Cancelled"; lit "Rejected"; lit "Orphaned"]) then Retired
  else Other.

Definition StatusClass_as_str (c : StatusClass) : rstr :=
  match c with
  | Triage => lit "triage" | Ready => lit "ready" | InProgress => lit "in-progress" | Held => lit "held"
  | ClassDone => lit "done" | Retired => lit "retired" | Other => lit "other"
  end.

Definition policy_allows (from to : StatusClass) : bool :=
  match from, to with
  | (Ready | Held), InProgress
  | InProgress, (Held | ClassDone)
  | Held, Ready
  | (Ready | InProgress | Held), Retired => true
  | _, _ => false
  end.

(** ** Refusals and leases *)

Inductive BoardMoveRefusal :=
| PolicyInvalid (from_class to_class : rstr) (blocking : option (list rstr))
| LeaseConflict (holder : rstr)
| MissingSession
| LeaseExpired
| UnknownStatus
| UnknownItem
| ProviderRejected
| OutOfScope.

Inductive BoardMoveError := MoveEventStore (reason : rstr).

Definition refusal_of_error (e : BoardContractError) : BoardMoveRefusal :=
  match e with
  | ItemNotFound _ | InvalidItemId => UnknownItem
  | StatusNotFound _ => UnknownStatus
  | WriteRejected _ | Transport _ => ProviderRejected
  | FieldNotFound _ | FieldTypeMismatch _ _ _ | DuplicateEdge _ _ | CrossReferenceNotFound _ _ => OutOfScope
  end.

Record ItemLease := MkItemLease { lease_holder : rstr; expires_at_unix_secs : N }.

Definition is_expired_at (l : ItemLease) (now_unix_secs : N) : bool := expires_at_unix_secs l <=? now_unix_secs.

Inductive ClaimOutcome := Claimed | Renewed | ForeignHolder (holder : rstr) | OwnExpired.

(** The trait; [try_claim] also takes the registry's reading of the clock. *)
Class LeaseRegistry (R : Type) := {
  try_claim : R → N → BoardItemId → rstr → N → R * result ClaimOutcome BoardMoveError;
  held_by : R → BoardItemId → rstr → result (option ItemLease) BoardMoveError;
  release : R → BoardItemId → rstr → R * result unit BoardMoveError;
}.

Record InMemoryLeaseRegistry := MkRegistry { leases : gmap (rstr * rstr) ItemLease; reg_poisoned : bool }.

Definition InMemoryLeaseRegistry_new : InMemoryLeaseRegistry := MkRegistry ∅ false.

Definition poisoned_registry : BoardMoveError := MoveEventStore (lit "lease registry poisoned").

(** The first unexpired lease on the item, in key order. *)
Definition live_lease (ls : gmap (rstr * rstr) ItemLease) (item : BoardItemId) (now : N) : option ItemLease :=
  List.find (λ l, negb (is_expired_at l now))
    (snd <$> List.filter (λ '((locked_item, _), _), bool_decide (locked_item = item)) (bt_iter ls)).

Definition registry_try_claim (r : InMemoryLeaseRegistry) (now : N) (item : BoardItemId) (session : rstr)
    (expires : N) : InMemoryLeaseRegistry * result ClaimOutcome BoardMoveError :=
  if reg_poisoned r then (r, Err poisoned_registry)
  else
    let key := (item, session) in
    let claimed := MkRegistry (<[key := MkItemLease session expires]> (leases r)) false in
    match live_lease (leases r) item now with
    | Some lease =>
        if negb (bool_decide (lease_holder lease = session)) then (r, Ok (ForeignHolder (lease_holder lease)))
        else (claimed, Ok Renewed)
    | None =>
        match leases r !! key with
        | Some _ => (r, Ok OwnExpired)
        | None => (claimed, Ok Claimed)
        end
    end.

Definition registry_held_by (r : InMemoryLeaseRegistry) (item : BoardItemId) (session : rstr)
    : result (option ItemLease) BoardMoveError :=
  if reg_poisoned r then Err poisoned_registry else Ok (leases r !! (item, session)).

Definition registry_release (r : InMemoryLeaseRegistry) (item : BoardItemId) (session : rstr)
    : InMemoryLeaseRegistry * result unit BoardMoveError :=
  if reg_poisoned r then (r, Err poisoned_registry)
  else (MkRegistry (delete (item, session) (leases r)) false, Ok tt).

#[export] Instance in_memory_registry : LeaseRegistry InMemoryLeaseRegistry := {
  try_claim := registry_try_claim;
  held_by := registry_held_by;
  release := registry_release;
}.

(** ** Requests and outcomes *)

Record BoardMoveRequest := MkMoveRequest {
  mv_item : rstr;
  mv_status : rstr;
  mv_session : rstr;
  mv_lease_ttl_secs : N;
  mv_fields : gmap rstr rstr;
  mv_edges : list rstr;
  mv_delegation_chain : list rstr;
}.

Record BoardMoveApplied := MkMoveApplied {
  ap_item : rstr;
  ap_from_status : rstr;
  ap_to_status : rstr;
  ap_lease_acquired : bool;
}.

Record LeaseBookkeepingFailure := MkBookkeepingFailure { bk_failure : rstr; bk_lease_acquired : bool }.

Inductive BoardMoveOutcome :=
| Applied (applied : BoardMoveApplied) (lease_bookkeeping_failure : option LeaseBookkeepingFailure)
| Refused (refusal : BoardMoveRefusal)
| Indeterminate (item requested_status failure : rstr).

Record InvocationSummary := MkSummary { sm_kind : rstr; sm_refusal : rstr; sm_indeterminate : rstr }.

Record BoardMoveResult := MkMoveResult { res_correlation_id : rstr; res_outcome : BoardMoveOutcome }.

Record BoardMoveDelegationChain := MkMoveChain {
  mc_correlation_id : OperationId;
  mc_parent_op_id : option OperationId;
  mc_principals : list rstr;
}.

Definition refusal_class (r : BoardMoveRefusal) : rstr :=
  match r with
  | PolicyInvalid _ _ _ => lit "policy-invalid"
  | LeaseConflict _ => lit "lease-conflict"
  | MissingSession => lit "missing-session"
  | LeaseExpired => lit "lease-expired"
  | UnknownStatus => lit "unknown-status"
  | UnknownItem => lit "unknown-item"
  | ProviderRejected => lit "provider-rejected"
  | OutOfScope => lit "out-of-scope"
  end.

Definition DEFAULT_LEASE_TTL_SECS : N := 60 * 60.
Definition MAX_LEASE_TTL_SECS : N := 24 * 60 * 60.

Definition lease_ttl (requested : N) : N :=
  if requested =? 0 then DEFAULT_LEASE_TTL_SECS else N.min requested MAX_LEASE_TTL_SECS.

(** [Vec::dedup]. *)
Fixpoint dedup_adjacent (l : list rstr) : list rstr :=
  match l with
  | [] => []
  | x :: l' =>
      match dedup_adjacent l' with
      | [] => [x]
      | y :: ys => if bool_decide (x = y) then y :: ys else x :: y :: ys
      end
  end.

Definition is_terminal (c : StatusClass) : bool := bool_decide (c = ClassDone ∨ c = Retired).

Definition lease_holding (c : StatusClass) : bool := bool_decide (c = InProgress ∨ c = Held).

(** The [refused] and [indeterminate] closures of [execute]. *)
Definition refused (refusal : BoardMoveRefusal) : BoardMoveOutcome * InvocationSummary :=
  (Refused refusal, MkSummary (lit "refused") (refusal_class refusal) []).

Definition indeterminate (request : BoardMoveRequest) (id : BoardItemId) (failure : rstr)
    : BoardMoveOutcome * InvocationSummary :=
  (Indeterminate id (mv_status request) failure, MkSummary (lit "indeterminate") [] failure).

(** ** The guard and the write *)

Section move.
Context {P : Type} `{BoardProvider P} {R : Type} `{LeaseRegistry R}.

(** The loop over the edges, before the sort. *)
Fixpoint open_blockers (p : P) (id : BoardItemId) (edges : list DependencyEdge) : io P (list rstr) :=
  match edges with
  | [] => (p, Ok [])
  | (blocked, blocks) :: edges =>
      if negb (bool_decide (blocked = id)) then open_blockers p id edges
      else
        let@ p, blocker := item p blocks in
        let@ p, rest := open_blockers p id edges in
        (p, Ok (if is_terminal (StatusClass_of (bi_status blocker)) then rest else blocks :: rest))
  end.

Definition unresolved_blockers (p : P) (id : BoardItemId) : io P (list rstr) :=
  let@ p, edges := dependency_edges p in
  let@ p, blockers := open_blockers p id edges in
  (p, Ok (dedup_adjacent (merge_sort kle blockers))).

Definition resolve_target (p : P) (request : BoardMoveRequest)
    : P * result (BoardItemId * BoardItem) BoardMoveRefusal :=
  if blank (mv_session request) then (p, Err MissingSession)
  else if negb (bool_decide (mv_fields request = ∅)) || negb (is_empty (mv_edges request)) then (p, Err OutOfScope)
  else
    match BoardItemId_new (mv_item request) with
    | Err _ => (p, Err UnknownItem)
    | Ok item_id =>
        match item p item_id with
        | (p, Err (ItemNotFound _)) => (p, Err UnknownItem)
        | (p, Err _) => (p, Err ProviderRejected)
        | (p, Ok found) =>
            match statuses p with
            | (p, Err _) => (p, Err ProviderRejected)
            | (p, Ok known) =>
                if negb (existsb (λ k, bool_decide (bst_name k = mv_status request)) known)
                then (p, Err UnknownStatus)
                else (p, Ok (item_id, found))
            end
        end
    end.

Definition policy_refusal (p : P) (id : BoardItemId) (from to : StatusClass) : P * option BoardMoveRefusal :=
  if negb (policy_allows from to) then
    (p, Some (PolicyInvalid (StatusClass_as_str from) (StatusClass_as_str to) None))
  else if negb (bool_decide (to = InProgress)) then (p, None)
  else
    match unresolved_blockers p id with
    | (p, Err _) => (p, Some ProviderRejected)
    | (p, Ok blockers) =>
        if is_empty blockers then (p, None)
        else (p, Some (PolicyInvalid (StatusClass_as_str from) (StatusClass_as_str to) (Some blockers)))
    end.

Definition atomic_claim (r : R) (now now_registry : N) (id : BoardItemId) (session : rstr) (lease_ttl_secs : N)
    : R * result ClaimOutcome BoardMoveError :=
  try_claim r now_registry id session (saturating_add u64_max now (lease_ttl lease_ttl_secs)).

Definition post_write_bookkeeping (r : R) (id : BoardItemId) (session : rstr) (from : StatusClass)
    (holding_target fresh_claim : bool) : R * option LeaseBookkeepingFailure :=
  if holding_target then (r, None)
  else if lease_holding from then
    match release r id session with
    | (r, Ok _) => (r, None)
    | (r, Err _) => (r, Some (MkBookkeepingFailure (lit "release-failed") false))
    end
  else if fresh_claim then ((release r id session).1, None)
  else (r, None).

(** Steps 1 to 4 of [execute]: the guards that read the board. *)
Definition move_guards (p : P) (request : BoardMoveRequest) : P * result (BoardItemId * BoardItem) BoardMoveRefusal :=
  match resolve_target p request with
  | (p, Err refusal) => (p, Err refusal)
  | (p, Ok (item_id, found)) =>
      match policy_refusal p item_id (StatusClass_of (bi_status found)) (StatusClass_of (mv_status request)) with
      | (p, Some refusal) => (p, Err refusal)
      | (p, None) => (p, Ok (item_id, found))
      end
  end.

(** Step 5: the claim; [Ok] says whether it is fresh. *)
Definition move_claim (r : R) (now now_registry : N) (id : BoardItemId) (request : BoardMoveRequest)
    : R * result bool BoardMoveRefusal :=
  match atomic_claim r now now_registry id (mv_session request) (mv_lease_ttl_secs request) with
  | (r, Err _) => (r, Err ProviderRejected)
  | (r, Ok (ForeignHolder holder)) => (r, Err (LeaseConflict holder))
  | (r, Ok OwnExpired) => (r, Err LeaseExpired)
  | (r, Ok Claimed) => (r, Ok true)
  | (r, Ok Renewed) => (r, Ok false)
  end.

(** Step 6, the write: [Err] is the end of the invocation. *)
Definition move_write (p : P) (r : R) (id : BoardItemId) (request : BoardMoveRequest) (fresh_claim : bool)
    : P * R * result unit (BoardMoveOutcome * InvocationSummary) :=
  match set_item_status p id (mv_status request) with
  | (p, Ok _) => (p, r, Ok tt)
  | (p, Err (Transport _)) => (p, r, Err (indeterminate request id (lit "write-transport-failed")))
  | (p, Err error) =>
      (p, if fresh_claim then (release r id (mv_session request)).1 else r,
       Err (refused (refusal_of_error error)))
  end.

(** Steps 6, the read-back, and 7, the bookkeeping. *)
Definition move_finish (p : P) (r : R) (id : BoardItemId) (found : BoardItem) (request : BoardMoveRequest)
    (fresh_claim : bool) : P * R * (BoardMoveOutcome * InvocationSummary) :=
  match item p id with
  | (p, Err _) => (p, r, indeterminate request id (lit "read-back-failed"))
  | (p, Ok after) =>
      if negb (bool_decide (bi_status after = mv_status request)) then
        (p, r, indeterminate request id (lit "read-back-drifted"))
      else
        let holding := lease_holding (StatusClass_of (mv_status request)) in
        let '(r, failure) :=
          post_write_bookkeeping r id (mv_session request) (StatusClass_of (bi_status found)) holding fresh_claim in
        (p, r, (Applied (MkMoveApplied id (bi_status found) (bi_status after) holding) failure,
                MkSummary (lit "applied") [] []))
  end.

Definition execute (p : P) (r : R) (now now_registry : N) (request : BoardMoveRequest)
    : P * R * (BoardMoveOutcome * InvocationSummary) :=
  match move_guards p request with
  | (p, Err refusal) => (p, r, refused refusal)
  | (p, Ok (id, found)) =>
      match move_claim r now now_registry id request with
      | (r, Err refusal) => (p, r, refused refusal)
      | (r, Ok fresh_claim) =>
          match move_write p r id request fresh_claim with
          | (p, r, Err ended) => (p, r, ended)
          | (p, r, Ok _) => move_finish p r id found request fresh_claim
          end
      end
  end.
End move.

(** ** The record of an invocation *)

Definition MAX_PAYLOAD_VALUE_CHARS : nat := 200.
Definition TRUNCATION_SUFFIX : rstr := 8230 :: lit "[truncated]".
Definition MAX_CHAIN_PRINCIPALS : nat := 32.
Definition CHAIN_TRUNCATION_MARKER : rstr := 8230 :: lit "[chain truncated]".

Definition truncate_payload_value (value : rstr) : rstr :=
  if (length value <=? MAX_PAYLOAD_VALUE_CHARS)%nat then value
  else take MAX_PAYLOAD_VALUE_CHARS value ++ TRUNCATION_SUFFIX.

Fixpoint truncate_payload_json (value : Value) : Value :=
  match value with
  | VString text => VString (truncate_payload_value text)
  | VArray items => VArray (List.map truncate_payload_json items)
  | VObject object => VObject (List.map (λ '(key, nested), (key, truncate_payload_json nested)) object)
  | other => other
  end.

(** [serde_json::to_value] of the request: the empty options are skipped. *)
Definition request_value (r : BoardMoveRequest) : Value :=
  VObject (
    [(lit "item", VString (mv_item r)); (lit "status", VString (mv_status r)); (lit "session", VString (mv_session r))]
    ++ (if mv_lease_ttl_secs r =? 0 then [] else [(lit "lease_ttl_secs", VNumber (PosInt (mv_lease_ttl_secs r)))])
    ++ (if bool_decide (mv_fields r = ∅) then []
        else [(lit "fields", VObject ((λ '(k, v), (k, VString v)) <$> bt_iter (mv_fields r)))])
    ++ (if is_empty (mv_edges r) then [] else [(lit "edges", VArray (VString <$> mv_edges r))])
    ++ (if is_empty (mv_delegation_chain r) then []
        else [(lit "delegation_chain", VArray (VString <$> mv_delegation_chain r))])).

Definition summary_value (s : InvocationSummary) : Value :=
  VObject [(lit "kind", VString (sm_kind s)); (lit "refusal", VString (sm_refusal s));
           (lit "indeterminate", VString (sm_indeterminate s))].

(** The principals as data: bounded, truncated and marked as claimed. *)
Definition claimed_principals (principals : list rstr) : list Value :=
  ((λ p, VString (lit "claimed:" ++ truncate_payload_value p)) <$> take MAX_CHAIN_PRINCIPALS principals)
  ++ (if (MAX_CHAIN_PRINCIPALS <? length principals)%nat then [VString CHAIN_TRUNCATION_MARKER] else []).

Definition invocation_payload (request : BoardMoveRequest) (chain : BoardMoveDelegationChain)
    (summary : InvocationSummary) : Value :=
  VObject [(lit "tool", VString (lit "board.move"));
           (lit "request", truncate_payload_json (request_value request));
           (lit "outcome_summary", summary_value summary);
           (lit "chain_source", VString (lit "client-asserted"));
           (lit "delegation_chain", VArray (claimed_principals (mc_principals chain)))].

Definition build_invocation_event (request : BoardMoveRequest) (chain : BoardMoveDelegationChain)
    (summary : InvocationSummary) (wall_clock : rstr) (seq_base : N) (prev_base : option HashDigest)
    : result EventEnvelope BoardMoveError :=
  map_err (λ _, MoveEventStore (lit "envelope rejected")) (EventEnvelope_try_new {|
    inp_schema_version := CURRENT_SCHEMA_VERSION;
    inp_monotonic_seq := saturating_add u64_max seq_base 1;
    inp_wall_clock_ts := wall_clock;
    inp_correlation_id := mc_correlation_id chain;
    inp_parent_op_id := mc_parent_op_id chain;
    inp_category := ToolRequest;
    inp_payload := invocation_payload request chain summary;
    inp_prev_hash := prev_base |}).

Abbreviation unfiltered :=
  {| q_category := None; since_seq := None; until_seq := None; include_uninterpreted := true |}.

Section record.
Context {S : Type} `{AuditStore S}.

Definition record_invocation (request : BoardMoveRequest) (chain : BoardMoveDelegationChain)
    (summary : InvocationSummary) (wall_clock : rstr) (store : S) : S * result unit BoardMoveError :=
  match store_query store unfiltered with
  | Err _ => (store, Err (MoveEventStore (lit "query failed")))
  | Ok previous =>
      match build_invocation_event request chain summary wall_clock (len previous) (hash <$> list.last previous) with
      | Err e => (store, Err e)
      | Ok event =>
          match store_append store event with
          | (store, Ok _) => (store, Ok tt)
          | (store, Err _) => (store, Err (MoveEventStore (lit "append rejected")))
          end
      end
  end.

Context {P : Type} `{BoardProvider P} {R : Type} `{LeaseRegistry R}.

Definition UNRECORDED : rstr :=
  lit "invocation record rejected: board state for this move must be reconciled through a fresh read before retrying".

Definition board_move (p : P) (r : R) (now now_registry : N) (request : BoardMoveRequest)
    (chain : BoardMoveDelegationChain) (wall_clock : rstr) (store : S)
    : P * R * S * result BoardMoveResult BoardMoveError :=
  let '(p, r, (outcome, summary)) := execute p r now now_registry request in
  match record_invocation request chain summary wall_clock store with
  | (store, Err _) => (p, r, store, Err (MoveEventStore UNRECORDED))
  | (store, Ok _) => (p, r, store, Ok (MkMoveResult (operation_str (mc_correlation_id chain)) outcome))
  end.
End record.

(** ** The gateway's driver *)

Inductive GatewayError := GatewayBoardMove (message : rstr).

Definition APPEND_REFUSED : rstr :=
  lit "invocation event append rejected after a refused move; the board is unchanged but the invocation was not recorded".
Definition APPEND_UNKNOWN : rstr :=
  lit "invocation event append rejected: board state for this move must be reconciled through a fresh read".

Definition BoardMoveError_display (e : BoardMoveError) : rstr :=
  match e with MoveEventStore reason => lit "event store rejected the board.move invocation record: " ++ reason end.

Section gateway.
Context {P : Type} `{BoardProvider P} {R : Type} `{LeaseRegistry R} `{Externals}.

(** The shared store with its poison flag, or none: then the record goes to a
    store that is dropped. *)
Definition run_board_move_shared (p : P) (r : R) (now now_registry : N) (request : BoardMoveRequest)
    (correlation_id : OperationId) (wall_clock : rstr) (shared : option (InMemoryAuditStore * bool))
    : P * R * option (InMemoryAuditStore * bool) * result BoardMoveResult GatewayError :=
  let chain := MkMoveChain correlation_id None (mv_delegation_chain request) in
  let fail message := Err (GatewayBoardMove message) in
  match shared with
  | Some (store, store_poisoned) =>
      let '(p, r, (outcome, summary)) := execute p r now now_registry request in
      if (store_poisoned : bool) then (p, r, shared, fail (lit "audit store poisoned"))
      else
        match build_invocation_event request chain summary wall_clock (len (records store))
                (hash <$> list.last (records store)) with
        | Err _ => (p, r, shared, fail (lit "invocation event construction failed"))
        | Ok event =>
            match store_append store event with
            | (store, Err _) =>
                (p, r, Some (store, false),
                 fail (match outcome with Refused _ => APPEND_REFUSED | _ => APPEND_UNKNOWN end))
            | (store, Ok _) =>
                (p, r, Some (store, false), Ok (MkMoveResult (operation_str correlation_id) outcome))
            end
        end
  | None =>
      let '(p, r, _, res) := board_move p r now now_registry request chain wall_clock (MkStore []) in
      (p, r, None, map_err (λ e, GatewayBoardMove (BoardMoveError_display e)) res)
  end.
End gateway.
