(* ===== verification/BoardMoveSafe.v ===== *)
(** * What a guarded board move does

    The guards, the board's state after each outcome and the record of the
    invocation for any board that keeps [SteadyBoard]; then invocations that
    interleave at every call to the board and to the registry: a step machine
    whose undisturbed run is [execute]. *)

From S2P Require Import Prelude BTree Text Model Events AuditExample BoardContract BoardMove.

(** ** Boards *)

(** Reads leave the board as it is, and so does a write that was refused; a
    transport failure may leave anything. *)
Class SteadyBoard (P : Type) `{BoardProvider P} : Prop := {
  steady_item p id : (item p id).1 = p;
  steady_statuses p : (statuses p).1 = p;
  steady_edges p : (dependency_edges p).1 = p;
  refused_write p id s p' e :
    set_item_status p id s = (p', Err e) → (∀ operation, e ≠ Transport operation) → p' = p;
}.

#[export] Instance InMemory_steady : SteadyBoard InMemory.InMemoryBoardProvider.
Proof.
  split; cbn [item statuses dependency_edges set_item_status InMemory.InMemory_provider];
    unfold InMemory.item, InMemory.statuses, InMemory.dependency_edges, InMemory.set_item_status, InMemory.locked;
    intros [s []]; cbn [InMemory.m_poisoned InMemory.m_state]; try done.
  - intros id st p' e [= <- <-] Hn. by destruct (Hn (lit "status write")).
  - intros id st p' e Hw _. repeat case_match; by simplify_eq.
Qed.

Section guards.
Context {P : Type} `{SteadyBoard P}.
Implicit Types p : P.

Lemma item_eta p id x : item p id = x → x = (p, x.2).
Proof. intros <-. pose proof (steady_item p id) as E. destruct (item p id). cbn in *. by subst. Qed.

Lemma dedup_adjacent_nil l : dedup_adjacent l = [] → l = [].
Proof. destruct l; [done|]. cbn. repeat case_match; done. Qed.

Lemma open_blockers_spec p id edges p' bs :
  open_blockers p id edges = (p', Ok bs) →
  p' = p ∧ (bs = [] → ∀ b, (id, b) ∈ edges → ∃ i, item p b = (p, Ok i) ∧ is_terminal (StatusClass_of (bi_status i)) = true).
Proof.
  revert bs. induction edges as [|[blocked blocks] edges IH]; intros bs; cbn [open_blockers].
  { intros [= <- <-]. split; [done|]. by intros _ b ?%not_elem_of_nil. }
  case_bool_decide as Eb; cbn [negb].
  2:{ intros [-> Hb]%IH. split; [done|]. intros Hn b [[= ? ->]|Hin]%elem_of_cons; [by subst|by apply Hb]. }
  subst blocked. destruct (item p blocks) as [p1 [i|e]] eqn:Ei; cbn [io_bind]; [|done].
  apply item_eta in Ei as Hp. injection Hp as ->.
  destruct (open_blockers p id edges) as [p2 [rest|e]] eqn:Er; cbn [io_bind]; [|done].
  intros [= <- <-]. destruct (IH _ eq_refl) as [-> Hb]. split; [done|]. intros Hn.
  destruct (is_terminal (StatusClass_of (bi_status i))) eqn:Et; [|done].
  intros b [[= ->]|Hin]%elem_of_cons; [by exists i|by apply Hb].
Qed.

Lemma open_blockers_pure p id edges : (open_blockers p id edges).1 = p.
Proof.
  induction edges as [|[blocked blocks] edges IH]; cbn [open_blockers]; [done|]. case_bool_decide; cbn [negb]; [|done].
  destruct (item p blocks) as [p1 [i|e]] eqn:Ei; apply item_eta in Ei as Hp; injection Hp as ->; cbn [io_bind]; [|done].
  by destruct (open_blockers p id edges) as [p2 [rest|e]].
Qed.

(** Every blocker of the item is done or retired. *)
Definition unblocked p (id : BoardItemId) : Prop :=
  ∃ edges, dependency_edges p = (p, Ok edges)
    ∧ ∀ b, (id, b) ∈ edges → ∃ i, item p b = (p, Ok i) ∧ is_terminal (StatusClass_of (bi_status i)) = true.

Lemma unresolved_blockers_spec p id p' bs :
  unresolved_blockers p id = (p', Ok bs) → p' = p ∧ (bs = [] → unblocked p id).
Proof.
  unfold unresolved_blockers. pose proof (steady_edges p) as Ep.
  destruct (dependency_edges p) as [p1 [edges|e]] eqn:Ee; cbn in Ep |- *; subst p1; [|done].
  destruct (open_blockers p id edges) as [p2 [l|e]] eqn:Eo; cbn [io_bind]; [|done].
  intros [= <- <-]. apply open_blockers_spec in Eo as [-> Hb]. split; [done|].
  intros Hn%dedup_adjacent_nil. exists edges. split; [done|]. apply Hb.
  apply Permutation_nil_r. by rw -(merge_sort_Permutation kle l) Hn.
Qed.

Lemma unresolved_blockers_pure p id : (unresolved_blockers p id).1 = p.
Proof.
  unfold unresolved_blockers. pose proof (steady_edges p) as Ep.
  destruct (dependency_edges p) as [p1 [edges|e]]; cbn in Ep |- *; subst p1; [|done].
  pose proof (open_blockers_pure p id edges) as Eo. by destruct (open_blockers p id edges) as [p2 [l|e]].
Qed.

Lemma policy_refusal_spec p id from to p' x :
  policy_refusal p id from to = (p', x) →
  p' = p ∧ (x = None → policy_allows from to = true ∧ (to = InProgress → unblocked p id)).
Proof.
  unfold policy_refusal. destruct (policy_allows from to); cbn [negb]; [|by intros [= <- <-]].
  case_bool_decide as Et; cbn [negb]; [|by intros [= <- <-]].
  pose proof (unresolved_blockers_pure p id) as Ep.
  destruct (unresolved_blockers p id) as [p1 [bs|e]] eqn:Eu; cbn in Ep; subst p1.
  - apply unresolved_blockers_spec in Eu as [_ Hu].
    destruct bs; cbn [is_empty]; intros [= <- <-]; (split; [done|]); [auto|done].
  - by intros [= <- <-].
Qed.

Definition status_known p (name : rstr) : Prop :=
  ∃ known, statuses p = (p, Ok known) ∧ ∃ k, k ∈ known ∧ bst_name k = name.

(** What the guards establish. *)
Record guarded p (request : BoardMoveRequest) (id : BoardItemId) (found : BoardItem) : Prop := {
  gd_session : blank (mv_session request) = false;
  gd_scope : mv_fields request = ∅ ∧ mv_edges request = [];
  gd_id : id = mv_item request;
  gd_item : item p id = (p, Ok found);
  gd_status : status_known p (mv_status request);
  gd_policy : policy_allows (StatusClass_of (bi_status found)) (StatusClass_of (mv_status request)) = true;
  gd_unblocked : StatusClass_of (mv_status request) = InProgress → unblocked p id;
}.

Lemma resolve_target_spec p request p' x :
  resolve_target p request = (p', x) →
  p' = p ∧ (∀ id found, x = Ok (id, found) →
    blank (mv_session request) = false ∧ (mv_fields request = ∅ ∧ mv_edges request = []) ∧ id = mv_item request
    ∧ item p id = (p, Ok found) ∧ status_known p (mv_status request)).
Proof.
  unfold resolve_target. destruct (blank (mv_session request)); [by intros [= <- <-]|].
  case_bool_decide as Ef; cbn [negb orb]; [|by intros [= <- <-]].
  destruct (mv_edges request) eqn:Ee; cbn [is_empty negb]; [|by intros [= <- <-]].
  unfold BoardItemId_new. destruct (blank (mv_item request)); [by intros [= <- <-]|].
  destruct (item p (mv_item request)) as [p1 [found|e]] eqn:Ei; apply item_eta in Ei as Hp; injection Hp as ->.
  2:{ destruct e; by intros [= <- <-]. }
  pose proof (steady_statuses p) as Es. destruct (statuses p) as [p1 [known|e]] eqn:Ek; cbn in Es; subst p1;
    [|by intros [= <- <-]].
  destruct (existsb _ known) eqn:Ex; cbn [negb]; intros [= <- <-]; (split; [done|]); [|done].
  intros id found' [= <- <-]. repeat split; try done. exists known. split; [done|].
  apply existsb_exists in Ex as (k & Hk & Hn%bool_decide_eq_true). exists k. split; [by apply list_elem_of_In|done].
Qed.

Lemma move_guards_spec p request p' x :
  move_guards p request = (p', x) → p' = p ∧ (∀ id found, x = Ok (id, found) → guarded p request id found).
Proof.
  unfold move_guards. destruct (resolve_target p request) as [p1 [[id found]|e]] eqn:Er;
    apply resolve_target_spec in Er as [-> Hr]; [|by intros [= <- <-]].
  destruct (policy_refusal p id _ _) as [p1 refusal] eqn:Ep. apply policy_refusal_spec in Ep as [-> Hp].
  destruct refusal; intros [= <- <-]; (split; [done|]); [done|]. intros id' found' [= <- <-].
  destruct (Hr _ _ eq_refl) as (? & ? & ? & ? & ?). destruct (Hp eq_refl). by split.
Qed.
End guards.

(** ** Outcomes *)

Section outcomes.
Context {P : Type} `{SteadyBoard P} {R : Type} `{LeaseRegistry R}.

Lemma move_write_spec (p : P) (r : R) id request fresh p' r' x :
  move_write p r id request fresh = (p', r', x) →
  match x with
  | Ok _ => r' = r ∧ set_item_status p id (mv_status request) = (p', Ok tt)
  | Err (Refused _, summary) => p' = p ∧ sm_kind summary = lit "refused"
  | Err (Indeterminate i st _, summary) =>
      i = id ∧ st = mv_status request ∧ p' = (set_item_status p id (mv_status request)).1
      ∧ sm_kind summary = lit "indeterminate"
  | Err (Applied _ _, _) => False
  end.
Proof.
  unfold move_write. destruct (set_item_status p id (mv_status request)) as [p1 [[]|e]] eqn:Ew.
  { by intros [= <- <- <-]. }
  destruct e; intros [= <- <- <-]; try done; (split; [by eapply refused_write|done]).
Qed.

Lemma move_finish_spec (p : P) (r : R) id found request fresh p' r' out summary :
  move_finish p r id found request fresh = (p', r', (out, summary)) →
  p' = p ∧ match out with
  | Applied a _ => ap_item a = id ∧ ap_from_status a = bi_status found ∧ ap_to_status a = mv_status request
      ∧ (∃ i, item p id = (p, Ok i) ∧ bi_status i = mv_status request) ∧ sm_kind summary = lit "applied"
  | Indeterminate i st _ => i = id ∧ st = mv_status request ∧ sm_kind summary = lit "indeterminate"
  | Refused _ => False
  end.
Proof.
  unfold move_finish. destruct (item p id) as [p1 [after|e]] eqn:Ei; apply item_eta in Ei as Hp; injection Hp as ->.
  2:{ by intros [= <- <- <- <-]. }
  case_bool_decide as Es; cbn [negb]; [|by intros [= <- <- <- <-]].
  destruct (post_write_bookkeeping r id _ _ _ fresh) as [r1 failure]. intros [= <- <- <- <-].
  split; [done|]. cbn. eauto 8.
Qed.

(** C17. The board after a guarded move, for any registry and any board whose
    reads and refused writes change nothing: a refusal leaves the board as it
    was; an applied move had a session, a known item and status, a transition
    the policy admits and (into progress) no open blocker, changed the board by
    exactly the one status write, and the status was read back; an
    indeterminate one passed the same guards and wrote at most that. *)
Theorem board_move_sound (p p' : P) (r r' : R) now now_registry request out summary :
  execute p r now now_registry request = (p', r', (out, summary)) →
  match out with
  | Refused _ => p' = p ∧ sm_kind summary = lit "refused"
  | Applied a _ => ∃ found, guarded p request (mv_item request) found
      ∧ set_item_status p (mv_item request) (mv_status request) = (p', Ok tt)
      ∧ a = MkMoveApplied (mv_item request) (bi_status found) (mv_status request) (ap_lease_acquired a)
      ∧ (∃ i, item p' (mv_item request) = (p', Ok i) ∧ bi_status i = mv_status request)
      ∧ sm_kind summary = lit "applied"
  | Indeterminate i st _ => ∃ found, guarded p request i found ∧ st = mv_status request
      ∧ p' = (set_item_status p i st).1 ∧ sm_kind summary = lit "indeterminate"
  end.
Proof.
  unfold execute. destruct (move_guards p request) as [p1 [[id found]|refusal]] eqn:Eg;
    apply move_guards_spec in Eg as [-> Hg]; [|by intros [= <- <- <- <-]].
  pose proof (Hg _ _ eq_refl) as Hgd. pose proof (gd_id _ _ _ _ Hgd) as ->.
  destruct (move_claim r now now_registry _ request) as [r1 [fresh|refusal]]; [|by intros [= <- <- <- <-]].
  destruct (move_write p r1 _ request fresh) as [[p1 r2] x] eqn:Ew. apply move_write_spec in Ew.
  destruct x as [[]|[out' summary']].
  - destruct Ew as [-> Ew]. intros (-> & Hf)%move_finish_spec. destruct out as [a f| |]; [|done|].
    + destruct Hf as (E1 & E2 & E3 & Hi & Hk). exists found. split; [done|]. split; [done|].
      split; [by destruct a; cbn in *; subst|done].
    + destruct Hf as (-> & -> & Hk). exists found. by rw Ew.
  - intros [= <- <- <- <-]. destruct out'; [done|done|]. destruct Ew as (-> & -> & ? & ?). by exists found.
Qed.
End outcomes.

(** ** The record *)

Section recorded.
Context {S : Type} `{AuditStoreLaws S} {P : Type} `{BoardProvider P} {R : Type} `{LeaseRegistry R}.

Definition kind_of (o : BoardMoveOutcome) : rstr :=
  match o with Applied _ _ => lit "applied" | Refused _ => lit "refused" | Indeterminate _ _ _ => lit "indeterminate" end.

Lemma execute_kind (p : P) (r : R) now now_registry request :
  let '(_, _, (out, summary)) := execute p r now now_registry request in sm_kind summary = kind_of out.
Proof.
  unfold execute. destruct (move_guards p request) as [p1 [[id found]|refusal]]; [|done].
  destruct (move_claim r now now_registry _ request) as [r1 [fresh|refusal]]; [|done].
  unfold move_write. destruct (set_item_status p1 id _) as [p2 [[]|e]]; [|by destruct e].
  unfold move_finish. destruct (item p2 id) as [p3 [after|e]]; [|done]. case_bool_decide; cbn [negb]; [|done].
  by destruct (post_write_bookkeeping r1 id _ _ _ fresh) as [r2 failure].
Qed.

Lemma record_invocation_spec request chain summary ts (s : S) :
  store_ok s →
  let '(s', res) := record_invocation request chain summary ts s in
  store_ok s' ∧ match res with
  | Ok _ => ∃ x, log s' = log s ++ [x] ∧ payload (envelope x) = invocation_payload request chain summary
              ∧ category (envelope x) = ToolRequest ∧ correlation_id (envelope x) = mc_correlation_id chain
  | Err _ => log s' = log s ∧ unrecordable (invocation_payload request chain summary)
  end.
Proof.
  intros Hs. unfold record_invocation. rw (query_law s Hs). unfold build_invocation_event.
  destruct (EventEnvelope_try_new _) as [e|x] eqn:Ee; cbn [map_err]; [|by apply try_new_err in Ee].
  pose proof (append_built s _ e Hs Ee eq_refl eq_refl) as [Hok Ha].
  destruct (store_append s e) as [s' [x|err]]; cbn in Hok, Ha |- *; [|done]. split; [done|]. by exists x.
Qed.

(** Every invocation is recorded or fails: with any store that keeps the
    interface, a returned result means that exactly one record was appended,
    under the invocation's correlation id, whose summary names the class of the
    outcome; otherwise the log is as it was, and only because the request names
    a credential-like field or the event cannot be canonicalised. *)
Theorem board_move_recorded (p : P) (r : R) now now_registry request chain ts (s : S) :
  store_ok s →
  let '(_, _, s', res) := board_move p r now now_registry request chain ts s in
  let '(_, _, (out, summary)) := execute p r now now_registry request in
  store_ok s' ∧ sm_kind summary = kind_of out ∧ match res with
  | Ok result => result = MkMoveResult (operation_str (mc_correlation_id chain)) out
      ∧ ∃ x, log s' = log s ++ [x] ∧ payload (envelope x) = invocation_payload request chain summary
           ∧ category (envelope x) = ToolRequest ∧ correlation_id (envelope x) = mc_correlation_id chain
  | Err e => e = MoveEventStore UNRECORDED ∧ log s' = log s ∧ unrecordable (invocation_payload request chain summary)
  end.
Proof.
  intros Hs. unfold board_move. pose proof (execute_kind p r now now_registry request) as Hk.
  destruct (execute p r now now_registry request) as [[p' r'] [out summary]].
  pose proof (record_invocation_spec request chain summary ts s Hs) as Hr.
  destruct (record_invocation request chain summary ts s) as [s' [[]|e]]; destruct Hr as [Hok Hr];
    (split; [done|]); (split; [done|]); by split.
Qed.
End recorded.

(** ** Leases *)

(** The entry of [(item, session)] is held by [session], and at [now] no item
    has live leases of two sessions. *)
Record registry_ok (now : N) (ls : gmap (rstr * rstr) ItemLease) : Prop := {
  rg_holder item session l : ls !! (item, session) = Some l → lease_holder l = session;
  rg_unique item s1 s2 l1 l2 :
    ls !! (item, s1) = Some l1 → ls !! (item, s2) = Some l2 → now < expires_at_unix_secs l1 →
    now < expires_at_unix_secs l2 → s1 = s2;
}.

Lemma registry_ok_empty now : registry_ok now ∅.
Proof. split; intros *; by rw lookup_empty. Qed.

Lemma registry_ok_later now now' ls : now ≤ now' → registry_ok now ls → registry_ok now' ls.
Proof. intros Hn [Hh Hu]. split; [done|]. intros. eapply Hu; eauto; lia. Qed.

Lemma registry_ok_release now ls k : registry_ok now ls → registry_ok now (delete k ls).
Proof. intros [Hh Hu]. split; intros *; rw !lookup_delete_Some; naive_solver. Qed.

Lemma live_lease_Some ls item now l :
  live_lease ls item now = Some l → ∃ session, ls !! (item, session) = Some l ∧ now < expires_at_unix_secs l.
Proof.
  unfold live_lease. intros [Hin Hl]%find_some. apply list_elem_of_In, list_elem_of_fmap in Hin as ([[i s] l'] & -> & Hf).
  apply list_elem_of_In, List.filter_In in Hf as [Hf Hi%bool_decide_eq_true]. subst i. exists s.
  apply list_elem_of_In, elem_of_bt_iter in Hf. split; [done|]. apply negb_true_iff, N.leb_gt in Hl. done.
Qed.

Lemma live_lease_None ls item now session l :
  live_lease ls item now = None → ls !! (item, session) = Some l → expires_at_unix_secs l ≤ now.
Proof.
  unfold live_lease. intros Hn Hl.
  assert (In l (snd <$> List.filter (λ '((locked_item, _), _), bool_decide (locked_item = item)) (bt_iter ls))) as Hin.
  { apply list_elem_of_In, list_elem_of_fmap. exists ((item, session), l). split; [done|].
    apply list_elem_of_In, List.filter_In. split; [by apply list_elem_of_In, elem_of_bt_iter|by apply bool_decide_eq_true]. }
  apply (find_none _ _ Hn) in Hin. apply negb_false_iff, N.leb_le in Hin. done.
Qed.

(** A claim that succeeds leaves the session's the only live lease. *)
Lemma try_claim_spec now r item session expires r' x :
  registry_try_claim r now item session expires = (r', x) → registry_ok now (leases r) →
  registry_ok now (leases r')
  ∧ match x with
    | Ok (Claimed | Renewed) => leases r' = <[(item, session) := MkItemLease session expires]> (leases r)
    | Ok (ForeignHolder holder) => r' = r ∧ holder ≠ session
        ∧ ∃ l, leases r !! (item, holder) = Some l ∧ now < expires_at_unix_secs l
    | Ok OwnExpired => r' = r ∧ ∃ l, leases r !! (item, session) = Some l ∧ expires_at_unix_secs l ≤ now
    | Err _ => r' = r
    end.
Proof.
  unfold registry_try_claim. destruct (reg_poisoned r); [by intros [= <- <-]|].
  intros Hc Hok. pose proof Hok as [Hh Hu].
  assert ((∀ s l, s ≠ session → leases r !! (item, s) = Some l → expires_at_unix_secs l ≤ now) →
    registry_ok now (<[(item, session) := MkItemLease session expires]> (leases r))) as Hins.
  { intros Ho. split.
    - intros i s l. rw lookup_insert_Some. intros [[? <-]|[_ Hl]]; [by simplify_eq|by eapply Hh].
    - intros i s1 s2 l1 l2. rw !lookup_insert_Some. intros [[E1 <-]|[Hn1 H1]] [[E2 <-]|[Hn2 H2]] Hl1 Hl2; simplify_eq.
      + done.
      + destruct (decide (s2 = s1)) as [->|Hne]; [done|]. pose proof (Ho _ _ Hne H2). lia.
      + destruct (decide (s1 = s2)) as [->|Hne]; [done|]. pose proof (Ho _ _ Hne H1). lia.
      + by eapply Hu. }
  destruct (live_lease (leases r) item now) as [l|] eqn:El.
  - apply live_lease_Some in El as (s & Hs & Hlive). pose proof (Hh _ _ _ Hs) as Hhold.
    case_bool_decide as Eh; cbn [negb] in Hc; injection Hc as <- <-.
    + split; [|done]. cbn. apply Hins. intros s' l' Hne Hl'. destruct (decide (now < expires_at_unix_secs l')) as [Hlt|]; [|lia].
      destruct Hne. rw -Eh Hhold. by eapply Hu.
    + split; [done|]. split; [done|]. split; [done|]. rw Hhold. eauto.
  - destruct (leases r !! (item, session)) as [l|] eqn:Ek; injection Hc as <- <-.
    + split; [done|]. split; [done|]. exists l. split; [done|]. by eapply live_lease_None.
    + split; [|done]. cbn. apply Hins. intros s' l' _ Hl'. by eapply live_lease_None.
Qed.

(** ** Invocations that interleave *)

(** Where an invocation is; the claim is remembered with its expiry. *)
Inductive MovePhase :=
| AtStart
| AtClaim (id : BoardItemId) (found : BoardItem)
| AtWrite (id : BoardItemId) (found : BoardItem) (fresh : bool) (expires : N)
| AtReadback (id : BoardItemId) (found : BoardItem) (fresh : bool) (expires : N)
| Ended (out : BoardMoveOutcome * InvocationSummary).

Record Invocation := MkInvocation { inv_request : BoardMoveRequest; inv_phase : MovePhase }.

Section interleaving.
Context {P : Type} `{BoardProvider P}.

(** The next call of an invocation to the board or to the registry. *)
Definition advance (p : P) (r : InMemoryLeaseRegistry) (now now_registry : N) (inv : Invocation)
    : P * InMemoryLeaseRegistry * Invocation :=
  let request := inv_request inv in
  let at_ phase := MkInvocation request phase in
  match inv_phase inv with
  | AtStart =>
      match move_guards p request with
      | (p, Err refusal) => (p, r, at_ (Ended (refused refusal)))
      | (p, Ok (id, found)) => (p, r, at_ (AtClaim id found))
      end
  | AtClaim id found =>
      match move_claim r now now_registry id request with
      | (r, Err refusal) => (p, r, at_ (Ended (refused refusal)))
      | (r, Ok fresh) =>
          (p, r, at_ (AtWrite id found fresh (saturating_add u64_max now (lease_ttl (mv_lease_ttl_secs request)))))
      end
  | AtWrite id found fresh expires =>
      match move_write p r id request fresh with
      | (p, r, Err ended) => (p, r, at_ (Ended ended))
      | (p, r, Ok _) => (p, r, at_ (AtReadback id found fresh expires))
      end
  | AtReadback id found fresh _ =>
      let '(p, r, ended) := move_finish p r id found request fresh in (p, r, at_ (Ended ended))
  | Ended _ => (p, r, inv)
  end.

(** Undisturbed, an invocation is [execute]. *)
Lemma advance_is_execute p r now now_registry request :
  let '(p1, r1, i1) := advance p r now now_registry (MkInvocation request AtStart) in
  let '(p2, r2, i2) := advance p1 r1 now now_registry i1 in
  let '(p3, r3, i3) := advance p2 r2 now now_registry i2 in
  advance p3 r3 now now_registry i3
  = let '(p', r', out) := execute p r now now_registry request in (p', r', MkInvocation request (Ended out)).
Proof.
  unfold advance at 1, execute. cbn [inv_phase inv_request].
  destruct (move_guards p request) as [p1 [[id found]|refusal]]; [|done]. unfold advance at 1. cbn [inv_phase inv_request].
  destruct (move_claim r now now_registry id request) as [r1 [fresh|refusal]]; [|done].
  unfold advance at 1. cbn [inv_phase inv_request].
  destruct (move_write p1 r1 id request fresh) as [[p2 r2] [[]|ended]]; [|done]. unfold advance. cbn [inv_phase inv_request].
  by destruct (move_finish p2 r2 id found request fresh) as [[p3 r3] out].
Qed.

(** The gateway: a board that others may edit, the shared registry and the
    invocations in flight. *)
Record Gateway := MkGateway { gw_board : P; gw_registry : InMemoryLeaseRegistry; gw_invocations : list Invocation }.

Inductive gateway_step (now : N) : Gateway → Gateway → Prop :=
| gw_advance g i inv asked p r inv' :
    gw_invocations g !! i = Some inv → asked ≤ now →
    advance (gw_board g) (gw_registry g) asked now inv = (p, r, inv') →
    gateway_step now g (MkGateway p r (<[i := inv']> (gw_invocations g)))
| gw_board_edit g p : gateway_step now g (MkGateway p (gw_registry g) (gw_invocations g)).

Inductive gateway_run (start : Gateway) : N → Gateway → Prop :=
| run_start now : gateway_run start now start
| run_later now now' g : now ≤ now' → gateway_run start now g → gateway_run start now' g
| run_step now g g' : gateway_run start now g → gateway_step now g g' → gateway_run start now g'.

(** Between its claim and its bookkeeping, an invocation holds the item. *)
Definition holds_claim (inv : Invocation) (id : BoardItemId) (expires : N) : Prop :=
  ∃ found fresh, inv_phase inv = AtWrite id found fresh expires ∨ inv_phase inv = AtReadback id found fresh expires.

Definition session_of (inv : Invocation) : rstr := mv_session (inv_request inv).

Record gateway_ok (now : N) (g : Gateway) : Prop := {
  gk_registry : registry_ok now (leases (gw_registry g));
  gk_sessions : NoDup (session_of <$> gw_invocations g);
  gk_claims inv id expires : inv ∈ gw_invocations g → holds_claim inv id expires →
    leases (gw_registry g) !! (id, session_of inv) = Some (MkItemLease (session_of inv) expires);
}.

(** A registry call of [session] touches only its own entries. *)
Definition own_entries (session : rstr) (r r' : InMemoryLeaseRegistry) : Prop :=
  ∀ id s, s ≠ session → leases r' !! (id, s) = leases r !! (id, s).

Lemma own_entries_refl session r : own_entries session r r.
Proof. done. Qed.

Lemma release_spec now r item session :
  registry_ok now (leases r) →
  registry_ok now (leases (registry_release r item session).1) ∧ own_entries session r (registry_release r item session).1.
Proof.
  intros Hok. unfold registry_release. destruct (reg_poisoned r); [done|]. split; [by apply registry_ok_release|].
  intros id s Hs. cbn. rw lookup_delete_ne; [done|congruence].
Qed.

Lemma bookkeeping_spec now r id session from holding fresh :
  registry_ok now (leases r) →
  registry_ok now (leases (post_write_bookkeeping r id session from holding fresh).1)
  ∧ own_entries session r (post_write_bookkeeping r id session from holding fresh).1.
Proof.
  intros Hok. unfold post_write_bookkeeping. pose proof (release_spec now r id session Hok) as Hr.
  destruct holding; [done|]. destruct (lease_holding from).
  - cbn [release in_memory_registry] in *. by destruct (registry_release r id session) as [r' [|]].
  - by destruct fresh.
Qed.

Lemma advance_spec p r asked now inv p' r' inv' :
  advance p r asked now inv = (p', r', inv') → registry_ok now (leases r) →
  (∀ id expires, holds_claim inv id expires → leases r !! (id, session_of inv) = Some (MkItemLease (session_of inv) expires)) →
  registry_ok now (leases r') ∧ own_entries (session_of inv) r r' ∧ inv_request inv' = inv_request inv
  ∧ (∀ id expires, holds_claim inv' id expires →
       leases r' !! (id, session_of inv) = Some (MkItemLease (session_of inv) expires)).
Proof.
  assert (∀ request phase id expires, holds_claim (MkInvocation request phase) id expires →
    ∃ found fresh, phase = AtWrite id found fresh expires ∨ phase = AtReadback id found fresh expires) as Hhold by done.
  unfold advance. destruct inv as [request phase]. cbn [inv_phase inv_request session_of]. intros Ha Hok Hc.
  destruct phase as [|id found|id found fresh expires|id found fresh expires|out].
  - destruct (move_guards p request) as [p1 [[id found]|refusal]]; injection Ha as <- <- <-;
      (do 3 (split; [done|])); by intros ? ? (? & ? & [|])%Hhold.
  - unfold move_claim, atomic_claim in Ha. cbn [try_claim in_memory_registry] in Ha.
    destruct (registry_try_claim r now id _ _) as [r1 x] eqn:Et.
    destruct (try_claim_spec _ _ _ _ _ _ _ Et Hok) as [Hok' Hx].
    assert (leases r1 = <[(id, mv_session request) := MkItemLease (mv_session request)
      (saturating_add u64_max asked (lease_ttl (mv_lease_ttl_secs request)))]> (leases r) ∨ r1 = r) as Hr1
      by (destruct x as [[]|]; naive_solver).
    assert (own_entries (mv_session request) r r1) as Hown.
    { destruct Hr1 as [E| ->]; [|done]. intros i s Hs. rw E lookup_insert_ne; [done|congruence]. }
    destruct x as [[| |holder|]|e]; injection Ha as <- <- <-; (do 3 (split; [done|]));
      intros ? ? (? & ? & [|])%Hhold; try done; simplify_eq; unfold session_of; cbn; rw Hx; apply lookup_insert_eq.
  - unfold move_write in Ha. cbn [release in_memory_registry] in Ha.
    pose proof (release_spec now r id (mv_session request) Hok) as Hrel.
    destruct (set_item_status p id _) as [p1 [[]|e]].
    + injection Ha as <- <- <-. do 3 (split; [done|]). intros ? ? (? & ? & [|])%Hhold; [done|]. simplify_eq. apply Hc.
      eexists _, _. by left.
    + assert (registry_ok now (leases r') ∧ own_entries (mv_session request) r r' ∧ ∃ out, inv' = MkInvocation request (Ended out))
        as (? & ? & out & ->).
      { destruct Hrel as [Hr1 Hr2], e, fresh; injection Ha as <- <- <-; (split; [done|]); (split; [done|]); eauto. }
      do 3 (split; [done|]). by intros ? ? (? & ? & [|])%Hhold.
  - destruct (move_finish p r id found request fresh) as [[p1 r1] out] eqn:Ef. injection Ha as <- <- <-.
    assert (registry_ok now (leases r1) ∧ own_entries (mv_session request) r r1) as [? ?].
    { unfold move_finish in Ef. destruct (item p id) as [p2 [after|]]; [|by simplify_eq].
      destruct (negb _); [by simplify_eq|].
      pose proof (bookkeeping_spec now r id (mv_session request) (StatusClass_of (bi_status found))
        (lease_holding (StatusClass_of (mv_status request))) fresh Hok) as Hb.
      destruct (post_write_bookkeeping r id _ _ _ fresh) as [r2 f]. by simplify_eq. }
    do 3 (split; [done|]). by intros ? ? (? & ? & [|])%Hhold.
  - injection Ha as <- <- <-. do 3 (split; [done|]). by intros ? ? (? & ? & [|])%Hhold.
Qed.

Lemma gateway_step_ok now g g' : gateway_step now g g' → gateway_ok now g → gateway_ok now g'.
Proof.
  intros [g0 i inv asked p r inv' Hi Hle Ha|g0 p] [Hreg Hnd Hcl]; [|by split].
  destruct (advance_spec _ _ _ _ _ _ _ _ Ha Hreg) as (Hreg' & Hown & Hreq & Hcl').
  { intros id expires. apply Hcl. by eapply list_elem_of_lookup_2. }
  assert (session_of inv' = session_of inv) as Hs by (unfold session_of; by rw Hreq).
  assert (session_of <$> <[i:=inv']> (gw_invocations g0) = session_of <$> gw_invocations g0) as Hfm.
  { rw list_fmap_insert Hs list_insert_id; [done|]. by rw list_lookup_fmap Hi. }
  split; cbn; [done|by rw Hfm|]. intros inv1 id expires Hin Hh.
  apply list_elem_of_lookup in Hin as [j Hj]. apply list_lookup_insert_Some in Hj as [(<- & <- & _)|[Hne Hj]].
  { rw Hs. by apply Hcl'. }
  rw Hown; [apply Hcl; [by eapply list_elem_of_lookup_2|done]|].
  intros Heq. apply Hne. eapply (NoDup_lookup (session_of <$> gw_invocations g0) i j); [done| |].
  - rw list_lookup_fmap Hi. done.
  - rw list_lookup_fmap Hj. by rw /= Heq.
Qed.

Lemma gateway_run_ok start now g :
  leases (gw_registry start) = ∅ → NoDup (session_of <$> gw_invocations start) →
  Forall (λ inv, inv_phase inv = AtStart) (gw_invocations start) → gateway_run start now g → gateway_ok now g.
Proof.
  intros He Hnd Hs. induction 1 as [now|now now' g Hle _ [Hr Hn Hc]|now g g' _ IH Hst].
  - split; [rw He; apply registry_ok_empty|done|]. intros inv id expires Hin (found & fresh & Hp).
    rw Forall_forall in Hs. apply Hs in Hin. rw Hin in Hp. by destruct Hp.
  - split; [by eapply registry_ok_later|done|done].
  - by eapply gateway_step_ok.
Qed.

(** C18. Concurrent moves exclude each other: however the invocations of
    distinct sessions interleave at their calls to the board and to the shared
    registry, and whatever others do to the board, at no time are two of them
    between claim and bookkeeping on one item with claims that have not
    expired, and the registry then names the one whose claim is live. *)
Theorem moves_exclude_each_other start now g i j inv1 inv2 id e1 e2 :
  leases (gw_registry start) = ∅ → NoDup (session_of <$> gw_invocations start) →
  Forall (λ inv, inv_phase inv = AtStart) (gw_invocations start) → gateway_run start now g →
  gw_invocations g !! i = Some inv1 → gw_invocations g !! j = Some inv2 →
  holds_claim inv1 id e1 → holds_claim inv2 id e2 → now < e1 → now < e2 →
  i = j ∧ leases (gw_registry g) !! (id, session_of inv1) = Some (MkItemLease (session_of inv1) e1).
Proof.
  intros He Hnd Hs Hrun Hi Hj H1 H2 Hl1 Hl2. destruct (gateway_run_ok _ _ _ He Hnd Hs Hrun) as [[_ Hu] Hn Hc].
  pose proof (Hc _ _ _ (list_elem_of_lookup_2 _ _ _ Hi) H1) as L1.
  pose proof (Hc _ _ _ (list_elem_of_lookup_2 _ _ _ Hj) H2) as L2. split; [|done].
  assert (session_of inv1 = session_of inv2) as Es by (by eapply Hu).
  eapply (NoDup_lookup (session_of <$> gw_invocations g)); [done| |]; rw list_lookup_fmap.
  - by rw Hi.
  - rw Hj /= Es. done.
Qed.
End interleaving.

(** ** Examples *)

Section examples.
Import InMemory.

Definition move_setup (s : BoardState) : BoardState :=
  setup_edge (lit "item-1") (lit "item-2")
    (setup_item (lit "item-2") TaskItem (lit "Blocker") [] (lit "Done") []
       (setup_item (lit "item-1") TaskItem (lit "Work") [] (lit "Ready") []
          (setup_status (lit "Cancelled") (setup_status (lit "In Progress") (setup_status (lit "Done")
             (setup_status (lit "Ready") s)))))).

Definition move_board : InMemoryBoardProvider := InMemory_new move_setup.

Definition move_to (session status : rstr) : BoardMoveRequest :=
  MkMoveRequest (lit "item-1") status session 0 ∅ [] [].

Definition status_at (p : InMemoryBoardProvider) : option rstr := bi_status <$> m_items (m_state p) !! lit "item-1".

Lemma board_move_sound_witness :
  let '(p', r', (out, summary)) :=
    execute move_board InMemoryLeaseRegistry_new 100 100 (move_to (lit "a") (lit "In Progress")) in
  status_at p' = Some (lit "In Progress") ∧ ∃ found, guarded move_board (move_to (lit "a") (lit "In Progress")) (lit "item-1") found.
Proof.
  destruct (execute move_board InMemoryLeaseRegistry_new 100 100 (move_to (lit "a") (lit "In Progress")))
    as [[p' r'] [out summary]] eqn:E.
  pose proof (board_move_sound _ _ _ _ _ _ _ _ _ E) as Hs.
  assert (status_at (p', r', (out, summary)).1.1 = Some (lit "In Progress")) as Hst by (rw -E; vm_compute; reflexivity).
  assert (kind_of (p', r', (out, summary)).2.1 = lit "applied") as Ho by (rw -E; vm_compute; reflexivity).
  split; [exact Hst|]. clear E. destruct out; [|discriminate Ho|discriminate Ho]. destruct Hs as (found & Hg & _). by exists found.
Defined.

Definition example_chain : BoardMoveDelegationChain := MkMoveChain (MkOperationId (lit "op-1")) None [lit "user:ann"].

Lemma board_move_recorded_witness :
  let '(_, _, s', res) :=
    board_move move_board InMemoryLeaseRegistry_new 100 100 (move_to (lit "a") (lit "Done")) example_chain (lit "t")
      (MkStore []) in
  ∃ x, records s' = [x] ∧ category (envelope x) = ToolRequest.
Proof.
  pose proof (board_move_recorded move_board InMemoryLeaseRegistry_new 100 100 (move_to (lit "a") (lit "Done"))
    example_chain (lit "t") (MkStore []) eq_refl) as Hr.
  destruct (board_move move_board _ 100 100 _ _ _ _) as [[[p r] s'] res] eqn:E.
  assert (is_Ok res) as [v ->] by (change res with (p, r, s', res).2; rw -E; vm_compute; by eexists).
  destruct (execute _ _ _ _ _) as [[? ?] [? ?]]. destruct Hr as (_ & _ & _ & x & Hl & _ & Hc & _). by exists x.
Defined.

Definition two_moves : Gateway :=
  MkGateway move_board InMemoryLeaseRegistry_new
    [MkInvocation (move_to (lit "a") (lit "In Progress")) AtStart; MkInvocation (move_to (lit "b") (lit "Cancelled")) AtStart].

(** The invocation [i] makes its next call. *)
Definition turn (i : nat) (g : Gateway (P := InMemoryBoardProvider)) : Gateway (P := InMemoryBoardProvider) :=
  match gw_invocations g !! i with
  | Some inv =>
      let '(p, r, inv') := advance (gw_board g) (gw_registry g) 100 100 inv in
      MkGateway p r (<[i := inv']> (gw_invocations g))
  | None => g
  end.

Lemma turns_run schedule : gateway_run two_moves 100 (foldl (λ g i, turn i g) two_moves schedule).
Proof.
  induction schedule as [|i schedule IH] using rev_ind; cbn; [constructor|]. rw foldl_snoc.
  set (g := foldl _ _ schedule) in *. unfold turn. destruct (gw_invocations g !! i) as [inv|] eqn:Ei; [|done].
  destruct (advance (gw_board g) (gw_registry g) 100 100 inv) as [[p r] inv'] eqn:Ea.
  eapply run_step; [exact IH|]. by eapply gw_advance.
Qed.

Lemma moves_exclude_each_other_witness :
  let g := foldl (λ g i, turn i g) two_moves [0; 1; 0]%nat in
  ∃ inv, gw_invocations g !! 0%nat = Some inv
  ∧ leases (gw_registry g) !! (lit "item-1", lit "a") = Some (MkItemLease (lit "a") 3700).
Proof.
  intros g. destruct (gw_invocations g !! 0%nat) as [inv|] eqn:E; [|vm_compute in E; done]. exists inv. split; [done|].
  assert (session_of inv = lit "a" ∧ holds_claim inv (lit "item-1") 3700) as [Hs Hh].
  { vm_compute in E. injection E as <-. split; [done|]. eexists _, _. by left. }
  assert (gateway_run two_moves 100 g) as Hrun by apply turns_run. clearbody g. rw -Hs.
  refine (proj2 (moves_exclude_each_other two_moves 100 g 0 0 inv inv (lit "item-1") 3700 3700
    eq_refl _ _ Hrun E E Hh Hh eq_refl eq_refl)).
  - apply NoDup_cons_2; [|apply NoDup_singleton]. by intros ?%list_elem_of_singleton.
  - by do 2 (constructor; [done|]).
Defined.

(** The policy is checked against the status read before the claim: a move
    whose guards passed while the item was [Ready] brings it back from
    [Cancelled], a transition the policy refuses, after another session's move
    took its whole turn. *)
Lemma stale_guard_revives_retired :
  let before := foldl (λ g i, turn i g) two_moves [0; 1; 1; 1; 1; 0]%nat in
  let final := foldl (λ g i, turn i g) before [0; 0]%nat in
  status_at (gw_board before) = Some (lit "Cancelled")
  ∧ policy_allows (StatusClass_of (lit "Cancelled")) (StatusClass_of (lit "In Progress")) = false
  ∧ status_at (gw_board final) = Some (lit "In Progress")
  ∧ (inv_phase <$> gw_invocations final !! 0%nat)
    = Some (Ended (Applied (MkMoveApplied (lit "item-1") (lit "Ready") (lit "In Progress") true) None,
                   MkSummary (lit "applied") [] [])).
Proof. by vm_compute. Qed.
End examples.
