(* ===== verification/BoardQuery.v ===== *)
(** * Board queries

    [crates/orchestraitor-mcp/src/board_query.rs] with its driver in
    [gateway.rs], and the fingerprints of [drift.rs]: the typed search, the walk
    over the items that block one, the record of the query, and the comparison
    of a server's fingerprints.

    The walk's loop takes fuel; [walk_fuel] is enough for every board.  The
    [Vec] used as a stack has its top at the head of the list. *)

From S2P Require Import Prelude BTree Text Model Events BoardContract BoardMove.

Definition MAX_RESULT_ITEMS : nat := 500.
Definition MAX_BLOCKED_DEPTH : N := 64.
Definition MAX_FILTER_FIELDS : nat := 32.

(** ** Filters *)

Inductive BoardQueryItemType := QTask | QBug | QEpic | QFeature.

Definition item_type_of (t : BoardQueryItemType) : BoardItemType :=
  match t with QTask => TaskItem | QBug => BugItem | QEpic => EpicItem | QFeature => FeatureItem end.

Inductive BoardQueryFieldValue :=
| QSingleSelect (option_name : rstr)
| QText (value : rstr)
| QNumber (value : N)
| QDate (value : rstr).

Record BoardQueryField := MkQueryField { qf_name : rstr; qf_value : BoardQueryFieldValue }.

Record BoardQueryFilter := MkQueryFilter {
  qfl_item_type : option BoardQueryItemType;
  qfl_status : option rstr;
  qfl_fields : list BoardQueryField;
}.

Inductive BoardQueryMode := ModeSearch (filter : BoardQueryFilter) | ModeBlockedBy (item : rstr).

Record BoardQueryItem := MkQueryItem {
  qi_id : rstr;
  qi_item_type : rstr;
  qi_title : rstr;
  qi_status : rstr;
  qi_fields : gmap rstr BoardQueryFieldValue;
  qi_blocked_by : list rstr;
}.

Record BoardQueryResult := MkQueryResult { qr_items : list BoardQueryItem; qr_truncated : bool }.

Record BlockedCycle := MkBlockedCycle { cy_item : rstr; cy_path : list rstr }.

Record BlockedGraph := MkBlockedGraph {
  bg_root : rstr;
  bg_root_exists : bool;
  bg_blocking : list BoardQueryItem;
  bg_cycle : option BlockedCycle;
  bg_depth_capped : bool;
}.

Inductive BoardQueryResultKind := KindSearch (r : BoardQueryResult) | KindBlockedBy (g : BlockedGraph).

Record DelegationChain := MkChain {
  dl_correlation_id : OperationId;
  dl_parent_op_id : option OperationId;
  dl_principals : list rstr;
}.

Record QuerySummary := MkQuerySummary { items_matched : N; truncated : bool; cycle_detected : bool }.

Inductive BoardQueryError := QueryProvider (label : rstr) | QueryEventStore (label : rstr).

Definition query_error_of (e : BoardContractError) : BoardQueryError :=
  QueryProvider (lit match e with
    | Transport _ | WriteRejected _ => "transport"
    | ItemNotFound _ => "item-not-found"
    | StatusNotFound _ => "status-not-found"
    | FieldNotFound _ => "field-not-found"
    | FieldTypeMismatch _ _ _ => "field-type-mismatch"
    | DuplicateEdge _ _ => "duplicate-edge"
    | CrossReferenceNotFound _ _ => "cross-reference-not-found"
    | InvalidItemId => "invalid-item-id"
    end).

Definition contract_value (v : BoardQueryFieldValue) : BoardFieldValue :=
  match v with
  | QSingleSelect o => SingleSelect o
  | QText s => TextValue s
  | QNumber n => NumberValue n
  | QDate s => DateValue s
  end.

Definition tool_value (v : BoardFieldValue) : BoardQueryFieldValue :=
  match v with
  | SingleSelect o => QSingleSelect o
  | TextValue s => QText s
  | NumberValue n => QNumber n
  | DateValue s => QDate s
  end.

Definition contract_filter (f : BoardQueryFilter) : BoardSearch :=
  let search := BoardSearch_new in
  let search := match qfl_item_type f with Some t => with_type search (item_type_of t) | None => search end in
  let search := match qfl_status f with Some s => with_status search s | None => search end in
  foldl (λ search field, with_field search (qf_name field) (contract_value (qf_value field))) search (qfl_fields f).

(** ** The blockers *)

Definition index_edges (edges : list DependencyEdge) : gmap BoardItemId (list BoardItemId) :=
  foldl (λ index edge, entry_or index edge.1 [] (λ l, l ++ [edge.2])) ∅ edges.

Definition direct_blockers (edges : list DependencyEdge) : gmap BoardItemId (list BoardItemId) :=
  (λ blockers : list BoardItemId, dedup_adjacent (merge_sort kle blockers)) <$> index_edges edges.

Definition blockers_of (index : gmap BoardItemId (list BoardItemId)) (id : BoardItemId) : list BoardItemId :=
  default [] (index !! id).

(** ** The walk *)

Definition EXIT : N := usize_max.

Record Walk := MkWalk {
  wk_stack : list (BoardItemId * N);
  wk_seen : gmap BoardItemId N;
  wk_path_ids : list BoardItemId;
  wk_blocking : list BoardItemId;
  wk_depth_capped : bool;
}.

Definition walk_start (index : gmap BoardItemId (list BoardItemId)) (root : BoardItemId) : Walk :=
  MkWalk (reverse ((λ b, (b, 1)) <$> blockers_of index root)) {[root := 0]} [root] [] false.

(** Whether [item] was reached at a depth no greater than [depth]. *)
Definition revisited (seen : gmap BoardItemId N) (item : BoardItemId) (depth : N) : bool :=
  match seen !! item with Some seen_depth => seen_depth <=? depth | None => false end.

(** The last arm of the loop: the frame's item is expanded. *)
Definition expand (index : gmap BoardItemId (list BoardItemId)) (w : Walk) (item : BoardItemId) (path_depth : N)
    (stack : list (BoardItemId * N)) : Walk :=
  let child_depth := saturating_add usize_max path_depth 1 in
  MkWalk (reverse ((λ b, (b, child_depth)) <$> blockers_of index item) ++ (item, EXIT) :: stack)
    (<[item := path_depth]> (wk_seen w)) (wk_path_ids w ++ [item]) (wk_blocking w ++ [item]) (wk_depth_capped w).

Fixpoint walk_loop (fuel : nat) (index : gmap BoardItemId (list BoardItemId)) (w : Walk)
    : outcome (Walk * option BlockedCycle) :=
  match wk_stack w, fuel with
  | [], _ => Done (w, None)
  | _, O => OutOfFuel
  | (item, frame) :: stack, Datatypes.S fuel =>
      if frame =? EXIT then
        walk_loop fuel index
          (MkWalk stack (wk_seen w) (removelast (wk_path_ids w)) (wk_blocking w) (wk_depth_capped w))
      else if revisited (wk_seen w) item frame then
        if bool_decide (item ∈ wk_path_ids w) then Done (w, Some (MkBlockedCycle item (wk_path_ids w)))
        else walk_loop fuel index (MkWalk stack (wk_seen w) (wk_path_ids w) (wk_blocking w) (wk_depth_capped w))
      else if MAX_BLOCKED_DEPTH <? frame then
        walk_loop fuel index (MkWalk stack (wk_seen w) (wk_path_ids w) (wk_blocking w) true)
      else walk_loop fuel index (expand index w item frame stack)
  end.

(** Each of the blockers is expanded at depths that decrease below 65, and an
    expansion pushes at most one frame per edge and its own. *)
Definition walk_fuel (edges : list DependencyEdge) : nat :=
  (66 * length edges) * (length edges + 2) + length edges + 1.

Section query.
Context {P : Type} `{BoardProvider P}.

(** The provider, and the answer or the error. *)
Definition qio (A : Type) : Type := P * result A BoardQueryError.

(** [?] on a call to the provider. *)
Definition ask {A B} (c : io P A) (k : P → A → qio B) : qio B :=
  match c with
  | (p, Ok a) => k p a
  | (p, Err e) => (p, Err (query_error_of e))
  end.

Definition qbind {A B} (c : qio A) (k : P → A → qio B) : qio B :=
  match c with
  | (p, Ok a) => k p a
  | (p, Err e) => (p, Err e)
  end.

Fixpoint project_fields (p : P) (id : BoardItemId) (catalog : list BoardField) (fields : gmap rstr BoardQueryFieldValue)
    : qio (gmap rstr BoardQueryFieldValue) :=
  match catalog with
  | [] => (p, Ok fields)
  | field :: catalog =>
      ask (field_value p id (bf_name field)) (λ p value,
        project_fields p id catalog
          (match value with Some v => <[bf_name field := tool_value v]> fields | None => fields end))
  end.

Definition project_item (p : P) (i : BoardItem) (index : gmap BoardItemId (list BoardItemId))
    (catalog : list BoardField) : qio BoardQueryItem :=
  qbind (project_fields p (bi_id i) catalog ∅) (λ p fields,
    (p, Ok (MkQueryItem (bi_id i) (BoardItemType_as_str (bi_type i)) (bi_title i) (bi_status i) fields
              (blockers_of index (bi_id i))))).

Fixpoint project_items (p : P) (items : list BoardItem) (index : gmap BoardItemId (list BoardItemId))
    (catalog : list BoardField) : qio (list BoardQueryItem) :=
  match items with
  | [] => (p, Ok [])
  | i :: items =>
      qbind (project_item p i index catalog) (λ p first,
        qbind (project_items p items index catalog) (λ p rest, (p, Ok (first :: rest))))
  end.

(** The items that the board still has; a read that fails leaves its item out. *)
Fixpoint fetch_blocking (p : P) (ids : list BoardItemId) (index : gmap BoardItemId (list BoardItemId))
    (catalog : list BoardField) : qio (list BoardQueryItem) :=
  match ids with
  | [] => (p, Ok [])
  | id :: ids =>
      match item p id with
      | (p, Ok i) =>
          qbind (project_item p i index catalog) (λ p first,
            qbind (fetch_blocking p ids index catalog) (λ p rest, (p, Ok (first :: rest))))
      | (p, Err _) => fetch_blocking p ids index catalog
      end
  end.

Definition by_id : BoardQueryItem → BoardQueryItem → Prop := λ a b, kle (qi_id a) (qi_id b).

Definition walk_blocked (p : P) (root : BoardItemId) (root_exists : bool) (edges : list DependencyEdge)
    : P * outcome (result BlockedGraph BoardQueryError) :=
  let index := direct_blockers edges in
  match fields p with
  | (p, Err e) => (p, Done (Err (query_error_of e)))
  | (p, Ok catalog) =>
      match walk_loop (walk_fuel edges) index (walk_start index root) with
      | Done (w, cycle) =>
          match fetch_blocking p (dedup_adjacent (merge_sort kle (wk_blocking w))) index catalog with
          | (p, Err e) => (p, Done (Err e))
          | (p, Ok blocking) =>
              (p, Done (Ok (MkBlockedGraph root root_exists (stable_sort by_id blocking) cycle (wk_depth_capped w))))
          end
      | Panic => (p, Panic)
      | OutOfFuel => (p, OutOfFuel)
      end
  end.

Definition invocation_summary (r : BoardQueryResultKind) : QuerySummary :=
  match r with
  | KindSearch r => MkQuerySummary (len (qr_items r)) (qr_truncated r) false
  | KindBlockedBy g => MkQuerySummary (len (bg_blocking g)) false (bool_decide (is_Some (bg_cycle g)))
  end.

Definition execute_search (p : P) (filter : BoardQueryFilter) : qio (BoardQueryResultKind * QuerySummary) :=
  ask (search p (contract_filter filter)) (λ p matches,
    let matches := stable_sort (λ a b, kle (bi_id a) (bi_id b)) matches in
    let truncated := (MAX_RESULT_ITEMS <? length matches)%nat in
    let matches := take MAX_RESULT_ITEMS matches in
    ask (dependency_edges p) (λ p edges,
      let blocked_by := direct_blockers edges in
      let summary := MkQuerySummary (len matches) truncated false in
      ask (BoardContract.fields p) (λ p catalog,
        qbind (project_items p matches blocked_by catalog) (λ p items,
          (p, Ok (KindSearch (MkQueryResult items truncated), summary)))))).

Definition execute_blocked (p : P) (raw : rstr) : P * outcome (result (BoardQueryResultKind * QuerySummary) BoardQueryError) :=
  match BoardItemId_new raw with
  | Err e => (p, Done (Err (query_error_of e)))
  | Ok root =>
      let walk p root_exists :=
        match dependency_edges p with
        | (p, Err e) => (p, Done (Err (query_error_of e)))
        | (p, Ok edges) =>
            let '(p, graph) := walk_blocked p root root_exists edges in
            (p, let! graph := graph in
                Done (let? graph := graph in
                      Ok (KindBlockedBy graph,
                          MkQuerySummary (len (bg_blocking graph)) false (bool_decide (is_Some (bg_cycle graph))))))
        end in
      match item p root with
      | (p, Ok _) => walk p true
      | (p, Err (ItemNotFound _)) => walk p false
      | (p, Err e) => (p, Done (Err (query_error_of e)))
      end
  end.

Definition query_execute (p : P) (mode : BoardQueryMode)
    : P * outcome (result (BoardQueryResultKind * QuerySummary) BoardQueryError) :=
  match mode with
  | ModeSearch filter => let '(p, r) := execute_search p filter in (p, Done r)
  | ModeBlockedBy raw => execute_blocked p raw
  end.
End query.

(** ** The record of a query *)

Definition item_type_value (t : BoardQueryItemType) : Value :=
  VString (lit match t with QTask => "task" | QBug => "bug" | QEpic => "epic" | QFeature => "feature" end).

(** The value is flattened into its field under the tag [kind]. *)
Definition field_value_entries (v : BoardQueryFieldValue) : list (rstr * Value) :=
  match v with
  | QSingleSelect o => [(lit "kind", VString (lit "single_select")); (lit "option", VString o)]
  | QText s => [(lit "kind", VString (lit "text")); (lit "value", VString s)]
  | QNumber n => [(lit "kind", VString (lit "number")); (lit "value", VNumber (PosInt n))]
  | QDate s => [(lit "kind", VString (lit "date")); (lit "value", VString s)]
  end.

Definition filter_value (f : BoardQueryFilter) : Value :=
  VObject (
    match qfl_item_type f with Some t => [(lit "item_type", item_type_value t)] | None => [] end
    ++ match qfl_status f with Some s => [(lit "status", VString s)] | None => [] end
    ++ (if is_empty (qfl_fields f) then []
        else [(lit "fields",
               VArray ((λ c, VObject ((lit "name", VString (qf_name c)) :: field_value_entries (qf_value c)))
                         <$> qfl_fields f))])).

Definition mode_value (m : BoardQueryMode) : Value :=
  match m with
  | ModeSearch f => VObject [(lit "mode", VString (lit "search")); (lit "filter", filter_value f)]
  | ModeBlockedBy i => VObject [(lit "mode", VString (lit "blocked_by")); (lit "item", VString i)]
  end.

Definition FIELDS_MARKER : rstr := 8230 :: lit "[filter fields truncated]".

(** [get_mut] of a key: the first entry of the object with it. *)
Fixpoint update_key (key : rstr) (f : Value → Value) (object : list (rstr * Value)) : list (rstr * Value) :=
  match object with
  | [] => []
  | (k, v) :: object => if bool_decide (k = key) then (k, f v) :: object else (k, v) :: update_key key f object
  end.

Definition cap_entries (v : Value) : Value :=
  match v with
  | VArray entries =>
      if (MAX_FILTER_FIELDS <? length entries)%nat
      then VArray (take MAX_FILTER_FIELDS entries ++ [VString FIELDS_MARKER]) else v
  | _ => v
  end.

Definition cap_filter_fields (v : Value) : Value :=
  match v with
  | VObject object =>
      VObject (update_key (lit "filter")
                 (λ filter, match filter with
                            | VObject inner => VObject (update_key (lit "fields") cap_entries inner)
                            | other => other
                            end) object)
  | other => other
  end.

Definition query_summary_value (s : QuerySummary) : Value :=
  VObject [(lit "items_matched", VNumber (PosInt (items_matched s))); (lit "truncated", VBool (truncated s));
           (lit "cycle_detected", VBool (cycle_detected s))].

Definition query_payload (mode : BoardQueryMode) (chain : DelegationChain) (summary : QuerySummary) : Value :=
  VObject [(lit "tool", VString (lit "board.query"));
           (lit "mode", cap_filter_fields (truncate_payload_json (mode_value mode)));
           (lit "result_summary", query_summary_value summary);
           (lit "chain_source", VString (lit "client-asserted"));
           (lit "delegation_chain", VArray (claimed_principals (dl_principals chain)))].

Definition build_query_event (mode : BoardQueryMode) (chain : DelegationChain) (summary : QuerySummary)
    (wall_clock : rstr) (seq_base : N) (prev_base : option HashDigest) : result EventEnvelope BoardQueryError :=
  map_err (λ _, QueryEventStore (lit "envelope rejected")) (EventEnvelope_try_new {|
    inp_schema_version := CURRENT_SCHEMA_VERSION;
    inp_monotonic_seq := saturating_add u64_max seq_base 1;
    inp_wall_clock_ts := wall_clock;
    inp_correlation_id := dl_correlation_id chain;
    inp_parent_op_id := dl_parent_op_id chain;
    inp_category := ToolRequest;
    inp_payload := query_payload mode chain summary;
    inp_prev_hash := prev_base |}).

Section record.
Context {S : Type} `{AuditStore S}.

Definition record_query (mode : BoardQueryMode) (summary : QuerySummary) (chain : DelegationChain) (wall_clock : rstr)
    (store : S) : S * result unit BoardQueryError :=
  match store_query store unfiltered with
  | Err _ => (store, Err (QueryEventStore (lit "query failed")))
  | Ok previous =>
      match build_query_event mode chain summary wall_clock (len previous) (hash <$> list.last previous) with
      | Err e => (store, Err e)
      | Ok event =>
          match store_append store event with
          | (store, Ok _) => (store, Ok tt)
          | (store, Err _) => (store, Err (QueryEventStore (lit "append rejected")))
          end
      end
  end.

Context {P : Type} `{BoardProvider P}.

Definition board_query (p : P) (mode : BoardQueryMode) (chain : DelegationChain) (wall_clock : rstr) (store : S)
    : P * S * outcome (result BoardQueryResultKind BoardQueryError) :=
  let '(p, answer) := query_execute p mode in
  match answer with
  | Done (Ok (r, summary)) =>
      match record_query mode summary chain wall_clock store with
      | (store, Ok _) => (p, store, Done (Ok r))
      | (store, Err e) => (p, store, Done (Err e))
      end
  | Done (Err e) => (p, store, Done (Err e))
  | Panic => (p, store, Panic)
  | OutOfFuel => (p, store, OutOfFuel)
  end.
End record.

Definition BoardQueryError_display (e : BoardQueryError) : rstr :=
  match e with
  | QueryProvider label => lit "board provider transport failed: " ++ label
  | QueryEventStore label => lit "event store rejected the board.query invocation record: " ++ label
  end.

Section gateway.
Context {P : Type} `{BoardProvider P} `{Externals}.

(** The read runs first; the record is appended to the shared store, if any. *)
Definition run_board_query_shared (p : P) (mode : BoardQueryMode) (principals : list rstr) (correlation_id : OperationId)
    (wall_clock : rstr) (shared : option (InMemoryAuditStore * bool))
    : P * option (InMemoryAuditStore * bool) * outcome (result BoardQueryResultKind rstr) :=
  let chain := MkChain correlation_id None principals in
  match shared with
  | Some (store, store_poisoned) =>
      let '(p, answer) := query_execute p mode in
      match answer with
      | Done (Err e) => (p, shared, Done (Err (BoardQueryError_display e)))
      | Done (Ok (r, _)) =>
          if (store_poisoned : bool) then (p, shared, Done (Err (lit "audit store poisoned")))
          else
            match build_query_event mode chain (invocation_summary r) wall_clock (len (records store))
                    (hash <$> list.last (records store)) with
            | Err _ => (p, shared, Done (Err (lit "invocation event construction failed")))
            | Ok event =>
                match store_append store event with
                | (store, Err _) => (p, Some (store, false), Done (Err (lit "invocation event append rejected")))
                | (store, Ok _) => (p, Some (store, false), Done (Ok r))
                end
            end
      | Panic => (p, shared, Panic)
      | OutOfFuel => (p, shared, OutOfFuel)
      end
  | None =>
      let '(p, _, answer) := board_query p mode chain wall_clock (MkStore []) in
      (p, None, let! r := answer in Done (map_err BoardQueryError_display r))
  end.
End gateway.

(** ** Fingerprints of a server *)

Record ServerIdentity := MkServerIdentity {
  server_id : rstr;
  executable_digest : option rstr;
  remote_spki_digest : option rstr;
  manifest_version : rstr;
  capability_schema_version : rstr;
}.

Record ToolSchemaIdentity := MkToolSchema { ts_name : rstr; ts_description : rstr; ts_input_schema : Value }.

Record CapabilitySnapshot := MkCapabilities { cap_declared : list rstr; cap_effective : list rstr }.

Inductive CapabilityCrossCheck := Matched | DeclaredExceedsEffective | EffectiveExpansion.

Record DriftFingerprint := MkFingerprint {
  fp_server : ServerIdentity;
  fp_schema_digest : rstr;
  fp_capability_cross_check : CapabilityCrossCheck;
  fp_effective_capabilities : list rstr;
}.

Inductive FingerprintChange := NoChange | ExecutableChanged | SchemaChanged | CapabilityExpanded | CapabilityReduced.

Definition cross_check_capabilities (s : CapabilitySnapshot) : CapabilityCrossCheck :=
  let declared : gset rstr := list_to_set (cap_declared s) in
  let effective : gset rstr := list_to_set (cap_effective s) in
  if bool_decide (declared = effective) then Matched
  else if bool_decide (effective ⊆ declared) then DeclaredExceedsEffective
  else EffectiveExpansion.

(** Canonical JSON of a schema and of a list of tools, and SHA-256 in
    hexadecimal, are the library's. *)
Section fingerprint.
Context (canonical_value : Value → option (list N)) (canonical_tools : list ToolSchemaIdentity → option (list N))
  (sha256_hex : list N → rstr).

Definition sha256_digest (bytes : list N) : rstr := lit "sha256:" ++ sha256_hex bytes.

Definition canonical_bytes (v : Value) : list N := default [] (canonical_value v).

Definition tool_key (t : ToolSchemaIdentity) : (rstr * rstr) * list N :=
  (ts_name t, ts_description t, canonical_bytes (ts_input_schema t)).

Definition digest_sorted_tools (tools : list ToolSchemaIdentity) : option rstr :=
  sha256_digest <$> canonical_tools (stable_sort (λ a b, kle (tool_key a) (tool_key b)) tools).

Definition DriftFingerprint_build (server : ServerIdentity) (tools : list ToolSchemaIdentity)
    (capabilities : CapabilitySnapshot) : option DriftFingerprint :=
  digest ← digest_sorted_tools tools;
  Some (MkFingerprint server digest (cross_check_capabilities capabilities) (cap_effective capabilities)).
End fingerprint.

Definition fingerprint_compare (f successor : DriftFingerprint) : FingerprintChange :=
  if negb (bool_decide (executable_digest (fp_server f) = executable_digest (fp_server successor)))
     || negb (bool_decide (remote_spki_digest (fp_server f) = remote_spki_digest (fp_server successor)))
  then ExecutableChanged
  else if negb (bool_decide (fp_schema_digest f = fp_schema_digest successor)) then SchemaChanged
  else
    let previous : gset rstr := list_to_set (fp_effective_capabilities f) in
    let next : gset rstr := list_to_set (fp_effective_capabilities successor) in
    if bool_decide (previous = next) then NoChange
    else if bool_decide (previous ⊆ next) then CapabilityExpanded
    else if bool_decide (next ⊆ previous) then CapabilityReduced
    else CapabilityExpanded.
