(* ===== verification/BoardWalk.v ===== *)
(** * The blocked-graph walk is right

    [walk_blocked] of [board_query.rs]: it returns on every board, reaches
    exactly the items within the depth bound when it finds no cycle, and reports
    a cycle exactly when there is one, but for what the bound cuts off. *)

From S2P Require Import Prelude BTree Text Model Events BoardContract BoardMove BoardQuery.

(** ** Blockers *)

Lemma elem_of_dedup_adjacent l x : x ∈ dedup_adjacent l ↔ x ∈ l.
Proof.
  induction l as [|y l IH]; [done|]. cbn [dedup_adjacent]. destruct (dedup_adjacent l) as [|z zs] eqn:E.
  - rw !elem_of_cons -IH. done.
  - case_bool_decide as Hy.
    + subst y. rw (elem_of_cons l) -IH elem_of_cons. naive_solver.
    + rw elem_of_cons IH (elem_of_cons l). done.
Qed.

Lemma length_dedup_adjacent l : (length (dedup_adjacent l) ≤ length l)%nat.
Proof.
  induction l as [|y l IH]; [done|]. cbn [dedup_adjacent]. destruct (dedup_adjacent l); cbn in *; [lia|].
  case_bool_decide; cbn in *; lia.
Qed.

Lemma index_edges_lookup edges id : blockers_of (index_edges edges) id = snd <$> List.filter (λ e, bool_decide (e.1 = id)) edges.
Proof.
  unfold index_edges. assert (∀ m, blockers_of (foldl (λ index edge, entry_or index edge.1 [] (λ l, l ++ [edge.2])) m edges) id
    = blockers_of m id ++ (snd <$> List.filter (λ e, bool_decide (e.1 = id)) edges)) as Hgo.
  2:{ rw Hgo. unfold blockers_of. by rw lookup_empty. }
  induction edges as [|[a b] edges IH]; intros m; cbn [foldl List.filter fmap list_fmap]; [by rw app_nil_r|].
  rw IH. unfold blockers_of at 1. rw lookup_entry_or. cbn [fst snd]. case_decide as Ha.
  - subst a. rw bool_decide_eq_true_2; [|done]. cbn. by rw -app_assoc.
  - rw bool_decide_eq_false_2; [done|]. done.
Qed.

Lemma blockers_of_direct edges id :
  blockers_of (direct_blockers edges) id = dedup_adjacent (merge_sort kle (blockers_of (index_edges edges) id)).
Proof. unfold blockers_of, direct_blockers. rw lookup_fmap. by destruct (index_edges edges !! id). Qed.

Lemma elem_of_blockers edges id b : b ∈ blockers_of (direct_blockers edges) id ↔ (id, b) ∈ edges.
Proof.
  rw blockers_of_direct elem_of_dedup_adjacent (merge_sort_Permutation kle) index_edges_lookup list_elem_of_fmap. split.
  - intros ([a b'] & -> & Hf). apply list_elem_of_In, List.filter_In in Hf as [Hf E%bool_decide_eq_true]. cbn in E. subst.
    by apply list_elem_of_In.
  - intros He. exists (id, b). split; [done|]. apply list_elem_of_In, List.filter_In. split; [by apply list_elem_of_In|].
    by apply bool_decide_eq_true.
Qed.

Lemma length_blockers edges id : (length (blockers_of (direct_blockers edges) id) ≤ length edges)%nat.
Proof.
  rw blockers_of_direct. etransitivity; [apply length_dedup_adjacent|]. rw (merge_sort_Permutation kle) index_edges_lookup length_fmap.
  apply List.filter_length_le.
Qed.

(** ** Paths *)

Section walk.
Context (edges : list DependencyEdge) (root : BoardItemId).

Abbreviation index := (direct_blockers edges).
Abbreviation blockers := (blockers_of index).

(** [reach n v]: [v] blocks the root through [n] edges. *)
Inductive reach : nat → BoardItemId → Prop :=
| reach_root : reach 0 root
| reach_step n v b : reach n v → b ∈ blockers v → reach (Datatypes.S n) b.

(** [v] blocks [u], through at least one edge. *)
Inductive blocks_transitively : BoardItemId → BoardItemId → Prop :=
| blocks_direct u v : v ∈ blockers u → blocks_transitively v u
| blocks_through u v b : v ∈ blockers u → blocks_transitively b v → blocks_transitively b u.

Lemma blocks_trans_step b u v : blocks_transitively u v → b ∈ blockers u → blocks_transitively b v.
Proof.
  induction 1 as [v u Hu|v c u Hc _ IH]; intros Hb; (eapply blocks_through; [done|]); [by apply blocks_direct|auto].
Qed.

(** A chain of edges, each item blocked by the next. *)
Inductive chain : list BoardItemId → Prop :=
| chain_root : chain [root]
| chain_snoc p u v : chain (p ++ [u]) → v ∈ blockers u → chain ((p ++ [u]) ++ [v]).

Lemma chain_edge p i u v : chain p → p !! i = Some u → p !! Datatypes.S i = Some v → v ∈ blockers u.
Proof.
  induction 1 as [|p u' v' Hc IH Hv]; intros Hi Hj; [by destruct i|].
  apply lookup_app_Some in Hj as [Hj|[Hl Hj]].
  - pose proof (lookup_lt_Some _ _ _ Hj). rw lookup_app_l in Hi; [|lia]. by apply IH.
  - apply list_lookup_singleton_Some in Hj as [Hj <-]. rw length_app in Hl Hj. cbn in Hl, Hj.
    rw lookup_app_l in Hi; [|rw length_app; cbn; lia]. rw lookup_app_r in Hi; [|lia].
    replace (i - length p)%nat with 0%nat in Hi by lia. cbn in Hi. by injection Hi as <-.
Qed.

Lemma chain_blocks p i j u v : chain p → p !! i = Some u → p !! j = Some v → (i < j)%nat → blocks_transitively v u.
Proof.
  intros Hc Hi Hj Hlt. remember (j - i)%nat as d eqn:Ed. revert i u Hi Hlt Ed.
  induction d as [|d IH]; intros i u Hi Hlt Ed; [lia|].
  destruct (lookup_lt_is_Some_2 p (Datatypes.S i)) as [x Hx]; [apply lookup_lt_Some in Hj; lia|].
  pose proof (chain_edge _ _ _ _ Hc Hi Hx) as He. destruct (decide (j = Datatypes.S i)) as [->|].
  - rw Hj in Hx. injection Hx as <-. by apply blocks_direct.
  - eapply blocks_through; [exact He|]. apply (IH (Datatypes.S i)); [done|lia|lia].
Qed.

(** ** The stack follows the path *)

Inductive frames : list BoardItemId → list (BoardItemId * N) → Prop :=
| frames_root C : (∀ c, c ∈ C → c ∈ blockers root) → frames [root] ((λ c, (c, 1)) <$> C)
| frames_snoc p u v C stack :
    frames (p ++ [u]) stack → v ∈ blockers u → (∀ c, c ∈ C → c ∈ blockers v) →
    frames ((p ++ [u]) ++ [v]) (((λ c, (c, len ((p ++ [u]) ++ [v]))) <$> C) ++ (v, EXIT) :: stack).

Lemma frames_chain p stack : frames p stack → chain p.
Proof. induction 1; [constructor|by constructor]. Qed.

(** A frame of [v] deeper than the path would be a child of its last item. *)
Lemma frames_depth p stack v d :
  frames p stack → (v, d) ∈ stack → d ≠ EXIT → 1 ≤ d ∧ d ≤ len p.
Proof.
  intros Hf Hin Hd. induction Hf as [C _|p u v' C stack Hf IH Hv HC].
  - apply list_elem_of_fmap in Hin as (c & [= -> ->] & _). unfold len. cbn. lia.
  - apply elem_of_app in Hin as [(c & [= -> ->] & _)%list_elem_of_fmap|[[= -> ->]|Hin]%elem_of_cons]; [|done|].
    + rw !len_app. unfold len. cbn. lia.
    + destruct (IH Hin) as [? ?]. rw len_app. lia.
Qed.

Lemma chain_head p : chain p → p !! 0%nat = Some root.
Proof. induction 1 as [|p u v Hc IH _]; [done|]. rw lookup_app_l; [done|rw length_app; cbn; lia]. Qed.

Lemma chain_reach p i v : chain p → p !! i = Some v → reach i v.
Proof.
  intros Hc. revert v. induction i as [|i IH]; intros v Hi.
  - pose proof (chain_head p Hc) as E.
    rw Hi in E. injection E as ->. constructor.
  - destruct (lookup_lt_is_Some_2 p i) as [u Hu]; [apply lookup_lt_Some in Hi; lia|].
    econstructor; [by apply IH|]. by eapply chain_edge.
Qed.

(** The top of the stack. *)
Lemma frames_exit p x stack :
  frames p ((x, EXIT) :: stack) → len p ≤ 65 → ∃ q u, p = (q ++ [u]) ++ [x] ∧ frames (q ++ [u]) stack.
Proof.
  intros Hf Hl. inversion Hf as [C HC Ep Es|q u v C st Hf' Hv HC Ep Es].
  - destruct C; [done|]. by injection Es as _ E.
  - destruct C as [|c C]; cbn in Es; [injection Es as -> ->; eauto|]. injection Es as _ E _. subst p. unfold EXIT, usize_max, u64_max in E. lia.
Qed.

Lemma frames_visit p x d stack :
  frames p ((x, d) :: stack) → d ≠ EXIT → d = len p ∧ frames p stack ∧ ∃ q u, p = q ++ [u] ∧ x ∈ blockers u.
Proof.
  intros Hf Hd. inversion Hf as [C HC Ep Es|q u v C st Hf' Hv HC Ep Es].
  - destruct C as [|c C]; [done|]. injection Es as -> <- <-. split; [done|]. split; [|exists [], root; split; [done|]; apply HC; by left].
    constructor. intros c Hc. apply HC. by right.
  - destruct C as [|c C]; cbn in Es; [by injection Es as _ E _|]. injection Es as -> <- <-. split; [done|]. split.
    + constructor; [done|done|]. intros c Hc. apply HC. by right.
    + exists (q ++ [u]), v. split; [done|]. apply HC. by left.
Qed.

Lemma frames_nil p : frames p [] → p = [root].
Proof. inversion 1 as [|q u v C st Hf' Hv HC Ep Es]; [done|]. by destruct C. Qed.

(** ** The invariant *)

(** [fin] lists the items in the order in which they were first left. *)
Record walk_inv (w : Walk) (fin : list BoardItemId) : Prop := {
  wi_frames : frames (wk_path_ids w) (wk_stack w);
  wi_seen v d : wk_seen w !! v = Some d → d ≤ MAX_BLOCKED_DEPTH ∧ reach (N.to_nat d) v;
  wi_root : wk_seen w !! root = Some 0;
  wi_path i v : wk_path_ids w !! i = Some v → ∃ d, wk_seen w !! v = Some d ∧ d ≤ N.of_nat i;
  wi_short : len (wk_path_ids w) ≤ 65;
  wi_nodup : NoDup (wk_path_ids w);
  wi_blocking v : v ∈ wk_blocking w ↔ v ≠ root ∧ is_Some (wk_seen w !! v);
  wi_labels v d b : wk_seen w !! v = Some d → b ∈ blockers v →
    (∃ d', wk_seen w !! b = Some d' ∧ d' ≤ d + 1) ∨ (b, d + 1) ∈ wk_stack w
    ∨ (MAX_BLOCKED_DEPTH < d + 1 ∧ wk_depth_capped w = true);
  wi_capped : wk_depth_capped w = true → ∃ v, reach 65 v;
  wi_open i u b : wk_path_ids w !! i = Some u → b ∈ blockers u →
    (b, N.of_nat (Datatypes.S i)) ∈ wk_stack w ∨ wk_path_ids w !! Datatypes.S i = Some b ∨ b ∈ fin ∨ wk_depth_capped w = true;
  wi_fin_root : root ∉ fin;
  wi_done v d : wk_seen w !! v = Some d → v ∈ wk_path_ids w ∨ v ∈ fin;
  wi_order i v b : fin !! i = Some v → b ∈ blockers v → b ∈ take i fin ∨ wk_depth_capped w = true;
}.

Lemma walk_start_inv : walk_inv (walk_start index root) [].
Proof.
  split; cbn [walk_start wk_path_ids wk_stack wk_seen wk_blocking wk_depth_capped].
  - rw -fmap_reverse. constructor. intros c. by rw elem_of_reverse.
  - intros v d [<- <-]%lookup_singleton_Some. split; [done|constructor].
  - apply lookup_singleton_eq.
  - intros i v [-> <-]%list_lookup_singleton_Some. exists 0. split; [apply lookup_singleton_eq|done].
  - unfold len. cbn. lia.
  - apply NoDup_singleton.
  - intros v. split; [by intros ?%not_elem_of_nil|]. intros [Hne [d [E _]%lookup_singleton_Some]]. by subst.
  - intros v d b [<- <-]%lookup_singleton_Some Hb. right. left. rw elem_of_reverse. apply list_elem_of_fmap. by exists b.
  - done.
  - intros i u b [-> <-]%list_lookup_singleton_Some Hb. left. rw elem_of_reverse. apply list_elem_of_fmap. by exists b.
  - by apply not_elem_of_nil.
  - intros v d [<- <-]%lookup_singleton_Some. left. by left.
  - done.
Qed.

(** An item on the path was reached at most at its place. *)
Lemma on_path_revisited w fin v d :
  walk_inv w fin → v ∈ wk_path_ids w → len (wk_path_ids w) ≤ d → revisited (wk_seen w) v d = true.
Proof.
  intros Hi [i Hv]%list_elem_of_lookup Hd. destruct (wi_path _ _ Hi i v Hv) as (d' & E & Hle).
  unfold revisited. rw E. apply N.leb_le. apply lookup_lt_Some in Hv. unfold len in Hd. lia.
Qed.

Lemma not_exit n : n ≤ 65 → n ≠ EXIT.
Proof. unfold EXIT, usize_max, u64_max. lia. Qed.

(** The last item of the path is left. *)
Lemma walk_exit w fin x stack :
  walk_inv w fin → wk_stack w = (x, EXIT) :: stack →
  walk_inv (MkWalk stack (wk_seen w) (removelast (wk_path_ids w)) (wk_blocking w) (wk_depth_capped w))
    (if bool_decide (x ∈ fin) then fin else fin ++ [x]).
Proof.
  intros Hinv Es. pose proof Hinv as []. rw Es in wi_frames0 wi_labels0 wi_open0.
  destruct (frames_exit _ _ _ wi_frames0 wi_short0) as (q & u & Ep & Hf). rw Ep in wi_frames0 wi_path0 wi_short0 wi_nodup0 wi_open0 wi_done0.
  apply NoDup_app in wi_nodup0 as (Hnd & Hfresh & _).
  set (fin' := if bool_decide (x ∈ fin) then fin else fin ++ [x]).
  assert (∀ y, y ∈ fin → y ∈ fin') as Hmono by (intros y Hy; unfold fin'; case_bool_decide; [done|apply elem_of_app; by left]).
  assert (x ∈ fin') as Hx.
  { unfold fin'. case_bool_decide; [done|]. apply elem_of_app. right. by apply list_elem_of_singleton. }
  rw len_app in wi_short0. assert (len [x] = 1) as Hl1 by done.
  assert (∀ y n, n ≤ 65 → (y, n) ∈ (x, EXIT) :: stack → (y, n) ∈ stack) as Hin.
  { intros y n Hn [[= _ E]|]%elem_of_cons; [by apply not_exit in Hn|done]. }
  assert (∀ i y, (q ++ [u]) !! i = Some y → ((q ++ [u]) ++ [x]) !! i = Some y) as Hpre.
  { intros i y Hy. by apply lookup_app_l_Some. }
  split; cbn [wk_path_ids wk_stack wk_seen wk_blocking wk_depth_capped]; rw ?Ep ?removelast_last; try done.
  - intros i v Hv. eapply wi_path0. by apply Hpre.
  - lia.
  - intros v d b Hd Hb. destruct (wi_labels0 v d b Hd Hb) as [?|[Hs|?]]; [by left| |by right; right].
    right. left. apply Hin; [|done]. destruct (wi_seen0 v d Hd). unfold MAX_BLOCKED_DEPTH in *. lia.
  - intros i u' b Hu Hb. pose proof (lookup_lt_Some _ _ _ Hu) as Hlt.
    destruct (wi_open0 i u' b (Hpre _ _ Hu) Hb) as [Hs|[Hn|[Hfin|?]]]; [| |by auto|by auto].
    + left. apply Hin; [|done]. unfold len in *. lia.
    + right. apply lookup_app_Some in Hn as [Hn|[_ Hn]]; [by left|].
      apply list_lookup_singleton_Some in Hn as [_ <-]. by auto.
  - unfold fin'. case_bool_decide; [done|]. intros [?|?%list_elem_of_singleton]%elem_of_app; [done|]. subst x.
    pose proof (chain_head _ (frames_chain _ _ Hf)) as Hh%list_elem_of_lookup_2. apply (Hfresh _ Hh). by left.
  - intros v d Hd. destruct (wi_done0 v d Hd) as [[?|?%list_elem_of_singleton]%elem_of_app|?]; [by left|subst; by right|right; auto].
  - intros i v b Hv Hb. unfold fin' in *. case_bool_decide as Hxf; [by eapply wi_order0|].
    apply lookup_app_Some in Hv as [Hv|[Hl Hv]].
    + pose proof (lookup_lt_Some _ _ _ Hv). rw take_app_le; [by eapply wi_order0|lia].
    + apply list_lookup_singleton_Some in Hv as [Hi <-]. replace i with (length fin) by lia. rw take_app_length.
      destruct (wi_open0 (length (q ++ [u])) x b) as [Hs|[Hn|[?|?]]]; [by rw lookup_app_r; [rw Nat.sub_diag|]|done| | |by left|by right].
      * exfalso. apply Hin in Hs; [|unfold len in *; lia]. apply (frames_depth _ _ _ _ Hf) in Hs; [unfold len in *; lia|].
        apply not_exit. unfold len in *. lia.
      * exfalso. apply lookup_lt_Some in Hn. rw !length_app in Hn. cbn in Hn. lia.
Qed.

(** A frame that is dropped: its item is known to be no farther, or the branch
    is cut at the bound. *)
Lemma walk_drop w fin x d stack capped :
  walk_inv w fin → wk_stack w = (x, d) :: stack → d ≠ EXIT →
  (revisited (wk_seen w) x d = true ∧ (x ∉ wk_path_ids w) ∧ capped = wk_depth_capped w)
  ∨ (MAX_BLOCKED_DEPTH < d ∧ capped = true) →
  walk_inv (MkWalk stack (wk_seen w) (wk_path_ids w) (wk_blocking w) capped) fin.
Proof.
  intros Hinv Es Hd Hc. pose proof Hinv as []. rw Es in wi_frames0 wi_labels0 wi_open0.
  destruct (frames_visit _ _ _ _ wi_frames0 Hd) as (Ed & Hf & q & u & Ep & Hx).
  assert (wk_depth_capped w = true → capped = true) as Hmono by (destruct Hc as [(_ & _ & ->)|[_ ->]]; done).
  assert (capped = true ∨ (∃ d', wk_seen w !! x = Some d' ∧ d' ≤ d) ∧ x ∈ fin) as Hx'.
  { destruct Hc as [(Hr & Hp & _)|[_ ->]]; [|by left]. right. unfold revisited in Hr.
    destruct (wk_seen w !! x) as [d'|] eqn:E; [|done]. apply N.leb_le in Hr. split; [by eexists|].
    by destruct (wi_done0 x d' E). }
  split; cbn [wk_path_ids wk_stack wk_seen wk_blocking wk_depth_capped]; try done.
  - intros v d' b Hv Hb. destruct (wi_labels0 v d' b Hv Hb) as [?|[Hs|[? ?]]]; [by left| |right; right; auto].
    apply elem_of_cons in Hs as [[= -> <-]|Hs]; [|by right; left].
    destruct Hc as [(Hr & Hp & ->)|[? ->]]; [|by right; right]. left. unfold revisited in Hr.
    destruct (wk_seen w !! x) as [e|] eqn:E; [|done]. apply N.leb_le in Hr. by exists e.
  - intros ->. destruct Hc as [(_ & _ & E)|[Hlt _]]; [by apply wi_capped0|].
    assert (length q = 64%nat) as Hq.
    { rw Ep in Ed wi_short0. rw len_app in Ed wi_short0. unfold len, MAX_BLOCKED_DEPTH in *. cbn in *. lia. }
    exists x. eapply reach_step; [|exact Hx]. eapply (chain_reach _ _ _ (frames_chain _ _ Hf)). rw Ep lookup_app_r; [|lia].
    by rw Hq Nat.sub_diag.
  - intros i u' b Hu Hb. destruct (wi_open0 i u' b Hu Hb) as [Hs|[?|[?|?]]]; [|by auto|by auto|by auto].
    apply elem_of_cons in Hs as [[= -> _]|Hs]; [|by left]. destruct Hx' as [?|[_ ?]]; auto.
  - intros i v b Hv Hb. destruct (wi_order0 i v b Hv Hb); auto.
Qed.

(** An item reached for the first time, or on a shorter path. *)
Lemma walk_expand w fin x d stack :
  walk_inv w fin → wk_stack w = (x, d) :: stack → d ≠ EXIT → revisited (wk_seen w) x d = false →
  d ≤ MAX_BLOCKED_DEPTH → walk_inv (expand index w x d stack) fin.
Proof.
  intros Hinv Es Hd Hr Hle. pose proof Hinv as []. rw Es in wi_frames0 wi_labels0 wi_open0.
  destruct (frames_visit _ _ _ _ wi_frames0 Hd) as (Ed & Hf & q & u & Ep & Hx).
  assert (x ∉ wk_path_ids w) as Hnp.
  { intros Hp. pose proof (on_path_revisited w fin x d Hinv Hp) as Hc. rw Hr in Hc. rw -Ed in Hc. by discriminate Hc. }
  assert (x ≠ root) as Hxr.
  { intros ->. unfold revisited in Hr. rw wi_root0 in Hr. apply N.leb_gt in Hr. lia. }
  assert (∀ d', wk_seen w !! x = Some d' → d < d') as Hlt.
  { intros d' E. unfold revisited in Hr. rw E in Hr. by apply N.leb_gt in Hr. }
  assert (saturating_add usize_max d 1 = d + 1) as Hsat.
  { unfold saturating_add, usize_max, u64_max, MAX_BLOCKED_DEPTH in *. lia. }
  assert (d = N.of_nat (length (wk_path_ids w))) as Ed' by done.
  assert (∀ b, b ∈ blockers x → (b, d + 1) ∈ wk_stack (expand index w x d stack)) as Hch.
  { intros b Hb. unfold expand. cbn. rw Hsat. apply elem_of_app. left. rw elem_of_reverse. apply list_elem_of_fmap. by exists b. }
  assert (∀ y, y ∈ stack → y ∈ wk_stack (expand index w x d stack)) as Hst.
  { intros y Hy. unfold expand. cbn. apply elem_of_app. right. by right. }
  split.
  - unfold expand. cbn. rw Hsat -fmap_reverse. rw Ep. replace (d + 1) with (len ((q ++ [u]) ++ [x])).
    + constructor; [by rw -Ep|done|]. intros c. by rw elem_of_reverse.
    + rw len_app -Ep. unfold len at 2. cbn. unfold len. lia.
  - unfold expand. cbn. intros v d'. rw lookup_insert_Some. intros [[<- <-]|[_ ?]]; [|by apply wi_seen0]. split; [done|].
    rw Ed' Nat2N.id Ep length_app. cbn. rw Nat.add_1_r. eapply reach_step; [|exact Hx].
    eapply (chain_reach _ _ _ (frames_chain _ _ Hf)). rw Ep lookup_app_r; [|done]. by rw Nat.sub_diag.
  - unfold expand. cbn. rw lookup_insert_ne; [done|done].
  - unfold expand. cbn. intros i v Hv. apply lookup_app_Some in Hv as [Hv|[Hl Hv]].
    + rw lookup_insert_ne; [by apply wi_path0|]. intros ->. by apply list_elem_of_lookup_2 in Hv.
    + apply list_lookup_singleton_Some in Hv as [Hi <-]. exists d. split; [apply lookup_insert_eq|]. lia.
  - unfold expand. cbn. rw len_app. unfold len in *. cbn. unfold MAX_BLOCKED_DEPTH in *. lia.
  - unfold expand. cbn. apply NoDup_app. split; [done|]. split; [|apply NoDup_singleton].
    by intros y Hy ->%list_elem_of_singleton.
  - unfold expand. cbn. intros v. rw elem_of_app list_elem_of_singleton wi_blocking0 lookup_insert_is_Some'. naive_solver.
  - intros v d' b. unfold expand at 1 2. cbn. rw !lookup_insert_Some. intros [[<- <-]|[Hne Hv]] Hb.
    { right. left. by apply Hch. }
    destruct (wi_labels0 v d' b Hv Hb) as [(e & He & Hle')|[Hs|?]]; [| |by right; right].
    + left. destruct (decide (x = b)) as [<-|]; [|by exists e; rw lookup_insert_ne].
      exists d. rw lookup_insert_eq. split; [done|]. pose proof (Hlt e He). lia.
    + apply elem_of_cons in Hs as [[= -> E]|Hs]; [|right; left; by apply Hst].
      left. exists d. split; [apply lookup_insert_eq|lia].
  - done.
  - intros i u' b. unfold expand at 1 3. cbn [wk_path_ids]. intros Hu Hb. apply lookup_app_Some in Hu as [Hu|[Hl Hu]].
    + destruct (wi_open0 i u' b Hu Hb) as [Hs|[Hn|[?|?]]]; [|right; left; by apply lookup_app_l_Some|by auto|by auto].
      apply elem_of_cons in Hs as [[= -> Hi]|Hs]; [|left; by apply Hst].
      right. left. rw lookup_app_r; [|lia]. replace (Datatypes.S i - length (wk_path_ids w))%nat with 0%nat by lia. done.
    + apply list_lookup_singleton_Some in Hu as [Hi <-]. left.
      replace (N.of_nat (Datatypes.S i)) with (d + 1) by lia. by apply Hch.
  - done.
  - intros v d'. unfold expand. cbn. rw lookup_insert_Some elem_of_app list_elem_of_singleton. intros [[<- _]|[_ Hv]]; [by auto|].
    destruct (wi_done0 v d' Hv); auto.
  - done.
Qed.

(** ** The loop ends *)

Definition label (w : Walk) (v : BoardItemId) : nat := N.to_nat (default 65 (wk_seen w !! v)).

Definition potential (w : Walk) : nat := sum_list_with (λ e, label w e.2) edges.

Definition measure (w : Walk) : nat := potential w * (length edges + 2) + length (wk_stack w).

Lemma sum_list_with_lt {A} (f g : A → nat) l x :
  x ∈ l → (∀ y, (f y ≤ g y)%nat) → (f x < g x)%nat → (sum_list_with f l < sum_list_with g l)%nat.
Proof.
  intros Hx Hle Hlt. assert (∀ k, (sum_list_with f k ≤ sum_list_with g k)%nat) as Hk.
  { intros k. induction k as [|y k IH]; cbn; [done|]. pose proof (Hle y). lia. }
  induction Hx as [y k|y z k Hx IH]; cbn; [pose proof (Hk k)|pose proof (Hle z); specialize (IH Hlt)]; lia.
Qed.

Lemma expand_measure w fin x d stack :
  walk_inv w fin → wk_stack w = (x, d) :: stack → d ≠ EXIT → revisited (wk_seen w) x d = false →
  d ≤ MAX_BLOCKED_DEPTH → (measure (expand index w x d stack) < measure w)%nat.
Proof.
  intros Hinv Es Hd Hr Hle. pose proof (wi_frames _ _ Hinv) as Hf. rw Es in Hf.
  destruct (frames_visit _ _ _ _ Hf Hd) as (_ & _ & q & u & _ & Hx%elem_of_blockers).
  assert (label (expand index w x d stack) x < label w x)%nat as Hlt.
  { unfold label, expand. cbn. rw lookup_insert_eq. unfold revisited in Hr.
    destruct (wk_seen w !! x) as [d'|] eqn:E; cbn; [apply N.leb_gt in Hr|unfold MAX_BLOCKED_DEPTH in *]; lia. }
  assert (potential (expand index w x d stack) < potential w)%nat as Hp.
  { apply (sum_list_with_lt _ _ _ (u, x) Hx); [|done]. intros [a y]. cbn. destruct (decide (y = x)) as [->|Hne]; [lia|].
    unfold label, expand. cbn. rw lookup_insert_ne; [done|congruence]. }
  unfold measure. rw Es. unfold expand at 2. cbn [wk_stack]. rw length_app length_reverse length_fmap. cbn [length].
  pose proof (length_blockers edges x). nia.
Qed.

(** What the loop returns. *)
Definition walked (w : Walk) (cycle : option BlockedCycle) : Prop :=
  ∃ fin, walk_inv w fin ∧
    match cycle with
    | None => wk_stack w = []
    | Some c => cy_path c = wk_path_ids w ∧ cy_item c ∈ wk_path_ids w
                ∧ ∃ q u, wk_path_ids w = q ++ [u] ∧ cy_item c ∈ blockers u
    end.

Lemma walk_loop_spec fuel w fin :
  walk_inv w fin → (measure w < fuel)%nat → ∃ w' cycle, walk_loop fuel index w = Done (w', cycle) ∧ walked w' cycle.
Proof.
  revert w fin. induction fuel as [|fuel IH]; intros w fin Hinv Hm; [lia|]. cbn [walk_loop].
  destruct (wk_stack w) as [|[x d] stack] eqn:Es; [exists w, None; split; [done|]; by exists fin|].
  assert (∀ w', (potential w' ≤ potential w)%nat → wk_stack w' = stack → (measure w' < fuel)%nat) as Hpop.
  { intros w' Hp Hs. unfold measure in *. rw Es in Hm. rw Hs. cbn [length] in Hm. nia. }
  destruct (d =? EXIT) eqn:Ed.
  { apply N.eqb_eq in Ed. subst d. eapply IH; [by eapply walk_exit|]. by apply Hpop. }
  apply N.eqb_neq in Ed. destruct (revisited (wk_seen w) x d) eqn:Er.
  - case_bool_decide as Hp.
    + eexists w, _. split; [done|]. exists fin. split; [done|]. split; [done|]. split; [done|].
      pose proof (wi_frames _ _ Hinv) as Hf. rw Es in Hf. destruct (frames_visit _ _ _ _ Hf Ed) as (_ & _ & ?). done.
    + eapply IH; [eapply walk_drop; [done|done|done|by left]|]. by apply Hpop.
  - destruct (MAX_BLOCKED_DEPTH <? d) eqn:El.
    + apply N.ltb_lt in El. eapply IH; [eapply walk_drop; [done|done|done|by right]|]. by apply Hpop.
    + apply N.ltb_ge in El. eapply IH; [by eapply walk_expand|].
      pose proof (expand_measure _ _ _ _ _ Hinv Es Ed Er El). lia.
Qed.

Lemma walk_start_measure : (measure (walk_start index root) < walk_fuel edges)%nat.
Proof.
  unfold measure, walk_start, walk_fuel. cbn [wk_stack]. rw length_reverse length_fmap.
  pose proof (length_blockers edges root).
  assert (potential (walk_start index root) ≤ 66 * length edges)%nat.
  { unfold potential. set (w := walk_start index root).
    assert (∀ l : list DependencyEdge, sum_list_with (λ e, label w e.2) l ≤ 66 * length l)%nat as Hgo; [|apply Hgo].
    intros l. induction l as [|e l IH]; cbn [sum_list_with length]; [lia|].
    assert (label w e.2 ≤ 65)%nat; [|lia]. unfold label, w, walk_start. cbn [wk_seen].
    destruct ({[root := 0]} !! e.2) as [d|] eqn:E; cbn; [apply lookup_singleton_Some in E as [_ <-]|]; lia. }
  unfold walk_start in *. nia.
Qed.

(** ** What the walk found *)

(** Without a cycle, every item within the bound has its distance as label. *)
Lemma walked_labels w v n :
  walked w None → reach n v → (n ≤ 64)%nat → ∃ d, wk_seen w !! v = Some d ∧ d ≤ N.of_nat n.
Proof.
  intros (fin & Hinv & Es) Hr. induction Hr as [|n u b Hr IH Hb]; intros Hn; [exists 0; split; [by eapply wi_root|done]|].
  destruct IH as (d & Hd & Hle); [lia|].
  destruct (wi_labels _ _ Hinv u d b Hd Hb) as [(d' & Hd' & Hle')|[Hs|[Hc _]]].
  - exists d'. split; [done|lia].
  - rw Es in Hs. by apply not_elem_of_nil in Hs.
  - unfold MAX_BLOCKED_DEPTH in Hc. lia.
Qed.

(** Below the bound nothing is missed. *)
Lemma walked_all w v n :
  walked w None → wk_depth_capped w = false → reach n v → is_Some (wk_seen w !! v).
Proof.
  intros (fin & Hinv & Es) Hc Hr. induction Hr as [|n u b Hr [d Hd] Hb]; [by erewrite wi_root|].
  destruct (wi_labels _ _ Hinv u d b Hd Hb) as [(d' & Hd' & Hle')|[Hs|[_ Hc']]]; [done| |by rw Hc in Hc'].
  rw Es in Hs. by apply not_elem_of_nil in Hs.
Qed.

(** Below the bound the items left are closed under blockers, each after those
    that block it. *)
Lemma walked_ordered w fin :
  walk_inv w fin → wk_stack w = [] → wk_depth_capped w = false →
  (∀ b, b ∈ blockers root → b ∈ fin)
  ∧ (∀ b v i, fin !! i = Some v → blocks_transitively b v → ∃ j, (j < i)%nat ∧ fin !! j = Some b).
Proof.
  intros Hinv Es Hc. pose proof (wi_frames _ _ Hinv) as Hf. rw Es in Hf. apply frames_nil in Hf.
  assert (∀ i v b, fin !! i = Some v → b ∈ blockers v → ∃ j, (j < i)%nat ∧ fin !! j = Some b) as Hd.
  { intros i v b Hv Hb. destruct (wi_order _ _ Hinv i v b Hv Hb) as [Hin|E]; [|by rw Hc in E].
    apply list_elem_of_lookup in Hin as [j Hj]. apply lookup_take_Some in Hj as [Hj ?]. by exists j. }
  split.
  - intros b Hb. destruct (wi_open _ _ Hinv 0%nat root b) as [Hs|[Hn|[?|E]]]; [by rw Hf|done| | |done|by rw Hc in E].
    + rw Es in Hs. by apply not_elem_of_nil in Hs.
    + rw Hf in Hn. done.
  - intros b v i Hv Hbv. revert i Hv. induction Hbv as [u v Hv|u v b Hv _ IH]; intros i Hi; [by eapply Hd|].
    destruct (Hd i u v Hi Hv) as (j & Hlt & Hj). destruct (IH j Hj) as (k & Hk & Hb). exists k. split; [lia|done].
Qed.

Lemma walked_acyclic w v n :
  walked w None → wk_depth_capped w = false → reach n v → ¬ blocks_transitively v v.
Proof.
  intros Hw Hc Hr Hcy. destruct (walked_all w v n Hw Hc Hr) as [d Hd]. destruct Hw as (fin & Hinv & Es).
  destruct (walked_ordered w fin Hinv Es Hc) as [Hroot Hord].
  assert (∀ i, fin !! i = Some v → False) as Hno.
  { intros i. induction (lt_wf i) as [i _ IH]. intros Hi. destruct (Hord v v i Hi Hcy) as (j & Hj & Hv). by apply (IH j). }
  destruct (wi_done _ _ Hinv v d Hd) as [Hp|[i Hi]%list_elem_of_lookup]; [|by eapply Hno].
  pose proof (wi_frames _ _ Hinv) as Hf. rw Es in Hf. apply frames_nil in Hf. rw Hf in Hp.
  apply list_elem_of_singleton in Hp. subst v.
  inversion Hcy as [? ? Hb|? v1 ? Hb Hbv]; subst; [by apply (wi_fin_root _ _ Hinv), Hroot|].
  apply Hroot, list_elem_of_lookup in Hb as [i Hi]. destruct (Hord root v1 i Hi Hbv) as (j & _ & Hj).
  by apply list_elem_of_lookup_2, (wi_fin_root _ _ Hinv) in Hj.
Qed.

(** The walk over an item's blockers returns on every board.  What it
    collects blocks the item through at most 64 edges.  A cycle it reports is
    one: the named item transitively blocks itself and the path leads to it from
    the root.  When it reports none, it has collected every item (other than
    the root) within 64 edges; if moreover the bound was not hit, every item
    that blocks the root at all, and no such item, nor the root, blocks itself;
    and the bound is reported hit only if some item is 65 edges away. *)
Theorem blocked_walk_right :
  ∃ w cycle, walk_loop (walk_fuel edges) index (walk_start index root) = Done (w, cycle)
  ∧ (∀ v, v ∈ wk_blocking w → v ≠ root ∧ ∃ n, (n ≤ 64)%nat ∧ reach n v)
  ∧ (wk_depth_capped w = true → ∃ v, reach 65 v)
  ∧ match cycle with
    | Some c => blocks_transitively (cy_item c) (cy_item c) ∧ chain (cy_path c) ∧ cy_item c ∈ cy_path c
    | None =>
        (∀ v n, reach n v → (n ≤ 64)%nat → v ≠ root → v ∈ wk_blocking w)
        ∧ (wk_depth_capped w = false →
           (∀ v n, reach n v → v ≠ root → v ∈ wk_blocking w) ∧ (∀ v n, reach n v → ¬ blocks_transitively v v))
    end.
Proof.
  destruct (walk_loop_spec (walk_fuel edges) _ _ walk_start_inv walk_start_measure) as (w & cycle & E & Hw).
  exists w, cycle. split; [done|]. pose proof Hw as (fin & Hinv & Hc). split; [|split; [by eapply wi_capped|]].
  - intros v [Hne [d Hd]]%(wi_blocking _ _ Hinv). split; [done|]. destruct (wi_seen _ _ Hinv v d Hd) as [Hle Hr].
    eexists. split; [|exact Hr]. unfold MAX_BLOCKED_DEPTH in Hle. lia.
  - destruct cycle as [[x path]|]; cbn in Hc.
    + destruct Hc as (-> & Hin & q & u & Ep & Hx). pose proof (frames_chain _ _ (wi_frames _ _ Hinv)) as Hch. cbn.
      split; [|done]. apply list_elem_of_lookup in Hin as [i Hi].
      assert (wk_path_ids w !! length q = Some u) as Hu by (rw Ep lookup_app_r; [by rw Nat.sub_diag|done]).
      destruct (decide (i = length q)) as [->|Hne].
      * rw Hu in Hi. injection Hi as <-. by apply blocks_direct.
      * assert (blocks_transitively u x) as Hb.
        { eapply chain_blocks; [exact Hch|exact Hi|exact Hu|]. apply lookup_lt_Some in Hi. rw Ep length_app in Hi. cbn in Hi. unfold BoardItemId in *. lia. }
        eapply blocks_trans_step; eauto.
    + split; [|intros Hcap; split].
      * intros v n Hr Hn Hne. apply (wi_blocking _ _ Hinv). split; [done|].
        destruct (walked_labels w v n Hw Hr Hn) as (d & Hd & _). by exists d.
      * intros v n Hr Hne. apply (wi_blocking _ _ Hinv). split; [done|]. by eapply walked_all.
      * intros v n Hr. by eapply walked_acyclic.
Qed.
End walk.
