(* ===== verification/BoardQuerySafe.v ===== *)
(** * What a board query returns

    The result of a query over boards whose reads change nothing, the record of
    every query, and the order-independence of a fingerprint. *)

From S2P Require Import Prelude BTree Text Model Events AuditExample BoardContract BoardMove BoardMoveSafe BoardQuery BoardWalk.

(** ** Reads *)

Class ReadSteady (P : Type) `{BoardProvider P} : Prop := {
  rs_item p id : (item p id).1 = p;
  rs_fields p : (fields p).1 = p;
  rs_field_value p id f : (field_value p id f).1 = p;
  rs_edges p : (dependency_edges p).1 = p;
  rs_search p f : (search p f).1 = p;
}.

#[export] Instance InMemory_read_steady : ReadSteady InMemory.InMemoryBoardProvider.
Proof.
  split; cbn [item fields field_value dependency_edges search InMemory.InMemory_provider];
    unfold InMemory.item, InMemory.fields, InMemory.field_value, InMemory.dependency_edges, InMemory.search, InMemory.locked;
    intros [s []]; try done.
  intros id f. cbn. destruct (negb (InMemory.contains_key s id)); [done|]. by destruct (negb (existsb _ _)).
Qed.

Section result.
Context {P : Type} `{ReadSteady P}.
Implicit Types p : P.










Abbreviation id_order := (λ a b : BoardItem, kle (bi_id a) (bi_id b)).







End result.

Section recorded.
Context {S : Type} `{AuditStoreLaws S} {P : Type} `{ReadSteady P}.





End recorded.

(** ** Fingerprints *)

(** Two listings of the same elements sorted by a key that tells them apart. *)
Lemma sorted_unique_on {A K} `{OrdKey K} (f : A → K) l k :
  (∀ x y, x ∈ l → y ∈ l → f x = f y → x = y) →
  StronglySorted (by_key f) l → StronglySorted (by_key f) k → l ≡ₚ k → l = k.
Proof.
  revert k. induction l as [|x l IH]; intros k Hf Hl Hk Hp; [by apply Permutation_nil_l in Hp|].
  destruct k as [|y k]; [by apply Permutation_nil_r in Hp|].
  apply StronglySorted_inv in Hl as [Hl Hx], Hk as [Hk Hy]. rw Forall_forall in Hx. rw Forall_forall in Hy.
  assert (y ∈ x :: l) as Hyl by (rw Hp; by left). assert (x ∈ y :: k) as Hxk by (rw -Hp; by left).
  assert (x = y) as ->.
  { apply elem_of_cons in Hxk as [|Hxk]; [done|]. assert (y = x ∨ y ∈ l) as [|Hyl'] by (by apply elem_of_cons); [done|].
    apply Hf; [by left|done|]. apply (anti_symm kle); [by apply Hx|by apply Hy]. }
  f_equal. apply IH; [|done..|by apply Permutation_cons_inv in Hp]. intros u v Hu Hv. apply Hf; by right.
Qed.

Section drift.
Context (canonical_value : Value → option (list N)) (canonical_tools : list ToolSchemaIdentity → option (list N))
  (sha256_hex : list N → rstr).

Abbreviation key := (tool_key canonical_value).

(** The digest does not depend on the order in which the tools were listed. *)
Lemma digest_order_free tools tools' :
  (∀ t u, t ∈ tools → u ∈ tools → key t = key u → t = u) → tools ≡ₚ tools' →
  digest_sorted_tools canonical_value canonical_tools sha256_hex tools
  = digest_sorted_tools canonical_value canonical_tools sha256_hex tools'.
Proof.
  intros Hk Hp. unfold digest_sorted_tools. f_equal. f_equal. apply (sorted_unique_on key).
  - intros t u. rw !elem_of_stable_sort. apply Hk.
  - apply (stable_sort_sorted (by_key key)).
  - apply (stable_sort_sorted (by_key key)).
  - by rw !stable_sort_Permutation.
Qed.

Lemma same_capabilities (l k : list rstr) :
  (list_to_set l : gset rstr) = list_to_set k ↔ ∀ c, c ∈ l ↔ c ∈ k.
Proof. rw set_eq. split; intros Hc c; specialize (Hc c); revert Hc; by rw !elem_of_list_to_set. Qed.

Lemma compare_unchanged f g :
  fingerprint_compare f g = NoChange ↔
  executable_digest (fp_server f) = executable_digest (fp_server g)
  ∧ remote_spki_digest (fp_server f) = remote_spki_digest (fp_server g)
  ∧ fp_schema_digest f = fp_schema_digest g
  ∧ ∀ c, c ∈ fp_effective_capabilities f ↔ c ∈ fp_effective_capabilities g.
Proof.
  unfold fingerprint_compare. case_bool_decide; cbn [negb orb]; [|by split; [|intros [? _]]].
  case_bool_decide; cbn [negb orb]; [|by split; [|intros (_ & ? & _)]].
  case_bool_decide; cbn [negb]; [|by split; [|intros (_ & _ & ? & _)]].
  rewrite <- same_capabilities. case_bool_decide as E4; [by split|].
  split; [by repeat case_bool_decide|]. by intros (_ & _ & _ & ?).
Qed.

(** A capability that was not in effect before is never passed over. *)
Lemma compare_expansion f g c :
  c ∈ fp_effective_capabilities g → (c ∉ fp_effective_capabilities f) →
  fingerprint_compare f g ∉ [NoChange; CapabilityReduced].
Proof.
  intros Hg Hf. unfold fingerprint_compare. destruct (_ || _); [by intros ?%elem_of_cons; set_solver|].
  destruct (negb _); [set_solver|]. rw bool_decide_eq_false_2; [|set_solver].
  case_bool_decide; [set_solver|]. rw bool_decide_eq_false_2; [|set_solver]. set_solver.
Qed.

(** The comparison does not look at the server's id or its versions. *)
Lemma compare_ignores_versions f id manifest schema :
  let server := fp_server f in
  fingerprint_compare f
    (MkFingerprint (MkServerIdentity id (executable_digest server) (remote_spki_digest server) manifest schema)
       (fp_schema_digest f) (fp_capability_cross_check f) (fp_effective_capabilities f)) = NoChange.
Proof. by apply compare_unchanged. Qed.
End drift.

(** ** Examples *)


