(* ===== verification/PrStatus.v ===== *)
(** * Pull-request status

    [crates/orchestraitor-mcp/src/pr_status.rs] and the [pr.status] tool of
    [gateway.rs]: the reads of one pull request, their classification, and the
    verdict whether it may be merged.

    The GraphQL transport is the class [PrStatusTransport]; it answers as it
    likes and its state is threaded through the calls.  The file system, the
    clock and the JSON printer are parameters. *)

From S2P Require Import Prelude BTree Text Substring SecretShape Model Events BoardContract BoardMove BoardQuery.

(** ** JSON access *)

(** [Value::get]: the keys of an object are distinct. *)
Definition get (v : Value) (key : rstr) : option Value :=
  match v with
  | VObject fields => snd <$> List.find (λ e, bool_decide (e.1 = key)) fields
  | _ => None
  end.

Definition as_str (v : Value) : option rstr := match v with VString s => Some s | _ => None end.
Definition as_bool (v : Value) : option bool := match v with VBool b => Some b | _ => None end.
Definition as_array (v : Value) : option (list Value) := match v with VArray l => Some l | _ => None end.
Definition is_null (v : Value) : bool := match v with VNull => true | _ => false end.

Definition as_i64 (v : Value) : option Z :=
  match v with
  | VNumber (PosInt n) => if n <=? i64_max then Some (Z.of_N n) else None
  | VNumber (NegInt z) => Some z
  | _ => None
  end.

(** [Value::pointer] along field names. *)
Fixpoint pointer (v : Value) (path : list rstr) : option Value :=
  match path with
  | [] => Some v
  | key :: path => w ← get v key; pointer w path
  end.

Definition str_at (v : Value) (key : rstr) : option rstr := get v key ≫= as_str.
Definition text_at (v : Value) (key : rstr) : rstr := default [] (str_at v key).

(** ** Data *)

Inductive PrStatusError :=
| Unrecoverable (message partial_json : rstr)
| PrConfig (message : rstr)
| ConcurrentEdit (anchor before after : rstr).

Definition PrStatusError_display (e : PrStatusError) : rstr :=
  lit "pr status: " ++
  match e with
  | Unrecoverable message _ | PrConfig message => message
  | ConcurrentEdit anchor before after =>
      lit "concurrent edit " ++ [8212] ++ lit " " ++ anchor ++ lit " moved between the pre- and post-reads ("
      ++ before ++ lit " -> " ++ after ++ lit "); re-read and retry"
  end.

Definition KNOWN_DISABLED_JOBS : list rstr := [lit "Docs Consistency"; lit "Documentation"].
Definition THREAD_EXCERPT_CAP : nat := 280.

Record CheckItem := MkCheckItem {
  ck_name : rstr;
  ck_state : rstr;
  ck_bucket : rstr;
  ck_classification : rstr;
  ck_workflow : rstr;
  ck_link : rstr;
}.

Record ThreadItem := MkThreadItem {
  th_id : rstr;
  th_is_resolved : bool;
  th_is_outdated : bool;
  th_actionable : bool;
  th_path : option rstr;
  th_line : option Z;
  th_authors : list rstr;
  th_last_comment_excerpt : option rstr;
}.

Record ThreadsSummary := MkThreadsSummary {
  ths_total : N;
  unresolved_actionable : N;
  ths_resolved : N;
  ths_outdated : N;
  ths_items : list ThreadItem;
}.

Record ChecklistItem := MkChecklistItem { ci_marker : rstr; ci_checked : bool; ci_description : rstr }.

Record Checklist := MkChecklist { cl_items : list ChecklistItem; all_checked : bool; unchecked_count : N }.

Record ReviewRecord := MkReviewRecord {
  rr_present : bool;
  rr_verdict : rstr;
  head_sha_match : bool;
  base_oid_match : bool;
}.

Record Convergence := MkConvergence { mergeable : bool; reasons : list rstr }.

Record ChecksAggregate := MkChecksAggregate {
  ca_items : list CheckItem;
  all_passed : bool;
  any_failing : bool;
  any_pending : bool;
}.

Record PrStatus := MkPrStatus {
  ps_number : N;
  ps_repository : rstr;
  ps_head_sha : rstr;
  ps_base_oid : rstr;
  ps_is_draft : bool;
  ps_review_decision : rstr;
  ps_merge_state : rstr;
  ps_checks : option (list CheckItem);
  ps_checks_all_passed : option bool;
  ps_checks_any_failing : option bool;
  ps_checks_any_pending : option bool;
  ps_threads : option ThreadsSummary;
  ps_checklist : option Checklist;
  ps_review_record : ReviewRecord;
  ps_convergence : Convergence;
  ps_fetched_at : rstr;
}.

Record SubReads := MkSubReads {
  sr_checks : result ChecksAggregate rstr;
  sr_threads : result ThreadsSummary rstr;
  sr_checklist : result Checklist rstr;
  sr_review_record : ReviewRecord;
}.

(** ** Checks *)

Definition gh_bucket (state : rstr) : rstr :=
  if bool_decide (state = lit "SUCCESS") then lit "pass"
  else if bool_decide (state ∈ [lit "SKIPPED"; lit "NEUTRAL"]) then lit "skipping"
  else if bool_decide (state ∈ [lit "ERROR"; lit "FAILURE"; lit "TIMED_OUT"; lit "ACTION_REQUIRED"]) then lit "fail"
  else if bool_decide (state = lit "CANCELLED") then lit "cancel"
  else lit "pending".

(** The classification of a bucket, but for the exempted jobs. *)
Definition bucket_class (bucket : rstr) : rstr :=
  if bool_decide (bucket = lit "pass") then lit "pass"
  else if bool_decide (bucket = lit "fail" ∨ bucket = lit "cancel") then lit "fail"
  else if bool_decide (bucket = lit "pending") then lit "pending"
  else if bool_decide (bucket = lit "skipping") then lit "skip"
  else lit "unknown".

Definition WORKFLOW_NAME : list rstr := [lit "checkSuite"; lit "workflowRun"; lit "workflow"; lit "name"].
Definition WORKFLOW_EVENT : list rstr := [lit "checkSuite"; lit "workflowRun"; lit "event"].

Definition text_pointer (v : Value) (path : list rstr) : rstr := default [] (pointer v path ≫= as_str).

(** Name, raw state and link of a context. *)
Definition check_fields (node : Value) : rstr * rstr * rstr :=
  if bool_decide (text_at node (lit "__typename") = lit "StatusContext") then
    (text_at node (lit "context"), text_at node (lit "state"), text_at node (lit "targetUrl"))
  else
    let status := text_at node (lit "status") in
    let conclusion := text_at node (lit "conclusion") in
    (text_at node (lit "name"), if bool_decide (status = lit "COMPLETED") then conclusion else status,
     text_at node (lit "detailsUrl")).

Definition classify_check (node : Value) : result CheckItem rstr :=
  let '(name, raw_state, link) := check_fields node in
  if is_empty name then Err (lit "check context is missing its name/context field")
  else
    let bucket := gh_bucket raw_state in
    let exempt := bool_decide (name ∈ KNOWN_DISABLED_JOBS ∧ bucket = lit "skipping") in
    let classification := if exempt then lit "not-applicable" else bucket_class bucket in
    Ok (MkCheckItem name raw_state bucket classification (text_pointer node WORKFLOW_NAME) link).

Definition started_at (node : Value) : rstr :=
  default [] ((match get node (lit "startedAt") with Some v => Some v | None => get node (lit "createdAt") end) ≫= as_str).

(** The key under which runs of one check are duplicates: a context, or a name
    with its workflow and event. *)
Definition check_key (node : Value) : rstr + rstr :=
  let context := text_at node (lit "context") in
  if is_empty context then
    inr (text_at node (lit "name") ++ lit "/" ++ text_pointer node WORKFLOW_NAME ++ lit "/"
         ++ text_pointer node WORKFLOW_EVENT)
  else inl context.

(** The two lists of seen keys are one list of tagged keys. *)
Fixpoint keep_first (seen : list (rstr + rstr)) (nodes : list Value) : list Value :=
  match nodes with
  | [] => []
  | node :: nodes =>
      if bool_decide (check_key node ∈ seen) then keep_first seen nodes
      else node :: keep_first (seen ++ [check_key node]) nodes
  end.

Definition newest_first (a b : Value) : Prop := kle (started_at b) (started_at a).

#[export] Instance newest_first_dec : RelDecision newest_first.
Proof. intros a b. unfold newest_first. apply _. Defined.

Definition dedupe_check_nodes (nodes : list Value) : list Value := keep_first [] (stable_sort newest_first nodes).

Definition aggregate_checks (items : list CheckItem) : ChecksAggregate :=
  MkChecksAggregate items
    (negb (is_empty items)
     && forallb (λ c, bool_decide (ck_classification c = lit "pass" ∨ ck_classification c = lit "not-applicable")) items)
    (existsb (λ c, bool_decide (ck_classification c = lit "fail")) items)
    (existsb (λ c, bool_decide (ck_classification c = lit "pending")) items).

Fixpoint classify_all (nodes : list Value) : result (list CheckItem) rstr :=
  match nodes with
  | [] => Ok []
  | node :: nodes => let? c := classify_check node in let? cs := classify_all nodes in Ok (c :: cs)
  end.

(** ** Threads *)

Definition cap_excerpt (text : rstr) (cap : nat) : rstr :=
  if (length text <=? cap)%nat then text else take cap text ++ [8230].

Fixpoint thread_authors (authors : list rstr) (comments : list Value) : list rstr :=
  match comments with
  | [] => authors
  | comment :: comments =>
      thread_authors
        (match pointer comment [lit "author"; lit "login"] ≫= as_str with
         | Some login => if bool_decide (login ∈ authors) then authors else authors ++ [login]
         | None => authors
         end) comments
  end.

Definition thread_item (node : Value) : ThreadItem :=
  let is_resolved := bool_decide (get node (lit "isResolved") ≫= as_bool = Some true) in
  let is_outdated := bool_decide (get node (lit "isOutdated") ≫= as_bool = Some true) in
  let comments := default [] (pointer node [lit "comments"; lit "nodes"] ≫= as_array) in
  let more_comments :=
    match pointer node [lit "comments"; lit "totalCount"] ≫= as_i64 with
    | Some total => (50 <? total)%Z
    | None => false
    end in
  MkThreadItem (text_at node (lit "id")) is_resolved is_outdated (negb is_resolved && negb is_outdated)
    (str_at node (lit "path")) (get node (lit "line") ≫= as_i64) (thread_authors [] comments)
    ((λ body, let capped := cap_excerpt body THREAD_EXCERPT_CAP in
              if (more_comments : bool) then capped ++ lit " " ++ [8230] ++ lit " (+ more comments)" else capped)
       <$> (c ← list.last comments; str_at c (lit "body"))).

(** The counters of the loop, over all items. *)
Definition summarize_threads (nodes : list Value) : ThreadsSummary :=
  let items := thread_item <$> nodes in
  MkThreadsSummary (len items) (count th_actionable items) (count th_is_resolved items) (count th_is_outdated items) items.

(** ** Checklist *)

Definition is_marker_char (c : N) : bool := is_ascii_alphanumeric c || (c =? 95) || (c =? 45).

(** One line of the body, if it is a managed item. *)
Definition checklist_line (line : rstr) : option ChecklistItem :=
  rest ← strip_prefix (lit "- [") (trim_start line);
  '(checked_char, after_box) ← split_once 93 rest;
  if negb (bool_decide (checked_char = lit "x" ∨ checked_char = lit " ")) then None
  else
    rest ← strip_prefix (lit "<!--") (trim_start after_box);
    '(marker, after_marker) ← split_once_str (lit "-->") rest;
    marker ← strip_prefix (lit "orc:") (trim marker);
    if forallb is_marker_char marker
    then Some (MkChecklistItem marker (bool_decide (checked_char = lit "x")) (trim after_marker)) else None.

Definition parse_checklist (body : rstr) : Checklist :=
  let items := omap checklist_line (lines body) in
  MkChecklist items (forallb ci_checked items) (count (λ i, negb (ci_checked i)) items).

(** ** The review record *)

Definition hex40 (value : rstr) : bool := (str_len value =? 40) && forallb is_ascii_hexdigit value.

Definition no_record : ReviewRecord := MkReviewRecord false [] false false.

Definition record_path (repo_root : rstr) (number : N) (head_sha : rstr) : rstr :=
  repo_root ++ (if is_empty repo_root || ends_with 47 repo_root then [] else lit "/") ++ lit ".orchestraitor/reviews/" ++ dec number ++ lit "-" ++ take 7 head_sha ++ lit ".md".

Definition header_line (ls : list rstr) (n : nat) (label : rstr) : rstr :=
  default [] (ls !! n ≫= strip_prefix label).

Definition read_review_record (read_to_string : rstr → option rstr) (repo_root : rstr) (number : N)
    (head_sha base_oid : rstr) : ReviewRecord :=
  if negb (hex40 head_sha) || negb (hex40 base_oid) then no_record
  else
    match read_to_string (record_path repo_root number head_sha) with
    | None => no_record
    | Some content =>
        let ls := lines content in
        MkReviewRecord true (header_line ls 2 (lit "- verdict: "))
          (bool_decide (header_line ls 4 (lit "- head SHA: ") = head_sha))
          (bool_decide (header_line ls 5 (lit "- base OID: ") = base_oid))
    end.

(** ** The verdict *)

(** Reasons, unread sub-checks, and the details of the diagnostic. *)
Record Gates := MkGates { gt_reasons : list rstr; gt_unread : list rstr; gt_details : list rstr }.

Definition push_reason (g : Gates) (reason : rstr) : Gates :=
  MkGates (gt_reasons g ++ [reason]) (gt_unread g) (gt_details g).

Definition push_unread (g : Gates) (name : rstr) : Gates :=
  MkGates (gt_reasons g ++ [lit "unread(" ++ name ++ lit ")"]) (gt_unread g ++ [name]) (gt_details g).

(** [trim_start_matches] with a string. *)
Fixpoint strip_all (fuel : nat) (p s : rstr) : rstr :=
  match fuel, strip_prefix p s with
  | Datatypes.S fuel, Some s => strip_all fuel p s
  | _, _ => s
  end.

Definition sub_read {T} (r : result T rstr) (name : rstr) (g : Gates) : Gates * option T :=
  match r with
  | Ok value => (g, Some value)
  | Err message =>
      let g := push_unread g name in
      let detail := strip_all (length message) (lit "pr status: ") message in
      (MkGates (gt_reasons g) (gt_unread g) (gt_details g ++ [name ++ lit ": " ++ detail]), None)
  end.

Definition apply_review_state_gates (initial : Value) (g : Gates) (view_had_errors : bool) : Gates :=
  let decision := str_at initial (lit "reviewDecision") in
  let g :=
    if bool_decide (decision = Some (lit "REVIEW_REQUIRED")) then push_reason g (lit "review_required")
    else if bool_decide (decision = None ∨ decision = Some []) && view_had_errors then push_unread g (lit "review-decision")
    else g in
  let g :=
    match get initial (lit "isDraft") ≫= as_bool with
    | Some is_draft => if (is_draft : bool) then push_reason g (lit "is_draft") else g
    | None => if view_had_errors then push_unread g (lit "is-draft") else g
    end in
  let g :=
    if negb (bool_decide (str_at initial (lit "state") = Some (lit "OPEN"))) then push_reason g (lit "pr_not_open")
    else g in
  if bool_decide (decision = Some (lit "CHANGES_REQUESTED")) then push_reason g (lit "review_changes_requested") else g.

Definition build_verdict (initial : Value) (owner repo : rstr) (number : N) (checks : option ChecksAggregate)
    (threads : option ThreadsSummary) (checklist : option Checklist) (review_record : ReviewRecord) (is_draft : bool)
    (reasons : list rstr) (fetched_at : rstr) : PrStatus := {|
  ps_number := number;
  ps_repository := owner ++ lit "/" ++ repo;
  ps_head_sha := text_at initial (lit "headRefOid");
  ps_base_oid := text_at initial (lit "baseRefOid");
  ps_is_draft := is_draft;
  ps_review_decision := text_at initial (lit "reviewDecision");
  ps_merge_state := default (lit "UNKNOWN") (str_at initial (lit "mergeStateStatus"));
  ps_checks := ca_items <$> checks;
  ps_checks_all_passed := all_passed <$> checks;
  ps_checks_any_failing := any_failing <$> checks;
  ps_checks_any_pending := any_pending <$> checks;
  ps_threads := threads;
  ps_checklist := checklist;
  ps_review_record := review_record;
  ps_convergence := MkConvergence (is_empty reasons) reasons;
  ps_fetched_at := fetched_at;
|}.

Definition review_clean (r : ReviewRecord) : bool :=
  rr_present r && bool_decide (rr_verdict r = lit "CLEAN") && head_sha_match r && base_oid_match r.

Definition unread_message (g : Gates) : rstr :=
  lit "sub-checks [" ++ join (lit ", ") (gt_unread g) ++ lit "] could not be read"
  ++ (if is_empty (gt_details g) then [] else lit " (" ++ join (lit "; ") (gt_details g) ++ lit ")")
  ++ lit "; mergeable is reported false with unread(<sub-check>) reasons in the emitted JSON".

(** The gates of the sub-reads, in the order of the source. *)
Definition read_gates (checks : option ChecksAggregate) (threads : option ThreadsSummary) (checklist : option Checklist)
    (review_record : ReviewRecord) (g : Gates) : Gates :=
  let g := if negb (review_clean review_record) then push_reason g (lit "agent_review_not_clean_at_head") else g in
  let g :=
    match checks with
    | Some checks =>
        let g := if negb (all_passed checks) then push_reason g (lit "checks_not_passing") else g in
        if any_pending checks then push_reason g (lit "checks_pending") else g
    | None => g
    end in
  let g :=
    match threads with
    | Some threads =>
        if 0 <? unresolved_actionable threads
        then push_reason g (lit "unresolved_threads(" ++ dec (unresolved_actionable threads) ++ lit ")") else g
    | None => g
    end in
  match checklist with
  | Some checklist =>
      if negb (all_checked checklist)
      then push_reason g (lit "unchecked_items(" ++ dec (unchecked_count checklist) ++ lit ")") else g
  | None => g
  end.

Definition assemble_verdict (to_json : PrStatus → option rstr) (fetched_at : rstr) (initial : Value) (owner repo : rstr)
    (number : N) (reads : SubReads) (view_had_errors : bool) : result PrStatus PrStatusError :=
  let g := MkGates [] [] [] in
  let '(g, checks) := sub_read (sr_checks reads) (lit "checks") g in
  let '(g, threads) := sub_read (sr_threads reads) (lit "threads") g in
  let '(g, checklist) := sub_read (sr_checklist reads) (lit "body") g in
  let g := read_gates checks threads checklist (sr_review_record reads) g in
  let g := apply_review_state_gates initial g view_had_errors in
  let is_draft := bool_decide (get initial (lit "isDraft") ≫= as_bool = Some true) in
  let verdict :=
    build_verdict initial owner repo number checks threads checklist (sr_review_record reads) is_draft (gt_reasons g)
      fetched_at in
  if negb (is_empty (gt_unread g)) then Err (Unrecoverable (unread_message g) (default [] (to_json verdict)))
  else Ok verdict.

(** ** The engine *)

Class PrStatusTransport (T : Type) := {
  graphql : T → rstr → rstr → Value → T * result (Value * bool) PrStatusError;
}.

Definition PR_VIEW_QUERY : rstr :=
  lit "query($owner:String!,$name:String!,$number:Int!){repository(owner:$owner,name:$name){pullRequest(number:$number){number state headRefOid baseRefOid isDraft reviewDecision mergeStateStatus}}}".

Definition CHECKS_QUERY (event : rstr) : rstr :=
  lit "query($owner:String!,$name:String!,$oid:GitObjectID!){repository(owner:$owner,name:$name){object(oid:$oid){... on Commit{statusCheckRollup{contexts(first:100){pageInfo{hasNextPage}nodes{__typename... on StatusContext{context state targetUrl createdAt}... on CheckRun{name checkSuite{workflowRun{"
  ++ event ++ lit "workflow{name}}} status conclusion startedAt completedAt detailsUrl}}}}}}}}".

Definition THREADS_QUERY : rstr :=
  lit "query($owner:String!,$name:String!,$number:Int!){repository(owner:$owner,name:$name){pullRequest(number:$number){reviewThreads(first:100){pageInfo{hasNextPage}nodes{id isResolved isOutdated path linecomments(first:50){totalCount nodes{body author{login}}}}}}}}".

Definition BODY_QUERY : rstr :=
  lit "query($owner:String!,$name:String!,$number:Int!){repository(owner:$owner,name:$name){pullRequest(number:$number){body}}}".

Section engine.
Context {T : Type} `{PrStatusTransport T}.

Definition by_number (owner repo : rstr) (number : N) : Value :=
  VObject [(lit "owner", VString owner); (lit "name", VString repo); (lit "number", VNumber (PosInt number))].

Definition by_oid (owner repo oid : rstr) : Value :=
  VObject [(lit "owner", VString owner); (lit "name", VString repo); (lit "oid", VString oid)].

Definition pr_view (t : T) (owner repo : rstr) (number : N) : T * result (Value * bool) PrStatusError :=
  match graphql t (lit "pr view") PR_VIEW_QUERY (by_number owner repo number) with
  | (t, Err e) => (t, Err e)
  | (t, Ok (data, had_errors)) =>
      match pointer data [lit "repository"; lit "pullRequest"] with
      | Some pr =>
          if is_null pr then
            (t, Err (if (had_errors : bool)
                     then Unrecoverable (lit "pr view is unreadable for PR #" ++ dec number ++ lit " in " ++ owner
                                         ++ lit "/" ++ repo ++ lit " (partial errors on the response)") []
                     else PrConfig (lit "PR #" ++ dec number ++ lit " not found in " ++ owner ++ lit "/" ++ repo)))
          else (t, Ok (pr, had_errors))
      | None =>
          (t, Err (if (had_errors : bool)
                   then Unrecoverable (lit "pr view is unreadable for PR #" ++ dec number ++ lit " in " ++ owner
                                       ++ lit "/" ++ repo ++ lit " (partial errors on the response)") []
                   else PrConfig (lit "PR #" ++ dec number ++ lit " not found in " ++ owner ++ lit "/" ++ repo)))
      end
  end.

Definition oid_field (view : Value) (key anchor : rstr) : result rstr PrStatusError :=
  match str_at view key with
  | Some value =>
      if is_empty value
      then Err (Unrecoverable (lit "pr view response is missing the " ++ anchor ++ lit " OID (" ++ key ++ lit ")") [])
      else Ok value
  | None => Err (Unrecoverable (lit "pr view response is missing the " ++ anchor ++ lit " OID (" ++ key ++ lit ")") [])
  end.

Definition ROLLUP : list rstr := [lit "repository"; lit "object"; lit "statusCheckRollup"].
Definition CONTEXTS : list rstr := ROLLUP ++ [lit "contexts"; lit "pageInfo"; lit "hasNextPage"].

(** The contexts of the answer, if it is a whole page. *)
Definition check_nodes (data : Value) (had_errors : bool) : result (list Value) rstr :=
  match pointer data ROLLUP with
  | None => Err (lit "checks rollup response is missing (no object for the head commit)")
  | Some rollup =>
      if is_null rollup then
        if had_errors then Err (lit "checks rollup is unreadable (partial errors on the response)") else Ok []
      else
        let? nodes := ok_or (pointer rollup [lit "contexts"; lit "nodes"] ≫= as_array)
                        (lit "checks rollup response is missing contexts nodes") in
        let? has_next := ok_or (pointer data CONTEXTS ≫= as_bool)
                           (lit "checks rollup response is missing pagination metadata") in
        if (has_next : bool) then Err (lit "checks rollup exceeds one page (100 contexts); not aggregated") else Ok nodes
  end.

Definition read_checks (t : T) (owner repo head_oid : rstr) : T * result ChecksAggregate rstr :=
  let finish t (answer : Value * bool) :=
    (t, let? nodes := check_nodes answer.1 answer.2 in
        let? items := classify_all (dedupe_check_nodes nodes) in
        Ok (aggregate_checks items)) in
  match graphql t (lit "checks") (CHECKS_QUERY (lit "event ")) (by_oid owner repo head_oid) with
  | (t, Ok answer) => finish t answer
  | (t, Err _) =>
      match graphql t (lit "checks") (CHECKS_QUERY []) (by_oid owner repo head_oid) with
      | (t, Ok answer) => finish t answer
      | (t, Err e) => (t, Err (PrStatusError_display e))
      end
  end.

Definition THREADS : list rstr := [lit "repository"; lit "pullRequest"; lit "reviewThreads"].

Definition read_threads (t : T) (owner repo : rstr) (number : N) : T * result ThreadsSummary rstr :=
  match graphql t (lit "review threads") THREADS_QUERY (by_number owner repo number) with
  | (t, Err e) => (t, Err (PrStatusError_display e))
  | (t, Ok (data, _)) =>
      (t, let? nodes := ok_or (pointer data (THREADS ++ [lit "nodes"]) ≫= as_array)
                          (lit "review threads response is missing nodes") in
          let? has_next := ok_or (pointer data (THREADS ++ [lit "pageInfo"; lit "hasNextPage"]) ≫= as_bool)
                             (lit "review threads response is missing pagination metadata") in
          if (has_next : bool) then Err (lit "review threads exceed one page (100 threads); not aggregated")
          else Ok (summarize_threads nodes))
  end.

Definition read_body (t : T) (owner repo : rstr) (number : N) : T * result Checklist rstr :=
  match graphql t (lit "pr body") BODY_QUERY (by_number owner repo number) with
  | (t, Err e) => (t, Err (PrStatusError_display e))
  | (t, Ok (data, _)) =>
      (t, let? body := ok_or (pointer data [lit "repository"; lit "pullRequest"; lit "body"] ≫= as_str)
                         (lit "pr body response is missing the body string") in
          Ok (parse_checklist body))
  end.

Definition check_anchors_stable (t : T) (owner repo : rstr) (number : N) (head_sha base_oid : rstr)
    : T * result unit PrStatusError :=
  match pr_view t owner repo number with
  | (t, Err e) => (t, Err e)
  | (t, Ok (final_view, _)) =>
      (t, let? final_head := oid_field final_view (lit "headRefOid") (lit "head") in
          let? final_base := oid_field final_view (lit "baseRefOid") (lit "base") in
          if bool_decide (final_head = head_sha) && bool_decide (final_base = base_oid) then Ok tt
          else if bool_decide (final_head = head_sha) then Err (ConcurrentEdit (lit "base") base_oid final_base)
          else Err (ConcurrentEdit (lit "head") head_sha final_head))
  end.

Definition i32_max : N := 2147483647.

Context (read_to_string : rstr → option rstr) (to_json : PrStatus → option rstr).

Definition aggregate_with_root (t : T) (owner repo : rstr) (number : N) (repo_root fetched_at : rstr)
    : T * result PrStatus PrStatusError :=
  if i32_max <? number then
    (t, Err (PrConfig (lit "PR #" ++ dec number ++ lit " is outside the GraphQL Int range the query carries")))
  else
    match pr_view t owner repo number with
    | (t, Err e) => (t, Err e)
    | (t, Ok (initial, view_had_errors)) =>
        match (let? head := oid_field initial (lit "headRefOid") (lit "head") in
               let? base := oid_field initial (lit "baseRefOid") (lit "base") in Ok (head, base)) with
        | Err e => (t, Err e)
        | Ok (head_sha, base_oid) =>
            let '(t, checks) := read_checks t owner repo head_sha in
            let '(t, threads) := read_threads t owner repo number in
            let '(t, checklist) := read_body t owner repo number in
            let review_record := read_review_record read_to_string repo_root number head_sha base_oid in
            match check_anchors_stable t owner repo number head_sha base_oid with
            | (t, Err e) => (t, Err e)
            | (t, Ok _) =>
                (t, assemble_verdict to_json fetched_at initial owner repo number
                      (MkSubReads checks threads checklist review_record) view_had_errors)
            end
        end
    end.
End engine.

(** ** The tool *)

Record PrStatusRequest := MkPrStatusRequest {
  pq_number : N;
  pq_owner : rstr;
  pq_repo : rstr;
  pq_delegation_chain : list rstr;
}.

Record PrStatusInvocationSummary := MkPrSummary { pm_mergeable : bool; pm_reason_count : N; pm_outcome : rstr }.

Definition pr_summary_value (s : PrStatusInvocationSummary) : Value :=
  VObject [(lit "mergeable", VBool (pm_mergeable s)); (lit "reason_count", VNumber (PosInt (pm_reason_count s)));
           (lit "outcome", VString (pm_outcome s))].

Definition pr_status_payload (request : PrStatusRequest) (chain : DelegationChain) (result_summary : Value) : Value :=
  VObject [(lit "tool", VString (lit "pr.status"));
           (lit "request", VObject [(lit "number", VNumber (PosInt (pq_number request)));
                                    (lit "owner", VString (truncate_payload_value (pq_owner request)));
                                    (lit "repo", VString (truncate_payload_value (pq_repo request)))]);
           (lit "result_summary", result_summary);
           (lit "chain_source", VString (lit "client-asserted"));
           (lit "delegation_chain", VArray (claimed_principals (dl_principals chain)))].

(** The messages of [McpGatewayError::PrStatus]. *)
Definition build_pr_status_event (request : PrStatusRequest) (chain : DelegationChain) (result_summary : Value)
    (wall_clock : rstr) (seq_base : N) (prev_base : option HashDigest) : result EventEnvelope rstr :=
  map_err (λ _, lit "event construction failed") (EventEnvelope_try_new {|
    inp_schema_version := CURRENT_SCHEMA_VERSION;
    inp_monotonic_seq := saturating_add u64_max seq_base 1;
    inp_wall_clock_ts := wall_clock;
    inp_correlation_id := dl_correlation_id chain;
    inp_parent_op_id := dl_parent_op_id chain;
    inp_category := ToolRequest;
    inp_payload := pr_status_payload request chain result_summary;
    inp_prev_hash := prev_base |}).

Definition build_pr_status_refusal_event (request : PrStatusRequest) (chain : DelegationChain) (allowed_repo : rstr)
    : rstr → N → option HashDigest → result EventEnvelope rstr :=
  build_pr_status_event request chain
    (VObject [(lit "outcome", VString (lit "out_of_scope")); (lit "allowed", VString allowed_repo)]).

Definition build_pr_status_invocation_event (request : PrStatusRequest) (chain : DelegationChain)
    (summary : PrStatusInvocationSummary) : rstr → N → option HashDigest → result EventEnvelope rstr :=
  build_pr_status_event request chain (pr_summary_value summary).

Definition error_outcome_class (e : PrStatusError) : rstr :=
  match e with
  | Unrecoverable _ _ => lit "unrecoverable"
  | PrConfig _ => lit "config"
  | ConcurrentEdit _ _ _ => lit "concurrent_edit"
  end.

Definition pr_status_error_payload (from_str : rstr → option Value) (e : PrStatusError) : Value :=
  VObject match e with
  | Unrecoverable message partial_json =>
      [(lit "error", VString message); (lit "code", VString (lit "pr_status_unrecoverable"))]
      ++ (if is_empty partial_json then []
          else [(lit "partial_verdict", default (VString partial_json) (from_str partial_json))])
  | PrConfig message => [(lit "error", VString message); (lit "code", VString (lit "pr_status_config"))]
  | ConcurrentEdit anchor before after =>
      [(lit "error", VString (PrStatusError_display e)); (lit "code", VString (lit "pr_status_concurrent_edit"));
       (lit "anchor", VString anchor); (lit "before", VString before); (lit "after", VString after)]
  end.

(** [error_payload] of a failure of the tool itself. *)
Definition pr_failure_payload (message : rstr) : Value :=
  VObject [(lit "error", VString (lit "pr.status failed: " ++ message)); (lit "code", VString (lit "pr_status_failed"))].

Definition verdict_summary (r : result PrStatus PrStatusError) : PrStatusInvocationSummary :=
  match r with
  | Ok verdict =>
      MkPrSummary (mergeable (ps_convergence verdict)) (len (reasons (ps_convergence verdict))) (lit "verdict")
  | Err e => MkPrSummary false 0 (error_outcome_class e)
  end.

Section tool.
Context {T : Type} `{PrStatusTransport T} `{Externals}.
Context (read_to_string : rstr → option rstr) (to_json : PrStatus → option rstr) (from_str : rstr → option Value).

(** The record of one invocation, in the shared store or in one that is
    dropped. *)
Definition record_pr_status (request : PrStatusRequest) (chain : DelegationChain) (summary : PrStatusInvocationSummary)
    (wall_clock : rstr) (shared : option (InMemoryAuditStore * bool))
    : option (InMemoryAuditStore * bool) * result unit rstr :=
  let append store :=
    match build_pr_status_invocation_event request chain summary wall_clock (len (records store))
            (hash <$> list.last (records store)) with
    | Err e => (store, Err e)
    | Ok event =>
        match store_append store event with
        | (store, Ok _) => (store, Ok tt)
        | (store, Err _) => (store, Err (lit "invocation event append rejected"))
        end
    end in
  match shared with
  | Some (store, true) => (shared, Err (lit "audit store poisoned"))
  | Some (store, false) => let '(store, res) := append store in (Some (store, false), res)
  | None => (None, (append (MkStore [])).2)
  end.

(** [join_error] is the failure of the blocking worker, if it failed; how far
    its reads got is not observed. *)
Definition run_pr_status_shared (t : T) (repo_root : rstr) (request : PrStatusRequest) (correlation_id : OperationId)
    (fetched_at wall_clock : rstr) (join_error : option rstr) (shared : option (InMemoryAuditStore * bool))
    : T * option (InMemoryAuditStore * bool) * result PrStatus Value :=
  let chain := MkChain correlation_id None (pq_delegation_chain request) in
  let '(t, read) :=
    aggregate_with_root read_to_string to_json t (pq_owner request) (pq_repo request) (pq_number request) repo_root fetched_at in
  let aggregate_result :=
    match join_error with
    | Some join_error => Err (Unrecoverable (lit "pr.status worker failed: " ++ join_error) [])
    | None => read
    end in
  match record_pr_status request chain (verdict_summary aggregate_result) wall_clock shared with
  | (shared, Err e) => (t, shared, Err (pr_failure_payload e))
  | (shared, Ok _) => (t, shared, map_err (pr_status_error_payload from_str) aggregate_result)
  end.

Definition unconfigured_payload : Value :=
  VObject [(lit "error", VString (lit "pr.status is not configured for this project scope"));
           (lit "code", VString (lit "pr_status_unconfigured"))].

Definition out_of_scope_payload (allowed_repo : rstr) (audit_recorded : bool) : Value :=
  VObject [(lit "error", VString (lit "pr.status is bound to " ++ allowed_repo
                                  ++ lit "; the requested repository is outside this project scope"));
           (lit "code", VString (lit "pr_status_out_of_scope")); (lit "allowed", VString allowed_repo);
           (lit "audit_recorded", VBool audit_recorded)].

Definition record_refusal (request : PrStatusRequest) (chain : DelegationChain) (allowed_repo wall_clock : rstr)
    (shared : option (InMemoryAuditStore * bool)) : option (InMemoryAuditStore * bool) * bool :=
  match shared with
  | Some (store, false) =>
      match build_pr_status_refusal_event request chain allowed_repo wall_clock (len (records store))
              (hash <$> list.last (records store)) with
      | Ok event => let '(store, res) := store_append store event in
                    (Some (store, false), match res with Ok _ => true | Err _ => false end)
      | Err _ => (shared, false)
      end
  | _ => (shared, false)
  end.

(** The configuration is the transport, the root and the allowed repository. *)
Definition pr_status_tool (context : option T * option rstr * option rstr) (request : PrStatusRequest)
    (correlation_id : OperationId) (fetched_at wall_clock : rstr) (join_error : option rstr)
    (shared : option (InMemoryAuditStore * bool))
    : option T * option (InMemoryAuditStore * bool) * result PrStatus Value :=
  match context with
  | (Some t, Some repo_root, Some allowed_repo) =>
      if negb (bool_decide (pq_owner request ++ lit "/" ++ pq_repo request = allowed_repo)) then
        let chain := MkChain correlation_id None (pq_delegation_chain request) in
        let '(shared, audit_recorded) := record_refusal request chain allowed_repo wall_clock shared in
        (Some t, shared, Err (out_of_scope_payload allowed_repo audit_recorded))
      else
        let '(t, shared, res) :=
          run_pr_status_shared t repo_root request correlation_id fetched_at wall_clock join_error shared in
        (Some t, shared, res)
  | (t, _, _) => (t, shared, Err unconfigured_payload)
  end.
End tool.
