(* ===== verification/PrStatusSafe.v ===== *)
(** * What a pull-request verdict means

    A pull request is reported mergeable exactly when every read succeeded and
    every gate held; which runs of a check count; the record of every verdict
    and the scope of the tool. *)

From S2P Require Import Prelude BTree Text Substring SecretShape Model Events AuditExample BoardContract BoardMove BoardQuery PrStatus.

(** ** Gates *)

(** Nothing speaks against the merge so far. *)
Definition clean (g : Gates) : Prop := gt_reasons g = [] ∧ gt_unread g = [].

Lemma app_singleton_nil {A} (l : list A) x : l ++ [x] = [] ↔ False.
Proof. by destruct l. Qed.

Lemma clean_reason (b : bool) g r : clean (if b then push_reason g r else g) ↔ b = false ∧ clean g.
Proof. destruct b; unfold clean; cbn; rw ?app_singleton_nil; naive_solver. Qed.

Lemma clean_unread (b : bool) g n : clean (if b then push_unread g n else g) ↔ b = false ∧ clean g.
Proof. destruct b; unfold clean; cbn; rw ?app_singleton_nil; naive_solver. Qed.

Lemma clean_sub_read {A} (r : result A rstr) n g :
  clean (sub_read r n g).1 ↔ clean g ∧ ∃ a, r = Ok a ∧ (sub_read r n g).2 = Some a.
Proof. destruct r as [a|e]; unfold clean; cbn; rw ?app_singleton_nil; naive_solver. Qed.

(** What the gates over the sub-reads ask for. *)
Record reads_pass (ca : ChecksAggregate) (th : ThreadsSummary) (cl : Checklist) (rr : ReviewRecord) : Prop := {
  rp_record : review_clean rr = true;
  rp_checks : all_passed ca = true;
  rp_pending : any_pending ca = false;
  rp_threads : unresolved_actionable th = 0;
  rp_checklist : all_checked cl = true;
}.

Lemma read_gates_clean ca th cl rr g :
  clean (read_gates (Some ca) (Some th) (Some cl) rr g) ↔ clean g ∧ reads_pass ca th cl rr.
Proof.
  unfold read_gates. rw !clean_reason !negb_false_iff N.ltb_ge N.le_0_r.
  split; [intros (? & ? & ? & ? & ? & ?); split; [done|by split]|intros [? []]; by split_and!].
Qed.

(** What the gates over the pull request ask for. *)
Record view_passes (view : Value) (had_errors : bool) : Prop := {
  vp_open : str_at view (lit "state") = Some (lit "OPEN");
  vp_decision : str_at view (lit "reviewDecision") ∉ [Some (lit "REVIEW_REQUIRED"); Some (lit "CHANGES_REQUESTED")];
  vp_draft : (get view (lit "isDraft") ≫= as_bool) ≠ Some true;
  vp_read : had_errors = true →
    (str_at view (lit "reviewDecision") ∉ [None; Some []]) ∧ (get view (lit "isDraft") ≫= as_bool) ≠ None;
}.

Lemma view_gates_clean view g had_errors :
  clean (apply_review_state_gates view g had_errors) ↔ clean g ∧ view_passes view had_errors.
Proof.
  unfold apply_review_state_gates. rw !clean_reason negb_false_iff bool_decide_eq_true bool_decide_eq_false.
  set (d := str_at view (lit "reviewDecision")). set (o := get view (lit "isDraft") ≫= as_bool).
  assert (∀ g, clean (match o with
    | Some is_draft => if (is_draft : bool) then push_reason g (lit "is_draft") else g
    | None => if had_errors then push_unread g (lit "is-draft") else g end)
    ↔ clean g ∧ o ≠ Some true ∧ (had_errors = true → o ≠ None)) as ->.
  { intros g'. destruct o as [[]|]; [rw (clean_reason true)|idtac|rw clean_unread]; destruct had_errors; naive_solver. }
  assert (clean (if bool_decide (d = Some (lit "REVIEW_REQUIRED")) then push_reason g (lit "review_required")
    else if bool_decide (d = None ∨ d = Some []) && had_errors then push_unread g (lit "review-decision") else g)
    ↔ clean g ∧ d ≠ Some (lit "REVIEW_REQUIRED") ∧ (had_errors = true → d ∉ [None; Some []])) as ->.
  { case_bool_decide as Hd; [rw (clean_reason true); naive_solver|]. rw clean_unread. case_bool_decide; cbn [andb].
    - destruct had_errors; set_solver.
    - set_solver. }
  split.
  - intros (Hc & Ho & (Hg & Hr & Hd) & Hb & He). split; [done|]. split; [done|set_solver|done|]. intros E. split; [by apply Hd|by apply He].
  - intros [Hg [Ho Hd Hb He]]. split_and!; [set_solver|done|done|set_solver|intros E; by apply He|done|intros E; by apply He].
Qed.

Lemma read_gates_grow checks threads checklist rr g : clean (read_gates checks threads checklist rr g) → clean g.
Proof. unfold read_gates. destruct checks, threads, checklist; rw ?clean_reason; naive_solver. Qed.

(** The verdict is returned and positive. *)
Definition says_mergeable (r : result PrStatus PrStatusError) : Prop :=
  ∃ v, r = Ok v ∧ mergeable (ps_convergence v) = true.

Lemma assemble_mergeable to_json ts view owner repo number reads had_errors :
  says_mergeable (assemble_verdict to_json ts view owner repo number reads had_errors) ↔
  view_passes view had_errors
  ∧ ∃ ca th cl, sr_checks reads = Ok ca ∧ sr_threads reads = Ok th ∧ sr_checklist reads = Ok cl
      ∧ reads_pass ca th cl (sr_review_record reads).
Proof.
  unfold says_mergeable, assemble_verdict. set (g0 := MkGates [] [] []). split.
  - pose proof (clean_sub_read (sr_checks reads) (lit "checks") g0) as H1.
    destruct (sub_read (sr_checks reads) (lit "checks") g0) as [g1 checks]. cbn [fst snd] in H1.
    pose proof (clean_sub_read (sr_threads reads) (lit "threads") g1) as H2.
    destruct (sub_read (sr_threads reads) (lit "threads") g1) as [g2 threads]. cbn [fst snd] in H2.
    pose proof (clean_sub_read (sr_checklist reads) (lit "body") g2) as H3.
    destruct (sub_read (sr_checklist reads) (lit "body") g2) as [g3 checklist]. cbn [fst snd] in H3.
    intros (v & [Hu%negb_false_iff%is_empty_spec [= <-]]%guard_ok & Hr%is_empty_spec).
    destruct (proj1 (view_gates_clean view _ had_errors) (conj Hr Hu)) as [H4 Hv]. split; [done|].
    pose proof (read_gates_grow _ _ _ _ _ H4) as Hc.
    apply H3 in Hc as (Hc & cl & Ecl & ->). apply H2 in Hc as (Hc & th & Eth & ->). apply H1 in Hc as (_ & ca & Eca & ->).
    exists ca, th, cl. split; [done|]. split; [done|]. split; [done|]. by apply (read_gates_clean _ _ _ _ g3).
  - destruct reads as [rc rt rl rr]. cbn [sr_checks sr_threads sr_checklist sr_review_record].
    intros (Hv & ca & th & cl & -> & -> & -> & Hp). cbn [sub_read].
    assert (clean (apply_review_state_gates view (read_gates (Some ca) (Some th) (Some cl) rr g0) had_errors)) as [Hr Hu].
    { apply view_gates_clean. split; [|done]. by apply read_gates_clean. }
    eexists. split; [apply guard_ok; split; [|reflexivity]; by rw Hu|]. cbn. by rw Hr.
Qed.

(** ** Checks *)

(** The job succeeded, or it is one of those that are known to be disabled and
    it was skipped. *)
Definition passes (node : Value) : Prop :=
  let '(name, state, _) := check_fields node in
  name ≠ [] ∧ (state = lit "SUCCESS" ∨ name ∈ KNOWN_DISABLED_JOBS ∧ state ∈ [lit "SKIPPED"; lit "NEUTRAL"]).

Lemma gh_bucket_pass state : gh_bucket state = lit "pass" ↔ state = lit "SUCCESS".
Proof. unfold gh_bucket. repeat case_bool_decide; by split. Qed.

Lemma gh_bucket_skipping state : gh_bucket state = lit "skipping" ↔ state ∈ [lit "SKIPPED"; lit "NEUTRAL"].
Proof. unfold gh_bucket. repeat case_bool_decide; split; try done. subst. set_solver. Qed.

Lemma bucket_class_pass bucket : bucket_class bucket = lit "pass" ↔ bucket = lit "pass".
Proof. unfold bucket_class. repeat case_bool_decide; by split. Qed.

Lemma bucket_class_applies bucket : bucket_class bucket ≠ lit "not-applicable".
Proof. unfold bucket_class. by repeat case_bool_decide. Qed.

Definition passing (c : CheckItem) : Prop :=
  ck_classification c = lit "pass" ∨ ck_classification c = lit "not-applicable".

Lemma classify_passes node c : classify_check node = Ok c → passing c ↔ passes node.
Proof.
  unfold classify_check, passes, passing. destruct (check_fields node) as [[name state] link].
  intros [He%is_empty_false [= <-]]%guard_ok. cbn [ck_classification]. rw -gh_bucket_skipping -gh_bucket_pass.
  case_bool_decide as Hx; [naive_solver|]. rw bucket_class_pass. pose proof (bucket_class_applies (gh_bucket state)). naive_solver.
Qed.

Lemma passes_classified node : passes node → ∃ c, classify_check node = Ok c.
Proof.
  unfold passes, classify_check. destruct (check_fields node) as [[name state] link]. intros [Hn _]. destruct name; [done|by eexists].
Qed.

Lemma passing_not_pending c : passing c → ck_classification c ≠ lit "pending".
Proof. unfold passing. intros [-> | ->]; discriminate. Qed.

Lemma classify_all_ok nodes cs : classify_all nodes = Ok cs → Forall2 (λ n c, classify_check n = Ok c) nodes cs.
Proof.
  revert cs. induction nodes as [|n nodes IH]; intros cs; cbn [classify_all]; [intros [= <-]; constructor|].
  intros (c & Ec & (cs' & Ecs & [= <-])%result_bind_ok)%result_bind_ok. constructor; [done|by apply IH].
Qed.

Lemma classify_all_complete nodes : (∀ n, n ∈ nodes → passes n) → ∃ cs, classify_all nodes = Ok cs.
Proof.
  induction nodes as [|n nodes IH]; intros Hp; [by eexists|]. destruct (passes_classified n) as [c Ec]; [apply Hp; by left|].
  destruct IH as [cs Ecs]; [intros m Hm; apply Hp; by right|]. cbn. rw Ec /= Ecs. by eexists.
Qed.

(** The aggregate over some contexts lets the merge through exactly when there
    is one and all pass. *)
Lemma checks_pass nodes :
  (∃ cs, classify_all nodes = Ok cs ∧ all_passed (aggregate_checks cs) = true ∧ any_pending (aggregate_checks cs) = false) ↔
  nodes ≠ [] ∧ ∀ n, n ∈ nodes → passes n.
Proof.
  assert (∀ cs, classify_all nodes = Ok cs →
    (all_passed (aggregate_checks cs) = true ↔ nodes ≠ [] ∧ ∀ n, n ∈ nodes → passes n)) as Hall.
  { intros cs Hf%classify_all_ok. cbn. rw andb_true_iff negb_true_iff is_empty_false forallb_true.
    assert (cs ≠ [] ↔ nodes ≠ []) as -> by (destruct Hf; naive_solver).
    assert ((∀ c, c ∈ cs → passing c) ↔ ∀ n, n ∈ nodes → passes n) as <-; [|by setoid_rewrite bool_decide_eq_true].
    clear -Hf. induction Hf as [|n c nodes cs Hc _ IH]; [set_solver|]. apply classify_passes in Hc.
    setoid_rewrite elem_of_cons. naive_solver. }
  split.
  - intros (cs & Ecs & Ha & _). by apply (Hall cs).
  - intros [Hn Hp]. destruct (classify_all_complete nodes Hp) as [cs Ecs]. exists cs. split; [done|].
    assert (all_passed (aggregate_checks cs) = true) as Ha by (by apply Hall). split; [done|].
    cbn in Ha |- *. apply andb_true_iff in Ha as [_ Ha]. rw forallb_true in Ha. apply not_true_iff_false.
    rw existsb_exists. intros (c & Hc%list_elem_of_In & Hp'%bool_decide_eq_true). apply Ha in Hc.
    apply bool_decide_eq_true in Hc. by apply passing_not_pending in Hc.
Qed.

(** Of the runs with one key, the one that started last is kept. *)
Lemma keep_first_spec seen nodes :
  StronglySorted newest_first nodes →
  NoDup (check_key <$> keep_first seen nodes)
  ∧ (∀ n, n ∈ keep_first seen nodes → n ∈ nodes ∧ check_key n ∉ seen)
  ∧ ∀ n, n ∈ nodes → check_key n ∈ seen ∨ ∃ k, k ∈ keep_first seen nodes ∧ check_key k = check_key n ∧ newest_first k n.
Proof.
  intros Hs. revert seen. induction Hs as [|x nodes _ IH Hx]; intros seen; cbn [keep_first].
  { split; [constructor|]. split; by intros ? ?%not_elem_of_nil. }
  case_bool_decide as Hk.
  - destruct (IH seen) as (Hd & Hin & Hall). split; [done|]. split.
    + intros n Hn%Hin. set_solver.
    + intros n [->|Hn]%elem_of_cons; [by left|by apply Hall].
  - destruct (IH (seen ++ [check_key x])) as (Hd & Hin & Hall). split; [|split].
    + rw fmap_cons NoDup_cons. split; [|done]. intros (n & En & Hn)%list_elem_of_fmap. apply Hin in Hn as [_ Hn]. set_solver.
    + intros n [->|Hn]%elem_of_cons; [by split; [left|]|]. apply Hin in Hn as [? Hn]. set_solver.
    + intros n [->|Hn]%elem_of_cons.
      { right. exists x. split; [by left|]. split; [done|]. by unfold newest_first. }
      destruct (Hall n Hn) as [Hs|(k & Hk' & E & Hnew)]; [|right; exists k; by split; [right|]].
      apply elem_of_app in Hs as [Hs|Hs%list_elem_of_singleton]; [by left|]. right. exists x. split; [by left|].
      split; [done|]. rw Forall_forall in Hx. by apply Hx.
Qed.

Lemma newest_runs_kept nodes :
  NoDup (check_key <$> dedupe_check_nodes nodes)
  ∧ (∀ n, n ∈ dedupe_check_nodes nodes → n ∈ nodes)
  ∧ ∀ n, n ∈ nodes → ∃ k, k ∈ dedupe_check_nodes nodes ∧ check_key k = check_key n ∧ newest_first k n.
Proof.
  unfold dedupe_check_nodes. destruct (keep_first_spec [] (stable_sort newest_first nodes)) as (Hd & Hin & Hall).
  { apply stable_sort_sorted; [intros x y z; unfold newest_first; intros; by etrans|intros x y; apply (total kle)]. }
  split; [done|]. split; [intros n [Hn _]%Hin; by rw elem_of_stable_sort in Hn|].
  intros n Hn. destruct (Hall n) as [?%not_elem_of_nil|?]; [by rw elem_of_stable_sort|done|done].
Qed.

(** ** Threads and checklist *)

Definition settled (thread : Value) : Prop :=
  get thread (lit "isResolved") = Some (VBool true) ∨ get thread (lit "isOutdated") = Some (VBool true).

Lemma as_bool_some v b : as_bool v = Some b ↔ v = VBool b.
Proof. destruct v; naive_solver. Qed.

Lemma as_array_some v l : as_array v = Some l ↔ v = VArray l.
Proof. destruct v; naive_solver. Qed.

Lemma as_str_some v s : as_str v = Some s ↔ v = VString s.
Proof. destruct v; naive_solver. Qed.

Lemma thread_settled node : th_actionable (thread_item node) = false ↔ settled node.
Proof.
  unfold settled, thread_item. cbn [th_actionable].
  assert (∀ k, bool_decide ((get node k ≫= as_bool) = Some true) = true ↔ get node k = Some (VBool true)) as Hk.
  { intros k. rw bool_decide_eq_true bind_Some. setoid_rewrite as_bool_some. naive_solver. }
  rw -!Hk andb_false_iff !negb_false_iff. done.
Qed.

Lemma threads_settled nodes :
  unresolved_actionable (summarize_threads nodes) = 0 ↔ ∀ n, n ∈ nodes → settled n.
Proof.
  cbn [unresolved_actionable summarize_threads]. rw count_0. setoid_rewrite list_elem_of_fmap.
  setoid_rewrite <- thread_settled. naive_solver.
Qed.

(** ** The record *)

(** The header of a review record that admits the head and the base. *)
Definition clean_record (content head base : rstr) : Prop :=
  lines content !! 2%nat = Some (lit "- verdict: CLEAN")
  ∧ lines content !! 4%nat = Some (lit "- head SHA: " ++ head)
  ∧ lines content !! 5%nat = Some (lit "- base OID: " ++ base).

Lemma header_line_spec ls n label value :
  value ≠ [] → header_line ls n label = value ↔ ls !! n = Some (label ++ value).
Proof.
  intros Hv. unfold header_line. split.
  - destruct (ls !! n ≫= strip_prefix label) as [x|] eqn:E; cbn; [|naive_solver]. intros ->.
    by apply bind_Some in E as (l & -> & ->%strip_prefix_some).
  - intros ->. cbn. by rw (proj2 (strip_prefix_some label (label ++ value) value) eq_refl).
Qed.

Lemma review_record_clean read root number head base :
  review_clean (read_review_record read root number head base) = true ↔
  hex40 head = true ∧ hex40 base = true
  ∧ ∃ content, read (record_path root number head) = Some content ∧ clean_record content head base.
Proof.
  assert (∀ x, hex40 x = true → x ≠ []) as Hne by (by intros x Hx ->).
  unfold read_review_record. destruct (hex40 head) eqn:Eh; cbn [negb orb]; [|naive_solver].
  destruct (hex40 base) eqn:Eb; cbn [negb]; [|naive_solver].
  destruct (read (record_path root number head)) as [content|]; [|naive_solver].
  unfold review_clean, clean_record. cbn [rr_present rr_verdict head_sha_match base_oid_match andb].
  rw !andb_true_iff !bool_decide_eq_true !header_line_spec; [|by apply Hne..|discriminate]. naive_solver.
Qed.

(** ** Reads *)

Section engine.
Context {T : Type} `{PrStatusTransport T}.
Implicit Types t : T.

Lemma ok_or_ok {A E} (o : option A) (e : E) a : ok_or o e = Ok a ↔ o = Some a.
Proof. destruct o; naive_solver. Qed.

Lemma oid_field_ok view key anchor x : oid_field view key anchor = Ok x ↔ str_at view key = Some x ∧ x ≠ [].
Proof.
  unfold oid_field. destruct (str_at view key) as [y|]; [|naive_solver]. destruct y; cbn; naive_solver.
Qed.

(** The head and the base of the pull request. *)
Definition anchors (view : Value) (head base : rstr) : Prop :=
  str_at view (lit "headRefOid") = Some head ∧ head ≠ []
  ∧ str_at view (lit "baseRefOid") = Some base ∧ base ≠ [].

(** The rollup was answered with [data], by the query with the event or else by
    the one without. *)
Definition rollup_answered t owner repo head data (errors : bool) t' : Prop :=
  let query event t := graphql t (lit "checks") (CHECKS_QUERY event) (by_oid owner repo head) in
  query (lit "event ") t = (t', Ok (data, errors))
  ∨ ∃ t1 e, query (lit "event ") t = (t1, Err e) ∧ query [] t1 = (t', Ok (data, errors)).

Lemma read_checks_ok t owner repo head ca t' :
  read_checks t owner repo head = (t', Ok ca) ↔
  ∃ data errors nodes cs, rollup_answered t owner repo head data errors t' ∧ check_nodes data errors = Ok nodes
    ∧ classify_all (dedupe_check_nodes nodes) = Ok cs ∧ ca = aggregate_checks cs.
Proof.
  assert (∀ t1 data errors,
    ((t1, let? nodes := check_nodes data errors in
          let? items := classify_all (dedupe_check_nodes nodes) in Ok (aggregate_checks items)) = (t', Ok ca)) ↔
    t1 = t' ∧ ∃ nodes cs, check_nodes data errors = Ok nodes ∧ classify_all (dedupe_check_nodes nodes) = Ok cs
      ∧ ca = aggregate_checks cs) as Hfin.
  { intros t1 data errors. split.
    - intros [= -> (nodes & En & (cs & Ec & [= <-])%result_bind_ok)%result_bind_ok]. split; [done|]. by exists nodes, cs.
    - intros (-> & nodes & cs & -> & Ec & ->). cbn. by rw Ec. }
  unfold read_checks, rollup_answered.
  destruct (graphql t _ (CHECKS_QUERY (lit "event ")) _) as [t1 [[data errors]|e]]; cbn [fst snd].
  - rw Hfin. clear. naive_solver.
  - destruct (graphql t1 _ (CHECKS_QUERY []) _) as [t2 [[data errors]|e']] eqn:E2; cbn [fst snd].
    + rw Hfin. split.
      * intros (-> & nodes & cs & ?). exists data, errors, nodes, cs. split; [right; by exists t1, e|done].
      * intros (data' & errors' & nodes & cs & [?|(t3 & e3 & [= <- <-] & E3)] & ?); [done|]. rw E2 in E3. naive_solver.
    + split; [done|]. intros (data' & errors' & nodes & cs & [?|(t3 & e3 & [= <- <-] & E3)] & _); [done|]. by rw E2 in E3.
Qed.

Lemma read_threads_ok t owner repo number th t' :
  read_threads t owner repo number = (t', Ok th) ↔
  ∃ data errors nodes, graphql t (lit "review threads") THREADS_QUERY (by_number owner repo number) = (t', Ok (data, errors))
    ∧ pointer data (THREADS ++ [lit "nodes"]) = Some (VArray nodes)
    ∧ pointer data (THREADS ++ [lit "pageInfo"; lit "hasNextPage"]) = Some (VBool false) ∧ th = summarize_threads nodes.
Proof.
  unfold read_threads. destruct (graphql t _ THREADS_QUERY _) as [t1 [[data errors]|e]]; [|by split; [|intros (? & ? & ? & ? & _)]].
  split.
  - intros [= -> (nodes & En & (b & Eb & [-> [= <-]]%guard_ok)%result_bind_ok)%result_bind_ok].
    apply ok_or_ok, bind_Some in En as (v & Ev & ->%as_array_some), Eb as (w & Ew & ->%as_bool_some). by exists data, errors, nodes.
  - intros (data' & errors' & nodes & [= -> <- <-] & En & Eb & ->). by rw En Eb.
Qed.

Lemma read_body_ok t owner repo number cl t' :
  read_body t owner repo number = (t', Ok cl) ↔
  ∃ data errors body, graphql t (lit "pr body") BODY_QUERY (by_number owner repo number) = (t', Ok (data, errors))
    ∧ pointer data [lit "repository"; lit "pullRequest"; lit "body"] = Some (VString body) ∧ cl = parse_checklist body.
Proof.
  unfold read_body. destruct (graphql t _ BODY_QUERY _) as [t1 [[data errors]|e]]; [|by split; [|intros (? & ? & ? & ? & _)]].
  split.
  - intros [= -> (body & Eb & [= <-])%result_bind_ok]. apply ok_or_ok, bind_Some in Eb as (v & Ev & ->%as_str_some).
    by exists data, errors, body.
  - intros (data' & errors' & body & [= -> <- <-] & Eb & ->). by rw Eb.
Qed.

Lemma check_anchors_ok t owner repo number head base t' :
  head ≠ [] → base ≠ [] →
  check_anchors_stable t owner repo number head base = (t', Ok tt) ↔
  ∃ view errors, pr_view t owner repo number = (t', Ok (view, errors)) ∧ anchors view head base.
Proof.
  intros Hh Hb. unfold check_anchors_stable, anchors. destruct (pr_view t owner repo number) as [t1 [[view errors]|e]]; [|naive_solver].
  split.
  - intros [= -> (h & [Eh Hh']%oid_field_ok & (b & [Eb Hb']%oid_field_ok & E)%result_bind_ok)%result_bind_ok].
    destruct (bool_decide (h = head)) eqn:E1; [|done]. destruct (bool_decide (b = base)) eqn:E2; [|done].
    apply bool_decide_eq_true in E1, E2. subst. by exists view, errors.
  - intros (view' & errors' & [= -> <- <-] & Eh & _ & Eb & _). f_equal. unfold oid_field. rw Eh Eb.
    destruct head, base; try done. cbn. by rw !bool_decide_true.
Qed.

Context (read_to_string : rstr → option rstr) (to_json : PrStatus → option rstr).

(** What the reads of one verdict saw. *)
Record Snapshot := MkSnapshot {
  sn_view : Value;
  sn_errors : bool;
  sn_head : rstr;
  sn_base : rstr;
  sn_contexts : list Value;
  sn_threads : list Value;
  sn_body : rstr;
  sn_record : rstr;
}.

(** Starting from [t], every read succeeded with a whole page, and the head and
    the base were the same before and after. *)
Definition observed t owner repo number root (s : Snapshot) t' : Prop :=
  number ≤ i32_max
  ∧ ∃ t1 t2 t3 t4,
    pr_view t owner repo number = (t1, Ok (sn_view s, sn_errors s)) ∧ anchors (sn_view s) (sn_head s) (sn_base s)
    ∧ (∃ data e, rollup_answered t1 owner repo (sn_head s) data e t2 ∧ check_nodes data e = Ok (sn_contexts s))
    ∧ (∃ data e, graphql t2 (lit "review threads") THREADS_QUERY (by_number owner repo number) = (t3, Ok (data, e))
        ∧ pointer data (THREADS ++ [lit "nodes"]) = Some (VArray (sn_threads s))
        ∧ pointer data (THREADS ++ [lit "pageInfo"; lit "hasNextPage"]) = Some (VBool false))
    ∧ (∃ data e, graphql t3 (lit "pr body") BODY_QUERY (by_number owner repo number) = (t4, Ok (data, e))
        ∧ pointer data [lit "repository"; lit "pullRequest"; lit "body"] = Some (VString (sn_body s)))
    ∧ (∃ view e, pr_view t4 owner repo number = (t', Ok (view, e)) ∧ anchors view (sn_head s) (sn_base s))
    ∧ read_to_string (record_path root number (sn_head s)) = Some (sn_record s).

(** What has to hold of it. *)
Record gates_hold (s : Snapshot) : Prop := {
  gh_view : view_passes (sn_view s) (sn_errors s);
  gh_contexts : sn_contexts s ≠ [];
  gh_checks n : n ∈ dedupe_check_nodes (sn_contexts s) → passes n;
  gh_threads n : n ∈ sn_threads s → settled n;
  gh_checklist line i : line ∈ lines (sn_body s) → checklist_line line = Some i → ci_checked i = true;
  gh_oids : hex40 (sn_head s) = true ∧ hex40 (sn_base s) = true;
  gh_record : clean_record (sn_record s) (sn_head s) (sn_base s);
}.

Lemma dedupe_nil nodes : dedupe_check_nodes nodes ≠ [] ↔ nodes ≠ [].
Proof.
  destruct (newest_runs_kept nodes) as (_ & Hin & Hall). split; [by intros Hn ->|].
  intros Hn E. rw E in Hall. destruct nodes as [|n nodes]; [done|]. destruct (Hall n) as (k & Hk & _); [by left|]. by apply not_elem_of_nil in Hk.
Qed.

Lemma checklist_checked body :
  all_checked (parse_checklist body) = true ↔
  ∀ line i, line ∈ lines body → checklist_line line = Some i → ci_checked i = true.
Proof. cbn. rw forallb_true. setoid_rewrite list_elem_of_omap. naive_solver. Qed.

(** The sub-reads of a snapshot in which the gates hold. *)
Lemma snapshot_reads t1 t2 t3 t4 owner repo number s :
  gates_hold s →
  (∃ data e, rollup_answered t1 owner repo (sn_head s) data e t2 ∧ check_nodes data e = Ok (sn_contexts s)) →
  (∃ data e, graphql t2 (lit "review threads") THREADS_QUERY (by_number owner repo number) = (t3, Ok (data, e))
     ∧ pointer data (THREADS ++ [lit "nodes"]) = Some (VArray (sn_threads s))
     ∧ pointer data (THREADS ++ [lit "pageInfo"; lit "hasNextPage"]) = Some (VBool false)) →
  (∃ data e, graphql t3 (lit "pr body") BODY_QUERY (by_number owner repo number) = (t4, Ok (data, e))
     ∧ pointer data [lit "repository"; lit "pullRequest"; lit "body"] = Some (VString (sn_body s))) →
  ∃ cs, read_checks t1 owner repo (sn_head s) = (t2, Ok (aggregate_checks cs))
    ∧ read_threads t2 owner repo number = (t3, Ok (summarize_threads (sn_threads s)))
    ∧ read_body t3 owner repo number = (t4, Ok (parse_checklist (sn_body s)))
    ∧ all_passed (aggregate_checks cs) = true ∧ any_pending (aggregate_checks cs) = false.
Proof.
  intros Hg (data & e & Hr & Hn) (data' & e' & Ht & Hp & Hm) (data'' & e'' & Hb & Hq).
  destruct (proj2 (checks_pass (dedupe_check_nodes (sn_contexts s)))) as (cs & Ecs & Ha & Hpend).
  { split; [apply dedupe_nil, Hg|apply Hg]. }
  exists cs. split; [apply read_checks_ok; by exists data, e, (sn_contexts s), cs|].
  split; [apply read_threads_ok; by exists data', e', (sn_threads s)|].
  split; [apply read_body_ok; by exists data'', e'', (sn_body s)|done].
Qed.

Lemma mergeable_complete t owner repo number root ts s t' :
  observed t owner repo number root s t' → gates_hold s →
  ∃ r, aggregate_with_root read_to_string to_json t owner repo number root ts = (t', r) ∧ says_mergeable r.
Proof.
  intros (Hn & t1 & t2 & t3 & t4 & Ev & Han & Hr & Ht & Hb & Hfin & Hrec) Hg.
  destruct (snapshot_reads t1 t2 t3 t4 owner repo number s Hg Hr Ht Hb) as (cs & Ec & Eth & Eb & Ha & Hp).
  unfold aggregate_with_root. rw (proj2 (N.ltb_ge i32_max number) Hn) Ev. destruct Han as (Eh & Hh & Ebase & Hbase).
  rw (proj2 (oid_field_ok (sn_view s) (lit "headRefOid") (lit "head") (sn_head s)) (conj Eh Hh)). cbn [result_bind].
  rw (proj2 (oid_field_ok (sn_view s) (lit "baseRefOid") (lit "base") (sn_base s)) (conj Ebase Hbase)). cbn [result_bind].
  rw Ec Eth Eb (proj2 (check_anchors_ok t4 owner repo number (sn_head s) (sn_base s) t' Hh Hbase) Hfin).
  eexists. split; [done|]. apply assemble_mergeable. split; [apply Hg|]. do 3 eexists. do 3 (split; [done|]).
  split; [|done|done|apply threads_settled, Hg|apply checklist_checked, Hg].
  apply review_record_clean. split; [apply Hg|]. split; [apply Hg|]. exists (sn_record s). split; [done|apply Hg].
Qed.

Lemma mergeable_sound t owner repo number root ts t' r :
  aggregate_with_root read_to_string to_json t owner repo number root ts = (t', r) → says_mergeable r →
  ∃ s, observed t owner repo number root s t' ∧ gates_hold s.
Proof.
  unfold aggregate_with_root. destruct (i32_max <? number) eqn:En; [intros [= <- <-]; by intros (? & ? & _)|].
  destruct (pr_view t owner repo number) as [t1 [[view errors]|e]] eqn:Ev; [|intros [= <- <-]; by intros (? & ? & _)].
  destruct (result_bind _ _) as [[head base]|e] eqn:Eo; [|intros [= <- <-]; by intros (? & ? & _)].
  apply result_bind_ok in Eo as (h & [Eh Hh]%oid_field_ok & (b & [Eb Hb]%oid_field_ok & [= -> ->])%result_bind_ok).
  destruct (read_checks t1 owner repo head) as [t2 checks] eqn:E2.
  destruct (read_threads t2 owner repo number) as [t3 threads] eqn:E3.
  destruct (read_body t3 owner repo number) as [t4 checklist] eqn:E4.
  destruct (check_anchors_stable t4 owner repo number head base) as [t5 [[]|e]] eqn:E5; [|intros [= <- <-]; by intros (? & ? & _)].
  intros [= <- <-] (Hv & ca & th & cl & Eca & Eth & Ecl & Hp)%assemble_mergeable. cbn in Eca, Eth, Ecl, Hp. subst.
  apply read_checks_ok in E2 as (data & ec & nodes & cs & Hr & Hn & Hcs & ->).
  apply read_threads_ok in E3 as (data' & et & tns & Ht & Htn & Htm & ->).
  apply read_body_ok in E4 as (data'' & eb & body & Hbody & Hq & ->).
  apply (check_anchors_ok t4 owner repo number head base t5 Hh Hb) in E5 as (final & ef & Ef & Haf).
  destruct (proj1 (review_record_clean _ _ _ _ _) (rp_record _ _ _ _ Hp)) as (Hhh & Hhb & content & Hc & Hcc).
  destruct (proj1 (checks_pass (dedupe_check_nodes nodes))) as [Hne Hpass].
  { exists cs. split; [done|]. split; [by eapply rp_checks|by eapply rp_pending]. }
  exists (MkSnapshot view errors head base nodes tns body content). split.
  - split; [by apply N.ltb_ge in En|]. exists t1, t2, t3, t4. cbn. split; [done|]. split; [done|].
    split; [by exists data, ec|]. split; [by exists data', et|]. split; [by exists data'', eb|]. split; [by exists final, ef|done].
  - split; cbn; [done|by apply dedupe_nil|done| | |done|done].
    + apply threads_settled. by eapply rp_threads.
    + apply checklist_checked. by eapply rp_checklist.
Qed.

(** C19. A pull request is reported mergeable exactly when the reads saw a
    snapshot in which every gate holds: the pull request is open, no draft, and
    neither lacks a required review nor has changes requested; there is a check
    and of each check the run that counts succeeded (or is a job known to be
    disabled that was skipped); every review thread is resolved or outdated;
    every managed item of the checklist is ticked; and the review record on
    disk says CLEAN for exactly this head and this base.  In particular a read
    that failed, an answer with more pages, or a head or base that moved
    meanwhile never gives a positive verdict. *)
Theorem mergeable_exact t owner repo number root ts :
  let '(t', r) := aggregate_with_root read_to_string to_json t owner repo number root ts in
  says_mergeable r ↔ ∃ s, observed t owner repo number root s t' ∧ gates_hold s.
Proof.
  destruct (aggregate_with_root _ _ t owner repo number root ts) as [t' r] eqn:E. split; [by eapply mergeable_sound|].
  intros (s & Ho & Hg). destruct (mergeable_complete t owner repo number root ts s t' Ho Hg) as (r' & E' & Hr).
  rw E in E'. by injection E' as <-.
Qed.
End engine.

(** ** The tool *)

Section tool.
Context {T : Type} `{PrStatusTransport T} `{Externals}.
Context (read_to_string : rstr → option rstr) (to_json : PrStatus → option rstr) (from_str : rstr → option Value).

Abbreviation valid s := (validate_hash_chain (records s) = Ok tt).

(** [s'] is [s] with one record of the invocation more. *)
Definition recorded (request : PrStatusRequest) (chain : DelegationChain) (summary : Value) (s s' : InMemoryAuditStore) : Prop :=
  ∃ x, records s' = records s ++ [x] ∧ payload (envelope x) = pr_status_payload request chain summary
     ∧ category (envelope x) = ToolRequest ∧ correlation_id (envelope x) = dl_correlation_id chain.

(** The append of an event built for the store: a valid log stays valid, and
    the record is there exactly when the append succeeded. *)
Lemma append_event_spec request chain summary ts (s : InMemoryAuditStore) e :
  valid s → build_pr_status_event request chain summary ts (len (records s)) (hash <$> list.last (records s)) = Ok e →
  let '(s', res) := store_append s e in
  valid s' ∧ match res with Ok _ => recorded request chain summary s s' | Err _ => records s' = records s end.
Proof.
  intros Hs. unfold build_pr_status_event. destruct (EventEnvelope_try_new _) as [e'|x] eqn:Ee; [|done]. intros [= ->].
  pose proof (append_built s _ e Hs Ee eq_refl eq_refl) as [Hok Ha].
  destruct (store_append s e) as [s' [x|err]]; cbn in Hok, Ha |- *; [|by destruct Ha]. split; [done|]. by exists x.
Qed.

Lemma record_pr_status_spec request chain summary ts (s : InMemoryAuditStore) :
  valid s →
  ∃ s' res, record_pr_status request chain summary ts (Some (s, false)) = (Some (s', false), res)
  ∧ valid s' ∧ match res with
    | Ok _ => recorded request chain (pr_summary_value summary) s s'
    | Err _ => records s' = records s
    end.
Proof.
  intros Hs. unfold record_pr_status, build_pr_status_invocation_event.
  destruct (build_pr_status_event _ _ _ _ _ _) as [e|x] eqn:Ee; [|by eexists _, _].
  pose proof (append_event_spec _ _ _ _ s e Hs Ee) as Ha. destruct (store_append s e) as [s' [x|err]]; by eexists _, _.
Qed.

(** The tool reads only the repository it is bound to, and answers only
    what it has recorded: with a shared audit log that is a valid chain, a
    verdict is returned only for a request that names the configured
    repository, is the engine's verdict, and left exactly one record under the
    invocation's correlation id, with the verdict's own outcome; a request for
    another repository fails without a read; and on every error the log is
    valid with at most one record more. *)
Theorem pr_status_tool_recorded (context : option T * option rstr * option rstr) request cid ts wall join s :
  valid s →
  let chain := MkChain cid None (pq_delegation_chain request) in
  let '(t', shared', res) :=
    pr_status_tool read_to_string to_json from_str context request cid ts wall join (Some (s, false)) in
  ∃ s', shared' = Some (s', false) ∧ valid s' ∧ match res with
  | Ok verdict => ∃ t root,
      context = (Some t, Some root, Some (pq_owner request ++ lit "/" ++ pq_repo request))
      ∧ aggregate_with_root read_to_string to_json t (pq_owner request) (pq_repo request) (pq_number request) root ts
        = (default t t', Ok verdict)
      ∧ recorded request chain (pr_summary_value (MkPrSummary (mergeable (ps_convergence verdict))
            (len (reasons (ps_convergence verdict))) (lit "verdict"))) s s'
  | Err _ =>
      (records s' = records s ∨ ∃ summary, recorded request chain summary s s')
      ∧ (context.2 ≠ Some (pq_owner request ++ lit "/" ++ pq_repo request) → t' = context.1.1)
  end.
Proof.
  intros Hs chain. unfold pr_status_tool. destruct context as [[[t|] [root|]] [allowed|]];
    try (exists s; split; [done|]; split; [done|]; split; [by left|done]).
  case_bool_decide as Ha; cbn [negb].
  - unfold run_pr_status_shared.
    destruct (aggregate_with_root _ _ t _ _ _ root ts) as [t' read] eqn:Er. 
    set (agg := match join with
      | Some j => Err (Unrecoverable (lit "pr.status worker failed: " ++ j) [])
      | None => read
      end).
    destruct (record_pr_status_spec request (MkChain cid None (pq_delegation_chain request)) (verdict_summary agg) wall s Hs)
      as (s' & res & -> & Hv & Hr).
    destruct res as [[]|e]; (exists s'; split; [done|]; split; [done|]); [|split; [by left|intros []; by rw Ha]].
    destruct agg as [v|e] eqn:Eagg; cbn [map_err verdict_summary] in *; [|split; [right; by eexists|intros []; by rw Ha]].
    exists t, root. rw Ha Er. destruct join; [done|]. unfold agg in Eagg. subst read. by split.
  - unfold record_refusal, build_pr_status_refusal_event.
    destruct (build_pr_status_event _ _ _ _ _ _) as [e|x] eqn:Ee;
      [|exists s; split; [done|]; split; [done|]; split; [by left|done]].
    pose proof (append_event_spec _ _ _ _ s e Hs Ee) as Hx. destruct (store_append s e) as [s' [x|err]]; destruct Hx as [Hv Hx];
      (exists s'; split; [done|]; split; [done|]; split; [|done]); [right; by eexists|by left].
Qed.
End tool.

(** ** Examples *)

Definition obj (fields : list (string * Value)) : Value := VObject ((λ '(k, v), (lit k, v)) <$> fields).
Definition str (s : string) : Value := VString (lit s).

Definition oid (c : N) : rstr := replicate 40 c.

Definition example_view : Value :=
  obj [("number", VNumber (PosInt 7)); ("state", str "OPEN"); ("headRefOid", VString (oid 97)); ("baseRefOid", VString (oid 98));
       ("isDraft", VBool false); ("reviewDecision", str "APPROVED"); ("mergeStateStatus", str "CLEAN")]%string.

Definition check_run (name started conclusion : string) : Value :=
  obj [("__typename", str "CheckRun"); ("name", str name); ("startedAt", str started); ("status", str "COMPLETED");
       ("conclusion", str conclusion)]%string.

Definition pages (nodes : list Value) : Value :=
  obj [("pageInfo", obj [("hasNextPage", VBool false)]); ("nodes", VArray nodes)]%string.

(** A failed run that was repeated with success, a resolved thread and a ticked
    item. *)
Definition example_answer (operation : rstr) : Value :=
  if bool_decide (operation = lit "pr view") then obj [("repository", obj [("pullRequest", example_view)])]%string
  else if bool_decide (operation = lit "checks") then
    obj [("repository", obj [("object", obj [("statusCheckRollup", obj [("contexts",
      pages [check_run "build" "2025-01-01" "FAILURE"; check_run "build" "2025-01-02" "SUCCESS"])])])])]%string
  else if bool_decide (operation = lit "review threads") then
    obj [("repository", obj [("pullRequest", obj [("reviewThreads", pages [obj [("isResolved", VBool true)]])])])]%string
  else obj [("repository", obj [("pullRequest", obj [("body", str "- [x] <!-- orc:tests --> tests pass")])])]%string.

#[local] Instance example_transport : PrStatusTransport unit := {
  graphql t operation _ _ := (t, Ok (example_answer operation, false));
}.

Definition example_record : rstr :=
  lit "# Review" ++ [10; 10] ++ lit "- verdict: CLEAN" ++ [10; 10] ++ lit "- head SHA: " ++ oid 97 ++ [10]
  ++ lit "- base OID: " ++ oid 98 ++ [10].

Definition example_files (path : rstr) : option rstr :=
  if bool_decide (path = lit "/repo/.orchestraitor/reviews/7-aaaaaaa.md") then Some example_record else None.

Definition no_json : PrStatus → option rstr := λ _, None.

Lemma example_mergeable :
  ∃ s, observed example_files tt (lit "o") (lit "r") 7 (lit "/repo") s tt ∧ gates_hold s.
Proof.
  pose proof (mergeable_exact example_files no_json tt (lit "o") (lit "r") 7 (lit "/repo") (lit "now")) as Hm.
  destruct (aggregate_with_root _ _ tt _ _ _ _ _) as [[] r] eqn:E. apply Hm.
  assert (r = ((tt, r) : unit * _).2) as -> by done. rw -E. vm_compute. eexists. split; reflexivity.
Qed.

Lemma pr_status_tool_recorded_witness :
  let request := MkPrStatusRequest 7 (lit "o") (lit "r") [] in
  let '(_, shared', res) :=
    pr_status_tool example_files no_json (λ _, None) (Some tt, Some (lit "/repo"), Some (lit "o/r")) request
      (MkOperationId (lit "op-1")) (lit "now") (lit "now") None (Some (MkStore [], false)) in
  is_Ok res ∧ ∃ s', shared' = Some (s', false) ∧ length (records s') = 1%nat.
Proof.
  intros request.
  pose proof (pr_status_tool_recorded example_files no_json (λ _, None) (Some tt, Some (lit "/repo"), Some (lit "o/r")) request
    (MkOperationId (lit "op-1")) (lit "now") (lit "now") None (MkStore []) eq_refl) as Hr.
  destruct (pr_status_tool _ _ _ _ request _ _ _ _ _) as [[t' shared'] res] eqn:E.
  assert (is_Ok (t', shared', res).2) as Hok by (rw -E; vm_compute; eexists; reflexivity). clear E. cbn [snd] in Hok.
  split; [exact Hok|]. destruct Hr as (s' & -> & _ & Hr). destruct Hok as [v ->]. destruct Hr as (t & root & _ & _ & x & Hl & _).
  exists s'. split; [done|]. by rw Hl.
Defined.

(** The continuation of the query's source line joins two fields: the query
    asks for a field [linecomments], which a thread does not have. *)
Lemma threads_query_joins_fields : contains_str (lit "path linecomments(first:50)") THREADS_QUERY = true.
Proof. vm_compute. reflexivity. Qed.

(** Two different jobs with one key: the failure of the second is not seen. *)
Lemma job_key_collision :
  let job name workflow started conclusion :=
    obj [("name", str name); ("startedAt", str started); ("status", str "COMPLETED"); ("conclusion", str conclusion);
         ("checkSuite", obj [("workflowRun", obj [("workflow", obj [("name", str workflow)])])])]%string in
  let passed := job "lint" "ci/fast" "2025-01-02" "SUCCESS" in
  let failed := job "lint/ci" "fast" "2025-01-01" "FAILURE" in
  dedupe_check_nodes [failed; passed] = [passed] ∧ ¬ passes failed.
Proof. split; [vm_compute; reflexivity|]. vm_compute. intros [_ [?|[? _]]]; [done|set_solver]. Qed.
