(* ===== verification/DecisionRecord.v ===== *)
(** * Decision records

    [crates/orchestraitor-mcp/src/decision_record.rs] with its driver in
    [gateway.rs]: the validation of a record offered by an agent, its append to
    the campaign's decision store, and the record of the invocation. *)

From S2P Require Import Prelude BTree Text Substring SecretShape Model Events AuditExample BoardContract BoardMove BoardQuery Board Campaign.

(** ** Data *)

Definition TOOL_NAME : rstr := lit "decision.record".
Definition MAX_TEXT_CHARS : N := 4096.
Definition MAX_ID_CHARS : N := 256.
Definition MAX_WORKER_ARGS : N := 64.
Definition MAX_WORKER_ARG_CHARS : N := 1024.
Definition MAX_LIST_ENTRIES : N := 256.

Inductive DecisionRecordKind := RecSelected | RecNoOp.
Inductive DecisionRecordNoOpReason := RecEmptyQueue | RecAllBlocked | RecEpicExhausted | RecKickoffGate.

Record DecisionRecordSelectedTask := MkRecTask {
  rt_repo : rstr;
  rt_number : N;
  rt_title : rstr;
  rt_url : rstr;
  rt_item_node_id : rstr;
  rt_task_id : rstr;
}.

Record DecisionRecordAlternative := MkRecAlternative {
  ra_repo : rstr;
  ra_number : N;
  ra_title : rstr;
  ra_open_blockers : N;
  ra_target : option rstr;
  ra_status : option rstr;
}.

Record DecisionRecordSkip := MkRecSkip { rk_number : option N; rk_kind : rstr; rk_reason : rstr }.

Record DecisionRecordInput := MkRecInput {
  di_kind : DecisionRecordKind;
  di_no_op_reason : option DecisionRecordNoOpReason;
  di_selected : option DecisionRecordSelectedTask;
  di_role : rstr;
  di_provider : rstr;
  di_model : rstr;
  di_precedence_path : rstr;
  di_fallback_reason : option rstr;
  di_worker_args : list rstr;
  di_rationale : rstr;
  di_alternatives : list DecisionRecordAlternative;
  di_blocked_graph : list DecisionRecordAlternative;
  di_skipped : list DecisionRecordSkip;
}.

Inductive DecisionRecordError :=
| InvalidShape (message : rstr)
| EmptyField (field : rstr)
| FieldTooLong (field : rstr) (limit : N)
| TooManyEntries (field : rstr) (limit : N)
| SpawnWithoutTask
| SelectedWithNoOpReason
| NoOpWithoutReason
| NoOpWithTask
| SecretShapedContent (field : rstr)
| DecisionStore (source : CampaignError)
| DecisionEventStore (reason : rstr).

(** ** Validation *)

Definition require_text (field value : rstr) (limit : N) : result unit DecisionRecordError :=
  if limit <? len value then Err (FieldTooLong field limit) else Ok tt.

Definition require_non_empty (field value : rstr) (limit : N) : result unit DecisionRecordError :=
  if blank value then Err (EmptyField field) else require_text field value limit.

Definition require_opt (field : rstr) (value : option rstr) (limit : N) : result unit DecisionRecordError :=
  match value with Some value => require_text field value limit | None => Ok tt end.

(** The closed vocabulary of list fields and their parts. *)
Definition node_field (field suffix : rstr) : result rstr DecisionRecordError :=
  if bool_decide (field ∈ [lit "alternatives"; lit "blocked_graph"]
                  ∧ suffix ∈ [lit "repo"; lit "title"; lit "target"; lit "status"])
  then Ok (field ++ lit "." ++ suffix) else Err (InvalidShape (lit "internal: unknown list field")).

Definition require_node (field : rstr) (node : DecisionRecordAlternative) : result unit DecisionRecordError :=
  let? repo := node_field field (lit "repo") in
  let? _ := require_non_empty repo (ra_repo node) MAX_ID_CHARS in
  let? title := node_field field (lit "title") in
  let? _ := require_text title (ra_title node) MAX_TEXT_CHARS in
  let? _ := (match ra_target node with
             | Some target => let? name := node_field field (lit "target") in require_text name target MAX_ID_CHARS
             | None => Ok tt
             end) in
  match ra_status node with
  | Some status => let? name := node_field field (lit "status") in require_text name status MAX_ID_CHARS
  | None => Ok tt
  end.

Definition require_nodes (field : rstr) (nodes : list DecisionRecordAlternative) : result unit DecisionRecordError :=
  if MAX_LIST_ENTRIES <? len nodes then Err (TooManyEntries field MAX_LIST_ENTRIES)
  else try_for_each (require_node field) nodes.

Definition require_skip (skip : DecisionRecordSkip) : result unit DecisionRecordError :=
  let? _ := require_text (lit "skipped.kind") (rk_kind skip) MAX_ID_CHARS in
  require_text (lit "skipped.reason") (rk_reason skip) MAX_TEXT_CHARS.

Definition validate_bounds (input : DecisionRecordInput) : result unit DecisionRecordError :=
  let? _ := require_non_empty (lit "role") (di_role input) MAX_ID_CHARS in
  let? _ := require_non_empty (lit "provider") (di_provider input) MAX_ID_CHARS in
  let? _ := require_non_empty (lit "model") (di_model input) MAX_ID_CHARS in
  let? _ := require_non_empty (lit "precedence_path") (di_precedence_path input) MAX_ID_CHARS in
  let? _ := require_non_empty (lit "rationale") (di_rationale input) MAX_TEXT_CHARS in
  let? _ := require_opt (lit "fallback_reason") (di_fallback_reason input) MAX_TEXT_CHARS in
  if MAX_WORKER_ARGS <? len (di_worker_args input) then Err (TooManyEntries (lit "worker_args") MAX_WORKER_ARGS)
  else
    let? _ := try_for_each (λ a, require_text (lit "worker_args") a MAX_WORKER_ARG_CHARS) (di_worker_args input) in
    let? _ := require_nodes (lit "alternatives") (di_alternatives input) in
    let? _ := require_nodes (lit "blocked_graph") (di_blocked_graph input) in
    if MAX_LIST_ENTRIES <? len (di_skipped input) then Err (TooManyEntries (lit "skipped") MAX_LIST_ENTRIES)
    else try_for_each require_skip (di_skipped input).

Definition some_secret (value : option rstr) : bool :=
  match value with Some value => contains_secret_shaped value | None => false end.

Definition node_secret (node : BlockedNode) : bool :=
  contains_secret_shaped (bn_title node) || contains_secret_shaped (bn_repo node) || some_secret (bn_target node)
  || some_secret (bn_status node).

Definition scan_for_secrets (d : CampaignDecision) : result unit DecisionRecordError :=
  let refuse field := Err (SecretShapedContent field) in
  if contains_secret_shaped (rationale d) then refuse (lit "rationale")
  else if contains_secret_shaped (cd_role d) || contains_secret_shaped (cd_provider d)
          || contains_secret_shaped (cd_model d) || contains_secret_shaped (precedence_path d) then refuse (lit "routing")
  else if some_secret (fallback_reason d) then refuse (lit "fallback_reason")
  else if existsb contains_secret_shaped (worker_args d) then refuse (lit "worker_args")
  else if match selected d with
          | Some task =>
              contains_secret_shaped (st_title task) || contains_secret_shaped (st_url task)
              || contains_secret_shaped (st_repo task) || contains_secret_shaped (st_task_id task)
              || contains_secret_shaped (st_item_node_id task)
          | None => false
          end then refuse (lit "selected")
  else if existsb node_secret (alternatives d ++ blocked_graph d) then refuse (lit "alternatives")
  else if existsb (λ s, contains_secret_shaped (sr_kind s) || contains_secret_shaped (sr_reason s)) (skipped d)
       then refuse (lit "skipped")
  else Ok tt.

Definition reason_of (r : DecisionRecordNoOpReason) : NoOpReason :=
  match r with
  | RecEmptyQueue => EmptyQueue
  | RecAllBlocked => AllBlocked
  | RecEpicExhausted => EpicExhausted
  | RecKickoffGate => KickoffGate
  end.

Definition node_of (a : DecisionRecordAlternative) : BlockedNode :=
  MkBlockedNode (ra_repo a) (ra_number a) (ra_title a) (ra_open_blockers a) (ra_target a) (ra_status a).

Definition task_of (t : DecisionRecordSelectedTask) : SelectedTask :=
  MkSelectedTask (rt_repo t) (rt_number t) (rt_title t) (rt_url t) (rt_item_node_id t) (rt_task_id t).

Definition validate_reason (input : DecisionRecordInput) : result (option NoOpReason) DecisionRecordError :=
  match di_kind input, di_no_op_reason input with
  | RecSelected, None => Ok None
  | RecSelected, Some _ => Err SelectedWithNoOpReason
  | RecNoOp, Some reason => Ok (Some (reason_of reason))
  | RecNoOp, None => Err NoOpWithoutReason
  end.

Definition validate_task (input : DecisionRecordInput) : result (option SelectedTask) DecisionRecordError :=
  match di_kind input, di_selected input with
  | RecSelected, Some task =>
      let? _ := require_non_empty (lit "selected.repo") (rt_repo task) MAX_ID_CHARS in
      let? _ := require_non_empty (lit "selected.url") (rt_url task) MAX_ID_CHARS in
      let? _ := require_non_empty (lit "selected.title") (rt_title task) MAX_TEXT_CHARS in
      let? _ := require_non_empty (lit "selected.item_node_id") (rt_item_node_id task) MAX_ID_CHARS in
      let? _ := require_non_empty (lit "selected.task_id") (rt_task_id task) MAX_ID_CHARS in
      Ok (Some (task_of task))
  | RecSelected, None => Err SpawnWithoutTask
  | RecNoOp, Some _ => Err NoOpWithTask
  | RecNoOp, None => Ok None
  end.

Definition validate_decision (input : DecisionRecordInput) : result CampaignDecision DecisionRecordError :=
  let? _ := validate_bounds input in
  let? reason := validate_reason input in
  let? task := validate_task input in
  let decision := {|
    cd_kind := match di_kind input with RecSelected => Selected | RecNoOp => NoOp end;
    no_op_reason := reason;
    selected := task;
    cd_role := di_role input;
    cd_provider := di_provider input;
    cd_model := di_model input;
    precedence_path := di_precedence_path input;
    fallback_reason := di_fallback_reason input;
    worker_args := di_worker_args input;
    rationale := di_rationale input;
    alternatives := node_of <$> di_alternatives input;
    blocked_graph := node_of <$> di_blocked_graph input;
    skipped := (λ s, MkSkipRecord (rk_number s) (rk_kind s) (rk_reason s)) <$> di_skipped input |} in
  let? _ := scan_for_secrets decision in
  Ok decision.

(** ** The record of the invocation *)

Definition kind_value (k : DecisionKind) : Value :=
  VString (lit match k with Selected => "selected" | NoOp => "no-op" end).

Definition reason_value (r : NoOpReason) : Value :=
  VString (lit match r with
               | EmptyQueue => "empty-queue" | AllBlocked => "all-blocked" | EpicExhausted => "epic-exhausted"
               | KickoffGate => "kickoff-gate"
               end).

Definition decision_payload (stored : StoredCampaignDecision) (chain : DelegationChain) : Value :=
  VObject ([(lit "tool", VString TOOL_NAME); (lit "decision_kind", kind_value (cd_kind (sd_decision stored)))]
           ++ match no_op_reason (sd_decision stored) with
              | Some reason => [(lit "no_op_reason", reason_value reason)]
              | None => []
              end
           ++ [(lit "record_id", VNumber (PosInt (sd_id stored))); (lit "chain_source", VString (lit "client-asserted"));
               (lit "delegation_chain", VArray (claimed_principals (dl_principals chain)))]).

Definition build_decision_event (stored : StoredCampaignDecision) (chain : DelegationChain) (wall_clock : rstr)
    (seq_base : N) (prev_base : option HashDigest) : result EventEnvelope DecisionRecordError :=
  map_err (λ _, DecisionEventStore (lit "envelope rejected")) (EventEnvelope_try_new {|
    inp_schema_version := CURRENT_SCHEMA_VERSION;
    inp_monotonic_seq := saturating_add u64_max seq_base 1;
    inp_wall_clock_ts := wall_clock;
    inp_correlation_id := dl_correlation_id chain;
    inp_parent_op_id := dl_parent_op_id chain;
    inp_category := ToolRequest;
    inp_payload := decision_payload stored chain;
    inp_prev_hash := prev_base |}).

Section record.
Context {S : Type} `{AuditStore S}.

Definition record_decision_event (stored : StoredCampaignDecision) (chain : DelegationChain) (wall_clock : rstr) (audit : S)
    : S * result unit DecisionRecordError :=
  match store_head audit with
  | Err _ => (audit, Err (DecisionEventStore (lit "audit query failed")))
  | Ok head =>
      match build_decision_event stored chain wall_clock (seq_base head) (head_prev_hash head) with
      | Err e => (audit, Err e)
      | Ok envelope =>
          match store_append audit envelope with
          | (audit, Ok _) => (audit, Ok tt)
          | (audit, Err _) => (audit, Err (DecisionEventStore (lit "audit append rejected")))
          end
      end
  end.

(** [db] is what SQLite answers to the insert. *)
Definition record_decision (input : DecisionRecordInput) (chain : DelegationChain) (store : CampaignDecisionStore)
    (db : result rstr rstr) (wall_clock : rstr) (audit : S)
    : CampaignDecisionStore * S * result StoredCampaignDecision DecisionRecordError :=
  match validate_decision input with
  | Err e => (store, audit, Err e)
  | Ok decision =>
      match Campaign.record store decision db with
      | (store, Err e) => (store, audit, Err (DecisionStore e))
      | (store, Ok stored) =>
          let '(audit, res) := record_decision_event stored chain wall_clock audit in
          (store, audit, let? _ := res in Ok stored)
      end
  end.
End record.

Inductive DecisionToolError := DecisionRecordUnconfigured | DecisionPoisoned (message : rstr) | DecisionFailed (source : DecisionRecordError).

(** The stores behind their locks; without a shared audit log the record of the
    invocation goes to one that is dropped. *)
Definition run_decision_record_shared `{Externals} (input : DecisionRecordInput) (chain : DelegationChain)
    (shared_store : option (CampaignDecisionStore * bool)) (db : result rstr rstr) (wall_clock : rstr)
    (shared_audit : option (InMemoryAuditStore * bool))
    : option (CampaignDecisionStore * bool) * option (InMemoryAuditStore * bool)
      * result StoredCampaignDecision DecisionToolError :=
  match shared_store with
  | None => (None, shared_audit, Err DecisionRecordUnconfigured)
  | Some (store, store_poisoned) =>
      match shared_audit with
      | Some (_, true) => (shared_store, shared_audit, Err (DecisionPoisoned (lit "audit store poisoned")))
      | _ =>
          if (store_poisoned : bool) then
            (shared_store, shared_audit, Err (DecisionPoisoned (lit "decision store poisoned")))
          else
            let audit := match shared_audit with Some (audit, _) => audit | None => MkStore [] end in
            let '(store, audit, res) := record_decision input chain store db wall_clock audit in
            (Some (store, false), (λ _, (audit, false)) <$> shared_audit, map_err DecisionFailed res)
      end
  end.

(** ** What is stored *)

(** The record as it was offered. *)
Definition decision_of (input : DecisionRecordInput) : CampaignDecision := {|
  cd_kind := match di_kind input with RecSelected => Selected | RecNoOp => NoOp end;
  no_op_reason := reason_of <$> di_no_op_reason input;
  selected := task_of <$> di_selected input;
  cd_role := di_role input;
  cd_provider := di_provider input;
  cd_model := di_model input;
  precedence_path := di_precedence_path input;
  fallback_reason := di_fallback_reason input;
  worker_args := di_worker_args input;
  rationale := di_rationale input;
  alternatives := node_of <$> di_alternatives input;
  blocked_graph := node_of <$> di_blocked_graph input;
  skipped := (λ s, MkSkipRecord (rk_number s) (rk_kind s) (rk_reason s)) <$> di_skipped input |}.

(** Every text that a record carries. *)
Definition task_texts (t : SelectedTask) : list rstr := [st_title t; st_url t; st_repo t; st_task_id t; st_item_node_id t].
Definition node_texts (n : BlockedNode) : list rstr :=
  [bn_title n; bn_repo n] ++ option_list (bn_target n) ++ option_list (bn_status n).
Definition skip_texts (s : SkipRecord) : list rstr := [sr_kind s; sr_reason s].

Definition texts (d : CampaignDecision) : list rstr :=
  [rationale d; cd_role d; cd_provider d; cd_model d; precedence_path d] ++ option_list (fallback_reason d)
  ++ worker_args d ++ from_option task_texts [] (selected d) ++ ((alternatives d ++ blocked_graph d) ≫= node_texts)
  ++ (skipped d ≫= skip_texts).

(** No text satisfies [P]. *)
Lemma none_app (P : rstr → bool) l k : (∀ s, s ∈ l ++ k → P s = false) ↔ (∀ s, s ∈ l → P s = false) ∧ ∀ s, s ∈ k → P s = false.
Proof. setoid_rewrite elem_of_app. naive_solver. Qed.

Lemma none_cons (P : rstr → bool) x l : (∀ s, s ∈ x :: l → P s = false) ↔ P x = false ∧ ∀ s, s ∈ l → P s = false.
Proof. setoid_rewrite elem_of_cons. naive_solver. Qed.

Lemma none_nil (P : rstr → bool) : (∀ s, s ∈ [] → P s = false) ↔ True.
Proof. split; [done|]. by intros _ s ?%not_elem_of_nil. Qed.

Lemma none_bind {A} (P : rstr → bool) (f : A → list rstr) l :
  (∀ s, s ∈ (l ≫= f) → P s = false) ↔ ∀ a, a ∈ l → ∀ s, s ∈ f a → P s = false.
Proof. setoid_rewrite list_elem_of_bind. naive_solver. Qed.

Lemma none_option (P : rstr → bool) o :
  (∀ s, s ∈ option_list o → P s = false) ↔ match o with Some x => P x | None => false end = false.
Proof. destruct o; cbn; [rw none_cons none_nil; tauto|by rw none_nil]. Qed.

Lemma scan_clean d : scan_for_secrets d = Ok tt ↔ ∀ s, s ∈ texts d → contains_secret_shaped s = false.
Proof.
  unfold scan_for_secrets, node_secret, some_secret, texts, node_texts, skip_texts. generalize contains_secret_shaped. intros P.
  rw !guard_ok !orb_false_iff !none_app !none_cons none_nil none_option !none_bind !existsb_false.
  setoid_rewrite none_app. setoid_rewrite none_app. setoid_rewrite none_option. setoid_rewrite none_cons. setoid_rewrite none_cons.
  setoid_rewrite none_nil. setoid_rewrite orb_false_iff. setoid_rewrite orb_false_iff. setoid_rewrite orb_false_iff.
  assert (match selected d with
    | Some task => P (st_title task) || P (st_url task) || P (st_repo task) || P (st_task_id task) || P (st_item_node_id task)
    | None => false end = false ↔ ∀ s, s ∈ from_option task_texts [] (selected d) → P s = false) as ->.
  { destruct (selected d); cbn; [|by rw none_nil]. unfold task_texts. rw !none_cons none_nil !orb_false_iff. tauto. }
  split.
  - intros (? & ? & ? & ? & ? & Hn & Hs & _). split_and!; try tauto; intros a Ha; [specialize (Hn a Ha)|specialize (Hs a Ha)]; tauto.
  - intros (Hr & ? & ? & ? & Hn & Hs). split_and!; try tauto; intros a Ha; [specialize (Hn a Ha)|specialize (Hs a Ha)]; tauto.
Qed.

(** A text within the largest bound. *)
Definition too_long (s : rstr) : bool := MAX_TEXT_CHARS <? len s.

Lemma require_text_ok field value limit :
  limit ≤ MAX_TEXT_CHARS → require_text field value limit = Ok tt → too_long value = false.
Proof. unfold require_text, too_long. intros Hl [?%N.ltb_ge _]%guard_ok. apply N.ltb_ge. lia. Qed.

Lemma require_non_empty_ok field value limit :
  limit ≤ MAX_TEXT_CHARS → require_non_empty field value limit = Ok tt → too_long value = false.
Proof. intros Hl [_ Hv]%guard_ok. by eapply require_text_ok. Qed.

Lemma require_opt_ok field value limit :
  limit ≤ MAX_TEXT_CHARS → require_opt field value limit = Ok tt → ∀ s, s ∈ option_list value → too_long s = false.
Proof. intros Hl Hv. destruct value as [v|]; [|by apply none_nil]. apply none_cons. split; [by eapply require_text_ok|by apply none_nil]. Qed.

(** [H : require… = Ok tt] becomes the bound. *)
Ltac bounded H := first [apply require_text_ok in H; [|done] | apply require_non_empty_ok in H; [|done]].

Lemma require_node_ok field n : require_node field n = Ok tt → ∀ s, s ∈ node_texts (node_of n) → too_long s = false.
Proof.
  unfold require_node. intros (repo & _ & ([] & Hr & (title & _ & ([] & Ht & ([] & Hg & Hs)%result_bind_ok)%result_bind_ok)%result_bind_ok)%result_bind_ok)%result_bind_ok.
  bounded Hr. bounded Ht. unfold node_texts. cbn [node_of bn_title bn_repo bn_target bn_status].
  rw !none_app !none_cons none_nil !none_option. split_and!; [done|done|done| |].
  - destruct (ra_target n); [|done]. apply result_bind_ok in Hg as (? & _ & Hg). by bounded Hg.
  - destruct (ra_status n); [|done]. apply result_bind_ok in Hs as (? & _ & Hs). by bounded Hs.
Qed.

Lemma require_nodes_ok field ns :
  require_nodes field ns = Ok tt → ∀ n, n ∈ node_of <$> ns → ∀ s, s ∈ node_texts n → too_long s = false.
Proof.
  intros [_ Hn]%guard_ok ? (n & -> & Hin)%list_elem_of_fmap. rw try_for_each_ok in Hn. by eapply require_node_ok, Hn.
Qed.

Lemma bounds_ok input : validate_bounds input = Ok tt →
  (∀ s, s ∈ [di_rationale input; di_role input; di_provider input; di_model input; di_precedence_path input] → too_long s = false)
  ∧ (∀ s, s ∈ option_list (di_fallback_reason input) → too_long s = false)
  ∧ (∀ s, s ∈ di_worker_args input → too_long s = false)
  ∧ (∀ n, n ∈ node_of <$> di_alternatives input ++ di_blocked_graph input → ∀ s, s ∈ node_texts n → too_long s = false)
  ∧ (∀ k, k ∈ di_skipped input → too_long (rk_kind k) = false ∧ too_long (rk_reason k) = false).
Proof.
  unfold validate_bounds.
  intros ([] & Hro & ([] & Hpr & ([] & Hmo & ([] & Hpp & ([] & Hra & ([] & Hfb & Hrest)%result_bind_ok)%result_bind_ok)%result_bind_ok)%result_bind_ok)%result_bind_ok)%result_bind_ok.
  apply guard_ok in Hrest as [_ ([] & Hwa & ([] & Hal & ([] & Hbl & [_ Hsk]%guard_ok)%result_bind_ok)%result_bind_ok)%result_bind_ok].
  rw !try_for_each_ok in Hwa. rw try_for_each_ok in Hsk. bounded Hro. bounded Hpr. bounded Hmo. bounded Hpp. bounded Hra.
  pose proof (require_opt_ok _ _ _ (N.le_refl _) Hfb) as Hopt.
  split; [rw !none_cons none_nil; tauto|]. split; [done|]. split; [|split].
  - intros a Ha. specialize (Hwa a Ha). by bounded Hwa.
  - rw fmap_app. intros n [Hn|Hn]%elem_of_app; [by eapply (require_nodes_ok _ _ Hal)|by eapply (require_nodes_ok _ _ Hbl)].
  - intros k Hk. specialize (Hsk k Hk). apply result_bind_ok in Hsk as ([] & H1 & H2). bounded H1. by bounded H2.
Qed.

(** Either a selection with its task, or a no-op with its reason. *)
Definition consistent (d : CampaignDecision) : Prop :=
  match cd_kind d with
  | Selected => no_op_reason d = None ∧ is_Some (selected d)
  | NoOp => is_Some (no_op_reason d) ∧ selected d = None
  end.

Lemma validate_decision_ok input d :
  validate_decision input = Ok d →
  d = decision_of input ∧ consistent d ∧ ∀ s, s ∈ texts d → contains_secret_shaped s = false ∧ len s ≤ 4096.
Proof.
  unfold validate_decision.
  intros ([] & Hb & (reason & Hr & (task & Ht & ([] & Hs & [= Hd])%result_bind_ok)%result_bind_ok)%result_bind_ok)%result_bind_ok.
  assert (reason = reason_of <$> di_no_op_reason input ∧ task = task_of <$> di_selected input ∧ consistent d
    ∧ ∀ s, s ∈ from_option task_texts [] task → too_long s = false) as (-> & -> & Hc & Htt).
  { subst d. unfold validate_reason in Hr. unfold validate_task in Ht. unfold consistent. cbn [cd_kind no_op_reason selected].
    destruct (di_kind input), (di_no_op_reason input), (di_selected input) as [t|]; try done; cbn [fmap option_fmap option_map].
    - injection Hr as <-.
      apply result_bind_ok in Ht as ([] & H1 & ([] & H2 & ([] & H3 & ([] & H4 & ([] & H5 & [= <-])%result_bind_ok)%result_bind_ok)%result_bind_ok)%result_bind_ok).
      bounded H1. bounded H2. bounded H3. bounded H4. bounded H5. split; [done|]. split; [done|]. split; [by split; [|eexists]|].
      unfold task_texts. cbn. rw !none_cons none_nil. tauto.
    - injection Hr as <-. injection Ht as <-. split; [done|]. split; [done|]. split; [by split; [eexists|]|]. by apply none_nil. }
  split; [by subst d|]. split; [done|]. intros s Hin. split; [revert s Hin; apply scan_clean; by subst d|].
  apply N.ltb_ge. change (too_long s = false). revert s Hin. unfold texts. subst d. cbn [rationale cd_role cd_provider cd_model
    precedence_path fallback_reason worker_args selected alternatives blocked_graph skipped].
  destruct (bounds_ok input Hb) as (H1 & H2 & H3 & H4 & H5). rw !none_app. split; [done|]. split; [done|]. split; [done|]. split; [done|].
  split; [rw -fmap_app none_bind; done|]. rw none_bind. intros ? (k & -> & Hk)%list_elem_of_fmap. unfold skip_texts. cbn.
  rw !none_cons none_nil. destruct (H5 k Hk). tauto.
Qed.

(** Validation fails only with a refusal. *)
Definition refusal (e : DecisionRecordError) : Prop :=
  match e with DecisionStore _ | DecisionEventStore _ => False | _ => True end.

Definition refuses {A} (r : result A DecisionRecordError) : Prop := match r with Ok _ => True | Err e => refusal e end.

Lemma refuses_bind {A B} (r : result A DecisionRecordError) (k : A → result B DecisionRecordError) :
  refuses r → (∀ a, refuses (k a)) → refuses (result_bind r k).
Proof. destruct r; cbn; auto. Qed.

Lemma refuses_if {A} (b : bool) (r r' : result A DecisionRecordError) : refuses r → refuses r' → refuses (if b then r else r').
Proof. by destruct b. Qed.

Lemma refuses_each {A} (f : A → result unit DecisionRecordError) l : (∀ a, refuses (f a)) → refuses (try_for_each f l).
Proof. intros Hf. induction l as [|a l IH]; cbn; [done|]. by apply refuses_bind. Qed.

Ltac refuse := repeat first [done | apply refuses_bind; [|intros ?] | apply refuses_if | apply refuses_each; intros ? | case_match].

Lemma validation_refuses input : refuses (validate_decision input).
Proof.
  unfold validate_decision, validate_bounds, validate_reason, validate_task, scan_for_secrets, require_nodes, require_node,
    require_skip, require_opt, require_non_empty, require_text, node_field. refuse.
Qed.

Section recorded.
Context {S : Type} `{AuditStoreLaws S}.

Lemma record_event_spec stored chain ts (audit : S) :
  store_ok audit →
  let '(audit', res) := record_decision_event stored chain ts audit in
  store_ok audit' ∧ match res with
  | Ok _ => ∃ x, log audit' = log audit ++ [x] ∧ payload (envelope x) = decision_payload stored chain
              ∧ category (envelope x) = ToolRequest ∧ correlation_id (envelope x) = dl_correlation_id chain
  | Err e => log audit' = log audit ∧ ∃ reason, e = DecisionEventStore reason
  end.
Proof.
  intros Hs. unfold record_decision_event. rw (head_law audit Hs). cbn [seq_base head_prev_hash]. unfold build_decision_event.
  destruct (EventEnvelope_try_new _) as [e|x] eqn:Ee; cbn [map_err]; [|split; [done|]; split; [done|by eexists]].
  pose proof (append_built audit _ e Hs Ee eq_refl eq_refl) as [Hok Ha].
  destruct (store_append audit e) as [a' [x|err]]; cbn in Hok, Ha |- *; (split; [done|]); [by exists x|]. destruct Ha. by split; [|eexists].
Qed.

(** The row written for the input: the record exactly as it was offered, with a
    fresh id. *)
Definition written (input : DecisionRecordInput) (store : CampaignDecisionStore) (row : StoredCampaignDecision) : Prop :=
  sd_decision row = decision_of input ∧ consistent (sd_decision row)
  ∧ (∀ old, old ∈ store → sd_id old < sd_id row)
  ∧ ∀ s, s ∈ texts (sd_decision row) → contains_secret_shaped s = false ∧ len s ≤ 4096.

(** Recording a decision, with any audit store that keeps the interface and
    whatever the database answers: on success exactly one row is appended, it
    is the offered record unchanged, under an id above every earlier one, it
    says a task or a reason but not both, and none of its texts is
    secret-shaped or longer than the bound; and exactly one event with its id is
    appended to the audit log.  A refused record or a failed insert changes
    neither store; a failed event leaves the row and says so. *)
Theorem decision_recorded_once input chain store db ts (audit : S) :
  store_ok audit →
  let '(store', audit', res) := record_decision input chain store db ts audit in
  store_ok audit' ∧ match res with
  | Ok row => store' = store ++ [row] ∧ written input store row
      ∧ ∃ x, log audit' = log audit ++ [x] ∧ payload (envelope x) = decision_payload row chain
          ∧ category (envelope x) = ToolRequest ∧ correlation_id (envelope x) = dl_correlation_id chain
  | Err (DecisionEventStore _) => (∃ row, store' = store ++ [row] ∧ written input store row) ∧ log audit' = log audit
  | Err _ => store' = store ∧ audit' = audit
  end.
Proof.
  intros Hs. unfold record_decision. destruct (validate_decision input) as [d|e] eqn:Ev.
  2:{ split; [done|]. pose proof (validation_refuses input) as Hr. rw Ev in Hr. by destruct e. }
  destruct (validate_decision_ok input d Ev) as (Hd & Hc & Ht).
  destruct (record_spec store d db) as [(now & -> & Er)|(e & Er & _)]; cbv zeta in Er; rw Er; [|done].
  set (row := MkStored _ now d). assert (written input store row) as Hw.
  { split; [done|]. split; [done|]. split; [|done]. intros old Hold. apply next_rowid_fresh. by apply list_elem_of_fmap_2. }
  pose proof (record_event_spec row chain ts audit Hs) as He.
  destruct (record_decision_event row chain ts audit) as [audit' [[]|e]]; destruct He as [Hok He]; (split; [done|]); cbn [result_bind].
  - by split.
  - destruct He as [Hl [reason ->]]. split; [by exists row|done].
Qed.
End recorded.

(** ** Examples *)

Definition example_input : DecisionRecordInput :=
  MkRecInput RecNoOp (Some RecEmptyQueue) None (lit "implement") (lit "p") (lit "m") (lit "default") None [] (lit "nothing to do") [] [] [].

Lemma decision_recorded_once_witness :
  let '(store', audit', res) :=
    record_decision example_input (MkChain (MkOperationId (lit "op-1")) None [lit "user:ann"]) [] (Ok (lit "now")) (lit "now") (MkStore []) in
  is_Ok res ∧ length store' = 1%nat ∧ length (records audit') = 1%nat.
Proof.
  pose proof (decision_recorded_once example_input (MkChain (MkOperationId (lit "op-1")) None [lit "user:ann"]) [] (Ok (lit "now"))
    (lit "now") (MkStore [])) as Hr. specialize (Hr eq_refl).
  destruct (record_decision _ _ _ _ _ _) as [[store' audit'] res] eqn:E.
  assert (is_Ok (store', audit', res).2) as Hok by (rw -E; vm_compute; eexists; reflexivity). clear E. cbn [snd] in Hok.
  split; [exact Hok|]. destruct Hr as [_ Hr]. destruct Hok as [row ->]. destruct Hr as (-> & _ & x & Hl & _). cbn in Hl. by rw Hl.
Defined.
