(* ===== verification/Config.v ===== *)
(** * Layered configuration

    [crates/orchestraitor-core/src/config]: the schema ([schema.rs]), the key
    report of a TOML document ([parse.rs]) and the layered resolver
    ([resolver.rs]).  A [BTreeMap<String, T>] is a [gmap rstr T]; every block is a
    record of options.  The TOML library is the parameter [Toml]. *)

From S2P Require Import Prelude BTree Text Substring Board.

(** ** Schema *)

Record ObservabilityConfig := MkObservability { record_payloads : bool }.

Record WatchIntakeConfig := MkWatchIntake { wi_enabled : option bool }.

Record WatchIngressConfig := MkWatchIngress { wg_enabled : option bool; wg_queue_capacity : option N }.

Record WatchKickoffConfig := MkWatchKickoff {
  wk_new_eligible_work : option bool;
  wk_unblocked_promotion : option bool;
  wk_slot_released : option bool;
  wk_budget_window_reset : option bool;
  wk_external_event : option bool;
}.

Record WatchConfigBlock := MkWatchBlock {
  wb_poll_interval_secs : option N;
  wb_kickoff : option WatchKickoffConfig;
  wb_ingress : option WatchIngressConfig;
  wb_intake : option WatchIntakeConfig;
}.

Record LoopGuardrailsConfig := MkLoopGuardrails {
  lg_no_progress_turns : option N;
  lg_tool_repeat_count : option N;
  lg_tool_repeat_window : option N;
  lg_ci_poll_budget_secs : option N;
  lg_max_task_attempts : option N;
  lg_task_retry_backoff_secs : option N;
  lg_max_turns_per_attempt : option N;
}.

Record RoutingDecisionProviderConfig := MkRoutingDecision {
  rd_provider : option rstr;
  rd_base_url : option rstr;
  rd_model : option rstr;
  rd_api_key : option rstr;
}.

Inductive ServiceIdentityEnforcement := Recommended | Required.

Record GitHubAppConfig := MkGitHubApp {
  ga_enforcement : option ServiceIdentityEnforcement;
  ga_slug : option rstr;
  ga_client_id : option rstr;
  ga_installation_id : option N;
  ga_private_key_uri : option SecretUri;
}.

Record NormalizationConfig := MkNormalization {
  nc_format_on_write : option bool;
  nc_max_passes : option N;
  nc_safe_fix_classifications : option (list rstr);
}.

Record SimplifyConfig := MkSimplify {
  sc_enabled : option bool;
  sc_auto_apply_format : option bool;
  sc_auto_apply_safe_fixes : option bool;
  sc_max_passes : option N;
  sc_max_files : option N;
  sc_pedantic : option bool;
  sc_model_pass : option bool;
}.

Record ProviderConfig := MkProvider {
  pc_protocol : option rstr;
  pc_endpoint : option rstr;
  pc_models : option (list rstr);
  pc_env : option (list SecretUri);
  pc_api_key : option SecretUri;
}.

Record RoutingConfig := MkRouting {
  rc_provider : option rstr;
  rc_model : option rstr;
  rc_profile : option rstr;
}.

Record DomainConfig := MkDomain {
  dc_description : option rstr;
  dc_roles : option (list rstr);
  dc_routing : option RoutingConfig;
}.

Record AgentsConfig := MkAgents { ac_domains : option (gmap rstr DomainConfig) }.

Record RoleConfig := MkRole { ro_routing : option RoutingConfig }.

Record ToolBudgetConfig := MkToolBudget {
  tb_max_turns : option N;
  tb_wall_clock_secs : option N;
  tb_max_result_bytes : option N;
}.

Record ToolConfig := MkTool {
  tc_enabled : option bool;
  tc_kind : option rstr;
  tc_command : option (list rstr);
  tc_subagent_role : option rstr;
  tc_internal_tools : option (list rstr);
  tc_instructions : option rstr;
  tc_visible_to : option (list rstr);
  tc_budget : option ToolBudgetConfig;
  tc_effort : option rstr;
  tc_max_summary_bytes : option N;
  tc_structured_summary : option bool;
}.

Record SubscriptionConfig := MkSubscription { sb_provider : option rstr; sb_budget : option rstr }.

Record BudgetConfig := MkBudget { bc_token_cap : option N; bc_cost_cap : option N }.

Record ResourceLimitConfig := MkResourceLimit {
  rl_memory_bytes : option N;
  rl_cpu_ms : option N;
  rl_output_bytes : option N;
}.

Record RetryConfig := MkRetry { re_max_attempts : option N; re_backoff_ms : option N }.

Record DataGovernanceConfig := MkGovernance { dg_retention : option rstr; dg_provenance : option rstr }.

Record DataClassificationConfig := MkClassification { dk_label : option rstr; dk_exportable : option bool }.

Record OrchestraitorConfig := MkConfig {
  oc_normalization : option NormalizationConfig;
  oc_simplify : option SimplifyConfig;
  oc_providers : option (gmap rstr ProviderConfig);
  oc_agents : option AgentsConfig;
  oc_roles : option (gmap rstr RoleConfig);
  oc_tools : option (gmap rstr ToolConfig);
  oc_subscriptions : option (gmap rstr SubscriptionConfig);
  oc_budgets : option (gmap rstr BudgetConfig);
  oc_resource_limits : option (gmap rstr ResourceLimitConfig);
  oc_retry : option RetryConfig;
  oc_data_governance : option (gmap rstr DataGovernanceConfig);
  oc_data_classification : option (gmap rstr DataClassificationConfig);
  oc_github_app : option GitHubAppConfig;
  oc_routing : option RoutingDecisionProviderConfig;
  oc_service_identities : option (list rstr);
  oc_loop : option LoopGuardrailsConfig;
  oc_watch : option WatchConfigBlock;
  oc_observability : option ObservabilityConfig;
}.

Definition OrchestraitorConfig_default : OrchestraitorConfig :=
  MkConfig None None None None None None None None None None None None None None None None None None.

Inductive ConfigLayer :=
| BuiltInDefaults | PluginDefaults | GlobalUser | OrganizationTeam
| LayerProject | DirectoryDomain | TaskAgent | CliFlag.

(** The derived order of the enum. *)
Definition layer_rank (l : ConfigLayer) : N :=
  match l with
  | BuiltInDefaults => 0 | PluginDefaults => 1 | GlobalUser => 2 | OrganizationTeam => 3
  | LayerProject => 4 | DirectoryDomain => 5 | TaskAgent => 6 | CliFlag => 7
  end.

#[export] Instance ConfigLayer_eq_dec : EqDecision ConfigLayer.
Proof. solve_decision. Defined.

Definition layer_of_rank (n : N) : option ConfigLayer :=
  match n with
  | 0 => Some BuiltInDefaults | 1 => Some PluginDefaults | 2 => Some GlobalUser | 3 => Some OrganizationTeam
  | 4 => Some LayerProject | 5 => Some DirectoryDomain | 6 => Some TaskAgent | 7 => Some CliFlag | _ => None
  end.

#[export] Instance ConfigLayer_countable : Countable ConfigLayer.
Proof. refine (inj_countable layer_rank layer_of_rank _). abstract (by intros []). Defined.

#[export] Instance ConfigLayer_ord_key : OrdKey ConfigLayer.
Proof. refine (ord_key_inj layer_rank _). abstract (intros [] []; by intros). Defined.

Record ConfigSource := MkSource { cs_layer : ConfigLayer; cs_name : rstr }.

Record ResolvedValue (T : Type) := MkResolved { rv_value : T; rv_source : ConfigSource; rv_inherited : bool }.
#[global] Arguments MkResolved {T}.
#[global] Arguments rv_value {T}.
#[global] Arguments rv_source {T}.
#[global] Arguments rv_inherited {T}.

(** ** Merging: a later layer over an earlier one *)

Definition merge_scalar {T} (current next : option T) : option T :=
  match next with Some value => Some value | None => current end.

Definition merge_option {T} (merge : T → T → T) (current next : option T) : option T :=
  match current, next with
  | Some current_value, Some next_value => Some (merge current_value next_value)
  | None, Some next_value => Some next_value
  | _, None => current
  end.

Definition merge_entry {T} (merge : T → T → T) (current_map : gmap rstr T) (entry : rstr * T) : gmap rstr T :=
  match current_map !! entry.1 with
  | Some current_value => <[entry.1 := merge current_value entry.2]> current_map
  | None => <[entry.1 := entry.2]> current_map
  end.

Definition merge_map {T} (merge : T → T → T) (current next : option (gmap rstr T)) : option (gmap rstr T) :=
  match next with
  | None => current
  | Some next_map => Some (foldl (merge_entry merge) (default ∅ current) (bt_iter next_map))
  end.

Definition WatchKickoffConfig_merge (a b : WatchKickoffConfig) : WatchKickoffConfig :=
  MkWatchKickoff (merge_scalar (wk_new_eligible_work a) (wk_new_eligible_work b))
    (merge_scalar (wk_unblocked_promotion a) (wk_unblocked_promotion b))
    (merge_scalar (wk_slot_released a) (wk_slot_released b))
    (merge_scalar (wk_budget_window_reset a) (wk_budget_window_reset b))
    (merge_scalar (wk_external_event a) (wk_external_event b)).

(** The merge names neither [ingress] nor [intake]. *)
Definition WatchConfigBlock_merge (a b : WatchConfigBlock) : WatchConfigBlock :=
  MkWatchBlock (merge_scalar (wb_poll_interval_secs a) (wb_poll_interval_secs b))
    (merge_option WatchKickoffConfig_merge (wb_kickoff a) (wb_kickoff b))
    (wb_ingress a) (wb_intake a).

Definition RoutingDecisionProviderConfig_merge (a b : RoutingDecisionProviderConfig) : RoutingDecisionProviderConfig :=
  MkRoutingDecision (merge_scalar (rd_provider a) (rd_provider b)) (merge_scalar (rd_base_url a) (rd_base_url b))
    (merge_scalar (rd_model a) (rd_model b)) (merge_scalar (rd_api_key a) (rd_api_key b)).

Definition GitHubAppConfig_merge (a b : GitHubAppConfig) : GitHubAppConfig :=
  MkGitHubApp (merge_scalar (ga_enforcement a) (ga_enforcement b)) (merge_scalar (ga_slug a) (ga_slug b))
    (merge_scalar (ga_client_id a) (ga_client_id b)) (merge_scalar (ga_installation_id a) (ga_installation_id b))
    (merge_scalar (ga_private_key_uri a) (ga_private_key_uri b)).

Definition NormalizationConfig_merge (a b : NormalizationConfig) : NormalizationConfig :=
  MkNormalization (merge_scalar (nc_format_on_write a) (nc_format_on_write b))
    (merge_scalar (nc_max_passes a) (nc_max_passes b))
    (merge_scalar (nc_safe_fix_classifications a) (nc_safe_fix_classifications b)).

Definition SimplifyConfig_merge (a b : SimplifyConfig) : SimplifyConfig :=
  MkSimplify (merge_scalar (sc_enabled a) (sc_enabled b))
    (merge_scalar (sc_auto_apply_format a) (sc_auto_apply_format b))
    (merge_scalar (sc_auto_apply_safe_fixes a) (sc_auto_apply_safe_fixes b))
    (merge_scalar (sc_max_passes a) (sc_max_passes b)) (merge_scalar (sc_max_files a) (sc_max_files b))
    (merge_scalar (sc_pedantic a) (sc_pedantic b)) (merge_scalar (sc_model_pass a) (sc_model_pass b)).

Definition RoutingConfig_merge (a b : RoutingConfig) : RoutingConfig :=
  MkRouting (merge_scalar (rc_provider a) (rc_provider b)) (merge_scalar (rc_model a) (rc_model b))
    (merge_scalar (rc_profile a) (rc_profile b)).

Definition DomainConfig_merge (a b : DomainConfig) : DomainConfig :=
  MkDomain (merge_scalar (dc_description a) (dc_description b)) (merge_scalar (dc_roles a) (dc_roles b))
    (merge_option RoutingConfig_merge (dc_routing a) (dc_routing b)).

Definition AgentsConfig_merge (a b : AgentsConfig) : AgentsConfig :=
  MkAgents (merge_map DomainConfig_merge (ac_domains a) (ac_domains b)).

Definition ProviderConfig_merge (a b : ProviderConfig) : ProviderConfig :=
  MkProvider (merge_scalar (pc_protocol a) (pc_protocol b)) (merge_scalar (pc_endpoint a) (pc_endpoint b))
    (merge_scalar (pc_models a) (pc_models b)) (merge_scalar (pc_env a) (pc_env b))
    (merge_scalar (pc_api_key a) (pc_api_key b)).

Definition RoleConfig_merge (a b : RoleConfig) : RoleConfig :=
  MkRole (merge_option RoutingConfig_merge (ro_routing a) (ro_routing b)).

Definition ToolBudgetConfig_merge (a b : ToolBudgetConfig) : ToolBudgetConfig :=
  MkToolBudget (merge_scalar (tb_max_turns a) (tb_max_turns b))
    (merge_scalar (tb_wall_clock_secs a) (tb_wall_clock_secs b))
    (merge_scalar (tb_max_result_bytes a) (tb_max_result_bytes b)).

(** The merge does not name [enabled]. *)
Definition ToolConfig_merge (a b : ToolConfig) : ToolConfig :=
  MkTool (tc_enabled a) (merge_scalar (tc_kind a) (tc_kind b)) (merge_scalar (tc_command a) (tc_command b))
    (merge_scalar (tc_subagent_role a) (tc_subagent_role b))
    (merge_scalar (tc_internal_tools a) (tc_internal_tools b))
    (merge_scalar (tc_instructions a) (tc_instructions b))
    (merge_scalar (tc_visible_to a) (tc_visible_to b))
    (merge_option ToolBudgetConfig_merge (tc_budget a) (tc_budget b))
    (merge_scalar (tc_effort a) (tc_effort b))
    (merge_scalar (tc_max_summary_bytes a) (tc_max_summary_bytes b))
    (merge_scalar (tc_structured_summary a) (tc_structured_summary b)).

Definition SubscriptionConfig_merge (a b : SubscriptionConfig) : SubscriptionConfig :=
  MkSubscription (merge_scalar (sb_provider a) (sb_provider b)) (merge_scalar (sb_budget a) (sb_budget b)).

Definition BudgetConfig_merge (a b : BudgetConfig) : BudgetConfig :=
  MkBudget (merge_scalar (bc_token_cap a) (bc_token_cap b)) (merge_scalar (bc_cost_cap a) (bc_cost_cap b)).

Definition ResourceLimitConfig_merge (a b : ResourceLimitConfig) : ResourceLimitConfig :=
  MkResourceLimit (merge_scalar (rl_memory_bytes a) (rl_memory_bytes b)) (merge_scalar (rl_cpu_ms a) (rl_cpu_ms b))
    (merge_scalar (rl_output_bytes a) (rl_output_bytes b)).

Definition RetryConfig_merge (a b : RetryConfig) : RetryConfig :=
  MkRetry (merge_scalar (re_max_attempts a) (re_max_attempts b)) (merge_scalar (re_backoff_ms a) (re_backoff_ms b)).

Definition DataGovernanceConfig_merge (a b : DataGovernanceConfig) : DataGovernanceConfig :=
  MkGovernance (merge_scalar (dg_retention a) (dg_retention b)) (merge_scalar (dg_provenance a) (dg_provenance b)).

Definition DataClassificationConfig_merge (a b : DataClassificationConfig) : DataClassificationConfig :=
  MkClassification (merge_scalar (dk_label a) (dk_label b)) (merge_scalar (dk_exportable a) (dk_exportable b)).

Definition LoopGuardrailsConfig_merge (a b : LoopGuardrailsConfig) : LoopGuardrailsConfig :=
  MkLoopGuardrails (merge_scalar (lg_no_progress_turns a) (lg_no_progress_turns b))
    (merge_scalar (lg_tool_repeat_count a) (lg_tool_repeat_count b))
    (merge_scalar (lg_tool_repeat_window a) (lg_tool_repeat_window b))
    (merge_scalar (lg_ci_poll_budget_secs a) (lg_ci_poll_budget_secs b))
    (merge_scalar (lg_max_task_attempts a) (lg_max_task_attempts b))
    (merge_scalar (lg_task_retry_backoff_secs a) (lg_task_retry_backoff_secs b))
    (merge_scalar (lg_max_turns_per_attempt a) (lg_max_turns_per_attempt b)).

(** The merge does not name [observability]. *)
Definition OrchestraitorConfig_merge (a b : OrchestraitorConfig) : OrchestraitorConfig :=
  MkConfig
    (merge_option NormalizationConfig_merge (oc_normalization a) (oc_normalization b))
    (merge_option SimplifyConfig_merge (oc_simplify a) (oc_simplify b))
    (merge_map ProviderConfig_merge (oc_providers a) (oc_providers b))
    (merge_option AgentsConfig_merge (oc_agents a) (oc_agents b))
    (merge_map RoleConfig_merge (oc_roles a) (oc_roles b))
    (merge_map ToolConfig_merge (oc_tools a) (oc_tools b))
    (merge_map SubscriptionConfig_merge (oc_subscriptions a) (oc_subscriptions b))
    (merge_map BudgetConfig_merge (oc_budgets a) (oc_budgets b))
    (merge_map ResourceLimitConfig_merge (oc_resource_limits a) (oc_resource_limits b))
    (merge_option RetryConfig_merge (oc_retry a) (oc_retry b))
    (merge_map DataGovernanceConfig_merge (oc_data_governance a) (oc_data_governance b))
    (merge_map DataClassificationConfig_merge (oc_data_classification a) (oc_data_classification b))
    (merge_option GitHubAppConfig_merge (oc_github_app a) (oc_github_app b))
    (merge_option RoutingDecisionProviderConfig_merge (oc_routing a) (oc_routing b))
    (merge_scalar (oc_service_identities a) (oc_service_identities b))
    (merge_option LoopGuardrailsConfig_merge (oc_loop a) (oc_loop b))
    (merge_option WatchConfigBlock_merge (oc_watch a) (oc_watch b))
    (oc_observability a).

(** ** Keys of a TOML document *)

(** A [toml_edit::Item] as the key walk sees it: a table (or inline table) with
    its entries in document order, or anything else. *)
Inductive Item := ITable (entries : list (rstr * Item)) | IOther.

Definition is_table_like (i : Item) : bool := match i with ITable _ => true | IOther => false end.

Definition child_path (prefix : option rstr) (key : rstr) : rstr :=
  match prefix with Some prefix => prefix ++ lit "." ++ key | None => key end.

Fixpoint collect_item_keys (prefix : option rstr) (item : Item) (keys : gset rstr) : gset rstr :=
  match item with
  | IOther => keys
  | ITable entries =>
      (fix go (entries : list (rstr * Item)) (keys : gset rstr) : gset rstr :=
         match entries with
         | [] => keys
         | (key, value) :: entries =>
             let path := child_path prefix key in
             go entries (if is_table_like value then collect_item_keys (Some path) value keys else {[path]} ∪ keys)
         end) entries keys
  end.

Definition collect_keys (document : Item) : gset rstr := collect_item_keys None document ∅.

Definition rsplit_once (c : N) (s : rstr) : option (rstr * rstr) :=
  match split_once c (reverse s) with Some (a, b) => Some (reverse b, reverse a) | None => None end.

Definition one_of (l : list string) (s : rstr) : bool := bool_decide (s ∈ (lit <$> l)).

Definition matches_dynamic_key (key prefix : rstr) (fields : list string) : bool :=
  match strip_prefix prefix key ≫= strip_prefix (lit ".") with
  | None => false
  | Some rest => match rsplit_once 46 rest with Some (_, field) => one_of fields field | None => false end
  end.

Definition matches_agent_domain_routing_key (key : rstr) : bool :=
  match strip_prefix (lit "agents.domains.") key with
  | None => false
  | Some rest =>
      match split 46 rest with
      | [_; routing; field] =>
          bool_decide (routing = lit "routing") && one_of ["provider"; "model"; "profile"]%string field
      | _ => false
      end
  end.

Definition matches_role_routing_key (key : rstr) : bool :=
  match strip_prefix (lit "roles.") key with
  | None => false
  | Some rest =>
      match split 46 rest with
      | [_; routing; field] =>
          bool_decide (routing = lit "routing") && one_of ["provider"; "model"; "profile"]%string field
      | _ => false
      end
  end.

Definition matches_tool_key (key : rstr) : bool :=
  match strip_prefix (lit "tools.") key with
  | None => false
  | Some rest =>
      match split 46 rest with
      | [_] => true
      | [_; field] =>
          one_of ["enabled"; "kind"; "command"; "subagent_role"; "internal_tools"; "instructions"; "visible_to";
                  "effort"; "max_summary_bytes"; "structured_summary"]%string field
      | [_; budget; field] =>
          bool_decide (budget = lit "budget") && one_of ["max_turns"; "wall_clock_secs"; "max_result_bytes"]%string field
      | _ => false
      end
  end.

Definition is_known_key (key : rstr) : bool :=
  one_of ["normalization.format_on_write"; "normalization.max_passes"; "normalization.safe_fix_classifications"]%string key
  || one_of ["simplify.enabled"; "simplify.auto_apply_format"; "simplify.auto_apply_safe_fixes"; "simplify.max_passes";
             "simplify.max_files"; "simplify.pedantic"; "simplify.model_pass"]%string key
  || one_of ["retry.max_attempts"; "retry.backoff_ms"]%string key
  || matches_dynamic_key key (lit "providers") ["protocol"; "endpoint"; "models"; "env"; "api_key"]%string
  || matches_agent_domain_routing_key key
  || matches_role_routing_key key
  || matches_tool_key key
  || matches_dynamic_key key (lit "agents.domains") ["description"; "roles"]%string
  || matches_dynamic_key key (lit "subscriptions") ["provider"; "budget"]%string
  || matches_dynamic_key key (lit "budgets") ["token_cap"; "cost_cap"]%string
  || matches_dynamic_key key (lit "resource_limits") ["memory_bytes"; "cpu_ms"; "output_bytes"]%string
  || matches_dynamic_key key (lit "data_governance") ["retention"; "provenance"]%string
  || matches_dynamic_key key (lit "data_classification") ["label"; "exportable"]%string
  || one_of ["github_app.slug"; "github_app.enforcement"; "github_app.client_id"; "github_app.installation_id";
             "github_app.private_key_uri"]%string key
  || one_of ["routing.provider"; "routing.base_url"; "routing.model"; "routing.api_key"]%string key
  || one_of ["service_identities"]%string key
  || one_of ["observability.record_payloads"]%string key
  || one_of ["loop.no_progress_turns"; "loop.tool_repeat_count"; "loop.tool_repeat_window"; "loop.ci_poll_budget_secs";
             "loop.max_task_attempts"; "loop.task_retry_backoff_secs"; "loop.max_turns_per_attempt"]%string key
  || one_of ["watch.poll_interval_secs"]%string key
  || one_of ["watch.kickoff.new_eligible_work"; "watch.kickoff.unblocked_promotion"; "watch.kickoff.slot_released";
             "watch.kickoff.budget_window_reset"; "watch.kickoff.external_event"]%string key
  || one_of ["watch.ingress.enabled"; "watch.ingress.queue_capacity"]%string key
  || one_of ["watch.intake.enabled"]%string key.

Definition unknown_keys (document : Item) : list rstr :=
  List.filter (λ key, negb (is_known_key key)) (bs_iter (collect_keys document)).

(** ** Parsing *)

Inductive ConfigError :=
| ErrToml
| ErrTomlEdit
| AmbiguousConflict (key : rstr) (sources : list rstr).

(** [toml_edit]'s parser and the typed reader and writer of [toml]. *)
Class Toml := {
  parse_document : rstr → option Item;
  from_str : rstr → option OrchestraitorConfig;
  to_string : OrchestraitorConfig → option rstr;
}.

Record ConfigParseReport := MkReport {
  rp_config : OrchestraitorConfig;
  rp_unknown_keys : list rstr;
  rp_keys : gset rstr;
}.

Definition parse_toml_config `{Toml} (toml : rstr) : result ConfigParseReport ConfigError :=
  let? document := ok_or (parse_document toml) ErrTomlEdit in
  let? config := ok_or (from_str toml) ErrToml in
  Ok (MkReport config (unknown_keys document) (collect_keys document)).

Definition flatten_config `{Toml} (config : OrchestraitorConfig) : gset rstr :=
  match to_string config with
  | None => ∅
  | Some toml => match parse_document toml with None => ∅ | Some document => collect_keys document end
  end.

(** ** The resolver *)

Record ConfigInput := MkInput { ci_source : ConfigSource; ci_config : OrchestraitorConfig; ci_keys : gset rstr }.

Record ConfigResolver := MkResolver { cr_inputs : list ConfigInput }.

Definition ConfigResolver_new : ConfigResolver := MkResolver [].

Definition with_toml `{Toml} (self : ConfigResolver) (source : ConfigSource) (toml : rstr)
  : result ConfigResolver ConfigError :=
  let? report := parse_toml_config toml in
  Ok (MkResolver (cr_inputs self ++ [MkInput source (rp_config report) (rp_keys report)])).

Definition with_config `{Toml} (self : ConfigResolver) (source : ConfigSource) (config : OrchestraitorConfig)
  : ConfigResolver :=
  MkResolver (cr_inputs self ++ [MkInput source config (flatten_config config)]).

Definition input_layer (i : ConfigInput) : ConfigLayer := cs_layer (ci_source i).

Definition sort_by_layer (inputs : list ConfigInput) : list ConfigInput := stable_sort (by_key input_layer) inputs.

Definition group_by_layer (inputs : list ConfigInput) : gmap ConfigLayer (list ConfigInput) :=
  foldl (λ m i, entry_or m (input_layer i) [] (λ l, l ++ [i])) ∅ inputs.

Definition reject_ambiguous_conflicts (key : rstr) (inputs : list ConfigInput) : result unit ConfigError :=
  try_for_each (λ layer_inputs : list ConfigInput,
      if 1 <? len layer_inputs
      then Err (AmbiguousConflict key ((λ i, cs_name (ci_source i)) <$> layer_inputs))
      else Ok tt)
    (bt_values (group_by_layer (List.filter (λ i, bool_decide (key ∈ ci_keys i)) inputs))).

Definition reject_all_ambiguous_conflicts (inputs : list ConfigInput) : result unit ConfigError :=
  try_for_each (λ key, reject_ambiguous_conflicts key inputs) (bs_iter (⋃ (ci_keys <$> inputs))).

Definition resolve_value {T} (self : ConfigResolver) (key : rstr) (extract : OrchestraitorConfig → option T)
  : result (option (ResolvedValue T)) ConfigError :=
  let sorted := sort_by_layer (cr_inputs self) in
  let? _ := reject_ambiguous_conflicts key sorted in
  Ok (foldl (λ resolved i,
        match extract (ci_config i) with
        | Some value => Some (MkResolved value (ci_source i) false)
        | None => resolved
        end) None sorted).

Definition resolve_config (self : ConfigResolver) : result OrchestraitorConfig ConfigError :=
  let? _ := reject_all_ambiguous_conflicts (cr_inputs self) in
  Ok (foldl (λ merged i, OrchestraitorConfig_merge merged (ci_config i)) OrchestraitorConfig_default
        (sort_by_layer (cr_inputs self))).

Definition carries_entry (map key : rstr) (config : OrchestraitorConfig) : bool :=
  if bool_decide (map = lit "tools") then
    match oc_tools config with Some tools => bool_decide (is_Some (tools !! key)) | None => false end
  else if bool_decide (map = lit "roles") then
    match oc_roles config with Some roles => bool_decide (is_Some (roles !! key)) | None => false end
  else false.

Definition supplying_layer_for_entry (self : ConfigResolver) (map key : rstr) : option ConfigSource :=
  ci_source <$> List.find (λ i, carries_entry map key (ci_config i)) (reverse (sort_by_layer (cr_inputs self))).
