(* ===== verification/ConfigSafe.v ===== *)
(** * Layered configuration: precedence, conflicts, provenance

    A configuration is read through its leaves: [config_leaf] is the value at a
    path of the schema.  The theorems say which layer each leaf of the merged
    configuration comes from, that the resolver rejects what it cannot order, and
    which keys the merge loses. *)

From S2P Require Import Prelude BTree Text Substring Board Config.

(** ** The leaf view *)

Inductive Val :=
| VBool (b : bool) | VNum (n : N) | VStr (s : rstr) | VStrs (l : list rstr)
| VSecret (u : SecretUri) | VSecrets (l : list SecretUri) | VEnforcement (e : ServiceIdentityEnforcement).

#[export] Instance ServiceIdentityEnforcement_eq_dec : EqDecision ServiceIdentityEnforcement.
Proof. solve_decision. Defined.
#[export] Instance Val_eq_dec : EqDecision Val.
Proof. solve_decision. Defined.

(** A reader of the leaves of [R], by the segments of the path below it. *)
Definition Leaf (R : Type) : Type := list rstr → R → option Val.

Definition scalar {R T} (inj : T → Val) (get : R → option T) : Leaf R :=
  λ p r, match p with [] => inj <$> get r | _ :: _ => None end.

Definition block {R B} (get : R → option B) (l : Leaf B) : Leaf R := λ p r, get r ≫= l p.

Definition entries {R B} (get : R → option (gmap rstr B)) (l : Leaf B) : Leaf R :=
  λ p r, match p with [] => None | k :: p => (get r ≫= (λ m : gmap rstr B, m !! k)) ≫= l p end.

Fixpoint field {R} (t : list (string * Leaf R)) (f : rstr) (p : list rstr) (r : R) : option Val :=
  match t with
  | [] => None
  | (name, l) :: t => if bool_decide (f = lit name) then l p r else field t f p r
  end.

Definition fields {R} (t : list (string * Leaf R)) : Leaf R :=
  λ p r, match p with [] => None | f :: p => field t f p r end.

Abbreviation bool_at := (scalar VBool).
Abbreviation num_at := (scalar VNum).
Abbreviation str_at := (scalar VStr).
Abbreviation strs_at := (scalar VStrs).

Definition routing_leaf : Leaf RoutingConfig :=
  fields [("provider", str_at rc_provider); ("model", str_at rc_model); ("profile", str_at rc_profile)]%string.

Definition tool_leaf : Leaf ToolConfig :=
  fields [("enabled", bool_at tc_enabled); ("kind", str_at tc_kind); ("command", strs_at tc_command);
    ("subagent_role", str_at tc_subagent_role); ("internal_tools", strs_at tc_internal_tools);
    ("instructions", str_at tc_instructions); ("visible_to", strs_at tc_visible_to);
    ("budget", block tc_budget (fields [("max_turns", num_at tb_max_turns);
      ("wall_clock_secs", num_at tb_wall_clock_secs); ("max_result_bytes", num_at tb_max_result_bytes)]));
    ("effort", str_at tc_effort); ("max_summary_bytes", num_at tc_max_summary_bytes);
    ("structured_summary", bool_at tc_structured_summary)]%string.

Definition watch_leaf : Leaf WatchConfigBlock :=
  fields [("poll_interval_secs", num_at wb_poll_interval_secs);
    ("kickoff", block wb_kickoff (fields [("new_eligible_work", bool_at wk_new_eligible_work);
      ("unblocked_promotion", bool_at wk_unblocked_promotion); ("slot_released", bool_at wk_slot_released);
      ("budget_window_reset", bool_at wk_budget_window_reset); ("external_event", bool_at wk_external_event)]));
    ("ingress", block wb_ingress (fields [("enabled", bool_at wg_enabled); ("queue_capacity", num_at wg_queue_capacity)]));
    ("intake", block wb_intake (fields [("enabled", bool_at wi_enabled)]))]%string.

Definition config_leaf : Leaf OrchestraitorConfig :=
  fields [
    ("normalization", block oc_normalization (fields [("format_on_write", bool_at nc_format_on_write);
      ("max_passes", num_at nc_max_passes); ("safe_fix_classifications", strs_at nc_safe_fix_classifications)]));
    ("simplify", block oc_simplify (fields [("enabled", bool_at sc_enabled);
      ("auto_apply_format", bool_at sc_auto_apply_format); ("auto_apply_safe_fixes", bool_at sc_auto_apply_safe_fixes);
      ("max_passes", num_at sc_max_passes); ("max_files", num_at sc_max_files); ("pedantic", bool_at sc_pedantic);
      ("model_pass", bool_at sc_model_pass)]));
    ("providers", entries oc_providers (fields [("protocol", str_at pc_protocol); ("endpoint", str_at pc_endpoint);
      ("models", strs_at pc_models); ("env", scalar VSecrets pc_env); ("api_key", scalar VSecret pc_api_key)]));
    ("agents", block oc_agents (fields [("domains", entries ac_domains (fields [
      ("description", str_at dc_description); ("roles", strs_at dc_roles); ("routing", block dc_routing routing_leaf)]))]));
    ("roles", entries oc_roles (fields [("routing", block ro_routing routing_leaf)]));
    ("tools", entries oc_tools tool_leaf);
    ("subscriptions", entries oc_subscriptions (fields [("provider", str_at sb_provider); ("budget", str_at sb_budget)]));
    ("budgets", entries oc_budgets (fields [("token_cap", num_at bc_token_cap); ("cost_cap", num_at bc_cost_cap)]));
    ("resource_limits", entries oc_resource_limits (fields [("memory_bytes", num_at rl_memory_bytes);
      ("cpu_ms", num_at rl_cpu_ms); ("output_bytes", num_at rl_output_bytes)]));
    ("retry", block oc_retry (fields [("max_attempts", num_at re_max_attempts); ("backoff_ms", num_at re_backoff_ms)]));
    ("data_governance", entries oc_data_governance (fields [("retention", str_at dg_retention);
      ("provenance", str_at dg_provenance)]));
    ("data_classification", entries oc_data_classification (fields [("label", str_at dk_label);
      ("exportable", bool_at dk_exportable)]));
    ("github_app", block oc_github_app (fields [("enforcement", scalar VEnforcement ga_enforcement);
      ("slug", str_at ga_slug); ("client_id", str_at ga_client_id); ("installation_id", num_at ga_installation_id);
      ("private_key_uri", scalar VSecret ga_private_key_uri)]));
    ("routing", block oc_routing (fields [("provider", str_at rd_provider); ("base_url", str_at rd_base_url);
      ("model", str_at rd_model); ("api_key", str_at rd_api_key)]));
    ("service_identities", strs_at oc_service_identities);
    ("loop", block oc_loop (fields [("no_progress_turns", num_at lg_no_progress_turns);
      ("tool_repeat_count", num_at lg_tool_repeat_count); ("tool_repeat_window", num_at lg_tool_repeat_window);
      ("ci_poll_budget_secs", num_at lg_ci_poll_budget_secs); ("max_task_attempts", num_at lg_max_task_attempts);
      ("task_retry_backoff_secs", num_at lg_task_retry_backoff_secs);
      ("max_turns_per_attempt", num_at lg_max_turns_per_attempt)]));
    ("watch", block oc_watch watch_leaf);
    ("observability", block oc_observability (fields [("record_payloads", bool_at (Some ∘ record_payloads))]))]%string.

(** The keys the merge does not carry: [watch.ingress.*], [watch.intake.*],
    [observability.*] and [tools.<id>.enabled]. *)
Definition lost (p : list rstr) : bool :=
  match p with
  | [s; _] => bool_decide (s = lit "observability")
  | [s; b; f] =>
      (bool_decide (s = lit "watch") && (bool_decide (b = lit "ingress") || bool_decide (b = lit "intake")))
      || (bool_decide (s = lit "tools") && bool_decide (f = lit "enabled"))
  | _ => false
  end.

(** The dotted key of a path. *)
Fixpoint join_dots (p : list rstr) : rstr :=
  match p with [] => [] | [s] => s | s :: p => s ++ lit "." ++ join_dots p end.

(** ** The later value wins *)

Definition last_wins {R} (P : list rstr → Prop) (merge : R → R → R) (l : Leaf R) : Prop :=
  ∀ p a b, P p → l p (merge a b) = merge_scalar (l p a) (l p b).

Lemma foldl_merge_lookup {T} (merge : T → T → T) (l : list (rstr * T)) (m : gmap rstr T) k :
  NoDup l.*1 →
  foldl (merge_entry merge) m l !! k =
    match (list_to_map l : gmap rstr T) !! k with
    | Some v => Some (match m !! k with Some c => merge c v | None => v end)
    | None => m !! k
    end.
Proof.
  revert m. induction l as [|[j v] l IH]; intros m Hn; cbn; [done|].
  apply NoDup_cons in Hn as [Hj Hn]. rw IH; [|done]. unfold merge_entry. cbn.
  destruct (decide (j = k)) as [->|Hne].
  - rw lookup_insert_eq (proj1 (not_elem_of_list_to_map l k) Hj). by destruct (m !! k); rw lookup_insert_eq.
  - rw lookup_insert_ne; [|done]. by destruct (m !! j); rw lookup_insert_ne.
Qed.

Lemma merge_map_lookup {T} (merge : T → T → T) (a b : option (gmap rstr T)) k :
  (merge_map merge a b ≫= (λ m, m !! k)) =
    merge_option merge (a ≫= (λ m, m !! k)) (b ≫= (λ m, m !! k)).
Proof.
  destruct b as [b|]; cbn; [|by destruct (a ≫= _)].
  rw foldl_merge_lookup; [|apply bt_keys_NoDup].
  assert ((list_to_map (bt_iter b) : gmap rstr T) = b) as ->.
  { apply map_eq. intros j. apply option_eq. intros v.
    rw -elem_of_list_to_map; [by apply elem_of_bt_iter|apply bt_keys_NoDup]. }
  destruct a as [a|]; cbn; [|rw lookup_empty; by destruct (b !! k)].
  by destruct (b !! k), (a !! k).
Qed.

Section last_wins.
Context {R : Type} (P : list rstr → Prop) (m : R → R → R).

Lemma lw_scalar {T} (inj : T → Val) get :
  (∀ a b, get (m a b) = merge_scalar (get a) (get b)) → last_wins P m (scalar inj get).
Proof. intros E [|s p] a b _; cbn; [|done]. rw E. by destruct (get b). Qed.

Lemma lw_block {B} (get : R → option B) mb l :
  (∀ a b, get (m a b) = merge_option mb (get a) (get b)) → last_wins P mb l → last_wins P m (block get l).
Proof.
  intros E Hl p a b Hp. unfold block. rw E.
  destruct (get a) as [x|], (get b) as [y|]; cbn; [by apply Hl|done|by destruct (l p y)|done].
Qed.

Lemma lw_entries {B} (get : R → option (gmap rstr B)) mb l :
  (∀ a b, get (m a b) = merge_map mb (get a) (get b)) →
  (∀ k, last_wins (λ p, P (k :: p)) mb l) → last_wins P m (entries get l).
Proof.
  intros E Hl [|k p] a b Hp; cbn; [done|]. rw E merge_map_lookup.
  destruct (get a ≫= _) as [x|], (get b ≫= _) as [y|]; cbn; [by apply (Hl k)|done|by destruct (l p y)|done].
Qed.

Lemma lw_fields t :
  Forall (λ '(name, l), last_wins (λ p, P (lit name :: p)) m l) t → last_wins P m (fields t).
Proof.
  intros Ht [|f p] a b Hp; [done|]. cbn. induction Ht as [|[name l] t Hl Ht IH]; cbn; [done|].
  case_bool_decide as E; [subst; by apply Hl|done].
Qed.

Lemma lw_never l : (∀ p, ¬ P p) → last_wins P m l.
Proof. intros Hn p a b Hp. by destruct (Hn p). Qed.
End last_wins.

Lemma lw_absent {R} P (m : R → R → R) l : (∀ p r, P p → l p r = None) → last_wins P m l.
Proof. intros Hn p a b Hp. by rw !Hn. Qed.

(** Two levels below a lost prefix nothing is left to read. *)
Lemma absent_block {R B} P (get : R → option B) l :
  (∀ p b, P p → l p b = None) → ∀ p r, P p → block get l p r = None.
Proof. intros Hl p r Hp. unfold block. destruct (get r); cbn; [by apply Hl|done]. Qed.

Lemma absent_fields {R} P (t : list (string * Leaf R)) :
  Forall (λ '(_, l), ∀ s p r, l (s :: p) r = None) t → (∀ f, ¬ P [f]) → ∀ p r, P p → fields t p r = None.
Proof.
  intros Ht Hs [|f [|g q]] r Hp; [done|by destruct (Hs f)|].
  induction Ht as [|[name l] t Hl _ IH]; cbn; [done|]. case_bool_decide; [by apply Hl|done].
Qed.

Ltac last_wins_leaf :=
  first [ apply lw_scalar; by intros [] []
        | eapply lw_block; [by intros [] []|]; unfold routing_leaf, tool_leaf, watch_leaf
        | eapply lw_entries; [by intros [] []|]; intros ?; unfold routing_leaf, tool_leaf, watch_leaf
        | apply lw_fields; repeat apply Forall_cons_2; try apply Forall_nil_2 ].

Ltac leaves_absent :=
  apply lw_absent; apply absent_block; apply absent_fields;
  [repeat constructor|intros f; vm_compute; discriminate].

(** Every key but the lost ones is overridden by a later layer that sets it. *)
Lemma merge_last_wins : last_wins (λ p, lost p = false) OrchestraitorConfig_merge config_leaf.
Proof.
  unfold config_leaf. apply lw_fields. repeat apply Forall_cons_2; try apply Forall_nil_2.
  all: repeat last_wins_leaf.
  all: try leaves_absent.
  apply lw_absent. intros [|? p] [] Hp; [by vm_compute in Hp|done].
Qed.

Lemma leaf_default p : config_leaf p OrchestraitorConfig_default = None.
Proof.
  destruct p as [|s p]; [done|]. unfold config_leaf. cbn [fields field].
  repeat (case_bool_decide; [by destruct p|]). done.
Qed.

(** ** Conflicts *)

Lemma group_by_layer_lookup inputs l :
  default [] (group_by_layer inputs !! l) = List.filter (λ i, bool_decide (input_layer i = l)) inputs.
Proof.
  unfold group_by_layer. induction inputs as [|i inputs IH] using rev_ind; [done|].
  rw foldl_app List.filter_app. cbn [foldl List.filter app]. rw lookup_entry_or. case_decide as E.
  - subst. rw bool_decide_eq_true_2; [|done]. cbn. by rw IH.
  - rw bool_decide_eq_false_2; [|done]. by rw app_nil_r IH.
Qed.

(** No two inputs of one layer set the key. *)
Definition unambiguous (key : rstr) (inputs : list ConfigInput) : Prop :=
  ∀ l, count (λ i, bool_decide (key ∈ ci_keys i) && bool_decide (input_layer i = l)) inputs ≤ 1.

Lemma reject_ok key inputs : reject_ambiguous_conflicts key inputs = Ok tt ↔ unambiguous key inputs.
Proof.
  unfold reject_ambiguous_conflicts, unambiguous, count. rw try_for_each_ok. set (g := group_by_layer _).
  assert (∀ l, default [] (g !! l)
    = List.filter (λ i, bool_decide (key ∈ ci_keys i) && bool_decide (input_layer i = l)) inputs) as Hg.
  { intros l. unfold g. by rw group_by_layer_lookup filter_filter. }
  assert (∀ x, x ∈ bt_values g ↔ ∃ l, g !! l = Some x) as Hv.
  { intros x. unfold bt_values. rw list_elem_of_fmap. split.
    - intros ([l y] & -> & ?%elem_of_bt_iter). by exists l.
    - intros [l ?%elem_of_bt_iter]. by exists (l, x). }
  split.
  - intros H l. rw -Hg. destruct (g !! l) as [x|] eqn:E; cbn; [|rw len_nil; lia].
    assert (x ∈ bt_values g) as Hx by (apply Hv; eauto). specialize (H _ Hx).
    destruct (1 <? len x) eqn:?; [done|]. apply N.ltb_ge. done.
  - intros H x [l E]%Hv. specialize (H l). rw -Hg E in H. cbn in H.
    destruct (1 <? len x) eqn:?; bool_simpl; [lia|done].
Qed.

Lemma unambiguous_perm key inputs inputs' : inputs ≡ₚ inputs' → unambiguous key inputs → unambiguous key inputs'.
Proof. intros Hp H l. specialize (H l). by rw -(count_perm _ _ _ Hp). Qed.

Lemma unambiguous_same key inputs i j : unambiguous key inputs → i ∈ inputs → j ∈ inputs →
  key ∈ ci_keys i → key ∈ ci_keys j → input_layer i = input_layer j → i = j.
Proof.
  intros Hu Hi Hj Hki Hkj E. apply (count_unique _ _ _ _ (Hu (input_layer j)) Hi Hj).
  - by rw !bool_decide_eq_true_2.
  - by rw !bool_decide_eq_true_2.
Qed.

Lemma reject_all_ok inputs : reject_all_ambiguous_conflicts inputs = Ok tt ↔ ∀ key, unambiguous key inputs.
Proof.
  unfold reject_all_ambiguous_conflicts. rw try_for_each_ok. split; [|intros H key _; by apply reject_ok].
  intros H key. destruct (decide (key ∈ ⋃ (ci_keys <$> inputs))) as [Hk|Hk].
  - apply reject_ok, H. by apply elem_of_bs_iter.
  - intros l. rw (proj2 (count_0 _ _)); [lia|]. intros i Hi. rw bool_decide_eq_false_2; [done|].
    intros Hki. apply Hk, elem_of_union_list. exists (ci_keys i). split; [|done].
    apply list_elem_of_fmap. eauto.
Qed.

(** ** Precedence *)

Definition input_leaf (p : list rstr) (i : ConfigInput) : option Val := config_leaf p (ci_config i).
#[global] Arguments input_leaf : simpl never.
#[global] Arguments config_leaf : simpl never.

(** The keys of an input name every value it carries. *)
Definition keyed (i : ConfigInput) : Prop :=
  ∀ p, lost p = false → is_Some (input_leaf p i) → join_dots p ∈ ci_keys i.

(** The input a value comes from: the one that sets it in the highest layer, with
    no other in that layer. *)
Definition supplies (inputs : list ConfigInput) (p : list rstr) (winner : option ConfigInput) : Prop :=
  match winner with
  | Some i => i ∈ inputs ∧ is_Some (input_leaf p i)
      ∧ ∀ j, j ∈ inputs → is_Some (input_leaf p j) → j = i ∨ klt (input_layer j) (input_layer i)
  | None => ∀ j, j ∈ inputs → input_leaf p j = None
  end.

Lemma fold_leaf p acc l : lost p = false →
  config_leaf p (foldl (λ merged i, OrchestraitorConfig_merge merged (ci_config i)) acc l)
  = foldl (λ r i, merge_scalar r (input_leaf p i)) (config_leaf p acc) l.
Proof. intros Hp. revert acc. induction l as [|i l IH]; intros acc; cbn [foldl]; [done|]. by rw IH (merge_last_wins p). Qed.

(** The last element of the sorted list that sets the value. *)
Lemma last_setter p l : ∃ winner,
  (match winner with
   | Some i => i ∈ l ∧ is_Some (input_leaf p i)
   | None => ∀ j, j ∈ l → input_leaf p j = None
   end)
  ∧ (StronglySorted (by_key input_layer) l → ∀ i j, winner = Some i → j ∈ l → is_Some (input_leaf p j) →
     kle (input_layer j) (input_layer i))
  ∧ foldl (λ r i, merge_scalar r (input_leaf p i)) None l = winner ≫= input_leaf p
  ∧ ∀ (R : Type) (g : ConfigInput → Val → R),
      foldl (λ r i, match input_leaf p i with Some v => Some (g i v) | None => r end) None l
      = (winner ≫= λ i, g i <$> input_leaf p i).
Proof.
  induction l as [|i l (w & Hw & Hs & Hf & Hg)] using rev_ind.
  { exists None. split_and!; try done. by intros j ?%not_elem_of_nil. }
  destruct (input_leaf p i) as [v|] eqn:E; [exists (Some i)|exists w]; split_and!.
  - set_solver.
  - by eexists.
  - intros Hso ? j [= <-] Hj _. apply elem_of_app in Hj as [Hj|Hj%list_elem_of_singleton]; [|by subst].
    apply StronglySorted_app in Hso as (Hc & _). apply (Hc j i); set_solver.
  - rw foldl_app. cbn [foldl]. by rw /= E.
  - intros R g. rw foldl_app. cbn [foldl]. by rw /= E.
  - destruct w as [k|]; [rw elem_of_app; naive_solver|].
    intros j [Hj| ->%list_elem_of_singleton]%elem_of_app; [exact (Hw j Hj)|exact E].
  - intros Hso k j Hk Hj Hv. apply StronglySorted_app in Hso as (_ & Hso & _).
    apply elem_of_app in Hj as [Hj|Hj%list_elem_of_singleton]; [by eapply Hs|].
    subst. rw E in Hv. by destruct Hv.
  - rw foldl_app. cbn [foldl]. by rw Hf E.
  - intros R g. rw foldl_app. cbn [foldl]. by rw Hg E.
Qed.

Lemma resolve_config_ok r merged : resolve_config r = Ok merged ↔
  (∀ key, unambiguous key (cr_inputs r))
  ∧ merged = foldl (λ merged i, OrchestraitorConfig_merge merged (ci_config i)) OrchestraitorConfig_default
               (sort_by_layer (cr_inputs r)).
Proof.
  unfold resolve_config. rw -reject_all_ok.
  destruct (reject_all_ambiguous_conflicts _) as [[]|]; cbn; naive_solver.
Qed.

Lemma resolve_value_ok {T} r key (extract : OrchestraitorConfig → option T) : unambiguous key (cr_inputs r) →
  resolve_value r key extract = Ok (foldl (λ resolved i,
        match extract (ci_config i) with
        | Some value => Some (MkResolved value (ci_source i) false)
        | None => resolved
        end) None (sort_by_layer (cr_inputs r))).
Proof.
  intros H. unfold resolve_value. rw (proj2 (reject_ok key _)); [done|].
  eapply unambiguous_perm; [symmetry; apply stable_sort_Permutation|done].
Qed.

(** The value of a resolved leaf, and its source, as [resolve_value] reports them. *)
Definition resolved_leaf (p : list rstr) (winner : option ConfigInput) : option (ResolvedValue Val) :=
  winner ≫= λ i, (λ v, MkResolved v (ci_source i) false) <$> input_leaf p i.

Lemma supplied r merged p : Forall keyed (cr_inputs r) → resolve_config r = Ok merged → lost p = false →
  ∃ winner, supplies (cr_inputs r) p winner
    ∧ config_leaf p merged = winner ≫= input_leaf p
    ∧ resolve_value r (join_dots p) (config_leaf p) = Ok (resolved_leaf p winner).
Proof.
  intros Hk [Hu ->]%resolve_config_ok Hp. rw fold_leaf; [|done]. rw leaf_default.
  destruct (last_setter p (sort_by_layer (cr_inputs r))) as (w & Hw & Hs & Hf & Hg). exists w.
  assert (∀ i, i ∈ sort_by_layer (cr_inputs r) ↔ i ∈ cr_inputs r) as Hin
    by (intros i; apply (elem_of_stable_sort (by_key input_layer))).
  setoid_rewrite Hin in Hs. rw Forall_forall in Hk.
  specialize (Hs (stable_sort_sorted (by_key input_layer) _)). split_and!; [|done|].
  - destruct w as [i|]; [|intros j Hj; by apply Hw, Hin]. destruct Hw as [Hi%Hin Hv]. split_and!; [done..|].
    intros j Hj Hv'. destruct (proj1 (kle_lt_eq _ _) (Hs i j eq_refl Hj Hv')) as [?|E]; [by right|left].
    exact (unambiguous_same (join_dots p) _ j i (Hu _) Hj Hi (Hk j Hj p Hp Hv') (Hk i Hi p Hp Hv) E).
  - rw resolve_value_ok; [|apply Hu]. by rw (Hg _ (λ i v, MkResolved v (ci_source i) false)).
Qed.

(** C20. Precedence of the layered configuration, for inputs whose lists of keys name
    every value they carry ([keyed]).  When the merge succeeds, every
    key of the schema (the lost ones apart) has in the merged configuration the
    value of the one input that sets it in the highest layer, and no value when no
    input sets it; the single-key read of the same key gives the same value with
    that input as its source. *)
Theorem config_precedence r merged p :
  Forall keyed (cr_inputs r) → resolve_config r = Ok merged → lost p = false →
  ∃ winner, supplies (cr_inputs r) p winner
    ∧ config_leaf p merged = winner ≫= input_leaf p
    ∧ resolve_value r (join_dots p) (config_leaf p) = Ok (resolved_leaf p winner).
Proof. apply supplied. Qed.

Lemma supplies_unique inputs inputs' p w w' : inputs ≡ₚ inputs' →
  supplies inputs p w → supplies inputs' p w' → w = w'.
Proof.
  intros Hp. assert (∀ j, j ∈ inputs' ↔ j ∈ inputs) as Hin by (intros; by rw Hp).
  destruct w as [i|], w' as [j|]; unfold supplies; try setoid_rewrite Hin; [..|done].
  - intros (Hi & Hvi & H) (Hj & Hvj & H'). destruct (H j Hj Hvj) as [->|Hl]; [done|].
    destruct (H' i Hi Hvi) as [->|Hl']; [done|]. exfalso. eapply (irreflexivity klt). by etrans.
  - intros (Hi & [v Hv] & _) H. by rw H in Hv.
  - intros H (Hi & [v Hv] & _). by rw H in Hv.
Qed.

(** The order in which the files of a layer are loaded does not matter: a
    permutation of the inputs resolves when the inputs do, to the same value at
    every key (the lost ones apart). *)
Theorem resolution_order_free r r' merged p :
  cr_inputs r ≡ₚ cr_inputs r' → Forall keyed (cr_inputs r) → resolve_config r = Ok merged → lost p = false →
  ∃ merged', resolve_config r' = Ok merged' ∧ config_leaf p merged' = config_leaf p merged.
Proof.
  intros Hp Hk Hr Hl. destruct (proj1 (resolve_config_ok _ _) Hr) as [Hu _].
  assert (∃ merged', resolve_config r' = Ok merged') as [merged' Hr'].
  { eexists. apply resolve_config_ok. split; [|done]. intros key. by eapply unambiguous_perm. }
  exists merged'. split; [done|]. assert (Forall keyed (cr_inputs r')) as Hk' by by rw -Hp.
  destruct (supplied r merged p Hk Hr Hl) as (w & Hw & -> & _).
  destruct (supplied r' merged' p Hk' Hr' Hl) as (w' & Hw' & -> & _).
  by rw (supplies_unique _ _ _ _ _ Hp Hw Hw').
Qed.

(** Conflicts are rejected exactly: the merge succeeds if and only if no key is
    set by two inputs of the same layer, and the error names a key that two inputs
    of one layer set. *)
Theorem conflicts_exact r :
  match resolve_config r with
  | Ok _ => ∀ key, unambiguous key (cr_inputs r)
  | Err (AmbiguousConflict key _) => ¬ unambiguous key (cr_inputs r)
  | Err _ => False
  end.
Proof.
  destruct (resolve_config r) as [m|e] eqn:E; [by apply resolve_config_ok in E as []|].
  unfold resolve_config in E. destruct (reject_all_ambiguous_conflicts _) as [[]|e'] eqn:Er; cbn in E; [done|].
  simplify_eq. unfold reject_all_ambiguous_conflicts in Er.
  assert (∃ key, reject_ambiguous_conflicts key (cr_inputs r) = Err e) as [key Hk].
  { revert Er. generalize (bs_iter (⋃ (ci_keys <$> cr_inputs r))). intros l. induction l as [|k l IH]; cbn; [done|].
    destruct (reject_ambiguous_conflicts k _) as [[]|e'] eqn:?; cbn; [done|]. intros [= ->]. eauto. }
  assert (∃ s, e = AmbiguousConflict key s) as [s ->].
  { revert Hk. unfold reject_ambiguous_conflicts. generalize (bt_values (group_by_layer
      (List.filter (λ i, bool_decide (key ∈ ci_keys i)) (cr_inputs r)))). intros l.
    induction l as [|x l IH]; cbn; [done|]. destruct (1 <? len x); cbn; [intros [= <-]; eauto|done]. }
  intros Hu%reject_ok. by rw Hu in Hk.
Qed.

(** ** Known keys *)

Definition undotted (s : rstr) : Prop := 46 ∉ s.

Lemma split_undotted s : undotted s → split 46 s = [s].
Proof.
  unfold undotted. induction s as [|c s IH]; [done|]. rw not_elem_of_cons. intros [Hc Hs]. cbn.
  rw (proj2 (N.eqb_neq c 46)); [by rw IH|done].
Qed.

Lemma split_dot s t : undotted s → split 46 (s ++ 46 :: t) = s :: split 46 t.
Proof.
  unfold undotted. induction s as [|c s IH]; [done|]. rw not_elem_of_cons. intros [Hc Hs]. cbn.
  rw (proj2 (N.eqb_neq c 46)); [by rw IH|done].
Qed.

Lemma split_once_dot s t : undotted s → split_once 46 (s ++ 46 :: t) = Some (s, t).
Proof.
  unfold undotted. induction s as [|c s IH]; [done|]. rw not_elem_of_cons. intros [Hc Hs]. cbn.
  rw (proj2 (N.eqb_neq c 46)); [by rw IH|done].
Qed.

Lemma rsplit_once_dot s t : undotted t → rsplit_once 46 (s ++ 46 :: t) = Some (s, t).
Proof.
  intros Ht. unfold rsplit_once. rw reverse_app reverse_cons -app_assoc. cbn.
  rw split_once_dot; [by rw !reverse_involutive|]. unfold undotted. by rw elem_of_reverse.
Qed.

Lemma strip_prefix_app p s : strip_prefix p (p ++ s) = Some s.
Proof. by apply strip_prefix_some. Qed.

Lemma dynamic_known prefix id f names : undotted (lit f) → f ∈ names →
  matches_dynamic_key (prefix ++ 46 :: id ++ 46 :: lit f) prefix names = true.
Proof.
  intros Hf Hin. unfold matches_dynamic_key. rw strip_prefix_app. cbn.
  change (46 :: id ++ 46 :: lit f) with (lit "." ++ (id ++ 46 :: lit f)). rw strip_prefix_app rsplit_once_dot; [|done].
  unfold one_of. apply bool_decide_eq_true_2, list_elem_of_fmap. by exists f.
Qed.

Lemma fields_some {R} (t : list (string * Leaf R)) p r v : fields t p r = Some v →
  ∃ name l p', (name, l) ∈ t ∧ p = lit name :: p' ∧ l p' r = Some v.
Proof.
  destruct p as [|f p]; cbn; [done|]. induction t as [|[name l] t IH]; cbn; [done|].
  case_bool_decide; [subst; set_solver|]. intros (? & ? & ? & ? & ? & ?)%IH. set_solver.
Qed.

Lemma scalar_some {R T} (inj : T → Val) get p (r : R) v : scalar inj get p r = Some v → p = [].
Proof. by destruct p. Qed.

Lemma block_some {R B} (get : R → option B) l p r v : block get l p r = Some v → ∃ b, l p b = Some v.
Proof. unfold block. destruct (get r); cbn; [eauto|done]. Qed.

Lemma entries_some {R B} (get : R → option (gmap rstr B)) l p r v : entries get l p r = Some v →
  ∃ k p' b, p = k :: p' ∧ l p' b = Some v.
Proof. destruct p as [|k p']; cbn; [done|]. destruct (get r ≫= _) as [b|]; cbn; [|done]. eauto. Qed.

Ltac walk_leaf H :=
  lazymatch type of H with
  | fields _ _ _ = Some _ =>
      apply fields_some in H as (? & ? & ? & Hin & -> & H);
      walk_in Hin H
  | scalar _ _ _ _ = Some _ => apply scalar_some in H as ->
  | block _ _ _ _ = Some _ => apply block_some in H as [? H]; unfold routing_leaf, watch_leaf, tool_leaf in H; walk_leaf H
  | entries _ _ _ _ = Some _ =>
      apply entries_some in H as (? & ? & ? & -> & H); unfold routing_leaf, watch_leaf, tool_leaf in H; walk_leaf H
  end
with walk_in Hin H :=
  lazymatch type of Hin with
  | _ ∈ [] => by apply not_elem_of_nil in Hin
  | _ => apply elem_of_cons in Hin as [[= -> ->]|Hin]; [walk_leaf H|walk_in Hin H]
  end.

Definition dynamic_sections : list (rstr * list string) :=
  [(lit "providers", ["protocol"; "endpoint"; "models"; "env"; "api_key"]);
   (lit "agents.domains", ["description"; "roles"]); (lit "subscriptions", ["provider"; "budget"]);
   (lit "budgets", ["token_cap"; "cost_cap"]); (lit "resource_limits", ["memory_bytes"; "cpu_ms"; "output_bytes"]);
   (lit "data_governance", ["retention"; "provenance"]); (lit "data_classification", ["label"; "exportable"])]%string.

Lemma known_dynamic prefix id f :
  Exists (λ x : rstr * list string, x.1 = prefix ∧ f ∈ x.2 ∧ 46 ∉ lit f) dynamic_sections →
  is_known_key (prefix ++ 46 :: id ++ 46 :: lit f) = true.
Proof.
  intros H. unfold is_known_key. rw !orb_true_iff. unfold dynamic_sections in H.
  repeat (apply Exists_cons in H as [(<- & Hf & Hu)|H]; [rw (dynamic_known _ id f _ Hu Hf); tauto|]).
  by apply Exists_nil in H.
Qed.

Lemma known_routed key :
  matches_agent_domain_routing_key key = true ∨ matches_role_routing_key key = true ∨ matches_tool_key key = true →
  is_known_key key = true.
Proof. intros H. unfold is_known_key. rw !orb_true_iff. tauto. Qed.

Ltac one_by_one H := repeat (apply elem_of_cons in H as [->|H]; [reflexivity|]); by apply not_elem_of_nil in H.

Lemma known_domain_route id f : undotted id → f ∈ ["provider"; "model"; "profile"]%string →
  is_known_key (lit "agents.domains." ++ id ++ 46 :: lit "routing." ++ lit f) = true.
Proof.
  intros Hid Hf. apply known_routed. left. unfold matches_agent_domain_routing_key.
  rw strip_prefix_app split_dot; [|done]. one_by_one Hf.
Qed.

Lemma known_role_route id f : undotted id → f ∈ ["provider"; "model"; "profile"]%string →
  is_known_key (lit "roles." ++ id ++ 46 :: lit "routing." ++ lit f) = true.
Proof.
  intros Hid Hf. apply known_routed. right; left. unfold matches_role_routing_key.
  rw strip_prefix_app split_dot; [|done]. one_by_one Hf.
Qed.

Lemma known_tool id f : undotted id →
  f ∈ ["enabled"; "kind"; "command"; "subagent_role"; "internal_tools"; "instructions"; "visible_to"; "effort";
       "max_summary_bytes"; "structured_summary"; "budget.max_turns"; "budget.wall_clock_secs";
       "budget.max_result_bytes"]%string →
  is_known_key (lit "tools." ++ id ++ 46 :: lit f) = true.
Proof.
  intros Hid Hf. apply known_routed. right; right. unfold matches_tool_key.
  rw strip_prefix_app split_dot; [|done]. one_by_one Hf.
Qed.

Ltac known_key :=
  match goal with
  | |- is_known_key (join_dots [lit "tools"; ?x; lit ?f]) = true => apply (known_tool x f); [done|set_solver]
  | |- is_known_key (join_dots [lit "tools"; ?x; lit "budget"; lit ?f]) = true =>
      apply (known_tool x (String.append "budget." f)); [done|cbn; set_solver]
  | |- is_known_key (join_dots [lit "roles"; ?x; lit "routing"; lit ?f]) = true =>
      apply (known_role_route x f); [done|set_solver]
  | |- is_known_key (join_dots [_; _; ?x; lit "routing"; lit ?f]) = true =>
      apply (known_domain_route x f); [done|set_solver]
  | |- is_known_key (join_dots [_; _; ?x; lit ?f]) = true => 
      apply (known_dynamic (lit "agents.domains") x f), (bool_decide_unpack _); vm_compute; exact I
  | |- is_known_key (join_dots [?s; ?x; lit ?f]) = true => 
      apply (known_dynamic s x f), (bool_decide_unpack _); vm_compute; exact I
  end.

(** No false alarm: every key that carries a value of the schema, with ids that
    contain no dot, is a known key, so a valid file is never reported as having
    unknown keys. *)
Theorem leaf_keys_known p c : is_Some (config_leaf p c) → Forall undotted p → is_known_key (join_dots p) = true.
Proof.
  intros [v H] Hu. unfold config_leaf in H.
  walk_leaf H; try (vm_compute; reflexivity); rw !Forall_cons in Hu; destruct_and! Hu; known_key.
Qed.

(** ** Examples *)

Definition with_retry (attempts : N) : OrchestraitorConfig :=
  MkConfig None None None None None None None None None (Some (MkRetry (Some attempts) None)) None None None None
    None None None None.

Definition retry_input (layer : ConfigLayer) (attempts : N) : ConfigInput :=
  MkInput (MkSource layer (lit "file")) (with_retry attempts) {[lit "retry.max_attempts"]}.

Lemma retry_keyed layer attempts : keyed (retry_input layer attempts).
Proof.
  intros p _ [v H]. unfold input_leaf, config_leaf in H. cbn [ci_config retry_input] in H.
  apply fields_some in H as (n & l & q & Hin & -> & H).
  repeat (apply elem_of_cons in Hin as [[= -> ->]|Hin]; [try (by destruct q)|]); [|by apply not_elem_of_nil in Hin].
  unfold block in H. cbn in H. apply fields_some in H as (n & l & q' & Hin & -> & H).
  repeat (apply elem_of_cons in Hin as [[= -> ->]|Hin]; [try (by destruct q')|]); try (by apply not_elem_of_nil in Hin).
Qed.

Definition retry_layers : ConfigResolver :=
  MkResolver [retry_input LayerProject 7; retry_input BuiltInDefaults 3].

Lemma config_precedence_witness :
  ∃ merged winner, resolve_config retry_layers = Ok merged
    ∧ supplies (cr_inputs retry_layers) [lit "retry"; lit "max_attempts"] winner
    ∧ config_leaf [lit "retry"; lit "max_attempts"] merged = Some (VNum 7).
Proof.
  assert (Forall keyed (cr_inputs retry_layers)) as Hk by (repeat constructor; apply retry_keyed).
  destruct (resolve_config retry_layers) as [merged|] eqn:E; [|vm_compute in E; discriminate].
  pose proof (config_precedence retry_layers merged [lit "retry"; lit "max_attempts"] Hk E eq_refl) as H.
  destruct H as (w & Hw & H & _). exists merged, w. split; [reflexivity|]. split; [exact Hw|].
  vm_compute in E. injection E as <-. vm_compute. reflexivity.
Defined.

Lemma resolution_order_free_witness :
  ∃ merged, resolve_config (MkResolver (reverse (cr_inputs retry_layers))) = Ok merged
    ∧ config_leaf [lit "retry"; lit "max_attempts"] merged = Some (VNum 7).
Proof.
  assert (Forall keyed (cr_inputs retry_layers)) as Hk by (repeat constructor; apply retry_keyed).
  destruct (resolve_config retry_layers) as [merged|] eqn:E; [|vm_compute in E; discriminate].
  pose proof (resolution_order_free retry_layers (MkResolver (reverse (cr_inputs retry_layers))) merged
    [lit "retry"; lit "max_attempts"] (symmetry (reverse_Permutation _)) Hk E eq_refl) as (m' & H1 & H2).
  exists m'. split; [exact H1|]. rw H2. vm_compute in E. injection E as <-. vm_compute. reflexivity.
Defined.

Lemma leaf_keys_known_witness : is_known_key (lit "retry.max_attempts") = true.
Proof.
  apply (leaf_keys_known [lit "retry"; lit "max_attempts"] (with_retry 3)); [by eexists|].
  repeat constructor; unfold undotted; apply (bool_decide_unpack _); vm_compute; exact I.
Defined.
