(* ===== verification/ToolRegistry.v ===== *)
(** * The declared-tool registry

    [crates/orchestraitor-core/src/tool.rs]: the entries of [[tools.<id>]], resolved
    through the layered configuration, with the layer-trust gate.  The shared id
    rules are those of [WorkerAction.v]. *)

From S2P Require Import Prelude BTree Text Substring Board Config ConfigSafe WorkerAction.

(** ** Data *)

Inductive ToolRegistryError :=
| UntrustedLayer (tool_id layer : rstr)
| UnknownKind (tool_id kind : rstr)
| MalformedMechanism (tool_id reason : rstr)
| UnknownSubagentRole (tool_id role known : rstr)
| UnknownVisibleRole (tool_id role known : rstr)
| UnknownInternalTool (tool_id name : rstr)
| UnknownEffort (tool_id effort : rstr)
| InvalidToolId (tool_id : rstr)
| RegistryConfig (source : ConfigError).

(** The two fields of [structured] that depend on the variant: the number of the
    [ORC-CONFIG] code and the tool the entry of which is at fault. *)
Definition relevant_tool (e : ToolRegistryError) : option rstr :=
  match e with
  | UntrustedLayer id _ | UnknownKind id _ | MalformedMechanism id _ | UnknownSubagentRole id _ _
  | UnknownVisibleRole id _ _ | UnknownInternalTool id _ | UnknownEffort id _ | InvalidToolId id => Some id
  | RegistryConfig _ => None
  end.

Definition error_number (e : ToolRegistryError) : N :=
  match e with
  | UntrustedLayer _ _ => 2
  | UnknownKind _ _ => 3
  | MalformedMechanism _ _ => 4
  | UnknownSubagentRole _ _ _ | UnknownVisibleRole _ _ _ => 5
  | UnknownInternalTool _ _ => 6
  | UnknownEffort _ _ => 7
  | InvalidToolId _ => 8
  | RegistryConfig _ => 1
  end.

Inductive ResolvedInternalTool := RitReadFile | RitSearch | RitBash | RitThink.

#[export] Instance ResolvedInternalTool_eq_dec : EqDecision ResolvedInternalTool.
Proof. solve_decision. Defined.
#[export] Instance ResolvedInternalTool_countable : Countable ResolvedInternalTool.
Proof.
  refine (inj_countable
    (λ t, match t with RitReadFile => 0 | RitSearch => 1 | RitBash => 2 | RitThink => 3 end)
    (λ n, match n with 0 => Some RitReadFile | 1 => Some RitSearch | 2 => Some RitBash | 3 => Some RitThink
          | _ => None end) _).
  abstract (by intros []).
Defined.

Definition ResolvedInternalTool_parse (tool_id name : rstr) : result ResolvedInternalTool ToolRegistryError :=
  if bool_decide (name = lit "read_file") then Ok RitReadFile
  else if bool_decide (name = lit "search") then Ok RitSearch
  else if bool_decide (name = lit "bash") then Ok RitBash
  else if bool_decide (name = lit "think") then Ok RitThink
  else Err (UnknownInternalTool tool_id name).

Definition tool_name (t : ResolvedInternalTool) : rstr :=
  match t with
  | RitReadFile => lit "read_file" | RitSearch => lit "search" | RitBash => lit "bash" | RitThink => lit "think"
  end.

Inductive ResolvedEffort := EffortLow | EffortMedium | EffortHigh.

Definition ResolvedEffort_parse (tool_id effort : rstr) : result ResolvedEffort ToolRegistryError :=
  if bool_decide (effort = lit "low") then Ok EffortLow
  else if bool_decide (effort = lit "medium") then Ok EffortMedium
  else if bool_decide (effort = lit "high") then Ok EffortHigh
  else Err (UnknownEffort tool_id effort).

Inductive ResolvedToolMechanism :=
| Command (argv : list rstr)
| Subagent (role : rstr) (internal_tools : gset ResolvedInternalTool) (instructions : option rstr)
| ThinkSwitch (enabled : bool).

Record ResolvedTool := MkResolvedTool {
  rt_id : rstr;
  rt_mechanism : ResolvedToolMechanism;
  rt_max_turns : option N;
  rt_wall_clock_secs : option N;
  rt_max_result_bytes : option N;
  rt_visible_to : gset rstr;
  rt_effort : option ResolvedEffort;
  rt_max_summary_bytes : option N;
  rt_structured_summary : option bool;
  rt_layer : ConfigLayer;
}.

Record ToolRegistry := MkToolRegistry { tr_tools : gmap rstr ResolvedTool }.

Definition TRUSTED_TOOL_LAYERS : list ConfigLayer := [BuiltInDefaults; PluginDefaults; GlobalUser; OrganizationTeam].

Definition layer_name (layer : ConfigLayer) : rstr :=
  match layer with
  | BuiltInDefaults => lit "built-in-defaults"
  | PluginDefaults => lit "plugin-defaults"
  | GlobalUser => lit "user"
  | OrganizationTeam => lit "org"
  | LayerProject => lit "project"
  | DirectoryDomain => lit "dir"
  | TaskAgent => lit "task-agent"
  | CliFlag => lit "cli-flag"
  end.

(** ** Resolving one tool *)

Definition present {T} (o : option T) : bool := match o with Some _ => true | None => false end.

Definition malformed {T} (tool_id : rstr) (reason : string) : result T ToolRegistryError :=
  Err (MalformedMechanism tool_id (lit reason)).

Definition resolve_think_kill_switch (tool : ToolConfig) (layer : ConfigLayer) : result ResolvedTool ToolRegistryError :=
  let configured := existsb id
    [present (tc_kind tool); present (tc_command tool); present (tc_subagent_role tool);
     present (tc_internal_tools tool); present (tc_instructions tool); present (tc_visible_to tool);
     present (tc_budget tool); present (tc_effort tool); present (tc_max_summary_bytes tool);
     present (tc_structured_summary tool)] in
  if configured then
    malformed (lit "think") "the built-in `think` tool carries no configuration beyond `enabled = false`"
  else Ok (MkResolvedTool (lit "think") (ThinkSwitch (default true (tc_enabled tool))) None None None ∅ None None None
             layer).

(** [role_ids.join(", ")]. *)
Fixpoint join_ids (ids : list rstr) : rstr :=
  match ids with [] => [] | [id] => id | id :: ids => id ++ lit ", " ++ join_ids ids end.

Definition resolve_command_mechanism (tool_id : rstr) (tool : ToolConfig)
  : result ResolvedToolMechanism ToolRegistryError :=
  if present (tc_subagent_role tool) || present (tc_internal_tools tool) || present (tc_instructions tool)
     || present (tc_structured_summary tool) || present (tc_effort tool) || present (tc_max_summary_bytes tool)
  then malformed tool_id "a `command` tool carries subagent-only fields"
  else
  match tc_command tool with
  | None => malformed tool_id "`command` tool is missing its `command` argv"
  | Some argv =>
      if is_empty argv || existsb is_empty argv
      then malformed tool_id "`command` argv must be non-empty with no empty entries"
      else Ok (Command argv)
  end.

Fixpoint parse_internal_tools (tool_id : rstr) (names : list rstr) (acc : gset ResolvedInternalTool)
  : result (gset ResolvedInternalTool) ToolRegistryError :=
  match names with
  | [] => Ok acc
  | name :: names =>
      let? t := ResolvedInternalTool_parse tool_id name in
      parse_internal_tools tool_id names ({[t]} ∪ acc)
  end.

Definition resolve_subagent_mechanism (tool_id : rstr) (tool : ToolConfig) (role_ids : list rstr)
  (subagent_wired : bool) : result ResolvedToolMechanism ToolRegistryError :=
  if negb subagent_wired then malformed tool_id "the subagent mechanism is not wired in this runtime"
  else if present (tc_command tool) then malformed tool_id "a `subagent` tool carries a `command` argv"
  else
  match tc_subagent_role tool with
  | None => malformed tool_id "`subagent` tool is missing `subagent_role`"
  | Some role =>
      if negb (bool_decide (role ∈ role_ids)) then Err (UnknownSubagentRole tool_id role (join_ids role_ids))
      else
      let? internal_tools := parse_internal_tools tool_id (default [] (tc_internal_tools tool)) ∅ in
      let internal_tools :=
        if bool_decide (internal_tools = ∅) then {[RitReadFile; RitSearch]} else internal_tools in
      Ok (Subagent role internal_tools (tc_instructions tool))
  end.

Definition resolve_mechanism (tool_id : rstr) (tool : ToolConfig) (kind : rstr) (role_ids : list rstr)
  (subagent_wired : bool) : result ResolvedToolMechanism ToolRegistryError :=
  if bool_decide (kind = lit "command") then resolve_command_mechanism tool_id tool
  else if bool_decide (kind = lit "subagent") then resolve_subagent_mechanism tool_id tool role_ids subagent_wired
  else Err (UnknownKind tool_id kind).

Fixpoint visible_roles (tool_id : rstr) (role_ids roles : list rstr) (acc : gset rstr)
  : result (gset rstr) ToolRegistryError :=
  match roles with
  | [] => Ok acc
  | role :: roles =>
      if negb (bool_decide (role ∈ role_ids)) then Err (UnknownVisibleRole tool_id role (join_ids role_ids))
      else visible_roles tool_id role_ids roles ({[role]} ∪ acc)
  end.

Definition resolve_visible_to (tool_id : rstr) (tool : ToolConfig) (role_ids : list rstr)
  : result (gset rstr) ToolRegistryError :=
  visible_roles tool_id role_ids (default [] (tc_visible_to tool)) ∅.

Definition validate_budget (tool_id : rstr) (tool : ToolConfig) : result unit ToolRegistryError :=
  if bool_decide (tc_max_summary_bytes tool = Some 0)
  then malformed tool_id "max_summary_bytes of 0 would disable the tool"
  else
  match tc_budget tool with
  | None => Ok tt
  | Some budget =>
      if bool_decide (tb_max_turns budget = Some 0)
      then malformed tool_id "budget.max_turns of 0 would disable the tool"
      else if bool_decide (tb_max_result_bytes budget = Some 0)
      then malformed tool_id "budget.max_result_bytes of 0 would disable the tool"
      else if bool_decide (tb_wall_clock_secs budget = Some 0)
      then malformed tool_id "budget.wall_clock_secs of 0 would disable the tool"
      else Ok tt
  end.

Definition resolve_tool (tool_id : rstr) (tool : ToolConfig) (role_ids : list rstr) (subagent_wired : bool)
  (layer : ConfigLayer) : result ResolvedTool ToolRegistryError :=
  if negb (is_valid_tool_id tool_id) || (is_reserved_tool_id tool_id && negb (bool_decide (tool_id = lit "think")))
  then Err (InvalidToolId tool_id)
  else if bool_decide (tool_id = lit "think") then resolve_think_kill_switch tool layer
  else if present (tc_enabled tool) then malformed tool_id "only the built-in `think` tool carries `enabled`"
  else
  match tc_kind tool with
  | None => malformed tool_id "missing `kind`"
  | Some kind =>
      let? mechanism := resolve_mechanism tool_id tool kind role_ids subagent_wired in
      let? effort := match tc_effort tool with
                     | Some effort => let? e := ResolvedEffort_parse tool_id effort in Ok (Some e)
                     | None => Ok None
                     end in
      let? visible_to := resolve_visible_to tool_id tool role_ids in
      let? _ := validate_budget tool_id tool in
      Ok (MkResolvedTool tool_id mechanism (tc_budget tool ≫= tb_max_turns) (tc_budget tool ≫= tb_wall_clock_secs)
            (tc_budget tool ≫= tb_max_result_bytes) visible_to effort (tc_max_summary_bytes tool)
            (tc_structured_summary tool) layer)
  end.

(** ** The registry *)

Fixpoint resolve_tools (resolver : ConfigResolver) (role_ids : list rstr) (subagent_wired : bool)
  (defined : gmap rstr ToolConfig) (ids : list rstr) (tools : gmap rstr ResolvedTool)
  : result (gmap rstr ResolvedTool) ToolRegistryError :=
  match ids with
  | [] => Ok tools
  | tool_id :: ids =>
      match supplying_layer_for_entry resolver (lit "tools") tool_id with
      | None => resolve_tools resolver role_ids subagent_wired defined ids tools
      | Some winning =>
          if negb (bool_decide (cs_layer winning ∈ TRUSTED_TOOL_LAYERS))
          then Err (UntrustedLayer tool_id (layer_name (cs_layer winning)))
          else
          match defined !! tool_id with
          | None => resolve_tools resolver role_ids subagent_wired defined ids tools
          | Some tool_config =>
              let? tool := resolve_tool tool_id tool_config role_ids subagent_wired (cs_layer winning) in
              resolve_tools resolver role_ids subagent_wired defined ids (<[tool_id := tool]> tools)
          end
      end
  end.

Definition from_resolver (resolver : ConfigResolver) (role_ids : list rstr) (subagent_wired : bool)
  : result ToolRegistry ToolRegistryError :=
  let? merged := map_err RegistryConfig (resolve_config resolver) in
  match oc_tools merged with
  | None => Ok (MkToolRegistry ∅)
  | Some defined =>
      let? tools := resolve_tools resolver role_ids subagent_wired defined (bt_keys defined) ∅ in
      Ok (MkToolRegistry tools)
  end.

Fixpoint resolve_builtins (role_ids : list rstr) (subagent_wired : bool) (defined : list (rstr * ToolConfig))
  (tools : gmap rstr ResolvedTool) : result (gmap rstr ResolvedTool) ToolRegistryError :=
  match defined with
  | [] => Ok tools
  | (tool_id, tool_config) :: defined =>
      let? tool := resolve_tool tool_id tool_config role_ids subagent_wired BuiltInDefaults in
      resolve_builtins role_ids subagent_wired defined (<[tool_id := tool]> tools)
  end.

Definition from_builtin (config : OrchestraitorConfig) (role_ids : list rstr) (subagent_wired : bool)
  : result ToolRegistry ToolRegistryError :=
  match oc_tools config with
  | None => Ok (MkToolRegistry ∅)
  | Some defined =>
      let? tools := resolve_builtins role_ids subagent_wired (bt_iter defined) ∅ in
      Ok (MkToolRegistry tools)
  end.

Definition registry_get (self : ToolRegistry) (tool_id : rstr) : option ResolvedTool := tr_tools self !! tool_id.
Definition registry_ids (self : ToolRegistry) : list rstr := bt_keys (tr_tools self).
Definition registry_is_empty (self : ToolRegistry) : bool := is_empty (registry_ids self).
Definition registry_len (self : ToolRegistry) : N := len (registry_ids self).

Definition think_enabled (self : ToolRegistry) : bool :=
  match tr_tools self !! lit "think" with
  | None => true
  | Some tool => match rt_mechanism tool with ThinkSwitch enabled => enabled | _ => true end
  end.
