(* ===== verification/ToolRegistrySafe.v ===== *)
(** * The declared-tool registry: trust and validity *)

From S2P Require Import Prelude BTree Text Substring Board Config ConfigSafe WorkerAction ToolRegistry.

(** ** What a resolved tool promises *)

Definition mechanism_valid (role_ids : list rstr) (subagent_wired : bool) (id : rstr) (m : ResolvedToolMechanism) : Prop :=
  match m with
  | Command argv => argv ≠ [] ∧ [] ∉ argv
  | Subagent role internal_tools _ => subagent_wired = true ∧ role ∈ role_ids ∧ internal_tools ≠ ∅
  | ThinkSwitch _ => id = lit "think"
  end.

Record tool_valid (role_ids : list rstr) (subagent_wired : bool) (id : rstr) (t : ResolvedTool) : Prop := {
  tv_id : rt_id t = id;
  tv_shape : is_valid_tool_id id = true;
  tv_free : is_reserved_tool_id id = true → id = lit "think";
  tv_mechanism : mechanism_valid role_ids subagent_wired id (rt_mechanism t);
  tv_visible : ∀ role, role ∈ rt_visible_to t → role ∈ role_ids;
  tv_turns : rt_max_turns t ≠ Some 0;
  tv_wall : rt_wall_clock_secs t ≠ Some 0;
  tv_result : rt_max_result_bytes t ≠ Some 0;
  tv_summary : rt_max_summary_bytes t ≠ Some 0;
}.

Lemma visible_roles_ok id role_ids roles acc visible :
  visible_roles id role_ids roles acc = Ok visible →
  (∀ r, r ∈ acc → r ∈ role_ids) → ∀ r, r ∈ visible → r ∈ role_ids.
Proof.
  revert acc. induction roles as [|role roles IH]; intros acc; cbn; [intros [= ->]; done|].
  case_bool_decide; cbn; [|done]. intros Hv Hacc. apply (IH _ Hv). set_solver.
Qed.

Lemma validate_budget_ok id tool : validate_budget id tool = Ok tt →
  tc_max_summary_bytes tool ≠ Some 0 ∧ (tc_budget tool ≫= tb_max_turns) ≠ Some 0
  ∧ (tc_budget tool ≫= tb_max_result_bytes) ≠ Some 0 ∧ (tc_budget tool ≫= tb_wall_clock_secs) ≠ Some 0.
Proof.
  unfold validate_budget. case_bool_decide; [done|]. destruct (tc_budget tool) as [b|]; cbn; [|done].
  repeat (case_bool_decide; [done|]). done.
Qed.

Lemma resolve_mechanism_ok id tool kind role_ids wired m :
  resolve_mechanism id tool kind role_ids wired = Ok m → mechanism_valid role_ids wired id m.
Proof.
  unfold resolve_mechanism, resolve_command_mechanism, resolve_subagent_mechanism. case_bool_decide.
  - destruct (_ || _); [done|]. destruct (tc_command tool) as [argv|]; [|done].
    destruct (is_empty argv || existsb is_empty argv) eqn:E; [done|]. intros [= <-].
    apply orb_false_iff in E as [E1%is_empty_false E2]. split; [done|]. intros Hin.
    rw existsb_false in E2. by specialize (E2 _ Hin).
  - case_bool_decide; [|done]. destruct wired; cbn; [|done]. destruct (present _); [done|].
    destruct (tc_subagent_role tool) as [role|]; [|done]. case_bool_decide; cbn; [|done].
    destruct (parse_internal_tools _ _ _) as [its|]; cbn; [|done]. intros [= <-]. split_and!; [done..|].
    case_bool_decide; [|done]. set_solver.
Qed.

Lemma resolve_tool_ok id tool role_ids wired layer t :
  resolve_tool id tool role_ids wired layer = Ok t → tool_valid role_ids wired id t ∧ rt_layer t = layer.
Proof.
  unfold resolve_tool. destruct (is_valid_tool_id id) eqn:Hv; cbn [negb orb]; [|done].
  destruct (is_reserved_tool_id id && _) eqn:Hr; [done|]. rw andb_false_iff negb_false_iff bool_decide_eq_true in Hr.
  assert (is_reserved_tool_id id = true → id = lit "think") as Hfree by (intros Hx; destruct Hr as [Hr|Hr]; [by rw Hx in Hr|done]). clear Hr.
  case_bool_decide as Ht.
  - unfold resolve_think_kill_switch. destruct (existsb _ _); [done|]. intros [= <-]. split; [|done].
    by constructor; cbn; try set_solver.
  - destruct (present _); [done|]. destruct (tc_kind tool) as [kind|]; [|done].
    intros (m & Hm%resolve_mechanism_ok & H)%result_bind_ok. apply result_bind_ok in H as (e & _ & H).
    apply result_bind_ok in H as (vis & Hvis & H).
    apply result_bind_ok in H as ([] & (?&?&?&?)%validate_budget_ok & [= <-]).
    split; [|done]. constructor; cbn; try done. intros role Hrole.
    eapply visible_roles_ok; [exact Hvis| |exact Hrole]. set_solver.
Qed.

(** ** Who defines a tool *)

Definition defines (id : rstr) (i : ConfigInput) : Prop := is_Some (oc_tools (ci_config i) ≫= λ m, m !! id).

Lemma carries_defines id i : carries_entry (lit "tools") id (ci_config i) = true ↔ defines id i.
Proof.
  unfold carries_entry, defines. rw bool_decide_eq_true_2; [|done].
  destruct (oc_tools _); cbn; [by rw bool_decide_eq_true|]. by split; [|intros []].
Qed.

Lemma merge_option_is_Some {T} (m : T → T → T) a b : is_Some (merge_option m a b) ↔ is_Some a ∨ is_Some b.
Proof. destruct a, b; cbn; rw /is_Some; naive_solver. Qed.

Lemma exists_cons {A} (P : A → Prop) x l : (∃ y, y ∈ x :: l ∧ P y) ↔ P x ∨ ∃ y, y ∈ l ∧ P y.
Proof. setoid_rewrite elem_of_cons. naive_solver. Qed.

Lemma merged_tools id acc l :
  is_Some (oc_tools (foldl (λ merged i, OrchestraitorConfig_merge merged (ci_config i)) acc l) ≫= λ m, m !! id)
  ↔ is_Some (oc_tools acc ≫= λ m, m !! id) ∨ ∃ i, i ∈ l ∧ defines id i.
Proof.
  revert acc. induction l as [|i l IH]; intros acc; cbn [foldl].
  { split; [by left|]. intros [?|(i & ?%not_elem_of_nil & _)]; done. }
  rw IH exists_cons. cbn [OrchestraitorConfig_merge oc_tools]. rw merge_map_lookup merge_option_is_Some. unfold defines. tauto.
Qed.

Lemma find_last_sorted (P : ConfigInput → bool) l : StronglySorted (by_key input_layer) l →
  match List.find P (reverse l) with
  | Some i => i ∈ l ∧ P i = true ∧ ∀ j, j ∈ l → P j = true → kle (input_layer j) (input_layer i)
  | None => ∀ j, j ∈ l → P j = false
  end.
Proof.
  induction l as [|i l IH] using rev_ind; intros Hs; [by intros j ?%not_elem_of_nil|].
  rw reverse_app. cbn [reverse rev_append app List.find].
  apply StronglySorted_app in Hs as (Hc & Hs & _). specialize (IH Hs). destruct (P i) eqn:E.
  - split_and!; [set_solver|done|]. intros j [Hj|Hj%list_elem_of_singleton]%elem_of_app _; [|by subst].
    apply (Hc j i); set_solver.
  - destruct (List.find P (reverse l)) as [k|].
    + destruct IH as (Hk & Pk & H). split_and!; [set_solver|done|].
      intros j [Hj|Hj%list_elem_of_singleton]%elem_of_app Pj; [by apply H|]. subst. by rw E in Pj.
    + intros j [Hj|Hj%list_elem_of_singleton]%elem_of_app; [by apply IH|by subst].
Qed.

(** The supplying layer is the highest that defines the tool. *)
Lemma supplying_highest r id : match supplying_layer_for_entry r (lit "tools") id with
  | Some s => ∃ i, i ∈ cr_inputs r ∧ defines id i ∧ ci_source i = s
      ∧ ∀ j, j ∈ cr_inputs r → defines id j → kle (input_layer j) (input_layer i)
  | None => ∀ j, j ∈ cr_inputs r → ¬ defines id j
  end.
Proof.
  unfold supplying_layer_for_entry.
  assert (∀ i, i ∈ sort_by_layer (cr_inputs r) ↔ i ∈ cr_inputs r) as Hin
    by (intros i; apply (elem_of_stable_sort (by_key input_layer))).
  pose proof (find_last_sorted (λ i, carries_entry (lit "tools") id (ci_config i)) (sort_by_layer (cr_inputs r))
    (stable_sort_sorted (by_key input_layer) _)) as H.
  destruct (List.find _ _) as [i|]; cbn.
  - destruct H as (Hi%Hin & Pi%carries_defines & H). exists i. split_and!; try done.
    intros j Hj Hd. by apply H; [apply Hin|apply carries_defines].
  - intros j Hj Hd%carries_defines. by rw (H j (proj2 (Hin j) Hj)) in Hd.
Qed.

Lemma trusted_down (a b : ConfigLayer) : kle a b → b ∈ TRUSTED_TOOL_LAYERS → a ∈ TRUSTED_TOOL_LAYERS.
Proof. unfold TRUSTED_TOOL_LAYERS. destruct b; intros Hl Hb; try set_solver; destruct a; try set_solver; by destruct Hl. Qed.

(** ** The registry *)

Definition trusted_tool (r : ConfigResolver) (role_ids : list rstr) (wired : bool) (id : rstr) (t : ResolvedTool) : Prop :=
  tool_valid role_ids wired id t
  ∧ (∀ i, i ∈ cr_inputs r → defines id i → input_layer i ∈ TRUSTED_TOOL_LAYERS)
  ∧ ∃ i, i ∈ cr_inputs r ∧ defines id i ∧ input_layer i = rt_layer t
      ∧ ∀ j, j ∈ cr_inputs r → defines id j → kle (input_layer j) (input_layer i).

Lemma resolve_tools_ok r role_ids wired defined ids acc tools :
  resolve_tools r role_ids wired defined ids acc = Ok tools →
  (∀ id, id ∈ ids → is_Some (defined !! id) ∧ ∃ i, i ∈ cr_inputs r ∧ defines id i) →
  ∀ id, if bool_decide (id ∈ ids) then ∃ t, tools !! id = Some t ∧ trusted_tool r role_ids wired id t
        else tools !! id = acc !! id.
Proof.
  revert acc. induction ids as [|tid ids IH]; intros acc; cbn [resolve_tools].
  { intros [= ->] _ id. by rw bool_decide_eq_false_2; [|apply not_elem_of_nil]. }
  intros H Hids id. destruct (Hids tid) as ([tc Htc] & i0 & Hi0 & Hd0); [set_solver|].
  pose proof (supplying_highest r tid) as Hsup.
  destruct (supplying_layer_for_entry _ _ _) as [win|]; [|by destruct (Hsup i0 Hi0)].
  destruct Hsup as (i & Hi & Hd & <- & Hmax). case_bool_decide as Ht; cbn [negb] in H; [|done].
  rw Htc in H. apply result_bind_ok in H as (t & [Hv Hl]%resolve_tool_ok & H).
  specialize (IH _ H). specialize (IH (λ k Hk, Hids k (list_elem_of_further _ _ _ Hk)) id).
  destruct (decide (id ∈ ids)) as [Hin|Hin].
  - rw bool_decide_eq_true_2 in IH; [|done]. rw bool_decide_eq_true_2; [done|set_solver].
  - rw bool_decide_eq_false_2 in IH; [|done]. rw IH. case_bool_decide as Hc.
    + assert (id = tid) as -> by set_solver. exists t. rw lookup_insert_eq. split; [done|].
      split_and!; [done| |by exists i; rw Hl].
      intros j Hj Hdj. eapply trusted_down; [by apply Hmax|done].
    + rw lookup_insert_ne; [done|set_solver].
Qed.

(** C21. The layer-trust gate.  A registry that is built holds exactly the tools some
    configuration file defines, each valid (id, mechanism, visibility and budgets),
    and every file that defines one of them, in any field, is in a trusted layer; so
    one definition from the project or a lower layer fails the whole registry. *)
Theorem registry_trusted r role_ids wired reg :
  from_resolver r role_ids wired = Ok reg →
  ∀ id, match registry_get reg id with
        | Some t => trusted_tool r role_ids wired id t
        | None => ∀ i, i ∈ cr_inputs r → ¬ defines id i
        end.
Proof.
  unfold from_resolver, registry_get. intros (merged & [_ ->]%map_err_ok%resolve_config_ok & H)%result_bind_ok id.
  pose proof (λ k, merged_tools k OrchestraitorConfig_default (sort_by_layer (cr_inputs r))) as Hm. cbn [mbind] in Hm.
  assert (∀ i, i ∈ sort_by_layer (cr_inputs r) ↔ i ∈ cr_inputs r) as Hin
    by (intros i; apply (elem_of_stable_sort (by_key input_layer))).
  revert H Hm. destruct (oc_tools (foldl _ _ _)) as [defined|]; intros H Hm.
  - apply result_bind_ok in H as (tools & H & [= <-]). cbn [tr_tools].
    assert (∀ k, is_Some (defined !! k) ↔ ∃ i, i ∈ cr_inputs r ∧ defines k i) as Hdef.
    { intros k. specialize (Hm k). cbn in Hm. rw Hm. setoid_rewrite Hin. split; [|by right].
      intros [[? [=]]|?]; done. }
    pose proof (resolve_tools_ok _ _ _ _ _ _ _ H) as Hok. specialize (Hok (λ k Hk,
      conj (proj1 (elem_of_bt_keys _ _) Hk) (proj1 (Hdef k) (proj1 (elem_of_bt_keys _ _) Hk))) id).
    case_bool_decide as Hk; [by destruct Hok as (t & -> & ?)|].
    rw Hok lookup_empty. intros i Hi Hd. apply Hk, elem_of_bt_keys, Hdef. eauto.
  - injection H as <-. cbn. rw lookup_empty. intros i Hi Hd.
    destruct (proj2 (Hm id)) as [? [=]]. right. exists i. by rw Hin.
Qed.

(** ** Examples *)

Definition no_tool : ToolConfig := MkTool None None None None None None None None None None None.

Definition with_tools (tools : list (rstr * ToolConfig)) : OrchestraitorConfig :=
  MkConfig None None None None None (Some (list_to_map tools)) None None None None None None None None None None None None.

Definition tools_input (layer : ConfigLayer) (tools : list (rstr * ToolConfig)) (keys : list string) : ConfigInput :=
  MkInput (MkSource layer (layer_name layer)) (with_tools tools) (list_to_set (lit <$> keys)).

Definition lint_tool : ToolConfig :=
  MkTool None (Some (lit "command")) (Some [lit "cargo"; lit "fmt"]) None None None (Some [lit "implement"]) None None
    None None.

Definition lint_budget : ToolConfig :=
  MkTool None None None None None None None (Some (MkToolBudget None (Some 60) None)) None None None.

Definition user_lint : ConfigInput :=
  tools_input GlobalUser [(lit "lint", lint_tool)] ["tools.lint.kind"; "tools.lint.command"; "tools.lint.visible_to"]%string.

Definition tool_layers : ConfigResolver :=
  MkResolver [user_lint; tools_input OrganizationTeam [(lit "lint", lint_budget)] ["tools.lint.budget.wall_clock_secs"]%string].

Lemma registry_trusted_witness :
  ∃ reg t, from_resolver tool_layers [lit "implement"] false = Ok reg ∧ registry_get reg (lit "lint") = Some t
    ∧ trusted_tool tool_layers [lit "implement"] false (lit "lint") t ∧ rt_wall_clock_secs t = Some 60.
Proof.
  destruct (from_resolver tool_layers [lit "implement"] false) as [reg|] eqn:E; [|vm_compute in E; discriminate].
  pose proof (registry_trusted tool_layers [lit "implement"] false reg E (lit "lint")) as H.
  destruct (registry_get reg (lit "lint")) as [t|] eqn:Et.
  - exists reg, t. split_and!; [reflexivity|exact Et|exact H|].
    vm_compute in E. injection E as <-. vm_compute in Et. injection Et as <-. reflexivity.
  - vm_compute in E. injection E as <-. vm_compute in Et. discriminate.
Defined.

(** One field from the project layer fails the registry. *)
Example project_tool_rejected :
  from_resolver (MkResolver [user_lint; tools_input LayerProject [(lit "lint", lint_budget)]
    ["tools.lint.budget.wall_clock_secs"]%string]) [lit "implement"] false
  = Err (UntrustedLayer (lit "lint") (lit "project")).
Proof. vm_compute. reflexivity. Qed.

Definition think_entry (enabled : option bool) : ToolConfig :=
  MkTool enabled None None None None None None None None None None.

(** The kill-switch of a higher trusted layer is lost when a lower one has an entry. *)
Example kill_switch_lost :
  match from_resolver (MkResolver [tools_input GlobalUser [(lit "think", think_entry (Some true))] [];
    tools_input OrganizationTeam [(lit "think", think_entry (Some false))] []]) [] false with
  | Ok reg => think_enabled reg = true
  | Err _ => False
  end.
Proof. vm_compute. reflexivity. Qed.

Example kill_switch_alone :
  match from_resolver (MkResolver [tools_input OrganizationTeam [(lit "think", think_entry (Some false))] []]) [] false with
  | Ok reg => think_enabled reg = false
  | Err _ => False
  end.
Proof. vm_compute. reflexivity. Qed.
