(* ===== verification/WatchConfig.v ===== *)
(** * Configuration of the watch daemon

    [crates/orchestraitor-daemon/src/watch.rs], the settings [orcd watch] resolves
    from the layered configuration, and [load_layered_resolver] of [main.rs], which
    builds the layers from the built-in defaults and the files on disk.  The file
    system is the parameter [ConfigFs], the TOML library [Toml]. *)

From S2P Require Import Prelude BTree Text Substring Board Config ConfigSafe ToolRegistrySafe Kickoff Ingress.

(** ** Settings *)

Definition DEFAULT_POLL_INTERVAL_SECS : N := 60.
Definition POLL_INTERVAL_CONFIG_KEY : rstr := lit "watch.poll_interval_secs".
Definition KICKOFF_CONFIG_KEY_PREFIX : rstr := lit "watch.kickoff".
Definition INGRESS_CONFIG_KEY_PREFIX : rstr := lit "watch.ingress".
Definition INTAKE_CONFIG_KEY_PREFIX : rstr := lit "watch.intake".

Record IngressSettings := MkIngressSettings { is_enabled : bool; is_queue_capacity : N }.

Definition IngressSettings_builtin_defaults : IngressSettings := MkIngressSettings false DEFAULT_QUEUE_CAPACITY.

Record IntakeSettings := MkIntakeSettings { it_enabled : bool; it_service_identities : list rstr }.

Definition IntakeSettings_builtin_defaults : IntakeSettings := MkIntakeSettings false [lit "arbsec-agent"].

Record WatchConfig := MkWatchConfig {
  wc_poll_interval_secs : N;
  wc_kickoff : KickoffSettings;
  wc_ingress : IngressSettings;
  wc_intake : IntakeSettings;
}.

(** [DaemonError::WatchConfig]: a rejected value, or a failed resolution under a key. *)
Inductive WatchConfigError :=
| ZeroPollInterval
| ZeroQueueCapacity
| UnresolvedKey (key : rstr) (error : ConfigError).

Definition with_intake (poll_interval_secs : N) (kickoff : KickoffSettings) (ingress : IngressSettings)
  (intake : IntakeSettings) : result WatchConfig WatchConfigError :=
  if poll_interval_secs =? 0 then Err ZeroPollInterval
  else if is_queue_capacity ingress =? 0 then Err ZeroQueueCapacity
  else Ok (MkWatchConfig poll_interval_secs kickoff ingress intake).

Definition with_ingress (poll_interval_secs : N) (kickoff : KickoffSettings) (ingress : IngressSettings)
  : result WatchConfig WatchConfigError :=
  with_intake poll_interval_secs kickoff ingress IntakeSettings_builtin_defaults.

Definition WatchConfig_new (poll_interval_secs : N) (kickoff : KickoffSettings) : result WatchConfig WatchConfigError :=
  with_ingress poll_interval_secs kickoff IngressSettings_builtin_defaults.

Definition default_cadence : WatchConfig :=
  MkWatchConfig DEFAULT_POLL_INTERVAL_SECS builtin_defaults IngressSettings_builtin_defaults
    IntakeSettings_builtin_defaults.

Definition resolve_kickoff (resolver : ConfigResolver) : result KickoffSettings WatchConfigError :=
  let? merged := map_err (UnresolvedKey KICKOFF_CONFIG_KEY_PREFIX) (resolve_config resolver) in
  let defaults := builtin_defaults in
  match oc_watch merged ≫= wb_kickoff with
  | None => Ok defaults
  | Some block => Ok (MkKickoffSettings
      (default (new_eligible_work defaults) (wk_new_eligible_work block))
      (default (unblocked_promotion defaults) (wk_unblocked_promotion block))
      (default (slot_released_armed defaults) (wk_slot_released block))
      (default (budget_window_reset_armed defaults) (wk_budget_window_reset block))
      (default (external_event defaults) (wk_external_event block)))
  end.

Definition resolve_ingress (resolver : ConfigResolver) : result IngressSettings WatchConfigError :=
  let? merged := map_err (UnresolvedKey INGRESS_CONFIG_KEY_PREFIX) (resolve_config resolver) in
  let defaults := IngressSettings_builtin_defaults in
  match oc_watch merged ≫= wb_ingress with
  | None => Ok defaults
  | Some block => Ok (MkIngressSettings (default (is_enabled defaults) (wg_enabled block))
                        (default (is_queue_capacity defaults) (wg_queue_capacity block)))
  end.

Definition resolve_intake (resolver : ConfigResolver) : result IntakeSettings WatchConfigError :=
  let? merged := map_err (UnresolvedKey INTAKE_CONFIG_KEY_PREFIX) (resolve_config resolver) in
  let defaults := IntakeSettings_builtin_defaults in
  Ok (MkIntakeSettings
        (default (it_enabled defaults) ((oc_watch merged ≫= wb_intake) ≫= wi_enabled))
        (default (it_service_identities defaults) (oc_service_identities merged))).

Definition from_layers (resolver : ConfigResolver) : result WatchConfig WatchConfigError :=
  let? configured := map_err (UnresolvedKey POLL_INTERVAL_CONFIG_KEY)
    (resolve_value resolver POLL_INTERVAL_CONFIG_KEY (λ config, oc_watch config ≫= wb_poll_interval_secs)) in
  let interval := match configured with
                  | Some resolved_value => rv_value resolved_value
                  | None => DEFAULT_POLL_INTERVAL_SECS
                  end in
  let? kickoff := resolve_kickoff resolver in
  let? ingress := resolve_ingress resolver in
  let? intake := resolve_intake resolver in
  with_intake interval kickoff ingress intake.

(** The mismatch warnings, by the setting that is dead. *)
Inductive WatchWarning := IngressWithoutConsumer | ExternalEventWithoutIngress | IntakeWithoutIngress.

Definition ingress_kickoff_warnings (ingress_enabled external_event_armed : bool) : list WatchWarning :=
  (if ingress_enabled && negb external_event_armed then [IngressWithoutConsumer] else [])
  ++ (if negb ingress_enabled && external_event_armed then [ExternalEventWithoutIngress] else []).

Definition intake_ingress_warnings (intake_enabled ingress_enabled : bool) : list WatchWarning :=
  if intake_enabled && negb ingress_enabled then [IntakeWithoutIngress] else [].

Definition WATCH_BUILT_IN_DEFAULTS_TOML : rstr := lit "
[watch]
poll_interval_secs = 60

[watch.kickoff]
new_eligible_work = true
unblocked_promotion = true
slot_released = true
budget_window_reset = true
external_event = false

[watch.ingress]
enabled = false
queue_capacity = 256

[watch.intake]
enabled = false
".

(** ** The layers on disk *)

(** [std::fs] as the loader uses it; an entry of a directory that cannot be read is
    [None]. *)
Inductive DirListing := DirEntries (entries : list (option rstr)) | DirNotFound | DirFailed.

Class ConfigFs := {
  fs_exists : rstr → bool;
  fs_read_to_string : rstr → option rstr;
  fs_read_dir : rstr → DirListing;
}.

(** [Path::join] of a relative name, [Path::extension] of the last component. *)
Definition path_join (base name : rstr) : rstr :=
  if is_empty base || ends_with 47 base then base ++ name else base ++ lit "/" ++ name.

Definition extension (name : rstr) : option rstr :=
  match rsplit_once 46 name with
  | Some (stem, ext) => if is_empty stem then None else Some ext
  | None => None
  end.

Inductive LoadError := ReadFailed (path : rstr) | ParseFailed (error : ConfigError).

Section load.
Context `{Toml, ConfigFs}.

(** The entry names of a directory, or the first entry that fails. *)
Fixpoint all_entries (entries : list (option rstr)) : option (list rstr) :=
  match entries with
  | [] => Some []
  | None :: _ => None
  | Some e :: entries => (λ l, e :: l) <$> all_entries entries
  end.

Definition primary_and_shards (base primary shard_dir_name : rstr) : result (list rstr) LoadError :=
  let files := [path_join base primary] in
  let shard_dir := path_join base shard_dir_name in
  match fs_read_dir shard_dir with
  | DirNotFound => Ok files
  | DirFailed => Err (ReadFailed shard_dir)
  | DirEntries entries =>
      match all_entries entries with
      | None => Err (ReadFailed shard_dir)
      | Some names =>
          let shards := List.filter (λ name, bool_decide (extension name = Some (lit "toml"))) names in
          Ok (files ++ (path_join shard_dir <$> stable_sort (by_key id) shards))
      end
  end.

Fixpoint load_files (layer : ConfigLayer) (files : list rstr) (resolver : ConfigResolver)
  : result ConfigResolver LoadError :=
  match files with
  | [] => Ok resolver
  | file :: files =>
      if negb (fs_exists file) then load_files layer files resolver
      else
      let? content := ok_or (fs_read_to_string file) (ReadFailed file) in
      let? resolver := map_err ParseFailed (with_toml resolver (MkSource layer file) content) in
      load_files layer files resolver
  end.

Fixpoint load_all (layers : list (ConfigLayer * list rstr)) (resolver : ConfigResolver)
  : result ConfigResolver LoadError :=
  match layers with
  | [] => Ok resolver
  | (layer, files) :: layers => let? resolver := load_files layer files resolver in load_all layers resolver
  end.

(** [BUILT_IN_DEFAULTS] is the text of the role routing table. *)
Definition load_layered_resolver (BUILT_IN_DEFAULTS config_dir project_dir : rstr)
  : result ConfigResolver LoadError :=
  let? resolver := map_err ParseFailed
    (with_toml ConfigResolver_new (MkSource BuiltInDefaults (lit "built-in defaults")) BUILT_IN_DEFAULTS) in
  let? resolver := map_err ParseFailed
    (with_toml resolver (MkSource BuiltInDefaults (lit "built-in watch defaults")) WATCH_BUILT_IN_DEFAULTS_TOML) in
  let? user := primary_and_shards config_dir (lit "user.toml") (lit "user.d") in
  let? org := primary_and_shards config_dir (lit "org.toml") (lit "org.d") in
  let? project := primary_and_shards project_dir (lit "orchestraitor.toml") (lit "orchestraitor.d") in
  let? dir := primary_and_shards config_dir (lit "dir.toml") (lit "dir.d") in
  load_all [(GlobalUser, user); (OrganizationTeam, org); (LayerProject, project); (DirectoryDomain, dir)] resolver.
End load.

(** ** The resolved settings *)

(** The value of a leaf of the merged configuration, of the wanted type. *)
Definition leaf_bool (p : list string) (c : OrchestraitorConfig) : option bool :=
  match config_leaf (lit <$> p) c with Some (VBool b) => Some b | _ => None end.
Definition leaf_num (p : list string) (c : OrchestraitorConfig) : option N :=
  match config_leaf (lit <$> p) c with Some (VNum n) => Some n | _ => None end.
Definition leaf_strs (p : list string) (c : OrchestraitorConfig) : option (list rstr) :=
  match config_leaf (lit <$> p) c with Some (VStrs l) => Some l | _ => None end.

Definition kickoff_leaf (f : string) (c : OrchestraitorConfig) : option bool := leaf_bool ["watch"; "kickoff"; f]%string c.

(** What the merged configuration asks for, with the built-in default for every key
    that no layer sets. *)
Record settings_of (merged : OrchestraitorConfig) (w : WatchConfig) : Prop := {
  so_interval : wc_poll_interval_secs w = default 60 (leaf_num ["watch"; "poll_interval_secs"]%string merged);
  so_new : new_eligible_work (wc_kickoff w) = default true (kickoff_leaf "new_eligible_work" merged);
  so_unblocked : unblocked_promotion (wc_kickoff w) = default true (kickoff_leaf "unblocked_promotion" merged);
  so_slot : slot_released_armed (wc_kickoff w) = default true (kickoff_leaf "slot_released" merged);
  so_budget : budget_window_reset_armed (wc_kickoff w) = default true (kickoff_leaf "budget_window_reset" merged);
  so_external : external_event (wc_kickoff w) = default false (kickoff_leaf "external_event" merged);
  so_identities : it_service_identities (wc_intake w)
    = default [lit "arbsec-agent"] (leaf_strs ["service_identities"]%string merged);
  so_ingress : is_enabled (wc_ingress w) = default false (leaf_bool ["watch"; "ingress"; "enabled"]%string merged);
  so_capacity : is_queue_capacity (wc_ingress w)
    = default 256 (leaf_num ["watch"; "ingress"; "queue_capacity"]%string merged);
  so_intake : it_enabled (wc_intake w) = default false (leaf_bool ["watch"; "intake"; "enabled"]%string merged);
}.

Lemma num_leaf_interval c :
  (oc_watch c ≫= wb_poll_interval_secs) = leaf_num ["watch"; "poll_interval_secs"]%string c.
Proof. destruct c as [? ? ? ? ? ? ? ? ? ? ? ? ? ? ? ? [[[]]|] ?]; reflexivity. Qed.

Lemma interval_resolved l :
  rv_value <$> foldl (λ resolved i,
      match oc_watch (ci_config i) ≫= wb_poll_interval_secs with
      | Some value => Some (MkResolved value (ci_source i) false)
      | None => resolved
      end) None l
  = leaf_num ["watch"; "poll_interval_secs"]%string
      (foldl (λ merged i, OrchestraitorConfig_merge merged (ci_config i)) OrchestraitorConfig_default l).
Proof.
  induction l as [|i l IH] using rev_ind; [done|]. rw !foldl_app. cbn [foldl].
  set (m := foldl _ OrchestraitorConfig_default l) in *. clearbody m. rw -num_leaf_interval in IH. rw -num_leaf_interval.
  cbn [OrchestraitorConfig_merge oc_watch].
  destruct (oc_watch (ci_config i)) as [b|] eqn:E; cbn [mbind option_bind];
    [|by destruct (oc_watch m)].
  destruct (wb_poll_interval_secs b) as [n|] eqn:En; destruct (oc_watch m) as [a|]; cbn; rw ?En; try done.
Qed.

Lemma with_intake_ok i k g t w : with_intake i k g t = Ok w ↔
  1 ≤ i ∧ 1 ≤ is_queue_capacity g ∧ w = MkWatchConfig i k g t.
Proof.
  unfold with_intake. destruct (i =? 0) eqn:?, (is_queue_capacity g =? 0) eqn:?; bool_simpl; split;
    try (intros [= <-]; split_and!; [lia..|done]); try done; try lia. by intros (_ & _ & ->).
Qed.

(** Each resolved block, leaf by leaf. *)
Lemma kickoff_resolved r merged : resolve_config r = Ok merged →
  resolve_kickoff r = Ok (MkKickoffSettings (default true (kickoff_leaf "new_eligible_work" merged))
    (default true (kickoff_leaf "unblocked_promotion" merged)) (default true (kickoff_leaf "slot_released" merged))
    (default true (kickoff_leaf "budget_window_reset" merged)) (default false (kickoff_leaf "external_event" merged))).
Proof.
  intros E. unfold resolve_kickoff, kickoff_leaf, leaf_bool. rw E. clear E.
  destruct merged as [? ? ? ? ? ? ? ? ? ? ? ? ? ? ? ? wt ?]. cbn [oc_watch map_err result_bind].
  destruct wt as [[? [[[] [] [] [] []]|] ? ?]|]; reflexivity.
Qed.

Lemma ingress_resolved r merged : resolve_config r = Ok merged →
  resolve_ingress r = Ok (MkIngressSettings (default false (leaf_bool ["watch"; "ingress"; "enabled"]%string merged))
    (default 256 (leaf_num ["watch"; "ingress"; "queue_capacity"]%string merged))).
Proof.
  intros E. unfold resolve_ingress, leaf_bool, leaf_num. rw E. clear E.
  destruct merged as [? ? ? ? ? ? ? ? ? ? ? ? ? ? ? ? wt ?]. cbn [oc_watch map_err result_bind].
  destruct wt as [[? ? [[[] []]|] ?]|]; reflexivity.
Qed.

Lemma intake_resolved r merged : resolve_config r = Ok merged →
  resolve_intake r = Ok (MkIntakeSettings (default false (leaf_bool ["watch"; "intake"; "enabled"]%string merged))
    (default [lit "arbsec-agent"] (leaf_strs ["service_identities"]%string merged))).
Proof.
  intros E. unfold resolve_intake, leaf_bool, leaf_strs. rw E. clear E.
  destruct merged as [? ? ? ? ? ? ? ? ? ? ? ? ? ? ids ? wt ?]. cbn [oc_watch oc_service_identities map_err result_bind].
  destruct wt as [[? ? ? [[[]]|]]|], ids; reflexivity.
Qed.

(** The daemon's settings are those of the merged configuration: every key the
    resolver reads gets the merged value, or the built-in default when no layer sets
    it, and a zero cadence or a zero queue capacity is rejected. *)
Theorem watch_settings_right r w :
  from_layers r = Ok w →
  ∃ merged, resolve_config r = Ok merged ∧ settings_of merged w
    ∧ 1 ≤ wc_poll_interval_secs w ∧ 1 ≤ is_queue_capacity (wc_ingress w).
Proof.
  unfold from_layers. intros (v & Hv%map_err_ok & H)%result_bind_ok.
  destruct (resolve_config r) as [merged|] eqn:E;
    [|unfold resolve_kickoff in H; rw E in H; discriminate H].
  exists merged. split; [done|].
  rw (kickoff_resolved _ _ E) (ingress_resolved _ _ E) (intake_resolved _ _ E) in H. cbn [result_bind] in H.
  apply with_intake_ok in H as (Hi & Hc & ->). cbn [wc_poll_interval_secs wc_ingress is_queue_capacity] in *.
  split; [|split; assumption]. apply resolve_config_ok in E as [Hu Em]. rw resolve_value_ok in Hv; [|apply Hu].
  injection Hv as Hv. pose proof (interval_resolved (sort_by_layer (cr_inputs r))) as Hl. rw Hv -Em in Hl.
  constructor; try reflexivity. cbn. rw -Hl. by destruct v.
Qed.

(** ** The layers the daemon loads *)

Section loaded.
Context `{Toml, ConfigFs}.

(** The resolver grew by inputs above the built-in layer. *)
Definition extends (r r' : ConfigResolver) : Prop :=
  ∃ files, cr_inputs r' = cr_inputs r ++ files ∧ Forall (λ i, klt BuiltInDefaults (input_layer i)) files.

Lemma extends_refl r : extends r r.
Proof. exists []. by rw app_nil_r. Qed.

Lemma extends_trans r1 r2 r3 : extends r1 r2 → extends r2 r3 → extends r1 r3.
Proof.
  intros (f & E & Hf) (g & E' & Hg). exists (f ++ g). rw E' E -app_assoc. split; [done|]. by apply Forall_app.
Qed.

Lemma with_toml_ok r s toml r' : with_toml r s toml = Ok r' →
  ∃ c d, from_str toml = Some c ∧ parse_document toml = Some d
    ∧ r' = MkResolver (cr_inputs r ++ [MkInput s c (collect_keys d)]).
Proof.
  unfold with_toml, parse_toml_config. destruct (parse_document toml) as [d|]; [|done].
  destruct (from_str toml) as [c|]; [|done]. cbn. intros [= <-]. eauto.
Qed.

Lemma load_files_extends layer files r r' : klt BuiltInDefaults layer →
  load_files layer files r = Ok r' → extends r r'.
Proof.
  intros Hl. revert r. induction files as [|file files IH]; intros r; cbn; [intros [= ->]; apply extends_refl|].
  destruct (fs_exists file); cbn [negb]; [|apply IH]. intros (c & _ & Hb)%result_bind_ok.
  apply result_bind_ok in Hb as (r1 & (? & ? & _ & _ & ->)%map_err_ok%with_toml_ok & Hb%IH).
  eapply extends_trans; [|exact Hb]. eexists. split; [done|]. by repeat constructor.
Qed.

Lemma load_all_extends layers r r' : Forall (λ l, klt BuiltInDefaults l.1) layers →
  load_all layers r = Ok r' → extends r r'.
Proof.
  intros Hl. revert r. induction Hl as [|[layer files] layers Hl _ IH]; intros r; cbn; [intros [= ->]; apply extends_refl|].
  intros (r1 & Hf & Ha%IH)%result_bind_ok. eapply extends_trans; [|exact Ha]. by eapply load_files_extends.
Qed.

Lemma load_layered_ok roles config_dir project_dir r :
  load_layered_resolver roles config_dir project_dir = Ok r →
  ∃ c1 c2 k1 k2 files, from_str roles = Some c1 ∧ from_str WATCH_BUILT_IN_DEFAULTS_TOML = Some c2
    ∧ cr_inputs r = MkInput (MkSource BuiltInDefaults (lit "built-in defaults")) c1 k1
                    :: MkInput (MkSource BuiltInDefaults (lit "built-in watch defaults")) c2 k2 :: files
    ∧ Forall (λ i, klt BuiltInDefaults (input_layer i)) files.
Proof.
  unfold load_layered_resolver. intros (r1 & (c1 & d1 & H1 & _ & ->)%map_err_ok%with_toml_ok & Hr)%result_bind_ok.
  apply result_bind_ok in Hr as (r2 & (c2 & d2 & H2 & _ & ->)%map_err_ok%with_toml_ok & Hr).
  do 4 (apply result_bind_ok in Hr as (? & _ & Hr)). apply load_all_extends in Hr as (files & E & Hf); [|by repeat constructor].
  exists c1, c2. do 2 eexists. exists files. split_and!; [done..|exact E|done].
Qed.
End loaded.

(** The smallest layer comes first, in the order of its inputs. *)
Lemma sort_insert_least i l : Forall (λ j, kle (input_layer i) (input_layer j)) l →
  sort_insert (by_key input_layer) i l = i :: l.
Proof. intros Hl. destruct Hl as [|j l Hj Hl]; cbn; [done|]. by rw decide_True. Qed.

Lemma sort_builtins_first i j files : input_layer i = BuiltInDefaults → input_layer j = BuiltInDefaults →
  Forall (λ k, klt BuiltInDefaults (input_layer k)) files →
  sort_by_layer (i :: j :: files) = i :: j :: sort_by_layer files.
Proof.
  intros Hi Hj Hf. unfold sort_by_layer. cbn [stable_sort foldr]. fold (stable_sort (by_key input_layer) files).
  assert (Forall (λ k, klt BuiltInDefaults (input_layer k)) (stable_sort (by_key input_layer) files)) as Hs
    by by rw stable_sort_Permutation.
  rw (sort_insert_least j); [rw sort_insert_least; [done|]|].
  - constructor; [by rw Hi Hj|]. eapply Forall_impl; [exact Hs|]. intros k Hk. rw Hi. by apply klt_le.
  - eapply Forall_impl; [exact Hs|]. intros k Hk. rw Hj. by apply klt_le.
Qed.

(** A [watch] block, once merged, keeps its [ingress] and [intake]. *)
Lemma fold_watch_frozen b l acc : oc_watch acc = Some b →
  ∃ b', oc_watch (foldl (λ merged i, OrchestraitorConfig_merge merged (ci_config i)) acc l) = Some b'
    ∧ wb_ingress b' = wb_ingress b ∧ wb_intake b' = wb_intake b.
Proof.
  revert acc b. induction l as [|i l IH]; intros acc b Hb; cbn [foldl]; [eauto|].
  destruct (oc_watch (ci_config i)) as [n|] eqn:En.
  - destruct (IH (OrchestraitorConfig_merge acc (ci_config i)) (WatchConfigBlock_merge b n)) as (b' & -> & E1 & E2).
    + cbn [OrchestraitorConfig_merge oc_watch]. by rw Hb En.
    + exists b'. by rw E1 E2.
  - apply IH. cbn [OrchestraitorConfig_merge oc_watch]. by rw Hb En.
Qed.

(** The block of [WATCH_BUILT_IN_DEFAULTS_TOML]. *)
Definition watch_defaults : WatchConfigBlock :=
  MkWatchBlock (Some 60) (Some (MkWatchKickoff (Some true) (Some true) (Some true) (Some true) (Some false)))
    (Some (MkWatchIngress (Some false) (Some 256))) (Some (MkWatchIntake (Some false))).

(** C29. With the layers the daemon loads, the ingress and the intake lane keep their
    built-in settings (off, 256 events) whatever the operator's files say: the
    defaults layer carries the [watch] block, and the merge drops the [ingress] and
    [intake] tables of every later layer. *)
Theorem ingress_stays_off `{Toml, ConfigFs} roles roles_config watch_config config_dir project_dir r w :
  from_str roles = Some roles_config → oc_watch roles_config = None →
  from_str WATCH_BUILT_IN_DEFAULTS_TOML = Some watch_config → oc_watch watch_config = Some watch_defaults →
  load_layered_resolver roles config_dir project_dir = Ok r → from_layers r = Ok w →
  wc_ingress w = IngressSettings_builtin_defaults ∧ it_enabled (wc_intake w) = false.
Proof.
  intros Hr Hrw Hw Hww (c1 & c2 & k1 & k2 & files & H1 & H2 & Hin & Hf)%load_layered_ok Hl.
  rw Hr in H1. injection H1 as <-. rw Hw in H2. injection H2 as <-.
  unfold from_layers in Hl. apply result_bind_ok in Hl as (v & _ & Hl).
  destruct (resolve_config r) as [merged|] eqn:E; [|unfold resolve_kickoff in Hl; rw E in Hl; discriminate Hl].
  apply result_bind_ok in Hl as (k & _ & Hl). apply result_bind_ok in Hl as (g & Hg & Hl).
  apply result_bind_ok in Hl as (t & Ht & (_ & _ & ->)%with_intake_ok). cbn [wc_ingress wc_intake].
  unfold resolve_ingress in Hg. unfold resolve_intake in Ht. rw E in Hg. rw E in Ht. cbn [map_err result_bind] in Hg, Ht.
  apply resolve_config_ok in E as [_ Em]. rw Hin sort_builtins_first in Em; [|done..]. cbn [foldl] in Em.
  set (acc := OrchestraitorConfig_merge (OrchestraitorConfig_merge _ _) _) in Em.
  assert (oc_watch acc = Some watch_defaults) as Ha.
  { unfold acc. cbn [OrchestraitorConfig_merge oc_watch ci_config]. by rw Hrw Hww. }
  destruct (fold_watch_frozen _ (sort_by_layer files) acc Ha) as (b' & Hb & E1 & E2). rw -Em in Hb.
  rw Hb in Hg. rw Hb in Ht. cbn [mbind option_bind] in Hg, Ht. rw E1 in Hg. rw E2 in Ht.
  injection Hg as <-. injection Ht as <-. split; reflexivity.
Qed.

(** ** Examples *)

Definition with_watch (b : option WatchConfigBlock) : OrchestraitorConfig :=
  MkConfig None None None None None None None None None None None None None None None None b None.

(** An operator who turns the ingress on in [user.toml]. *)
Definition user_block : WatchConfigBlock :=
  MkWatchBlock (Some 30) None (Some (MkWatchIngress (Some true) None)) (Some (MkWatchIntake (Some true))).

Definition example_toml : Toml := {|
  parse_document t := Some (if bool_decide (t = lit "user") then
      ITable [(lit "watch", ITable [(lit "ingress", ITable [(lit "enabled", IOther)])])] else ITable []);
  from_str t := Some (with_watch (if bool_decide (t = lit "user") then Some user_block
                                  else if bool_decide (t = lit "roles") then None else Some watch_defaults));
  to_string _ := None;
|}.

Definition example_fs : ConfigFs := {|
  fs_exists p := bool_decide (p = lit "cfg/user.toml");
  fs_read_to_string p := if bool_decide (p = lit "cfg/user.toml") then Some (lit "user") else None;
  fs_read_dir _ := DirNotFound;
|}.

Lemma ingress_stays_off_witness :
  ∃ r w, @load_layered_resolver example_toml example_fs (lit "roles") (lit "cfg") (lit "prj") = Ok r
    ∧ from_layers r = Ok w ∧ wc_poll_interval_secs w = 30 ∧ wc_ingress w = IngressSettings_builtin_defaults
    ∧ it_enabled (wc_intake w) = false.
Proof.
  pose proof (@ingress_stays_off example_toml example_fs (lit "roles") (with_watch None)
    (with_watch (Some watch_defaults)) (lit "cfg") (lit "prj")) as H.
  destruct (@load_layered_resolver example_toml example_fs (lit "roles") (lit "cfg") (lit "prj")) as [r|] eqn:Er;
    [|vm_compute in Er; discriminate].
  destruct (from_layers r) as [w|] eqn:Ew.
  - specialize (H r w eq_refl eq_refl eq_refl eq_refl eq_refl Ew) as [H1 H2].
    exists r, w. split; [reflexivity|]. split; [exact Ew|]. split; [|split; assumption].
    vm_compute in Er. injection Er as <-. vm_compute in Ew. injection Ew as <-. reflexivity.
  - exfalso. vm_compute in Er. injection Er as <-. vm_compute in Ew. discriminate.
Defined.

Lemma watch_settings_right_witness :
  ∃ merged w, from_layers (MkResolver []) = Ok w ∧ settings_of merged w ∧ wc_poll_interval_secs w = 60.
Proof.
  destruct (from_layers (MkResolver [])) as [w|] eqn:E; [|vm_compute in E; discriminate].
  destruct (watch_settings_right (MkResolver []) w E) as (merged & Hm & Hs & _).
  exists merged, w. split; [reflexivity|]. split; [exact Hs|].
  vm_compute in E. injection E as <-. reflexivity.
Defined.
