(* ===== verification/Watch.v ===== *)
(** * The watch daemon's reconcile poller

    [crates/orchestraitor-daemon/src/watch.rs]: the poller that reconciles every
    board snapshot and records what it observed, and the start of a watch
    invocation.  The four mutexes of the poller are the fields of one record: no
    critical section panics, so none is ever poisoned.  The inner poller's answer
    and the clock are inputs; the event store may fail at any append. *)

From S2P Require Import Prelude BTree Text Model Events AuditExample Board Campaign RunState Kickoff Preservation.

(** ** The poller *)

Record ReconcilePoller (S : Type) := MkPoller {
  rp_events : S;
  rp_sink : list ReconcileOutcome;
  rp_previous_blocked : list ReadyItem;
  rp_diverged_seen : gset rstr;
  rp_recovered_orphaned : list RunRow;
}.
#[global] Arguments MkPoller {S}.
#[global] Arguments rp_events {S}.
#[global] Arguments rp_sink {S}.
#[global] Arguments rp_previous_blocked {S}.
#[global] Arguments rp_diverged_seen {S}.
#[global] Arguments rp_recovered_orphaned {S}.

Definition ReconcilePoller_new {S} (events : S) : ReconcilePoller S := MkPoller events [] [] ∅ [].

Definition set_recovered {S} (recovered : list RunRow) (p : ReconcilePoller S) : ReconcilePoller S :=
  MkPoller (rp_events p) (rp_sink p) (rp_previous_blocked p) (rp_diverged_seen p) recovered.

Definition begin_invocation {S} (p : ReconcilePoller S) : ReconcilePoller S :=
  MkPoller (rp_events p) (rp_sink p) (rp_previous_blocked p) ∅ (rp_recovered_orphaned p).

Definition event_payload (event : ReconcileEvent) : Value :=
  match event with
  | BoardDiverged task_id _ =>
      VObject [(lit "event", VString (lit "board-diverged")); (lit "task_id", VString task_id)]
  | UnblockedTaskPromoted task_id number repo =>
      VObject [(lit "event", VString (lit "unblocked-task-promoted")); (lit "task_id", VString task_id);
               (lit "number", num number); (lit "repo", VString repo)]
  end.

(** A poll that failed: the board, or one of the three steps of a record. *)
Inductive WatchPollError := PollBoard (message : rstr) | EventHead | EventEnvelopeError | EventAppend.

Section poll.
Context {S : Type} `{AuditStore S}.

(** The timestamp and the identifier generated for each record. *)
Abbreviation stamp := (rstr * OperationId)%type.

Fixpoint record_events (s : S) (events : list ReconcileEvent) (at_ : stamp) : S * result unit WatchPollError :=
  match events with
  | [] => (s, Ok tt)
  | event :: events =>
      match store_head s with
      | Err _ => (s, Err EventHead)
      | Ok head =>
          match EventEnvelope_try_new {|
            inp_schema_version := CURRENT_SCHEMA_VERSION;
            inp_monotonic_seq := saturating_add u64_max (seq_base head) 1;
            inp_wall_clock_ts := at_.1;
            inp_correlation_id := at_.2;
            inp_parent_op_id := None;
            inp_category := ToolRequest;
            inp_payload := event_payload event;
            inp_prev_hash := head_prev_hash head |} with
          | Err _ => (s, Err EventEnvelopeError)
          | Ok envelope =>
              let '(s, appended) := store_append s envelope in
              match appended with
              | Err _ => (s, Err EventAppend)
              | Ok _ => record_events s events at_
              end
          end
      end
  end.

(** The state after one event was recorded. *)
Definition note_event (event : ReconcileEvent) (p : ReconcilePoller S) : ReconcilePoller S :=
  match event with
  | BoardDiverged task_id _ =>
      MkPoller (rp_events p) (rp_sink p) (rp_previous_blocked p) ({[task_id]} ∪ rp_diverged_seen p)
        (rp_recovered_orphaned p)
  | UnblockedTaskPromoted _ number repo =>
      MkPoller (rp_events p) (rp_sink p)
        (List.filter (λ c, negb (bool_decide (r_repo c = repo) && bool_decide (r_number c = number)))
           (rp_previous_blocked p))
        (rp_diverged_seen p) (rp_recovered_orphaned p)
  end.

(** [for event in &events], each with the stamp of its record. *)
Fixpoint record_batch (p : ReconcilePoller S) (events : list ReconcileEvent) (stamps : list stamp)
  : ReconcilePoller S * result unit WatchPollError :=
  match events with
  | [] => (p, Ok tt)
  | event :: events =>
      let '(s, recorded) := record_events (rp_events p) [event] (default ([], MkOperationId []) (head stamps)) in
      let p := MkPoller s (rp_sink p) (rp_previous_blocked p) (rp_diverged_seen p) (rp_recovered_orphaned p) in
      match recorded with
      | Err e => (p, Err e)
      | Ok _ => record_batch (note_event event p) events (tail stamps)
      end
  end.

Definition unseen (seen : gset rstr) (event : ReconcileEvent) : bool :=
  match event with
  | BoardDiverged task_id _ => negb (bool_decide (task_id ∈ seen))
  | UnblockedTaskPromoted _ _ _ => true
  end.

Definition watch_poll (p : ReconcilePoller S) (inner : result BoardSnapshot rstr) (stamps : list stamp)
  : ReconcilePoller S * result BoardSnapshot WatchPollError :=
  match inner with
  | Err message => (p, Err (PollBoard message))
  | Ok snapshot =>
      let outcome := reconcile snapshot (rp_previous_blocked p) (rp_recovered_orphaned p) in
      let events := List.filter (unseen (rp_diverged_seen p)) (rec_events outcome) in
      let '(p, recorded) := if is_empty events then (p, Ok tt) else
        let '(p, recorded) := record_batch p events stamps in
        (match recorded with
         | Ok _ => MkPoller (rp_events p) (rp_sink p ++ [MkReconcileOutcome events (rec_ready_task_ids outcome)])
                     (rp_previous_blocked p) (rp_diverged_seen p) (rp_recovered_orphaned p)
         | Err _ => p
         end, recorded) in
      match recorded with
      | Err e => (p, Err e)
      | Ok _ => (MkPoller (rp_events p) (rp_sink p) (bs_blocked_candidates snapshot) (rp_diverged_seen p)
                   (rp_recovered_orphaned p), Ok snapshot)
      end
  end.

(** The start of [run_watch]: restart recovery, then the poller's invocation. *)
Definition begin_watch (runs : LoopRunStore) (p : ReconcilePoller S) (start_unix_secs : N) (f read_fault : fault)
  : LoopRunStore * result (ReconcilePoller S) CampaignError :=
  let '(runs, recovered) := recover_running_rows runs start_unix_secs f read_fault in
  (runs, let? recovered := recovered in Ok (begin_invocation (set_recovered recovered p))).
End poll.

(** ** What a poll records *)

(** The part of a store's promise the poller needs: an append adds its event or
    changes nothing; it may fail at any time. *)
Class AppendsOrKeeps (S : Type) `{AuditStore S} := {
  alog : S → list Value;
  appends s e : alog (store_append s e).1
    = match (store_append s e).2 with Ok _ => alog s ++ [payload e] | Err _ => alog s end;
}.

Definition item_key (c : ReadyItem) : rstr * N := (r_repo c, r_number c).

(** What a poll of the snapshot has left to record. *)
Definition pending {S} (snapshot : BoardSnapshot) (p : ReconcilePoller S) : list ReconcileEvent :=
  List.filter (unseen (rp_diverged_seen p))
    (rec_events (reconcile snapshot (rp_previous_blocked p) (rp_recovered_orphaned p))).

(** One recovered row per task, one candidate per issue. *)
Definition distinct {S} (p : ReconcilePoller S) : Prop :=
  NoDup (row_task <$> rp_recovered_orphaned p) ∧ NoDup (item_key <$> rp_previous_blocked p).

Definition diverged_task (event : ReconcileEvent) : option rstr :=
  match event with BoardDiverged task_id _ => Some task_id | UnblockedTaskPromoted _ _ _ => None end.

Section recorded.
Context {S : Type} `{AppendsOrKeeps S}.
Implicit Types p : ReconcilePoller S.

Lemma record_events_one s event at_ :
  alog (record_events s [event] at_).1
  = match (record_events s [event] at_).2 with
    | Ok _ => alog s ++ [event_payload event]
    | Err _ => alog s
    end.
Proof.
  cbn [record_events]. destruct (store_head s) as [head|]; [|done].
  destruct (EventEnvelope_try_new _) as [e|] eqn:Ee; [|done].
  apply try_new_ok in Ee as (_ & _ & Hp & _). cbn in Hp. pose proof (appends s e) as Ha.
  destruct (store_append s e) as [s' [r|x]]; cbn in *; by rw Ha ?Hp.
Qed.

(** The two halves of the events. *)
Definition divergences (open : gset rstr) (rows : list RunRow) : list ReconcileEvent :=
  omap (λ row, if bool_decide (row_task row ∈ open) then None
               else Some (BoardDiverged (row_task row) (row_status row))) rows.
Definition promotions (ready : gset rstr) (previous : list ReadyItem) : list ReconcileEvent :=
  omap (λ c, if bool_decide (task_id_of c ∈ ready) then Some (UnblockedTaskPromoted (task_id_of c) (r_number c) (r_repo c))
             else None) previous.

Definition open_ids (snapshot : BoardSnapshot) : gset rstr :=
  list_to_set ((λ f, task_id_for (if_repo f) (if_number f)) <$> bs_open snapshot).
Definition ready_ids_of (snapshot : BoardSnapshot) : gset rstr := list_to_set (task_id_of <$> bs_ready snapshot).

Lemma filter_divergences open rows seen seen' :
  (∀ r, r ∈ rows → row_task r ∈ seen ↔ row_task r ∈ seen') →
  List.filter (unseen seen) (divergences open rows) = List.filter (unseen seen') (divergences open rows).
Proof.
  intros Hs. induction rows as [|r rows IH]; [done|]. cbn.
  destruct (bool_decide (row_task r ∈ open)); [apply IH; set_solver|]. cbn.
  rw (bool_decide_ext _ _ (Hs r (list_elem_of_here _ _))) IH; [done|set_solver].
Qed.

Lemma filter_promotions ready previous seen :
  List.filter (unseen seen) (promotions ready previous) = promotions ready previous.
Proof. induction previous as [|c previous IH]; [done|]. cbn. destruct (bool_decide _); cbn; [by f_equal|done]. Qed.

Lemma pending_split snapshot p :
  pending snapshot p
  = List.filter (unseen (rp_diverged_seen p)) (divergences (open_ids snapshot) (rp_recovered_orphaned p))
    ++ promotions (ready_ids_of snapshot) (rp_previous_blocked p).
Proof. by rw -(filter_promotions _ _ (rp_diverged_seen p)) -List.filter_app. Qed.

Lemma divergences_head open rows seen event rest :
  NoDup (row_task <$> rows) → List.filter (unseen seen) (divergences open rows) = event :: rest →
  ∃ t st, event = BoardDiverged t st ∧ List.filter (unseen ({[t]} ∪ seen)) (divergences open rows) = rest.
Proof.
  induction rows as [|r rows IH]; [done|]. rw fmap_cons. intros [Hr Hn]%NoDup_cons. cbn [divergences omap list_omap].
  case_bool_decide as Ho; [by apply IH|]. fold (divergences open rows). cbn [List.filter unseen].
  case_bool_decide as Hs; cbn [negb]; intros Hf.
  - destruct (IH Hn Hf) as (t & st & -> & Hrest). exists t, st. split; [done|].
    by rw bool_decide_eq_true_2; [|set_solver].
  - injection Hf as <- <-. exists (row_task r), (row_status r). split; [done|].
    rw bool_decide_eq_true_2; [|set_solver]. cbn [negb]. apply filter_divergences.
    intros r' Hr'. rw elem_of_union elem_of_singleton. split; [|by right]. intros [E|]; [|done].
    destruct Hr. rw -E. apply list_elem_of_fmap. eauto.
Qed.

Lemma promotions_head ready previous event rest :
  NoDup (item_key <$> previous) → promotions ready previous = event :: rest →
  ∃ t n repo, event = UnblockedTaskPromoted t n repo
    ∧ promotions ready (List.filter
        (λ c, negb (bool_decide (r_repo c = repo) && bool_decide (r_number c = n))) previous) = rest.
Proof.
  induction previous as [|c previous IH]; [done|]. rw fmap_cons. intros [Hc Hn]%NoDup_cons.
  cbn [promotions omap list_omap]. destruct (bool_decide (task_id_of c ∈ ready)) eqn:Er; intros Hf.
  - injection Hf as <- <-. exists (task_id_of c), (r_number c), (r_repo c). split; [done|].
    cbn [List.filter]. rw !bool_decide_eq_true_2; [|done..]. cbn [andb negb]. f_equal. apply filter_all.
    intros c' Hc'. apply negb_true_iff, andb_false_iff. rw !bool_decide_eq_false.
    destruct (decide (r_repo c' = r_repo c)) as [E|]; [|by left]. right. intros E'. destruct Hc.
    apply list_elem_of_fmap. exists c'. split; [|done]. unfold item_key. by rw E E'.
  - destruct (IH Hn Hf) as (t & n & repo & -> & Hrest). exists t, n, repo. split; [done|]. cbn [List.filter].
    destruct (negb _); [|done]. cbn [promotions omap list_omap]. by rw Er.
Qed.

(** Recording the first pending event leaves the others pending. *)
Lemma pending_note snapshot p event rest : distinct p → pending snapshot p = event :: rest →
  pending snapshot (note_event event p) = rest ∧ distinct (note_event event p).
Proof.
  intros [Hr Hc]. rw !pending_split. destruct (List.filter _ _) as [|e es] eqn:Ed; cbn [app].
  - intros Hp. destruct (promotions_head _ _ _ _ Hc Hp) as (t & n & repo & -> & Hrest). cbn [note_event]. split.
    + cbn [rp_diverged_seen rp_recovered_orphaned rp_previous_blocked]. by rw Ed Hrest.
    + split; [done|]. cbn [rp_previous_blocked]. by apply NoDup_fmap_filter.
  - intros [= -> <-]. destruct (divergences_head _ _ _ _ _ Hr Ed) as (t & st & -> & Hrest). cbn [note_event].
    split; [|done]. cbn [rp_diverged_seen rp_recovered_orphaned rp_previous_blocked]. by rw Hrest.
Qed.

(** A batch records a prefix of what is pending, and leaves exactly the rest. *)
Lemma record_batch_spec snapshot p events stamps : distinct p → pending snapshot p = events →
  ∃ n, alog (rp_events (record_batch p events stamps).1) = alog (rp_events p) ++ (event_payload <$> take n events)
    ∧ pending snapshot (record_batch p events stamps).1 = drop n events
    ∧ distinct (record_batch p events stamps).1
    ∧ rp_recovered_orphaned (record_batch p events stamps).1 = rp_recovered_orphaned p
    ∧ rp_diverged_seen (record_batch p events stamps).1
      = list_to_set (omap diverged_task (take n events)) ∪ rp_diverged_seen p
    ∧ (n ≤ length events)%nat
    ∧ match (record_batch p events stamps).2 with Ok _ => n = length events | Err _ => (n < length events)%nat end.
Proof.
  revert p stamps. induction events as [|event events IH]; intros p stamps Hd Hp.
  { exists 0%nat. cbn. rw app_nil_r. split_and!; try done. set_solver. }
  cbn [record_batch]. pose proof (record_events_one (rp_events p) event (default ([], MkOperationId []) (head stamps))) as Ho.
  destruct (record_events _ _ _) as [s [u|e]]; cbn [fst snd] in Ho |- *.
  - set (p1 := MkPoller s _ _ _ _).
    destruct (pending_note snapshot p1 event events) as [Hp2 Hd2]; [done..|].
    destruct (IH (note_event event p1) (tail stamps) Hd2 Hp2) as (n & H1 & H2 & H3 & H4 & H5 & H6 & H7).
    exists (Datatypes.S n). rw H1 H4 H5. cbn [take drop fmap list_fmap omap list_omap length].
    assert (rp_events (note_event event p1) = s) as -> by by destruct event.
    assert (rp_recovered_orphaned (note_event event p1) = rp_recovered_orphaned p) as -> by by destruct event.
    rw Ho -app_assoc. split_and!; try done; try lia.
    + destruct event as [t st|]; cbn; set_solver.
    + destruct (record_batch _ _ _).2; lia.
  - exists 0%nat. cbn [take drop fmap list_fmap omap list_omap length rp_events rp_recovered_orphaned rp_diverged_seen].
    rw app_nil_r Ho. split_and!; try done; try lia. set_solver.
Qed.

(** One poll. *)
Lemma watch_poll_spec snapshot p stamps : distinct p → NoDup (item_key <$> bs_blocked_candidates snapshot) →
  let p' := (watch_poll p (Ok snapshot) stamps).1 in
  ∃ n, alog (rp_events p') = alog (rp_events p) ++ (event_payload <$> take n (pending snapshot p))
    ∧ distinct p' ∧ rp_recovered_orphaned p' = rp_recovered_orphaned p
    ∧ rp_diverged_seen p' = list_to_set (omap diverged_task (take n (pending snapshot p))) ∪ rp_diverged_seen p
    ∧ match (watch_poll p (Ok snapshot) stamps).2 with
      | Ok s => s = snapshot ∧ (length (pending snapshot p) ≤ n)%nat
                ∧ rp_previous_blocked p' = bs_blocked_candidates snapshot
      | Err _ => pending snapshot p' = drop n (pending snapshot p)
      end.
Proof.
  intros Hd Hs. cbn [watch_poll]. change (List.filter _ (rec_events _)) with (pending snapshot p).
  destruct (is_empty (pending snapshot p)) eqn:Ee; cbn [fst snd].
  - apply is_empty_spec in Ee. exists 0%nat. rw Ee. cbn. rw app_nil_r. destruct Hd as [Hr Hc].
    split_and!; try done. set_solver.
  - destruct (record_batch_spec snapshot p _ stamps Hd eq_refl) as (n & H1 & H2 & H3 & H4 & H5 & H6 & H7). exists n.
    destruct (record_batch p (pending snapshot p) stamps) as [p1 [u|e]]; cbn in *.
    + split_and!; try done; [|lia]. split; [by rw H4; destruct Hd|done].
    + by split_and!.
Qed.

(** A sequence of polls, with what each returned. *)
Fixpoint watch_polls p (ticks : list (result BoardSnapshot rstr * list (rstr * OperationId)))
  : ReconcilePoller S * list (result BoardSnapshot WatchPollError) :=
  match ticks with
  | [] => (p, [])
  | (inner, stamps) :: ticks =>
      let '(p, out) := watch_poll p inner stamps in
      let '(p, outs) := watch_polls p ticks in (p, out :: outs)
  end.

Definition distinct_tick (tick : result BoardSnapshot rstr * list (rstr * OperationId)) : Prop :=
  match tick.1 with Ok snapshot => NoDup (item_key <$> bs_blocked_candidates snapshot) | Err _ => True end.

Lemma promotions_undiverged ready previous : omap diverged_task (promotions ready previous) = [].
Proof. induction previous as [|c previous IH]; [done|]. cbn. by destruct (bool_decide _). Qed.

(** The tasks a poll would report as diverged. *)
Lemma pending_diverged snapshot p t :
  t ∈ omap diverged_task (pending snapshot p)
  ↔ t ∉ rp_diverged_seen p ∧ ∃ row, row ∈ rp_recovered_orphaned p ∧ row_task row = t ∧ t ∉ open_ids snapshot.
Proof.
  rw pending_split omap_app promotions_undiverged app_nil_r list_elem_of_omap. split.
  - intros (e & [He Hu]%elem_of_filter_bool & Ht). unfold divergences in He.
    apply list_elem_of_omap in He as (row & Hrow & E). case_bool_decide; [done|]. injection E as <-.
    cbn in Ht, Hu. injection Ht as <-. rw negb_true_iff bool_decide_eq_false in Hu. eauto.
  - intros (Hs & row & Hrow & <- & Ho). exists (BoardDiverged (row_task row) (row_status row)). split; [|done].
    apply elem_of_filter_bool. split; [|cbn; by rw bool_decide_eq_false_2].
    apply list_elem_of_omap. exists row. by rw bool_decide_eq_false_2.
Qed.

Lemma pending_diverged_NoDup snapshot p : distinct p → NoDup (omap diverged_task (pending snapshot p)).
Proof.
  intros [Hr _]. rw pending_split omap_app promotions_undiverged app_nil_r. revert Hr.
  generalize (rp_recovered_orphaned p). intros rows. induction rows as [|r rows IH]; [constructor|].
  rw fmap_cons. intros [Hr Hn]%NoDup_cons. cbn. case_bool_decide; [by apply IH|]. cbn.
  destruct (bool_decide (row_task r ∈ _)); cbn; [by apply IH|]. constructor; [|by apply IH].
  intros Hin. apply Hr. apply list_elem_of_omap in Hin as (e & [He _]%elem_of_filter_bool & Ht).
  apply list_elem_of_omap in He as (row & Hrow & E). case_bool_decide; [done|]. injection E as <-.
  cbn in Ht. injection Ht as <-. apply list_elem_of_fmap. eauto.
Qed.

Definition reported (p p' : ReconcilePoller S) (events : list ReconcileEvent) : Prop :=
  alog (rp_events p') = alog (rp_events p) ++ (event_payload <$> events)
  ∧ NoDup (omap diverged_task events)
  ∧ (∀ t, t ∈ omap diverged_task events → t ∉ rp_diverged_seen p ∧ t ∈ row_task <$> rp_recovered_orphaned p)
  ∧ rp_diverged_seen p' = list_to_set (omap diverged_task events) ∪ rp_diverged_seen p
  ∧ rp_recovered_orphaned p' = rp_recovered_orphaned p.

Lemma reported_trans p1 p2 p3 es fs : reported p1 p2 es → reported p2 p3 fs → reported p1 p3 (es ++ fs).
Proof.
  intros (L1 & N1 & D1 & S1 & R1) (L2 & N2 & D2 & S2 & R2). unfold reported. rw omap_app fmap_app. split_and!.
  - by rw L2 L1 -app_assoc.
  - apply NoDup_app. split_and!; [done| |done]. intros t Ht Ht'. destruct (D2 t Ht') as [Hn _]. set_solver.
  - intros t [Ht|Ht]%elem_of_app; [by apply D1|]. destruct (D2 t Ht) as [Hn Hr]. rw -R1. set_solver.
  - rw S2 S1 list_to_set_app_L. set_solver.
  - congruence.
Qed.

Lemma watch_poll_reports snapshot p stamps : distinct p → NoDup (item_key <$> bs_blocked_candidates snapshot) →
  ∃ events, reported p (watch_poll p (Ok snapshot) stamps).1 events
    ∧ distinct (watch_poll p (Ok snapshot) stamps).1
    ∧ match (watch_poll p (Ok snapshot) stamps).2 with
      | Ok s => s = snapshot ∧ ∀ row, row ∈ rp_recovered_orphaned p → row_task row ∉ open_ids snapshot →
                  row_task row ∈ rp_diverged_seen (watch_poll p (Ok snapshot) stamps).1
      | Err _ => True
      end.
Proof.
  intros Hd Hs. destruct (watch_poll_spec snapshot p stamps Hd Hs) as (n & H1 & H2 & H3 & H4 & H5).
  assert (∀ t, t ∈ omap diverged_task (take n (pending snapshot p)) → t ∈ omap diverged_task (pending snapshot p)) as Hsub.
  { intros t Ht. rw -(take_drop n (pending snapshot p)) omap_app elem_of_app. by left. }
  exists (take n (pending snapshot p)). split; [|split; [done|]].
  - split_and!; [done| | |done|done].
    + pose proof (pending_diverged_NoDup snapshot p Hd) as HN. rw -(take_drop n (pending snapshot p)) omap_app in HN.
      by apply NoDup_app in HN as (HN & _).
    + intros t (Hn & row & Hrow & <- & _)%Hsub%pending_diverged. split; [done|]. apply list_elem_of_fmap. eauto.
  - destruct (watch_poll p (Ok snapshot) stamps).2; [|done]. destruct H5 as (-> & Hn & _). split; [done|].
    intros row Hrow Ho. rw H4 take_ge; [|done]. destruct (decide (row_task row ∈ rp_diverged_seen p)); [set_solver|].
    apply elem_of_union_l, elem_of_list_to_set, pending_diverged. eauto.
Qed.

Lemma watch_poll_board_failed p message stamps : watch_poll p (Err message) stamps = (p, Err (PollBoard message)).
Proof. done. Qed.

Lemma reported_refl p : reported p p [].
Proof. unfold reported. cbn. rw app_nil_r. split_and!; try done; [constructor|by intros ? ?%not_elem_of_nil|set_solver]. Qed.

Lemma watch_polls_report ticks p p' outs : distinct p → Forall distinct_tick ticks →
  watch_polls p ticks = (p', outs) →
  ∃ events, reported p p' events
    ∧ ∀ snapshot row, Ok snapshot ∈ outs → row ∈ rp_recovered_orphaned p → row_task row ∉ open_ids snapshot →
        row_task row ∈ rp_diverged_seen p'.
Proof.
  intros Hd Ht. revert p outs Hd. induction Ht as [|[[snapshot|message] st] ticks Htick _ IH]; intros p outs Hd; cbn [watch_polls].
  - intros [= <- <-]. exists []. split; [apply reported_refl|]. by intros ? ? ?%not_elem_of_nil.
  - destruct (watch_poll_reports snapshot p st Hd Htick) as (es & Hr & Hd' & Hok).
    destruct (watch_poll p (Ok snapshot) st) as [q out]. cbn [fst snd] in Hr, Hd', Hok.
    destruct (watch_polls q ticks) as [q' outs'] eqn:Eq. intros [= <- <-].
    destruct (IH q outs' Hd' Eq) as (fs & Hr' & Hall). exists (es ++ fs). split; [by eapply reported_trans|].
    intros snap row [E|Hin]%elem_of_cons Hrow Ho.
    + subst out. destruct Hok as [-> Hok]. destruct Hr' as (_ & _ & _ & -> & _). apply elem_of_union_r. by apply Hok.
    + destruct Hr as (_ & _ & _ & _ & Hrec). eapply Hall; [done|by rw Hrec|done].
  - rw watch_poll_board_failed. destruct (watch_polls p ticks) as [q' outs'] eqn:Eq. intros [= <- <-].
    destruct (IH p outs' Hd Eq) as (fs & Hr' & Hall). exists fs. split; [done|].
    intros snap row [E|Hin]%elem_of_cons Hrow Ho; [done|]. by eapply Hall.
Qed.
End recorded.

(** ** Theorems *)

(** A poll that could not be recorded is retried without loss or repetition.
    When any number of polls of one board state fail, at whichever append, and a
    later one succeeds, the store has received exactly the events that were pending
    at the first, each once and in order, and the poller compares the next tick with
    this snapshot. *)
Theorem reconcile_retries_exact {S} `{AppendsOrKeeps S} (p p1 p2 : ReconcilePoller S) snapshot ticks outs stamps :
  distinct p → NoDup (item_key <$> bs_blocked_candidates snapshot) →
  Forall (λ t, t.1 = Ok snapshot ∨ ∃ message, t.1 = Err message) ticks →
  watch_polls p ticks = (p1, outs) → Forall (λ o, ∃ e, o = Err e) outs →
  watch_poll p1 (Ok snapshot) stamps = (p2, Ok snapshot) →
  alog (rp_events p2) = alog (rp_events p) ++ (event_payload <$> pending snapshot p)
  ∧ rp_previous_blocked p2 = bs_blocked_candidates snapshot.
Proof.
  intros Hd Hs Ht Hp Ho Hlast. revert p outs Hd Hp Ho.
  induction Ht as [|[inner st] ticks [Hi|[message Hi]] _ IH]; intros p outs Hd; cbn [watch_polls].
  - intros [= <- <-] _. destruct (watch_poll_spec snapshot p stamps Hd Hs) as (n & H1 & _ & _ & _ & H5).
    rw Hlast in H1, H5. cbn [fst snd] in H1, H5. destruct H5 as (_ & Hn & Hb). rw take_ge in H1; [|done]. done.
  - cbn in Hi. subst inner. destruct (watch_poll_spec snapshot p st Hd Hs) as (n & H1 & H2 & _ & _ & H5).
    destruct (watch_poll p (Ok snapshot) st) as [q out]. cbn [fst snd] in H1, H2, H5.
    destruct (watch_polls q ticks) as [q' outs'] eqn:Eq. intros [= -> <-] [[e ->] Ho]%Forall_cons.
    destruct (IH q outs' H2 Eq Ho) as [Hl Hb]. split; [|done].
    rw Hl H1 H5 -app_assoc -fmap_app take_drop. done.
  - cbn in Hi. subst inner. cbn [watch_poll]. destruct (watch_polls p ticks) as [q' outs'] eqn:Eq.
    intros [= -> <-] [_ Ho]%Forall_cons. by apply (IH p outs').
Qed.

(** Within an invocation the overruling of a recovered run is recorded at most
    once per task, whatever the polls return: the store grows by events that name
    each diverged task once, all of them tasks of recovered rows, and a poll that
    succeeds leaves no recovered task absent from the board unrecorded. *)
Theorem divergence_recorded_once {S} `{AppendsOrKeeps S} (p p' : ReconcilePoller S) ticks outs :
  distinct p → rp_diverged_seen p = ∅ → Forall distinct_tick ticks →
  watch_polls p ticks = (p', outs) →
  ∃ events, alog (rp_events p') = alog (rp_events p) ++ (event_payload <$> events)
    ∧ NoDup (omap diverged_task events)
    ∧ (∀ t, t ∈ omap diverged_task events → t ∈ row_task <$> rp_recovered_orphaned p)
    ∧ ∀ snapshot row, Ok snapshot ∈ outs → row ∈ rp_recovered_orphaned p → row_task row ∉ open_ids snapshot →
        row_task row ∈ omap diverged_task events.
Proof.
  intros Hd Hs Ht Hp. destruct (watch_polls_report ticks p p' outs Hd Ht Hp) as (events & (Hl & Hn & Hdv & Hseen & _) & Hall).
  exists events. split_and!; [done|done|intros t Hin; by apply Hdv|].
  intros snapshot row Hin Hrow Ho. specialize (Hall snapshot row Hin Hrow Ho). rw Hseen Hs in Hall. set_solver.
Qed.

(** ** The in-memory store, and one that fails on demand *)

Lemma in_memory_appends `{Externals} (s : InMemoryAuditStore) e :
  (payload ∘ envelope <$> records (store_append s e).1)
  = match (store_append s e).2 with
    | Ok _ => (payload ∘ envelope <$> records s) ++ [payload e]
    | Err _ => payload ∘ envelope <$> records s
    end.
Proof.
  cbn [store_append in_memory_store]. unfold in_memory_append.
  destruct (validate_next_envelope _ _); [|done]. unfold try_from_envelope.
  destruct (hash_envelope e); cbn; [by rw fmap_app|done].
Qed.

#[export] Instance in_memory_appends_or_keeps `{Externals} : AppendsOrKeeps InMemoryAuditStore :=
  {| alog s := payload ∘ envelope <$> records s; appends := in_memory_appends |}.

Record FaultyStore := MkFaulty { fs_inner : InMemoryAuditStore; fs_faults : list bool }.

Definition faulty_append (s : FaultyStore) (e : EventEnvelope) : FaultyStore * result AuditRecord EventError :=
  match fs_faults s with
  | true :: faults => (MkFaulty (fs_inner s) faults, Err (Sqlite (lit "database is locked")))
  | faults => let '(inner, r) := store_append (fs_inner s) e in (MkFaulty inner (tail faults), r)
  end.

#[export] Instance faulty_store : AuditStore FaultyStore := {|
  store_append := faulty_append;
  store_query s := store_query (fs_inner s);
  store_head s := store_head (fs_inner s);
  store_export s := store_export (fs_inner s);
  store_import s bytes := let '(inner, r) := store_import (fs_inner s) bytes in (MkFaulty inner (fs_faults s), r);
|}.

#[export] Instance faulty_appends_or_keeps : AppendsOrKeeps FaultyStore.
Proof.
  refine {| alog (s : FaultyStore) := alog (fs_inner s) |}. intros s e. cbn [store_append faulty_store].
  unfold faulty_append. pose proof (appends (fs_inner s) e) as Ha.
  destruct (fs_faults s) as [|[] faults]; [|done|]; by destruct (store_append (fs_inner s) e).
Defined.

Definition blocked_item (n : N) : ReadyItem := MkReadyItem n (lit "t") (lit "u") (lit "o/r") (lit "i").

Definition orphan (n : N) : RunRow :=
  MkRunRow n (lit "inv") 0 (task_id_for (lit "o/r") n) (lit "o/r") n Orphaned 0 0 0 (Some 1) f64_zero [].

(** Two tasks promoted and one recovered run overruled; the second append fails. *)
Definition faulty_poller : ReconcilePoller FaultyStore :=
  MkPoller (MkFaulty (MkStore []) [false; true]) [] [blocked_item 1; blocked_item 2] ∅ [orphan 7].

Definition ready_snapshot : BoardSnapshot := MkSnapshot [] [blocked_item 1; blocked_item 2] [] [].

Definition example_stamps : list (rstr * OperationId) := [(lit "t1", MkOperationId (lit "a")); (lit "t2", MkOperationId (lit "b"))].

Lemma faulty_distinct : distinct faulty_poller.
Proof. split; apply (bool_decide_unpack _); vm_compute; exact I. Qed.

Lemma reconcile_retries_exact_witness :
  let p1 := (watch_poll faulty_poller (Ok ready_snapshot) example_stamps).1 in
  let p2 := (watch_poll p1 (Ok ready_snapshot) example_stamps).1 in
  length (alog (rp_events p1)) = 1%nat ∧ length (alog (rp_events p2)) = 3%nat
  ∧ alog (rp_events p2) = event_payload <$> pending ready_snapshot faulty_poller.
Proof.
  cbv zeta. split; [vm_compute; reflexivity|]. split; [vm_compute; reflexivity|].
  destruct (reconcile_retries_exact faulty_poller (watch_poll faulty_poller (Ok ready_snapshot) example_stamps).1
    (watch_poll (watch_poll faulty_poller (Ok ready_snapshot) example_stamps).1 (Ok ready_snapshot) example_stamps).1
    ready_snapshot [(Ok ready_snapshot, example_stamps)] [Err EventAppend] example_stamps) as [H _].
  - apply faulty_distinct.
  - constructor.
  - constructor; [left; reflexivity|constructor].
  - vm_compute. reflexivity.
  - constructor; [exists EventAppend; reflexivity|constructor].
  - vm_compute. reflexivity.
  - rw H. reflexivity.
Defined.

Lemma divergence_recorded_once_witness :
  ∃ events, alog (rp_events (watch_polls faulty_poller
      [(Ok ready_snapshot, example_stamps); (Err (lit "down"), []); (Ok ready_snapshot, example_stamps)]).1)
    = event_payload <$> events ∧ omap diverged_task events = [task_id_for (lit "o/r") 7].
Proof.
  destruct (divergence_recorded_once faulty_poller
    (watch_polls faulty_poller [(Ok ready_snapshot, example_stamps); (Err (lit "down"), []); (Ok ready_snapshot, example_stamps)]).1
    [(Ok ready_snapshot, example_stamps); (Err (lit "down"), []); (Ok ready_snapshot, example_stamps)]
    (watch_polls faulty_poller [(Ok ready_snapshot, example_stamps); (Err (lit "down"), []); (Ok ready_snapshot, example_stamps)]).2)
    as (events & H & Hn & Hr & Hall).
  - apply faulty_distinct.
  - reflexivity.
  - repeat constructor.
  - apply surjective_pairing.
  - exists events. split; [exact H|].
    assert (task_id_for (lit "o/r") 7 ∈ omap diverged_task events) as Hin.
    { apply (Hall ready_snapshot (orphan 7)); [|left|apply (bool_decide_unpack _); vm_compute; exact I].
      vm_compute. right. right. left. }
    clear H Hall. destruct (omap diverged_task events) as [|t [|u l]]; [by apply not_elem_of_nil in Hin| |].
    + apply list_elem_of_singleton in Hin as ->. reflexivity.
    + exfalso. apply NoDup_cons in Hn as [Hne _]. apply Hne.
      pose proof (Hr t ltac:(left)) as Ht. pose proof (Hr u ltac:(right; left)) as Hu.
      cbn [rp_recovered_orphaned faulty_poller fmap list_fmap] in Ht, Hu.
      apply list_elem_of_singleton in Ht, Hu. subst. left.
Defined.
