(* ===== verification/Governance.v ===== *)
(** * Data governance and retries of the daemon

    [crates/orchestraitor-daemon/src/governance.rs] and [governance/retry.rs]: which
    content may be sent to which provider, the enforcer behind it, and the retry
    scheduler with one circuit breaker per provider.

    The policy engine of Arbitraitor is a parameter, as is any other enforcer.  The
    operation, the clock, the entropy of the jitter and the race of a backoff with
    its cancellation are inputs, one record per attempt.  Mutex poisoning is
    recovered from by the source, so a breaker call is atomic. *)

From Stdlib Require Import SpecFloat.
From S2P Require Import Prelude BTree Text Time Substring Model RunState Kickoff LoopRun.

Abbreviation ProviderId := rstr (only parsing).

(** ** Classification and provider policy *)

Inductive DataClassification := Public | Internal | Confidential | Restricted.
#[global] Instance DataClassification_eq_dec : EqDecision DataClassification.
Proof. solve_decision. Defined.

Record ClassifiedContent := MkContent { cc_file_paths : list rstr; cc_classification : DataClassification }.

Record ProviderDataGovernance := MkGovernance {
  allowed_classes : list DataClassification;
  prohibited_patterns : list rstr;
}.

Definition ProviderDataGovernance_default : ProviderDataGovernance := MkGovernance [] [].

Definition allows_class (g : ProviderDataGovernance) (class : DataClassification) : bool :=
  bool_decide (class ∈ allowed_classes g).

Definition stars : rstr := lit "**".

(** The loop over the parts: [rest] is [path[pos..]]. *)
Fixpoint glob_parts (pattern : rstr) (i : nat) (parts : list rstr) (rest : rstr) : bool :=
  match parts with
  | [] => true
  | part :: parts =>
      if is_empty part then glob_parts pattern (S i) parts rest
      else match find_str part rest with
           | Some offset =>
               if (i =? 0)%nat && negb (starts_with stars pattern) && negb (offset =? 0)%nat then false
               else glob_parts pattern (S i) parts (drop (offset + length part) rest)
           | None => false
           end
  end.

Definition matches_glob (pattern path : rstr) : bool :=
  if negb (contains_str stars pattern) then bool_decide (pattern = path)
  else
    let parts := split_str stars pattern in
    if negb (glob_parts pattern 0 parts path) then false
    else if negb (ends_with_str stars pattern) then
      let last := default [] (list.last parts) in
      negb (negb (is_empty last) && negb (ends_with_str last path))
    else true.

Definition matches_prohibited (g : ProviderDataGovernance) (file_paths : list rstr) : bool :=
  existsb (λ path, existsb (λ p, matches_glob p path) (prohibited_patterns g)) file_paths.

Record DataEgressPreview := MkPreview {
  dep_file_paths : list rstr;
  dep_classification : DataClassification;
  dep_destination : ProviderId;
}.

Inductive RoutingDecision := Allow | Block.

Inductive ReleaseVerdict := Permit | Deny (reason : rstr).

Inductive GovernanceError :=
| RestrictedContentBlocked (destination : ProviderId)
| ClassificationNotAllowed (destination : ProviderId)
| ProhibitedPath (destination : ProviderId)
| ArbitraitorEnforcement (message : rstr)
| ArbitraitorPolicy (message : rstr)
| PolicyDenial (destination : ProviderId) (reason : rstr)
| TransientTransport (provider : ProviderId) (reason : rstr)
| CircuitBreakerOpen (provider : ProviderId)
| RetryBudgetExhausted (provider : ProviderId)
| Cancelled.

Inductive Retryability := Retriable | NotRetriable | NeedsUserAction.
#[global] Instance Retryability_eq_dec : EqDecision Retryability.
Proof. solve_decision. Defined.

Definition retryability (e : GovernanceError) : Retryability :=
  match e with
  | TransientTransport _ _ => Retriable
  | RestrictedContentBlocked _ | ClassificationNotAllowed _ | ProhibitedPath _ | ArbitraitorEnforcement _
  | ArbitraitorPolicy _ | PolicyDenial _ _ | CircuitBreakerOpen _ | RetryBudgetExhausted _ | Cancelled =>
      NotRetriable
  end.

(** ** The router *)

(** The trait: a decision on one release, or a failure of the call. *)
Class DataReleaseEnforcer (E : Type) := {
  enforce_data_release : E → ClassifiedContent → ProviderId → result ReleaseVerdict GovernanceError;
}.

Record GovernanceRouter (E : Type) := MkRouter { enforcer : E; event_sink : list DataEgressPreview }.
#[global] Arguments MkRouter {E}.
#[global] Arguments enforcer {E}.
#[global] Arguments event_sink {E}.

Section router.
Context {E : Type} `{DataReleaseEnforcer E}.

Definition GovernanceRouter_new (e : E) : GovernanceRouter E := MkRouter e [].

Definition route (r : GovernanceRouter E) (content : ClassifiedContent) (provider_id : ProviderId)
    (governance : ProviderDataGovernance) : GovernanceRouter E * result RoutingDecision GovernanceError :=
  let blocked := bool_decide (cc_classification content = Restricted)
    || negb (allows_class governance (cc_classification content))
    || matches_prohibited governance (cc_file_paths content) in
  if blocked then
    (r, let? verdict := enforce_data_release (enforcer r) content provider_id in
        Ok (match verdict with Permit => Allow | Deny _ => Block end))
  else
    (MkRouter (enforcer r)
       (event_sink r ++ [MkPreview (cc_file_paths content) (cc_classification content) provider_id]), Ok Allow).
End router.

(** ** The Arbitraitor-backed enforcer *)

Inductive Verdict := Pass | Warn | Verdict_Block | Prompt | Verdict_Error | Incomplete.

Definition DEFAULT_POLICY_TOML : rstr := lit "version = 1" ++ [10].

(** [PolicyEngine::load] of a policy, then its evaluation of no findings in the
    default context. *)
Class PolicyEngine := { policy_verdict : rstr → result Verdict rstr }.

Record ArbitraitorEnforcer := MkArbEnforcer { policy_toml : rstr }.

Definition ArbitraitorEnforcer_new : ArbitraitorEnforcer := MkArbEnforcer DEFAULT_POLICY_TOML.
Definition ArbitraitorEnforcer_with_policy (toml : rstr) : ArbitraitorEnforcer := MkArbEnforcer toml.

Definition evaluate_policy `{PolicyEngine} (toml : rstr) : result Verdict rstr := policy_verdict toml.

Definition class_debug (c : DataClassification) : rstr :=
  match c with
  | Public => lit "Public" | Internal => lit "Internal"
  | Confidential => lit "Confidential" | Restricted => lit "Restricted"
  end.

Definition verdict_debug (v : Verdict) : rstr :=
  match v with
  | Pass => lit "Pass" | Warn => lit "Warn" | Verdict_Block => lit "Block"
  | Prompt => lit "Prompt" | Verdict_Error => lit "Error" | Incomplete => lit "Incomplete"
  end.

Definition arb_enforce_data_release `{PolicyEngine} (e : ArbitraitorEnforcer) (content : ClassifiedContent)
    (destination : ProviderId) : result ReleaseVerdict GovernanceError :=
  let? verdict := map_err ArbitraitorEnforcement (evaluate_policy (policy_toml e)) in
  match verdict with
  | Pass | Warn => Ok Permit
  | Verdict_Block | Prompt =>
      Ok (Deny (lit "arbitraitor denied release of " ++ class_debug (cc_classification content)
                ++ lit " content to " ++ destination))
  | Verdict_Error | Incomplete =>
      Err (ArbitraitorPolicy (lit "arbitraitor returned " ++ verdict_debug verdict ++ lit " verdict"))
  end.

#[export] Instance arbitraitor_enforcer `{PolicyEngine} : DataReleaseEnforcer ArbitraitorEnforcer :=
  {| enforce_data_release := arb_enforce_data_release |}.

(** ** The retry policy *)

Record RetryPolicy := MkRetryPolicy {
  max_attempts : N;
  base_delay : Duration;
  max_delay : Duration;
  jitter_factor : spec_float;
}.

Definition from_millis (ms : N) : Duration := ms * 1000000.

(** 0.2. *)
Definition f64_fifth : spec_float := S754_finite false 7205759403792794 (-55).

Definition DEFAULT_RETRY_POLICY : RetryPolicy := MkRetryPolicy 5 (from_millis 200) (from_secs 30) f64_fifth.
Definition DEFAULT_CIRCUIT_FAILURE_THRESHOLD : N := 5.
Definition DEFAULT_CIRCUIT_RECOVERY_TIMEOUT : Duration := from_secs 30.

Definition f64_sub (x y : spec_float) : spec_float := SFsub 53 1024 x y.
Definition f64_div (x y : spec_float) : spec_float := SFdiv 53 1024 x y.

(** [f64::max(0.0)]: a NaN gives zero. *)
Definition f64_max_zero (x : spec_float) : spec_float := if SFltb f64_zero x then x else f64_zero.

(** [x as u64]: towards zero, saturating, zero for a NaN. *)
Definition f64_as_u64 (x : spec_float) : N :=
  match x with
  | S754_finite false m e => N.min (Z.to_N (Z.shiftl (Zpos m) e)) u64_max
  | S754_infinity false => u64_max
  | _ => 0
  end.

(** [nanos] is [SystemTime::now()]'s sub-second part. *)
Definition apply_jitter (p : RetryPolicy) (delay : Duration) (nanos : N) : Duration :=
  let base_nanos := f64_of_u64 delay in
  let jitter_range := f64_mul base_nanos (jitter_factor p) in
  let fraction := f64_div (f64_of_u64 nanos) (f64_of_u64 u32_max) in
  let offset := f64_mul (f64_sub (f64_mul fraction (f64_of_u64 2)) (f64_of_u64 1)) jitter_range in
  let adjusted := f64_max_zero (f64_add base_nanos offset) in
  f64_as_u64 adjusted.

Definition capped_delay (p : RetryPolicy) (attempt : N) : Duration :=
  let exponent := attempt - 1 in
  let raw := duration_saturating_mul (base_delay p) (saturating_pow_u32 2 exponent) in
  N.min raw (max_delay p).

Definition delay_for_attempt (p : RetryPolicy) (attempt nanos : N) : Duration :=
  apply_jitter p (capped_delay p attempt) nanos.

(** ** The circuit breaker *)

Abbreviation Instant := N (only parsing).

Inductive CircuitState := Closed | Open (opened_at : Instant) | HalfOpen.
#[global] Instance CircuitState_eq_dec : EqDecision CircuitState.
Proof. solve_decision. Defined.

Record CircuitBreaker := MkBreaker {
  failure_threshold : N;
  recovery_timeout : Duration;
  cb_state : CircuitState;
  consecutive_failures : N;
}.

Definition CircuitBreaker_new (threshold : N) (timeout : Duration) : CircuitBreaker :=
  MkBreaker threshold timeout Closed 0.

(** [Instant::elapsed] is zero when the clock went back. *)
Definition elapsed (since now : Instant) : Duration := now - since.

Definition allows (b : CircuitBreaker) (now : Instant) : CircuitBreaker * bool :=
  match cb_state b with
  | Closed | HalfOpen => (b, true)
  | Open opened_at =>
      if recovery_timeout b <=? elapsed opened_at now
      then (MkBreaker (failure_threshold b) (recovery_timeout b) HalfOpen (consecutive_failures b), true)
      else (b, false)
  end.

Definition cb_record_success (b : CircuitBreaker) : CircuitBreaker :=
  MkBreaker (failure_threshold b) (recovery_timeout b) Closed 0.

Definition cb_record_failure (b : CircuitBreaker) (now : Instant) : CircuitBreaker :=
  let failures := saturating_add u32_max (consecutive_failures b) 1 in
  MkBreaker (failure_threshold b) (recovery_timeout b)
    (if failure_threshold b <=? failures then Open now else cb_state b) failures.

(** ** The scheduler *)

Record RetryScheduler := MkScheduler { rs_policy : RetryPolicy; breakers : gmap ProviderId CircuitBreaker }.

Definition RetryScheduler_new (p : RetryPolicy) : RetryScheduler := MkScheduler p ∅.
Definition with_default_policy : RetryScheduler := RetryScheduler_new DEFAULT_RETRY_POLICY.

Definition breaker_entry (s : RetryScheduler) (provider_id : ProviderId) : CircuitBreaker :=
  default (CircuitBreaker_new DEFAULT_CIRCUIT_FAILURE_THRESHOLD DEFAULT_CIRCUIT_RECOVERY_TIMEOUT)
    (breakers s !! provider_id).

Definition breaker_allows (s : RetryScheduler) (provider_id : ProviderId) (now : Instant) : RetryScheduler * bool :=
  let '(b, ok) := allows (breaker_entry s provider_id) now in
  (MkScheduler (rs_policy s) (<[provider_id := b]> (breakers s)), ok).

Definition record_success (s : RetryScheduler) (provider_id : ProviderId) : RetryScheduler :=
  MkScheduler (rs_policy s) (alter cb_record_success provider_id (breakers s)).

Definition record_failure (s : RetryScheduler) (provider_id : ProviderId) (now : Instant) : RetryScheduler :=
  MkScheduler (rs_policy s) (alter (λ b, cb_record_failure b now) provider_id (breakers s)).

(** What the world answers during one attempt. *)
Record Attempt (T : Type) := MkAttempt {
  at_check : Instant;
  at_outcome : result T GovernanceError;
  at_record : Instant;
  at_nanos : N;
  at_cancelled : bool;
}.
#[global] Arguments MkAttempt {T}.
#[global] Arguments at_check {T}.
#[global] Arguments at_outcome {T}.
#[global] Arguments at_record {T}.
#[global] Arguments at_nanos {T}.
#[global] Arguments at_cancelled {T}.

(** What the scheduler does, in order. *)
Inductive Act := Ask (now : Instant) | Call (attempt : N) | Succeed | FailAt (now : Instant) | Sleep (delay : Duration).

Section execute.
Context {T : Type}.

(** [for attempt in attempt..=max_attempts], [remaining] of them. *)
Fixpoint attempt_from (s : RetryScheduler) (provider_id : ProviderId) (world : N → Attempt T) (attempt : N)
    (remaining : nat) : RetryScheduler * list Act * result T GovernanceError :=
  match remaining with
  | O => (s, [], Err (RetryBudgetExhausted provider_id))
  | S remaining =>
      let w := world attempt in
      let '(s, ok) := breaker_allows s provider_id (at_check w) in
      if negb ok then (s, [Ask (at_check w)], Err (CircuitBreakerOpen provider_id))
      else
        match at_outcome w with
        | Ok value => (record_success s provider_id, [Ask (at_check w); Call attempt; Succeed], Ok value)
        | Err error =>
            let acts := [Ask (at_check w); Call attempt; FailAt (at_record w)] in
            if negb (bool_decide (retryability error = Retriable)) then
              (record_failure s provider_id (at_record w), acts, Err error)
            else if max_attempts (rs_policy s) <=? attempt then
              (record_failure s provider_id (at_record w), acts, Err (RetryBudgetExhausted provider_id))
            else
              let s := record_failure s provider_id (at_record w) in
              let delay := delay_for_attempt (rs_policy s) attempt (at_nanos w) in
              if at_cancelled w then (s, acts ++ [Sleep delay], Err Cancelled)
              else
                let '(s, rest, out) := attempt_from s provider_id world (attempt + 1) remaining in
                (s, acts ++ [Sleep delay] ++ rest, out)
        end
  end.

Definition execute_with_retry (s : RetryScheduler) (provider_id : ProviderId) (world : N → Attempt T)
  : RetryScheduler * list Act * result T GovernanceError :=
  attempt_from s provider_id world 1 (N.to_nat (max_attempts (rs_policy s))).
End execute.

(** ** The meaning of a pattern *)

(** The parts in order, anything between them, and at the end nothing unless [open]. *)
Fixpoint woven (open : bool) (parts : list rstr) (s : rstr) : Prop :=
  match parts with
  | [] => open = true ∨ s = []
  | part :: parts => ∃ skipped rest, s = skipped ++ part ++ rest ∧ woven open parts rest
  end.

(** A pattern without [**] names one path; otherwise the path starts with the first
    part and goes on with the others. *)
Definition glob (pattern path : rstr) : Prop :=
  if contains_str stars pattern then
    match split_str stars pattern with
    | first :: parts => ∃ rest, path = first ++ rest ∧ woven (ends_with_str stars pattern) parts rest
    | [] => False
    end
  else pattern = path.

Lemma woven_skip open part parts s x : woven open (part :: parts) s → woven open (part :: parts) (x ++ s).
Proof. intros (sk & rest & -> & H). exists (x ++ sk), rest. by rw app_assoc. Qed.

Lemma woven_open_skip parts s x : woven true parts s → woven true parts (x ++ s).
Proof. destruct parts; [by left|apply woven_skip]. Qed.

Lemma woven_open_sub open parts s : woven open parts s → woven true parts s.
Proof.
  revert s. induction parts as [|part parts IH]; intros s; [by left|].
  intros (sk & rest & -> & H). exists sk, rest. split; [done|by apply IH].
Qed.

(** Searching each part leftmost finds the parts in order when they are there. *)
Lemma glob_parts_later pattern i parts rest :
  (0 < i)%nat → glob_parts pattern i parts rest = true ↔ woven true parts rest.
Proof.
  revert i rest. induction parts as [|part parts IH]; intros i rest Hi; cbn [glob_parts woven].
  { split; [by left|done]. }
  destruct (is_empty part) eqn:Ep.
  - apply is_empty_spec in Ep as ->. rw IH; [|lia]. split.
    + intros H. by exists [], rest.
    + intros (sk & r & -> & H). by apply woven_open_skip.
  - replace (i =? 0)%nat with false by (symmetry; apply Nat.eqb_neq; lia). cbn [andb].
    destruct (find_str part rest) as [o|] eqn:Ef.
    + rw IH; [|lia]. split.
      * intros H. exists (take o rest), (drop (o + length part) rest). split; [by apply find_str_split|done].
      * intros (sk & r & Hr & H). apply find_str_some in Ef as (_ & Ho & Hmin).
        specialize (Hmin sk r Hr).
        assert (drop (o + length part) rest = drop (o + length part) (sk ++ part) ++ r) as ->; [|by apply woven_open_skip].
        rw Hr app_assoc. apply drop_app_le. rw length_app. lia.
    + split; [done|]. intros (sk & r & Hr & _). by apply find_str_none with (a := sk) (b := r) in Ef.
Qed.

(** The end of a text that is long enough does not depend on what precedes it. *)
Lemma ends_with_app_iff last a b : (length last ≤ length b)%nat →
  ends_with_str last (a ++ b) = true ↔ ends_with_str last b = true.
Proof.
  intros Hl. rw !ends_with_str_spec. split; [|by intros [t ->]; exists (a ++ t); rw app_assoc].
  intros [t Ht]. destruct (List.app_eq_app _ _ _ _ Ht) as (l & [[-> Hl']|[-> Hl']]); [|by exists l].
  exists []. cbn. apply (f_equal length) in Hl' as Hn. rw length_app in Hn. destruct l; [done|cbn in Hn; lia].
Qed.

Lemma woven_fits open parts last s : woven open (parts ++ [last]) s → (length last ≤ length s)%nat.
Proof.
  revert s. induction parts as [|part parts IH]; intros s; cbn [app woven].
  - intros (sk & r & -> & _). rw !length_app. lia.
  - intros (sk & r & -> & H%IH). rw !length_app. lia.
Qed.

(** The last part found anywhere and the path ending in it: found at the end. *)
Lemma woven_anchored parts last s :
  woven false (parts ++ [last]) s ↔ woven true (parts ++ [last]) s ∧ ends_with_str last s = true.
Proof.
  revert s. induction parts as [|part parts IH]; intros s; cbn [app woven].
  - rw ends_with_str_spec. split.
    + intros (sk & rest & -> & [Hx| ->]); [done|]. split; [|exists sk; by rw app_nil_r]. exists sk, []. auto.
    + intros [_ [t ->]]. exists t, []. rw app_nil_r. auto.
  - split.
    + intros (sk & rest & -> & [Ho He]%IH). split; [by exists sk, rest|].
      rw app_assoc ends_with_app_iff; [done|by eapply woven_fits].
    + intros [(sk & rest & -> & Ho) He]. exists sk, rest. split; [done|]. apply IH. split; [done|].
      rw app_assoc ends_with_app_iff in He; [done|by eapply woven_fits].
Qed.

Lemma split_str_go_cons fuel p s : ∃ w ws, split_str_go (S fuel) p s = w :: ws.
Proof. cbn [split_str_go]. destruct (find_str p s); eauto. Qed.

(** The first part is empty exactly when the pattern starts with the separator. *)
Lemma split_str_first p s w ws : p ≠ [] → split_str p s = w :: ws → contains_str p s = true →
  starts_with p s = is_empty w ∧ ws ≠ [].
Proof.
  intros Hp. unfold split_str, contains_str. cbn [split_str_go]. destruct (find_str p s) as [i|] eqn:Ef; [|done].
  intros [= <- <-] _. apply find_str_some in Ef as ([b Hb] & Hi & Hmin). split.
  - apply Bool.eq_iff_eq_true. rw starts_with_spec is_empty_spec. split.
    + intros [t Ht]. specialize (Hmin [] t Ht). cbn in Hmin. by replace i with 0%nat by lia.
    + intros E. rw E in Hb. by exists b.
  - destruct (length s) eqn:El.
    + destruct s; [|done]. apply (f_equal length) in Hb. rw take_nil length_app in Hb. destruct p; done.
    + destruct (split_str_go_cons n p (drop (i + length p) s)) as (? & ? & ->). done.
Qed.

Lemma glob_parts_first pattern first parts path :
  starts_with stars pattern = is_empty first →
  glob_parts pattern 0 (first :: parts) path = true ↔ ∃ rest, path = first ++ rest ∧ woven true parts rest.
Proof.
  intros Hs. cbn [glob_parts]. destruct (is_empty first) eqn:Ee.
  { apply is_empty_spec in Ee as ->. rw glob_parts_later; [|lia]. split; [by exists path|by intros (? & -> & ?)]. }
  rw Hs. cbn [Nat.eqb negb andb]. destruct (find_str first path) as [o|] eqn:Ef.
  - pose proof (find_str_split _ _ _ Ef) as Hsp. apply find_str_some in Ef as (_ & _ & Hmin).
    destruct (o =? 0)%nat eqn:Eo; cbn [negb].
    + apply Nat.eqb_eq in Eo as ->. cbn in Hsp |- *. rw glob_parts_later; [|lia]. split.
      * intros H. by exists (drop (length first) path).
      * intros (rest & -> & H). by rw drop_app_length.
    + apply Nat.eqb_neq in Eo. split; [done|]. intros (rest & -> & _). specialize (Hmin [] rest eq_refl). cbn in Hmin. lia.
  - split; [done|]. intros (rest & -> & _). by apply find_str_none with (a := []) (b := rest) in Ef.
Qed.

(** A pattern means what its grammar says: without [**] it names one path;
    otherwise a path matches exactly when it starts with the first part, has the
    other parts after it in order with anything between, and ends with the last
    part unless the pattern ends with [**].  The leftmost searches of the source
    lose no match. *)
Lemma matches_glob_spec pattern path : matches_glob pattern path = true ↔ glob pattern path.
Proof.
  unfold matches_glob, glob. destruct (contains_str stars pattern) eqn:Ec; cbn [negb].
  2: { apply bool_decide_eq_true. }
  destruct (split_str_go_cons (length pattern) stars pattern) as (first & parts & Hs).
  change (split_str stars pattern = first :: parts) in Hs. rw Hs.
  destruct (split_str_first stars pattern first parts) as [Hst Hne]; [done..|].
  pose proof (glob_parts_first pattern first parts path Hst) as Hg.
  destruct (glob_parts pattern 0 (first :: parts) path) eqn:Eg; cbn [negb].
  2: { split; [done|]. intros (rest & -> & Hw). destruct Hg as [_ Hg]. discriminate Hg.
       exists rest. split; [done|by eapply woven_open_sub]. }
  destruct (proj1 Hg eq_refl) as (rest & -> & Hw). clear Hg.
  destruct (ends_with_str stars pattern) eqn:Ee; cbn [negb].
  { split; [|done]. intros _. by exists rest. }
  destruct (exists_last Hne) as (init & last & ->).
  rw app_comm_cons last_snoc. change (default [] (Some last)) with last. pose proof (woven_anchored init last rest) as Ha.
  pose proof (ends_with_app_iff last first rest (woven_fits _ _ _ _ Hw)) as He.
  rw negb_true_iff andb_false_iff !negb_false_iff He is_empty_spec. split.
  - intros Hl. exists rest. split; [done|]. apply Ha. split; [done|]. destruct Hl as [->|Hl]; [|done].
    apply ends_with_str_spec. exists rest. by rw app_nil_r.
  - intros (rest' & E%app_inv_head & Hw'). subst rest'. right. by apply Ha.
Qed.

(** ** What leaves the machine *)

(** The routing policy, read declaratively. *)
Definition withheld (content : ClassifiedContent) (g : ProviderDataGovernance) : Prop :=
  cc_classification content = Restricted
  ∨ cc_classification content ∉ allowed_classes g
  ∨ ∃ path pattern, path ∈ cc_file_paths content ∧ pattern ∈ prohibited_patterns g ∧ glob pattern path.

Lemma matches_prohibited_spec g paths :
  matches_prohibited g paths = true
  ↔ ∃ path pattern, path ∈ paths ∧ pattern ∈ prohibited_patterns g ∧ glob pattern path.
Proof.
  unfold matches_prohibited. rw existsb_true. split.
  - intros (path & Hp & (pattern & Hq & Hg%matches_glob_spec)%existsb_true). by exists path, pattern.
  - intros (path & pattern & Hp & Hq & Hg). exists path. split; [done|]. apply existsb_true. exists pattern.
    by rw matches_glob_spec.
Qed.

Lemma blocked_spec content g :
  bool_decide (cc_classification content = Restricted) || negb (allows_class g (cc_classification content))
    || matches_prohibited g (cc_file_paths content) = true ↔ withheld content g.
Proof.
  unfold withheld, allows_class. rw !orb_true_iff bool_decide_eq_true negb_true_iff bool_decide_eq_false
    matches_prohibited_spec. tauto.
Qed.

(** C30. What the router lets out, with the Arbitraitor-backed enforcer: content that
    no rule of the policy withholds is allowed after one preview event; content that
    is restricted, of a class the provider may not have or from a path a prohibited
    pattern matches is announced by no event and is let out exactly when the policy
    text alone evaluates to pass or warn, whatever the content and the provider. *)
Theorem egress_exact `{PolicyEngine} (r : GovernanceRouter ArbitraitorEnforcer) content provider_id g :
  let '(r', out) := route r content provider_id g in
  let verdict := policy_verdict (policy_toml (enforcer r)) in
  (withheld content g ∧ r' = r ∧ (out = Ok Allow ↔ verdict = Ok Pass ∨ verdict = Ok Warn))
  ∨ (¬ withheld content g ∧ out = Ok Allow ∧ enforcer r' = enforcer r
     ∧ event_sink r' = event_sink r ++ [MkPreview (cc_file_paths content) (cc_classification content) provider_id]).
Proof.
  unfold route. pose proof (blocked_spec content g) as Hb. destruct (_ || _) eqn:Eb.
  - left. split; [by apply Hb|]. split; [done|]. cbn. unfold arb_enforce_data_release, evaluate_policy.
    destruct (policy_verdict _) as [[]|]; cbn; naive_solver.
  - right. split; [by rw -Hb|]. done.
Qed.

(** A concrete policy: [**/.aws/**] withholds the keys of any depth. *)
Example aws_withheld :
  matches_glob (lit "**/.aws/**") (lit "home/u/.aws/credentials") = true
  ∧ matches_glob (lit "**/env.local") (lit "a/env.local.bak") = false
  ∧ matches_glob (lit "src/**") (lit "lib/src/a") = false.
Proof. by vm_compute. Qed.

(** ** The breaker against its history *)

(** What a breaker has been told. *)
Inductive BreakerOp := Asked (now : Instant) | Succeeded | Failed (now : Instant).

Definition breaker_step (b : CircuitBreaker) (op : BreakerOp) : CircuitBreaker :=
  match op with
  | Asked now => (allows b now).1
  | Succeeded => cb_record_success b
  | Failed now => cb_record_failure b now
  end.

(** The instants of the failures since the last success. *)
Definition streak_step (failures : list Instant) (op : BreakerOp) : list Instant :=
  match op with Asked _ => failures | Succeeded => [] | Failed now => failures ++ [now] end.
Definition streak (ops : list BreakerOp) : list Instant := foldl streak_step [] ops.

(** The rule without the three states: refuse while the failures in a row reach the
    threshold and the last of them is more recent than the cooldown. *)
Definition admits (threshold : N) (timeout : Duration) (failures : list Instant) (now : Instant) : bool :=
  match last failures with
  | Some t => (len failures <? threshold) || (timeout <=? now - t)
  | None => true
  end.

Definition op_time (op : BreakerOp) : option Instant :=
  match op with Asked now | Failed now => Some now | Succeeded => None end.

(** The clock does not go back, and has not passed [now]. *)
Definition times_upto (ops : list BreakerOp) (now : Instant) : Prop := Sorted N.le (omap op_time ops ++ [now]).

(** The state, in terms of the failures since the last success. *)
Definition breaker_tracks (b : CircuitBreaker) (threshold : N) (timeout : Duration) (failures : list Instant)
    (seen : Instant) : Prop :=
  failure_threshold b = threshold ∧ recovery_timeout b = timeout
  ∧ consecutive_failures b = N.min (len failures) u32_max
  ∧ match cb_state b with
    | Closed => failures = [] ∨ len failures < threshold
    | Open t => last failures = Some t ∧ threshold ≤ len failures
    | HalfOpen => threshold ≤ len failures ∧ ∃ t, last failures = Some t ∧ timeout ≤ seen - t
    end.

Lemma breaker_tracks_allows b threshold timeout failures seen now :
  breaker_tracks b threshold timeout failures seen → seen ≤ now →
  (allows b now).2 = admits threshold timeout failures now
  ∧ breaker_tracks (allows b now).1 threshold timeout failures now.
Proof.
  intros (Ht & Hr & Hc & Hs) Hn. unfold breaker_tracks, allows, admits, elapsed. destruct (cb_state b) as [|t|] eqn:Es.
  - cbn. rw Es. split_and!; try done. destruct Hs as [->|Hs]; [done|]. destruct (last failures); [|done].
    symmetry. apply orb_true_iff. left. by apply N.ltb_lt.
  - destruct Hs as [Hl Hk]. rw Hl. replace (len failures <? threshold) with false by (symmetry; apply N.ltb_ge; lia).
    cbn [orb]. rw Hr. destruct (timeout <=? now - t) eqn:Ele; cbn; [|rw Es]; split_and!; try done.
    exists t. split; [done|]. by apply N.leb_le.
  - destruct Hs as (Hk & t & Hl & Hle). cbn. rw Es Hl. split_and!; try done; [|exists t; split; [done|lia]].
    symmetry. apply orb_true_iff. right. apply N.leb_le. lia.
Qed.

Lemma breaker_tracks_step b threshold timeout failures seen op :
  threshold ≤ u32_max → breaker_tracks b threshold timeout failures seen → seen ≤ default seen (op_time op) →
  breaker_tracks (breaker_step b op) threshold timeout (streak_step failures op) (default seen (op_time op)).
Proof.
  intros Hu Hb Hn. destruct op as [now| |now]; cbn [breaker_step streak_step op_time default from_option id] in *.
  - by apply (breaker_tracks_allows b threshold timeout failures seen now).
  - destruct Hb as (Ht & Hr & _ & _). unfold breaker_tracks. cbn. split_and!; try done. by left.
  - destruct Hb as (Ht & Hr & Hc & Hs). unfold breaker_tracks, cb_record_failure. cbn -[u32_max]. rw Hc Ht.
    assert (saturating_add u32_max (N.min (len failures) u32_max) 1 = N.min (len (failures ++ [now])) u32_max) as ->.
    { unfold saturating_add. rw len_app. change (len [now]) with 1. lia. }
    split_and!; try done. rw len_app last_snoc. change (len [now]) with 1.
    destruct (threshold <=? _) eqn:Ele.
    + apply N.leb_le in Ele. split; [done|lia].
    + apply N.leb_gt in Ele. destruct (cb_state b) as [|t|]; [right; lia|lia|lia].
Qed.

Lemma breaker_tracks_fold threshold timeout ops b failures seen now :
  threshold ≤ u32_max → breaker_tracks b threshold timeout failures seen → Sorted N.le (seen :: omap op_time ops ++ [now]) →
  ∃ seen', breaker_tracks (foldl breaker_step b ops) threshold timeout (foldl streak_step failures ops) seen' ∧ seen' ≤ now.
Proof.
  intros Hu. revert b failures seen. induction ops as [|op ops IH]; intros b failures seen Hb Hs; cbn in Hs |- *.
  - exists seen. split; [done|]. by inversion Hs as [|? ? ? Hd]; inversion Hd.
  - apply (IH _ _ (default seen (op_time op))).
    + apply breaker_tracks_step; [done..|]. destruct op; cbn in *; [|lia|]; by inversion Hs as [|? ? ? Hd]; inversion Hd.
    + destruct op; cbn in *; [|done|]; by inversion Hs.
Qed.

(** A fresh breaker, whatever it has been told. *)
Lemma breaker_follows threshold timeout ops now : threshold ≤ u32_max → times_upto ops now →
  (allows (foldl breaker_step (CircuitBreaker_new threshold timeout) ops) now).2
  = admits threshold timeout (streak ops) now.
Proof.
  intros Hu Hs. destruct (breaker_tracks_fold threshold timeout ops (CircuitBreaker_new threshold timeout) [] 0 now)
    as (seen & Hb & Hle); [done| | |].
  - unfold breaker_tracks. cbn. split_and!; try done. by left.
  - unfold times_upto in Hs. constructor; [done|]. destruct (omap op_time ops); cbn; constructor; lia.
  - by apply (breaker_tracks_allows _ _ _ _ seen now).
Qed.

(** The scheduler's breakers, told things by any number of tasks. *)
Definition scheduler_step (s : RetryScheduler) (e : ProviderId * BreakerOp) : RetryScheduler :=
  match e.2 with
  | Asked now => (breaker_allows s e.1 now).1
  | Succeeded => record_success s e.1
  | Failed now => record_failure s e.1 now
  end.

Definition told (p : ProviderId) (history : list (ProviderId * BreakerOp)) : list BreakerOp :=
  omap (λ e, if decide (e.1 = p) then Some e.2 else None) history.

(** A breaker exists from the first time it is asked. *)
Fixpoint since_asked (ops : list BreakerOp) : list BreakerOp :=
  match ops with [] => [] | Asked _ :: _ => ops | _ :: ops => since_asked ops end.

Definition default_breaker : CircuitBreaker :=
  CircuitBreaker_new DEFAULT_CIRCUIT_FAILURE_THRESHOLD DEFAULT_CIRCUIT_RECOVERY_TIMEOUT.

Definition tracked (ops : list BreakerOp) : option CircuitBreaker :=
  if is_empty (since_asked ops) then None else Some (foldl breaker_step default_breaker (since_asked ops)).

Lemma since_asked_snoc ops op :
  since_asked (ops ++ [op])
  = if is_empty (since_asked ops) then since_asked [op] else since_asked ops ++ [op].
Proof. induction ops as [|[] ops IH]; by cbn. Qed.

Lemma tracked_snoc ops op :
  tracked (ops ++ [op])
  = match op with
    | Asked _ => Some (breaker_step (default default_breaker (tracked ops)) op)
    | _ => (λ b, breaker_step b op) <$> tracked ops
    end.
Proof.
  unfold tracked. rw since_asked_snoc. destruct (is_empty (since_asked ops)) eqn:Ee; [by destruct op|].
  replace (is_empty (since_asked ops ++ [op])) with false by by destruct (since_asked ops).
  rw foldl_app. by destruct op.
Qed.

Lemma scheduler_tracks policy history p :
  breakers (foldl scheduler_step (RetryScheduler_new policy) history) !! p = tracked (told p history).
Proof.
  induction history as [|[q op] history IH] using rev_ind; [by cbn; rw lookup_empty|].
  unfold told. rw foldl_app omap_app. fold (told p history). cbn [foldl omap list_omap fst snd].
  set (s := foldl _ _ _) in *. destruct (decide (q = p)) as [->|Hq].
  - rw tracked_snoc -IH. destruct op as [now| |now]; cbn [scheduler_step snd fst].
    + unfold breaker_allows, breaker_entry. cbn [breaker_step]. unfold default_breaker.
      destruct (allows _ now) as [b ok] eqn:Ea. cbn. by rw lookup_insert_eq.
    + cbn. by rw lookup_alter_eq.
    + cbn. by rw lookup_alter_eq.
  - rw app_nil_r -IH. destruct op as [now| |now]; cbn [scheduler_step snd fst].
    + unfold breaker_allows. destruct (allows _ now). cbn. by rw lookup_insert_ne.
    + cbn. by rw lookup_alter_ne.
    + cbn. by rw lookup_alter_ne.
Qed.

Lemma since_asked_suffix ops : ∃ pre, ops = pre ++ since_asked ops.
Proof.
  induction ops as [|op ops [pre IH]]; [by exists []|]. destruct op; cbn; [by exists []|exists (Succeeded :: pre)|exists (Failed now :: pre)];
    cbn; by f_equal.
Qed.

Lemma times_upto_since ops now : times_upto ops now → times_upto (since_asked ops) now.
Proof.
  unfold times_upto. destruct (since_asked_suffix ops) as [pre Hp]. rw {1}Hp omap_app -app_assoc.
  generalize (omap op_time (since_asked ops) ++ [now]). intros l. induction (omap op_time pre) as [|x xs IH]; [done|].
  intros H. apply IH. by inversion H.
Qed.

(** The circuit breaker of a provider, whatever several tasks have told the
    scheduler about this and other providers: a request is refused exactly when the
    failures recorded since the provider's last success number at least five and
    the last of them is less than thirty seconds old.  What is said about another
    provider never matters; once the cooldown has passed every request goes
    through, not one. *)
Theorem breaker_exact policy history p now :
  times_upto (told p history) now →
  (breaker_allows (foldl scheduler_step (RetryScheduler_new policy) history) p now).2
  = admits 5 (from_secs 30) (streak (since_asked (told p history))) now.
Proof.
  intros Ht%times_upto_since. rw -(breaker_follows 5 (from_secs 30)); [|done|done].
  unfold breaker_allows, breaker_entry. rw scheduler_tracks. unfold tracked.
  change (CircuitBreaker_new DEFAULT_CIRCUIT_FAILURE_THRESHOLD DEFAULT_CIRCUIT_RECOVERY_TIMEOUT) with default_breaker.
  change (CircuitBreaker_new 5 (from_secs 30)) with default_breaker.
  destruct (is_empty (since_asked (told p history))) eqn:Ee.
  - apply is_empty_spec in Ee. rw Ee. by destruct (allows _ now).
  - cbn [default from_option id]. by destruct (allows _ now).
Qed.

Definition five_failures : list (ProviderId * BreakerOp) :=
  (lit "p", Asked 0) :: ((λ n, (lit "p", Failed n)) <$> [1; 2; 3; 4; 5]) ++ [(lit "q", Succeeded)].

Lemma breaker_exact_witness :
  (breaker_allows (foldl scheduler_step (RetryScheduler_new DEFAULT_RETRY_POLICY) five_failures) (lit "p") 30000000004).2 = false
  ∧ (breaker_allows (foldl scheduler_step (RetryScheduler_new DEFAULT_RETRY_POLICY) five_failures) (lit "p") 30000000005).2 = true.
Proof.
  split; (rw breaker_exact; [by vm_compute|]); unfold times_upto; vm_compute; repeat constructor; by vm_compute.
Defined.

(** ** One execution *)

Definition act_op (a : Act) : option BreakerOp :=
  match a with Ask now => Some (Asked now) | Succeed => Some Succeeded | FailAt now => Some (Failed now) | _ => None end.

(** The scheduler after what an execution for [p] has done. *)
Definition replay (s : RetryScheduler) (p : ProviderId) (acts : list Act) : RetryScheduler :=
  foldl scheduler_step s (omap (λ a, pair p <$> act_op a) acts).

Definition call_of (a : Act) : option N := match a with Call n => Some n | _ => None end.
Definition sleep_of (a : Act) : option Duration := match a with Sleep d => Some d | _ => None end.

Lemma replay_app s p xs ys : replay s p (xs ++ ys) = replay (replay s p xs) p ys.
Proof. unfold replay. by rw omap_app foldl_app. Qed.

(** Every call has the consent of the breaker, asked just before. *)
Definition consented (s : RetryScheduler) (p : ProviderId) (acts : list Act) : Prop :=
  ∀ pre n post, acts = pre ++ Call n :: post →
  ∃ before now, pre = before ++ [Ask now] ∧ (breaker_allows (replay s p before) p now).2 = true.

Lemma consented_app s p xs ys : consented s p xs → consented (replay s p xs) p ys → consented s p (xs ++ ys).
Proof.
  intros Hx Hy pre n post E. destruct (List.app_eq_app _ _ _ _ E) as (l & [[-> Hl]|[-> Hl]]).
  - destruct l as [|a l]; cbn in Hl.
    + destruct (Hy [] n post (eq_sym Hl)) as (b & now & Hb & _). by destruct b.
    + injection Hl as <- ->. by apply (Hx pre n l).
  - destruct (Hy l n post Hl) as (b & now & -> & Hok). exists (xs ++ b), now. by rw app_assoc replay_app.
Qed.

Lemma consented_none s p acts : omap call_of acts = [] → consented s p acts.
Proof. intros Hn pre n post ->. rw omap_app in Hn. cbn in Hn. by destruct (omap call_of pre). Qed.

(** One attempt that reached the operation. *)
Lemma consented_attempt s p now n rest : (breaker_allows s p now).2 = true → omap call_of rest = [] →
  consented s p (Ask now :: Call n :: rest).
Proof.
  intros Hok Hr pre m post E. destruct pre as [|a [|b pre]]; [done| |].
  - injection E as <- <- _. by exists [], now.
  - injection E as _ _ ->. rw omap_app in Hr. cbn in Hr. by destruct (omap call_of pre).
Qed.

Definition retried {T} (w : Attempt T) : Prop := ∃ e, at_outcome w = Err e ∧ retryability e = Retriable.

(** [k] numbers from [first]. *)
Fixpoint numbers (first : N) (k : nat) : list N :=
  match k with O => [] | S k => first :: numbers (first + 1) k end.

(** How an execution of attempts [first], [first + 1], ... that made [k] calls ends. *)
Definition ended {T} (s : RetryScheduler) (p : ProviderId) (world : N → Attempt T) (first : N) (k : nat) (max : N)
    (acts : list Act) (out : result T GovernanceError) : Prop :=
  let final := world (first + N.of_nat k - 1) in
  match out with
  | Ok v => (0 < k)%nat ∧ at_outcome final = Ok v
  | Err e =>
      ((0 < k)%nat ∧ at_outcome final = Err e ∧ retryability e ≠ Retriable)
      ∨ (e = RetryBudgetExhausted p ∧ first + N.of_nat k = max + 1 ∧ (k = 0%nat ∨ retried final))
      ∨ (e = Cancelled ∧ (0 < k)%nat ∧ first + N.of_nat k ≤ max ∧ retried final ∧ at_cancelled final = true)
      ∨ (e = CircuitBreakerOpen p ∧ first + N.of_nat k ≤ max ∧ ∃ before now, acts = before ++ [Ask now]
         ∧ (breaker_allows (replay s p before) p now).2 = false)
  end.

(** What one execution did and why it ended. *)
Definition execution {T} (s : RetryScheduler) (p : ProviderId) (world : N → Attempt T) (first : N) (k : nat)
    (max : N) (s' : RetryScheduler) (acts : list Act) (out : result T GovernanceError) : Prop :=
  s' = replay s p acts
  ∧ omap call_of acts = numbers first k
  ∧ consented s p acts
  ∧ (∀ i, first ≤ i → i + 1 < first + N.of_nat k → retried (world i) ∧ at_cancelled (world i) = false)
  ∧ (∃ m, omap sleep_of acts = (λ i, delay_for_attempt (rs_policy s) i (at_nanos (world i))) <$> numbers first m
       ∧ (m ≤ k ≤ m + 1)%nat)
  ∧ ended s p world first k max acts out.

Lemma record_failure_policy s p now : rs_policy (record_failure s p now) = rs_policy s.
Proof. done. Qed.

Lemma breaker_allows_policy s p now : rs_policy (breaker_allows s p now).1 = rs_policy s.
Proof. unfold breaker_allows. by destruct (allows _ _). Qed.

(** An execution continued after a retried attempt. *)
Lemma execution_cons {T} s p (world : N → Attempt T) first k max s' acts out :
  let w := world first in
  let done := [Ask (at_check w); Call first; FailAt (at_record w)]
    ++ [Sleep (delay_for_attempt (rs_policy s) first (at_nanos w))] in
  (breaker_allows s p (at_check w)).2 = true → retried w → at_cancelled w = false →
  rs_policy (replay s p done) = rs_policy s →
  execution (replay s p done) p world (first + 1) k max s' acts out →
  execution s p world first (S k) max s' (done ++ acts) out.
Proof.
  intros w done Hok Hr Hc Hpol (Hs & Hcalls & Hcons & Hmid & (m & Hsl & Hm) & He). unfold execution. split_and!.
  - by rw replay_app.
  - rw omap_app Hcalls. done.
  - apply consented_app; [|done]. by apply consented_attempt.
  - intros i H1 H2. destruct (decide (i = first)) as [->|]; [done|]. apply Hmid; lia.
  - exists (S m). rw omap_app Hsl Hpol. split; [done|lia].
  - unfold ended in *. replace (first + N.of_nat (S k) - 1) with (first + 1 + N.of_nat k - 1) by lia.
    destruct out as [v|e].
    + destruct He. split; [lia|done].
    + destruct He as [(H1 & H2 & H3)|[(-> & H2 & H3)|[(-> & H1 & H2 & H3 & H4)|(-> & H2 & before & now & -> & H3)]]].
      * left. split; [lia|done].
      * right; left. split_and!; [done|lia|]. right. destruct H3 as [->|H3]; [|done].
        by replace (first + 1 + N.of_nat 0 - 1) with first by lia.
      * right; right; left. split_and!; [done|lia|lia|done|done].
      * right; right; right. split_and!; [done|lia|]. exists (done ++ before), now. by rw app_assoc replay_app.
Qed.

(** An execution that refused, or whose only attempt was the last. *)
Lemma execution_refused {T} s p (world : N → Attempt T) first max now out :
  ended s p world first 0 max [Ask now] out → execution s p world first 0 max (breaker_allows s p now).1 [Ask now] out.
Proof.
  intros He. unfold execution. split_and!; try done; [by apply consented_none|lia|exists 0%nat; split; [done|lia]].
Qed.

Lemma execution_one {T} s p (world : N → Attempt T) first max rest out :
  (breaker_allows s p (at_check (world first))).2 = true → omap call_of rest = [] →
  (∃ m, omap sleep_of rest = (λ i, delay_for_attempt (rs_policy s) i (at_nanos (world i))) <$> numbers first m
        ∧ (m ≤ 1)%nat) →
  ended s p world first 1 max (Ask (at_check (world first)) :: Call first :: rest) out →
  execution s p world first 1 max (replay s p (Ask (at_check (world first)) :: Call first :: rest))
    (Ask (at_check (world first)) :: Call first :: rest) out.
Proof.
  intros Hok Hc (m & Hsl & Hm) He. unfold execution. split_and!; try done.
  - cbn. by rw Hc.
  - by apply consented_attempt.
  - lia.
  - exists m. split; [done|lia].
Qed.

Lemma attempt_from_spec {T} p (world : N → Attempt T) remaining : ∀ s attempt,
  attempt + N.of_nat remaining = max_attempts (rs_policy s) + 1 →
  ∃ k, (k ≤ remaining)%nat
    ∧ execution s p world attempt k (max_attempts (rs_policy s)) (attempt_from s p world attempt remaining).1.1
        (attempt_from s p world attempt remaining).1.2 (attempt_from s p world attempt remaining).2.
Proof.
  induction remaining as [|remaining IH]; intros s attempt Hn; cbn [attempt_from].
  { exists 0%nat. split; [done|]. unfold execution. split_and!; try done; [by apply consented_none|lia| |].
    - exists 0%nat. split; [done|lia].
    - right; left. split_and!; [done|lia|by left]. }
  pose proof (breaker_allows_policy s p (at_check (world attempt))) as Hpol.
  pose proof (execution_one s p world attempt (max_attempts (rs_policy s))) as Hone.
  pose proof (execution_refused s p world attempt (max_attempts (rs_policy s)) (at_check (world attempt))) as Href.
  pose proof (execution_cons s p world attempt) as Hcons. cbv zeta in Hcons.
  change (replay s p ?acts) with (foldl scheduler_step s (omap (λ a, pair p <$> act_op a) acts)) in Hcons, Hone.
  cbn [app omap list_omap act_op fmap option_fmap option_map foldl scheduler_step snd fst] in Hcons, Hone.
  destruct (breaker_allows s p (at_check (world attempt))) as [s1 [|]] eqn:Eb; cbn [fst snd negb] in *.
  2: { exists 0%nat. split; [lia|]. apply Href. right; right; right. split_and!; [done|lia|].
       exists [], (at_check (world attempt)). cbn. by rw Eb. }
  assert (attempt + N.of_nat 1 - 1 = attempt) as E1 by lia.
  destruct (at_outcome (world attempt)) as [value|error] eqn:Eo.
  { exists 1%nat. split; [lia|]. apply (Hone [Succeed]); [done|done|exists 0%nat; split; [done|lia]|].
    cbn. rw E1. split; [lia|done]. }
  rw Hpol. case_bool_decide as Er; cbn [negb].
  2: { exists 1%nat. split; [lia|]. apply (Hone [FailAt _]); [done|done|exists 0%nat; split; [done|lia]|].
       left. rw E1. split_and!; [lia|done|done]. }
  destruct (max_attempts (rs_policy s) <=? attempt) eqn:El.
  { apply N.leb_le in El. exists 1%nat. split; [lia|]. apply (Hone [FailAt _]); [done|done|exists 0%nat; split; [done|lia]|].
    right; left. rw E1. split_and!; [done|lia|]. right. by exists error. }
  apply N.leb_gt in El. rw record_failure_policy Hpol. destruct (at_cancelled (world attempt)) eqn:Ec.
  { exists 1%nat. split; [lia|]. apply (Hone [FailAt _; Sleep _]); [done|done|exists 1%nat; split; [done|lia]|].
    right; right; left. rw E1. split_and!; [done|lia|lia|by exists error|done]. }
  destruct (IH (record_failure s1 p (at_record (world attempt))) (attempt + 1)) as (k & Hk & Hex).
  { rw record_failure_policy Hpol. lia. }
  rw record_failure_policy Hpol in Hex. destruct (attempt_from _ p world (attempt + 1) remaining) as [[s' acts] out].
  exists (S k). split; [lia|]. cbn [fst snd] in *. apply Hcons; [done|by exists error|done|done|done].
Qed.

(** One execution with retries, for any scheduler and world.  It makes at most
    [max_attempts] calls, numbered from one, each just after the provider's breaker
    consented; every call but the last failed with a retriable error and was followed
    by an uncancelled sleep of the policy's delay.  It returns the value of the last
    call, its error when that is not retriable, an exhausted budget only after the
    last permitted attempt, a cancellation only when the backoff lost its race, and a
    refusal only when the breaker refused; the breakers have been told exactly this. *)
Theorem retry_exact {T} (s : RetryScheduler) (p : ProviderId) (world : N → Attempt T) :
  let '(s', acts, out) := execute_with_retry s p world in
  ∃ k, N.of_nat k ≤ max_attempts (rs_policy s)
    ∧ execution s p world 1 k (max_attempts (rs_policy s)) s' acts out.
Proof.
  unfold execute_with_retry. destruct (attempt_from_spec p world (N.to_nat (max_attempts (rs_policy s))) s 1) as (k & Hk & He);
    [lia|]. destruct (attempt_from _ _ _ _ _) as [[s' acts] out]. exists k. split; [lia|done].
Qed.

(** Two transient failures, then a success. *)
Definition flaky (n : N) : Attempt unit :=
  MkAttempt (n * 10) (if n <? 3 then Err (TransientTransport (lit "p") (lit "reset")) else Ok tt) (n * 10 + 1) 0 false.

Example flaky_succeeds :
  (execute_with_retry with_default_policy (lit "p") flaky).2 = Ok tt
  ∧ omap call_of (execute_with_retry with_default_policy (lit "p") flaky).1.2 = [1; 2; 3].
Proof. by vm_compute. Qed.

(** The jitter of the largest entropy a clock can give still shortens the delay, and
    entropy zero takes the whole fifth away. *)
Example jitter_only_shortens :
  delay_for_attempt DEFAULT_RETRY_POLICY 1 0 = 160000000
  ∧ delay_for_attempt DEFAULT_RETRY_POLICY 1 999999999 < 180000000
  ∧ capped_delay DEFAULT_RETRY_POLICY 1 = 200000000 ∧ capped_delay DEFAULT_RETRY_POLICY 9 = 30000000000.
Proof. by vm_compute. Qed.
