(* ===== verification/Supervision.v ===== *)
(** * Process supervision of the daemon

    [crates/orchestraitor-daemon/src/supervision.rs], [supervision/types.rs] and
    [supervision/monitor.rs]: the supervisor spawns worker processes and the gateway
    and starts one monitoring task for each.  The tasks run concurrently: a state of
    the whole ([System]) has the supervisor, every task and the bounded event
    channel, and a task moves by the steps between which another thread can act.  The
    operating system's answers (spawns and exits) are inputs. *)

From S2P Require Import Prelude BTree Text Model.

Abbreviation SessionId := rstr (only parsing).
Abbreviation ProjectId := rstr (only parsing).

Record CommandSpec := MkCommandSpec { cs_program : rstr; cs_args : list rstr; cs_env : list (rstr * rstr) }.

Record WorkerSpec := MkWorkerSpec {
  ws_session_id : SessionId;
  ws_project : ProjectId;
  ws_command : CommandSpec;
  ws_max_restarts : N;
}.

Record GatewaySpec := MkGatewaySpec { gs_command : CommandSpec; gs_max_restarts : N }.

Inductive ProcessStatus :=
| Starting | Running (pid : N) | Exited (code : option Z) | Restarting (attempt : N) | ProcFailed.

Inductive SupervisionEvent :=
| WorkerStarted (session : SessionId) (pid : N)
| WorkerExited (session : SessionId) (code : option Z)
| WorkerRestarting (session : SessionId) (attempt : N)
| WorkerFailed (session : SessionId)
| GatewayStarted (pid : N)
| GatewayExited (code : option Z)
| GatewayRestarting (attempt : N)
| GatewayFailed
| CrossProjectRefused (session : SessionId) (tool : rstr) (bound_project requested_project : ProjectId).

Inductive SupervisionError :=
| ErrSpawnWorker (message : rstr)
| ErrSpawnGateway (message : rstr)
| WorkerNotFound (session : SessionId)
| CrossProjectAccess (bound_project requested_project : ProjectId) (tool : rstr)
| ToolNotRegistered (tool : rstr) (project : ProjectId).

(** ** The monitoring task *)

Inductive ProcessKind := KWorker (session : SessionId) | KGateway.

(** The cancellation channel as its receiver sees it: the value, whether it changed
    since it was last seen, and whether the sender still exists. *)
Record CancelRx := MkCancelRx { cx_value : bool; cx_changed : bool; cx_sender : bool }.

(** Where the task is in its loop: at the select, past the check of the cancel
    value, past the announcement of the restart, returned. *)
Inductive Phase := Selecting | Checked | Announced | Returned.
#[global] Instance Phase_eq_dec : EqDecision Phase.
Proof. solve_decision. Defined.

Record Monitor := MkMonitor {
  mo_kind : ProcessKind;
  mo_command : CommandSpec;
  mo_max_restarts : N;
  mo_restarts : N;
  mo_phase : Phase;
  mo_status : ProcessStatus;
  mo_cancel : CancelRx;
}.

Definition emit_started (kind : ProcessKind) (pid : N) : SupervisionEvent :=
  match kind with KWorker session => WorkerStarted session pid | KGateway => GatewayStarted pid end.
Definition emit_exit (kind : ProcessKind) (code : option Z) : SupervisionEvent :=
  match kind with KWorker session => WorkerExited session code | KGateway => GatewayExited code end.
Definition emit_restarting (kind : ProcessKind) (attempt : N) : SupervisionEvent :=
  match kind with KWorker session => WorkerRestarting session attempt | KGateway => GatewayRestarting attempt end.
Definition emit_failed (kind : ProcessKind) : SupervisionEvent :=
  match kind with KWorker session => WorkerFailed session | KGateway => GatewayFailed end.

Definition at_phase (m : Monitor) (restarts : N) (phase : Phase) (status : ProcessStatus) : Monitor :=
  MkMonitor (mo_kind m) (mo_command m) (mo_max_restarts m) restarts phase status (mo_cancel m).

(** The task as it is spawned. *)
Definition monitor_start (kind : ProcessKind) (command : CommandSpec) (max_restarts pid : N) : Monitor :=
  MkMonitor kind command max_restarts 0 Selecting (Running pid) (MkCancelRx false false true).

Inductive MonitorInput :=
| ChildExit (code : option Z)
| CancelChanged
| Announce
| Respawn (spawned : result N rstr).

(** One step of [monitor_process], [None] where the task cannot take it. *)
Definition monitor_step (m : Monitor) (input : MonitorInput) : option (Monitor * list SupervisionEvent) :=
  match mo_phase m, input with
  | Selecting, ChildExit exit_code =>
      let status := Exited exit_code in
      Some (at_phase m (mo_restarts m) (if cx_value (mo_cancel m) then Returned else Checked) status,
            [emit_exit (mo_kind m) exit_code])
  | Selecting, CancelChanged =>
      if cx_changed (mo_cancel m) || negb (cx_sender (mo_cancel m)) then
        Some (at_phase m (mo_restarts m) Returned (Exited None), [emit_exit (mo_kind m) None])
      else None
  | Checked, Announce =>
      let restarts := (mo_restarts m + 1) mod 2 ^ 32 in
      Some (if mo_max_restarts m <? restarts
            then (at_phase m restarts Returned ProcFailed, [emit_failed (mo_kind m)])
            else (at_phase m restarts Announced (Restarting restarts), [emit_restarting (mo_kind m) restarts]))
  | Announced, Respawn (Ok pid) =>
      Some (at_phase m (mo_restarts m) Selecting (Running pid), [emit_started (mo_kind m) pid])
  | Announced, Respawn (Err _) =>
      Some (at_phase m (mo_restarts m) Returned ProcFailed, [emit_failed (mo_kind m)])
  | _, _ => None
  end.

(** ** The supervisor *)

(** The event channel: [try_send] drops the event when the channel is full. *)
Record Channel := MkChannel { ch_capacity : N; ch_queue : list SupervisionEvent }.

Definition try_send (c : Channel) (e : SupervisionEvent) : Channel :=
  if len (ch_queue c) <? ch_capacity c then MkChannel (ch_capacity c) (ch_queue c ++ [e]) else c.

(** An entry holds the other ends of its task's channels. *)
Record WorkerEntry := MkWorkerEntry { we_project : ProjectId; we_task : nat }.
Record GatewayEntry := MkGatewayEntry { ge_task : nat }.

Record Supervisor := MkSupervisor {
  workers : gmap SessionId WorkerEntry;
  gateway : option GatewayEntry;
  project_tools : gmap ProjectId (gset rstr);
}.

Record System := MkSystem { sys_sup : Supervisor; sys_tasks : list Monitor; sys_events : Channel }.

Definition EVENT_CHANNEL_CAPACITY : N := 256.

(** A channel of capacity zero panics. *)
Definition with_capacity (capacity : N) : outcome System :=
  if capacity =? 0 then Panic else Done (MkSystem (MkSupervisor ∅ None ∅) [] (MkChannel capacity [])).
Definition Supervisor_new : outcome System := with_capacity EVENT_CHANNEL_CAPACITY.

Definition send_event (e : SupervisionEvent) (y : System) : System :=
  MkSystem (sys_sup y) (sys_tasks y) (try_send (sys_events y) e).

Definition on_cancel (f : CancelRx → CancelRx) (m : Monitor) : Monitor :=
  MkMonitor (mo_kind m) (mo_command m) (mo_max_restarts m) (mo_restarts m) (mo_phase m) (mo_status m) (f (mo_cancel m)).

(** [cancel.send(true)], and the sender dropped with its entry. *)
Definition cancel_send (m : Monitor) : Monitor := on_cancel (λ c, MkCancelRx true true (cx_sender c)) m.
Definition cancel_drop (m : Monitor) : Monitor := on_cancel (λ c, MkCancelRx (cx_value c) (cx_changed c) false) m.

Definition alter_tasks (f : Monitor → Monitor) (ids : list nat) (tasks : list Monitor) : list Monitor :=
  foldr (λ n ts, alter f n ts) tasks ids.

Definition spawn_worker (y : System) (spec : WorkerSpec) (spawned : result N rstr)
  : System * result SessionId SupervisionError :=
  match spawned with
  | Err message => (y, Err (ErrSpawnWorker message))
  | Ok pid =>
      let session := ws_session_id spec in
      let s := sys_sup y in
      let replaced := match workers s !! session with Some entry => [we_task entry] | None => [] end in
      let tasks := alter_tasks cancel_drop replaced (sys_tasks y)
        ++ [monitor_start (KWorker session) (ws_command spec) (ws_max_restarts spec) pid] in
      let s := MkSupervisor (<[session := MkWorkerEntry (ws_project spec) (length (sys_tasks y))]> (workers s))
        (gateway s) (project_tools s) in
      (send_event (WorkerStarted session pid) (MkSystem s tasks (sys_events y)), Ok session)
  end.

Definition spawn_gateway (y : System) (spec : GatewaySpec) (spawned : result N rstr)
  : System * result unit SupervisionError :=
  match spawned with
  | Err message => (y, Err (ErrSpawnGateway message))
  | Ok pid =>
      let s := sys_sup y in
      let replaced := match gateway s with Some entry => [ge_task entry] | None => [] end in
      let tasks := alter_tasks cancel_drop replaced (sys_tasks y)
        ++ [monitor_start KGateway (gs_command spec) (gs_max_restarts spec) pid] in
      let s := MkSupervisor (workers s) (Some (MkGatewayEntry (length (sys_tasks y)))) (project_tools s) in
      (send_event (GatewayStarted pid) (MkSystem s tasks (sys_events y)), Ok tt)
  end.

Definition register_project_tools (y : System) (project : ProjectId) (tools : list rstr) : System :=
  let s := sys_sup y in
  let known := default ∅ (project_tools s !! project) in
  MkSystem (MkSupervisor (workers s) (gateway s) (<[project := known ∪ list_to_set tools]> (project_tools s)))
    (sys_tasks y) (sys_events y).

Definition check_tool_access (y : System) (session : SessionId) (tool : rstr) (requested_project : ProjectId)
  : System * result unit SupervisionError :=
  match workers (sys_sup y) !! session with
  | None => (y, Err (WorkerNotFound session))
  | Some entry =>
      if negb (bool_decide (we_project entry = requested_project)) then
        (send_event (CrossProjectRefused session tool (we_project entry) requested_project) y,
         Err (CrossProjectAccess (we_project entry) requested_project tool))
      else
        let registered := match project_tools (sys_sup y) !! we_project entry with
                          | Some tools => bool_decide (tool ∈ tools)
                          | None => false
                          end in
        if negb registered then (y, Err (ToolNotRegistered tool (we_project entry))) else (y, Ok tt)
  end.

Definition worker_status (y : System) (session : SessionId) : option ProcessStatus :=
  entry ← workers (sys_sup y) !! session; mo_status <$> sys_tasks y !! we_task entry.
Definition gateway_status (y : System) : option ProcessStatus :=
  entry ← gateway (sys_sup y); mo_status <$> sys_tasks y !! ge_task entry.
Definition worker_project (y : System) (session : SessionId) : option ProjectId :=
  we_project <$> workers (sys_sup y) !! session.

Definition cancel_tasks (ids : list nat) (y : System) : System :=
  MkSystem (sys_sup y) (alter_tasks cancel_send ids (sys_tasks y)) (sys_events y).

Definition shutdown_worker (y : System) (session : SessionId) : System * result unit SupervisionError :=
  match workers (sys_sup y) !! session with
  | None => (y, Err (WorkerNotFound session))
  | Some entry => (cancel_tasks [we_task entry] y, Ok tt)
  end.

Definition shutdown_gateway (y : System) : System :=
  match gateway (sys_sup y) with Some entry => cancel_tasks [ge_task entry] y | None => y end.

Definition shutdown_all (y : System) : System :=
  shutdown_gateway (cancel_tasks ((λ e, we_task e.2) <$> map_to_list (workers (sys_sup y))) y).

(** ** Everything that can happen *)

Inductive Label :=
| LSpawnWorker (spec : WorkerSpec) (spawned : result N rstr)
| LSpawnGateway (spec : GatewaySpec) (spawned : result N rstr)
| LRegister (project : ProjectId) (tools : list rstr)
| LCheck (session : SessionId) (tool : rstr) (requested_project : ProjectId)
| LShutdownWorker (session : SessionId)
| LShutdownGateway
| LShutdownAll
| LMonitor (task : nat) (input : MonitorInput)
| LReceive.

Definition apply_label (y : System) (l : Label) : option System :=
  match l with
  | LSpawnWorker spec spawned => Some (spawn_worker y spec spawned).1
  | LSpawnGateway spec spawned => Some (spawn_gateway y spec spawned).1
  | LRegister project tools => Some (register_project_tools y project tools)
  | LCheck session tool requested_project => Some (check_tool_access y session tool requested_project).1
  | LShutdownWorker session => Some (shutdown_worker y session).1
  | LShutdownGateway => Some (shutdown_gateway y)
  | LShutdownAll => Some (shutdown_all y)
  | LMonitor n input =>
      m ← sys_tasks y !! n;
      '(m', events) ← monitor_step m input;
      Some (MkSystem (sys_sup y) (<[n := m']> (sys_tasks y)) (foldl try_send (sys_events y) events))
  | LReceive =>
      match ch_queue (sys_events y) with
      | [] => None
      | _ :: queue => Some (MkSystem (sys_sup y) (sys_tasks y) (MkChannel (ch_capacity (sys_events y)) queue))
      end
  end.

Fixpoint run_labels (y : System) (labels : list Label) : option System :=
  match labels with [] => Some y | l :: labels => apply_label y l ≫= λ y, run_labels y labels end.

(** ** Runs *)

Lemma run_labels_snoc y labels l : run_labels y (labels ++ [l]) = run_labels y labels ≫= λ y, apply_label y l.
Proof. revert y. induction labels as [|l' labels IH]; intros y; cbn; [by destruct (apply_label y l)|]. by destruct (apply_label y l'); cbn. Qed.

Lemma run_labels_app y xs ys : run_labels y (xs ++ ys) = run_labels y xs ≫= λ y, run_labels y ys.
Proof. revert y. induction xs as [|x xs IH]; intros y; [done|]. cbn. by destruct (apply_label y x); cbn. Qed.

(** An invariant of every run, by induction on its last step. *)
Lemma run_labels_inv (I : list Label → System → Prop) y0 :
  I [] y0 → (∀ labels l y y', run_labels y0 labels = Some y → I labels y → apply_label y l = Some y' → I (labels ++ [l]) y') →
  ∀ labels y, run_labels y0 labels = Some y → I labels y.
Proof.
  intros H0 HS labels. induction labels as [|l labels IH] using rev_ind; intros y Hr; [by injection Hr as <-|].
  rw run_labels_snoc in Hr. apply bind_Some in Hr as (y1 & Hr & Hl). by eapply HS; eauto.
Qed.

Lemma alter_tasks_ne f ids tasks n : n ∉ ids → alter_tasks f ids tasks !! n = tasks !! n.
Proof.
  induction ids as [|i ids IH]; [done|]. intros [Hi Hn]%not_elem_of_cons. cbn. rw list_lookup_alter_ne; [by apply IH|done].
Qed.

Lemma alter_tasks_kept {A} (g : Monitor → A) f ids tasks n : (∀ m, g (f m) = g m) →
  g <$> alter_tasks f ids tasks !! n = g <$> tasks !! n.
Proof.
  intros Hg. induction ids as [|i ids IH]; [done|]. cbn. rw list_lookup_alter.
  fold (alter_tasks f ids tasks). case_decide; [|done]. subst i. rw -IH.
  destruct (alter_tasks f ids tasks !! n) as [m|]; cbn [fmap option_fmap option_map]; [by rw Hg|done].
Qed.

Lemma alter_tasks_length f ids tasks : length (alter_tasks f ids tasks) = length tasks.
Proof. induction ids as [|i ids IH]; [done|]. cbn. by rw length_alter. Qed.

(** ** What the supervisor's state means *)

Record sup_wf (y : System) : Prop := {
  wf_workers : ∀ s e, workers (sys_sup y) !! s = Some e →
    mo_kind <$> sys_tasks y !! we_task e = Some (KWorker s);
  wf_gateway : ∀ e, gateway (sys_sup y) = Some e → mo_kind <$> sys_tasks y !! ge_task e = Some KGateway;
  wf_channel : len (ch_queue (sys_events y)) ≤ ch_capacity (sys_events y);
}.

Lemma try_send_bounded c e : len (ch_queue c) ≤ ch_capacity c →
  len (ch_queue (try_send c e)) ≤ ch_capacity (try_send c e).
Proof.
  intros Hc. unfold try_send. destruct (_ <? _) eqn:E; [|done]. apply N.ltb_lt in E. cbn. rw len_app. change (len [e]) with 1. lia.
Qed.

Lemma try_sends_bounded es c : len (ch_queue c) ≤ ch_capacity c →
  len (ch_queue (foldl try_send c es)) ≤ ch_capacity (foldl try_send c es).
Proof. revert c. induction es as [|e es IH]; intros c Hc; [done|]. cbn. by apply IH, try_send_bounded. Qed.

Lemma sup_wf_send e y : sup_wf y → sup_wf (send_event e y).
Proof. intros []. split; [done|done|by apply try_send_bounded]. Qed.

Lemma sup_wf_tasks y f ids : (∀ m, mo_kind (f m) = mo_kind m) → sup_wf y →
  sup_wf (MkSystem (sys_sup y) (alter_tasks f ids (sys_tasks y)) (sys_events y)).
Proof. intros Hf []. split; cbn; [|intros e He|done]; intros; rw (alter_tasks_kept mo_kind); eauto. Qed.

(** A new task leaves the kinds of the others. *)
Lemma kind_app tasks ts n k : mo_kind <$> tasks !! n = Some k → mo_kind <$> (tasks ++ ts) !! n = Some k.
Proof.
  intros Hk. destruct (tasks !! n) eqn:E; [|done]. rw lookup_app_l; [by rw E|]. by eapply lookup_lt_Some.
Qed.

Lemma kind_new tasks m : mo_kind <$> (tasks ++ [m]) !! length tasks = Some (mo_kind m).
Proof. by rw list_lookup_middle. Qed.

Lemma monitor_step_kept m input m' es : monitor_step m input = Some (m', es) →
  mo_kind m' = mo_kind m ∧ mo_max_restarts m' = mo_max_restarts m ∧ mo_cancel m' = mo_cancel m.
Proof.
  unfold monitor_step. destruct (mo_phase m), input as [c| | |[]]; try done; intros E.
  - by injection E as <- <-.
  - destruct (_ || _); [|done]. by injection E as <- <-.
  - destruct (_ <? _); by injection E as <- <-.
  - by injection E as <- <-.
  - by injection E as <- <-.
Qed.

Lemma sup_wf_step y l y' : sup_wf y → apply_label y l = Some y' → sup_wf y'.
Proof.
  intros Hw. destruct l as [spec [pid|]|spec [pid|]|project tools|session tool project|session| | |n input|]; cbn [apply_label spawn_worker spawn_gateway fst].
  - intros [= <-]. apply sup_wf_send. destruct Hw as [Hws Hg Hc]. split; cbn [sys_sup sys_tasks sys_events workers gateway]; [|intros e He|done].
    + intros s e. rw lookup_insert. case_decide as Es.
      * subst s. intros [= <-]. cbn. rw -(alter_tasks_length cancel_drop (match workers (sys_sup y) !! ws_session_id spec with Some entry => [we_task entry] | None => [] end)).
        apply kind_new.
      * intros He%Hws. apply kind_app. by rw (alter_tasks_kept mo_kind).
    + apply kind_app. rw (alter_tasks_kept mo_kind); eauto.
  - by intros [= <-].
  - intros [= <-]. apply sup_wf_send. destruct Hw as [Hws Hg Hc]. split; cbn [sys_sup sys_tasks sys_events workers gateway]; [|intros e [= <-]|done].
    + intros s e He%Hws. apply kind_app. by rw (alter_tasks_kept mo_kind).
    + cbn. rw -(alter_tasks_length cancel_drop (match gateway (sys_sup y) with Some entry => [ge_task entry] | None => [] end)).
      apply kind_new.
  - by intros [= <-].
  - intros [= <-]. destruct Hw. by split.
  - intros [= <-]. unfold check_tool_access. destruct (workers _ !! _); [|done]. destruct (negb _); [by apply sup_wf_send|].
    by destruct (negb _).
  - intros [= <-]. unfold shutdown_worker. destruct (workers _ !! _); [|done]. by apply sup_wf_tasks.
  - intros [= <-]. unfold shutdown_gateway. destruct (gateway _); [|done]. by apply sup_wf_tasks.
  - intros [= <-]. unfold shutdown_all, shutdown_gateway. cbn [sys_sup cancel_tasks].
    destruct (gateway _); [apply (sup_wf_tasks (cancel_tasks _ y)); [done|]|]; by apply sup_wf_tasks.
  - intros (m & Hm & [[m' es] [Hs E]]%bind_Some)%bind_Some. injection E as <-.
    destruct (monitor_step_kept _ _ _ _ Hs) as (Hk & _). destruct Hw as [Hws Hg Hc].
    assert (∀ i, mo_kind <$> <[n:=m']> (sys_tasks y) !! i = mo_kind <$> sys_tasks y !! i) as Hi.
    { intros i. rw list_lookup_insert. case_decide as Ei; [|done]. destruct Ei as [<- _]. rw Hm. cbn. by rw Hk. }
    split; cbn; [|intros e He|by apply try_sends_bounded]; intros; rw Hi; eauto.
  - destruct (ch_queue (sys_events y)) eqn:Eq; [done|]. intros [= <-]. destruct Hw as [Hws Hg Hc]. split; cbn; [done|done|].
    rw Eq len_cons in Hc. lia.
Qed.

(** What a step that is not the task's own does to it. *)
Definition same_loop (m m' : Monitor) : Prop :=
  mo_kind m' = mo_kind m ∧ mo_max_restarts m' = mo_max_restarts m ∧ mo_restarts m' = mo_restarts m
  ∧ mo_phase m' = mo_phase m ∧ mo_status m' = mo_status m
  ∧ (cx_value (mo_cancel m) = true → cx_value (mo_cancel m') = true).

Lemma same_loop_refl m : same_loop m m.
Proof. by split_and!. Qed.

Lemma alter_tasks_same f ids tasks n m : (∀ m, same_loop m (f m)) → tasks !! n = Some m →
  ∃ m', alter_tasks f ids tasks !! n = Some m' ∧ same_loop m m'.
Proof.
  intros Hf Hm. induction ids as [|i ids (m' & Hm' & Hs)]; [exists m; split; [done|apply same_loop_refl]|].
  cbn. fold (alter_tasks f ids tasks). rw list_lookup_alter. case_decide as Ei; [subst i|by exists m'].
  rw Hm'. exists (f m'). split; [done|]. destruct (Hf m') as (?&?&?&?&?&?). destruct Hs as (?&?&?&?&?&?).
  split_and!; try congruence. eauto.
Qed.

Lemma same_loop_send m : same_loop m (cancel_send m).
Proof. by split_and!. Qed.
Lemma same_loop_drop m : same_loop m (cancel_drop m).
Proof. by split_and!. Qed.

(** Task [n] over a step: its own step, or unmoved, or new. *)
Definition task_moves (l : Label) (n : nat) (before after : option Monitor) : Prop :=
  (∃ input m m' es, l = LMonitor n input ∧ before = Some m ∧ monitor_step m input = Some (m', es) ∧ after = Some m')
  ∨ (∀ input, l ≠ LMonitor n input)
    ∧ match before, after with
      | Some m, Some m' => same_loop m m'
      | None, Some m' => ∃ kind command max_restarts pid, m' = monitor_start kind command max_restarts pid
      | None, None => True
      | Some _, None => False
      end.

Lemma alter_tasks_moves l f ids tasks n : (∀ m, same_loop m (f m)) → (∀ input, l ≠ LMonitor n input) →
  task_moves l n (tasks !! n) (alter_tasks f ids tasks !! n).
Proof.
  intros Hf Hl. right. split; [done|]. destruct (tasks !! n) as [m|] eqn:Em.
  - by destruct (alter_tasks_same f ids tasks n m Hf Em) as (m' & -> & Hs).
  - rw lookup_ge_None_2; [done|]. rw alter_tasks_length. by apply lookup_ge_None.
Qed.

Lemma alter_tasks_moves_new l f ids tasks n kind command max pid :
  (∀ m, same_loop m (f m)) → (∀ input, l ≠ LMonitor n input) →
  task_moves l n (tasks !! n) ((alter_tasks f ids tasks ++ [monitor_start kind command max pid]) !! n).
Proof.
  intros Hf Hl. right. split; [done|]. destruct (tasks !! n) as [m|] eqn:Em.
  - destruct (alter_tasks_same f ids tasks n m Hf Em) as (m' & Hm' & Hs). rw lookup_app_l; [by rw Hm'|].
    by eapply lookup_lt_Some.
  - destruct ((_ ++ _) !! n) as [m'|] eqn:E; [|done]. apply lookup_ge_None in Em.
    apply lookup_app_Some in E as [E|[_ E]].
    + apply lookup_lt_Some in E. rw alter_tasks_length in E. lia.
    + destruct (n - _)%nat; [|done]. injection E as <-. eauto 10.
Qed.

Lemma task_moves_refl l n o : (∀ input, l ≠ LMonitor n input) → task_moves l n o o.
Proof. intros Hl. right. split; [done|]. destruct o; [apply same_loop_refl|done]. Qed.

Lemma task_moves_trans l n o1 o2 o3 : (∀ input, l ≠ LMonitor n input) →
  task_moves l n o1 o2 → is_Some o1 ∨ o2 = None → task_moves l n o2 o3 → task_moves l n o1 o3.
Proof.
  intros Hl [(?&?&?&?&->&_)|[_ H1]] Ho [(?&?&?&?&->&_)|[_ H2]]; [by edestruct Hl..|]. right. split; [done|].
  destruct o1 as [m1|], o2 as [m2|], o3 as [m3|]; try done; [|by destruct Ho as [[]|]].
  destruct H1 as (?&?&?&?&?&?), H2 as (?&?&?&?&?&?). split_and!; try congruence. eauto.
Qed.

Lemma apply_label_moves y l y' n : apply_label y l = Some y' → task_moves l n (sys_tasks y !! n) (sys_tasks y' !! n).
Proof.
  destruct l as [spec [pid|]|spec [pid|]|project tools|session tool project|session| | |i input|]; cbn [apply_label spawn_worker spawn_gateway fst].
  - intros [= <-]. apply alter_tasks_moves_new; [apply same_loop_drop|done].
  - intros [= <-]. by apply task_moves_refl.
  - intros [= <-]. apply alter_tasks_moves_new; [apply same_loop_drop|done].
  - intros [= <-]. by apply task_moves_refl.
  - intros [= <-]. by apply task_moves_refl.
  - intros [= <-]. unfold check_tool_access. destruct (workers _ !! _); [|by apply task_moves_refl].
    destruct (negb _); [by apply task_moves_refl|]. destruct (negb _); by apply task_moves_refl.
  - intros [= <-]. unfold shutdown_worker. destruct (workers _ !! _); [|by apply task_moves_refl].
    apply (alter_tasks_moves _ _ [_]); [apply same_loop_send|done].
  - intros [= <-]. unfold shutdown_gateway. destruct (gateway _); [|by apply task_moves_refl].
    apply (alter_tasks_moves _ _ [_]); [apply same_loop_send|done].
  - intros [= <-]. unfold shutdown_all, shutdown_gateway. cbn [sys_sup cancel_tasks].
    assert (task_moves LShutdownAll n (sys_tasks y !! n)
      (alter_tasks cancel_send ((λ e, we_task e.2) <$> map_to_list (workers (sys_sup y))) (sys_tasks y) !! n)) as H1
      by (apply alter_tasks_moves; [apply same_loop_send|done]).
    destruct (gateway _) as [e|]; [|done]. cbn [sys_tasks cancel_tasks].
    eapply task_moves_trans; [done|exact H1| |apply (alter_tasks_moves _ _ [_]); [apply same_loop_send|done]].
    destruct (sys_tasks y !! n) eqn:En; [by left|right]. apply lookup_ge_None. rw alter_tasks_length. by apply lookup_ge_None.
  - intros (m & Hm & [[m' es] [Hs E]]%bind_Some)%bind_Some. injection E as <-. cbn [sys_tasks]. destruct (decide (i = n)) as [->|Hi].
    + left. exists input, m, m', es. split_and!; try done. rw list_lookup_insert_eq; [done|]. by eapply lookup_lt_Some.
    + rw list_lookup_insert_ne; [|done]. apply task_moves_refl. congruence.
  - destruct (ch_queue _); [done|]. intros [= <-]. by apply task_moves_refl.
Qed.

(** ** Restarts *)

(** The restart of task [n] that brought up a process. *)
Definition is_restart (n : nat) (l : Label) : bool :=
  match l with LMonitor i (Respawn (Ok _)) => bool_decide (i = n) | _ => false end.
Definition restarted (n : nat) (labels : list Label) : N := count (is_restart n) labels.

Lemma restarted_snoc n labels l : restarted n (labels ++ [l]) = restarted n labels + (if is_restart n l then 1 else 0).
Proof. unfold restarted. rw count_app count_cons count_nil. lia. Qed.

Lemma is_restart_other n l : (∀ input, l ≠ LMonitor n input) → is_restart n l = false.
Proof. intros Hl. destruct l as [| | | | | | |i [| | |[]]|]; try done. cbn. apply bool_decide_eq_false. intros ->. by edestruct Hl. Qed.

(** [k] restarts behind a task in this state. *)
Definition restart_count (m : Monitor) (k : N) : Prop :=
  match mo_phase m with
  | Selecting | Checked => k ≤ mo_restarts m ≤ mo_max_restarts m
  | Announced => k + 1 ≤ mo_restarts m ≤ mo_max_restarts m
  | Returned => k ≤ mo_max_restarts m
  end.

Lemma restart_count_step m input m' es n k : mo_max_restarts m < u32_max → restart_count m k →
  monitor_step m input = Some (m', es) →
  restart_count m' (k + (if is_restart n (LMonitor n input) then 1 else 0)).
Proof.
  intros Hu Hk. unfold monitor_step, restart_count in *.
  destruct (mo_phase m), input as [c| | |[]]; try done; cbn [is_restart]; rw ?bool_decide_eq_true_2 //; intros E.
  - injection E as <- <-. cbn. destruct (cx_value _); lia.
  - destruct (_ || _); [|done]. injection E as <- <-. cbn. lia.
  - assert ((mo_restarts m + 1) mod 2 ^ 32 = mo_restarts m + 1) as Em.
    { apply N.mod_small. unfold u32_max in Hu. cbn in Hu |- *. lia. }
    rw Em in E. destruct (_ <? _) eqn:El; injection E as <- <-; cbn; [apply N.ltb_lt in El|apply N.ltb_ge in El]; lia.
  - injection E as <- <-. cbn. lia.
  - injection E as <- <-. cbn. lia.
Qed.

Lemma restarts_counted y0 labels y : sys_tasks y0 = [] → run_labels y0 labels = Some y →
  ∀ n, match sys_tasks y !! n with
       | Some m => mo_max_restarts m < u32_max → restart_count m (restarted n labels)
       | None => restarted n labels = 0
       end.
Proof.
  intros H0 Hr. pattern labels, y. revert Hr. eapply run_labels_inv; [intros n; by rw H0|].
  clear. intros labels l y y' _ IH Hl n. specialize (IH n). rw restarted_snoc.
  destruct (apply_label_moves y l y' n Hl) as [(input & m & m' & es & -> & Hm & Hs & ->)|[Hn Hm]].
  - rw Hm in IH. intros Hu. destruct (monitor_step_kept _ _ _ _ Hs) as (_ & Emax & _). rw Emax in Hu.
    eapply restart_count_step; eauto.
  - rw is_restart_other; [|done]. rw N.add_0_r. destruct (sys_tasks y !! n) as [m|], (sys_tasks y' !! n) as [m'|]; try done.
    + destruct Hm as (_ & Emax & Er & Ep & _). unfold restart_count. by rw Emax Er Ep.
    + destruct Hm as (k & c & mx & pid & ->). intros _. rw IH. unfold restart_count. cbn. lia.
Qed.

(** A task whose cancel value is set restarts at most the one it is busy with. *)
Definition restart_credit (m : Monitor) : N :=
  match mo_phase m with Checked | Announced => 1 | Selecting | Returned => 0 end.

Lemma cancelled_restarts labels y y' n m : cx_value (mo_cancel m) = true → sys_tasks y !! n = Some m →
  run_labels y labels = Some y' →
  restarted n labels ≤ restart_credit m ∧ cx_value ∘ mo_cancel <$> sys_tasks y' !! n = Some true.
Proof.
  revert y m. induction labels as [|l labels IH]; intros y m Hc Hm; cbn [run_labels].
  { intros [= <-]. split; [apply N.le_0_l|]. rw Hm. cbn. by rw Hc. }
  intros (y1 & Hl & Hr)%bind_Some. unfold restarted. rw count_cons. fold (restarted n labels).
  destruct (apply_label_moves y l y1 n Hl) as [(input & m0 & m' & es & -> & Hm0 & Hs & Hm')|[Hn Hmm]].
  - rw Hm in Hm0. injection Hm0 as <-. destruct (monitor_step_kept _ _ _ _ Hs) as (_ & _ & Ec).
    destruct (IH y1 m') as [Hb Hv]; [by rw Ec|done|done|]. split; [|done]. revert Hb Hs. clear -Hc.
    unfold monitor_step, restart_credit. destruct (mo_phase m), input as [c| | |[]]; try done; cbn [is_restart];
      rw ?bool_decide_eq_true_2 //; intros Hb E.
    + injection E as <- <-. rw Hc in Hb. cbn in Hb. lia.
    + destruct (_ || _); [|done]. injection E as <- <-. cbn in Hb. lia.
    + destruct (_ <? _); injection E as <- <-; cbn in Hb; lia.
    + injection E as <- <-. cbn in Hb. lia.
    + injection E as <- <-. cbn in Hb. lia.
  - rw is_restart_other; [|done]. rw Hm in Hmm. destruct (sys_tasks y1 !! n) as [m'|] eqn:E1; [|done].
    destruct Hmm as (_ & _ & _ & Ep & _ & Ev). destruct (IH y1 m') as [Hb Hv]; [by apply Ev|done|done|]. split; [|done].
    unfold restart_credit in Hb. rw Ep in Hb. exact Hb.
Qed.

(** ** Bindings and tools *)

(** The project a step binds the session to. *)
Definition binds (session : SessionId) (l : Label) : option ProjectId :=
  match l with
  | LSpawnWorker spec (Ok _) => if decide (ws_session_id spec = session) then Some (ws_project spec) else None
  | _ => None
  end.
Definition bound (session : SessionId) (labels : list Label) : option ProjectId := last (omap (binds session) labels).

Definition registered (project : ProjectId) (tool : rstr) (labels : list Label) : Prop :=
  ∃ tools, LRegister project tools ∈ labels ∧ tool ∈ tools.

Lemma bound_snoc session labels l :
  bound session (labels ++ [l]) = match binds session l with Some p => Some p | None => bound session labels end.
Proof.
  unfold bound. rw omap_app. cbn. destruct (binds session l); [by rw last_snoc|by rw app_nil_r].
Qed.

Lemma registered_snoc project tool labels l :
  registered project tool (labels ++ [l])
  ↔ registered project tool labels ∨ ∃ tools, l = LRegister project tools ∧ tool ∈ tools.
Proof. unfold registered. setoid_rewrite elem_of_app. setoid_rewrite list_elem_of_singleton. naive_solver. Qed.

(** The steps that do not touch the supervisor's tables. *)
Lemma apply_label_sup y l y' : apply_label y l = Some y' →
  match l with
  | LSpawnWorker _ (Ok _) | LSpawnGateway _ (Ok _) | LRegister _ _ => True
  | _ => sys_sup y' = sys_sup y
  end.
Proof.
  destruct l as [spec [pid|]|spec [pid|]|project tools|session tool project|session| | |n input|]; cbn [apply_label]; try done.
  - by intros [= <-].
  - by intros [= <-].
  - intros [= <-]. unfold check_tool_access. destruct (workers _ !! _); [|done]. destruct (negb _); [done|]. by destruct (negb _).
  - intros [= <-]. unfold shutdown_worker. by destruct (workers _ !! _).
  - intros [= <-]. unfold shutdown_gateway. by destruct (gateway _).
  - intros [= <-]. unfold shutdown_all, shutdown_gateway. cbn. by destruct (gateway _).
  - by intros (m & Hm & [[m' es] [Hs [= <-]]]%bind_Some)%bind_Some.
  - destruct (ch_queue _); [done|]. by intros [= <-].
Qed.

Definition has_tool (y : System) (project : ProjectId) (tool : rstr) : Prop :=
  tool ∈ default ∅ (project_tools (sys_sup y) !! project).

Lemma tables_follow y0 labels y : sys_sup y0 = MkSupervisor ∅ None ∅ → run_labels y0 labels = Some y →
  (∀ session, worker_project y session = bound session labels)
  ∧ ∀ project tool, has_tool y project tool ↔ registered project tool labels.
Proof.
  intros H0 Hr. pattern labels, y. revert Hr. eapply run_labels_inv.
  { unfold worker_project, has_tool. rw H0. split; [done|]. intros project tool. cbn. rw lookup_empty. cbn.
    split; [set_solver|]. by intros (tools & ?%not_elem_of_nil & _). }
  clear. intros labels l y y' _ [IHb IHt] Hl. pose proof (apply_label_sup _ _ _ Hl) as Hs.
  assert (sys_sup y' = sys_sup y → (∀ session, binds session l = None) → (∀ project tools, l ≠ LRegister project tools) →
    (∀ session, worker_project y' session = bound session (labels ++ [l]))
    ∧ ∀ project tool, has_tool y' project tool ↔ registered project tool (labels ++ [l])) as Hkeep.
  { intros E Hb Hn. unfold worker_project, has_tool in *. rw E. split.
    - intros session. by rw bound_snoc Hb.
    - intros project tool. rw registered_snoc IHt. naive_solver. }
  destruct l as [spec [pid|]|spec [pid|]|project tools| | | | | |]; try (by apply Hkeep); injection Hl as <-.
  - split.
    + intros session. rw bound_snoc. unfold worker_project. cbn -[decide]. rw lookup_insert. case_decide as E; [done|]. apply IHb.
    + intros project tool. rw registered_snoc. pose proof (IHt project tool). naive_solver.
  - split.
    + intros session. rw bound_snoc. apply IHb.
    + intros project tool. rw registered_snoc. pose proof (IHt project tool). naive_solver.
  - split.
    + intros session. rw bound_snoc. apply IHb.
    + intros project' tool. rw registered_snoc -IHt. unfold has_tool. cbn. rw lookup_insert. case_decide as E; [subst project'|].
      * cbn. rw elem_of_union elem_of_list_to_set. naive_solver.
      * naive_solver.
Qed.

Lemma with_capacity_fresh capacity y0 : with_capacity capacity = Done y0 →
  sys_sup y0 = MkSupervisor ∅ None ∅ ∧ sys_tasks y0 = [] ∧ sup_wf y0.
Proof. unfold with_capacity. destruct (capacity =? 0); [done|]. intros [= <-]. split_and!; [done..|]. split; cbn; [by intros ? ? ?%lookup_empty_Some|done|apply N.le_0_l]. Qed.

Lemma reachable_wf capacity y0 labels y : with_capacity capacity = Done y0 → run_labels y0 labels = Some y → sup_wf y.
Proof.
  intros (_ & _ & Hw)%with_capacity_fresh Hr. pattern labels, y. revert Hr. eapply run_labels_inv; [done|].
  intros ? l y1 y' _ H1 Hl. by eapply sup_wf_step.
Qed.

(** ** Theorems *)

(** Project isolation, after any interleaving of spawns, registrations,
    shutdowns, crashes and restarts: a worker may use a tool of a project exactly when
    the last successful spawn of its session bound it to that project and the tool
    was registered for it at some time; a request for any other project is refused
    as cross-project access. *)
Theorem tool_access_exact capacity y0 labels y session tool project :
  with_capacity capacity = Done y0 → run_labels y0 labels = Some y →
  ((check_tool_access y session tool project).2 = Ok tt
   ↔ bound session labels = Some project ∧ registered project tool labels)
  ∧ ∀ other, bound session labels = Some other → other ≠ project →
      (check_tool_access y session tool project).2 = Err (CrossProjectAccess other project tool).
Proof.
  intros (Hs & _ & _)%with_capacity_fresh Hr. destruct (tables_follow y0 labels y Hs Hr) as [Hb Ht].
  rw -Hb -Ht. unfold check_tool_access, worker_project, has_tool.
  destruct (workers (sys_sup y) !! session) as [e|]; [|by split; [split; [|intros [? ?]]|]].
  cbn [fmap option_fmap option_map]. case_bool_decide as Ep; cbn [negb].
  - subst project. split; [|by intros other [= <-]].
    destruct (project_tools (sys_sup y) !! we_project e) as [tools|]; cbn.
    + case_bool_decide; cbn; naive_solver.
    + set_solver.
  - split; [|by intros other [= <-] _]. split; [done|]. by intros [[= E] _].
Qed.

(** A supervised worker is restarted at most [max_restarts] times, and once its
    shutdown was requested at most one restart still happens, the one its task was
    already past the cancellation check for; none when the task was waiting. *)
Theorem restarts_bounded capacity y0 before y session entry m after y' :
  with_capacity capacity = Done y0 → run_labels y0 before = Some y →
  workers (sys_sup y) !! session = Some entry → sys_tasks y !! we_task entry = Some m →
  mo_max_restarts m < u32_max → run_labels (shutdown_worker y session).1 after = Some y' →
  restarted (we_task entry) before ≤ mo_max_restarts m
  ∧ restarted (we_task entry) after ≤ restart_credit m ∧ restart_credit m ≤ 1.
Proof.
  intros (_ & H0 & _)%with_capacity_fresh Hr He Hm Hu Ha. split_and!.
  - pose proof (restarts_counted y0 before y H0 Hr (we_task entry)) as Hc. rw Hm in Hc. specialize (Hc Hu).
    unfold restart_count in Hc. destruct (mo_phase m); lia.
  - unfold shutdown_worker in Ha. rw He in Ha. cbn [fst] in Ha.
    apply (cancelled_restarts after _ y' (we_task entry) (cancel_send m)) in Ha as [Hb _]; [exact Hb|done|].
    cbn. rw list_lookup_alter. case_decide; [|done]. by rw Hm.
  - unfold restart_credit. by destruct (mo_phase m).
Qed.

(** Failures are isolated: in any reachable system a step of one worker's task,
    a crash and a restart included, or the shutdown of that worker leaves the task
    of every other worker and of the gateway as it was; and the event channel never
    holds more than its capacity. *)
Theorem failures_isolated capacity y0 labels y session entry l y' :
  with_capacity capacity = Done y0 → run_labels y0 labels = Some y →
  workers (sys_sup y) !! session = Some entry →
  (∃ input, l = LMonitor (we_task entry) input) ∨ l = LShutdownWorker session →
  apply_label y l = Some y' →
  (∀ other e, other ≠ session → workers (sys_sup y) !! other = Some e →
     workers (sys_sup y') !! other = Some e ∧ sys_tasks y' !! we_task e = sys_tasks y !! we_task e)
  ∧ (∀ g, gateway (sys_sup y) = Some g → gateway (sys_sup y') = Some g ∧ sys_tasks y' !! ge_task g = sys_tasks y !! ge_task g)
  ∧ len (ch_queue (sys_events y')) ≤ ch_capacity (sys_events y').
Proof.
  intros Hc Hr He Hl Ha. pose proof (reachable_wf _ _ _ _ Hc Hr) as Hw. pose proof (wf_workers _ Hw _ _ He) as Hk.
  assert (∀ n, n ≠ we_task entry → sys_tasks y' !! n = sys_tasks y !! n) as Ht.
  { intros n Hn. destruct Hl as [[input ->]| ->].
    - apply bind_Some in Ha as (m & Hm & [[m' es] [Hs [= <-]]]%bind_Some). by apply list_lookup_insert_ne.
    - injection Ha as <-. unfold shutdown_worker. rw He. cbn. by apply list_lookup_alter_ne. }
  assert (sys_sup y' = sys_sup y) as -> by (pose proof (apply_label_sup _ _ _ Ha); by destruct Hl as [[input ->]| ->]).
  split_and!.
  - intros other e Ho Hoe. split; [done|]. apply Ht. intros E. pose proof (wf_workers _ Hw _ _ Hoe) as Hk'. rw E Hk in Hk'. congruence.
  - intros g Hg. split; [done|]. apply Ht. intros E. pose proof (wf_gateway _ Hw _ Hg) as Hk'. rw E Hk in Hk'. congruence.
  - apply wf_channel. by eapply sup_wf_step.
Qed.

(** ** A run *)

Definition example_command : CommandSpec := MkCommandSpec (lit "worker") [] [].
Definition worker_a : WorkerSpec := MkWorkerSpec (lit "a") (lit "p1") example_command 2.
Definition worker_b : WorkerSpec := MkWorkerSpec (lit "b") (lit "p2") example_command 0.

(** Two workers; the first crashes, is restarted, and crashes again. *)
Definition example_labels : list Label :=
  [LSpawnWorker worker_a (Ok 10); LSpawnWorker worker_b (Ok 11); LRegister (lit "p1") [lit "t"];
   LMonitor 0 (ChildExit (Some 1%Z)); LMonitor 0 Announce; LMonitor 0 (Respawn (Ok 12));
   LMonitor 0 (ChildExit None)].

Definition example_start : System := MkSystem (MkSupervisor ∅ None ∅) [] (MkChannel 4 []).
Definition example_system : System := default example_start (run_labels example_start example_labels).

(** The shutdown arrives between the check of the cancel value and the restart. *)
Definition late_labels : list Label := [LMonitor 0 Announce; LMonitor 0 (Respawn (Ok 13)); LMonitor 0 CancelChanged].

Definition example_monitor : Monitor :=
  MkMonitor (KWorker (lit "a")) example_command 2 1 Checked (Exited None) (MkCancelRx false false true).

Lemma example_reached : run_labels example_start example_labels = Some example_system.
Proof. by vm_compute. Qed.

Lemma example_entry : workers (sys_sup example_system) !! lit "a" = Some (MkWorkerEntry (lit "p1") 0).
Proof. by vm_compute. Qed.

Lemma tool_access_exact_witness :
  (check_tool_access example_system (lit "a") (lit "t") (lit "p1")).2 = Ok tt
  ∧ (check_tool_access example_system (lit "b") (lit "t") (lit "p1")).2
    = Err (CrossProjectAccess (lit "p2") (lit "p1") (lit "t")).
Proof.
  split.
  - apply (proj1 (tool_access_exact 4 example_start example_labels example_system (lit "a") (lit "t") (lit "p1")
      eq_refl example_reached)). split; [by vm_compute|]. exists [lit "t"]. split; [|by apply list_elem_of_here].
    unfold example_labels. do 2 apply list_elem_of_further. apply list_elem_of_here.
  - apply (proj2 (tool_access_exact 4 example_start example_labels example_system (lit "b") (lit "t") (lit "p1")
      eq_refl example_reached)); by vm_compute.
Defined.

Lemma restarts_bounded_witness :
  restarted 0 example_labels = 1 ∧ restarted 0 late_labels = 1 ∧ restarted 0 late_labels ≤ 1.
Proof.
  split; [by vm_compute|]. split; [by vm_compute|].
  assert (∃ y', run_labels (shutdown_worker example_system (lit "a")).1 late_labels = Some y') as [y' Hy'].
  { eexists. vm_compute. reflexivity. }
  destruct (restarts_bounded 4 example_start example_labels example_system (lit "a") (MkWorkerEntry (lit "p1") 0)
    example_monitor late_labels y' eq_refl example_reached example_entry) as (_ & H1 & H2);
    [by vm_compute|by vm_compute|exact Hy'|]. exact (N.le_trans _ _ _ H1 H2).
Defined.

Definition after_announce : System := default example_system (apply_label example_system (LMonitor 0 Announce)).

Lemma failures_isolated_witness :
  worker_status after_announce (lit "a") = Some (Restarting 2) ∧ worker_status after_announce (lit "b") = Some (Running 11).
Proof.
  split; [by vm_compute|].
  destruct (failures_isolated 4 example_start example_labels example_system (lit "a") (MkWorkerEntry (lit "p1") 0)
    (LMonitor 0 Announce) after_announce eq_refl example_reached example_entry (or_introl (ex_intro _ Announce eq_refl)))
    as (H & _ & _); [by vm_compute|].
  destruct (H (lit "b") (MkWorkerEntry (lit "p2") 1)) as [Hw Ht]; [by vm_compute|by vm_compute|].
  unfold worker_status. rw Hw. cbn [mbind option_bind we_task] in Ht |- *. rw Ht. by vm_compute.
Defined.
