(* ===== verification/Sqlite.v ===== *)
(** * The SQLite audit store

    [crates/orchestraitor-events/src/sqlite.rs]: the store the daemon and the gateway
    use.  The table is the list of its rows in key order; every statement may fail,
    which is an input, and a transaction that does not commit leaves the table alone.
    Other connections to the file are steps that replace the table as they like.

    Of SQLite the pragma [data_version] is a parameter: what a connection reads is a
    function of the number of commits other connections have made, and differs when
    the number does. *)

From S2P Require Import Prelude BTree Model Events RunState.

(** ** Rows *)

Record AuditRow := MkRow {
  ar_seq : Z;
  ar_category : rstr;
  ar_schema : Z;
  ar_hash : rstr;
  ar_json : list N;
}.

(** [serde_json] on an envelope's bytes and on a category. *)
Class RowCodec := {
  envelope_from_slice : list N → result EventEnvelope rstr;
  category_json : EventCategory → rstr;
}.

Class DataVersion := {
  data_version : N → Z;
  data_version_inj : ∀ j k, data_version j = data_version k → j = k;
  data_version_nonneg : ∀ k, (0 ≤ data_version k)%Z;
}.

(** [i64::try_from]. *)
Definition seq_i64 (n : N) : option Z := if n <? 2 ^ 63 then Some (Z.of_N n) else None.

(** The file as one connection sees it, and the commits of the others. *)
Record AuditDb := MkDb { db_rows : list AuditRow; db_foreign : N }.

(** Another connection commits. *)
Definition foreign_commit (db : AuditDb) (rows : list AuditRow) : AuditDb := MkDb rows (db_foreign db + 1).

Record SqliteAuditStore := MkSqlite {
  conn : AuditDb;
  cached_data_version : Z;
  verified_head : option AuditRecord;
}.

(** The error each statement returns, if any. *)
Record SqlFaults := MkSqlFaults {
  f_begin : fault; f_version : fault; f_row : fault; f_load : fault; f_insert : fault; f_commit : fault;
}.
Definition no_faults : SqlFaults := MkSqlFaults None None None None None None.

Definition statement (f : fault) : result unit EventError :=
  match f with Some message => Err (Sqlite message) | None => Ok tt end.

Definition sqlite_initialize (db : AuditDb) : SqliteAuditStore := MkSqlite db (-1) None.

Section store.
Context `{Externals} `{RowCodec} `{DataVersion}.

Definition decode_envelope (envelope_json : list N) (stored_hash : rstr) : result AuditRecord EventError :=
  let? envelope := map_err Json (envelope_from_slice envelope_json) in
  let? computed := hash_envelope envelope in
  if negb (bool_decide (digest_str computed = stored_hash)) then Err (RecordHashMismatch (monotonic_seq envelope))
  else Ok {| envelope := envelope; hash := computed |}.

(** One row of [load_verified_records]. *)
Definition verify_row (row : AuditRow) : result AuditRecord EventError :=
  let? record := decode_envelope (ar_json row) (ar_hash row) in
  let sequence := monotonic_seq (envelope record) in
  if negb (bool_decide (seq_i64 sequence = Some (ar_seq row))) then Err (RecordHashMismatch sequence)
  else if negb (bool_decide (category_json (category (envelope record)) = ar_category row))
          || negb (bool_decide (Z.of_N (schema_version (envelope record)) = ar_schema row))
  then Err (RecordHashMismatch sequence)
  else Ok record.

Fixpoint verify_rows (rows : list AuditRow) : result (list AuditRecord) EventError :=
  match rows with
  | [] => Ok []
  | row :: rows =>
      let? record := verify_row row in
      let? records := verify_rows rows in
      Ok (record :: records)
  end.

Definition load_verified_records (rows : list AuditRow) (f : fault) : result (list AuditRecord) EventError :=
  let? _ := statement f in
  let? records := verify_rows rows in
  let? _ := validate_hash_chain records in
  Ok records.

Definition head_record (rows : list AuditRow) (f : fault) : result (option AuditRecord) EventError :=
  let? records := load_verified_records rows f in Ok (list.last records).

Definition trusted_head_with_version (cached : option AuditRecord) (cached_version : Z) (db : AuditDb) (f : SqlFaults)
  : result (option AuditRecord * Z) EventError :=
  let? _ := statement (f_version f) in
  let version := data_version (db_foreign db) in
  let verified := let? head := head_record (db_rows db) (f_load f) in Ok (head, version) in
  match cached with
  | None => verified
  | Some cached =>
      if negb (bool_decide (version = cached_version)) then verified
      else
        match seq_i64 (monotonic_seq (envelope cached)) with
        | None => Err (SequenceGap 1 (monotonic_seq (envelope cached)))
        | Some key =>
            let? _ := statement (f_row f) in
            let trusted := match List.find (λ row, bool_decide (ar_seq row = key)) (db_rows db) with
                           | Some row => bool_decide (ar_hash row = digest_str (hash cached))
                           | None => false
                           end in
            if trusted then Ok (Some cached, version) else verified
        end
  end.

(** [MAX(monotonic_seq)]. *)
Definition max_seq (rows : list AuditRow) : option Z :=
  foldr (λ row m, Some (match m with Some m => Z.max (ar_seq row) m | None => ar_seq row end)) None rows.

Definition next_sequence (rows : list AuditRow) : N :=
  let last := default 0%Z (max_seq rows) in
  if (last <? 0)%Z then 1 else saturating_add u64_max (Z.to_N last) 1.

(** A row in key order. *)
Fixpoint put_row (row : AuditRow) (rows : list AuditRow) : list AuditRow :=
  match rows with
  | [] => [row]
  | r :: rows => if (ar_seq row <? ar_seq r)%Z then row :: r :: rows else r :: put_row row rows
  end.

(** The key is checked before the unique index on the hash; the statement that finds
    the expected number for the error is taken to succeed. *)
Definition sqlite_insert (rows : list AuditRow) (record : AuditRecord) (f : fault) : result (list AuditRow) EventError :=
  let e := envelope record in
  match seq_i64 (monotonic_seq e) with
  | None => Err (SequenceGap 1 (monotonic_seq e))
  | Some sequence =>
      let? envelope_json := map_err CanonicalJson (canonical_json e) in
      let row := MkRow sequence (category_json (category e)) (Z.of_N (schema_version e)) (digest_str (hash record)) envelope_json in
      let? _ := statement f in
      if existsb (λ r, bool_decide (ar_seq r = sequence)) rows
      then Err (SequenceGap (next_sequence rows) (monotonic_seq e))
      else if existsb (λ r, bool_decide (ar_hash r = digest_str (hash record))) rows
      then Err (Sqlite (lit "UNIQUE constraint failed: audit_records.hash"))
      else Ok (put_row row rows)
  end.

(** The transaction of an append: the new rows, the record and the version it saw. *)
Definition append_transaction (s : SqliteAuditStore) (e : EventEnvelope) (f : SqlFaults)
  : result (list AuditRow * AuditRecord * Z) EventError :=
  let? _ := statement (f_begin f) in
  let? (head, version) := trusted_head_with_version (verified_head s) (cached_data_version s) (conn s) f in
  let? _ := match head with
            | Some record => validate_next_envelope [record] e
            | None => if negb (monotonic_seq e =? 1) || bool_decide (is_Some (prev_hash e))
                      then Err (SequenceGap 1 (monotonic_seq e)) else Ok tt
            end in
  let? record := try_from_envelope e in
  let? rows := sqlite_insert (db_rows (conn s)) record (f_insert f) in
  let? _ := statement (f_commit f) in
  Ok (rows, record, version).

Definition sqlite_append (s : SqliteAuditStore) (e : EventEnvelope) (f : SqlFaults)
  : SqliteAuditStore * result AuditRecord EventError :=
  match append_transaction s e f with
  | Err x => (s, Err x)
  | Ok (rows, record, version) => (MkSqlite (MkDb rows (db_foreign (conn s))) version (Some record), Ok record)
  end.

Definition sqlite_query (s : SqliteAuditStore) (q : EventQuery) (f : SqlFaults) : result (list AuditRecord) EventError :=
  let? records := load_verified_records (db_rows (conn s)) (f_load f) in
  Ok (List.filter (λ r, matches_query r q) records).

(** [BEGIN DEFERRED], [head_snapshot], [COMMIT]. *)
Definition sqlite_head (s : SqliteAuditStore) (f : SqlFaults) : result AuditHead EventError :=
  let? _ := statement (f_begin f) in
  let? head := head_record (db_rows (conn s)) (f_load f) in
  let? _ := statement (f_row f) in
  let? _ := statement (f_commit f) in
  Ok {| seq_base := len (db_rows (conn s)); head_prev_hash := hash <$> head |}.

Definition sqlite_export (s : SqliteAuditStore) (mode : PrivacyExportMode) (f : SqlFaults) : result (list N) EventError :=
  let? records := load_verified_records (db_rows (conn s)) (f_load f) in
  export_loop mode None records [].

Fixpoint insert_all (rows : list AuditRow) (imported : list AuditRecord) (f : fault) : result (list AuditRow) EventError :=
  match imported with
  | [] => Ok rows
  | record :: imported => let? rows := sqlite_insert rows record f in insert_all rows imported f
  end.

(** The transaction of an import: the table is replaced. *)
Definition import_transaction (bytes : list N) (f : SqlFaults) : result (list AuditRow * list AuditRecord) EventError :=
  let? imported := parse_lines (split_lines [] bytes) [] in
  let? _ := validate_hash_chain imported in
  let? _ := statement (f_begin f) in
  let? rows := insert_all [] imported (f_insert f) in
  let? _ := statement (f_commit f) in
  Ok (rows, imported).

(** After the commit: the cache, with the version read then; [db] is the file at that
    moment. *)
Definition import_finish (s : SqliteAuditStore) (db : AuditDb) (imported : list AuditRecord) (f : SqlFaults) : SqliteAuditStore :=
  MkSqlite db (match f_version f with None => data_version (db_foreign db) | Some _ => cached_data_version s end)
    (list.last imported).

(** [between] are the tables other connections commit after the import's commit and
    before the version is read: by then the write lock is gone. *)
Definition sqlite_import (s : SqliteAuditStore) (bytes : list N) (between : list (list AuditRow)) (f : SqlFaults)
  : SqliteAuditStore * result (list AuditRecord) EventError :=
  match import_transaction bytes f with
  | Err x => (s, Err x)
  | Ok (rows, imported) =>
      (import_finish s (foldl foreign_commit (MkDb rows (db_foreign (conn s))) between) imported f, Ok imported)
  end.
End store.

(** ** What a verified table is *)

Section verified.
Context `{Externals} `{RowCodec} `{DataVersion}.

(** The bytes of an envelope's row parse back to it. *)
Definition parses_back (e : EventEnvelope) : Prop :=
  ∀ bytes, canonical_json e = Ok bytes → envelope_from_slice bytes = Ok e.

Abbreviation loads rows rs := (load_verified_records rows None = Ok rs).

Lemma verify_rows_app xs ys rs ss : verify_rows xs = Ok rs → verify_rows ys = Ok ss → verify_rows (xs ++ ys) = Ok (rs ++ ss).
Proof.
  revert rs. induction xs as [|x xs IH]; intros rs; cbn [verify_rows app]; [by intros [= <-]|].
  destruct (verify_row x) as [r|]; [|done]. cbn. destruct (verify_rows xs) as [rs'|]; [|done]. cbn.
  intros [= <-] Hy. by rw (IH rs' eq_refl Hy).
Qed.

Lemma verify_rows_lookup rows rs k row : verify_rows rows = Ok rs → rows !! k = Some row →
  ∃ r, rs !! k = Some r ∧ verify_row row = Ok r.
Proof.
  revert rs k. induction rows as [|x rows IH]; intros rs k; cbn [verify_rows]; [done|].
  destruct (verify_row x) as [r|] eqn:Ex; [|done]. cbn. destruct (verify_rows rows) as [rs'|]; [|done]. cbn.
  intros [= <-]. destruct k as [|k]; cbn; [intros [= <-]; by exists r|]. by apply IH.
Qed.

Lemma verify_rows_last rows rs r : verify_rows rows = Ok (rs ++ [r]) → ∃ row, row ∈ rows ∧ verify_row row = Ok r.
Proof.
  revert rs. induction rows as [|x rows IH]; intros rs; cbn [verify_rows]; [by destruct rs|].
  destruct (verify_row x) as [r'|] eqn:Ex; [|done]. cbn. destruct (verify_rows rows) as [rs'|]; [|done]. cbn.
  intros [= E]. destruct rs as [|r0 rs]; cbn in E; injection E as -> E.
  - exists x. split; [apply list_elem_of_here|done].
  - subst rs'. destruct (IH rs eq_refl) as (row & ? & ?). exists row. split; [by apply list_elem_of_further|done].
Qed.

Lemma verify_rows_length rows rs : verify_rows rows = Ok rs → length rows = length rs.
Proof.
  revert rs. induction rows as [|x rows IH]; intros rs; cbn [verify_rows]; [by intros [= <-]|].
  destruct (verify_row x); [|done]. cbn. destruct (verify_rows rows) as [rs'|]; [|done]. cbn.
  intros [= <-]. cbn. f_equal. by apply IH.
Qed.

Lemma loads_spec rows rs : loads rows rs ↔ verify_rows rows = Ok rs ∧ validate_hash_chain rs = Ok tt.
Proof.
  unfold load_verified_records. cbn. destruct (verify_rows rows) as [xs|]; cbn; [|naive_solver].
  destruct (validate_hash_chain xs) as [[]|] eqn:E; cbn; naive_solver congruence.
Qed.

Lemma verify_row_ok row r : verify_row row = Ok r →
  seq_i64 (monotonic_seq (envelope r)) = Some (ar_seq row) ∧ ar_hash row = digest_str (hash r).
Proof.
  unfold verify_row, decode_envelope. intros Hv. apply result_bind_ok in Hv as (r' & Hd & Hv).
  apply result_bind_ok in Hd as (e & _ & Hd). apply result_bind_ok in Hd as (h & _ & Hd).
  apply guard_ok in Hd as [Hh [= <-]]. apply guard_ok in Hv as [Hq Hv]. apply guard_ok in Hv as [_ [= <-]].
  apply negb_false_iff, bool_decide_eq_true in Hh. apply negb_false_iff, bool_decide_eq_true in Hq. by split.
Qed.

(** A sequence number that fits has not saturated. *)
Lemma seq_i64_some n q : seq_i64 n = Some q → q = Z.of_N n ∧ n < 2 ^ 63.
Proof. unfold seq_i64. destruct (N.ltb_spec n (2 ^ 63)); [|done]. by intros [= <-]. Qed.

Lemma seq_fits n : saturating_add u64_max n 1 < 2 ^ 63 → saturating_add u64_max n 1 = n + 1.
Proof. unfold saturating_add. assert (2 ^ 63 ≤ u64_max) by done. generalize dependent (2 ^ 63). generalize u64_max. intros. lia. Qed.

(** The keys of a verified table are 1, 2, ... in order. *)
Lemma loads_key rows rs k row : loads rows rs → rows !! k = Some row →
  ar_seq row = Z.of_nat (S k) ∧ ∃ r, rs !! k = Some r ∧ ar_hash row = digest_str (hash r)
  ∧ monotonic_seq (envelope r) = N.of_nat (S k).
Proof.
  intros [Hv Hc]%loads_spec Hk. destruct (verify_rows_lookup rows rs k row Hv Hk) as (r & Hr & [Hq Hh]%verify_row_ok).
  destruct (chain_lookup rs k r Hc Hr) as (Hseq & _ & _). apply seq_i64_some in Hq as [-> Hb].
  rw Hseq in Hb. pose proof (seq_fits _ Hb) as Hn. rw Hn in Hseq. split; [lia|]. exists r. split_and!; [done..|lia].
Qed.

(** The row of a record verifies to it. *)
Lemma insert_verifies rows r f rows' : parses_back (envelope r) → hash_envelope (envelope r) = Ok (hash r) →
  sqlite_insert rows r f = Ok rows' →
  ∃ row, rows' = put_row row rows ∧ verify_row row = Ok r ∧ seq_i64 (monotonic_seq (envelope r)) = Some (ar_seq row).
Proof.
  intros Hp Hh. unfold sqlite_insert. destruct (seq_i64 _) as [q|] eqn:Eq; [|done]. intros Hi.
  apply result_bind_ok in Hi as (json & Hj & Hi). apply result_bind_ok in Hi as (_ & _ & Hi).
  apply guard_ok in Hi as [_ Hi]. apply guard_ok in Hi as [_ [= <-]].
  destruct (canonical_json (envelope r)) as [bytes|] eqn:Ec; [|done]. injection Hj as <-.
  eexists. split; [done|]. split; [|done]. unfold verify_row, decode_envelope. cbn [ar_json ar_hash ar_seq ar_category ar_schema].
  rw (Hp bytes Ec). cbn [map_err result_bind]. rw Hh. cbn [result_bind]. rw bool_decide_eq_true_2; [|done]. cbn [negb result_bind envelope hash].
  rw Eq. rw !bool_decide_eq_true_2; [|done..]. cbn. by destruct r.
Qed.

Lemma put_row_last row rows : (∀ r, r ∈ rows → (ar_seq r < ar_seq row)%Z) → put_row row rows = rows ++ [row].
Proof.
  induction rows as [|r rows IH]; intros Hr; [done|]. cbn. destruct (Z.ltb_spec (ar_seq row) (ar_seq r)).
  - specialize (Hr r (list_elem_of_here _ _)). lia.
  - f_equal. apply IH. intros r' Hr'. apply Hr. by apply list_elem_of_further.
Qed.

(** Inserting the next record of a chain extends the verified table. *)
Lemma insert_extends rows rs r f rows' : loads rows rs → validate_hash_chain (rs ++ [r]) = Ok tt →
  parses_back (envelope r) → sqlite_insert rows r f = Ok rows' → loads rows' (rs ++ [r]).
Proof.
  intros Hl Hv Hp Hi. pose proof (proj1 (validate_snoc rs r) Hv) as (_ & Hseq & _ & Hh).
  destruct (insert_verifies _ _ _ _ Hp Hh Hi) as (row & -> & Hrow & Hq).
  apply loads_spec. split; [|done]. rw put_row_last.
  - apply verify_rows_app; [by apply loads_spec in Hl as [? _]|]. cbn. by rw Hrow.
  - intros x [k Hk]%list_elem_of_lookup. destruct (loads_key rows rs k x Hl Hk) as [-> (r' & Hr' & _)].
    apply lookup_lt_Some in Hr'. apply seq_i64_some in Hq as [-> Hb]. rw Hseq in Hb. rw Hseq (seq_fits _ Hb). unfold len. lia.
Qed.

(** Nothing stands in the way of a fresh record. *)
Lemma insert_succeeds rows rs r : loads rows rs → validate_hash_chain (rs ++ [r]) = Ok tt →
  monotonic_seq (envelope r) < 2 ^ 63 → hash r ∉ hash <$> rs →
  ∃ rows', sqlite_insert rows r None = Ok rows'.
Proof.
  intros Hl Hv Hb Hf. apply validate_snoc in Hv as (_ & Hseq & _ & Hh).
  unfold sqlite_insert, seq_i64. rw (proj2 (N.ltb_lt _ _) Hb). unfold hash_envelope in Hh.
  destruct (canonical_json (envelope r)) as [json|]; [|done]. cbn [map_err result_bind statement].
  destruct (existsb _ rows) eqn:E1.
  { apply existsb_true in E1 as (x & [k Hk]%list_elem_of_lookup & Hx%bool_decide_eq_true).
    destruct (loads_key rows rs k x Hl Hk) as [Hs (r' & Hr' & _)]. apply lookup_lt_Some in Hr'.
    rw Hseq in Hx, Hb. rw (seq_fits _ Hb) Hs in Hx. unfold len in Hx. lia. }
  destruct (existsb (λ x, bool_decide (ar_hash x = _)) rows) eqn:E2; [|by eexists].
  apply existsb_true in E2 as (x & [k Hk]%list_elem_of_lookup & Hx%bool_decide_eq_true).
  destruct (loads_key rows rs k x Hl Hk) as [_ (r' & Hr' & Hxh & _)]. destruct Hf. apply list_elem_of_fmap. exists r'.
  split; [|by eapply list_elem_of_lookup_2]. rw Hx in Hxh. destruct (hash r), (hash r'). cbn in Hxh. by f_equal.
Qed.
End verified.

(** ** The cached head *)

Section cache.
Context `{Externals} `{RowCodec} `{DataVersion}.
Abbreviation loads rows rs := (load_verified_records rows None = Ok rs).

(** The cached version is not of the future. *)
Definition cache_past (s : SqliteAuditStore) : Prop :=
  ∀ k, cached_data_version s = data_version k → k ≤ db_foreign (conn s).

(** A cache that says it is current names the head of a verified table. *)
Definition cache_ok (s : SqliteAuditStore) : Prop :=
  ∀ r, verified_head s = Some r → cached_data_version s = data_version (db_foreign (conn s)) →
      ∃ rs, loads (db_rows (conn s)) rs ∧ list.last rs = Some r.

(** What can happen to the file and to this connection, opened on any file.  The flag
    says that the cached version is that of a moment after another connection's commit
    which the cached head does not reflect: an import whose version was read too late,
    and no foreign commit since. *)
Inductive reached : SqliteAuditStore → bool → Prop :=
| reached_open db : reached (sqlite_initialize db) false
| reached_append s late e f : reached s late → parses_back e → reached (sqlite_append s e f).1 late
| reached_import s late bytes between f : reached s late →
    (∀ rows imported, import_transaction bytes f = Ok (rows, imported) → Forall (parses_back ∘ envelope) imported) →
    reached (sqlite_import s bytes between f).1
      (match (sqlite_import s bytes between f).2 with
       | Ok _ => match f_version f with None => negb (is_empty between) | Some _ => false end
       | Err _ => late
       end)
| reached_foreign s late rows : reached s late →
    reached (MkSqlite (foreign_commit (conn s) rows) (cached_data_version s) (verified_head s)) false.

(** The head an append works with is the one full verification finds. *)
Lemma trusted_head_right s f head version : cache_ok s →
  trusted_head_with_version (verified_head s) (cached_data_version s) (conn s) f = Ok (head, version) →
  version = data_version (db_foreign (conn s)) ∧ ∃ rs, loads (db_rows (conn s)) rs ∧ head = list.last rs.
Proof.
  intros Hc. unfold trusted_head_with_version, head_record. intros Ht.
  apply result_bind_ok in Ht as (_ & _ & Ht).
  assert (result_bind (result_bind (load_verified_records (db_rows (conn s)) (f_load f)) (λ records, Ok (list.last records)))
    (λ head, Ok (head, data_version (db_foreign (conn s)))) = Ok (head, version) →
    version = data_version (db_foreign (conn s)) ∧ ∃ rs, loads (db_rows (conn s)) rs ∧ head = list.last rs) as Hfull.
  { intros Hr. apply result_bind_ok in Hr as (h & Hh & [= <- <-]). apply result_bind_ok in Hh as (rs & Hrs & [= <-]).
    split; [done|]. destruct (f_load f); [done|by exists rs]. }
  destruct (verified_head s) as [r|] eqn:Er; [|by apply Hfull].
  case_bool_decide as Ev; cbn [negb] in Ht; [|by apply Hfull].
  destruct (seq_i64 _) as [key|]; [|done]. apply result_bind_ok in Ht as (_ & _ & Ht).
  destruct (match List.find _ _ with Some _ => _ | None => _ end); [|by apply Hfull].
  injection Ht as <- <-. destruct (Hc r Er (eq_sym Ev)) as (rs & Hrs & Hl). split; [done|]. by exists rs.
Qed.

(** The check of the head alone is the check of the whole log. *)
Lemma next_of_head rs e :
  (match list.last rs with
   | Some record => validate_next_envelope [record] e
   | None => if negb (monotonic_seq e =? 1) || bool_decide (is_Some (prev_hash e))
             then Err (SequenceGap 1 (monotonic_seq e)) else Ok tt
   end) = Ok tt ↔ validate_next_envelope rs e = Ok tt.
Proof.
  unfold validate_next_envelope. destruct (list.last rs) as [r|] eqn:El; cbn; [done|].
  destruct (monotonic_seq e =? 1); cbn; [|done]. destruct (prev_hash e) as [h|]; [|done].
  rw bool_decide_eq_true_2; [|by eexists]. by rw bool_decide_eq_false_2.
Qed.

Lemma append_transaction_ok s e f rows record version : cache_ok s → parses_back e →
  append_transaction s e f = Ok (rows, record, version) →
  ∃ rs, loads (db_rows (conn s)) rs ∧ loads rows (rs ++ [record]) ∧ envelope record = e
    ∧ validate_next_envelope rs e = Ok tt ∧ hash_envelope e = Ok (hash record)
    ∧ version = data_version (db_foreign (conn s)).
Proof.
  intros Hc Hp. unfold append_transaction. intros Ht. apply result_bind_ok in Ht as (_ & _ & Ht).
  apply result_bind_ok in Ht as ([head v] & Hh & Ht). destruct (trusted_head_right s f head v Hc Hh) as (-> & rs & Hrs & ->).
  apply result_bind_ok in Ht as ([] & Hn & Ht). apply next_of_head in Hn. apply result_bind_ok in Ht as (r & Hr & Ht).
  apply result_bind_ok in Ht as (rows' & Hi & Ht). apply result_bind_ok in Ht as (_ & _ & [= <- <- <-]).
  unfold try_from_envelope in Hr. apply result_bind_ok in Hr as (h & Hh' & [= <-]).
  exists rs. split_and!; try done. eapply insert_extends; [done| |done|done].
  pose proof (proj1 (loads_spec _ _) Hrs) as [_ Hv]. apply validate_snoc. split; [done|].
  apply validate_next_ok in Hn as [Hs Hpr]; [|done]. done.
Qed.

Lemma loads_nil rs : loads [] rs ↔ rs = [].
Proof. rw loads_spec. cbn. split; [by intros [[= <-] _]|by intros ->]. Qed.

(** An import's rows verify to what it imported. *)
Lemma insert_all_loads rows rs imported f rows' : loads rows rs → validate_hash_chain (rs ++ imported) = Ok tt →
  Forall (parses_back ∘ envelope) imported → insert_all rows imported f = Ok rows' → loads rows' (rs ++ imported).
Proof.
  revert rows rs. induction imported as [|r imported IH]; intros rows rs Hl Hv Hp; cbn [insert_all].
  { intros [= <-]. by rw app_nil_r. }
  apply Forall_cons in Hp as [Hr Hp]. intros Hi. apply result_bind_ok in Hi as (rows1 & Hi & Hrest).
  rw (cons_middle r rs imported) app_assoc in Hv |- *. apply (IH rows1); try done.
  eapply insert_extends; [done| |done|done]. unfold validate_hash_chain in Hv.
  by apply validate_from_app in Hv as [? _].
Qed.

Lemma import_transaction_ok bytes f rows imported : import_transaction bytes f = Ok (rows, imported) →
  Forall (parses_back ∘ envelope) imported → loads rows imported.
Proof.
  unfold import_transaction. intros Ht Hp. apply result_bind_ok in Ht as (xs & _ & Ht).
  apply result_bind_ok in Ht as ([] & Hv & Ht). apply result_bind_ok in Ht as (_ & _ & Ht).
  apply result_bind_ok in Ht as (rows1 & Hi & Ht). apply result_bind_ok in Ht as (_ & _ & [= <- <-]).
  by apply (insert_all_loads [] [] xs (f_insert f) rows1).
Qed.

Lemma foreign_commits_count between : ∀ db,
  db_foreign (foldl foreign_commit db between) = db_foreign db + len between.
Proof.
  induction between as [|rows between IH]; intros db; cbn [foldl]; [by rw len_nil N.add_0_r|].
  rw IH len_cons. cbn [foreign_commit db_foreign]. lia.
Qed.

Lemma append_version s e f rows record version :
  append_transaction s e f = Ok (rows, record, version) → version = data_version (db_foreign (conn s)).
Proof.
  unfold append_transaction. intros Ht. apply result_bind_ok in Ht as (_ & _ & Ht).
  apply result_bind_ok in Ht as ([head v] & Hh & Ht). apply result_bind_ok in Ht as (_ & _ & Ht).
  apply result_bind_ok in Ht as (r & _ & Ht). apply result_bind_ok in Ht as (rows' & _ & Ht).
  apply result_bind_ok in Ht as (_ & _ & [= _ _ <-]). unfold trusted_head_with_version in Hh.
  apply result_bind_ok in Hh as (_ & _ & Hh).
  assert (∀ x : result (option AuditRecord) EventError,
    (let? head := x in Ok (head, data_version (db_foreign (conn s)))) = Ok (head, v) → v = data_version (db_foreign (conn s)))
    as Hfull by by intros [] [=].
  destruct (verified_head s); [|by eapply Hfull]. destruct (negb _); [by eapply Hfull|].
  destruct (seq_i64 _); [|done]. apply result_bind_ok in Hh as (_ & _ & Hh).
  destruct (match List.find _ _ with Some _ => _ | None => _ end); [by injection Hh|by eapply Hfull].
Qed.

Lemma reached_past s late : reached s late → cache_past s.
Proof.
  intros Hs. induction Hs as [db|s late e f Hs IH _|s late bytes between f Hs IH _|s late rows Hs IH].
  - intros k Hk. cbn in Hk. pose proof (data_version_nonneg k). lia.
  - unfold sqlite_append. destruct (append_transaction s e f) as [[[rows record] version]|] eqn:Et; [|done].
    apply append_version in Et as ->. by intros k ->%data_version_inj.
  - unfold sqlite_import. destruct (import_transaction bytes f) as [[rows imported]|]; [|done]. unfold import_finish.
    intros k. cbn. destruct (f_version f); [|by intros ->%data_version_inj]. intros Hk%IH. rw foreign_commits_count. cbn. lia.
  - intros k Hk%IH. cbn. lia.
Qed.

Lemma reached_cache_ok s late : reached s late → late = false → cache_ok s.
Proof.
  intros Hs. induction Hs as [db|s late e f Hs IH Hp|s late bytes between f Hs IH Hp|s late rows Hs IH]; intros Hl.
  - by intros r [=].
  - specialize (IH Hl). unfold sqlite_append. destruct (append_transaction s e f) as [[[rows record] version]|] eqn:Et; [|done].
    destruct (append_transaction_ok s e f rows record version IH Hp Et) as (rs & _ & Hr & _ & _ & _ & _).
    intros r [= <-] _. exists (rs ++ [record]). by rw last_snoc.
  - revert Hl. unfold sqlite_import. destruct (import_transaction bytes f) as [[rows imported]|] eqn:Et; [|done].
    cbn [snd fst]. intros Hl. pose proof (import_transaction_ok _ _ _ _ Et (Hp _ _ eq_refl)) as Hr.
    unfold import_finish, cache_ok. cbn. intros r Hr' Hv. destruct between as [|x between]; [by exists imported|].
    destruct (f_version f); [|done]. apply (reached_past _ _ Hs) in Hv. rw foreign_commits_count len_cons in Hv. cbn in Hv. lia.
  - intros r _ Hv. apply (reached_past _ _ Hs) in Hv. cbn in Hv. lia.
Qed.

Lemma sqlite_append_reads s e : cache_ok s →
  match load_verified_records (db_rows (conn s)) None with
  | Err x => append_transaction s e no_faults = Err x
  | Ok rs =>
      append_transaction s e no_faults
      = let? _ := match list.last rs with
                  | Some record => validate_next_envelope [record] e
                  | None => if negb (monotonic_seq e =? 1) || bool_decide (is_Some (prev_hash e))
                            then Err (SequenceGap 1 (monotonic_seq e)) else Ok tt
                  end in
        let? record := try_from_envelope e in
        let? rows := sqlite_insert (db_rows (conn s)) record None in
        Ok (rows, record, data_version (db_foreign (conn s)))
  end.
Proof.
  intros Hc.
  assert (trusted_head_with_version (verified_head s) (cached_data_version s) (conn s) no_faults
    = let? rs := load_verified_records (db_rows (conn s)) None in Ok (list.last rs, data_version (db_foreign (conn s)))) as Ht.
  { unfold trusted_head_with_version, head_record. cbn [f_version f_load f_row no_faults statement result_bind].
    assert (∀ r : result (list AuditRecord) EventError, (let? head := let? rs := r in Ok (list.last rs) in Ok (head, data_version (db_foreign (conn s))))
      = let? rs := r in Ok (list.last rs, data_version (db_foreign (conn s)))) as Hfull by by intros [].
    destruct (verified_head s) as [r|] eqn:Er; [|apply Hfull]. case_bool_decide as Ev; cbn [negb]; [|apply Hfull].
    destruct (Hc r Er (eq_sym Ev)) as (rs & Hl & Hlast). rw Hl. cbn [result_bind]. rw Hlast.
    destruct rs as [|r0 rs _] using rev_ind; [done|]. rw last_snoc in Hlast. injection Hlast as ->.
    destruct (verify_rows_last _ _ _ (proj1 (proj1 (loads_spec _ _) Hl))) as (row & Hrow & Hv).
    destruct (verify_row_ok _ _ Hv) as [-> _]. cbn [result_bind]. by destruct (match List.find _ _ with Some _ => _ | None => _ end). }
  unfold append_transaction. cbn [f_begin no_faults statement result_bind]. rw Ht.
  destruct (load_verified_records _ None) as [rs|x]; [|done]. cbn [result_bind f_insert f_commit no_faults statement].
  destruct (match list.last rs with Some _ => _ | None => _ end); [|done]. cbn [result_bind].
  destruct (try_from_envelope e) as [record|]; [|done]. cbn [result_bind]. by destruct (sqlite_insert _ _ _).
Qed.
End cache.

(** ** Theorems *)

(** C36. An append through the cached head is an append to the verified log, whatever
    other connections have written to the file: unless one of them committed between
    the commit of this connection's last import and the reading of the version (the
    flag of [reached]) and none has since, for then the cached head is trusted though
    the table has moved on.  When full verification of the table
    fails, the append fails with its error and changes nothing; when it reads a log,
    the append answers as the in-memory store does on that log, and the table then
    verifies to the in-memory store's log, provided the sequence number fits SQLite's
    integers and the hash is not already in the log. *)
Theorem sqlite_append_exact `{Externals} `{RowCodec} `{DataVersion} s e :
  reached s false → parses_back e →
  match load_verified_records (db_rows (conn s)) None with
  | Err x => sqlite_append s e no_faults = (s, Err x)
  | Ok rs =>
      (is_Ok (in_memory_append (MkStore rs) e).2 →
        monotonic_seq e < 2 ^ 63 ∧ ∀ h, hash_envelope e = Ok h → h ∉ hash <$> rs) →
      (∀ r, (sqlite_append s e no_faults).2 = Ok r ↔ (in_memory_append (MkStore rs) e).2 = Ok r)
      ∧ load_verified_records (db_rows (conn (sqlite_append s e no_faults).1)) None
        = Ok (records (in_memory_append (MkStore rs) e).1)
  end.
Proof.
  intros Hs Hp. pose proof (reached_cache_ok s false Hs eq_refl) as Hc. pose proof (sqlite_append_reads s e Hc) as Ha. unfold sqlite_append.
  destruct (load_verified_records _ None) as [rs|x] eqn:El; [|by rw Ha]. intros Hfit.
  pose proof (append_transaction_ok s e no_faults) as Hok. rw Ha in Hok |- *.
  pose proof (next_of_head rs e) as Hn. unfold in_memory_append in *. cbn [records] in *.
  destruct (match list.last rs with Some _ => _ | None => _ end) as [[]|x1]; cbn [result_bind] in *.
  2: { destruct (validate_next_envelope rs e) as [[]|]; [by destruct Hn as [_ Hn]; discriminate Hn|]. split; [by intros r; split|done]. }
  rw (proj1 Hn eq_refl) in Hfit |- *. destruct (try_from_envelope e) as [record|x2] eqn:Er; cbn [result_bind] in *.
  2: { split; [by intros r; split|done]. }
  destruct (Hfit (ex_intro _ record eq_refl)) as [Hb Hf]. unfold try_from_envelope in Er.
  apply result_bind_ok in Er as (h & Hh & [= <-]).
  destruct (insert_succeeds (db_rows (conn s)) rs {| envelope := e; hash := h |}) as [rows Hi]; [done| |done|by apply Hf|].
  { apply validate_snoc. pose proof (proj1 (loads_spec _ _) El) as [_ Hv]. split; [done|].
    destruct (proj1 (validate_next_ok rs e Hv) (proj1 Hn eq_refl)). done. }
  rw Hi in Hok |- *. cbn [result_bind] in *. cbn [fst snd conn db_rows records]. split; [by intros r|].
  destruct (Hok _ _ _ Hc Hp eq_refl) as (rs' & Hl' & Hl2 & _). congruence.
Qed.

(** An append that fails, at whatever statement, changes neither table nor cache. *)
Lemma sqlite_append_atomic `{Externals} `{RowCodec} `{DataVersion} s e f x :
  (sqlite_append s e f).2 = Err x → (sqlite_append s e f).1 = s.
Proof. unfold sqlite_append. by destruct (append_transaction s e f) as [[[] ]|]. Qed.

(** The rest of the trait on a table that verifies: the in-memory store's answers. *)
Lemma sqlite_reads_right `{Externals} `{RowCodec} `{DataVersion} s rs q mode :
  load_verified_records (db_rows (conn s)) None = Ok rs →
  sqlite_query s q no_faults = in_memory_query (MkStore rs) q
  ∧ sqlite_head s no_faults = in_memory_head (MkStore rs)
  ∧ sqlite_export s mode no_faults = in_memory_export (MkStore rs) mode.
Proof.
  intros Hl. unfold sqlite_query, sqlite_head, sqlite_export, head_record. cbn [no_faults f_load f_begin f_row f_commit statement].
  rw Hl. cbn [result_bind]. split_and!; [done| |done]. unfold in_memory_head. cbn [records].
  apply loads_spec in Hl as [Hv _]. apply verify_rows_length in Hv. unfold len. by rw Hv.
Qed.

(** ** Examples *)

(** Envelopes of one shape, written as their sequence number and previous hash. *)
Definition event_n (n : N) (p : option HashDigest) : EventEnvelope := {|
  schema_version := CURRENT_SCHEMA_VERSION; monotonic_seq := n; wall_clock_ts := lit "t";
  correlation_id := MkOperationId (lit "o"); parent_op_id := None; category := Approval; payload := VNull;
  prev_hash := p |}.

#[local] Instance short_externals : Externals := {|
  canonical_json e := Ok (monotonic_seq e :: match prev_hash e with Some h => 1 :: digest_str h | None => [] end);
  sha256_hex bytes := [foldl (λ h b, (h * 31 + b) mod 4294967296) 7 bytes];
  record_to_line r := Err (lit "not written");
  record_from_line line := match line with [n; h] => Ok {| envelope := event_n n None; hash := MkDigest [h] |} | _ => Err (lit "malformed") end;
|}.

#[local] Instance short_codec : RowCodec := {|
  envelope_from_slice bytes :=
    match bytes with
    | [n] => Ok (event_n n None)
    | n :: _ :: h => Ok (event_n n (Some (MkDigest h)))
    | [] => Err (lit "malformed")
    end;
  category_json c := lit "approval";
|}.

#[local] Instance example_version : DataVersion.
Proof. refine {| data_version k := Z.of_N k |}; lia. Defined.

(** A connection that has appended two events, and the file after another one
    replaced the second row's hash. *)
Definition two_appended : SqliteAuditStore :=
  let s := (sqlite_append (sqlite_initialize (MkDb [] 0)) (event_n 1 None) no_faults).1 in
  (sqlite_append s (event_n 2 (hash <$> verified_head s)) no_faults).1.

Definition tampered : SqliteAuditStore :=
  MkSqlite (MkDb (match db_rows (conn two_appended) with
                  | a :: b :: _ => [a; MkRow (ar_seq b) (ar_category b) (ar_schema b) (ar_hash a) (ar_json b)]
                  | rows => rows
                  end) 1) (cached_data_version two_appended) (verified_head two_appended).

Definition third_event : EventEnvelope := event_n 3 (hash <$> verified_head two_appended).

Lemma event_parses n p : parses_back (event_n n p).
Proof. intros bytes [= <-]. by destruct p as [[]|]. Qed.

Lemma two_appended_reached : reached two_appended false.
Proof.
  apply (reached_append _ _ (event_n 2 _) no_faults); [|apply event_parses].
  apply (reached_append _ _ (event_n 1 None) no_faults); [|apply event_parses]. apply reached_open.
Qed.

Lemma sqlite_append_exact_witness :
  (sqlite_append two_appended third_event no_faults).2
    = Ok {| envelope := third_event; hash := default (MkDigest []) (match hash_envelope third_event with Ok h => Some h | Err _ => None end) |}
  ∧ sqlite_append tampered third_event no_faults = (tampered, Err (RecordHashMismatch 2)).
Proof.
  split.
  - pose proof (sqlite_append_exact two_appended third_event two_appended_reached (event_parses _ _)) as H.
    destruct (load_verified_records (db_rows (conn two_appended)) None) as [rs|] eqn:E; [|by vm_compute in E].
    assert (rs = default [] (match load_verified_records (db_rows (conn two_appended)) None with Ok rs => Some rs | Err _ => None end)) as Hrs by by rw E.
    destruct H as [H _].
    + intros _. split; [by vm_compute|]. intros h Hh. rw Hrs. apply (bool_decide_unpack (h ∉ _)).
      assert (h = default (MkDigest []) (match hash_envelope third_event with Ok h => Some h | Err _ => None end)) as -> by by rw Hh.
      by vm_compute.
    + apply H. rw Hrs. by vm_compute.
  - assert (reached tampered false) as Hr by apply (reached_foreign _ _ _ two_appended_reached).
    pose proof (sqlite_append_exact tampered third_event Hr (event_parses _ _)) as H.
    destruct (load_verified_records (db_rows (conn tampered)) None) as [rs|x] eqn:E; [by vm_compute in E|].
    rw H. f_equal. f_equal. vm_compute in E. congruence.
Defined.

(** Another connection appends between the commit of an import and the reading of the
    version that is cached with the imported head. *)
Definition imported_rows : list AuditRow :=
  match import_transaction [1; 218] no_faults with Ok (rows, _) => rows | Err _ => [] end.
Definition moved_on : list AuditRow :=
  db_rows (conn (sqlite_append (sqlite_initialize (MkDb imported_rows 0)) (event_n 2 (Some (MkDigest [218]))) no_faults).1).
Definition raced : SqliteAuditStore := (sqlite_import (sqlite_initialize (MkDb [] 0)) [1; 218] [moved_on] no_faults).1.

Lemma raced_reached : reached raced true.
Proof.
  pose proof (reached_import _ _ [1; 218] [moved_on] no_faults (reached_open (MkDb [] 0))) as Hr.
  destruct (sqlite_import (sqlite_initialize (MkDb [] 0)) [1; 218] [moved_on] no_faults).2 eqn:E; [|by vm_compute in E].
  apply Hr. intros rows imported Hi. vm_compute in Hi. injection Hi as _ <-. constructor; [apply event_parses|constructor].
Qed.

Definition continuing : EventEnvelope :=
  event_n 3 (match load_verified_records (db_rows (conn raced)) None with Ok rs => hash <$> list.last rs | Err _ => None end).

(** The table verifies and the envelope continues it, yet the append is refused and
    leaves the store as it was: every later append is refused in the same way until
    someone else writes to the file. *)
Lemma import_race_refuses :
  (∃ rs, load_verified_records (db_rows (conn raced)) None = Ok rs ∧ validate_next_envelope rs continuing = Ok tt)
  ∧ sqlite_append raced continuing no_faults = (raced, Err (SequenceGap 2 3)).
Proof. split; [eexists; split; [vm_compute; reflexivity|by vm_compute]|by vm_compute]. Qed.
