(* ===== verification/Catalog.v ===== *)
(** * Roles, routes and domains of the agent catalog

    [crates/orchestraitor-agent-catalog]: the built-in tables ([registry.rs]), the role
    registry ([roles_registry.rs]), the routing of a role to a provider and model
    ([role_routing.rs]) with the store of its decisions ([decision_store.rs]), the
    routing table of domains ([routing.rs]) and the detection of a project's domain
    ([detection.rs]).  A decision provider is the answer it gives; parsing the built-in
    detection rules from their TOML text is not modelled, the rules are an argument. *)

From S2P Require Import Prelude BTree Text Substring Campaign RunState Config ConfigSafe.

(** ** Built-in tables *)

Record DomainDefinition := MkDomainDef {
  dd_id : rstr; dd_description : rstr; dd_fallback : bool; dd_analysis_only : bool }.
Record RoleDefinition := MkRoleDef { rd_id : rstr; rd_description : rstr }.

Definition BUILT_IN_DOMAINS : list DomainDefinition := [
  MkDomainDef (lit "general") (lit "Required generic fallback. Every project has it.") true false;
  MkDomainDef (lit "frontend") (lit "Web frontend, styling, accessibility, browser runtimes.") false false;
  MkDomainDef (lit "backend") (lit "Server, services, APIs, persistence, message buses.") false false;
  MkDomainDef (lit "data") (lit "Pipelines, schemas, migrations, analytics, ML serving.") false false;
  MkDomainDef (lit "devops") (lit "CI/CD, infrastructure, packaging, release engineering.") false false;
  MkDomainDef (lit "testing") (lit "Test design, fixtures, property tests, regression suites.") false false;
  MkDomainDef (lit "documentation") (lit "Prose, reference, examples, README, ADRs.") false false;
  MkDomainDef (lit "security")
    (lit "Security analysis and guidance. Analysis only " ++ [8212] ++ lit " never enforcement.") false true].

Definition BUILT_IN_ROLES : list RoleDefinition := [
  MkRoleDef (lit "planning") (lit "Producing or reviewing a work plan.");
  MkRoleDef (lit "implementing") (lit "Producing or modifying code.");
  MkRoleDef (lit "reviewing") (lit "Critiquing existing code or a diff.");
  MkRoleDef (lit "testing") (lit "Designing or running tests.");
  MkRoleDef (lit "researching") (lit "Gathering context from a local codebase or external docs.")].

Definition BUILT_IN_ORCHESTRATION_ROLES : list RoleDefinition := [
  MkRoleDef (lit "explore") (lit "Read-only context gathering over the codebase.");
  MkRoleDef (lit "research")
    (lit "External context gathering " ++ [8212] ++ lit " documentation, upstream sources.");
  MkRoleDef (lit "plan") (lit "Producing or revising a work plan.");
  MkRoleDef (lit "implement") (lit "Producing or modifying code.");
  MkRoleDef (lit "review") (lit "Critiquing existing code or a diff.");
  MkRoleDef (lit "verify") (lit "Running and interpreting required checks.")].

Inductive AgentCatalogError :=
| DetectionRules (message : rstr)
| MissingRoute (domain role : rstr)
| UnknownRole (role known : rstr)
| InvalidRoleId (role : rstr)
| MissingRoutingKey (key : rstr)
| InvalidRoutingValue (key reason : rstr)
| Catalog_Config (error : ConfigError)
| DecisionStore (message : rstr)
| DecisionStoreIo (message : rstr)
| DecisionStoreReadback (id : N).

(** ** The role registry *)

Inductive RegistryRoleKind := BuiltIn | Custom.
#[global] Instance RegistryRoleKind_eq_dec : EqDecision RegistryRoleKind.
Proof. solve_decision. Defined.

Record RegistryRole := MkRegistryRole { rg_id : rstr; rg_kind : RegistryRoleKind; rg_description : option rstr }.

Record RoleRegistry := MkRoleRegistry { kinds : gmap rstr RegistryRoleKind }.

(** [entry(id).or_insert(Custom)] for every configured role. *)
Definition registry_from_config (config : OrchestraitorConfig) : RoleRegistry :=
  let builtin := foldl (λ m d, <[rd_id d := BuiltIn]> m) ∅ BUILT_IN_ORCHESTRATION_ROLES in
  MkRoleRegistry
    (match oc_roles config with
     | Some configured =>
         foldl (λ m id, match m !! id with Some _ => m | None => <[id := Custom]> m end) builtin (bt_keys configured)
     | None => builtin
     end).

Definition registry_from_resolver (resolver : ConfigResolver) : result RoleRegistry AgentCatalogError :=
  let? config := map_err Catalog_Config (resolve_config resolver) in Ok (registry_from_config config).

Definition is_known (g : RoleRegistry) (role : rstr) : bool := bool_decide (is_Some (kinds g !! role)).

Definition registry_list (g : RoleRegistry) : list RegistryRole :=
  omap (λ d, if bool_decide (kinds g !! rd_id d = Some BuiltIn)
             then Some (MkRegistryRole (rd_id d) BuiltIn (Some (rd_description d))) else None) BUILT_IN_ORCHESTRATION_ROLES
  ++ omap (λ e, if bool_decide (e.2 = Custom) then Some (MkRegistryRole e.1 e.2 None) else None) (bt_iter (kinds g)).

Definition known_ids (g : RoleRegistry) : rstr := join (lit ", ") (rg_id <$> registry_list g).

(** ** Routing a role *)

Definition BOOTSTRAP_PROVIDER : rstr := lit "neuralwatt".
Definition BOOTSTRAP_MODEL : rstr := lit "glm-5.3-flash".
Definition MAX_MODEL_ID_LEN : N := 256.
Definition MAX_PROVIDER_ID_LEN : N := 64.
Definition MAX_ROLE_ID_LEN : N := 64.

Definition is_ascii_lowercase (c : N) : bool := (97 <=? c) && (c <=? 122).

Definition role_entry (config : OrchestraitorConfig) (role : rstr) : option RoutingConfig :=
  roles ← oc_roles config; entry ← roles !! role; ro_routing entry.

(** The shape of role and provider ids. *)
Definition id_shape (max : N) (value : rstr) : bool :=
  negb (is_empty value) && (str_len value <=? max)
  && match value with c :: _ => is_ascii_lowercase c || is_ascii_digit c | [] => false end
  && forallb (λ c, is_ascii_lowercase c || is_ascii_digit c || (c =? 45) || (c =? 95)) value.

Definition validate_role_id (role : rstr) : result unit AgentCatalogError :=
  if negb (id_shape MAX_ROLE_ID_LEN role) then Err (InvalidRoleId role) else Ok tt.

Definition is_valid_provider_id (value : rstr) : bool := id_shape MAX_PROVIDER_ID_LEN value.

Definition is_valid_model_id (value : rstr) : bool :=
  negb (is_empty value) && (str_len value <=? MAX_MODEL_ID_LEN)
  && match value with c :: _ => is_ascii_alphanumeric c | [] => false end
  && forallb (λ c, is_ascii_alphanumeric c || bool_decide (c ∈ [45; 95; 46; 47; 58])) value.

Definition layer_tag (layer : ConfigLayer) : rstr :=
  match layer with
  | BuiltInDefaults => lit "built-in-defaults"
  | PluginDefaults => lit "plugin-defaults"
  | GlobalUser => lit "user"
  | OrganizationTeam => lit "org"
  | LayerProject => lit "project"
  | DirectoryDomain => lit "dir"
  | TaskAgent => lit "task-agent"
  | CliFlag => lit "cli-flag"
  end.

Definition allowed_providers (resolver : ConfigResolver) : result (gset rstr) AgentCatalogError :=
  let? config := map_err Catalog_Config (resolve_config resolver) in
  let allowed := match oc_providers config with Some providers => dom providers | None => ∅ end in
  Ok ({[BOOTSTRAP_PROVIDER]} ∪ allowed).

Definition provider_reason (value : rstr) : rstr :=
  lit "provider id '" ++ value ++ lit "' must be 1..=64 lowercase ASCII letters, digits, `-` or `_`, starting with a letter or digit".
Definition model_reason (value : rstr) : rstr :=
  lit "model id '" ++ value
  ++ lit "' must be 1..=256 ASCII letters, digits, or `-`, `_`, `.`, `/`, `:`, starting with a letter or digit".

Definition validate_pair (resolver : ConfigResolver) (provider_key model_key : rstr) (provider model : ResolvedValue rstr)
  : result unit AgentCatalogError :=
  if negb (is_valid_provider_id (rv_value provider))
  then Err (InvalidRoutingValue provider_key (provider_reason (rv_value provider)))
  else if negb (is_valid_model_id (rv_value model))
  then Err (InvalidRoutingValue model_key (model_reason (rv_value model)))
  else
    let? allowed := allowed_providers resolver in
    if negb (bool_decide (rv_value provider ∈ allowed))
    then Err (InvalidRoutingValue provider_key
                (lit "provider '" ++ rv_value provider ++ lit "' is not a configured provider id; allowed: "
                 ++ join (lit ", ") (bs_iter allowed)))
    else Ok tt.

Definition provider_key (role : rstr) : rstr := lit "roles." ++ role ++ lit ".routing.provider".
Definition model_key (role : rstr) : rstr := lit "roles." ++ role ++ lit ".routing.model".

Definition bootstrap_reason (role : rstr) : rstr :=
  lit "role '" ++ role ++ lit "' has no `roles." ++ role
  ++ lit ".routing.*` entry in any configuration layer; applied the documented bootstrap default `"
  ++ BOOTSTRAP_PROVIDER ++ lit "/" ++ BOOTSTRAP_MODEL ++ lit "` (spec " ++ [167] ++ lit "10.3)".

Definition resolve_role (resolver : ConfigResolver) (role : rstr) : result RoleRoutingDecision AgentCatalogError :=
  let? registry := registry_from_resolver resolver in
  if negb (is_known registry role) then Err (UnknownRole role (known_ids registry))
  else
    let? _ := validate_role_id role in
    let? provider := map_err Catalog_Config
      (resolve_value resolver (provider_key role) (λ config, role_entry config role ≫= rc_provider)) in
    let? model := map_err Catalog_Config
      (resolve_value resolver (model_key role) (λ config, role_entry config role ≫= rc_model)) in
    match provider, model with
    | Some provider, Some model =>
        let? _ := validate_pair resolver (provider_key role) (model_key role) provider model in
        Ok (Campaign.MkRouting role (rv_value provider) (rv_value model)
              (lit "roles." ++ role ++ lit ".routing (provider: " ++ layer_tag (cs_layer (rv_source provider))
               ++ lit ", model: " ++ layer_tag (cs_layer (rv_source model)) ++ lit ")") None)
    | Some _, None => Err (MissingRoutingKey (model_key role))
    | None, Some _ => Err (MissingRoutingKey (provider_key role))
    | None, None =>
        Ok (Campaign.MkRouting role BOOTSTRAP_PROVIDER BOOTSTRAP_MODEL (lit "bootstrap-default") (Some (bootstrap_reason role)))
    end.

(** What a decision provider proposes. *)
Record DecisionAlternative := MkAlternative { da_provider : rstr; da_model : rstr; da_skip_reason : rstr }.

Section proposal.
Context (f64 : Type) (format2 : f64 → rstr).

Record DecisionProposal := MkProposal {
  pr_role : rstr;
  pr_provider : rstr;
  pr_model : rstr;
  pr_confidence : f64;
  pr_alternatives : list DecisionAlternative;
}.

Definition heuristic_with_provider_fallback (heuristic : RoleRoutingDecision) (provider_id detail : rstr) : RoleRoutingDecision :=
  let unavailability := lit "decision provider '" ++ provider_id ++ lit "' unavailable: " ++ detail
    ++ lit "; applied the heuristic table fallback (spec 30-model-routing.md " ++ [167] ++ lit "9.45)" in
  Campaign.MkRouting (rr_role heuristic) (rr_provider heuristic) (rr_model heuristic) (rr_precedence_path heuristic)
    (Some (match rr_fallback_reason heuristic with
           | Some existing => existing ++ lit "; " ++ unavailability
           | None => unavailability
           end)).

(** [proposal] is the answer of [decision_provider.propose_role_resolution(role)]. *)
Definition resolve_with_decision_provider (resolver : ConfigResolver) (role id : rstr)
    (proposal : result DecisionProposal rstr) : result RoleRoutingDecision AgentCatalogError :=
  let? heuristic := resolve_role resolver role in
  match proposal with
  | Ok p =>
      let shape_ok := is_valid_provider_id (pr_provider p) && is_valid_model_id (pr_model p) in
      let? routable := if shape_ok
                       then let? allowed := allowed_providers resolver in Ok (bool_decide (pr_provider p ∈ allowed))
                       else Ok false in
      if routable then
        Ok (Campaign.MkRouting role (pr_provider p) (pr_model p)
              (lit "decision-provider:" ++ id ++ lit " (confidence " ++ format2 (pr_confidence p) ++ lit ", "
               ++ dec (len (pr_alternatives p)) ++ lit " alternative(s))") None)
      else
        Ok (heuristic_with_provider_fallback heuristic id
              (if shape_ok then lit "proposed provider '" ++ pr_provider p ++ lit "' is not a configured provider id"
               else lit "proposed provider '" ++ pr_provider p ++ lit "' or model '" ++ pr_model p
                    ++ lit "' failed identifier shape validation"))
  | Err error => Ok (heuristic_with_provider_fallback heuristic id error)
  end.
End proposal.

(** ** The decision provider of the configuration *)

Inductive DecisionProviderConfigError :=
| DPC_Unknown (name available : rstr)
| DPC_Config (error : ConfigError)
| DPC_Build (name message : rstr).

Definition FIXTURE_DECISION_PROVIDER : rstr := lit "fixture".
Definition SYSTEMONE_DECISION_PROVIDER : rstr := lit "systemone".
Definition AVAILABLE_DECISION_PROVIDERS : list rstr := [FIXTURE_DECISION_PROVIDER; SYSTEMONE_DECISION_PROVIDER].

Record DecisionEndpointConfig := MkEndpoint {
  de_base_url : option rstr;
  de_model : option rstr;
  de_api_key_uri : option rstr;
}.

(** [P] is the type of built providers, [fixture] the deterministic one. *)
Definition resolve_decision_provider_with {P} (fixture : P) (resolver : ConfigResolver)
    (external : rstr → DecisionEndpointConfig → result (option P) rstr) : result (option P) DecisionProviderConfigError :=
  let? config := map_err DPC_Config (resolve_config resolver) in
  let routing := oc_routing config in
  let endpoint := MkEndpoint (routing ≫= rd_base_url) (routing ≫= rd_model) (routing ≫= rd_api_key) in
  match routing ≫= rd_provider with
  | None => Ok None
  | Some name =>
      if bool_decide (name = FIXTURE_DECISION_PROVIDER) then Ok (Some fixture)
      else match external name endpoint with
           | Ok (Some provider) => Ok (Some provider)
           | Ok None => Err (DPC_Unknown name (join (lit ", ") AVAILABLE_DECISION_PROVIDERS))
           | Err message => Err (DPC_Build name message)
           end
  end.

Definition resolve_decision_provider {P} (fixture : P) (resolver : ConfigResolver)
  : result (option P) DecisionProviderConfigError :=
  resolve_decision_provider_with fixture resolver (λ _ _, Ok None).

(** ** The store of routing decisions *)

Record StoredRoleRoutingDecision := MkStoredDecision {
  sd_id : N;
  sd_role : rstr;
  sd_provider : rstr;
  sd_model : rstr;
  sd_precedence_path : rstr;
  sd_fallback_reason : option rstr;
  sd_created_at : rstr;
}.

(** The rows in insertion order; an identifier is the last one plus one. *)
Record RoleRoutingDecisionStore := MkDecisionStore { ds_rows : list StoredRoleRoutingDecision }.

Definition next_row_id (s : RoleRoutingDecisionStore) : N :=
  match last (ds_rows s) with Some row => sd_id row + 1 | None => 1 end.

Definition by_id (s : RoleRoutingDecisionStore) (id : N) (f : fault) : result (option StoredRoleRoutingDecision) AgentCatalogError :=
  match f with
  | Some message => Err (DecisionStore message)
  | None => Ok (List.find (λ row, sd_id row =? id) (ds_rows s))
  end.

Definition decision_record (s : RoleRoutingDecisionStore) (d : RoleRoutingDecision) (now : rstr) (insert_fault read_fault : fault)
  : RoleRoutingDecisionStore * result StoredRoleRoutingDecision AgentCatalogError :=
  match insert_fault with
  | Some message => (s, Err (DecisionStore message))
  | None =>
      let id := next_row_id s in
      let s := MkDecisionStore (ds_rows s ++ [MkStoredDecision id (rr_role d) (rr_provider d) (rr_model d)
                                               (rr_precedence_path d) (rr_fallback_reason d) now]) in
      (s, let? row := by_id s id read_fault in
          match row with Some row => Ok row | None => Err (DecisionStoreReadback id) end)
  end.

Definition decision_list (s : RoleRoutingDecisionStore) (f : fault) : result (list StoredRoleRoutingDecision) AgentCatalogError :=
  match f with Some message => Err (DecisionStore message) | None => Ok (ds_rows s) end.

Definition decisions_for_role (s : RoleRoutingDecisionStore) (role : rstr) (f : fault)
  : result (list StoredRoleRoutingDecision) AgentCatalogError :=
  match f with
  | Some message => Err (DecisionStore message)
  | None => Ok (List.filter (λ row, bool_decide (sd_role row = role)) (ds_rows s))
  end.

(** ** Routes of domains *)

Record Route := MkRoute { ru_provider : rstr; ru_model : rstr }.

Record RoutingTable := MkRoutingTable {
  explicit_agent_overrides : gmap rstr Route;
  domain_role_overrides : gmap rstr Route;
  domain_defaults : gmap rstr Route;
  role_defaults : gmap rstr Route;
  project_default : option Route;
  global_default : option Route;
}.

Record RoutingRequest := MkRoutingRequest { rq_agent_id : option rstr; rq_domain : rstr; rq_role : rstr }.

Inductive MatchedStep :=
| ExplicitAgentOverride | DomainRoleOverride | DomainDefault | RoleDefault | ProjectDefault | GlobalDefault.

Record ResolvedRoute := MkResolvedRoute { rs_provider : rstr; rs_model : rstr; rs_matched_step : MatchedStep }.

Definition domain_role_key (domain role : rstr) : rstr := domain ++ lit "." ++ role.

Definition resolved (route : Route) (step : MatchedStep) : ResolvedRoute :=
  MkResolvedRoute (ru_provider route) (ru_model route) step.

Definition resolve_route (table : RoutingTable) (request : RoutingRequest) : result ResolvedRoute AgentCatalogError :=
  match (agent_id ← rq_agent_id request; explicit_agent_overrides table !! agent_id) with
  | Some route => Ok (resolved route ExplicitAgentOverride)
  | None =>
  match domain_role_overrides table !! domain_role_key (rq_domain request) (rq_role request) with
  | Some route => Ok (resolved route DomainRoleOverride)
  | None =>
  match domain_defaults table !! rq_domain request with
  | Some route => Ok (resolved route DomainDefault)
  | None =>
  match role_defaults table !! rq_role request with
  | Some route => Ok (resolved route RoleDefault)
  | None =>
  match project_default table with
  | Some route => Ok (resolved route ProjectDefault)
  | None =>
  match global_default table with
  | Some route => Ok (resolved route GlobalDefault)
  | None => Err (MissingRoute (rq_domain request) (rq_role request))
  end end end end end end.

(** ** Detection of a domain *)

Record DetectionArtifact := MkArtifact { art_path : rstr; art_contents : option rstr }.

Inductive DetectionMatcher :=
| PathExact (value : rstr) | PathPrefix (value : rstr) | PathSuffix (value : rstr)
| PathContains (value : rstr) | ContentContains (value : rstr).

Record DetectionRule := MkRule { dr_domain : rstr; dr_weight : N; dr_matcher : DetectionMatcher }.
Record DetectionRuleSet := MkRuleSet { rs_threshold : N; rs_rules : list DetectionRule }.
Record DetectedDomain := MkDetected { det_domain : rstr; det_score : N }.

Definition detection_matches (m : DetectionMatcher) (artifact : DetectionArtifact) : bool :=
  match m with
  | PathExact value => bool_decide (art_path artifact = value)
  | PathPrefix value => starts_with value (art_path artifact)
  | PathSuffix value => ends_with_str value (art_path artifact)
  | PathContains value => contains_str value (art_path artifact)
  | ContentContains value => match art_contents artifact with Some body => contains_str value body | None => false end
  end.

Definition general : DetectedDomain := MkDetected (lit "general") 0.

(** The scores, one rule after the other. *)
Definition add_rule (artifacts : list DetectionArtifact) (scores : gmap rstr N) (rule : DetectionRule) : gmap rstr N :=
  if existsb (detection_matches (dr_matcher rule)) artifacts
  then entry_or scores (dr_domain rule) 0 (λ score, saturating_add u32_max score (dr_weight rule))
  else scores.

(** [max_by_key]: the last of the largest. *)
Definition max_by_key {A K} `{OrdKey K} (f : A → K) (l : list A) : option A :=
  foldl (λ best x, match best with Some b => if kleb (f b) (f x) then Some x else Some b | None => Some x end) None l.

Definition detect (rules : DetectionRuleSet) (artifacts : list DetectionArtifact) : DetectedDomain :=
  let scores := foldl (add_rule artifacts) ∅ (rs_rules rules) in
  match max_by_key (λ e, (e.2, e.1)) (bt_iter scores) with
  | None => general
  | Some (domain, score) => if score <? rs_threshold rules then general else MkDetected domain score
  end.

(** ** Where a resolved value comes from *)

Definition resolve_fold {T} (extract : OrchestraitorConfig → option T) (l : list ConfigInput) : option (ResolvedValue T) :=
  foldl (λ resolved i, match extract (ci_config i) with
                       | Some value => Some (MkResolved value (ci_source i) false)
                       | None => resolved
                       end) None l.

(** The value of the input of the highest layer that sets it; none when none does. *)
Definition from_highest {T} (inputs : list ConfigInput) (extract : OrchestraitorConfig → option T)
    (rv : option (ResolvedValue T)) : Prop :=
  match rv with
  | Some rv => ∃ i, i ∈ inputs ∧ extract (ci_config i) = Some (rv_value rv) ∧ rv_source rv = ci_source i
      ∧ ∀ j, j ∈ inputs → is_Some (extract (ci_config j)) → kle (input_layer j) (input_layer i)
  | None => ∀ j, j ∈ inputs → extract (ci_config j) = None
  end.

Lemma resolve_fold_highest {T} (extract : OrchestraitorConfig → option T) l :
  StronglySorted (by_key input_layer) l → from_highest l extract (resolve_fold extract l).
Proof.
  induction l as [|i l IH] using rev_ind; intros Hs; [by intros j ?%not_elem_of_nil|].
  apply StronglySorted_app in Hs as (Hc & Hl & _). specialize (IH Hl). unfold resolve_fold. rw foldl_app. cbn [foldl].
  fold (resolve_fold extract l). destruct (extract (ci_config i)) as [v|] eqn:Ei.
  - exists i. split_and!; [set_solver|done|done|]. intros j [Hj|Hj]%elem_of_app _.
    + apply (Hc j i Hj). set_solver.
    + apply list_elem_of_singleton in Hj as ->. apply kle_lt_eq. by right.
  - destruct (resolve_fold extract l) as [rv|]; cbn in *.
    + destruct IH as (k & Hk & Hv & Hsrc & Hmax). exists k. split_and!; [set_solver|done|done|].
      intros j [Hj|Hj%list_elem_of_singleton]%elem_of_app Hsome; [by apply Hmax|]. subst. rw Ei in Hsome. by destruct Hsome.
    + intros j [Hj|Hj%list_elem_of_singleton]%elem_of_app; [by apply IH|by subst].
Qed.

Lemma resolve_value_highest {T} r key (extract : OrchestraitorConfig → option T) rv :
  resolve_value r key extract = Ok rv → from_highest (cr_inputs r) extract rv.
Proof.
  unfold resolve_value. intros Hr. apply result_bind_ok in Hr as (_ & _ & [= <-]).
  change (foldl _ None _) with (resolve_fold extract (sort_by_layer (cr_inputs r))).
  pose proof (resolve_fold_highest extract (sort_by_layer (cr_inputs r)) (stable_sort_sorted (by_key input_layer) _)) as H.
  assert (∀ i, i ∈ cr_inputs r ↔ i ∈ sort_by_layer (cr_inputs r)) as He by (intros i; symmetry; apply elem_of_stable_sort).
  destruct (resolve_fold _ _) as [rv|]; cbn [from_highest] in *.
  - destruct H as (i & Hi & Hv & Hsrc & Hmax). exists i. split_and!; [by apply He|done|done|]. intros j Hj. by apply Hmax, He.
  - intros j Hj. by apply H, He.
Qed.

(** ** The registry *)

Definition is_builtin (role : rstr) : Prop := role ∈ rd_id <$> BUILT_IN_ORCHESTRATION_ROLES.
Definition configured_role (config : OrchestraitorConfig) (role : rstr) : Prop :=
  ∃ roles, oc_roles config = Some roles ∧ is_Some (roles !! role).

Lemma builtin_fold role : foldl (λ m d, <[rd_id d := BuiltIn]> m) (∅ : gmap rstr RegistryRoleKind) BUILT_IN_ORCHESTRATION_ROLES !! role
  = if bool_decide (is_builtin role) then Some BuiltIn else None.
Proof.
  unfold is_builtin. generalize BUILT_IN_ORCHESTRATION_ROLES. intros l.
  induction l as [|d l IH] using rev_ind; [cbn; by rw lookup_empty|]. rw foldl_app fmap_app. cbn [foldl fmap list_fmap].
  destruct (decide (rd_id d = role)) as [<-|E].
  - rw lookup_insert_eq bool_decide_eq_true_2; [done|set_solver].
  - rw lookup_insert_ne; [|done]. rw IH. apply (f_equal (λ b : bool, if b then Some BuiltIn else None)), bool_decide_ext. set_solver.
Qed.

Lemma custom_fold (ids : list rstr) (m : gmap rstr RegistryRoleKind) (role : rstr) :
  foldl (λ m id, match m !! id with Some _ => m | None => <[id := Custom]> m end) m ids !! role
  = match m !! role with Some k => Some k | None => if bool_decide (role ∈ ids) then Some Custom else None end.
Proof.
  revert m. induction ids as [|id ids IH]; intros m; cbn [foldl]; [by destruct (m !! role)|]. rw IH.
  destruct (m !! id) as [k|] eqn:Eid.
  - destruct (m !! role) as [k'|] eqn:Er; [done|]. apply (f_equal (λ b : bool, if b then Some Custom else None)), bool_decide_ext.
    rw elem_of_cons. split; [by right|]. intros [->|]; [congruence|done].
  - destruct (decide (id = role)) as [->|E].
    + rw lookup_insert_eq Eid bool_decide_eq_true_2; [done|set_solver].
    + rw lookup_insert_ne; [|done]. destruct (m !! role); [done|]. apply (f_equal (λ b : bool, if b then Some Custom else None)), bool_decide_ext.
      rw elem_of_cons. split; [by right|]. by intros [->|].
Qed.

(** A configured role of a built-in name stays built-in. *)
Lemma registry_lookup config role : kinds (registry_from_config config) !! role
  = if bool_decide (is_builtin role) then Some BuiltIn
    else match oc_roles config with
         | Some roles => if bool_decide (is_Some (roles !! role)) then Some Custom else None
         | None => None
         end.
Proof.
  unfold registry_from_config. cbn [kinds]. destruct (oc_roles config) as [roles|].
  - rw custom_fold builtin_fold. destruct (bool_decide (is_builtin role)); [done|].
    apply (f_equal (λ b : bool, if b then Some Custom else None)), bool_decide_ext. apply elem_of_bt_keys.
  - rw builtin_fold. done.
Qed.

Lemma is_known_spec config role : is_known (registry_from_config config) role = true ↔ is_builtin role ∨ configured_role config role.
Proof.
  unfold is_known, configured_role. rw bool_decide_eq_true registry_lookup. case_bool_decide; [naive_solver|].
  destruct (oc_roles config) as [roles|]; [|naive_solver]. case_bool_decide; naive_solver.
Qed.

(** ** Theorems *)

Definition configured_provider (config : OrchestraitorConfig) (id : rstr) : Prop :=
  ∃ providers, oc_providers config = Some providers ∧ is_Some (providers !! id).

Lemma allowed_providers_ok r allowed : allowed_providers r = Ok allowed →
  ∃ config, resolve_config r = Ok config ∧ ∀ id, id ∈ allowed ↔ id = BOOTSTRAP_PROVIDER ∨ configured_provider config id.
Proof.
  unfold allowed_providers. intros H. apply result_bind_ok in H as (config & Hc & [= <-]).
  destruct (resolve_config r) as [c|]; [|done]. injection Hc as ->. exists config. split; [done|]. intros id.
  rw elem_of_union elem_of_singleton. unfold configured_provider. destruct (oc_providers config) as [m|].
  - rw elem_of_dom. naive_solver.
  - set_solver.
Qed.

(** A target that may be used for a role under this configuration. *)
Definition routable (config : OrchestraitorConfig) (provider model : rstr) : Prop :=
  is_valid_provider_id provider = true ∧ is_valid_model_id model = true
  ∧ (provider = BOOTSTRAP_PROVIDER ∨ configured_provider config provider).

(** The target the table gives: both values from the highest layers that set them, or
    the bootstrap pair when no layer sets either. *)
Definition from_table (r : ConfigResolver) (role provider model : rstr) : Prop :=
  ∃ p m, from_highest (cr_inputs r) (λ c, role_entry c role ≫= rc_provider) p
    ∧ from_highest (cr_inputs r) (λ c, role_entry c role ≫= rc_model) m
    ∧ match p, m with
      | Some p, Some m => provider = rv_value p ∧ model = rv_value m
      | None, None => provider = BOOTSTRAP_PROVIDER ∧ model = BOOTSTRAP_MODEL
      | _, _ => False
      end.

Lemma resolve_role_ok r role d : resolve_role r role = Ok d →
  ∃ config, resolve_config r = Ok config ∧ (is_builtin role ∨ configured_role config role)
    ∧ id_shape MAX_ROLE_ID_LEN role = true ∧ rr_role d = role
    ∧ routable config (rr_provider d) (rr_model d) ∧ from_table r role (rr_provider d) (rr_model d).
Proof.
  unfold resolve_role, registry_from_resolver. intros H. apply result_bind_ok in H as (registry & Hreg & H).
  apply result_bind_ok in Hreg as (config & Hc & [= <-]). destruct (resolve_config r) as [c|] eqn:Ec; [|done]. injection Hc as ->.
  apply guard_ok in H as [Hk%negb_false_iff%is_known_spec H]. apply result_bind_ok in H as ([] & Hid & H).
  apply guard_ok in Hid as [Hid%negb_false_iff _]. apply result_bind_ok in H as (p & Hp & H). apply result_bind_ok in H as (m & Hm & H).
  apply map_err_ok in Hp, Hm. pose proof (resolve_value_highest _ _ _ _ Hp) as Fp. pose proof (resolve_value_highest _ _ _ _ Hm) as Fm.
  exists config. split; [done|]. split; [done|]. split; [done|].
  assert (∀ prov mod', match p, m with
      | Some p, Some m => prov = rv_value p ∧ mod' = rv_value m
      | None, None => prov = BOOTSTRAP_PROVIDER ∧ mod' = BOOTSTRAP_MODEL
      | _, _ => False end → from_table r role prov mod') as Hft by (intros; by exists p, m).
  destruct p as [p|], m as [m|]; try done.
  - apply result_bind_ok in H as ([] & Hv & [= <-]). cbn. split; [done|]. split; [|by apply Hft].
    unfold validate_pair in Hv. apply guard_ok in Hv as [H1%negb_false_iff Hv]. apply guard_ok in Hv as [H2%negb_false_iff Hv].
    apply result_bind_ok in Hv as (allowed & Ha & Hv). apply guard_ok in Hv as [H3%negb_false_iff%bool_decide_eq_true _].
    apply allowed_providers_ok in Ha as (config' & Hc' & Ha). rw Ec in Hc'. injection Hc' as <-. split_and!; [done|done|]. by apply Ha.
  - injection H as <-. cbn. split; [done|]. split; [|by apply Hft]. split_and!; [by vm_compute|by vm_compute|by left].
Qed.

(** C28. Routing of a role, whatever a decision provider proposes.  A decision is made
    only for a role that is built in or configured and has a well-formed name; its
    provider is the bootstrap one or configured, and provider and model are
    well-formed.  It is either the table's target, with a documented reason when a
    proposal was not taken, or a proposal that passed these checks. *)
Theorem role_routing_confined f64 format2 r role id (proposal : result (DecisionProposal f64) rstr) d :
  resolve_with_decision_provider f64 format2 r role id proposal = Ok d →
  ∃ config, resolve_config r = Ok config ∧ (is_builtin role ∨ configured_role config role)
    ∧ id_shape MAX_ROLE_ID_LEN role = true ∧ rr_role d = role ∧ routable config (rr_provider d) (rr_model d)
    ∧ (from_table r role (rr_provider d) (rr_model d) ∧ is_Some (rr_fallback_reason d)
       ∨ ∃ p, proposal = Ok p ∧ rr_provider d = pr_provider f64 p ∧ rr_model d = pr_model f64 p ∧ rr_fallback_reason d = None).
Proof.
  unfold resolve_with_decision_provider. intros H. apply result_bind_ok in H as (h & Hh & H).
  apply resolve_role_ok in Hh as (config & Hc & Hk & Hid & Hr & Hroute & Htable). exists config. split_and!; [done..| | |].
  - destruct proposal as [p|]; [|by injection H as <-]. apply result_bind_ok in H as ([] & _ & H); by injection H as <-.
  - destruct proposal as [p|]; [|by injection H as <-]. apply result_bind_ok in H as (ok & Hok & H).
    destruct ok; [|by injection H as <-]. injection H as <-. cbn. destruct (_ && _) eqn:Es; [|done]. apply andb_true_iff in Es as [H1 H2].
    apply result_bind_ok in Hok as (allowed & Ha & [= Hin%bool_decide_eq_true]).
    apply allowed_providers_ok in Ha as (config' & Hc' & Ha). rw Hc in Hc'. injection Hc' as <-. split_and!; [done|done|by apply Ha].
  - destruct proposal as [p|]; [|by left; injection H as <-; cbn; split; [done|eexists]].
    apply result_bind_ok in H as ([] & _ & H); injection H as <-; cbn; [|by left; split; [done|eexists]]. right. by exists p.
Qed.

(** ** Detection *)

Definition rule_fires (artifacts : list DetectionArtifact) (domain : rstr) (rule : DetectionRule) : bool :=
  bool_decide (dr_domain rule = domain) && existsb (detection_matches (dr_matcher rule)) artifacts.

(** The weight of a domain's rules that match something, at the width of the score. *)
Definition domain_score (rules : list DetectionRule) (artifacts : list DetectionArtifact) (domain : rstr) : N :=
  foldl (λ score rule, saturating_add u32_max score (dr_weight rule)) 0 (List.filter (rule_fires artifacts domain) rules).

Definition scored (rules : list DetectionRule) (artifacts : list DetectionArtifact) (domain : rstr) : Prop :=
  ∃ rule, rule ∈ rules ∧ rule_fires artifacts domain rule = true.

Lemma add_rules_lookup rules artifacts domain :
  foldl (add_rule artifacts) ∅ rules !! domain
  = if is_empty (List.filter (rule_fires artifacts domain) rules) then None else Some (domain_score rules artifacts domain).
Proof.
  unfold domain_score. induction rules as [|rule rules IH] using rev_ind; [cbn; by rw lookup_empty|].
  rw foldl_app List.filter_app. cbn [foldl List.filter]. unfold add_rule at 1, rule_fires at 2 4.
  destruct (existsb _ artifacts); [|by rw andb_false_r app_nil_r]. rw lookup_entry_or andb_true_r.
  destruct (decide (dr_domain rule = domain)) as [E|E].
  - rw bool_decide_eq_true_2; [|done]. rw foldl_app E IH. cbn [foldl].
    by destruct (List.filter (rule_fires artifacts domain) rules) as [|x l].
  - rw bool_decide_eq_false_2; [|done]. by rw app_nil_r.
Qed.

Lemma scored_spec rules artifacts domain :
  scored rules artifacts domain ↔ is_empty (List.filter (rule_fires artifacts domain) rules) = false.
Proof.
  rw -not_true_iff_false is_empty_spec. split.
  - intros (rule & Hr & Hf) E. assert (rule ∈ List.filter (rule_fires artifacts domain) rules) as Hin by by apply elem_of_filter_bool.
    rw E in Hin. by apply not_elem_of_nil in Hin.
  - intros Hne. destruct (List.filter _ rules) as [|rule l] eqn:E; [done|]. exists rule. apply elem_of_filter_bool.
    rw E. apply list_elem_of_here.
Qed.

Lemma max_by_key_spec {A K} `{OrdKey K} (f : A → K) l :
  match max_by_key f l with
  | Some b => b ∈ l ∧ ∀ x, x ∈ l → kle (f x) (f b)
  | None => l = []
  end.
Proof.
  unfold max_by_key. induction l as [|x l IH] using rev_ind; [done|]. rw foldl_app. cbn [foldl].
  destruct (foldl _ None l) as [b|].
  - destruct IH as [Hb Hmax]. destruct (kleb (f b) (f x)) eqn:E.
    + apply kleb_spec in E. split; [set_solver|]. intros y [Hy|Hy%list_elem_of_singleton]%elem_of_app.
      * by etrans; [apply Hmax|].
      * subst. apply kle_lt_eq. by right.
    + split; [set_solver|]. intros y [Hy|Hy%list_elem_of_singleton]%elem_of_app; [by apply Hmax|]. subst.
      destruct (total kle (f b) (f x)) as [Hc|]; [|done]. apply kleb_spec in Hc. congruence.
  - subst l. split; [set_solver|]. intros y Hy%list_elem_of_singleton. subst. apply kle_lt_eq. by right.
Qed.

Lemma kle_pair_fst (a c : N) (b d : rstr) : kle (a, b) (c, d) → a ≤ c.
Proof. unfold kle. cbn. unfold pair_kcmp. cbn. destruct (N.compare_spec a c); [lia|lia|done]. Qed.

(** Detection of a domain: it is general exactly when no domain with a matching
    rule reaches the threshold; otherwise the detected domain is one with a matching
    rule, its score is the (saturating) sum of the weights of its matching rules and
    reaches the threshold, and no other domain has a larger score, or the same score
    and a name later in the order. *)
Theorem detect_exact rules artifacts :
  let d := detect rules artifacts in
  (d = general ∧ ∀ domain, scored (rs_rules rules) artifacts domain →
     domain_score (rs_rules rules) artifacts domain < rs_threshold rules)
  ∨ (scored (rs_rules rules) artifacts (det_domain d)
     ∧ det_score d = domain_score (rs_rules rules) artifacts (det_domain d) ∧ rs_threshold rules ≤ det_score d
     ∧ ∀ domain, scored (rs_rules rules) artifacts domain →
         kle (domain_score (rs_rules rules) artifacts domain, domain) (det_score d, det_domain d)).
Proof.
  unfold detect. set (scores := foldl (add_rule artifacts) ∅ (rs_rules rules)). cbv zeta.
  assert (∀ domain score, (domain, score) ∈ bt_iter scores ↔
    scored (rs_rules rules) artifacts domain ∧ score = domain_score (rs_rules rules) artifacts domain) as Hin.
  { intros domain score. rw elem_of_bt_iter scored_spec. unfold scores. rw add_rules_lookup. destruct (is_empty _); naive_solver. }
  pose proof (max_by_key_spec (λ e, (e.2, e.1)) (bt_iter scores)) as Hm.
  destruct (max_by_key _ _) as [[domain score]|].
  - destruct Hm as [[Hs ->]%Hin Hmax]. cbn [fst snd] in Hmax.
    assert (∀ other, scored (rs_rules rules) artifacts other →
      kle (domain_score (rs_rules rules) artifacts other, other) (domain_score (rs_rules rules) artifacts domain, domain)) as Hle.
    { intros other Ho. apply (Hmax (other, _)), Hin. by split. }
    destruct (N.ltb_spec (domain_score (rs_rules rules) artifacts domain) (rs_threshold rules)) as [Hlt|Hge]; [left|by right].
    split; [done|]. intros other Ho. specialize (Hle other Ho). eapply N.le_lt_trans; [|exact Hlt].
    by eapply kle_pair_fst.
  - left. split; [done|]. intros domain Hs. exfalso. assert ((domain, domain_score (rs_rules rules) artifacts domain) ∈ bt_iter scores) as Hx by by apply Hin.
    rw Hm in Hx. by apply not_elem_of_nil in Hx.
Qed.

(** ** The store and the registry's list *)

(** A recorded decision is the new last row, with an identifier no other row has. *)
Lemma decision_recorded s d now : StronglySorted N.lt (sd_id <$> ds_rows s) →
  let '(s', out) := decision_record s d now None None in
  ∃ row, out = Ok row ∧ ds_rows s' = ds_rows s ++ [row] ∧ sd_role row = rr_role d
    ∧ sd_provider row = rr_provider d ∧ sd_model row = rr_model d ∧ StronglySorted N.lt (sd_id <$> ds_rows s').
Proof.
  intros Hs. cbn [decision_record by_id ds_rows]. set (row := MkStoredDecision _ _ _ _ _ _ _).
  assert (∀ r, r ∈ ds_rows s → sd_id r < next_row_id s) as Hlt.
  { intros r Hr. unfold next_row_id. destruct (ds_rows s) as [|x rows _] using rev_ind; [by apply not_elem_of_nil in Hr|].
    rw last_snoc. rw fmap_app in Hs. apply StronglySorted_app in Hs as (Hc & _).
    apply elem_of_app in Hr as [Hr|Hr%list_elem_of_singleton]; [|subst; lia].
    assert (sd_id r < sd_id x); [|lia]. apply Hc; [apply list_elem_of_fmap; eauto|]. cbn. set_solver. }
  exists row. split; [|split_and!; try done].
  - assert (List.find (λ r, sd_id r =? next_row_id s) (ds_rows s ++ [row]) = Some row) as ->; [|done].
    clear Hs. induction (ds_rows s) as [|r rows IH]; cbn [app List.find]; [by rw N.eqb_refl|].
    pose proof (Hlt r (list_elem_of_here _ _)). replace (sd_id r =? next_row_id s) with false by (symmetry; apply N.eqb_neq; lia).
    apply IH. intros x Hx. apply Hlt. by apply list_elem_of_further.
  - rw fmap_app. apply StronglySorted_app. split_and!; [|done|repeat constructor].
    intros i j (r & -> & Hr)%list_elem_of_fmap Hj%list_elem_of_singleton. subst j. by apply Hlt.
Qed.

(** ** Examples *)

Definition acme_config : OrchestraitorConfig :=
  MkConfig None None (Some {[lit "acme" := Config.MkProvider None None None None None]}) None
    (Some {[lit "implement" := MkRole (Some (Config.MkRouting (Some (lit "acme")) (Some (lit "m-1")) None))]})
    None None None None None None None None None None None None None.

Definition acme_resolver : ConfigResolver :=
  MkResolver [MkInput (MkSource LayerProject (lit "file")) acme_config
    {[lit "roles.implement.routing.provider"; lit "roles.implement.routing.model"]}].

(** A proposal for a provider nobody configured is not taken. *)
Definition stray_proposal : result (DecisionProposal unit) rstr :=
  Ok (MkProposal unit (lit "implement") (lit "stray") (lit "m-2") tt []).

Definition acme_decision : option RoleRoutingDecision :=
  match resolve_with_decision_provider unit (λ _, []) acme_resolver (lit "implement") (lit "dp") stray_proposal with
  | Ok d => Some d
  | Err _ => None
  end.

Lemma role_routing_confined_witness :
  ∃ d config, acme_decision = Some d ∧ rr_provider d = lit "acme" ∧ resolve_config acme_resolver = Ok config
    ∧ routable config (rr_provider d) (rr_model d).
Proof.
  destruct (resolve_with_decision_provider unit (λ _, []) acme_resolver (lit "implement") (lit "dp") stray_proposal) as [d|] eqn:E;
    [|vm_compute in E; discriminate].
  destruct (role_routing_confined unit (λ _, []) acme_resolver (lit "implement") (lit "dp") stray_proposal d E)
    as (config & Hc & _ & _ & _ & Hr & _).
  exists d, config. split; [unfold acme_decision; rewrite E; reflexivity|]. split; [|split; [exact Hc|exact Hr]].
  vm_compute in E. injection E as <-. reflexivity.
Defined.

(** A partial entry is an error that names the missing key, and an unknown role is one. *)
Example partial_entry_refused :
  resolve_role (MkResolver [MkInput (MkSource LayerProject (lit "file"))
    (MkConfig None None None None
      (Some {[lit "plan" := MkRole (Some (Config.MkRouting (Some (lit "acme")) None None))]})
      None None None None None None None None None None None None None)
    {[lit "roles.plan.routing.provider"]}]) (lit "plan") = Err (MissingRoutingKey (lit "roles.plan.routing.model")).
Proof. by vm_compute. Qed.

(** Two requests that share the key of their override. *)
Lemma domain_role_key_collision : domain_role_key (lit "a.b") (lit "c") = domain_role_key (lit "a") (lit "b.c").
Proof. done. Qed.
