(* ===== verification/RefExpansion.v ===== *)
(** * Reference expansion

    [crates/orchestraitor-mcp/src/ref_expansion.rs]: the references [pr://N] and
    [issue://N] of a worker-bound payload are found, read once each through the
    provider, and replaced by a fenced block of redacted fields within the
    per-reference and per-pass byte budgets. *)

From S2P Require Import Prelude BTree Text Substring SecretShape.
From Stdlib Require Import ZifyBool.

(** ** The data *)

Inductive ExpansionFailure := NotFound | Forbidden | RateLimited | ProviderError.

Definition expansion_label (f : ExpansionFailure) : rstr :=
  match f with
  | NotFound => lit "not-found"
  | Forbidden => lit "forbidden"
  | RateLimited => lit "rate-limited"
  | ProviderError => lit "provider-error"
  end.

Inductive ReferenceError := Failure (f : ExpansionFailure).

Record PrReferenceFields := {
  prf_number : N;
  prf_title : rstr;
  prf_state : rstr;
  prf_author : rstr;
  prf_labels : rstr;
  prf_url : rstr;
  prf_head_sha : rstr;
  prf_base_oid : rstr;
  prf_checks_all_passed : bool;
  prf_checks_any_pending : bool;
  prf_checks_any_failing : bool;
  prf_failing_checks : list rstr;
  prf_unresolved_threads : N;
  prf_convergence_reasons : list rstr
}.

Record IssueReferenceFields := {
  isf_number : N;
  isf_title : rstr;
  isf_state : rstr;
  isf_author : rstr;
  isf_labels : rstr;
  isf_url : rstr
}.

Inductive ReferenceKind := Pr | Issue.

Definition scheme (k : ReferenceKind) : rstr :=
  match k with Pr => lit "pr" | Issue => lit "issue" end.

Record Reference := { rf_kind : ReferenceKind; rf_number : N; rf_literal : rstr }.

Inductive ExpandedFields := FieldsPr (pr : PrReferenceFields) | FieldsIssue (issue : IssueReferenceFields).

Record ExpansionOutcome := { eo_reference : rstr; eo_expanded : bool; eo_failure : option rstr }.

Record ExpansionReport := {
  er_payload : rstr;
  er_outcomes : list ExpansionOutcome;
  er_budget_exceeded : bool
}.

Definition MAX_REFERENCE_CHARS : N := 2 * 1024.
Definition MAX_PASS_CHARS : N := 8 * 1024.
Definition MAX_TITLE_CHARS : N := 200.

(** [TRUNCATION_SUFFIX]: an ellipsis (U+2026) and the marker. *)
Definition TRUNCATION_SUFFIX : rstr := 8230 :: lit "[truncated]".

(** A provider answers a lookup and may change while it does. *)
Record ExpansionProvider (S : Type) := {
  fetch_pr : S → rstr → rstr → N → S * result PrReferenceFields ReferenceError;
  fetch_issue : S → rstr → rstr → N → S * result IssueReferenceFields ReferenceError
}.
Arguments fetch_pr {S} _ _ _ _ _.
Arguments fetch_issue {S} _ _ _ _ _.

(** [&s[n..]]; [None] where the slice panics. *)
Fixpoint byte_drop (s : rstr) (n : N) : option rstr :=
  if n =? 0 then Some s
  else match s with
       | [] => None
       | c :: s' => if len_utf8 c <=? n then byte_drop s' (n - len_utf8 c) else None
       end.

(** ** The grammar *)

Definition SEP : rstr := lit "://".
Arguments SEP : simpl never.

Section grammar.
(** [char::is_alphanumeric], a table of the Unicode standard. *)
Variable is_alphanumeric : N → bool.

Definition scheme_word_char (c : N) : bool :=
  is_alphanumeric c || (c =? 95) || (c =? 45) || (c =? 46) || (c =? 43).

(** The body of the loop at one separator: [before] is the text since the last
    one, [after_scheme] what follows this one. *)
Definition reference_at (offset : N) (before after_scheme : rstr) : option (Reference * N * N) :=
  let pos := str_len before in
  let '(scheme_start, kind) :=
    if ends_with_str (lit "pr") before then (saturating_sub pos 2, Some Pr)
    else if ends_with_str (lit "issue") before then (saturating_sub pos 5, Some Issue)
    else (usize_max, None) in
  let boundary_ok :=
    (scheme_start =? 0)
    || ((scheme_start <? pos)
        && match list.last (byte_prefix before scheme_start) with
           | None => true
           | Some c => negb (scheme_word_char c)
           end) in
  let key := take_while is_ascii_digit after_scheme in
  let key_ended := match drop (length key) after_scheme with
                   | [] => true
                   | c :: _ => negb (is_ascii_alphanumeric c)
                   end in
  if negb boundary_ok then None
  else match kind with
       | None => None
       | Some kind =>
           if is_empty key || negb key_ended then None
           else match parse_u64 key with
                | None => None
                | Some number =>
                    Some ({| rf_kind := kind; rf_number := number; rf_literal := scheme kind ++ SEP ++ key |},
                          offset + scheme_start, offset + pos + 3 + str_len key)
                end
       end.

(** Each turn takes the separator off, so the length is fuel enough. *)
Fixpoint spans_go (fuel : nat) (offset : N) (rest : rstr) : list (Reference * N * N) :=
  match fuel with
  | O => []
  | Datatypes.S fuel =>
      match find_str SEP rest with
      | None => []
      | Some pos =>
          let before := take pos rest in
          let after_scheme := drop (pos + 3) rest in
          let refs := spans_go fuel (offset + str_len before + 3) after_scheme in
          match reference_at offset before after_scheme with
          | Some r => r :: refs
          | None => refs
          end
      end
  end.

Definition parse_reference_spans (payload : rstr) : list (Reference * N * N) :=
  spans_go (Datatypes.S (length payload)) 0 payload.

Definition parse_references (payload : rstr) : list Reference :=
  (λ s, s.1.1) <$> parse_reference_spans payload.
End grammar.

(** ** Redaction *)

Definition REF_PREFIXES : list rstr :=
  lit <$> ["ghp_"; "gho_"; "ghu_"; "ghs_"; "ghr_"; "github_pat_"; "sk-"]%string.

Definition is_secret_token (candidate : rstr) : bool :=
  existsb (λ prefix,
    starts_with prefix candidate
    && (16 <=? len (take_while is_token_char (drop (length prefix) candidate)))) REF_PREFIXES.

Definition is_secret_uri (candidate : rstr) : bool := starts_with (lit "secret://") candidate.

Definition is_credential_assignment (candidate : rstr) : bool :=
  let lower := to_ascii_lowercase candidate in
  existsb (λ p, starts_with p lower)
    (lit <$> ["api_key="; "apikey="; "api-key="; "token="; "password="]%string)
  && (8 + 8 <=? str_len candidate).

Definition word_char (c : N) : bool := negb (is_whitespace c) && negb (c =? 34) && negb (c =? 96).

Definition word_of (rest : rstr) : rstr := take_while word_char rest.

(** [is_secret_shaped(text, start)], of the text from [start] on. *)
Definition is_secret_shaped (rest : rstr) : bool :=
  let word := word_of rest in
  is_secret_token word || is_secret_uri word || is_credential_assignment word.

Definition REDACTED : rstr := lit "[REDACTED]".

(** One turn of the loop: what is pushed, what is counted, and the rest.  The
    white space before a bearer value is counted in characters and the slice
    taken in bytes. *)
Definition redact_step (rest : rstr) : outcome (rstr * N * rstr) :=
  let word := word_of rest in
  let same_line := default [] (head (split 10 (drop (length word) rest))) in
  let value := word_of (drop_while is_whitespace same_line) in
  if eq_ignore_ascii_case word (lit "bearer") && negb (is_empty value) then
    let ws_before_value := len (take_while is_whitespace same_line) in
    let skipped := str_len word + ws_before_value + str_len value in
    match byte_drop rest skipped with
    | None => Panic
    | Some rest' => Done (REDACTED, 1, rest')
    end
  else if is_secret_shaped rest then Done (REDACTED, 1, drop (length word) rest)
  else match rest with
       | [] => Done ([0], 0, [])
       | ch :: rest' => Done ([ch], 0, rest')
       end.

Fixpoint redact_go (fuel : nat) (rest : rstr) : outcome (rstr * N) :=
  match rest with
  | [] => Done ([], 0)
  | _ :: _ =>
      match fuel with
      | O => OutOfFuel
      | Datatypes.S fuel =>
          let! (pushed, counted, rest') := redact_step rest in
          let! (out, count) := redact_go fuel rest' in
          Done (pushed ++ out, counted + count)
      end
  end.

Definition redact_secrets (text : rstr) : outcome (rstr * N) := redact_go (length text) text.

Definition sanitize_line (text : rstr) : rstr :=
  (λ c, if (c =? 10) || (c =? 13) then 32 else c) <$> text.

Definition cap_value (text : rstr) (cap : N) : rstr :=
  if len text <=? cap then text else take (N.to_nat cap) text ++ TRUNCATION_SUFFIX.

(** ** The block *)

Definition writeln (line : rstr) : rstr := line ++ [10].

Definition show_bool (b : bool) : rstr := if b then lit "true" else lit "false".

(** The announcement of [count] redactions, where there is one. *)
Definition announce (count : N) : rstr :=
  if 0 <? count then writeln (lit "redacted (" ++ dec count ++ lit " instance(s))") else [].

(** The [redacted_line] closures, with what they add to [field_redactions]. *)
Definition redacted_line (text : rstr) : outcome (rstr * N) := redact_secrets (sanitize_line text).

Fixpoint redacted_names (names : list rstr) : outcome (list rstr * N) :=
  match names with
  | [] => Done ([], 0)
  | name :: names =>
      let! (line, n) := redacted_line name in
      let! (ls, m) := redacted_names names in
      Done (cap_value line MAX_TITLE_CHARS :: ls, n + m)
  end.

Definition block_text (fields : ExpandedFields) : outcome rstr :=
  match fields with
  | FieldsPr pr =>
      let! (title, n_title) := redacted_line (prf_title pr) in
      let! (labels, n_labels) := redacted_line (prf_labels pr) in
      let! (names, n_names) := redacted_names (prf_failing_checks pr) in
      Done (writeln (lit "number: " ++ dec (prf_number pr))
        ++ writeln (lit "title: " ++ cap_value title MAX_TITLE_CHARS)
        ++ writeln (lit "state: " ++ sanitize_line (prf_state pr))
        ++ writeln (lit "author: " ++ sanitize_line (prf_author pr))
        ++ writeln (lit "labels: " ++ cap_value labels MAX_TITLE_CHARS)
        ++ writeln (lit "url: " ++ sanitize_line (prf_url pr))
        ++ writeln (lit "head_sha: " ++ prf_head_sha pr)
        ++ writeln (lit "base_oid: " ++ prf_base_oid pr)
        ++ writeln (lit "ci: checks_all_passed=" ++ show_bool (prf_checks_all_passed pr)
                    ++ lit " checks_any_pending=" ++ show_bool (prf_checks_any_pending pr)
                    ++ lit " checks_any_failing=" ++ show_bool (prf_checks_any_failing pr))
        ++ (if is_empty (prf_failing_checks pr) then []
            else writeln (lit "failing_checks: " ++ join (lit ", ") names))
        ++ writeln (lit "unresolved_threads: " ++ dec (prf_unresolved_threads pr))
        ++ announce (n_title + n_labels + n_names)
        ++ (if is_empty (prf_convergence_reasons pr) then []
            else writeln (lit "convergence_reasons: " ++ join (lit ", ") (prf_convergence_reasons pr))))
  | FieldsIssue issue =>
      let! (title, n_title) := redacted_line (isf_title issue) in
      let! (labels, n_labels) := redacted_line (isf_labels issue) in
      Done (writeln (lit "number: " ++ dec (isf_number issue))
        ++ writeln (lit "title: " ++ cap_value title MAX_TITLE_CHARS)
        ++ writeln (lit "state: " ++ sanitize_line (isf_state issue))
        ++ writeln (lit "author: " ++ sanitize_line (isf_author issue))
        ++ writeln (lit "labels: " ++ cap_value labels MAX_TITLE_CHARS)
        ++ writeln (lit "url: " ++ sanitize_line (isf_url issue))
        ++ announce (n_title + n_labels))
  end.

Definition build_block_unfenced (fields : ExpandedFields) : outcome (rstr * N) :=
  let! block := block_text fields in
  let! (redacted, redaction_count) := redact_secrets block in
  Done (redacted ++ announce redaction_count, redaction_count).

(** The loop over the characters: the longest run of backticks, where the
    current one has [cur]. *)
Fixpoint max_run_go (cur : N) (s : rstr) : N :=
  match s with
  | [] => cur
  | c :: s' => if c =? 96 then max_run_go (cur + 1) s' else N.max cur (max_run_go 0 s')
  end.

Definition build_block (fields : ExpandedFields) : outcome (rstr * rstr) :=
  let! (raw, _) := build_block_unfenced fields in
  let max_run := max_run_go 0 raw in
  Done (raw, replicate (N.to_nat (N.max (max_run + 1) 3)) 96).

Definition EM_DASH : N := 8212.

Definition budget_exceeded_notice (literal : rstr) : rstr :=
  literal ++ lit " [budget-exceeded; the payload is still delivered " ++ [EM_DASH]
  ++ lit " the pass budget was reached before this reference could be expanded]".

Definition failure_notice (literal : rstr) (f : ExpansionFailure) : rstr :=
  literal ++ lit " [" ++ expansion_label f ++ lit "; the payload is still delivered " ++ [EM_DASH]
  ++ lit " the reference could not be expanded]".

(** [raw.lines().last().filter(..)]. *)
Definition announcement_of (raw : rstr) : option rstr :=
  match list.last (lines raw) with
  | Some line => if starts_with (lit "redacted (") line then Some line else None
  | None => None
  end.

Definition enforce_reference_cap (raw : rstr) (header_len fence_len : N) : rstr :=
  if MAX_REFERENCE_CHARS <? header_len + str_len raw + fence_len * 2 + str_len TRUNCATION_SUFFIX + 2 then
    let byte_cap :=
      saturating_sub
        (saturating_sub MAX_REFERENCE_CHARS (header_len + fence_len * 2 + str_len TRUNCATION_SUFFIX + 2))
        (from_option (λ line, str_len line + 1) 0 (announcement_of raw)) in
    let announcement := default [] (announcement_of raw) in
    let cut := N.of_nat (floor_boundary raw (N.to_nat byte_cap)) in
    let raw := byte_prefix raw cut ++ TRUNCATION_SUFFIX in
    if is_empty announcement then raw
    else (if ends_with 10 raw then raw else raw ++ [10]) ++ writeln announcement
  else raw.

Definition header_line (r : Reference) : rstr :=
  lit "expanded " ++ scheme (rf_kind r) ++ SEP ++ dec (rf_number r) ++ lit " (untrusted content below)".

Definition build_site_substitution (reference : Reference) (fields : result ExpandedFields ReferenceError)
    : outcome (rstr * option rstr) :=
  match fields with
  | Err (Failure failure) =>
      Done (failure_notice (rf_literal reference) failure, Some (expansion_label failure))
  | Ok fields =>
      let! (raw, fence) := build_block fields in
      let header_len := str_len (header_line reference) + 1 in
      let raw := enforce_reference_cap raw header_len (str_len fence) in
      Done (fence ++ header_line reference ++ [10] ++ raw ++ [10] ++ fence, None)
  end.

(** ** The pass *)

Section pass.
Context {S : Type} (provider : ExpansionProvider S) (owner repo : rstr).

Definition fetch (s : S) (reference : Reference) : S * result ExpandedFields ReferenceError :=
  match rf_kind reference with
  | Pr => let '(s, r) := fetch_pr provider s owner repo (rf_number reference) in
          (s, let? pr := r in Ok (FieldsPr pr))
  | Issue => let '(s, r) := fetch_issue provider s owner repo (rf_number reference) in
             (s, let? issue := r in Ok (FieldsIssue issue))
  end.

(** The spans of a literal. *)
Definition sites_of (spans : list (Reference * N * N)) (literal : rstr) : list (N * N) :=
  (λ s, (s.1.2, s.2)) <$> List.filter (λ s, bool_decide (rf_literal s.1.1 = literal)) spans.

(** The loop over one literal's sites: the substitutions, the bytes charged so
    far and whether a site did not fit. *)
Fixpoint charge_sites (literal substitution : rstr) (sites : list (N * N)) (pass_chars : N)
    : list (N * N * rstr) * N * bool :=
  match sites with
  | [] => ([], pass_chars, false)
  | (start, stop) :: sites =>
      if MAX_PASS_CHARS <? pass_chars + str_len substitution then
        let '(subs, chars, _) := charge_sites literal substitution sites pass_chars in
        ((start, stop, budget_exceeded_notice literal) :: subs, chars, true)
      else
        let '(subs, chars, hit) := charge_sites literal substitution sites (pass_chars + str_len substitution) in
        ((start, stop, substitution) :: subs, chars, hit)
  end.

Fixpoint resolve_go (unique : list Reference) (spans : list (Reference * N * N))
    (pass_chars : N) (budget_exceeded : bool) (s : S)
    : outcome (list ExpansionOutcome * list (N * N * rstr) * bool * S) :=
  match unique with
  | [] => Done ([], [], budget_exceeded, s)
  | reference :: unique =>
      let sites := sites_of spans (rf_literal reference) in
      if budget_exceeded then
        let here := (λ p, (p.1, p.2, budget_exceeded_notice (rf_literal reference))) <$> sites in
        let! (outcomes, subs, exceeded, s) := resolve_go unique spans pass_chars budget_exceeded s in
        Done ({| eo_reference := rf_literal reference; eo_expanded := false;
                 eo_failure := Some (lit "budget-exceeded") |} :: outcomes, here ++ subs, exceeded, s)
      else
        let '(s, fields) := fetch s reference in
        let! (substitution, failure_label) := build_site_substitution reference fields in
        let is_failure := bool_decide (is_Some failure_label) in
        let '(here, pass_chars, budget_hit) := charge_sites (rf_literal reference) substitution sites pass_chars in
        let! (outcomes, subs, exceeded, s) := resolve_go unique spans pass_chars budget_hit s in
        Done ({| eo_reference := rf_literal reference;
                 eo_expanded := negb is_failure && negb budget_hit;
                 eo_failure := match failure_label with
                               | Some l => Some l
                               | None => if budget_hit then Some (lit "budget-exceeded") else None
                               end |} :: outcomes, here ++ subs, exceeded, s)
  end.

Definition resolve_references (unique : list Reference) (spans : list (Reference * N * N)) (s : S)
    : outcome (list ExpansionOutcome * list (N * N * rstr) * bool * S) :=
  resolve_go unique spans 0 false s.

(** The first span of every literal. *)
Fixpoint dedupe (unique : list Reference) (refs : list Reference) : list Reference :=
  match refs with
  | [] => unique
  | r :: refs =>
      dedupe (if existsb (λ known, bool_decide (rf_literal known = rf_literal r)) unique
              then unique else unique ++ [r]) refs
  end.

(** [String::replace_range]. *)
Definition replace_range (out : rstr) (start stop : N) (replacement : rstr) : outcome rstr :=
  match is_char_boundary out start, byte_drop out stop with
  | true, Some tail => if start <=? stop then Done (byte_prefix out start ++ replacement ++ tail) else Panic
  | _, _ => Panic
  end.

Fixpoint substitute (out : rstr) (ordered : list (N * N * rstr)) : outcome rstr :=
  match ordered with
  | [] => Done out
  | (start, stop, replacement) :: ordered =>
      let! out := replace_range out start stop replacement in substitute out ordered
  end.

(** [sort_by_key] of the reversed start. *)
Definition later (a b : N * N * rstr) : Prop := b.1.1 ≤ a.1.1.

#[global] Instance later_dec : RelDecision later.
Proof. intros a b. unfold later. apply _. Defined.

Definition expand_payload (is_alphanumeric : N → bool) (payload : rstr) (s : S)
    : outcome (result ExpansionReport ReferenceError * S) :=
  let spans := parse_reference_spans is_alphanumeric payload in
  let unique := dedupe [] ((λ x, x.1.1) <$> spans) in
  let! (outcomes, substitutions, budget_exceeded, s) := resolve_references unique spans s in
  let! out := substitute payload (stable_sort later substitutions) in
  Done (Ok {| er_payload := out; er_outcomes := outcomes; er_budget_exceeded := budget_exceeded |}, s).
End pass.

(** ** Lemmas on slices *)

Lemma byte_drop_spec s n t : byte_drop s n = Some t ↔ ∃ p, s = p ++ t ∧ str_len p = n.
Proof.
  revert n. induction s as [|c s IH]; intros n; cbn [byte_drop].
  - destruct (N.eqb_spec n 0) as [->|Hn].
    + split; [intros [= <-]; by exists []|]. intros ([|x p] & Hs & Hp); [by rw Hs|done].
    + split; [done|]. intros ([|x p] & Hs & Hp); [by cbn in Hp|done].
  - destruct (N.eqb_spec n 0) as [->|Hn].
    + split; [intros [= <-]; by exists []|]. intros ([|x p] & Hs & Hp); [by rw Hs|].
      rw str_len_cons in Hp. pose proof (len_utf8_pos x). lia.
    + destruct (N.leb_spec (len_utf8 c) n).
      * rw IH. split.
        { intros (p & -> & Hp). exists (c :: p). rw str_len_cons Hp. split; [done|lia]. }
        intros ([|x p] & Hs & Hp); [by cbn in Hp|]. injection Hs as <- ->. rw str_len_cons in Hp.
        exists p. split; [done|lia].
      * split; [done|]. intros ([|x p] & Hs & Hp); [by cbn in Hp|]. injection Hs as <- ->.
        rw str_len_cons in Hp. lia.
Qed.

Lemma byte_drop_app p t : byte_drop (p ++ t) (str_len p) = Some t.
Proof. apply byte_drop_spec. by exists p. Qed.

Lemma byte_prefix_app p t : byte_prefix (p ++ t) (str_len p) = p.
Proof.
  destruct (byte_prefix_largest (p ++ t) (str_len p) p t eq_refl ltac:(done)) as [u Hu].
  pose proof (byte_prefix_len (p ++ t) (str_len p)) as Hl. rw Hu str_len_app in Hl. rw Hu.
  destruct u as [|c u]; [by rw app_nil_r|]. rw str_len_cons in Hl. pose proof (len_utf8_pos c). lia.
Qed.

Lemma take_while_all f s : Forall (λ c, f c = true) (take_while f s).
Proof. induction s as [|c s IH]; cbn [take_while]; [done|]. destruct (f c) eqn:E; by constructor. Qed.

Lemma take_while_split f s : s = take_while f s ++ drop (length (take_while f s)) s.
Proof. induction s as [|c s IH]; [done|]. cbn [take_while]. destruct (f c); [cbn; by f_equal|done]. Qed.

Lemma take_while_stop f s :
  match drop (length (take_while f s)) s with [] => True | c :: _ => f c = false end.
Proof. induction s as [|c s IH]; [done|]. cbn [take_while]. by destruct (f c) eqn:E. Qed.

(** The run of a class is what precedes the first character outside it. *)
Lemma take_while_exact f w t :
  Forall (λ c, f c = true) w → match t with [] => True | c :: _ => f c = false end → take_while f (w ++ t) = w.
Proof.
  intros Hw Ht. rw take_while_app; [|by apply Forall_forall]. destruct t as [|c t]; [by rw app_nil_r|].
  cbn. rw Ht. by rw app_nil_r.
Qed.

(** ** The references are exactly the words of the grammar *)

(** No scheme character precedes. *)
Definition at_boundary (is_alphanumeric : N → bool) (a : rstr) : bool :=
  match list.last a with None => true | Some c => negb (scheme_word_char is_alphanumeric c) end.

(** A key: digits that fit 64 bits, up to a character that is no ASCII letter
    or digit. *)
Definition key_then (digits after : rstr) : Prop :=
  digits ≠ [] ∧ Forall (λ c, is_ascii_digit c = true) digits ∧ undec digits ≤ u64_max
  ∧ match after with [] => True | c :: _ => is_ascii_alphanumeric c = false end.

Lemma parse_u64_digits d n :
  d ≠ [] → Forall (λ c, is_ascii_digit c = true) d → parse_u64 d = Some n ↔ undec d ≤ u64_max ∧ n = undec d.
Proof.
  intros Hne Hd. assert (match d with 43 :: d' => d' | _ => d end = d) as E.
  { destruct d as [|c d]; [done|]. inversion Hd as [|? ? Hc _]; subst.
    unfold is_ascii_digit in Hc. destruct (decide (c = 43)) as [->|]; [done|].
    destruct c as [|p]; [done|]. repeat (destruct p as [p|p|]; try done). }
  unfold parse_u64. cbv zeta. rw E. destruct d as [|c d]; [done|]. cbn [is_empty orb].
  rw (proj2 (forallb_true is_ascii_digit (c :: d))); [|by apply Forall_forall]. cbn [negb].
  destruct (N.leb_spec (undec (c :: d)) u64_max); split; [by intros [= <-]|by intros [_ ->]|done|lia].
Qed.

Lemma digit_alphanumeric c : is_ascii_digit c = true → is_ascii_alphanumeric c = true.
Proof. unfold is_ascii_alphanumeric. by intros ->. Qed.

Lemma key_exact after number :
  (∃ digits b, after = digits ++ b ∧ key_then digits b ∧ number = undec digits) ↔
  let key := take_while is_ascii_digit after in
  key ≠ [] ∧ match drop (length key) after with [] => true | c :: _ => negb (is_ascii_alphanumeric c) end = true
  ∧ parse_u64 key = Some number.
Proof.
  split.
  - intros (d & b & -> & (Hne & Hd & Hu & Hb) & ->).
    assert (take_while is_ascii_digit (d ++ b) = d) as E.
    { apply take_while_exact; [done|]. destruct b as [|c b]; [done|].
      destruct (is_ascii_digit c) eqn:Ed; [|done]. apply digit_alphanumeric in Ed. congruence. }
    cbv zeta. rw E drop_app_length. split_and!; [done| |by apply parse_u64_digits].
    destruct b; [done|]. by rw Hb.
  - cbv zeta. intros (Hne & He & Hp). pose proof (take_while_all is_ascii_digit after) as Hd.
    apply parse_u64_digits in Hp as [Hu ->]; [|done..].
    exists (take_while is_ascii_digit after), (drop (length (take_while is_ascii_digit after)) after).
    split; [apply take_while_split|]. split; [|done]. split_and!; try done.
    destruct (drop _ after); [done|]. by apply negb_true_iff.
Qed.

Section grammar_exact.
Variable is_alphanumeric : N → bool.
(** Unicode agrees with ASCII below 128. *)
Hypothesis Halnum : ∀ c, c < 128 → is_alphanumeric c = is_ascii_alphanumeric c.

Abbreviation ref_at := (reference_at is_alphanumeric).
Abbreviation bounded := (at_boundary is_alphanumeric).

(** What [parse_reference_spans] promises of a span: the payload holds the
    literal there, as a word of the grammar. *)
Definition span_of (payload : rstr) (x : Reference * N * N) : Prop :=
  let '(r, start, stop) := x in
  ∃ a digits b, payload = a ++ rf_literal r ++ b ∧ bounded a = true ∧ key_then digits b
    ∧ r = {| rf_kind := rf_kind r; rf_number := undec digits; rf_literal := scheme (rf_kind r) ++ SEP ++ digits |}
    ∧ start = str_len a ∧ stop = start + str_len (rf_literal r).

Lemma scheme_no_slash k : 47 ∉ scheme k.
Proof. apply (bool_decide_unpack _). by destruct k. Qed.

Lemma digits_len d : Forall (λ c, is_ascii_digit c = true) d → str_len d = len d.
Proof.
  intros H. apply str_len_ascii. eapply Forall_impl; [exact H|]. intros c Hc.
  unfold is_ascii_digit in Hc. unfold is_ascii. lia.
Qed.

Definition scheme_len (k : ReferenceKind) : N := match k with Pr => 2 | Issue => 5 end.

Lemma str_len_scheme k : str_len (scheme k) = scheme_len k.
Proof. by destruct k. Qed.

Lemma scheme_ends k k' x y : x ++ scheme k = y ++ scheme k' → k = k' ∧ x = y.
Proof.
  intros H. assert (k = k') as ->.
  { apply (f_equal list.last) in H. destruct k, k'; try done; exfalso;
      change (scheme Pr) with ([112] ++ [114]) in H; change (scheme Issue) with (lit "issu" ++ [101]) in H;
      rw !app_assoc !last_snoc in H; done. }
  split; [done|]. by apply app_inv_tail in H.
Qed.

(** The choice of the scheme. *)
Lemma scheme_choice before :
  match (if ends_with_str (lit "pr") before then Some Pr
         else if ends_with_str (lit "issue") before then Some Issue else None) with
  | Some k => ∃ x, before = x ++ scheme k
  | None => ∀ k x, before ≠ x ++ scheme k
  end.
Proof.
  destruct (ends_with_str (lit "pr") before) eqn:E1.
  { by apply ends_with_str_spec in E1. }
  destruct (ends_with_str (lit "issue") before) eqn:E2.
  { by apply ends_with_str_spec in E2. }
  intros k x Hx. destruct k.
  - assert (ends_with_str (lit "pr") before = true) by (apply ends_with_str_spec; by exists x). congruence.
  - assert (ends_with_str (lit "issue") before = true) by (apply ends_with_str_spec; by exists x). congruence.
Qed.

Lemma boundary_slice x k :
  let scheme_start := saturating_sub (str_len (x ++ scheme k)) (scheme_len k) in
  scheme_start = str_len x
  ∧ ((scheme_start =? 0)
     || ((scheme_start <? str_len (x ++ scheme k))
         && match list.last (byte_prefix (x ++ scheme k) scheme_start) with
            | None => true | Some c => negb (scheme_word_char is_alphanumeric c) end)) = bounded x.
Proof.
  cbv zeta. unfold saturating_sub. rw !str_len_app !str_len_scheme.
  replace (str_len x + scheme_len k - scheme_len k) with (str_len x) by lia. split; [done|].
  rw byte_prefix_app. destruct x as [|c x]; [done|].
  rw str_len_cons. pose proof (len_utf8_pos c).
  destruct (N.eqb_spec (len_utf8 c + str_len x) 0); [lia|]. cbn [orb].
  destruct (N.ltb_spec (len_utf8 c + str_len x) (len_utf8 c + str_len x + scheme_len k)); [done|].
  destruct k; cbn [scheme_len] in *; lia.
Qed.

(** The body of the loop, as a relation on the text since the last separator. *)
Lemma reference_at_some offset before after r start stop :
  ref_at offset before after = Some (r, start, stop) ↔
  ∃ x digits b, before = x ++ scheme (rf_kind r) ∧ bounded x = true ∧ after = digits ++ b
    ∧ key_then digits b
    ∧ r = {| rf_kind := rf_kind r; rf_number := undec digits; rf_literal := scheme (rf_kind r) ++ SEP ++ digits |}
    ∧ start = offset + str_len x ∧ stop = start + str_len (rf_literal r).
Proof.
  assert (∀ k x, before = x ++ scheme k →
    ref_at offset before after
    = (if negb (bounded x) then None
       else let key := take_while is_ascii_digit after in
            if is_empty key || negb (match drop (length key) after with
                                     | [] => true | c :: _ => negb (is_ascii_alphanumeric c) end) then None
            else match parse_u64 key with
                 | None => None
                 | Some number => Some ({| rf_kind := k; rf_number := number; rf_literal := scheme k ++ SEP ++ key |},
                     offset + str_len x, offset + str_len before + 3 + str_len key)
                 end)) as Hat.
  { intros k x Hx. destruct (boundary_slice x k) as [Es Eb]. unfold reference_at.
    pose proof (scheme_choice before) as Hc. rw -Hx in Es, Eb.
    destruct (ends_with_str (lit "pr") before) eqn:E1.
    { destruct Hc as [x' Hx']. rw Hx in Hx'. apply scheme_ends in Hx' as [-> ->].
      change (scheme_len Pr) with 2 in *. rw Eb Es. done. }
    destruct (ends_with_str (lit "issue") before) eqn:E2; [|by destruct (Hc k x)].
    destruct Hc as [x' Hx']. rw Hx in Hx'. apply scheme_ends in Hx' as [-> ->].
    change (scheme_len Issue) with 5 in *. rw Eb Es. done. }
  split.
  - intros H. assert (∃ k x, before = x ++ scheme k) as (k & x & Hx).
    { unfold reference_at in H. pose proof (scheme_choice before) as Hc.
      destruct (ends_with_str (lit "pr") before); [by destruct Hc as [x ?]; exists Pr, x|].
      destruct (ends_with_str (lit "issue") before); [by destruct Hc as [x ?]; exists Issue, x|].
      destruct (negb _) in H; discriminate H. }
    rw (Hat k x Hx) in H. destruct (bounded x) eqn:Eb; [|done]. cbn [negb] in H. cbv zeta in H.
    destruct (_ || _) eqn:Ek in H; [done|]. apply orb_false_iff in Ek as [Ek1 Ek2].
    apply is_empty_false in Ek1. apply negb_false_iff in Ek2.
    destruct (parse_u64 _) as [number|] eqn:Ep in H; [|done]. symmetry in H. apply (inj Some), pair_eq in H as [H ->].
    apply pair_eq in H as [-> ->]. cbn [rf_kind rf_literal].
    pose proof (take_while_all is_ascii_digit after) as Hd.
    pose proof Ep as Ep'. apply parse_u64_digits in Ep' as [Hu ->]; [|done..].
    exists x, (take_while is_ascii_digit after), (drop (length (take_while is_ascii_digit after)) after).
    split_and!; try done.
    + apply take_while_split.
    + split_and!; [done..|]. destruct (drop _ after); [done|]. by apply negb_true_iff.
    + rw !str_len_app Hx str_len_app. change (str_len SEP) with 3. lia.
  - intros (x & d & b & Hx & Hb & Hafter & Hk & Hr & -> & ->). rw (Hat _ x Hx) Hb. cbn [negb].
    destruct (proj1 (key_exact after (undec d))) as (Hne & He & Hp); [by exists d, b|]. cbv zeta.
    rw Hp. rw (proj2 (is_empty_false _) Hne) He. cbn [negb orb].
    assert (take_while is_ascii_digit after = d) as ->.
    { rw Hafter. destruct Hk as (_ & Hd & _ & Hb'). apply take_while_exact; [done|]. destruct b as [|c b]; [done|].
      destruct (is_ascii_digit c) eqn:Ed; [|done]. apply digit_alphanumeric in Ed. congruence. }
    rw {3}Hr. f_equal. f_equal. rw Hr. cbn [rf_literal].
    rw Hx !str_len_app. change (str_len SEP) with 3. lia.
Qed.

(** The text up to the last separator ends in a slash, which bounds a scheme. *)
Definition after_slash (pre : rstr) : Prop := pre = [] ∨ list.last pre = Some 47.

Lemma slash_bounds pre x : after_slash pre → bounded (pre ++ x) = bounded x.
Proof.
  intros Hp. unfold at_boundary. destruct x as [|c x] using rev_ind; [|by rw app_assoc !last_snoc].
  rw app_nil_r. destruct Hp as [->|Hp]; [done|]. rw Hp. cbn [list.last].
  unfold scheme_word_char. by rw Halnum.
Qed.

Lemma slash_split pre before t w :
  after_slash pre → 47 ∉ w → pre ++ before = t ++ w → ∃ t', before = t' ++ w ∧ t = pre ++ t'.
Proof.
  intros Hp Hw H. apply app_eq_app in H as (k & [[-> ->]|[-> ->]]).
  - destruct k as [|c k] using rev_ind; [exists []; by rw !app_nil_r|]. exfalso. destruct Hp as [Hp|Hp].
    + apply (f_equal length) in Hp. rw !length_app in Hp. cbn in Hp. lia.
    + rw app_assoc last_snoc in Hp. injection Hp as ->. apply Hw. set_solver.
  - by exists k.
Qed.

Lemma reference_shift pre before after :
  after_slash pre → ref_at (str_len pre) before after = ref_at 0 (pre ++ before) after.
Proof.
  intros Hp. apply option_eq. intros [[r start] stop]. rw !reference_at_some. split.
  - intros (x & d & b & -> & Hb & Ha & Hk & Hr & -> & Hs). exists (pre ++ x), d, b.
    rw slash_bounds; [|done]. rw str_len_app N.add_0_l app_assoc. done.
  - intros (x & d & b & Hx & Hb & Ha & Hk & Hr & -> & Hs).
    apply slash_split in Hx as (x' & -> & ->); [|done|apply scheme_no_slash].
    exists x', d, b. rw slash_bounds in Hb; [|done]. rw -str_len_app. done.
Qed.

Lemma SEP_borderless : borderless SEP.
Proof. intros k Hk. change (length SEP) with 3%nat in *. destruct k as [|[|[|k]]]; [lia|done|done|lia]. Qed.

Lemma after_slash_app a : after_slash (a ++ SEP).
Proof. right. change SEP with (lit ":/" ++ [47]). by rw app_assoc last_snoc. Qed.

(** The loop stops at every separator of the text. *)
Lemma spans_go_elem fuel pre rest x :
  (length rest < fuel)%nat → after_slash pre →
  x ∈ spans_go is_alphanumeric fuel (str_len pre) rest ↔
  ∃ u v, rest = u ++ SEP ++ v ∧ ref_at 0 (pre ++ u) v = Some x.
Proof.
  revert pre rest. induction fuel as [|fuel IH]; intros pre rest Hf Hp; [lia|]. cbn [spans_go].
  destruct (find_str SEP rest) as [pos|] eqn:E.
  2: { split; [set_solver|]. intros (u & v & Hr & _). by apply find_str_none with (a := u) (b := v) in E. }
  pose proof (find_str_split _ _ _ E) as Hs. change (length SEP) with 3%nat in Hs.
  set (before := take pos rest) in *. set (after := drop (pos + 3) rest) in *.
  assert (x ∈ spans_go is_alphanumeric fuel (str_len pre + str_len before + 3) after ↔
          ∃ u v, after = u ++ SEP ++ v ∧ ref_at 0 (pre ++ before ++ SEP ++ u) v = Some x) as Hrec.
  { replace (str_len pre + str_len before + 3) with (str_len (pre ++ before ++ SEP))
      by (rw !str_len_app; change (str_len SEP) with 3; lia).
    rw IH; [|subst after; rw length_drop; apply (f_equal length) in Hs; rw !length_app in Hs;
             change (length SEP) with 3%nat in Hs; lia|rw app_assoc; apply after_slash_app].
    by setoid_rewrite <- app_assoc; setoid_rewrite <- app_assoc. }
  assert (x ∈ match ref_at (str_len pre) before after with
              | Some r => r :: spans_go is_alphanumeric fuel (str_len pre + str_len before + 3) after
              | None => spans_go is_alphanumeric fuel (str_len pre + str_len before + 3) after
              end ↔ ref_at (str_len pre) before after = Some x
                    ∨ x ∈ spans_go is_alphanumeric fuel (str_len pre + str_len before + 3) after) as ->.
  { destruct (ref_at (str_len pre) before after); [rw elem_of_cons; naive_solver|naive_solver]. }
  rw Hrec (reference_shift _ _ _ Hp). split.
  - intros [H|(u & v & Hu & H)]; [by exists before, after|]. exists (before ++ SEP ++ u), v.
    split; [|done]. by rw Hs Hu -!app_assoc.
  - intros (u & v & Hr & H). destruct (occurrences_apart SEP rest u v pos SEP_borderless Hr E) as [->|Hle].
    + left. replace before with u by (subst before; by rw Hr take_app_length).
      replace after with v; [done|]. subst after. rw Hr app_assoc drop_app_length'; [done|]. by rw length_app.
    + right. change (length SEP) with 3%nat in Hle. exists (drop (pos + 3) u), v. split.
      * subst after. by rw Hr drop_app_le.
      * replace (before ++ SEP ++ drop (pos + 3) u) with u; [done|].
        assert (u = take (pos + 3) rest ++ drop (pos + 3) u) as Hu.
        { rw {1}Hr take_app_le; [|done]. by rw take_drop. }
        rw {1}Hu app_assoc. f_equal. rw {1}Hs app_assoc take_app_length'; [done|].
        rw length_app. subst before. rw length_take_le; [done|]. apply find_str_some in E. naive_solver.
Qed.

(** ** The spans follow one another *)

(** The text before each literal, and the literal at its place. *)
Fixpoint chain (offset : N) (rest : rstr) (spans : list (Reference * N * N)) : Prop :=
  match spans with
  | [] => True
  | (r, start, stop) :: spans =>
      ∃ t rest', rest = t ++ rf_literal r ++ rest' ∧ (∃ k d, rf_literal r = scheme k ++ d)
        ∧ start = offset + str_len t ∧ stop = start + str_len (rf_literal r) ∧ chain stop rest' spans
  end.

Lemma chain_extend offset p rest l : chain (offset + str_len p) rest l → chain offset (p ++ rest) l.
Proof.
  destruct l as [|[[r start] stop] l]; [done|]. intros (t & rest' & -> & Hk & -> & -> & Hc).
  exists (p ++ t), rest'. rw -app_assoc str_len_app N.add_assoc. done.
Qed.

(** A literal starts at no digit. *)
Lemma chain_skip offset d y l :
  Forall (λ c, is_ascii_digit c = true) d → chain offset (d ++ y) l → chain (offset + str_len d) y l.
Proof.
  intros Hd. destruct l as [|[[r start] stop] l]; [done|].
  intros (t & rest' & H & (k & e & Hk) & -> & -> & Hc).
  apply app_eq_app in H as (m & [[-> Hm]|[-> Hm]]).
  - assert (m = []) as ->.
    { destruct m as [|c m]; [done|]. exfalso. apply Forall_app in Hd as [_ Hd].
      apply Forall_cons in Hd as [Hc' _]. rw Hk in Hm. destruct k; injection Hm as <- _; discriminate Hc'. }
    exists [], rest'. split_and!; [by rw Hm|by exists k, e| | |done]; rw ?app_nil_r; cbn [str_len foldr]; lia.
  - exists m, rest'. split_and!; [done|by exists k, e| | |done]; rw str_len_app; lia.
Qed.

Lemma spans_go_chain fuel offset rest : chain offset rest (spans_go is_alphanumeric fuel offset rest).
Proof.
  revert offset rest. induction fuel as [|fuel IH]; intros offset rest; [done|]. cbn [spans_go].
  destruct (find_str SEP rest) as [pos|] eqn:E; [|done].
  pose proof (find_str_split _ _ _ E) as Hs. change (length SEP) with 3%nat in Hs.
  set (before := take pos rest) in *. set (after := drop (pos + 3) rest) in *.
  specialize (IH (offset + str_len before + 3) after).
  destruct (ref_at offset before after) as [[[r start] stop]|] eqn:Er.
  - apply reference_at_some in Er as (x & d & b & Hx & _ & Hafter & Hk & Hr & -> & ->).
    assert (rf_literal r = scheme (rf_kind r) ++ SEP ++ d) as Hl by (by rw {1}Hr).
    exists x, b. rw Hl. split_and!; try done.
    + by rw Hs Hx Hafter -!app_assoc.
    + by exists (rf_kind r), (SEP ++ d).
    + rw Hafter in IH. apply chain_skip in IH; [|by destruct Hk as (_ & ? & _)].
      rw -Hafter in IH. eassert (_ = offset + str_len before + 3 + str_len d) as ->; [|exact IH].
      rw Hx !str_len_app. change (str_len SEP) with 3. lia.
  - rw Hs app_assoc. apply chain_extend. rw str_len_app. change (str_len SEP) with 3. by rw N.add_assoc.
Qed.

Lemma chain_sites offset rest spans :
  chain offset rest spans →
  Forall (λ s, offset ≤ s.1.2) spans ∧ StronglySorted (λ x y, x.2 ≤ y.1.2) spans
  ∧ Forall (λ s, s.1.2 < s.2) spans.
Proof.
  revert offset rest. induction spans as [|[[r start] stop] spans IH]; intros offset rest; [by repeat constructor|].
  intros (t & rest' & _ & (k & d & Hk) & -> & -> & Hc). apply IH in Hc as (H1 & H2 & H3).
  assert (0 < str_len (rf_literal r)) by (rw Hk str_len_app str_len_scheme; destruct k; cbn [scheme_len]; lia).
  split_and!; [constructor|constructor|constructor]; cbn [fst snd]; [lia| |done|done|lia|done].
  eapply Forall_impl; [exact H1|]. intros [[? ?] ?]. cbn. lia.
Qed.

(** C24. The references of a payload are exactly the words of the grammar, each
    once and in order: a span is reported where the payload holds [pr://] or
    [issue://] and digits that fit 64 bits, where no letter, digit, [_], [-],
    [.] or [+] precedes and no ASCII letter or digit follows; every such place is
    reported; and the spans are disjoint and ascending. *)
Theorem references_exact payload :
  (∀ x, x ∈ parse_reference_spans is_alphanumeric payload ↔ span_of payload x)
  ∧ StronglySorted (λ x y, x.2 ≤ y.1.2) (parse_reference_spans is_alphanumeric payload).
Proof.
  split; [|exact (proj1 (proj2 (chain_sites _ _ _ (spans_go_chain _ 0 payload))))].
  intros [[r start] stop]. unfold parse_reference_spans.
  rw (spans_go_elem _ [] payload); [|lia|by left]. setoid_rewrite reference_at_some. unfold span_of. split.
  - intros (u & v & -> & a & d & b & Hu & Hb & -> & Hk & Hr & -> & ->). exists a, d, b. rw app_nil_l in Hu.
    split_and!; try done. rw Hu {2}Hr. cbn [rf_literal]. by rw -!app_assoc.
  - intros (a & d & b & -> & Hb & Hk & Hr & -> & ->). exists (a ++ scheme (rf_kind r)), (d ++ b). split.
    + rw {1}Hr. cbn [rf_literal]. by rw -!app_assoc.
    + exists a, d, b. by split_and!.
Qed.
End grammar_exact.

Lemma references_exact_witness :
  span_of is_ascii_alphanumeric (lit "see pr://614, not xpr://1") ({| rf_kind := Pr; rf_number := 614; rf_literal := lit "pr://614" |}, 4, 12)
  ∧ (∀ x, x ∈ parse_reference_spans is_ascii_alphanumeric (lit "see pr://614, not xpr://1") →
     x = ({| rf_kind := Pr; rf_number := 614; rf_literal := lit "pr://614" |}, 4, 12)).
Proof.
  split.
  - apply (references_exact is_ascii_alphanumeric (λ _ _, eq_refl)). vm_compute. left.
  - intros x Hx. assert (span_of is_ascii_alphanumeric (lit "see pr://614, not xpr://1") x) as _
      by (by apply (references_exact is_ascii_alphanumeric (λ _ _, eq_refl))).
    vm_compute in Hx. by apply list_elem_of_singleton in Hx.
Defined.
