(* ===== verification/RefExpansionSafe.v ===== *)
(** * Reference expansion, its blocks and its pass

    The theorems on [RefExpansion.v] about what reaches the worker: no
    credential survives redaction, provider text stays inside its fence and its
    byte cap, and a pass replaces each reference once within the pass budget. *)

From S2P Require Import Prelude BTree Text Substring SecretShape RefExpansion.
From Stdlib Require Import ZifyBool.

(** ** Occurrences *)

Definition occurs (t s : rstr) : Prop := ∃ a b, s = a ++ t ++ b.

Lemma occurs_trans t s u : occurs t s → occurs s u → occurs t u.
Proof. intros (a & b & ->) (c & d & ->). exists (c ++ a), (b ++ d). by rw -!app_assoc. Qed.

(** A character the text does not hold separates the two sides. *)
Lemma occurs_sep t x c y : c ∉ t → occurs t (x ++ c :: y) → occurs t x ∨ occurs t y.
Proof.
  intros Hc (a & b & H). apply app_eq_app in H as (k & [[-> H]|[-> H]]).
  - apply app_eq_app in H as (m & [[-> H]|[-> _]]).
    + destruct m as [|e m]; [left; exists a, []; by rw !app_nil_r|]. exfalso.
      injection H as <- _. apply Hc. set_solver.
    + left. by exists a, m.
  - destruct k as [|e k]; [|injection H as <- ->; right; by exists k, b].
    destruct t as [|e t]; [left; exists x, []; by rw !app_nil_r|]. injection H as <- _. exfalso. apply Hc. left.
Qed.

Lemma contains_occurs t s : contains_str t s = true ↔ occurs t s.
Proof. apply contains_str_spec. Qed.

Lemma split_first c s :
  ∃ w ws, split c s = w :: ws ∧ c ∉ w ∧ (s = w ∨ ∃ r, s = w ++ c :: r).
Proof.
  induction s as [|x s (w & ws & E & Hc & Hs)]; cbn [split].
  { exists [], []. split_and!; [done|set_solver|by left]. }
  destruct (N.eqb_spec x c) as [->|Hx].
  { eexists [], _. split_and!; [done|set_solver|]. right. by exists s. }
  rw E. exists (x :: w), ws. split_and!; [done|set_solver|].
  destruct Hs as [->|[r ->]]; [by left|]. right. by exists r.
Qed.

Lemma split_occurs c s w : w ∈ split c s → occurs w s.
Proof.
  revert w. induction s as [|x s IH]; intros w; cbn [split].
  { intros ->%list_elem_of_singleton. by exists [], []. }
  assert (∀ w, occurs w s → occurs w (x :: s)) as Hx.
  { intros v (a & b & ->). by exists (x :: a), b. }
  destruct (N.eqb_spec x c).
  - intros [->|Hw]%elem_of_cons; [by exists [], (x :: s)|]. by apply Hx, IH.
  - destruct (split_first c s) as (p & ps & E & _ & Hs). rw E in IH. rw E.
    intros [->|Hw]%elem_of_cons.
    + destruct Hs as [->|[r ->]]; [exists [], []; by rw app_nil_r|by exists [], (c :: r)].
    + apply Hx, IH. by right.
Qed.

Lemma lines_occur s l : l ∈ lines s → occurs l s.
Proof.
  unfold lines. intros [(w & -> & Hw)%list_elem_of_fmap|Hl]%elem_of_app.
  - assert (w ∈ split 10 s) as Hs.
    { rw -(take_drop (length (split 10 s) - 1) (split 10 s)). set_solver. }
    apply split_occurs in Hs. eapply occurs_trans; [|exact Hs]. unfold strip_cr, pop.
    destruct (ends_with 13 w); [|exists [], []; by rw app_nil_r].
    exists [], (drop (length w - 1) w). cbn [app]. by rw take_drop.
  - destruct (list.last (split 10 s)) as [w|] eqn:El; cbn in Hl; [|set_solver].
    destruct (is_empty w); [set_solver|]. apply list_elem_of_singleton in Hl as ->.
    apply split_occurs with 10. by apply last_Some_elem_of in El.
Qed.

(** ** No secret survives redaction *)

(** A credential as it is written: a [secret://] reference, or a token prefix
    and sixteen token characters. *)
Definition secret_text (t : rstr) : Prop :=
  t = lit "secret://"
  ∨ ∃ prefix body, prefix ∈ REF_PREFIXES ∧ t = prefix ++ body ∧ length body = 16%nat
      ∧ Forall (λ c, is_token_char c = true) body.

Definition secret_char (c : N) : bool := is_token_char c || (c =? 58) || (c =? 47).

Lemma forallb_Forall f (s : rstr) : forallb f s = true → Forall (λ c, f c = true) s.
Proof. rw forallb_true. by rw Forall_forall. Qed.

Lemma prefix_chars p : p ∈ REF_PREFIXES → Forall (λ c, is_token_char c = true) p.
Proof.
  assert (forallb (forallb is_token_char) REF_PREFIXES = true) as H by by vm_compute.
  rw forallb_true in H. intros Hp. by apply forallb_Forall, H.
Qed.

Lemma secret_chars t : secret_text t → Forall (λ c, secret_char c = true) t.
Proof.
  intros [->|(p & b & Hp & -> & _ & Hb)]; [by apply forallb_Forall; vm_compute|].
  assert (∀ s, Forall (λ c, is_token_char c = true) s → Forall (λ c, secret_char c = true) s) as Hsub.
  { intros s Hs. eapply Forall_impl; [exact Hs|]. intros c Hc. unfold secret_char. by rw Hc. }
  apply Forall_app_2; apply Hsub; [by apply prefix_chars|done].
Qed.

Lemma secret_avoids t c : secret_text t → secret_char c = false → c ∉ t.
Proof. intros Ht Hc Hin. apply secret_chars in Ht. rw Forall_forall in Ht. specialize (Ht c Hin). congruence. Qed.

Lemma secret_head t : secret_text t → ∃ c t', t = c :: t' ∧ (c = 103 ∨ c = 115).
Proof.
  intros [->|(p & b & Hp & -> & _)]; [by eexists 115, _; split; [|right]|].
  assert (forallb (λ p, match p with c :: _ => (c =? 103) || (c =? 115) | [] => false end) REF_PREFIXES = true)
    as H by by vm_compute.
  rw forallb_true in H. specialize (H p Hp). destruct p as [|c p]; [done|]. exists c, (p ++ b). split; [done|lia].
Qed.

Lemma secret_char_word c : secret_char c = true → word_char c = true.
Proof.
  unfold secret_char, is_token_char, is_ascii_alphanumeric, is_ascii_digit, is_ascii_alphabetic, word_char, is_whitespace.
  lia.
Qed.

(** A text that starts with a secret is secret-shaped. *)
Lemma secret_shaped t b : secret_text t → is_secret_shaped (t ++ b) = true.
Proof.
  intros Ht. unfold is_secret_shaped, word_of. cbv zeta.
  rw take_while_app; [|intros c Hc; apply secret_char_word; by apply (proj1 (Forall_forall _ _) (secret_chars t Ht))].
  destruct Ht as [->|(p & body & Hp & -> & Hl & Hb)]; apply orb_true_iff; left; apply orb_true_iff; [right|left].
  - apply starts_with_spec. eauto.
  - unfold is_secret_token. apply existsb_true. exists p. split; [done|].
    rw -app_assoc. rw (proj2 (starts_with_spec p _)); [|by eexists]. rw drop_app_length take_while_app;
      [|by apply Forall_forall]. rw len_app. unfold len at 1. rw Hl. lia.
Qed.

(** What a turn takes off the text and what it pushes. *)
Lemma redact_step_spec rest pushed counted rest' :
  rest ≠ [] → redact_step rest = Done (pushed, counted, rest') →
  ∃ q, rest = q ++ rest' ∧ q ≠ []
    ∧ ((pushed = REDACTED ∧ counted = 1 ∧ 10 ∉ q)
       ∨ (∃ ch, q = [ch] ∧ pushed = [ch] ∧ counted = 0 ∧ is_secret_shaped rest = false)).
Proof.
  intros Hne. unfold redact_step. set (word := word_of rest).
  assert (10 ∉ word) as Hw10.
  { intros Hin. pose proof (take_while_all word_char rest) as Hall. rw Forall_forall in Hall. by apply Hall in Hin. }
  pose proof (take_while_split word_char rest) as Hrest. fold (word_of rest) in Hrest. fold word in Hrest.
  destruct (split_first 10 (drop (length word) rest)) as (line & ls & El & Hl10 & Hl). rw El. cbn [head from_option]. unfold id.
  cbv zeta. set (value := word_of (drop_while is_whitespace line)).
  destruct (eq_ignore_ascii_case word (lit "bearer") && negb (is_empty value)) eqn:Eb.
  - apply andb_true_iff in Eb as [Eb _].
    destruct (byte_drop rest _) as [r|] eqn:Ed; [|done]. intros H. injection H as <- <- <-.
    apply byte_drop_spec in Ed as (q & Hq & Hqlen). exists q. split; [done|]. split.
    + intros ->. assert (word = []) as E0.
      { destruct word as [|c w]; [done|]. rw str_len_cons in Hqlen. pose proof (len_utf8_pos c). cbn in Hqlen. lia. }
      by rw E0 in Eb.
    + left. split_and!; [done..|]. assert (∃ z, word ++ line = q ++ z) as [z Hz]; [|
        intros Hin; assert (10 ∈ word ++ line) as Hin' by (rw Hz; set_solver); set_solver].
      assert (∃ y, rest = (word ++ line) ++ y) as [y Hy].
      { destruct Hl as [E|[r' E]]; rw E in Hrest; [exists []; by rw app_nil_r|exists (10 :: r')].
        by rw -app_assoc. }
      assert (str_len q ≤ str_len (word ++ line)) as Hle.
      { rw Hqlen str_len_app.
        assert (line = take_while is_whitespace line ++ drop_while is_whitespace line) as E1.
        { clear. induction line as [|c l IH]; [done|]. cbn. destruct (is_whitespace c); [cbn; by f_equal|done]. }
        pose proof (take_while_split word_char (drop_while is_whitespace line)) as E2.
        fold (word_of (drop_while is_whitespace line)) in E2. fold value in E2.
        apply (f_equal str_len) in E1, E2. rw str_len_app in E1. rw str_len_app in E2. pose proof (str_len_ge (take_while is_whitespace line)). lia. }
      rw Hy in Hq. apply app_eq_app in Hq as (m & [[E _]|[E _]]); [by exists m|].
      rw E str_len_app in Hle. destruct m as [|c m]; [exists []; by rw E !app_nil_r|].
      rw str_len_cons in Hle. pose proof (len_utf8_pos c). lia.
  - destruct (is_secret_shaped rest) eqn:Es.
    + intros H. injection H as <- <- <-. exists word. split; [done|]. split; [|by left].
      intros E0. subst word. unfold is_secret_shaped in Es. rw E0 in Es. by vm_compute in Es.
    + destruct rest as [|ch r]; [done|]. intros H. injection H as <- <- <-. exists [ch].
      split_and!; [done..|]. right. by exists ch.
Qed.

(** What is kept up to the first redaction starts the text. *)
Lemma redact_kept fuel rest out n :
  redact_go fuel rest = Done (out, n) →
  ∃ k tail r, out = k ++ tail ∧ rest = k ++ r ∧ (tail = [] ∨ ∃ u, tail = 91 :: u).
Proof.
  revert rest out n. induction fuel as [|fuel IH]; intros rest out n.
  { destruct rest; [|done]. intros [= <- <-]. exists [], [], []. split_and!; [done..|by left]. }
  cbn [redact_go]. destruct rest as [|c rest]; [intros [= <- <-]; exists [], [], []; split_and!; [done..|by left]|].
  destruct (redact_step (c :: rest)) as [[[p m] rest']| |] eqn:E; [|done..]. cbn [outcome_bind].
  destruct (redact_go fuel rest') as [[o m']| |] eqn:Eg; [|done..]. cbn [outcome_bind]. intros [= <- <-].
  apply redact_step_spec in E as (q & Hq & _ & [(-> & _)|(ch & -> & -> & _)]); [| |done].
  - eexists [], _, (c :: rest). split_and!; [done..|]. right. by eexists.
  - apply IH in Eg as (k & tail & r & -> & -> & Ht). exists (ch :: k), tail, r. by split_and!.
Qed.

Lemma redact_no_secret fuel rest out n t :
  redact_go fuel rest = Done (out, n) → secret_text t → ¬ occurs t out.
Proof.
  intros H Ht. destruct (secret_head t Ht) as (h & t' & Et & Hh). revert rest out n H.
  induction fuel as [|fuel IH]; intros rest out n H (a & b & Ho).
  { destruct rest; [|done]. injection H as <- <-. rw Et in Ho. by destruct a. }
  pose proof (redact_kept _ _ _ _ H) as (k & tail & r & Hk & Hr & Htail).
  cbn [redact_go] in H. destruct rest as [|c rest]; [injection H as <- <-; rw Et in Ho; by destruct a|].
  destruct (redact_step (c :: rest)) as [[[p m] rest']| |] eqn:E; [|done..]. cbn [outcome_bind] in H.
  destruct (redact_go fuel rest') as [[o m']| |] eqn:Eg; [|done..]. cbn [outcome_bind] in H. injection H as Hout _.
  specialize (IH _ _ _ Eg).
  apply redact_step_spec in E as (q & Hq & _ & [(-> & _)|(ch & -> & -> & _ & Hns)]); [| |done].
  - rw -Hout in Ho. apply app_eq_app in Ho as (z & [[E1 E2]|[E1 E2]]); [|by apply IH; exists z, b].
    assert (h ∉ REDACTED) as Hn by (destruct Hh as [-> | ->]; apply (bool_decide_unpack _); by vm_compute).
    destruct z as [|h' z].
    + apply IH. exists [], b. by rw E2.
    + rw Et in E2. injection E2 as -> _. apply Hn. rw E1. set_solver.
  - destruct a as [|x a].
    + assert (∃ z, k = t ++ z) as [z Hz].
      { rw Hk app_nil_l in Ho. apply app_eq_app in Ho as (z & [[E1 E2]|[E1 E2]]); [by exists z|].
        destruct z as [|e z]; [exists []; by rw app_nil_r E1 app_nil_r|]. exfalso.
        destruct Htail as [-> |[u ->]]; [done|]. injection E2 as <- _.
        apply (secret_avoids t 91 Ht eq_refl). rw E1. set_solver. }
      rw Hr Hz -app_assoc (secret_shaped t _ Ht) in Hns. done.
    + rw -Hout in Ho. injection Ho as _ Ho. apply IH. by exists a, b.
Qed.

(** A text that ends its line still does. *)
Lemma redact_newline fuel s out n :
  redact_go fuel (s ++ [10]) = Done (out, n) → ∃ o, out = o ++ [10].
Proof.
  revert s out n. induction fuel as [|fuel IH]; intros s out n H; [by destruct s|].
  cbn [redact_go] in H. destruct (s ++ [10]) as [|c rest] eqn:Es; [by destruct s|]. rw -Es in H.
  destruct (redact_step (s ++ [10])) as [[[p m] rest']| |] eqn:E; [|done..]. cbn [outcome_bind] in H.
  destruct (redact_go fuel rest') as [[o m']| |] eqn:Eg; [|done..]. cbn [outcome_bind] in H. injection H as <- _.
  apply redact_step_spec in E as (q & Hq & _ & Hc); [|by destruct s].
  destruct rest' as [|x rest' _] using rev_ind.
  - rw app_nil_r in Hq. destruct Hc as [(_ & _ & Hn)|(ch & -> & -> & _)]; [rw -Hq in Hn; set_solver|].
    assert (ch = 10) as ->. { destruct s as [|? [|? ?]]; [by injection Hq|done|done]. }
    destruct fuel; cbn in Eg; injection Eg as <- _; by exists [].
  - rw app_assoc in Hq. apply app_inj_tail in Hq as [-> <-]. apply IH in Eg as [o' ->]. exists (p ++ o').
    by rw app_assoc.
Qed.

(** ** The text of a block *)

Lemma dec_avoids n c : is_ascii_digit c = false → c ∉ dec n.
Proof. intros Hc Hin. pose proof (dec_digits n) as H. rw Forall_forall in H. apply H in Hin. congruence. Qed.

Lemma done_inj {A} (x y : A) : Done x = Done y → x = y.
Proof. by intros [= ->]. Qed.

Lemma block_text_newline fields block : block_text fields = Done block → ∃ s, block = s ++ [10].
Proof.
  assert (∀ x y, (y = [] ∨ ∃ s, y = s ++ [10]) → ∃ s, writeln x ++ y = s ++ [10]) as Hw.
  { intros x y [->|[s ->]]; [exists x; by rw app_nil_r|]. exists (writeln x ++ s). by rw app_assoc. }
  assert (∀ n y, (y = [] ∨ ∃ s, y = s ++ [10]) → announce n ++ y = [] ∨ ∃ s, announce n ++ y = s ++ [10]) as Ha.
  { intros n y Hy. unfold announce. destruct (0 <? n); [right; by apply Hw|]. by destruct Hy as [-> |[s ->]]; [left|right; exists s]. }
  destruct fields as [pr|issue]; cbn [block_text]; intros H.
  - destruct (redacted_line (prf_title pr)) as [[t nt]| |]; [|done..]. cbn [outcome_bind] in H.
    destruct (redacted_line (prf_labels pr)) as [[l nl]| |]; [|done..]. cbn [outcome_bind] in H.
    destruct (redacted_names (prf_failing_checks pr)) as [[ns nn]| |]; [|done..]. cbn [outcome_bind] in H.
    apply done_inj in H as <-.
    do 9 (apply Hw; right). destruct (is_empty (prf_failing_checks pr)); [rw app_nil_l|apply Hw; right];
      apply Hw, Ha; (destruct (is_empty _); [by left|right; by eexists]).
  - destruct (redacted_line (isf_title issue)) as [[t nt]| |]; [|done..]. cbn [outcome_bind] in H.
    destruct (redacted_line (isf_labels issue)) as [[l nl]| |]; [|done..]. cbn [outcome_bind] in H.
    apply done_inj in H as <-. do 5 (apply Hw; right). apply Hw. rw -(app_nil_r (announce _)). apply Ha. by left.
Qed.

Lemma announce_no_secret n t : secret_text t → ¬ occurs t (announce n).
Proof.
  intros Ht Ho. unfold announce in Ho. destruct (secret_head t Ht) as (h & t' & Et & Hh).
  destruct (0 <? n); [|destruct Ho as (a & b & E); rw Et in E; by destruct a].
  assert (∀ c, secret_char c = false → c ∉ t) as Hav by (intros c; by apply secret_avoids).
  unfold writeln in Ho. apply occurs_sep in Ho as [Ho|(a & b & E)]; [|rw Et in E; by destruct a|by apply Hav].
  change (lit "redacted (") with (lit "redacted " ++ 40 :: []) in Ho. rw -app_assoc in Ho.
  assert (∀ s, h ∉ s → ¬ occurs t s) as Hno.
  { intros s Hs (a & b & ->). apply Hs. rw Et. set_solver. }
  apply occurs_sep in Ho as [Ho|Ho]; [| |by apply Hav].
  { revert Ho. apply Hno. destruct Hh as [-> | ->]; apply (bool_decide_unpack _); by vm_compute. }
  change ([] ++ ?x) with x in Ho. change (lit " instance(s))") with (32 :: lit "instance(s))") in Ho.
  apply occurs_sep in Ho as [Ho|Ho]; [| |by apply Hav].
  { revert Ho. apply Hno. apply dec_avoids. by destruct Hh as [-> | ->]. }
  change (lit "instance(s))") with (lit "in" ++ 115 :: lit "tance(s))") in Ho.
  assert (contains_str t (lit "instance(s))") = true) as Hc by by apply contains_occurs.
  clear -Hc Ht. destruct Ht as [->|(p & b & Hp & -> & Hl & _)]; [by vm_compute in Hc|].
  apply contains_str_spec in Hc as (x & y & E). apply (f_equal length) in E. rw !length_app Hl in E.
  change (length (lit "instance(s))")) with 12%nat in E. lia.
Qed.

Lemma unfenced_no_secret fields raw n t :
  build_block_unfenced fields = Done (raw, n) → secret_text t → ¬ occurs t raw.
Proof.
  unfold build_block_unfenced. destruct (block_text fields) as [block| |] eqn:Eb; [|done..]. cbn [outcome_bind].
  destruct (redact_secrets block) as [[red m]| |] eqn:Er; [|done..]. cbn [outcome_bind]. intros H Ht.
  apply done_inj, pair_eq in H as [<- <-]. apply block_text_newline in Eb as [s ->].
  pose proof (redact_no_secret _ _ _ _ t Er Ht) as Hn. apply redact_newline in Er as [o ->].
  rw -app_assoc. intros Ho. apply occurs_sep in Ho as [Ho|Ho]; [| |by apply secret_avoids].
  - apply Hn. eapply occurs_trans; [exact Ho|]. by exists [], [10].
  - by eapply announce_no_secret.
Qed.

(** ** The fence *)

Lemma max_run_ge cur s : cur ≤ max_run_go cur s.
Proof. revert cur. induction s as [|c s IH]; intros cur; cbn [max_run_go]; [lia|]. destruct (c =? 96); [specialize (IH (cur + 1)); lia|lia]. Qed.

Lemma max_run_replicate cur k s : cur + N.of_nat k ≤ max_run_go cur (replicate k 96 ++ s).
Proof.
  revert cur. induction k as [|k IH]; intros cur.
  - cbn [replicate app]. pose proof (max_run_ge cur s). lia.
  - cbn [replicate app max_run_go]. rw N.eqb_refl. specialize (IH (cur + 1)). lia.
Qed.

Lemma max_run_mono cur cur' s : cur ≤ cur' → max_run_go cur s ≤ max_run_go cur' s.
Proof.
  revert cur cur'. induction s as [|c s IH]; intros cur cur' H; cbn [max_run_go]; [done|].
  destruct (c =? 96); [apply IH; lia|lia].
Qed.

(** A run of backticks is no longer than the longest. *)
Lemma max_run_occurs k s : occurs (replicate k 96) s → N.of_nat k ≤ max_run_go 0 s.
Proof.
  intros (a & b & ->). assert (∀ cur, N.of_nat k ≤ max_run_go cur (a ++ replicate k 96 ++ b)) as H; [|apply H].
  induction a as [|c a IH]; intros cur; rw -?app_comm_cons; cbn [max_run_go].
  - pose proof (max_run_replicate cur k b). rw app_nil_l. lia.
  - destruct (c =? 96); [apply IH|]. specialize (IH 0). lia.
Qed.

(** The capped content: the content, or a prefix of it, the marker and the
    announcement it ended in. *)
Lemma cap_shape raw header_len fence_len :
  (enforce_reference_cap raw header_len fence_len = raw
   ∧ header_len + str_len raw + fence_len * 2 + 16 ≤ MAX_REFERENCE_CHARS)
  ∨ ∃ body tail ann, raw = body ++ tail ∧ announcement_of raw = ann
      ∧ str_len body ≤ MAX_REFERENCE_CHARS - (header_len + fence_len * 2 + 16)
                       - from_option (λ line, str_len line + 1) 0 ann
      ∧ enforce_reference_cap raw header_len fence_len
        = body ++ 8230 :: lit "[truncated]" ++ from_option (λ line, 10 :: line ++ [10]) [] ann.
Proof.
  unfold enforce_reference_cap, saturating_sub. change (str_len TRUNCATION_SUFFIX) with 14.
  replace (header_len + str_len raw + fence_len * 2 + 14 + 2) with (header_len + str_len raw + fence_len * 2 + 16) by lia.
  replace (header_len + fence_len * 2 + 14 + 2) with (header_len + fence_len * 2 + 16) by lia.
  destruct (N.ltb_spec MAX_REFERENCE_CHARS (header_len + str_len raw + fence_len * 2 + 16)); [right|by left].
  set (cap := _ - from_option _ 0 _). destruct (byte_prefix_prefix raw (N.of_nat (floor_boundary raw (N.to_nat cap)))) as [tail Ht].
  exists (byte_prefix raw (N.of_nat (floor_boundary raw (N.to_nat cap)))), tail, (announcement_of raw).
  split_and!; try done.
  - pose proof (byte_prefix_len raw (N.of_nat (floor_boundary raw (N.to_nat cap)))).
    pose proof (floor_boundary_spec raw (N.to_nat cap)) as (? & _). lia.
  - set (body := byte_prefix _ _). cbv zeta.
    assert (∀ x, ends_with 10 (x ++ TRUNCATION_SUFFIX) = false) as He.
    { intros x. unfold ends_with. change TRUNCATION_SUFFIX with ((8230 :: lit "[truncated") ++ [93]).
      by rw app_assoc last_snoc. }
    unfold announcement_of. destruct (list.last (lines raw)) as [line|]; [|cbn [from_option is_empty]; by rw app_nil_r].
    destruct (starts_with (lit "redacted (") line) eqn:Es; [|cbn [from_option is_empty]; by rw app_nil_r].
    cbn [from_option]. unfold id. apply starts_with_spec in Es as [z ->]. cbn [is_empty lit fmap list_fmap app String.list_ascii_of_string].
    rw He. unfold writeln. by rw -!app_assoc.
Qed.

Lemma announcement_occurs raw line : announcement_of raw = Some line → occurs line raw.
Proof.
  unfold announcement_of. destruct (list.last (lines raw)) as [l|] eqn:E; [|done].
  destruct (starts_with _ l); [|done]. intros [= <-]. apply lines_occur. by apply last_Some_elem_of in E.
Qed.

(** What the capped content holds, the content holds. *)
Lemma cap_occurs t raw header_len fence_len :
  8230 ∉ t → 10 ∉ t → occurs t (enforce_reference_cap raw header_len fence_len) →
  occurs t raw ∨ occurs t (lit "[truncated]").
Proof.
  intros H1 H2. destruct (cap_shape raw header_len fence_len) as [[-> _]|(body & tail & ann & Hraw & Ha & _ & ->)]; [by left|].
  intros [Ho|Ho]%occurs_sep; [| |done].
  { left. eapply occurs_trans; [exact Ho|]. by exists [], tail. }
  destruct ann as [line|]; cbn [from_option] in Ho; [|rw app_nil_r in Ho; by right].
  apply occurs_sep in Ho as [Ho|Ho]; [by right| |done]. left.
  apply occurs_sep in Ho as [Ho|(a & b & Ho)]; [| |done].
  - eapply occurs_trans; [exact Ho|]. by apply announcement_occurs.
  - destruct a, t; try done. by exists [], raw.
Qed.

(** The announcement the content ends in, in bytes. *)
Definition announcement_len (raw : rstr) : N := from_option str_len 0 (announcement_of raw).

Lemma cap_len raw header_len fence_len :
  header_len + fence_len * 2 + 1 + str_len (enforce_reference_cap raw header_len fence_len)
  ≤ N.max MAX_REFERENCE_CHARS (header_len + fence_len * 2 + announcement_len raw + 17).
Proof.
  unfold announcement_len.
  destruct (cap_shape raw header_len fence_len) as [[-> H]|(body & tail & ann & _ & -> & Hb & ->)]; [lia|].
  rw !str_len_app str_len_cons str_len_app. change (len_utf8 8230) with 3. change (str_len (lit "[truncated]")) with 11.
  destruct ann as [line|]; cbn [from_option] in Hb |- *.
  - rw str_len_cons str_len_app. change (len_utf8 10) with 1. change (str_len [10]) with 1. lia.
  - change (str_len []) with 0. lia.
Qed.

(** ** Redaction returns on texts whose white space is ASCII *)

Definition ascii_space (s : rstr) : Prop := Forall (λ c, is_whitespace c = true → c < 128) s.

Lemma str_len_whitespace s : ascii_space s → Forall (λ c, is_whitespace c = true) s → str_len s = len s.
Proof.
  intros H1 H2. apply str_len_ascii. unfold is_ascii, ascii_space in *. rw !Forall_forall in H1 H2. apply Forall_forall. auto.
Qed.

Lemma redact_step_total rest : ascii_space rest → ∃ x, redact_step rest = Done x.
Proof.
  intros Hs. unfold redact_step. set (word := word_of rest).
  pose proof (take_while_split word_char rest) as Hrest. fold (word_of rest) in Hrest. fold word in Hrest.
  destruct (split_first 10 (drop (length word) rest)) as (line & ls & El & _ & Hl). rw El. cbn [head from_option]. unfold id.
  cbv zeta. set (value := word_of (drop_while is_whitespace line)).
  destruct (_ && _); [|destruct (is_secret_shaped rest); [by eexists|destruct rest; by eexists]].
  assert (line = take_while is_whitespace line ++ value ++ drop (length value) (drop_while is_whitespace line)) as E1.
  { unfold value, word_of. rw -take_while_split. clear. induction line as [|c l IH]; [done|]. cbn.
    destruct (is_whitespace c); [cbn; by f_equal|done]. }
  assert (∃ y, rest = (word ++ take_while is_whitespace line ++ value) ++ y) as [y Hy].
  { assert (∃ y, drop (length word) rest = line ++ y) as [y Hy].
    { destruct Hl as [-> |[r ->]]; [exists []; by rw app_nil_r|by exists (10 :: r)]. }
    rw Hy E1 in Hrest. eexists. rw {1}Hrest -!app_assoc. done. }
  assert (len (take_while is_whitespace line) = str_len (take_while is_whitespace line)) as ->.
  { symmetry. apply str_len_whitespace; [|apply take_while_all]. unfold ascii_space in *.
    rw Hy !Forall_app in Hs. by destruct Hs as ((_ & ? & _) & _). }
  rw -N.add_assoc -!str_len_app {1}Hy byte_drop_app. by eexists.
Qed.

Lemma redact_total fuel rest :
  (length rest ≤ fuel)%nat → ascii_space rest → ∃ out n, redact_go fuel rest = Done (out, n) ∧ ascii_space out.
Proof.
  revert rest. induction fuel as [|fuel IH]; intros rest Hf Hs.
  { destruct rest; [|cbn in Hf; lia]. by exists [], 0. }
  cbn [redact_go]. destruct rest as [|c rest]; [by exists [], 0|].
  destruct (redact_step_total (c :: rest) Hs) as [[[p m] rest'] E]. rw E. cbn [outcome_bind].
  apply redact_step_spec in E as (q & Hq & Hne & Hc); [|done]. unfold ascii_space in *. rw Hq in Hs.
  apply Forall_app in Hs as [Hsq Hs]. destruct (IH rest') as (o & n & -> & Ho); [|done|].
  { apply (f_equal length) in Hq. rw length_app in Hq. destruct q; [done|]. cbn in Hq, Hf. lia. }
  cbn [outcome_bind]. eexists _, _. split; [done|]. apply Forall_app_2; [|done].
  destruct Hc as [(-> & _)|(ch & -> & -> & _)]; [|done]. repeat (constructor; [done|]). done.
Qed.

(** ** Substituting at the spans *)

(** The texts with the words between them. *)
Fixpoint weave (texts words : list rstr) (tail : rstr) : rstr :=
  match texts, words with
  | t :: texts, w :: words => t ++ w ++ weave texts words tail
  | _, _ => tail
  end.

Lemma substitute_app out l k :
  substitute out (l ++ k) = let! out := substitute out l in substitute out k.
Proof.
  revert out. induction l as [|[[a b] r] l IH]; intros out; [done|]. cbn [app substitute].
  destruct (replace_range out a b r); [apply IH|done..].
Qed.

Lemma replace_range_at a w b r :
  replace_range (a ++ w ++ b) (str_len a) (str_len a + str_len w) r = Done (a ++ r ++ b).
Proof.
  unfold replace_range. rw (proj2 (is_char_boundary_spec _ _)); [|by exists a, (w ++ b)].
  rw -str_len_app {1}app_assoc byte_drop_app byte_prefix_app.
  destruct (N.leb_spec (str_len a) (str_len (a ++ w))) as [_|H]; [done|]. rw str_len_app in H. lia.
Qed.

(** Right to left, every span still holds its literal when it is replaced. *)
Lemma substitute_chain pre rest spans subs :
  chain (str_len pre) rest spans → subs.*1 = (λ s, (s.1.2, s.2)) <$> spans →
  ∃ texts tail, length texts = length spans
    ∧ rest = weave texts ((λ s, rf_literal s.1.1) <$> spans) tail
    ∧ substitute (pre ++ rest) (reverse subs) = Done (pre ++ weave texts subs.*2 tail).
Proof.
  revert pre rest subs. induction spans as [|[[r start] stop] spans IH]; intros pre rest subs Hc Hs.
  { destruct subs; [|done]. by exists [], rest. }
  destruct subs as [|[[a b] rep] subs]; [done|]. cbn [fmap list_fmap fst snd] in Hs. injection Hs as -> -> Hs.
  destruct Hc as (t & rest' & -> & _ & -> & -> & Hc).
  destruct (IH (pre ++ t ++ rf_literal r) rest' subs) as (texts & tail & Hl & Hr & Hsub); [|done|].
  { by rw !str_len_app N.add_assoc. }
  exists (t :: texts), tail. split_and!.
  - cbn. by rw Hl.
  - cbn [fmap list_fmap weave fst snd]. by rw -Hr.
  - rw reverse_cons substitute_app. rw -!app_assoc in Hsub. rw Hsub. cbn [outcome_bind substitute].
    rw (app_assoc pre) -str_len_app replace_range_at. cbn [outcome_bind substitute fmap list_fmap weave snd].
    by rw -app_assoc.
Qed.

Lemma span_unique (spans : list (Reference * N * N)) x y :
  StronglySorted (λ x y, x.2 ≤ y.1.2) spans → Forall (λ s, s.1.2 < s.2) spans →
  x ∈ spans → y ∈ spans → x.1.2 = y.1.2 → x = y.
Proof.
  induction 1 as [|z l Hs IH Hz]; intros Hlt; [set_solver|]. apply Forall_cons in Hlt as [Hlz Hlt].
  rw Forall_forall in Hz. rw {1}Forall_forall in Hlt.
  intros [->|Hx]%elem_of_cons [->|Hy]%elem_of_cons E; [done| | |apply IH; try done; by apply Forall_forall].
  - specialize (Hz _ Hy). lia.
  - specialize (Hz _ Hx). lia.
Qed.

(** The substitutions of all spans, sorted, are in the order of the spans. *)
Lemma sorted_sites offset rest spans (subs : list (N * N * rstr)) :
  chain offset rest spans → subs.*1 ≡ₚ (λ s, (s.1.2, s.2)) <$> spans →
  (reverse (stable_sort later subs)).*1 = (λ s, (s.1.2, s.2)) <$> spans.
Proof.
  intros (_ & Hs & Hlt)%chain_sites Hp. set (R := λ a b : N * N, a.1 ≤ b.1).
  assert (Transitive later) by (unfold later; intros ???; lia).
  assert (Total later) by (unfold later; intros ??; lia).
  assert ((reverse (stable_sort later subs)).*1 ≡ₚ (λ s, (s.1.2, s.2)) <$> spans) as Hp'.
  { by rw reverse_Permutation stable_sort_Permutation. }
  apply (StronglySorted_unique_strong R).
  - intros x y Hx Hy H1 H2. rw Hp' in Hx.
    apply list_elem_of_fmap in Hx as (x' & -> & Hx), Hy as (y' & -> & Hy).
    rw (span_unique spans x' y'); [done..|]. unfold R in *. cbn in *. lia.
  - clear Hp Hp'. pose proof (stable_sort_sorted later subs) as Hst.
    induction Hst as [|x l Hl IH Hx]; [constructor|].
    rw reverse_cons fmap_app. apply StronglySorted_app_2; [|done|by repeat constructor].
    intros a b Ha Hb. apply list_elem_of_fmap in Ha as (a' & -> & Ha), Hb as (b' & -> & Hb).
    rw elem_of_reverse in Ha. apply list_elem_of_singleton in Hb as ->. rw Forall_forall in Hx. by apply Hx.
  - clear Hp Hp'. induction Hs as [|x l Hl IH Hx]; [constructor|]. apply Forall_cons in Hlt as [Hlx Hlt].
    cbn [fmap list_fmap]. constructor; [by apply IH|]. apply Forall_fmap. eapply Forall_impl; [exact Hx|].
    intros y Hy. unfold R. cbn in *. lia.
  - done.
Qed.

(** ** Every span is substituted once *)

Definition sites (spans : list (Reference * N * N)) : list (N * N) := (λ s, (s.1.2, s.2)) <$> spans.

Lemma sites_partition (literals : list rstr) spans :
  NoDup literals → Forall (λ s, rf_literal s.1.1 ∈ literals) spans →
  (literals ≫= sites_of spans) ≡ₚ sites spans.
Proof.
  revert spans. induction literals as [|l ls IH]; intros spans Hnd Hcov.
  { destruct spans; [done|]. apply Forall_cons in Hcov as [H _]. set_solver. }
  apply NoDup_cons in Hnd as [Hl Hnd]. cbn [mbind list_bind].
  set (P := λ s : Reference * N * N, bool_decide (rf_literal s.1.1 = l)).
  assert (spans ≡ₚ List.filter P spans ++ List.filter (λ s, negb (P s)) spans) as Hsplit.
  { clear. induction spans as [|x spans IH]; [done|]. cbn [List.filter]. destruct (P x); cbn [negb app].
    - by rw {1}IH.
    - by rw {1}IH Permutation_middle. }
  assert (ls ≫= sites_of spans = ls ≫= sites_of (List.filter (λ s, negb (P s)) spans)) as ->.
  { clear -Hl. induction ls as [|k ls IH]; [done|]. cbn [mbind list_bind]. f_equal; [|apply IH; set_solver].
    unfold sites_of. f_equal. rw filter_filter. apply List.filter_ext. intros x. unfold P.
    repeat case_bool_decide; try done. set_solver. }
  rw IH; [|done|].
  - unfold sites_of at 1. fold P. unfold sites. by rw -fmap_app -Hsplit.
  - apply Forall_forall. intros x [Hx Hn]%elem_of_filter_bool. rw Forall_forall in Hcov.
    specialize (Hcov x Hx). unfold P in Hn. case_bool_decide; [done|]. set_solver.
Qed.

Lemma dedupe_spec unique refs :
  NoDup (rf_literal <$> unique) →
  NoDup (rf_literal <$> dedupe unique refs)
  ∧ (∀ r, r ∈ dedupe unique refs → r ∈ unique ∨ r ∈ refs)
  ∧ (∀ r, r ∈ unique ∨ r ∈ refs → rf_literal r ∈ rf_literal <$> dedupe unique refs).
Proof.
  revert unique. induction refs as [|r refs IH]; intros unique Hnd; cbn [dedupe].
  { split_and!; [done|set_solver|]. intros x [Hx|Hx]; [by apply list_elem_of_fmap_2|set_solver]. }
  destruct (existsb _ unique) eqn:E.
  - apply existsb_true in E as (k & Hk & Ek). apply bool_decide_eq_true in Ek.
    destruct (IH unique Hnd) as (H1 & H2 & H3). split_and!; [done|set_solver|].
    intros x [Hx|[->|Hx]%elem_of_cons]; [by apply H3; left| |by apply H3; right]. rw -Ek. apply H3. by left.
  - destruct (IH (unique ++ [r])) as (H1 & H2 & H3).
    { rw fmap_app. apply NoDup_app. split_and!; [done| |by apply NoDup_singleton].
      intros l (k & -> & Hk)%list_elem_of_fmap Hl. apply list_elem_of_singleton in Hl.
      rw existsb_false in E. specialize (E k Hk). by apply bool_decide_eq_false in E. }
    split_and!; [done| |]; intros x Hx.
    + apply H2 in Hx. set_solver.
    + apply H3. set_solver.
Qed.

(** ** The pass budget *)

(** The text a budget notice attaches, and the bytes a replacement costs. *)
Definition BUDGET_TAIL : rstr :=
  lit " [budget-exceeded; the payload is still delivered " ++ [EM_DASH]
  ++ lit " the pass budget was reached before this reference could be expanded]".

Definition cost (replacement : rstr) : N :=
  if ends_with_str BUDGET_TAIL replacement then 0 else str_len replacement.

Definition inlined (replacements : list rstr) : N := foldr (λ r n, cost r + n) 0 replacements.

Lemma cost_notice literal : cost (budget_exceeded_notice literal) = 0.
Proof. unfold cost. rw (proj2 (ends_with_str_spec _ _)); [done|]. by exists literal. Qed.

Lemma cost_le r : cost r ≤ str_len r.
Proof. unfold cost. destruct (ends_with_str _ _); lia. Qed.

Lemma inlined_app l k : inlined (l ++ k) = inlined l + inlined k.
Proof. induction l as [|r l IH]; [done|]. cbn [app inlined foldr] in *. unfold inlined in *. lia. Qed.

#[global] Instance inlined_perm : Proper ((≡ₚ) ==> (=)) inlined.
Proof. intros l k. induction 1; cbn [inlined foldr] in *; unfold inlined in *; lia. Qed.

Lemma charge_sites_spec literal sub sites chars subs chars' hit :
  charge_sites literal sub sites chars = (subs, chars', hit) → chars ≤ MAX_PASS_CHARS →
  subs.*1 = sites ∧ chars + inlined subs.*2 ≤ chars' ∧ chars' ≤ MAX_PASS_CHARS
  ∧ Forall (λ x, x.2 = sub ∨ (hit = true ∧ x.2 = budget_exceeded_notice literal)) subs.
Proof.
  revert chars subs chars' hit. induction sites as [|[a b] sites IH]; intros chars subs chars' hit.
  { intros [= <- <- <-] H. split_and!; [done|cbn; lia|done|constructor]. }
  cbn [charge_sites]. destruct (N.ltb_spec MAX_PASS_CHARS (chars + str_len sub)) as [Hlt|Hge].
  - destruct (charge_sites literal sub sites chars) as [[ss cc] h] eqn:E. intros [= <- <- <-] H.
    destruct (IH _ _ _ _ E H) as (H1 & H2 & H3 & H4). cbn [fmap list_fmap fst snd inlined foldr].
    rw cost_notice. split_and!; [by rw H1|exact H2|done|]. constructor; [by right|].
    eapply Forall_impl; [exact H4|]. intros x [Hx|[_ Hx]]; [by left|by right].
  - destruct (charge_sites literal sub sites (chars + str_len sub)) as [[ss cc] h] eqn:E. intros [= <- <- <-] H.
    destruct (IH _ _ _ _ E Hge) as (H1 & H2 & H3 & H4). cbn [fmap list_fmap fst snd].
    split_and!; [by rw H1| |done|constructor; [by left|done]].
    change (inlined (sub :: ss.*2)) with (cost sub + inlined ss.*2). pose proof (cost_le sub). lia.
Qed.

(** ** A provider whose texts hold ASCII white space only *)

Definition fields_ascii (fields : ExpandedFields) : Prop :=
  match fields with
  | FieldsPr pr =>
      ascii_space (prf_title pr) ∧ ascii_space (prf_state pr) ∧ ascii_space (prf_author pr)
      ∧ ascii_space (prf_labels pr) ∧ ascii_space (prf_url pr) ∧ ascii_space (prf_head_sha pr)
      ∧ ascii_space (prf_base_oid pr) ∧ Forall ascii_space (prf_failing_checks pr)
      ∧ Forall ascii_space (prf_convergence_reasons pr)
  | FieldsIssue issue =>
      ascii_space (isf_title issue) ∧ ascii_space (isf_state issue) ∧ ascii_space (isf_author issue)
      ∧ ascii_space (isf_labels issue) ∧ ascii_space (isf_url issue)
  end.

Lemma ascii_space_app s t : ascii_space (s ++ t) ↔ ascii_space s ∧ ascii_space t.
Proof. apply Forall_app. Qed.

Lemma ascii_space_check s : forallb (λ c, negb (is_whitespace c) || (c <? 128)) s = true → ascii_space s.
Proof.
  rw forallb_true. intros H. apply Forall_forall. intros c Hc Hw. specialize (H c Hc). rw Hw in H. cbn in H. lia.
Qed.

Lemma ascii_space_sanitize s : ascii_space s → ascii_space (sanitize_line s).
Proof.
  intros H. apply Forall_fmap. eapply Forall_impl; [exact H|]. intros c Hc. cbn.
  destruct (_ || _); [lia|done].
Qed.

Lemma ascii_space_cap s n : ascii_space s → ascii_space (cap_value s n).
Proof.
  intros H. unfold cap_value. destruct (len s <=? n); [done|]. apply ascii_space_app. split.
  - by apply Forall_take.
  - by apply ascii_space_check.
Qed.

Lemma ascii_space_dec n : ascii_space (dec n).
Proof.
  eapply Forall_impl; [apply dec_digits|]. intros c Hc _. unfold is_ascii_digit in Hc. lia.
Qed.

Lemma ascii_space_join sep l : ascii_space sep → Forall ascii_space l → ascii_space (join sep l).
Proof.
  intros Hs. induction 1 as [|w l Hw Hl IH]; [constructor|]. cbn [join]. destruct l; [done|].
  by apply ascii_space_app; split; [|apply ascii_space_app].
Qed.

Create HintDb ascii_space.
#[local] Hint Resolve ascii_space_sanitize ascii_space_cap ascii_space_dec ascii_space_join : ascii_space.
#[local] Hint Extern 1 (ascii_space (lit _)) => apply ascii_space_check; by vm_compute : ascii_space.
#[local] Hint Extern 1 (ascii_space [10]) => by apply ascii_space_check : ascii_space.

Ltac solve_ascii :=
  repeat (apply ascii_space_app; split);
  eauto with ascii_space.

Lemma ascii_space_writeln s : ascii_space s → ascii_space (writeln s).
Proof. intros H. unfold writeln. solve_ascii. Qed.

Lemma ascii_space_bool b : ascii_space (show_bool b).
Proof. destruct b; by apply ascii_space_check. Qed.

Lemma ascii_space_announce n : ascii_space (announce n).
Proof.
  unfold announce. destruct (0 <? n); [|constructor]. apply ascii_space_writeln. solve_ascii.
Qed.
#[local] Hint Resolve ascii_space_bool ascii_space_announce : ascii_space.

Lemma redacted_line_total s : ascii_space s → ∃ o n, redacted_line s = Done (o, n) ∧ ascii_space o.
Proof. intros H. apply redact_total; [done|]. by apply ascii_space_sanitize. Qed.

Lemma redacted_names_total l :
  Forall ascii_space l → ∃ o n, redacted_names l = Done (o, n) ∧ Forall ascii_space o.
Proof.
  induction 1 as [|s l Hs Hl (o & n & E & Ho)]; [by exists [], 0|]. cbn [redacted_names].
  destruct (redacted_line_total s Hs) as (t & m & -> & Ht). cbn [outcome_bind]. rw E. cbn [outcome_bind].
  eexists _, _. split; [done|]. constructor; [by apply ascii_space_cap|done].
Qed.

Lemma block_text_total fields : fields_ascii fields → ∃ block, block_text fields = Done block ∧ ascii_space block.
Proof.
  destruct fields as [pr|issue]; cbn [block_text fields_ascii].
  - intros (H1 & H2 & H3 & H4 & H5 & H6 & H7 & H8 & H9).
    destruct (redacted_line_total _ H1) as (t & nt & -> & Ht). cbn [outcome_bind].
    destruct (redacted_line_total _ H4) as (l & nl & -> & Hl). cbn [outcome_bind].
    destruct (redacted_names_total _ H8) as (ns & nn & -> & Hn). cbn [outcome_bind].
    eexists. split; [done|]. solve_ascii.
    + destruct (is_empty _); [constructor|]. apply ascii_space_writeln. solve_ascii.
    + destruct (is_empty _); [constructor|]. apply ascii_space_writeln. solve_ascii.
  - intros (H1 & H2 & H3 & H4 & H5).
    destruct (redacted_line_total _ H1) as (t & nt & -> & Ht). cbn [outcome_bind].
    destruct (redacted_line_total _ H4) as (l & nl & -> & Hl). cbn [outcome_bind].
    eexists. split; [done|]. solve_ascii.
Qed.

Lemma site_total r fields :
  (∀ f, fields = Ok f → fields_ascii f) → ∃ x, build_site_substitution r fields = Done x.
Proof.
  intros H. destruct fields as [f|[e]]; [|by eexists]. specialize (H f eq_refl).
  destruct (block_text_total f H) as (b & Eb & Hb). destruct (redact_total (length b) b) as (o & n & Er & _); [lia|done|].
  unfold build_site_substitution, build_block, build_block_unfenced, redact_secrets. rw Eb. cbn [outcome_bind].
  rw Er. cbn [outcome_bind]. by eexists.
Qed.

Section pass_spec.
Context {S : Type} (provider : ExpansionProvider S) (owner repo : rstr).

Definition provider_ascii : Prop :=
  ∀ s r s' f, fetch provider owner repo s r = (s', Ok f) → fields_ascii f.

(** Where a replacement comes from: an answer of the provider about a
    reference with this literal, or the budget notice once the budget is
    spent. *)
Definition replaces (exceeded : bool) (refs : list Reference) (literal replacement : rstr) : Prop :=
  (exceeded = true ∧ replacement = budget_exceeded_notice literal)
  ∨ ∃ r s s' fields label, r ∈ refs ∧ rf_literal r = literal ∧ fetch provider owner repo s r = (s', fields)
      ∧ build_site_substitution r fields = Done (replacement, label).

Lemma replaces_mono ex refs refs' l rep : refs ⊆ refs' → replaces ex refs l rep → replaces ex refs' l rep.
Proof. intros Hsub [H|(r & s & s' & f & lb & Hr & H)]; [by left|]. right. exists r, s, s', f, lb. split; [by apply Hsub|done]. Qed.

Lemma resolve_references_spec unique spans chars ex s :
  provider_ascii → chars ≤ MAX_PASS_CHARS →
  ∃ outcomes subs ex' s', resolve_go provider owner repo unique spans chars ex s = Done (outcomes, subs, ex', s')
    ∧ subs.*1 = (rf_literal <$> unique) ≫= sites_of spans
    ∧ chars + inlined subs.*2 ≤ MAX_PASS_CHARS
    ∧ (ex = true → ex' = true)
    ∧ eo_reference <$> outcomes = rf_literal <$> unique
    ∧ Forall (λ x, ∃ r, r ∈ unique ∧ x.1 ∈ sites_of spans (rf_literal r)
                        ∧ replaces ex' unique (rf_literal r) x.2) subs.
Proof.
  intros Hasc. revert chars ex s. induction unique as [|u us IH]; intros chars ex s Hc.
  { exists [], [], ex, s. split_and!; [done|done|cbn; lia|done|done|constructor]. }
  cbn [resolve_go]. cbv zeta. destruct ex.
  - destruct (IH chars true s Hc) as (os & ss & ex' & s' & -> & H1 & H2 & H3 & H4 & H5). cbn [outcome_bind].
    eexists _, _, ex', s'. split; [done|]. rw !fmap_app. cbn [fmap list_fmap mbind list_bind eo_reference].
    split_and!; [|rw inlined_app|done|by rw H4|].
    + fold (fmap (M := list) (A := Reference) (B := rstr)). rw H1 -list_fmap_compose. f_equal.
      rw -{2}(list_fmap_id (sites_of spans (rf_literal u))). apply list_fmap_ext. by intros ? [].
    + assert (∀ l : list (N * N), inlined ((λ p, (p.1, p.2, budget_exceeded_notice (rf_literal u))) <$> l).*2 = 0) as ->.
      { induction l as [|p l IHl]; [done|]. cbn [fmap list_fmap snd]. unfold inlined in *. cbn [foldr]. by rw cost_notice. }
      lia.
    + apply Forall_app_2.
      * apply Forall_fmap, Forall_forall. intros p Hp. exists u. cbn [compose fst snd]. split_and!; [left| |left; auto].
        by destruct p.
      * eapply Forall_impl; [exact H5|]. intros x (r & Hr & Hx & Hrep). exists r. split_and!; [by right|done|].
        eapply replaces_mono; [|exact Hrep]. set_solver.
  - destruct (fetch provider owner repo s u) as [s1 fields] eqn:Ef.
    destruct (site_total u fields) as [[sub label] Eb].
    { intros f ->. by eapply Hasc. }
    rw Eb. cbn [outcome_bind].
    destruct (charge_sites (rf_literal u) sub (sites_of spans (rf_literal u)) chars) as [[here chars'] hit] eqn:Ec.
    destruct (charge_sites_spec _ _ _ _ _ _ _ Ec Hc) as (C1 & C2 & C3 & C4).
    destruct (IH chars' hit s1 C3) as (os & ss & ex' & s' & -> & H1 & H2 & H3 & H4 & H5). cbn [outcome_bind].
    eexists _, _, ex', s'. split; [done|]. rw !fmap_app inlined_app. cbn [fmap list_fmap mbind list_bind eo_reference].
    split_and!; [by rw C1 H1|lia|done|by rw H4|]. apply Forall_app_2.
    + apply Forall_forall. intros x Hx. exists u. split_and!; [left| |].
      * rw -C1. by apply list_elem_of_fmap_2.
      * rw Forall_forall in C4. destruct (C4 x Hx) as [-> |[Hh ->]]; [right|left; split; [by apply H3|done]].
        exists u, s, s1, fields, label. split_and!; [left|done..].
    + eapply Forall_impl; [exact H5|]. intros x (r & Hr & Hx & Hrep). exists r. split_and!; [by right|done|].
      eapply replaces_mono; [|exact Hrep]. set_solver.
Qed.
End pass_spec.

(** C22. The block of an expanded reference is a fence of at least three
    backticks, a header line, content and the same fence.  The fence does not
    occur in the content, so provider text cannot close it; no [secret://]
    reference and no token prefix followed by sixteen token characters occurs in
    the content, whatever the fields hold.  The cut bounds the block by 2 KiB or,
    where that is more, by its fences, its header, a last content line that
    begins [redacted (], and 18 bytes.  The program takes such a line for its own
    announcement and exempts it, also when the provider wrote it
    ([forged_announcement]), so 2 KiB is no bound on every block. *)
Theorem block_contained r fields block label :
  build_site_substitution r (Ok fields) = Done (block, label) →
  label = None ∧ ∃ k content raw,
    block = replicate k 96 ++ header_line r ++ [10] ++ content ++ [10] ++ replicate k 96
    ∧ (3 ≤ k)%nat ∧ contains_str (replicate k 96) content = false
    ∧ (∀ t, secret_text t → contains_str t content = false)
    ∧ (build_block fields = Done (raw, replicate k 96))
    ∧ str_len block ≤ N.max MAX_REFERENCE_CHARS
                        (str_len (header_line r) + 1 + N.of_nat k * 2 + announcement_len raw + 17).
Proof.
  unfold build_site_substitution. destruct (build_block fields) as [[raw fence]| |] eqn:E; [|done..].
  cbn [outcome_bind]. intros H. apply done_inj, pair_eq in H as [<- <-]. split; [done|].
  unfold build_block in E. destruct (build_block_unfenced fields) as [[raw' n]| |] eqn:Eu; [|done..].
  cbn [outcome_bind] in E. apply done_inj, pair_eq in E as [-> <-].
  set (k := N.to_nat (N.max (max_run_go 0 raw + 1) 3)).
  assert (str_len (replicate k 96) = N.of_nat k) as Hk.
  { induction k as [|j IH]; [done|]. cbn [replicate]. rw str_len_cons IH. change (len_utf8 96) with 1. lia. }
  rw Hk. set (content := enforce_reference_cap _ _ _).
  assert (∀ c, c ∈ replicate k 96 → c = 96) as Hticks by (intros c Hc; by apply elem_of_replicate in Hc as [-> _]).
  exists k, content, raw. split_and!; try done.
  - subst k. lia.
  - apply not_true_iff_false. rw contains_occurs. intros Ho.
    apply cap_occurs in Ho as [Ho|(a & b & Ho)]; [| |by intros ?%Hticks..].
    + apply max_run_occurs in Ho. subst k. lia.
    + assert (96 ∉ lit "[truncated]") as Hn by (apply (bool_decide_unpack _); by vm_compute).
      apply Hn. rw Ho. apply elem_of_app. right. apply elem_of_app. left. apply elem_of_replicate. subst k. lia.
  - intros t Ht. apply not_true_iff_false. rw contains_occurs. intros Ho.
    apply cap_occurs in Ho as [Ho|(a & b & Ho)]; [| |by apply secret_avoids..].
    + by eapply unfenced_no_secret.
    + destruct (secret_head t Ht) as (h & t' & -> & Hh). assert (h ∈ lit "[truncated]") as Hin by (rw Ho; set_solver).
      revert Hin. destruct Hh as [-> | ->]; apply (bool_decide_unpack _); by vm_compute.
  - pose proof (cap_len raw (str_len (header_line r) + 1) (N.of_nat k)) as Hl. fold content in Hl.
    generalize dependent (header_line r). intros header content Hl. generalize dependent content. intros content Hl.
    rw !str_len_app !Hk. change (str_len [10]) with 1. lia.
Qed.

Definition leaky_issue : IssueReferenceFields := {|
  isf_number := 7;
  isf_title := lit "use ghp_0123456789abcdef0 ```";
  isf_state := lit "OPEN";
  isf_author := lit "a";
  isf_labels := [];
  isf_url := lit "secret://x"
|}.

Definition issue_7 : Reference := {| rf_kind := Issue; rf_number := 7; rf_literal := lit "issue://7" |}.

Lemma block_contained_witness :
  ∃ block, build_site_substitution issue_7 (Ok (FieldsIssue leaky_issue)) = Done (block, None)
    ∧ contains_str (lit "[REDACTED]") block = true
    ∧ ∃ k content, block = replicate k 96 ++ header_line issue_7 ++ [10] ++ content ++ [10] ++ replicate k 96
        ∧ (∀ t, secret_text t → contains_str t content = false).
Proof.
  eexists. assert (∀ P Q : Prop, P → (P → Q) → P ∧ Q) as Hand by tauto.
  apply Hand; [vm_compute; reflexivity|]. intros E. split; [vm_compute; reflexivity|].
  destruct (block_contained _ _ _ _ E) as (_ & k & content & raw & Hb & _ & _ & Hs & _).
  exists k, content. exact (conj Hb Hs).
Defined.

Lemma Forall2_members {A B} (P Q : A → B → Prop) l k :
  Forall2 P l k → (∀ x y, x ∈ l → y ∈ k → P x y → Q x y) → Forall2 Q l k.
Proof.
  induction 1 as [|x y l k Hxy Hl IH]; intros H; [constructor|]. constructor; [apply H; [left|left|done]|].
  apply IH. intros a b Ha Hb. apply H; by right.
Qed.

(** C23. One pass over the payload: where the provider's texts hold no white space
    outside ASCII, the expansion returns; the text between the references is
    unchanged and each reference is replaced once, by what one answer of the
    provider about its literal gives or, once the budget is spent, by the
    literal and the budget notice; replacements are not scanned again; those
    that are no budget notice add up to 8 KiB at most; and the report has one
    outcome per distinct literal, in order of appearance. *)
Theorem expansion_one_pass {S} (provider : ExpansionProvider S) owner repo is_alphanumeric payload s :
  provider_ascii provider owner repo →
  let refs := parse_references is_alphanumeric payload in
  ∃ report s', expand_payload provider owner repo is_alphanumeric payload s = Done (Ok report, s')
    ∧ eo_reference <$> er_outcomes report = rf_literal <$> dedupe [] refs
    ∧ ∃ texts replacements tail, length texts = length refs
      ∧ payload = weave texts (rf_literal <$> refs) tail
      ∧ er_payload report = weave texts replacements tail
      ∧ Forall2 (λ r, replaces provider owner repo (er_budget_exceeded report) refs (rf_literal r)) refs replacements
      ∧ inlined replacements ≤ MAX_PASS_CHARS.
Proof.
  intros Hasc. cbv zeta. unfold expand_payload. set (spans := parse_reference_spans is_alphanumeric payload).
  change ((λ x : Reference * N * N, x.1.1) <$> spans) with (parse_references is_alphanumeric payload).
  set (refs := parse_references is_alphanumeric payload). cbv zeta.
  destruct (dedupe_spec [] refs) as (Hnd & Hin & Hcov); [constructor|].
  assert (chain 0 payload spans) as Hchain by apply spans_go_chain.
  destruct (resolve_references_spec provider owner repo (dedupe [] refs) spans 0 false s Hasc)
    as (os & subs & ex & s' & E & H1 & H2 & _ & H4 & H5); [done|].
  unfold resolve_references. rw E. cbn [outcome_bind].
  assert (subs.*1 ≡ₚ (λ s, (s.1.2, s.2)) <$> spans) as Hperm.
  { rw H1. apply sites_partition; [done|]. apply Forall_forall. intros x Hx. apply Hcov. right.
    by apply (list_elem_of_fmap_2 (λ s : Reference * N * N, s.1.1)). }
  pose proof (sorted_sites 0 payload spans subs Hchain Hperm) as Hsort.
  set (asc := reverse (stable_sort later subs)) in *.
  destruct (substitute_chain [] payload spans asc Hchain Hsort) as (texts & tail & Hl & Hp & Hsub).
  assert (reverse asc = stable_sort later subs) as Er by apply reverse_involutive.
  rw Er app_nil_l in Hsub. rw Hsub. cbn [outcome_bind]. eexists _, s'. split; [done|]. cbn [er_outcomes er_payload er_budget_exceeded].
  split; [done|]. exists texts, asc.*2, tail.
  assert (asc ≡ₚ subs) as Hasc'. { unfold asc. by rw reverse_Permutation stable_sort_Permutation. }
  split_and!.
  - rw Hl. unfold refs, parse_references. by rw length_fmap.
  - unfold refs, parse_references. fold spans. by rw -list_fmap_compose.
  - done.
  - unfold refs at 2, parse_references. fold spans. apply Forall2_fmap_2.
    eapply (Forall2_members (λ x y, (x.1.2, x.2) = y.1)).
    + assert (Forall2 (=) ((λ s : Reference * N * N, (s.1.2, s.2)) <$> spans) asc.*1) as HF by (by rw Hsort).
      by apply Forall2_fmap_1 in HF.
    + intros x y Hx Hy Exy. rw Hasc' in Hy. rw Forall_forall in H5. destruct (H5 y Hy) as (r & Hr & Hs & Hrep).
      apply list_elem_of_fmap in Hs as (x' & Ex' & [Hx' El]%elem_of_filter_bool).
      apply bool_decide_eq_true in El.
      destruct (chain_sites _ _ _ Hchain) as (_ & Hs1 & Hs2).
      assert (x = x') as -> by (apply (span_unique spans); try done; congruence).
      rw El. eapply replaces_mono; [|exact Hrep]. intros z Hz. apply Hin in Hz. set_solver.
  - rw Hasc'. lia.
Qed.

Definition steady_provider : ExpansionProvider N := {|
  fetch_pr := λ s _ _ _, (s + 1, Err (Failure NotFound));
  fetch_issue := λ s _ _ _, (s + 1, Ok leaky_issue)
|}.

Lemma expansion_one_pass_witness :
  provider_ascii steady_provider [] []
  ∧ ∃ report s', expand_payload steady_provider [] [] is_ascii_alphanumeric (lit "fix issue://7 and pr://1 and issue://7") 0
      = Done (Ok report, s')
    ∧ ∃ texts replacements tail,
        lit "fix issue://7 and pr://1 and issue://7" = weave texts [lit "issue://7"; lit "pr://1"; lit "issue://7"] tail
        ∧ er_payload report = weave texts replacements tail ∧ inlined replacements ≤ MAX_PASS_CHARS.
Proof.
  assert (provider_ascii steady_provider [] []) as Ha.
  { intros s r s' f. unfold fetch. destruct (rf_kind r); cbn; intros [= <- <-].
    split_and!; by apply ascii_space_check. }
  split; [exact Ha|].
  destruct (expansion_one_pass steady_provider [] [] is_ascii_alphanumeric
              (lit "fix issue://7 and pr://1 and issue://7") 0 Ha)
    as (report & s' & E & _ & texts & reps & tail & _ & H1 & H2 & _ & H3).
  exists report, s'. split; [exact E|]. exists texts, reps, tail. exact (conj H1 (conj H2 H3)).
Defined.

(** ** Where the code departs from its comments *)

(** The white space before a bearer value is counted in characters and skipped
    in bytes: after an em space the end of the value stays in the text, and a
    slice that falls inside a character panics. *)
Example bearer_wide_space :
  redact_secrets (lit "bearer" ++ [8195] ++ lit "hunter2") = Done (lit "[REDACTED]" ++ lit "r2", 1)
  ∧ redact_secrets (lit "bearer" ++ [8195] ++ [233; 97]) = Panic.
Proof. split; by vm_compute. Qed.

(** The state is not capped and its backticks lengthen both fences: the block
    exceeds its 2 KiB. *)
Example fences_exceed_cap :
  match build_site_substitution issue_7
          (Ok (FieldsIssue {| isf_number := 7; isf_title := []; isf_state := replicate 1500 96;
                              isf_author := []; isf_labels := []; isf_url := [] |})) with
  | Done (block, None) => MAX_REFERENCE_CHARS <? str_len block
  | _ => false
  end = true.
Proof. by vm_compute. Qed.

(** A convergence reason is neither capped nor on one line: its last line can
    pass for the announcement, and the block exceeds its 2 KiB with fences of
    three backticks and nothing redacted. *)
Example forged_announcement :
  match build_site_substitution issue_7
          (Ok (FieldsPr {| prf_number := 7; prf_title := []; prf_state := []; prf_author := []; prf_labels := [];
                           prf_url := []; prf_head_sha := []; prf_base_oid := []; prf_checks_all_passed := true;
                           prf_checks_any_pending := false; prf_checks_any_failing := false;
                           prf_failing_checks := []; prf_unresolved_threads := 0;
                           prf_convergence_reasons := [[10] ++ lit "redacted (" ++ replicate 2048 97] |})) with
  | Done (block, None) => (MAX_REFERENCE_CHARS <? str_len block) && bool_decide (take 4 block = lit "```e")
  | _ => false
  end = true.
Proof. by vm_compute. Qed.
