(* ===== verification/CostLedger.v ===== *)
(** * Cost ledger

    [crates/orchestraitor-cost-ledger/src/model.rs], [budget.rs] and
    [storage.rs]: the entries of provider calls with their one profile per
    session, the budget caps checked before a call, and the rollups.

    A ledger is the tables SQLite holds and, while a transaction of this
    connection is open, the tables it would commit.  Every statement may fail
    (a [true] argument); rows come back in the order [scan] chooses where a
    query orders nothing.  [sql_sum] is SQLite's [SUM] of reals. *)

From S2P Require Import Prelude BTree Text Campaign RunState LoopRun.
From Stdlib Require Import ZifyBool.

(** ** The data *)

Inductive MonetaryCostBasis :=
| ProviderMeasured | PriceSheetEstimated | UserConfiguredSubscriptionPrice | UtilizationOnly.

(** Timestamps are the RFC 3339 text that is stored. *)
Record CostEntry := {
  ce_model : rstr;
  ce_provider : rstr;
  ce_agent_domain_id : rstr;
  ce_role : rstr;
  ce_project : rstr;
  ce_session : rstr;
  ce_repository : rstr;
  ce_input_tokens : N;
  ce_output_tokens : N;
  ce_reasoning_tokens : N;
  ce_cache_read_tokens : N;
  ce_cache_write_tokens : N;
  ce_request_count : N;
  ce_request_id : rstr;
  ce_parent_request_id : option rstr;
  ce_started_at : rstr;
  ce_completed_at : rstr;
  ce_wall_ms : N;
  ce_cost_measured : option f64;
  ce_cost_estimated : option f64;
  ce_cost_basis : MonetaryCostBasis;
  ce_subscription : option rstr;
  ce_routing_decision : rstr;
  ce_profile : option rstr
}.

Inductive UtilizationLabel := Measured | Estimated | UserConfigured.

Record Subscription := {
  sb_id : rstr;
  sb_provider : rstr;
  sb_billing_period : rstr;
  sb_monthly_price_usd : option f64;
  sb_included_tokens : option N;
  sb_soft_cap_tokens : option N;
  sb_hard_cap_tokens : option N;
  sb_active_time_cap : option N;
  sb_reset_at : rstr
}.

Record SubscriptionUtilizationEntry := {
  su_subscription : rstr;
  su_request_id : rstr;
  su_label : UtilizationLabel;
  su_consumed_tokens : N;
  su_quota_tokens : option N;
  su_monthly_price_usd : option f64
}.

Record ReceiptRecord := {
  rc_request_id : rstr;
  rc_session : rstr;
  rc_task_class : rstr;
  rc_budget_tokens : N;
  rc_candidate_tokens : N;
  rc_selected_tokens : N;
  rc_omitted_count : N;
  rc_raw_tool_output_tokens : N;
  rc_compacted_tool_output_tokens : N;
  rc_repeated_tokens_avoided : N;
  rc_prompt_cache_eligible_tokens : N
}.

Inductive BudgetScope := ScopeProject | ScopeSession | ScopeDomain | ScopeAgent.

#[export] Instance BudgetScope_eq_dec : EqDecision BudgetScope.
Proof. solve_decision. Defined.

Inductive CapKind := Soft | Hard.
Inductive CapMetric := Tokens | Cost.

Record StoredCap := { cap_metric : CapMetric; cap_kind : CapKind; cap_amount : f64 }.

Record RoutingFallback := { fb_provider : rstr; fb_model : rstr; fb_reason : rstr }.

Record BudgetRequest := {
  br_scope : BudgetScope;
  br_scope_id : rstr;
  br_token_estimate : N;
  br_cost_estimate : option f64;
  br_fallback_route : option RoutingFallback
}.

Record BudgetWarningEvent := {
  bw_scope : BudgetScope;
  bw_scope_id : rstr;
  bw_metric : CapMetric;
  bw_cap_kind : CapKind;
  bw_projected : f64;
  bw_cap : f64
}.

Inductive PreSpawnDecision :=
| Allow
| SoftWarn (event : BudgetWarningEvent)
| HardCap (event : BudgetWarningEvent) (fallback_route : option RoutingFallback).

Definition blocks_spawn (d : PreSpawnDecision) : bool :=
  match d with Allow | SoftWarn _ => false | HardCap _ _ => true end.

(** The failures that can occur; what SQLite reports is not told apart. *)
Inductive LedgerError :=
| Sqlite
| IntegerRange
| ProfileConflict (session : rstr).

(** ** The tables *)

Record BudgetRow := { bg_id : N; bg_scope : BudgetScope; bg_scope_id : rstr }.
Record CapRow := { cr_budget_id : N; cr_cap : StoredCap }.

Record Tables := {
  cost_entries : list CostEntry;
  budgets : list BudgetRow;
  caps : list CapRow;
  context_receipts : list ReceiptRecord;
  subscription_utilization : list SubscriptionUtilizationEntry;
  subscriptions : list Subscription
}.

Record CostLedger := { committed : Tables; open_tx : option Tables }.

(** What the connection reads. *)
Definition view (l : CostLedger) : Tables := default (committed l) (open_tx l).

Definition set_view (l : CostLedger) (t : Tables) : CostLedger :=
  match open_tx l with
  | Some _ => {| committed := committed l; open_tx := Some t |}
  | None => {| committed := t; open_tx := None |}
  end.

Definition with_entries (t : Tables) (es : list CostEntry) : Tables :=
  {| cost_entries := es; budgets := budgets t; caps := caps t; context_receipts := context_receipts t;
     subscription_utilization := subscription_utilization t; subscriptions := subscriptions t |}.
Definition with_budgets (t : Tables) (bs : list BudgetRow) : Tables :=
  {| cost_entries := cost_entries t; budgets := bs; caps := caps t; context_receipts := context_receipts t;
     subscription_utilization := subscription_utilization t; subscriptions := subscriptions t |}.
Definition with_caps (t : Tables) (cs : list CapRow) : Tables :=
  {| cost_entries := cost_entries t; budgets := budgets t; caps := cs; context_receipts := context_receipts t;
     subscription_utilization := subscription_utilization t; subscriptions := subscriptions t |}.
Definition with_receipts (t : Tables) (rs : list ReceiptRecord) : Tables :=
  {| cost_entries := cost_entries t; budgets := budgets t; caps := caps t; context_receipts := rs;
     subscription_utilization := subscription_utilization t; subscriptions := subscriptions t |}.
Definition with_utilization (t : Tables) (us : list SubscriptionUtilizationEntry) : Tables :=
  {| cost_entries := cost_entries t; budgets := budgets t; caps := caps t; context_receipts := context_receipts t;
     subscription_utilization := us; subscriptions := subscriptions t |}.
Definition with_subscriptions (t : Tables) (ss : list Subscription) : Tables :=
  {| cost_entries := cost_entries t; budgets := budgets t; caps := caps t; context_receipts := context_receipts t;
     subscription_utilization := subscription_utilization t; subscriptions := ss |}.

Definition i64_from_u64 (value : N) : result N LedgerError :=
  if value <=? i64_max then Ok value else Err IntegerRange.

Definition opt_i64 (value : option N) : result (option N) LedgerError :=
  match value with Some v => let? v := i64_from_u64 v in Ok (Some v) | None => Ok None end.

(** The parameters of an [INSERT], converted in order. *)
Fixpoint all_i64 (values : list N) : result unit LedgerError :=
  match values with
  | [] => Ok tt
  | v :: values => let? _ := i64_from_u64 v in all_i64 values
  end.

(** SQLite stores a NaN as [NULL]. *)
Definition sql_real (x : option f64) : option f64 :=
  match x with Some S754_nan => None | x => x end.

Definition with_costs (e : CostEntry) (measured estimated : option f64) : CostEntry := {|
  ce_model := ce_model e; ce_provider := ce_provider e; ce_agent_domain_id := ce_agent_domain_id e;
  ce_role := ce_role e; ce_project := ce_project e; ce_session := ce_session e; ce_repository := ce_repository e;
  ce_input_tokens := ce_input_tokens e; ce_output_tokens := ce_output_tokens e;
  ce_reasoning_tokens := ce_reasoning_tokens e; ce_cache_read_tokens := ce_cache_read_tokens e;
  ce_cache_write_tokens := ce_cache_write_tokens e; ce_request_count := ce_request_count e;
  ce_request_id := ce_request_id e; ce_parent_request_id := ce_parent_request_id e;
  ce_started_at := ce_started_at e; ce_completed_at := ce_completed_at e; ce_wall_ms := ce_wall_ms e;
  ce_cost_measured := measured; ce_cost_estimated := estimated; ce_cost_basis := ce_cost_basis e;
  ce_subscription := ce_subscription e; ce_routing_decision := ce_routing_decision e; ce_profile := ce_profile e
|}.

Definition counters (e : CostEntry) : list N :=
  [ce_input_tokens e; ce_output_tokens e; ce_reasoning_tokens e; ce_cache_read_tokens e;
   ce_cache_write_tokens e; ce_request_count e; ce_wall_ms e].

(** [CostEntry::total_tokens], with the overflow of its plain sums. *)
Definition total_tokens (e : CostEntry) : outcome N :=
  let sum := ce_input_tokens e + ce_output_tokens e + ce_reasoning_tokens e + ce_cache_read_tokens e
             + ce_cache_write_tokens e in
  if sum <=? u64_max then Done sum else Panic.

Definition user_configured_cost_usd (u : SubscriptionUtilizationEntry) : option f64 :=
  quota ← su_quota_tokens u;
  if quota =? 0 then None
  else price ← su_monthly_price_usd u;
       Some (f64_mul price (SFdiv 53 1024 (f64_of_u64 (su_consumed_tokens u)) (f64_of_u64 quota))).

(** The order of the rows of a query without [ORDER BY]. *)
Class RowOrder := { scan : ∀ A : Type, list A → list A }.
Arguments scan {_ A} _.

Class RowOrderLaws `{RowOrder} := { scan_perm : ∀ A (l : list A), scan l ≡ₚ l }.

Section ledger.
Context `{Hord : RowOrder} (sql_sum : list f64 → f64).

(** ** Writing *)

(** What fails of one write: [BEGIN], the query, the [INSERT], [COMMIT] (and
    whether it leaves the transaction open, as a busy database does), [ROLLBACK]. *)
Record InsertFaults := {
  if_begin : bool;
  if_select : bool;
  if_insert : bool;
  if_commit : option bool;
  if_rollback : bool
}.

Definition insert_entry_locked (t : Tables) (entry : CostEntry) (f : InsertFaults) : result Tables LedgerError :=
  if if_select f then Err Sqlite
  else
    let same := List.filter (λ e, bool_decide (ce_session e = ce_session entry)) (cost_entries t) in
    let conflict := match head (scan same) with
                    | Some existing => negb (bool_decide (ce_profile existing = ce_profile entry))
                    | None => false
                    end in
    if conflict then Err (ProfileConflict (ce_session entry))
    else
      let? _ := all_i64 (counters entry) in
      if if_insert f || existsb (λ e, bool_decide (ce_request_id e = ce_request_id entry)) (cost_entries t)
      then Err Sqlite
      else Ok (with_entries t (cost_entries t
                 ++ [with_costs entry (sql_real (ce_cost_measured entry)) (sql_real (ce_cost_estimated entry))])).

(** A nested [BEGIN] is an error. *)
Definition insert_entry (l : CostLedger) (entry : CostEntry) (f : InsertFaults) : CostLedger * result unit LedgerError :=
  match open_tx l with
  | Some _ => (l, Err Sqlite)
  | None =>
      if if_begin f then (l, Err Sqlite)
      else match insert_entry_locked (committed l) entry f with
           | Ok t =>
               match if_commit f with
               | None => ({| committed := t; open_tx := None |}, Ok tt)
               | Some stays_open =>
                   ({| committed := committed l; open_tx := if stays_open then Some t else None |}, Err Sqlite)
               end
           | Err e =>
               ({| committed := committed l; open_tx := if if_rollback f then Some (committed l) else None |}, Err e)
           end
  end.

Definition insert_budget (l : CostLedger) (scope : BudgetScope) (scope_id : rstr) (f : bool)
    : CostLedger * result N LedgerError :=
  if f then (l, Err Sqlite)
  else let t := view l in
       let id := 1 + foldr N.max 0 (bg_id <$> budgets t) in
       (set_view l (with_budgets t (budgets t ++ [{| bg_id := id; bg_scope := scope; bg_scope_id := scope_id |}])), Ok id).

(** The amount is [NOT NULL], so a NaN is refused. *)
Definition insert_cap (l : CostLedger) (budget_id : N) (metric : CapMetric) (kind : CapKind) (amount : f64) (f : bool)
    : CostLedger * result unit LedgerError :=
  match sql_real (Some amount) with
  | Some amount =>
      if f then (l, Err Sqlite)
      else let t := view l in
           (set_view l (with_caps t (caps t ++ [{| cr_budget_id := budget_id;
              cr_cap := {| cap_metric := metric; cap_kind := kind; cap_amount := amount |} |}])), Ok tt)
  | None => (l, Err Sqlite)
  end.

Definition insert_subscription (l : CostLedger) (s : Subscription) (f : bool) : CostLedger * result unit LedgerError :=
  match (let? _ := opt_i64 (sb_included_tokens s) in
         let? _ := opt_i64 (sb_soft_cap_tokens s) in
         let? _ := opt_i64 (sb_hard_cap_tokens s) in
         opt_i64 (sb_active_time_cap s)) with
  | Err e => (l, Err e)
  | Ok _ =>
      let t := view l in
      if f || existsb (λ x, bool_decide (sb_id x = sb_id s)) (subscriptions t) then (l, Err Sqlite)
      else
        let s := {| sb_id := sb_id s; sb_provider := sb_provider s; sb_billing_period := sb_billing_period s;
                    sb_monthly_price_usd := sql_real (sb_monthly_price_usd s); sb_included_tokens := sb_included_tokens s;
                    sb_soft_cap_tokens := sb_soft_cap_tokens s; sb_hard_cap_tokens := sb_hard_cap_tokens s;
                    sb_active_time_cap := sb_active_time_cap s; sb_reset_at := sb_reset_at s |} in
        (set_view l (with_subscriptions t (subscriptions t ++ [s])), Ok tt)
  end.

Definition insert_context_receipt (l : CostLedger) (r : ReceiptRecord) (f : bool) : CostLedger * result unit LedgerError :=
  match all_i64 [rc_budget_tokens r; rc_candidate_tokens r; rc_selected_tokens r; rc_omitted_count r;
                 rc_raw_tool_output_tokens r; rc_compacted_tool_output_tokens r; rc_repeated_tokens_avoided r;
                 rc_prompt_cache_eligible_tokens r] with
  | Err e => (l, Err e)
  | Ok _ =>
      let t := view l in
      if f || existsb (λ x, bool_decide (rc_request_id x = rc_request_id r)) (context_receipts t) then (l, Err Sqlite)
      else (set_view l (with_receipts t (context_receipts t ++ [r])), Ok tt)
  end.

Definition insert_utilization (l : CostLedger) (u : SubscriptionUtilizationEntry) (f : bool)
    : CostLedger * result unit LedgerError :=
  match (let? _ := i64_from_u64 (su_consumed_tokens u) in opt_i64 (su_quota_tokens u)) with
  | Err e => (l, Err e)
  | Ok _ =>
      if f then (l, Err Sqlite)
      else let t := view l in
           let u := {| su_subscription := su_subscription u; su_request_id := su_request_id u; su_label := su_label u;
                       su_consumed_tokens := su_consumed_tokens u; su_quota_tokens := su_quota_tokens u;
                       su_monthly_price_usd := sql_real (su_monthly_price_usd u) |} in
           (set_view l (with_utilization t (subscription_utilization t ++ [u])), Ok tt)
  end.

Definition label_for_request (l : CostLedger) (request_id : rstr) (f : bool) : result (option UtilizationLabel) LedgerError :=
  if f then Err Sqlite
  else Ok (su_label <$> head (scan (List.filter (λ u, bool_decide (su_request_id u = request_id))
                                      (subscription_utilization (view l))))).

(** ** Usage and caps *)

Definition in_scope (scope : BudgetScope) (scope_id : rstr) (e : CostEntry) : bool :=
  match scope with
  | ScopeProject => bool_decide (ce_project e = scope_id)
  | ScopeSession => bool_decide (ce_session e = scope_id)
  | ScopeDomain | ScopeAgent => bool_decide (ce_agent_domain_id e = scope_id)
  end.

Definition scope_rows (t : Tables) (scope : BudgetScope) (scope_id : rstr) : list CostEntry :=
  scan (List.filter (in_scope scope scope_id) (cost_entries t)).

(** The sum of a row's columns; past [i64] SQLite answers a real, which is not
    read as an integer. *)
Definition row_tokens (e : CostEntry) : result N LedgerError :=
  let sum := ce_input_tokens e + ce_output_tokens e + ce_reasoning_tokens e + ce_cache_read_tokens e
             + ce_cache_write_tokens e in
  if sum <=? i64_max then Ok sum else Err Sqlite.

Fixpoint sum_rows (total : N) (rows : list CostEntry) : result N LedgerError :=
  match rows with
  | [] => Ok total
  | e :: rows => let? n := row_tokens e in sum_rows (saturating_add u64_max total n) rows
  end.

Definition token_usage_for_scope (l : CostLedger) (scope : BudgetScope) (scope_id : rstr) (f : bool)
    : result N LedgerError :=
  if f then Err Sqlite else sum_rows 0 (scope_rows (view l) scope scope_id).

Definition entry_cost (e : CostEntry) : f64 :=
  match ce_cost_measured e with
  | Some c => c
  | None => default f64_zero (ce_cost_estimated e)
  end.

Definition cost_usage_for_scope (l : CostLedger) (scope : BudgetScope) (scope_id : rstr) (f : bool)
    : result f64 LedgerError :=
  if f then Err Sqlite
  else let rows := scope_rows (view l) scope scope_id in
       Ok (if is_empty rows then f64_zero else sql_sum (entry_cost <$> rows)).

Definition caps_of (t : Tables) (scope : BudgetScope) (scope_id : rstr) : list StoredCap :=
  cr_cap <$> (caps t ≫= λ c,
    (λ _, c) <$> List.filter (λ b, (bg_id b =? cr_budget_id c) && bool_decide (bg_scope b = scope)
                                   && bool_decide (bg_scope_id b = scope_id)) (budgets t)).

Definition caps_for_scope (l : CostLedger) (scope : BudgetScope) (scope_id : rstr) (f : bool)
    : result (list StoredCap) LedgerError :=
  if f then Err Sqlite else Ok (scan (caps_of (view l) scope scope_id)).

(** [BudgetEnforcer::pre_spawn_check], the loop over the caps. *)
Definition projected (token_projected cost_projected : f64) (cap : StoredCap) : f64 :=
  match cap_metric cap with Tokens => token_projected | Cost => cost_projected end.

Fixpoint check_caps (request : BudgetRequest) (token_projected cost_projected : f64)
    (soft_warning : option BudgetWarningEvent) (caps : list StoredCap) : PreSpawnDecision :=
  match caps with
  | [] => match soft_warning with Some event => SoftWarn event | None => Allow end
  | cap :: caps =>
      let projected := projected token_projected cost_projected cap in
      if f64_lt (cap_amount cap) projected then
        let event := {| bw_scope := br_scope request; bw_scope_id := br_scope_id request; bw_metric := cap_metric cap;
                        bw_cap_kind := cap_kind cap; bw_projected := projected; bw_cap := cap_amount cap |} in
        match cap_kind cap with
        | Soft => check_caps request token_projected cost_projected (Some event) caps
        | Hard => HardCap event (br_fallback_route request)
        end
      else check_caps request token_projected cost_projected soft_warning caps
  end.

Definition pre_spawn_check (l : CostLedger) (request : BudgetRequest) (f_tokens f_cost f_caps : bool)
    : result PreSpawnDecision LedgerError :=
  let? token_usage := token_usage_for_scope l (br_scope request) (br_scope_id request) f_tokens in
  let? cost_usage := cost_usage_for_scope l (br_scope request) (br_scope_id request) f_cost in
  let token_projected := f64_of_u64 (saturating_add u64_max token_usage (br_token_estimate request)) in
  let cost_projected := f64_add cost_usage (default f64_zero (br_cost_estimate request)) in
  let? caps := caps_for_scope l (br_scope request) (br_scope_id request) f_caps in
  Ok (check_caps request token_projected cost_projected None caps).

(** ** Spend rollups *)

Record DomainCostRollup := {
  dr_agent_domain_id : rstr;
  dr_input_tokens : N;
  dr_output_tokens : N;
  dr_reasoning_tokens : N;
  dr_cache_read_tokens : N;
  dr_cache_write_tokens : N;
  dr_request_count : N;
  dr_cost_measured : f64;
  dr_cost_estimated : f64
}.

Definition total (l : list N) : N := foldr N.add 0 l.

(** [SUM] of integers, which fails past [i64]. *)
Definition sum_i64 (l : list N) : result N LedgerError := if total l <=? i64_max then Ok (total l) else Err Sqlite.

(** [COALESCE(SUM(..), 0)] of reals that may be [NULL]. *)
Definition sum_real (l : list (option f64)) : f64 :=
  let somes := omap id l in if is_empty somes then f64_zero else sql_sum somes.

Definition rollup_of (agent : rstr) (rows : list CostEntry) : result DomainCostRollup LedgerError :=
  let? i := sum_i64 (ce_input_tokens <$> rows) in
  let? o := sum_i64 (ce_output_tokens <$> rows) in
  let? r := sum_i64 (ce_reasoning_tokens <$> rows) in
  let? cr := sum_i64 (ce_cache_read_tokens <$> rows) in
  let? cw := sum_i64 (ce_cache_write_tokens <$> rows) in
  let? n := sum_i64 (ce_request_count <$> rows) in
  Ok {| dr_agent_domain_id := agent; dr_input_tokens := i; dr_output_tokens := o; dr_reasoning_tokens := r;
        dr_cache_read_tokens := cr; dr_cache_write_tokens := cw; dr_request_count := n;
        dr_cost_measured := sum_real (ce_cost_measured <$> rows);
        dr_cost_estimated := sum_real (ce_cost_estimated <$> rows) |}.

Definition domain_rollup (l : CostLedger) (agent : rstr) (f : bool) : result (option DomainCostRollup) LedgerError :=
  if f then Err Sqlite
  else match scope_rows (view l) ScopeAgent agent with
       | [] => Ok None
       | rows => let? r := rollup_of agent rows in Ok (Some r)
       end.

(** The groups of a [GROUP BY], in the order of their keys. *)
Definition group_keys {A} (key : A → rstr) (l : list A) : list rstr :=
  stable_sort kle (remove_dups (key <$> l)).

Definition group {A} (key : A → rstr) (k : rstr) (l : list A) : list A :=
  scan (List.filter (λ x, bool_decide (key x = k)) l).

Fixpoint collect_rows {A B} (f : A → result B LedgerError) (l : list A) : result (list B) LedgerError :=
  match l with
  | [] => Ok []
  | x :: l => let? y := f x in let? ys := collect_rows f l in Ok (y :: ys)
  end.

Definition all_agent_rollups (l : CostLedger) (f : bool) : result (list DomainCostRollup) LedgerError :=
  if f then Err Sqlite
  else let es := cost_entries (view l) in
       collect_rows (λ k, rollup_of k (group ce_agent_domain_id k es)) (group_keys ce_agent_domain_id es).

(** ** Token efficiency *)

Inductive EfficiencyGrouping := BySession | ByProfile.

Record TokenEfficiencyRollup := {
  te_session : option rstr;
  te_agent_domain_id : option rstr;
  te_profile : option rstr;
  te_input_tokens : N;
  te_output_tokens : N;
  te_cache_read_tokens : N;
  te_cache_write_tokens : N;
  te_candidate_tokens : option N;
  te_selected_tokens : option N;
  te_raw_tool_output_tokens : option N;
  te_compacted_tool_output_tokens : option N;
  te_savings_ratio : option f64;
  te_session_savings_ratios : option (list (rstr * f64));
  te_median_savings_ratio : option f64
}.

Definition f64_one : f64 := f64_of_u64 1.

Definition savings_from_receipt (candidate selected raw_tool compacted : N) : option f64 :=
  let selected_total := saturating_add u64_max selected compacted in
  let baseline := saturating_add u64_max candidate raw_tool in
  if baseline =? 0 then None
  else Some (SFsub 53 1024 f64_one (SFdiv 53 1024 (f64_of_u64 selected_total) (f64_of_u64 baseline))).

(** [f64::midpoint] of values whose sum does not overflow, as ratios are. *)
Definition midpoint (a b : f64) : f64 := SFdiv 53 1024 (f64_add a b) (f64_of_u64 2).

Definition not_greater (a b : f64) : Prop := SFltb b a = false.

#[global] Instance not_greater_dec : RelDecision not_greater.
Proof. intros a b. unfold not_greater. apply _. Defined.

Definition median_session_savings_ratio (session_savings_ratios : option (list (rstr * f64))) : option f64 :=
  match session_savings_ratios with
  | None => None
  | Some pairs =>
      let ratios := stable_sort not_greater (snd <$> pairs) in
      if is_empty ratios then None
      else let mid := Nat.div (length ratios) 2 in
           Some (if Nat.odd (length ratios) then nth mid ratios f64_zero
                 else midpoint (nth (mid - 1) ratios f64_zero) (nth mid ratios f64_zero))
  end.

(** The sub-query [c]: the entries of one session and profile. *)
Record SessionSums := {
  ss_session : rstr;
  ss_profile : option rstr;
  ss_input : N;
  ss_output : N;
  ss_cache_read : N;
  ss_cache_write : N
}.

Definition profile_label (p : option rstr) : rstr := default [] p.

Definition session_sums (session label : rstr) (es : list CostEntry) : result SessionSums LedgerError :=
  let rows := scan (List.filter (λ e, bool_decide (ce_session e = session)
                                      && bool_decide (profile_label (ce_profile e) = label)) es) in
  let? i := sum_i64 (ce_input_tokens <$> rows) in
  let? o := sum_i64 (ce_output_tokens <$> rows) in
  let? cr := sum_i64 (ce_cache_read_tokens <$> rows) in
  let? cw := sum_i64 (ce_cache_write_tokens <$> rows) in
  Ok {| ss_session := session; ss_profile := head rows ≫= ce_profile; ss_input := i; ss_output := o;
        ss_cache_read := cr; ss_cache_write := cw |}.

Definition entry_groups (es : list CostEntry) : list (rstr * rstr) :=
  remove_dups ((λ e, (ce_session e, profile_label (ce_profile e))) <$> es).

(** The sub-query [r]: the receipts of one session, summed; [None] is the
    [NULL] of the outer join. *)
Record ReceiptSums := { rs_candidate : N; rs_selected : N; rs_raw_tool : N; rs_compacted : N }.

Definition receipt_sums (rs : list ReceiptRecord) (session : rstr) : result (option ReceiptSums) LedgerError :=
  match scan (List.filter (λ r, bool_decide (rc_session r = session)) rs) with
  | [] => Ok None
  | rows =>
      let? c := sum_i64 (rc_candidate_tokens <$> rows) in
      let? s := sum_i64 (rc_selected_tokens <$> rows) in
      let? w := sum_i64 (rc_raw_tool_output_tokens <$> rows) in
      let? k := sum_i64 (rc_compacted_tool_output_tokens <$> rows) in
      Ok (Some {| rs_candidate := c; rs_selected := s; rs_raw_tool := w; rs_compacted := k |})
  end.

(** [SUM] over the joined rows, [NULL] where none has a value. *)
Definition sum_opt (l : list (option N)) : result (option N) LedgerError :=
  let somes := omap id l in
  if is_empty somes then Ok None else let? n := sum_i64 somes in Ok (Some n).

Definition efficiency_row (grouping : EfficiencyGrouping) (rows : list (SessionSums * option ReceiptSums))
    : result TokenEfficiencyRollup LedgerError :=
  let? i := sum_i64 ((λ x : SessionSums * option ReceiptSums, ss_input x.1) <$> rows) in
  let? o := sum_i64 ((λ x : SessionSums * option ReceiptSums, ss_output x.1) <$> rows) in
  let? cr := sum_i64 ((λ x : SessionSums * option ReceiptSums, ss_cache_read x.1) <$> rows) in
  let? cw := sum_i64 ((λ x : SessionSums * option ReceiptSums, ss_cache_write x.1) <$> rows) in
  let? candidate := sum_opt ((λ x : SessionSums * option ReceiptSums, rs_candidate <$> x.2) <$> rows) in
  let? selected := sum_opt ((λ x : SessionSums * option ReceiptSums, rs_selected <$> x.2) <$> rows) in
  let? raw_tool := sum_opt ((λ x : SessionSums * option ReceiptSums, rs_raw_tool <$> x.2) <$> rows) in
  let? compacted := sum_opt ((λ x : SessionSums * option ReceiptSums, rs_compacted <$> x.2) <$> rows) in
  Ok {| te_session := match grouping with BySession => (λ x : SessionSums * option ReceiptSums, ss_session x.1) <$> head rows | ByProfile => None end;
        te_agent_domain_id := None;
        te_profile := match grouping with BySession => None | ByProfile => head rows ≫= λ x, ss_profile x.1 end;
        te_input_tokens := i; te_output_tokens := o; te_cache_read_tokens := cr; te_cache_write_tokens := cw;
        te_candidate_tokens := candidate; te_selected_tokens := selected; te_raw_tool_output_tokens := raw_tool;
        te_compacted_tool_output_tokens := compacted;
        te_savings_ratio := c ← candidate; s ← selected; w ← raw_tool; k ← compacted; savings_from_receipt c s w k;
        te_session_savings_ratios := None; te_median_savings_ratio := None |}.

Definition joined_rows (t : Tables) : result (list (SessionSums * option ReceiptSums)) LedgerError :=
  collect_rows (λ g, let? c := session_sums g.1 g.2 (cost_entries t) in
                     let? r := receipt_sums (context_receipts t) g.1 in
                     Ok (c, r)) (entry_groups (cost_entries t)).

Definition grouping_key (grouping : EfficiencyGrouping) (x : SessionSums * option ReceiptSums) : rstr :=
  match grouping with BySession => ss_session x.1 | ByProfile => profile_label (ss_profile x.1) end.

(** [MAX(profile)] of a session's entries, [NULL] ignored. *)
Definition max_profile (es : list CostEntry) (session : rstr) : option rstr :=
  foldr (λ e acc,
    if bool_decide (ce_session e = session) then
      match ce_profile e, acc with
      | Some p, Some q => Some (if decide (kle p q) then q else p)
      | Some p, None => Some p
      | None, acc => acc
      end
    else acc) None es.

Definition attach_session_savings_ratios (t : Tables) (rollups : list TokenEfficiencyRollup) (f : bool)
    : result (list TokenEfficiencyRollup) LedgerError :=
  if f then Err Sqlite
  else
    let sessions := List.filter (λ s, existsb (λ e, bool_decide (ce_session e = s)) (cost_entries t))
                      (group_keys rc_session (context_receipts t)) in
    let? savings := collect_rows (λ s, let? r := receipt_sums (context_receipts t) s in Ok (s, r)) sessions in
    let session_savings := omap (λ x,
      r ← x.2; ratio ← savings_from_receipt (rs_candidate r) (rs_selected r) (rs_raw_tool r) (rs_compacted r);
      Some (profile_label (max_profile (cost_entries t) x.1), x.1, ratio)) savings in
    Ok ((λ rollup,
      let key := profile_label (te_profile rollup) in
      let ratios := stable_sort (by_key fst)
        ((λ x, (x.1.2, x.2)) <$> List.filter (λ x, bool_decide (x.1.1 = key)) session_savings) in
      {| te_session := te_session rollup; te_agent_domain_id := te_agent_domain_id rollup; te_profile := te_profile rollup;
         te_input_tokens := te_input_tokens rollup; te_output_tokens := te_output_tokens rollup;
         te_cache_read_tokens := te_cache_read_tokens rollup; te_cache_write_tokens := te_cache_write_tokens rollup;
         te_candidate_tokens := te_candidate_tokens rollup; te_selected_tokens := te_selected_tokens rollup;
         te_raw_tool_output_tokens := te_raw_tool_output_tokens rollup;
         te_compacted_tool_output_tokens := te_compacted_tool_output_tokens rollup;
         te_savings_ratio := te_savings_ratio rollup; te_session_savings_ratios := Some ratios;
         te_median_savings_ratio := median_session_savings_ratio (Some ratios) |}) <$> rollups).

Definition token_efficiency_rollups (l : CostLedger) (grouping : EfficiencyGrouping) (f f_attach : bool)
    : result (list TokenEfficiencyRollup) LedgerError :=
  if f then Err Sqlite
  else
    let? rows := joined_rows (view l) in
    let? rollups := collect_rows (λ k, efficiency_row grouping (group (grouping_key grouping) k rows))
                      (group_keys (grouping_key grouping) rows) in
    match grouping with
    | ByProfile => attach_session_savings_ratios (view l) rollups f_attach
    | BySession => Ok rollups
    end.
End ledger.

(** ** The entries of a ledger *)

Record entries_wf (es : list CostEntry) : Prop := {
  wf_ids : NoDup (ce_request_id <$> es);
  wf_profile : ∀ e e', e ∈ es → e' ∈ es → ce_session e = ce_session e' → ce_profile e = ce_profile e';
  wf_counters : ∀ e n, e ∈ es → n ∈ counters e → n ≤ i64_max;
  wf_costs : ∀ e, e ∈ es → ce_cost_measured e ≠ Some S754_nan ∧ ce_cost_estimated e ≠ Some S754_nan
}.

Lemma all_i64_ok l u : all_i64 l = Ok u → ∀ n, n ∈ l → n ≤ i64_max.
Proof.
  induction l as [|v l IH]; intros H n Hn; [set_solver|]. cbn [all_i64] in H. unfold i64_from_u64 in H.
  destruct (N.leb_spec v i64_max) as [Hv|]; [|done]. apply elem_of_cons in Hn as [->|Hn]; [done|]. by apply IH.
Qed.

Lemma head_elem {A} (l : list A) x : head l = Some x → x ∈ l.
Proof. destruct l; [done|]. intros [= ->]. left. Qed.

Section writes.
Context `{Hord : RowOrder, Hlaws : !RowOrderLaws}.

Lemma scan_elem {A} (x : A) l : x ∈ scan l ↔ x ∈ l.
Proof. by rw scan_perm. Qed.

Lemma insert_locked_spec t entry f t' :
  insert_entry_locked t entry f = Ok t' →
  ∃ e, t' = with_entries t (cost_entries t ++ [e]) ∧ (entries_wf (cost_entries t) → entries_wf (cost_entries t')).
Proof.
  unfold insert_entry_locked. destruct (if_select f); [done|]. cbv zeta.
  set (same := List.filter _ (cost_entries t)).
  destruct (match head (scan same) with Some _ => _ | None => _ end) eqn:Ec; [done|].
  destruct (all_i64 (counters entry)) as [u|] eqn:Ei; [|done]. cbn [result_bind].
  destruct (if_insert f || _) eqn:Ef; [done|]. apply orb_false_iff in Ef as [_ Ef]. rw existsb_false in Ef.
  intros [= <-]. eexists. split; [done|]. intros [W1 W2 W3 W4]. cbn [cost_entries with_entries].
  set (e := with_costs _ _ _).
  assert (∀ x, x ∈ cost_entries t → ce_session x = ce_session e → ce_profile x = ce_profile e) as Hp.
  { intros x Hx Hs. assert (x ∈ scan same) as Hin.
    { apply scan_elem, elem_of_filter_bool. split; [done|]. by apply bool_decide_eq_true. }
    destruct (head (scan same)) as [y|] eqn:Ey; [|by destruct (scan same); [set_solver|]].
    apply negb_false_iff, bool_decide_eq_true in Ec. apply head_elem, scan_elem, elem_of_filter_bool in Ey as [Hy Ey].
    apply bool_decide_eq_true in Ey. change (ce_profile e) with (ce_profile entry). rw -Ec. apply W2; [done..|].
    by rw Ey. }
  split.
  - rw fmap_app. apply NoDup_app. split_and!; [done| |by apply NoDup_singleton].
    intros i (x & -> & Hx)%list_elem_of_fmap Hi. apply list_elem_of_singleton in Hi.
    specialize (Ef x Hx). by apply bool_decide_eq_false in Ef.
  - intros x y [Hx|Hx]%elem_of_app [Hy|Hy]%elem_of_app Hs; rw ?list_elem_of_singleton in Hx; rw ?list_elem_of_singleton in Hy.
    + by apply W2.
    + subst y. by apply Hp.
    + subst x. symmetry. by apply Hp.
    + by subst.
  - intros x n [Hx|Hx]%elem_of_app Hn; [by eapply W3|]. apply list_elem_of_singleton in Hx as ->.
    by eapply all_i64_ok.
  - intros x [Hx|Hx]%elem_of_app; [by apply W4|]. apply list_elem_of_singleton in Hx as ->. cbn.
    split; intros Hn; [destruct (ce_cost_measured entry) as [[]|]|destruct (ce_cost_estimated entry) as [[]|]]; done.
Qed.

(** What the connection does, including being opened again.  What another
    connection commits while no transaction is open here is a step of the same
    kind; while one is open, SQLite lets no other connection write. *)
Inductive ledger_step (l : CostLedger) : CostLedger → Prop :=
| step_entry entry f : ledger_step l (insert_entry l entry f).1
| step_budget scope scope_id f : ledger_step l (insert_budget l scope scope_id f).1
| step_cap budget_id metric kind amount f : ledger_step l (insert_cap l budget_id metric kind amount f).1
| step_receipt r f : ledger_step l (insert_context_receipt l r f).1
| step_utilization u f : ledger_step l (insert_utilization l u f).1
| step_subscription s f : ledger_step l (insert_subscription l s f).1
| step_reopen : ledger_step l {| committed := committed l; open_tx := None |}.

Definition empty_ledger : CostLedger := {|
  committed := {| cost_entries := []; budgets := []; caps := []; context_receipts := [];
                  subscription_utilization := []; subscriptions := [] |};
  open_tx := None |}.

Definition reachable_ledger (l : CostLedger) : Prop := rtc ledger_step empty_ledger l.

(** Both what is committed and what this connection sees is well-formed. *)
Definition ledger_wf (l : CostLedger) : Prop :=
  entries_wf (cost_entries (committed l)) ∧ entries_wf (cost_entries (view l)).

Lemma set_view_wf l t : cost_entries t = cost_entries (view l) → ledger_wf l → ledger_wf (set_view l t).
Proof.
  intros E [H1 H2]. unfold ledger_wf, set_view, view in *. destruct (open_tx l); cbn in *; by rw E.
Qed.

Lemma set_view_prefix l t : cost_entries t = cost_entries (view l) →
  cost_entries (committed l) `prefix_of` cost_entries (committed (set_view l t)).
Proof. intros E. unfold set_view, view in *. destruct (open_tx l); cbn in *; [done|by rw E]. Qed.

(** A write touches the other tables only, or appends one entry. *)
Lemma ledger_step_cases l l' :
  ledger_step l l' →
  (∃ t, l' = set_view l t ∧ cost_entries t = cost_entries (view l))
  ∨ l' = {| committed := committed l; open_tx := None |} ∨ l' = l
  ∨ ∃ entry f, l' = (insert_entry l entry f).1.
Proof.
  intros [entry f|? ? f|? ? ? amount f|r f|u f|s f|].
  - right; right; right. by exists entry, f.
  - unfold insert_budget. destruct f; [by right; right; left|]. left. by eexists.
  - unfold insert_cap. destruct (sql_real (Some amount)); [|by right; right; left].
    destruct f; [by right; right; left|]. left. by eexists.
  - unfold insert_context_receipt. destruct (all_i64 _); [|by right; right; left]. cbv zeta.
    destruct (f || _); [by right; right; left|]. left. by eexists.
  - unfold insert_utilization. destruct (let? _ := _ in _); [|by right; right; left].
    destruct f; [by right; right; left|]. left. by eexists.
  - unfold insert_subscription. destruct (let? _ := _ in _); [|by right; right; left]. cbv zeta.
    destruct (f || _); [by right; right; left|]. left. by eexists.
  - by right; left.
Qed.

Lemma insert_entry_wf l entry f :
  ledger_wf l → ledger_wf (insert_entry l entry f).1
  ∧ cost_entries (committed l) `prefix_of` cost_entries (committed (insert_entry l entry f).1).
Proof.
  intros [H1 H2]. unfold insert_entry, ledger_wf. destruct (open_tx l) eqn:Eo; [by split|].
  destruct (if_begin f); [by split|]. destruct (insert_entry_locked (committed l) entry f) as [t|] eqn:E.
  - apply insert_locked_spec in E as (e & -> & Hwf). destruct (if_commit f) as [[]|]; cbn [fst committed open_tx view default].
    + split; [split; [done|by apply Hwf]|done].
    + by split.
    + split; [by split; apply Hwf|]. cbn. by exists [e].
  - cbn [fst]. unfold view. cbn [committed open_tx]. destruct (if_rollback f); by split.
Qed.

Lemma cost_step_wf l l' :
  ledger_wf l → ledger_step l l' →
  ledger_wf l' ∧ cost_entries (committed l) `prefix_of` cost_entries (committed l').
Proof.
  intros Hwf [(t & -> & Ht)|[-> |[-> |(entry & f & ->)]]]%ledger_step_cases.
  - by split; [apply set_view_wf|apply set_view_prefix].
  - split; [|done]. split; apply Hwf.
  - by split.
  - by apply insert_entry_wf.
Qed.

Lemma cost_reachable_wf l : reachable_ledger l → ledger_wf l.
Proof.
  unfold reachable_ledger. assert (ledger_wf empty_ledger) as H.
  { split; split; cbn; try set_solver; constructor. }
  revert H. generalize empty_ledger. intros l0 H Hr. induction Hr as [|x y z Hxy _ IH]; [done|].
  apply IH. by apply (cost_step_wf x y).
Qed.

(** C27. In every ledger the operations lead to, whatever SQLite fails and
    whichever transactions it leaves open: the request identifiers are unique,
    the entries of one session carry one profile label, the counters fit the
    integers of the database and no cost is a NaN; and no step removes or
    changes a committed entry. *)
Theorem ledger_entries_sound l :
  reachable_ledger l →
  entries_wf (cost_entries (committed l)) ∧ entries_wf (cost_entries (view l))
  ∧ ∀ l', ledger_step l l' → cost_entries (committed l) `prefix_of` cost_entries (committed l').
Proof.
  intros Hr%cost_reachable_wf. split_and!; [apply Hr..|]. intros l' Hs. by apply (cost_step_wf l l').
Qed.

(** A transaction that COMMIT leaves open refuses every later entry of the
    connection. *)
Lemma open_transaction_refuses l t entry f : open_tx l = Some t → insert_entry l entry f = (l, Err Sqlite).
Proof. intros E. unfold insert_entry. by rw E. Qed.
End writes.

(** ** Examples *)

Definition table_order : RowOrder := {| scan := λ A l, l |}.
#[local] Existing Instance table_order.

Lemma table_order_laws : RowOrderLaws.
Proof. by constructor. Qed.
#[local] Existing Instance table_order_laws.

Definition no_insert_faults : InsertFaults :=
  {| if_begin := false; if_select := false; if_insert := false; if_commit := None; if_rollback := false |}.

Definition call_entry (id session : rstr) (profile : option rstr) (tokens : N) : CostEntry := {|
  ce_model := lit "m"; ce_provider := lit "p"; ce_agent_domain_id := lit "general"; ce_role := lit "worker";
  ce_project := lit "orc"; ce_session := session; ce_repository := lit "r"; ce_input_tokens := tokens;
  ce_output_tokens := 0; ce_reasoning_tokens := 0; ce_cache_read_tokens := 0; ce_cache_write_tokens := 0;
  ce_request_count := 1; ce_request_id := id; ce_parent_request_id := None; ce_started_at := []; ce_completed_at := [];
  ce_wall_ms := 1; ce_cost_measured := None; ce_cost_estimated := Some f64_one; ce_cost_basis := PriceSheetEstimated;
  ce_subscription := None; ce_routing_decision := []; ce_profile := profile
|}.

Definition call_receipt (id session : rstr) : ReceiptRecord := {|
  rc_request_id := id; rc_session := session; rc_task_class := []; rc_budget_tokens := 0; rc_candidate_tokens := 100;
  rc_selected_tokens := 40; rc_omitted_count := 0; rc_raw_tool_output_tokens := 0; rc_compacted_tool_output_tokens := 0;
  rc_repeated_tokens_avoided := 0; rc_prompt_cache_eligible_tokens := 0
|}.

Definition ledger_1 := (insert_entry empty_ledger (call_entry (lit "a") (lit "s1") (Some (lit "lean")) 10) no_insert_faults).1.
Definition ledger_2 := (insert_entry ledger_1 (call_entry (lit "b") (lit "s2") None 20) no_insert_faults).1.
Definition ledger_3 := (insert_context_receipt ledger_2 (call_receipt (lit "c") (lit "s1")) false).1.
Definition ledger_4 := (insert_context_receipt ledger_3 (call_receipt (lit "d") (lit "s1")) false).1.
Definition ledger_5 := (insert_budget ledger_4 ScopeProject (lit "orc") false).1.
Definition ledger_6 := (insert_cap ledger_5 1 Cost Hard f64_one false).1.

Lemma example_reachable : reachable_ledger ledger_6.
Proof.
  eapply rtc_l; [apply step_entry|]. eapply rtc_l; [apply step_entry|]. eapply rtc_l; [apply step_receipt|].
  eapply rtc_l; [apply step_receipt|]. eapply rtc_l; [apply step_budget|]. eapply rtc_l; [apply step_cap|].
  apply rtc_refl.
Qed.

(** A second profile for a session is refused. *)
Example mixed_profile_refused :
  (insert_entry ledger_6 (call_entry (lit "e") (lit "s1") None 5) no_insert_faults).2 = Err (ProfileConflict (lit "s1")).
Proof. by vm_compute. Qed.

Lemma ledger_entries_sound_witness :
  entries_wf (cost_entries (committed ledger_6)) ∧ length (cost_entries (committed ledger_6)) = 2%nat.
Proof. split; [|reflexivity]. exact (proj1 (ledger_entries_sound ledger_6 example_reachable)). Defined.
