(* ===== verification/CostLedgerSafe.v ===== *)
(** * Cost ledger, its rollups and its spawn check

    The theorems on [CostLedger.v] about what is read: the efficiency report
    counts every entry and receipt once, and the check before a provider call
    decides exactly by the caps of its scope. *)

From S2P Require Import Prelude BTree Text Campaign RunState LoopRun CostLedger.
From Stdlib Require Import ZifyBool.

(** ** Sums over groups *)

Lemma total_app l k : total (l ++ k) = total l + total k.
Proof. unfold total. induction l as [|n l IH]; cbn [app foldr]; [done|]. rw IH. lia. Qed.

#[global] Instance total_perm : Proper ((≡ₚ) ==> (=)) total.
Proof. intros l k. unfold total. induction 1; cbn [foldr]; lia. Qed.

Lemma sum_i64_ok l n : sum_i64 l = Ok n → n = total l.
Proof. unfold sum_i64. destruct (_ <=? _); [by intros [= <-]|done]. Qed.

Lemma total_omap l : total (omap id l) = total (default 0 <$> l).
Proof.
  induction l as [|[n|] l IH]; cbn [omap list_omap fmap list_fmap id default from_option]; [done| |].
  - unfold total in *. cbn [foldr]. by rw IH.
  - unfold total in *. cbn [foldr]. by rw IH N.add_0_l.
Qed.

Lemma sum_opt_ok l o : sum_opt l = Ok o → default 0 o = total (default 0 <$> l).
Proof.
  unfold sum_opt. rw -total_omap. destruct (omap id l) as [|n ns]; [by intros [= <-]|]. cbn [is_empty].
  destruct (sum_i64 (n :: ns)) as [m|] eqn:E; [|done]. cbn [result_bind]. intros [= <-].
  change (default 0 (Some m)) with m. by apply sum_i64_ok.
Qed.

Lemma collect_rows_ok {A B} (f : A → result B LedgerError) l k :
  collect_rows f l = Ok k → Forall2 (λ x y, f x = Ok y) l k.
Proof.
  revert k. induction l as [|x l IH]; intros k; cbn [collect_rows]; [by intros [= <-]|].
  destruct (f x) as [y|] eqn:E; [|done]. cbn [result_bind].
  destruct (collect_rows f l) as [ys|]; [|done]. cbn [result_bind]. intros [= <-]. constructor; [done|by apply IH].
Qed.

Lemma total_Forall2 {A B} (P : A → B → Prop) (p : A → N) (q : B → N) l k :
  Forall2 P l k → (∀ x y, P x y → q y = p x) → total (q <$> k) = total (p <$> l).
Proof.
  intros HP H. induction HP as [|x y l k Hxy _ IH]; [done|]. unfold total in *. cbn [fmap list_fmap foldr].
  by rw IH (H x y Hxy).
Qed.

Lemma total_filter_or {A} (p : A → N) (P Q : A → bool) l :
  (∀ x, P x = true → Q x = false) →
  total (p <$> List.filter (λ x, P x || Q x) l) = total (p <$> List.filter P l) + total (p <$> List.filter Q l).
Proof.
  intros HPQ. induction l as [|x l IH]; [done|]. cbn [List.filter]. specialize (HPQ x). unfold total in *.
  destruct (P x), (Q x); cbn [orb fmap list_fmap foldr]; rw ?IH; lia.
Qed.

(** Each element is summed in the one group of its key. *)
Lemma total_by_key {A K} `{EqDecision K} (key : A → K) (p : A → N) (ks : list K) l :
  NoDup ks →
  total ((λ k, total (p <$> List.filter (λ x, bool_decide (key x = k)) l)) <$> ks)
  = total (p <$> List.filter (λ x, bool_decide (key x ∈ ks)) l).
Proof.
  induction 1 as [|k ks Hk Hnd IH].
  { rw (filter_none (λ x, bool_decide (key x ∈ []))); [done|]. intros x _. apply bool_decide_eq_false. set_solver. }
  change (total ((λ k, total (p <$> List.filter (λ x, bool_decide (key x = k)) l)) <$> k :: ks))
    with (total (p <$> List.filter (λ x, bool_decide (key x = k)) l)
          + total ((λ k, total (p <$> List.filter (λ x, bool_decide (key x = k)) l)) <$> ks)).
  rw IH -total_filter_or.
  - f_equal. f_equal. apply List.filter_ext. intros x. repeat case_bool_decide; set_solver.
  - intros x Hx. apply bool_decide_eq_true in Hx as ->. by apply bool_decide_eq_false.
Qed.

Section rollups.
Context `{Hord : RowOrder, Hlaws : !RowOrderLaws}.

Lemma total_scan {A} (p : A → N) l : total (p <$> scan l) = total (p <$> l).
Proof. by rw scan_perm. Qed.

(** The groups of a query add up to its rows. *)
Lemma total_groups {A} (key : A → rstr) (p : A → N) l :
  total ((λ k, total (p <$> group key k l)) <$> group_keys key l) = total (p <$> l).
Proof.
  unfold group_keys. rw stable_sort_Permutation.
  trans (total ((λ k, total (p <$> List.filter (λ x, bool_decide (key x = k)) l)) <$> remove_dups (key <$> l))).
  { f_equal. apply list_fmap_ext. intros i k _. apply total_scan. }
  rw total_by_key; [|apply NoDup_remove_dups]. f_equal. f_equal. apply filter_all. intros x Hx.
  apply bool_decide_eq_true, elem_of_remove_dups. by apply list_elem_of_fmap_2.
Qed.

Lemma session_sums_input s label es c :
  session_sums s label es = Ok c →
  ss_input c = total (ce_input_tokens <$> List.filter (λ e, bool_decide ((ce_session e, profile_label (ce_profile e)) = (s, label))) es).
Proof.
  unfold session_sums. cbv zeta. set (rows := List.filter _ es).
  destruct (sum_i64 (ce_input_tokens <$> scan rows)) as [i|] eqn:Ei; [|done]. cbn [result_bind].
  destruct (sum_i64 (ce_output_tokens <$> scan rows)); [|done]. cbn [result_bind].
  destruct (sum_i64 (ce_cache_read_tokens <$> scan rows)); [|done]. cbn [result_bind].
  destruct (sum_i64 (ce_cache_write_tokens <$> scan rows)); [|done]. cbn [result_bind]. intros [= <-]. cbn.
  apply sum_i64_ok in Ei as ->. rw total_scan. f_equal. f_equal. apply List.filter_ext. intros e.
  repeat case_bool_decide; naive_solver.
Qed.

Lemma receipt_sums_candidate rs s o :
  receipt_sums rs s = Ok o →
  default 0 (rs_candidate <$> o) = total (rc_candidate_tokens <$> List.filter (λ r, bool_decide (rc_session r = s)) rs)
  ∧ default 0 (rs_selected <$> o) = total (rc_selected_tokens <$> List.filter (λ r, bool_decide (rc_session r = s)) rs).
Proof.
  unfold receipt_sums. set (rows := List.filter _ rs). rw -!(total_scan _ rows).
  destruct (scan rows) as [|x xs] eqn:E; [by intros [= <-]|].
  destruct (sum_i64 (rc_candidate_tokens <$> _)) as [c|] eqn:Ec; [|done]. cbn [result_bind].
  destruct (sum_i64 (rc_selected_tokens <$> _)) as [k|] eqn:Ek; [|done]. cbn [result_bind].
  destruct (sum_i64 (rc_raw_tool_output_tokens <$> _)); [|done]. cbn [result_bind].
  destruct (sum_i64 (rc_compacted_tool_output_tokens <$> _)); [|done]. cbn [result_bind]. intros [= <-]. cbn [fmap option_fmap option_map default from_option id].
  apply sum_i64_ok in Ec, Ek. by subst.
Qed.

Lemma efficiency_row_sums grouping rows r :
  efficiency_row grouping rows = Ok r →
  te_input_tokens r = total ((λ x, ss_input x.1) <$> rows)
  ∧ default 0 (te_candidate_tokens r) = total ((λ x, default 0 (rs_candidate <$> x.2)) <$> rows)
  ∧ default 0 (te_selected_tokens r) = total ((λ x, default 0 (rs_selected <$> x.2)) <$> rows).
Proof.
  unfold efficiency_row.
  destruct (sum_i64 ((λ x, ss_input x.1) <$> rows)) as [i|] eqn:E1; [|done]. cbn [result_bind].
  destruct (sum_i64 ((λ x, ss_output x.1) <$> rows)); [|done]. cbn [result_bind].
  destruct (sum_i64 ((λ x, ss_cache_read x.1) <$> rows)); [|done]. cbn [result_bind].
  destruct (sum_i64 ((λ x, ss_cache_write x.1) <$> rows)); [|done]. cbn [result_bind].
  destruct (sum_opt ((λ x, rs_candidate <$> x.2) <$> rows)) as [c|] eqn:E2; [|done]. cbn [result_bind].
  destruct (sum_opt ((λ x, rs_selected <$> x.2) <$> rows)) as [s|] eqn:E3; [|done]. cbn [result_bind].
  destruct (sum_opt ((λ x, rs_raw_tool <$> x.2) <$> rows)); [|done]. cbn [result_bind].
  destruct (sum_opt ((λ x, rs_compacted <$> x.2) <$> rows)); [|done]. cbn [result_bind].
  intros H. apply (f_equal (λ r, match r with Ok x => Some x | Err _ => None end)) in H. injection H as <-.
  cbn [te_input_tokens te_candidate_tokens te_selected_tokens].
  apply sum_i64_ok in E1. apply sum_opt_ok in E2, E3. rw -!list_fmap_compose in E2 E3.
  split_and!; [done|exact E2|exact E3].
Qed.

(** With one profile per session, the groups of entries are the sessions. *)
Lemma entry_groups_sessions es : entries_wf es → NoDup ((entry_groups es).*1).
Proof.
  intros [_ Hp _ _]. unfold entry_groups. apply NoDup_fmap_2_strong; [|apply NoDup_remove_dups].
  intros [s p] [s' p'] Hx Hy E. cbn in E. subst s'. rw elem_of_remove_dups in Hx. rw elem_of_remove_dups in Hy.
  apply list_elem_of_fmap in Hx as (e & Ex & He), Hy as (e' & Ey & He').
  injection Ex as -> ->. injection Ey as Es ->. by rw (Hp e e').
Qed.

Lemma entry_groups_elem es s : s ∈ (entry_groups es).*1 ↔ ∃ e, e ∈ es ∧ ce_session e = s.
Proof.
  unfold entry_groups. split.
  - intros ([s' p] & -> & H)%list_elem_of_fmap. rw elem_of_remove_dups in H.
    apply list_elem_of_fmap in H as (e & [= -> ->] & He). by exists e.
  - intros (e & He & <-). apply list_elem_of_fmap. exists (ce_session e, profile_label (ce_profile e)).
    split; [done|]. apply elem_of_remove_dups, list_elem_of_fmap. by exists e.
Qed.

Definition has_entry (t : Tables) (s : rstr) : bool := bool_decide (s ∈ ce_session <$> cost_entries t).

Lemma joined_totals t rows :
  entries_wf (cost_entries t) → joined_rows t = Ok rows →
  total ((λ x, ss_input x.1) <$> rows) = total (ce_input_tokens <$> cost_entries t)
  ∧ total ((λ x, default 0 (rs_candidate <$> x.2)) <$> rows)
    = total (rc_candidate_tokens <$> List.filter (λ r, has_entry t (rc_session r)) (context_receipts t))
  ∧ total ((λ x, default 0 (rs_selected <$> x.2)) <$> rows)
    = total (rc_selected_tokens <$> List.filter (λ r, has_entry t (rc_session r)) (context_receipts t)).
Proof.
  intros Hwf H%collect_rows_ok. set (gs := entry_groups (cost_entries t)) in *.
  assert (Forall2 (λ g x, session_sums g.1 g.2 (cost_entries t) = Ok x.1
                          ∧ receipt_sums (context_receipts t) g.1 = Ok x.2) gs rows) as HF.
  { eapply Forall2_impl; [exact H|]. intros g x Hx. cbn in Hx.
    destruct (session_sums _ _ _) as [c|] eqn:E1; [|done]. cbn [result_bind] in Hx.
    destruct (receipt_sums _ _) as [r|] eqn:E2; [|done]. cbn [result_bind] in Hx. by injection Hx as <-. }
  assert (∀ p : ReceiptRecord → N,
    total ((λ g : rstr * rstr, total (p <$> List.filter (λ r, bool_decide (rc_session r = g.1)) (context_receipts t))) <$> gs)
    = total (p <$> List.filter (λ r, has_entry t (rc_session r)) (context_receipts t))) as Hrs.
  { intros p. trans (total ((λ s, total (p <$> List.filter (λ r, bool_decide (rc_session r = s)) (context_receipts t))) <$> gs.*1)).
    { by rw -list_fmap_compose. }
    rw total_by_key; [|by apply entry_groups_sessions]. f_equal. f_equal. apply List.filter_ext. intros r.
    unfold has_entry. apply bool_decide_ext. rw entry_groups_elem list_elem_of_fmap. naive_solver. }
  split_and!.
  - rw (total_Forall2 _ (λ g, total (ce_input_tokens <$> List.filter (λ e, bool_decide ((ce_session e, profile_label (ce_profile e)) = g)) (cost_entries t))) _ _ _ HF).
    2: { intros [s p] x [Hx _]. by apply session_sums_input in Hx. }
    rw total_by_key; [|apply NoDup_remove_dups]. f_equal. f_equal. apply filter_all. intros e He.
    apply bool_decide_eq_true, elem_of_remove_dups, list_elem_of_fmap. by exists e.
  - rw -Hrs. apply (total_Forall2 _ _ _ _ _ HF). intros g x [_ Hx]. by apply receipt_sums_candidate in Hx as [? _].
  - rw -Hrs. apply (total_Forall2 _ _ _ _ _ HF). intros g x [_ Hx]. by apply receipt_sums_candidate in Hx as [_ ?].
Qed.

Lemma attach_fields t rollups f out {A} (p : TokenEfficiencyRollup → A) :
  attach_session_savings_ratios t rollups f = Ok out →
  (∀ r x y, p {| te_session := te_session r; te_agent_domain_id := te_agent_domain_id r; te_profile := te_profile r;
         te_input_tokens := te_input_tokens r; te_output_tokens := te_output_tokens r;
         te_cache_read_tokens := te_cache_read_tokens r; te_cache_write_tokens := te_cache_write_tokens r;
         te_candidate_tokens := te_candidate_tokens r; te_selected_tokens := te_selected_tokens r;
         te_raw_tool_output_tokens := te_raw_tool_output_tokens r;
         te_compacted_tool_output_tokens := te_compacted_tool_output_tokens r;
         te_savings_ratio := te_savings_ratio r; te_session_savings_ratios := x; te_median_savings_ratio := y |} = p r) →
  p <$> out = p <$> rollups.
Proof.
  unfold attach_session_savings_ratios. destruct f; [done|]. cbv zeta.
  destruct (collect_rows _ _); [|done]. cbn [result_bind]. intros H Hp.
  apply (f_equal (λ r, match r with Ok x => Some x | Err _ => None end)) in H. injection H as <-.
  rw -list_fmap_compose. apply list_fmap_ext. intros i r _. apply Hp.
Qed.

(** C26. The efficiency report counts nothing twice: in every ledger the
    operations lead to, by session and by profile alike, the input tokens of the
    groups add up to those of all entries, and their candidate and selected
    tokens to those of the receipts whose session has an entry, each counted
    once. *)
Theorem efficiency_counts_once l grouping f_attach rollups :
  reachable_ledger l → token_efficiency_rollups l grouping false f_attach = Ok rollups →
  total (te_input_tokens <$> rollups) = total (ce_input_tokens <$> cost_entries (view l))
  ∧ total ((λ r, default 0 (te_candidate_tokens r)) <$> rollups)
    = total (rc_candidate_tokens <$> List.filter (λ r, has_entry (view l) (rc_session r)) (context_receipts (view l)))
  ∧ total ((λ r, default 0 (te_selected_tokens r)) <$> rollups)
    = total (rc_selected_tokens <$> List.filter (λ r, has_entry (view l) (rc_session r)) (context_receipts (view l))).
Proof.
  intros [_ Hwf]%cost_reachable_wf. unfold token_efficiency_rollups.
  destruct (joined_rows (view l)) as [rows|] eqn:Ej; [|done]. cbn [result_bind].
  destruct (collect_rows _ _) as [rs|] eqn:Ec; [|done]. cbn [result_bind]. intros H.
  assert (∀ p : TokenEfficiencyRollup → N,
            (p = te_input_tokens ∨ p = (λ r, default 0 (te_candidate_tokens r)) ∨ p = (λ r, default 0 (te_selected_tokens r))) →
            p <$> rollups = p <$> rs) as Hp.
  { intros p Hp. destruct grouping; [by injection H as <-|]. eapply attach_fields; [exact H|].
    intros r x y. by destruct Hp as [-> |[-> | ->]]. }
  destruct (joined_totals _ _ Hwf Ej) as (J1 & J2 & J3). apply collect_rows_ok in Ec.
  rw (Hp te_input_tokens) ?(Hp (λ r, default 0 (te_candidate_tokens r))) ?(Hp (λ r, default 0 (te_selected_tokens r))); [|tauto..].
  rw -J1 -J2 -J3 -(total_groups (grouping_key grouping) (λ x, ss_input x.1) rows)
    -(total_groups (grouping_key grouping) (λ x, default 0 (rs_candidate <$> x.2)) rows)
    -(total_groups (grouping_key grouping) (λ x, default 0 (rs_selected <$> x.2)) rows).
  split_and!; apply (total_Forall2 _ _ _ _ _ Ec); intros k r Hk; by apply efficiency_row_sums in Hk as (? & ? & ?).
Qed.
End rollups.

(** ** Admission of a call *)

Definition row_total (e : CostEntry) : N :=
  ce_input_tokens e + ce_output_tokens e + ce_reasoning_tokens e + ce_cache_read_tokens e + ce_cache_write_tokens e.

Lemma sum_rows_spec rows acc :
  acc ≤ u64_max →
  match sum_rows acc rows with
  | Ok n => n = N.min (acc + total (row_total <$> rows)) u64_max
  | Err _ => ∃ e, e ∈ rows ∧ i64_max < row_total e
  end.
Proof.
  revert acc. induction rows as [|e rows IH]; intros acc Hacc; cbn [sum_rows].
  { change (total (row_total <$> [])) with 0. rw N.add_0_r. by rw N.min_l. }
  unfold row_tokens. cbv zeta. fold (row_total e). destruct (N.leb_spec (row_total e) i64_max) as [Hle|Hlt].
  2: { exists e. split; [left|done]. }
  cbn [result_bind]. specialize (IH (saturating_add u64_max acc (row_total e)) (saturating_add_le _ _ _)).
  destruct (sum_rows _ rows).
  - rw IH. change (total (row_total <$> e :: rows)) with (row_total e + total (row_total <$> rows)).
    unfold saturating_add. generalize u64_max. lia.
  - destruct IH as (x & Hx & ?). exists x. by split; [right|].
Qed.

(** The caps of a scope are those of its budgets. *)
Lemma caps_of_elem t scope scope_id cap :
  cap ∈ caps_of t scope scope_id ↔
  ∃ c b, c ∈ caps t ∧ b ∈ budgets t ∧ bg_id b = cr_budget_id c ∧ bg_scope b = scope ∧ bg_scope_id b = scope_id
         ∧ cap = cr_cap c.
Proof.
  unfold caps_of. rw list_elem_of_fmap. split.
  - intros (c & -> & Hc). apply list_elem_of_bind in Hc as (c' & Hc & Hc').
    apply list_elem_of_fmap in Hc as (b & -> & [Hb Hf]%elem_of_filter_bool).
    rw !andb_true_iff N.eqb_eq !bool_decide_eq_true in Hf. exists c', b. naive_solver.
  - intros (c & b & Hc & Hb & H1 & H2 & H3 & ->). exists c. split; [done|]. apply list_elem_of_bind.
    exists c. split; [|done]. apply list_elem_of_fmap. exists b. split; [done|]. apply elem_of_filter_bool.
    split; [done|]. by rw !andb_true_iff N.eqb_eq !bool_decide_eq_true.
Qed.

Section admission.
Context `{Hord : RowOrder, Hlaws : !RowOrderLaws} (sql_sum : list f64 → f64).

Definition crossed (tp cp : f64) (cap : StoredCap) : bool := f64_lt (cap_amount cap) (projected tp cp cap).

Definition warning (request : BudgetRequest) (tp cp : f64) (cap : StoredCap) : BudgetWarningEvent :=
  {| bw_scope := br_scope request; bw_scope_id := br_scope_id request; bw_metric := cap_metric cap;
     bw_cap_kind := cap_kind cap; bw_projected := projected tp cp cap; bw_cap := cap_amount cap |}.

(** What the decision says of the caps. *)
Definition decides (request : BudgetRequest) (tp cp : f64) (caps : list StoredCap) (d : PreSpawnDecision) : Prop :=
  match d with
  | Allow => ∀ cap, cap ∈ caps → crossed tp cp cap = false
  | SoftWarn event =>
      (∀ cap, cap ∈ caps → cap_kind cap = Hard → crossed tp cp cap = false)
      ∧ ∃ cap, cap ∈ caps ∧ cap_kind cap = Soft ∧ crossed tp cp cap = true ∧ event = warning request tp cp cap
  | HardCap event fallback_route =>
      fallback_route = br_fallback_route request
      ∧ ∃ cap, cap ∈ caps ∧ cap_kind cap = Hard ∧ crossed tp cp cap = true ∧ event = warning request tp cp cap
  end.

Lemma check_caps_decides request tp cp soft done_caps caps :
  match soft with
  | Some event => decides request tp cp done_caps (SoftWarn event)
  | None => decides request tp cp done_caps Allow
  end →
  decides request tp cp (done_caps ++ caps) (check_caps request tp cp soft caps).
Proof.
  revert soft done_caps. induction caps as [|cap caps IH]; intros soft seen Hs; cbn [check_caps].
  { rw app_nil_r. by destruct soft. }
  cbv zeta. fold (crossed tp cp cap). fold (warning request tp cp cap).
  rw (cons_middle cap seen caps) app_assoc. destruct (crossed tp cp cap) eqn:Ec.
  - destruct (cap_kind cap) eqn:Ek.
    + apply IH. cbn [decides]. split; [|exists cap; split_and!; [set_solver|done..]].
      intros c [Hc| ->%list_elem_of_singleton]%elem_of_app Hk; [|congruence].
      destruct soft; cbn [decides] in Hs; [by apply Hs|by apply Hs].
    + cbn [decides]. split; [done|]. exists cap. split_and!; [set_solver|done..].
  - apply IH. destruct soft as [event|]; cbn [decides] in Hs |- *.
    + destruct Hs as (H1 & c & Hc & H2). split; [|exists c; split; [set_solver|done]].
      intros c' [Hc'| ->%list_elem_of_singleton]%elem_of_app Hk; [by apply H1|done].
    + intros c' [Hc'| ->%list_elem_of_singleton]%elem_of_app; [by apply Hs|done].
Qed.

(** C25. The check before a call decides exactly by the caps of its scope: it
    blocks when the use so far with the estimate of the call crosses a hard cap,
    and names that cap and the configured fallback; the use is that of every
    entry of the scope, each once: the saturating sum of the tokens, and the
    database's sum, over the entries in the order it reads them, of the measured
    costs or else the estimated ones; it warns of a crossed soft cap when no hard cap is
    crossed, and allows when none is.  It errs only when a query fails or an
    entry's tokens pass the database's integers, and then the call is not
    admitted. *)
Theorem spawn_check_exact l request f_tokens f_cost f_caps :
  match pre_spawn_check sql_sum l request f_tokens f_cost f_caps with
  | Err _ => f_tokens || f_cost || f_caps = true
      ∨ ∃ e, e ∈ cost_entries (view l) ∧ in_scope (br_scope request) (br_scope_id request) e = true ∧ i64_max < row_total e
  | Ok d =>
      let entries := List.filter (in_scope (br_scope request) (br_scope_id request)) (cost_entries (view l)) in
      ∃ read, read ≡ₚ entries
      ∧ let tokens := total (row_total <$> entries) in
        let cost := if is_empty read then f64_zero else sql_sum (entry_cost <$> read) in
        let tp := f64_of_u64 (N.min (tokens + br_token_estimate request) u64_max) in
        let cp := f64_add cost (default f64_zero (br_cost_estimate request)) in
        let caps := caps_of (view l) (br_scope request) (br_scope_id request) in
        decides request tp cp caps d
        ∧ (blocks_spawn d = true ↔ ∃ cap, cap ∈ caps ∧ cap_kind cap = Hard ∧ crossed tp cp cap = true)
  end.
Proof.
  unfold pre_spawn_check, token_usage_for_scope. destruct f_tokens; [by left|].
  set (rows := scope_rows _ _ _). pose proof (sum_rows_spec rows 0 ltac:(done)) as Hu.
  destruct (sum_rows 0 rows) as [usage|e]; cbn [result_bind].
  2: { destruct Hu as (x & Hx & Hlt). right. exists x. apply scan_elem, elem_of_filter_bool in Hx as [? ?]. by split_and!. }
  destruct f_cost; [by left; rw orb_true_r|]. unfold cost_usage_for_scope. cbn [result_bind].
  unfold caps_for_scope. destruct f_caps; [by left|]. cbn [result_bind]. cbv zeta. fold rows. exists rows.
  split; [apply scan_perm|].
  set (cp := f64_add _ _). set (tp := f64_of_u64 (saturating_add _ _ _)).
  assert (tp = f64_of_u64 (N.min (total (row_total <$> List.filter (in_scope (br_scope request) (br_scope_id request))
            (cost_entries (view l))) + br_token_estimate request) u64_max)) as Etp.
  { unfold tp, saturating_add. f_equal. rw Hu. unfold rows, scope_rows. rw total_scan. generalize u64_max. lia. }
  rw -Etp. set (caps := caps_of _ _ _).
  pose proof (check_caps_decides request tp cp None [] (scan caps)) as Hd.
  assert (decides request tp cp (scan caps) (check_caps request tp cp None (scan caps))) as Hd' by (apply Hd; intros c Hc; set_solver).
  clear Hd. destruct (check_caps request tp cp None (scan caps)) as [|event|event fb]; cbn [decides blocks_spawn] in *.
  - split; [intros cap Hc; by apply Hd', scan_elem|]. split; [done|]. intros (cap & Hc & _ & Hx).
    rw Hd' in Hx; [done|]. by apply scan_elem.
  - destruct Hd' as (H1 & cap & Hc & H2). split.
    + split; [intros c Hin; apply H1; by apply scan_elem|]. exists cap. split; [by apply scan_elem|done].
    + split; [done|]. intros (c & Hin & Hk & Hx). rw H1 in Hx; [done|by apply scan_elem|done].
  - destruct Hd' as (H1 & cap & Hc & Hk & Hx & He). assert (cap ∈ caps) by (by apply scan_elem). split.
    + split; [done|]. by exists cap.
    + split; [|done]. intros _. by exists cap.
Qed.
End admission.

(** ** Examples *)

#[local] Existing Instance table_order.
#[local] Existing Instance table_order_laws.

Lemma efficiency_counts_once_witness :
  ∃ rollups, token_efficiency_rollups ledger_6 ByProfile false false = Ok rollups
    ∧ length rollups = 2%nat ∧ total (te_input_tokens <$> rollups) = 30
    ∧ total ((λ r, default 0 (te_candidate_tokens r)) <$> rollups) = 200.
Proof.
  destruct (token_efficiency_rollups ledger_6 ByProfile false false) as [rollups|] eqn:E; [|by vm_compute in E].
  exists rollups. split; [done|].
  destruct (efficiency_counts_once ledger_6 ByProfile false rollups example_reachable E) as (H1 & H2 & _).
  split_and!; [vm_compute in E; by injection E as <-|rw H1; reflexivity|rw H2; reflexivity].
Defined.

(** The first summand, for the witness. *)
Definition first_sum (l : list f64) : f64 := default f64_zero (head l).

Definition next_call (cost : option f64) : BudgetRequest := {|
  br_scope := ScopeProject; br_scope_id := lit "orc"; br_token_estimate := 1; br_cost_estimate := cost;
  br_fallback_route := None |}.

Lemma spawn_check_exact_witness :
  ∃ d, pre_spawn_check first_sum ledger_6 (next_call (Some f64_one)) false false false = Ok d
    ∧ blocks_spawn d = true
    ∧ ∃ tp cp cap, cap ∈ caps_of (view ledger_6) ScopeProject (lit "orc") ∧ cap_kind cap = Hard ∧ crossed tp cp cap = true.
Proof.
  pose proof (spawn_check_exact first_sum ledger_6 (next_call (Some f64_one)) false false false) as H.
  destruct (pre_spawn_check first_sum ledger_6 (next_call (Some f64_one)) false false false) as [d|] eqn:E;
    [|by vm_compute in E].
  exists d. assert (blocks_spawn d = true) as Hb by (vm_compute in E; by injection E as <-).
  split_and!; [done..|]. destruct H as (cost & _ & _ & H). destruct (proj1 H Hb) as (cap & Hc).
  eexists _, _, cap. exact Hc.
Defined.

(** A cost estimate that is no number crosses no cap. *)
Example nan_estimate_allowed :
  pre_spawn_check first_sum ledger_6 (next_call (Some S754_nan)) false false false = Ok Allow.
Proof. by vm_compute. Qed.

(** After a COMMIT that leaves its transaction open, a valid entry is refused. *)
Example busy_commit_wedges :
  let busy := {| if_begin := false; if_select := false; if_insert := false; if_commit := Some true; if_rollback := false |} in
  let l := (insert_entry empty_ledger (call_entry (lit "a") (lit "s1") None 1) busy).1 in
  (insert_entry l (call_entry (lit "b") (lit "s2") None 1) no_insert_faults).2 = Err Sqlite
  ∧ committed (insert_budget l ScopeAgent (lit "x") false).1 = committed empty_ledger.
Proof. by vm_compute. Qed.
