(* ===== verification/Traced.v ===== *)
(** * Computations over an outside world, with a trace

    A command of the program talks to processes and services that answer as they
    like.  A computation passes the state [W] of that outside on, appends the
    exchanges [E] it makes to a trace, and ends with a value or an error [X].
    [wp] is its weakest precondition over every outside; [emits P] says that only
    exchanges in [P] are added. *)

From S2P Require Import Prelude.

Section traced.
Context {W E X : Type}.
Implicit Types t : list E.

Record St := { world : W; trace : list E }.

Definition M (A : Type) : Type := St → St * result A X.

Definition ret {A} (a : A) : M A := λ s, (s, Ok a).
Definition fail {A} (e : X) : M A := λ s, (s, Err e).
Definition bind {A B} (m : M A) (k : A → M B) : M B := λ s,
  let '(s, r) := m s in match r with Ok a => k a s | Err e => (s, Err e) end.

(** A failure as a value. *)
Definition try {A} (m : M A) : M (result A X) := λ s, let '(s, r) := m s in (s, Ok r).

Definition of_result {A} (r : result A X) : M A := λ s, (s, r).
Definition of_option {A} (e : X) (o : option A) : M A := match o with Some a => ret a | None => fail e end.

(** One exchange with the outside. *)
Definition exchange {A B} (ask : W → W * B) (event : B → E) (out : B → result A X) : M A := λ s,
  let '(w, b) := ask (world s) in ({| world := w; trace := trace s ++ [event b] |}, out b).

(** A step of the outside that is not recorded. *)
Definition silent {A B} (ask : W → W * B) (out : B → result A X) : M A := λ s,
  let '(w, b) := ask (world s) in ({| world := w; trace := trace s |}, out b).

(** ** Weakest preconditions *)

Definition wp {A} (m : M A) t (Q : list E → result A X → Prop) : Prop :=
  ∀ w, let '(s, r) := m {| world := w; trace := t |} in Q (trace s) r.

Lemma wp_ret {A} (a : A) t Q : Q t (Ok a) → wp (ret a) t Q.
Proof. by intros H w. Qed.

Lemma wp_fail {A} e t (Q : _ → result A _ → Prop) : Q t (Err e) → wp (fail e) t Q.
Proof. by intros H w. Qed.

Lemma wp_of_result {A} (r : result A _) t Q : Q t r → wp (of_result r) t Q.
Proof. by intros H w. Qed.

Lemma wp_of_option {A} e (o : option A) t Q :
  match o with Some a => Q t (Ok a) | None => Q t (Err e) end → wp (of_option e o) t Q.
Proof. destruct o; [apply wp_ret|apply wp_fail]. Qed.

Lemma wp_seq {A B} (m : M A) (k : A → M B) t Q :
  wp m t (λ t' r, match r with Ok a => wp (k a) t' Q | Err e => Q t' (Err e) end) → wp (bind m k) t Q.
Proof.
  intros H w. specialize (H w). unfold bind. destruct (m _) as [[w' t'] [a|e]]; [apply H|done].
Qed.

Lemma wp_weaken {A} (m : M A) t (P Q : _ → result A _ → Prop) :
  wp m t P → (∀ t' r, P t' r → Q t' r) → wp m t Q.
Proof. intros H HPQ w. specialize (H w). destruct (m _) as [s r]. by apply HPQ. Qed.

Lemma wp_and {A} (m : M A) t (P Q : _ → result A _ → Prop) :
  wp m t P → wp m t Q → wp m t (λ t' r, P t' r ∧ Q t' r).
Proof. intros HP HQ w. specialize (HP w). specialize (HQ w). by destruct (m _) as [s r]. Qed.

Lemma wp_try {A} (m : M A) t Q : wp m t (λ t' r, Q t' (Ok r)) → wp (try m) t Q.
Proof. intros H w. specialize (H w). unfold try. by destruct (m _) as [s r]. Qed.

Lemma wp_exchange {A B} (ask : W → W * B) event (out : B → result A X) t Q :
  (∀ b, Q (t ++ [event b]) (out b)) → wp (exchange ask event out) t Q.
Proof. intros H w. unfold exchange. cbn. destruct (ask w) as [w' b]. apply H. Qed.

Lemma wp_silent {A B} (ask : W → W * B) (out : B → result A X) t Q :
  (∀ b, Q t (out b)) → wp (silent ask out) t Q.
Proof. intros H w. unfold silent. cbn. destruct (ask w) as [w' b]. apply H. Qed.

(** A run from the empty trace. *)
Lemma run_wp {A} (m : M A) (Q : list E → result A X → Prop) w s r :
  wp m [] Q → m {| world := w; trace := [] |} = (s, r) → Q (trace s) r.
Proof. intros Hm H. specialize (Hm w). by rw H in Hm. Qed.

(** ** What a computation emits *)

(** [t'] adds exchanges of [P]. *)
Definition adds (P : E → bool) t t' : Prop := ∃ l, t' = t ++ l ∧ Forall (λ e, P e = true) l.

#[export] Instance adds_preorder P : PreOrder (adds P).
Proof.
  split; [by exists []; rw app_nil_r|]. intros ??? (l & -> & Hl) (k & -> & Hk). exists (l ++ k).
  rw app_assoc. split; [done|by apply Forall_app_2].
Qed.

Lemma adds_snoc P t e : P e = true → adds P t (t ++ [e]).
Proof. intros H. exists [e]. split; [done|by repeat constructor]. Qed.

Lemma adds_mono (P Q : E → bool) t t' : (∀ e, P e = true → Q e = true) → adds P t t' → adds Q t t'.
Proof. intros H (l & -> & Hl). exists l. split; [done|]. eapply Forall_impl; [exact Hl|apply H]. Qed.

(** A computation that adds only exchanges of [P], from every trace. *)
Definition emits {A} (P : E → bool) (m : M A) : Prop := ∀ t, wp m t (λ t' _, adds P t t').

Lemma emits_seq {A B} P (m : M A) (k : A → M B) : emits P m → (∀ a, emits P (k a)) → emits P (bind m k).
Proof.
  intros Hm Hk t. apply wp_seq. eapply wp_weaken; [apply Hm|]. intros t' [a|e] Ht; [|done].
  eapply wp_weaken; [apply Hk|]. intros t'' r Ht'. by etrans.
Qed.

Lemma emits_pure {A} P (a : A) : emits P (ret a).
Proof. intros t. by apply wp_ret. Qed.
Lemma emits_fail {A} P e : emits P (fail (A := A) e).
Proof. intros t. by apply wp_fail. Qed.
Lemma emits_of_result {A} P (r : result A _) : emits P (of_result r).
Proof. intros t. by apply wp_of_result. Qed.
Lemma emits_of_option {A} P e (o : option A) : emits P (of_option e o).
Proof. intros t. apply wp_of_option. by destruct o. Qed.
Lemma emits_try {A} P (m : M A) : emits P m → emits P (try m).
Proof. intros H t. apply wp_try, H. Qed.
Lemma emits_silent {A B} P (ask : W → W * B) (out : B → result A X) : emits P (silent ask out).
Proof. intros t. by apply wp_silent. Qed.
Lemma emits_exchange {A B} P (ask : W → W * B) event (out : B → result A X) :
  (∀ b, P (event b) = true) → emits P (exchange ask event out).
Proof. intros H t. apply wp_exchange. intros b. by apply adds_snoc. Qed.

Lemma wp_emits {A} P (m : M A) t (Q : _ → result A _ → Prop) :
  emits P m → (∀ t' r, adds P t t' → Q t' r) → wp m t Q.
Proof. intros Hm HQ. eapply wp_weaken; [apply Hm|]. done. Qed.
End traced.
Arguments St : clear implicits.
Arguments M : clear implicits.

Declare Scope traced_scope.
Notation "'let*' x ':=' m 'in' k" := (bind m (fun x => k))
  (at level 10, x pattern, m at level 100, k at level 200) : traced_scope.

Create HintDb traced.
#[export] Hint Resolve emits_pure emits_fail emits_of_result emits_of_option emits_silent : traced.

(** [emits] is closed under the constructs of the computations. *)
Ltac solve_emits :=
  repeat first
    [ progress intros
    | solve [eauto with traced]
    | apply emits_seq
    | apply emits_try
    | apply emits_exchange; by intros
    | match goal with |- emits _ (match ?x with _ => _ end) => destruct x end
    | match goal with |- emits _ (if ?x then _ else _) => destruct x end ].
