(* ===== verification/PushBranch.v ===== *)
(** * Landing a branch

    [crates/orchestraitor-cli/src/commands/github.rs], [push_branch] and what it
    calls: the tree of a local branch lands on a remote branch as one commit
    that GitHub signs, by way of a temporary branch.

    GitHub and the local [git] are the class [LandingEnv]: they answer as they
    like and change while they do; every exchange is recorded in a trace.
    [from_utf8_lossy] is the library's, so the output of a command is text, and
    [base64] the codec of the third-party crate. *)

From S2P Require Import Prelude BTree Text Substring Events Config PrStatus Traced.
From Stdlib Require Import ZifyBool.

(** ** The exchanges *)

Record FileChanges := { additions : list (rstr * rstr); deletions : list rstr }.

(** The operations of [GraphqlSession]. *)
Inductive Op :=
| ORepositoryId
| OBranchRef (branch : rstr)
| OCreateCommit (branch expected_head_oid headline body : rstr) (file_changes : FileChanges)
| ODefaultBranch
| OBranchHead (branch : rstr)
| OHeadCommit (oid : rstr)
| OUpdateRefs (repository_id remote_branch before_oid after_oid : rstr)
| ODeleteRef (ref_id : rstr)
| OCreateRef (repository_id name oid : rstr).

Definition is_mutation (op : Op) : bool :=
  match op with OCreateCommit _ _ _ _ _ | OUpdateRefs _ _ _ _ | ODeleteRef _ | OCreateRef _ _ _ => true | _ => false end.

(** The commands of [git]. *)
Inductive GitCmd :=
| RemoteGetUrl
| SymbolicRef
| RevParseTree (rev : rstr)
| RevParseVerify (rev : rstr)
| SubjectOf (oid : rstr)
| DiffTree (base tree : rstr)
| CatFileType (spec : rstr)
| CatFileBlob (spec : rstr)
| LsTree (tree : rstr)
| FetchAuthenticated (what : rstr).

Inductive PushError :=
| EGit | EBody | EConfig | EMint | EStderr
| ETransport | EHttpStatus | EShape | EGraphql | EMissingData | EMalformed
| EInvalidRepo | ENoRepo | ENoOwner
| EEnforcement | EExpectTreeBlank | EExpectTreeMismatch
| EBaseUnresolved | EDefaultBranchMissing | EBaseTreeUnreadable | EHeadTreeUnreadable
| EDuplicateSubject | EReLandNeedsBranch | ENotABlob | EDiffStatus | ENoBootstrap
| ETempCollision | ETreeMismatch | ENotVerified | EBranchGone | EBranchElsewhere.

Inductive Event :=
| EGql (op : Op) (answer : result Value PushError)
| EGitRun (cmd : GitCmd) (answer : option rstr).

Class LandingEnv (W : Type) := {
  (** One POST: no response, or its status and its body as JSON. *)
  post : W → Op → W * option (N * option Value);
  run_git : W → GitCmd → W * option rstr;
  read_body : W → rstr → W * option rstr;
  mint : W → W * bool;
  (** A line on the standard error. *)
  stderr_ok : W → W * bool
}.

Section push.
Context {W : Type} `{LandingEnv W} (base64 : rstr → rstr).

Local Abbreviation M := (Traced.M W Event PushError).
Local Open Scope traced_scope.

Definition say : M unit := silent stderr_ok (λ ok, if ok then Ok tt else Err EStderr).

Definition git_raw (cmd : GitCmd) : M rstr :=
  exchange (λ w, run_git w cmd) (EGitRun cmd) (λ out, match out with Some o => Ok o | None => Err EGit end).

(** [git], with its output trimmed. *)
Definition git (cmd : GitCmd) : M rstr := let* out := git_raw cmd in ret (trim out).

Definition git_fetch_authenticated (what : rstr) : M bool :=
  exchange (λ w, run_git w (FetchAuthenticated what)) (EGitRun (FetchAuthenticated what)) (λ out, Ok (bool_decide (is_Some out))).

(** ** GraphQL *)

Definition is_success (status : N) : bool := (200 <=? status) && (status <? 300).

Definition error_messages (envelope : Value) : list rstr :=
  omap (λ e, str_at e (lit "message")) (default [] (get envelope (lit "errors") ≫= as_array)).

Definition decode_response (response : option (N * option Value)) : result Value PushError :=
  match response with
  | None => Err ETransport
  | Some (status, body) =>
      if negb (is_success status) then Err EHttpStatus
      else match body with
           | None => Err EShape
           | Some envelope =>
               if is_empty (error_messages envelope) then ok_or (get envelope (lit "data")) EMissingData
               else Err EGraphql
           end
  end.

Definition execute (op : Op) : M Value :=
  exchange (λ w, let '(w, response) := post w op in (w, decode_response response)) (EGql op) id.

Definition graphql_mutation_field (data : Value) (mutation field : rstr) : result Value PushError :=
  match get data mutation ≫= λ payload, get payload field with
  | Some v => if is_null v then Err EMalformed else Ok v
  | None => Err EMalformed
  end.

Definition repository_id : M rstr :=
  let* data := execute ORepositoryId in
  of_option EMalformed (r ← get data (lit "repository"); str_at r (lit "id")).

Definition branch_ref (branch : rstr) : M (option Value) :=
  let* data := execute (OBranchRef branch) in
  ret (match pointer data [lit "repository"; lit "ref"] with
       | Some v => if is_null v then None else Some v
       | None => None
       end).

Definition create_commit_on_branch (branch expected headline body : rstr) (changes : FileChanges) : M Value :=
  let* data := execute (OCreateCommit branch expected headline body changes) in
  of_result (graphql_mutation_field data (lit "createCommitOnBranch") (lit "commit")).

Definition default_branch : M rstr :=
  let* data := execute ODefaultBranch in
  of_option EMalformed (pointer data [lit "repository"; lit "defaultBranchRef"; lit "name"] ≫= as_str).

Definition default_branch_head (branch : rstr) : M (option rstr) :=
  let* data := execute (OBranchHead branch) in
  match pointer data [lit "repository"; lit "ref"] with
  | Some VNull => ret None
  | _ => of_option EMalformed
           (Some <$> (pointer data [lit "repository"; lit "ref"; lit "target"; lit "oid"] ≫= as_str))
  end.

Definition head_commit (oid : rstr) : M Value :=
  let* data := execute (OHeadCommit oid) in
  of_option EMalformed (pointer data [lit "repository"; lit "object"]).

Definition target_oid (ref_payload : Value) : option rstr := pointer ref_payload [lit "target"; lit "oid"] ≫= as_str.

(** The branch, read again, points at [oid]. *)
Definition points_at (branch : option Value) (oid : rstr) : bool :=
  match branch ≫= target_oid with Some o => eq_ignore_ascii_case o oid | None => false end.

Definition move_ref_with_precondition (repo_id remote_branch observed_head_oid new_oid : rstr) : M unit :=
  let* data := try (execute (OUpdateRefs repo_id remote_branch observed_head_oid new_oid)) in
  match data with
  | Err error =>
      let* probe := try (branch_ref remote_branch) in
      let moved := match probe with Ok b => points_at b new_oid | Err _ => false end in
      if moved then say else fail error
  | Ok data =>
      let verify :=
        let* moved_head := branch_ref remote_branch in
        match moved_head ≫= target_oid with
        | None => fail EBranchGone
        | Some moved_oid => if eq_ignore_ascii_case moved_oid new_oid then ret tt else fail EBranchElsewhere
        end in
      match graphql_mutation_field data (lit "updateRefs") (lit "clientMutationId") with
      | Err e =>
          let* b := branch_ref remote_branch in
          if points_at b new_oid then say else fail e
      | Ok _ => verify
      end
  end.

(** A missing payload field is no failure. *)
Definition delete_ref (ref_id : rstr) : M unit :=
  let* _ := execute (ODeleteRef ref_id) in ret tt.

Definition create_ref (repo_id name oid : rstr) : M Value :=
  let* data := execute (OCreateRef repo_id name oid) in
  of_result (graphql_mutation_field data (lit "createRef") (lit "ref")).

(** ** The gates *)

Definition verify_expect_tree (local_tree : rstr) (expect_tree : option rstr) : result unit PushError :=
  match expect_tree with
  | None => Ok tt
  | Some expect_tree =>
      let expect_tree := trim expect_tree in
      if is_empty expect_tree then Err EExpectTreeBlank
      else if eq_ignore_ascii_case expect_tree local_tree then Ok tt else Err EExpectTreeMismatch
  end.

Definition reject_duplicate_subjects (remote_head_subject : option rstr) (landing_headline : rstr) : result unit PushError :=
  match remote_head_subject with
  | None => Ok tt
  | Some s => if bool_decide (s = landing_headline) then Err EDuplicateSubject else Ok tt
  end.

Definition commit_oid (commit : Value) : result rstr PushError := ok_or (str_at commit (lit "oid")) EMalformed.

Definition verify_landed_commit (commit : Value) (local_tree : rstr) : result unit PushError :=
  let? _ := commit_oid commit in
  let? landed_tree := ok_or (pointer commit [lit "tree"; lit "oid"] ≫= as_str) EMalformed in
  if negb (bool_decide (landed_tree = local_tree)) then Err ETreeMismatch
  else if negb (default false (get commit (lit "signature") ≫= λ s, get s (lit "isValid") ≫= as_bool)) then Err ENotVerified
  else Ok tt.

Definition require_service_identity (github_app : option GitHubAppConfig) : result unit PushError :=
  match github_app with
  | None => Err EEnforcement
  | Some app =>
      match ga_client_id app, ga_installation_id app, ga_private_key_uri app with
      | Some _, Some _, Some _ => Ok tt
      | _, _, _ => Err EEnforcement
      end
  end.

Definition enforcement_required (github_app : option GitHubAppConfig) : bool :=
  match github_app ≫= ga_enforcement with Some Required => true | _ => false end.

(** ** The repository *)

Definition resolve_repo_slug (owner_flag repo_flag origin_owner origin_repo : option rstr)
    : result (rstr * rstr) PushError :=
  let non_blank := λ o : option rstr, match trim <$> o with Some [] => None | o => o end in
  let owner_flag := non_blank owner_flag in
  match (trim <$> repo_flag) ≫= split_once 47 with
  | Some (owner, repo) =>
      let owner := trim owner in
      let repo := trim repo in
      if is_empty owner || is_empty repo then Err EInvalidRepo else Ok (owner, repo)
  | None =>
      let? repo := match non_blank repo_flag with Some repo => Ok repo | None => ok_or origin_repo ENoRepo end in
      let? owner := ok_or (match owner_flag with Some o => Some o | None => origin_owner end) ENoOwner in
      Ok (owner, repo)
  end.

(** [rsplit('@').next()]. *)
Definition host_of (authority : rstr) : rstr := match rsplit_once 64 authority with Some (_, host) => host | None => authority end.

Definition is_github (authority : rstr) : bool := eq_ignore_ascii_case (host_of authority) (lit "github.com").

Definition strip_slashes (s : rstr) : rstr := trim_end_matches (N.eqb 47) s.

Definition parse_github_owner_repo (url : rstr) : option (rstr * rstr) :=
  let trimmed := strip_slashes (trim url) in
  let trimmed := if ends_with_str (lit ".git") trimmed then take (length trimmed - 4) trimmed else trimmed in
  let tail :=
    match split_once_str (lit "://") trimmed with
    | Some (_, rest) =>
        p ← split_once 47 rest; if is_github p.1 then Some p.2 else None
    | None =>
        p ← split_once 58 trimmed;
        if is_github p.1 && negb (match p.2 with 47 :: _ => true | _ => false end) then Some p.2 else None
    end in
  tail ← tail;
  p ← split_once 47 (strip_slashes tail);
  let owner := trim p.1 in
  let repo := trim p.2 in
  if negb (is_empty owner) && negb (is_empty repo) && negb (existsb is_whitespace owner)
  then Some (owner, repo) else None.

Definition origin_owner_repo : M (option rstr * option rstr) :=
  let* url := try (git RemoteGetUrl) in
  ret (match url with
       | Ok url => match parse_github_owner_repo url with
                   | Some (owner, repo) => (Some owner, Some repo)
                   | None => (None, None)
                   end
       | Err _ => (None, None)
       end).

(** ** The change set *)

Fixpoint diff_records (fields : list rstr) : list (rstr * rstr) :=
  match fields with
  | [] => []
  | [] :: fields => diff_records fields
  | status :: fields =>
      match fields with
      | [] => []
      | [] :: _ => []
      | path :: fields => (status, path) :: diff_records fields
      end
  end.

Definition parse_diff_tree_z (raw : rstr) : list (rstr * rstr) := diff_records (split 0 raw).

Definition diff_tree_changes (base_tree tree : rstr) : M (list (rstr * rstr)) :=
  let* raw := git_raw (DiffTree base_tree tree) in ret (parse_diff_tree_z raw).

Definition parse_ls_tree_z (raw : rstr) : gmap rstr rstr :=
  foldl (λ modes record,
    match split_once 9 record with
    | Some (meta, path) => <[path := default [] (head (split 32 meta))]> modes
    | None => modes
    end) ∅ (split 0 raw).

Definition tree_entry_mode (modes : gmap rstr rstr) (path : rstr) : rstr := default (lit "100644") (modes !! path).

Definition local_tree_modes (tree : rstr) : M (gmap rstr rstr) :=
  let* raw := git_raw (LsTree tree) in ret (parse_ls_tree_z raw).

Definition base_tree_modes (diff_base_tree : rstr) : M (gmap rstr rstr) :=
  if is_empty diff_base_tree then ret ∅
  else let* raw := try (git_raw (LsTree diff_base_tree)) in
       ret (match raw with Ok raw => parse_ls_tree_z raw | Err _ => ∅ end).

Fixpoint build_changes (changes : list (rstr * rstr)) (branch : rstr) (base_modes : gmap rstr rstr) : M FileChanges :=
  match changes with
  | [] => ret {| additions := []; deletions := [] |}
  | (status, path) :: changes =>
      if bool_decide (status = lit "A") || bool_decide (status = lit "M") then
        let spec := branch ++ lit ":" ++ path in
        let* object_type := git (CatFileType spec) in
        if negb (bool_decide (object_type = lit "blob")) then fail ENotABlob
        else
          let* bytes := git_raw (CatFileBlob spec) in
          let* modes := local_tree_modes branch in
          let* _ := (if bool_decide (status = lit "A") && bool_decide (tree_entry_mode modes path = lit "100755")
                        && negb (bool_decide (base_modes !! path = Some (lit "100755")))
                     then say else ret tt) in
          let* rest := build_changes changes branch base_modes in
          ret {| additions := (path, base64 bytes) :: additions rest; deletions := deletions rest |}
      else if bool_decide (status = lit "D") then
        let* rest := build_changes changes branch base_modes in
        ret {| additions := additions rest; deletions := path :: deletions rest |}
      else fail EDiffStatus
  end.

Definition build_file_changes (changes : list (rstr * rstr)) (branch diff_base_tree : rstr) : M FileChanges :=
  let* base_modes := base_tree_modes diff_base_tree in build_changes changes branch base_modes.

Definition remote_head_tree (ref_payload : Value) (fallback_base : option rstr) (remote_branch : rstr) : M rstr :=
  let* head := of_option EMalformed (target_oid ref_payload) in
  let* fetched := git_fetch_authenticated head in
  let* _ := (if fetched then ret true else git_fetch_authenticated remote_branch) in
  let* tree := try (git (RevParseTree head)) in
  match tree, fallback_base with
  | Ok tree, _ => ret tree
  | Err _, None => fail EHeadTreeUnreadable
  | Err _, Some base =>
      let* fetched := git_fetch_authenticated base in
      if negb fetched then fail EHeadTreeUnreadable
      else
        let* present := try (git (RevParseVerify head)) in
        match present with
        | Err _ => fail EHeadTreeUnreadable
        | Ok _ =>
            let* tree := try (git (RevParseTree head)) in
            match tree with Ok tree => ret tree | Err _ => fail EHeadTreeUnreadable end
        end
  end.

(** ** The landing *)

Definition heads (branch : rstr) : rstr := lit "refs/heads/" ++ branch.

Definition bootstrap_temp_branch (repo_id temp_branch bootstrap_oid : rstr) : M (rstr * rstr) :=
  let* existing := branch_ref temp_branch in
  match existing with
  | Some _ => fail ETempCollision
  | None =>
      let* created := create_ref repo_id (heads temp_branch) bootstrap_oid in
      let* head := of_option EMalformed (target_oid created) in
      let* ref_id := of_option EMalformed (str_at created (lit "id")) in
      ret (head, ref_id)
  end.

Definition land_on_temp_branch (temp_branch temp_ref_id temp_head message body : rstr) (changes : FileChanges)
    (local_tree : rstr) : M rstr :=
  let* commit := try (create_commit_on_branch temp_branch temp_head message body changes) in
  match commit with
  | Err error => let* _ := try (delete_ref temp_ref_id) in fail error
  | Ok commit =>
      match verify_landed_commit commit local_tree with
      | Err error => let* _ := try (delete_ref temp_ref_id) in fail error
      | Ok _ => of_result (commit_oid commit)
      end
  end.

Record PushBranchArgs := {
  pa_branch : option rstr;
  pa_remote_branch : option rstr;
  pa_base : option rstr;
  pa_message : rstr;
  pa_body_file : option rstr;
  pa_owner : option rstr;
  pa_repo : option rstr;
  pa_re_land : bool;
  pa_dry_run : bool;
  pa_expect_tree : option rstr
}.

Definition re_land_unsigned_head (existing : option Value) (remote_branch : rstr) (args : PushBranchArgs)
    (body local_tree uuid : rstr) : M unit :=
  match existing with
  | None => fail EReLandNeedsBranch
  | Some ref_payload =>
      let* remote_head := of_option EMalformed (target_oid ref_payload) in
      let* commit := head_commit remote_head in
      if default false (pointer commit [lit "signature"; lit "isValid"] ≫= as_bool) then say
      else
        let* repo_id := repository_id in
        let temp_branch := lit "push-branch/tmp-re-land-" ++ uuid in
        let* (temp_head, temp_ref_id) := bootstrap_temp_branch repo_id temp_branch remote_head in
        let* new_head := try (land_on_temp_branch temp_branch temp_ref_id temp_head (pa_message args) body
                                {| additions := []; deletions := [] |} local_tree) in
        match new_head with
        | Err error => let* _ := try (delete_ref temp_ref_id) in fail error
        | Ok new_head =>
            let* _ := try (delete_ref temp_ref_id) in
            let* _ := move_ref_with_precondition repo_id remote_branch remote_head new_head in
            say
        end
  end.

(** The diff base: the tree to compare with and the commit it belongs to. *)
Definition diff_base (existing : option Value) (args : PushBranchArgs) (remote_branch : rstr) : M (rstr * option rstr) :=
  match existing with
  | Some ref_payload =>
      let* tree := remote_head_tree ref_payload (pa_base args) remote_branch in
      ret (tree, target_oid ref_payload)
  | None =>
      let* base_ref := match pa_base args with Some base => ret base | None => default_branch end in
      let* answer := default_branch_head base_ref in
      let* base_head := match answer, pa_base args with
                        | Some head, _ => ret head
                        | None, Some _ =>
                            let* r := try (git (RevParseVerify base_ref)) in
                            match r with Ok head => ret head | Err _ => fail EBaseUnresolved end
                        | None, None => fail EDefaultBranchMissing
                        end in
      let* _ := git_fetch_authenticated base_head in
      let* tree := try (git (RevParseTree base_head)) in
      match tree with Ok tree => ret (tree, Some base_head) | Err _ => fail EBaseTreeUnreadable end
  end.

(** The subject of the comparison head, where it can be read; the warning's
    failure is ignored. *)
Definition head_subject (base_commit : option rstr) : M (option rstr) :=
  match base_commit with
  | None => ret None
  | Some oid =>
      let* subject := try (git (SubjectOf oid)) in
      match subject with
      | Ok (c :: s) => ret (Some (c :: s))
      | _ => let* _ := try say in ret None
      end
  end.

(** The part of [push_branch] that may write: [changes] is not empty. *)
Definition land_changes (existing : option Value) (remote_branch local_branch : rstr) (args : PushBranchArgs)
    (body local_tree diff_base_tree : rstr) (base_commit : option rstr) (changes : list (rstr * rstr)) (uuid : rstr) : M unit :=
  let* file_changes := build_file_changes changes local_branch diff_base_tree in
  if pa_dry_run args then say
  else
    let* repo_id := repository_id in
    let temp_branch := lit "push-branch/tmp-" ++ uuid in
    let observed_head := existing ≫= target_oid in
    let* temp_bootstrap := of_option ENoBootstrap (match observed_head with Some oid => Some oid | None => base_commit end) in
    let* (temp_head, temp_ref_id) := bootstrap_temp_branch repo_id temp_branch temp_bootstrap in
    let* new_head := land_on_temp_branch temp_branch temp_ref_id temp_head (pa_message args) body file_changes local_tree in
    let* swing := try (match observed_head with
                       | Some observed => move_ref_with_precondition repo_id remote_branch observed new_head
                       | None => let* _ := create_ref repo_id (heads remote_branch) new_head in ret tt
                       end) in
    let* _ := try (delete_ref temp_ref_id) in
    let* _ := of_result swing in
    say.

Definition push_branch (config : option (option GitHubAppConfig)) (args : PushBranchArgs) (uuid : rstr) : M unit :=
  let* (origin_owner, origin_repo) := origin_owner_repo in
  let* _ := of_result (resolve_repo_slug (pa_owner args) (pa_repo args) origin_owner origin_repo) in
  let* local_branch := match pa_branch args with Some b => ret b | None => git SymbolicRef end in
  let remote_branch := default local_branch (pa_remote_branch args) in
  let* body := match pa_body_file args with
               | Some file => silent (λ w, read_body w file) (λ b, match b with Some b => Ok b | None => Err EBody end)
               | None => ret []
               end in
  let* github_app := of_option EConfig config in
  let* _ := (if enforcement_required github_app then of_result (require_service_identity github_app) else ret tt) in
  let* local_tree := git (RevParseTree local_branch) in
  let* _ := of_result (verify_expect_tree local_tree (pa_expect_tree args)) in
  let* _ := silent mint (λ ok, if ok then Ok tt else Err EMint) in
  let* existing := branch_ref remote_branch in
  let* (diff_base_tree, base_commit) := diff_base existing args remote_branch in
  let* changes := diff_tree_changes diff_base_tree local_tree in
  if is_empty changes && negb (pa_re_land args) then say
  else
    let* subject := head_subject base_commit in
    let* _ := of_result (reject_duplicate_subjects subject (pa_message args)) in
    let* changes := diff_tree_changes diff_base_tree local_tree in
    if is_empty changes && negb (pa_re_land args) then say
    else if is_empty changes then
      if pa_dry_run args then
        match existing with None => fail EReLandNeedsBranch | Some _ => say end
      else re_land_unsigned_head existing remote_branch args body local_tree uuid
    else land_changes existing remote_branch local_branch args body local_tree diff_base_tree base_commit changes uuid.
End push.
