(* ===== verification/PushBranchSafe.v ===== *)
(** * Landing a branch, its theorems

    What [push_branch] of [PushBranch.v] writes and when, for every GitHub and
    every local repository. *)

From S2P Require Import Prelude BTree Text Substring Events Config PrStatus Traced PushBranch.
From Stdlib Require Import ZifyBool.

(** ** Reading *)

Definition event_in (f : Op → bool) (e : Event) : bool := match e with EGql op _ => f op | EGitRun _ _ => true end.

Definition reading (op : Op) : bool := negb (is_mutation op).

(** Nothing is written. *)
Abbreviation quiet := (adds (event_in reading)).
Abbreviation reads := (emits (event_in reading)).

Section steps.
Context {W : Type} `{Henv : LandingEnv W}.
Implicit Types t : list Event.

Lemma wp_say t Q : (∀ r, Q t r) → wp say t Q.
Proof. intros H. apply wp_silent. intros b. apply H. Qed.

Lemma wp_execute op t Q : (∀ a, Q (t ++ [EGql op a]) a) → wp (execute op) t Q.
Proof. intros H. apply wp_exchange. intros b. apply H. Qed.

Lemma emits_say f : emits (event_in f) say.
Proof. apply emits_silent. Qed.
Lemma emits_git_raw f cmd : emits (event_in f) (git_raw cmd).
Proof. by apply emits_exchange. Qed.
Lemma emits_fetch f what : emits (event_in f) (git_fetch_authenticated what).
Proof. by apply emits_exchange. Qed.
Lemma emits_execute f op : f op = true → emits (event_in f) (execute op).
Proof. intros H. by apply emits_exchange. Qed.
End steps.

#[export] Hint Resolve emits_say emits_git_raw emits_fetch : traced.
#[export] Hint Extern 2 (emits _ (execute _)) => by apply emits_execute : traced.

Section landing.
Context {W : Type} `{Henv : LandingEnv W} (base64 : rstr → rstr).
Implicit Types t : list Event.

Lemma emits_git f cmd : emits (event_in f) (git cmd).
Proof. unfold git. solve_emits. Qed.
Lemma reads_repository_id : reads repository_id.
Proof. unfold repository_id. solve_emits. Qed.
Lemma reads_branch_ref b : reads (branch_ref b).
Proof. unfold branch_ref. solve_emits. Qed.
Lemma reads_default_branch : reads default_branch.
Proof. unfold default_branch. solve_emits. Qed.
Lemma reads_default_branch_head b : reads (default_branch_head b).
Proof. unfold default_branch_head. solve_emits. Qed.
Lemma reads_head_commit o : reads (head_commit o).
Proof. unfold head_commit. solve_emits. Qed.
Lemma reads_diff a b : reads (diff_tree_changes a b).
Proof. unfold diff_tree_changes. solve_emits. Qed.
#[local] Hint Resolve emits_git reads_repository_id reads_branch_ref reads_default_branch reads_default_branch_head
  reads_head_commit reads_diff : traced.

Lemma reads_origin : reads origin_owner_repo.
Proof. unfold origin_owner_repo. solve_emits. Qed.

Lemma reads_remote_head_tree v b r : reads (remote_head_tree v b r).
Proof. unfold remote_head_tree. solve_emits. Qed.
#[local] Hint Resolve reads_origin reads_remote_head_tree : traced.

Lemma reads_diff_base e a r : reads (diff_base e a r).
Proof. unfold diff_base. solve_emits. Qed.

Lemma reads_head_subject o : reads (head_subject o).
Proof. unfold head_subject. solve_emits. Qed.

Lemma emits_build_changes f l b m : emits (event_in f) (build_changes base64 l b m).
Proof.
  induction l as [|[st p] l IH]; cbn [build_changes]; [solve_emits|]. cbv zeta. unfold local_tree_modes. solve_emits.
Qed.

Lemma emits_build_file_changes f l b d : emits (event_in f) (build_file_changes base64 l b d).
Proof.
  unfold build_file_changes, base_tree_modes. apply emits_seq; [solve_emits|]. intros m. apply emits_build_changes.
Qed.
End landing.

(** ** What may be written *)

Section gates.
Context {W : Type} `{Henv : LandingEnv W}.
Implicit Types t : list Event.

Variables remote tmp local_tree : rstr.

(** GitHub answered that a commit on the temporary branch has the local tree and
    a valid signature. *)
Definition verified t (oid : rstr) : Prop :=
  ∃ head headline body changes data commit,
    EGql (OCreateCommit tmp head headline body changes) (Ok data) ∈ t
    ∧ graphql_mutation_field data (lit "createCommitOnBranch") (lit "commit") = Ok commit
    ∧ str_at commit (lit "oid") = Some oid
    ∧ (pointer commit [lit "tree"; lit "oid"] ≫= as_str) = Some local_tree
    ∧ (get commit (lit "signature") ≫= λ s, get s (lit "isValid") ≫= as_bool) = Some true.

Definition ref_in (data : Value) : option Value :=
  match pointer data [lit "repository"; lit "ref"] with
  | Some v => if is_null v then None else Some v
  | None => None
  end.

(** The remote branch was read at [oid], or read as absent. *)
Definition observed t (oid : rstr) : Prop :=
  ∃ data v, EGql (OBranchRef remote) (Ok data) ∈ t ∧ ref_in data = Some v ∧ target_oid v = Some oid.

Definition absent t : Prop := ∃ data, EGql (OBranchRef remote) (Ok data) ∈ t ∧ ref_in data = None.

(** The temporary branch was created with this node id. *)
Definition created t (id : rstr) : Prop :=
  ∃ repo_id oid data v head,
    EGql (OCreateRef repo_id (heads tmp) oid) (Ok data) ∈ t
    ∧ graphql_mutation_field data (lit "createRef") (lit "ref") = Ok v
    ∧ target_oid v = Some head ∧ str_at v (lit "id") = Some id.

Definition deleted t (id : rstr) : Prop := ∃ a, EGql (ODeleteRef id) a ∈ t.

(** What each mutation needs of the exchanges before it. *)
Definition allowed t (op : Op) : Prop :=
  match op with
  | OCreateRef _ name oid => name = heads tmp ∨ (name = heads remote ∧ absent t ∧ verified t oid)
  | OCreateCommit branch _ _ _ _ => branch = tmp
  | OUpdateRefs _ branch before after => branch = remote ∧ observed t before ∧ verified t after
  | ODeleteRef id => created t id
  | _ => True
  end.

Definition gated t : Prop := ∀ pre op a post, t = pre ++ EGql op a :: post → allowed pre op.

(** The branch was moved to [oid] and read there afterwards. *)
Definition moved_to t (oid : rstr) : Prop :=
  ∃ repo_id before a pre post data v o,
    t = pre ++ EGql (OUpdateRefs repo_id remote before oid) a :: post
    ∧ EGql (OBranchRef remote) (Ok data) ∈ post ∧ ref_in data = Some v ∧ target_oid v = Some o
    ∧ eq_ignore_ascii_case o oid = true.

(** The branch was created at [oid]. *)
Definition created_at t (oid : rstr) : Prop :=
  ∃ repo_id data v,
    EGql (OCreateRef repo_id (heads remote) oid) (Ok data) ∈ t
    ∧ graphql_mutation_field data (lit "createRef") (lit "ref") = Ok v.

Definition landed t : Prop := ∃ oid, verified t oid ∧ (moved_to t oid ∨ created_at t oid).

(** Every exchange of [t] is one of [t']. *)
Definition grows t t' : Prop := ∃ l, t' = t ++ l.

(** [t'] adds no temporary branch. *)
Definition keeps t t' : Prop := grows t t' ∧ ∀ id, created t' id → created t id.

#[local] Instance grows_preorder : PreOrder grows.
Proof.
  split; [by exists []; rw app_nil_r|]. intros ??? (l & ->) (k & ->). exists (l ++ k). by rw app_assoc.
Qed.

#[local] Instance keeps_preorder : PreOrder keeps.
Proof. split; [by split|]. intros x y z [H1 H2] [H3 H4]. split; [by etrans|auto]. Qed.

Lemma grows_snoc t e : grows t (t ++ [e]).
Proof. by exists [e]. Qed.

Lemma grows_elem t t' e : grows t t' → e ∈ t → e ∈ t'.
Proof. intros [l ->]. set_solver. Qed.

Lemma verified_mono t t' o : grows t t' → verified t o → verified t' o.
Proof. intros Hg (h & hl & b & c & d & cm & Hin & H). exists h, hl, b, c, d, cm. split; [by eapply grows_elem|done]. Qed.
Lemma observed_mono t t' o : grows t t' → observed t o → observed t' o.
Proof. intros Hg (d & v & Hin & H). exists d, v. split; [by eapply grows_elem|done]. Qed.
Lemma absent_mono t t' : grows t t' → absent t → absent t'.
Proof. intros Hg (d & Hin & H). exists d. split; [by eapply grows_elem|done]. Qed.
Lemma created_mono t t' i : grows t t' → created t i → created t' i.
Proof. intros Hg (r & o & d & v & h & Hin & H). exists r, o, d, v, h. split; [by eapply grows_elem|done]. Qed.
Lemma deleted_mono t t' i : grows t t' → deleted t i → deleted t' i.
Proof. intros Hg (a & Hin). exists a. by eapply grows_elem. Qed.

Lemma landed_mono t t' : grows t t' → landed t → landed t'.
Proof.
  intros Hg (oid & Hv & H). exists oid. split; [by eapply verified_mono|]. destruct Hg as [l ->].
  destruct H as [(r & b & a & pre & post & d & v & o' & -> & Hin & H)|(r & d & v & Hin & H)]; [left|right].
  - exists r, b, a, pre, (post ++ l), d, v, o'. rw -app_assoc. split; [done|]. split; [set_solver|done].
  - exists r, d, v. split; [set_solver|done].
Qed.

Lemma gated_snoc t e :
  gated t → match e with EGql op _ => allowed t op | EGitRun _ _ => True end → gated (t ++ [e]).
Proof.
  intros Hg He pre op a post H. destruct post as [|x post _] using rev_ind.
  - apply app_inj_tail in H as [-> ->]. done.
  - rw app_comm_cons app_assoc in H. apply app_inj_tail in H as [-> _]. by eapply Hg.
Qed.

Lemma quiet_grows t t' : quiet t t' → grows t t'.
Proof. intros (l & -> & _). by exists l. Qed.

Lemma gated_quiet t t' : gated t → quiet t t' → gated t'.
Proof.
  intros Hg (l & -> & Hl). induction l as [|e l IH] using rev_ind; [by rw app_nil_r|].
  apply Forall_app in Hl as [Hl He]. rw app_assoc. apply gated_snoc; [by apply IH|].
  rw Forall_singleton in He. destruct e as [op a|]; [|done]. by destruct op.
Qed.

Lemma keeps_snoc t e :
  match e with EGql (OCreateRef _ name _) _ => name ≠ heads tmp | _ => True end → keeps t (t ++ [e]).
Proof.
  intros He. split; [apply grows_snoc|]. intros id (r & o & d & v & h & Hin & H).
  apply elem_of_app in Hin as [Hin|Hin]; [by exists r, o, d, v, h|]. apply list_elem_of_singleton in Hin as <-. done.
Qed.

Lemma keeps_quiet t t' : quiet t t' → keeps t t'.
Proof.
  intros (l & -> & Hl). split; [by exists l|]. intros id (r & o & d & v & h & Hin & H).
  apply elem_of_app in Hin as [Hin|Hin]; [by exists r, o, d, v, h|].
  rw Forall_forall in Hl. apply Hl in Hin. by cbn in Hin.
Qed.

(** ** The steps *)

Lemma wp_branch_ref b t Q :
  (∀ e, Q (t ++ [EGql (OBranchRef b) (Err e)]) (Err e)) →
  (∀ data, Q (t ++ [EGql (OBranchRef b) (Ok data)]) (Ok (ref_in data))) → wp (branch_ref b) t Q.
Proof.
  intros HE HO. unfold branch_ref. apply wp_seq, wp_execute. intros [data|e]; [|apply HE]. apply wp_ret, HO.
Qed.

Lemma wp_delete t id (Q : _ → result (result unit PushError) _ → Prop) :
  gated t → created t id →
  (∀ t' r, gated t' → keeps t t' → deleted t' id → Q t' (Ok r)) → wp (try (delete_ref id)) t Q.
Proof.
  intros Hg Hc HQ. apply wp_try. unfold delete_ref. apply wp_seq, wp_execute.
  assert (∀ a r, Q (t ++ [EGql (ODeleteRef id) a]) (Ok r)) as H.
  { intros a r. apply HQ; [by apply gated_snoc|by apply keeps_snoc|]. exists a. set_solver. }
  intros [d|e]; [|apply H]. apply wp_ret, H.
Qed.

Lemma wp_bootstrap repo_id oid t (Q : _ → result (rstr * rstr) _ → Prop) :
  gated t → (∀ id, ¬ created t id) →
  (∀ t' head id, gated t' → grows t t' → created t' id → (∀ i, created t' i → i = id) → Q t' (Ok (head, id))) →
  (∀ t' e, gated t' → grows t t' → (∀ i, ¬ created t' i) → Q t' (Err e)) →
  wp (bootstrap_temp_branch repo_id tmp oid) t Q.
Proof.
  intros Hg Hn HO HE. unfold bootstrap_temp_branch. apply wp_seq, wp_branch_ref.
  { intros e. apply HE; [by apply gated_snoc|by apply grows_snoc|]. intros i Hi.
    apply (Hn i). revert Hi. by apply keeps_snoc. }
  intros data. set (t1 := t ++ _). assert (gated t1) as Hg1 by by apply gated_snoc.
  assert (∀ i, ¬ created t1 i) as Hn1. { intros i Hi. apply (Hn i). revert Hi. by apply keeps_snoc. }
  assert (grows t t1) as Ht1 by by apply grows_snoc.
  destruct (ref_in data) as [v|]; [by apply wp_fail, HE|].
  apply wp_seq. unfold create_ref. apply wp_seq, wp_execute. intros a. set (t2 := t1 ++ [_]).
  assert (gated t2) as Hg2 by (apply gated_snoc; [done|by left]).
  assert (grows t t2) as Ht2. { etrans; [exact Ht1|]. by apply grows_snoc. }
  assert (∀ i, created t2 i → ∃ d v h, a = Ok d ∧ graphql_mutation_field d (lit "createRef") (lit "ref") = Ok v
            ∧ target_oid v = Some h ∧ str_at v (lit "id") = Some i) as Hinv.
  { intros i (r & o & d & w & h & Hin & H). apply elem_of_app in Hin as [Hin|Hin].
    - exfalso. apply (Hn1 i). by exists r, o, d, w, h.
    - apply list_elem_of_singleton in Hin. injection Hin as _ _ <-. by exists d, w, h. }
  destruct a as [d|e]. 2: { apply HE; [done..|]. intros i (? & ? & ? & ? & _)%Hinv. done. }
  apply wp_of_result. destruct (graphql_mutation_field d _ _) as [w|e] eqn:Ef.
  2: { apply HE; [done..|]. intros i (? & ? & ? & [= <-] & ? & _)%Hinv. congruence. }
  apply wp_seq, wp_of_option. destruct (target_oid w) as [h|] eqn:Eh.
  2: { apply HE; [done..|]. intros i (? & ? & ? & [= <-] & ? & ? & _)%Hinv. congruence. }
  apply wp_seq, wp_of_option. destruct (str_at w (lit "id")) as [id|] eqn:Ei.
  2: { apply HE; [done..|]. intros i (? & ? & ? & [= <-] & ? & ? & ?)%Hinv. congruence. }
  apply wp_ret, HO; [done..| |].
  - exists repo_id, oid, d, w, h. split; [set_solver|done].
  - intros i (? & ? & ? & [= <-] & ? & ? & ?)%Hinv. congruence.
Qed.

Lemma verify_landed commit :
  verify_landed_commit commit local_tree = Ok tt →
  ∃ oid, commit_oid commit = Ok oid ∧ str_at commit (lit "oid") = Some oid
    ∧ (pointer commit [lit "tree"; lit "oid"] ≫= as_str) = Some local_tree
    ∧ (get commit (lit "signature") ≫= λ s, get s (lit "isValid") ≫= as_bool) = Some true.
Proof.
  unfold verify_landed_commit, commit_oid. destruct (str_at commit (lit "oid")) as [oid|]; [|done].
  cbn [ok_or result_bind]. destruct (pointer commit _ ≫= as_str) as [tr|]; [|done]. cbn [ok_or result_bind].
  case_bool_decide as Et; [|done]. cbn [negb]. destruct (get commit (lit "signature") ≫= _) as [[]|]; [|done..].
  intros _. exists oid. by subst tr.
Qed.

Lemma wp_land temp_ref_id head message body changes t (Q : _ → result rstr _ → Prop) :
  gated t → created t temp_ref_id →
  (∀ t' oid, gated t' → keeps t t' → verified t' oid → Q t' (Ok oid)) →
  (∀ t' e, gated t' → keeps t t' → deleted t' temp_ref_id → Q t' (Err e)) →
  wp (land_on_temp_branch tmp temp_ref_id head message body changes local_tree) t Q.
Proof.
  intros Hg Hc HO HE. unfold land_on_temp_branch. apply wp_seq, wp_try. unfold create_commit_on_branch.
  apply wp_seq, wp_execute. intros a. set (t1 := t ++ [_]).
  assert (gated t1) as Hg1 by by apply gated_snoc. assert (keeps t t1) as Hk by by apply keeps_snoc.
  assert (created t1 temp_ref_id) as Hc1 by (eapply created_mono; [apply Hk|done]).
  assert (∀ e, wp (bind (try (delete_ref temp_ref_id)) (λ _, fail (A := rstr) e)) t1 Q) as Hdel.
  { intros e. apply wp_seq, wp_delete; [done..|]. intros t2 r Hg2 Hk2 Hd. apply wp_fail, HE; [done| |done]. by etrans. }
  destruct a as [data|e]; [|apply Hdel]. apply wp_of_result.
  destruct (graphql_mutation_field data _ _) as [commit|e] eqn:Ef; [|apply Hdel].
  destruct (verify_landed_commit commit local_tree) as [[]|e] eqn:Ev; [|apply Hdel].
  apply verify_landed in Ev as (oid & Eo & Es & Et & Eg). apply wp_of_result. rw Eo. apply HO; [done..|].
  exists head, message, body, changes, data, commit. split; [set_solver|done].
Qed.

Lemma landed_read t repo_id before oid a data t' :
  verified t oid →
  t' = t ++ [EGql (OUpdateRefs repo_id remote before oid) a] ++ [EGql (OBranchRef remote) (Ok data)] →
  points_at (ref_in data) oid = true → landed t'.
Proof.
  intros Hv -> Hp. exists oid. split; [eapply verified_mono; [by eexists|done]|]. left.
  unfold points_at in Hp. destruct (ref_in data) as [v|] eqn:Er; [|done]. cbn [mbind option_bind] in Hp.
  destruct (target_oid v) as [o|] eqn:Eo; [|done].
  exists repo_id, before, a, t, [EGql (OBranchRef remote) (Ok data)], data, v, o. split_and!; try done. left.
Qed.

Lemma wp_move repo_id before oid t (Q : _ → result unit _ → Prop) :
  gated t → observed t before → verified t oid →
  (∀ t' r, gated t' → keeps t t' → (r = Ok tt → landed t') → Q t' r) →
  wp (move_ref_with_precondition repo_id remote before oid) t Q.
Proof.
  intros Hg Ho Hv HQ. unfold move_ref_with_precondition. apply wp_seq, wp_try, wp_execute. intros a.
  set (t1 := t ++ [_]). assert (gated t1) as Hg1 by by apply gated_snoc. assert (keeps t t1) as Hk1 by by apply keeps_snoc.
  assert (∀ x, gated (t1 ++ [EGql (OBranchRef remote) x])) as Hg2 by (intros x; by apply gated_snoc).
  assert (∀ x, keeps t (t1 ++ [EGql (OBranchRef remote) x])) as Hk2.
  { intros x. etrans; [exact Hk1|by apply keeps_snoc]. }
  assert (∀ data, points_at (ref_in data) oid = true → landed (t1 ++ [EGql (OBranchRef remote) (Ok data)])) as Hl.
  { intros data. apply (landed_read t repo_id before oid a); [done|]. by rw app_assoc. }
  destruct a as [data|error].
  - destruct (graphql_mutation_field data _ _) as [v|e].
    + apply wp_seq, wp_branch_ref; [by intros e; apply HQ|]. intros d. specialize (Hl d).
      unfold points_at in Hl. destruct (ref_in d ≫= target_oid) as [o|]; [|by apply wp_fail, HQ].
      destruct (eq_ignore_ascii_case o oid); [apply wp_ret, HQ; auto|by apply wp_fail, HQ].
    + apply wp_seq, wp_branch_ref; [by intros e'; apply HQ|]. intros d. specialize (Hl d).
      destruct (points_at (ref_in d) oid); [apply wp_say; intros r; apply HQ; auto|by apply wp_fail, HQ].
  - apply wp_seq, wp_try, wp_branch_ref; [by intros e'; apply wp_fail, HQ|]. intros d. specialize (Hl d).
    destruct (points_at (ref_in d) oid); [apply wp_say; intros r; apply HQ; auto|by apply wp_fail, HQ].
Qed.

Lemma quiet_gated t : quiet [] t → gated t ∧ ∀ id, ¬ created t id.
Proof.
  intros Hq. split.
  - eapply gated_quiet; [|exact Hq]. intros pre op a post H. by destruct pre.
  - intros id Hc. apply keeps_quiet in Hq as [_ Hk]. destruct (Hk id Hc) as (? & ? & ? & ? & ? & Hin & _). set_solver.
Qed.

(** How a landing that wrote something ends. *)
Definition ended t (r : result unit PushError) : Prop :=
  gated t ∧ (remote ≠ tmp → ∀ id, created t id → deleted t id) ∧ (r = Ok tt → landed t).

Definition existing_read t (existing : option Value) : Prop :=
  match existing with
  | Some v => ∃ oid, target_oid v = Some oid ∧ observed t oid
  | None => absent t
  end.

Lemma existing_mono t t' existing : grows t t' → existing_read t existing → existing_read t' existing.
Proof.
  intros Hg. destruct existing as [v|]; cbn; [|by apply absent_mono]. intros (o & H1 & H2).
  exists o. split; [done|by eapply observed_mono].
Qed.

Lemma quiet_no_mutation t t' pre op a post :
  quiet t t' → t' = t ++ pre ++ EGql op a :: post → is_mutation op = true → False.
Proof.
  intros (l & -> & Hl) H%(app_inv_head t) Hop. subst l. rw Forall_app Forall_cons in Hl. destruct Hl as (_ & He & _).
  cbn in He. unfold reading in He. by rw Hop in He.
Qed.

(** What was done before the first mutation was done before each. *)
Lemma grows_before t0 t pre op a post :
  quiet [] t0 → grows t0 t → t = pre ++ EGql op a :: post → is_mutation op = true → grows t0 pre.
Proof.
  intros Hq [l ->] H Hop. apply app_eq_app in H as (k & [[-> Hk]|[-> Hk]]); [|by exists k].
  destruct k as [|e k]; [exists []; by rw !app_nil_r|]. injection Hk as <- ->.
  exfalso. by eapply (quiet_no_mutation [] _ pre op a k).
Qed.

Lemma heads_inj a b : heads a = heads b → a = b.
Proof. apply app_inv_head. Qed.

(** The real branch moves, or is created, once a commit is verified. *)
Definition swing (existing : option Value) (repo_id new_head : rstr) : M W Event PushError unit :=
  match existing ≫= target_oid with
  | Some observed => move_ref_with_precondition repo_id remote observed new_head
  | None => bind (create_ref repo_id (heads remote) new_head) (λ _, ret tt)
  end.

Lemma wp_swing existing repo_id oid t (Q : _ → result unit _ → Prop) :
  gated t → existing_read t existing → verified t oid →
  (∀ t' r, gated t' → grows t t' → (remote ≠ tmp → keeps t t') → (r = Ok tt → landed t') → Q t' r) →
  wp (swing existing repo_id oid) t Q.
Proof.
  intros Hg He Hv HQ. unfold swing. destruct existing as [v|]; cbn [mbind option_bind] in *.
  - destruct He as (o & -> & Ho). apply wp_move; [done..|]. intros t' r Hg' Hk Hl. apply HQ; [done|apply Hk|done|done].
  - unfold create_ref. apply wp_seq, wp_seq, wp_execute. intros a. set (t1 := t ++ [_]).
    assert (gated t1) as Hg1 by (apply gated_snoc; [done|by right]).
    assert (grows t t1) as Ht1 by by apply grows_snoc.
    assert (remote ≠ tmp → keeps t t1) as Hk1. { intros Hne. apply keeps_snoc. by intros ?%heads_inj. }
    destruct a as [d|e]; [|by apply HQ]. apply wp_of_result.
    destruct (graphql_mutation_field d _ _) as [v|e] eqn:Ef; [|by apply HQ]. apply wp_ret, HQ; [done..|].
    intros _. exists oid. split; [by eapply verified_mono|]. right. exists repo_id, d, v. split; [set_solver|done].
Qed.

Lemma wp_land_changes base64 existing local_branch args body diff_base_tree base_commit changes uuid t :
  quiet [] t → existing_read t existing → tmp = lit "push-branch/tmp-" ++ uuid →
  wp (land_changes base64 existing remote local_branch args body local_tree diff_base_tree base_commit changes uuid) t
    (λ t' r, quiet [] t' ∨ (pa_dry_run args = false ∧ ended t' r)).
Proof.
  intros Hq0 He Htmp. unfold land_changes. apply wp_seq, (wp_emits (event_in reading)); [apply emits_build_file_changes|].
  intros t1 [fc|e] Hq1; [|left; by etrans]. assert (quiet [] t1) as Hq01 by by etrans.
  destruct (pa_dry_run args) eqn:Ed; [apply wp_say; intros r; by left|].
  apply wp_seq, (wp_emits (event_in reading)); [unfold repository_id; solve_emits|].
  intros t2 [rid|e] Hq2; [|left; by etrans]. assert (quiet [] t2) as Hq02 by by etrans. cbv zeta.
  apply wp_seq, wp_of_option. destruct (match existing ≫= target_oid with Some _ => _ | None => _ end) as [boot|]; [|by left].
  apply (existing_mono _ t2) in He; [|apply quiet_grows; by etrans].
  destruct (quiet_gated t2 Hq02) as [Hg2 Hn2]. rw -Htmp.
  apply wp_seq, wp_bootstrap; [done..| |].
  2: { intros t3 e Hg3 _ Hn3. right. split; [done|]. split_and!; [done| |done]. intros _ id Hc. by destruct (Hn3 id). }
  intros t3 head id Hg3 Ht3 Hc3 Hu3. apply wp_seq, wp_land; [done..| |].
  2: { intros t4 e Hg4 Hk4 Hd4. right. split; [done|]. split_and!; [done| |done]. intros _ i Hi.
       apply Hk4, Hu3 in Hi. by subst i. }
  intros t4 oid Hg4 Hk4 Hv4. apply wp_seq, wp_try.
  change (match existing ≫= target_oid with Some _ => _ | None => _ end) with (swing existing rid oid).
  apply wp_swing; [done| |done|].
  { eapply existing_mono; [|exact He]. etrans; [exact Ht3|apply Hk4]. }
  intros t5 r Hg5 Ht5 Hk5 Hl5. apply wp_seq, wp_delete; [done| |].
  { eapply created_mono; [exact Ht5|]. eapply created_mono; [apply Hk4|done]. }
  intros t6 r' Hg6 Hk6 Hd6. assert (landed t5 → landed t6) as Hl6 by (apply landed_mono; apply Hk6).
  assert (∀ r, (r = Ok tt → landed t6) → ended t6 r) as Hend.
  { intros r0 Hr0. split_and!; [done| |done]. intros Hne i Hi. apply Hk6, (Hk5 Hne), Hk4, Hu3 in Hi. by subst i. }
  apply wp_seq, wp_of_result. destruct r as [[]|e]; [|by right; split; [|apply Hend]].
  apply wp_say. intros r0. right. split; [done|]. apply Hend. intros _. by apply Hl6, Hl5.
Qed.

Lemma wp_re_land existing args body uuid t :
  quiet [] t → existing_read t existing → tmp = lit "push-branch/tmp-re-land-" ++ uuid →
  wp (re_land_unsigned_head existing remote args body local_tree uuid) t (λ t' r, quiet [] t' ∨ ended t' r).
Proof.
  intros Hq0 He Htmp. unfold re_land_unsigned_head. destruct existing as [v|]; [|by apply wp_fail; left].
  destruct He as (remote_head & Eh & Ho). rw Eh. apply wp_seq, wp_of_option. cbv zeta.
  apply wp_seq, (wp_emits (event_in reading)); [unfold head_commit; solve_emits|]. intros t1 [commit|e] Hq1; [|left; by etrans].
  assert (quiet [] t1) as Hq01 by by etrans.
  destruct (default false _); [apply wp_say; intros r; by left|].
  apply wp_seq, (wp_emits (event_in reading)); [unfold repository_id; solve_emits|]. intros t2 [rid|e] Hq2; [|left; by etrans].
  assert (quiet [] t2) as Hq02 by by etrans. rw -Htmp.
  destruct (quiet_gated t2 Hq02) as [Hg2 Hn2].
  assert (observed t2 remote_head) as Ho2 by (apply (observed_mono t); [apply quiet_grows; by etrans|done]).
  apply wp_seq, wp_bootstrap; [done..| |].
  2: { intros t3 e Hg3 _ Hn3. right. split_and!; [done| |done]. intros _ id Hc. by destruct (Hn3 id). }
  intros t3 head id Hg3 Ht3 Hc3 Hu3. apply wp_seq, wp_try, wp_land; [done..| |].
  2: { intros t4 e Hg4 Hk4 Hd4. apply wp_seq, wp_delete; [done|by eapply created_mono; [apply Hk4|]|].
       intros t5 r Hg5 Hk5 Hd5. apply wp_fail. right. split_and!; [done| |done]. intros _ i Hi.
       apply Hk5, Hk4, Hu3 in Hi. by subst i. }
  intros t4 oid Hg4 Hk4 Hv4. apply wp_seq, wp_delete; [done|by eapply created_mono; [apply Hk4|]|].
  intros t5 r Hg5 Hk5 Hd5. apply wp_seq, wp_move; [done| | |].
  { eapply observed_mono; [|exact Ho2]. etrans; [exact Ht3|]. etrans; [apply Hk4|apply Hk5]. }
  { eapply verified_mono; [apply Hk5|done]. }
  intros t6 r6 Hg6 Hk6 Hl6. assert (deleted t6 id) as Hd6 by (eapply deleted_mono; [apply Hk6|done]).
  assert (∀ i, created t6 i → deleted t6 i) as Hdel. { intros i Hi. apply Hk6, Hk5, Hk4, Hu3 in Hi. by subst i. }
  destruct r6 as [[]|e]; [|by right; split_and!]. apply wp_say. intros r0. right. split_and!; auto.
Qed.
End gates.

(** ** The whole command *)

Section command.
Context {W : Type} `{Henv : LandingEnv W} (base64 : rstr → rstr).
Implicit Types t : list Event.

#[local] Hint Resolve emits_git emits_build_file_changes : traced.

Lemma appends_create_commit b h m bd fc : emits (event_in (λ _, true)) (create_commit_on_branch b h m bd fc).
Proof. unfold create_commit_on_branch. solve_emits. Qed.
Lemma appends_bootstrap r b o : emits (event_in (λ _, true)) (bootstrap_temp_branch r b o).
Proof. unfold bootstrap_temp_branch, branch_ref, create_ref. solve_emits. Qed.
Lemma appends_move r b o n : emits (event_in (λ _, true)) (move_ref_with_precondition r b o n).
Proof. unfold move_ref_with_precondition, branch_ref. cbv zeta. solve_emits. Qed.
Lemma appends_delete i : emits (event_in (λ _, true)) (delete_ref i).
Proof. unfold delete_ref. solve_emits. Qed.
#[local] Hint Resolve appends_create_commit appends_bootstrap appends_move appends_delete : traced.
Lemma appends_land b i h m bd fc lt : emits (event_in (λ _, true)) (land_on_temp_branch b i h m bd fc lt).
Proof. unfold land_on_temp_branch. solve_emits. Qed.
#[local] Hint Resolve appends_land : traced.

Lemma appends_land_changes e r l a b lt d bc c u : emits (event_in (λ _, true)) (land_changes base64 e r l a b lt d bc c u).
Proof. unfold land_changes, repository_id, create_ref. cbv zeta. solve_emits. Qed.

Lemma appends_re_land e r a b lt u : emits (event_in (λ _, true)) (re_land_unsigned_head e r a b lt u).
Proof. unfold re_land_unsigned_head, head_commit, repository_id. cbv zeta. solve_emits. Qed.

Lemma wp_diff_base existing args remote t (Q : _ → result (rstr * option rstr) _ → Prop) :
  (∀ t' e, quiet t t' → Q t' (Err e)) →
  (∀ t' r, quiet t t' → is_Some (existing ≫= target_oid) ∨ existing = None → Q t' r) →
  wp (diff_base existing args remote) t Q.
Proof.
  intros HE HQ. destruct existing as [v|].
  - destruct (target_oid v) as [o|] eqn:Eo.
    + apply (wp_emits (event_in reading)); [apply reads_diff_base|]. intros t' r Hq. apply HQ; [done|]. left.
      cbn [mbind option_bind]. by rw Eo.
    + cbn [diff_base]. unfold remote_head_tree. rw Eo. apply wp_seq, wp_seq, wp_of_option. by apply HE.
  - apply (wp_emits (event_in reading)); [apply reads_diff_base|]. intros t' r Hq. apply HQ; [done|]. by right.
Qed.

(** The local branch and its tree, as the trace shows them. *)
Definition local_of (args : PushBranchArgs) t (local_branch local_tree : rstr) : Prop :=
  (pa_branch args = Some local_branch ∨ ∃ out, EGitRun SymbolicRef (Some out) ∈ t ∧ local_branch = trim out)
  ∧ (∃ out, EGitRun (RevParseTree local_branch) (Some out) ∈ t ∧ local_tree = trim out)
  ∧ verify_expect_tree local_tree (pa_expect_tree args) = Ok tt.

(** What holds before anything is written. *)
Definition cleared (config : option (option GitHubAppConfig)) (args : PushBranchArgs) t (local_branch local_tree : rstr) : Prop :=
  local_of args t local_branch local_tree
  ∧ pa_dry_run args = false
  ∧ ∃ app, config = Some app ∧ (enforcement_required app = true → require_service_identity app = Ok tt).

Definition temp_of (uuid tmp : rstr) : Prop :=
  tmp = lit "push-branch/tmp-" ++ uuid ∨ tmp = lit "push-branch/tmp-re-land-" ++ uuid.

(** A run that may have written something: the exchanges [t0] wrote nothing and
    cleared the gates, and the rest ended a landing. *)
Definition wrote config args uuid t (r : result unit PushError) : Prop :=
  ∃ t0 local_branch local_tree tmp,
    quiet [] t0 ∧ grows t0 t ∧ cleared config args t0 local_branch local_tree ∧ temp_of uuid tmp
    ∧ ended (default local_branch (pa_remote_branch args)) tmp local_tree t r.

Lemma wp_git cmd t (Q : _ → result rstr _ → Prop) :
  (∀ o, Q (t ++ [EGitRun cmd o]) (match o with Some x => Ok (trim x) | None => Err EGit end)) → wp (git cmd) t Q.
Proof. intros HQ. apply wp_seq, wp_exchange. intros [o|]; [apply wp_ret|]; [apply (HQ (Some o))|apply (HQ None)]. Qed.

Lemma wp_local_branch args t (Q : _ → result rstr _ → Prop) :
  (∀ t' b, quiet t t' → pa_branch args = Some b ∨ (∃ out, EGitRun SymbolicRef (Some out) ∈ t' ∧ b = trim out) → Q t' (Ok b)) →
  (∀ t' e, quiet t t' → Q t' (Err e)) →
  wp (match pa_branch args with Some b => ret b | None => git SymbolicRef end) t Q.
Proof.
  intros HO HE. destruct (pa_branch args) as [b|] eqn:E; [apply wp_ret, HO; [done|by left]|].
  apply wp_git. intros [out|]; [|by apply HE, adds_snoc]. apply HO; [by apply adds_snoc|]. right. exists out. set_solver.
Qed.

Lemma local_mono args t t' b lt : grows t t' → local_of args t b lt → local_of args t' b lt.
Proof.
  intros Hg (H1 & (o & H2 & H3) & H4). split; [|split; [|done]].
  - destruct H1 as [H1|(o' & H1 & H1')]; [by left|right]. exists o'. split; [by eapply grows_elem|done].
  - exists o. split; [by eapply grows_elem|done].
Qed.

Lemma emits_grows f t t' : adds f t t' → grows t t'.
Proof. intros (l & -> & _). by exists l. Qed.

(** A part of the command that ends a landing does so after its start. *)
Lemma wp_landing (m : M W Event PushError unit) config args uuid local_branch local_tree tmp t :
  quiet [] t → (pa_dry_run args = false → cleared config args t local_branch local_tree) → temp_of uuid tmp →
  emits (event_in (λ _, true)) m →
  wp m t (λ t' r, quiet [] t'
    ∨ (pa_dry_run args = false ∧ ended (default local_branch (pa_remote_branch args)) tmp local_tree t' r)) →
  wp m t (λ t' r, quiet [] t' ∨ wrote config args uuid t' r).
Proof.
  intros Hq Hc Ht Hm Hw. eapply wp_weaken; [exact (wp_and m t _ _ (Hm t) Hw)|].
  intros t' r [Hg [H|[Hd H]]]; [by left|right]. exists t, local_branch, local_tree, tmp.
  split; [done|]. split; [by eapply emits_grows|]. split; [by apply Hc|done].
Qed.

Lemma push_runs config args uuid :
  wp (push_branch base64 config args uuid) [] (λ t r, quiet [] t ∨ wrote config args uuid t r).
Proof.
  unfold push_branch. apply wp_seq, (wp_emits (event_in reading)); [apply reads_origin|].
  intros t1 [[oo orp]|e] Hq1; [|by left]. apply wp_seq, wp_of_result.
  destruct (resolve_repo_slug _ _ _ _) as [slug|e]; [|by left].
  apply wp_seq, wp_local_branch; [|by intros t' e Hq; left; by etrans]. intros t2 lb Hq2 Hlb. cbv zeta.
  assert (quiet [] t2) as Hq02 by by etrans.
  apply wp_seq. apply (wp_weaken _ _ (λ t' _, t' = t2)).
  { destruct (pa_body_file args) as [file|]; [by apply wp_silent|by apply wp_ret]. }
  intros t' [body|e] ->; [|by left]. apply wp_seq, wp_of_option. destruct config as [app|]; [|by left].
  apply wp_seq. apply (wp_weaken _ _ (λ t' r, t' = t2
    ∧ (r = Ok tt → enforcement_required app = true → require_service_identity app = Ok tt))).
  { destruct (enforcement_required app); [apply wp_of_result|apply wp_ret]; by split. }
  intros t' [[]|e] [-> Henf]; [|by left]. specialize (Henf eq_refl).
  apply wp_seq, wp_git. intros [out|]; [|left; etrans; [exact Hq02|by apply adds_snoc]].
  set (t3 := t2 ++ _). assert (quiet t2 t3) as Hq3 by by apply adds_snoc. assert (quiet [] t3) as Hq03 by by etrans.
  apply wp_seq, wp_of_result. destruct (verify_expect_tree (trim out) _) as [[]|e] eqn:Eexp; [|by left].
  assert (local_of args t3 lb (trim out)) as Hlocal.
  { split; [|split; [exists out; set_solver|done]]. destruct Hlb as [Hlb|(o & Ho & ->)]; [by left|right].
    exists o. set_solver. }
  apply wp_seq. apply (wp_weaken _ _ (λ t' _, t' = t3)). { by apply wp_silent. }
  intros t' [[]|e] ->; [|by left].
  apply wp_seq, wp_branch_ref; [by intros e; left; etrans; [exact Hq03|apply adds_snoc]|].
  intros data. set (remote := default lb _). set (existing := ref_in data). set (t4 := t3 ++ _).
  assert (quiet t3 t4) as Hq4 by by apply adds_snoc. assert (quiet [] t4) as Hq04 by by etrans.
  apply wp_seq, wp_diff_base; [by intros t' e Hq; left; by etrans|].
  intros t5 [[dbt bc]|e] Hq5 Hex; [|left; by etrans].
  assert (existing_read remote t4 existing) as He4.
  { unfold existing_read. destruct existing as [v|] eqn:E; [|exists data; split; [set_solver|done]].
    destruct Hex as [[o Ho]|Ho]; [|done]. exists o. split; [exact Ho|]. exists data, v. split; [set_solver|done]. }
  apply wp_seq, (wp_emits (event_in reading)); [apply reads_diff|]. intros t6 [changes|e] Hq6; [|left; etrans; [exact Hq04|by etrans]].
  assert (quiet t4 t6) as Hq46 by by etrans. assert (quiet [] t6) as Hq06 by by etrans.
  destruct (is_empty changes && _); [apply wp_say; intros r; by left|].
  apply wp_seq, (wp_emits (event_in reading)); [apply reads_head_subject|]. intros t7 [subject|e] Hq7; [|left; by etrans].
  apply wp_seq, wp_of_result. destruct (reject_duplicate_subjects _ _) as [[]|e]; [|left; by etrans].
  apply wp_seq, (wp_emits (event_in reading)); [apply reads_diff|]. intros t8 [changes'|e] Hq8; [|left; etrans; [exact Hq06|by etrans]].
  assert (quiet t6 t8) as Hq68 by by etrans. assert (quiet [] t8) as Hq08 by by etrans.
  assert (quiet t4 t8) as Hq48 by by etrans.
  destruct (is_empty changes' && _); [apply wp_say; intros r; by left|].
  assert (existing_read remote t8 existing) as He8 by (apply (existing_mono remote t4); [by apply quiet_grows|done]).
  assert (pa_dry_run args = false → cleared (Some app) args t8 lb (trim out)) as Hc8.
  { intros Hd. split; [|split; [done|by exists app]].
    apply (local_mono _ t3); [apply quiet_grows; by etrans|done]. }
  destruct (is_empty changes').
  - destruct (pa_dry_run args) eqn:Ed; [destruct existing; [apply wp_say; intros r|apply wp_fail]; by left|].
    eapply wp_landing; [done|intros _; by apply Hc8|by right|apply appends_re_land|].
    eapply wp_weaken; [by apply wp_re_land|]. intros t' r [H|H]; auto.
  - eapply wp_landing; [done|exact Hc8|by left|apply appends_land_changes|]. by apply wp_land_changes.
Qed.
End command.

(** ** What the command promises *)

Section promises.
Context {W : Type} `{Henv : LandingEnv W} (base64 : rstr → rstr).

(** C14. Whatever GitHub and the local repository answer, [push_branch] sends a
    mutation only once its gates are cleared by the exchanges before it: it is
    no dry run, the configuration is read and names a service identity where it
    requires one, the local tree was read and is the expected one; and then only
    these mutations: creating the run's temporary branch, committing on it,
    deleting it by the id GitHub gave for it, moving the remote branch from a
    head that was read there to a commit GitHub answered for the temporary
    branch with the local tree and a valid signature, and creating the remote
    branch at such a commit after it was read as absent. *)
Theorem push_gated config args uuid w s r pre op a post :
  push_branch base64 config args uuid {| world := w; trace := [] |} = (s, r) →
  trace s = pre ++ EGql op a :: post → is_mutation op = true →
  ∃ app local_branch local_tree tmp,
    config = Some app
    ∧ (enforcement_required app = true → require_service_identity app = Ok tt)
    ∧ pa_dry_run args = false
    ∧ local_of args pre local_branch local_tree
    ∧ temp_of uuid tmp
    ∧ allowed (default local_branch (pa_remote_branch args)) tmp local_tree pre op.
Proof.
  intros Hrun Ht Hop. destruct (run_wp _ _ _ _ _ (push_runs base64 config args uuid) Hrun) as [Hq|Hw].
  - by destruct (quiet_no_mutation [] (trace s) pre op a post Hq Ht).
  - destruct Hw as (t0 & lb & lt & tmp & Hq0 & Hg & (Hl & Hd & app & Hc & He) & Htmp & Hgated & _).
    exists app, lb, lt, tmp. split_and!; [done..| |done|by eapply Hgated].
    apply (local_mono _ t0); [|done]. by eapply grows_before.
Qed.

(** C15. [push_branch] does not report a landing that did not happen: a run that
    returns without an error wrote nothing at all, or GitHub answered for a
    commit with the local tree and a valid signature, and the remote branch was
    moved to it and read there afterwards, or created at it. However a run ends,
    every temporary branch whose creation GitHub confirmed was asked to be
    deleted, unless it is itself the branch to land on. *)
Theorem push_reported config args uuid w s r :
  push_branch base64 config args uuid {| world := w; trace := [] |} = (s, r) →
  quiet [] (trace s)
  ∨ ∃ local_branch local_tree tmp,
      local_of args (trace s) local_branch local_tree ∧ temp_of uuid tmp
      ∧ let remote := default local_branch (pa_remote_branch args) in
        (r = Ok tt → landed remote tmp local_tree (trace s))
        ∧ (remote ≠ tmp → ∀ id, created tmp (trace s) id → deleted (trace s) id).
Proof.
  intros Hrun. destruct (run_wp _ _ _ _ _ (push_runs base64 config args uuid) Hrun) as [Hq|Hw]; [by left|right].
  destruct Hw as (t0 & lb & lt & tmp & Hq0 & Hg & (Hl & _) & Htmp & _ & Hdel & Hland).
  exists lb, lt, tmp. split; [by apply (local_mono _ t0)|]. split; [done|]. by split.
Qed.
End promises.

(** ** A run *)

(** A repository whose [main] is one change behind the local [work] branch; the
    state is the head of the remote branch. *)
Section example.
Definition obj (fields : list (string * Value)) : Value := VObject ((λ '(k, v), (lit k, v)) <$> fields).
Definition str (s : string) : Value := VString (lit s).

Definition ref_answer (head : rstr) : Value :=
  obj [("data", obj [("repository", obj [("ref", obj [("id", str "R1"); ("target", obj [("oid", VString head)])])])])].

#[local] Instance hub : LandingEnv rstr := {
  post head op :=
    let answer v := (head, Some (200, Some v)) in
    match op with
    | OBranchRef b => answer (if bool_decide (b = lit "main") then ref_answer head else obj [("data", obj [])])
    | ORepositoryId => answer (obj [("data", obj [("repository", obj [("id", str "Q")])])])
    | OCreateRef _ _ oid =>
        answer (obj [("data", obj [("createRef", obj [("ref", obj [("id", str "R2"); ("target", obj [("oid", VString oid)])])])])])
    | OCreateCommit _ _ _ _ _ =>
        answer (obj [("data", obj [("createCommitOnBranch", obj [("commit",
          obj [("oid", str "new"); ("tree", obj [("oid", str "t1")]); ("signature", obj [("isValid", VBool true)])])])])])
    | OUpdateRefs _ _ _ oid => (oid, Some (200, Some (obj [("data", obj [("updateRefs", obj [("clientMutationId", str "c")])])])))
    | _ => answer (obj [("data", obj [])])
    end;
  run_git head cmd :=
    (head, match cmd with
           | RevParseTree b => Some (lit (if bool_decide (b = lit "work") then "t1" else "t0"))
           | DiffTree _ _ => Some (lit "M" ++ [0] ++ lit "f" ++ [0])
           | CatFileType _ => Some (lit "blob")
           | RemoteGetUrl => Some (lit "git@github.com:o/r.git")
           | _ => Some (lit "x")
           end);
  read_body head _ := (head, None);
  mint head := (head, true);
  stderr_ok head := (head, true)
}.

Definition example_args : PushBranchArgs :=
  {| pa_branch := Some (lit "work"); pa_remote_branch := Some (lit "main"); pa_base := None; pa_message := lit "m";
     pa_body_file := None; pa_owner := None; pa_repo := None; pa_re_land := false; pa_dry_run := false;
     pa_expect_tree := Some (lit "T1") |}.

Definition example_run : St rstr Event * result unit PushError :=
  push_branch id (Some None) example_args (lit "u") {| world := lit "old"; trace := [] |}.

Definition mutations (l : list Event) : list Op :=
  omap (λ e, match e with EGql op _ => if is_mutation op then Some op else None | EGitRun _ _ => None end) l.

Example example_lands :
  example_run.2 = Ok tt
  ∧ world (example_run.1) = lit "new"
  ∧ mutations (trace (example_run.1)) =
    [OCreateRef (lit "Q") (lit "refs/heads/push-branch/tmp-u") (lit "old");
     OCreateCommit (lit "push-branch/tmp-u") (lit "old") (lit "m") [] {| additions := [(lit "f", lit "x")]; deletions := [] |};
     OUpdateRefs (lit "Q") (lit "main") (lit "old") (lit "new");
     ODeleteRef (lit "R2")].
Proof. vm_compute. done. Qed.

Definition example_trace : list Event := trace (example_run.1).

Definition move_answer : result Value PushError := Ok (obj [("updateRefs", obj [("clientMutationId", str "c")])]).

Lemma push_gated_witness :
  let op := OUpdateRefs (lit "Q") (lit "main") (lit "old") (lit "new") in
  example_trace = take 16 example_trace ++ EGql op move_answer :: drop 17 example_trace
  ∧ ∃ app local_branch local_tree tmp,
      Some None = Some app
      ∧ (enforcement_required app = true → require_service_identity app = Ok tt)
      ∧ pa_dry_run example_args = false
      ∧ local_of example_args (take 16 example_trace) local_branch local_tree
      ∧ temp_of (lit "u") tmp
      ∧ allowed (default local_branch (pa_remote_branch example_args)) tmp local_tree (take 16 example_trace) op.
Proof.
  intros op. assert (example_trace = take 16 example_trace ++ EGql op move_answer :: drop 17 example_trace) as Ht
    by (vm_compute; reflexivity).
  split; [exact Ht|].
  exact (push_gated id (Some None) example_args (lit "u") (lit "old") example_run.1 example_run.2
           (take 16 example_trace) op move_answer (drop 17 example_trace) (surjective_pairing example_run) Ht eq_refl).
Defined.

Lemma push_reported_witness :
  quiet [] example_trace
  ∨ ∃ local_branch local_tree tmp,
      local_of example_args example_trace local_branch local_tree ∧ temp_of (lit "u") tmp
      ∧ let remote := default local_branch (pa_remote_branch example_args) in
        (example_run.2 = Ok tt → landed remote tmp local_tree example_trace)
        ∧ (remote ≠ tmp → ∀ id, created tmp example_trace id → deleted example_trace id).
Proof.
  exact (push_reported id (Some None) example_args (lit "u") (lit "old") example_run.1 example_run.2
           (surjective_pairing example_run)).
Defined.
End example.
