(* ===== verification/GhEnv.v ===== *)
(** * Delegating the installation token

    [crates/orchestraitor-cli/src/commands/github.rs], [gh_env],
    [gh_env_pr_create_chain], [verify_identity] and what they call: a child
    process gets a freshly minted installation token in its environment.

    The configuration, the environment, [git], GitHub and the children are the
    class [DelegationEnv]: they answer as they like and change while they do.
    [from_utf8_lossy] and the JSON parser are libraries', so an output is text and
    a body is a value or malformed; [mint] is the minting of the token from the
    credentials of the configuration. *)

From S2P Require Import Prelude BTree Text Substring Events Board Config PrStatus Traced PushBranch.

(** ** The shape of the child *)

(** [Path::file_name]. *)
Definition file_name (path : rstr) : option rstr :=
  match list.last (List.filter (λ c, negb (is_empty c) && negb (bool_decide (c = lit "."))) (split 47 path)) with
  | Some c => if bool_decide (c = lit "..") then None else Some c
  | None => None
  end.

Inductive PrCreateShape := ShapeYes | ShapeNo | ShapeAmbiguous.

#[export] Instance PrCreateShape_eq_dec : EqDecision PrCreateShape.
Proof. solve_decision. Defined.

Definition one_of_lits (l : list string) (s : rstr) : bool := existsb (λ x, bool_decide (lit x = s)) l.

Definition VALUE_LONG_FLAGS : list string := ["repo"; "hostname"; "jq"; "template"]%string.
Definition BOOLEAN_SHORT_FLAGS : list N := [104; 118].
Definition VALUE_SHORT_FLAGS : list N := [82; 72].

Definition char_in (l : list N) (c : N) : bool := existsb (N.eqb c) l.

(** A cluster of short flags: whether it takes the next token, [None] where the
    shape cannot be proven. [last] is the cluster's last character. *)
Fixpoint short_cluster (last : N) (rest : rstr) (value_flag : bool) : option bool :=
  match rest with
  | [] => Some value_flag
  | c :: rest =>
      if char_in BOOLEAN_SHORT_FLAGS c then short_cluster last rest value_flag
      else if char_in VALUE_SHORT_FLAGS c && (c =? last) then short_cluster last rest true
      else None
  end.

Definition is_gh (arg : rstr) : bool :=
  bool_decide (arg = lit "gh")
  || match file_name arg with Some name => one_of_lits ["gh"; "gh.exe"]%string name | None => false end.

(** The walk of [child_command_is_pr_create], [stage] positional words seen. *)
Fixpoint shape_walk (command : list rstr) (skip : bool) (stage : nat) : PrCreateShape :=
  match command with
  | [] => ShapeAmbiguous
  | arg :: command =>
      if skip then shape_walk command false stage
      else if bool_decide (arg = lit "--") then if (stage =? 2)%nat then ShapeYes else ShapeAmbiguous
      else match strip_prefix (lit "--") arg with
      | Some name =>
          if existsb (N.eqb 61) arg then shape_walk command false stage
          else if one_of_lits VALUE_LONG_FLAGS name then shape_walk command true stage
          else ShapeAmbiguous
      | None =>
          if bool_decide (arg = lit "-") then ShapeAmbiguous
          else match strip_prefix (lit "-") arg with
          | Some rest =>
              match short_cluster (default 32 (list.last rest)) rest false with
              | Some value_flag => shape_walk command value_flag stage
              | None => ShapeAmbiguous
              end
          | None =>
              match stage with
              | O => if is_gh arg then shape_walk command false 1 else ShapeNo
              | S O => if bool_decide (arg = lit "pr") then shape_walk command false 2 else ShapeNo
              | _ => if bool_decide (arg = lit "create") || bool_decide (arg = lit "new") then ShapeYes else ShapeNo
              end
          end
      end
  end.

Definition child_command_is_pr_create (command : list rstr) : PrCreateShape := shape_walk command false 0.

(** ** The exchanges *)

Inductive DelegationError :=
| GNoCommand | GNotFound | GRefusedPrCreate | GNotPrCreate
| GConfig | GPin | GIncomplete | GNoGithubApp | GMissingKey
| GGit | GEmailUnset | GEmailMismatch | GIdentityMismatch
| GJwt | GTransport | GStatus | GShape | GSlug | GBotId | GMint
| GSpawn | GExit (code : Z) | GNoRoot | GNoScripts | GWrite.

(** A child's exit code, none after a signal, and its standard output. *)
Definition Exit : Type := option Z * rstr.

Inductive DelegationEvent :=
| VConfig (config : option (option GitHubAppConfig))
| VPin (pinned : option rstr)
| VWhich (program : rstr) (found : bool)
| VGit (args : list rstr) (answer : option Exit)
| VJwt (ok : bool)
| VRequest (path : rstr) (answer : option (N * option Value))
| VMint (ok : bool)
| VSpawn (command : list rstr) (identity : option (rstr * rstr)) (capture_stdout : bool) (answer : option Exit)
| VIsFile (path : rstr) (found : bool)
| VStdout (text : rstr) (ok : bool)
| VScript (script pr_number repo : rstr) (answer : option Exit).

Class DelegationEnv (W : Type) := {
  (** [resolved_config]. *)
  read_config : W → W * option (option GitHubAppConfig);
  (** [env::var] of [ORC_GITHUB_APP_ENFORCEMENT]. *)
  read_pin : W → W * option rstr;
  which : W → rstr → W * bool;
  run_git_config : W → list rstr → W * option Exit;
  app_jwt : W → W * bool;
  get_request : W → rstr → W * option (N * option Value);
  mint_token : W → W * bool;
  spawn_child : W → list rstr → option (rstr * rstr) → bool → W * option Exit;
  file_exists : W → rstr → W * bool;
  write_stdout : W → rstr → W * bool;
  write_stderr : W → W * bool;
  run_script : W → rstr → rstr → rstr → W * option Exit
}.

Section delegation.
Context {W : Type} `{DelegationEnv W}.

Local Abbreviation M := (Traced.M W DelegationEvent DelegationError).
Local Open Scope traced_scope.

Definition success (code : option Z) : bool := bool_decide (code = Some 0%Z).

Definition warn : M unit := silent write_stderr (λ ok, if ok then Ok tt else Err GWrite).

Definition resolved_config : M (option GitHubAppConfig) :=
  exchange read_config VConfig (λ c, match c with Some c => Ok c | None => Err GConfig end).

Definition which_executable (program : rstr) : M bool := exchange (λ w, which w program) (VWhich program) Ok.

Definition request (path : rstr) : M (N * option Value) :=
  exchange (λ w, get_request w path) (VRequest path) (λ a, match a with Some a => Ok a | None => Err GTransport end).

(** ** The mode *)

Definition required_mode (config : option GitHubAppConfig) (pinned : option rstr) : result bool DelegationError :=
  match pinned with
  | None => Ok (enforcement_required config)
  | Some value =>
      if bool_decide (value = lit "required") then Ok true
      else if bool_decide (value = lit "recommended") then Ok (enforcement_required config)
      else Err GPin
  end.

Definition effective_required_mode : M bool :=
  let* config := resolved_config in
  let* pinned := exchange read_pin VPin Ok in
  of_result (required_mode config pinned).

(** ** The identity *)

Definition github_app_auth (config : option GitHubAppConfig) : result unit DelegationError :=
  match config with
  | None => Err GNoGithubApp
  | Some app =>
      match ga_client_id app, ga_installation_id app, ga_private_key_uri app with
      | Some _, Some _, Some _ => Ok tt
      | _, _, _ => Err GMissingKey
      end
  end.

Definition mint_installation_token : M unit :=
  let* config := resolved_config in
  let* _ := of_result (github_app_auth config) in
  exchange mint_token VMint (λ ok, if ok then Ok tt else Err GMint).

Definition app_slug (app : Value) : result rstr DelegationError :=
  match str_at app (lit "slug") with Some (c :: s) => Ok (c :: s) | _ => Err GSlug end.

Definition bot_login (slug : rstr) : rstr := slug ++ lit "[bot]".

Definition derive_commit_identity (slug : rstr) (bot_user : Value) : result (rstr * rstr) DelegationError :=
  match get bot_user (lit "id") with
  | Some (VNumber (PosInt bot_id)) =>
      Ok (bot_login slug, dec bot_id ++ lit "+" ++ bot_login slug ++ lit "@users.noreply.github.com")
  | _ => Err GBotId
  end.

(** A successful response with a JSON body. *)
Definition body_of (response : N * option Value) : result Value DelegationError :=
  if negb (is_success response.1) then Err GStatus else ok_or response.2 GShape.

Definition commit_author_identity : M (rstr * rstr) :=
  let* config := resolved_config in
  let* _ := of_result (github_app_auth config) in
  let* _ := exchange app_jwt VJwt (λ ok, if ok then Ok tt else Err GJwt) in
  let* response := request (lit "app") in
  let* app := of_result (body_of response) in
  let* slug := of_result (app_slug app) in
  let* _ := mint_installation_token in
  let* response := request (lit "users/" ++ bot_login slug) in
  let* bot_user := of_result (body_of response) in
  of_result (derive_commit_identity slug bot_user).

Definition git_command (args : list rstr) : M Exit :=
  exchange (λ w, run_git_config w args) (VGit args) (λ a, match a with Some a => Ok a | None => Err GGit end).

Definition config_get (key : string) : list rstr := [lit "config"; lit "--get"; lit key].

Definition require_bot_git_identity : M (rstr * rstr) :=
  let* output := git_command (config_get "user.email") in
  let email := trim output.2 in
  if negb (success output.1) || is_empty email then fail GEmailUnset
  else
    let* expected := commit_author_identity in
    if bool_decide (email = expected.2) then ret expected else fail GEmailMismatch.

Definition read_field (path : option rstr) (key : string) : M rstr :=
  let* output := git_command (match path with Some dir => lit "-C" :: dir :: config_get key | None => config_get key end) in
  if is_empty (trim output.2) then fail GEmailUnset else ret (trim output.2).

Definition ambient_git_identity (path : option rstr) : M (rstr * rstr) :=
  let* name := read_field path "user.name" in
  let* email := read_field path "user.email" in
  ret (name, email).

Definition verify_identity (path : option rstr) : M unit :=
  let* expected := commit_author_identity in
  let* ambient := ambient_git_identity path in
  if bool_decide (ambient = expected) then warn else fail GIdentityMismatch.

(** ** The delegation *)

Definition gh_env_gates_and_mint : M (option (rstr * rstr)) :=
  let* config := resolved_config in
  let* required := effective_required_mode in
  let* bot_identity :=
    (if required then
       match require_service_identity config with
       | Err _ => fail GIncomplete
       | Ok _ => let* identity := require_bot_git_identity in ret (Some identity)
       end
     else ret None) in
  let* _ := mint_installation_token in
  ret bot_identity.

Definition program_of (command : list rstr) : rstr := default [] (head command).

(** [process::exit] is the error [GExit]. *)
Definition gh_env_spawn_child (command : list rstr) (identity : option (rstr * rstr)) (capture_stdout : bool) : M rstr :=
  let* found := which_executable (program_of command) in
  if negb found then fail GNotFound
  else
    let* output := exchange (λ w, spawn_child w command identity capture_stdout) (VSpawn command identity capture_stdout)
                     (λ a, match a with Some a => Ok a | None => Err GSpawn end) in
    if negb (success output.1) then fail (GExit (default 1%Z output.1))
    else ret (if capture_stdout then output.2 else []).

Definition gh_env (command : list rstr) : M unit :=
  if is_empty command then fail GNoCommand
  else
    let* found := which_executable (program_of command) in
    if negb found then fail GNotFound
    else
      let* required := effective_required_mode in
      if required && negb (bool_decide (child_command_is_pr_create command = ShapeNo)) then fail GRefusedPrCreate
      else
        let* bot_identity := gh_env_gates_and_mint in
        let* _ := gh_env_spawn_child command bot_identity false in
        ret tt.

(** ** Pull requests *)

Definition git_repo_root : M rstr :=
  let* output := git_command [lit "rev-parse"; lit "--show-toplevel"] in
  if negb (success output.1) || is_empty (trim output.2) then fail GNoRoot else ret (trim output.2).

Definition join (root path : rstr) : rstr := if ends_with 47 root then root ++ path else root ++ 47 :: path.

Definition SCRIPTS : string := ".agents/skills/github-pr-lifecycle/scripts/".

Definition is_file (path : rstr) : M bool := exchange (λ w, file_exists w path) (VIsFile path) Ok.

(** The number and the repository of the pull request a URL names. *)
Definition url_parts (pr_url : rstr) : rstr * rstr :=
  let parts := reverse (split 47 (trim pr_url)) in
  (default [] (parts !! 0%nat),
   match parts !! 2%nat, parts !! 3%nat with Some name, Some owner => owner ++ 47 :: name | _, _ => [] end).

Fixpoint run_labeling_chain (pr_number repo : rstr) (scripts : list rstr) : M unit :=
  match scripts with
  | [] => ret tt
  | script :: scripts =>
      let* output := exchange (λ w, run_script w script pr_number repo) (VScript script pr_number repo) Ok in
      let* _ := match output with
                | None => let* _ := warn in warn
                | Some (code, stdout) =>
                    let* _ := (if is_empty stdout then ret tt else warn) in
                    if success code then ret tt else let* _ := warn in warn
                end in
      run_labeling_chain pr_number repo scripts
  end.

(** What follows the creation. *)
Definition label_created (repo pr_url : rstr) (scripts : list rstr) : M unit :=
  let* _ := exchange (λ w, write_stdout w pr_url) (VStdout pr_url) (λ ok, if ok then Ok tt else Err GWrite) in
  let '(pr_number, url_repo) := url_parts pr_url in
  if is_empty pr_number || negb (forallb is_ascii_digit pr_number) then warn
  else if is_empty url_repo || negb (eq_ignore_ascii_case url_repo repo) then warn
  else run_labeling_chain pr_number repo scripts.

Definition gh_env_pr_create_chain (repo : rstr) (command : list rstr) : M unit :=
  if is_empty command then fail GNoCommand
  else if negb (bool_decide (child_command_is_pr_create command = ShapeYes)) then fail GNotPrCreate
  else
    let* repo_root := git_repo_root in
    let pr_labels := join repo_root (lit SCRIPTS ++ lit "pr-labels") in
    let pr_labels_from_issue := join repo_root (lit SCRIPTS ++ lit "pr-labels-from-issue") in
    let* labels := is_file pr_labels in
    let* from_issue := (if labels then is_file pr_labels_from_issue else ret false) in
    if negb from_issue then fail GNoScripts
    else
      let* found := which_executable (program_of command) in
      if negb found then fail GNotFound
      else
        let* bot_identity := gh_env_gates_and_mint in
        let* pr_url := gh_env_spawn_child command bot_identity true in
        label_created repo pr_url [pr_labels; pr_labels_from_issue].
End delegation.
