(* ===== verification/GhEnvSafe.v ===== *)
(** * Delegating the installation token, its theorems

    What a child of [GhEnv.v] needs before it gets the token and what follows it,
    for every outside; the classification of the child against the positional
    words of its arguments. *)

From S2P Require Import Prelude BTree Text Substring Events Board Config PrStatus Traced PushBranch GhEnv.

(** ** The shape, by its positional words *)

(** How the walk over the known flags ends. *)
Inductive Ending := EndOfArgs | Separator | Unproven.

(** The positional words of an argument list up to its end, to [--] or to a token
    that is no known flag. *)
Fixpoint words (command : list rstr) (skip : bool) : list rstr * Ending :=
  match command with
  | [] => ([], EndOfArgs)
  | arg :: command =>
      if skip then words command false
      else if bool_decide (arg = lit "--") then ([], Separator)
      else match strip_prefix (lit "--") arg with
      | Some name =>
          if existsb (N.eqb 61) arg then words command false
          else if one_of_lits VALUE_LONG_FLAGS name then words command true
          else ([], Unproven)
      | None =>
          if bool_decide (arg = lit "-") then ([], Unproven)
          else match strip_prefix (lit "-") arg with
          | Some rest =>
              match short_cluster (default 32 (list.last rest)) rest false with
              | Some value_flag => words command value_flag
              | None => ([], Unproven)
              end
          | None => let '(l, e) := words command false in (arg :: l, e)
          end
      end
  end.

(** [gh], [pr], and [create] or its alias. *)
Definition shape_of_words (w : list rstr * Ending) : PrCreateShape :=
  match w.1 with
  | gh :: rest =>
      if negb (is_gh gh) then ShapeNo
      else match rest with
      | pr :: rest =>
          if negb (bool_decide (pr = lit "pr")) then ShapeNo
          else match rest with
          | verb :: _ => if bool_decide (verb = lit "create") || bool_decide (verb = lit "new") then ShapeYes else ShapeNo
          | [] => match w.2 with Separator => ShapeYes | _ => ShapeAmbiguous end
          end
      | [] => ShapeAmbiguous
      end
  | [] => ShapeAmbiguous
  end.

(** The walk from a stage, by the words that follow. *)
Definition shape_from (stage : nat) (w : list rstr * Ending) : PrCreateShape :=
  match stage with
  | O => shape_of_words w
  | S O => shape_of_words (lit "gh" :: w.1, w.2)
  | _ => shape_of_words (lit "gh" :: lit "pr" :: w.1, w.2)
  end.

Lemma shape_walk_words command skip stage :
  (stage <= 2)%nat → shape_walk command skip stage = shape_from stage (words command skip).
Proof.
  intros Hs. assert (is_gh (lit "gh") = true) as Hgh by done.
  assert (stage = 0%nat ∨ stage = 1%nat ∨ stage = 2%nat) as Hc by lia. clear Hs.
  assert (∀ st e, st = 0%nat ∨ st = 1%nat ∨ st = 2%nat →
    shape_from st ([], e) = if (st =? 2)%nat then match e with Separator => ShapeYes | _ => ShapeAmbiguous end else ShapeAmbiguous) as Hend.
  { intros st e [->|[-> | ->]]; done. }
  revert skip stage Hc. induction command as [|arg command IH]; intros skip stage Hc; cbn [shape_walk words].
  { rw Hend; [|done]. by destruct (stage =? 2)%nat. }
  destruct skip; [by apply IH|]. case_bool_decide; [rw Hend; done|].
  destruct (strip_prefix (lit "--") arg) as [name|].
  { destruct (existsb _ arg); [by apply IH|]. destruct (one_of_lits _ _); [by apply IH|]. rw Hend; [|done].
    by destruct (stage =? 2)%nat. }
  case_bool_decide; [rw Hend; [|done]; by destruct (stage =? 2)%nat|].
  destruct (strip_prefix (lit "-") arg) as [rest|].
  { destruct (short_cluster _ _ _); [by apply IH|]. rw Hend; [|done]. by destruct (stage =? 2)%nat. }
  destruct (words command false) as [l e] eqn:Ew.
  destruct Hc as [->|[-> | ->]]; cbn [shape_from shape_of_words fst snd]; rw ?Hgh; cbn [negb].
  - destruct (is_gh arg) eqn:Eg; [|done]. cbn [negb]. rw IH; [|auto]. rw Ew. cbn [shape_from shape_of_words fst snd]. by rw Hgh.
  - case_bool_decide as Ep; [|done]. cbn [negb]. rw IH; [|auto]. rw Ew. subst arg.
    cbn [shape_from shape_of_words fst snd]. rw Hgh. cbn [negb]. done.
  - done.
Qed.

(** The classification is that of the positional words. *)
Lemma shape_by_words command : child_command_is_pr_create command = shape_of_words (words command false).
Proof. apply shape_walk_words. lia. Qed.

(** The words create a pull request: [gh pr create], or [gh pr --]. *)
Definition pr_create_words (w : list rstr * Ending) : Prop :=
  ∃ gh rest, w.1 = gh :: lit "pr" :: rest ∧ is_gh gh = true
    ∧ ((rest = [] ∧ w.2 = Separator) ∨ ∃ verb tail, rest = verb :: tail ∧ (verb = lit "create" ∨ verb = lit "new")).

(** One of the first three words is another one. *)
Definition other_words (w : list rstr * Ending) : Prop :=
  (∃ gh rest, w.1 = gh :: rest ∧ is_gh gh = false)
  ∨ (∃ gh pr rest, w.1 = gh :: pr :: rest ∧ pr ≠ lit "pr")
  ∨ (∃ gh pr verb rest, w.1 = gh :: pr :: verb :: rest ∧ verb ≠ lit "create" ∧ verb ≠ lit "new").

Lemma shape_yes command : child_command_is_pr_create command = ShapeYes → pr_create_words (words command false).
Proof.
  rw shape_by_words. destruct (words command false) as [[|gh [|pr [|verb l]]] e]; unfold shape_of_words; cbn [fst snd];
    try (destruct (is_gh gh) eqn:Eg; cbn [negb]; try done); try (case_bool_decide as Ep; cbn [negb]; try done; subst pr); try done.
  - destruct e; try done. intros _. exists gh, []. split_and!; [done..|]. by left.
  - intros H. exists gh, (verb :: l). split_and!; [done..|]. right. exists verb, l. split; [done|].
    do 2 case_bool_decide; auto. done.
Qed.

Lemma shape_no command : child_command_is_pr_create command = ShapeNo → other_words (words command false).
Proof.
  rw shape_by_words. destruct (words command false) as [[|gh l] e]; unfold shape_of_words; cbn [fst snd]; [done|].
  destruct (is_gh gh) eqn:Eg; cbn [negb]; [|by left; exists gh, l].
  destruct l as [|pr l]; [done|]. case_bool_decide as Ep; cbn [negb]; [|by right; left; exists gh, pr, l].
  destruct l as [|verb l]; [by destruct e|]. do 2 case_bool_decide; try done. intros _. right; right. by exists gh, pr, verb, l.
Qed.

Example shapes :
  child_command_is_pr_create (lit <$> ["gh"; "-R"; "o/r"; "pr"; "new"]%string) = ShapeYes
  ∧ child_command_is_pr_create (lit <$> ["/usr/bin/gh"; "pr"; "view"; "create"]%string) = ShapeNo
  ∧ child_command_is_pr_create (lit <$> ["gh"; "pr"; "--draft"; "create"]%string) = ShapeAmbiguous
  ∧ child_command_is_pr_create (lit <$> ["env"; "gh"; "pr"; "create"]%string) = ShapeNo.
Proof. vm_compute. done. Qed.

(** A value flag written twice in a cluster is not ambiguous: it takes the next
    token, which [gh] reads as the subcommand. *)
Example repeated_value_flag :
  child_command_is_pr_create (lit <$> ["gh"; "pr"; "-HH"; "create"; "x"]%string) = ShapeNo.
Proof. vm_compute. done. Qed.

(** ** What is established before the child *)

Definition no_spawn (e : DelegationEvent) : bool := match e with VSpawn _ _ _ _ => false | _ => true end.

(** GitHub named the application and its bot user. *)
Definition canonical (t : list DelegationEvent) (identity : rstr * rstr) : Prop :=
  ∃ response response' app slug user,
    VRequest (lit "app") (Some response) ∈ t ∧ body_of response = Ok app ∧ app_slug app = Ok slug
    ∧ VRequest (lit "users/" ++ bot_login slug) (Some response') ∈ t ∧ body_of response' = Ok user
    ∧ derive_commit_identity slug user = Ok identity.

(** The mode was decided from the configuration and the pin. *)
Definition mode_read (t : list DelegationEvent) (required : bool) : Prop :=
  ∃ pre config pinned post,
    t = pre ++ VConfig (Some config) :: VPin pinned :: post ∧ required_mode config pinned = Ok required.

(** A complete service identity, and the address of its bot in the repository. *)
Definition service_identity (t : list DelegationEvent) (identity : rstr * rstr) : Prop :=
  canonical t identity
  ∧ (∃ config, VConfig (Some config) ∈ t ∧ require_service_identity config = Ok tt)
  ∧ ∃ out, VGit (config_get "user.email") (Some (Some 0%Z, out)) ∈ t ∧ trim out = identity.2.

Definition gates_passed (t : list DelegationEvent) (identity : option (rstr * rstr)) : Prop :=
  VMint true ∈ t
  ∧ ((identity = None ∧ mode_read t false)
     ∨ ∃ pair, identity = Some pair ∧ mode_read t true ∧ service_identity t pair).

Section facts.
Context {W : Type} `{Henv : DelegationEnv W}.
Implicit Types t : list DelegationEvent.

Local Abbreviation M := (Traced.M W DelegationEvent DelegationError).

(** A computation that starts no child and, where it returns, establishes [F]. *)
Definition yields {A} (m : M A) t (F : list DelegationEvent → A → Prop) : Prop :=
  wp m t (λ t' r, adds no_spawn t t' ∧ ∀ a, r = Ok a → F t' a).

Lemma yields_bind {A B} (m : M A) (k : A → M B) t F G :
  yields m t F → (∀ t' a, adds no_spawn t t' → F t' a → yields (k a) t' G) → yields (bind m k) t G.
Proof.
  intros Hm Hk. apply wp_seq. eapply wp_weaken; [exact Hm|]. intros t' [a|e] [Ht HF]; [|by split].
  eapply wp_weaken; [by apply Hk, HF|]. intros t'' r [Ht' HG]. split; [by etrans|done].
Qed.

Lemma yields_ret {A} (a : A) t (F : _ → A → Prop) : F t a → yields (ret a) t F.
Proof. intros H. apply wp_ret. split; [done|]. by intros ? [= <-]. Qed.

Lemma yields_fail {A} e t (F : _ → A → Prop) : yields (fail e) t F.
Proof. apply wp_fail. by split. Qed.

Lemma yields_of_result {A} (r : result A _) t (F : _ → A → Prop) : (∀ a, r = Ok a → F t a) → yields (of_result r) t F.
Proof. intros H. by apply wp_of_result. Qed.

Lemma yields_exchange {A B} (ask : W → W * B) event (out : B → result A _) t (F : _ → A → Prop) :
  (∀ b, no_spawn (event b) = true) → (∀ b a, out b = Ok a → F (t ++ [event b]) a) → yields (exchange ask event out) t F.
Proof. intros Hn HF. apply wp_exchange. intros b. split; [by apply adds_snoc|]. intros a. apply HF. Qed.

Lemma adds_elem P t t' e : adds P t t' → e ∈ t → e ∈ t'.
Proof. intros (l & -> & _). set_solver. Qed.

Lemma mode_mono P t t' m : adds P t t' → mode_read t m → mode_read t' m.
Proof.
  intros (l & -> & _) (pre & c & p & post & -> & H). exists pre, c, p, (post ++ l). split; [|done].
  by rw -app_assoc.
Qed.

Lemma canonical_mono P t t' i : adds P t t' → canonical t i → canonical t' i.
Proof.
  intros Ha (r & r' & app & slug & user & H1 & H2 & H3 & H4 & H5). exists r, r', app, slug, user.
  split_and!; [by eapply adds_elem|done|done|by eapply adds_elem|apply H5..].
Qed.

Lemma yields_config t : yields resolved_config t (λ t' c, ∃ t0, t' = t0 ++ [VConfig (Some c)]).
Proof. apply yields_exchange; [done|]. intros [c'|] a [= ->]. by eexists. Qed.

Lemma yields_mode t : yields effective_required_mode t mode_read.
Proof.
  eapply yields_bind; [apply yields_config|]. intros t1 c _ [t0 ->].
  eapply (yields_bind _ _ _ (λ t' p, t' = (t0 ++ [VConfig (Some c)]) ++ [VPin p])).
  { apply yields_exchange; [done|]. by intros p a [= ->]. }
  intros t2 p _ ->. apply yields_of_result. intros m Hm. exists t0, c, p, []. split; [|done]. by rw -app_assoc.
Qed.

Lemma yields_mint t : yields mint_installation_token t (λ t' _, VMint true ∈ t').
Proof.
  eapply yields_bind; [apply yields_config|]. intros t1 c _ _.
  eapply (yields_bind _ _ _ (λ _ _, True)); [by apply yields_of_result|]. intros t2 [] _ _.
  apply yields_exchange; [done|]. intros [] a; [|done]. intros _. set_solver.
Qed.

Lemma yields_request path t : yields (request path) t (λ t' response, VRequest path (Some response) ∈ t').
Proof. apply yields_exchange; [done|]. intros [b|] a [= ->]. set_solver. Qed.

Lemma yields_identity t : yields commit_author_identity t canonical.
Proof.
  eapply yields_bind; [apply yields_config|]. intros t1 c _ _.
  eapply (yields_bind _ _ _ (λ _ _, True)); [by apply yields_of_result|]. intros t2 [] _ _.
  eapply (yields_bind _ _ _ (λ _ _, True)); [by apply yields_exchange|]. intros t3 [] _ _.
  eapply yields_bind; [apply yields_request|]. intros t4 response _ H4.
  eapply (yields_bind _ _ _ (λ t' app, t' = t4 ∧ body_of response = Ok app)); [by apply yields_of_result|].
  intros ? app _ [-> Happ].
  eapply (yields_bind _ _ _ (λ t' slug, t' = t4 ∧ app_slug app = Ok slug)); [by apply yields_of_result|].
  intros ? slug _ [-> Hslug].
  eapply yields_bind; [apply yields_mint|]. intros t5 [] H45 _.
  eapply yields_bind; [apply yields_request|]. intros t6 response' H56 H6.
  eapply (yields_bind _ _ _ (λ t' user, t' = t6 ∧ body_of response' = Ok user)); [by apply yields_of_result|].
  intros ? user _ [-> Huser]. apply yields_of_result. intros i Hi.
  exists response, response', app, slug, user. split_and!; try done. eapply adds_elem; [exact H56|by eapply adds_elem].
Qed.

Lemma yields_bot_identity t :
  yields require_bot_git_identity t (λ t' pair, canonical t' pair
    ∧ ∃ out, VGit (config_get "user.email") (Some (Some 0%Z, out)) ∈ t' ∧ trim out = pair.2).
Proof.
  eapply (yields_bind _ _ _ (λ t' o, VGit (config_get "user.email") (Some o) ∈ t')).
  { apply yields_exchange; [done|]. intros [o|] a [= ->]. set_solver. }
  intros t1 [code out] _ H1. cbn [fst snd]. unfold success. case_bool_decide as Hc; [|apply yields_fail]. subst code.
  destruct (is_empty (trim out)); [apply yields_fail|]. cbn [negb orb].
  eapply yields_bind; [apply yields_identity|]. intros t2 pair H12 Hpair.
  case_bool_decide as He; [|apply yields_fail]. apply yields_ret. split; [done|]. exists out.
  split; [by eapply adds_elem|done].
Qed.

Lemma yields_gates t : yields gh_env_gates_and_mint t gates_passed.
Proof.
  eapply yields_bind; [apply yields_config|]. intros t1 config _ [t0 H1].
  eapply yields_bind; [apply yields_mode|]. intros t2 required H12 Hmode.
  eapply (yields_bind _ _ _ (λ t' identity, adds no_spawn t2 t' ∧
    ((identity = None ∧ required = false) ∨ ∃ pair, identity = Some pair ∧ required = true ∧ service_identity t' pair))).
  - destruct required; [|apply yields_ret; split; [done|by left]].
    destruct (require_service_identity config) as [[]|] eqn:Es; [|apply yields_fail].
    eapply yields_bind; [apply yields_bot_identity|]. intros t3 pair H23 [Hc Hg].
    apply yields_ret. split; [done|]. right. exists pair. split; [done|]. split; [done|]. split; [done|].
    split; [|done]. exists config. split; [|done].
    eapply adds_elem; [exact H23|]. eapply adds_elem; [exact H12|]. rw H1. set_solver.
  - intros t3 identity _ [H23 Hi]. eapply yields_bind; [apply yields_mint|]. intros t4 [] H34 Hmint.
    apply yields_ret. split; [done|]. assert (mode_read t4 required) as Hm4.
    { eapply mode_mono; [exact H34|]. by eapply mode_mono. }
    destruct Hi as [[-> ->]|(pair & -> & -> & Hc & (c & Hin & Hs) & o & Ho & Heq)]; [by left|right].
    exists pair. split; [done|]. split; [done|]. split; [by eapply canonical_mono|].
    split; [exists c|exists o]; (split; [by eapply adds_elem|done]).
Qed.
End facts.

(** ** A delegation *)

(** [gh-env], and [gh-env-pr-create-chain] for a repository. *)
Inductive Delegation := Plain | PrCreateChain (repo : rstr).

Definition captures (d : Delegation) : bool := match d with Plain => false | PrCreateChain _ => true end.

(** What a child's end makes of the command. *)
Definition child_result (capture : bool) (answer : option Exit) : result rstr DelegationError :=
  match answer with
  | None => Err GSpawn
  | Some (code, out) => if success code then Ok (if capture then out else []) else Err (GExit (default 1%Z code))
  end.

Definition script_call (e : DelegationEvent) : option (rstr * rstr * rstr) :=
  match e with VScript script n repo _ => Some (script, n, repo) | _ => None end.

(** The pull request a URL names is in the repository. *)
Definition names_pr (repo pr_url : rstr) : bool :=
  let '(n, url_repo) := url_parts pr_url in
  negb (is_empty n) && forallb is_ascii_digit n && negb (is_empty url_repo) && eq_ignore_ascii_case url_repo repo.

(** The labeling calls a created pull request asks for. *)
Definition label_calls (repo pr_url : rstr) (scripts : list rstr) : list (option (rstr * rstr * rstr)) :=
  if names_pr repo pr_url then (λ s, Some (s, (url_parts pr_url).1, repo)) <$> scripts else [].

(** After the creation: the URL is printed and the labels are applied; only a
    closed output stops the command, and nothing else fails it. *)
Definition labelled (repo pr_url : rstr) (scripts : list rstr) (rest : list DelegationEvent) (r : result unit DelegationError) : Prop :=
  ∃ ok calls, rest = VStdout pr_url ok :: calls
    ∧ ((r = Ok tt ∧ ok = true ∧ script_call <$> calls = label_calls repo pr_url scripts)
       ∨ (r = Err GWrite ∧ (script_call <$> calls) `prefix_of` label_calls repo pr_url scripts)).

(** Both scripts were found. *)
Definition scripts_found (t : list DelegationEvent) (scripts : list rstr) : Prop :=
  length scripts = 2%nat ∧ ∀ s, s ∈ scripts → VIsFile s true ∈ t.

Definition followed (d : Delegation) (t : list DelegationEvent) (answer : option Exit) (rest : list DelegationEvent)
    (r : result unit DelegationError) : Prop :=
  match child_result (captures d) answer with
  | Err e => rest = [] ∧ r = Err e
  | Ok out =>
      match d with
      | Plain => rest = [] ∧ r = Ok tt
      | PrCreateChain repo => ∃ scripts, scripts_found t scripts ∧ labelled repo out scripts rest r
      end
  end.

Definition shape_allowed (d : Delegation) (command : list rstr) (t : list DelegationEvent) : Prop :=
  match d with
  | Plain => other_words (words command false) ∨ mode_read t false
  | PrCreateChain _ => pr_create_words (words command false)
  end.

(** What the exchanges [t] before the child established. *)
Definition delegated (d : Delegation) (command : list rstr) (identity : option (rstr * rstr)) (t : list DelegationEvent) : Prop :=
  VWhich (program_of command) true ∈ t ∧ gates_passed t identity ∧ shape_allowed d command t.

Section runs.
Context {W : Type} `{Henv : DelegationEnv W}.
Implicit Types t : list DelegationEvent.

Local Abbreviation M := (Traced.M W DelegationEvent DelegationError).

Definition run_delegation (d : Delegation) (command : list rstr) : M unit :=
  match d with Plain => gh_env command | PrCreateChain repo => gh_env_pr_create_chain repo command end.

(** No child, and an error; or one child, with its gates before it. *)
Definition one_child (d : Delegation) (command : list rstr) t (r : result unit DelegationError) : Prop :=
  (adds no_spawn [] t ∧ ∃ e, r = Err e)
  ∨ ∃ t1 identity answer rest,
      adds no_spawn [] t1 ∧ t = t1 ++ VSpawn command identity (captures d) answer :: rest
      ∧ Forall (λ e, no_spawn e = true) rest
      ∧ delegated d command identity t1 ∧ followed d t1 answer rest r.

Lemma wp_labeling n repo scripts t :
  wp (run_labeling_chain n repo scripts) t (λ t' r, ∃ l, t' = t ++ l
    ∧ let calls := (λ s, Some (s, n, repo)) <$> scripts in
      (r = Ok tt ∧ script_call <$> l = calls) ∨ (r = Err GWrite ∧ (script_call <$> l) `prefix_of` calls)).
Proof.
  revert t. induction scripts as [|s scripts IH]; intros t; cbn [run_labeling_chain].
  - apply wp_ret. exists []. rw app_nil_r. split; [done|by left].
  - apply wp_seq, wp_exchange. intros output. apply wp_seq.
    apply (wp_weaken _ _ (λ t' r, t' = t ++ [VScript s n repo output] ∧ (r = Ok tt ∨ r = Err GWrite))).
    { assert (∀ t', wp (W := W) (E := DelegationEvent) (bind warn (λ _, warn)) t' (λ t'' r, t'' = t' ∧ (r = Ok tt ∨ r = Err GWrite))) as Hw.
      { intros t'. apply wp_seq, wp_silent. intros []; [|by split; [|right]]. apply wp_silent.
        intros []; (split; [done|]); auto. }
      destruct output as [[code out]|]; [|apply Hw].
      apply wp_seq. apply (wp_weaken _ _ (λ t' r, t' = t ++ [VScript s n repo (Some (code, out))] ∧ (r = Ok tt ∨ r = Err GWrite))).
      { destruct (is_empty out); [by apply wp_ret; split; [|left]|]. apply wp_silent. intros []; (split; [done|]); auto. }
      intros t' [[]|e] [-> Hr]; [|by split; [|destruct Hr as [|[= ->]]; [done|right]]].
      destruct (success code); [by apply wp_ret; split; [|left]|apply Hw]. }
    intros t' [[]|e] [-> Hr].
    + eapply wp_weaken; [apply IH|]. intros t'' r (l & -> & Hl). exists (VScript s n repo output :: l).
      rw -app_assoc. split; [done|]. cbn. destruct Hl as [[-> ->]|[-> Hp]]; [by left|right]. split; [done|].
      by apply prefix_cons.
    + destruct Hr as [|[= ->]]; [done|]. exists [VScript s n repo output]. split; [done|]. right. split; [done|].
      apply (prefix_cons (Some (s, n, repo)) []), prefix_nil.
Qed.

Lemma wp_label_created repo pr_url scripts t :
  wp (label_created repo pr_url scripts) t (λ t' r, ∃ rest, t' = t ++ rest ∧ labelled repo pr_url scripts rest r).
Proof.
  unfold label_created. apply wp_seq, wp_exchange. intros ok. destruct ok.
  2: { exists [VStdout pr_url false]. split; [done|]. exists false, []. split; [done|]. right. split; [done|]. apply prefix_nil. }
  destruct (url_parts pr_url) as [n url_repo] eqn:Eu.
  assert (∀ b, names_pr repo pr_url = b → b = false →
    wp (W := W) warn (t ++ [VStdout pr_url true]) (λ t' r, ∃ rest, t' = t ++ rest ∧ labelled repo pr_url scripts rest r)) as Hno.
  { intros b Hb ->. apply wp_silent. intros w. exists [VStdout pr_url true]. split; [done|]. exists true, []. split; [done|].
    unfold label_calls. rw Hb. destruct w; [by left|by right]. }
  unfold names_pr in Hno. rw Eu in Hno.
  destruct (is_empty n || negb (forallb is_ascii_digit n)) eqn:En; [eapply Hno; [done|]; lia|].
  destruct (is_empty url_repo || negb (eq_ignore_ascii_case url_repo repo)) eqn:Er; [eapply Hno; [done|]; lia|].
  eapply wp_weaken; [apply wp_labeling|]. intros t' r (l & -> & Hl). exists (VStdout pr_url true :: l).
  rw -app_assoc. split; [done|]. exists true, l. split; [done|].
  assert (label_calls repo pr_url scripts = (λ s, Some (s, n, repo)) <$> scripts) as ->.
  { unfold label_calls, names_pr. rw Eu. assert (negb (is_empty n) && forallb is_ascii_digit n && negb (is_empty url_repo)
      && eq_ignore_ascii_case url_repo repo = true) as -> by lia. done. }
  destruct Hl as [[-> Hl]|[-> Hl]]; [by left|by right].
Qed.

Lemma labelled_no_spawn repo pr_url scripts rest r :
  labelled repo pr_url scripts rest r → Forall (λ e, no_spawn e = true) rest.
Proof.
  intros (ok & calls & -> & H). constructor; [done|].
  assert ((script_call <$> calls) `prefix_of` label_calls repo pr_url scripts) as Hp.
  { destruct H as [(_ & _ & ->)|[_ H]]; done. }
  apply Forall_forall. intros e He. assert (script_call e ∈ label_calls repo pr_url scripts) as Hin.
  { destruct Hp as [k ->]. apply elem_of_app. left. by apply list_elem_of_fmap_2. }
  unfold label_calls in Hin. destruct (names_pr repo pr_url); [|by apply not_elem_of_nil in Hin].
  apply list_elem_of_fmap in Hin as (s & Hs & _). by destruct e.
Qed.
Lemma adds_no_spawn t t' : adds no_spawn t t' → adds no_spawn [] t → adds no_spawn [] t'.
Proof. intros H1 H2. by etrans. Qed.

Lemma gates_mono t t' i : adds no_spawn t t' → gates_passed t i → gates_passed t' i.
Proof.
  intros Ha [Hm Hi]. split; [by eapply adds_elem|].
  destruct Hi as [[-> Hr]|(pair & -> & Hr & Hc & (c & Hin & Hs) & o & Ho & Heq)]; [left|right].
  - split; [done|by eapply mode_mono].
  - exists pair. split; [done|]. split; [by eapply mode_mono|]. split; [by eapply canonical_mono|].
    split; [exists c|exists o]; (split; [by eapply adds_elem|done]).
Qed.

Lemma shape_mono d command t t' : adds no_spawn t t' → shape_allowed d command t → shape_allowed d command t'.
Proof. intros Ha. destruct d; [|done]. intros [H|H]; [by left|right]. by eapply mode_mono. Qed.

Lemma wp_spawn command identity capture t :
  wp (gh_env_spawn_child command identity capture) t (λ t' r,
    (adds no_spawn t t' ∧ r = Err GNotFound)
    ∨ ∃ t1 answer, adds no_spawn t t1 ∧ t' = t1 ++ [VSpawn command identity capture answer]
        ∧ VWhich (program_of command) true ∈ t1 ∧ r = child_result capture answer).
Proof.
  apply wp_seq, wp_exchange. intros []; [|left; split; [by apply adds_snoc|done]].
  apply wp_seq, wp_exchange. intros answer.
  assert (∀ r, r = child_result capture answer → ∃ t1 a, adds no_spawn t t1
    ∧ (t ++ [VWhich (program_of command) true]) ++ [VSpawn command identity capture answer] = t1 ++ [VSpawn command identity capture a]
    ∧ VWhich (program_of command) true ∈ t1 ∧ r = child_result capture a) as Hr.
  { intros r ->. exists (t ++ [VWhich (program_of command) true]), answer. split; [by apply adds_snoc|].
    split; [done|]. split; [set_solver|done]. }
  destruct answer as [[code out]|]; [|by right; apply Hr]. cbn [snd fst].
  destruct (success code) eqn:E; [apply wp_ret|apply wp_fail]; right; apply Hr; cbn [child_result]; by rw E.
Qed.

(** The gates, the child and what follows, from the cleared exchanges [t]. *)
Lemma wp_delegate d command t (k : rstr → M unit) :
  adds no_spawn [] t → shape_allowed d command t →
  (∀ t1 t' a out, adds no_spawn t t1 → child_result (captures d) a = Ok out →
     wp (k out) t' (λ t'' r, ∃ rest, t'' = t' ++ rest ∧ Forall (λ e, no_spawn e = true) rest ∧ followed d t1 a rest r)) →
  wp (bind gh_env_gates_and_mint (λ identity, bind (gh_env_spawn_child command identity (captures d)) k)) t (one_child d command).
Proof.
  intros Ht Hs Hk. apply wp_seq. eapply wp_weaken; [apply yields_gates|]. intros t1 [identity|e] [H1 Hg].
  2: { left. split; [by etrans|by eexists]. }
  specialize (Hg _ eq_refl). apply wp_seq. eapply wp_weaken; [apply wp_spawn|].
  intros t' r [[H2 ->]|(t2 & a & H2 & -> & Hw & ->)].
  { left. split; [|by eexists]. etrans; [exact Ht|]. by etrans. }
  assert (adds no_spawn t t2) as H12 by by etrans. assert (adds no_spawn [] t2) as H02 by by etrans.
  assert (delegated d command identity t2) as Hd.
  { split; [done|]. split; [by apply (gates_mono t1)|by apply (shape_mono _ _ t)]. }
  destruct (child_result (captures d) a) as [out|e] eqn:Er.
  - eapply wp_weaken; [by apply (Hk t2 _ a out)|]. intros t'' r (rest & -> & Hrest & Hf). right.
    exists t2, identity, a, rest. rw -app_assoc. split_and!; try done; apply Hd.
  - right. exists t2, identity, a, []. split; [done|]. split; [done|]. split; [done|]. split; [done|].
    unfold followed. by rw Er.
Qed.

Lemma run_one_child d command : wp (run_delegation d command) [] (one_child d command).
Proof.
  assert (∀ t, adds no_spawn [] t → ∀ e, one_child d command t (Err e)) as Hno.
  { intros t Ht e. left. split; [done|by eexists]. }
  destruct d as [|repo]; cbn [run_delegation].
  - unfold gh_env. destruct (is_empty command); [by apply wp_fail, Hno|].
    apply wp_seq, wp_exchange. intros found. set (t1 := [] ++ _). assert (adds no_spawn [] t1) as H1 by by apply adds_snoc.
    destruct found; cbn [negb]; [|by apply wp_fail, Hno].
    apply wp_seq. eapply wp_weaken; [apply yields_mode|]. intros t2 [required|e] [H12 Hm]; [|apply Hno; by etrans].
    specialize (Hm _ eq_refl). assert (adds no_spawn [] t2) as H2 by by etrans.
    destruct (required && _) eqn:Es; [by apply wp_fail, Hno|].
    apply (wp_delegate Plain); [done| |].
    + destruct required; [left|by right]. cbn [andb] in Es. apply shape_no. by case_bool_decide.
    + intros t3 t' a out _ Hr. apply wp_ret. exists []. rw app_nil_r. split; [done|]. split; [done|].
      unfold followed. by rw Hr.
  - unfold gh_env_pr_create_chain. destruct (is_empty command); [by apply wp_fail, Hno|].
    case_bool_decide as Eshape; [|by apply wp_fail, Hno]. cbn [negb]. apply shape_yes in Eshape.
    apply wp_seq. apply (wp_weaken _ _ (λ t' _, adds no_spawn [] t')).
    { apply (wp_emits no_spawn); [|done]. unfold git_repo_root, git_command. solve_emits. }
    intros t1 [root|e] H1; [|by apply Hno]. cbv zeta. set (l1 := join _ _). set (l2 := join _ _).
    apply wp_seq, wp_exchange. intros labels. set (t2 := t1 ++ _). assert (adds no_spawn t1 t2) as H12 by by apply adds_snoc.
    assert (adds no_spawn [] t2) as H02 by by etrans.
    apply wp_seq. apply (wp_weaken _ _ (λ t' r, adds no_spawn t2 t' ∧ (r = Ok true → labels = true ∧ VIsFile l2 true ∈ t'))).
    { destruct labels; [|by apply wp_ret]. apply wp_exchange. intros b. split; [by apply adds_snoc|].
      intros [= ->]. split; [done|set_solver]. }
    intros t3 [[]|e] [H23 Hf]; [|apply wp_fail, Hno; by etrans|apply Hno; by etrans]. destruct (Hf eq_refl) as [-> Hl2]. cbn [negb].
    assert (adds no_spawn [] t3) as H03 by by etrans.
    assert (scripts_found t3 [l1; l2]) as Hfound.
    { split; [done|]. intros s [->|[->|[]%not_elem_of_nil]%elem_of_cons]%elem_of_cons; [|done].
      eapply adds_elem; [exact H23|]. set_solver. }
    apply wp_seq, wp_exchange. intros found. set (t4 := t3 ++ _). assert (adds no_spawn t3 t4) as H34 by by apply adds_snoc.
    assert (adds no_spawn [] t4) as H04 by by etrans. destruct found; cbn [negb]; [|by apply wp_fail, Hno].
    apply (wp_delegate (PrCreateChain repo)); [done|done|]. intros t5 t' a out H45 Hr.
    eapply wp_weaken; [apply wp_label_created|]. intros t'' r (rest & -> & Hlab). exists rest. split; [done|].
    split; [by eapply labelled_no_spawn|]. unfold followed. rw Hr. exists [l1; l2]. split; [|done].
    destruct Hfound as [Hlen Hall]. split; [done|]. intros s Hs. eapply adds_elem; [exact H45|].
    eapply adds_elem; [exact H34|by apply Hall].
Qed.
End runs.

(** ** The theorem *)

Lemma split_at_spawn t1 c1 i1 k1 a1 l1 t2 c2 i2 k2 a2 l2 :
  Forall (λ e, no_spawn e = true) t1 → Forall (λ e, no_spawn e = true) l1 →
  t1 ++ VSpawn c1 i1 k1 a1 :: l1 = t2 ++ VSpawn c2 i2 k2 a2 :: l2 →
  t1 = t2 ∧ c1 = c2 ∧ i1 = i2 ∧ k1 = k2 ∧ a1 = a2 ∧ l1 = l2.
Proof.
  intros H1 Hl Heq. apply app_eq_app in Heq as (k & [[-> Hk]|[-> Hk]]).
  - destruct k as [|e k]; [rw app_nil_r; by injection Hk as -> -> -> -> ->|]. injection Hk as <- ->.
    apply Forall_app in H1 as [_ H1]. by apply Forall_cons in H1 as [? _].
  - destruct k as [|e k]; [rw app_nil_r; by injection Hk as -> -> -> -> ->|]. injection Hk as <- ->.
    apply Forall_app in Hl as [_ Hl]. by apply Forall_cons in Hl as [? _].
Qed.

(** C16. Whatever the configuration, the environment, [git], GitHub and the
    children answer: the minted token reaches at most one child per command, the
    caller's own, found on the path before.  Before it the enforcement mode was
    decided from the configuration and the pin; where it is required, a complete
    service identity was configured, the address of [git] in the repository is
    exactly the one GitHub's answers give for the bot, and the child's identity
    is pinned to it.  A child of [gh-env] has, unless the mode was read as not
    required, another one of the words [gh], [pr], [create] at its place, and a
    child of the chain has these: the words are the arguments without the flags,
    as the program's own table reads flags, so a wrapper or a flag it reads
    otherwise than [gh] escapes ([shapes], [repeated_value_flag]).  After a
    created pull request the chain prints its URL and calls the scripts of the
    labels for exactly that one, if it is in the named repository; whatever the
    scripts do, the command fails only when its output or a warning cannot be
    written. *)
Theorem token_child_gated {W} `{Henv : DelegationEnv W} d command w s r pre command' identity capture answer post :
  run_delegation d command {| world := w; trace := [] |} = (s, r) →
  trace s = pre ++ VSpawn command' identity capture answer :: post →
  command' = command
  ∧ Forall (λ e, no_spawn e = true) (pre ++ post)
  ∧ VWhich (program_of command) true ∈ pre
  ∧ gates_passed pre identity
  ∧ shape_allowed d command pre
  ∧ followed d pre answer post r.
Proof.
  intros Hrun Ht. destruct (run_wp _ _ _ _ _ (run_one_child d command) Hrun) as [[(l & Hl & Hq) _]|H].
  - exfalso. rw Hl in Ht. cbn [app] in Ht. subst l. apply Forall_app in Hq as [_ Hq]. by apply Forall_cons in Hq as [? _].
  - destruct H as (t1 & i & a & rest & (l & Hl & Hq) & Ht1 & Hrest & (Hw & Hg & Hs) & Hf). cbn [app] in Hl. subst l.
    rw Ht1 in Ht. apply split_at_spawn in Ht as (<- & <- & <- & _ & <- & <-); [|done..].
    split_and!; try done. by apply Forall_app_2.
Qed.

(** ** A run *)

Section example.
#[local] Instance ready : DelegationEnv unit := {
  read_config w := (w, Some (Some {| ga_enforcement := None; ga_slug := None; ga_client_id := Some (lit "c");
                                     ga_installation_id := Some 1; ga_private_key_uri := Some {| su_store := Keyring; su_id := lit "k" |} |}));
  read_pin w := (w, Some (lit "required"));
  which w _ := (w, true);
  run_git_config w args := (w, Some (Some 0%Z, if bool_decide (args = config_get "user.email")
                                               then lit "7+bot[bot]@users.noreply.github.com" else lit "/repo"));
  app_jwt w := (w, true);
  get_request w path := (w, Some (200, Some (if bool_decide (path = lit "app") then VObject [(lit "slug", VString (lit "bot"))]
                                             else VObject [(lit "id", VNumber (PosInt 7))])));
  mint_token w := (w, true);
  spawn_child w _ _ _ := (w, Some (Some 0%Z, lit "https://github.com/o/r/pull/12"));
  file_exists w _ := (w, true);
  write_stdout w _ := (w, true);
  write_stderr w := (w, true);
  run_script w _ _ _ := (w, None)
}.

Definition example_command : list rstr := lit <$> ["gh"; "pr"; "create"; "--draft"]%string.

Definition example_trace : list DelegationEvent :=
  Eval vm_compute in trace (run_delegation (PrCreateChain (lit "O/R")) example_command {| world := tt; trace := [] |}).1.

Lemma example_runs :
  run_delegation (PrCreateChain (lit "O/R")) example_command {| world := tt; trace := [] |}
  = ({| world := tt; trace := example_trace |}, Ok tt).
Proof. vm_compute. reflexivity. Qed.

Definition example_identity : option (rstr * rstr) := Some (lit "bot[bot]", lit "7+bot[bot]@users.noreply.github.com").

Definition example_child : option Exit := Some (Some 0%Z, lit "https://github.com/o/r/pull/12").

(** The child runs as the bot, and the scripts are called for the pull request
    of the URL although neither can be started. *)
Example example_delegates :
  drop 17 example_trace =
    [VSpawn example_command example_identity true example_child;
     VStdout (lit "https://github.com/o/r/pull/12") true;
     VScript (lit "/repo/.agents/skills/github-pr-lifecycle/scripts/pr-labels") (lit "12") (lit "O/R") None;
     VScript (lit "/repo/.agents/skills/github-pr-lifecycle/scripts/pr-labels-from-issue") (lit "12") (lit "O/R") None].
Proof. vm_compute. done. Qed.

Lemma example_spawns :
  example_trace = take 17 example_trace ++ VSpawn example_command example_identity true example_child :: drop 18 example_trace.
Proof. vm_compute. reflexivity. Qed.

Lemma token_child_gated_witness :
  example_trace = take 17 example_trace ++ VSpawn example_command example_identity true example_child :: drop 18 example_trace
  ∧ example_command = example_command
  ∧ Forall (λ e, no_spawn e = true) (take 17 example_trace ++ drop 18 example_trace)
  ∧ VWhich (program_of example_command) true ∈ take 17 example_trace
  ∧ gates_passed (take 17 example_trace) example_identity
  ∧ shape_allowed (PrCreateChain (lit "O/R")) example_command (take 17 example_trace)
  ∧ followed (PrCreateChain (lit "O/R")) (take 17 example_trace) example_child (drop 18 example_trace) (Ok tt).
Proof.
  split; [exact example_spawns|].
  exact (token_child_gated (PrCreateChain (lit "O/R")) example_command tt {| world := tt; trace := example_trace |} (Ok tt)
           (take 17 example_trace) example_command example_identity true example_child (drop 18 example_trace)
           example_runs example_spawns).
Defined.
End example.
